(* ===== verification/_CoqProject ===== *)
-Q . S2P
Prelude.v
RustStr.v
Names.v
AuthzPrivilege.v
AuthzSubject.v
AuthzObject.v
Floats.v
Arrow.v
Shuffle.v
Split.v
PermReader.v
PermBuilder.v
BackgroundCache.v
Dataset.v
Retry.v
Hybrid.v
ReadFreshness.v
Streams.v
Checkpoint.v
Listing.v
Jobs.v
WriteProgress.v
WalFusion.v
RustText.v
OAuthConfig.v
OAuthToken.v
OAuthFlow.v
TokenCache.v
Sidecar.v
Freshness.v
Schema.v
ComputedColumns.v
SchemaChanges.v
Refresh.v
Admission.v
ViewQuery.v
ViewPlan.v
View.v
ViewRefresh.v
SqlText.v
MergeBuilder.v
MemWal.v
ShardWriter.v
WriteCast.v
Scannable.v
AddData.v
Query.v
TakeQuery.v
LsmRead.v
QueryPlan.v
NamespaceQuery.v
ListingDb.v
