(* ===== verification/Prelude.v ===== *)
(** * LanceDB (rust/lancedb): a shallow embedding of the client's core logic

    LanceDB is an embedded vector database; the crate [rust/lancedb] is its
    Rust client.  It validates names and resources, keeps a consistent view of
    versioned tables, builds and reads permutations of a table for model
    training, keeps computed columns and materialized views up to date, writes
    through a write-ahead log, signs in to and talks to a remote server.
    Storage, the table format (Lance), the columnar kernels (Arrow), the query
    engine (DataFusion), the SQL parser, cryptography and HTTP are dependencies.
    This library models the client's own logic from the source and proves it
    correct.  All paths below are relative to src/rust/lancedb/src.

    ** Files

    - [Prelude]: the crate's errors ([error.rs]), results with panics as a
      third outcome ([outcome], a monad), machine integers ([u64_add],
      [u64_sub], ...: they panic or wrap as the [Profile] says, with
      [overflow_checks] true in debug builds and false in release builds), lists
      and tactics shared by all files.
    - [RustStr], [RustText], [Floats], [Arrow], [Schema]: what the code uses of
      Rust's strings and whitespace, of IEEE 754 arithmetic (the executable
      [SpecFloat]), of Arrow's batches and of its fields, types and schemas.
    - Names and authorization: [Names] (the validators of [utils/mod.rs]),
      [AuthzPrivilege], [AuthzSubject], [AuthzObject] ([authz/privilege.rs],
      [authz/subject.rs], [authz/object.rs]; the objects use [Names]).
    - The permutation pipeline, [dataloader/permutation/]: [Shuffle], [Split],
      [PermBuilder], [PermReader].  [PermBuilder.build] scans row ids,
      calls [Split.apply] (which calls [Shuffle.shuffle] for random splits),
      shuffles, sorts and stores; [PermReader] opens the stored table next to
      its base table and reads rows in that order.
    - Consistency of a table handle: [BackgroundCache], [Dataset]
      ([utils/background_cache.rs] and its client [table/dataset.rs]);
      [ReadFreshness] ([database/read_freshness.rs], Module [Baselines], and the
      freshness state of [remote/table.rs], Module [RemoteFreshness]).
    - Search: [Hybrid] ([query/hybrid.rs], [rerankers.rs], [rerankers/rrf.rs] and
      [run_hybrid] of [query.rs]), [WalFusion] ([query/wal_fusion.rs]: joining
      the legs on a primary key), [Streams] ([TimeoutStream] and
      [MaxBatchLengthStream] of [utils/mod.rs]), [SqlText] ([expr.rs],
      [expr/sql.rs]: expressions as SQL text).
    - Computed columns: [ComputedColumns] and [Admission]
      ([table/computed_columns.rs]: declarations, bindings, cycles, admission),
      [SchemaChanges] ([table/schema_evolution.rs]), [Sidecar] and [Freshness]
      ([table/freshness.rs]: signatures of inputs, what is stale), [Refresh]
      ([table/refresh.rs]).  A refresh asks [Freshness] which fragments are
      stale, fills their rows, commits and stamps the signatures it read.
    - Materialized views: [ViewQuery] ([materialized_view/query.rs]), [ViewPlan]
      and [View] ([materialized_view.rs], [materialized_view/grouped.rs]),
      [ViewRefresh] ([materialized_view/refresh.rs]).  A view is a table whose
      schema carries its definition; its computed columns are those of
      [ComputedColumns].
    - Writes: [Scannable] ([data/scannable.rs], [embeddings.rs],
      [table/datafusion/scannable_exec.rs]: what a write reads), [AddData]
      ([table/add_data.rs], [table/datafusion/insert.rs], [add] of [table.rs]),
      [WriteCast] ([table/datafusion/cast.rs], [blob_coerce.rs],
      [reject_nan.rs]: a write fitted to the table's schema), [MergeBuilder]
      ([table/merge.rs]), [MemWal] and [ShardWriter] ([table/merge/lsm.rs],
      [table/primary_key.rs]), [WriteProgress] ([table/write_progress.rs]),
      [Checkpoint] ([table/checkpoint.rs], [table/memwal_stats.rs]).
    - Queries: [Query] ([query.rs]: requests and their builders), [TakeQuery]
      ([query.rs]: rows by offset), [QueryPlan] and [NamespaceQuery]
      ([table/query.rs]: the plan of every query, and the queries a namespace
      server runs), [LsmRead] ([table/query/lsm.rs]: reads of a table with a
      write-ahead log).  [QueryPlan.create_plan] canonicalises the filter, plans
      a take by way of [TakeQuery], a MemWAL read by way of [LsmRead], and
      otherwise records the calls made on Lance's scanner.
    - Databases: [ListingDb] ([database/listing.rs] and the parts of
      [database.rs], [table.rs], [blob.rs] and [utils/mod.rs] it calls): a
      directory of tables, with [World] for the object store below it.
    - The remote client: [Retry] ([remote/retry.rs], [send_with_retry] of
      [remote/client.rs]), [Listing] ([listing.rs]), [Jobs] ([job.rs],
      [remote/job.rs]), [OAuthConfig], [OAuthToken], [OAuthFlow]
      ([remote/oauth.rs]) and [TokenCache] ([remote/token_cache.rs]).  OAuthFlow
      and TokenCache implement the interfaces OAuthToken's provider calls.
    Each component is a Module of the name of its file (or of the last part of
    it) with the source's names for its types and functions.

    ** Conventions

    - [Result<T>] is [result T]: [Ok], [Err] with the crate's error, or [Panic]
      for an index out of range, an overflow in a debug build, a failed
      [expect] or a division by zero.  Messages are the source's format strings,
      without the interpolated values.
    - A [u64], [usize] or [i64] is a [Z]; its range is a hypothesis where it
      matters and arithmetic on it goes through the operations of [Prelude].
      A UTF-8 [str] is a Rocq [string] of bytes.
    - A stream is its schema and the list of its items; an item may be an
      error.  A lock's critical section is one function; async operations that
      release their lock in between are several, and [step] relations
      ([BackgroundCache], [Dataset], [OAuthToken], [TokenCache], [ShardWriter],
      [Jobs], [WriteProgress]) interleave them with each other, with the clock
      and with other actors.
    - Dependencies are classes of operations with separate classes of laws
      ([ArrowKernels]/[ArrowLaws], [LanceFile]/[LanceFileLaws],
      [Planner]/[PlannerLaws], [Engine]/[EngineLaws], [Kernels]/[KernelLaws],
      [Environment] for the network and its adversary, ...).  A law states
      documented behaviour of one dependency.  Every theorem under laws has a
      witness with an executable instance, in a Module [Demo] where a component
      needs several.

    ** What is proved

    The forty properties of the manifest are theorems with a claim number; the
    other theorems named here are lemmas beside them.
    - Names and resources ([Names.database_name_accepted_iff],
      [Object.object_wire_roundtrip], [Object.namespace_prefixes_are_ancestors],
      [Subject.subject_wire_bijection], [Privilege.privilege_parse_print]):
      exactly which names are accepted; wire encodings are bijections between
      well-formed values and accepted strings.
    - Permutations ([Shuffle.shuffle_permutes_clumps], [Split.to_counts_total],
      [Split.sequential_split_plan], [Split.random_split_plan],
      [Split.hash_split_bands], [PermBuilder.build_stores_permutation],
      [PermReader.take_offsets_matches_read], [PermReader.reader_counts_view]):
      both paths of the shuffler return every row once; assignment batch by
      batch equals the plan of the whole table; the stored table is a
      permutation of the scanned rows and both ways of reading show it.
    - Consistency ([BackgroundCache.cache_epoch_safety],
      [Dataset.pinned_is_stable], [Dataset.refresh_is_current],
      [ReadFreshness.RemoteFreshness.freshness_timeline]): in every
      interleaving no value crosses an invalidation, a pinned handle never
      moves, a strongly consistent read is at least as new as the moment it
      began, and what a read asks of a caching server.
    - Search ([Hybrid.hybrid_search_top], [Hybrid.rrf_reranks],
      [WalFusion.fused_hybrid_top], [Streams.max_batch_stream],
      [SqlText.binary_literals_survive],
      [SqlText.binding_fails_only_on_unbound_text]): every row found once,
      scored by its reciprocal ranks, best first, at most [limit]; stream
      adapters neither lose, reorder nor invent rows; an expression's binary
      literals reach the text whatever strings the user wrote.
    - Computed columns ([ComputedColumns.acyclic_check_decides],
      [SchemaChanges.declarations_stay_evaluable],
      [Admission.admitted_columns_can_refresh], [Sidecar.sidecar_survives],
      [Freshness.clean_fragments_are_current],
      [Refresh.refreshed_rows_are_current]): the search for cycles decides;
      no checked schema change breaks a declaration while the schema has no
      Blob v2 column; a fragment reported clean holds values computed from the
      input it has now, as far as signatures tell states apart; a refresh leaves
      exactly the expression's values.
    - Views ([View.declaration_stays_consistent],
      [View.stored_definition_reads_back], [View.created_view_never_reads_itself],
      [ViewRefresh.refresh_publishes_the_query],
      [ViewRefresh.unnest_batch_is_flat_map]): definitions survive storage, no
      view reads itself, a refresh publishes the query's rows of one version of
      the source, all or nothing.
    - Writes ([WriteCast.write_is_coerced_by_value],
      [MemWal.enabled_spec_reads_back],
      [ShardWriter.merges_land_whole_on_one_shard],
      [ShardWriter.reads_see_what_was_written],
      [Scannable.peeking_preserves_scans], [AddData.local_add_commits_once],
      [Checkpoint.checkpoint_converges], [Checkpoint.checkpoint_ok_converged]):
      the physical plan of a write stores the row-by-row coercion of its values;
      in every interleaving a merge lands whole on the one shard its rows route
      to, and reads see it; looking at the first batch of a source changes
      nothing of what is read; however its partitions interleave, a local add
      commits every row once, in one transaction; a checkpoint that returns has drained what was
      written before it, and it returns when the node makes progress.
    - Queries ([Query.filters_are_conjoined], [Query.built_requests_are_valid],
      [TakeQuery.take_returns_requested_rows], [QueryPlan.query_vectors_are_paged],
      [LsmRead.no_generation_falls_between],
      [NamespaceQuery.pushed_query_reads_back]): filters given one by one are
      conjoined; a take yields the rows asked for, repetitions and order
      included, and pages over those; every query vector gets its page whether
      vectors share a scan or not; a MemWAL read misses no generation the base
      table or the index of its search does not cover; the request of a
      pushed-down query reads back as the query where a request can say it
      ([NamespaceQuery.sayable]).
    - Databases ([ListingDb.directory_refines_name_map],
      [ListingDb.pages_list_every_table],
      [ListingDb.creation_keys_configure_the_table],
      [ListingDb.options_read_back]): the directory answers like a map from
      names to tables, next to the stray children that failed writes and other
      files leave in it; its pages list every table once; the keys of a request
      that configure a new table never reach the object store.
    - Remote ([Retry.send_with_retry_total], [Listing.listing_refines],
      [Jobs.remote_wait_returns], [Jobs.spawned_waiters_agree],
      [OAuthConfig.build_token_source_typed], [OAuthToken.session_contacts],
      [OAuthFlow.flow_requests], [TokenCache.reauthentication_bounded]): the
      retry loop ends within its limits and never repeats a write after a server
      error; a listing is the concatenation of the backend's pages and ends;
      secrets only go where the configuration and the discovered provider allow;
      a session asks for a new sign-in only when it must, for any number of
      processes and crashes.
    - Where the code departs from its documentation or intent, a theorem says
      what it does: [Shuffle.clump_size_zero], [PermReader.limit_overflow],
      [PermReader.identity_take_ignores_window],
      [PermBuilder.hash_build_not_sorted], [BackgroundCache.late_task_overwrites],
      [Dataset.branch_switch_race], [Retry.retries_count_attempts],
      [Hybrid.vector_leg_without_batches], [Hybrid.normalised_above_one],
      [ReadFreshness.RemoteFreshness.freshness_gaps], [Streams.timeout_stream]
      (zero timeouts), [OAuthToken.huge_lifetime_panics],
      [ShardWriter.drain_hides_written_rows],
      [ShardWriter.disable_strands_a_merge],
      [ShardWriter.wal_read_misses_unflushed],
      [LsmRead.prefilter_not_collected], [NamespaceQuery.request_forgets],
      [Query.comment_swallows_the_conjunction],
      [SchemaChanges.streamed_declaration_breaks],
      [View.failed_input_is_remembered],
      [OAuthConfig.managed_identity_checks_method], [AddData.mode_ignored].

    ** Fuel

    [Split.drop_rows] and [add_rows] get enough fuel for every percentage
    configuration that validates ([Split.to_counts_total]);
    [Split.sequential_loop] gets one step more than there are splits; the retry
    loop's fuel is any number above its maximum of attempts;
    [BackgroundCache.determine_action] recurses at most once and gets fuel 2; a
    poll of [MaxBatchLengthStream] takes at most two rounds and cutting a batch
    at most one step per row.  The poll loops of [Checkpoint] and [Jobs] have no
    bound in the code: the liveness theorems give fuel that suffices against a
    server that makes progress.  The search for cycles gets one step more than
    there are computed columns ([ComputedColumns.acyclic_check_decides]); the
    walk up a view's sources has the code's own limit, [MAX_SOURCE_DEPTH];
    replacing placeholders takes at most the length of the text, choosing one at
    most one step more than there are strings ([SqlText]); the name of the
    column a take adds needs at most one step more than there are columns
    ([TakeQuery]); a plan contains plans of one level, so [create_plan] recurses
    twice ([QueryPlan.levels]).

    ** Not modelled

    Interpolated texts of messages; logging and metrics; the mock clock of
    tests.  The execution of plans and the creation of indexes are calls
    into DataFusion and Lance; the same holds of the standard path of a merge, of
    deletes, updates and compaction.  Connecting to a database
    (its URL, the namespace database), catalogs and HTTP round trips are I/O.
     Language bindings, the models behind embedding functions and test
    support are outside the client's logic.  Display and hashing of physical
    expressions, serde's derived codecs and builders that only record their
    arguments are left out of the modelled components too. *)

From stdpp Require Export base tactics list strings gmap.
From Stdlib Require Export ZArith Lia.

Open Scope string_scope.
Open Scope nat_scope.
Open Scope list_scope.

(** ** Errors

    [Error] is the crate's error enum (rust/lancedb/src/error.rs), restricted
    to the variants the modelled code raises or inspects.  A [message] is the
    source's format string: interpolated values are not rendered. *)
Inductive Error : Type :=
  | InvalidTableName (name reason : string)
  | InvalidInput (message : string)
  | TableNotFound (name : string)
  | Schema (message : string)
  | Runtime (message : string)
  | Timeout (message : string)
  | JobFailed (job_id phase message : option string) (retryable : option bool)
  | JobCancelled (job_id : option string)
  | Lance (message : string)
  | Http (request_id : string) (status_code : option Z)
  | Retry (request_id : string) (request_failures max_request_failures : Z)
      (connect_failures max_connect_failures : Z)
      (read_failures max_read_failures : Z) (status_code : option Z)
  | Arrow (message : string)
  | NotSupported (message : string)
  | External (message : string)
  | Other (message : string)
  | ColumnNotFound (name : string)
  | ColumnAlreadyExists (name : string)
  | NotAComputedColumn (name : string)
  | InvalidExpression (column message : string)
  | NotAMaterializedView (name : string)
  | TableCorrupted (name : string)
  | DatabaseNotFound (name : string)
  | DatabaseAlreadyExists (name : string)
  | IndexNotFound (name : string)
  | EmbeddingFunctionNotFound (name reason : string)
  | TableAlreadyExists (name : string)
  | CreateDir (path : string)
  | JobNotFound (job_id : string)
  | ObjectStore (message : string).

#[export] Instance Error_eq_dec : EqDecision Error.
Proof. solve_decision. Defined.

(** ** Results of fallible code

    A Rust function that returns [Result<A, E>] may also panic (an index out
    of range, a division by zero, a failed [expect]); [Panic] is that third
    outcome. *)
Inductive outcome (E A : Type) : Type :=
  | Ok (a : A)
  | Err (e : E)
  | Panic.
Arguments Ok {E A} a.
Arguments Err {E A} e.
Arguments Panic {E A}.

(** [Result<A>] of the crate. *)
Abbreviation result := (outcome Error).

#[export] Instance outcome_ret {E} : MRet (outcome E) := λ A a, Ok a.
#[export] Instance outcome_bind {E} : MBind (outcome E) := λ A B f o,
  match o with
  | Ok a => f a
  | Err e => Err e
  | Panic => Panic
  end.
#[export] Instance outcome_fmap {E} : FMap (outcome E) := λ A B f o,
  match o with
  | Ok a => Ok (f a)
  | Err e => Err e
  | Panic => Panic
  end.
#[export] Instance outcome_eq_dec {E A} `{EqDecision E, EqDecision A} :
  EqDecision (outcome E A).
Proof. solve_decision. Defined.

Definition map_err {E F A} (f : E → F) (o : outcome E A) : outcome F A :=
  match o with
  | Ok a => Ok a
  | Err e => Err (f e)
  | Panic => Panic
  end.

Definition ok_or {E A} (e : E) (o : option A) : outcome E A :=
  match o with Some a => Ok a | None => Err e end.

Definition unwrap {A} (o : option A) : result A :=
  match o with Some a => Ok a | None => Panic end.

Definition is_ok {E A} (o : outcome E A) : bool :=
  match o with Ok _ => true | _ => false end.

Definition is_panic {E A} (o : outcome E A) : bool :=
  match o with Panic => true | _ => false end.

(** [iter.map(f).collect::<Result<Vec<_>>>()]: stops at the first failure. *)
Fixpoint try_map {E A B} (f : A → outcome E B) (l : list A) : outcome E (list B) :=
  match l with
  | [] => Ok []
  | x :: l' => y ← f x; ys ← try_map f l'; Ok (y :: ys)
  end.

(** [for x in l { f(x)?; }] *)
Fixpoint try_for {E A} (f : A → outcome E unit) (l : list A) : outcome E unit :=
  match l with
  | [] => Ok tt
  | x :: l' => _ ← f x; try_for f l'
  end.

Lemma bind_Ok {E A B} (o : outcome E A) (f : A → outcome E B) b :
  (o ≫= f) = Ok b ↔ ∃ a, o = Ok a ∧ f a = Ok b.
Proof. destruct o; simpl; naive_solver. Qed.

Lemma bind_Panic {E A B} (o : outcome E A) (f : A → outcome E B) :
  (o ≫= f) = Panic ↔ o = Panic ∨ ∃ a, o = Ok a ∧ f a = Panic.
Proof. destruct o; simpl; naive_solver. Qed.

Lemma fmap_Ok {E A B} (o : outcome E A) (f : A → B) b :
  f <$> o = Ok b ↔ ∃ a, o = Ok a ∧ f a = b.
Proof. destruct o; simpl; naive_solver. Qed.

Lemma map_err_Ok {E F A} (g : E → F) (o : outcome E A) a :
  map_err g o = Ok a ↔ o = Ok a.
Proof. destruct o; simpl; naive_solver. Qed.

(** The value of a result that has one, for concrete inputs *)
Definition succeeds {E A} (o : outcome E A) : bool := match o with Ok _ => true | _ => false end.
Definition value_or {E A} (d : A) (o : outcome E A) : A := match o with Ok a => a | _ => d end.
Lemma value_or_Ok {E A} (d : A) (o : outcome E A) : succeeds o = true → o = Ok (value_or d o).
Proof. by destruct o. Qed.
Lemma ok_or_Ok {E A} (e : E) (o : option A) a : ok_or e o = Ok a ↔ o = Some a.
Proof. destruct o; simpl; naive_solver. Qed.

Lemma try_for_Ok {E A} (f : A → outcome E unit) l :
  try_for f l = Ok tt ↔ Forall (λ x, f x = Ok tt) l.
Proof.
  induction l as [|x l IH]; simpl; [done|].
  rewrite bind_Ok, Forall_cons. setoid_rewrite IH. split.
  - intros ([] & ? & ?); done.
  - intros []; by exists tt.
Qed.

Lemma try_map_Ok {E A B} (f : A → outcome E B) l ys :
  try_map f l = Ok ys ↔ Forall2 (λ x y, f x = Ok y) l ys.
Proof.
  revert ys; induction l as [|x l IH]; intros ys; simpl.
  { split; [intros [= <-]; constructor | by inversion 1]. }
  rewrite bind_Ok. setoid_rewrite bind_Ok. split.
  - intros (y & ? & ys' & ?%IH & [= <-]). by constructor.
  - inversion 1 as [|? y ? ys' ? Hl]; subst. exists y; split; [done|].
    exists ys'; split; [by apply IH | done].
Qed.

(** ** Machine integers

    A [u64] (or a [usize]: the modelled targets are 64-bit) is a [Z] in range.
    Arithmetic that leaves the range panics when the crate is built with
    overflow checks and wraps otherwise, so the operations depend on the build
    [Profile] and the theorems hold for both. *)
Class Profile := overflow_checks : bool.

Definition U64 : Z := 2 ^ 64.
Definition u64_range (z : Z) : Prop := (0 ≤ z < U64)%Z.
Definition u64_in_range (z : Z) : bool := (0 <=? z)%Z && (z <? U64)%Z.

#[export] Instance u64_range_dec z : Decision (u64_range z).
Proof. unfold u64_range. apply _. Defined.

Lemma u64_in_range_spec z : u64_in_range z = true ↔ u64_range z.
Proof. unfold u64_in_range, u64_range. rewrite andb_true_iff. lia. Qed.

Definition I63 : Z := 2 ^ 63.
Definition U32 : Z := 2 ^ 32.
Definition i64_range (z : Z) : Prop := (- I63 ≤ z < I63)%Z.
#[export] Instance i64_range_dec z : Decision (i64_range z).
Proof. unfold i64_range. apply _. Defined.

Section machine.
Context {prof : Profile}.

Definition u64_arith (z : Z) : result Z :=
  if u64_in_range z then Ok z
  else if overflow_checks then Panic
  else Ok (z mod U64)%Z.

Definition u64_add (a b : Z) : result Z := u64_arith (a + b).
Definition u64_sub (a b : Z) : result Z := u64_arith (a - b).
Definition u64_mul (a b : Z) : result Z := u64_arith (a * b).

(** Division and remainder panic on a zero divisor in every profile. *)
Definition u64_div (a b : Z) : result Z :=
  if (b =? 0)%Z then Panic else Ok (a / b)%Z.
Definition u64_rem (a b : Z) : result Z :=
  if (b =? 0)%Z then Panic else Ok (a mod b)%Z.
(** [u64::div_ceil] *)
Definition u64_div_ceil (a b : Z) : result Z :=
  if (b =? 0)%Z then Panic
  else Ok (if (a mod b =? 0) then a / b else a / b + 1)%Z.

(** [iter.sum::<u64>()] *)
Fixpoint u64_sum_from (acc : Z) (l : list Z) : result Z :=
  match l with
  | [] => Ok acc
  | x :: l' => acc' ← u64_add acc x; u64_sum_from acc' l'
  end.
Definition u64_sum (l : list Z) : result Z := u64_sum_from 0 l.

(** [x as i64] of a [u64], and [i64] arithmetic. *)
Definition as_i64 (z : Z) : Z := if (z <? I63)%Z then z else (z - U64)%Z.
Definition i64_arith (z : Z) : result Z :=
  if bool_decide (i64_range z) then Ok z
  else if overflow_checks then Panic
  else Ok (as_i64 (z mod U64))%Z.

Lemma i64_arith_ok z : i64_range z → i64_arith z = Ok z.
Proof. intros. unfold i64_arith. by rewrite bool_decide_eq_true_2. Qed.

Lemma u64_arith_ok z : u64_range z → u64_arith z = Ok z.
Proof. intros Hz%u64_in_range_spec. unfold u64_arith. by rewrite Hz. Qed.
End machine.

(** The exact (unbounded) sum of a list of integers. *)
Fixpoint zsum (l : list Z) : Z :=
  match l with [] => 0 | x :: l' => x + zsum l' end%Z.

Lemma zsum_app l k : zsum (l ++ k) = (zsum l + zsum k)%Z.
Proof. induction l; simpl; lia. Qed.

Lemma zsum_nonneg l : Forall (λ z, 0 ≤ z)%Z l → (0 ≤ zsum l)%Z.
Proof. induction 1; simpl; lia. Qed.

Lemma u64_sum_from_ok {prof : Profile} acc l :
  (0 ≤ acc)%Z → Forall (λ z, 0 ≤ z)%Z l → (acc + zsum l < U64)%Z →
  u64_sum_from acc l = Ok (acc + zsum l)%Z.
Proof.
  intros Hacc Hl; revert acc Hacc; induction Hl as [|x l Hx Hl IH];
    intros acc Hacc Hlt; simpl in *; [f_equal; lia|].
  pose proof (zsum_nonneg l Hl).
  unfold u64_add. rewrite u64_arith_ok by (unfold u64_range; lia). simpl.
  rewrite IH by lia. f_equal; lia.
Qed.

Lemma u64_sum_ok {prof : Profile} l :
  Forall (λ z, 0 ≤ z)%Z l → (zsum l < U64)%Z → u64_sum l = Ok (zsum l).
Proof. intros. unfold u64_sum. by rewrite u64_sum_from_ok by (done || lia). Qed.

(** ** Lists *)
Lemma mjoin_cons {A} (x : list A) (l : list (list A)) : mjoin (x :: l) = x ++ mjoin l.
Proof. done. Qed.

Lemma Forall_mjoin {A} (P : A → Prop) (ls : list (list A)) :
  Forall P (mjoin ls) ↔ Forall (Forall P) ls.
Proof.
  split; [|apply Forall_join].
  induction ls as [|l ls IH]; simpl; [done|]. rewrite Forall_app. intros []. by constructor; auto.
Qed.

Lemma mjoin_app {A} (l k : list (list A)) : mjoin (l ++ k) = mjoin l ++ mjoin k.
Proof. apply join_app. Qed.

(** ** Flattening *)
Lemma zip_flat_map {A B C} (f : A → list B) (g : A → list C) l :
  (∀ x, length (f x) = length (g x)) →
  zip (flat_map f l) (flat_map g l) = flat_map (λ x, zip (f x) (g x)) l.
Proof. intros H. induction l as [|x l IH]; [done|]. cbn [flat_map]. by rewrite zip_with_app, IH. Qed.
Lemma flat_map_ext_in {A B} (f g : A → list B) l : (∀ x, x ∈ l → f x = g x) → flat_map f l = flat_map g l.
Proof.
  induction l as [|x l IH]; intros H; [done|]. cbn [flat_map]. rewrite (H x) by apply list_elem_of_here.
  rewrite IH; [done|]. intros y Hy. apply H. by apply list_elem_of_further.
Qed.
Lemma map_flat_map {A B C} (f : B → C) (g : A → list B) l :
  map f (flat_map g l) = flat_map (λ x, map f (g x)) l.
Proof. induction l as [|x l IH]; [done|]. cbn [flat_map]. by rewrite map_app, IH. Qed.
Lemma flat_map_map {A B C} (f : B → list C) (g : A → B) l :
  flat_map f (map g l) = flat_map (λ x, f (g x)) l.
Proof. induction l as [|x l IH]; [done|]. cbn. by rewrite IH. Qed.
Lemma flat_map_single {A B} (f : A → B) l : flat_map (λ x, [f x]) l = map f l.
Proof. induction l as [|x l IH]; [done|]. cbn. by rewrite IH. Qed.
Lemma filter_flat_map {A B} (p : B → bool) (g : A → list B) l :
  List.filter p (flat_map g l) = flat_map (λ x, List.filter p (g x)) l.
Proof. induction l as [|x l IH]; [done|]. cbn [flat_map]. by rewrite List.filter_app, IH. Qed.
Lemma run_nth {A} (l : list A) o k d : o + k ≤ length l →
  take k (drop o l) = map (λ x, nth x l d) (seq o k).
Proof.
  intros H. apply list_eq. intros i. destruct (decide (i < k)) as [Hi|Hi].
  - rewrite lookup_take_lt, lookup_drop, list_lookup_fmap, lookup_seq_lt by done. cbn.
    destruct (lookup_lt_is_Some_2 l (o + i)) as [v Hv]; [lia|]. rewrite Hv. f_equal. symmetry.
    by apply nth_lookup_Some.
  - rewrite lookup_take_ge by lia. rewrite list_lookup_fmap, lookup_seq_ge by lia. done.
Qed.
Lemma filter_none {A} (p : A → bool) l : (∀ x, x ∈ l → p x = false) → List.filter p l = [].
Proof.
  induction l as [|x l IH]; intros H; [done|]. cbn. rewrite (H x) by apply list_elem_of_here.
  apply IH. intros y Hy. apply H. by apply list_elem_of_further.
Qed.

(** ** Automation *)
Create HintDb lance discriminated.

(** Run a computation past its successful steps. *)
Ltac run_ok := cbn [mbind outcome_bind].

(** Close a side condition with the facts registered for it. *)
Ltac wf := solve [eauto with lance].

(** Decompose every successful bind of the context. *)
Ltac inv_ok :=
  repeat match goal with
  | H : (_ ≫= _) = Ok _ |- _ => apply bind_Ok in H as (? & ? & H)
  | H : map_err _ _ = Ok _ |- _ => apply map_err_Ok in H
  | H : ok_or _ _ = Ok _ |- _ => apply ok_or_Ok in H
  | H : _ <$> _ = Ok _ |- _ => apply fmap_Ok in H as (? & ? & H)
  | H : Ok _ = Ok _ |- _ => injection H as H
  | H : Err _ = Ok _ |- _ => discriminate H
  | H : Panic = Ok _ |- _ => discriminate H
  end.

(** Case on the scrutinee of the first [if] or [match] of the goal or of an
    equation of the context. *)
Ltac case_goal :=
  match goal with
  | |- context [ if ?b then _ else _ ] => destruct b eqn:?
  | |- context [ match ?b with _ => _ end ] => destruct b eqn:?
  end.

(** Booleans to propositions. *)
Ltac to_prop :=
  repeat match goal with
  | H : _ && _ = true |- _ => apply andb_true_iff in H as [??]
  | H : _ || _ = false |- _ => apply orb_false_iff in H as [??]
  | H : negb _ = true |- _ => apply negb_true_iff in H
  | H : negb _ = false |- _ => apply negb_false_iff in H
  | H : bool_decide _ = true |- _ => apply bool_decide_eq_true_1 in H
  | H : bool_decide _ = false |- _ => apply bool_decide_eq_false_1 in H
  | H : (_ =? _)%Z = true |- _ => apply Z.eqb_eq in H
  | H : (_ =? _)%Z = false |- _ => apply Z.eqb_neq in H
  | H : (_ <? _)%Z = true |- _ => apply Z.ltb_lt in H
  | H : (_ <? _)%Z = false |- _ => apply Z.ltb_ge in H
  | H : (_ <=? _)%Z = true |- _ => apply Z.leb_le in H
  | H : (_ <=? _)%Z = false |- _ => apply Z.leb_gt in H
  | H : (_ =? _) = true |- _ => apply Nat.eqb_eq in H
  | H : (_ =? _) = false |- _ => apply Nat.eqb_neq in H
  | H : (_ <? _) = true |- _ => apply Nat.ltb_lt in H
  | H : (_ <? _) = false |- _ => apply Nat.ltb_ge in H
  | H : (_ <=? _) = true |- _ => apply Nat.leb_le in H
  | H : (_ <=? _) = false |- _ => apply Nat.leb_gt in H
  end.
