(* ===== verification/RustStr.v ===== *)
(** * The string operations of Rust's standard library the crate uses

    A [str] is its UTF-8 byte sequence, a Rocq [string].  Every separator and
    every character class the code tests is ASCII, so testing bytes and
    testing [char]s agree: a byte of a multi-byte character is at least 128
    and belongs to none of them. *)

From S2P Require Import Prelude.
From Stdlib Require Import Ascii.
From stdpp Require Import pretty.

Local Open Scope string_scope.
#[global] Arguments String.append !_ _ / : simpl nomatch.

(** ** Character classes *)
Definition byte_of (c : ascii) : Z := Z.of_nat (nat_of_ascii c).

Definition between (lo hi : ascii) (c : ascii) : bool :=
  (byte_of lo <=? byte_of c)%Z && (byte_of c <=? byte_of hi)%Z.

Definition is_ascii_digit (c : ascii) : bool := between "0" "9" c.
Definition is_ascii_alphanumeric (c : ascii) : bool :=
  between "a" "z" c || between "A" "Z" c || is_ascii_digit c.

(** [s.chars().all(p)] *)
Fixpoint all_chars (p : ascii → bool) (s : string) : bool :=
  match s with
  | "" => true
  | String c s' => p c && all_chars p s'
  end.

(** [!s.contains(c)] *)
Definition no_char (c : ascii) (s : string) : bool :=
  all_chars (λ d, negb (Ascii.eqb d c)) s.

Definition is_empty (s : string) : bool :=
  match s with "" => true | _ => false end.

(** ** Splitting and joining *)
Fixpoint strip_prefix (pre s : string) : option string :=
  match pre, s with
  | "", _ => Some s
  | String a pre', String b s' =>
      if Ascii.eqb a b then strip_prefix pre' s' else None
  | String _ _, "" => None
  end.

Definition starts_with (pre s : string) : bool :=
  match strip_prefix pre s with Some _ => true | None => false end.

(** [s.contains(needle)] *)
Fixpoint contains (needle s : string) : bool :=
  starts_with needle s ||
  match s with "" => false | String _ s' => contains needle s' end.

(** [s.split_once(c)]: at the first occurrence. *)
Fixpoint split_once (c : ascii) (s : string) : option (string * string) :=
  match s with
  | "" => None
  | String a s' =>
      if Ascii.eqb a c then Some ("", s')
      else match split_once c s' with
           | Some (x, y) => Some (String a x, y)
           | None => None
           end
  end.

(** [s.rsplit_once(c)]: at the last occurrence. *)
Fixpoint rsplit_once (c : ascii) (s : string) : option (string * string) :=
  match s with
  | "" => None
  | String a s' =>
      match rsplit_once c s' with
      | Some (x, y) => Some (String a x, y)
      | None => if Ascii.eqb a c then Some ("", s') else None
      end
  end.

(** [s.split(c).collect()]: never empty. *)
Fixpoint split (c : ascii) (s : string) : list string :=
  match s with
  | "" => [""]
  | String a s' =>
      if Ascii.eqb a c then "" :: split c s'
      else match split c s' with
           | h :: t => String a h :: t
           | [] => [String a ""]
           end
  end.

(** [l.join(c)] *)
Fixpoint join (c : ascii) (l : list string) : string :=
  match l with
  | [] => ""
  | [x] => x
  | x :: l' => x +:+ String c (join c l')
  end.

(** ** Parsing unsigned integers

    [digits.parse::<uN>()] on a string of ASCII digits: an empty string and a
    value above the maximum are errors. *)
Definition digit_value (c : ascii) : Z := (byte_of c - byte_of "0")%Z.

Fixpoint parse_digits (max acc : Z) (s : string) : option Z :=
  match s with
  | "" => Some acc
  | String c s' =>
      if is_ascii_digit c then
        let acc' := (acc * 10 + digit_value c)%Z in
        if (acc' <=? max)%Z then parse_digits max acc' s' else None
      else None
  end.

Definition parse_uint (max : Z) (s : string) : option Z :=
  if is_empty s then None else parse_digits max 0 s.

(** [str::parse::<u64>]: digits, with an optional plus sign. *)
Definition parse_u64 (s : string) : option Z :=
  match s with
  | String "+" s' => parse_uint (U64 - 1) s'
  | _ => parse_uint (U64 - 1) s
  end.

(** The unbounded value of a digit string. *)
Fixpoint digits_value (acc : Z) (s : string) : Z :=
  match s with
  | "" => acc
  | String c s' => digits_value (acc * 10 + digit_value c) s'
  end.

(** ** Lemmas *)
Lemma str_app_nil_r (s : string) : s +:+ "" = s.
Proof. induction s; simpl; congruence. Qed.

Lemma str_app_assoc (a b c : string) : a +:+ (b +:+ c) = (a +:+ b) +:+ c.
Proof. induction a; simpl; congruence. Qed.

Lemma is_empty_spec s : is_empty s = true ↔ s = "".
Proof. by destruct s. Qed.

Lemma all_chars_app p a b : all_chars p (a +:+ b) = all_chars p a && all_chars p b.
Proof. induction a as [|c a IH]; simpl; [done|]. by rewrite IH, andb_assoc. Qed.

Lemma all_chars_weaken (p q : ascii → bool) s :
  (∀ c, p c = true → q c = true) → all_chars p s = true → all_chars q s = true.
Proof.
  intros Hpq. induction s as [|c s IH]; simpl; [done|].
  rewrite !andb_true_iff. intros []; auto.
Qed.

Lemma strip_prefix_Some pre s r : strip_prefix pre s = Some r ↔ s = pre +:+ r.
Proof.
  revert s; induction pre as [|a pre IH]; intros [|b s]; simpl; [naive_solver..|].
  destruct (Ascii.eqb_spec a b) as [->|]; [rewrite IH|]; naive_solver.
Qed.

Lemma strip_prefix_app pre s : strip_prefix pre (pre +:+ s) = Some s.
Proof. by apply strip_prefix_Some. Qed.

Lemma starts_with_spec pre s : starts_with pre s = true ↔ ∃ r, s = pre +:+ r.
Proof.
  unfold starts_with. destruct (strip_prefix pre s) eqn:E.
  - apply strip_prefix_Some in E. naive_solver.
  - split; [done|]. intros [r ->]. by rewrite strip_prefix_app in E.
Qed.

Lemma no_char_cons c a s : no_char c (String a s) = true ↔ a ≠ c ∧ no_char c s = true.
Proof.
  unfold no_char; simpl. rewrite andb_true_iff, negb_true_iff, Ascii.eqb_neq. done.
Qed.

Lemma no_char_app c a b : no_char c (a +:+ b) = true ↔ no_char c a = true ∧ no_char c b = true.
Proof. unfold no_char. rewrite all_chars_app, andb_true_iff. done. Qed.

Lemma split_once_Some c s x y :
  split_once c s = Some (x, y) ↔ s = x +:+ String c y ∧ no_char c x = true.
Proof.
  revert x; induction s as [|a s IH]; intros x; simpl.
  { split; [done|]. intros [H _]. by destruct x. }
  destruct (Ascii.eqb_spec a c) as [->|Hne].
  - split; [intros [= <- <-]; done|]. intros [H Hx].
    destruct x as [|b x]; simplify_eq/=; [done|]. apply no_char_cons in Hx as []; done.
  - destruct (split_once c s) as [[x' y']|] eqn:E; split.
    + intros [= <- <-]. destruct (proj1 (IH x')) as [-> ?]; [done|].
      split; [done|]. by apply no_char_cons.
    + intros [H Hx]. destruct x as [|b x]; simplify_eq/=.
      apply no_char_cons in Hx as []. assert (Some (x', y') = Some (x, y)) by by apply IH.
      by simplify_eq.
    + done.
    + intros [H Hx]. destruct x as [|b x]; simplify_eq/=.
      apply no_char_cons in Hx as []. assert (None = Some (x, y)) by by apply IH. done.
Qed.

Lemma split_once_app c x y : no_char c x = true → split_once c (x +:+ String c y) = Some (x, y).
Proof. intros. by apply split_once_Some. Qed.

Lemma rsplit_once_None c s : rsplit_once c s = None ↔ no_char c s = true.
Proof.
  induction s as [|a s IH]; simpl; [done|]. rewrite no_char_cons.
  destruct (rsplit_once c s) as [[x y]|]; [naive_solver|].
  destruct (Ascii.eqb_spec a c); naive_solver.
Qed.

Lemma rsplit_once_Some c s x y :
  rsplit_once c s = Some (x, y) ↔ s = x +:+ String c y ∧ no_char c y = true.
Proof.
  revert x; induction s as [|a s IH]; intros x; simpl.
  { split; [done|]. intros [H _]. by destruct x. }
  destruct (rsplit_once c s) as [[x' y']|] eqn:E.
  - split.
    + intros [= <- <-]. by destruct (proj1 (IH x')) as [-> ?].
    + intros [H Hy]. destruct x as [|b x]; simplify_eq/=.
      * apply rsplit_once_None in Hy. congruence.
      * assert (Some (x', y') = Some (x, y)) by by apply IH. by simplify_eq.
  - apply rsplit_once_None in E as E'. destruct (Ascii.eqb_spec a c) as [->|Hne]; split.
    + intros [= <- <-]. done.
    + intros [H Hy]. destruct x as [|b x]; simplify_eq/=; [done|].
      apply no_char_app in E' as [_ [? _]%no_char_cons]. done.
    + done.
    + intros [H Hy]. destruct x as [|b x]; simplify_eq/=.
      apply no_char_app in E' as [_ [? _]%no_char_cons]. done.
Qed.

Lemma rsplit_once_app c x y : no_char c y = true → rsplit_once c (x +:+ String c y) = Some (x, y).
Proof. intros. by apply rsplit_once_Some. Qed.

Lemma split_not_nil c s : split c s ≠ [].
Proof. destruct s as [|a s]; simpl; [done|]. destruct (Ascii.eqb a c), (split c s); done. Qed.

Lemma join_cons c x l : l ≠ [] → join c (x :: l) = x +:+ String c (join c l).
Proof. by destruct l. Qed.

(** [split] is inverted by [join]. *)
Lemma join_split c s : join c (split c s) = s.
Proof.
  induction s as [|a s IH]; [done|]. cbn [split].
  destruct (Ascii.eqb_spec a c) as [->|].
  - rewrite join_cons by apply split_not_nil. simpl. by rewrite IH.
  - destruct (split c s) as [|h t] eqn:E; [by apply split_not_nil in E|].
    rewrite <- IH. by destruct t.
Qed.

Lemma split_no_char c s : no_char c s = true → split c s = [s].
Proof.
  induction s as [|a s IH]; [done|]. intros [Hne Hs]%no_char_cons. simpl.
  rewrite (proj2 (Ascii.eqb_neq _ _) Hne), IH; done.
Qed.

Lemma split_app c x s : no_char c x = true → split c (x +:+ String c s) = x :: split c s.
Proof.
  induction x as [|a x IH]; simpl; [by rewrite Ascii.eqb_refl|].
  intros [Hne Hx]%no_char_cons. rewrite (proj2 (Ascii.eqb_neq _ _) Hne), IH; done.
Qed.

(** [join] is inverted by [split] on parts without the separator. *)
Lemma split_join c l : l ≠ [] → Forall (λ x, no_char c x = true) l → split c (join c l) = l.
Proof.
  intros Hl Hf; revert Hl. induction Hf as [|x l Hx Hl IH]; [done|].
  intros _. destruct l as [|y l]; [by apply split_no_char|].
  rewrite join_cons, split_app, IH; done.
Qed.

Lemma parse_digits_value max acc s v :
  (0 ≤ acc)%Z → parse_digits max acc s = Some v → v = digits_value acc s ∧ (acc ≤ v)%Z.
Proof.
  revert acc; induction s as [|c s IH]; intros acc Hacc; simpl; [naive_solver lia|].
  destruct (is_ascii_digit c) eqn:Hc; [|done].
  destruct (_ <=? _)%Z eqn:Hle; [|done]. intros H.
  unfold is_ascii_digit, between in Hc. to_prop.
  assert (0 ≤ digit_value c)%Z by (unfold digit_value; lia).
  apply IH in H; [|lia]. naive_solver lia.
Qed.

Lemma digits_value_ge acc s :
  (0 ≤ acc)%Z → all_chars is_ascii_digit s = true → (acc ≤ digits_value acc s)%Z.
Proof.
  revert acc; induction s as [|c s IH]; intros acc Hacc; simpl; [lia|].
  intros [Hc Hs]%andb_true_iff. unfold is_ascii_digit, between in Hc. to_prop.
  assert (0 ≤ digit_value c)%Z by (unfold digit_value; lia).
  specialize (IH (acc * 10 + digit_value c)%Z ltac:(lia) Hs). lia.
Qed.

(** On a digit string, parsing fails exactly when the value is too large. *)
Lemma parse_digits_spec max acc s :
  (0 ≤ acc ≤ max)%Z → all_chars is_ascii_digit s = true →
  parse_digits max acc s =
    if (digits_value acc s <=? max)%Z then Some (digits_value acc s) else None.
Proof.
  revert acc; induction s as [|c s IH]; intros acc Hacc; simpl.
  { intros _. by rewrite (proj2 (Z.leb_le _ _)) by lia. }
  intros [Hc Hs]%andb_true_iff. rewrite Hc.
  assert (0 ≤ digit_value c)%Z.
  { unfold is_ascii_digit, between in Hc. to_prop. unfold digit_value. lia. }
  pose proof (digits_value_ge (acc * 10 + digit_value c) s ltac:(lia) Hs).
  destruct (acc * 10 + digit_value c <=? max)%Z eqn:E; to_prop.
  - apply IH; [lia|done].
  - by rewrite (proj2 (Z.leb_gt _ _)) by lia.
Qed.

Lemma parse_uint_spec max s :
  (0 ≤ max)%Z → is_empty s = false → all_chars is_ascii_digit s = true →
  parse_uint max s =
    if (digits_value 0 s <=? max)%Z then Some (digits_value 0 s) else None.
Proof. intros ? He ?. unfold parse_uint. rewrite He. by apply parse_digits_spec. Qed.

(** ** Printing unsigned integers

    [Display for u64] is [pretty] on [N]; parsing reads it back. *)
Lemma digit_char (d : N) :
  (d < 10)%N → is_ascii_digit (pretty_N_char d) = true ∧ digit_value (pretty_N_char d) = Z.of_N d.
Proof.
  intros Hd. destruct d as [|p]; [done|].
  do 4 (destruct p as [p|p|]; try done; try lia).
Qed.

Lemma pretty_go_digits x s :
  all_chars is_ascii_digit s = true →
  all_chars is_ascii_digit (pretty_N_go x s) = true ∧
  digits_value 0 (pretty_N_go x s) = digits_value (Z.of_N x) s ∧
  ((0 < x)%N → is_empty (pretty_N_go x s) = false).
Proof.
  revert s. induction (N.lt_wf_0 x) as [x _ IH]; intros s Hs.
  destruct (decide (0 < x)%N) as [Hx|Hx].
  2: { replace x with 0%N by lia. rewrite pretty_N_go_0. split_and!; [done..|lia]. }
  rewrite pretty_N_go_step by done.
  destruct (digit_char (x `mod` 10)) as [Hd Hv]; [apply N.mod_lt; lia|].
  destruct (IH (x `div` 10)%N) with (s := String (pretty_N_char (x `mod` 10)) s) as (H1 & H2 & H3).
  { apply N.div_lt; lia. }
  { simpl. by rewrite Hd. }
  split_and!; [done| |intros _].
  - rewrite H2. simpl. rewrite Hv. f_equal. rewrite N2Z.inj_div, N2Z.inj_mod.
    pose proof (Z.div_mod (Z.of_N x) 10 ltac:(lia)). lia.
  - destruct (decide (0 < x `div` 10)%N); [by apply H3|].
    assert (x `div` 10 = 0)%N as -> by (by apply N.le_0_r, N.nlt_ge). by rewrite pretty_N_go_0.
Qed.

Lemma parse_pretty_u64 z : u64_range z → parse_u64 (pretty (Z.to_N z)) = Some z.
Proof.
  intros Hz. unfold u64_range in Hz. unfold pretty, pretty_N.
  destruct (decide (Z.to_N z = 0)%N); [by replace z with 0%Z by lia|].
  destruct (pretty_go_digits (Z.to_N z) "") as (H1 & H2 & H3); [done|].
  set (s := pretty_N_go (Z.to_N z) "") in *. simpl in H2.
  assert (parse_u64 s = parse_uint (U64 - 1) s) as ->.
  { unfold parse_u64. destruct s as [|c s']; [done|].
    destruct c as [[] [] [] [] [] [] [] []]; done. }
  rewrite parse_uint_spec, H2, Z2N.id by (done || lia || by apply H3; lia).
  by rewrite (proj2 (Z.leb_le _ _)) by lia.
Qed.
