(* ===== verification/Names.v ===== *)
(** * Resource names (rust/lancedb/src/utils/mod.rs)

    The validators every table, view, secret, function, namespace and database
    name passes through, and what an accepted name is guaranteed to be. *)

From S2P Require Import Prelude RustStr.
From Stdlib Require Import Ascii.

Module Names.

Definition MAX_TABLE_NAME_CHARS : nat := 128.
Definition MAX_NAMESPACE_NAME_CHARS : nat := 64.
Definition MAX_NAMESPACE_COMPONENTS : nat := 10.
Definition MAX_VIEW_NAME_CHARS : nat := 128.
Definition MAX_SECRET_NAME_CHARS : nat := 128.
Definition MAX_FUNCTION_NAME_CHARS : nat := 128.
Definition MAX_DB_NAME_CHARS : nat := 64.

(** The closure [|c| c.is_ascii_alphanumeric() || c == '-' || c == '_' || c == '.'] *)
Definition name_char (c : ascii) : bool :=
  is_ascii_alphanumeric c || Ascii.eqb c "-" || Ascii.eqb c "_" || Ascii.eqb c ".".

Definition db_char (c : ascii) : bool := name_char c || Ascii.eqb c "/".

Definition function_char (c : ascii) : bool :=
  is_ascii_alphanumeric c || Ascii.eqb c "_".

Definition validate_table_name (name : string) : result unit :=
  if is_empty name || String.eqb name "." || String.eqb name ".." then
    Err (InvalidTableName name "Illegal table name.")
  else if MAX_TABLE_NAME_CHARS <? String.length name then
    Err (InvalidTableName name "Table name cannot be more than {MAX_TABLE_NAME_CHARS} characters long.")
  else if negb (all_chars name_char name) then
    Err (InvalidTableName name
      "Only alphanumeric characters, dashes, underscores, andperiods are allowed in table names.")
  else Ok tt.

Definition validate_view_or_namespace_or_secret (input kind : string) (max_len : nat)
    : result unit :=
  if is_empty input || String.eqb input "." || String.eqb input ".." then
    Err (InvalidInput "Illegal {} '{}'.")
  else if max_len <? String.length input then
    Err (InvalidInput "Invalid {} '{}' is more than {} characters long.")
  else if negb (all_chars name_char input) then
    Err (InvalidInput "Invalid {} '{}': only alphanumeric characters, dashes, underscores, and periods are allowed.")
  else Ok tt.

Definition validate_namespace_component (name : string) : result unit :=
  validate_view_or_namespace_or_secret name "namespace component" MAX_NAMESPACE_NAME_CHARS.

Definition validate_namespace (namespace : list string) : result unit :=
  if (1 <? length namespace) &&
     match namespace with first :: _ => String.eqb first "public" | [] => false end then
    Err (InvalidInput "Namespaces that begin with public cannot have multiple namespace components.")
  else if MAX_NAMESPACE_COMPONENTS <? length namespace then
    Err (InvalidInput "Cannot have a namespace with more than {MAX_NAMESPACE_COMPONENTS} components.")
  else try_for validate_namespace_component namespace.

Definition validate_secret_name (name : string) : result unit :=
  validate_view_or_namespace_or_secret name "secret name" MAX_SECRET_NAME_CHARS.

Definition validate_secret_reference (name : string) (namespace_path : list string)
    : result unit :=
  _ ← validate_namespace namespace_path;
  validate_secret_name name.

Definition validate_view_name (name : string) : result unit :=
  validate_view_or_namespace_or_secret name "view name" MAX_VIEW_NAME_CHARS.

Definition validate_view_reference (name : string) (namespace_path : list string)
    : result unit :=
  _ ← validate_namespace namespace_path;
  validate_view_name name.

Definition validate_function_name (name : string) : result unit :=
  if is_empty name then Err (InvalidInput "Invalid function name '{}'.")
  else if MAX_FUNCTION_NAME_CHARS <? String.length name then
    Err (InvalidInput "Invalid function name '{}' is more than {} characters long.")
  else if negb (all_chars function_char name) then
    Err (InvalidInput "Invalid function name '{}': only alphanumeric characters and underscores are allowed.")
  else Ok tt.

Definition validate_db_component (component : string) : result unit :=
  if is_empty component then
    Err (InvalidInput "Invalid database name '{}': invalid empty path component.")
  else if String.eqb component "." || String.eqb component ".." then
    Err (InvalidInput "Invalid database name '{}': illegal path component.")
  else Ok tt.

Definition validate_database_name (name : string) : result unit :=
  if MAX_DB_NAME_CHARS <? String.length name then
    Err (InvalidInput "Invalid database name '{}' is more than {} characters long.")
  else if negb (all_chars db_char name) then
    Err (InvalidInput "Invalid database name '{}': only alphanumeric characters, dashes, underscores, periods, and slashes are allowed.")
  else try_for validate_db_component (split "/" name).

(** ** What the validators accept *)

(** A path segment that cannot climb or stay in the directory tree. *)
Definition plain_segment (s : string) : Prop := s ≠ "" ∧ s ≠ "." ∧ s ≠ "..".

Definition valid_name (max_len : nat) (s : string) : Prop :=
  plain_segment s ∧ String.length s ≤ max_len ∧ all_chars name_char s = true.

Definition valid_database (s : string) : Prop :=
  String.length s ≤ MAX_DB_NAME_CHARS ∧ all_chars db_char s = true ∧
  Forall plain_segment (split "/" s).

Definition valid_namespace (ns : list string) : Prop :=
  (length ns ≤ 1 ∨ head ns ≠ Some "public") ∧
  length ns ≤ MAX_NAMESPACE_COMPONENTS ∧
  Forall (valid_name MAX_NAMESPACE_NAME_CHARS) ns.

(** The validators share a shape; [name_check] decides it. *)
Lemma name_check (s : string) (max_len : nat) (e1 e2 e3 : Error) :
  (if is_empty s || String.eqb s "." || String.eqb s ".." then Err e1
   else if max_len <? String.length s then Err e2
   else if negb (all_chars name_char s) then Err e3 else Ok tt) = Ok tt
  ↔ valid_name max_len s.
Proof.
  unfold valid_name, plain_segment.
  assert (is_empty s || String.eqb s "." || String.eqb s ".." = false ↔
          s ≠ "" ∧ s ≠ "." ∧ s ≠ "..") as H.
  { rewrite !orb_false_iff, <- !not_true_iff_false, is_empty_spec, !String.eqb_eq. tauto. }
  destruct (is_empty s || _ || _).
  { split; [done|]. intros (?%H & _). done. }
  destruct (Nat.ltb_spec max_len (String.length s)); [naive_solver lia|].
  destruct (all_chars name_char s); naive_solver.
Qed.

Lemma validate_table_name_Ok s :
  validate_table_name s = Ok tt ↔ valid_name MAX_TABLE_NAME_CHARS s.
Proof. apply name_check. Qed.

Lemma validate_component_Ok s kind n :
  validate_view_or_namespace_or_secret s kind n = Ok tt ↔ valid_name n s.
Proof. apply name_check. Qed.

Lemma validate_db_component_Ok s : validate_db_component s = Ok tt ↔ plain_segment s.
Proof.
  unfold validate_db_component, plain_segment.
  destruct s as [|c s]; [naive_solver|]. cbn [is_empty].
  destruct (String.eqb_spec (String c s) "."), (String.eqb_spec (String c s) "..");
    naive_solver.
Qed.

Lemma validate_database_name_Ok s : validate_database_name s = Ok tt ↔ valid_database s.
Proof.
  unfold validate_database_name, valid_database.
  destruct (Nat.ltb_spec MAX_DB_NAME_CHARS (String.length s)); [naive_solver lia|].
  destruct (all_chars db_char s); [|naive_solver]. cbn [negb].
  rewrite try_for_Ok. setoid_rewrite validate_db_component_Ok. naive_solver.
Qed.

Lemma validate_namespace_Ok ns : validate_namespace ns = Ok tt ↔ valid_namespace ns.
Proof.
  unfold validate_namespace, valid_namespace.
  assert ((1 <? length ns) && match ns with f :: _ => String.eqb f "public" | [] => false end
          = false ↔ length ns ≤ 1 ∨ head ns ≠ Some "public") as H.
  { rewrite andb_false_iff, Nat.ltb_ge. destruct ns as [|x ns]; [naive_solver|].
    simpl. rewrite String.eqb_neq. naive_solver. }
  destruct ((1 <? length ns) && _).
  { split; [done|]. intros (?%H & _). done. }
  destruct (Nat.ltb_spec MAX_NAMESPACE_COMPONENTS (length ns)); [naive_solver lia|].
  rewrite try_for_Ok. setoid_rewrite validate_component_Ok. naive_solver.
Qed.

(** No name character is a separator of the wire formats. *)
Lemma name_char_not_sep s (c : ascii) :
  name_char c = false → all_chars name_char s = true → no_char c s = true.
Proof.
  intros Hc. apply all_chars_weaken. intros d Hd.
  apply negb_true_iff, Ascii.eqb_neq. intros ->. congruence.
Qed.

Lemma db_char_not_sep s (c : ascii) :
  db_char c = false → all_chars db_char s = true → no_char c s = true.
Proof.
  intros Hc. apply all_chars_weaken. intros d Hd.
  apply negb_true_iff, Ascii.eqb_neq. intros ->. congruence.
Qed.

(** a database name is accepted exactly when it is at most 64 bytes of
    alphanumerics, dashes, underscores, periods and slashes and no
    slash-separated component is empty, [.] or [..]; so an accepted name is a
    relative path that stays below its root, and the [:] and [$] separators of
    the wire format cannot occur in it. *)
Theorem database_name_accepted_iff (s : string) :
  (validate_database_name s = Ok tt ↔
     String.length s ≤ 64 ∧ all_chars db_char s = true ∧
     Forall (λ p, p ≠ "" ∧ p ≠ "." ∧ p ≠ "..") (split "/" s)) ∧
  (validate_database_name s = Ok tt → no_char ":" s = true ∧ no_char "$" s = true).
Proof.
  split; [apply validate_database_name_Ok|].
  intros (_ & Hc & _)%validate_database_name_Ok. split; by eapply db_char_not_sep.
Qed.

Lemma database_name_accepted_iff_witness :
  validate_database_name "team/search" = Ok tt ∧ no_char ":" "team/search" = true.
Proof.
  split; [reflexivity|].
  apply (database_name_accepted_iff "team/search"). reflexivity.
Defined.

End Names.
