(* ===== verification/AuthzPrivilege.v ===== *)
(** * Privileges (rust/lancedb/src/authz/privilege.rs)

    The enum, its text and numeric encodings, and on which resource each
    privilege may be granted. *)

From S2P Require Import Prelude RustStr.
From Stdlib Require Import Ascii.

Module Privilege.

Inductive Privilege : Type :=
  | Ownership | Usage | Select | Insert | Update | Delete
  | CreateDatabase | CreateNamespace | CreateTable | CreateMaterializedView
  | CreateView | CreateSecret | CreateFunction | Operate
  | Unknown (name : string).

#[export] Instance Privilege_eq_dec : EqDecision Privilege.
Proof. solve_decision. Defined.

Definition KNOWN : list Privilege :=
  [Ownership; Usage; Select; Insert; Update; Delete; CreateDatabase;
   CreateNamespace; CreateTable; CreateMaterializedView; CreateView;
   CreateSecret; CreateFunction; Operate].

(** [Display], derived with [serialize_all = "SCREAMING_SNAKE_CASE"]. *)
Definition to_string (p : Privilege) : string :=
  match p with
  | Ownership => "OWNERSHIP" | Usage => "USAGE" | Select => "SELECT"
  | Insert => "INSERT" | Update => "UPDATE" | Delete => "DELETE"
  | CreateDatabase => "CREATE_DATABASE" | CreateNamespace => "CREATE_NAMESPACE"
  | CreateTable => "CREATE_TABLE"
  | CreateMaterializedView => "CREATE_MATERIALIZED_VIEW"
  | CreateView => "CREATE_VIEW" | CreateSecret => "CREATE_SECRET"
  | CreateFunction => "CREATE_FUNCTION" | Operate => "OPERATE"
  | Unknown name => name
  end.

Definition valid_for_system (p : Privilege) : bool :=
  match p with Operate | CreateDatabase | Usage | Unknown _ => true | _ => false end.
Definition valid_for_database (p : Privilege) : bool :=
  match p with Ownership | Usage | CreateNamespace | Unknown _ => true | _ => false end.
Definition valid_for_namespace (p : Privilege) : bool :=
  match p with
  | Ownership | Usage | CreateNamespace | CreateTable | CreateMaterializedView
  | CreateView | CreateSecret | CreateFunction | Unknown _ => true
  | _ => false
  end.
Definition valid_for_table (p : Privilege) : bool :=
  match p with
  | Ownership | Select | Insert | Update | Delete | Unknown _ => true
  | _ => false
  end.
Definition valid_for_view (p : Privilege) : bool :=
  match p with Ownership | Select | Unknown _ => true | _ => false end.
Definition valid_for_secret (p : Privilege) : bool :=
  match p with Ownership | Usage | Update | Unknown _ => true | _ => false end.
Definition valid_for_function (p : Privilege) : bool :=
  match p with Ownership | Usage | Unknown _ => true | _ => false end.
Definition is_write (p : Privilege) : bool :=
  match p with Usage | Select | Operate => false | _ => true end.

Definition U64_MAX : Z := (U64 - 1)%Z.

(** The [match digits.parse::<u64>()] of [from_str]. *)
Definition of_number (name : string) (n : option Z) : Privilege :=
  match n with
  | Some 0 => Ownership | Some 1 => Usage | Some 2 => Select | Some 3 => Insert
  | Some 4 => Update | Some 5 => Delete | Some 6 => CreateDatabase
  | Some 7 => CreateNamespace | Some 8 => CreateTable
  | Some 9 => CreateMaterializedView | Some 10 => CreateView
  | Some 11 => CreateSecret | Some 12 => CreateFunction | Some 13 => Operate
  | _ => Unknown name
  end%Z.

Definition from_str (name : string) : outcome string Privilege :=
  match list_find (λ p, to_string p = name) KNOWN with
  | Some (_, p) => Ok p
  | None =>
      match strip_prefix "PRIVILEGE" name with
      | Some digits =>
          if negb (is_empty digits) && all_chars is_ascii_digit digits
          then Ok (of_number name (parse_uint U64_MAX digits))
          else Err "invalid privilege {name:?}"
      | None => Err "invalid privilege {name:?}"
      end
  end.

Definition U8_MAX : Z := 255.

(** [u8::try_from]: [None] is the [ParseIntError]. *)
Definition to_u8 (p : Privilege) : option Z :=
  match p with
  | Ownership => Some 0 | Usage => Some 1 | Select => Some 2 | Insert => Some 3
  | Update => Some 4 | Delete => Some 5 | CreateDatabase => Some 6
  | CreateNamespace => Some 7 | CreateTable => Some 8
  | CreateMaterializedView => Some 9 | CreateView => Some 10
  | CreateSecret => Some 11 | CreateFunction => Some 12 | Operate => Some 13
  | Unknown name =>
      match strip_prefix "PRIVILEGE" name with
      | Some digits => parse_uint U8_MAX digits
      | None => None
      end
  end%Z.

(** ** Well-formed values

    [UnknownPrivilege] has a private field: [from_str] is its only constructor. *)
Definition unassigned (name : string) : Prop :=
  ∃ digits, name = "PRIVILEGE" +:+ digits ∧ digits ≠ "" ∧
    all_chars is_ascii_digit digits = true ∧ (13 < digits_value 0 digits)%Z.

Definition wf (p : Privilege) : Prop :=
  match p with Unknown name => unassigned name | _ => True end.

Lemma list_find_known name :
  list_find (λ p, to_string p = name) KNOWN = None ↔
  Forall (λ p, to_string p ≠ name) KNOWN.
Proof. by rewrite list_find_None. Qed.

Lemma unassigned_not_known name : unassigned name → Forall (λ p, to_string p ≠ name) KNOWN.
Proof. intros (d & -> & _). unfold KNOWN. repeat constructor; discriminate. Qed.

Lemma of_number_unknown name n p :
  of_number name n = Unknown p → p = name ∧ (∀ z, n = Some z → (0 ≤ z)%Z → (13 < z)%Z).
Proof.
  intros H. destruct n as [z|]; simpl in H; [|naive_solver].
  destruct (decide (0 ≤ z ≤ 13)%Z) as [Hz|Hz].
  - exfalso. revert H.
    assert (z = 0 ∨ z = 1 ∨ z = 2 ∨ z = 3 ∨ z = 4 ∨ z = 5 ∨ z = 6 ∨ z = 7 ∨
            z = 8 ∨ z = 9 ∨ z = 10 ∨ z = 11 ∨ z = 12 ∨ z = 13)%Z as Hc by lia.
    destruct_or! Hc; subst; discriminate.
  - split; [|naive_solver lia]. revert H.
    repeat match goal with |- context [match ?z with _ => _ end] => destruct z end; congruence.
Qed.

Lemma of_number_large name z : (13 < z)%Z → of_number name (Some z) = Unknown name.
Proof.
  intros Hz. simpl. destruct z as [|z|z]; [lia| |lia].
  do 4 (destruct z as [z|z|]; try lia; try done).
Qed.

(** What [from_str] accepts: a known name, or [PRIVILEGE] followed by digits. *)
Lemma from_str_unassigned name : unassigned name → from_str name = Ok (Unknown name).
Proof.
  intros Hu. unfold from_str.
  rewrite (proj2 (list_find_known name) (unassigned_not_known _ Hu)).
  destruct Hu as (d & -> & Hne & Hd & Hv). rewrite strip_prefix_app.
  assert (is_empty d = false) as He by (by destruct d).
  rewrite He, Hd. simpl. rewrite parse_uint_spec by done.
  destruct (_ <=? _)%Z; [|done]. by rewrite of_number_large.
Qed.

Lemma from_str_wf name p : from_str name = Ok p → wf p.
Proof.
  unfold from_str. destruct (list_find _ _) as [[i q]|] eqn:E.
  { intros [= ->]. apply list_find_Some in E as (Hi & _ & _).
    apply list_elem_of_lookup_2 in Hi. unfold KNOWN in Hi.
    repeat (apply elem_of_cons in Hi as [->|Hi]; [done|]). by apply not_elem_of_nil in Hi. }
  destruct (strip_prefix _ _) as [d|] eqn:Ed; [|done].
  apply strip_prefix_Some in Ed as ->.
  destruct (negb _ && _) eqn:Hc; [|done]. intros [= Hp]. to_prop.
  destruct p as [| | | | | | | | | | | | | |u]; try exact I.
  apply of_number_unknown in Hp as [-> Hp]. exists d.
  split; [done|]. split; [by destruct d|]. split; [done|].
  rewrite parse_uint_spec in Hp by done.
  destruct (digits_value 0 d <=? U64_MAX)%Z eqn:Hle; to_prop.
  - apply Hp; [done|]. by apply digits_value_ge.
  - unfold U64_MAX, U64 in Hle. lia.
Qed.

(** every privilege the parser can produce prints to a name that parses
    back to it, so names a newer server introduces survive a round trip. *)
Theorem privilege_parse_print (name : string) (p : Privilege) :
  from_str name = Ok p → from_str (to_string p) = Ok p.
Proof.
  intros Hp%from_str_wf. destruct p; try reflexivity. by apply from_str_unassigned.
Qed.

Lemma privilege_parse_print_witness :
  from_str "PRIVILEGE7" = Ok CreateNamespace ∧
  from_str (to_string (Unknown "PRIVILEGE256")) = Ok (Unknown "PRIVILEGE256").
Proof.
  split; [reflexivity|].
  apply (privilege_parse_print "PRIVILEGE256"). reflexivity.
Defined.

Lemma to_u8_unassigned name n :
  unassigned name → to_u8 (Unknown name) = Some n → (13 < n ≤ 255)%Z.
Proof.
  intros (d & -> & Hne & Hd & Hv). unfold to_u8. rewrite strip_prefix_app.
  rewrite parse_uint_spec by (by destruct d).
  destruct (_ <=? _)%Z eqn:Hle; [|done]. intros [= <-]. to_prop. by unfold U8_MAX in Hle.
Qed.

(** The table of [from_str] inverts the table of [u8::try_from]. *)
Lemma to_u8_known p n :
  (∀ u, p ≠ Unknown u) → to_u8 p = Some n →
  (0 ≤ n ≤ 13)%Z ∧ ∀ name, of_number name (Some n) = p.
Proof. intros Hk. destruct p; [injection 1 as <-; split; [lia|done]..|by edestruct Hk]. Qed.

Lemma from_str_unknown s u : from_str s = Ok (Unknown u) → u = s.
Proof.
  unfold from_str. destruct (list_find _ _) as [[i x]|] eqn:E.
  - intros [= ->]. by apply list_find_Some in E as (_ & <- & _).
  - destruct (strip_prefix _ _); [|done]. destruct (_ && _); [|done].
    intros [= Hr]. by apply of_number_unknown in Hr as [].
Qed.

Lemma known_or_unknown p : (∃ u, p = Unknown u) ∨ (∀ u, p ≠ Unknown u).
Proof. destruct p; eauto. Qed.

(** the numeric encoding is below 256 and injective: two parsed privileges
    with the same number are the same privilege, or two spellings of one
    unassigned number (leading zeros). *)
Theorem privilege_number_unique (s t : string) (p q : Privilege) (n : Z) :
  from_str s = Ok p → from_str t = Ok q → to_u8 p = Some n → to_u8 q = Some n →
  (0 ≤ n ≤ 255)%Z ∧ (p = q ∨ (13 < n)%Z ∧ p = Unknown s ∧ q = Unknown t).
Proof.
  intros Hp Hq Hnp Hnq.
  pose proof (from_str_wf _ _ Hp) as Wp. pose proof (from_str_wf _ _ Hq) as Wq.
  destruct (known_or_unknown p) as [[u ->]|Kp], (known_or_unknown q) as [[v ->]|Kq];
    repeat match goal with
    | H : to_u8 (Unknown _) = _ |- _ => apply to_u8_unassigned in H; [|done]
    | H : to_u8 _ = _ |- _ => apply to_u8_known in H as [? ?]; [|done]
    end; [|lia..|].
  - apply from_str_unknown in Hp as ->, Hq as ->. split; [lia|]. right. naive_solver lia.
  - split; [lia|]. left. by transitivity (of_number "" (Some n)).
Qed.

Lemma privilege_number_unique_witness :
  (0 ≤ 2 ≤ 255)%Z ∧ (Select = Select ∨ (13 < 2)%Z ∧ Select = Unknown "SELECT" ∧ Select = Unknown "PRIVILEGE02").
Proof.
  apply (privilege_number_unique "SELECT" "PRIVILEGE02"); vm_compute; reflexivity.
Defined.

End Privilege.
