(* ===== verification/AuthzSubject.v ===== *)
(** * Identity selectors (rust/lancedb/src/authz/subject.rs)

    Construction, the wire encoding, the canonical-response filter and the
    redaction of API keys. *)

From S2P Require Import Prelude RustStr.
From Stdlib Require Import Ascii.

Module Subject.

Inductive SubjectKind : Type :=
  | PrincipalId | PrincipalName | GroupId | GroupName | Role | PrincipalApiKey
  | UnknownKind.

#[export] Instance SubjectKind_eq_dec : EqDecision SubjectKind.
Proof. solve_decision. Defined.

Definition as_str (k : SubjectKind) : string :=
  match k with
  | PrincipalId => "principal_id" | PrincipalName => "principal_name"
  | GroupId => "group_id" | GroupName => "group_name" | Role => "role"
  | PrincipalApiKey => "principal_api_key" | UnknownKind => "unknown"
  end.

Definition prefix (k : SubjectKind) : string :=
  match k with
  | PrincipalId => "p:" | PrincipalName => "P:" | GroupId => "g:" | GroupName => "G:"
  | Role => "r:" | PrincipalApiKey => "a:" | UnknownKind => ""
  end.

Definition KINDS : list SubjectKind :=
  [PrincipalId; PrincipalName; GroupId; GroupName; Role; PrincipalApiKey].

Definition kind_from_str (value : string) : result SubjectKind :=
  if String.eqb value "unknown" then Ok UnknownKind
  else match list_find (λ k, as_str k = value) KINDS with
       | Some (_, k) => Ok k
       | None => Err (InvalidInput "Invalid subject kind")
       end.

Record Subject : Type := mkSubject { kind : SubjectKind; value : string }.

#[export] Instance Subject_eq_dec : EqDecision Subject.
Proof. solve_decision. Defined.

(** [value.split_once(':').is_some_and(|(prefix, value)| ...)] *)
Definition has_prefix_and_value (v : string) : bool :=
  match split_once ":" v with
  | Some (p, r) => negb (is_empty p) && negb (is_empty r)
  | None => false
  end.

Definition new (k : SubjectKind) (v : string) : result Subject :=
  if is_empty v then Err (InvalidInput "Subject value must be a nonempty string")
  else if bool_decide (k = UnknownKind) &&
          (negb (has_prefix_and_value v) || existsb (λ k, starts_with (prefix k) v) KINDS) then
    Err (InvalidInput "Invalid unknown subject selector")
  else Ok (mkSubject k v).

Definition principal_id := new PrincipalId.
Definition principal_name := new PrincipalName.
Definition group_id := new GroupId.
Definition group_name := new GroupName.
Definition role := new Role.
Definition principal_api_key := new PrincipalApiKey.

Definition display_value (s : Subject) : string :=
  if bool_decide (kind s = PrincipalApiKey) then "<redacted>" else value s.

Definition to_wire (s : Subject) : string := prefix (kind s) +:+ value s.

(** [FromStr]: the [for kind in KINDS] loop, then the fallback. *)
Fixpoint from_str_kinds (ks : list SubjectKind) (v : string) : result Subject :=
  match ks with
  | [] => new UnknownKind v
  | k :: ks' =>
      match strip_prefix (prefix k) v with
      | Some r => new k r
      | None => from_str_kinds ks' v
      end
  end.
Definition from_str (v : string) : result Subject := from_str_kinds KINDS v.

Definition from_canonical (v : string) : result Subject :=
  subject ← from_str v;
  match kind subject with
  | PrincipalId | GroupId | Role | UnknownKind => Ok subject
  | _ => Err (InvalidInput "Server returned a non-canonical subject")
  end.

Definition validate_principal (s : Subject) : result unit :=
  match kind s with
  | PrincipalId | PrincipalName | PrincipalApiKey => Ok tt
  | _ => Err (InvalidInput "Subject kind is not valid for a principal lookup")
  end.

Definition validate_group (s : Subject) : result unit :=
  match kind s with
  | GroupId | GroupName => Ok tt
  | _ => Err (InvalidInput "Subject kind is not valid for a group lookup")
  end.

Definition validate_role_member (s : Subject) : result unit :=
  match kind s with
  | Role => Err (InvalidInput "Roles cannot be members of other roles")
  | _ => Ok tt
  end.

(** [Debug]: the two fields of [debug_struct("Subject")]. *)
Definition debug (s : Subject) : SubjectKind * string := (kind s, display_value s).

(** [Display] *)
Definition display (s : Subject) : string := prefix (kind s) +:+ display_value s.

(** ** Properties *)

(** The constructor is the only way to build a [Subject]: its fields are private. *)
Definition wf (s : Subject) : Prop := new (kind s) (value s) = Ok s.

Lemma new_Ok k v s : new k v = Ok s → s = mkSubject k v ∧ v ≠ "".
Proof.
  unfold new. destruct v as [|c v]; [done|]. cbn [is_empty].
  destruct (_ && _); [done|]. intros [= <-]. done.
Qed.

Lemma new_wf k v s : new k v = Ok s → wf s.
Proof. intros H. pose proof (new_Ok _ _ _ H) as [-> _]. done. Qed.

Lemma new_unknown_prefixes v s :
  new UnknownKind v = Ok s → Forall (λ k, strip_prefix (prefix k) v = None) KINDS.
Proof.
  unfold new. destruct (is_empty v); [done|].
  rewrite bool_decide_eq_true_2, andb_true_l by done.
  destruct (_ || _) eqn:E; [done|]. to_prop. intros _.
  apply Forall_forall. intros k Hk. destruct (strip_prefix (prefix k) v) eqn:Hs; [|done].
  rewrite <- not_true_iff_false in *. exfalso.
  match goal with H : existsb _ _ ≠ _ |- _ => apply H end.
  apply existsb_exists. exists k. split; [by apply list_elem_of_In|].
  unfold starts_with. by rewrite Hs.
Qed.

Lemma from_str_kinds_none ks v :
  Forall (λ k, strip_prefix (prefix k) v = None) ks → from_str_kinds ks v = new UnknownKind v.
Proof. induction 1 as [|k ks Hk _ IH]; simpl; [done|]. by rewrite Hk. Qed.

Lemma from_str_kinds_wire ks v s : from_str_kinds ks v = Ok s → wf s ∧ to_wire s = v.
Proof.
  induction ks as [|k ks IH]; simpl.
  - intros H. split; [by eapply new_wf|]. by apply new_Ok in H as [-> _].
  - destruct (strip_prefix (prefix k) v) as [r|] eqn:Hs; [|done].
    apply strip_prefix_Some in Hs as ->. intros H. split; [by eapply new_wf|].
    by apply new_Ok in H as [-> _].
Qed.

(** the wire encoding is a bijection between selectors and the strings the
    parser accepts: parsing what [to_wire] prints gives the selector back, and
    printing what was parsed gives the string back. *)
Theorem subject_wire_bijection (k : SubjectKind) (v w : string) (s : Subject) :
  (new k v = Ok s → from_str (to_wire s) = Ok s) ∧
  (from_str w = Ok s → to_wire s = w).
Proof.
  split; [|apply from_str_kinds_wire].
  intros H. pose proof (new_Ok _ _ _ H) as [-> _].
  destruct k; try exact H.
  change (from_str_kinds KINDS v = Ok (mkSubject UnknownKind v)).
  rewrite from_str_kinds_none; [done|]. by eapply new_unknown_prefixes.
Qed.

Lemma subject_wire_bijection_witness :
  from_str (to_wire (mkSubject GroupName "Engineering")) = Ok (mkSubject GroupName "Engineering").
Proof.
  apply (subject_wire_bijection GroupName "Engineering" "G:Engineering"). reflexivity.
Defined.

(** nothing printed for a person depends on an API key: [Display] and
    [Debug] of two API-key selectors are equal whatever the keys are, and for
    every other kind [Display] is the wire form. *)
Theorem api_key_redacted (v1 v2 : string) (s1 s2 s : Subject) :
  principal_api_key v1 = Ok s1 → principal_api_key v2 = Ok s2 →
  display s1 = display s2 ∧ debug s1 = debug s2 ∧
  (kind s ≠ PrincipalApiKey → display s = to_wire s).
Proof.
  intros [-> _]%new_Ok [-> _]%new_Ok. split_and!; [done..|].
  intros Hk. unfold display, to_wire, display_value. by rewrite bool_decide_eq_false_2.
Qed.

Lemma api_key_redacted_witness :
  display (mkSubject PrincipalApiKey "sk-1") = display (mkSubject PrincipalApiKey "sk-2").
Proof.
  apply (api_key_redacted "sk-1" "sk-2" (mkSubject PrincipalApiKey "sk-1")
           (mkSubject PrincipalApiKey "sk-2") (mkSubject Role "admin")); reflexivity.
Defined.

(** A canonical response never yields an API key or a provider name: the
    accepted kinds are exactly principal id, group id, role and unknown, and
    the accepted text is the selector's own wire form. *)
Theorem canonical_subject_kinds (v : string) (s : Subject) :
  from_canonical v = Ok s ↔
  from_str v = Ok s ∧ (kind s = PrincipalId ∨ kind s = GroupId ∨ kind s = Role ∨ kind s = UnknownKind).
Proof.
  unfold from_canonical. rewrite bind_Ok. split.
  - intros (s' & -> & H). destruct (kind s') eqn:Hk; simplify_eq; rewrite Hk; naive_solver.
  - intros [-> Hk]. exists s. destruct_or! Hk; by rewrite Hk.
Qed.

End Subject.
