(* ===== verification/AuthzObject.v ===== *)
(** * Authorization resources (rust/lancedb/src/authz/object.rs)

    Namespace paths and the resources of the authorization API with their
    canonical wire names.  [serialize] validates and prints, [deserialize]
    parses and validates; serde only carries the string. *)

From S2P Require Import Prelude RustStr Names.
From Stdlib Require Import Ascii.
Import Names.

Module Object.

(** [error.to_string()], unrendered. *)
Definition error_text (e : Error) : string :=
  match e with
  | InvalidTableName _ reason => reason
  | InvalidInput message => message
  | _ => ""
  end.

Definition DEFAULT_NAMESPACE : string := "public".
Definition SYSTEM_TYPE_STRING : string := "system".
Definition DATABASE_TYPE_STRING : string := "database".
Definition NAMESPACE_TYPE_STRING : string := "namespace".
Definition TABLE_TYPE_STRING : string := "table".
Definition VIEW_TYPE_STRING : string := "view".
Definition SECRET_TYPE_STRING : string := "secret".
Definition FUNCTION_TYPE_STRING : string := "function".
Definition UNKNOWN_TYPE_STRING : string := "unknown".

(** ** Namespace paths *)
Record NamespacePath : Type := mkPath { components : list string }.

#[export] Instance NamespacePath_eq_dec : EqDecision NamespacePath.
Proof. solve_decision. Defined.

Definition path_default : NamespacePath := mkPath [DEFAULT_NAMESPACE].

Definition path_new (cs : list string) : outcome string NamespacePath :=
  match cs with
  | [] => Ok path_default
  | _ =>
      _ ← try_for (λ c, map_err error_text (validate_namespace_component c)) cs;
      Ok (mkPath cs)
  end.

Definition from_component (c : string) : outcome string NamespacePath :=
  match path_new [c] with Ok p => Ok p | _ => Panic end.

Definition parent (p : NamespacePath) : option NamespacePath :=
  if 1 <? length (components p)
  then Some (mkPath (take (length (components p) - 1) (components p)))
  else None.

Definition prefixes (p : NamespacePath) : list NamespacePath :=
  (λ n, mkPath (take n (components p))) <$> seq 1 (length (components p)).

(** [slice::starts_with] *)
Fixpoint list_starts_with (l k : list string) : bool :=
  match k, l with
  | [], _ => true
  | y :: k', x :: l' => String.eqb x y && list_starts_with l' k'
  | _ :: _, [] => false
  end.

Definition is_descendant_of (p ancestor : NamespacePath) : bool :=
  (length (components ancestor) <? length (components p)) &&
  list_starts_with (components p) (components ancestor).

Definition path_parse (s : string) : outcome string NamespacePath :=
  path_new (split "$" s).

Definition path_display (p : NamespacePath) : string := join "$" (components p).

(** ** Resources *)
Record DatabaseObject := mkDatabase { do_database : string }.
Record NamespaceObject := mkNamespace { no_database : string; no_namespace : NamespacePath }.
Record TableObject :=
  mkTable { to_database : string; to_namespace : NamespacePath; to_table : string }.
Record ViewObject :=
  mkView { vo_database : string; vo_namespace : NamespacePath; vo_view : string }.
Record SecretObject :=
  mkSecret { so_database : string; so_namespace : NamespacePath; so_secret : string }.
Record FunctionObject :=
  mkFunction { fo_database : string; fo_namespace : NamespacePath; fo_function : string }.
#[export] Instance DatabaseObject_eq_dec : EqDecision DatabaseObject.
Proof. solve_decision. Defined.
#[export] Instance NamespaceObject_eq_dec : EqDecision NamespaceObject.
Proof. solve_decision. Defined.
#[export] Instance TableObject_eq_dec : EqDecision TableObject.
Proof. solve_decision. Defined.
#[export] Instance ViewObject_eq_dec : EqDecision ViewObject.
Proof. solve_decision. Defined.
#[export] Instance SecretObject_eq_dec : EqDecision SecretObject.
Proof. solve_decision. Defined.
#[export] Instance FunctionObject_eq_dec : EqDecision FunctionObject.
Proof. solve_decision. Defined.

Inductive Object : Type :=
  | System
  | Database (o : DatabaseObject)
  | Namespace (o : NamespaceObject)
  | Table (o : TableObject)
  | View (o : ViewObject)
  | Secret (o : SecretObject)
  | Function (o : FunctionObject)
  | Unknown (s : string).

#[export] Instance Object_eq_dec : EqDecision Object.
Proof. solve_decision. Defined.

Definition database_validate (o : DatabaseObject) : outcome string unit :=
  map_err error_text (validate_database_name (do_database o)).
Definition namespace_validate (o : NamespaceObject) : outcome string unit :=
  map_err error_text (validate_database_name (no_database o)).
Definition table_validate (o : TableObject) : outcome string unit :=
  _ ← map_err error_text (validate_database_name (to_database o));
  map_err error_text (validate_table_name (to_table o)).
Definition view_validate (o : ViewObject) : outcome string unit :=
  _ ← map_err error_text (validate_database_name (vo_database o));
  map_err error_text (validate_view_name (vo_view o)).
Definition secret_validate (o : SecretObject) : outcome string unit :=
  _ ← map_err error_text (validate_database_name (so_database o));
  map_err error_text (validate_secret_name (so_secret o)).
Definition function_validate (o : FunctionObject) : outcome string unit :=
  _ ← map_err error_text (validate_database_name (fo_database o));
  map_err error_text (validate_table_name (fo_function o)).

Definition validate (o : Object) : outcome string unit :=
  match o with
  | System => Ok tt
  | Database o => database_validate o
  | Namespace o => namespace_validate o
  | Table o => table_validate o
  | View o => view_validate o
  | Secret o => secret_validate o
  | Function o => function_validate o
  | Unknown s => if is_empty s then Err "object must not be empty" else Ok tt
  end.

Definition database (o : Object) : option string :=
  match o with
  | System => None
  | Database o => Some (do_database o)
  | Namespace o => Some (no_database o)
  | Table o => Some (to_database o)
  | View o => Some (vo_database o)
  | Secret o => Some (so_database o)
  | Function o => Some (fo_database o)
  | Unknown _ => None
  end.

Definition type_name (o : Object) : string :=
  match o with
  | System => SYSTEM_TYPE_STRING
  | Database _ => DATABASE_TYPE_STRING
  | Namespace _ => NAMESPACE_TYPE_STRING
  | Table _ => TABLE_TYPE_STRING
  | View _ => VIEW_TYPE_STRING
  | Secret _ => SECRET_TYPE_STRING
  | Function _ => FUNCTION_TYPE_STRING
  | Unknown _ => UNKNOWN_TYPE_STRING
  end.

(** ** Printing *)
Definition database_display (o : DatabaseObject) : string :=
  "database:" +:+ do_database o.
Definition namespace_display (o : NamespaceObject) : string :=
  "namespace:" +:+ (no_database o +:+ String ":" (path_display (no_namespace o))).
Definition table_display (o : TableObject) : string :=
  "table:" +:+ (to_database o +:+ String ":" (path_display (to_namespace o) +:+ String "$" (to_table o))).
Definition view_display (o : ViewObject) : string :=
  "view:" +:+ (vo_database o +:+ String ":" (path_display (vo_namespace o) +:+ String "$" (vo_view o))).
Definition secret_display (o : SecretObject) : string :=
  "secret:" +:+ (so_database o +:+ String ":" (path_display (so_namespace o) +:+ String "$" (so_secret o))).
Definition function_display (o : FunctionObject) : string :=
  "function:" +:+ (fo_database o +:+ String ":" (path_display (fo_namespace o) +:+ String "$" (fo_function o))).

Definition display (o : Object) : string :=
  match o with
  | System => SYSTEM_TYPE_STRING
  | Database o => database_display o
  | Namespace o => namespace_display o
  | Table o => table_display o
  | View o => view_display o
  | Secret o => secret_display o
  | Function o => function_display o
  | Unknown s => s
  end.

Definition serialize (o : Object) : outcome string string :=
  _ ← validate o; Ok (display o).

(** ** Parsing *)
Definition database_deserialize (s : string) : outcome string DatabaseObject :=
  d ← ok_or "invalid DatabaseObject {s:?}" (strip_prefix "database:" s);
  let o := mkDatabase d in
  _ ← database_validate o; Ok o.

Definition namespace_deserialize (s : string) : outcome string NamespaceObject :=
  let invalid := "invalid NamespaceObject {s:?}" in
  rest ← ok_or invalid (strip_prefix "namespace:" s);
  '(d, ns) ← ok_or invalid (split_once ":" rest);
  path ← path_parse ns;
  let o := mkNamespace d path in
  _ ← namespace_validate o; Ok o.

Definition table_deserialize (s : string) : outcome string TableObject :=
  let invalid := "invalid TableObject {s:?}" in
  rest ← ok_or invalid (strip_prefix "table:" s);
  '(d, path) ← ok_or invalid (split_once ":" rest);
  '(ns, t) ← ok_or invalid (rsplit_once "$" path);
  p ← path_parse ns;
  let o := mkTable d p t in
  _ ← table_validate o; Ok o.

Definition view_deserialize (s : string) : outcome string ViewObject :=
  let invalid := "invalid ViewObject {s:?}" in
  rest ← ok_or invalid (strip_prefix "view:" s);
  '(d, path) ← ok_or invalid (split_once ":" rest);
  '(ns, v) ← ok_or invalid (rsplit_once "$" path);
  p ← path_parse ns;
  let o := mkView d p v in
  _ ← view_validate o; Ok o.

Definition secret_deserialize (s : string) : outcome string SecretObject :=
  let invalid := "invalid SecretObject {s:?}" in
  rest ← ok_or invalid (strip_prefix "secret:" s);
  '(d, path) ← ok_or invalid (split_once ":" rest);
  '(ns, x) ← ok_or invalid (rsplit_once "$" path);
  p ← path_parse ns;
  let o := mkSecret d p x in
  _ ← secret_validate o; Ok o.

Definition function_deserialize (s : string) : outcome string FunctionObject :=
  let invalid := "invalid FunctionObject {s:?}" in
  rest ← ok_or invalid (strip_prefix "function:" s);
  '(d, path) ← ok_or invalid (split_once ":" rest);
  '(ns, f) ← ok_or invalid (rsplit_once "$" path);
  p ← path_parse ns;
  let o := mkFunction d p f in
  _ ← function_validate o; Ok o.

(** [s.split(':').next().unwrap_or_default()] *)
Definition wire_kind (s : string) : string :=
  match split ":" s with k :: _ => k | [] => "" end.

Definition deserialize (s : string) : outcome string Object :=
  let kind := wire_kind s in
  if String.eqb s SYSTEM_TYPE_STRING then Ok System
  else if is_empty s || String.eqb kind SYSTEM_TYPE_STRING then Err "invalid Object {s:?}"
  else if String.eqb kind DATABASE_TYPE_STRING then o ← database_deserialize s; Ok (Database o)
  else if String.eqb kind NAMESPACE_TYPE_STRING then o ← namespace_deserialize s; Ok (Namespace o)
  else if String.eqb kind TABLE_TYPE_STRING then o ← table_deserialize s; Ok (Table o)
  else if String.eqb kind VIEW_TYPE_STRING then o ← view_deserialize s; Ok (View o)
  else if String.eqb kind SECRET_TYPE_STRING then o ← secret_deserialize s; Ok (Secret o)
  else if String.eqb kind FUNCTION_TYPE_STRING then o ← function_deserialize s; Ok (Function o)
  else Ok (Unknown s).

(** ** Namespace paths: invariant and round trip *)

(** [NamespacePath] has a private field; its constructors establish [path_wf]. *)
Definition path_wf (p : NamespacePath) : Prop :=
  components p ≠ [] ∧ Forall (valid_name MAX_NAMESPACE_NAME_CHARS) (components p).

Lemma valid_name_no_char n s c : name_char c = false → valid_name n s → no_char c s = true.
Proof. intros Hc (_ & _ & Hs). by eapply name_char_not_sep. Qed.

Lemma path_validate_iff cs :
  try_for (λ c, map_err error_text (validate_namespace_component c)) cs = Ok tt ↔
  Forall (valid_name MAX_NAMESPACE_NAME_CHARS) cs.
Proof.
  rewrite try_for_Ok. apply Forall_iff. intros c.
  rewrite map_err_Ok. apply validate_component_Ok.
Qed.

Lemma path_new_wf cs p : path_new cs = Ok p → path_wf p ∧ (cs ≠ [] → components p = cs).
Proof.
  destruct cs as [|c cs]; unfold path_new.
  - intros [= <-]. split; [|done]. split; [done|]. repeat constructor; simpl; done || lia.
  - intros ([] & H & [= <-])%bind_Ok. apply path_validate_iff in H. done.
Qed.

Lemma path_new_Ok p : path_wf p → path_new (components p) = Ok p.
Proof.
  intros [Hne Hwf]. destruct p as [cs]; simpl in *. destruct cs as [|c cs]; [done|].
  unfold path_new. by rewrite (proj2 (path_validate_iff _) Hwf).
Qed.

Lemma path_wf_split p : path_wf p → split "$" (path_display p) = components p.
Proof.
  intros [Hne Hwf]. apply split_join; [done|].
  eapply Forall_impl; [exact Hwf|]. intros s. by apply valid_name_no_char.
Qed.

Lemma path_parse_display p : path_wf p → path_parse (path_display p) = Ok p.
Proof. intros Hwf. unfold path_parse. rewrite path_wf_split by done. by apply path_new_Ok. Qed.

Lemma path_display_parse s p : path_parse s = Ok p → path_display p = s ∧ path_wf p.
Proof.
  intros [Hwf Hc]%path_new_wf. split; [|done].
  unfold path_display. rewrite Hc by apply split_not_nil. apply join_split.
Qed.

Lemma list_starts_with_spec l k : list_starts_with l k = true ↔ k `prefix_of` l.
Proof.
  revert l; induction k as [|y k IH]; intros [|x l]; simpl.
  - split; [|done]. intros _. apply prefix_nil.
  - split; [|done]. intros _. apply prefix_nil.
  - split; [done|]. intros H. by apply prefix_nil_not in H.
  - rewrite andb_true_iff, String.eqb_eq, IH. split.
    + intros [-> ?]. by apply prefix_cons.
    + intros H. split; [symmetry; by eapply prefix_cons_inv_1 | by eapply prefix_cons_inv_2].
Qed.

Lemma descendant_spec p a :
  is_descendant_of p a = true ↔
  length (components a) < length (components p) ∧ components a `prefix_of` components p.
Proof. unfold is_descendant_of. by rewrite andb_true_iff, Nat.ltb_lt, list_starts_with_spec. Qed.

Lemma elem_of_prefixes p q :
  q ∈ prefixes p ↔ components q ≠ [] ∧ components q `prefix_of` components p.
Proof.
  unfold prefixes. rewrite list_elem_of_fmap. setoid_rewrite elem_of_seq. split.
  - intros (n & -> & Hn). simpl. split; [|apply prefix_take].
    intros H%(f_equal length). rewrite length_take in H. simpl in H. lia.
  - intros [Hne Hq]. exists (length (components q)). destruct q as [cs]; simpl in *. split.
    + destruct Hq as [k ->]. by rewrite take_app_length.
    + apply prefix_length in Hq. destruct cs; simpl in *; [done|lia].
Qed.

(** [prefixes] enumerates, from the root down, exactly the path itself and
    its ancestors in the [is_descendant_of] order, every one of them is a
    well-formed path, and [parent] is the last proper one. *)
Theorem namespace_prefixes_are_ancestors (p q : NamespacePath) :
  path_wf p →
  (q ∈ prefixes p ↔ q = p ∨ (components q ≠ [] ∧ is_descendant_of p q = true)) ∧
  (q ∈ prefixes p → path_wf q) ∧
  (parent p = Some q → q ∈ prefixes p ∧ length (components p) = S (length (components q))).
Proof.
  intros [Hne Hwf]. rewrite elem_of_prefixes, descendant_spec. split_and!.
  - split.
    + intros [Hq Hpre]. destruct (decide (length (components q) < length (components p))).
      * right. split_and!; [done..|]. done.
      * left. apply prefix_length_eq in Hpre; [|lia]. destruct p, q; naive_solver.
    + intros [->|(? & ? & ?)]; split; done.
  - intros [Hq [k Hk]]. split; [done|]. rewrite Hk in Hwf. by apply Forall_app in Hwf as [].
  - unfold parent. destruct (Nat.ltb_spec 1 (length (components p))); [|done].
    intros [= <-]. simpl. rewrite length_take. split_and!; [|apply prefix_take|lia].
    intros E%(f_equal length). rewrite length_take in E. simpl in E. lia.
Qed.

Lemma namespace_prefixes_are_ancestors_witness :
  mkPath ["eng"] ∈ prefixes (mkPath ["eng"; "search"]).
Proof.
  refine (proj2 (proj1 (namespace_prefixes_are_ancestors
    (mkPath ["eng"; "search"]) (mkPath ["eng"]) _)) _).
  - split; [done|]. repeat constructor; simpl; try discriminate; lia.
  - right. split; [done|]. reflexivity.
Defined.

(** ** Resources: the wire format *)

Definition known_kinds : list string :=
  [SYSTEM_TYPE_STRING; DATABASE_TYPE_STRING; NAMESPACE_TYPE_STRING; TABLE_TYPE_STRING;
   VIEW_TYPE_STRING; SECRET_TYPE_STRING; FUNCTION_TYPE_STRING].

(** Paths are well formed (a type invariant of the source) and an [Unknown]
    object does not use the name of a known type. *)
Definition object_wf (o : Object) : Prop :=
  match o with
  | System | Database _ => True
  | Namespace o => path_wf (no_namespace o)
  | Table o => path_wf (to_namespace o)
  | View o => path_wf (vo_namespace o)
  | Secret o => path_wf (so_namespace o)
  | Function o => path_wf (fo_namespace o)
  | Unknown s => wire_kind s ∉ known_kinds
  end.

Lemma named_validate_Ok (d name : string) (v : string → result unit) n :
  (v name = Ok tt ↔ valid_name n name) →
  (_ ← map_err error_text (validate_database_name d); map_err error_text (v name)) = Ok tt →
  no_char ":" d = true ∧ no_char "$" name = true.
Proof.
  intros Hv ([] & Hd & Hn)%bind_Ok. apply map_err_Ok in Hd, Hn.
  apply validate_database_name_Ok in Hd as (_ & Hd & _). apply Hv in Hn as (_ & _ & Hn).
  split; [by eapply db_char_not_sep | by eapply name_char_not_sep].
Qed.

Lemma wire_kind_app k r : no_char ":" k = true → wire_kind (k +:+ String ":" r) = k.
Proof. intros Hk. unfold wire_kind. by rewrite split_app. Qed.

(** Printing then parsing one resource type: [ok] is its name validator's lemma. *)
Ltac print_parse ok :=
  intros Hp Hv;
  pose proof Hv as [Hd Hn]%(named_validate_Ok _ _ _ _ (ok _));
  rewrite strip_prefix_app; cbn [ok_or mbind outcome_bind];
  rewrite (split_once_app _ _ _ Hd); cbn [ok_or mbind outcome_bind];
  rewrite (rsplit_once_app _ _ _ Hn); cbn [ok_or mbind outcome_bind];
  rewrite (path_parse_display _ Hp); cbn [ok_or mbind outcome_bind];
  match goal with |- (?v ?o ≫= _) = Ok ?o' => change o with o' end; rewrite Hv; done.

(** Parsing then printing one resource type. *)
Ltac parse_print :=
  intros H;
  repeat (inv_ok; match goal with
  | x : string * string |- _ => destruct x; cbn beta iota in *
  | x : unit |- _ => destruct x
  end); inv_ok; subst;
  repeat match goal with
  | H : strip_prefix _ _ = Some _ |- _ => apply strip_prefix_Some in H as ->
  | H : split_once _ _ = Some _ |- _ => apply split_once_Some in H as [-> _]
  | H : rsplit_once _ _ = Some _ |- _ => apply rsplit_once_Some in H as [-> _]
  | H : path_parse _ = Ok _ |- _ => apply path_display_parse in H as [<- ?]
  end; done.

Lemma table_print_parse o :
  path_wf (to_namespace o) → table_validate o = Ok tt → table_deserialize (table_display o) = Ok o.
Proof. destruct o. unfold table_deserialize, table_display. print_parse validate_table_name_Ok. Qed.
Lemma view_print_parse o :
  path_wf (vo_namespace o) → view_validate o = Ok tt → view_deserialize (view_display o) = Ok o.
Proof.
  destruct o. unfold view_deserialize, view_display.
  print_parse (λ s, validate_component_Ok s "view name" MAX_VIEW_NAME_CHARS).
Qed.
Lemma secret_print_parse o :
  path_wf (so_namespace o) → secret_validate o = Ok tt → secret_deserialize (secret_display o) = Ok o.
Proof.
  destruct o. unfold secret_deserialize, secret_display.
  print_parse (λ s, validate_component_Ok s "secret name" MAX_SECRET_NAME_CHARS).
Qed.
Lemma function_print_parse o :
  path_wf (fo_namespace o) → function_validate o = Ok tt →
  function_deserialize (function_display o) = Ok o.
Proof. destruct o. unfold function_deserialize, function_display. print_parse validate_table_name_Ok. Qed.

Lemma database_print_parse o :
  database_validate o = Ok tt → database_deserialize (database_display o) = Ok o.
Proof.
  destruct o. intros Hv. unfold database_deserialize, database_display.
  rewrite strip_prefix_app. cbn [ok_or mbind outcome_bind do_database]. by rewrite Hv.
Qed.
Lemma namespace_print_parse o :
  path_wf (no_namespace o) → namespace_validate o = Ok tt →
  namespace_deserialize (namespace_display o) = Ok o.
Proof.
  destruct o as [d p]. intros Hp Hv.
  pose proof Hv as (_ & Hd%(db_char_not_sep _ ":") & _)%map_err_Ok%validate_database_name_Ok; [|done].
  unfold namespace_deserialize, namespace_display.
  rewrite strip_prefix_app. cbn [ok_or mbind outcome_bind].
  rewrite (split_once_app _ _ _ Hd). cbn [ok_or mbind outcome_bind].
  rewrite (path_parse_display _ Hp). cbn [ok_or mbind outcome_bind no_database no_namespace].
  by rewrite Hv.
Qed.

Lemma database_parse_print s o :
  database_deserialize s = Ok o → database_display o = s ∧ database_validate o = Ok tt.
Proof. unfold database_deserialize. parse_print. Qed.
Lemma namespace_parse_print s o :
  namespace_deserialize s = Ok o →
  namespace_display o = s ∧ namespace_validate o = Ok tt ∧ path_wf (no_namespace o).
Proof. unfold namespace_deserialize. parse_print. Qed.
Lemma table_parse_print s o :
  table_deserialize s = Ok o → table_display o = s ∧ table_validate o = Ok tt ∧ path_wf (to_namespace o).
Proof. unfold table_deserialize. parse_print. Qed.
Lemma view_parse_print s o :
  view_deserialize s = Ok o → view_display o = s ∧ view_validate o = Ok tt ∧ path_wf (vo_namespace o).
Proof. unfold view_deserialize. parse_print. Qed.
Lemma secret_parse_print s o :
  secret_deserialize s = Ok o → secret_display o = s ∧ secret_validate o = Ok tt ∧ path_wf (so_namespace o).
Proof. unfold secret_deserialize. parse_print. Qed.
Lemma function_parse_print s o :
  function_deserialize s = Ok o →
  function_display o = s ∧ function_validate o = Ok tt ∧ path_wf (fo_namespace o).
Proof. unfold function_deserialize. parse_print. Qed.

(** [display] starts with the type name, which selects the parser. *)
Lemma deserialize_dispatch (k r : string) :
  k ∈ known_kinds → k ≠ SYSTEM_TYPE_STRING →
  deserialize (k +:+ String ":" r) =
    let s := k +:+ String ":" r in
    if String.eqb k DATABASE_TYPE_STRING then o ← database_deserialize s; Ok (Database o)
    else if String.eqb k NAMESPACE_TYPE_STRING then o ← namespace_deserialize s; Ok (Namespace o)
    else if String.eqb k TABLE_TYPE_STRING then o ← table_deserialize s; Ok (Table o)
    else if String.eqb k VIEW_TYPE_STRING then o ← view_deserialize s; Ok (View o)
    else if String.eqb k SECRET_TYPE_STRING then o ← secret_deserialize s; Ok (Secret o)
    else o ← function_deserialize s; Ok (Function o).
Proof.
  intros Hk Hs. unfold deserialize. unfold known_kinds in Hk.
  repeat (apply elem_of_cons in Hk as [->|Hk];
    [try done; rewrite wire_kind_app by done; reflexivity|]).
  by apply not_elem_of_nil in Hk.
Qed.

Lemma deserialize_unknown s :
  s ≠ "" → wire_kind s ∉ known_kinds → deserialize s = Ok (Unknown s).
Proof.
  intros Hne Hk. unfold deserialize. cbv zeta.
  assert (∀ k, k ∈ known_kinds → String.eqb (wire_kind s) k = false) as Hneq.
  { intros k ?. apply String.eqb_neq. by intros <-. }
  destruct (String.eqb_spec s SYSTEM_TYPE_STRING) as [->|_].
  { exfalso. apply Hk. vm_compute. constructor. }
  assert (is_empty s = false) as -> by (by destruct s).
  rewrite !Hneq; [done|by vm_compute; repeat constructor..].
Qed.

(** Rewrite with the parser the type name [k] selects. *)
Ltac dispatch k :=
  match goal with
  | |- deserialize ?d = _ =>
      let s := fresh "s" in
      remember d as s eqn:Hs;
      assert (∃ r, s = k +:+ String ":" r) as [r Hr] by (subst; eexists; reflexivity);
      rewrite Hr, deserialize_dispatch by (by vm_compute; repeat constructor);
      rewrite <- Hr, Hs; cbn -[database_deserialize namespace_deserialize table_deserialize
        view_deserialize secret_deserialize function_deserialize database_display
        namespace_display table_display view_display secret_display function_display]
  end.

(** the wire name of a resource is canonical: a serialized resource parses
    back to itself, and a string that parses is exactly what the parsed
    resource serializes to, so two resources never share a wire name and no
    resource has two. *)
Theorem object_wire_roundtrip (o : Object) (s : string) :
  (object_wf o → serialize o = Ok s → deserialize s = Ok o) ∧
  (deserialize s = Ok o → serialize o = Ok s ∧ object_wf o).
Proof.
  split.
  - intros Hwf ([] & Hv & [= <-])%bind_Ok.
    destruct o as [|o|o|o|o|o|o|u]; cbn [display validate object_wf] in *; [reflexivity|..].
    + dispatch "database". by rewrite (database_print_parse o Hv).
    + dispatch "namespace". by rewrite (namespace_print_parse o Hwf Hv).
    + dispatch "table". by rewrite (table_print_parse o Hwf Hv).
    + dispatch "view". by rewrite (view_print_parse o Hwf Hv).
    + dispatch "secret". by rewrite (secret_print_parse o Hwf Hv).
    + dispatch "function". by rewrite (function_print_parse o Hwf Hv).
    + apply deserialize_unknown; [by intros ->|done].
  - unfold deserialize; cbv zeta. intros H.
    destruct (String.eqb_spec s SYSTEM_TYPE_STRING) as [Hs|_]; [inv_ok; by subst|].
    destruct (is_empty s || _) eqn:E0; [done|]. apply orb_false_iff in E0 as [He E0].
    repeat match type of H with
    | (if String.eqb ?k ?c then _ else _) = _ => destruct (String.eqb k c) eqn:?
    end; inv_ok; subst; unfold serialize; simpl;
    repeat match goal with
    | H : database_deserialize _ = Ok _ |- _ => apply database_parse_print in H as (? & ->)
    | H : namespace_deserialize _ = Ok _ |- _ => apply namespace_parse_print in H as (? & -> & ?)
    | H : table_deserialize _ = Ok _ |- _ => apply table_parse_print in H as (? & -> & ?)
    | H : view_deserialize _ = Ok _ |- _ => apply view_parse_print in H as (? & -> & ?)
    | H : secret_deserialize _ = Ok _ |- _ => apply secret_parse_print in H as (? & -> & ?)
    | H : function_deserialize _ = Ok _ |- _ => apply function_parse_print in H as (? & -> & ?)
    end; simpl; [split; [by f_equal|done]..|].
    rewrite He. split; [done|]. unfold known_kinds.
    rewrite !not_elem_of_cons. repeat (split; [by apply String.eqb_neq|]).
    by apply not_elem_of_nil.
Qed.

Lemma object_wire_roundtrip_witness :
  deserialize "table:analytics:eng$search$docs" =
    Ok (Table (mkTable "analytics" (mkPath ["eng"; "search"]) "docs")).
Proof.
  apply (object_wire_roundtrip (Table (mkTable "analytics" (mkPath ["eng"; "search"]) "docs"))).
  - split; [done|]. repeat constructor; simpl; try discriminate; lia.
  - reflexivity.
Defined.

(** A function resource is validated with the table-name rule, which accepts
    the dashes and periods that [validate_function_name] rejects. *)
Lemma function_object_accepts_dashes :
  function_validate (mkFunction "db" path_default "my-fn.v2") = Ok tt ∧
  is_ok (validate_function_name "my-fn.v2") = false.
Proof. split; reflexivity. Qed.

End Object.
