(* ===== verification/Floats.v ===== *)
(** * IEEE 754 arithmetic

    [f64] and [f32] are the Standard Library's executable [spec_float] at the
    two precisions, with rounding to nearest even, and the conversions of the
    language the code uses. *)

From S2P Require Import Prelude.
From Stdlib Require Import SpecFloat.

Module F64.
Definition prec : Z := 53.
Definition emax : Z := 1024.
Definition t : Type := spec_float.

Definition mul : t → t → t := SFmul prec emax.
Definition add : t → t → t := SFadd prec emax.
Definition sub : t → t → t := SFsub prec emax.
Definition abs : t → t := SFabs.
Definition ltb : t → t → bool := SFltb.

(** [n as f64] for an integer [n]. *)
Definition of_Z (n : Z) : t := binary_normalize prec emax n 0 false.

Definition zero : t := S754_zero false.
Definition one : t := of_Z 1.
Definition half : t := SFdiv prec emax (of_Z 1) (of_Z 2).

(** [iter.sum::<f64>()]: the sum starts at [-0.0]. *)
Definition sum (l : list t) : t := foldl add (S754_zero true) l.

(** [x.round() as u64]: rounds half away from zero, then saturates; NaN is 0. *)
Definition round_as_u64 (x : t) : Z :=
  match x with
  | S754_nan | S754_zero _ => 0
  | S754_infinity s => if s then 0 else U64 - 1
  | S754_finite true _ _ => 0
  | S754_finite false m e =>
      let v := if (0 <=? e)%Z then Zpos m * 2 ^ e
               else (Zpos m + 2 ^ (- e - 1)) / 2 ^ (- e) in
      Z.min v (U64 - 1)
  end%Z.

(** The decimal constant [n / 10^k], correctly rounded. *)
Definition of_decimal (n k : Z) : t := SFdiv prec emax (of_Z n) (of_Z (10 ^ k)).

Lemma round_as_u64_range x : u64_range (round_as_u64 x).
Proof.
  unfold u64_range.
  destruct x as [s|[]| |[] m e]; cbn [round_as_u64]; unfold U64; [lia..|].
  set (v := if (0 <=? e)%Z then _ else _).
  assert (0 ≤ v)%Z as Hv.
  { subst v. destruct (0 <=? e)%Z eqn:He; to_prop.
    - apply Z.mul_nonneg_nonneg; [lia|]. apply Z.pow_nonneg; lia.
    - apply Z.div_pos; [|apply Z.pow_pos_nonneg; lia].
      assert (0 ≤ 2 ^ (- e - 1))%Z by (apply Z.pow_nonneg; lia). lia. }
  lia.
Qed.
End F64.

Module F32.
Definition prec : Z := 24.
Definition emax : Z := 128.
Definition t : Type := spec_float.

Definition add : t → t → t := SFadd prec emax.
Definition sub : t → t → t := SFsub prec emax.
Definition div : t → t → t := SFdiv prec emax.
Definition mul : t → t → t := SFmul prec emax.
Definition ltb : t → t → bool := SFltb.
Definition eqb : t → t → bool := SFeqb.
Definition of_Z (n : Z) : t := binary_normalize prec emax n 0 false.
Definition zero : t := S754_zero false.
Definition one : t := of_Z 1.

(** A literal [n / 10^k]. *)
Definition of_decimal (n k : Z) : t := SFdiv prec emax (of_Z n) (of_Z (10 ^ k)).
End F32.

#[export] Instance spec_float_eq_dec : EqDecision spec_float.
Proof. solve_decision. Defined.
