(* ===== verification/Arrow.v ===== *)
(** * Arrow record batches

    Arrow is a dependency of the crate: its kernels are parameters of the
    model.  [RecordBatch] is the data such a batch carries (a schema and
    columns of equal length); the class [ArrowKernels] names the kernels the
    crate calls and [ArrowLaws] states what their documentation promises.
    [ref_kernels] shows the laws can hold. *)

From S2P Require Import Prelude.
From Stdlib Require Import SpecFloat.
From S2P Require Import Floats.

Inductive DataType : Type :=
  | UInt64 | Float32 | Utf8
  | OtherType (name : string).

#[export] Instance DataType_eq_dec : EqDecision DataType.
Proof. solve_decision. Defined.

(** A value of a column; columns the code never reads hold [COpaque]. *)
Inductive cell : Type :=
  | CNull
  | CU64 (z : Z)
  | CF32 (x : spec_float)
  | COpaque (payload : string).

#[export] Instance cell_eq_dec : EqDecision cell.
Proof. solve_decision. Defined.

Record Field : Type := mkField {
  f_name : string;
  f_type : DataType;
  f_nullable : bool;
  f_metadata : gmap string string
}.

#[export] Instance Field_eq_dec : EqDecision Field.
Proof. solve_decision. Defined.

Abbreviation column := (list cell).

Record RecordBatch : Type := mkRB {
  rb_fields : list Field;
  rb_columns : list column;
  rb_num_rows : nat
}.

#[export] Instance RecordBatch_eq_dec : EqDecision RecordBatch.
Proof. solve_decision. Defined.

(** A stream of batches ([SendableRecordBatchStream]): its schema and the
    items it yields, in order. *)
Record Stream : Type := mkStream {
  st_schema : list Field;
  st_items : list (result RecordBatch)
}.

(** [stream.try_collect::<Vec<_>>()]: the batches, or the first failure. *)
Fixpoint try_collect {A} (items : list (result A)) : result (list A) :=
  match items with
  | [] => Ok []
  | i :: items' => b ← i; bs ← try_collect items'; Ok (b :: bs)
  end.

Lemma try_collect_Ok {A} (bs : list A) : try_collect (Ok <$> bs) = Ok bs.
Proof.
  induction bs as [|b bs IH]; [done|]. rewrite fmap_cons. cbn [try_collect].
  run_ok. by rewrite IH.
Qed.

(** ** Well-formed batches *)
Definition cell_ok (f : Field) (c : cell) : bool :=
  match c, f_type f with
  | CNull, _ => f_nullable f
  | CU64 z, UInt64 => u64_in_range z
  | CF32 _, Float32 => true
  | COpaque _, (Utf8 | OtherType _) => true
  | _, _ => false
  end.

Definition column_ok (n : nat) (f : Field) (c : column) : Prop :=
  length c = n ∧ Forall (λ x, cell_ok f x = true) c.

(** The columns fit a schema, whatever the batch's own schema is. *)
Definition columns_fit (fields : list Field) (b : RecordBatch) : Prop :=
  Forall2 (column_ok (rb_num_rows b)) fields (rb_columns b).

Definition rb_wf (b : RecordBatch) : Prop :=
  Forall2 (column_ok (rb_num_rows b)) (rb_fields b) (rb_columns b).

(** ** What the kernels compute *)
Definition slice_cells {A} (l : list A) (off len : nat) : list A := take len (drop off l).
Definition take_cells {A} (l : list A) (idx : list Z) : list A :=
  omap (λ i, l !! Z.to_nat i) idx.
Fixpoint filter_cells {A} (l : list A) (mask : list bool) : list A :=
  match l, mask with
  | x :: l', b :: mask' => if b then x :: filter_cells l' mask' else filter_cells l' mask'
  | _, _ => []
  end.

(** Column [j] of the concatenation of [bs]. *)
Definition concat_column (bs : list RecordBatch) (j : nat) : column :=
  mjoin ((λ b, default [] (rb_columns b !! j)) <$> bs).
Definition total_rows (bs : list RecordBatch) : nat := sum_list_with rb_num_rows bs.
Definition concat_rb (fields : list Field) (bs : list RecordBatch) : RecordBatch :=
  mkRB fields (concat_column bs <$> seq 0 (length fields)) (total_rows bs).

Definition take_rb (b : RecordBatch) (idx : list Z) : RecordBatch :=
  mkRB (rb_fields b) ((λ c, take_cells c idx) <$> rb_columns b) (length idx).
Definition slice_rb (b : RecordBatch) (off len : nat) : RecordBatch :=
  mkRB (rb_fields b) ((λ c, slice_cells c off len) <$> rb_columns b) len.

Definition in_bounds (n : nat) (idx : list Z) : Prop :=
  Forall (λ i, 0 ≤ i < Z.of_nat n)%Z idx.

#[export] Instance in_bounds_dec n idx : Decision (in_bounds n idx).
Proof. unfold in_bounds. apply _. Defined.

(** ** The kernels *)
Class ArrowKernels : Type := {
  (** [RecordBatch::try_new] *)
  try_new : list Field → list column → result RecordBatch;
  (** [Array::slice] and [RecordBatch::slice] *)
  array_slice : column → nat → nat → column;
  rb_slice : RecordBatch → nat → nat → RecordBatch;
  (** [arrow::compute::filter] with a boolean mask *)
  array_filter : column → list bool → result column;
  (** [arrow::compute::take_record_batch] *)
  take_record_batch : RecordBatch → list Z → result RecordBatch;
  (** [arrow::compute::concat_batches] *)
  concat_batches : list Field → list RecordBatch → result RecordBatch;
  (** [lance_arrow::SchemaExt::try_with_column] *)
  schema_with_column : list Field → Field → result (list Field)
}.

Class ArrowLaws (K : ArrowKernels) : Prop := {
  try_new_ok fields c cols :
    Forall2 (column_ok (length c)) fields (c :: cols) →
    try_new fields (c :: cols) = Ok (mkRB fields (c :: cols) (length c));
  array_slice_ok c off len :
    off + len ≤ length c → array_slice c off len = slice_cells c off len;
  rb_slice_ok b off len :
    rb_wf b → off + len ≤ rb_num_rows b → rb_slice b off len = slice_rb b off len;
  array_filter_ok c mask :
    length mask = length c → array_filter c mask = Ok (filter_cells c mask);
  take_record_batch_ok b idx :
    rb_wf b → in_bounds (rb_num_rows b) idx → take_record_batch b idx = Ok (take_rb b idx);
  (** the schemas of the inputs are ignored *)
  concat_columns_ok fields bs :
    Forall (λ b, columns_fit fields b) bs →
    concat_batches fields bs = Ok (concat_rb fields bs);
  schema_with_column_ok fields f :
    f_name f ∉ f_name <$> fields → schema_with_column fields f = Ok (fields ++ [f])
}.

(** ** A model of the laws *)
Definition column_okb (n : nat) (f : Field) (c : column) : bool :=
  (length c =? n) && forallb (cell_ok f) c.

#[export] Instance ref_kernels : ArrowKernels := {
  try_new fields cols :=
    match cols with
    | [] => Err (Arrow "must either specify a row count or at least one column")
    | c :: _ =>
        if (length fields =? length cols) &&
           forallb (λ '(f, c'), column_okb (length c) f c') (zip fields cols)
        then Ok (mkRB fields cols (length c))
        else Err (Arrow "column does not match the schema")
    end;
  array_slice c off len := slice_cells c off len;
  rb_slice b off len := slice_rb b off len;
  array_filter c mask := Ok (filter_cells c mask);
  take_record_batch b idx := Ok (take_rb b idx);
  concat_batches fields bs := Ok (concat_rb fields bs);
  schema_with_column fields f :=
    if bool_decide (f_name f ∈ f_name <$> fields)
    then Err (Arrow "Can not append column, name already exists in schema")
    else Ok (fields ++ [f])
}.

Lemma column_okb_spec n f c : column_okb n f c = true ↔ column_ok n f c.
Proof.
  unfold column_okb, column_ok. rewrite andb_true_iff, Nat.eqb_eq, forallb_forall, Forall_forall.
  setoid_rewrite list_elem_of_In. done.
Qed.

#[export] Instance ref_laws : ArrowLaws ref_kernels.
Proof.
  constructor; simpl; try done.
  2: { intros fields f H. by rewrite bool_decide_eq_false_2. }
  intros fields c cols H. pose proof (Forall2_length _ _ _ H) as Hl. simpl in Hl.
  rewrite Hl. rewrite Nat.eqb_refl. simpl.
  replace (forallb _ _) with true; [done|]. symmetry.
  apply forallb_forall. intros [f c'] Hin%list_elem_of_In.
  apply column_okb_spec. apply elem_of_lookup_zip_with in Hin as (i & ? & ? & [= <- <-] & Hf & Hc).
  by eapply Forall2_lookup_lr.
Qed.

(** ** Lemmas on wf batches *)
Lemma rb_wf_lengths b : rb_wf b → Forall (λ c, length c = rb_num_rows b) (rb_columns b).
Proof.
  intros H. apply Forall_lookup. intros i c Hc.
  eapply Forall2_lookup_r in H as (f & _ & [? _]); done.
Qed.

Lemma column_ok_take_cells n f c idx :
  column_ok n f c → in_bounds n idx → column_ok (length idx) f (take_cells c idx).
Proof.
  intros [Hl Hc] Hi. unfold take_cells. split.
  - induction Hi as [|i idx Hi _ IH]; simpl; [done|].
    destruct (lookup_lt_is_Some_2 c (Z.to_nat i)) as [x ->]; [lia|]. simpl. f_equal. exact IH.
  - apply Forall_forall. intros x (i & _ & Hx)%list_elem_of_omap.
    rewrite Forall_forall in Hc. apply Hc. by eapply list_elem_of_lookup_2.
Qed.

Lemma take_rb_wf b idx : rb_wf b → in_bounds (rb_num_rows b) idx → rb_wf (take_rb b idx).
Proof.
  unfold rb_wf, take_rb; simpl. intros H Hi. rewrite Forall2_fmap_r.
  eapply Forall2_impl; [exact H|]. intros f c ?. by eapply column_ok_take_cells.
Qed.

Lemma length_slice_cells {A} (l : list A) off len :
  off + len ≤ length l → length (slice_cells l off len) = len.
Proof. intros. unfold slice_cells. rewrite length_take, length_drop. lia. Qed.

(** Taking a contiguous run of indices is slicing. *)
Lemma take_cells_run {A} (pre l suf : list A) :
  take_cells (pre ++ l ++ suf) (Z.of_nat <$> seq (length pre) (length l)) = l.
Proof.
  unfold take_cells. revert pre. induction l as [|x l IH]; intros pre; simpl; [done|].
  rewrite Nat2Z.id, list_lookup_middle by done. f_equal.
  specialize (IH (pre ++ [x])). rewrite length_app in IH. simpl in IH.
  rewrite Nat.add_1_r, <- app_assoc in IH. exact IH.
Qed.

Lemma take_cells_seq {A} (l : list A) : take_cells l (Z.of_nat <$> seq 0 (length l)) = l.
Proof. pose proof (take_cells_run [] l []) as H. simpl in H. by rewrite app_nil_r in H. Qed.

Lemma take_cells_app {A} (l : list A) i j : take_cells l (i ++ j) = take_cells l i ++ take_cells l j.
Proof. apply omap_app. Qed.

Lemma take_cells_cons {A} (l : list A) i idx x :
  l !! Z.to_nat i = Some x → take_cells l (i :: idx) = x :: take_cells l idx.
Proof. intros Hx. unfold take_cells. simpl. by rewrite Hx. Qed.

Lemma take_cells_fmap {A B} (g : A → B) (l : list A) idx :
  take_cells (g <$> l) idx = g <$> take_cells l idx.
Proof.
  unfold take_cells.
  induction idx as [|i idx IH]; [done|]. simpl. rewrite list_lookup_fmap.
  destruct (l !! Z.to_nat i); simpl; [by f_equal|done].
Qed.

(** Taking by a permutation of all the indices permutes the column. *)
Lemma take_cells_perm {A} (l : list A) idx :
  idx ≡ₚ (Z.of_nat <$> seq 0 (length l)) → take_cells l idx ≡ₚ l.
Proof. intros H. rewrite <- (take_cells_seq l) at 2. unfold take_cells. by rewrite H. Qed.

Lemma try_new_columns {K : ArrowKernels} {LK : ArrowLaws K} n fields cols :
  cols ≠ [] → Forall2 (column_ok n) fields cols → try_new fields cols = Ok (mkRB fields cols n).
Proof.
  intros Hne Hc. destruct cols as [|c cols]; [done|].
  assert (length c = n) as <- by (by inversion Hc as [|? ? ? ? []]). by apply try_new_ok.
Qed.

Lemma column_ok_slice n m f c : column_ok n f c → m ≤ n → column_ok m f (take m c).
Proof. intros [Hl Hc] Hm. split; [rewrite length_take; lia|by apply Forall_take]. Qed.

(** ** Composing kernels *)
Lemma take_cells_lookup {A} (l : list A) idx k :
  in_bounds (length l) idx →
  take_cells l idx !! k = idx !! k ≫= λ i, l !! Z.to_nat i.
Proof.
  intros Hi. revert k. unfold take_cells.
  induction Hi as [|i idx Hi _ IH]; intros k; [done|].
  destruct (lookup_lt_is_Some_2 l (Z.to_nat i)) as [x Hx]; [lia|].
  simpl. rewrite Hx. destruct k as [|k]; simpl; [by rewrite Hx|apply IH].
Qed.

Lemma length_take_cells {A} (l : list A) idx :
  in_bounds (length l) idx → length (take_cells l idx) = length idx.
Proof.
  intros Hi. unfold take_cells. induction Hi as [|i idx Hi _ IH]; [done|]. simpl.
  destruct (lookup_lt_is_Some_2 l (Z.to_nat i)) as [x ->]; [lia|]. simpl. by f_equal.
Qed.

Lemma take_cells_take_drop {A} (l : list A) idx n :
  in_bounds (length l) idx →
  take_cells l (take n idx) = take n (take_cells l idx) ∧
  take_cells l (drop n idx) = drop n (take_cells l idx).
Proof.
  intros Hi. revert n. induction Hi as [|i idx Hi _ IH]; intros n.
  { by destruct n. }
  destruct (lookup_lt_is_Some_2 l (Z.to_nat i)) as [x Hx]; [lia|].
  destruct n as [|n]; [done|]. cbn [take drop].
  rewrite !(take_cells_cons _ _ _ _ Hx). cbn [take drop]. destruct (IH n) as [-> ->]. done.
Qed.

Lemma take_cells_compose {A} (l : list A) idx j :
  in_bounds (length l) idx →
  take_cells (take_cells l idx) j = take_cells l (take_cells idx j).
Proof.
  intros Hi. induction j as [|k j IH]; [done|]. unfold take_cells at 1 3. simpl.
  rewrite take_cells_lookup by done.
  destruct (idx !! Z.to_nat k) as [i|] eqn:Hk; simpl; [|exact IH].
  unfold take_cells at 3. simpl. destruct (l !! Z.to_nat i) eqn:Hl; simpl.
  - f_equal. exact IH.
  - exact IH.
Qed.

Lemma take_cells_shift {A} (pre l suf : list A) idx :
  in_bounds (length l) idx →
  take_cells l idx = take_cells (pre ++ l ++ suf) (Z.add (Z.of_nat (length pre)) <$> idx).
Proof.
  unfold take_cells. induction 1 as [|i idx Hi _ IH]; [done|]. simpl.
  replace (Z.to_nat (Z.of_nat (length pre) + i)) with (length pre + Z.to_nat i) by lia.
  rewrite lookup_app_r, Nat.add_comm, Nat.add_sub, lookup_app_l by lia.
  destruct (l !! Z.to_nat i); simpl; [f_equal|]; exact IH.
Qed.

Lemma rb_wf_column b j c : rb_wf b → rb_columns b !! j = Some c → length c = rb_num_rows b.
Proof. intros H%rb_wf_lengths. rewrite Forall_lookup in H. apply H. Qed.

Lemma take_rb_compose b idx j :
  rb_wf b → in_bounds (rb_num_rows b) idx → in_bounds (length idx) j →
  take_rb (take_rb b idx) j = take_rb b (take_cells idx j).
Proof.
  intros Hb Hi Hj. unfold take_rb; simpl. f_equal.
  - rewrite <- list_fmap_compose. apply list_fmap_ext. intros k c Hc. simpl.
    apply take_cells_compose. by rewrite (rb_wf_column _ _ _ Hb Hc).
  - by rewrite length_take_cells.
Qed.

Lemma concat_rb_take b ls :
  rb_wf b → concat_rb (rb_fields b) (take_rb b <$> ls) = take_rb b (mjoin ls).
Proof.
  intros Hb. change (take_rb b (mjoin ls)) with
    (mkRB (rb_fields b) ((λ c, take_cells c (mjoin ls)) <$> rb_columns b) (length (mjoin ls))).
  unfold concat_rb. f_equal.
  - pose proof (Forall2_length _ _ _ Hb) as Hl. apply list_eq. intros j.
    rewrite !list_lookup_fmap. destruct (decide (j < length (rb_columns b))) as [Hj|Hj].
    + destruct (lookup_lt_is_Some_2 _ _ Hj) as [c Hc].
      rewrite lookup_seq_lt, Hc by lia. simpl. f_equal. unfold concat_column.
      rewrite <- list_fmap_compose. induction ls as [|o ls IH]; [done|].
      rewrite fmap_cons, !mjoin_cons, take_cells_app, <- IH. simpl. f_equal.
      by rewrite list_lookup_fmap, Hc.
    + rewrite lookup_seq_ge by lia. by rewrite (lookup_ge_None_2 (rb_columns b)) by lia.
  - unfold total_rows. induction ls as [|o ls IH]; [done|].
    rewrite fmap_cons, mjoin_cons, length_app. simpl in *. lia.
Qed.

Section concat.
Context (fields : list Field).

Definition batches_ok (bs : list RecordBatch) : Prop :=
  Forall (λ b, rb_wf b ∧ rb_fields b = fields) bs.

Lemma concat_batches_ok {K : ArrowKernels} {LK : ArrowLaws K} bs :
  batches_ok bs → concat_batches fields bs = Ok (concat_rb fields bs).
Proof.
  intros Hbs. apply concat_columns_ok. eapply Forall_impl; [exact Hbs|]. by intros b [Hb <-].
Qed.

Lemma concat_column_app bs bs' j :
  concat_column (bs ++ bs') j = concat_column bs j ++ concat_column bs' j.
Proof. unfold concat_column. by rewrite fmap_app, mjoin_app. Qed.

Lemma length_concat_column bs j :
  batches_ok bs → j < length fields → length (concat_column bs j) = total_rows bs.
Proof.
  intros Hbs Hj. unfold concat_column, total_rows.
  induction Hbs as [|b bs [Hb Hf] _ IH]; [done|].
  rewrite fmap_cons, mjoin_cons, length_app. simpl. f_equal; [|exact IH].
  pose proof (Forall2_length _ _ _ Hb) as Hl. rewrite Hf in Hl.
  destruct (lookup_lt_is_Some_2 (rb_columns b) j) as [c Hc]; [lia|].
  rewrite Hc. simpl. by eapply rb_wf_column.
Qed.

Lemma concat_rb_wf bs : batches_ok bs → rb_wf (concat_rb fields bs).
Proof.
  intros Hbs. unfold rb_wf, concat_rb; simpl. apply Forall2_same_length_lookup_2.
  { by rewrite length_fmap, length_seq. }
  intros j f c Hf Hc. rewrite list_lookup_fmap in Hc.
  pose proof (lookup_lt_Some _ _ _ Hf) as Hj.
  rewrite lookup_seq_lt in Hc by done. simpl in Hc. injection Hc as <-.
  split; [by apply length_concat_column|].
  unfold concat_column. apply Forall_join, Forall_fmap.
  eapply Forall_impl; [exact Hbs|]. intros b [Hb Hbf]. simpl.
  destruct (rb_columns b !! j) as [c|] eqn:Hc; [|constructor]. simpl. rewrite <- Hbf in Hf.
  unfold rb_wf in Hb. rewrite Forall2_lookup in Hb. specialize (Hb j).
  rewrite Hf, Hc in Hb. by inversion Hb as [? ? []|].
Qed.

Lemma take_rb_concat pre b suf o :
  batches_ok (pre ++ b :: suf) → in_bounds (rb_num_rows b) o →
  take_rb b o = take_rb (concat_rb fields (pre ++ b :: suf))
                  (Z.add (Z.of_nat (total_rows pre)) <$> o).
Proof.
  intros Hbs Ho. pose proof Hbs as [Hpre [[Hb Hf] Hsuf]%Forall_cons]%Forall_app.
  unfold take_rb, concat_rb; simpl. rewrite Hf, length_fmap. f_equal.
  pose proof (Forall2_length _ _ _ Hb) as Hl. rewrite Hf in Hl.
  rewrite <- list_fmap_compose. apply list_eq. intros j. rewrite !list_lookup_fmap.
  destruct (decide (j < length fields)) as [Hj|Hj].
  - destruct (lookup_lt_is_Some_2 (rb_columns b) j) as [c Hc]; [lia|].
    rewrite lookup_seq_lt, Hc by done. simpl. f_equal.
    change (b :: suf) with ([b] ++ suf). rewrite !concat_column_app.
    rewrite <- (length_concat_column pre j) by done.
    assert (concat_column [b] j = c) as ->.
    { unfold concat_column. simpl. rewrite Hc. apply app_nil_r. }
    apply take_cells_shift. by rewrite (rb_wf_column _ _ _ Hb Hc).
  - rewrite lookup_seq_ge by lia. by rewrite (lookup_ge_None_2 (rb_columns b)) by lia.
Qed.

Lemma total_rows_app bs bs' : total_rows (bs ++ bs') = total_rows bs + total_rows bs'.
Proof. unfold total_rows. apply sum_list_with_app. Qed.

(** Concatenation one batch at a time. *)
Lemma concat_rb_cons b bs :
  rb_wf b → rb_fields b = fields →
  concat_rb fields (b :: bs) =
  mkRB fields (zip_with app (rb_columns b) (rb_columns (concat_rb fields bs)))
    (rb_num_rows b + total_rows bs).
Proof.
  intros Hb Hf. unfold concat_rb; simpl. f_equal. pose proof (Forall2_length _ _ _ Hb) as Hl.
  rewrite Hf in Hl. apply list_eq. intros j. rewrite lookup_zip_with, !list_lookup_fmap.
  destruct (decide (j < length fields)).
  - rewrite lookup_seq_lt by done. simpl.
    destruct (lookup_lt_is_Some_2 (rb_columns b) j) as [c Hc]; [lia|].
    unfold concat_column. simpl. by rewrite Hc.
  - rewrite lookup_seq_ge, (lookup_ge_None_2 (rb_columns b)) by lia. done.
Qed.

Lemma concat_rb_singleton b : rb_wf b → rb_fields b = fields → concat_rb fields [b] = b.
Proof.
  intros Hb Hf. rewrite concat_rb_cons by done. destruct b as [fs cs n]; simpl in *. subst.
  rewrite Nat.add_0_r. f_equal. pose proof (Forall2_length _ _ _ Hb) as Hl. simpl in Hl.
  rewrite Hl. clear Hb Hl. generalize 0. induction cs as [|c cs IH]; intros k; simpl; [done|].
  by rewrite app_nil_r, IH.
Qed.
End concat.

(** ** Columns by name *)

(** [lance_arrow::RecordBatchExt::drop_column] *)
Class DropColumn : Type := { drop_column : RecordBatch → string → result RecordBatch }.

Definition column_by_name (b : RecordBatch) (name : string) : option (Field * column) :=
  snd <$> list_find (λ p, f_name p.1 = name) (zip (rb_fields b) (rb_columns b)).

Definition drop_named (b : RecordBatch) (name : string) : RecordBatch :=
  let kept := filter (λ p, f_name p.1 ≠ name) (zip (rb_fields b) (rb_columns b)) in
  mkRB (fst <$> kept) (snd <$> kept) (rb_num_rows b).

Class DropColumnLaws (D : DropColumn) : Prop := {
  drop_column_ok b name :
    rb_wf b → Exists (λ f, f_name f ≠ name) (rb_fields b) →
    drop_column b name = Ok (drop_named b name)
}.

Lemma filter_zip_fmap {A B C} (P : A → Prop) `{∀ x, Decision (P x)} (g : B → C) fs cs :
  let kept := filter (λ p, P p.1) (zip fs cs) in
  fst <$> filter (λ p, P p.1) (zip fs (g <$> cs)) = fst <$> kept ∧
  snd <$> filter (λ p, P p.1) (zip fs (g <$> cs)) = g <$> (snd <$> kept).
Proof.
  revert cs. induction fs as [|f fs IH]; intros [|c cs]; try done.
  destruct (IH cs) as [H1 H2]. rewrite fmap_cons. cbn [zip zip_with].
  rewrite !filter_cons. simpl. case_decide; [|done].
  rewrite !fmap_cons. by rewrite H1, H2.
Qed.

Lemma drop_named_take b name idx :
  drop_named (take_rb b idx) name = take_rb (drop_named b name) idx.
Proof.
  unfold drop_named, take_rb. simpl.
  destruct (filter_zip_fmap (λ f, f_name f ≠ name) (λ c, take_cells c idx) (rb_fields b) (rb_columns b))
    as [H1 H2]. f_equal; [exact H1|exact H2].
Qed.

Lemma drop_named_wf b name : rb_wf b → rb_wf (drop_named b name).
Proof.
  unfold rb_wf, drop_named. simpl. intros Hb. apply Forall2_fmap, Forall_Forall2_diag.
  apply Forall_forall. intros [f c] [_ Hin]%list_elem_of_filter. simpl.
  apply elem_of_lookup_zip_with in Hin as (i & ? & ? & [= -> ->] & ? & ?).
  by eapply Forall2_lookup_lr.
Qed.

#[export] Hint Resolve take_rb_wf drop_named_wf concat_rb_wf column_ok_take_cells : lance.
