(* ===== verification/Shuffle.v ===== *)
(** * The shuffler (rust/lancedb/src/dataloader/permutation/shuffle.rs and the
      parts of util.rs it uses)

    A batch is permuted clump by clump; a stream that fits in memory is
    concatenated and permuted, a larger one is first scattered over temporary
    files.  The random generator and the Lance file format are parameters. *)

From S2P Require Import Prelude.
From S2P Require Import Floats Arrow.

Module Shuffle.

(** ** Dependencies *)

(** [rand]: [SliceRandom::shuffle] and [Rng::random_range(0..n)]. *)
Class Rng : Type := {
  rng : Type;
  seed_from_u64 : Z → rng;
  from_os_rng : rng;
  rng_shuffle : rng → list Z → list Z * rng;
  random_range : rng → Z → Z * rng
}.

Class RngLaws (R : Rng) : Prop := {
  rng_shuffle_perm r l : fst (rng_shuffle r l) ≡ₚ l;
  random_range_bounds r n : (0 < n)%Z → (0 ≤ fst (random_range r n) < n)%Z
}.

(** Lance files: [lance_read written batch_size] is what reading back, in
    batches of [batch_size] rows, a file to which the batches [written] were
    written gives. *)
Class LanceFile : Type := {
  lance_read : list RecordBatch → Z → result (list RecordBatch)
}.

Class LanceFileLaws (L : LanceFile) : Prop := {
  lance_read_ok fields written n :
    Forall (λ b, rb_wf b ∧ rb_fields b = fields) written →
    ∃ bs, lance_read written n = Ok bs ∧
      Forall (λ b, rb_wf b ∧ rb_fields b = fields) bs ∧
      concat_rb fields bs = concat_rb fields written
}.

(** ** Configuration *)
Inductive TemporaryDirectory : Type :=
  | OsDefault
  | Specific (path : string)
  | NoDirectory.

(** [create_temp_dir]; [fs] is whether the operating system can create it. *)
Definition create_temp_dir (fs : TemporaryDirectory → bool) (t : TemporaryDirectory) : result unit :=
  match t with
  | NoDirectory =>
      Err (Runtime "No temporary directory was supplied and this operation requires spilling to disk")
  | _ => if fs t then Ok tt else Err (Other "Failed to create temporary directory")
  end.

Record ShufflerConfig : Type := mkConfig {
  seed : option Z;
  max_rows_per_file : Z;
  temp_dir : TemporaryDirectory;
  clump_size : option Z
}.

Definition default_config : ShufflerConfig := mkConfig None (1024 * 1024) OsDefault None.

Section Shuffle.
Context {prof : Profile} {K : ArrowKernels} {R : Rng} {L : LanceFile}.
Context (fs : TemporaryDirectory → bool).

Definition non_crypto_rng (s : option Z) : rng :=
  match s with Some s => seed_from_u64 s | None => from_os_rng end.

(** The range [lo..hi] of [u64]s. *)
Definition u64_seq (lo hi : Z) : list Z :=
  (λ i, lo + Z.of_nat i)%Z <$> seq 0 (Z.to_nat (hi - lo)).

(** The closure of [shuffle_batch]: the rows of one clump. *)
Definition clump_rows (num_rows num_clumps clump_size clump_index : Z) : result (list Z) :=
  last ← u64_sub num_clumps 1;
  if (clump_index =? last)%Z then
    lo ← u64_mul clump_index clump_size;
    Ok (u64_seq lo num_rows)
  else
    lo ← u64_mul clump_index clump_size;
    next ← u64_add clump_index 1;
    hi ← u64_mul next clump_size;
    Ok (u64_seq lo hi).

Definition shuffle_batch (batch : RecordBatch) (r : rng) (clump_size : Z)
    : result (RecordBatch * rng) :=
  let num_rows := Z.of_nat (rb_num_rows batch) in
  num_clumps ← u64_div_ceil num_rows clump_size;
  let shuffled := rng_shuffle r (u64_seq 0 num_clumps) in
  indices ← (if (clump_size =? 1)%Z then Ok (fst shuffled)
             else mjoin <$> try_map (clump_rows num_rows num_clumps clump_size) (fst shuffled));
  batch' ← take_record_batch batch indices;
  Ok (batch', snd shuffled).

Definition in_memory_shuffle (config : ShufflerConfig) (data : Stream) (r : rng) : result Stream :=
  batches ← try_collect (st_items data);
  batch ← concat_batches (st_schema data) batches;
  '(shuffled, _) ← shuffle_batch batch r (default 1%Z (clump_size config));
  Ok (mkStream (st_schema data) [Ok shuffled]).

(** One iteration of the clump loop: the clump's rows go to a random file. *)
Definition scatter_clump (num_rows num_files clump_size : Z)
    (acc : result (list (list Z) * rng)) (clump_offset : Z) : result (list (list Z) * rng) :=
  '(offsets, r) ← acc;
  clump_start ← u64_mul clump_offset clump_size;
  left_ ← u64_sub num_rows clump_start;
  let num_rows_in_clump := Z.min clump_size left_ in
  clump_end ← u64_add clump_start num_rows_in_clump;
  let draw := random_range r num_files in
  let file_index := Z.to_nat (fst draw) in
  file ← unwrap (offsets !! file_index);
  Ok (<[file_index := file ++ u64_seq clump_start clump_end]> offsets, snd draw).

(** The batch of [data] is partitioned over the files. *)
Definition scatter_batch (num_files clump_size : Z) (batch : RecordBatch) (r : rng)
    : result (list (list Z) * rng) :=
  let num_rows := Z.of_nat (rb_num_rows batch) in
  num_clumps ← u64_div_ceil num_rows clump_size;
  foldl (scatter_clump num_rows num_files clump_size)
    (Ok (replicate (Z.to_nat num_files) [], r)) (u64_seq 0 num_clumps).

(** The write loop: a file's batches grow by the non-empty partitions. *)
Fixpoint write_partitions (batch : RecordBatch) (offsets : list (list Z))
    (files : list (list RecordBatch)) : result (list (list RecordBatch)) :=
  match offsets, files with
  | o :: offsets', f :: files' =>
      f' ← (match o with
            | [] => Ok f
            | _ => partition ← take_record_batch batch o; Ok (f ++ [partition])
            end);
      rest ← write_partitions batch offsets' files';
      Ok (f' :: rest)
  | [], _ => Ok files
  | _ :: _, [] => Panic
  end.

(** The first pass: [while let Some(batch) = data.try_next().await?]. *)
Fixpoint first_pass (num_rows num_files clump_size seen : Z) (items : list (result RecordBatch))
    (files : list (list RecordBatch)) (r : rng) : result (list (list RecordBatch) * rng) :=
  match items with
  | [] => Ok (files, r)
  | item :: items' =>
      batch ← item;
      let rows := Z.of_nat (rb_num_rows batch) in
      seen' ← u64_add seen rows;
      let is_last := (seen' =? num_rows)%Z in
      if (num_rows <? seen')%Z then Err (Runtime "Expected {} rows but saw {} rows")
      else if negb is_last && negb (rows mod clump_size =? 0)%Z then
        Err (Runtime "Expected batch size ({}) to be divisible by clump size ({})")
      else
        '(offsets, r') ← scatter_batch num_files clump_size batch r;
        files' ← write_partitions batch offsets files;
        first_pass num_rows num_files clump_size seen' items' files' r'
  end.

(** The second pass, one file: read it back whole and permute it.  After a
    failed file the stream goes on with the generator as it was. *)
Definition read_file (schema : list Field) (clump_size : Z) (written : list RecordBatch) (r : rng)
    : result (RecordBatch * rng) :=
  batches ← lance_read written (Z.of_nat (total_rows written) mod 2 ^ 32)%Z;
  batch ← concat_batches schema batches;
  shuffle_batch batch r clump_size.

Fixpoint second_pass (schema : list Field) (clump_size : Z) (files : list (list RecordBatch)) (r : rng)
    : list (result RecordBatch) :=
  match files with
  | [] => []
  | f :: files' =>
      match read_file schema clump_size f r with
      | Ok (b, r') => Ok b :: second_pass schema clump_size files' r'
      | Err e => Err e :: second_pass schema clump_size files' r
      | Panic => [Panic]
      end
  end.

Definition do_shuffle (config : ShufflerConfig) (data : Stream) (num_rows : Z) (r : rng)
    : result Stream :=
  num_files ← u64_div_ceil num_rows (max_rows_per_file config);
  _ ← create_temp_dir fs (temp_dir config);
  let clump := default 1%Z (clump_size config) in
  if (clump =? 0)%Z then Err (InvalidInput "clump size must be greater than 0")
  else
    '(files, r') ← first_pass num_rows num_files clump 0 (st_items data)
                     (replicate (Z.to_nat num_files) []) r;
    Ok (mkStream (st_schema data) (second_pass (st_schema data) clump files r')).

Definition shuffle (config : ShufflerConfig) (data : Stream) (num_rows : Z) : result Stream :=
  let r := non_crypto_rng (seed config) in
  if (num_rows <? max_rows_per_file config)%Z
  then in_memory_shuffle config data r
  else do_shuffle config data num_rows r.

End Shuffle.

(** ** Index ranges and clumps *)

(** The rows of clump [i] of [n] rows. *)
Definition clump (n c i : Z) : list Z := u64_seq (i * c) (Z.min ((i + 1) * c) n).

(** The number of clumps: the ceiling of [n / c]. *)
Definition clump_count (n c : Z) : Z := if (n mod c =? 0)%Z then (n / c)%Z else (n / c + 1)%Z.

Definition clumps (n c : Z) : list (list Z) := clump n c <$> u64_seq 0 (clump_count n c).

Lemma u64_seq_length lo hi : length (u64_seq lo hi) = Z.to_nat (hi - lo).
Proof. unfold u64_seq. by rewrite length_fmap, length_seq. Qed.

Lemma u64_seq_app a b c : (a ≤ b ≤ c)%Z → u64_seq a c = u64_seq a b ++ u64_seq b c.
Proof.
  intros H. unfold u64_seq.
  replace (Z.to_nat (c - a)) with (Z.to_nat (b - a) + Z.to_nat (c - b)) by lia.
  rewrite seq_app, fmap_app. f_equal. simpl.
  replace (seq (Z.to_nat (b - a)) _)
    with (Nat.add (Z.to_nat (b - a)) <$> seq 0 (Z.to_nat (c - b)))
    by (rewrite fmap_add_seq; f_equal; lia).
  rewrite <- list_fmap_compose. apply list_fmap_ext. intros _ i _. simpl. lia.
Qed.

Lemma u64_seq_nil a b : (b ≤ a)%Z → u64_seq a b = [].
Proof. intros. unfold u64_seq. by replace (Z.to_nat (b - a)) with 0 by lia. Qed.

Lemma u64_seq_cons a b : (a < b)%Z → u64_seq a b = a :: u64_seq (a + 1) b.
Proof.
  intros. rewrite (u64_seq_app a (a + 1) b) by lia. unfold u64_seq at 1.
  replace (Z.to_nat (a + 1 - a)) with 1 by lia. simpl. by rewrite Z.add_0_r.
Qed.

Lemma u64_seq_snoc a b : (a ≤ b)%Z → u64_seq a (b + 1) = u64_seq a b ++ [b].
Proof.
  intros. rewrite (u64_seq_app a b (b + 1)) by lia. f_equal.
  rewrite u64_seq_cons by lia. by rewrite u64_seq_nil by lia.
Qed.

Lemma elem_of_u64_seq x a b : x ∈ u64_seq a b ↔ (a ≤ x < b)%Z.
Proof.
  unfold u64_seq. rewrite list_elem_of_fmap. setoid_rewrite elem_of_seq. split.
  - intros (i & -> & ?). lia.
  - intros ?. exists (Z.to_nat (x - a)). lia.
Qed.

Lemma u64_seq_nat n : u64_seq 0 (Z.of_nat n) = Z.of_nat <$> seq 0 n.
Proof. unfold u64_seq. rewrite Z.sub_0_r, Nat2Z.id. by apply list_fmap_ext. Qed.

Lemma u64_seq_shift k a b : (Z.add k) <$> u64_seq a b = u64_seq (k + a) (k + b).
Proof.
  unfold u64_seq. rewrite <- list_fmap_compose.
  replace (k + b - (k + a))%Z with (b - a)%Z by lia.
  apply list_fmap_ext. intros _ i _. simpl. lia.
Qed.

Section clumps.
Context (n c : Z) (Hn : (0 ≤ n)%Z) (Hc : (0 < c)%Z).

(** The clump count is the ceiling. *)
Lemma clump_count_bounds :
  (0 ≤ clump_count n c ∧ n ≤ clump_count n c * c ∧ (clump_count n c - 1) * c < n ∨
   n = 0 ∧ clump_count n c = 0)%Z.
Proof using Hn Hc.
  unfold clump_count. pose proof (Z.div_mod n c ltac:(lia)) as H.
  pose proof (Z.mod_pos_bound n c Hc). pose proof (Z.div_pos n c Hn Hc).
  destruct (n mod c =? 0)%Z eqn:E; to_prop; [|nia].
  destruct (decide (n = 0)%Z) as [->|]; [right|left]; [|nia].
  split; [done|]. by rewrite Z.div_0_l by lia.
Qed.

Lemma clump_count_unique k : (n ≤ k * c)%Z → ((k - 1) * c < n)%Z → clump_count n c = k.
Proof using Hn Hc.
  intros H1 H2. destruct clump_count_bounds as [(?&?&?)|[-> ->]]; [|nia].
  destruct (Z.lt_total (clump_count n c) k) as [|[]]; [nia|done|nia].
Qed.

Lemma clump_full i : (0 ≤ i)%Z → ((i + 1) * c ≤ n)%Z → length (clump n c i) = Z.to_nat c.
Proof using Hn Hc. intros. unfold clump. rewrite u64_seq_length. f_equal. nia. Qed.

(** The first [k] clumps are the first [k * c] rows. *)
Lemma clumps_prefix (k : nat) :
  mjoin (clump n c <$> u64_seq 0 (Z.of_nat k)) = u64_seq 0 (Z.min (Z.of_nat k * c) n).
Proof using Hn Hc.
  induction k as [|k IH].
  { rewrite !u64_seq_nil by lia. done. }
  replace (Z.of_nat (S k)) with (Z.of_nat k + 1)%Z by lia.
  rewrite u64_seq_snoc by lia. rewrite fmap_app, join_app, IH. simpl. rewrite app_nil_r.
  unfold clump. destruct (decide (Z.of_nat k * c ≤ n)%Z).
  - rewrite (Z.min_l (Z.of_nat k * c)) by lia.
    symmetry. apply u64_seq_app. nia.
  - rewrite (Z.min_r _ n), (Z.min_r _ n) by nia.
    rewrite (u64_seq_nil (Z.of_nat k * c)) by nia. by rewrite app_nil_r.
Qed.

Lemma mjoin_clumps : mjoin (clumps n c) = u64_seq 0 n.
Proof using Hn Hc.
  unfold clumps. pose proof clump_count_bounds as Hb.
  replace (clump_count n c) with (Z.of_nat (Z.to_nat (clump_count n c))) by lia.
  rewrite clumps_prefix. f_equal. lia.
Qed.

Lemma clumps_length : Z.of_nat (length (clumps n c)) = clump_count n c.
Proof using Hn Hc.
  unfold clumps. rewrite length_fmap, u64_seq_length. pose proof clump_count_bounds. lia.
Qed.
End clumps.

(** ** Permuting one batch *)
Section batch.
Context {prof : Profile} {K : ArrowKernels} {LK : ArrowLaws K} {R : Rng} {LR : RngLaws R}.

Lemma u64_div_ceil_Ok n c : (0 < c)%Z → u64_div_ceil n c = Ok (clump_count n c).
Proof. intros. unfold u64_div_ceil. by rewrite (proj2 (Z.eqb_neq c 0)) by lia. Qed.

Lemma clump_rows_Ok n c i :
  (0 ≤ n < U64)%Z → (0 < c)%Z → (0 ≤ i < clump_count n c)%Z →
  clump_rows n (clump_count n c) c i = Ok (clump n c i).
Proof.
  intros Hn Hc Hi. pose proof (clump_count_bounds n c ltac:(lia) Hc) as Hb.
  assert (clump_count n c ≤ n)%Z by nia.
  unfold clump_rows, u64_sub, u64_mul, u64_add, clump.
  rewrite (u64_arith_ok (clump_count n c - 1)) by (unfold u64_range; lia).
  run_ok.
  destruct (i =? clump_count n c - 1)%Z eqn:E; to_prop.
  - rewrite u64_arith_ok by (unfold u64_range; nia). simpl. unfold u64_seq.
    do 3 f_equal. nia.
  - repeat (rewrite u64_arith_ok by (unfold u64_range; nia); cbn [mbind outcome_bind]).
    unfold u64_seq. do 3 f_equal. nia.
Qed.

Lemma try_map_clump_rows n c σ :
  (0 ≤ n < U64)%Z → (0 < c)%Z → σ ≡ₚ u64_seq 0 (clump_count n c) →
  try_map (clump_rows n (clump_count n c) c) σ = Ok (clump n c <$> σ).
Proof.
  intros Hn Hc Hσ. apply try_map_Ok. apply Forall2_fmap_r, Forall_Forall2_diag, Forall_forall.
  intros i Hi. rewrite Hσ, elem_of_u64_seq in Hi. by apply clump_rows_Ok.
Qed.

Lemma mjoin_singletons {A} (f : A → list A) l : Forall (λ i, f i = [i]) l → mjoin (f <$> l) = l.
Proof. induction 1 as [|i l Hi _ IH]; [done|]. rewrite fmap_cons. simpl. rewrite Hi. simpl. by f_equal. Qed.

(** [shuffle_batch] takes the batch's rows clump by clump in the order the
    generator drew. *)
Lemma shuffle_batch_spec b r c :
  rb_wf b → (Z.of_nat (rb_num_rows b) < U64)%Z → (0 < c)%Z →
  let n := Z.of_nat (rb_num_rows b) in
  ∃ σ r', σ ≡ₚ u64_seq 0 (clump_count n c) ∧
    in_bounds (rb_num_rows b) (mjoin (clump n c <$> σ)) ∧
    shuffle_batch b r c = Ok (take_rb b (mjoin (clump n c <$> σ)), r').
Proof.
  intros Hb Hlt Hc n. unfold shuffle_batch. fold n. rewrite u64_div_ceil_Ok by done.
  run_ok.
  pose proof (rng_shuffle_perm r (u64_seq 0 (clump_count n c))) as Hσ.
  destruct (rng_shuffle r (u64_seq 0 (clump_count n c))) as [σ r']; simpl in Hσ |- *.
  exists σ, r'.
  assert (in_bounds (rb_num_rows b) (mjoin (clump n c <$> σ))) as Hin.
  { apply Forall_forall. intros x Hx.
    rewrite Hσ in Hx. fold (clumps n c) in Hx. rewrite mjoin_clumps in Hx by lia. by apply elem_of_u64_seq in Hx. }
  split_and!; [done..|].
  assert ((if (c =? 1)%Z then Ok σ
           else mjoin <$> try_map (clump_rows n (clump_count n c) c) σ)
          = Ok (mjoin (clump n c <$> σ))) as ->.
  { destruct (c =? 1)%Z eqn:E; to_prop.
    - subst c. f_equal. symmetry. apply mjoin_singletons. rewrite Hσ.
      apply Forall_forall. intros i Hi%elem_of_u64_seq.
      unfold clump_count in Hi. rewrite Z.mod_1_r, Z.div_1_r in Hi. simpl in Hi.
      unfold clump. rewrite u64_seq_cons, u64_seq_nil by lia. f_equal. lia.
    - rewrite try_map_clump_rows by (done || lia). done. }
  run_ok. by rewrite take_record_batch_ok.
Qed.
End batch.

(** ** Reading aligned clumps back

    A file is a run of whole clumps with at most one short clump at its end. *)
Definition aligned (c : Z) (cl : list (list Z)) : Prop :=
  ∃ full runt, cl = full ++ runt ∧ Forall (λ x, Z.of_nat (length x) = c) full ∧
    (runt = [] ∨ ∃ x, runt = [x] ∧ (0 < Z.of_nat (length x) ≤ c)%Z).

Lemma length_mjoin_full c (full : list (list Z)) :
  Forall (λ x, Z.of_nat (length x) = c) full →
  Z.of_nat (length (mjoin full)) = (Z.of_nat (length full) * c)%Z.
Proof. induction 1 as [|x full Hx _ IH]; simpl; rewrite ?length_app; lia. Qed.

(** Clump [i] of an aligned file starts at row [i * c] and is either whole or
    the end of the file. *)
Lemma aligned_lookup c cl i x :
  (0 < c)%Z → aligned c cl → cl !! i = Some x →
  ∃ pre suf, mjoin cl = pre ++ x ++ suf ∧ Z.of_nat (length pre) = (Z.of_nat i * c)%Z ∧
    Z.min ((Z.of_nat i + 1) * c) (Z.of_nat (length (mjoin cl))) =
      (Z.of_nat i * c + Z.of_nat (length x))%Z.
Proof.
  intros Hc (full & runt & -> & Hf & Hr) Hx.
  rewrite <- (take_drop_middle _ _ _ Hx), join_app, mjoin_cons.
  exists (mjoin (take i (full ++ runt))), (mjoin (drop (S i) (full ++ runt))).
  assert (i ≤ length full) as Hi.
  { apply lookup_lt_Some in Hx. rewrite length_app in Hx.
    destruct Hr as [->|(y & -> & _)]; simpl in Hx; lia. }
  assert (Z.of_nat (length (mjoin (take i (full ++ runt)))) = Z.of_nat i * c)%Z as Hpre.
  { rewrite take_app_le by done. rewrite (length_mjoin_full c) by (by apply Forall_take).
    rewrite length_take. f_equal. lia. }
  split; [done|]. split; [done|]. rewrite !length_app.
  destruct (decide (i = length full)) as [->|Hne].
  - rewrite lookup_app_r, Nat.sub_diag in Hx by lia.
    destruct Hr as [->|(y & -> & Hy)]; [done|]. simpl in Hx. injection Hx as ->.
    rewrite (drop_ge (full ++ [x])) by (rewrite length_app; simpl; lia). simpl. nia.
  - rewrite lookup_app_l in Hx by lia. rewrite Forall_lookup in Hf. apply Hf in Hx. nia.
Qed.

Lemma aligned_count c cl :
  (0 < c)%Z → aligned c cl →
  clump_count (Z.of_nat (length (mjoin cl))) c = Z.of_nat (length cl).
Proof.
  intros Hc (full & runt & -> & Hf & Hr). rewrite join_app, !length_app.
  pose proof (length_mjoin_full c full Hf) as Hl.
  apply clump_count_unique; [lia|done|..];
    destruct Hr as [->|(x & -> & Hx)]; simpl; rewrite ?app_nil_r; nia.
Qed.

Lemma take_cells_run_Z {A} (pre l suf : list A) a b :
  a = Z.of_nat (length pre) → b = (a + Z.of_nat (length l))%Z →
  take_cells (pre ++ l ++ suf) (u64_seq a b) = l.
Proof.
  intros -> ->. etransitivity; [|apply (take_cells_run pre l suf)]. f_equal.
  replace (seq (length pre) (length l)) with (Nat.add (length pre) <$> seq 0 (length l))
    by (rewrite fmap_add_seq; f_equal; lia).
  unfold u64_seq. rewrite <- list_fmap_compose.
  replace (Z.to_nat (Z.of_nat (length pre) + Z.of_nat (length l) - Z.of_nat (length pre)))
    with (length l) by lia.
  apply list_fmap_ext. intros _ i _. simpl. lia.
Qed.

(** Reading an aligned file clump by clump gives its clumps. *)
Lemma take_cells_clumps c cl σ :
  (0 < c)%Z → aligned c cl → in_bounds (length cl) σ →
  take_cells (mjoin cl) (mjoin (clump (Z.of_nat (length (mjoin cl))) c <$> σ)) =
  mjoin (take_cells cl σ).
Proof.
  intros Hc Hcl Hσ. induction Hσ as [|i σ Hi _ IH]; [done|].
  rewrite fmap_cons, mjoin_cons, take_cells_app, IH. clear IH.
  destruct (lookup_lt_is_Some_2 cl (Z.to_nat i)) as [x Hx]; [lia|].
  unfold take_cells at 3. simpl. rewrite Hx. simpl. f_equal.
  destruct (aligned_lookup _ _ _ _ Hc Hcl Hx) as (pre & suf & E & Hpre & Hmin).
  rewrite Z2Nat.id in * by lia. unfold clump. rewrite Hmin, E.
  apply take_cells_run_Z; lia.
Qed.

(** ** Scattering over files *)
Section scatter.
#[local] Abbreviation flatten := (fmap (M:=list) (mjoin (M:=list) (A:=Z))).
Context {prof : Profile} {K : ArrowKernels} {LK : ArrowLaws K} {R : Rng} {LR : RngLaws R}.

Lemma mjoin_insert_perm {A} (ls : list (list A)) i x y :
  ls !! i = Some x → mjoin (<[i := x ++ y]> ls) ≡ₚ mjoin ls ++ y.
Proof.
  intros Hi. pose proof (lookup_lt_Some _ _ _ Hi) as Hlt.
  rewrite insert_take_drop by done. rewrite <- (take_drop_middle _ _ _ Hi) at 3.
  rewrite !mjoin_app, !mjoin_cons. rewrite <- !app_assoc. f_equiv. f_equiv.
  apply Permutation_app_comm.
Qed.

(** The state of the clump loop after [k] clumps: per file the clumps it got. *)
Record scattered (n c : Z) (nf : nat) (k : Z) (cls : list (list (list Z))) : Prop := {
  sc_files : length cls = nf;
  sc_perm : mjoin cls ≡ₚ clump n c <$> u64_seq 0 k;
  sc_aligned : Forall (aligned c) cls;
  sc_full : ((k * c ≤ n)%Z → Forall (Forall (λ x, Z.of_nat (length x) = c)) cls)
}.

Lemma aligned_nil c : aligned c [].
Proof. exists [], []. split_and!; [done|constructor|by left]. Qed.

Lemma full_aligned c cl cl' :
  Forall (λ x, Z.of_nat (length x) = c) cl → aligned c cl' → aligned c (cl ++ cl').
Proof.
  intros Hcl (full & runt & -> & Hf & Hr). exists (cl ++ full), runt.
  split_and!; [by rewrite app_assoc|by apply Forall_app|done].
Qed.

Lemma clump_length n c k :
  (0 < c)%Z → (0 ≤ k < clump_count n c)%Z → (0 ≤ n)%Z →
  (0 < Z.of_nat (length (clump n c k)) ≤ c)%Z ∧
  ((k + 1) * c ≤ n → Z.of_nat (length (clump n c k)) = c)%Z.
Proof.
  intros Hc Hk Hn. pose proof (clump_count_bounds n c Hn Hc).
  unfold clump. rewrite u64_seq_length. nia.
Qed.

Lemma scatter_clump_spec n c nf k cls r :
  (0 ≤ n < U64)%Z → (0 < c)%Z → (0 < nf)%nat → (0 ≤ k < clump_count n c)%Z →
  scattered n c nf k cls →
  ∃ cls' r', scatter_clump n (Z.of_nat nf) c (Ok (flatten cls, r)) k = Ok (flatten cls', r') ∧
    scattered n c nf (k + 1) cls'.
Proof.
  intros Hn Hc Hnf Hk [Hlen Hperm Hal Hfull].
  pose proof (clump_count_bounds n c ltac:(lia) Hc) as Hb.
  assert (k * c < n)%Z as Hkc by nia.
  pose proof (random_range_bounds r (Z.of_nat nf) ltac:(lia)) as Hr.
  unfold scatter_clump, u64_mul, u64_sub, u64_add. run_ok.
  rewrite (u64_arith_ok (k * c)) by (unfold u64_range; nia). run_ok.
  rewrite (u64_arith_ok (n - k * c)) by (unfold u64_range; lia). run_ok.
  rewrite u64_arith_ok by (unfold u64_range; lia). run_ok.
  destruct (random_range r (Z.of_nat nf)) as [fi r']; simpl in *.
  destruct (lookup_lt_is_Some_2 cls (Z.to_nat fi)) as [cl Hcl]; [lia|].
  rewrite list_lookup_fmap, Hcl. cbn.
  replace (u64_seq (k * c) (k * c + Z.min c (n - k * c))) with (clump n c k)
    by (unfold clump; f_equal; lia).
  exists (<[Z.to_nat fi := cl ++ [clump n c k]]> cls), r'. split.
  { rewrite list_fmap_insert, mjoin_app. simpl. by rewrite app_nil_r. }
  destruct (clump_length n c k Hc Hk ltac:(lia)) as [Hcl1 Hcl2].
  assert (Forall (λ x, Z.of_nat (length x) = c) cl) as Hclf.
  { specialize (Hfull ltac:(lia)). rewrite Forall_lookup in Hfull. by eapply Hfull. }
  constructor.
  - by rewrite length_insert.
  - rewrite mjoin_insert_perm by done. rewrite u64_seq_snoc by lia.
    rewrite fmap_app. by rewrite Hperm.
  - apply Forall_insert; [done|]. apply full_aligned; [done|].
    exists [], [clump n c k]. split_and!; [done|constructor|]. right. by eexists.
  - intros Hk1. apply Forall_insert; [apply Hfull; lia|].
    apply Forall_app; split; [done|]. constructor; [by apply Hcl2|constructor].
Qed.

Lemma scatter_loop_spec n c nf (m : nat) : ∀ k cls r,
  (0 ≤ n < U64)%Z → (0 < c)%Z → (0 < nf)%nat → (0 ≤ k)%Z →
  (k + Z.of_nat m = clump_count n c)%Z → scattered n c nf k cls →
  ∃ cls' r', foldl (scatter_clump n (Z.of_nat nf) c) (Ok (flatten cls, r))
               (u64_seq k (clump_count n c)) = Ok (flatten cls', r') ∧
    scattered n c nf (clump_count n c) cls'.
Proof.
  induction m as [|m IH]; intros k cls r Hn Hc Hnf Hk Hm Hs.
  - rewrite u64_seq_nil by lia. exists cls, r. split; [done|].
    by replace (clump_count n c) with k by lia.
  - rewrite u64_seq_cons by lia. cbn [foldl].
    destruct (scatter_clump_spec n c nf k cls r) as (cls' & r' & -> & Hs'); [done..|lia|done|].
    apply IH; (done || lia).
Qed.

(** Every clump of the batch goes to exactly one file, whole and in order. *)
Lemma scatter_batch_spec c nf b r :
  let n := Z.of_nat (rb_num_rows b) in
  (n < U64)%Z → (0 < c)%Z → (0 < nf)%nat →
  ∃ cls r', scatter_batch (Z.of_nat nf) c b r = Ok (flatten cls, r') ∧
    length cls = nf ∧ mjoin cls ≡ₚ clumps n c ∧ Forall (aligned c) cls ∧
    ((n mod c = 0)%Z → Forall (Forall (λ x, Z.of_nat (length x) = c)) cls).
Proof.
  intros n Hn Hc Hnf. unfold scatter_batch. fold n. rewrite u64_div_ceil_Ok by done.
  run_ok. rewrite Nat2Z.id.
  pose proof (clump_count_bounds n c ltac:(lia) Hc) as Hb.
  destruct (scatter_loop_spec n c nf (Z.to_nat (clump_count n c)) 0 (replicate nf []) r)
    as (cls & r' & E & [? ? ? Hf]); [lia..| |].
  { constructor.
    - apply length_replicate.
    - rewrite u64_seq_nil by lia. simpl. clear. induction nf as [|nf IH]; [done|]. exact IH.
    - apply Forall_replicate, aligned_nil.
    - intros _. apply Forall_replicate. constructor. }
  rewrite fmap_replicate in E. exists cls, r'. split_and!; try done.
  intros Hmod. apply Hf. unfold clump_count. rewrite Hmod. simpl.
  pose proof (Z.div_mod n c ltac:(lia)). lia.
Qed.
End scatter.

(** ** The clumps of a stream *)
Definition shift (off : Z) (cl : list (list Z)) : list (list Z) :=
  (λ x : list Z, Z.add off <$> x) <$> cl.

Fixpoint stream_clumps (c off : Z) (bs : list RecordBatch) : list (list Z) :=
  match bs with
  | [] => []
  | b :: bs' =>
      let n := Z.of_nat (rb_num_rows b) in
      shift off (clumps n c) ++ stream_clumps c (off + n) bs'
  end.

(** Every batch but the last non-empty one is a whole number of clumps. *)
Definition clump_aligned (c : Z) (bs : list RecordBatch) : Prop :=
  ∀ r1 b r2, bs = r1 ++ b :: r2 →
    (Z.of_nat (rb_num_rows b) mod c = 0)%Z ∨ total_rows r2 = 0.

Lemma stream_clumps_app c bs bs' : ∀ off,
  stream_clumps c off (bs ++ bs') =
  stream_clumps c off bs ++ stream_clumps c (off + Z.of_nat (total_rows bs)) bs'.
Proof.
  induction bs as [|b bs IH]; intros off; simpl.
  - by rewrite Z.add_0_r.
  - rewrite IH, app_assoc. do 2 f_equal. unfold total_rows; simpl. lia.
Qed.

Lemma clumps_0 c : (0 < c)%Z → clumps 0 c = [].
Proof. intros. unfold clumps, clump_count. by rewrite Z.mod_0_l, Z.div_0_l by lia. Qed.

Lemma stream_clumps_empty c off bs : (0 < c)%Z → total_rows bs = 0 → stream_clumps c off bs = [].
Proof.
  intros Hc. revert off. induction bs as [|b bs IH]; intros off Hb; [done|].
  unfold total_rows in Hb; simpl in Hb |- *. rewrite IH by (unfold total_rows; lia).
  replace (rb_num_rows b) with 0 by lia. by rewrite clumps_0.
Qed.

Lemma shift_clumps c q n T :
  (0 < c)%Z → (0 ≤ n)%Z → ((n mod c = 0 ∧ q * c + n ≤ T) ∨ T = q * c + n)%Z →
  shift (q * c) (clumps n c) = clump T c <$> u64_seq q (q + clump_count n c).
Proof.
  intros Hc Hn HT. unfold shift, clumps. rewrite <- list_fmap_compose.
  replace (u64_seq q (q + clump_count n c)) with (Z.add q <$> u64_seq 0 (clump_count n c))
    by (rewrite u64_seq_shift; f_equal; lia).
  rewrite <- list_fmap_compose.
  apply list_fmap_ext. intros _ i Hi%list_elem_of_lookup_2%elem_of_u64_seq. simpl.
  unfold clump. rewrite u64_seq_shift. f_equal; [lia|].
  destruct HT as [[Hm HT]| ->]; [|nia].
  unfold clump_count in Hi. rewrite Hm in Hi. simpl in Hi.
  pose proof (Z.div_mod n c ltac:(lia)). nia.
Qed.

(** The clumps of an aligned stream are those of its concatenation. *)
Lemma stream_clumps_aligned c bs : ∀ q,
  (0 < c)%Z → (0 ≤ q)%Z → clump_aligned c bs →
  let T := (q * c + Z.of_nat (total_rows bs))%Z in
  stream_clumps c (q * c) bs = clump T c <$> u64_seq q (clump_count T c).
Proof.
  induction bs as [|b bs IH]; intros q Hc Hq Hal T.
  { assert (T = q * c)%Z as -> by (subst T; simpl; lia).
    rewrite (clump_count_unique (q * c) c ltac:(nia) Hc q) by lia.
    by rewrite u64_seq_nil by lia. }
  set (n := Z.of_nat (rb_num_rows b)). assert (0 ≤ n)%Z as Hn0 by (subst n; lia).
  assert (T = q * c + n + Z.of_nat (total_rows bs))%Z as HT by (subst T n; unfold total_rows; simpl; lia).
  cbn [stream_clumps]. fold n.
  destruct (Hal [] b bs eq_refl) as [Hm|H0]; [fold n in Hm|].
  - assert (n = n / c * c)%Z as Hn by (pose proof (Z.div_mod n c ltac:(lia)); lia).
    assert (clump_count n c = n / c)%Z as Hcc by (unfold clump_count; by rewrite Hm).
    rewrite (shift_clumps c q n T), Hcc by lia.
    replace (q * c + n)%Z with ((q + n / c) * c)%Z by lia.
    rewrite IH; [|done|pose proof (Z.div_pos n c); lia|].
    2: { intros r1 b' r2 ->. by apply (Hal (b :: r1) b' r2). }
    replace ((q + n / c) * c + Z.of_nat (total_rows bs))%Z with T by lia.
    rewrite <- fmap_app. f_equal. symmetry. apply u64_seq_app.
    split; [pose proof (Z.div_pos n c); lia|].
    pose proof (clump_count_bounds T c ltac:(nia) Hc). nia.
  - rewrite stream_clumps_empty, app_nil_r by done. rewrite (shift_clumps c q n T) by lia.
    do 2 f_equal. pose proof (clump_count_bounds n c ltac:(lia) Hc).
    symmetry. apply clump_count_unique; nia.
Qed.

Lemma clump_of_stream c bs :
  (0 < c)%Z → clump_aligned c bs → stream_clumps c 0 bs = clumps (Z.of_nat (total_rows bs)) c.
Proof. intros Hc Hal. by apply (stream_clumps_aligned c bs 0). Qed.

Lemma mjoin_shift off cl : mjoin (shift off cl) = Z.add off <$> mjoin cl.
Proof. induction cl as [|x cl IH]; [done|]. simpl in *. by rewrite fmap_app, <- IH. Qed.

Lemma mjoin_stream_clumps c bs : ∀ off,
  (0 < c)%Z → mjoin (stream_clumps c off bs) = u64_seq off (off + Z.of_nat (total_rows bs)).
Proof.
  induction bs as [|b bs IH]; intros off Hc; simpl.
  { by rewrite u64_seq_nil by lia. }
  rewrite mjoin_app, mjoin_shift, mjoin_clumps, IH, u64_seq_shift by lia.
  unfold total_rows; simpl. rewrite Z.add_0_r. rewrite <- u64_seq_app by lia. f_equal. lia.
Qed.

(** ** The two passes *)
Section passes.
Context {prof : Profile} {K : ArrowKernels} {LK : ArrowLaws K} {R : Rng} {LR : RngLaws R}.
Context {L : LanceFile} {LL : LanceFileLaws L}.
Context (fields : list Field) (bs : list RecordBatch) (Hbs : batches_ok fields bs).
Context (c : Z) (Hc : (0 < c)%Z) (nf : nat) (Hnf : 0 < nf).
Context (Hlt : (Z.of_nat (total_rows bs) < U64)%Z).

#[local] Abbreviation all := (concat_rb fields bs).

(** The file holds the rows of the clumps [cl] of the whole input. *)
Definition file_holds (f : list RecordBatch) (cl : list (list Z)) : Prop :=
  ∃ idxs, f = take_rb all <$> idxs ∧ mjoin idxs = mjoin cl.

Definition append_clumps (off : Z) (cls ocl : list (list (list Z))) : list (list (list Z)) :=
  zip_with (λ cl o, cl ++ shift off o) cls ocl.

Lemma write_partitions_spec pre b suf ocl files cls :
  bs = pre ++ b :: suf →
  Forall (λ o, in_bounds (rb_num_rows b) (mjoin o)) ocl →
  Forall2 file_holds files cls → length ocl = length cls →
  ∃ files', write_partitions b (fmap (M:=list) (mjoin (M:=list)) ocl) files = Ok files' ∧
    Forall2 file_holds files' (append_clumps (Z.of_nat (total_rows pre)) cls ocl).
Proof.
  intros Hsplit Hin Hf. revert ocl Hin. induction Hf as [|f cl files cls Hfcl _ IH];
    intros ocl Hin Hlen; destruct ocl as [|o ocl]; try done.
  { by exists []. }
  apply Forall_cons in Hin as [Ho Hin].
  destruct (IH ocl Hin ltac:(simpl in *; lia)) as (files' & E & Hfiles').
  assert (∃ f', match mjoin o with
                | [] => Ok f
                | _ => p ← take_record_batch b (mjoin o); Ok (f ++ [p])
                end = Ok f' ∧ file_holds f' (cl ++ shift (Z.of_nat (total_rows pre)) o))
    as (f' & Ef & Hf').
  { destruct Hfcl as (idxs & -> & Hidx).
    destruct (decide (mjoin o = [])) as [E0|E0].
    - rewrite E0. eexists; split; [done|]. exists idxs. split; [done|].
      by rewrite mjoin_app, mjoin_shift, E0, app_nil_r.
    - assert (rb_wf b) as Hb.
      { rewrite Hsplit in Hbs. apply Forall_app in Hbs as [_ [[? _] _]%Forall_cons]. done. }
      exists (take_rb all <$> (idxs ++ [Z.add (Z.of_nat (total_rows pre)) <$> mjoin o])). split.
      + rewrite (take_record_batch_ok b (mjoin o)) by done. rewrite fmap_app. simpl.
        rewrite (take_rb_concat fields pre b suf) by (by rewrite <- ?Hsplit). rewrite <- Hsplit.
        by destruct (mjoin o).
      + eexists; split; [done|]. rewrite !mjoin_app, mjoin_shift, Hidx. simpl. by rewrite app_nil_r. }
  exists (f' :: files'). split; [|by constructor].
  rewrite fmap_cons. cbn [write_partitions]. rewrite Ef. run_ok.
  by rewrite E.
Qed.

Lemma in_bounds_perm n (ocl : list (list (list Z))) k :
  mjoin (M:=list) ocl ≡ₚ k → Forall (in_bounds n) k → Forall (λ o, in_bounds n (mjoin o)) ocl.
Proof.
  intros Hp Hk. rewrite <- Hp, Forall_mjoin in Hk. eapply Forall_impl; [exact Hk|].
  intros o Ho. by apply Forall_mjoin.
Qed.

Lemma clumps_in_bounds n : Forall (in_bounds n) (clumps (Z.of_nat n) c).
Proof.
  unfold in_bounds. rewrite <- Forall_mjoin, mjoin_clumps by lia.
  apply Forall_forall. intros x. by rewrite elem_of_u64_seq.
Qed.

Lemma mjoin_append_clumps off cls ocl :
  length ocl = length cls →
  mjoin (M:=list) (append_clumps off cls ocl) ≡ₚ mjoin (M:=list) cls ++ shift off (mjoin ocl).
Proof.
  revert ocl. induction cls as [|cl cls IH]; intros [|o ocl] Hl; try done.
  cbn [append_clumps zip_with]. rewrite !mjoin_cons. fold (append_clumps off cls ocl).
  rewrite IH by (simpl in *; lia). unfold shift. rewrite fmap_app.
  rewrite <- !app_assoc. f_equiv. rewrite !app_assoc. f_equiv. apply Permutation_app_comm.
Qed.

Lemma append_clumps_Forall (P Q S : list (list Z) → Prop) off cls ocl :
  (∀ cl o, P cl → Q o → S (cl ++ shift off o)) → Forall P cls → Forall Q ocl →
  Forall S (append_clumps off cls ocl).
Proof.
  intros H HP. revert ocl. induction HP as [|cl cls Hcl _ IH]; intros [|o ocl] HQ;
    try constructor; apply Forall_cons in HQ as []; auto.
Qed.

Lemma shift_lengths off (P : nat → Prop) o :
  Forall (λ x, P (length x)) o → Forall (λ x, P (length x)) (shift off o).
Proof.
  intros H. apply Forall_fmap. eapply Forall_impl; [exact H|]. intros x. simpl.
  by rewrite length_fmap.
Qed.

Lemma shift_aligned off o : aligned c o → aligned c (shift off o).
Proof.
  intros (full & runt & -> & Hf & Hr). exists (shift off full), (shift off runt).
  split; [apply fmap_app|]. split.
  - by apply (shift_lengths off (λ n, Z.of_nat n = c)).
  - destruct Hr as [->|(x & -> & Hx)]; [by left|right]. eexists; split; [done|].
    by rewrite length_fmap.
Qed.

(** The write loop consumes the whole stream: every clump is in some file. *)
Lemma first_pass_spec rest : ∀ pre files cls r,
  bs = pre ++ rest → clump_aligned c rest →
  Forall2 file_holds files cls → length cls = nf →
  mjoin (M:=list) cls ≡ₚ stream_clumps c 0 pre → Forall (aligned c) cls →
  (Forall (Forall (λ x, Z.of_nat (length x) = c)) cls ∨ total_rows rest = 0) →
  ∃ files' cls' r',
    first_pass (Z.of_nat (total_rows bs)) (Z.of_nat nf) c (Z.of_nat (total_rows pre))
      (Ok <$> rest) files r = Ok (files', r') ∧
    Forall2 file_holds files' cls' ∧ length cls' = nf ∧
    mjoin (M:=list) cls' ≡ₚ stream_clumps c 0 bs ∧ Forall (aligned c) cls'.
Proof.
  induction rest as [|b rest IH]; intros pre files cls r Hsplit Hal Hf Hlen Hperm Halg Hfull.
  { rewrite app_nil_r in Hsplit. subst pre. exists files, cls, r. done. }
  rewrite fmap_cons. cbn [first_pass mbind outcome_bind].
  set (n := Z.of_nat (rb_num_rows b)).
  assert (total_rows bs = total_rows pre + rb_num_rows b + total_rows rest) as Htot.
  { rewrite Hsplit, total_rows_app. unfold total_rows; simpl. lia. }
  unfold u64_add. rewrite u64_arith_ok by (unfold u64_range; lia). run_ok.
  rewrite (proj2 (Z.ltb_ge _ _)) by lia.
  assert (negb (Z.of_nat (total_rows pre) + n =? Z.of_nat (total_rows bs))%Z &&
          negb (n mod c =? 0)%Z = false) as ->.
  { apply andb_false_iff. destruct (Hal [] b rest eq_refl) as [Hm|H0]; [right|left];
      apply negb_false_iff, Z.eqb_eq; [done|lia]. }
  destruct (scatter_batch_spec c nf b r) as (ocl & r' & -> & Hol & Hop & Hoa & Hof);
    [lia|done|done|]. run_ok.
  destruct (write_partitions_spec pre b rest ocl files cls) as (files' & -> & Hf');
    [done|eapply in_bounds_perm; [exact Hop|apply clumps_in_bounds]|done|congruence|].
  run_ok.
  assert (Z.of_nat (total_rows pre) + n = Z.of_nat (total_rows (pre ++ [b])))%Z as ->.
  { rewrite total_rows_app. unfold total_rows at 3; simpl. lia. }
  apply (IH (pre ++ [b]) files' (append_clumps (Z.of_nat (total_rows pre)) cls ocl) r').
  - by rewrite <- app_assoc.
  - intros r1 b' r2 ->. by apply (Hal (b :: r1) b' r2).
  - done.
  - unfold append_clumps. rewrite length_zip_with. lia.
  - rewrite mjoin_append_clumps by congruence. rewrite Hperm, stream_clumps_app. f_equiv.
    simpl. rewrite app_nil_r. unfold shift. by rewrite Hop.
  - destruct Hfull as [Hfull|H0].
    + eapply append_clumps_Forall; [|exact Hfull|exact Hoa].
      intros cl o Hcl Ho. by apply full_aligned, shift_aligned.
    + assert (Forall (λ o, o = []) ocl) as Hnil.
      { assert (mjoin ocl = []) as E.
        { apply Permutation_nil_r. rewrite Hop.
          replace (rb_num_rows b) with 0 by (unfold total_rows in H0; simpl in H0; lia).
          by rewrite clumps_0. }
        clear -E. induction ocl as [|o ocl IHo]; [done|]. rewrite mjoin_cons in E.
        apply app_nil in E as []. constructor; auto. }
      eapply append_clumps_Forall; [|exact Halg|exact Hnil].
      intros cl o Hcl ->. simpl. by rewrite app_nil_r.
  - destruct (Hal [] b rest eq_refl) as [Hm|H0]; [|by right].
    destruct Hfull as [Hfull|H0]; [left|right; unfold total_rows in *; simpl in *; lia].
    eapply append_clumps_Forall; [|exact Hfull|exact (Hof Hm)].
    intros cl o Hcl Ho. apply Forall_app; split; [done|].
    by apply (shift_lengths _ (λ n, Z.of_nat n = c)).
Qed.

Lemma take_cells_perm_Z {A} (l : list A) σ :
  σ ≡ₚ u64_seq 0 (Z.of_nat (length l)) → take_cells l σ ≡ₚ l.
Proof. rewrite u64_seq_nat. apply take_cells_perm. Qed.

(** Reading a file back permutes its clumps. *)
Lemma read_file_spec f cl r :
  file_holds f cl → aligned c cl → in_bounds (total_rows bs) (mjoin cl) →
  (Z.of_nat (length (mjoin cl)) < U64)%Z →
  ∃ cl' r', cl' ≡ₚ cl ∧ read_file fields c f r = Ok (take_rb all (mjoin cl'), r').
Proof.
  intros (idxs & -> & Hidx) Hal Hin Hsz. pose proof (concat_rb_wf fields bs Hbs) as Hall.
  destruct (lance_read_ok fields (take_rb all <$> idxs)
              (Z.of_nat (total_rows (take_rb all <$> idxs)) mod 2 ^ 32)) as (rs & E & Hrs & Hcat).
  { apply Forall_fmap, Forall_forall. intros idx Hi. simpl. split; [|done].
    apply take_rb_wf; [done|]. simpl. unfold in_bounds in *. rewrite <- Hidx, Forall_mjoin in Hin.
    rewrite Forall_forall in Hin. by apply Hin. }
  unfold read_file. rewrite E. run_ok. rewrite concat_batches_ok by done.
  run_ok. rewrite Hcat.
  rewrite (concat_rb_take all idxs Hall : concat_rb fields _ = _), Hidx.
  destruct (shuffle_batch_spec (take_rb all (mjoin cl)) r c) as (σ & r' & Hσ & Hb & ->);
    [wf|done|done|].
  simpl in *. rewrite aligned_count in Hσ by done.
  exists (take_cells cl σ), r'. split; [by apply take_cells_perm_Z|].
  rewrite take_rb_compose by done. do 3 f_equal. apply take_cells_clumps; [done..|].
  unfold in_bounds. rewrite Hσ. apply Forall_forall. intros x. by rewrite elem_of_u64_seq.
Qed.

Lemma second_pass_spec files cls : ∀ r,
  Forall2 file_holds files cls → Forall (aligned c) cls →
  in_bounds (total_rows bs) (mjoin (mjoin (M:=list) cls)) →
  (Z.of_nat (length (mjoin (mjoin (M:=list) cls))) < U64)%Z →
  ∃ order, Forall2 (≡ₚ) order cls ∧
    second_pass fields c files r =
      (Ok <$> ((λ cl, take_rb all (mjoin cl)) <$> order) : list (result RecordBatch)).
Proof.
  intros r Hf Hal Hin Hsz. revert r Hal Hin Hsz.
  induction Hf as [|f cl files cls Hfcl _ IH]; intros r Hal Hin Hsz.
  { exists []. done. }
  apply Forall_cons in Hal as [Hcl Hal].
  rewrite mjoin_cons, mjoin_app in Hin, Hsz. apply Forall_app in Hin as [Hin1 Hin2].
  rewrite length_app in Hsz.
  destruct (read_file_spec f cl r) as (cl' & r' & Hp & E); [done|done|done|lia|].
  destruct (IH r') as (order & Ho & E'); [done|done|lia|].
  exists (cl' :: order). split; [by constructor|].
  cbn [second_pass]. rewrite E, E'. done.
Qed.
End passes.

Section theorems.
Context {prof : Profile} {K : ArrowKernels} {LK : ArrowLaws K} {R : Rng} {LR : RngLaws R}.
Context {L : LanceFile} {LL : LanceFileLaws L}.

Lemma Forall2_perm_mjoin {A} (l k : list (list A)) : Forall2 (≡ₚ) l k → mjoin l ≡ₚ mjoin k.
Proof. induction 1; [done|]. simpl. by f_equiv. Qed.

(** [out] yields every row of [bs] exactly once, in the order of a permutation
    of the clumps of [bs]: rows of one clump stay adjacent and in order. *)
Definition shuffled (fields : list Field) (bs : list RecordBatch) (c : Z) (out : Stream) : Prop :=
  st_schema out = fields ∧
  ∃ idxs order : list (list Z),
    st_items out = Ok <$> (take_rb (concat_rb fields bs) <$> idxs) ∧
    mjoin idxs = mjoin order ∧
    order ≡ₚ clumps (Z.of_nat (total_rows bs)) c ∧
    mjoin idxs ≡ₚ u64_seq 0 (Z.of_nat (total_rows bs)).

Lemma shuffled_intro fields bs c idxs order :
  (0 < c)%Z → mjoin idxs = mjoin order → order ≡ₚ clumps (Z.of_nat (total_rows bs)) c →
  shuffled fields bs c (mkStream fields (Ok <$> (take_rb (concat_rb fields bs) <$> idxs))).
Proof.
  intros Hc Hi Ho. split; [done|]. exists idxs, order. split_and!; [done..|].
  rewrite Hi, Ho, mjoin_clumps by lia. done.
Qed.

Lemma in_memory_shuffle_spec config fields bs r :
  let c := default 1%Z (clump_size config) in
  batches_ok fields bs → (0 < c)%Z → (Z.of_nat (total_rows bs) < U64)%Z →
  ∃ out, in_memory_shuffle config (mkStream fields (Ok <$> bs)) r = Ok out ∧
    shuffled fields bs c out.
Proof.
  intros c Hbs Hc Hlt. unfold in_memory_shuffle. cbn [st_items st_schema].
  rewrite try_collect_Ok. run_ok. rewrite concat_batches_ok by done.
  run_ok. fold c.
  destruct (shuffle_batch_spec (concat_rb fields bs) r c) as (σ & r' & Hσ & _ & ->);
    [wf|done|done|].
  eexists; split; [done|]. simpl.
  apply (shuffled_intro fields bs c [mjoin (clump (Z.of_nat (total_rows bs)) c <$> σ)]
           (clump (Z.of_nat (total_rows bs)) c <$> σ)); [done|simpl; by rewrite app_nil_r|].
  unfold clumps. by rewrite <- Hσ.
Qed.

Lemma do_shuffle_spec fs config fields bs r :
  let c := default 1%Z (clump_size config) in let N := Z.of_nat (total_rows bs) in
  batches_ok fields bs → (0 < c)%Z → (N < U64)%Z →
  (0 < max_rows_per_file config)%Z → (0 < N)%Z →
  create_temp_dir fs (temp_dir config) = Ok tt → clump_aligned c bs →
  ∃ out, do_shuffle fs config (mkStream fields (Ok <$> bs)) N r = Ok out ∧ shuffled fields bs c out.
Proof.
  intros c N Hbs Hc Hlt Hmax HN Htmp Hal. unfold do_shuffle. cbn [st_items st_schema].
  rewrite u64_div_ceil_Ok by done. run_ok. rewrite Htmp.
  run_ok. fold c. rewrite (proj2 (Z.eqb_neq c 0)) by lia.
  pose proof (clump_count_bounds N (max_rows_per_file config) ltac:(lia) Hmax) as Hcnt.
  set (nf := Z.to_nat (clump_count N (max_rows_per_file config))).
  assert (0 < nf) as Hnf by (subst nf; nia).
  replace (clump_count N (max_rows_per_file config)) with (Z.of_nat nf) by (subst nf; lia).
  destruct (first_pass_spec fields bs Hbs c Hc nf Hnf Hlt bs [] (replicate nf []) (replicate nf []) r)
    as (files & cls & r' & E & Hf & Hl & Hp & Hcl); try done.
  { apply Forall2_replicate. exists []. done. }
  { apply length_replicate. }
  { clear. induction nf; [done|]. by rewrite replicate_S, mjoin_cons. }
  { apply Forall_replicate, aligned_nil. }
  { left. apply Forall_replicate. constructor. }
  change (Z.of_nat (total_rows [])) with 0%Z in E. fold N in E. rewrite E. run_ok.
  rewrite (clump_of_stream c bs Hc Hal) in Hp.
  assert (mjoin (mjoin (M:=list) cls) ≡ₚ u64_seq 0 N) as Hrows
    by (rewrite Hp; by rewrite mjoin_clumps by lia).
  destruct (second_pass_spec fields bs Hbs c Hc nf Hnf files cls r') as (order & Ho & ->); try done.
  { unfold in_bounds. rewrite Hrows. apply Forall_forall. intros x. by rewrite elem_of_u64_seq. }
  { rewrite Hrows, u64_seq_length. lia. }
  eexists; split; [done|].
  replace ((λ cl : list (list Z), take_rb (concat_rb fields bs) (mjoin cl)) <$> order)
    with (take_rb (concat_rb fields bs) <$> (mjoin (M:=list) <$> order))
    by (by rewrite <- list_fmap_compose).
  apply (shuffled_intro fields bs c (mjoin (M:=list) <$> order) (mjoin (M:=list) order)); [done| |].
  - clear. induction order as [|o order IH]; [done|].
    by rewrite fmap_cons, !mjoin_cons, mjoin_app, IH.
  - by rewrite (Forall2_perm_mjoin _ _ Ho).
Qed.

Lemma shuffle_spec fs config fields bs :
  let c := default 1%Z (clump_size config) in let N := Z.of_nat (total_rows bs) in
  batches_ok fields bs → (0 < c)%Z → (N < U64)%Z → (0 < max_rows_per_file config)%Z →
  ((max_rows_per_file config ≤ N)%Z →
     create_temp_dir fs (temp_dir config) = Ok tt ∧ clump_aligned c bs) →
  ∃ out, shuffle fs config (mkStream fields (Ok <$> bs)) N = Ok out ∧ shuffled fields bs c out.
Proof.
  intros c N Hbs Hc Hlt Hmax Hfile. unfold shuffle.
  destruct (N <? max_rows_per_file config)%Z eqn:E; to_prop.
  - by apply in_memory_shuffle_spec.
  - destruct (Hfile E). apply do_shuffle_spec; lia || done.
Qed.
End theorems.

(** A generator and a file format that satisfy the laws: it reverses, draws in
    turn, and files hold the batches that were written. *)
Definition rev_rng : Rng := {|
  rng := Z; seed_from_u64 := id; from_os_rng := 0%Z;
  rng_shuffle r l := (reverse l, (r + 1)%Z);
  random_range r n := ((r mod n)%Z, (r + 1)%Z)
|}.

Lemma rev_rng_laws : RngLaws rev_rng.
Proof.
  constructor; simpl.
  - intros _ l. apply reverse_Permutation.
  - intros r n Hn. by apply Z.mod_pos_bound.
Qed.

Definition mem_files : LanceFile := {| lance_read written _ := Ok written |}.

Lemma mem_files_laws : LanceFileLaws mem_files.
Proof. constructor. intros fields written n H. by exists written. Qed.

Definition id_field : Field := mkField "id" UInt64 false ∅.
Definition id_batch (lo : Z) (n : nat) : RecordBatch :=
  mkRB [id_field] [CU64 <$> u64_seq lo (lo + Z.of_nat n)] n.

(** C2: shuffling.  For a stream of [num_rows] rows, whether it fits in memory
    or goes through temporary files (then batches must be aligned to the clump
    size, as the code demands), [shuffle] succeeds and the stream it returns
    holds every row exactly once, in the order of a permutation of the input's
    clumps. *)
Theorem shuffle_permutes_clumps {prof : Profile} {K : ArrowKernels} {LK : ArrowLaws K}
    {R : Rng} {LR : RngLaws R} {L : LanceFile} {LL : LanceFileLaws L} fs config fields bs :
  let c := default 1%Z (clump_size config) in let N := Z.of_nat (total_rows bs) in
  batches_ok fields bs → (0 < c)%Z → (N < U64)%Z → (0 < max_rows_per_file config)%Z →
  ((max_rows_per_file config ≤ N)%Z →
     create_temp_dir fs (temp_dir config) = Ok tt ∧ clump_aligned c bs) →
  ∃ out, shuffle fs config (mkStream fields (Ok <$> bs)) N = Ok out ∧ shuffled fields bs c out.
Proof.
  apply shuffle_spec.
Qed.

(** Two batches of four rows, clumps of two, at most three rows per file. *)
Lemma shuffle_permutes_clumps_witness :
  let bs := [id_batch 0 4; id_batch 4 4] in
  let config := mkConfig (Some 1%Z) 3 OsDefault (Some 2%Z) in
  ∃ out, shuffle (prof := true) (R := rev_rng) (L := mem_files) (λ _, true) config
           (mkStream [id_field] (Ok <$> bs)) 8 = Ok out ∧ shuffled [id_field] bs 2 out.
Proof.
  intros bs config.
  apply (@shuffle_permutes_clumps true ref_kernels ref_laws rev_rng rev_rng_laws mem_files
           mem_files_laws (λ _, true) config [id_field] bs); [|done..|].
  - repeat constructor.
  - intros _. split; [done|]. intros [|r0 [|r1 [|r2 r]]] b r2' H; simplify_eq/=; left; reflexivity.
Defined.

(** clump size zero.  The spilling path answers clump size 0 with an
    error before touching the data; the in-memory path divides by it and
    panics, whatever the stream holds. *)
Theorem clump_size_zero {prof : Profile} {K : ArrowKernels} {LK : ArrowLaws K} {R : Rng}
    {L : LanceFile} fs config fields bs num_rows :
  batches_ok fields bs → clump_size config = Some 0%Z → (0 < max_rows_per_file config)%Z →
  create_temp_dir fs (temp_dir config) = Ok tt →
  shuffle fs config (mkStream fields (Ok <$> bs)) num_rows =
    if (num_rows <? max_rows_per_file config)%Z then Panic
    else Err (InvalidInput "clump size must be greater than 0").
Proof.
  intros Hbs Hc Hmax Htmp. unfold shuffle. case_match.
  - unfold in_memory_shuffle. cbn [st_items st_schema]. rewrite try_collect_Ok.
    run_ok. rewrite concat_batches_ok by done. run_ok.
    by rewrite Hc.
  - unfold do_shuffle. rewrite u64_div_ceil_Ok by done. run_ok.
    by rewrite Htmp, Hc.
Qed.

Lemma clump_size_zero_witness :
  shuffle (prof := true) (R := rev_rng) (L := mem_files) (λ _, true)
    (mkConfig None 100 OsDefault (Some 0%Z)) (mkStream [id_field] [Ok (id_batch 0 4)]) 4 = Panic.
Proof.
  apply (@clump_size_zero true ref_kernels ref_laws rev_rng mem_files (λ _, true)
           (mkConfig None 100 OsDefault (Some 0%Z)) [id_field] [id_batch 0 4] 4); try done.
  repeat constructor.
Defined.

End Shuffle.
