(* ===== verification/Split.v ===== *)
(** * Assigning rows to splits (rust/lancedb/src/dataloader/permutation/split.rs)

    [SplitSizes] and [SplitStrategy] with their validation, the row counts of
    the splits, the sequential assignment (whose state is shared by the batches
    of a stream) and the assignment by hash.  The hash function is a
    parameter. *)

From S2P Require Import Prelude.
From S2P Require Import Floats Arrow Shuffle.
Import Shuffle.

Module Split.

(** [datafusion_common::hash_utils::create_hashes]: the hashes of the rows of
    the given columns, written to a buffer of that many entries. *)
Class Hasher : Type := { create_hashes : list column → list Z → result (list Z) }.

Class HasherLaws (H : Hasher) : Prop := {
  create_hashes_ok cols buf :
    Forall (λ c, length c = length buf) cols →
    ∃ hs, create_hashes cols buf = Ok hs ∧ length hs = length buf ∧ Forall u64_range hs
}.

(** ** Data *)
Definition SPLIT_ID_COLUMN : string := "split_id".
Definition ROW_ID : string := "_rowid".

(** query.rs [Select]; [E] is the type of planned expressions. *)
Inductive Select (E : Type) : Type :=
  | SelectAll
  | Columns (columns : list string)
  | Dynamic (columns : list (string * string))
  | SelectExpr (exprs : list (string * E)).
Arguments SelectAll {E}.
Arguments Columns {E} _.
Arguments Dynamic {E} _.
Arguments SelectExpr {E} _.

Inductive SplitSizes : Type :=
  | Percentages (percentages : list F64.t)
  | Counts (counts : list Z)
  | Fixed (num_splits : Z).

Definition default_sizes : SplitSizes := Percentages [F64.one].

Inductive SplitStrategy : Type :=
  | NoSplit
  | Random (seed : option Z) (sizes : SplitSizes) (clump_size : option Z)
  | Hash (columns : list string) (split_weights : list Z) (discard_weight : Z)
  | Sequential (sizes : SplitSizes)
  | Calculated (calculation : string).

Section Split.
Context {prof : Profile} {K : ArrowKernels} {R : Rng} {L : LanceFile} {H : Hasher}.
Context (fs : TemporaryDirectory → bool).

(** ** Validation *)
Definition validate_percentage (num_rows : Z) (percentage : F64.t) : result unit :=
  if F64.ltb percentage F64.zero || F64.ltb F64.one percentage
  then Err (InvalidInput "Split percentages must be between 0.0 and 1.0")
  else if F64.ltb (F64.mul percentage (F64.of_Z num_rows)) F64.one
  then Err (InvalidInput "One of the splits has {}% of {} rows which rounds to 0 rows")
  else Ok tt.

Definition sizes_validate (sizes : SplitSizes) (num_rows : Z) : result unit :=
  match sizes with
  | Percentages percentages =>
      _ ← try_for (validate_percentage num_rows) percentages;
      if F64.ltb F64.one (F64.sum percentages)
      then Err (InvalidInput "Split percentages must sum to 1.0 or less")
      else Ok tt
  | Counts counts =>
      total ← u64_sum counts;
      if (num_rows <? total)%Z
      then Err (InvalidInput "Split counts specified {} rows but only {} are available")
      else if bool_decide (0%Z ∈ counts)
      then Err (InvalidInput "Split counts must be greater than 0")
      else Ok tt
  | Fixed num_splits =>
      if (num_rows <? num_splits)%Z
      then Err (InvalidInput "Split fixed config specified {} splits but only {} rows are available")
      else
        per_split ← u64_div num_rows num_splits;
        if (per_split =? 0)%Z
        then Err (InvalidInput "Split fixed config specified {} splits but only {} rows are available")
        else Ok tt
  end.

Definition strategy_validate (strategy : SplitStrategy) (num_rows : Z) : result unit :=
  match strategy with
  | NoSplit => Ok tt
  | Random _ sizes _ => sizes_validate sizes num_rows
  | Hash columns split_weights _ =>
      match columns with
      | [] => Err (InvalidInput "Hash strategy requires at least one column")
      | _ =>
          match split_weights with
          | [] => Err (InvalidInput "Hash strategy requires at least one split weight")
          | _ =>
              if bool_decide (0%Z ∈ split_weights)
              then Err (InvalidInput "Split weights must be greater than 0")
              else Ok tt
          end
      end
  | Sequential sizes => sizes_validate sizes num_rows
  | Calculated _ => Ok tt
  end.

(** ** Row counts *)

(** [while excess > 0 { .. }]: one row is taken from the non-empty buckets in
    turn.  [Panic] also stands for running out of fuel, which [drop_fuel]
    excludes. *)
Fixpoint drop_rows (fuel : nat) (excess : Z) (drop_idx : nat) (counts : list Z) : result (list Z) :=
  if (0 <? excess)%Z then
    match fuel with
    | O => Panic
    | S fuel' =>
        n ← unwrap (counts !! drop_idx);
        let counts' := if (0 <? n)%Z then <[drop_idx := (n - 1)%Z]> counts else counts in
        let excess' := if (0 <? n)%Z then (excess - 1)%Z else excess in
        let next := if S drop_idx =? length counts then 0 else S drop_idx in
        drop_rows fuel' excess' next counts'
    end
  else Ok counts.

Definition drop_fuel (excess : Z) (counts : list Z) : nat :=
  S (Z.to_nat excess) * (2 * length counts).

(** [while is_basically_one && excess < 0 { .. }] *)
Fixpoint add_rows (fuel : nat) (excess : Z) (add_idx : nat) (counts : list Z) : result (list Z) :=
  if (excess <? 0)%Z then
    match fuel with
    | O => Panic
    | S fuel' =>
        n ← unwrap (counts !! add_idx);
        n' ← u64_add n 1;
        let next := if S add_idx =? length counts then 0 else S add_idx in
        add_rows fuel' (excess + 1)%Z next (<[add_idx := n']> counts)
    end
  else Ok counts.

(** The rounded share of each split. *)
Definition raw_counts (percentages : list F64.t) (num_rows : Z) : list Z :=
  (λ p, F64.round_as_u64 (F64.mul p (F64.of_Z num_rows))) <$> percentages.

Definition is_basically_one (percentages : list F64.t) (num_rows : Z) : bool :=
  let percentage_sum := foldl F64.add F64.zero percentages in
  F64.ltb (F64.abs (F64.sub (F64.of_Z num_rows) (F64.mul percentage_sum (F64.of_Z num_rows)))) F64.half.

Definition percentage_counts (percentages : list F64.t) (num_rows : Z) : result (list Z) :=
  let counts := raw_counts percentages num_rows in
  sum ← u64_sum counts;
  excess ← i64_arith (as_i64 sum - as_i64 num_rows);
  counts' ← drop_rows (drop_fuel excess counts) excess 0 counts;
  (* the first loop leaves [excess] at 0 if it ran at all *)
  let excess' := Z.min excess 0 in
  if is_basically_one percentages num_rows
  then add_rows (Z.to_nat (- excess')) excess' 0 counts'
  else Ok counts'.

Definition to_counts (sizes : SplitSizes) (num_rows : Z) : result (list Z) :=
  sizes ← (match sizes with
           | Percentages percentages => percentage_counts percentages num_rows
           | Counts counts => Ok counts
           | Fixed num_splits =>
               rows_per_split ← u64_div num_rows num_splits;
               Ok (replicate (Z.to_nat num_splits) rows_per_split)
           end);
  total ← u64_sum sizes;
  if (total <=? num_rows)%Z then Ok sizes else Panic.

(** ** Sequential assignment *)

(** The atomics shared by the batches of one stream. *)
Record SeqState : Type := mkSeq {
  split_index : nat;
  counter_in_split : Z;
  exhausted : bool
}.

(** [while split_ids.len() < num_rows as usize { .. }]; every turn but the last
    moves to the next split. *)
Fixpoint sequential_loop (fuel : nat) (num_rows : Z) (split_sizes : list Z) (st : SeqState)
    (split_ids : list Z) : result (list Z * SeqState) :=
  if (Z.of_nat (length split_ids) <? num_rows)%Z then
    match fuel with
    | O => Panic
    | S fuel' =>
        let split_id := split_index st in
        split_size ← unwrap (split_sizes !! split_id);
        remaining_in_split ← u64_sub split_size (counter_in_split st);
        remaining_in_batch ← u64_sub num_rows (Z.of_nat (length split_ids));
        let repeated (rows : Z) :=
          split_ids ++ replicate (Z.to_nat rows) (Z.of_nat split_id) in
        if (remaining_in_batch <? remaining_in_split)%Z then
          sequential_loop fuel' num_rows split_sizes
            (mkSeq split_id ((counter_in_split st + remaining_in_batch) mod U64)%Z (exhausted st))
            (repeated remaining_in_batch)
        else if split_id =? length split_sizes - 1 then
          Ok (repeated remaining_in_split, mkSeq (S split_id) 0 true)
        else
          sequential_loop fuel' num_rows split_sizes (mkSeq (S split_id) 0 (exhausted st))
            (repeated remaining_in_split)
    end
  else Ok (split_ids, st).

Definition sequential_split_id (num_rows : Z) (split_sizes : list Z) (st : SeqState)
    : result (list Z * SeqState) :=
  sequential_loop (S (length split_sizes)) num_rows split_sizes st [].

Definition split_id_field : Field := mkField SPLIT_ID_COLUMN UInt64 false ∅.

(** The body of the closure for one batch. *)
Definition assign_batch (new_schema : list Field) (split_sizes : list Z) (st : SeqState)
    (batch : RecordBatch) : result (RecordBatch * SeqState) :=
  '(split_ids, st') ← sequential_split_id (Z.of_nat (rb_num_rows batch)) split_sizes st;
  let arrays := if length split_ids <? rb_num_rows batch
                then (λ arr, array_slice arr 0 (length split_ids)) <$> rb_columns batch
                else rb_columns batch in
  match try_new new_schema (arrays ++ [CU64 <$> split_ids]) with
  | Ok b => Ok (b, st')
  | _ => Panic
  end.

(** [source.filter_map(..)]: after the last split batches are swallowed,
    errors are passed on. *)
Fixpoint assign_stream (new_schema : list Field) (split_sizes : list Z) (st : SeqState)
    (items : list (result RecordBatch)) : list (result RecordBatch) :=
  match items with
  | [] => []
  | Ok batch :: items' =>
      if exhausted st then assign_stream new_schema split_sizes st items'
      else
        match assign_batch new_schema split_sizes st batch with
        | Ok (b, st') => Ok b :: assign_stream new_schema split_sizes st' items'
        | Err e => [Err e]
        | Panic => [Panic]
        end
  | Err e :: items' => Err e :: assign_stream new_schema split_sizes st items'
  | Panic :: _ => [Panic]
  end.

Definition apply_sequential (source : Stream) (num_rows : Z) (sizes : SplitSizes) : result Stream :=
  split_sizes ← to_counts sizes num_rows;
  new_schema ← schema_with_column (st_schema source) split_id_field;
  Ok (mkStream new_schema (assign_stream new_schema split_sizes (mkSeq 0 0 false) (st_items source))).

(** ** Assignment by hash *)

(** [slice::binary_search] of the standard library: the bisection, then one
    comparison.  The result is the index of a match or the insertion point. *)
Fixpoint bisect (fuel : nat) (l : list Z) (h : Z) (base size : nat) : nat :=
  match fuel with
  | O => base
  | S fuel' =>
      if 1 <? size then
        let half := size / 2 in
        let mid := base + half in
        let base' := if (h <? nth mid l 0)%Z then base else mid in
        bisect fuel' l h base' (size - half)
      else base
  end.

Definition binary_search (l : list Z) (h : Z) : nat + nat :=
  match l with
  | [] => inr 0
  | _ =>
      let base := bisect (length l) l h 0 (length l) in
      let x := nth base l 0%Z in
      if (x =? h)%Z then inl base
      else inr (if (x <? h)%Z then S base else base)
  end.

(** The closure: the split of one hash, [None] when the row is discarded. *)
Definition split_of_hash (thresholds : list Z) (total_weight h : Z) : result (option Z) :=
  h ← u64_rem h total_weight;
  let split_id := match binary_search thresholds h with
                  | inl i => S i
                  | inr i => i
                  end in
  Ok (if split_id =? length thresholds then None else Some (Z.of_nat split_id)).

Definition hash_split_id (batch : RecordBatch) (thresholds : list Z) (total_weight : Z)
    : result (list (option Z)) :=
  ncols ← u64_sub (Z.of_nat (length (rb_columns batch))) 1;
  let arrays := take (Z.to_nat ncols) (rb_columns batch) in
  match create_hashes arrays (replicate (rb_num_rows batch) 0%Z) with
  | Ok hashes => try_map (split_of_hash thresholds total_weight) hashes
  | _ => Panic
  end.

(** The closure computing the cumulative weights. *)
Fixpoint thresholds_from (offset : Z) (weights : list Z) : result (list Z) :=
  match weights with
  | [] => Ok []
  | w :: weights' =>
      value ← u64_add offset w;
      rest ← thresholds_from value weights';
      Ok (value :: rest)
  end.

Definition opt_cell (o : option Z) : cell := match o with Some z => CU64 z | None => CNull end.

Definition valid (o : option Z) : bool := match o with Some _ => true | None => false end.

Definition hash_batch (new_schema : list Field) (row_id_index : nat) (thresholds : list Z)
    (total_weight : Z) (batch : RecordBatch) : result RecordBatch :=
  split_ids ← hash_split_id batch thresholds total_weight;
  row_ids ← unwrap (rb_columns batch !! row_id_index);
  let is_valid := valid <$> split_ids in
  let built :=
    if existsb negb is_valid then
      match array_filter (opt_cell <$> split_ids) is_valid, array_filter row_ids is_valid with
      | Ok split_ids, Ok row_ids => try_new new_schema [row_ids; split_ids]
      | _, _ => Panic
      end
    else try_new new_schema [row_ids; opt_cell <$> split_ids] in
  match built with Ok b => Ok b | _ => Panic end.

(** [source.map_ok(..)]: a panic ends the stream. *)
Fixpoint map_ok (f : RecordBatch → result RecordBatch) (items : list (result RecordBatch))
    : list (result RecordBatch) :=
  match items with
  | [] => []
  | Ok b :: items' =>
      match f b with
      | Panic => [Panic]
      | r => r :: map_ok f items'
      end
  | Err e :: items' => Err e :: map_ok f items'
  | Panic :: _ => [Panic]
  end.

Definition apply_hash (source : Stream) (weights : list Z) (discard_weight : Z) : result Stream :=
  last ← u64_sub (Z.of_nat (length (st_schema source))) 1;
  let row_id_index := Z.to_nat last in
  row_id_field ← unwrap (st_schema source !! row_id_index);
  let new_schema := [row_id_field; split_id_field] in
  weight_sum ← u64_sum weights;
  total_weight ← u64_add weight_sum discard_weight;
  thresholds ← thresholds_from 0 weights;
  Ok (mkStream new_schema
        (map_ok (hash_batch new_schema row_id_index thresholds total_weight) (st_items source))).

(** ** The splitter *)
Definition apply (temp_dir : TemporaryDirectory) (strategy : SplitStrategy) (source : Stream)
    (num_rows : Z) : result Stream :=
  _ ← strategy_validate strategy num_rows;
  match strategy with
  | NoSplit => apply_sequential source num_rows (Counts [num_rows])
  | Random seed sizes clump_size =>
      shuffled ← shuffle fs (mkConfig seed (10 * 1024 * 1024) temp_dir clump_size) source num_rows;
      apply_sequential shuffled num_rows sizes
  | Sequential sizes => apply_sequential source num_rows sizes
  | Calculated _ => Ok source
  | Hash _ split_weights discard_weight => apply_hash source split_weights discard_weight
  end.

Definition project {E} (strategy : SplitStrategy) (select : Select E) : Select E :=
  match strategy with
  | Calculated calculation => Dynamic [(SPLIT_ID_COLUMN, calculation); (ROW_ID, ROW_ID)]
  | Hash columns _ _ => Columns (columns ++ [ROW_ID])
  | _ => select
  end.

Definition orders_by_split_id (strategy : SplitStrategy) : bool :=
  match strategy with
  | Hash _ _ _ | Calculated _ => true
  | NoSplit | Sequential _ | Random _ _ _ => false
  end.
End Split.

(** ** Counting *)
Lemma zsum_insert l i n v :
  l !! i = Some n → zsum (<[i := v]> l) = (zsum l - n + v)%Z.
Proof.
  revert i. induction l as [|x l IH]; intros [|i] Hi; simplify_eq/=; [lia|].
  rewrite IH by done. lia.
Qed.

Lemma zsum_replicate n x : zsum (replicate n x) = (Z.of_nat n * x)%Z.
Proof. induction n as [|n IH]; [done|]. simpl zsum. rewrite IH. lia. Qed.

(** Some bucket from [idx] on can still give a row. *)
Definition has_rows (l : list Z) : bool := existsb (Z.ltb 0) l.

Lemma has_rows_zsum l : Forall (λ x, 0 ≤ x)%Z l → has_rows l = false → zsum l = 0%Z.
Proof.
  induction 1; [done|]. unfold has_rows in *. simpl. intros [? ?]%orb_false_iff. to_prop.
  rewrite IHForall by done. lia.
Qed.

(** Turns the first loop still needs: bounded by the distance to the next
    bucket with rows, which may be behind [idx]. *)
Definition drop_measure (excess : Z) (idx : nat) (counts : list Z) : nat :=
  let n := length counts in
  Z.to_nat excess * (2 * n) + (if has_rows (drop idx counts) then n - idx else 2 * n - idx).

Section counts.
Context {prof : Profile}.

Lemma drop_step excess idx counts n :
  (0 < excess ≤ zsum counts)%Z → Forall (λ x, 0 ≤ x)%Z counts → counts !! idx = Some n →
  let counts' := if (0 <? n)%Z then <[idx := (n - 1)%Z]> counts else counts in
  let excess' := if (0 <? n)%Z then (excess - 1)%Z else excess in
  let next := if S idx =? length counts then 0 else S idx in
  drop_measure excess' next counts' < drop_measure excess idx counts.
Proof.
  intros He Hc Hi. pose proof (lookup_lt_Some _ _ _ Hi) as Hlt.
  assert (drop idx counts = n :: drop (S idx) counts) as Hd by (by apply drop_S).
  unfold drop_measure. rewrite Hd. unfold has_rows at 2. cbn [existsb].
  destruct (0 <? n)%Z eqn:En; to_prop; simpl orb; cbv zeta.
  - rewrite length_insert.
    replace (Z.to_nat excess) with (S (Z.to_nat (excess - 1))) by lia.
    destruct (S idx =? length counts) eqn:E; to_prop; case_match; lia.
  - fold (has_rows (drop (S idx) counts)).
    destruct (S idx =? length counts) eqn:E; to_prop.
    + rewrite drop_0, (drop_ge counts (S idx)) by lia. simpl (has_rows []).
      destruct (has_rows counts) eqn:Eh; [lia|]. apply has_rows_zsum in Eh; [lia|done].
    + case_match; lia.
Qed.

Lemma drop_rows_ok fuel : ∀ excess idx counts,
  Forall (λ x, 0 ≤ x)%Z counts → (excess ≤ zsum counts)%Z → idx < length counts →
  drop_measure excess idx counts ≤ fuel →
  ∃ counts', drop_rows fuel excess idx counts = Ok counts' ∧
    zsum counts' = (zsum counts - Z.max excess 0)%Z ∧
    Forall2 (λ n' n, 0 ≤ n' ≤ n)%Z counts' counts.
Proof.
  induction fuel as [|fuel IH]; intros excess idx counts Hc He Hi Hf.
  all: cbn [drop_rows]; destruct (0 <? excess)%Z eqn:E; to_prop.
  1: { unfold drop_measure in Hf. exfalso. case_match; nia. }
  1,3: exists counts; split_and!; [done|lia|]; clear -Hc;
       induction Hc; constructor; [lia|done].
  destruct (lookup_lt_is_Some_2 _ _ Hi) as [n Hn]. rewrite Hn. cbn [unwrap mbind outcome_bind].
  pose proof (drop_step excess idx counts n ltac:(lia) Hc Hn) as Hm. cbv zeta in Hm.
  assert (0 ≤ n)%Z as Hn0 by (rewrite Forall_lookup in Hc; eauto).
  set (next := if S idx =? length counts then 0 else S idx) in *.
  assert (next < length counts) as Hnext by (subst next; clear -Hi; destruct (Nat.eqb_spec (S idx) (length counts)); lia).
  destruct (0 <? n)%Z eqn:En; to_prop.
  - destruct (IH (excess - 1)%Z next (<[idx := (n - 1)%Z]> counts)) as (cs & -> & Hs & Hle).
    + apply Forall_insert; [done|lia].
    + rewrite (zsum_insert _ _ n) by done. lia.
    + by rewrite length_insert.
    + lia.
    + rewrite (zsum_insert _ _ n) in Hs by done. exists cs. split_and!; [done|lia|].
      eapply Forall2_same_length_lookup_2.
      { rewrite (Forall2_length _ _ _ Hle). apply length_insert. }
      intros j a b Ha Hb. destruct (decide (j = idx)) as [->|].
      * simplify_eq. eapply Forall2_lookup_lr in Hle; [|exact Ha|by apply list_lookup_insert_eq]. lia.
      * eapply Forall2_lookup_lr in Hle; [|exact Ha|rewrite list_lookup_insert_ne by done; exact Hb]. lia.
  - destruct (IH excess next counts) as (cs & -> & Hs & Hle); [done..|lia|]. by exists cs.
Qed.

Lemma add_rows_ok fuel : ∀ excess idx counts,
  Forall (λ x, 0 ≤ x)%Z counts → (excess ≤ 0)%Z → (zsum counts - excess < U64)%Z →
  idx < length counts → fuel = Z.to_nat (- excess) →
  ∃ counts', add_rows fuel excess idx counts = Ok counts' ∧
    zsum counts' = (zsum counts - excess)%Z ∧ Forall2 Z.le counts counts'.
Proof.
  induction fuel as [|fuel IH]; intros excess idx counts Hc He Hs Hi Hf.
  all: cbn [add_rows]; destruct (excess <? 0)%Z eqn:E; to_prop; try lia.
  { exists counts. split_and!; [done|lia|]. by apply Forall_Forall2_diag, Forall_true. }
  destruct (lookup_lt_is_Some_2 _ _ Hi) as [n Hn]. rewrite Hn. cbn [unwrap mbind outcome_bind].
  assert (0 ≤ n)%Z as Hn0 by (rewrite Forall_lookup in Hc; eauto).
  assert (n ≤ zsum counts)%Z as Hns.
  { pose proof (zsum_insert counts idx n 0 Hn) as Hz.
    pose proof (zsum_nonneg (<[idx:=0%Z]> counts) ltac:(apply Forall_insert; done)). lia. }
  unfold u64_add. rewrite u64_arith_ok by (unfold u64_range; lia). run_ok.
  set (next := if S idx =? length counts then 0 else S idx).
  destruct (IH (excess + 1)%Z next (<[idx := (n + 1)%Z]> counts)) as (cs & -> & Hz & Hle).
  - apply Forall_insert; [done|lia].
  - lia.
  - rewrite (zsum_insert _ _ n) by done. lia.
  - rewrite length_insert. subst next. clear -Hi.
    destruct (Nat.eqb_spec (S idx) (length counts)); lia.
  - lia.
  - rewrite (zsum_insert _ _ n) in Hz by done. exists cs. split_and!; [done|lia|].
    eapply Forall2_same_length_lookup_2.
    { rewrite <- (Forall2_length _ _ _ Hle). symmetry. apply length_insert. }
    intros j a b Ha Hb. destruct (decide (j = idx)) as [->|].
    + simplify_eq. eapply Forall2_lookup_lr in Hle; [|by apply list_lookup_insert_eq|exact Hb]. lia.
    + eapply Forall2_lookup_lr in Hle; [|rewrite list_lookup_insert_ne by done; exact Ha|exact Hb]. done.
Qed.

Lemma raw_counts_range percentages n : Forall u64_range (raw_counts percentages n).
Proof. apply Forall_fmap, Forall_true. intros p. apply F64.round_as_u64_range. Qed.

(** The counts of percentages: the rounded shares, corrected downwards when
    they add up to too many rows, upwards when they should add up to all. *)
Lemma percentage_counts_ok ps n :
  (0 ≤ n < I63)%Z → ps ≠ [] → (zsum (raw_counts ps n) < I63)%Z →
  ∃ counts, percentage_counts ps n = Ok counts ∧
    zsum counts = (if is_basically_one ps n then n else Z.min n (zsum (raw_counts ps n))) ∧
    Forall2 (λ c raw, 0 ≤ c ∧ if (n <=? zsum (raw_counts ps n)) then c ≤ raw else raw ≤ c)%Z
      counts (raw_counts ps n).
Proof.
  intros Hn Hps Hsum. unfold percentage_counts. set (raw := raw_counts ps n) in *.
  assert (Forall (λ x, 0 ≤ x)%Z raw) as Hraw.
  { eapply Forall_impl; [apply raw_counts_range|]. by intros x []. }
  assert (0 < length raw) as Hlen by (subst raw; unfold raw_counts; destruct ps; simpl; [done|lia]).
  pose proof (zsum_nonneg raw Hraw) as Hz.
  assert (I63 < U64)%Z by done. assert (0 < I63)%Z by done.
  rewrite u64_sum_ok by (done || lia). run_ok.
  unfold as_i64. rewrite !(proj2 (Z.ltb_lt _ _)) by lia.
  rewrite (i64_arith_ok (zsum raw - n)) by (unfold i64_range; lia). run_ok.
  destruct (drop_rows_ok (drop_fuel (zsum raw - n) raw) (zsum raw - n) 0 raw)
    as (cs & -> & Hcs & Hle); [done|lia|done| |].
  { unfold drop_measure, drop_fuel. case_match; lia. }
  run_ok.
  destruct (n <=? zsum raw)%Z eqn:E; to_prop.
  - assert (zsum cs = n) as Hn' by lia. rewrite Z.min_r by lia.
    exists cs. split; [|split].
    + by destruct (is_basically_one ps n).
    + case_match; lia.
    + eapply Forall2_impl; [exact Hle|]. simpl. lia.
  - assert (cs = raw) as ->.
    { cbn [drop_rows] in *. assert (zsum cs = zsum raw) by lia. clear -Hle H1.
      induction Hle as [|a b cs raw Hab Hle IH]; [done|]. simpl in H1.
      assert (zsum cs ≤ zsum raw)%Z by (clear -Hle; induction Hle; simpl; lia).
      f_equal; [lia|apply IH; lia]. }
    rewrite Z.min_l by lia. destruct (is_basically_one ps n).
    + destruct (add_rows_ok (Z.to_nat (- (zsum raw - n))) (zsum raw - n) 0 raw)
        as (cs & -> & Hz' & Hle'); [done|lia|lia|done|done|].
      exists cs. split_and!; [done|lia|]. apply Forall2_flip.
      clear -Hle' Hraw. induction Hle'; [constructor|].
      apply Forall_cons in Hraw as [? ?]. constructor; [simpl; lia|auto].
    + exists raw. split_and!; [done|lia|]. apply Forall_Forall2_diag.
      eapply Forall_impl; [exact Hraw|]. simpl. lia.
Qed.
End counts.

(** ** The sequential plan *)

(** The split ids in row order: [sizes !! i] rows of split [i]. *)
Fixpoint plan_from (i : nat) (sizes : list Z) : list Z :=
  match sizes with
  | [] => []
  | s :: sizes' => replicate (Z.to_nat s) (Z.of_nat i) ++ plan_from (S i) sizes'
  end.
Definition plan (sizes : list Z) : list Z := plan_from 0 sizes.

(** What is left of the plan in a state of the loop. *)
Definition rest (sizes : list Z) (st : SeqState) : list Z :=
  match drop (split_index st) sizes with
  | [] => []
  | s :: ss => replicate (Z.to_nat (s - counter_in_split st)) (Z.of_nat (split_index st)) ++
               plan_from (S (split_index st)) ss
  end.

Definition seq_inv (sizes : list Z) (st : SeqState) : Prop :=
  if exhausted st then rest sizes st = []
  else ∃ s, sizes !! split_index st = Some s ∧ (0 ≤ counter_in_split st ≤ s)%Z.

Lemma length_plan_from i sizes :
  Forall (λ x, 0 ≤ x)%Z sizes → Z.of_nat (length (plan_from i sizes)) = zsum sizes.
Proof.
  intros Hs. revert i. induction Hs as [|s sizes Hs _ IH]; intros i; [done|].
  simpl. rewrite length_app, length_replicate. specialize (IH (S i)). lia.
Qed.

Section sequential.
Context {prof : Profile} (sizes : list Z) (Hsizes : Forall u64_range sizes).

Lemma rest_next i s :
  sizes !! i = Some s →
  rest sizes (mkSeq i 0 false) = replicate (Z.to_nat s) (Z.of_nat i) ++ plan_from (S i) (drop (S i) sizes).
Proof using.
  intros Hi. unfold rest. simpl split_index. rewrite (drop_S _ _ _ Hi).
  simpl counter_in_split. by rewrite Z.sub_0_r.
Qed.

Lemma rest_plan_from i : plan_from i (drop i sizes) = rest sizes (mkSeq i 0 false).
Proof using.
  unfold rest. simpl. destruct (drop i sizes) as [|s ss]; [done|]. simpl. by rewrite Z.sub_0_r.
Qed.

Lemma sequential_loop_full fuel n st ids :
  Z.of_nat (length ids) = n → sequential_loop fuel n sizes st ids = Ok (ids, st).
Proof using. intros <-. destruct fuel; cbn [sequential_loop]; by rewrite Z.ltb_irrefl. Qed.

(** The loop takes the next rows of the plan, and stops. *)
Lemma sequential_loop_spec fuel : ∀ n st ids,
  seq_inv sizes st → exhausted st = false → (0 ≤ n < U64)%Z →
  length ids ≤ Z.to_nat n → length sizes - split_index st < fuel →
  ∃ st', sequential_loop fuel n sizes st ids =
           Ok (ids ++ take (Z.to_nat n - length ids) (rest sizes st), st') ∧
    rest sizes st' = drop (Z.to_nat n - length ids) (rest sizes st) ∧ seq_inv sizes st'.
Proof using Hsizes.
  induction fuel as [|fuel IH]; intros n st ids Hinv Hex Hn Hids Hfuel; [lia|].
  cbn [sequential_loop]. destruct (Z.of_nat (length ids) <? n)%Z eqn:E; to_prop.
  2: { exists st. replace (Z.to_nat n - length ids) with 0 by lia. by rewrite take_0, app_nil_r. }
  destruct st as [i c ex]. unfold seq_inv in Hinv. simpl in Hex, Hinv, Hfuel |- *. subst ex.
  destruct Hinv as (s & Hi & Hc). pose proof (lookup_lt_Some _ _ _ Hi) as Hlt.
  assert (u64_range s) as Hs by (rewrite Forall_lookup in Hsizes; eauto). unfold u64_range in Hs.
  rewrite Hi. cbn [unwrap mbind outcome_bind]. unfold u64_sub.
  rewrite (u64_arith_ok (s - c)) by (unfold u64_range; lia). run_ok.
  rewrite (u64_arith_ok (n - _)) by (unfold u64_range; lia). run_ok.
  set (k := Z.to_nat n - length ids).
  unfold rest at 1 3. simpl split_index. simpl counter_in_split. rewrite (drop_S _ _ _ Hi).
  destruct (n - Z.of_nat (length ids) <? s - c)%Z eqn:Eb; to_prop.
  - rewrite Z.mod_small by lia.
    set (st1 := mkSeq i (c + (n - Z.of_nat (length ids))) false).
    rewrite sequential_loop_full by (rewrite length_app, length_replicate; lia).
    exists st1. split_and!.
    + rewrite take_app_le by (rewrite length_replicate; lia). rewrite take_replicate.
      do 4 f_equal. lia.
    + rewrite drop_app_le by (rewrite length_replicate; lia). rewrite drop_replicate.
      unfold rest. simpl. rewrite (drop_S _ _ _ Hi). do 2 f_equal. lia.
    + exists s. split; [done|]. simpl. lia.
  - assert (take k (replicate (Z.to_nat (s - c)) (Z.of_nat i) ++ plan_from (S i) (drop (S i) sizes)) =
            replicate (Z.to_nat (s - c)) (Z.of_nat i) ++
            take (k - Z.to_nat (s - c)) (plan_from (S i) (drop (S i) sizes))) as ->.
    { rewrite take_app_ge by (rewrite length_replicate; lia). by rewrite length_replicate. }
    rewrite drop_app_ge by (rewrite length_replicate; lia). rewrite length_replicate.
    destruct (i =? length sizes - 1) eqn:Ei; to_prop.
    + rewrite (drop_ge sizes (S i)) by lia. simpl. rewrite take_nil, app_nil_r.
      eexists; split; [done|]. unfold rest, seq_inv. simpl. unfold rest. simpl.
      by rewrite (drop_ge sizes (S i)), drop_nil by lia.
    + destruct (lookup_lt_is_Some_2 sizes (S i)) as [s' Hs']; [lia|].
      destruct (IH n (mkSeq (S i) 0 false) (ids ++ replicate (Z.to_nat (s - c)) (Z.of_nat i)))
        as (st' & -> & Hr & Hinv'); [|done|done| | |].
      { exists s'. split; [done|]. simpl. rewrite Forall_lookup in Hsizes.
        apply Hsizes in Hs'. unfold u64_range in Hs'. lia. }
      { rewrite length_app, length_replicate. lia. }
      { simpl. lia. }
      rewrite <- rest_plan_from in *. rewrite length_app, length_replicate in *.
      replace (Z.to_nat n - (length ids + Z.to_nat (s - c))) with (k - Z.to_nat (s - c)) in * by lia.
      exists st'. rewrite <- app_assoc. done.
Qed.

Lemma sequential_split_id_spec n st :
  seq_inv sizes st → exhausted st = false → (0 ≤ n < U64)%Z →
  ∃ st', sequential_split_id n sizes st = Ok (take (Z.to_nat n) (rest sizes st), st') ∧
    rest sizes st' = drop (Z.to_nat n) (rest sizes st) ∧ seq_inv sizes st'.
Proof using Hsizes.
  intros Hinv Hex Hn. unfold sequential_split_id.
  destruct (sequential_loop_spec (S (length sizes)) n st []) as (st' & -> & Hr & ?);
    [done|done|done|simpl; lia|lia|].
  simpl in *. rewrite Nat.sub_0_r in *. by exists st'.
Qed.
End sequential.

(** ** Streams of assigned batches *)

(** The first [length ids] rows of [b], with their split ids. *)
Definition with_ids (b : RecordBatch) (ids : list Z) : RecordBatch :=
  mkRB (rb_fields b ++ [split_id_field])
    ((take (length ids) <$> rb_columns b) ++ [CU64 <$> ids]) (length ids).

Section streams.
Context {prof : Profile} {K : ArrowKernels} {LK : ArrowLaws K}.
Context (sizes : list Z) (Hsizes : Forall u64_range sizes) (Hlen : (Z.of_nat (length sizes) ≤ U64)%Z).

Lemma plan_from_range i ss :
  (Z.of_nat (i + length ss) ≤ U64)%Z → Forall u64_range (plan_from i ss).
Proof using.
  clear sizes Hsizes Hlen.
  revert i. induction ss as [|s ss IH]; intros i Hi; [constructor|].
  simpl in *. apply Forall_app. split; [|apply IH; lia].
  apply Forall_replicate. unfold u64_range. lia.
Qed.

Lemma rest_range st : Forall u64_range (rest sizes st).
Proof using Hlen.
  unfold rest. destruct (drop (split_index st) sizes) as [|s ss] eqn:E; [constructor|].
  assert (split_index st + S (length ss) = length sizes) as Hl.
  { apply (f_equal length) in E. rewrite length_drop in E. simpl in E. lia. }
  apply Forall_app. split; [apply Forall_replicate; unfold u64_range; lia|].
  apply plan_from_range. lia.
Qed.

Lemma with_ids_wf b ids :
  rb_wf b → Forall u64_range ids → length ids ≤ rb_num_rows b → rb_wf (with_ids b ids).
Proof using.
  clear sizes Hsizes Hlen.
  intros Hb Hr Hl. unfold rb_wf, with_ids; simpl. apply Forall2_app.
  - apply Forall2_fmap_r. eapply Forall2_impl; [exact Hb|]. intros f c Hc.
    by eapply column_ok_slice.
  - constructor; [|constructor]. split; [by rewrite length_fmap|].
    apply Forall_fmap. eapply Forall_impl; [exact Hr|]. intros x Hx. by apply u64_in_range_spec.
Qed.

Lemma assign_batch_spec st b :
  rb_wf b → seq_inv sizes st → exhausted st = false → (Z.of_nat (rb_num_rows b) < U64)%Z →
  ∃ st', assign_batch (rb_fields b ++ [split_id_field]) sizes st b =
           Ok (with_ids b (take (rb_num_rows b) (rest sizes st)), st') ∧
    rest sizes st' = drop (rb_num_rows b) (rest sizes st) ∧ seq_inv sizes st'.
Proof using Hsizes Hlen LK.
  intros Hb Hinv Hex Hn. unfold assign_batch.
  destruct (sequential_split_id_spec sizes Hsizes (Z.of_nat (rb_num_rows b)) st)
    as (st' & -> & Hr & Hinv'); [done|done|lia|]. rewrite Nat2Z.id in *.
  run_ok. set (ids := take _ _).
  assert (length ids ≤ rb_num_rows b) as Hl by (subst ids; rewrite length_take; lia).
  assert ((if length ids <? rb_num_rows b
           then (λ arr, array_slice arr 0 (length ids)) <$> rb_columns b else rb_columns b) =
          take (length ids) <$> rb_columns b) as ->.
  { pose proof (rb_wf_lengths b Hb) as Hcols. rewrite Forall_lookup in Hcols.
    apply list_eq. intros j.
    destruct (Nat.ltb_spec (length ids) (rb_num_rows b)); rewrite !list_lookup_fmap;
      destruct (rb_columns b !! j) as [c|] eqn:Hc; simpl; try done; apply Hcols in Hc.
    - rewrite array_slice_ok by lia. by unfold slice_cells.
    - by rewrite take_ge by lia. }
  rewrite (try_new_columns (length ids)).
  - exists st'. done.
  - by destruct (take (length ids) <$> rb_columns b).
  - apply (with_ids_wf b ids); [done| |done]. apply Forall_take, rest_range.
Qed.

(** One more batch in front. *)
Lemma concat_with_ids fields b bs outs R :
  rb_wf b → rb_fields b = fields → batches_ok fields bs → Forall u64_range R →
  concat_rb (fields ++ [split_id_field]) outs =
    with_ids (concat_rb fields bs) (take (total_rows bs) (drop (rb_num_rows b) R)) →
  concat_rb (fields ++ [split_id_field]) (with_ids b (take (rb_num_rows b) R) :: outs) =
    with_ids (concat_rb fields (b :: bs)) (take (total_rows (b :: bs)) R).
Proof using.
  clear sizes Hsizes Hlen.
  intros Hb Hf Hbs HR Houts. pose proof Houts as Hn. apply (f_equal rb_num_rows) in Hn. simpl in Hn.
  rewrite concat_rb_cons; cycle 1.
  { apply with_ids_wf; [done|by apply Forall_take|rewrite length_take; lia]. }
  { simpl. by rewrite Hf. }
  rewrite Houts, (concat_rb_cons fields b bs) by done. rewrite Hn.
  change (total_rows (b :: bs)) with (rb_num_rows b + total_rows bs).
  unfold with_ids. cbn [rb_fields rb_columns rb_num_rows].
  rewrite <- (take_take_drop R (rb_num_rows b) (total_rows bs)).
  set (i1 := take (rb_num_rows b) R). set (i2 := take (total_rows bs) (drop (rb_num_rows b) R)).
  rewrite length_app. f_equal.
  rewrite zip_with_app; cycle 1.
  { rewrite !length_fmap. simpl. rewrite length_fmap, length_seq, <- Hf.
    symmetry. by apply (Forall2_length _ _ _ Hb). }
  simpl. rewrite fmap_app. f_equal.
  pose proof (rb_wf_lengths b Hb) as Hcols. rewrite Forall_lookup in Hcols.
  apply list_eq. intros j. rewrite lookup_zip_with, !list_lookup_fmap, lookup_zip_with.
  destruct (rb_columns b !! j) as [c|] eqn:Ec; simpl; [|done]. rewrite list_lookup_fmap.
  destruct (seq 0 (length fields) !! j); simpl; [|done]. f_equal.
  apply Hcols in Ec. destruct (decide (length i1 = length c)) as [E|E].
  - rewrite E. rewrite take_ge, take_app_add by lia. done.
  - assert (i2 = []) as ->.
    { subst i1 i2. rewrite length_take in E. rewrite (drop_ge R) by lia. apply take_nil. }
    simpl. rewrite Nat.add_0_r, take_0, app_nil_r.
    rewrite take_app_le; [done|]. subst i1. rewrite length_take. lia.
Qed.

Lemma concat_nil_with_ids fields b :
  rb_wf b → rb_fields b = fields → concat_rb (fields ++ [split_id_field]) [] = with_ids b [].
Proof using.
  clear sizes Hsizes Hlen. intros Hb <-. unfold concat_rb, with_ids. simpl. f_equal.
  pose proof (Forall2_length _ _ _ Hb) as Hl. rewrite length_app, Hl. simpl. clear Hl Hb.
  rewrite seq_app, fmap_app. f_equal.
  enough (∀ k, concat_column [] <$> seq k (length (rb_columns b)) = take 0 <$> rb_columns b) by done.
  induction (rb_columns b) as [|c cs IH]; intros k; [done|].
  simpl. f_equal. apply (IH (S k)).
Qed.

Lemma assign_stream_spec fields bs : ∀ st,
  batches_ok fields bs → seq_inv sizes st → (Z.of_nat (total_rows bs) < U64)%Z →
  ∃ outs, assign_stream (fields ++ [split_id_field]) sizes st (Ok <$> bs) = Ok <$> outs ∧
    batches_ok (fields ++ [split_id_field]) outs ∧
    concat_rb (fields ++ [split_id_field]) outs =
      with_ids (concat_rb fields bs) (take (total_rows bs) (rest sizes st)).
Proof using Hsizes Hlen LK.
  induction bs as [|b bs IH]; intros st Hbs Hinv Hn.
  { exists []. split; [done|]. split; [constructor|]. rewrite take_0.
    apply (concat_nil_with_ids fields); [wf|done]. }
  rewrite fmap_cons. cbn [assign_stream]. destruct (exhausted st) eqn:Ex.
  - unfold seq_inv in Hinv. rewrite Ex in Hinv.
    pose proof Hbs as [_ Hbs']%Forall_cons. unfold total_rows in Hn. simpl in Hn.
    destruct (IH st Hbs') as (outs & E & Hok & Hc); [unfold seq_inv; by rewrite Ex|unfold total_rows; lia|].
    exists outs. split_and!; [done..|]. rewrite Hc, Hinv, !take_nil.
    rewrite <- (concat_nil_with_ids fields (concat_rb fields bs)) by (done || wf).
    apply concat_nil_with_ids; [wf|done].
  - pose proof Hbs as [[Hb Hf] Hbs']%Forall_cons. unfold total_rows in Hn. simpl in Hn.
    destruct (assign_batch_spec st b Hb Hinv Ex) as (st' & E & Hr & Hinv'); [lia|].
    rewrite Hf in E. rewrite E.
    destruct (IH st' Hbs' Hinv') as (outs & -> & Hok & Hc); [unfold total_rows; lia|].
    exists (with_ids b (take (rb_num_rows b) (rest sizes st)) :: outs). split; [done|].
    rewrite Hr in Hc. split.
    + constructor; [|done]. split; [|simpl; by rewrite Hf].
      apply with_ids_wf; [done|apply Forall_take, rest_range|rewrite length_take; lia].
    + apply concat_with_ids; [done..|apply rest_range|done].
Qed.
End streams.

Section theorems.
Context {prof : Profile} {K : ArrowKernels} {LK : ArrowLaws K}.

(** What the machine representation and the correctness of the arithmetic ask
    of a configuration that passed validation. *)
Definition sizes_fit (sizes : SplitSizes) (n : Z) : Prop :=
  match sizes with
  | Percentages ps =>
      ps ≠ [] ∧ (Z.of_nat (length ps) ≤ U64)%Z ∧ (zsum (raw_counts ps n) < I63)%Z
  | Counts cs => cs ≠ [] ∧ Forall u64_range cs ∧ (zsum cs < U64)%Z
  | Fixed k => u64_range k
  end.

Definition counts_of (sizes : SplitSizes) (n : Z) (counts : list Z) : Prop :=
  match sizes with
  | Percentages ps =>
      zsum counts = (if is_basically_one ps n then n else Z.min n (zsum (raw_counts ps n))) ∧
      Forall2 (λ c raw, if (n <=? zsum (raw_counts ps n)) then c ≤ raw else raw ≤ c)%Z
        counts (raw_counts ps n)
  | Counts cs => counts = cs
  | Fixed k => counts = replicate (Z.to_nat k) (n / k)%Z
  end.

Lemma length_le_zsum l : Forall (λ x, 0 < x)%Z l → (Z.of_nat (length l) ≤ zsum l)%Z.
Proof. induction 1; simpl; lia. Qed.

Lemma raw_to_counts_ok sizes n :
  (0 ≤ n < I63)%Z → sizes_validate sizes n = Ok tt → sizes_fit sizes n →
  ∃ counts, (match sizes with
             | Percentages ps => percentage_counts ps n
             | Counts cs => Ok cs
             | Fixed k => r ← u64_div n k; Ok (replicate (Z.to_nat k) r)
             end) = Ok counts ∧
    counts_of sizes n counts ∧ counts ≠ [] ∧ Forall (λ c, 0 ≤ c)%Z counts ∧
    (zsum counts ≤ n)%Z ∧ (Z.of_nat (length counts) ≤ U64)%Z.
Proof.
  intros Hn Hv Hfit. assert (I63 < U64)%Z by done.
  destruct sizes as [ps|cs|k]; cbn [sizes_validate sizes_fit counts_of] in *.
  - destruct Hfit as (Hne & Hl & Hs).
    destruct (percentage_counts_ok ps n Hn Hne Hs) as (counts & -> & Hz & Hc).
    pose proof (Forall2_length _ _ _ Hc) as Hlen. unfold raw_counts in Hlen.
    rewrite length_fmap in Hlen. exists counts. split_and!; try done.
    + eapply Forall2_impl; [exact Hc|]. by intros ? ? [].
    + intros ->. by destruct ps.
    + eapply Forall2_Forall_l; [exact Hc|]. apply Forall_true. by intros ? ? [].
    + rewrite Hz. destruct (is_basically_one ps n); [done|apply Z.le_min_l].
    + lia.
  - destruct Hfit as (Hne & Hr & Hs). exists cs.
    assert (Forall (λ c, 0 ≤ c)%Z cs) as H0 by (eapply Forall_impl; [exact Hr|]; by intros ? []).
    rewrite u64_sum_ok in Hv by done. cbn [mbind outcome_bind] in Hv.
    destruct (n <? zsum cs)%Z eqn:E; [done|]. to_prop.
    destruct (bool_decide (0%Z ∈ cs)) eqn:E0; [done|]. apply bool_decide_eq_false in E0.
    assert (Forall (λ x, 0 < x)%Z cs) as Hp.
    { apply Forall_forall. intros x Hx. rewrite Forall_forall in H0. specialize (H0 x Hx). simpl in H0.
      destruct (decide (x = 0)%Z); [subst; done|lia]. }
    apply length_le_zsum in Hp. split_and!; done || lia.
  - destruct (n <? k)%Z eqn:E; [done|]. to_prop. unfold u64_div in *.
    destruct (k =? 0)%Z eqn:Ek; [done|]. to_prop. unfold u64_range in Hfit.
    eexists; split; [done|]. split_and!; [done|..].
    + destruct (Z.to_nat k) eqn:?; [lia|done].
    + apply Forall_replicate, Z.div_pos; lia.
    + rewrite zsum_replicate, Z2Nat.id by lia. apply Z.mul_div_le. lia.
    + rewrite length_replicate. lia.
Qed.

Lemma to_counts_ok sizes n :
  (0 ≤ n < I63)%Z → sizes_validate sizes n = Ok tt → sizes_fit sizes n →
  ∃ counts, to_counts sizes n = Ok counts ∧ counts_of sizes n counts ∧ counts ≠ [] ∧
    Forall (λ c, 0 ≤ c)%Z counts ∧ (zsum counts ≤ n)%Z ∧ (Z.of_nat (length counts) ≤ U64)%Z.
Proof.
  intros Hn Hv Hfit. assert (I63 < U64)%Z by done.
  destruct (raw_to_counts_ok sizes n Hn Hv Hfit) as (counts & E & Hc & Hne & H0 & Hz & Hl).
  exists counts. split_and!; try done. unfold to_counts. rewrite E. run_ok.
  rewrite u64_sum_ok by (done || lia). run_ok.
  by rewrite (proj2 (Z.leb_le _ _)).
Qed.

Lemma zsum_elem l x : Forall (λ c, 0 ≤ c)%Z l → x ∈ l → (x ≤ zsum l)%Z.
Proof.
  induction 1 as [|y l Hy Hl IH]; [by intros ?%elem_of_nil|].
  apply zsum_nonneg in Hl. intros [->|Hx%IH]%elem_of_cons; simpl; lia.
Qed.

Lemma apply_sequential_spec sizes n fields bs :
  (0 ≤ n < I63)%Z → sizes_validate sizes n = Ok tt → sizes_fit sizes n →
  batches_ok fields bs → (Z.of_nat (total_rows bs) < U64)%Z → SPLIT_ID_COLUMN ∉ f_name <$> fields →
  ∃ counts outs, to_counts sizes n = Ok counts ∧
    apply_sequential (mkStream fields (Ok <$> bs)) n sizes =
      Ok (mkStream (fields ++ [split_id_field]) (Ok <$> outs)) ∧
    batches_ok (fields ++ [split_id_field]) outs ∧
    concat_rb (fields ++ [split_id_field]) outs =
      with_ids (concat_rb fields bs) (take (total_rows bs) (plan counts)).
Proof using LK.
  intros Hn Hv Hfit Hbs Htot Hname. assert (I63 < U64)%Z by done.
  destruct (to_counts_ok sizes n Hn Hv Hfit) as (counts & E & _ & Hne & H0 & Hz & Hl).
  assert (Forall u64_range counts) as Hr.
  { apply Forall_forall. intros x Hx. pose proof (zsum_elem _ _ H0 Hx).
    rewrite Forall_forall in H0. specialize (H0 x Hx). unfold u64_range. lia. }
  destruct (assign_stream_spec counts Hr Hl fields bs (mkSeq 0 0 false)) as (outs & E' & Hok & Hc);
    [done| |done|].
  { destruct counts as [|c counts]; [done|]. exists c. split; [done|].
    apply Forall_cons in H0 as [? _]. simpl. lia. }
  exists counts, outs. unfold apply_sequential. rewrite E. run_ok.
  rewrite schema_with_column_ok by done. run_ok.
  split_and!; [done| |done|].
  - by rewrite <- E'.
  - rewrite Hc. f_equal. by rewrite <- rest_plan_from, drop_0.
Qed.
End theorems.

(** ** Hash bands *)

(** The split whose share of the weights contains [r], counting from zero;
    past all the weights the row is discarded. *)
Fixpoint band (weights : list Z) (r : Z) : option Z :=
  match weights with
  | [] => None
  | w :: weights' => if (r <? w)%Z then Some 0%Z else Z.succ <$> band weights' (r - w)
  end.

Fixpoint cums (offset : Z) (weights : list Z) : list Z :=
  match weights with
  | [] => []
  | w :: weights' => (offset + w)%Z :: cums (offset + w) weights'
  end.

(** [p] separates the thresholds up to [h] from those above it. *)
Definition cut (l : list Z) (h : Z) (p : nat) : Prop :=
  p ≤ length l ∧ (∀ j x, l !! j = Some x → (j < p → (x ≤ h)%Z) ∧ (p ≤ j → (h < x)%Z)).

Definition increasing (l : list Z) : Prop :=
  ∀ i j x y, i < j → l !! i = Some x → l !! j = Some y → (x < y)%Z.

Lemma bisect_spec l h fuel : ∀ base size,
  increasing l → 1 ≤ size → size ≤ fuel → base + size ≤ length l →
  (∀ j x, l !! j = Some x → base + size ≤ j → (h < x)%Z) →
  (base = 0 ∨ (nth base l 0 ≤ h)%Z) →
  let r := bisect fuel l h base size in
  r < length l ∧ (∀ j x, l !! j = Some x → r < j → (h < x)%Z) ∧ (r = 0 ∨ (nth r l 0 ≤ h)%Z).
Proof.
  induction fuel as [|fuel IH]; intros base size Hinc Hs Hf Hle Hhi Hlo; [lia|].
  cbn [bisect]. destruct (Nat.ltb_spec 1 size) as [Hgt|Hle1].
  - pose proof (Nat.div_lt size 2 ltac:(lia) ltac:(lia)).
    pose proof (Nat.Div0.mul_div_le size 2).
    assert (1 ≤ size / 2) by (apply Nat.div_le_lower_bound; lia).
    destruct (h <? nth (base + size / 2) l 0)%Z eqn:E; to_prop.
    + apply IH; try done; try lia. intros j x Hj Hjb.
      assert (base + size / 2 < length l) as Hmid by lia.
      destruct (decide (j = base + size / 2)) as [->|].
      * by rewrite (nth_lookup_Some _ _ _ _ Hj) in E.
      * destruct (lookup_lt_is_Some_2 _ _ Hmid) as [y Hy].
        rewrite (nth_lookup_Some _ _ _ _ Hy) in E.
        destruct (decide (base + size / 2 < j)); [|lia].
        pose proof (Hinc _ _ _ _ l0 Hy Hj). lia.
    + apply IH; try done; try lia. intros j x Hj Hjb. apply (Hhi j); [done|lia].
  - split_and!; [lia| |done]. intros j x Hj Hjb. apply (Hhi j); [done|lia].
Qed.

Lemma binary_search_cut l h :
  increasing l → cut l h (match binary_search l h with inl i => S i | inr i => i end).
Proof.
  intros Hinc. unfold binary_search. destruct l as [|x0 l0] eqn:El.
  { split; [done|]. intros j x Hj. by rewrite lookup_nil in Hj. }
  rewrite <- El in *. assert (1 ≤ length l) by (subst; simpl; lia).
  destruct (bisect_spec l h (length l) 0 (length l)) as (Hr & Hhi & Hlo);
    [done|done|done|lia| |by left|].
  { intros j x Hj. apply lookup_lt_Some in Hj. lia. }
  set (r := bisect (length l) l h 0 (length l)) in *.
  destruct (lookup_lt_is_Some_2 _ _ Hr) as [x Hx]. rewrite (nth_lookup_Some _ _ _ _ Hx) in *.
  assert ((x ≤ h)%Z → cut l h (S r)) as Hup.
  { intros Hxh. split; [lia|]. intros j y Hj. split; [|intros; by apply (Hhi j)].
    intros Hjr. destruct (decide (j = r)) as [->|]; [simplify_eq; lia|].
    pose proof (Hinc j r y x ltac:(lia) Hj Hx). lia. }
  destruct (x =? h)%Z eqn:E1; [|destruct (x <? h)%Z eqn:E2]; to_prop; [apply Hup; lia..|].
  destruct Hlo as [H0|]; [|lia]. rewrite H0 in *. split; [lia|]. intros j y Hj. split; [lia|].
  intros _. destruct (decide (j = 0)) as [->|]; [simplify_eq; lia|]. apply (Hhi j); [done|lia].
Qed.

Lemma cums_lookup offset ws j x :
  Forall (λ w, 0 < w)%Z ws → cums offset ws !! j = Some x → (offset < x)%Z.
Proof.
  intros Hw. revert offset j. induction Hw as [|w ws Hw _ IH]; intros o [|j] Hj; simplify_eq/=; [lia|].
  apply IH in Hj. lia.
Qed.

Lemma cums_increasing offset ws : Forall (λ w, 0 < w)%Z ws → increasing (cums offset ws).
Proof.
  intros Hw. revert offset. induction Hw as [|w ws Hw Hws IH]; intros o i j x y Hij Hi Hj.
  { done. }
  destruct i as [|i], j as [|j]; simplify_eq/=; try lia.
  - by apply cums_lookup in Hj.
  - apply (IH (o + w)%Z i j); [lia|done|done].
Qed.

Lemma length_cums offset ws : length (cums offset ws) = length ws.
Proof. revert offset. induction ws; intros; simpl; auto. Qed.

(** The cut of the thresholds is the band. *)
Lemma cut_band ws : ∀ offset r p,
  cut (cums offset ws) r p →
  band ws (r - offset) = if p =? length ws then None else Some (Z.of_nat p).
Proof.
  induction ws as [|w ws IH]; intros o r p [Hp Hcut]; simpl in *; [by replace p with 0 by lia|].
  pose proof (Hcut 0 (o + w)%Z eq_refl) as H0. destruct p as [|p].
  - rewrite (proj2 (Z.ltb_lt _ _)) by lia. done.
  - rewrite (proj2 (Z.ltb_ge _ _)) by lia. replace (r - o - w)%Z with (r - (o + w))%Z by lia.
    rewrite (IH (o + w)%Z r p).
    + simpl. destruct (p =? length ws); [done|]. simpl. f_equal. lia.
    + split; [lia|]. intros j x Hj. specialize (Hcut (S j) x Hj). split; intros; apply Hcut; lia.
Qed.

(** What a band is: the weights before it and up to it enclose [r]. *)
Lemma band_spec ws : Forall (λ w, 0 < w)%Z ws → ∀ r i,
  (0 ≤ r)%Z →
  band ws r = Some (Z.of_nat i) ↔
  i < length ws ∧ (zsum (take i ws) ≤ r < zsum (take (S i) ws))%Z.
Proof.
  induction 1 as [|w ws Hw Hws IH]; intros r i Hr; simpl.
  { split; [done|intros []; lia]. }
  destruct (r <? w)%Z eqn:E; to_prop.
  - split.
    + intros [= H]. replace i with 0 by lia. simpl. lia.
    + intros [Hi Hz]. destruct i as [|i]; [done|]. simpl in Hz.
      pose proof (zsum_nonneg (take i ws)) as Hn. exfalso.
      assert (0 ≤ zsum (take i ws))%Z; [|lia]. apply Hn, Forall_take.
      eapply Forall_impl; [exact Hws|]. simpl. lia.
  - rewrite fmap_Some. split.
    + intros (k & Hk & Hi). destruct i as [|i].
      { exfalso. clear -Hk Hi. revert r k Hk Hi. assert (∀ ws r k, band ws r = Some k → (0 ≤ k)%Z) as Hb.
        { clear. induction ws as [|w ws IH]; intros r k Hk; simpl in Hk; [done|].
          destruct (r <? w)%Z; simplify_eq; [lia|].
          apply fmap_Some in Hk as (k' & Hk' & ->). apply IH in Hk'. lia. }
        intros r k Hk Hi. apply Hb in Hk. lia. }
      replace k with (Z.of_nat i) in Hk by lia. apply IH in Hk; [|lia]. simpl in *. lia.
    + intros [Hi Hz]. destruct i as [|i]; [simpl in Hz; rewrite ?firstn_O in Hz; simpl in Hz; lia|].
      exists (Z.of_nat i). split; [|lia]. apply IH; [lia|]. simpl in Hz. lia.
Qed.

Lemma thresholds_from_ok {prof : Profile} offset ws :
  (0 ≤ offset)%Z → Forall (λ w, 0 < w)%Z ws → (offset + zsum ws < U64)%Z →
  thresholds_from offset ws = Ok (cums offset ws).
Proof.
  intros Ho Hw. revert offset Ho. induction Hw as [|w ws Hw Hws IH]; intros o Ho Hs; [done|].
  simpl in *. assert (0 ≤ zsum ws)%Z.
  { apply zsum_nonneg. eapply Forall_impl; [exact Hws|]. simpl. lia. }
  unfold u64_add. rewrite u64_arith_ok by (unfold u64_range; lia). run_ok.
  by rewrite IH by lia.
Qed.

(** The rows a batch keeps, with their splits. *)
Definition kept_rows (row_ids : column) (tags : list (option Z)) : list (cell * Z) :=
  omap (λ p : cell * option Z, (p.1,.) <$> p.2) (zip row_ids tags).

Definition hashed_batch (row_id_field : Field) (weights : list Z) (total : Z)
    (row_ids : column) (hashes : list Z) : RecordBatch :=
  let kept := kept_rows row_ids ((λ h, band weights (h mod total)%Z) <$> hashes) in
  mkRB [row_id_field; split_id_field] [fst <$> kept; CU64 ∘ snd <$> kept] (length kept).

Lemma filter_kept rows tags :
  length rows = length tags →
  filter_cells rows (valid <$> tags) = fst <$> kept_rows rows tags ∧
  filter_cells (opt_cell <$> tags) (valid <$> tags) = CU64 ∘ snd <$> kept_rows rows tags.
Proof.
  revert rows. induction tags as [|[t|] tags IH]; intros [|r rows] Hl; try done;
    destruct (IH rows ltac:(simpl in Hl; lia)) as [H1 H2].
  - split; simpl; f_equal; [exact H1|exact H2].
  - split; [exact H1|exact H2].
Qed.

Lemma filter_all {A} (l : list A) mask :
  length l = length mask → existsb negb mask = false → filter_cells l mask = l.
Proof.
  revert l. induction mask as [|b mask IH]; intros [|x l] Hl Hm; try done.
  simpl in *. apply orb_false_iff in Hm as [Hb Hm]. destruct b; [|done].
  f_equal. apply IH; [lia|done].
Qed.

Section hash.
Context {prof : Profile} {K : ArrowKernels} {LK : ArrowLaws K} {H : Hasher} {LH : HasherLaws H}.
Context (weights : list Z) (Hw : Forall (λ w, 0 < w)%Z weights).
Context (total : Z) (Htot : (0 < total)%Z) (Hlen : (Z.of_nat (length weights) < U64)%Z).

Lemma split_of_hash_ok h :
  split_of_hash (cums 0 weights) total h = Ok (band weights (h mod total)%Z).
Proof using Hw Htot.
  unfold split_of_hash, u64_rem. rewrite (proj2 (Z.eqb_neq total 0)) by lia.
  run_ok. f_equal.
  pose proof (binary_search_cut (cums 0 weights) (h mod total) (cums_increasing 0 weights Hw)) as Hc.
  apply cut_band in Hc. rewrite Z.sub_0_r in Hc. by rewrite Hc, length_cums.
Qed.

Lemma band_range r i : band weights r = Some i → u64_range i.
Proof using Hlen.
  assert (∀ ws r i, band ws r = Some i → (0 ≤ i < Z.of_nat (length ws))%Z) as Hb.
  { clear. induction ws as [|w ws IH]; intros r i Hi; simpl in *; [done|].
    destruct (r <? w)%Z; simplify_eq; [lia|]. apply fmap_Some in Hi as (k & Hk & ->).
    apply IH in Hk. lia. }
  intros Hi%Hb. unfold u64_range. lia.
Qed.

Lemma kept_ok f row_ids tags :
  column_ok (length tags) f row_ids →
  Forall (λ t, ∀ i, t = Some i → u64_range i) tags →
  Forall2 (column_ok (length (kept_rows row_ids tags))) [f; split_id_field]
    [fst <$> kept_rows row_ids tags; CU64 ∘ snd <$> kept_rows row_ids tags].
Proof using.
  intros [Hl Hc] Ht.
  assert (Forall (λ p, cell_ok f p.1 = true ∧ u64_range p.2) (kept_rows row_ids tags)) as Hk.
  { apply Forall_forall. intros [c i] Hin. unfold kept_rows in Hin.
    apply list_elem_of_omap in Hin as ([c' t] & Hin & Hci). simpl in Hci.
    apply fmap_Some in Hci as (i' & -> & [= -> ->]).
    rewrite Forall_forall in Hc. rewrite Forall_forall in Ht. split.
    - by apply Hc, (elem_of_zip_l _ _ _ _ Hin).
    - by apply (Ht (Some i')), eq_refl; apply (elem_of_zip_r _ _ _ _ Hin). }
  repeat constructor; rewrite ?length_fmap; try done; apply Forall_fmap;
    (eapply Forall_impl; [exact Hk|]); intros [c i] [? ?]; simpl; [done|].
  by apply u64_in_range_spec.
Qed.

Lemma hash_batch_ok b pre f :
  rb_wf b → rb_fields b = pre ++ [f] → (Z.of_nat (length (rb_columns b)) < U64)%Z →
  ∃ hashes row_ids,
    create_hashes (take (length pre) (rb_columns b)) (replicate (rb_num_rows b) 0%Z) = Ok hashes ∧
    rb_columns b !! length pre = Some row_ids ∧
    hash_batch [f; split_id_field] (length pre) (cums 0 weights) total b =
      Ok (hashed_batch f weights total row_ids hashes).
Proof using Hw Htot Hlen LK LH.
  intros Hb Hf Hn. pose proof (Forall2_length _ _ _ Hb) as Hl. rewrite Hf, length_app in Hl. simpl in Hl.
  destruct (create_hashes_ok (take (length pre) (rb_columns b)) (replicate (rb_num_rows b) 0%Z))
    as (hs & Ehs & Hlh & Hrange).
  { apply Forall_take. rewrite length_replicate. by apply rb_wf_lengths. }
  rewrite length_replicate in Hlh.
  destruct (lookup_lt_is_Some_2 (rb_columns b) (length pre)) as [rows Hrows]; [lia|].
  exists hs, rows. split_and!; [done..|].
  assert (column_ok (rb_num_rows b) f rows) as Hcol.
  { eapply Forall2_lookup_lr in Hb; [exact Hb| |exact Hrows]. rewrite Hf. by apply list_lookup_middle. }
  unfold hash_batch, hash_split_id, u64_sub.
  rewrite (u64_arith_ok (_ - 1)) by (unfold u64_range; lia). run_ok.
  replace (Z.to_nat (Z.of_nat (length (rb_columns b)) - 1)) with (length pre) by lia.
  rewrite Ehs. set (tags := (λ h, band weights (h mod total)%Z) <$> hs).
  assert (try_map (split_of_hash (cums 0 weights) total) hs = Ok tags) as ->.
  { apply try_map_Ok. apply Forall2_fmap_r, Forall_Forall2_diag, Forall_true.
    intros h. apply split_of_hash_ok. }
  run_ok. rewrite Hrows. cbn [unwrap mbind outcome_bind].
  assert (length tags = rb_num_rows b) as Hlt by (subst tags; by rewrite length_fmap).
  destruct Hcol as [Hlr Hcol].
  destruct (filter_kept rows tags) as [F1 F2]; [congruence|].
  assert (try_new [f; split_id_field] [fst <$> kept_rows rows tags; CU64 ∘ snd <$> kept_rows rows tags] =
          Ok (hashed_batch f weights total rows hs)) as Hnew.
  { apply try_new_columns; [done|]. apply (kept_ok f rows tags); [split; [congruence|done]|].
    subst tags. apply Forall_fmap, Forall_true. intros h i. apply band_range. }
  destruct (existsb negb (valid <$> tags)) eqn:E.
  - rewrite !array_filter_ok by (rewrite !length_fmap; congruence). by rewrite F1, F2, Hnew.
  - rewrite (filter_all rows) in F1 by (done || (rewrite ?length_fmap; congruence)).
    rewrite (filter_all (opt_cell <$> tags)) in F2 by (done || (rewrite ?length_fmap; congruence)).
    rewrite <- F1, <- F2 in Hnew. by rewrite Hnew.
Qed.
End hash.

(** ** Theorems *)

(** C7: row counts.  A validated configuration gives row counts that fit the
    table and the loops that correct rounding errors stop: percentages that
    add up to one hand out every row, others hand out the rounded shares
    unless these exceed the table, and the correction only lowers (or only
    raises) shares; absolute counts are kept and a fixed number of splits gets
    equal counts, rounded down. *)
Theorem to_counts_total {prof : Profile} sizes n :
  (0 ≤ n < I63)%Z → sizes_validate sizes n = Ok tt → sizes_fit sizes n →
  ∃ counts, to_counts sizes n = Ok counts ∧ counts_of sizes n counts ∧
    Forall (λ c, 0 ≤ c)%Z counts ∧ (zsum counts ≤ n)%Z.
Proof.
  intros Hn Hv Hf. destruct (to_counts_ok sizes n Hn Hv Hf) as (cs & ? & ? & _ & ? & ? & _).
  by exists cs.
Qed.

(** Thirds of 100 rows: 33 + 33 + 33, and one row more for the first. *)
Definition thirds : list F64.t := replicate 3 (F64.of_decimal 3333 4).

Lemma to_counts_total_witness :
  ∃ counts, to_counts (prof := true) (Percentages thirds) 100 = Ok counts ∧
    counts_of (Percentages thirds) 100 counts ∧ Forall (λ c, 0 ≤ c)%Z counts ∧ (zsum counts ≤ 100)%Z.
Proof.
  apply (@to_counts_total true (Percentages thirds) 100); [by vm_compute|by vm_compute|].
  split; [done|]. split; [by vm_compute|]. by vm_compute.
Defined.

(** C3: sequential splits.  The assignment runs batch by batch with shared
    counters, yet the concatenated result does not depend on where the batches
    are cut: the rows keep their order, the first [counts !! 0] rows get split
    0, the next [counts !! 1] split 1 and so on, and the rows after the last
    split are left out. *)
Theorem sequential_split_plan {prof : Profile} {K : ArrowKernels} {LK : ArrowLaws K} {R : Rng}
    {L : LanceFile} {H : Hasher} fs dir sizes n fields bs :
  (0 ≤ n < I63)%Z → sizes_validate sizes n = Ok tt → sizes_fit sizes n →
  batches_ok fields bs → (Z.of_nat (total_rows bs) < U64)%Z → SPLIT_ID_COLUMN ∉ f_name <$> fields →
  ∃ counts outs, to_counts sizes n = Ok counts ∧
    apply fs dir (Sequential sizes) (mkStream fields (Ok <$> bs)) n =
      Ok (mkStream (fields ++ [split_id_field]) (Ok <$> outs)) ∧
    batches_ok (fields ++ [split_id_field]) outs ∧
    concat_rb (fields ++ [split_id_field]) outs =
      with_ids (concat_rb fields bs) (take (total_rows bs) (plan counts)).
Proof.
  intros Hn Hv Hf Hbs Ht Hname. unfold apply. cbn [strategy_validate]. rewrite Hv.
  run_ok. by apply apply_sequential_spec.
Qed.

(** A hash function that satisfies the law: the first column's value. *)
Definition first_hash : Hasher := {|
  create_hashes cols buf :=
    Ok match cols with
       | c :: _ => (λ x, match x with CU64 z => z mod U64 | _ => 0 end)%Z <$> c
       | [] => replicate (length buf) 0%Z
       end
|}.

Lemma first_hash_laws : HasherLaws first_hash.
Proof.
  constructor. intros [|c cols] buf Hc; simpl; (eexists; split; [done|]).
  - rewrite length_replicate. split; [done|]. by apply Forall_replicate.
  - apply Forall_cons in Hc as [Hc _]. rewrite length_fmap. split; [done|].
    apply Forall_fmap, Forall_true. intros []; try done. by apply Z.mod_pos_bound.
Qed.

Lemma sequential_split_plan_witness :
  let bs := [id_batch 0 4; id_batch 4 4] in
  ∃ counts outs, to_counts (prof := true) (Counts [3; 4]%Z) 8 = Ok counts ∧
    apply (prof := true) (R := rev_rng) (L := mem_files) (H := first_hash) (λ _, true) OsDefault
      (Sequential (Counts [3; 4]%Z)) (mkStream [id_field] (Ok <$> bs)) 8 =
      Ok (mkStream ([id_field] ++ [split_id_field]) (Ok <$> outs)) ∧
    batches_ok ([id_field] ++ [split_id_field]) outs ∧
    concat_rb ([id_field] ++ [split_id_field]) outs =
      with_ids (concat_rb [id_field] bs) (take (total_rows bs) (plan counts)).
Proof.
  intros bs.
  apply (@sequential_split_plan true ref_kernels ref_laws rev_rng mem_files first_hash (λ _, true)
           OsDefault (Counts [3; 4]%Z) 8 [id_field] bs); [done|done| | |done|].
  - split; [done|]. split; [|done]. apply (bool_decide_unpack _). by vm_compute.
  - repeat constructor.
  - rewrite fmap_cons, list_elem_of_singleton. done.
Defined.

Lemma take_plan {prof : Profile} counts n :
  Forall (λ c, 0 ≤ c)%Z counts → (zsum counts ≤ Z.of_nat n)%Z → take n (plan counts) = plan counts.
Proof.
  intros H0 Hz. apply take_ge. pose proof (length_plan_from 0 counts H0). unfold plan. lia.
Qed.

Lemma apply_random_spec {prof : Profile} {K : ArrowKernels} {LK : ArrowLaws K} {R : Rng}
    {LR : RngLaws R} {L : LanceFile} {LL : LanceFileLaws L} {H : Hasher}
    fs dir seed sizes clump fields bs :
  let n := Z.of_nat (total_rows bs) in let c := default 1%Z clump in
  (n < I63)%Z → sizes_validate sizes n = Ok tt → sizes_fit sizes n →
  batches_ok fields bs → SPLIT_ID_COLUMN ∉ f_name <$> fields → (0 < c)%Z →
  ((10 * 1024 * 1024 ≤ n)%Z → create_temp_dir fs dir = Ok tt ∧ clump_aligned c bs) →
  ∃ counts order outs, to_counts sizes n = Ok counts ∧
    apply fs dir (Random seed sizes clump) (mkStream fields (Ok <$> bs)) n =
      Ok (mkStream (fields ++ [split_id_field]) (Ok <$> outs)) ∧
    batches_ok (fields ++ [split_id_field]) outs ∧
    order ≡ₚ clumps n c ∧
    concat_rb (fields ++ [split_id_field]) outs =
      with_ids (take_rb (concat_rb fields bs) (mjoin order)) (plan counts).
Proof.
  intros n c Hn Hv Hf Hbs Hname Hc Hfile. assert (I63 < U64)%Z by done.
  unfold apply. cbn [strategy_validate]. rewrite Hv. run_ok.
  destruct (shuffle_spec fs (mkConfig seed (10 * 1024 * 1024) dir clump) fields bs)
    as (out & E & Hs & idxs & order & Hit & Hio & Hop & Hperm); [done|done|lia|done|done|].
  fold n in E. rewrite E. run_ok. destruct out as [sch items]; simpl in Hs, Hit; subst.
  pose proof (concat_rb_wf fields bs Hbs) as Hall.
  assert (Forall (in_bounds (total_rows bs)) idxs) as Hin.
  { unfold in_bounds. rewrite <- Forall_mjoin, Hperm. apply Forall_forall.
    intros x. by rewrite elem_of_u64_seq. }
  assert (batches_ok fields (take_rb (concat_rb fields bs) <$> idxs)) as Hok.
  { apply Forall_fmap. eapply Forall_impl; [exact Hin|]. intros idx Hi. split; [|done].
    wf. }
  pose proof (concat_rb_take (concat_rb fields bs) idxs Hall) as Hcat. simpl in Hcat.
  assert (total_rows (take_rb (concat_rb fields bs) <$> idxs) = total_rows bs) as Htot.
  { apply (f_equal rb_num_rows) in Hcat. simpl in Hcat. rewrite Hcat, Hperm, u64_seq_length. lia. }
  destruct (apply_sequential_spec sizes n fields (take_rb (concat_rb fields bs) <$> idxs))
    as (counts & outs & Ec & Ea & Hbo & Ho); try done; [lia|lia|].
  destruct (to_counts_ok sizes n ltac:(lia) Hv Hf) as (cs & Ecs & _ & _ & Hnn & Hz & _).
  assert (counts = cs) as -> by congruence. exists cs, order, outs. split_and!; try done.
  rewrite Ho, Hcat, Htot, <- Hio. f_equal. by apply take_plan.
Qed.

(** random splits.  A random split permutes the clumps of the table and
    then hands out splits in order: every row occurs at most once, split [i]
    gets exactly [counts !! i] rows and the result is ordered by split id. *)
Theorem random_split_plan {prof : Profile} {K : ArrowKernels} {LK : ArrowLaws K} {R : Rng}
    {LR : RngLaws R} {L : LanceFile} {LL : LanceFileLaws L} {H : Hasher}
    fs dir seed sizes clump fields bs :
  let n := Z.of_nat (total_rows bs) in let c := default 1%Z clump in
  (n < I63)%Z → sizes_validate sizes n = Ok tt → sizes_fit sizes n →
  batches_ok fields bs → SPLIT_ID_COLUMN ∉ f_name <$> fields → (0 < c)%Z →
  ((10 * 1024 * 1024 ≤ n)%Z → create_temp_dir fs dir = Ok tt ∧ clump_aligned c bs) →
  ∃ counts order outs, to_counts sizes n = Ok counts ∧
    apply fs dir (Random seed sizes clump) (mkStream fields (Ok <$> bs)) n =
      Ok (mkStream (fields ++ [split_id_field]) (Ok <$> outs)) ∧
    batches_ok (fields ++ [split_id_field]) outs ∧
    order ≡ₚ clumps n c ∧
    concat_rb (fields ++ [split_id_field]) outs =
      with_ids (take_rb (concat_rb fields bs) (mjoin order)) (plan counts).
Proof. apply apply_random_spec. Qed.

Lemma random_split_plan_witness :
  let bs := [id_batch 0 4; id_batch 4 4] in
  ∃ counts order outs, to_counts (prof := true) (Counts [3; 4]%Z) 8 = Ok counts ∧
    apply (prof := true) (R := rev_rng) (L := mem_files) (H := first_hash) (λ _, true) OsDefault
      (Random (Some 1%Z) (Counts [3; 4]%Z) None) (mkStream [id_field] (Ok <$> bs)) 8 =
      Ok (mkStream ([id_field] ++ [split_id_field]) (Ok <$> outs)) ∧
    batches_ok ([id_field] ++ [split_id_field]) outs ∧ order ≡ₚ clumps 8 1 ∧
    concat_rb ([id_field] ++ [split_id_field]) outs =
      with_ids (take_rb (concat_rb [id_field] bs) (mjoin order)) (plan counts).
Proof.
  intros bs.
  apply (@random_split_plan true ref_kernels ref_laws rev_rng rev_rng_laws mem_files mem_files_laws
           first_hash (λ _, true) OsDefault (Some 1%Z) (Counts [3; 4]%Z) None [id_field] bs);
    [done|done| | | |done|done].
  - split; [done|]. split; [|done]. apply (bool_decide_unpack _). by vm_compute.
  - repeat constructor.
  - rewrite fmap_cons, list_elem_of_singleton. done.
Defined.

(** splits by hash.  Every row whose hash falls, modulo the total weight,
    into the share of split [i] goes to split [i] and the rows that fall into
    the discard share are dropped, so a row's split depends on its hash only;
    the output holds the row id (the last column) and the split id, in row
    order. *)
Theorem hash_split_bands {prof : Profile} {K : ArrowKernels} {LK : ArrowLaws K} {R : Rng}
    {L : LanceFile} {H : Hasher} {LH : HasherLaws H} fs dir columns weights discard pre f bs n :
  let total := (zsum weights + discard)%Z in
  strategy_validate (Hash columns weights discard) n = Ok tt →
  Forall u64_range weights → (0 ≤ discard)%Z → (total < U64)%Z →
  (Z.of_nat (length weights) < U64)%Z → (Z.of_nat (length (pre ++ [f])) < U64)%Z →
  batches_ok (pre ++ [f]) bs →
  (∃ outs,
    apply fs dir (Hash columns weights discard) (mkStream (pre ++ [f]) (Ok <$> bs)) n =
      Ok (mkStream [f; split_id_field] (Ok <$> outs)) ∧
    Forall2 (λ b out, ∃ hashes row_ids,
      create_hashes (take (length pre) (rb_columns b)) (replicate (rb_num_rows b) 0%Z) = Ok hashes ∧
      rb_columns b !! length pre = Some row_ids ∧
      out = hashed_batch f weights total row_ids hashes) bs outs) ∧
  (∀ r i, (0 ≤ r)%Z → band weights r = Some (Z.of_nat i) ↔
     i < length weights ∧ (zsum (take i weights) ≤ r < zsum (take (S i) weights))%Z).
Proof.
  intros total Hv Hr Hd Ht Hlw Hlf Hbs.
  assert (weights ≠ [] ∧ Forall (λ w, 0 < w)%Z weights) as [Hne Hw].
  { simpl in Hv. destruct columns; [done|]. destruct weights as [|w ws] eqn:Ew; [done|].
    rewrite <- Ew in *. split; [by subst|].
    destruct (bool_decide (0%Z ∈ weights)) eqn:E0; [subst; done|]. apply bool_decide_eq_false in E0.
    apply Forall_forall. intros x Hx. rewrite Forall_forall in Hr. specialize (Hr x Hx).
    unfold u64_range in Hr. destruct (decide (x = 0%Z)); [by subst|lia]. }
  split; [|by apply band_spec].
  assert (0 ≤ zsum weights)%Z as Hz0.
  { apply zsum_nonneg. eapply Forall_impl; [exact Hw|]. simpl. lia. }
  assert (0 < total)%Z as Htot.
  { pose proof (length_le_zsum weights Hw). destruct weights; [done|]. simpl in *. lia. }
  unfold apply. rewrite Hv. run_ok. unfold apply_hash. cbn [st_schema st_items].
  rewrite length_app in *. simpl length in *. unfold u64_sub.
  rewrite (u64_arith_ok (_ - 1)) by (unfold u64_range; lia). run_ok.
  replace (Z.to_nat (Z.of_nat (length pre + 1) - 1)) with (length pre) by lia.
  rewrite list_lookup_middle by done. cbn [unwrap mbind outcome_bind].
  rewrite u64_sum_ok; [|eapply Forall_impl; [exact Hw|]; simpl; lia|lia].
  run_ok. unfold u64_add.
  rewrite (u64_arith_ok (_ + discard)) by (unfold u64_range; lia). run_ok.
  rewrite thresholds_from_ok by (done || lia). run_ok. fold total.
  induction Hbs as [|b bs [Hb Hf] _ IH]; [by exists []|].
  destruct IH as (outs & IHe & IH2). injection IHe as IHe.
  pose proof (Forall2_length _ _ _ Hb) as Hl. rewrite Hf, length_app in Hl. simpl in Hl.
  destruct (hash_batch_ok weights Hw total Htot Hlw b pre f Hb Hf) as (hs & rows & Eh & Er & Eb); [lia|].
  exists (hashed_batch f weights total rows hs :: outs). split; [|constructor; [eauto|done]].
  rewrite !fmap_cons. cbn [map_ok]. rewrite Eb. by rewrite IHe.
Qed.

(** Two columns, of which the second holds the row ids. *)
Definition id_rows : RecordBatch :=
  mkRB [id_field; id_field] [CU64 <$> [0; 5; 3; 6]%Z; CU64 <$> [10; 11; 12; 13]%Z] 4.

Lemma hash_split_bands_witness :
  (∃ outs,
    apply (prof := true) (R := rev_rng) (L := mem_files) (H := first_hash) (λ _, true) OsDefault
      (Hash [ "id" ] [1; 2]%Z 1) (mkStream ([id_field] ++ [id_field]) (Ok <$> [id_rows])) 4 =
      Ok (mkStream [id_field; split_id_field] (Ok <$> outs)) ∧
    Forall2 (λ b out, ∃ hashes row_ids,
      create_hashes (Hasher := first_hash) (take 1 (rb_columns b)) (replicate (rb_num_rows b) 0%Z) =
        Ok hashes ∧
      rb_columns b !! 1 = Some row_ids ∧
      out = hashed_batch id_field [1; 2]%Z 4 row_ids hashes) [id_rows] outs) ∧
  (∀ r i, (0 ≤ r)%Z → band [1; 2]%Z r = Some (Z.of_nat i) ↔
     i < 2 ∧ (zsum (take i [1; 2]%Z) ≤ r < zsum (take (S i) [1; 2]%Z))%Z).
Proof.
  apply (@hash_split_bands true ref_kernels ref_laws rev_rng mem_files first_hash first_hash_laws
           (λ _, true) OsDefault [ "id" ] [1; 2]%Z 1 [id_field] id_field [id_rows] 4);
    [done| |done|done|done|done|].
  - apply (bool_decide_unpack _). by vm_compute.
  - repeat constructor.
Defined.

(** The rows with hashes 0, 5 and 6 are kept, in splits 0, 1 and 1. *)
Example hash_example :
  hashed_batch id_field [1; 2]%Z 4 (CU64 <$> [10; 11; 12; 13]%Z) [0; 5; 3; 6]%Z =
  mkRB [id_field; split_id_field] [CU64 <$> [10; 11; 13]%Z; CU64 <$> [0; 1; 1]%Z] 3.
Proof. reflexivity. Qed.

Example thirds_example : to_counts (prof := true) (Percentages thirds) 100 = Ok [34; 33; 33]%Z.
Proof. vm_compute. reflexivity. Qed.

(** Configurations that pass no check and panic: no splits at all, and a
    fixed number of zero splits, by which [validate] divides. *)
Example no_splits_panic :
  sizes_validate (prof := true) (Counts []) 4 = Ok tt ∧
  assign_stream (prof := true) [id_field; split_id_field] [] (mkSeq 0 0 false) [Ok (id_batch 0 4)] = [Panic] ∧
  sizes_validate (prof := true) (Fixed 0) 4 = Panic.
Proof. done. Qed.

End Split.
