(* ===== verification/PermReader.v ===== *)
(** * Reading a permutation (rust/lancedb/src/dataloader/permutation/reader.rs)

    A [PermutationReader] shows the rows of a base table in the order a
    permutation table gives for one split, restricted by an offset and a
    limit.  Tables are reached through the class [BaseTable]; [TableLaws] says
    what the reader relies on. *)

From S2P Require Import Prelude.
From stdpp Require Import pretty.
From S2P Require Import RustStr Floats Arrow Shuffle Split.
Import Shuffle Split.

Module PermReader.

(** ** Queries and tables *)
Definition SRC_ROW_ID_COL : string := "row_id".
Definition BASE_VERSION_CONFIG_KEY : string := "base_version".
Definition BASE_BRANCH_CONFIG_KEY : string := "base_branch".
Definition MAIN_BRANCH : string := "main".

(** query.rs [QueryFilter]: the two kinds the reader builds, an SQL string and
    the expression [column IN (values)]. *)
Inductive QueryFilter : Type :=
  | Sql (filter : string)
  | InList (column : string) (values : list Z).

(** The fields of query.rs [QueryRequest] the reader sets; the others have
    their defaults. *)
Record QueryRequest (E : Type) : Type := mkQuery {
  q_select : Select E;
  q_filter : option QueryFilter;
  q_with_row_id : bool;
  q_offset : option Z;
  q_limit : option Z
}.
Arguments mkQuery {E} _ _ _ _ _.
Arguments q_select {E} _.
Arguments q_filter {E} _.
Arguments q_with_row_id {E} _.
Arguments q_offset {E} _.
Arguments q_limit {E} _.

(** query.rs [QueryExecutionOptions] *)
Record QueryExecutionOptions : Type := mkOptions {
  max_batch_length : Z;
  timeout : option Z
}.
Definition default_options : QueryExecutionOptions := mkOptions 1024 None.

(** The operations of table.rs [BaseTable] the reader calls. *)
Class BaseTable (T E : Type) : Type := {
  bt_schema : T → result (list Field * gmap string string);
  bt_count_rows : T → option string → result Z;
  bt_query : T → QueryRequest E → QueryExecutionOptions → result Stream;
  bt_checkout_branch_version : T → string → option Z → result T;
  bt_take_offsets : T → list Z → Select E → result Stream;
  bt_output_schema : T → Select E → result (list Field)
}.

(** ** The reader *)
Section Reader.
Context {prof : Profile} {K : ArrowKernels} {T E : Type} {BT : BaseTable T E} {D : DropColumn}.

(** The value of a null slot, which [values()] exposes. *)
Context (null_slot : Z).

Record PermutationReader : Type := mkReader {
  base_table : T;
  permutation_table : option T;
  offset : option Z;
  limit : option Z;
  available_rows : Z;
  split : Z;
  offset_map : option (gmap Z Z)
}.

Definition pin_base_table (base perm : T) : result T :=
  schema ← bt_schema perm;
  match (snd schema : gmap string string) !! BASE_VERSION_CONFIG_KEY with
  | None => Ok base
  | Some raw =>
      version ← ok_or (InvalidInput "Permutation table has an unreadable {} of {:?}: {}") (parse_u64 raw);
      let branch := default MAIN_BRANCH ((snd schema : gmap string string) !! BASE_BRANCH_CONFIG_KEY) in
      bt_checkout_branch_version base branch (Some version)
  end.

Definition validate_limit_offset (limit offset : option Z) (available_rows : Z) : result Z :=
  match limit, offset with
  | Some limit, Some offset =>
      total ← u64_add offset limit;
      if (available_rows <? total)%Z
      then Err (InvalidInput "Offset + limit is greater than the number of rows in the permutation table")
      else Ok limit
  | None, Some offset =>
      if (available_rows <? offset)%Z
      then Err (InvalidInput "Offset is greater than the number of rows in the permutation table")
      else u64_sub available_rows offset
  | Some limit, None =>
      if (available_rows <? limit)%Z
      then Err (InvalidInput "Limit is greater than the number of rows in the permutation table")
      else Ok limit
  | None, None => Ok available_rows
  end.

(** [format!("{} = {}", SPLIT_ID_COLUMN, self.split)] *)
Definition split_filter (split : Z) : string := SPLIT_ID_COLUMN +:+ " = " +:+ pretty (Z.to_N split).

Definition verify_limit_offset (r : PermutationReader) (limit offset : option Z) : result Z :=
  available ← (match permutation_table r with
               | Some perm => bt_count_rows perm (Some (split_filter (split r)))
               | None => bt_count_rows (base_table r) None
               end);
  validate_limit_offset limit offset available.

Definition has_column (fields : list Field) (name : string) : bool :=
  bool_decide (name ∈ f_name <$> fields).

Definition validate (r : PermutationReader) : result unit :=
  _ ← (match permutation_table r with
       | Some perm =>
           schema ← bt_schema perm;
           if negb (has_column (fst schema) SRC_ROW_ID_COL)
           then Err (InvalidInput "Permutation table must contain a column named row_id")
           else if negb (has_column (fst schema) SPLIT_ID_COLUMN)
           then Err (InvalidInput "Permutation table must contain a column named split_id")
           else Ok tt
       | None => Ok tt
       end);
  avail_rows ← bt_count_rows (default (base_table r) (permutation_table r)) None;
  _ ← validate_limit_offset (limit r) (offset r) avail_rows;
  Ok tt.

Definition inner_new (base : T) (perm : option T) (split : Z) : result PermutationReader :=
  base' ← (match perm with Some p => pin_base_table base p | None => Ok base end);
  let slf := mkReader base' perm None None 0 split None in
  _ ← validate slf;
  available ← verify_limit_offset slf None None;
  if (available =? 0)%Z
  then Err (InvalidInput "No rows found in the permutation table for the given split")
  else Ok (mkReader base' perm None None available split None).

Definition with_offset (r : PermutationReader) (off : Z) : result PermutationReader :=
  available ← verify_limit_offset r (limit r) (Some off);
  Ok (mkReader (base_table r) (permutation_table r) (Some off) (limit r) available (split r) None).

Definition with_limit (r : PermutationReader) (lim : Z) : result PermutationReader :=
  available ← verify_limit_offset r (Some lim) (offset r);
  Ok (mkReader (base_table r) (permutation_table r) (offset r) (Some lim) available (split r) None).

Fixpoint is_sorted_from (expected : Z) (idx : list Z) : bool :=
  match idx with
  | [] => true
  | i :: idx' => (i =? expected)%Z && is_sorted_from (expected + 1) idx'
  end.
Definition is_sorted_already (idx : list Z) : bool := is_sorted_from 0 idx.

(** The loop over the columns of a dynamic projection. *)
Fixpoint dynamic_has_row_id (columns : list (string * string)) : result bool :=
  match columns with
  | [] => Ok false
  | (name, value) :: columns' =>
      if bool_decide (name = ROW_ID) then
        if bool_decide (value = ROW_ID) then Ok true
        else Err (InvalidInput "Dynamic column {} cannot be used to select _rowid")
      else dynamic_has_row_id columns'
  end.

Definition has_row_id (selection : Select E) : result bool :=
  match selection with
  | SelectAll => Ok false
  | Columns columns => Ok (bool_decide (ROW_ID ∈ columns))
  | Dynamic columns => dynamic_has_row_id columns
  | SelectExpr columns => Ok (bool_decide (ROW_ID ∈ fst <$> columns))
  end.

(** [as_primitive_opt::<UInt64Type>().expect_ok()?.values()] *)
Definition u64_values (f : Field) (c : column) : result (list Z) :=
  if bool_decide (f_type f = UInt64)
  then Ok ((λ x, match x with CU64 z => z | _ => null_slot end) <$> c)
  else Err (Lance "Expected option to have value").

(** The first occurrence of each id, through a [HashSet]. *)
Fixpoint unique_from (seen : list Z) (ids : list Z) : list Z :=
  match ids with
  | [] => []
  | i :: ids' =>
      if bool_decide (i ∈ seen) then unique_from seen ids'
      else i :: unique_from (i :: seen) ids'
  end.
Definition unique (ids : list Z) : list Z := unique_from [] ids.

(** [iter().enumerate().map(|(i, o)| (o, i)).collect::<HashMap>()]: a later
    entry replaces an earlier one. *)
Definition ordering_of (ids : list Z) : gmap Z Z :=
  foldl (λ m p, <[p.2 := Z.of_nat p.1]> m) ∅ (imap pair ids).

(** [map.get(o).copied().expect_ok()] *)
Definition get_ok (m : gmap Z Z) (o : Z) : result Z :=
  ok_or (Lance "Expected option to have value") (m !! o).

Definition load_batch (base : T) (row_ids : RecordBatch) (selection : Select E) : result RecordBatch :=
  keep_row_id ← has_row_id selection;
  c0 ← unwrap (zip (rb_fields row_ids) (rb_columns row_ids) !! 0);
  row_ids ← u64_values (fst c0) (snd c0);
  let in_list := unique row_ids in
  let num_unique_row_ids := length in_list in
  data ← bt_query base (mkQuery selection (Some (InList ROW_ID in_list)) true None None)
           (mkOptions (Z.of_nat num_unique_row_ids mod 2 ^ 32) None);
  batches ← try_collect (st_items data);
  if length batches =? 0 then Err (InvalidInput "Base table returned no batches")
  else if negb (total_rows batches =? num_unique_row_ids)
  then Err (InvalidInput "Base table returned a different number of rows than the number of unique row IDs")
  else
    batch ← (match batches with
             | [b] => Ok b
             | _ => concat_batches (st_schema data) batches
             end);
    c ← ok_or (Lance "Expected option to have value") (column_by_name batch ROW_ID);
    actual_row_ids ← u64_values (fst c) (snd c);
    let ordering := ordering_of actual_row_ids in
    desired_idx_order ← try_map (get_ok ordering) row_ids;
    ordered_batch ← (if is_sorted_already desired_idx_order then Ok batch
                     else take_record_batch batch desired_idx_order);
    if (keep_row_id : bool) then Ok ordered_batch else drop_column ordered_batch ROW_ID.

Definition row_ids_to_batches (base : T) (row_ids : Stream) (selection : Select E) : result Stream :=
  match map_ok (λ b, load_batch base b selection) (st_items row_ids) with
  | [] => Err (InvalidInput "Permutation was empty")
  | Err e :: _ => Err e
  | Panic :: _ => Panic
  | Ok first_batch :: rest => Ok (mkStream (rb_fields first_batch) (Ok first_batch :: rest))
  end.

(** The query for the row ids of the view, in order. *)
Definition row_id_request (r : PermutationReader) : QueryRequest E :=
  match permutation_table r with
  | Some _ => mkQuery (Columns [SRC_ROW_ID_COL]) (Some (Sql (split_filter (split r)))) false
                (offset r) (limit r)
  | None => mkQuery (Columns [ROW_ID]) None false (offset r) (limit r)
  end.

Definition read (r : PermutationReader) (selection : Select E) (options : QueryExecutionOptions)
    : result Stream :=
  row_ids ← bt_query (default (base_table r) (permutation_table r)) (row_id_request r) options;
  row_ids_to_batches (base_table r) row_ids selection.

(** The insertion loop of [get_offset_map]. *)
Fixpoint collect_offsets (items : list (result RecordBatch)) (idx_offset : Z) (m : gmap Z Z)
    : result (gmap Z Z) :=
  match items with
  | [] => Ok m
  | item :: items' =>
      batch ← item;
      c0 ← unwrap (zip (rb_fields batch) (rb_columns batch) !! 0);
      row_ids ← (match u64_values (fst c0) (snd c0) with Ok v => Ok v | _ => Panic end);
      next ← u64_add idx_offset (Z.of_nat (rb_num_rows batch));
      collect_offsets items' next
        (foldl (λ m p, <[(Z.of_nat p.1 + idx_offset)%Z := p.2]> m) m (imap pair row_ids))
  end.

(** Find or create the cached map. *)
Definition get_offset_map (r : PermutationReader) (perm : T) : result (gmap Z Z * PermutationReader) :=
  match offset_map r with
  | Some m => Ok (m, r)
  | None =>
      row_ids ← bt_query perm
        (mkQuery (Columns [SRC_ROW_ID_COL]) (Some (Sql (split_filter (split r)))) false
           (offset r) (limit r)) default_options;
      m ← collect_offsets (st_items row_ids) 0 ∅;
      Ok (m, mkReader (base_table r) (permutation_table r) (offset r) (limit r)
               (available_rows r) (split r) (Some m))
  end.

Definition row_id_field : Field := mkField "row_id" UInt64 false ∅.

Definition take_offsets (r : PermutationReader) (offsets : list Z) (selection : Select E)
    : result (RecordBatch * PermutationReader) :=
  match offsets with
  | [] =>
      fields ← bt_output_schema (base_table r) selection;
      Ok (mkRB fields (replicate (length fields) []) 0, r)
  | _ =>
      match permutation_table r with
      | Some perm =>
          '(m, r') ← get_offset_map r perm;
          row_ids ← try_map (get_ok m) offsets;
          row_ids ← try_new [row_id_field] [CU64 <$> row_ids];
          batch ← load_batch (base_table r) row_ids selection;
          Ok (batch, r')
      | None =>
          data ← bt_take_offsets (base_table r) offsets selection;
          batches ← try_collect (st_items data);
          match batches with
          | first_batch :: _ =>
              batch ← concat_batches (rb_fields first_batch) batches;
              Ok (batch, r)
          | [] =>
              fields ← bt_output_schema (base_table r) selection;
              batch ← try_new fields [];
              Ok (batch, r)
          end
      end
  end.

Definition count_rows (r : PermutationReader) : Z := available_rows r.
End Reader.

(** ** What the reader relies on *)

(** A table as data source: [snapshot t sel] holds its rows in storage order,
    the columns of [sel] and the row ids, for the selections the table can
    evaluate.  A query by row ids finds each row once, in any order. *)
Class SourceLaws {T E} (BT : BaseTable T E) : Type := {
  selectable : T → Select E → Prop;
  snapshot : T → Select E → RecordBatch;
  table_ids : T → list Z;
  table_ids_range t : Forall u64_range (table_ids t);
  table_ids_NoDup t : NoDup (table_ids t);
  snapshot_wf t sel : selectable t sel → rb_wf (snapshot t sel);
  snapshot_rows t sel : selectable t sel → rb_num_rows (snapshot t sel) = length (table_ids t);
  snapshot_row_id t sel : selectable t sel →
    ∃ j f, rb_fields (snapshot t sel) !! j = Some f ∧
      rb_columns (snapshot t sel) !! j = Some (CU64 <$> table_ids t) ∧
      f_name f = ROW_ID ∧ f_type f = UInt64 ∧
      (∀ k g, k < j → rb_fields (snapshot t sel) !! k = Some g → f_name g ≠ ROW_ID);
  snapshot_other t sel : selectable t sel →
    Exists (λ f, f_name f ≠ ROW_ID) (rb_fields (snapshot t sel));
  query_by_id t sel ids options : selectable t sel →
    ∃ bs p, bt_query t (mkQuery sel (Some (InList ROW_ID ids)) true None None) options =
              Ok (mkStream (rb_fields (snapshot t sel)) (Ok <$> bs)) ∧
      batches_ok (rb_fields (snapshot t sel)) bs ∧
      concat_rb (rb_fields (snapshot t sel)) bs = take_rb (snapshot t sel) p ∧
      NoDup p ∧
      (∀ i, i ∈ p ↔ (0 ≤ i)%Z ∧ ∃ x, table_ids t !! Z.to_nat i = Some x ∧ x ∈ ids)
}.

(** [OFFSET] and [LIMIT] of a query. *)
Definition slice {A} (offset limit : option Z) (l : list A) : list A :=
  let l' := drop (Z.to_nat (default 0%Z offset)) l in
  match limit with Some n => take (Z.to_nat n) l' | None => l' end.

(** Batches of one column of ids, none of them empty. *)
Definition id_batches (f : Field) (ids : list Z) (bs : list RecordBatch) : Prop :=
  batches_ok [f] bs ∧ f_type f = UInt64 ∧ Forall (λ b, 0 < rb_num_rows b) bs ∧
  concat_column bs 0 = CU64 <$> ids.

(** A permutation table, and the base table read in storage order. *)
Class ViewLaws {T E} (BT : BaseTable T E) (SL : SourceLaws BT) : Type := {
  perm_rows : T → list (Z * Z);
  split_rows t s := fst <$> filter (λ p, p.2 = s) (perm_rows t);
  perm_count t s : u64_range s →
    bt_count_rows t (Some (split_filter s)) = Ok (Z.of_nat (length (split_rows t s)));
  perm_query t s off lim options : u64_range s →
    ∃ f bs, bt_query t (mkQuery (Columns [SRC_ROW_ID_COL]) (Some (Sql (split_filter s))) false off lim)
              options = Ok (mkStream [f] (Ok <$> bs)) ∧ id_batches f (slice off lim (split_rows t s)) bs;
  base_count t : bt_count_rows t None = Ok (Z.of_nat (length (table_ids t)));
  base_query t off lim options :
    ∃ f bs, bt_query t (mkQuery (Columns [ROW_ID]) None false off lim) options =
              Ok (mkStream [f] (Ok <$> bs)) ∧ id_batches f (slice off lim (table_ids t)) bs;
  base_take t offsets sel keep : selectable t sel → has_row_id sel = Ok keep →
    offsets ≠ [] → in_bounds (length (table_ids t)) offsets →
    let snap := if keep then snapshot t sel else drop_named (snapshot t sel) ROW_ID in
    ∃ bs, bt_take_offsets t offsets sel = Ok (mkStream (rb_fields snap) (Ok <$> bs)) ∧
      bs ≠ [] ∧ batches_ok (rb_fields snap) bs ∧
      concat_rb (rb_fields snap) bs = take_rb snap offsets;
  (* row counts are [usize]s *)
  perm_rows_bound t : (Z.of_nat (length (perm_rows t)) < U64)%Z;
  table_ids_bound t : (Z.of_nat (length (table_ids t)) < U64)%Z
}.

(** ** Restoring the order of the rows *)
Lemma imap_snoc {A B} (g : nat → A → B) (l : list A) (x : A) :
  imap g (l ++ [x]) = imap g l ++ [g (length l) x].
Proof. rewrite imap_app. simpl. by rewrite Nat.add_0_r. Qed.

Lemma ordering_of_lookup ids i r :
  NoDup ids → ids !! i = Some r → ordering_of ids !! r = Some (Z.of_nat i).
Proof.
  unfold ordering_of. induction ids as [|x ids IH] using rev_ind; intros Hnd Hi; [done|].
  rewrite imap_snoc, foldl_snoc. simpl.
  apply NoDup_app in Hnd as (Hnd & Hx & _).
  destruct (decide (i = length ids)) as [->|Hne].
  - rewrite list_lookup_middle in Hi by done. simplify_eq. by rewrite lookup_insert_eq.
  - assert (ids !! i = Some r) as Hi'.
    { rewrite lookup_app_l in Hi; [done|]. apply lookup_lt_Some in Hi.
      rewrite length_app in Hi. simpl in Hi. lia. }
    rewrite lookup_insert_ne; [by apply IH|]. intros ->.
    apply (Hx r); [by eapply list_elem_of_lookup_2|by apply list_elem_of_singleton].
Qed.

Lemma elem_of_unique_from seen ids x :
  x ∈ unique_from seen ids ↔ x ∈ ids ∧ x ∉ seen.
Proof.
  revert seen. induction ids as [|i ids IH]; intros seen; simpl; [by rewrite !elem_of_nil; naive_solver|].
  case_bool_decide.
  - rewrite IH, elem_of_cons. naive_solver.
  - rewrite !elem_of_cons, IH, not_elem_of_cons. destruct (decide (x = i)); naive_solver.
Qed.

Lemma NoDup_unique_from seen ids : NoDup (unique_from seen ids).
Proof.
  revert seen. induction ids as [|i ids IH]; intros seen; simpl; [constructor|].
  case_bool_decide; [done|]. constructor; [|done]. rewrite elem_of_unique_from. set_solver.
Qed.

Lemma unique_NoDup_from seen ids :
  NoDup ids → (∀ x, x ∈ ids → x ∉ seen) → unique_from seen ids = ids.
Proof.
  intros Hnd. revert seen. induction Hnd as [|i ids Hi _ IH]; intros seen Hs; [done|].
  simpl. rewrite bool_decide_eq_false_2 by set_solver. f_equal. apply IH. set_solver.
Qed.

Lemma is_sorted_from_spec k idx :
  is_sorted_from k idx = true → idx = u64_seq k (k + Z.of_nat (length idx)).
Proof.
  revert k. induction idx as [|i idx IH]; intros k; simpl.
  - intros _. by rewrite u64_seq_nil by lia.
  - intros [Hi%Z.eqb_eq Hs%IH]%andb_true_iff. subst i. rewrite u64_seq_cons by lia. f_equal.
    rewrite Hs at 1. f_equal. lia.
Qed.

Lemma NoDup_take_cells {A} (l : list A) p :
  NoDup l → NoDup p → in_bounds (length l) p → NoDup (take_cells l p).
Proof.
  intros Hl Hp Hb. apply NoDup_alt. intros i j x Hi Hj.
  rewrite take_cells_lookup in Hi, Hj by done.
  apply bind_Some in Hi as (a & Ha & Hxa). apply bind_Some in Hj as (b & Hb' & Hxb).
  pose proof (NoDup_lookup _ _ _ _ Hl Hxa Hxb) as Hab.
  unfold in_bounds in Hb. rewrite Forall_lookup in Hb.
  pose proof (Hb _ _ Ha). pose proof (Hb _ _ Hb').
  assert (a = b) as -> by lia. by eapply NoDup_lookup.
Qed.

(** Looking requested ids up in the order of arrival [p] finds the requested
    positions [idx]. *)
Lemma desired_order ids p idx :
  NoDup ids → NoDup p → in_bounds (length ids) p → in_bounds (length ids) idx →
  (∀ i, i ∈ idx → i ∈ p) →
  ∃ desired,
    try_map (get_ok (ordering_of (take_cells ids p))) (take_cells ids idx) = Ok desired ∧
    in_bounds (length p) desired ∧ take_cells p desired = idx.
Proof.
  intros Hids Hp Hpb Hib Hin. pose proof (NoDup_take_cells ids p Hids Hp Hpb) as Hnd.
  induction Hib as [|i idx Hi _ IH]; [exists []; repeat split; constructor|].
  destruct IH as (desired & E & Hd & Ht); [intros; apply Hin, elem_of_cons; by right|].
  destruct (list_elem_of_lookup_1 p i) as [k Hk]; [apply Hin, elem_of_cons; by left|].
  destruct (lookup_lt_is_Some_2 ids (Z.to_nat i)) as [x Hx]; [lia|].
  assert (ordering_of (take_cells ids p) !! x = Some (Z.of_nat k)) as Hox.
  { apply ordering_of_lookup; [done|]. rewrite take_cells_lookup by done. by rewrite Hk. }
  exists (Z.of_nat k :: desired). rewrite (take_cells_cons _ _ _ _ Hx). cbn [try_map].
  rewrite E. unfold get_ok. rewrite Hox. cbn [ok_or mbind outcome_bind]. split; [done|].
  rewrite (take_cells_cons p (Z.of_nat k) desired i) by (by rewrite Nat2Z.id).
  split; [|by f_equal]. constructor; [|done]. apply lookup_lt_Some in Hk. lia.
Qed.

(** The requested ids and the rows that were found have the same number. *)
Lemma length_found ids p idx :
  NoDup ids → NoDup p → in_bounds (length ids) p → in_bounds (length ids) idx →
  (∀ i, i ∈ p ↔ i ∈ idx) → length p = length (unique (take_cells ids idx)).
Proof.
  intros Hids Hp Hpb Hib Hin. rewrite <- (length_take_cells ids p) by done.
  apply Permutation_length, NoDup_Permutation;
    [by apply NoDup_take_cells|apply NoDup_unique_from|].
  intros x. unfold unique. rewrite elem_of_unique_from. unfold take_cells.
  rewrite !list_elem_of_omap. setoid_rewrite Hin. set_solver.
Qed.

(** The rows found are those at the requested positions. *)
Lemma found_positions (ids p idx : list Z) :
  NoDup ids → in_bounds (length ids) idx →
  (∀ i, i ∈ p ↔ (0 ≤ i)%Z ∧ ∃ x, ids !! Z.to_nat i = Some x ∧ x ∈ unique (take_cells ids idx)) →
  ∀ i, i ∈ p ↔ i ∈ idx.
Proof.
  intros Hids Hidx Hin i. rewrite Hin. unfold in_bounds in Hidx. rewrite Forall_forall in Hidx. split.
  - intros (Hi & x & Hx & Hu). unfold unique in Hu. apply elem_of_unique_from in Hu as [Hu _].
    unfold take_cells in Hu. apply list_elem_of_omap in Hu as (i' & Hi' & Hx').
    pose proof (NoDup_lookup _ _ _ _ Hids Hx Hx'). pose proof (Hidx i' Hi').
    replace i with i' by lia. done.
  - intros Hi. pose proof (Hidx i Hi) as Hb'. split; [lia|].
    destruct (lookup_lt_is_Some_2 ids (Z.to_nat i)) as [x Hx]; [lia|]. exists x. split; [done|].
    unfold unique. rewrite elem_of_unique_from. split; [|by apply not_elem_of_nil].
    unfold take_cells. apply list_elem_of_omap. by exists i.
Qed.

(** The fast path: an ascending order is the order of arrival. *)
Lemma sorted_is_arrival (ids p idx desired : list Z) :
  NoDup ids → NoDup p → in_bounds (length ids) p → in_bounds (length ids) idx →
  (∀ i, i ∈ p ↔ i ∈ idx) → in_bounds (length p) desired → take_cells p desired = idx →
  is_sorted_already desired = true → p = idx.
Proof.
  intros Hids Hp Hpb Hib Hin Hd Ht Hs. apply is_sorted_from_spec in Hs.
  rewrite Z.add_0_l, u64_seq_nat in Hs.
  assert (length desired = length p) as Hl.
  { assert (NoDup idx) as Hnd.
    { rewrite <- Ht. apply NoDup_take_cells; [done| |done]. rewrite Hs.
      apply (NoDup_fmap_2 _), NoDup_seq. }
    rewrite (length_found ids p idx) by done. unfold unique.
    rewrite unique_NoDup_from; [|by apply NoDup_take_cells|set_solver].
    rewrite length_take_cells, <- Ht, length_take_cells by done. done. }
  rewrite <- Ht, Hs, Hl. symmetry. apply take_cells_seq.
Qed.

Section theorems.
Context {prof : Profile} {K : ArrowKernels} {LK : ArrowLaws K} {T E : Type} {BT : BaseTable T E}.
Context {D : DropColumn} {LD : DropColumnLaws D} {SL : SourceLaws BT} (null_slot : Z).

Definition project (keep : bool) (b : RecordBatch) : RecordBatch :=
  if keep then b else drop_named b ROW_ID.

Lemma u64_values_ok f vs : f_type f = UInt64 → u64_values null_slot f (CU64 <$> vs) = Ok vs.
Proof.
  intros Hf. unfold u64_values. rewrite bool_decide_eq_true_2 by done. f_equal.
  induction vs as [|v vs IH]; [done|]. simpl. by f_equal.
Qed.

Lemma column_by_row_id t sel p :
  selectable t sel → in_bounds (length (table_ids t)) p →
  ∃ f, column_by_name (take_rb (snapshot t sel) p) ROW_ID =
         Some (f, CU64 <$> take_cells (table_ids t) p) ∧ f_type f = UInt64.
Proof using.
  intros Hs Hp. destruct (snapshot_row_id t sel Hs) as (j & f & Hf & Hc & Hn & Ht & Hfirst).
  exists f. split; [|done]. unfold column_by_name. rewrite fmap_Some.
  exists (j, (f, CU64 <$> take_cells (table_ids t) p)). split; [|done].
  rewrite list_find_Some. split_and!; [|done|].
  - rewrite lookup_zip_with. simpl. rewrite Hf. simpl. rewrite list_lookup_fmap, Hc. simpl.
    by rewrite take_cells_fmap.
  - intros k [g c] Hk Hkj. rewrite lookup_zip_with in Hk. simpl in Hk.
    apply bind_Some in Hk as (g' & Hg & Hk). apply bind_Some in Hk as (c' & _ & [= <- <-]).
    by eapply Hfirst.
Qed.

(** One batch of row ids gives the rows of the base table, in its order and
    with repetitions. *)
Lemma load_batch_ok t sel keep b f idx :
  selectable t sel → has_row_id sel = Ok keep →
  zip (rb_fields b) (rb_columns b) !! 0 = Some (f, CU64 <$> take_cells (table_ids t) idx) →
  f_type f = UInt64 → idx ≠ [] → in_bounds (length (table_ids t)) idx →
  load_batch null_slot t b sel = Ok (project keep (take_rb (snapshot t sel) idx)).
Proof using LK LD.
  intros Hs Hk Hb Hf Hne Hidx. set (ids := table_ids t) in *. set (snap := snapshot t sel).
  pose proof (table_ids_NoDup t : NoDup ids) as Hids.
  pose proof (snapshot_wf t sel Hs : rb_wf snap) as Hwf.
  pose proof (snapshot_rows t sel Hs : rb_num_rows snap = length ids) as Hrows.
  unfold load_batch. rewrite Hk. run_ok. rewrite Hb. cbn [unwrap mbind outcome_bind fst snd].
  rewrite u64_values_ok by done. run_ok.
  destruct (query_by_id t sel (unique (take_cells ids idx))
              (mkOptions (Z.of_nat (length (unique (take_cells ids idx))) mod 2 ^ 32) None) Hs)
    as (bs & p & -> & Hbs & Hcat & Hp & Hin).
  fold snap in Hbs, Hcat |- *.
  cbn [mbind outcome_bind st_items st_schema]. rewrite try_collect_Ok. run_ok.
  assert (in_bounds (length ids) p) as Hpb.
  { apply Forall_forall. intros i (? & x & Hx & _)%Hin. apply lookup_lt_Some in Hx. fold ids in Hx. lia. }
  pose proof (found_positions ids p idx Hids Hidx Hin) as Hpi.
  pose proof (length_found ids p idx Hids Hp Hpb Hidx Hpi) as Hlen.
  assert (total_rows bs = length p) as Htot by (apply (f_equal rb_num_rows) in Hcat; done).
  assert (length p ≠ 0) as Hp0.
  { destruct idx as [|i idx]; [done|]. intros H0%length_zero_iff_nil. subst p.
    apply (elem_of_nil i), Hpi, elem_of_cons. by left. }
  rewrite (proj2 (Nat.eqb_neq (length bs) 0)) by (intros ->%length_zero_iff_nil; simpl in Htot; lia).
  rewrite (proj2 (Nat.eqb_eq (total_rows bs) _)) by lia. simpl negb. cbv iota.
  assert (match bs with [b0] => Ok b0 | _ => concat_batches (rb_fields snap) bs end =
          Ok (take_rb snap p)) as ->.
  { destruct bs as [|b1 [|b2 bs]]; rewrite <- Hcat; try by apply concat_batches_ok.
    apply Forall_cons in Hbs as [[? ?] _]. by rewrite concat_rb_singleton. }
  run_ok. destruct (column_by_row_id t sel p Hs Hpb) as (g & Hg & Hgt).
  fold snap ids in Hg. rewrite Hg. cbn [ok_or mbind outcome_bind fst snd]. rewrite u64_values_ok by done. run_ok.
  destruct (desired_order ids p idx Hids Hp Hpb Hidx) as (desired & Hd & Hdb & Hdt); [by intros; apply Hpi|].
  rewrite Hd. run_ok.
  assert (rb_wf (take_rb snap p)) as Hwp by (apply take_rb_wf; [done|by rewrite Hrows]).
  assert ((if is_sorted_already desired then Ok (take_rb snap p)
           else take_record_batch (take_rb snap p) desired) = Ok (take_rb snap idx)) as ->.
  { destruct (is_sorted_already desired) eqn:Es.
    - by rewrite (sorted_is_arrival ids p idx desired).
    - rewrite take_record_batch_ok by done. rewrite take_rb_compose by (done || by rewrite Hrows).
      by rewrite Hdt. }
  run_ok. destruct keep; [done|]. apply drop_column_ok.
  - apply take_rb_wf; [done|by rewrite Hrows].
  - by apply snapshot_other.
Qed.

(** ** Projection commutes with reordering *)
Lemma project_take keep b idx : project keep (take_rb b idx) = take_rb (project keep b) idx.
Proof using. destruct keep; [done|]. apply drop_named_take. Qed.

Lemma project_wf keep b : rb_wf b → rb_wf (project keep b).
Proof using. destruct keep; wf. Qed.

(** ** The view of a reader *)
Context {VL : ViewLaws BT SL}.

Definition rows_of (r : PermutationReader) : list Z :=
  match permutation_table r with
  | Some perm => split_rows perm (split r)
  | None => table_ids (base_table r)
  end.

Definition view (r : PermutationReader) : list Z := slice (offset r) (limit r) (rows_of r).

(** The reader counts its view, and a cached map is the map of its view. *)
Definition reader_ok (r : PermutationReader) : Prop :=
  available_rows r = Z.of_nat (length (view r)) ∧
  (∀ m, offset_map r = Some m → ∀ k, (0 ≤ k)%Z → m !! k = view r !! Z.to_nat k).

Lemma row_id_query r options :
  u64_range (split r) →
  ∃ f bs, bt_query (default (base_table r) (permutation_table r)) (row_id_request r) options =
            Ok (mkStream [f] (Ok <$> bs)) ∧ id_batches f (view r) bs.
Proof using.
  intros Hs. unfold row_id_request, view, rows_of. destruct (permutation_table r) as [perm|]; simpl.
  - by apply perm_query.
  - apply base_query.
Qed.

Lemma id_batch_cons f b bs ids :
  id_batches f ids (b :: bs) →
  rb_num_rows b ≤ length ids ∧
  zip (rb_fields b) (rb_columns b) !! 0 = Some (f, CU64 <$> take (rb_num_rows b) ids) ∧
  id_batches f (drop (rb_num_rows b) ids) bs.
Proof using.
  intros (Hbs & Ht & Hne & Hc). apply Forall_cons in Hbs as [[Hb Hf] Hbs].
  apply Forall_cons in Hne as [Hn Hne].
  pose proof (Forall2_length _ _ _ Hb) as Hl. rewrite Hf in Hl.
  destruct (rb_columns b) as [|c [|c' cs]] eqn:Ec; try done. clear Hl.
  assert (length c = rb_num_rows b) as Hlc by (apply (rb_wf_column b 0); [done|by rewrite Ec]).
  unfold concat_column in Hc. rewrite fmap_cons, mjoin_cons, Ec in Hc. simpl in Hc.
  pose proof Hc as Hlen. apply (f_equal length) in Hlen. rewrite length_app, length_fmap in Hlen.
  assert (take (rb_num_rows b) (CU64 <$> ids) = c) as Htake.
  { rewrite <- Hc, <- Hlc, take_app_length. done. }
  assert (drop (rb_num_rows b) (CU64 <$> ids) = concat_column bs 0) as Hdrop.
  { rewrite <- Hc, <- Hlc, drop_app_length. done. }
  split_and!; [lia| |].
  - rewrite Hf. simpl. by rewrite <- Htake, fmap_take.
  - split_and!; [done..|]. by rewrite <- Hdrop, fmap_drop.
Qed.

(** Streaming row ids through [load_batch] reads their rows, in order. *)
Lemma map_load_ok t sel keep f bs : ∀ idx,
  selectable t sel → has_row_id sel = Ok keep → in_bounds (length (table_ids t)) idx →
  id_batches f (take_cells (table_ids t) idx) bs →
  ∃ idxs, map_ok (λ b, load_batch null_slot t b sel) (Ok <$> bs) =
            Ok <$> (take_rb (project keep (snapshot t sel)) <$> idxs) ∧ mjoin idxs = idx.
Proof using LK LD.
  induction bs as [|b bs IH]; intros idx Hs Hk Hidx Hb.
  { destruct Hb as (_ & _ & _ & Hc). exists []. split; [done|].
    apply (f_equal length) in Hc. rewrite length_fmap, length_take_cells in Hc by done.
    by destruct idx. }
  pose proof Hb as (_ & Hft & [Hn _]%Forall_cons & _).
  destruct (id_batch_cons _ _ _ _ Hb) as (Hle & H0 & Hrest).
  rewrite length_take_cells in Hle by done.
  destruct (take_cells_take_drop (table_ids t) idx (rb_num_rows b) Hidx) as [Ht Hd].
  rewrite <- Ht in H0. rewrite <- Hd in Hrest.
  destruct (IH (drop (rb_num_rows b) idx)) as (idxs & E' & Hj); [done|done|by apply Forall_drop|done|].
  exists (take (rb_num_rows b) idx :: idxs). rewrite mjoin_cons, Hj, take_drop. split; [|done].
  rewrite !fmap_cons. cbn [map_ok].
  rewrite (load_batch_ok t sel keep b f (take (rb_num_rows b) idx)); try done.
  - rewrite E'. by rewrite project_take.
  - intros H00. apply (f_equal length) in H00. rewrite length_take in H00. simpl in H00. lia.
  - by apply Forall_take.
Qed.

Lemma read_ok r sel keep idx options :
  u64_range (split r) → selectable (base_table r) sel → has_row_id sel = Ok keep →
  view r = take_cells (table_ids (base_table r)) idx → idx ≠ [] →
  in_bounds (length (table_ids (base_table r))) idx →
  ∃ bs, let snap := project keep (snapshot (base_table r) sel) in
    read null_slot r sel options = Ok (mkStream (rb_fields snap) (Ok <$> bs)) ∧
    batches_ok (rb_fields snap) bs ∧ concat_rb (rb_fields snap) bs = take_rb snap idx.
Proof using LK LD.
  intros Hsp Hs Hk Hv Hne Hidx. set (snap := project keep (snapshot (base_table r) sel)).
  assert (rb_wf snap) as Hwf by (apply project_wf, snapshot_wf, Hs).
  assert (rb_num_rows snap = length (table_ids (base_table r))) as Hrows.
  { subst snap. destruct keep; simpl; by apply snapshot_rows. }
  destruct (row_id_query r options Hsp) as (f & bs & E0 & Hids). rewrite Hv in Hids.
  destruct (map_load_ok (base_table r) sel keep f bs idx) as (idxs & E1 & Hj); [done..|].
  fold snap in E1. exists (take_rb snap <$> idxs). split_and!.
  - unfold read. rewrite E0. run_ok. unfold row_ids_to_batches.
    cbn [st_items]. rewrite E1. destruct idxs as [|i idxs]; [subst idx; done|]. done.
  - apply Forall_fmap, Forall_forall. intros i Hi. split; [|done].
    apply take_rb_wf; [done|]. rewrite Hrows. unfold in_bounds in *.
    rewrite <- Hj, Forall_mjoin, Forall_forall in Hidx. by apply Hidx.
  - rewrite concat_rb_take by done. by rewrite Hj.
Qed.

(** ** The offset map *)
Lemma insert_offsets_lookup (ids : list Z) off (m : gmap Z Z) k :
  foldl (λ m p, <[(Z.of_nat p.1 + off)%Z := p.2]> m) m (imap pair ids) !! k =
  if decide (off ≤ k < off + Z.of_nat (length ids))%Z then ids !! Z.to_nat (k - off) else m !! k.
Proof using.
  induction ids as [|x ids IH] using rev_ind.
  { simpl. rewrite decide_False by lia. done. }
  rewrite imap_snoc, foldl_snoc, length_app. simpl.
  destruct (decide (k = Z.of_nat (length ids) + off)%Z) as [->|Hne].
  - rewrite lookup_insert_eq, decide_True by lia.
    rewrite list_lookup_middle; [done|]. lia.
  - rewrite lookup_insert_ne, IH by done.
    destruct (decide (off ≤ k < off + Z.of_nat (length ids))%Z).
    + rewrite decide_True by lia. by rewrite lookup_app_l by lia.
    + by rewrite decide_False by lia.
Qed.

Lemma collect_offsets_ok f bs : ∀ ids off m,
  id_batches f ids bs → (0 ≤ off)%Z → (off + Z.of_nat (length ids) < U64)%Z →
  ∃ m', collect_offsets null_slot (Ok <$> bs) off m = Ok m' ∧
    ∀ k, m' !! k = if decide (off ≤ k < off + Z.of_nat (length ids))%Z
                   then ids !! Z.to_nat (k - off) else m !! k.
Proof using.
  induction bs as [|b bs IH]; intros ids off m Hb Ho Hlt.
  { destruct Hb as (_ & _ & _ & Hc). apply (f_equal length) in Hc. rewrite length_fmap in Hc.
    destruct ids; [|done]. exists m. split; [done|]. intros k. by rewrite decide_False by (simpl; lia). }
  pose proof Hb as (_ & Hft & _). destruct (id_batch_cons _ _ _ _ Hb) as (Hle & H0 & Hrest).
  rewrite fmap_cons. cbn [collect_offsets mbind outcome_bind]. rewrite H0.
  cbn [unwrap mbind outcome_bind fst snd]. rewrite u64_values_ok by done. run_ok.
  unfold u64_add. rewrite (u64_arith_ok (off + _)) by (unfold u64_range; lia). run_ok.
  pose proof (length_take ids (rb_num_rows b)) as Hl1. pose proof (length_drop ids (rb_num_rows b)) as Hl2.
  destruct (IH (drop (rb_num_rows b) ids) (off + Z.of_nat (rb_num_rows b))%Z
              (foldl (λ m p, <[(Z.of_nat p.1 + off)%Z := p.2]> m) m (imap pair (take (rb_num_rows b) ids))))
    as (m' & E' & Hm'); [done|lia|lia|].
  exists m'. split; [done|]. intros k. rewrite Hm', insert_offsets_lookup, Hl1, Hl2.
  destruct (decide (off + Z.of_nat (rb_num_rows b) ≤ k)%Z).
  - rewrite (decide_False (P := (off ≤ k < off + Z.of_nat (_ `min` _))%Z)) by lia.
    rewrite lookup_drop. replace (rb_num_rows b + Z.to_nat (k - (off + Z.of_nat (rb_num_rows b))))
      with (Z.to_nat (k - off)) by lia.
    destruct (decide (off ≤ k < off + Z.of_nat (length ids))%Z);
      [rewrite decide_True by lia|rewrite decide_False by lia]; done.
  - rewrite (decide_False (P := (off + _ ≤ k < _)%Z)) by lia.
    rewrite Nat.min_l by lia.
    destruct (decide (off ≤ k < off + Z.of_nat (rb_num_rows b))%Z).
    + rewrite decide_True by lia. by rewrite lookup_take_lt by lia.
    + by rewrite decide_False by lia.
Qed.

Lemma get_offset_map_ok r perm :
  reader_ok r → permutation_table r = Some perm → u64_range (split r) →
  (Z.of_nat (length (view r)) < U64)%Z →
  ∃ m r', get_offset_map null_slot r perm = Ok (m, r') ∧ reader_ok r' ∧ view r' = view r ∧
    base_table r' = base_table r ∧ (∀ k, (0 ≤ k)%Z → m !! k = view r !! Z.to_nat k).
Proof using.
  intros [Ha Hm] Hp Hs Hlt. unfold get_offset_map. destruct (offset_map r) as [m|] eqn:Em.
  - exists m, r. split_and!; try done; [|by apply Hm]. split; [done|]. by rewrite Em.
  - destruct (perm_query perm (split r) (offset r) (limit r) default_options Hs) as (f & bs & -> & Hb).
    assert (slice (offset r) (limit r) (split_rows perm (split r)) = view r) as Hv
      by (unfold view, rows_of; by rewrite Hp).
    rewrite Hv in Hb. cbn [mbind outcome_bind st_items].
    destruct (collect_offsets_ok f bs (view r) 0 ∅ Hb) as (m & -> & Hk); [lia|lia|].
    run_ok.
    assert (∀ k, (0 ≤ k)%Z → m !! k = view r !! Z.to_nat k) as Hk'.
    { intros k Hk0. rewrite Hk, Z.sub_0_r, lookup_empty.
      destruct (decide _); [done|]. symmetry. apply lookup_ge_None. lia. }
    eexists m, _. split_and!; try done. split; [done|]. intros m' [= <-]. done.
Qed.

(** The rows at some offsets of the view; the map is cached for the next call. *)
Lemma take_offsets_ok r perm sel keep idx offsets :
  reader_ok r → permutation_table r = Some perm → u64_range (split r) →
  selectable (base_table r) sel → has_row_id sel = Ok keep →
  view r = take_cells (table_ids (base_table r)) idx →
  in_bounds (length (table_ids (base_table r))) idx → (Z.of_nat (length (view r)) < U64)%Z →
  offsets ≠ [] → in_bounds (length idx) offsets →
  ∃ r', take_offsets null_slot r offsets sel =
          Ok (take_rb (project keep (snapshot (base_table r) sel)) (take_cells idx offsets), r') ∧
    reader_ok r' ∧ view r' = view r.
Proof using LK LD.
  intros Hok Hp Hs Hsel Hk Hv Hidx Hlt Hne Hoff. unfold take_offsets.
  destruct offsets as [|o os] eqn:Eo; [done|]. rewrite <- Eo in *. clear Eo o os. rewrite Hp.
  destruct (get_offset_map_ok r perm Hok Hp Hs Hlt) as (m & r' & -> & Hok' & Hv' & _ & Hm).
  run_ok.
  assert (try_map (get_ok m) offsets = Ok (take_cells (table_ids (base_table r)) (take_cells idx offsets))) as ->.
  { rewrite <- take_cells_compose, <- Hv by done. clear Hne.
    assert (in_bounds (length (view r)) offsets) as Hov by (by rewrite Hv, length_take_cells).
    induction Hov as [|o offsets Ho _ IH]; [done|].
    apply Forall_cons in Hoff as [_ Hoff]. destruct (lookup_lt_is_Some_2 (view r) (Z.to_nat o)) as [x Hx]; [lia|].
    rewrite (take_cells_cons _ _ _ _ Hx). cbn [try_map]. rewrite IH by done.
    unfold get_ok. rewrite Hm, Hx by lia. done. }
  run_ok.
  assert (in_bounds (length (table_ids (base_table r))) (take_cells idx offsets)) as Hin.
  { apply Forall_forall. intros i Hi. unfold take_cells in Hi.
    apply list_elem_of_omap in Hi as (o & _ & Hi). unfold in_bounds in Hidx.
    rewrite Forall_lookup in Hidx. by eapply Hidx. }
  set (vs := take_cells (table_ids (base_table r)) (take_cells idx offsets)).
  rewrite (try_new_columns (length vs)); [|done|].
  2: { repeat constructor; [by rewrite length_fmap|]. apply Forall_fmap, Forall_forall.
       intros x Hx. apply u64_in_range_spec. subst vs. unfold take_cells in Hx.
       apply list_elem_of_omap in Hx as (i & _ & Hx). pose proof (table_ids_range (base_table r)) as Hr.
       rewrite Forall_lookup in Hr. by eapply Hr. }
  run_ok.
  rewrite (load_batch_ok (base_table r) sel keep _ row_id_field (take_cells idx offsets)); try done.
  - run_ok. exists r'. rewrite project_take. done.
  - intros H0. apply (f_equal length) in H0. rewrite length_take_cells in H0 by done.
    by destruct offsets.
Qed.

(** ** Offsets and limits *)
Lemma length_slice {A} off lim (l : list A) :
  (0 ≤ default 0 off)%Z → (0 ≤ default 0 lim)%Z →
  (default 0 off + default 0 lim ≤ Z.of_nat (length l))%Z →
  Z.of_nat (length (slice off lim l)) =
    match lim with Some n => n | None => (Z.of_nat (length l) - default 0 off)%Z end.
Proof using.
  intros Ho Hl Hle. unfold slice. destruct lim as [n|]; simpl in *;
    rewrite ?length_take, length_drop; lia.
Qed.

Lemma validate_limit_offset_ok {A} lim off (l : list A) :
  (0 ≤ default 0 off)%Z → (0 ≤ default 0 lim)%Z → (default 0 off + default 0 lim < U64)%Z →
  (Z.of_nat (length l) < U64)%Z →
  if (default 0 off + default 0 lim <=? Z.of_nat (length l))%Z
  then validate_limit_offset lim off (Z.of_nat (length l)) = Ok (Z.of_nat (length (slice off lim l)))
  else ∃ m, validate_limit_offset lim off (Z.of_nat (length l)) = Err (InvalidInput m).
Proof using.
  intros Ho Hl Hlt Hn. pose proof (length_slice off lim l Ho Hl) as Hs.
  destruct (default 0%Z off + default 0%Z lim <=? Z.of_nat (length l))%Z eqn:E0; to_prop.
  - specialize (Hs E0). unfold validate_limit_offset. destruct lim as [n|], off as [o|]; simpl in *.
    + unfold u64_add. rewrite u64_arith_ok by (unfold u64_range; lia). run_ok.
      rewrite (proj2 (Z.ltb_ge _ _)) by lia. f_equal. lia.
    + rewrite (proj2 (Z.ltb_ge _ _)) by lia. f_equal. lia.
    + rewrite (proj2 (Z.ltb_ge _ _)) by lia. unfold u64_sub.
      rewrite u64_arith_ok by (unfold u64_range; lia). by rewrite Hs.
    + rewrite Hs. f_equal. lia.
  - unfold validate_limit_offset. destruct lim as [n|], off as [o|]; simpl in *; try lia.
    + unfold u64_add. rewrite u64_arith_ok by (unfold u64_range; lia). run_ok.
      rewrite (proj2 (Z.ltb_lt _ _)) by lia. by eexists.
    + rewrite (proj2 (Z.ltb_lt _ _)) by lia. by eexists.
    + rewrite (proj2 (Z.ltb_lt _ _)) by lia. by eexists.
Qed.

Lemma rows_bound r : (Z.of_nat (length (rows_of r)) < U64)%Z.
Proof using.
  unfold rows_of. destruct (permutation_table r) as [perm|]; [|apply table_ids_bound].
  unfold split_rows. rewrite length_fmap. pose proof (perm_rows_bound perm).
  pose proof (length_filter (λ p : Z * Z, p.2 = split r) (perm_rows perm)). lia.
Qed.

Lemma verify_ok r lim off :
  u64_range (split r) →
  verify_limit_offset r lim off = validate_limit_offset lim off (Z.of_nat (length (rows_of r))).
Proof using.
  intros Hs. unfold verify_limit_offset, rows_of. destruct (permutation_table r).
  - by rewrite perm_count.
  - by rewrite base_count.
Qed.

(** A new offset or limit is accepted iff it stays within the rows, and the
    view is then cut accordingly. *)
Lemma restrict_ok r off lim :
  u64_range (split r) → (0 ≤ default 0 off)%Z → (0 ≤ default 0 lim)%Z →
  (default 0 off + default 0 lim < U64)%Z →
  let r' a := mkReader (base_table r) (permutation_table r) off lim a (split r) None in
  if (default 0 off + default 0 lim <=? Z.of_nat (length (rows_of r)))%Z
  then ∃ a, verify_limit_offset r lim off = Ok a ∧ reader_ok (r' a) ∧
         view (r' a) = slice off lim (rows_of r)
  else ∃ m, verify_limit_offset r lim off = Err (InvalidInput m).
Proof using.
  intros Hs Ho Hl Hlt r'. rewrite verify_ok by done.
  pose proof (validate_limit_offset_ok lim off (rows_of r) Ho Hl Hlt (rows_bound r)) as Hv.
  case_match; [|done]. eexists; split; [exact Hv|]. split; [|done]. split; done.
Qed.

Lemma inner_new_ok base perm s r :
  u64_range s → inner_new base perm s = Ok r →
  reader_ok r ∧ split r = s ∧ permutation_table r = perm ∧ offset r = None ∧ limit r = None ∧ view r ≠ [].
Proof using.
  intros Hs. unfold inner_new. intros (base' & _ & E1)%bind_Ok. cbv zeta in E1.
  apply bind_Ok in E1 as (u & _ & E2). apply bind_Ok in E2 as (a & Ea & E3).
  rewrite verify_ok in Ea by done. simpl in Ea. injection Ea as <-.
  case_match eqn:E0; [done|]. injection E3 as <-. to_prop. split_and!; try done.
  intros Hv. apply (f_equal length) in Hv. simpl in Hv. apply E0. unfold view, slice, rows_of in *.
  simpl in *. rewrite drop_0 in Hv. by rewrite Hv.
Qed.

(** ** Readers a program can hold *)
Inductive reachable : PermutationReader → Prop :=
  | reach_new base perm s r :
      u64_range s → inner_new base perm s = Ok r → reachable r
  | reach_offset r off r' :
      reachable r → u64_range off → with_offset r off = Ok r' → reachable r'
  | reach_limit r lim r' :
      reachable r → u64_range lim → with_limit r lim = Ok r' → reachable r'
  | reach_take r offsets sel b r' :
      reachable r → take_offsets null_slot r offsets sel = Ok (b, r') → reachable r'.

(** What all of them have in common. *)
Definition reader_inv (r : PermutationReader) : Prop :=
  reader_ok r ∧ u64_range (split r) ∧
  (∀ o, offset r = Some o → u64_range o) ∧ (∀ l, limit r = Some l → u64_range l).

Lemma view_bound r : (Z.of_nat (length (view r)) < U64)%Z.
Proof using.
  pose proof (rows_bound r). unfold view, slice.
  destruct (limit r); rewrite ?length_take, length_drop; lia.
Qed.

Lemma option_range (o : option Z) : (∀ z, o = Some z → u64_range z) → (0 ≤ default 0 o < U64)%Z.
Proof using. intros H. destruct o as [z|]; [by apply H|done]. Qed.

Lemma verify_inv r off lim a :
  overflow_checks = true → u64_range (split r) →
  (∀ z, off = Some z → u64_range z) → (∀ z, lim = Some z → u64_range z) →
  verify_limit_offset r lim off = Ok a →
  reader_inv (mkReader (base_table r) (permutation_table r) off lim a (split r) None).
Proof using.
  intros Hov Hs Ho Hl E0. split; [|by split_and!].
  pose proof (option_range off Ho). pose proof (option_range lim Hl).
  destruct (decide (default 0 off + default 0 lim < U64)%Z) as [Hlt|Hge].
  - pose proof (restrict_ok r off lim Hs ltac:(lia) ltac:(lia) Hlt) as Hr. simpl in Hr.
    rewrite E0 in Hr. case_match; [|by destruct Hr].
    destruct Hr as (a' & [= <-] & Hok & _). done.
  - exfalso. rewrite verify_ok in E0 by done.
    destruct lim as [l|], off as [o|]; simpl in *; try lia.
    unfold u64_add, u64_arith in E0.
    destruct (u64_in_range (o + l)) eqn:Er.
    + apply u64_in_range_spec in Er. unfold u64_range in Er. lia.
    + by rewrite Hov in E0.
Qed.

Lemma take_offsets_inv r offsets sel b r' :
  reader_inv r → take_offsets null_slot r offsets sel = Ok (b, r') → reader_inv r'.
Proof using.
  intros Hinv. pose proof Hinv as (Hok & Hs & Ho & Hl). unfold take_offsets.
  destruct offsets as [|o os].
  { intros (fs & _ & [= _ <-])%bind_Ok. done. }
  destruct (permutation_table r) as [perm|] eqn:Ep.
  - destruct (get_offset_map_ok r perm Hok Ep Hs (view_bound r)) as (m & r1 & E1 & Hok1 & _).
    rewrite E1. run_ok.
    intros (v & _ & (rb & _ & (lb & _ & [= _ <-])%bind_Ok)%bind_Ok)%bind_Ok.
    unfold get_offset_map in E1. destruct (offset_map r); [by injection E1 as _ <-|].
    apply bind_Ok in E1 as (st & _ & (m' & _ & [= _ <-])%bind_Ok). split; done.
  - intros (st & _ & (bs & _ & Hb)%bind_Ok)%bind_Ok. destruct bs.
    + by apply bind_Ok in Hb as (fs & _ & (b' & _ & [= _ <-])%bind_Ok).
    + by apply bind_Ok in Hb as (b' & _ & [= _ <-]).
Qed.

Lemma reader_reachable_inv r : overflow_checks = true → reachable r → reader_inv r.
Proof using.
  intros Hov. induction 1 as [base perm s r Hs E0|r off r' _ (Hok & Hs & Ho & Hl) Hr E0
                             |r lim r' _ (Hok & Hs & Ho & Hl) Hr E0|r offsets sel b r' _ IH E0].
  - destruct (inner_new_ok base perm s r Hs E0) as (Hok & <- & _ & Ho & Hl & _).
    split_and!; [done|done|by rewrite Ho|by rewrite Hl].
  - apply bind_Ok in E0 as (a & Ea & [= <-]). apply verify_inv; try done. by intros z [= <-].
  - apply bind_Ok in E0 as (a & Ea & [= <-]). apply verify_inv; try done. by intros z [= <-].
  - by eapply take_offsets_inv.
Qed.
End theorems.

(** ** A table in memory

    Four rows with scattered ids and a permutation of them, as an instance of
    the laws. *)
Definition mem_ids : list Z := [7; 3; 9; 5]%Z.
Definition mem_perm : list (Z * Z) := [(9, 0); (7, 1); (3, 0); (5, 0)]%Z.
Definition mem_snapshot : RecordBatch :=
  mkRB [mkField ROW_ID UInt64 false ∅; mkField "v" Utf8 false ∅]
       [CU64 <$> mem_ids; COpaque <$> [ "a"; "b"; "c"; "d" ] ] 4.

Definition mem_id_stream (ids : list Z) : Stream :=
  mkStream [row_id_field]
    match ids with [] => [] | _ => [Ok (mkRB [row_id_field] [CU64 <$> ids] (length ids))] end.

Definition mem_find (ids : list Z) : list Z :=
  filter (λ i, Exists (λ x, x ∈ ids) (option_list (mem_ids !! Z.to_nat i))) [3; 0; 2; 1]%Z.

#[local] Instance mem_table : BaseTable unit unit := {
  bt_schema _ := Ok ([row_id_field; split_id_field], ∅);
  bt_count_rows _ f :=
    Ok match f with
       | None => 4%Z
       | Some f => Z.of_nat (length (filter (λ p, split_filter p.2 = f) mem_perm))
       end;
  bt_query _ q _ :=
    Ok match q_filter q with
       | Some (InList _ ids) => mkStream (rb_fields mem_snapshot) [Ok (take_rb mem_snapshot (mem_find ids))]
       | Some (Sql f) =>
           mem_id_stream (slice (q_offset q) (q_limit q)
             (fst <$> filter (λ p, split_filter p.2 = f) mem_perm))
       | None => mem_id_stream (slice (q_offset q) (q_limit q) mem_ids)
       end;
  bt_checkout_branch_version _ _ _ := Ok tt;
  bt_take_offsets _ offsets _ :=
    Ok (mkStream (rb_fields (drop_named mem_snapshot ROW_ID))
          [Ok (take_rb (drop_named mem_snapshot ROW_ID) offsets)]);
  bt_output_schema _ _ := Ok (rb_fields (drop_named mem_snapshot ROW_ID))
}.

#[local] Instance mem_drop : DropColumn := {| drop_column b name := Ok (drop_named b name) |}.

#[local] Instance mem_drop_laws : DropColumnLaws mem_drop.
Proof. by constructor. Qed.

Lemma mem_snapshot_wf : rb_wf mem_snapshot.
Proof. repeat constructor. Qed.

#[local] Instance mem_source : SourceLaws mem_table.
Proof.
  refine {| selectable _ sel := sel = SelectAll; snapshot _ _ := mem_snapshot; table_ids _ := mem_ids |}.
  - intros _. apply (bool_decide_unpack _). by vm_compute.
  - intros _. apply (bool_decide_unpack _). by vm_compute.
  - intros _ _ _. apply mem_snapshot_wf.
  - done.
  - intros _ _ _. exists 0, (mkField ROW_ID UInt64 false ∅). split_and!; try done. intros k g Hk. lia.
  - intros _ _ _. right. left. done.
  - intros t sel ids options ->. exists [take_rb mem_snapshot (mem_find ids)], (mem_find ids).
    assert (in_bounds 4 (mem_find ids)) as Hb.
    { apply Forall_forall. intros i [_ Hi]%list_elem_of_filter. set_unfold in Hi. lia. }
    assert (rb_wf (take_rb mem_snapshot (mem_find ids))) as Hwf
      by (apply take_rb_wf; [apply mem_snapshot_wf|done]).
    split_and!; [done| | | |].
    + apply Forall_singleton. by split.
    + by apply concat_rb_singleton.
    + apply NoDup_filter. apply (bool_decide_unpack _). by vm_compute.
    + intros i. unfold mem_find. rewrite list_elem_of_filter. split.
      * intros [Hx Hi]. split; [set_unfold in Hi; lia|].
        destruct (mem_ids !! Z.to_nat i) as [x|] eqn:Ex; simpl in Hx.
        -- exists x. split; [done|]. by apply Exists_cons in Hx as [?|?%Exists_nil].
        -- by apply Exists_nil in Hx.
      * intros (Hi & x & Hx & Hin). rewrite Hx. simpl. split; [by left|].
        apply lookup_lt_Some in Hx. simpl in Hx. set_unfold. lia.
Defined.

#[local] Hint Resolve mem_snapshot_wf : lance.

Lemma mem_id_batches ids :
  Forall u64_range ids → ∃ bs, mem_id_stream ids = mkStream [row_id_field] (Ok <$> bs) ∧
    id_batches row_id_field ids bs.
Proof.
  intros Hr. destruct ids as [|i ids]; [by exists []; repeat split; constructor|].
  exists [mkRB [row_id_field] [CU64 <$> (i :: ids)] (length (i :: ids))]. split; [done|].
  split_and!; [|done| |].
  - constructor; [|constructor]. split; [|done]. constructor; [|constructor].
    split; [by rewrite length_fmap|]. apply Forall_fmap. eapply Forall_impl; [exact Hr|].
    intros x Hx. by apply u64_in_range_spec.
  - constructor; [simpl; lia|constructor].
  - unfold concat_column. simpl. by rewrite app_nil_r.
Qed.

Lemma slice_Forall {A} (P : A → Prop) off lim l : Forall P l → Forall P (slice off lim l).
Proof. intros Hl. unfold slice. destruct lim; auto using Forall_take, Forall_drop. Qed.

Lemma split_filter_inj a b :
  (0 ≤ a)%Z → (0 ≤ b)%Z → split_filter a = split_filter b ↔ a = b.
Proof.
  intros Ha Hb. split; [|by intros ->]. unfold split_filter.
  intros H%(inj (String.append _))%(inj (String.append _))%(inj pretty). lia.
Qed.

Lemma mem_split_filter s l :
  u64_range s → Forall (λ p : Z * Z, 0 ≤ p.2)%Z l →
  filter (λ p, split_filter p.2 = split_filter s) l = filter (λ p, p.2 = s) l.
Proof.
  intros [Hs _] Hl. induction Hl as [|p l Hp _ IH]; [done|].
  rewrite !filter_cons, IH. apply decide_ext. by apply split_filter_inj.
Qed.

#[local] Instance mem_view : ViewLaws mem_table mem_source.
Proof.
  refine {| perm_rows _ := mem_perm |}.
  - intros t s Hs. simpl. rewrite mem_split_filter, length_fmap; [done|done|].
    apply (bool_decide_unpack _). by vm_compute.
  - intros t s off lim options Hs. simpl. rewrite mem_split_filter;
      [|done|apply (bool_decide_unpack _); by vm_compute].
    destruct (mem_id_batches (slice off lim (fst <$> filter (λ p, p.2 = s) mem_perm))) as (bs & -> & Hb).
    { apply slice_Forall, Forall_fmap, Forall_forall. intros p [_ Hp]%list_elem_of_filter.
      assert (Forall (λ p : Z * Z, u64_range p.1) mem_perm) as Hm
        by (apply (bool_decide_unpack _); by vm_compute).
      rewrite Forall_forall in Hm. by apply Hm. }
    by exists row_id_field, bs.
  - done.
  - intros t off lim options. simpl. destruct (mem_id_batches (slice off lim mem_ids)) as (bs & -> & Hb).
    { apply slice_Forall. apply (bool_decide_unpack _). by vm_compute. }
    by exists row_id_field, bs.
  - intros t offsets sel keep -> [= <-] Hne Ho. simpl.
    assert (rb_wf (take_rb (drop_named mem_snapshot ROW_ID) offsets)) as Hwf.
    { wf. }
    eexists [_]. split_and!; [done|done|apply Forall_singleton; by split|by apply concat_rb_singleton].
  - done.
  - done.
Defined.

(** ** Theorems *)

(** the reader counts what it reads.  Every reader obtained from a
    constructor by setting offsets and limits and taking rows, in any order,
    reports the number of rows of its view, and its cached map from offsets to
    row ids, if any, is the map of that view (builds with overflow checks). *)
Theorem reader_counts_view {prof : Profile} {K : ArrowKernels} {T E : Type} {BT : BaseTable T E}
    {D : DropColumn} {SL : SourceLaws BT} {VL : ViewLaws BT SL} null_slot (r : PermutationReader) :
  overflow_checks = true → reachable null_slot r →
  count_rows r = Z.of_nat (length (view r)) ∧
  (∀ m, offset_map r = Some m → ∀ k, (0 ≤ k)%Z → m !! k = view r !! Z.to_nat k).
Proof. intros Hov Hr. destruct (reader_reachable_inv null_slot r Hov Hr) as [[Ha Hm] _]. done. Qed.

(** Split 0 of the table in memory, from its second row on. *)
Definition mem_reader : PermutationReader (T := unit) :=
  mkReader tt (Some tt) (Some 1%Z) None 2 0 None.

Lemma mem_reader_reachable : reachable (prof := true) 0 mem_reader.
Proof.
  apply (reach_offset 0 (mkReader tt (Some tt) None None 3 0 None) 1); [|done|vm_compute; reflexivity].
  apply (reach_new 0 tt (Some tt) 0); [done|vm_compute; reflexivity].
Qed.

Lemma reader_counts_view_witness :
  count_rows mem_reader = 2%Z ∧
  (∀ m, offset_map mem_reader = Some m → ∀ k, (0 ≤ k)%Z → m !! k = view mem_reader !! Z.to_nat k).
Proof.
  apply (@reader_counts_view true ref_kernels unit unit mem_table mem_drop mem_source mem_view 0
           mem_reader eq_refl mem_reader_reachable).
Defined.

(** C1: random access agrees with the scan.  For a permutation reader whose
    rows exist in the base table, [read] yields the rows of the view in order
    (however the tables cut their answers into batches and whatever order the
    base table finds rows in), and [take_offsets] returns exactly the rows at
    the given positions of that sequence, repetitions included. *)
Theorem take_offsets_matches_read {prof : Profile} {K : ArrowKernels} {LK : ArrowLaws K}
    {T E : Type} {BT : BaseTable T E} {D : DropColumn} {LD : DropColumnLaws D}
    {SL : SourceLaws BT} {VL : ViewLaws BT SL} null_slot r perm sel keep idx offsets options :
  overflow_checks = true → reachable null_slot r → permutation_table r = Some perm →
  selectable (base_table r) sel → has_row_id sel = Ok keep →
  view r = take_cells (table_ids (base_table r)) idx →
  in_bounds (length (table_ids (base_table r))) idx →
  offsets ≠ [] → in_bounds (length (view r)) offsets →
  ∃ fields bs r', read null_slot r sel options = Ok (mkStream fields (Ok <$> bs)) ∧
    concat_rb fields bs = take_rb (project keep (snapshot (base_table r) sel)) idx ∧
    take_offsets null_slot r offsets sel = Ok (take_rb (concat_rb fields bs) offsets, r') ∧
    view r' = view r.
Proof.
  intros Hov Hr Hp Hs Hk Hv Hidx Hne Hoff. destruct (reader_reachable_inv null_slot r Hov Hr) as (Hok & Hsp & _).
  assert (length (view r) = length idx) as Hl by (by rewrite Hv, length_take_cells).
  assert (idx ≠ []) as Hi.
  { intros ->. destruct offsets as [|o offsets]; [done|]. apply Forall_cons in Hoff as [Ho _].
    simpl in Hl. lia. }
  destruct (read_ok null_slot r sel keep idx options) as (bs & Er & Hbs & Hc); [done..|].
  destruct (take_offsets_ok null_slot r perm sel keep idx offsets) as (r' & Et & _ & Hv');
    try done; [apply view_bound|by rewrite <- Hl|].
  eexists _, bs, r'. split; [exact Er|]. split; [exact Hc|]. split; [|done].
  rewrite Et, Hc, take_rb_compose; [done|by apply project_wf, snapshot_wf| |by rewrite <- Hl].
  destruct keep; simpl; by rewrite snapshot_rows.
Qed.

Lemma take_offsets_matches_read_witness :
  ∃ fields bs r', read 0 mem_reader SelectAll default_options =
      Ok (mkStream fields (Ok <$> bs)) ∧
    concat_rb fields bs = take_rb (project false mem_snapshot) [1; 3]%Z ∧
    take_offsets (prof := true) 0 mem_reader [1; 0; 1]%Z SelectAll =
      Ok (take_rb (concat_rb fields bs) [1; 0; 1]%Z, r') ∧ view r' = view mem_reader.
Proof.
  apply (@take_offsets_matches_read true ref_kernels ref_laws unit unit mem_table mem_drop
           mem_drop_laws mem_source mem_view 0 mem_reader tt SelectAll false [1; 3]%Z [1; 0; 1]%Z
           default_options eq_refl mem_reader_reachable); try done;
    apply (bool_decide_unpack _); by vm_compute.
Defined.

(** offsets and limits.  A reader accepts a new offset (or limit) exactly
    when offset plus limit stay within the rows of its split; then its view is
    that window of the rows, and otherwise the call is rejected as invalid
    input. *)
Theorem reader_window {prof : Profile} {T E : Type} {BT : BaseTable T E} {SL : SourceLaws BT}
    {VL : ViewLaws BT SL} (r : PermutationReader) off lim :
  u64_range (split r) → (0 ≤ default 0 off)%Z → (0 ≤ default 0 lim)%Z →
  (default 0 off + default 0 lim < U64)%Z →
  let fits := (default 0 off + default 0 lim <=? Z.of_nat (length (rows_of r)))%Z in
  let good r' := reader_ok r' ∧ view r' = slice off lim (rows_of r) in
  (∀ o, off = Some o → limit r = lim →
     if fits then ∃ r', with_offset r o = Ok r' ∧ good r'
     else ∃ m, with_offset r o = Err (InvalidInput m)) ∧
  (∀ l, lim = Some l → offset r = off →
     if fits then ∃ r', with_limit r l = Ok r' ∧ good r'
     else ∃ m, with_limit r l = Err (InvalidInput m)).
Proof.
  intros Hs Ho Hl Hlt fits good. pose proof (restrict_ok r off lim Hs Ho Hl Hlt) as Hr.
  cbv zeta in Hr. fold fits in Hr. unfold with_offset, with_limit. split; intros z -> <-.
  - destruct fits; [destruct Hr as (a & -> & Hr)|destruct Hr as [m ->]]; eauto.
  - destruct fits; [destruct Hr as (a & -> & Hr)|destruct Hr as [m ->]]; eauto.
Qed.

Lemma reader_window_witness :
  let good r' := reader_ok r' ∧ view r' = slice (Some 1%Z) (Some 2%Z) (rows_of mem_reader) in
  (∀ o, Some 1%Z = Some o → limit mem_reader = Some 2%Z →
     ∃ r', with_offset (prof := true) mem_reader o = Ok r' ∧ good r') ∧
  (∀ l, Some 2%Z = Some l → offset mem_reader = Some 1%Z →
     ∃ r', with_limit (prof := true) mem_reader l = Ok r' ∧ good r').
Proof.
  apply (@reader_window true unit unit mem_table mem_source mem_view mem_reader (Some 1%Z) (Some 2%Z));
    done.
Defined.

(** the sum of offset and limit is not checked for overflow.  On a reader
    with offset [o], the limit [2^64 - o] panics in a build with overflow
    checks; without them it is accepted and the reader then reports
    [2^64 - o] rows, whatever the table holds. *)
Theorem limit_overflow {prof : Profile} {T E : Type} {BT : BaseTable T E} {SL : SourceLaws BT}
    {VL : ViewLaws BT SL} (r : PermutationReader) o :
  u64_range (split r) → offset r = Some o → (0 < o < U64)%Z →
  with_limit r (U64 - o) =
    if overflow_checks then Panic
    else Ok (mkReader (base_table r) (permutation_table r) (Some o) (Some (U64 - o)%Z)
               (U64 - o) (split r) None).
Proof.
  intros Hs Ho Hr. unfold with_limit. rewrite verify_ok, Ho by done. cbn [validate_limit_offset].
  unfold u64_add, u64_arith. replace (o + (U64 - o))%Z with U64 by lia.
  change (u64_in_range U64) with false. cbv iota. destruct overflow_checks; [done|].
  rewrite Z.mod_same by done. run_ok.
  rewrite (proj2 (Z.ltb_ge _ _)) by lia. done.
Qed.

Lemma limit_overflow_witness :
  with_limit (prof := false) mem_reader (U64 - 1) =
    Ok (mkReader tt (Some tt) (Some 1%Z) (Some (U64 - 1)%Z) (U64 - 1) 0 None).
Proof.
  apply (@limit_overflow false unit unit mem_table mem_source mem_view mem_reader 1); done.
Defined.

(** taking from a reader without permutation.  [take_offsets] of an
    identity reader returns the rows at the given offsets of the base table,
    whatever offset and limit the reader has, so it does not agree with [read]
    once an offset is set. *)
Theorem identity_take_ignores_window {prof : Profile} {K : ArrowKernels} {LK : ArrowLaws K}
    {T E : Type} {BT : BaseTable T E} {D : DropColumn} {SL : SourceLaws BT} {VL : ViewLaws BT SL}
    null_slot (r : PermutationReader) sel keep offsets :
  permutation_table r = None → selectable (base_table r) sel → has_row_id sel = Ok keep →
  offsets ≠ [] → in_bounds (length (table_ids (base_table r))) offsets →
  take_offsets null_slot r offsets sel =
    Ok (take_rb (project keep (snapshot (base_table r) sel)) offsets, r).
Proof.
  intros Hp Hs Hk Hne Ho. unfold take_offsets. destruct offsets as [|o os] eqn:Eo; [done|].
  rewrite <- Eo in *. rewrite Hp.
  destruct (base_take (base_table r) offsets sel keep) as (bs & -> & Hb & Hbs & Hc); [done..|].
  cbn [mbind outcome_bind st_items]. rewrite try_collect_Ok. run_ok.
  destruct bs as [|b bs]; [done|]. pose proof Hbs as [[_ Hf] _]%Forall_cons.
  rewrite Hf, concat_batches_ok by done. run_ok. rewrite Hc. by destruct keep.
Qed.

(** With offset 2, [read] starts at the third row; taking offset 0 gives the first. *)
Lemma identity_take_ignores_window_witness :
  let r := mkReader tt None (Some 2%Z) None 2 0 None in
  read 0 r SelectAll default_options =
    Ok (mkStream (rb_fields (drop_named mem_snapshot ROW_ID))
          [Ok (take_rb (drop_named mem_snapshot ROW_ID) [2; 3]%Z)]) ∧
  take_offsets (prof := true) 0 r [0]%Z SelectAll =
    Ok (take_rb (drop_named mem_snapshot ROW_ID) [0]%Z, r).
Proof.
  split; [vm_compute; reflexivity|].
  apply (@identity_take_ignores_window true ref_kernels ref_laws unit unit mem_table mem_drop
           mem_source mem_view 0 (mkReader tt None (Some 2%Z) None 2 0 None) SelectAll false [0]%Z);
    try done; apply (bool_decide_unpack _); by vm_compute.
Defined.

End PermReader.
