(* ===== verification/PermBuilder.v ===== *)
(** * Building a permutation (rust/lancedb/src/dataloader/permutation/builder.rs
      and [rename_column] of util.rs)

    [build] scans the row ids of the base table, assigns splits, shuffles,
    sorts by split id and stores the result as a table.  The base table, the
    sort of DataFusion, the JSON printer and the destination database are
    parameters. *)

From S2P Require Import Prelude.
From stdpp Require Import pretty sorting.
From S2P Require Import RustStr Floats Arrow Shuffle Split PermReader.
Import Shuffle Split PermReader.

Module PermBuilder.

Definition SPLIT_NAMES_CONFIG_KEY : string := "split_names".
Definition DEFAULT_MEMORY_LIMIT : Z := 100 * 1024 * 1024.

Inductive ShuffleStrategy : Type :=
  | ShuffleRandom (seed : option Z) (clump_size : option Z)
  | ShuffleNone.

Inductive PermutationDestination (DB : Type) : Type :=
  | Temporary
  | Permanent (database : DB) (table_name : string).
Arguments Temporary {DB}.
Arguments Permanent {DB} _ _.

Record PermutationConfig (DB : Type) : Type := mkPermConfig {
  split_strategy : SplitStrategy;
  split_names : option (list string);
  shuffle_strategy : ShuffleStrategy;
  pc_filter : option string;
  pc_temp_dir : TemporaryDirectory;
  destination : PermutationDestination DB
}.
Arguments mkPermConfig {DB} _ _ _ _ _ _.
Arguments split_strategy {DB} _.
Arguments split_names {DB} _.
Arguments shuffle_strategy {DB} _.
Arguments pc_filter {DB} _.
Arguments pc_temp_dir {DB} _.
Arguments destination {DB} _.

(** [PermutationConfig::default] and the builder's setters. *)
Definition default_perm_config {DB} : PermutationConfig DB :=
  mkPermConfig NoSplit None ShuffleNone None OsDefault Temporary.
Definition with_split_strategy {DB} (c : PermutationConfig DB) s names :=
  mkPermConfig s names (shuffle_strategy c) (pc_filter c) (pc_temp_dir c) (destination c).
Definition with_shuffle_strategy {DB} (c : PermutationConfig DB) s :=
  mkPermConfig (split_strategy c) (split_names c) s (pc_filter c) (pc_temp_dir c) (destination c).
Definition with_filter {DB} (c : PermutationConfig DB) f :=
  mkPermConfig (split_strategy c) (split_names c) (shuffle_strategy c) (Some f) (pc_temp_dir c) (destination c).
Definition with_temp_dir {DB} (c : PermutationConfig DB) d :=
  mkPermConfig (split_strategy c) (split_names c) (shuffle_strategy c) (pc_filter c) d (destination c).
Definition persist {DB} (c : PermutationConfig DB) (db : DB) name : PermutationConfig DB :=
  mkPermConfig (split_strategy c) (split_names c) (shuffle_strategy c) (pc_filter c) (pc_temp_dir c)
    (Permanent db name).

(** The operations of the base table, of DataFusion and of the database. *)
Class BuilderDeps (T E DB N : Type) : Type := {
  snapshot_at_current_version : T → result (option T);
  get_memwal_spec : T → result (option unit);
  table_version : T → result Z;
  current_branch : T → option string;
  scan_row_ids : T → Select E → option string → result Stream;
  count_filtered : T → option string → result Z;
  scan_order_is_deterministic : T → bool;
  df_sort : Z → TemporaryDirectory → Stream → string → result Stream;
  json_strings : list string → result string;
  connect_memory : result DB;
  create_table : DB → string → list Field → gmap string string → list (result RecordBatch) → result N
}.

Section Builder.
Context {prof : Profile} {K : ArrowKernels} {R : Rng} {L : LanceFile} {H : Hasher}.
Context {T E DB N : Type} {B : BuilderDeps T E DB N}.
Context (fs : TemporaryDirectory → bool) (memory_env : option string).

(** The memory limit of the sort: the environment variable if it parses. *)
Definition memory_limit : Z :=
  match memory_env with
  | None => DEFAULT_MEMORY_LIMIT
  | Some s => default DEFAULT_MEMORY_LIMIT (parse_u64 s)
  end.

Definition sort_by_column (dir : TemporaryDirectory) (data : Stream) (column : string) : result Stream :=
  map_err (λ _, Other "Failed to sort by {}: {}") (df_sort memory_limit dir data column).

(** util.rs [rename_column] *)
Definition rename_fields (fields : list Field) (idx : nat) (new_name : string) : list Field :=
  imap (λ i f, if i =? idx then mkField new_name (f_type f) (f_nullable f) (f_metadata f) else f) fields.

Definition rename_column (data : Stream) (old_name new_name : string) : result Stream :=
  found ← ok_or (Arrow "Unable to get field named {}")
            (list_find (λ f, f_name f = old_name) (st_schema data));
  let new_schema := rename_fields (st_schema data) (fst found) new_name in
  Ok (mkStream new_schema (map_ok (λ b, try_new new_schema (rb_columns b)) (st_items data))).

(** [!matches!(strategy, ShuffleStrategy::None)] *)
Definition is_shuffled (s : ShuffleStrategy) : bool :=
  match s with ShuffleNone => false | ShuffleRandom _ _ => true end.

Definition needs_sort (config : PermutationConfig DB) : bool :=
  negb (orders_by_split_id (split_strategy config)) || is_shuffled (shuffle_strategy config).

(** The rows of the permutation, in the order they are stored. *)
Definition permutation_rows (base : T) (config : PermutationConfig DB) : result Stream :=
  let select := Split.project (split_strategy config) (Columns [ROW_ID]) in
  num_rows ← count_filtered base (pc_filter config);
  rows ← scan_row_ids base select (pc_filter config);
  rows ← (if scan_order_is_deterministic base then Ok rows
          else sort_by_column (pc_temp_dir config) rows ROW_ID);
  split_data ← apply fs (pc_temp_dir config) (split_strategy config) rows num_rows;
  shuffled ← (match shuffle_strategy config with
              | ShuffleNone => Ok split_data
              | ShuffleRandom seed clump_size =>
                  shuffle fs (mkConfig seed (10 * 1024 * 1024) (pc_temp_dir config) clump_size)
                    split_data num_rows
              end);
  sorted ← (if needs_sort config then sort_by_column (pc_temp_dir config) shuffled SPLIT_ID_COLUMN
            else Ok shuffled);
  rename_column sorted ROW_ID SRC_ROW_ID_COL.

Definition config_metadata (version : Z) (branch : option string) (names : option (list string))
    : result (gmap string string) :=
  let m := {[ BASE_VERSION_CONFIG_KEY := pretty (Z.to_N version) ]} : gmap string string in
  let m := match branch with Some b => <[BASE_BRANCH_CONFIG_KEY := b]> m | None => m end in
  match names with
  | None => Ok m
  | Some names =>
      json ← map_err (λ _, Other "Failed to serialize split names: {}") (json_strings names);
      Ok (<[SPLIT_NAMES_CONFIG_KEY := json]> m)
  end.

Definition memwal_error : Error :=
  NotSupported "the data loader does not support tables with a MemWAL write spec".

(** Tables with a MemWAL write spec are refused; a table that has no such
    write path has no spec. *)
Definition check_memwal (base : T) : result unit :=
  match get_memwal_spec base with
  | Ok (Some _) => Err memwal_error
  | Ok None => Ok tt
  | Err (NotSupported _) => Ok tt
  | Err e => Err e
  | Panic => Panic
  end.

Definition build (base : T) (config : PermutationConfig DB) : result N :=
  pinned ← snapshot_at_current_version base;
  let base := default base pinned in
  _ ← check_memwal base;
  base_version ← table_version base;
  let base_branch := current_branch base in
  renamed ← permutation_rows base config;
  metadata ← config_metadata base_version base_branch (split_names config);
  target ← (match destination config with
            | Permanent db name => Ok (db, name)
            | Temporary => db ← connect_memory; Ok (db, "permutation")
            end);
  create_table (fst target) (snd target) (st_schema renamed) metadata (st_items renamed).
End Builder.

(** ** What the builder relies on *)

(** Two columns of [u64]s. *)
Definition pairs_rb (f g : Field) (ps : list (Z * Z)) : RecordBatch :=
  mkRB [f; g] [CU64 ∘ fst <$> ps; CU64 ∘ snd <$> ps] (length ps).

Definition rid_field : Field := mkField ROW_ID UInt64 false ∅.

(** DataFusion's sort rearranges the rows of a stream, ascending by a column
    (rows with equal keys in any order). *)
Class SortLaws {T E DB N} (B : BuilderDeps T E DB N) : Prop := {
  df_sort_ok mem dir bs ps :
    batches_ok [rid_field; split_id_field] bs →
    concat_rb [rid_field; split_id_field] bs = pairs_rb rid_field split_id_field ps →
    ∃ bs' ps', df_sort mem dir (mkStream [rid_field; split_id_field] (Ok <$> bs)) SPLIT_ID_COLUMN =
                 Ok (mkStream [rid_field; split_id_field] (Ok <$> bs')) ∧
      batches_ok [rid_field; split_id_field] bs' ∧ ps' ≡ₚ ps ∧ Sorted Z.le (snd <$> ps') ∧
      concat_rb [rid_field; split_id_field] bs' = pairs_rb rid_field split_id_field ps'
}.

(** ** Rows as pairs *)
Lemma take_rb_pairs f g ps σ :
  in_bounds (length ps) σ → take_rb (pairs_rb f g ps) σ = pairs_rb f g (take_cells ps σ).
Proof.
  intros Hσ. unfold take_rb, pairs_rb. simpl. rewrite !take_cells_fmap.
  by rewrite length_take_cells.
Qed.

Lemma with_ids_pairs ids idx plan n :
  length plan ≤ length idx → in_bounds (length ids) idx →
  with_ids (take_rb (mkRB [rid_field] [CU64 <$> ids] n) idx) plan =
  pairs_rb rid_field split_id_field (zip (take_cells ids idx) plan).
Proof.
  intros Hl Hidx. unfold with_ids, pairs_rb. simpl.
  assert (length (take_cells ids idx) = length idx) as Hlen by (by apply length_take_cells).
  rewrite length_zip_with, take_cells_fmap, Hlen. f_equal; [|lia].
  rewrite !list_fmap_compose. rewrite (snd_zip (take_cells ids idx)) by lia.
  rewrite <- fmap_take. repeat f_equal. revert Hlen Hl. clear.
  generalize (take_cells ids idx). intros l Hl. revert l Hl. generalize (length idx). intros k l <-.
  revert l. induction plan as [|p plan IH]; intros [|x l] Hl; try done.
  simpl. f_equal. apply IH. simpl in Hl. lia.
Qed.

(** ** Renaming *)
Definition relabel (fields : list Field) (b : RecordBatch) : RecordBatch :=
  mkRB fields (rb_columns b) (rb_num_rows b).

Lemma rename_column_ok {K : ArrowKernels} {LK : ArrowLaws K} bs :
  let old := [rid_field; split_id_field] in let new := [row_id_field; split_id_field] in
  batches_ok old bs →
  rename_column (mkStream old (Ok <$> bs)) ROW_ID SRC_ROW_ID_COL =
    Ok (mkStream new (Ok <$> (relabel new <$> bs))) ∧
  batches_ok new (relabel new <$> bs) ∧
  concat_rb new (relabel new <$> bs) = relabel new (concat_rb old bs).
Proof.
  intros old new Hbs. unfold rename_column. cbn [st_schema st_items].
  assert (list_find (λ f, f_name f = ROW_ID) old = Some (0, rid_field)) as -> by done.
  cbn [ok_or mbind outcome_bind fst]. change (rename_fields old 0 SRC_ROW_ID_COL) with new.
  split; [|split].
  - do 2 f_equal. induction Hbs as [|b bs [Hb Hf] _ IH]; [done|].
    rewrite !fmap_cons. cbn [map_ok].
    rewrite (try_new_columns (rb_num_rows b)).
    + unfold relabel at 1. by rewrite IH.
    + intros H0. apply Forall2_length in Hb. rewrite H0, Hf in Hb. done.
    + unfold rb_wf in Hb. rewrite Hf in Hb. inversion Hb as [|? ? ? ? H1 H2]; subst.
      constructor; [|done]. done.
  - apply Forall_fmap. eapply Forall_impl; [exact Hbs|]. intros b [Hb Hf]. split; [|done].
    unfold rb_wf in *. rewrite Hf in Hb. simpl.
    inversion Hb as [|? ? ? ? H1 H2]; subst. constructor; [|done]. done.
  - unfold concat_rb, relabel. simpl. f_equal.
    + unfold concat_column. rewrite <- !list_fmap_compose. done.
    + unfold total_rows. clear. induction bs as [|b bs IH]; [done|]. simpl. f_equal. exact IH.
Qed.

(** ** The stored rows *)

(** The sizes of the strategies that assign splits by position. *)
Definition sizes_of (strategy : SplitStrategy) (n : Z) : option SplitSizes :=
  match strategy with
  | NoSplit => Some (Counts [n])
  | Random _ sizes _ | Sequential sizes => Some sizes
  | Hash _ _ _ | Calculated _ => None
  end.

Definition clump_of (strategy : SplitStrategy) : Z :=
  match strategy with Random _ _ clump => default 1%Z clump | _ => 1%Z end.

Section stored.
Context {prof : Profile} {K : ArrowKernels} {LK : ArrowLaws K} {R : Rng} {LR : RngLaws R}.
Context {L : LanceFile} {LL : LanceFileLaws L} {H : Hasher}.
Context {T E DB N : Type} {B : BuilderDeps T E DB N} {SL : SortLaws B}.
Context (fs : TemporaryDirectory → bool) (memory_env : option string).

Lemma take_rb_all b : rb_wf b → take_rb b (u64_seq 0 (Z.of_nat (rb_num_rows b))) = b.
Proof using.
  intros Hb%rb_wf_lengths. destruct b as [fields cols n]. unfold take_rb. simpl in *.
  rewrite u64_seq_length. f_equal; [|lia]. rewrite u64_seq_nat. apply list_eq. intros j.
  rewrite list_lookup_fmap. destruct (cols !! j) as [c|] eqn:Ec; [|done]. simpl. f_equal.
  rewrite Forall_lookup in Hb. rewrite <- (Hb _ _ Ec). apply take_cells_seq.
Qed.

Lemma apply_positional dir strategy sizes fields bs :
  let n := Z.of_nat (total_rows bs) in
  (n < 10 * 1024 * 1024)%Z → sizes_of strategy n = Some sizes →
  sizes_validate sizes n = Ok tt → sizes_fit sizes n → (0 < clump_of strategy)%Z →
  batches_ok fields bs → SPLIT_ID_COLUMN ∉ f_name <$> fields →
  ∃ counts idx outs, to_counts sizes n = Ok counts ∧ idx ≡ₚ u64_seq 0 n ∧
    (Z.of_nat (length (plan counts)) ≤ n)%Z ∧
    apply fs dir strategy (mkStream fields (Ok <$> bs)) n =
      Ok (mkStream (fields ++ [split_id_field]) (Ok <$> outs)) ∧
    batches_ok (fields ++ [split_id_field]) outs ∧
    concat_rb (fields ++ [split_id_field]) outs =
      with_ids (take_rb (concat_rb fields bs) idx) (plan counts).
Proof using LK LR LL.
  intros n Hn Hs Hv Hf Hc Hbs Hname. assert (10 * 1024 * 1024 < I63)%Z by done.
  assert (I63 < U64)%Z by done.
  destruct (to_counts_ok sizes n ltac:(lia) Hv Hf) as (counts & Ec & _ & _ & Hnn & Hz & _).
  pose proof (length_plan_from 0 counts Hnn) as Hlp. fold (plan counts) in Hlp.
  assert ((strategy = NoSplit ∨ strategy = Sequential sizes) ∨
          ∃ seed clump, strategy = Random seed sizes clump) as [Hseq|(seed & clump & ->)].
  { destruct strategy; simplify_eq/=; eauto. }
  - destruct (apply_sequential_spec sizes n fields bs) as (cs & outs & Ecs & Ea & Ho & Hcat);
      try done; [lia|lia|].
    assert (cs = counts) as -> by congruence.
    exists counts, (u64_seq 0 n), outs. split_and!; try done; [lia| |].
    + unfold apply. destruct Hseq as [->| ->]; simpl.
      * simpl in Hs. injection Hs as <-. done.
      * rewrite Hv. done.
    + rewrite Hcat, take_plan by (done || lia).
      pose proof (take_rb_all (concat_rb fields bs) (concat_rb_wf fields bs Hbs)) as Ht.
      simpl in Ht. fold n in Ht. by rewrite Ht.
  - simpl in Hc. destruct (apply_random_spec fs dir seed sizes clump fields bs)
      as (cs & order & outs & Ecs & Ea & Ho & Hop & Hcat); try done; [lia|lia|].
    assert (cs = counts) as -> by (fold n in Ecs; congruence).
    exists counts, (mjoin order), outs. split_and!; try done; [|lia].
    rewrite Hop. by rewrite mjoin_clumps by lia.
Qed.

(** Shuffling pairs in memory permutes them. *)
Lemma shuffle_pairs config bs ps n :
  let fields := [rid_field; split_id_field] in
  (n < max_rows_per_file config)%Z → (0 < default 1 (clump_size config))%Z →
  (Z.of_nat (length ps) < U64)%Z →
  batches_ok fields bs → concat_rb fields bs = pairs_rb rid_field split_id_field ps →
  ∃ bs' ps', shuffle fs config (mkStream fields (Ok <$> bs)) n = Ok (mkStream fields (Ok <$> bs')) ∧
    batches_ok fields bs' ∧ ps' ≡ₚ ps ∧
    concat_rb fields bs' = pairs_rb rid_field split_id_field ps'.
Proof using LK LR.
  intros fields Hn Hc Hlt Hbs Hps. unfold shuffle. rewrite (proj2 (Z.ltb_lt _ _)) by done.
  assert (total_rows bs = length ps) as Htot by (apply (f_equal rb_num_rows) in Hps; done).
  destruct (in_memory_shuffle_spec config fields bs (non_crypto_rng (seed config)))
    as (out & -> & Hs & idxs & order & Hit & _ & _ & Hperm); [done|done|lia|].
  destruct out as [sch items]. simpl in Hs, Hit. subst.
  pose proof (concat_rb_wf fields bs Hbs) as Hall.
  assert (in_bounds (length ps) (mjoin idxs)) as Hin.
  { unfold in_bounds. rewrite Hperm, Htot. apply Forall_forall. intros x. by rewrite elem_of_u64_seq. }
  exists (take_rb (concat_rb fields bs) <$> idxs), (take_cells ps (mjoin idxs)). split_and!; [done| | |].
  - apply Forall_fmap. unfold in_bounds in Hin. rewrite Forall_mjoin in Hin.
    eapply Forall_impl; [exact Hin|]. intros idx Hi. split; [|done]. apply take_rb_wf; [done|].
    simpl. by rewrite Htot.
  - apply take_cells_perm_Z. by rewrite Hperm, Htot.
  - pose proof (concat_rb_take (concat_rb fields bs) idxs Hall) as Hcat. simpl in Hcat.
    by rewrite Hcat, Hps, take_rb_pairs.
Qed.

Lemma perm_in_bounds (ids : list Z) idx :
  idx ≡ₚ u64_seq 0 (Z.of_nat (length ids)) → in_bounds (length ids) idx ∧ length idx = length ids.
Proof using.
  intros Hp. split.
  - unfold in_bounds. rewrite Hp. apply Forall_forall. intros x. by rewrite elem_of_u64_seq.
  - rewrite Hp, u64_seq_length. lia.
Qed.

Lemma permutation_rows_ok base config sizes bs ids :
  let n := Z.of_nat (total_rows bs) in
  scan_order_is_deterministic base = true →
  count_filtered base (pc_filter config) = Ok n →
  scan_row_ids base (Columns [ROW_ID]) (pc_filter config) = Ok (mkStream [rid_field] (Ok <$> bs)) →
  batches_ok [rid_field] bs → concat_column bs 0 = CU64 <$> ids →
  (n < 10 * 1024 * 1024)%Z → sizes_of (split_strategy config) n = Some sizes →
  sizes_validate sizes n = Ok tt → sizes_fit sizes n →
  (0 < clump_of (split_strategy config))%Z →
  (∀ seed clump, shuffle_strategy config = ShuffleRandom seed clump → (0 < default 1 clump)%Z) →
  ∃ counts ids' ps outs, to_counts sizes n = Ok counts ∧ ids' ≡ₚ ids ∧
    permutation_rows fs memory_env base config =
      Ok (mkStream [row_id_field; split_id_field] (Ok <$> outs)) ∧
    batches_ok [row_id_field; split_id_field] outs ∧
    concat_rb [row_id_field; split_id_field] outs = pairs_rb row_id_field split_id_field ps ∧
    ps ≡ₚ zip ids' (plan counts) ∧ Sorted Z.le (snd <$> ps).
Proof using LK LR LL SL.
  intros n Hdet Hcnt Hscan Hbs Hids Hn Hsz Hv Hf Hc Hsh. assert (10 * 1024 * 1024 < U64)%Z by done.
  assert (total_rows bs = length ids) as Hlen.
  { rewrite <- (length_concat_column [rid_field] bs 0) by (done || simpl; lia).
    by rewrite Hids, length_fmap. }
  assert (concat_rb [rid_field] bs = mkRB [rid_field] [CU64 <$> ids] (total_rows bs)) as Hall.
  { unfold concat_rb. simpl. by rewrite Hids. }
  destruct (apply_positional (pc_temp_dir config) (split_strategy config) sizes [rid_field] bs)
    as (counts & idx & outs & Ec & Hidx & Hpl & Ea & Ho & Hcat); try done.
  { rewrite fmap_cons, list_elem_of_singleton. done. }
  rewrite Hlen in Hidx. destruct (perm_in_bounds ids idx Hidx) as [Hin Hli].
  rewrite Hall, with_ids_pairs in Hcat by (done || lia).
  set (ps0 := zip (take_cells ids idx) (plan counts)) in *.
  assert (length ps0 ≤ length ids) as Hps0.
  { subst ps0. rewrite length_zip_with, length_take_cells by done. lia. }
  assert (Split.project (E := E) (split_strategy config) (Columns [ROW_ID]) = Columns [ROW_ID]) as Hproj.
  { unfold sizes_of in Hsz. by destruct (split_strategy config). }
  unfold permutation_rows. rewrite Hcnt, Hproj. run_ok.
  rewrite Hscan. run_ok. rewrite Hdet. run_ok.
  fold n in Ea. rewrite Ea. run_ok.
  assert (∃ bs1 ps1,
    (match shuffle_strategy config with
     | ShuffleNone => Ok (mkStream [rid_field; split_id_field] (Ok <$> outs))
     | ShuffleRandom seed clump =>
         shuffle fs (mkConfig seed (10 * 1024 * 1024) (pc_temp_dir config) clump)
           (mkStream [rid_field; split_id_field] (Ok <$> outs)) n
     end) = Ok (mkStream [rid_field; split_id_field] (Ok <$> bs1)) ∧
    batches_ok [rid_field; split_id_field] bs1 ∧ ps1 ≡ₚ ps0 ∧
    concat_rb [rid_field; split_id_field] bs1 = pairs_rb rid_field split_id_field ps1)
    as (bs1 & ps1 & E1 & Hb1 & Hp1 & Hc1).
  { destruct (shuffle_strategy config) as [seed clump|]; [|by exists outs, ps0].
    apply (shuffle_pairs (mkConfig seed (10 * 1024 * 1024) (pc_temp_dir config) clump));
      try done; [by apply (Hsh seed)|lia]. }
  simpl app. rewrite E1. run_ok.
  assert (needs_sort config = true) as ->.
  { unfold needs_sort, sizes_of in *. by destruct (split_strategy config). }
  destruct (df_sort_ok (memory_limit memory_env) (pc_temp_dir config) bs1 ps1)
    as (bs2 & ps2 & E2 & Hb2 & Hp2 & Hsort & Hc2); [done..|].
  unfold sort_by_column. rewrite E2. cbn [map_err mbind outcome_bind].
  destruct (rename_column_ok bs2 Hb2) as (E3 & Hb3 & Hc3).
  exists counts, (take_cells ids idx), ps2, (relabel [row_id_field; split_id_field] <$> bs2).
  split_and!; try done.
  - by apply take_cells_perm_Z.
  - by rewrite Hc3, Hc2.
  - by rewrite Hp2.
Qed.
End stored.

(** ** An instance of the dependencies

    Four rows in memory; sorting merges; a created table is its contents. *)
Definition by_split (p q : Z * Z) : Prop := (p.2 ≤ q.2)%Z.
#[local] Instance by_split_dec : RelDecision by_split.
Proof. intros p q. unfold by_split. apply _. Defined.
#[local] Instance by_split_total : Total by_split.
Proof. intros p q. unfold by_split. lia. Qed.

Definition cell_u64 (c : cell) : Z := match c with CU64 z => z | _ => 0%Z end.

Definition mem_sort (data : Stream) : result Stream :=
  bs ← try_collect (st_items data);
  match rb_columns (concat_rb (st_schema data) bs) with
  | [c1; c2] =>
      let ps := zip (cell_u64 <$> c1) (cell_u64 <$> c2) in
      Ok (mkStream (st_schema data)
            [Ok (pairs_rb rid_field split_id_field (merge_sort by_split ps))])
  | _ => Ok data
  end.

Definition mem_scan (sel : Select unit) : Stream :=
  match sel with
  | Columns [_] => mkStream [rid_field] [Ok (mkRB [rid_field] [CU64 <$> mem_ids] 4)]
  | _ => mkStream [id_field; rid_field]
           [Ok (mkRB [id_field; rid_field] [CU64 <$> [2; 0; 1; 0]%Z; CU64 <$> mem_ids] 4)]
  end.

Definition Stored : Type := list Field * gmap string string * list (result RecordBatch).

#[local] Instance mem_deps : BuilderDeps unit unit unit Stored := {
  snapshot_at_current_version _ := Ok None;
  get_memwal_spec _ := Ok None;
  table_version _ := Ok 12%Z;
  current_branch _ := None;
  scan_row_ids _ sel _ := Ok (mem_scan sel);
  count_filtered _ _ := Ok 4%Z;
  scan_order_is_deterministic _ := true;
  df_sort _ _ data _ := mem_sort data;
  json_strings _ := Err (Other "not supported");
  connect_memory := Ok tt;
  create_table _ _ fields metadata items := Ok (fields, metadata, items)
}.

Lemma cells_u64 {A} (g : A → Z) (l : list A) : cell_u64 <$> (CU64 ∘ g <$> l) = g <$> l.
Proof. rewrite <- list_fmap_compose. by apply list_fmap_ext. Qed.

Lemma pairs_wf_iff ps :
  rb_wf (pairs_rb rid_field split_id_field ps) ↔ Forall (λ p, u64_range p.1 ∧ u64_range p.2) ps.
Proof.
  unfold rb_wf, pairs_rb. simpl. split.
  - intros Hw. inversion Hw as [|? ? ? ? [_ H1] H2]; subst. inversion H2 as [|? ? ? ? [_ H3] _]; subst.
    rewrite Forall_fmap in H1. rewrite Forall_fmap in H3.
    eapply Forall_impl; [exact (proj2 (Forall_and _ _) (conj H1 H3))|].
    intros p [? ?]. split; by apply u64_in_range_spec.
  - intros Hp. repeat constructor; rewrite ?length_fmap; try done; apply Forall_fmap;
      (eapply Forall_impl; [exact Hp|]); intros p [? ?]; simpl; by apply u64_in_range_spec.
Qed.

#[local] Instance mem_sort_laws : SortLaws mem_deps.
Proof.
  constructor. intros mem dir bs ps Hbs Hps. pose proof (concat_rb_wf _ bs Hbs) as Hwf. rewrite Hps in Hwf.
  set (ps' := merge_sort by_split ps). assert (ps' ≡ₚ ps) as Hp by apply merge_sort_Permutation.
  assert (rb_wf (pairs_rb rid_field split_id_field ps')) as Hwf'.
  { apply pairs_wf_iff. rewrite Hp. by apply pairs_wf_iff. }
  exists [pairs_rb rid_field split_id_field ps'], ps'. split_and!.
  - simpl. unfold mem_sort. cbn [st_items st_schema]. rewrite try_collect_Ok.
    run_ok. rewrite Hps. cbn [pairs_rb rb_columns].
    rewrite !cells_u64, zip_fst_snd. done.
  - apply Forall_singleton. by split.
  - done.
  - assert (Sorted by_split ps') as Hs by (apply Sorted_merge_sort; apply _).
    clear -Hs. induction Hs as [|p l _ IH Hr]; [constructor|]. rewrite fmap_cons. constructor; [exact IH|].
    destruct Hr; constructor. done.
  - by apply concat_rb_singleton.
Qed.

(** ** Theorems *)

(** C5: the permutation table.  For splits by position (none, sequential,
    random), with or without shuffling, [build] stores a table with the columns
    [row_id] and [split_id] that pairs a permutation of the scanned row ids
    with the planned split ids and is sorted by split id; its metadata record
    the version and branch of the base table. *)
Theorem build_stores_permutation {prof : Profile} {K : ArrowKernels} {LK : ArrowLaws K} {R : Rng}
    {LR : RngLaws R} {L : LanceFile} {LL : LanceFileLaws L} {H : Hasher} {T E DB N : Type}
    {B : BuilderDeps T E DB N} {SL : SortLaws B} fs memory_env (base0 : T)
    (config : PermutationConfig DB) pinned v sizes bs ids db name :
  let base := default base0 pinned in let n := Z.of_nat (total_rows bs) in
  snapshot_at_current_version base0 = Ok pinned → get_memwal_spec base = Ok None →
  table_version base = Ok v → scan_order_is_deterministic base = true →
  count_filtered base (pc_filter config) = Ok n →
  scan_row_ids base (Columns [ROW_ID]) (pc_filter config) = Ok (mkStream [rid_field] (Ok <$> bs)) →
  batches_ok [rid_field] bs → concat_column bs 0 = CU64 <$> ids →
  (n < 10 * 1024 * 1024)%Z → sizes_of (split_strategy config) n = Some sizes →
  sizes_validate sizes n = Ok tt → sizes_fit sizes n →
  (0 < clump_of (split_strategy config))%Z →
  (∀ seed clump, shuffle_strategy config = ShuffleRandom seed clump → (0 < default 1 clump)%Z) →
  split_names config = None → destination config = Permanent db name →
  ∃ counts ids' ps outs m, to_counts sizes n = Ok counts ∧ ids' ≡ₚ ids ∧
    build fs memory_env base0 config =
      create_table db name [row_id_field; split_id_field] m (Ok <$> outs) ∧
    concat_rb [row_id_field; split_id_field] outs = pairs_rb row_id_field split_id_field ps ∧
    ps ≡ₚ zip ids' (plan counts) ∧ Sorted Z.le (snd <$> ps) ∧
    m !! BASE_VERSION_CONFIG_KEY = Some (pretty (Z.to_N v)) ∧
    m !! BASE_BRANCH_CONFIG_KEY = current_branch base.
Proof.
  intros base n Hpin Hwal Hver Hdet Hcnt Hscan Hbs Hids Hn Hsz Hv Hf Hc Hsh Hnames Hdst.
  destruct (permutation_rows_ok fs memory_env base config sizes bs ids)
    as (counts & ids' & ps & outs & Ec & Hi & Er & _ & Hcat & Hps & Hso); [done..|].
  unfold build. rewrite Hpin. run_ok. fold base. unfold check_memwal.
  rewrite Hwal. run_ok. rewrite Hver. run_ok. rewrite Er.
  run_ok. rewrite Hnames, Hdst.
  eexists counts, ids', ps, outs, _. split; [done|]. split; [done|]. split.
  { cbn [config_metadata mbind outcome_bind fst snd st_schema st_items]. reflexivity. }
  split_and!; try done; destruct (current_branch base); done.
Qed.

Lemma build_stores_permutation_witness :
  let config := mkPermConfig (Sequential (Counts [3; 1]%Z)) None (ShuffleRandom (Some 1%Z) None) None
                  OsDefault (Permanent tt "perm") in
  ∃ counts ids' ps outs m, to_counts (prof := true) (Counts [3; 1]%Z) 4 = Ok counts ∧ ids' ≡ₚ mem_ids ∧
    build (prof := true) (R := rev_rng) (L := mem_files) (H := first_hash) (λ _, true) None tt config =
      create_table tt "perm" [row_id_field; split_id_field] m (Ok <$> outs) ∧
    concat_rb [row_id_field; split_id_field] outs = pairs_rb row_id_field split_id_field ps ∧
    ps ≡ₚ zip ids' (plan counts) ∧ Sorted Z.le (snd <$> ps) ∧
    m !! BASE_VERSION_CONFIG_KEY = Some (pretty (Z.to_N 12)) ∧ m !! BASE_BRANCH_CONFIG_KEY = None.
Proof.
  intros config.
  apply (@build_stores_permutation true ref_kernels ref_laws rev_rng rev_rng_laws mem_files
           mem_files_laws first_hash unit unit unit Stored mem_deps mem_sort_laws (λ _, true) None tt
           config None 12 (Counts [3; 1]%Z) [mkRB [rid_field] [CU64 <$> mem_ids] 4] mem_ids tt "perm");
    try done.
  - repeat constructor.
  - split; [done|]. split; [|done]. apply (bool_decide_unpack _). by vm_compute.
  - by intros ? ? [= <- <-].
Defined.

(** the recorded version is the one a reader pins.  Opening a reader on
    the metadata the builder wrote checks the base table out at exactly the
    recorded version, on the recorded branch or on main. *)
Theorem permutation_pins_base {T E DB N : Type} {BT : BaseTable T E} {B : BuilderDeps T E DB N}
    (base perm : T) fields v branch names m :
  u64_range v → config_metadata v branch names = Ok m → bt_schema perm = Ok (fields, m) →
  pin_base_table base perm = bt_checkout_branch_version base (default MAIN_BRANCH branch) (Some v).
Proof.
  intros Hv Hm Hs. unfold pin_base_table. rewrite Hs. cbn [mbind outcome_bind snd].
  assert (m !! BASE_VERSION_CONFIG_KEY = Some (pretty (Z.to_N v)) ∧
          m !! BASE_BRANCH_CONFIG_KEY = branch) as [-> ->].
  { unfold config_metadata in Hm. destruct names as [names|].
    - apply bind_Ok in Hm as (json & _ & [= <-]). destruct branch; done.
    - injection Hm as <-. destruct branch; done. }
  rewrite parse_pretty_u64 by done. done.
Qed.

(** Tables that are the branch and version they were checked out at. *)
Definition pin_table : BaseTable (string * option Z) unit := {|
  bt_schema _ := Ok ([], {[ BASE_VERSION_CONFIG_KEY := "12" ]});
  bt_count_rows _ _ := Ok 0%Z;
  bt_query _ _ _ := Ok (mkStream [] []);
  bt_checkout_branch_version _ b v := Ok (b, v);
  bt_take_offsets _ _ _ := Ok (mkStream [] []);
  bt_output_schema _ _ := Ok []
|}.

Definition pin_deps : BuilderDeps (string * option Z) unit unit Stored := {|
  snapshot_at_current_version _ := Ok None;
  get_memwal_spec _ := Ok None;
  table_version t := Ok (default 0%Z (snd t));
  current_branch _ := None;
  scan_row_ids _ _ _ := Ok (mkStream [] []);
  count_filtered _ _ := Ok 0%Z;
  scan_order_is_deterministic _ := true;
  df_sort _ _ d _ := Ok d;
  json_strings _ := Ok "";
  connect_memory := Ok tt;
  create_table _ _ f m i := Ok (f, m, i)
|}.

Lemma permutation_pins_base_witness :
  pin_base_table (BT := pin_table) ("x", None) ("y", None) = Ok ("main", Some 12%Z).
Proof.
  apply (@permutation_pins_base _ unit unit Stored pin_table pin_deps ("x", None) ("y", None) [] 12
           None None {[ BASE_VERSION_CONFIG_KEY := "12" ]}); [done|vm_compute; reflexivity|done].
Defined.

(** hashed permutations are not sorted.  The comment in [build] wants the
    permutation sorted by split id unless splits were assigned in order, but
    [orders_by_split_id] holds for the hash strategy, so without shuffling the
    sort is skipped: rows hashed to splits 1, 0, 0, 0 are stored in that
    order, whereas the sequential strategy, which is in order already, is
    sorted again. *)
Theorem hash_build_not_sorted :
  let config := mkPermConfig (Hash [ "id" ] [1; 2]%Z 0) None ShuffleNone None OsDefault
                  (Permanent tt "perm") in
  build (prof := true) (R := rev_rng) (L := mem_files) (H := first_hash) (λ _, true) None tt config =
    create_table tt "perm" [row_id_field; split_id_field] {[ BASE_VERSION_CONFIG_KEY := "12" ]}
      [Ok (pairs_rb row_id_field split_id_field [(7, 1); (3, 0); (9, 1); (5, 0)]%Z)] ∧
  needs_sort config = false ∧ ¬ Sorted Z.le [1; 0; 1; 0]%Z ∧
  needs_sort (DB := unit) (mkPermConfig (Sequential (Counts [3; 1]%Z)) None ShuffleNone None OsDefault
                             (Permanent tt "perm")) = true.
Proof.
  split; [vm_compute; reflexivity|]. split; [done|]. split; [|done].
  inversion 1 as [|? ? _ Hr]; subst. inversion Hr; subst. lia.
Qed.

End PermBuilder.
