(* ===== verification/BackgroundCache.v ===== *)
(** * The background cache (rust/lancedb/src/utils/background_cache.rs)

    A cache whose values are refreshed by futures that spawned tasks drive.
    [World] is the cache with the clock and the futures it has started; each
    critical section of the code is one step and the steps of callers, fetches
    and tasks interleave freely.  A [Duration] or [Instant] is a number of
    nanoseconds; the generation counter is not wrapped (2^64 invalidations). *)

From S2P Require Import Prelude.

Module BackgroundCache.

Section Cache.
Context {V E : Type}.

(** [State]; a future is named by its position in the world's list. *)
Inductive State : Type :=
  | Empty
  | Current (value : V) (cached_at : Z)
  | Refreshing (previous : option (V * Z)) (future : nat).

Record CacheInner : Type := mkCache {
  state : State;
  generation : Z
}.

(** A shared future with the task spawned for it: the generation it was started
    in, its result once the fetch completed, and whether the task has run. *)
Record Fut : Type := mkFut {
  f_gen : Z;
  f_result : option (V + E);
  f_task_done : bool
}.

Inductive Action : Type :=
  | Return (value : V)
  | Wait (future : nat).

Section ops.
Context (ttl refresh_window : Z).

(** [Instant::duration_since] saturates at zero. *)
Definition age (now cached_at : Z) : Z := Z.max 0 (now - cached_at).

Definition fresh_value (now : Z) (s : State) : option V :=
  let fresh_threshold := (ttl - refresh_window)%Z in
  match s with
  | Current value cached_at | Refreshing (Some (value, cached_at)) _ =>
      if (age now cached_at <? fresh_threshold)%Z then Some value else None
  | _ => None
  end.

Definition new : result CacheInner :=
  if (refresh_window <? ttl)%Z then Ok (mkCache Empty 0) else Panic.

Definition try_get (now : Z) (c : CacheInner) : option V := fresh_value now (state c).

Definition seed (now : Z) (value : V) (c : CacheInner) : CacheInner :=
  mkCache (Current value now) (generation c).

Definition invalidate (c : CacheInner) : CacheInner := mkCache Empty (generation c + 1).

(** [start_fetch]: the new future and the cache that waits for it. *)
Definition start_fetch (c : CacheInner) (futs : list Fut) (previous : option (V * Z))
    : CacheInner * list Fut :=
  (mkCache (Refreshing previous (length futs)) (generation c),
   futs ++ [mkFut (generation c) None false]).

(** The state after a fetch, as [determine_action] and the task compute it. *)
Definition after_fetch (now : Z) (previous : option (V * Z)) (r : V + E) : State :=
  match r with
  | inl value => Current value now
  | inr _ => match previous with Some (v, t) => Current v t | None => Empty end
  end.

(** [future.peek()] *)
Definition peek (futs : list Fut) (future : nat) : option (V + E) := futs !! future ≫= f_result.

(** [determine_action], recursive after a completed fetch was adopted; [None]
    is only a lack of fuel. *)
Fixpoint determine_action (fuel : nat) (now : Z) (c : CacheInner) (futs : list Fut)
    : option (Action * CacheInner * list Fut) :=
  match fuel with
  | O => None
  | S fuel' =>
      match state c with
      | Empty =>
          let (c', futs') := start_fetch c futs None in Some (Wait (length futs), c', futs')
      | Current value cached_at =>
          let elapsed := age now cached_at in
          if (elapsed <? ttl - refresh_window)%Z then Some (Return value, c, futs)
          else if (elapsed <? ttl)%Z then
            let (c', futs') := start_fetch c futs (Some (value, cached_at)) in
            Some (Return value, c', futs')
          else
            let (c', futs') := start_fetch c futs (Some (value, cached_at)) in
            Some (Wait (length futs), c', futs')
      | Refreshing previous future =>
          match peek futs future with
          | Some r =>
              determine_action fuel' now (mkCache (after_fetch now previous r) (generation c)) futs
          | None =>
              match previous with
              | Some (value, cached_at) =>
                  if (age now cached_at <? ttl)%Z then Some (Return value, c, futs)
                  else Some (Wait future, c, futs)
              | None => Some (Wait future, c, futs)
              end
          end
      end
  end.

(** The task spawned by [start_fetch], once its future has the result [r]. *)
Definition run_task (now fut_generation : Z) (r : V + E) (c : CacheInner) : CacheInner :=
  if (generation c =? fut_generation)%Z then
    let prev := match state c with Refreshing previous _ => previous | _ => None end in
    mkCache (after_fetch now prev r) (generation c)
  else c.

(** ** The world *)
Record World : Type := mkWorld {
  now : Z;
  cache : CacheInner;
  futs : list Fut;
  seeds : list V  (* ghost: the values seeded since the last invalidation *)
}.

Inductive Event : Type :=
  | ERet (value : V)       (* a caller of [get] or [try_get] returns a value *)
  | EWait (future : nat)   (* a caller of [get] awaits a future *)
  | ESeed (value : V)
  | EInvalidate
  | EInternal.

Inductive step : World → Event → World → Prop :=
  | step_tick w t :
      (now w ≤ t)%Z → step w EInternal (mkWorld t (cache w) (futs w) (seeds w))
  | step_fetched w i f r :
      futs w !! i = Some f → f_result f = None →
      step w EInternal
        (mkWorld (now w) (cache w) (<[i := mkFut (f_gen f) (Some r) (f_task_done f)]> (futs w)) (seeds w))
  | step_task w i f r :
      futs w !! i = Some f → f_result f = Some r → f_task_done f = false →
      step w EInternal
        (mkWorld (now w) (run_task (now w) (f_gen f) r (cache w))
           (<[i := mkFut (f_gen f) (Some r) true]> (futs w)) (seeds w))
  | step_seed w v :
      step w (ESeed v) (mkWorld (now w) (seed (now w) v (cache w)) (futs w) (v :: seeds w))
  | step_invalidate w :
      step w EInvalidate (mkWorld (now w) (invalidate (cache w)) (futs w) [])
  | step_fast w v :
      try_get (now w) (cache w) = Some v → step w (ERet v) w
  | step_slow w a c' futs' :
      determine_action 2 (now w) (cache w) (futs w) = Some (a, c', futs') →
      step w (match a with Return v => ERet v | Wait i => EWait i end)
        (mkWorld (now w) c' futs' (seeds w)).

Inductive reachable : World → Prop :=
  | reach_init t : reachable (mkWorld t (mkCache Empty 0) [] [])
  | reach_step w e w' : reachable w → step w e w' → reachable w'.
End ops.
End Cache.
Arguments State : clear implicits.
Arguments CacheInner : clear implicits.
Arguments Fut : clear implicits.
Arguments Action : clear implicits.
Arguments World : clear implicits.
Arguments Event : clear implicits.

Section proofs.
Context {V E : Type} (ttl refresh_window : Z) (Hrw : (0 ≤ refresh_window < ttl)%Z).

(** ** One critical section *)
Lemma age_nonneg t t' : (0 ≤ age t t')%Z.
Proof using. unfold age. lia. Qed.

Lemma determine_action_total now c (futs : list (Fut V E)) :
  ∃ a c' futs', determine_action ttl refresh_window 2 now c futs = Some (a, c', futs').
Proof using.
  assert (∀ fuel (c : CacheInner V), (∀ p i, state c ≠ Refreshing p i) →
            ∃ a c' futs', determine_action ttl refresh_window (S fuel) now c futs = Some (a, c', futs')) as Hc.
  { intros fuel [[|v t|p i] g] Hn; simpl; [by eauto| |by destruct (Hn p i)].
    repeat case_match; eauto. }
  destruct c as [[|v t|p i] g]; [by apply Hc|by apply Hc|].
  cbn [determine_action state]. destruct (peek futs i) as [r|]; [|repeat case_match; eauto].
  apply (Hc 0 (mkCache (after_fetch now p r) g)). intros p' i'.
  destruct r; simpl; [done|]. by destruct p as [[? ?]|].
Qed.

(** ** The invariant *)

(** [v] was seeded since the last invalidation or comes from a fetch that was
    started since then. *)
Definition origin (w : World V E) (v : V) : Prop :=
  v ∈ seeds w ∨ ∃ i f, futs w !! i = Some f ∧ f_gen f = generation (cache w) ∧ f_result f = Some (inl v).

Definition cached_ok (w : World V E) (p : V * Z) : Prop := origin w p.1 ∧ (p.2 ≤ now w)%Z.

Definition started_now (w : World V E) (i : nat) : Prop :=
  ∃ f, futs w !! i = Some f ∧ f_gen f = generation (cache w).

Definition state_ok (w : World V E) (s : State V) : Prop :=
  match s with
  | Empty => True
  | Current v t => cached_ok w (v, t)
  | Refreshing previous i => started_now w i ∧ (∀ p, previous = Some p → cached_ok w p)
  end.

Definition inv (w : World V E) : Prop := state_ok w (state (cache w)).

(** [w'] keeps what [w] knows: same generation, same futures up to new results. *)
Definition extends (w w' : World V E) : Prop :=
  (now w ≤ now w')%Z ∧ generation (cache w) = generation (cache w') ∧
  (∀ v, v ∈ seeds w → v ∈ seeds w') ∧
  (∀ i f, futs w !! i = Some f → ∃ f', futs w' !! i = Some f' ∧ f_gen f' = f_gen f ∧
     (∀ r, f_result f = Some r → f_result f' = Some r)).

Lemma extends_refl w : extends w w.
Proof using. split_and!; [lia|done|done|]. intros i f Hf. by exists f. Qed.

Lemma extends_origin w w' v : extends w w' → origin w v → origin w' v.
Proof using.
  intros (_ & Hg & Hs & Hf) [Hv|(i & f & Hi & Hgen & Hr)]; [left; by apply Hs|right].
  destruct (Hf i f Hi) as (f' & Hi' & Hgen' & Hr'). exists i, f'.
  split_and!; [done|congruence|by apply Hr'].
Qed.

Lemma extends_cached w w' p : extends w w' → cached_ok w p → cached_ok w' p.
Proof using. intros He [Ho Ht]. split; [by eapply extends_origin|]. destruct He as [? _]. lia. Qed.

Lemma extends_state w w' s : extends w w' → state_ok w s → state_ok w' s.
Proof using.
  intros He. destruct s as [|v t|p i]; simpl; [done|by apply extends_cached|].
  intros [(f & Hf & Hg) Hp]. split; [|intros q Hq; eapply extends_cached; [done|by apply Hp]].
  destruct He as (_ & Hg' & _ & Hx). destruct (Hx i f Hf) as (f' & Hf' & Hgf & _).
  exists f'. split; [done|congruence].
Qed.

(** Starting a fetch and recording a result only extend the world. *)
Lemma extends_start w s f :
  extends w (mkWorld (now w) (mkCache s (generation (cache w))) (futs w ++ [f]) (seeds w)).
Proof using.
  split_and!; simpl; [lia|done|done|]. intros i g Hg. exists g. split; [|done].
  rewrite lookup_app_l; [done|]. by eapply lookup_lt_Some.
Qed.

Lemma extends_same_futs w s :
  extends w (mkWorld (now w) (mkCache s (generation (cache w))) (futs w) (seeds w)).
Proof using. split_and!; simpl; [lia|done|done|]. intros i g Hg. by exists g. Qed.

Lemma extends_set w s i f r d :
  futs w !! i = Some f → (∀ r', f_result f = Some r' → r' = r) →
  extends w (mkWorld (now w) (mkCache s (generation (cache w)))
               (<[i := mkFut (f_gen f) (Some r) d]> (futs w)) (seeds w)).
Proof using.
  intros Hi Hr. split_and!; simpl; [lia|done|done|]. intros j g Hg.
  destruct (decide (j = i)) as [->|Hne].
  - simplify_eq. eexists. split; [apply list_lookup_insert_eq; by eapply lookup_lt_Some|].
    split; [done|]. intros r' ->%Hr. done.
  - exists g. by rewrite list_lookup_insert_ne by done.
Qed.

Lemma state_ok_after_fetch w p i f r :
  futs w !! i = Some f → f_gen f = generation (cache w) → f_result f = Some r →
  (∀ q, p = Some q → cached_ok w q) → state_ok w (after_fetch (now w) p r).
Proof using.
  intros Hi Hg Hr Hp. destruct r as [v|e]; simpl.
  - split; simpl; [right; by exists i, f|lia].
  - destruct p as [[v t]|]; [by apply Hp|done].
Qed.

(** What a caller gets from [determine_action], and the state it leaves. *)
Definition action_ok (w : World V E) (a : Action V) : Prop :=
  match a with
  | Return v => origin w v
  | Wait i => started_now w i
  end.

Lemma start_fetch_ok w s p (a : Action V) :
  (∀ q, p = Some q → cached_ok w q) → match a with Return v => origin w v | Wait i => i = length (futs w) end →
  let '(c', futs') := start_fetch (mkCache s (generation (cache w))) (futs w) p in
  let w' := mkWorld (now w) c' futs' (seeds w) in
  inv w' ∧ action_ok w' a ∧ generation c' = generation (cache w).
Proof using.
  intros Hp Ha. unfold start_fetch. cbn [generation].
  set (w' := mkWorld _ _ _ _).
  assert (extends w w') as He by apply extends_start.
  assert (started_now w' (length (futs w))) as Hs.
  { exists (mkFut (generation (cache w)) None false). split; [|done]. simpl. by apply list_lookup_middle. }
  split_and!; [split; [done|]|destruct a as [v|i]; simpl; [|by subst]|done].
  - intros q Hq. eapply extends_cached; [done|by apply Hp].
  - by eapply extends_origin.
Qed.

Lemma determine_action_ok w fuel : ∀ s a c' futs',
  state_ok w s →
  determine_action ttl refresh_window fuel (now w) (mkCache s (generation (cache w))) (futs w) =
    Some (a, c', futs') →
  let w' := mkWorld (now w) c' futs' (seeds w) in
  inv w' ∧ action_ok w' a ∧ generation c' = generation (cache w).
Proof using.
  induction fuel as [|fuel IH]; intros s a c' futs' Hs; [done|]. cbn [determine_action state].
  assert (∀ s', extends w (mkWorld (now w) (mkCache s' (generation (cache w))) (futs w) (seeds w)))
    as Hsame by (intros; apply extends_same_futs).
  destruct s as [|v t|p i].
  - intros [= <- <- <-]. apply (start_fetch_ok w Empty None (Wait (length (futs w)))); done.
  - assert (∀ q, Some (v, t) = Some q → cached_ok w q) as Hq by (by intros q [= <-]).
    pose proof (proj1 (Hs : cached_ok w (v, t))) as Ho. simpl in Ho.
    destruct (age (now w) t <? ttl - refresh_window)%Z; [|destruct (age (now w) t <? ttl)%Z].
    + intros [= <- <- <-]. cbv zeta. split_and!; [|by apply (extends_origin w)|done].
      by apply (extends_state w (mkWorld _ _ _ _) (Current v t)).
    + intros [= <- <- <-]. apply (start_fetch_ok w (Current v t) (Some (v, t)) (Return v)); done.
    + intros [= <- <- <-]. apply (start_fetch_ok w (Current v t) (Some (v, t)) (Wait _)); done.
  - destruct Hs as [Hi Hp]. destruct (peek (futs w) i) as [r|] eqn:Epk.
    + intros Hd. eapply IH; [|exact Hd]. unfold peek in Epk. apply bind_Some in Epk as (f & Hf & Hr).
      destruct Hi as (f' & Hf' & Hg). simplify_eq. by eapply state_ok_after_fetch.
    + assert (state_ok w (Refreshing p i)) as Hok by done.
      assert (∀ a, action_ok w a → let w' := mkWorld (now w) (mkCache (Refreshing p i) (generation (cache w)))
                (futs w) (seeds w) in inv w' ∧ action_ok w' a ∧ generation (cache w) = generation (cache w))
        as Hkeep.
      { intros a' Ha. split_and!; [by apply (extends_state w (mkWorld _ _ _ _) (Refreshing p i))| |done].
        destruct a'; [by apply (extends_origin w)|]. done. }
      destruct p as [[v t]|]; [case_match|]; intros [= <- <- <-]; apply Hkeep; simpl; try done.
      by destruct (Hp (v, t) eq_refl).
Qed.

Lemma cache_step_inv w e w' : inv w → step ttl refresh_window w e w' → inv w'.
Proof using.
  intros Hi. destruct 1 as [w t Ht|w i f r Hf Hr|w i f r Hf Hr Hd|w v|w|w v Hv|w a c' futs' Ha].
  - eapply extends_state; [|exact Hi]. split_and!; try done. intros i f Hf. by exists f.
  - destruct w as [n [s g] fs sd]. eapply extends_state; [|exact Hi].
    apply (extends_set (mkWorld n (mkCache s g) fs sd)); [done|]. simpl in Hr. by rewrite Hr.
  - destruct w as [n [s g] fs sd]. unfold inv in *. simpl in *. unfold run_task. simpl.
    assert (extends (mkWorld n (mkCache s g) fs sd)
              (mkWorld n (mkCache s g) (<[i := mkFut (f_gen f) (Some r) true]> fs) sd)) as He.
    { apply (extends_set (mkWorld n (mkCache s g) fs sd)); [done|]. intros r' Hr'. congruence. }
    destruct (g =? f_gen f)%Z eqn:Eg; to_prop.
    + apply (state_ok_after_fetch (mkWorld n (mkCache (after_fetch n _ r) g) _ sd) _ i
               (mkFut (f_gen f) (Some r) true)); simpl; try done.
      { apply list_lookup_insert_eq. by eapply lookup_lt_Some. }
      intros q Hq. destruct s as [| |p j]; try done. destruct Hi as [_ Hp].
      apply (extends_cached (mkWorld n (mkCache (Refreshing p j) g) fs sd)); [|by apply Hp].
      apply (extends_set (mkWorld n (mkCache _ g) fs sd)); [done|]. intros r' Hr'. congruence.
    + by eapply extends_state.
  - split; simpl; [|lia]. left. apply elem_of_cons. by left.
  - done.
  - done.
  - destruct w as [n [s g] fs sd]. unfold inv in Hi. simpl in *.
    by eapply (determine_action_ok (mkWorld n (mkCache s g) fs sd) 2 s).
Qed.

Lemma cache_reachable_inv w : reachable ttl refresh_window w → inv w.
Proof using. induction 1 as [|w e w' _ IH Hs]; [done|by eapply cache_step_inv]. Qed.

(** Futures are only added and resolved once. *)
Lemma determine_action_futs fuel now : ∀ c (fs : list (Fut V E)) a c' fs',
  determine_action ttl refresh_window fuel now c fs = Some (a, c', fs') → fs `prefix_of` fs'.
Proof using.
  induction fuel as [|fuel IH]; intros c fs a c' fs'; [done|]. cbn [determine_action start_fetch].
  repeat case_match; intros Hd; simplify_eq; try done; try (by apply prefix_app_r).
  by eapply IH.
Qed.

Lemma step_futs (w : World V E) e w' i f :
  step ttl refresh_window w e w' → futs w !! i = Some f →
  ∃ f', futs w' !! i = Some f' ∧ f_gen f' = f_gen f ∧ (∀ r, f_result f = Some r → f_result f' = Some r).
Proof using.
  intros Hs Hf.
  assert (∀ j g r d, futs w !! j = Some g → (∀ r', f_result g = Some r' → r' = r) →
    ∃ f', <[j := mkFut (f_gen g) (Some r) d]> (futs w) !! i = Some f' ∧ f_gen f' = f_gen f ∧
      (∀ r', f_result f = Some r' → f_result f' = Some r')) as Hset.
  { intros j g r d Hg Hr. apply (extends_set w (state (cache w)) j g r d Hg Hr); done. }
  destruct Hs as [w t Ht|w j g r Hg Hr|w j g r Hg Hr Hd|w v|w|w v Hv|w a c' futs' Ha]; simpl; eauto.
  - apply Hset; [done|]. intros r'. by rewrite Hr.
  - apply Hset; [done|]. congruence.
  - apply determine_action_futs in Ha. exists f. split; [|done]. by eapply prefix_lookup_Some.
Qed.

(** A value that is handed out is one the state holds, or a fetch that just
    completed. *)
Definition held (w : World V E) (v : V) (t : Z) : Prop :=
  state (cache w) = Current v t ∨ (∃ i, state (cache w) = Refreshing (Some (v, t)) i) ∨
  (t = now w ∧ ∃ p i, state (cache w) = Refreshing p i ∧ peek (futs w) i = Some (inl v)).

Lemma fresh_value_held w v :
  try_get ttl refresh_window (now w) (cache w) = Some v →
  ∃ t, held w v t ∧ (age (now w) t < ttl - refresh_window)%Z.
Proof using.
  unfold try_get, fresh_value, held. destruct (state (cache w)) as [|u t|[[u t]|] i]; try done;
    case_match eqn:Ea; intros [= <-]; to_prop; exists t; split; eauto.
Qed.

Lemma determine_action_held w v c' futs' :
  determine_action ttl refresh_window 2 (now w) (cache w) (futs w) = Some (Return v, c', futs') →
  ∃ t, held w v t ∧ (age (now w) t < ttl)%Z.
Proof using Hrw.
  assert (∀ fuel g u t (f : list (Fut V E)) c'' f'',
    determine_action ttl refresh_window (S fuel) (now w) (mkCache (Current u t) g) f =
      Some (Return v, c'', f'') → u = v ∧ (age (now w) t < ttl)%Z) as Hcur.
  { intros fuel g u t f c'' f''. cbn [determine_action state start_fetch].
    repeat case_match; intros; simplify_eq; to_prop; split; (done || lia). }
  unfold held. destruct w as [n [s g] fs sd]. cbn [now cache state futs] in *.
  destruct s as [|u t|p i].
  - done.
  - intros H%Hcur. destruct H as [-> Ha]. eauto.
  - intros H. cbn [determine_action state] in H. destruct (peek fs i) as [r|] eqn:Ep.
    + destruct r as [u|e]; cbn [after_fetch] in H.
      * apply (Hcur 0) in H as [-> Ha]. exists n. split; [|done]. right; right. eauto 6.
      * destruct p as [[u t]|]; [|done]. apply (Hcur 0) in H as [-> Ha]. exists t. split; eauto.
    + destruct p as [[u t]|]; [|done]. case_match eqn:Ea; [|done]. simplify_eq. to_prop.
      exists t. split; eauto.
Qed.

Lemma held_time w v t : inv w → held w v t → (t ≤ now w)%Z.
Proof using.
  unfold inv. intros Hi [Hs|[[i Hs]|[-> _]]]; [| |lia]; rewrite Hs in Hi; simpl in Hi.
  - apply Hi.
  - destruct Hi as [_ Hp]. by apply (Hp (v, t)).
Qed.
End proofs.

(** ** Theorems *)

(** What callers get, by the generations the code compares *)
Lemma cache_origins {V E : Type} ttl refresh_window (w : World V E) e w' :
  reachable ttl refresh_window w → step ttl refresh_window w e w' →
  (∀ v, e = ERet v → origin w' v) ∧ (∀ i, e = EWait i → started_now w' i).
Proof.
  intros Hr%cache_reachable_inv Hs. unfold inv in Hr. split.
  - intros v He. inversion Hs; subst; try done; simplify_eq.
    + destruct (fresh_value_held ttl refresh_window w' v) as (t & _ & _); [done|].
      unfold try_get, fresh_value in *.
      destruct (state (cache w')) as [|u t'|[[u t']|] i]; try done; case_match; simplify_eq.
      * apply Hr.
      * destruct Hr as [_ Hp]. by apply (Hp (v, t')).
    + destruct a; simplify_eq. destruct w as [n [s g] fs sd].
      by eapply (determine_action_ok ttl refresh_window (mkWorld n (mkCache s g) fs sd) 2 s (Return v)).
  - intros i He. inversion Hs; subst; try done; simplify_eq.
    destruct a; simplify_eq. destruct w as [n [s g] fs sd].
    by eapply (determine_action_ok ttl refresh_window (mkWorld n (mkCache s g) fs sd) 2 s (Wait i)).
Qed.

(** ** Generations and the order of fetches *)
Section generations.
Context {V E : Type} (ttl refresh_window : Z).
Abbreviation some_step := (λ w w' : World V E, ∃ e, step ttl refresh_window w e w').

Lemma determine_action_generation fuel n : ∀ c (fs : list (Fut V E)) a c' fs',
  determine_action ttl refresh_window fuel n c fs = Some (a, c', fs') →
  generation c' = generation c ∧ ∀ i f, fs' !! i = Some f → fs !! i = Some f ∨ f_gen f = generation c.
Proof.
  induction fuel as [|fuel IH]; intros c fs a c' fs'; [done|]. cbn [determine_action start_fetch].
  assert (∀ i f, (fs ++ [mkFut (generation c) None false]) !! i = Some f → fs !! i = Some f ∨ f_gen f = generation c) as Hnew.
  { intros i f [Hi|[_ Hi]]%lookup_app_Some; [by left|right]. apply list_lookup_singleton_Some in Hi as [_ <-]. done. }
  repeat case_match; intros Hd; try (apply IH in Hd as [-> Hd]; exact (conj eq_refl Hd));
    simplify_eq; (split; [done|]); first [exact Hnew|by left|by auto].
Qed.
(** No future has a generation above the cache's, and generations only grow. *)
Definition bounded (w : World V E) : Prop := ∀ i f, futs w !! i = Some f → (f_gen f ≤ generation (cache w))%Z.
Lemma step_generation w e w' : step ttl refresh_window w e w' → bounded w →
  bounded w' ∧ (generation (cache w) ≤ generation (cache w'))%Z ∧ (e = EInvalidate → generation (cache w) < generation (cache w'))%Z.
Proof.
  intros Hs Hb.
  assert (∀ i g r d (fs := <[i := mkFut (f_gen g) (Some r) d]> (futs w)), futs w !! i = Some g →
    ∀ j f, fs !! j = Some f → (f_gen f ≤ generation (cache w))%Z) as Hset.
  { intros i g r d fs Hg j f Hf. subst fs. destruct (decide (j = i)) as [->|Hne].
    - rewrite list_lookup_insert_eq in Hf by (by eapply lookup_lt_Some). injection Hf as <-. exact (Hb i g Hg).
    - rewrite list_lookup_insert_ne in Hf by done. exact (Hb j f Hf). }
  destruct Hs as [w t Ht|w i f r Hf Hr|w i f r Hf Hr Hd|w v|w|w v Hv|w a c' futs' Ha]; unfold bounded; simpl.
  - split_and!; [done|lia|done].
  - split_and!; [by apply (Hset i f)|lia|done].
  - assert (generation (run_task (now w) (f_gen f) r (cache w)) = generation (cache w)) as ->
      by (unfold run_task; by destruct (_ =? _)%Z).
    split_and!; [by apply (Hset i f)|lia|done].
  - split_and!; [done|lia|done].
  - split_and!; [|lia|lia]. intros i f Hf%Hb. lia.
  - split_and!; [done|lia|done].
  - apply determine_action_generation in Ha as [-> Hf]. split_and!; [|lia|by destruct a].
    intros i f [Hi| ->]%Hf; [by apply (Hb i)|lia].
Qed.
Lemma reachable_bounded w : reachable ttl refresh_window w → bounded w.
Proof. induction 1 as [t|w e w' _ IH Hs]; [intros i f Hf; by destruct i|]. by apply (step_generation _ _ _ Hs). Qed.
Lemma cache_steps_reachable w w' : reachable ttl refresh_window w → rtc some_step w w' → reachable ttl refresh_window w'.
Proof. intros Hr. induction 1 as [|w w1 w2 [e Hs] _ IH]; [done|]. apply IH. by eapply reach_step. Qed.
(** Futures that are older than the cache's generation stay so. *)
Lemma older_stay k w w' : reachable ttl refresh_window w → rtc some_step w w' →
  (∀ i f, (i < k)%nat → futs w !! i = Some f → (f_gen f < generation (cache w))%Z) → (k ≤ length (futs w))%nat →
  ∀ i f, (i < k)%nat → futs w' !! i = Some f → (f_gen f < generation (cache w'))%Z.
Proof.
  intros Hr Hs. induction Hs as [|w w1 w2 [e Hs] _ IH]; [done|]. intros Hold Hk. apply IH.
  - by eapply reach_step.
  - intros i f Hi Hf. destruct (lookup_lt_is_Some_2 (futs w) i) as [g Hg]; [lia|].
    destruct (step_futs ttl refresh_window w e w1 i g Hs Hg) as (f' & Hf' & Hgen & _). simplify_eq.
    destruct (step_generation _ _ _ Hs (reachable_bounded w Hr)) as (_ & Hle & _). specialize (Hold i g Hi Hg). lia.
  - destruct (decide (length (futs w1) < k)%nat) as [Hlt|]; [|lia]. exfalso.
    destruct (lookup_lt_is_Some_2 (futs w) (length (futs w1))) as [g Hg]; [lia|].
    destruct (step_futs ttl refresh_window w e w1 _ g Hs Hg) as (f' & Hf' & _).
    apply lookup_lt_Some in Hf'. lia.
Qed.
End generations.

(** C4: invalidation.  Whatever is interleaved after an invalidation (callers,
    fetches, late tasks, seeds, further invalidations), no caller receives a
    value of a fetch that was started before it: a value handed out was seeded
    since, or is the result of a future created since, and a caller that has to
    wait waits for a future created since. *)
Theorem cache_epoch_safety {V E : Type} ttl refresh_window (w0 w1 w w' : World V E) e :
  reachable ttl refresh_window w0 → step ttl refresh_window w0 EInvalidate w1 →
  rtc (λ w w', ∃ e, step ttl refresh_window w e w') w1 w → step ttl refresh_window w e w' →
  (∀ v, e = ERet v → v ∈ seeds w' ∨
     ∃ i f, futs w' !! i = Some f ∧ f_result f = Some (inl v) ∧ (length (futs w1) ≤ i)%nat) ∧
  (∀ i, e = EWait i → (length (futs w1) ≤ i)%nat).
Proof.
  intros Hr Hinv Hsteps Hs.
  assert (reachable ttl refresh_window w1) as Hr1 by (by eapply reach_step).
  pose proof (cache_steps_reachable ttl refresh_window w1 w Hr1 Hsteps) as Hrw.
  assert (∀ i f, (i < length (futs w1))%nat → futs w' !! i = Some f → (f_gen f < generation (cache w'))%Z) as Hold.
  { apply (older_stay ttl refresh_window _ w1 w' Hr1); [by eapply rtc_r; [|exists e]| |lia].
    intros i f _ Hf. inversion Hinv; subst; try (by destruct a). 
    pose proof (reachable_bounded ttl refresh_window w0 Hr i f Hf). simpl in *. lia. }
  destruct (cache_origins ttl refresh_window w e w' Hrw Hs) as [Hret Hwait]. split.
  - intros v Hv. destruct (Hret v Hv) as [Hseed|(i & f & Hi & Hg & Hres)]; [by left|right].
    exists i, f. split_and!; [done..|]. destruct (decide (length (futs w1) ≤ i)%nat) as [|Hlt]; [done|].
    specialize (Hold i f ltac:(lia) Hi). lia.
  - intros i Hi. destruct (Hwait i Hi) as (f & Hf & Hg).
    destruct (decide (length (futs w1) ≤ i)%nat) as [|Hlt]; [done|]. specialize (Hold i f ltac:(lia) Hf). lia.
Qed.

(** A cache of 30 seconds with a refresh window of 5. *)
Definition demo_world (t : Z) (s : State Z) (fs : list (Fut Z unit)) : World Z unit :=
  mkWorld t (mkCache s 0) fs [].

Definition pending_fut : Fut Z unit := mkFut 0 None false.
Definition ok_fut (v : Z) (d : bool) : Fut Z unit := mkFut 0 (Some (inl v)) d.

(** One caller fetched 1 and a second one took it from the completed future. *)
Lemma demo_fetched : reachable 30 5 (demo_world 0 (Refreshing None 0) [ok_fut 1 false]).
Proof.
  apply (reach_step _ _ (demo_world 0 (Refreshing None 0) [pending_fut]) EInternal).
  - apply (reach_step _ _ (demo_world 0 Empty []) (EWait 0)); [apply reach_init|].
    by apply (step_slow 30 5 (demo_world 0 Empty []) (Wait 0) (mkCache (Refreshing None 0) 0) [pending_fut]).
  - by apply (step_fetched 30 5 (demo_world 0 (Refreshing None 0) [pending_fut]) 0 pending_fut (inl 1%Z)).
Qed.

Lemma demo_adopt :
  step 30 5 (demo_world 0 (Refreshing None 0) [ok_fut 1 false]) (ERet 1%Z)
    (demo_world 0 (Current 1%Z 0) [ok_fut 1 false]).
Proof.
  by apply (step_slow 30 5 (demo_world 0 (Refreshing None 0) [ok_fut 1 false]) (Return 1%Z)
              (mkCache (Current 1%Z 0) 0) [ok_fut 1 false]).
Qed.

(** The first fetch completes only after an invalidation; the caller after it
    waits for a new one. *)
Definition invalidated (s : State Z) (fs : list (Fut Z unit)) : World Z unit := mkWorld 0 (mkCache s 1) fs [].
Definition next_fut : Fut Z unit := mkFut 1 None false.
Lemma cache_epoch_safety_witness : (length (futs (invalidated Empty [pending_fut])) ≤ 1)%nat.
Proof.
  apply (proj2 (cache_epoch_safety 30 5 (demo_world 0 (Refreshing None 0) [pending_fut])
    (invalidated Empty [pending_fut]) (invalidated Empty [ok_fut 1 true])
    (invalidated (Refreshing None 1) [ok_fut 1 true; next_fut]) (EWait 1)
    ltac:(exact (reach_step 30 5 _ _ _ (reach_init 30 5 0)
                   (step_slow 30 5 (demo_world 0 Empty []) (Wait 0) (mkCache (Refreshing None 0) 0) [pending_fut] eq_refl)))
    (step_invalidate 30 5 (demo_world 0 (Refreshing None 0) [pending_fut]))
    ltac:(eapply rtc_l; [exists EInternal; exact (step_fetched 30 5 (invalidated Empty [pending_fut]) 0 pending_fut (inl 1%Z) eq_refl eq_refl)|];
          eapply rtc_l; [exists EInternal; exact (step_task 30 5 (invalidated Empty [ok_fut 1 false]) 0 (ok_fut 1 false) (inl 1%Z) eq_refl eq_refl eq_refl)|];
          apply rtc_refl)
    (step_slow 30 5 (invalidated Empty [ok_fut 1 true]) (Wait 1) (mkCache (Refreshing None 1) 1) [ok_fut 1 true; next_fut] eq_refl)) 1 eq_refl).
Defined.

(** expiry.  Whenever a value is handed out (not awaited), it is the value
    of the current entry, of the entry being refreshed or of a fetch that just
    completed, and that entry is younger than the time to live. *)
Theorem cache_value_age {V E : Type} ttl refresh_window (w : World V E) v w' :
  (0 ≤ refresh_window < ttl)%Z →
  reachable ttl refresh_window w → step ttl refresh_window w (ERet v) w' →
  ∃ t, held w v t ∧ (t ≤ now w < t + ttl)%Z.
Proof.
  intros Hrw Hr%cache_reachable_inv Hs.
  assert (∃ t, held w v t ∧ (age (now w) t < ttl)%Z) as (t & Hh & Ha).
  { inversion Hs; subst; try done.
    - edestruct (fresh_value_held ttl refresh_window w' v) as (t & ? & ?); [done|].
      exists t. split; [done|lia].
    - destruct a; simplify_eq. by eapply determine_action_held. }
  exists t. split; [done|]. pose proof (held_time w v t Hr Hh). unfold age in Ha. lia.
Qed.

Lemma cache_value_age_witness :
  ∃ t, held (demo_world 0 (Refreshing None 0) [ok_fut 1 false]) 1%Z t ∧ (t ≤ 0 < t + 30)%Z.
Proof. apply (cache_value_age 30 5 _ _ _ ltac:(done) demo_fetched demo_adopt). Defined.

(** the decision of [get].  Under the lock, [get] adopts a fetch that
    completed and then decides by the age of the entry: fresh values are
    returned as they are; in the refresh window the value is returned and one
    background fetch is started; past the time to live, or with nothing
    cached, one fetch is started and awaited.  While a fetch is in flight
    nothing is started: callers get the previous value until it expires and
    join the fetch afterwards. *)
Theorem get_decision {V E : Type} ttl refresh_window now (c : CacheInner V) (fs : list (Fut V E)) :
  let fut := mkFut (generation c) None false in
  let settled := match state c with
                 | Refreshing p i =>
                     match peek fs i with Some r => after_fetch now p r | None => state c end
                 | s => s
                 end in
  ∃ a c' fs', determine_action ttl refresh_window 2 now c fs = Some (a, c', fs') ∧
    generation c' = generation c ∧
    match settled with
    | Empty => a = Wait (length fs) ∧ state c' = Refreshing None (length fs) ∧ fs' = fs ++ [fut]
    | Current v t =>
        if (age now t <? ttl - refresh_window)%Z
        then a = Return v ∧ state c' = Current v t ∧ fs' = fs
        else a = (if (age now t <? ttl)%Z then Return v else Wait (length fs)) ∧
             state c' = Refreshing (Some (v, t)) (length fs) ∧ fs' = fs ++ [fut]
    | Refreshing p i =>
        a = match p with
            | Some (v, t) => if (age now t <? ttl)%Z then Return v else Wait i
            | None => Wait i
            end ∧ c' = c ∧ fs' = fs
    end.
Proof.
  intros fut settled. destruct (determine_action_total ttl refresh_window now c fs) as (a & c' & fs' & Hd).
  exists a, c', fs'. split; [done|]. subst fut settled.
  destruct c as [[|v t|p i] g]; cbn [state generation] in *.
  3: destruct (peek fs i) as [[v|e]|] eqn:Ep; [| |];
     [|destruct p as [[v t]|]|]; cbn [after_fetch].
  all: cbn [determine_action state start_fetch generation] in Hd; rewrite ?Ep in Hd;
       cbn [after_fetch state generation] in Hd; repeat case_match; simplify_eq/=; done.
Qed.

(** tasks that run late.  The generation does not order fetches between two
    invalidations: here the task of the first fetch runs after the second
    fetch was cached, and the cache holds the first value again, stamped with
    the present time. *)
Theorem late_task_overwrites :
  ∃ w : World Z unit, reachable 30 5 w ∧ state (cache w) = Current 1%Z 27 ∧ now w = 27%Z ∧
    futs w = [ok_fut 1 true; ok_fut 2 true].
Proof.
  exists (demo_world 27 (Current 1%Z 27) [ok_fut 1 true; ok_fut 2 true]). split; [|done].
  eapply reach_step; [|exact (step_task 30 5 (demo_world 27 (Current 2%Z 27) [ok_fut 1 false; ok_fut 2 true])
                               0 (ok_fut 1 false) (inl 1%Z) eq_refl eq_refl eq_refl)].
  eapply reach_step; [|exact (step_task 30 5 (demo_world 27 (Refreshing (Some (1, 0))%Z 1)
                               [ok_fut 1 false; ok_fut 2 false]) 1 (ok_fut 2 false) (inl 2%Z)
                               eq_refl eq_refl eq_refl)].
  eapply reach_step; [|exact (step_fetched 30 5 (demo_world 27 (Refreshing (Some (1, 0))%Z 1)
                               [ok_fut 1 false; pending_fut]) 1 pending_fut (inl 2%Z) eq_refl eq_refl)].
  eapply reach_step; [|exact (step_slow 30 5 (demo_world 27 (Current 1%Z 0) [ok_fut 1 false]) (Return 1%Z)
                               (mkCache (Refreshing (Some (1, 0))%Z 1) 0) [ok_fut 1 false; pending_fut]
                               eq_refl)].
  eapply reach_step; [|exact (step_tick 30 5 (demo_world 0 (Current 1%Z 0) [ok_fut 1 false]) 27 ltac:(done))].
  eapply reach_step; [exact demo_fetched|exact demo_adopt].
Qed.

End BackgroundCache.
