(* ===== verification/Dataset.v ===== *)
(** * The dataset consistency wrapper (rust/lancedb/src/table/dataset.rs)

    The wrapper holds the dataset a table reads: it tracks the latest version
    of a branch, or is pinned to one version.  Its async operations release the
    lock between reading the state, talking to storage and committing, so each
    is a sequence of atomic sections; [step] interleaves them with each other
    and with writers that add versions to storage. *)

From S2P Require Import Prelude.
From S2P Require Import BackgroundCache.
Import BackgroundCache.

Module Dataset.

(** ** Data *)

(** lance's [Dataset] as far as the wrapper reads it: branch and version of the
    manifest. *)
Record Dataset : Type := mkDs {
  branch : option string;
  version : Z
}.

(** lance's [refs::Ref] *)
Inductive Ref : Type :=
  | Version (b : option string) (v : option Z)
  | VersionNumber (v : Z)
  | Tag (t : string).

Record DatasetState : Type := mkState {
  dataset : Dataset;
  pinned_version : option Z;
  query_snapshot : bool
}.

Inductive ConsistencyMode : Type :=
  | Lazy
  | Strong
  | Eventual (cache : CacheInner Dataset) (ttl refresh_window : Z).

Record Wrapper : Type := mkWrapper {
  w_state : DatasetState;
  consistency : ConsistencyMode
}.

(** Three seconds, in nanoseconds. *)
Definition three_secs : Z := 3 * 1000000000.

(** ** Construction *)
Definition new_latest (now : Z) (d : Dataset) (read_consistency_interval : option Z) : result Wrapper :=
  mode ← (match read_consistency_interval with
          | None => Ok Lazy
          | Some i =>
              if (i =? 0)%Z then Ok Strong
              else
                let refresh_window := Z.min three_secs (i / 4) in
                cache ← new i refresh_window;
                Ok (Eventual (seed now d cache) i refresh_window)
          end);
  Ok (mkWrapper (mkState d None false) mode).

Definition new_time_travel (now : Z) (d : Dataset) (interval : option Z) : result Wrapper :=
  w ← new_latest now d interval;
  Ok (mkWrapper (mkState d (Some (version d)) false) (consistency w)).

(** The second section of [new_query_snapshot], after [get]. *)
Definition query_snapshot_of (s : DatasetState) : Wrapper :=
  let internal := query_snapshot s || bool_decide (pinned_version s = None) in
  mkWrapper (mkState (dataset s) (Some (version (dataset s))) internal) Lazy.

(** ** Synchronous operations *)

(** What [get] does first; [None] means it goes on to its mode. *)
Definition get_pinned (s : DatasetState) : option Dataset :=
  match pinned_version s with Some _ => Some (dataset s) | None => None end.

(** [update]; the flag says whether the background cache is invalidated. *)
Definition update (d : Dataset) (s : DatasetState) : DatasetState * bool :=
  match pinned_version s with
  | Some _ => (s, false)
  | None =>
      (if (version (dataset s) <=? version d)%Z then mkState d None (query_snapshot s) else s, true)
  end.

Definition ensure_mutable (s : DatasetState) : result unit :=
  match pinned_version s with
  | Some _ => Err (InvalidInput "table cannot be modified when a specific version is checked out")
  | None => Ok tt
  end.

Definition current_branch (s : DatasetState) : option string := branch (dataset s).

Definition time_travel_version (s : DatasetState) : option Z :=
  if query_snapshot s then None else pinned_version s.

(** ** The sections of the asynchronous operations *)

Definition refresh_begin (s : DatasetState) : Dataset := dataset s.
Definition refresh_commit (d : Dataset) (s : DatasetState) : DatasetState :=
  match pinned_version s with
  | None => if (version (dataset s) <=? version d)%Z then mkState d None (query_snapshot s) else s
  | Some _ => s
  end.

Definition as_branch_begin (s : DatasetState) : Dataset := dataset s.
Definition as_branch_commit (d : Dataset) (s : DatasetState) : DatasetState := mkState d None false.

(** [None]: already in latest mode. *)
Definition as_latest_begin (s : DatasetState) : option Dataset :=
  match pinned_version s with None => None | Some _ => Some (dataset s) end.
Definition as_latest_commit (d : Dataset) (s : DatasetState) : DatasetState :=
  match pinned_version s with Some _ => mkState d None false | None => s end.

(** [None]: no checkout is needed. *)
Definition as_time_travel_begin (target : Ref) (s : DatasetState) : option Dataset :=
  let should :=
    match pinned_version s with
    | None => true
    | Some v =>
        match target with
        | Version _ (Some target_ver) | VersionNumber target_ver => negb (v =? target_ver)%Z
        | Version _ None | Tag _ => true
        end
    end in
  if should then Some (dataset s) else None.
Definition as_time_travel_commit (d : Dataset) (s : DatasetState) : DatasetState :=
  mkState d (Some (version d)) false.

(** [reload] refreshes when unpinned; when pinned it checks the version out
    again unless the dataset is at it. *)
Inductive reload_action : Type :=
  | ReloadRefresh
  | ReloadNothing
  | ReloadCheckout (d : Dataset) (v : Z).
Definition reload_begin (s : DatasetState) : reload_action :=
  match pinned_version s with
  | None => ReloadRefresh
  | Some v => if (version (dataset s) =? v)%Z then ReloadNothing else ReloadCheckout (dataset s) v
  end.
Definition reload_commit (v : Z) (d : Dataset) (s : DatasetState) : DatasetState :=
  if bool_decide (pinned_version s = Some v) then mkState d (Some v) (query_snapshot s) else s.

(** ** Interleavings *)

(** An operation between two of its sections. *)
Inductive Op : Type :=
  | ORefresh (d : Dataset) (seen : Z)     (* ghost: the latest version when it began *)
  | ORefreshed (d : Dataset) (seen : Z)
  | OBranch (b : string) (d : Dataset)
  | OBranched (d : Dataset)
  | OLatest (d : Dataset)
  | OLatestAt (d : Dataset) (v : Z)
  | OLatestDone (d : Dataset)
  | OTravel (target : Ref) (d : Dataset)
  | OTravelled (d : Dataset)
  | OReload (d : Dataset) (v : Z)
  | OReloaded (d : Dataset) (v : Z)
  | ODone.

Record World : Type := mkWorld {
  latest : option string → Z;     (* storage: the last version of each branch *)
  st : DatasetState;
  ops : list Op
}.

Inductive Label : Type :=
  | LWrite                        (* a writer commits to storage *)
  | LRefresh                      (* a refresh, by [get] or [reload], or [update] *)
  | LCheckout                     (* [as_branch], [as_latest], [as_time_travel] commit *)
  | LReload                       (* the commit of a pinned [reload] *)
  | LRead.                        (* sections that do not change the state *)

Section World.
(** [checkout_version] and [checkout_branch] of lance; [None] is an error. *)
Context (resolve : Dataset → Ref → option Dataset).
Context (checkout_branch : string → (option string → Z) → Dataset).

Definition put (w : World) (s : DatasetState) (o : list Op) : World := mkWorld (latest w) s o.

Inductive step : World → Label → World → Prop :=
  | step_write w latest' :
      (∀ b, (latest w b ≤ latest' b)%Z) → step w LWrite (mkWorld latest' (st w) (ops w))
  (* the storage call of an operation fails: it ends *)
  | step_fail w i o :
      ops w !! i = Some o → step w LRead (put w (st w) (<[i := ODone]> (ops w)))
  | step_update w d :
      step w LRefresh (put w (fst (update d (st w))) (ops w))
  | step_refresh_begin w :
      step w LRead (put w (st w) (ops w ++ [ORefresh (refresh_begin (st w))
                                              (latest w (branch (dataset (st w))))]))
  | step_refresh_load w i d n :
      ops w !! i = Some (ORefresh d n) →
      step w LRead (put w (st w) (<[i := ORefreshed (mkDs (branch d) (latest w (branch d))) n]> (ops w)))
  | step_refresh_commit w i d n :
      ops w !! i = Some (ORefreshed d n) →
      step w LRefresh (put w (refresh_commit d (st w)) (<[i := ODone]> (ops w)))
  | step_branch_begin w b :
      step w LRead (put w (st w) (ops w ++ [OBranch b (as_branch_begin (st w))]))
  | step_branch_load w i b d :
      ops w !! i = Some (OBranch b d) →
      step w LRead (put w (st w) (<[i := OBranched (checkout_branch b (latest w))]> (ops w)))
  | step_branch_commit w i d :
      ops w !! i = Some (OBranched d) →
      step w LCheckout (put w (as_branch_commit d (st w)) (<[i := ODone]> (ops w)))
  | step_latest_begin w d :
      as_latest_begin (st w) = Some d → step w LRead (put w (st w) (ops w ++ [OLatest d]))
  | step_latest_id w i d :
      ops w !! i = Some (OLatest d) →
      step w LRead (put w (st w) (<[i := OLatestAt d (latest w (branch d))]> (ops w)))
  | step_latest_load w i d v d' :
      ops w !! i = Some (OLatestAt d v) → resolve d (VersionNumber v) = Some d' →
      step w LRead (put w (st w) (<[i := OLatestDone d']> (ops w)))
  | step_latest_commit w i d :
      ops w !! i = Some (OLatestDone d) →
      step w LCheckout (put w (as_latest_commit d (st w)) (<[i := ODone]> (ops w)))
  | step_travel_begin w target d :
      as_time_travel_begin target (st w) = Some d →
      step w LRead (put w (st w) (ops w ++ [OTravel target d]))
  | step_travel_load w i target d d' :
      ops w !! i = Some (OTravel target d) → resolve d target = Some d' →
      step w LRead (put w (st w) (<[i := OTravelled d']> (ops w)))
  | step_travel_commit w i d :
      ops w !! i = Some (OTravelled d) →
      step w LCheckout (put w (as_time_travel_commit d (st w)) (<[i := ODone]> (ops w)))
  | step_reload_begin w d v :
      reload_begin (st w) = ReloadCheckout d v →
      step w LRead (put w (st w) (ops w ++ [OReload d v]))
  | step_reload_load w i d v d' :
      ops w !! i = Some (OReload d v) → resolve d (VersionNumber v) = Some d' →
      step w LRead (put w (st w) (<[i := OReloaded d' v]> (ops w)))
  | step_reload_commit w i d v :
      ops w !! i = Some (OReloaded d v) →
      step w LReload (put w (reload_commit v d (st w)) (<[i := ODone]> (ops w))).

(** A wrapper as its constructors leave it. *)
Definition initial (s : DatasetState) : Prop :=
  query_snapshot s = false ∧ (pinned_version s = None ∨ pinned_version s = Some (version (dataset s))).

Inductive reachable : World → Prop :=
  | reach_init l s : initial s → reachable (mkWorld l s [])
  | reach_snapshot w : reachable w →
      reachable (mkWorld (latest w) (w_state (query_snapshot_of (st w))) [])
  | reach_step w lb w' : reachable w → step w lb w' → reachable w'.
End World.

(** ** The invariant *)
Section proofs.
Context (resolve : Dataset → Ref → option Dataset).
Context (checkout_branch : string → (option string → Z) → Dataset).

#[local] Abbreviation step := (step resolve checkout_branch).
#[local] Abbreviation reachable := (reachable resolve checkout_branch).

Definition op_ok (w : World) (o : Op) : Prop :=
  match o with
  | ORefresh d seen => (seen ≤ latest w (branch d))%Z
  | ORefreshed d seen => (seen ≤ version d)%Z
  | OReload _ _ | OReloaded _ _ => False
  | _ => True
  end.

(** A pinned wrapper is at its pin, query snapshots are pinned, and a pinned
    reload never needs a checkout. *)
Definition state_inv (s : DatasetState) : Prop :=
  (∀ v, pinned_version s = Some v → version (dataset s) = v) ∧
  (query_snapshot s = true → pinned_version s ≠ None).

Definition inv (w : World) : Prop := state_inv (st w) ∧ Forall (op_ok w) (ops w).

Lemma ops_set w s i o :
  Forall (op_ok w) (ops w) → op_ok w o → Forall (op_ok (put w s (<[i := o]> (ops w)))) (<[i := o]> (ops w)).
Proof using. intros Ho Hn. by apply Forall_insert. Qed.

Lemma ops_push w s o :
  Forall (op_ok w) (ops w) → op_ok w o → Forall (op_ok (put w s (ops w ++ [o]))) (ops w ++ [o]).
Proof using. intros Ho Hn. apply Forall_app. split; [done|by apply Forall_singleton]. Qed.

Lemma op_ok_lookup w i o : Forall (op_ok w) (ops w) → ops w !! i = Some o → op_ok w o.
Proof using. intros Ho Hi. rewrite Forall_lookup in Ho. by eapply Ho. Qed.

Lemma refresh_commit_inv d s : state_inv s → state_inv (refresh_commit d s).
Proof using.
  intros [Hp Hq]. unfold refresh_commit. destruct (pinned_version s) as [v|] eqn:E.
  - split; [intros v'|]; rewrite E; auto.
  - case_match; [|split; [intros v'|]; rewrite E; auto].
    split; simpl; [done|]. intros Hs. by specialize (Hq Hs).
Qed.

Lemma update_refresh d s : fst (update d s) = refresh_commit d s.
Proof using. unfold update, refresh_commit. by destruct (pinned_version s). Qed.

Lemma reload_needs_nothing s d v : state_inv s → reload_begin s ≠ ReloadCheckout d v.
Proof using.
  intros [Hp _]. unfold reload_begin. destruct (pinned_version s) as [v'|] eqn:E; [|done].
  rewrite (Hp v' eq_refl), Z.eqb_refl. done.
Qed.

Lemma dataset_step_inv w lb w' : inv w → step w lb w' → inv w'.
Proof using.
  intros [Hs Ho]. destruct 1 as [w l Hl|w i o Hi|w d|w|w i d n Hi|w i d n Hi|w b|w i b d Hi|w i d Hi|
    w d Hd|w i d Hi|w i d v d' Hi Hr|w i d Hi|w t d Hd|w i t d d' Hi Hr|w i d Hi|w d v Hd|
    w i d v d' Hi Hr|w i d v Hi]; split; cbn [st ops put];
    try done; try (by apply ops_set); try (by apply ops_push).
  - eapply Forall_impl; [exact Ho|]. intros [] Hop; simpl in *; try done. specialize (Hl (branch d)). lia.
  - rewrite update_refresh. by apply refresh_commit_inv.
  - apply ops_push; [done|]. simpl. unfold refresh_begin. lia.
  - apply ops_set; [done|]. apply (op_ok_lookup w i _ Ho Hi).
  - by apply refresh_commit_inv.
  - unfold as_latest_commit. destruct (pinned_version (st w)); [by split|done].
  - split; simpl; [by intros v [= <-]|done].
  - by destruct (reload_needs_nothing (st w) d v Hs).
  - destruct (op_ok_lookup w i _ Ho Hi).
  - destruct (op_ok_lookup w i _ Ho Hi).
Qed.

Lemma dataset_reachable_inv w : reachable w → inv w.
Proof using.
  induction 1 as [l s [Hq Hp]|w _ [[Hp Hq] _]|w lb w' _ IH Hs]; [| |by eapply dataset_step_inv].
  - split; [split; simpl|constructor]; [|by rewrite Hq].
    intros v Hv. destruct Hp as [E|E]; rewrite E in Hv; simplify_eq. done.
  - split; [split; simpl|constructor]; [by intros v [= <-]|done].
Qed.
End proofs.

(** ** Theorems *)

(** pinning.  In every interleaving of operations and writers, a wrapper
    pinned to a version holds a dataset of exactly that version and only the
    commit of a checkout ([as_branch], [as_latest], [as_time_travel]) changes
    its state: updates after writes, refreshes that were under way and reloads
    leave it alone, and it refuses modification. *)
Theorem pinned_is_stable resolve checkout_branch w lb w' v :
  reachable resolve checkout_branch w → step resolve checkout_branch w lb w' →
  pinned_version (st w) = Some v →
  version (dataset (st w)) = v ∧ get_pinned (st w) = Some (dataset (st w)) ∧
  is_ok (ensure_mutable (st w)) = false ∧ (lb ≠ LCheckout → st w' = st w).
Proof.
  intros Hr%dataset_reachable_inv Hs Hv. pose proof Hr as [[Hp _] Ho]. split_and!; [by apply Hp|..].
  { unfold get_pinned. by rewrite Hv. }
  { unfold ensure_mutable. by rewrite Hv. }
  intros Hlb. destruct Hs; try done; simpl.
  - unfold update. by rewrite Hv.
  - unfold refresh_commit. by rewrite Hv.
  - by destruct (op_ok_lookup _ _ _ Ho H).
Qed.

(** Versions of the main branch; a reader pinned to version 3 while a refresh
    that began earlier commits. *)
Definition main_at (v : Z) : Dataset := mkDs None v.
Definition no_resolve (d : Dataset) (r : Ref) : option Dataset :=
  match r with VersionNumber v => Some (mkDs (branch d) v) | _ => None end.
Definition checkout_head (b : string) (l : option string → Z) : Dataset := mkDs (Some b) (l (Some b)).
Definition all_at (v : Z) : option string → Z := λ _, v.

Definition pinned_world : World :=
  mkWorld (all_at 7) (mkState (main_at 3) (Some 3%Z) false) [ORefreshed (main_at 7) 7; ODone].

Lemma pinned_world_reachable : reachable no_resolve checkout_head pinned_world.
Proof.
  eapply (reach_step _ _ (mkWorld (all_at 7) (mkState (main_at 5) None false)
            [ORefreshed (main_at 7) 7; OTravelled (main_at 3)]));
    [|by apply (step_travel_commit _ _ (mkWorld (all_at 7) _ [_; _]) 1)].
  eapply (reach_step _ _ (mkWorld (all_at 7) (mkState (main_at 5) None false)
            [ORefreshed (main_at 7) 7; OTravel (VersionNumber 3) (main_at 5)]));
    [|by apply (step_travel_load _ _ (mkWorld (all_at 7) _ [_; _]) 1 (VersionNumber 3) (main_at 5))].
  eapply (reach_step _ _ (mkWorld (all_at 7) (mkState (main_at 5) None false) [ORefreshed (main_at 7) 7]));
    [|by apply (step_travel_begin _ _ (mkWorld (all_at 7) (mkState (main_at 5) None false) [_])
                  (VersionNumber 3))].
  eapply (reach_step _ _ (mkWorld (all_at 7) (mkState (main_at 5) None false) [ORefresh (main_at 5) 7]));
    [|by apply (step_refresh_load _ _ (mkWorld (all_at 7) _ [_]) 0 (main_at 5) 7)].
  eapply (reach_step _ _ (mkWorld (all_at 7) (mkState (main_at 5) None false) []));
    [|by apply (step_refresh_begin _ _ (mkWorld (all_at 7) (mkState (main_at 5) None false) []))].
  apply reach_init. split; [done|by left].
Qed.

Lemma pinned_is_stable_witness :
  st (put pinned_world (refresh_commit (main_at 7) (st pinned_world)) [ODone; ODone]) = st pinned_world.
Proof.
  refine (proj2 (proj2 (proj2 (pinned_is_stable no_resolve checkout_head pinned_world LRefresh _ 3
            pinned_world_reachable _ eq_refl))) _); [|done].
  by apply (step_refresh_commit _ _ pinned_world 0 (main_at 7) 7).
Defined.

(** ** A refresh from begin to end *)
Definition refresh_track (d : Dataset) (n : Z) (o : Op) : Prop :=
  o = ORefresh d n ∨ (∃ v, o = ORefreshed (mkDs (branch d) v) n) ∨ o = ODone.

Lemma refresh_track_step resolve checkout_branch d n i w lb w' o :
  step resolve checkout_branch w lb w' → ops w !! i = Some o → refresh_track d n o →
  ∃ o', ops w' !! i = Some o' ∧ refresh_track d n o'.
Proof.
  intros Hs Hi Ht.
  assert (∀ (os : list Op), ops w = os → ∃ o', os !! i = Some o' ∧ refresh_track d n o') as Hsame
    by (intros os <-; eauto).
  assert (∀ x, ∃ o', (ops w ++ [x]) !! i = Some o' ∧ refresh_track d n o') as Hpush.
  { intros x. exists o. split; [|done]. rewrite lookup_app_l; [done|]. by eapply lookup_lt_Some. }
  assert (∀ j x y, ops w !! j = Some x → (refresh_track d n x → refresh_track d n y) →
            ∃ o', <[j := y]> (ops w) !! i = Some o' ∧ refresh_track d n o') as Hset.
  { intros j x y Hj Hxy. destruct (decide (j = i)) as [->|].
    - simplify_eq. exists y. rewrite list_lookup_insert_eq; [auto|]. by eapply lookup_lt_Some.
    - exists o. by rewrite list_lookup_insert_ne. }
  assert (∀ x, refresh_track d n x → refresh_track d n ODone) as Hdone by (intros; right; by right).
  destruct Hs; cbn [ops put]; eauto; try (eapply Hset; [done|]);
    try (intros [?|[[? ?]|?]]; done).
  intros [Ho|[[? Ho]|Ho]]; simplify_eq. right; left. eauto.
Qed.

Lemma refresh_track_steps resolve checkout_branch d n i w w' o :
  rtc (λ w w', ∃ lb, step resolve checkout_branch w lb w') w w' →
  ops w !! i = Some o → refresh_track d n o → ∃ o', ops w' !! i = Some o' ∧ refresh_track d n o'.
Proof.
  intros Hr. revert o. induction Hr as [w|w w1 w' [lb Hs] _ IH]; intros o Hi Ht; [eauto|].
  destruct (refresh_track_step _ _ d n i w lb w1 o Hs Hi Ht) as (o1 & Hi1 & Ht1). by apply (IH o1).
Qed.

(** progress of a tracking wrapper.  Updates and refreshes, in any
    interleaving, never move an unpinned wrapper to an older version and leave
    it unpinned. *)
Theorem tracking_moves_forward resolve checkout_branch w lb w' :
  reachable resolve checkout_branch w → step resolve checkout_branch w lb w' → lb ≠ LCheckout →
  (version (dataset (st w)) ≤ version (dataset (st w')))%Z ∧
  pinned_version (st w') = pinned_version (st w).
Proof.
  intros Hr%dataset_reachable_inv Hs Hlb. destruct Hr as [_ Ho].
  assert (∀ d, (version (dataset (st w)) ≤ version (dataset (refresh_commit d (st w))))%Z ∧
               pinned_version (refresh_commit d (st w)) = pinned_version (st w)) as Hrc.
  { intros d. unfold refresh_commit. destruct (pinned_version (st w)) eqn:E; [done|].
    destruct (_ <=? _)%Z eqn:El; to_prop; done. }
  destruct Hs; try done; cbn [st put]; [rewrite update_refresh; apply Hrc|apply Hrc|].
  by destruct (op_ok_lookup _ _ _ Ho H).
Qed.

Lemma tracking_moves_forward_witness :
  let w := mkWorld (all_at 7) (mkState (main_at 5) None false) [] in
  (5 ≤ version (dataset (st (put w (fst (update (main_at 4) (st w))) []))))%Z.
Proof.
  intros w. refine (proj1 (tracking_moves_forward no_resolve checkout_head w LRefresh _ _ _ _)); [| |done].
  - apply reach_init. split; [done|by left].
  - apply (step_update no_resolve checkout_head w (main_at 4)).
Defined.

Abbreviation steps resolve checkout_branch := (rtc (λ w w', ∃ lb, step resolve checkout_branch w lb w')).
Lemma steps_reachable resolve checkout_branch w w' :
  reachable resolve checkout_branch w → steps resolve checkout_branch w w' → reachable resolve checkout_branch w'.
Proof. intros Hr. induction 1 as [|w w1 w2 [lb Hs] _ IH]; [done|]. apply IH. by eapply reach_step. Qed.
Lemma tracking_steps resolve checkout_branch w w' : reachable resolve checkout_branch w →
  rtc (λ w w', ∃ lb, step resolve checkout_branch w lb w' ∧ lb ≠ LCheckout) w w' →
  (version (dataset (st w)) ≤ version (dataset (st w')))%Z ∧ pinned_version (st w') = pinned_version (st w).
Proof.
  intros Hr. induction 1 as [w|w w1 w2 (lb & Hs & Hlb) _ IH]; [done|].
  destruct (tracking_moves_forward _ _ _ _ _ Hr Hs Hlb) as [Hle Hp].
  destruct IH as [Hle' Hp']; [by eapply reach_step|]. split; [lia|congruence].
Qed.



(** construction.  For every non-negative interval the wrapper is built
    (the refresh window stays below the time to live, so the cache's assertion
    holds); zero selects strong consistency, any other interval seeds the cache
    so that the dataset is served at once. *)
Theorem new_latest_ok now d interval :
  (∀ i, interval = Some i → 0 ≤ i)%Z →
  ∃ mode, new_latest now d interval = Ok (mkWrapper (mkState d None false) mode) ∧
    match interval, mode with
    | None, Lazy => True
    | Some i, Strong => i = 0%Z
    | Some i, Eventual cache ttl refresh_window =>
        ttl = i ∧ (0 ≤ refresh_window ≤ ttl / 4)%Z ∧ try_get ttl refresh_window now cache = Some d
    | _, _ => False
    end.
Proof.
  intros Hi. unfold new_latest. destruct interval as [i|]; [|by exists Lazy].
  specialize (Hi i eq_refl). destruct (i =? 0)%Z eqn:E; to_prop; [by exists Strong|].
  assert (0 ≤ i / 4 < i)%Z as Hd by (split; [by apply Z.div_pos|apply Z.div_lt; lia]).
  assert (0 < three_secs)%Z by done.
  unfold new. rewrite (proj2 (Z.ltb_lt _ _)) by lia. run_ok.
  eexists; split; [done|]. simpl. split_and!; [done|lia|lia|].
  unfold try_get, fresh_value. simpl. unfold age. by rewrite (proj2 (Z.ltb_lt _ _)) by lia.
Qed.

Lemma new_latest_ok_witness :
  ∃ mode, new_latest 0 (main_at 1) (Some 1%Z) = Ok (mkWrapper (mkState (main_at 1) None false) mode) ∧
    match mode with
    | Lazy => False
    | Strong => 1%Z = 0%Z
    | Eventual cache ttl refresh_window =>
        ttl = 1%Z ∧ (0 ≤ refresh_window ≤ ttl / 4)%Z ∧
        try_get ttl refresh_window 0 cache = Some (main_at 1)
    end.
Proof. apply (new_latest_ok 0 (main_at 1) (Some 1%Z)). by intros i [= <-]. Defined.

(** branches and version numbers.  The wrapper compares version numbers
    only, although they are counted per branch: a refresh of main that commits
    after a switch to branch [b] moves the wrapper back to main when main has
    the higher version, and time travel to a version of branch [b] does
    nothing when the wrapper is pinned to the version of that number on main. *)
Theorem branch_switch_race :
  (∃ w1 w2, reachable no_resolve checkout_head w1 ∧
     current_branch (st w1) = Some "b" ∧ Forall (λ o, ∀ d, o ≠ OBranched d) (ops w1) ∧
     step no_resolve checkout_head w1 LRefresh w2 ∧ current_branch (st w2) = None) ∧
  as_time_travel_begin (Version (Some "b") (Some 3%Z)) (mkState (main_at 3) (Some 3%Z) false) = None.
Proof.
  split; [|done].
  set (l := λ b : option string, match b with None => 7%Z | Some _ => 2%Z end).
  set (s := mkState (main_at 5) None false).
  exists (mkWorld l (mkState (mkDs (Some "b") 2) None false) [ORefreshed (main_at 7) 7; ODone]),
    (mkWorld l (mkState (main_at 7) None false) [ODone; ODone]).
  split_and!; [|done|repeat constructor; done| |done].
  2: by apply (step_refresh_commit _ _ (mkWorld l (mkState (mkDs (Some "b") 2) None false)
                 [ORefreshed (main_at 7) 7; ODone]) 0 (main_at 7) 7).
  eapply (reach_step _ _ (mkWorld l s [ORefreshed (main_at 7) 7; OBranched (mkDs (Some "b") 2)]));
    [|by apply (step_branch_commit _ _ (mkWorld l s [_; _]) 1)].
  eapply (reach_step _ _ (mkWorld l s [ORefreshed (main_at 7) 7; OBranch "b" (main_at 5)]));
    [|by apply (step_branch_load no_resolve checkout_head (mkWorld l s [ORefreshed (main_at 7) 7; OBranch "b" (main_at 5)]) 1 "b" (main_at 5))].
  eapply (reach_step _ _ (mkWorld l s [ORefreshed (main_at 7) 7]));
    [|by apply (step_branch_begin _ _ (mkWorld l s [_]) "b")].
  eapply (reach_step _ _ (mkWorld l s [ORefresh (main_at 5) 7]));
    [|by apply (step_refresh_load _ _ (mkWorld l s [_]) 0 (main_at 5) 7)].
  eapply (reach_step _ _ (mkWorld l s [])); [|by apply (step_refresh_begin _ _ (mkWorld l s []))].
  apply reach_init. split; [done|by left].
Qed.

End Dataset.
