(* ===== verification/Retry.v ===== *)
(** * Retries of the remote client (rust/lancedb/src/remote/retry.rs and
      [send_with_retry] of remote/client.rs)

    The counters of failures with their limits, the backoff, and the loop that
    sends a request until it is answered.  What the server and the transport
    answer to each attempt is a parameter. *)

From S2P Require Import Prelude.
From Stdlib Require Import SpecFloat.
From S2P Require Import Floats.

Module Retry.

(** ** Data *)

(** The questions asked of a [reqwest::Error]. *)
Record ReqwestError : Type := mkReqwestError {
  is_connect : bool;
  is_timeout : bool;
  is_body : bool;
  is_decode : bool;
  status : option Z
}.

(** client.rs [RetryConfig]; the [Option] fields have their [u8]s and [f32]s. *)
Record RetryConfig : Type := mkRetryConfig {
  c_retries : option Z;
  c_connect_retries : option Z;
  c_read_retries : option Z;
  c_backoff_factor : option F32.t;
  c_backoff_jitter : option F32.t;
  c_statuses : option (list Z)
}.

Record ResolvedRetryConfig : Type := mkResolved {
  retries : Z;
  connect_retries : Z;
  read_retries : Z;
  backoff_factor : F32.t;
  backoff_jitter : F32.t;
  statuses : list Z
}.

Record RetryCounter : Type := mkCounter {
  request_failures : Z;
  connect_failures : Z;
  read_failures : Z;
  config : ResolvedRetryConfig;
  request_id : string
}.

(** [StatusCode::from_u16(status).unwrap()] *)
Definition status_code (s : Z) : result Z :=
  if (100 <=? s)%Z && (s <? 1000)%Z then Ok s else Panic.

(** [ResolvedRetryConfig::try_from] *)
Definition try_from (c : RetryConfig) : result ResolvedRetryConfig :=
  let quarter := F32.of_decimal 25 2 in
  codes ← try_map status_code (default [409; 429; 500; 502; 503; 504]%Z (c_statuses c));
  Ok (mkResolved (default 3%Z (c_retries c)) (default 3%Z (c_connect_retries c))
        (default 3%Z (c_read_retries c)) (default quarter (c_backoff_factor c))
        (default quarter (c_backoff_jitter c)) codes).

Section Retry.
Context {prof : Profile}.

(** [+= 1] on a [u8]. *)
Definition u8_incr (n : Z) : result Z :=
  if (n <? 255)%Z then Ok (n + 1)%Z else if overflow_checks then Panic else Ok 0%Z.

Definition new (config : ResolvedRetryConfig) (request_id : string) : RetryCounter :=
  mkCounter 0 0 0 config request_id.

Definition check_out_of_retries (c : RetryCounter) (status_code : option Z) : result RetryCounter :=
  let l := config c in
  if (retries l <=? request_failures c)%Z || (connect_retries l <=? connect_failures c)%Z ||
     (read_retries l <=? read_failures c)%Z
  then Err (Prelude.Retry (request_id c) (request_failures c) (retries l)
              (connect_failures c) (connect_retries l) (read_failures c) (read_retries l) status_code)
  else Ok c.

Definition http_status (source : Error) : option Z :=
  match source with Http _ code => code | _ => None end.

Definition increment_request_failures (c : RetryCounter) (source : Error) : result RetryCounter :=
  n ← u8_incr (request_failures c);
  check_out_of_retries (mkCounter n (connect_failures c) (read_failures c) (config c) (request_id c))
    (http_status source).

Definition increment_connect_failures (c : RetryCounter) (source : ReqwestError) : result RetryCounter :=
  n ← u8_incr (connect_failures c);
  check_out_of_retries (mkCounter (request_failures c) n (read_failures c) (config c) (request_id c))
    (status source).

Definition increment_read_failures (c : RetryCounter) (source : ReqwestError) : result RetryCounter :=
  n ← u8_incr (read_failures c);
  check_out_of_retries (mkCounter (request_failures c) (connect_failures c) n (config c) (request_id c))
    (status source).

(** [increment_from_error]: [cause] is the [reqwest::Error] an HTTP error was
    made from, if it was. *)
Definition increment_from_error (c : RetryCounter) (source : Error) (cause : option ReqwestError)
    : result RetryCounter :=
  let cause_is (p : ReqwestError → bool) := match cause with Some e => p e | None => false end in
  c' ← (if cause_is is_connect then
          n ← u8_incr (connect_failures c);
          Ok (mkCounter (request_failures c) n (read_failures c) (config c) (request_id c))
        else if cause_is is_body || cause_is is_decode then
          n ← u8_incr (read_failures c);
          Ok (mkCounter (request_failures c) (connect_failures c) n (config c) (request_id c))
        else
          n ← u8_incr (request_failures c);
          Ok (mkCounter n (connect_failures c) (read_failures c) (config c) (request_id c)));
  check_out_of_retries c' (http_status source).

(** [next_sleep_time], in seconds; [random] is drawn from [0, 1).
    [Duration::from_secs_f32] panics when it has no such duration. *)
Definition next_sleep_time (c : RetryCounter) (random : F32.t) : result F32.t :=
  let backoff := F32.mul (backoff_factor (config c)) (F32.of_Z (2 ^ request_failures c)) in
  let jitter := F32.mul random (backoff_jitter (config c)) in
  let s := F32.add backoff jitter in
  match s with
  | S754_nan | S754_infinity _ | S754_finite true _ _ => Panic
  | _ => if F32.ltb s (F32.of_Z (2 ^ 64)) then Ok s else Panic
  end.

(** ** The loop *)

(** The answer to one attempt: a response with a status, or an error. *)
Inductive Reply : Type :=
  | Response (code : Z)
  | Failure (e : ReqwestError).

Definition is_success (code : Z) : bool := (200 <=? code)%Z && (code <? 300)%Z.
Definition is_server_error (code : Z) : bool := (500 <=? code)%Z && (code <? 600)%Z.

Definition retryable (c : ResolvedRetryConfig) (retry_5xx : bool) (code : Z) : bool :=
  (retry_5xx && bool_decide (code ∈ statuses c)) ||
  bool_decide (code ∈ filter (λ s, is_server_error s = false) (statuses c)).

(** [attempt n] is what happens to attempt [n] (a body or a request that
    cannot be built is an error of the caller), [random n] the draw after it.
    The result is the outcome and the number of attempts; [None] only means
    that the fuel ran out. *)
Fixpoint send_loop (fuel : nat) (retry_5xx : bool) (attempt : nat → result Reply)
    (random : nat → F32.t) (n : nat) (c : RetryCounter) : option (result (string * Z) * nat) :=
  match fuel with
  | O => None
  | S fuel' =>
      let next (r : result RetryCounter) :=
        match r with
        | Ok c' =>
            match next_sleep_time c' (random n) with
            | Ok _ => send_loop fuel' retry_5xx attempt random (S n) c'
            | Err e => Some (Err e, S n)
            | Panic => Some (Panic, S n)
            end
        | Err e => Some (Err e, S n)
        | Panic => Some (Panic, S n)
        end in
      match attempt n with
      | Err e => Some (Err e, S n)
      | Panic => Some (Panic, S n)
      | Ok (Response code) =>
          if is_success code then Some (Ok (request_id c, code), S n)
          else if retryable (config c) retry_5xx code then
            next (increment_request_failures c (Http (request_id c) (Some code)))
          else Some (Ok (request_id c, code), S n)
      | Ok (Failure e) =>
          if is_connect e then next (increment_connect_failures c e)
          else if is_timeout e || is_body e || is_decode e then next (increment_read_failures c e)
          else Some (Err (Http (request_id c) (status e)), S n)
      end
  end.

Definition send_with_retry (fuel : nat) (config : ResolvedRetryConfig) (request_id : string)
    (retry_5xx : bool) (attempt : nat → result Reply) (random : nat → F32.t)
    : option (result (string * Z) * nat) :=
  send_loop fuel retry_5xx attempt random 0 (new config request_id).
End Retry.

(** ** The counters *)
Definition u8_range (z : Z) : Prop := (0 ≤ z < 256)%Z.

Definition limits_ok (l : ResolvedRetryConfig) : Prop :=
  u8_range (retries l) ∧ u8_range (connect_retries l) ∧ u8_range (read_retries l).

(** Below every limit: the loop goes on. *)
Definition in_budget (c : RetryCounter) : Prop :=
  (0 ≤ request_failures c < retries (config c) ∧ 0 ≤ connect_failures c < connect_retries (config c) ∧
   0 ≤ read_failures c < read_retries (config c))%Z.

Definition failures (c : RetryCounter) : Z :=
  (request_failures c + connect_failures c + read_failures c)%Z.

(** The attempts a configuration allows. *)
Definition max_attempts (l : ResolvedRetryConfig) : Z :=
  Z.max 1 (retries l + connect_retries l + read_retries l - 2).

Section proofs.
Context {prof : Profile}.

Lemma u8_incr_ok n : (0 ≤ n < 255)%Z → u8_incr n = Ok (n + 1)%Z.
Proof. intros. unfold u8_incr. by rewrite (proj2 (Z.ltb_lt _ _)) by lia. Qed.

(** A counter that is checked either stays in budget or is reported. *)
Lemma check_cases c code :
  (0 ≤ request_failures c ∧ 0 ≤ connect_failures c ∧ 0 ≤ read_failures c)%Z →
  (check_out_of_retries c code = Ok c ∧ in_budget c) ∨
  (∃ e, check_out_of_retries c code = Err e ∧ ¬ in_budget c).
Proof.
  intros H0. unfold check_out_of_retries, in_budget.
  destruct (_ || _ || _) eqn:E; [right|left].
  - eexists; split; [done|]. apply orb_true_iff in E as [E|E]; [apply orb_true_iff in E as [E|E]|];
      to_prop; lia.
  - apply orb_false_iff in E as [[E1 E2]%orb_false_iff E3]. to_prop. split; [done|lia].
Qed.

(** What one counted failure does, whichever counter it goes to. *)
Definition counted (c : RetryCounter) (r : result RetryCounter) : Prop :=
  (∃ c', r = Ok c' ∧ in_budget c' ∧ config c' = config c ∧ failures c' = (failures c + 1)%Z) ∨
  ∃ e, r = Err e.

Lemma counted_intro c c' code :
  (0 ≤ request_failures c' ∧ 0 ≤ connect_failures c' ∧ 0 ≤ read_failures c')%Z →
  config c' = config c → failures c' = (failures c + 1)%Z → counted c (check_out_of_retries c' code).
Proof. intros H0 Hc Hf. destruct (check_cases c' code H0) as [[-> ?]|(e & -> & ?)]; [left|right]; eauto. Qed.

Lemma increments_counted c :
  in_budget c ∨ failures c = 0%Z ∧ (0 ≤ request_failures c ∧ 0 ≤ connect_failures c ∧ 0 ≤ read_failures c)%Z →
  limits_ok (config c) →
  (∀ e, counted c (increment_request_failures c e)) ∧ (∀ e, counted c (increment_connect_failures c e)) ∧
  (∀ e, counted c (increment_read_failures c e)).
Proof.
  intros Hb (Hr & Hc & Hd). unfold in_budget, failures, u8_range in *.
  unfold increment_request_failures, increment_connect_failures, increment_read_failures.
  split_and!; intros e; rewrite u8_incr_ok by lia; cbn [mbind outcome_bind];
    apply counted_intro; unfold failures; simpl; (done || lia).
Qed.

(** The answer is one after which the request is sent again, budget permitting. *)
Definition sends_again (l : ResolvedRetryConfig) (retry_5xx : bool) (a : result Reply) : bool :=
  match a with
  | Ok (Response code) => negb (is_success code) && retryable l retry_5xx code
  | Ok (Failure e) => is_connect e || is_timeout e || is_body e || is_decode e
  | _ => false
  end.

(** The run from attempt [n] on: it ended after [k] attempts with [r]. *)
Definition run_ok (l : ResolvedRetryConfig) (retry_5xx : bool) (attempt : nat → result Reply)
    (n : nat) (r : result (string * Z)) (k : nat) : Prop :=
  n < k ∧ (Z.of_nat k ≤ max_attempts l)%Z ∧
  (∀ j, n ≤ j → S j < k → sends_again l retry_5xx (attempt j) = true) ∧
  (∀ id code, r = Ok (id, code) →
     attempt (Nat.pred k) = Ok (Response code) ∧
     sends_again l retry_5xx (attempt (Nat.pred k)) = false).

Lemma retry_on_5xx l code :
  is_server_error code = true → retryable l false code = false.
Proof.
  intros H. unfold retryable. simpl. apply bool_decide_eq_false. rewrite list_elem_of_filter.
  intros [? ?]. congruence.
Qed.

Lemma send_loop_total retry_5xx attempt random fuel : ∀ n c,
  (in_budget c ∧ failures c = Z.of_nat n) ∨
    (n = 0%nat ∧ request_failures c = 0 ∧ connect_failures c = 0 ∧ read_failures c = 0)%Z →
  limits_ok (config c) → (max_attempts (config c) < Z.of_nat (fuel + n))%Z →
  ∃ r k, send_loop fuel retry_5xx attempt random n c = Some (r, k) ∧
    run_ok (config c) retry_5xx attempt n r k.
Proof.
  induction fuel as [|fuel IH]; intros n c Hb Hl Hf.
  { exfalso. unfold max_attempts, in_budget, failures in *. lia. }
  assert (Z.of_nat (S n) ≤ max_attempts (config c))%Z as Hn.
  { unfold max_attempts, in_budget, failures in *. lia. }
  assert (∀ r : result (string * Z), (∀ id code, r = Ok (id, code) → attempt n = Ok (Response code) ∧
            sends_again (config c) retry_5xx (attempt n) = false) →
          ∃ r' k, Some (r, S n) = Some (r', k) ∧ run_ok (config c) retry_5xx attempt n r' k) as Hend.
  { intros r Hr. exists r, (S n). split; [done|]. split_and!; [lia|done|lia|exact Hr]. }
  set (next := λ r : result RetryCounter, match r with
    | Ok c' =>
        match next_sleep_time c' (random n) with
        | Ok _ => send_loop fuel retry_5xx attempt random (S n) c'
        | Err e => Some (Err e, S n)
        | Panic => Some (Panic, S n)
        end
    | Err e => Some (Err e, S n)
    | Panic => Some (Panic, S n)
    end).
  assert (∀ r, counted c r → sends_again (config c) retry_5xx (attempt n) = true →
          ∃ r' k, next r = Some (r', k) ∧ run_ok (config c) retry_5xx attempt n r' k) as Hnext.
  { intros r [(c' & -> & Hb' & Hc & Hfl)|[e ->]] Hs; [|by apply Hend]. simpl.
    destruct (next_sleep_time c' (random n)) as [t|e|]; [|by apply Hend..].
    destruct (IH (S n) c') as (r' & k & E & Hk & Hm & Hj & Hr); rewrite ?Hc; [|done|lia|].
    - left. split; [done|]. unfold failures in *. lia.
    - exists r', k. split; [done|]. rewrite Hc in *. split_and!; [lia|done| |done].
      intros j Hj1 Hj2. destruct (decide (j = n)) as [->|]; [done|]. apply Hj; lia. }
  destruct (increments_counted c) as (H1 & H2 & H3); [|done|].
  { unfold failures in *. destruct Hb as [[? ?]|]; [by left|right; lia]. }
  cbn [send_loop]. fold next.
  destruct (attempt n) as [[code|e]|e|] eqn:Ea; [| |by apply Hend..]; simpl in *.
  - destruct (is_success code) eqn:E1; [apply Hend; by intros ? ? [= <- <-]|].
    destruct (retryable _ _ code) eqn:E2; [by apply Hnext|apply Hend; by intros ? ? [= <- <-]].
  - destruct (is_connect e); [by apply Hnext|].
    destruct (is_timeout e || is_body e || is_decode e) eqn:E; [|by apply Hend].
    apply Hnext; [done|]. by rewrite <- E.
Qed.
End proofs.

(** ** Theorems *)

(** C9: the retry loop ends and sends again only what may be sent again.
    Whatever the server answers, the loop stops after at least one attempt and
    at most [retries + connect_retries + read_retries - 2] of them (one, if that
    is not positive).  Every attempt but the last was answered by a status that
    may be retried or by a failure to connect or to read; a response that is
    returned is the answer to the last attempt and may not be retried.  Without
    [retry_5xx] an answer in the 500s is therefore the last one: a write is
    never sent again after it, whatever statuses are configured. *)
Theorem send_with_retry_total {prof : Profile} config id retry_5xx attempt random fuel :
  limits_ok config → (max_attempts config < Z.of_nat fuel)%Z →
  ∃ r n, send_with_retry fuel config id retry_5xx attempt random = Some (r, n) ∧
    1 ≤ n ∧ run_ok config retry_5xx attempt 0 r n ∧
    (retry_5xx = false → ∀ j code, attempt j = Ok (Response code) → is_server_error code = true → n ≤ S j).
Proof.
  intros Hl Hf. destruct (send_loop_total retry_5xx attempt random fuel 0 (new config id))
    as (r & n & E & Hr); [by right|done|simpl; lia|].
  exists r, n. pose proof Hr as (Hn & _ & Hs & _). split_and!; [done|done|done|].
  intros -> j code Ej H5. destruct (decide (n ≤ S j)) as [|Hj]; [done|exfalso].
  specialize (Hs j). simpl in Hs. rewrite Ej in Hs. simpl in Hs. rewrite retry_on_5xx in Hs by done.
  rewrite andb_false_r in Hs. discriminate Hs; lia.
Qed.

Definition default_resolved : ResolvedRetryConfig :=
  mkResolved 3 3 3 (F32.of_decimal 25 2) (F32.of_decimal 25 2) [409; 429; 500; 502; 503; 504]%Z.

(** A write that is answered 429, then 503. *)
Definition busy_then_down (n : nat) : result Reply :=
  Ok (Response (if Nat.eqb n 0 then 429%Z else 503%Z)).

Lemma send_with_retry_total_witness :
  ∃ r n, send_with_retry (prof := true) 8 default_resolved "id" false busy_then_down (λ _, F32.zero) = Some (r, n) ∧
    1 ≤ n ∧ run_ok default_resolved false busy_then_down 0 r n ∧
    (false = false → ∀ j code, busy_then_down j = Ok (Response code) → is_server_error code = true → n ≤ S j).
Proof.
  apply (@send_with_retry_total true default_resolved "id" false busy_then_down (λ _, F32.zero) 8); by vm_compute.
Defined.

Example busy_then_down_twice :
  send_with_retry (prof := true) 8 default_resolved "id" false busy_then_down (λ _, F32.zero) =
    Some (Ok ("id", 503%Z), 2).
Proof. vm_compute. done. Qed.

(** [retries] counts attempts.  The documentation calls [retries] the number
    of times a failed request is retried, three by default, the first time
    after 0.25 seconds.  Against a server that keeps answering 503 the default
    configuration makes three attempts, that is two retries, and the first
    waits 0.5 seconds; after a failure to connect it waits 0.25 seconds however
    often that happens.  A status outside 100 to 999 in the configuration
    panics. *)
Theorem retries_count_attempts :
  send_with_retry (prof := true) 8 default_resolved "id" true (λ _, Ok (Response 503)) (λ _, F32.zero) =
    Some (Err (Prelude.Retry "id" 3 3 0 3 0 3 (Some 503%Z)), 3) ∧
  next_sleep_time (mkCounter 1 0 0 default_resolved "id") F32.zero = Ok (F32.of_decimal 5 1) ∧
  next_sleep_time (mkCounter 0 2 0 default_resolved "id") F32.zero = Ok (F32.of_decimal 25 2) ∧
  try_from (mkRetryConfig None None None None None None) = Ok default_resolved ∧
  try_from (mkRetryConfig None None None None None (Some [1000%Z])) = Panic.
Proof. vm_compute. done. Qed.

End Retry.
