(* ===== verification/Hybrid.v ===== *)
(** * Hybrid search (rust/lancedb/src/query/hybrid.rs, rerankers.rs,
      rerankers/rrf.rs and [run_hybrid] of query.rs)

    A hybrid query runs a vector search and a full text search, normalises
    their scores, merges and reranks them and returns the best rows.  The two
    searches and the kernels of Arrow are parameters; the fallback for the
    write-ahead log ([pk_fusion]) is the [None] case. *)

From S2P Require Import Prelude.
From stdpp Require Import sorting.
From Stdlib Require Import SpecFloat Sorting.Sorted.
From S2P Require Import Floats Arrow.

Module Hybrid.

(** ** Kernels of Arrow *)

(** A [Float32Array], and an argument of an arithmetic kernel. *)
Abbreviation f32s := (list (option F32.t)).
Inductive Datum : Type :=
  | Array (a : f32s)
  | Scalar (x : F32.t).

Class HybridKernels : Type := {
  filter_record_batch : RecordBatch → list bool → result RecordBatch;
  array_take : column → list Z → result column;
  (** the positions of the values in sorted order, nulls first *)
  sort_to_indices : f32s → bool → result (list Z);
  rank_kernel : f32s → bool → result (list Z);
  max_kernel : f32s → option F32.t;
  min_kernel : f32s → option F32.t;
  sub_kernel : Datum → Datum → result f32s;
  div_kernel : Datum → Datum → result f32s
}.

(** ** Data *)
Definition ROW_ID : string := "_rowid".
Definition DIST_COL : string := "_distance".
Definition SCORE_COL : string := "_score".
Definition RELEVANCE_SCORE : string := "_relevance_score".
Definition DEFAULT_TOP_K : nat := 10.

Inductive NormalizeMethod : Type := Score | Rank.

#[export] Instance NormalizeMethod_eq_dec : EqDecision NormalizeMethod.
Proof. solve_decision. Defined.

(** [trait Reranker]: [rerank_hybrid] *)
Definition Reranker : Type := string → RecordBatch → RecordBatch → result RecordBatch.

(** What [run_hybrid] reads of the request. *)
Record HybridRequest : Type := mkRequest {
  norm : option NormalizeMethod;
  reranker : option Reranker;
  full_text_search : option string;
  limit : option nat;
  with_row_id : bool
}.

(** [.unwrap()] of a [Result]. *)
Definition unwrap_ok {A} (r : result A) : result A :=
  match r with Ok a => Ok a | _ => Panic end.

(** [downcast_array]: panics at another type. *)
Definition f32_array (f : Field) (c : column) : result f32s :=
  if bool_decide (f_type f = Float32)
  then Ok ((λ x, match x with CF32 v => Some v | _ => None end) <$> c) else Panic.

Definition f32_column (a : f32s) : column :=
  (λ x, match x with Some v => CF32 v | None => CNull end) <$> a.

Section Hybrid.
Context {K : ArrowKernels} {HK : HybridKernels} {D : DropColumn}.

(** The value buffer's content at null slots. *)
Context (null_slot : Z).

Definition u64_array (f : Field) (c : column) : result (list Z) :=
  if bool_decide (f_type f = UInt64)
  then Ok ((λ x, match x with CU64 z => z | _ => null_slot end) <$> c) else Panic.

(** [columns[column_idx] = Arc::new(..)] and [RecordBatch::try_new] *)
Definition with_column (results : RecordBatch) (name : string) (c : column) : result RecordBatch :=
  idx ← unwrap (fst <$> list_find (λ f, f_name f = name) (rb_fields results));
  try_new (rb_fields results) (<[idx := c]> (rb_columns results)).

Definition not_found : Error := InvalidInput "expected column {} not found in rank. found columns {:?}".

(** ** hybrid.rs *)
Definition rank (results : RecordBatch) (name : string) (ascending : option bool) : result RecordBatch :=
  scores ← ok_or not_found (column_by_name results name);
  if rb_num_rows results =? 0 then Ok results
  else
    scores ← f32_array (fst scores) (snd scores);
    ranks ← rank_kernel scores (negb (default true ascending));
    with_column results name ((λ i, CF32 (F32.of_Z i)) <$> ranks).

Definition with_field_name_replaced (schema : list Field) (target replacement : string) : list Field :=
  match list_find (λ f, f_name f = target) schema with
  | Some (idx, f) =>
      <[idx := mkField replacement (f_type f) (f_nullable f) (f_metadata f)]> schema
  | None => schema
  end.

Definition empty_fts_schema : list Field :=
  [mkField SCORE_COL Float32 false ∅; mkField ROW_ID UInt64 false ∅].
Definition empty_vec_schema : list Field :=
  [mkField DIST_COL Float32 false ∅; mkField ROW_ID UInt64 false ∅].

Definition query_schemas (fts_results vec_results : list RecordBatch) : list Field * list Field :=
  match head (rb_fields <$> fts_results), head (rb_fields <$> vec_results) with
  | Some fts_schema, Some vec_schema => (fts_schema, vec_schema)
  | None, Some vec_schema => (with_field_name_replaced vec_schema DIST_COL SCORE_COL, vec_schema)
  | Some fts_schema, None => (fts_schema, with_field_name_replaced fts_schema DIST_COL SCORE_COL)
  | None, None => (empty_fts_schema, empty_vec_schema)
  end.

Definition normalize_scores (results : RecordBatch) (name : string) (invert : option bool)
    : result RecordBatch :=
  scores ← ok_or not_found (column_by_name results name);
  if rb_num_rows results =? 0 then Ok results
  else
    scores ← f32_array (fst scores) (snd scores);
    let max := default F32.zero (max_kernel scores) in
    let min := default F32.zero (min_kernel scores) in
    let rng := if F32.ltb (F32.sub max min) (F32.of_decimal 1 4) then max else F32.sub max min in
    scores ← (if F32.eqb rng F32.zero then Ok scores
              else
                shifted ← sub_kernel (Array scores) (Scalar min);
                div_kernel (Array shifted) (Scalar rng));
    scores ← (if default false invert then sub_kernel (Scalar F32.one) (Array scores)
              else Ok scores);
    unwrap_ok (with_column results name (f32_column scores)).

(** ** rerankers.rs *)

(** The mask of the ids that are new to the [BTreeSet]. *)
Fixpoint new_ids (unique_ids : list Z) (row_ids : list Z) : list bool :=
  match row_ids with
  | [] => []
  | id :: row_ids' =>
      if bool_decide (id ∈ unique_ids) then false :: new_ids unique_ids row_ids'
      else true :: new_ids (id :: unique_ids) row_ids'
  end.

Definition merge_results (vector_results fts_results : RecordBatch) : result RecordBatch :=
  combined ← concat_batches (rb_fields fts_results) [vector_results; fts_results];
  row_ids ← ok_or (InvalidInput "could not find expected column {} while merging results. found columns {:?}")
              (column_by_name combined ROW_ID);
  row_ids ← u64_array (fst row_ids) (snd row_ids);
  filter_record_batch combined (new_ids [] row_ids).

Definition check_reranker_result (results : RecordBatch) : result unit :=
  if bool_decide (RELEVANCE_SCORE ∈ f_name <$> rb_fields results) then Ok tt
  else Err (Schema "rerank_hybrid must return a RecordBatch with a column named {}").

(** ** rrf.rs *)
Definition reciprocal (k : F32.t) (i : nat) : F32.t :=
  F32.div F32.one (F32.add (F32.of_Z (Z.of_nat i)) k).

(** [update_score_map] over [ids.enumerate()]. *)
Definition update_score_map (k : F32.t) (ids : list Z) (m : gmap Z F32.t) : gmap Z F32.t :=
  foldl (λ m p, let score := reciprocal k p.1 in
           <[p.2 := match m !! p.2 with Some e => F32.add e score | None => score end]> m)
    m (imap pair ids).

Definition relevance_field : Field := mkField RELEVANCE_SCORE Float32 false ∅.

Definition rerank_hybrid (k : F32.t) : Reranker := λ _ vector_results fts_results,
  vector_ids ← ok_or (InvalidInput "expected column {} not found in vector_results. found columns {:?}")
                 (column_by_name vector_results ROW_ID);
  fts_ids ← ok_or (InvalidInput "expected column {} not found in fts_results. found columns {:?}")
              (column_by_name fts_results ROW_ID);
  vector_ids ← u64_array (fst vector_ids) (snd vector_ids);
  fts_ids ← u64_array (fst fts_ids) (snd fts_ids);
  let rrf_score_map := update_score_map k fts_ids (update_score_map k vector_ids ∅) in
  combined_results ← merge_results vector_results fts_results;
  combined_row_ids ← unwrap (column_by_name combined_results ROW_ID);
  combined_row_ids ← u64_array (fst combined_row_ids) (snd combined_row_ids);
  relevance_scores ← try_map (λ row_id, unwrap (rrf_score_map !! row_id)) combined_row_ids;
  sort_indices ← unwrap_ok (sort_to_indices (Some <$> relevance_scores) true);
  columns ← try_map (λ c, unwrap_ok (array_take c sort_indices))
              (rb_columns combined_results ++ [CF32 <$> relevance_scores]);
  try_new (rb_fields combined_results ++ [relevance_field]) columns.

(** [RRFReranker::default()] *)
Definition default_reranker : Reranker := rerank_hybrid (F32.of_Z 60).

(** ** query.rs *)
Fixpoint batch_chunks (fuel : nat) (batch : RecordBatch) (max_batch_length offset : nat)
    : result (list RecordBatch) :=
  if offset <? rb_num_rows batch then
    match fuel with
    | O => Panic
    | S fuel' =>
        let length := Nat.min (rb_num_rows batch - offset) max_batch_length in
        rest ← batch_chunks fuel' batch max_batch_length (offset + length);
        Ok (rb_slice batch offset length :: rest)
    end
  else Ok [].

Definition single_batch_stream (batch : RecordBatch) (max_batch_length : nat) : result Stream :=
  if (max_batch_length =? 0) || (rb_num_rows batch <=? max_batch_length)
  then Ok (mkStream (rb_fields batch) [Ok batch])
  else
    batches ← batch_chunks (rb_num_rows batch) batch max_batch_length 0;
    Ok (mkStream (rb_fields batch) (Ok <$> batches)).

(** The part of [run_hybrid] between the legs and the row id of the answer:
    ranks, scores, the reranker and the limit. *)
Definition rerank_legs (request : HybridRequest) (vec_results fts_results : RecordBatch)
    : result RecordBatch :=
  let by_rank := bool_decide (norm request = Some Rank) in
  vec_results ← (if by_rank then rank vec_results DIST_COL None else Ok vec_results);
  fts_results ← (if by_rank then rank fts_results SCORE_COL None else Ok fts_results);
  vec_results ← normalize_scores vec_results DIST_COL None;
  fts_results ← normalize_scores fts_results SCORE_COL None;
  query ← ok_or (Runtime "there should be an FTS search") (full_text_search request);
  results ← default default_reranker (reranker request) query vec_results fts_results;
  _ ← check_reranker_result results;
  let limit := default DEFAULT_TOP_K (limit request) in
  Ok (if limit <? rb_num_rows results then rb_slice results 0 limit else results).

(** [legs] is the outcome of the two searches, [fts_results] and
    [vec_results]; the joining on a primary key ([pk_fusion]) is in WalFusion. *)
Definition run_hybrid (request : HybridRequest) (legs : result (list RecordBatch * list RecordBatch))
    (max_batch_length : nat) : result Stream :=
  results ← legs;
  let schemas := query_schemas (fst results) (snd results) in
  fts_results ← concat_batches (fst schemas) (fst results);
  vec_results ← concat_batches (snd schemas) (snd results);
  results ← rerank_legs request vec_results fts_results;
  results ← (if with_row_id request then Ok results else drop_column results ROW_ID);
  single_batch_stream results max_batch_length.
End Hybrid.

(** ** What the kernels promise *)

(** The positions at which a mask is true. *)
Definition mask_positions (mask : list bool) : list Z :=
  Z.of_nat <$> (fst <$> filter (λ p, p.2 = true) (imap pair mask)).

(** Nulls stay null. *)
Definition map_f32 (g : F32.t → F32.t) (xs : f32s) : f32s := option_map g <$> xs.

(** [v_i] may come before [v_j]. *)
Definition in_order (desc : bool) (xs : list F32.t) (i j : Z) : Prop :=
  ∀ x y, xs !! Z.to_nat i = Some x → xs !! Z.to_nat j = Some y →
    F32.ltb (if desc then x else y) (if desc then y else x) = false.

Class HybridLaws (HK : HybridKernels) : Prop := {
  filter_record_batch_ok b mask :
    rb_wf b → length mask = rb_num_rows b →
    filter_record_batch b mask = Ok (take_rb b (mask_positions mask));
  array_take_ok c idx : in_bounds (length c) idx → array_take c idx = Ok (take_cells c idx);
  sort_to_indices_ok xs desc :
    ∃ idx, sort_to_indices (Some <$> xs) desc = Ok idx ∧
      idx ≡ₚ Z.of_nat <$> seq 0 (length xs) ∧ StronglySorted (in_order desc xs) idx;
  rank_kernel_ok xs desc : ∃ rs, rank_kernel xs desc = Ok rs ∧ length rs = length xs;
  sub_array_scalar xs y :
    sub_kernel (Array xs) (Scalar y) = Ok (map_f32 (λ x, F32.sub x y) xs);
  sub_scalar_array x ys :
    sub_kernel (Scalar x) (Array ys) = Ok (map_f32 (λ y, F32.sub x y) ys);
  div_array_scalar xs y :
    div_kernel (Array xs) (Scalar y) = Ok (map_f32 (λ x, F32.div x y) xs)
}.

(** ** The specification of reciprocal rank fusion *)

(** What the occurrences of [id] in [ids] contribute, in order. *)
Definition contributions (k : F32.t) (ids : list Z) (id : Z) : list F32.t :=
  (λ p, reciprocal k p.1) <$> filter (λ p, p.2 = id) (imap pair ids).

Definition add_to (o : option F32.t) (score : F32.t) : option F32.t :=
  Some (match o with Some e => F32.add e score | None => score end).

(** The score of [id]: the sum of its reciprocal ranks in the two results. *)
Definition rrf_score (k : F32.t) (vids fids : list Z) (id : Z) : option F32.t :=
  foldl add_to None (contributions k vids id ++ contributions k fids id).

Definition first_occurrence (ids : list Z) (p : Z) : Prop :=
  (0 ≤ p < Z.of_nat (length ids))%Z ∧
  ∀ q, (0 ≤ q < p)%Z → ids !! Z.to_nat q ≠ ids !! Z.to_nat p.

(** [order] lists every id's first occurrence once, best scores first. *)
Definition ranking (k : F32.t) (vids fids : list Z) (order : list Z) (scores : list F32.t) : Prop :=
  NoDup order ∧ (∀ p, p ∈ order ↔ first_occurrence (vids ++ fids) p) ∧
  Forall2 (λ p s, ∃ id, (vids ++ fids) !! Z.to_nat p = Some id ∧ rrf_score k vids fids id = Some s)
    order scores ∧
  StronglySorted (λ s t, F32.ltb s t = false) scores.

(** The rows [order] of [all] with their scores. *)
Definition ranked_rb (all : RecordBatch) (order : list Z) (scores : list F32.t) : RecordBatch :=
  mkRB (rb_fields all ++ [relevance_field]) (rb_columns (take_rb all order) ++ [CF32 <$> scores])
    (length order).

(** The ids of a batch are [ids], in column [j]. *)
Definition ids_at (j : nat) (b : RecordBatch) (ids : list Z) : Prop :=
  ∃ f, rb_fields b !! j = Some f ∧ rb_columns b !! j = Some (CU64 <$> ids) ∧
    f_name f = ROW_ID ∧ f_type f = UInt64 ∧
    ∀ i g, i < j → rb_fields b !! i = Some g → f_name g ≠ ROW_ID.

(** A column of type [g] fits where [f] is expected. *)
Definition field_fits (f g : Field) : Prop :=
  f_type f = f_type g ∧ (f_nullable g = true → f_nullable f = true).

Lemma columns_fit_fields fs b :
  rb_wf b → Forall2 field_fits fs (rb_fields b) → columns_fit fs b.
Proof.
  unfold rb_wf, columns_fit. intros Hb Hfs. revert Hb. generalize (rb_columns b).
  induction Hfs as [|f g fs gs [Ht Hn] _ IH]; intros cs Hb; inversion Hb as [|? c ? cs' [Hl Hc] Hb']; subst;
    constructor; [|by apply IH].
  split; [done|]. eapply Forall_impl; [exact Hc|]. intros x. unfold cell_ok. rewrite Ht.
  destruct x, (f_type g); auto.
Qed.

(** ** Scores *)
Lemma foldl_score_map k (l : list (nat * Z)) : ∀ m id,
  foldl (λ (m : gmap Z F32.t) p, let score := reciprocal k p.1 in
           <[p.2 := match m !! p.2 with Some e => F32.add e score | None => score end]> m) m l !! id =
  foldl add_to (m !! id) ((λ p, reciprocal k p.1) <$> filter (λ p, p.2 = id) l).
Proof.
  induction l as [|[i x] l IH]; intros m id; [done|]. cbn [foldl]. rewrite IH, filter_cons. simpl.
  case_decide as Hx; simpl.
  - subst x. by rewrite lookup_insert_eq.
  - by rewrite lookup_insert_ne.
Qed.

Lemma score_map_lookup k vids fids id :
  update_score_map k fids (update_score_map k vids ∅) !! id = rrf_score k vids fids id.
Proof.
  unfold update_score_map at 1. rewrite foldl_score_map. unfold update_score_map.
  rewrite foldl_score_map, lookup_empty. unfold rrf_score. by rewrite foldl_app.
Qed.

Lemma foldl_add_to_Some s l : ∃ t, foldl add_to (Some s) l = Some t.
Proof. revert s. induction l as [|x l IH]; intros s; simpl; eauto. Qed.

Lemma contributions_nonempty k ids id : id ∈ ids → contributions k ids id ≠ [].
Proof.
  intros (i & Hi)%list_elem_of_lookup. unfold contributions. intros H%fmap_nil_inv.
  assert ((i, id) ∈ filter (λ p : nat * Z, p.2 = id) (imap pair ids)) as Hin.
  { apply list_elem_of_filter. split; [done|]. apply list_elem_of_lookup. exists i.
    by rewrite list_lookup_imap, Hi. }
  rewrite H in Hin. by apply not_elem_of_nil in Hin.
Qed.

Lemma rrf_score_total k vids fids id : id ∈ vids ++ fids → ∃ s, rrf_score k vids fids id = Some s.
Proof.
  intros Hid. unfold rrf_score.
  destruct (contributions k vids id ++ contributions k fids id) as [|s l] eqn:E.
  - apply app_nil in E as [E1 E2]. exfalso.
    apply elem_of_app in Hid as [Hid|Hid]; by eapply contributions_nonempty in Hid.
  - simpl. apply foldl_add_to_Some.
Qed.

(** ** First occurrences *)
Lemma new_ids_length seen ids : length (new_ids seen ids) = length ids.
Proof. revert seen. induction ids as [|i ids IH]; intros seen; [done|]. simpl. case_bool_decide; simpl; by rewrite IH. Qed.

Lemma new_ids_lookup ids : ∀ seen p,
  new_ids seen ids !! p = Some true ↔
  (∃ id, ids !! p = Some id ∧ (id ∉ seen) ∧ (∀ q, q < p → ids !! q ≠ Some id)).
Proof.
  induction ids as [|i ids IH]; intros seen p; [split; [done|by intros (? & ? & _)]|].
  simpl. case_bool_decide as Hi; destruct p as [|p]; simpl.
  - split; [done|]. by intros (id & [= ->] & ? & _).
  - rewrite IH. split; intros (id & H1 & H2 & H3); exists id; (split_and!; [done..|]).
    + intros [|q] ?; simpl; [intros [= ->]; done|apply H3; lia].
    + intros q ?. apply (H3 (S q)). lia.
  - split; [|done]. intros _. exists i. split_and!; [done..|lia].
  - rewrite IH. split; intros (id & H1 & H2 & H3); exists id; (split; [done|]).
    + apply not_elem_of_cons in H2 as [H2 H2']. split; [done|].
      intros [|q] ?; simpl; [congruence|apply H3; lia].
    + rewrite not_elem_of_cons. split_and!; [|done|].
      * intros ->. by apply (H3 0); [lia|].
      * intros q ?. apply (H3 (S q)). lia.
Qed.

Lemma elem_of_mask_positions mask p :
  p ∈ mask_positions mask ↔ (0 ≤ p)%Z ∧ mask !! Z.to_nat p = Some true.
Proof.
  unfold mask_positions. rewrite list_elem_of_fmap. setoid_rewrite list_elem_of_fmap.
  setoid_rewrite list_elem_of_filter. setoid_rewrite list_elem_of_lookup.
  setoid_rewrite list_lookup_imap. split.
  - intros (n & -> & [i b] & -> & Hb & q & Hq). simpl in *. subst b.
    destruct (mask !! q) eqn:E; [|done]. simpl in Hq. injection Hq as -> ->.
    split; [lia|]. by rewrite Nat2Z.id.
  - intros [Hp Hm]. exists (Z.to_nat p). split; [lia|]. exists (Z.to_nat p, true).
    split_and!; [done..|]. exists (Z.to_nat p). by rewrite Hm.
Qed.

Lemma NoDup_mask_positions mask : NoDup (mask_positions mask).
Proof.
  unfold mask_positions. apply (NoDup_fmap_2 _).
  assert (∀ n, NoDup (fst <$> filter (λ p : nat * bool, p.2 = true) (imap (λ i, pair (n + i)) mask)) ∧
    ∀ q, q ∈ fst <$> filter (λ p : nat * bool, p.2 = true) (imap (λ i, pair (n + i)) mask) → n ≤ q) as H;
    [|by apply (H 0)].
  induction mask as [|b mask IH]; intros n; [split; [constructor|by intros q ?%not_elem_of_nil]|].
  rewrite imap_cons. destruct (IH (S n)) as [H1 H2].
  replace (imap ((λ i, pair (n + i)) ∘ S) mask) with (imap (λ i, pair (S n + i)) mask)
    by (apply imap_ext; intros; simpl; f_equal; lia).
  rewrite filter_cons. simpl. case_decide; [|split; [done|intros q Hq%H2; lia]].
  rewrite fmap_cons. simpl. rewrite Nat.add_0_r. split.
  - constructor; [|done]. intros ?%H2. lia.
  - intros q [->|Hq%H2]%elem_of_cons; lia.
Qed.

Lemma first_positions_spec ids p : p ∈ mask_positions (new_ids [] ids) ↔ first_occurrence ids p.
Proof.
  rewrite elem_of_mask_positions, new_ids_lookup. unfold first_occurrence. split.
  - intros (Hp & id & Hid & _ & Hf). pose proof (lookup_lt_Some _ _ _ Hid). split; [lia|].
    intros q Hq. rewrite Hid. apply Hf. lia.
  - intros (Hp & Hf). destruct (lookup_lt_is_Some_2 ids (Z.to_nat p)) as [id Hid]; [lia|].
    split; [lia|]. exists id. split_and!; [done|by apply not_elem_of_nil|].
    intros q Hq. specialize (Hf (Z.of_nat q)). rewrite Nat2Z.id, Hid in Hf. apply Hf. lia.
Qed.

(** ** Fusion *)
Section fusion.
Context {K : ArrowKernels} {LK : ArrowLaws K} {HK : HybridKernels} {LH : HybridLaws HK}.
Context (null_slot : Z).

Lemma u64_array_ok f ids : f_type f = UInt64 → u64_array null_slot f (CU64 <$> ids) = Ok ids.
Proof.
  intros Hf. unfold u64_array. rewrite bool_decide_eq_true_2 by done. f_equal.
  rewrite <- list_fmap_compose. apply list_fmap_id.
Qed.

Lemma column_at j b ids :
  ids_at j b ids → ∃ f, column_by_name b ROW_ID = Some (f, CU64 <$> ids) ∧ f_type f = UInt64.
Proof.
  intros (f & Hf & Hc & Hn & Ht & Hfirst). exists f. split; [|done]. unfold column_by_name.
  rewrite fmap_Some. exists (j, (f, CU64 <$> ids)). split; [|done]. apply list_find_Some.
  split_and!; [by rewrite lookup_zip_with, Hf; simpl; rewrite Hc|done|].
  intros i [g c] Hi Hl. rewrite lookup_zip_with in Hi. simpl.
  apply bind_Some in Hi as (g' & Hg & Hi). apply bind_Some in Hi as (c' & _ & [= <- <-]).
  by eapply Hfirst.
Qed.

Lemma ids_at_take j b ids idx : ids_at j b ids → ids_at j (take_rb b idx) (take_cells ids idx).
Proof.
  intros (f & Hf & Hc & ? & ? & ?). exists f. split_and!; try done. simpl.
  by rewrite list_lookup_fmap, Hc, <- take_cells_fmap.
Qed.

Lemma concat_columns_wf fields bs : Forall (columns_fit fields) bs → rb_wf (concat_rb fields bs).
Proof.
  intros Hbs. set (as_fields := λ b, mkRB fields (rb_columns b) (rb_num_rows b)).
  assert (concat_rb fields bs = concat_rb fields (as_fields <$> bs)) as ->.
  { clear Hbs. unfold concat_rb, concat_column, total_rows. f_equal.
    - apply list_fmap_ext. intros i j _. by rewrite <- list_fmap_compose.
    - induction bs as [|b bs IH]; simpl; [done|]. by rewrite IH. }
  apply concat_rb_wf. apply Forall_fmap. eapply Forall_impl; [exact Hbs|]. by intros b Hb.
Qed.

#[local] Hint Resolve concat_columns_wf : lance.

Lemma ids_at_concat j vec fts vids fids :
  ids_at j vec vids → ids_at j fts fids → ids_at j (concat_rb (rb_fields fts) [vec; fts]) (vids ++ fids).
Proof.
  intros (g & _ & Hv & _) (f & Hf & Hc & ? & ? & ?). exists f. split_and!; try done. simpl.
  rewrite list_lookup_fmap, lookup_seq_lt by by eapply lookup_lt_Some. simpl. f_equal.
  unfold concat_column. simpl. by rewrite Hv, Hc, app_nil_r, fmap_app.
Qed.

Lemma merge_results_ok j vec fts vids fids :
  rb_wf vec → rb_wf fts → Forall2 field_fits (rb_fields fts) (rb_fields vec) →
  ids_at j vec vids → ids_at j fts fids →
  let all := concat_rb (rb_fields fts) [vec; fts] in
  rb_wf all ∧ rb_num_rows all = length (vids ++ fids) ∧ ids_at j all (vids ++ fids) ∧
  merge_results null_slot vec fts = Ok (take_rb all (mask_positions (new_ids [] (vids ++ fids)))).
Proof using LK LH.
  intros Hv Hf Hff Hvi Hfi all.
  assert (Forall (columns_fit (rb_fields fts)) [vec; fts]) as Hfit.
  { repeat constructor; [by apply columns_fit_fields|exact Hf]. }
  assert (rb_wf all) as Hwf by wf.
  pose proof (ids_at_concat j vec fts vids fids Hvi Hfi : ids_at j all (vids ++ fids)) as Hall.
  assert (rb_num_rows all = length (vids ++ fids)) as Hlen.
  { destruct Hall as (f & _ & Hc & _). apply (rb_wf_column _ _ _ Hwf) in Hc.
    by rewrite length_fmap in Hc. }
  split_and!; [done..|]. unfold merge_results. rewrite concat_columns_ok by done. fold all.
  run_ok. destruct (column_at _ _ _ Hall) as (f & -> & Ht).
  cbn [ok_or mbind outcome_bind fst snd]. rewrite u64_array_ok by done. run_ok.
  apply filter_record_batch_ok; [done|]. by rewrite new_ids_length.
Qed.

Lemma sorted_take (R : Z → Z → Prop) (S : F32.t → F32.t → Prop) xs idx :
  (∀ i j x y, R i j → xs !! Z.to_nat i = Some x → xs !! Z.to_nat j = Some y → S x y) →
  StronglySorted R idx → StronglySorted S (take_cells xs idx).
Proof.
  intros HRS. induction 1 as [|i idx _ IH Hi]; [constructor|].
  destruct (xs !! Z.to_nat i) as [x|] eqn:Hx.
  - rewrite (take_cells_cons _ _ _ _ Hx). constructor; [done|]. apply Forall_forall.
    intros y (k & Hk & Hy)%list_elem_of_omap. rewrite Forall_forall in Hi. eauto.
  - unfold take_cells. simpl. by rewrite Hx.
Qed.

(** The ids that are taken have the scores that are computed for them. *)
Lemma scored_order k vids fids order :
  in_bounds (length (vids ++ fids)) order →
  Forall2 (λ p s, ∃ id, (vids ++ fids) !! Z.to_nat p = Some id ∧ rrf_score k vids fids id = Some s)
    order ((λ id, default F32.zero (rrf_score k vids fids id)) <$> take_cells (vids ++ fids) order).
Proof.
  induction 1 as [|p order Hp _ IH]; [constructor|].
  destruct (lookup_lt_is_Some_2 (vids ++ fids) (Z.to_nat p)) as [id Hid]; [lia|].
  rewrite (take_cells_cons _ _ _ _ Hid), fmap_cons. constructor; [|done]. exists id. split; [done|].
  destruct (rrf_score_total k vids fids id) as [s ->]; [by eapply list_elem_of_lookup_2|done].
Qed.

Lemma permutation_bounds n (idx : list Z) : idx ≡ₚ Z.of_nat <$> seq 0 n → in_bounds n idx.
Proof.
  intros Hp. unfold in_bounds. rewrite Hp. apply Forall_fmap, Forall_forall.
  intros i [_ ?]%elem_of_seq. simpl. lia.
Qed.

Lemma taken_columns (cols : list column) idx n :
  Forall (λ c, length c = n) cols → in_bounds n idx →
  try_map (λ c, unwrap_ok (array_take c idx)) cols = Ok ((λ c, take_cells c idx) <$> cols).
Proof using LH.
  intros Hc Hi. apply try_map_Ok. apply Forall2_fmap_r, Forall_Forall2_diag.
  eapply Forall_impl; [exact Hc|]. intros c <-. by rewrite array_take_ok.
Qed.

Lemma ranked_wf all order scores :
  rb_wf all → in_bounds (rb_num_rows all) order → length scores = length order →
  rb_wf (ranked_rb all order scores).
Proof.
  intros Hw Ho Hl. apply Forall2_app; [by apply (take_rb_wf all order)|]. constructor; [|constructor].
  split; [by rewrite length_fmap|]. by apply Forall_fmap, Forall_true.
Qed.

(** Sorting the scores of the first occurrences gives the ranking. *)
Lemma sort_ranking k vids fids :
  let ids := vids ++ fids in let pos := mask_positions (new_ids [] ids) in
  let score id := default F32.zero (rrf_score k vids fids id) in
  let rel : list F32.t := score <$> take_cells ids pos in
  ∃ sidx, sort_to_indices (Some <$> rel) true = Ok sidx ∧ in_bounds (length pos) sidx ∧
    in_bounds (length ids) pos ∧
    let order := take_cells pos sidx in
    in_bounds (length ids) order ∧ take_cells rel sidx = score <$> take_cells ids order ∧
    ranking k vids fids order (score <$> take_cells ids order).
Proof using LH.
  intros ids pos score rel.
  assert (in_bounds (length ids) pos) as Hpos.
  { apply Forall_forall. intros p Hp. by apply first_positions_spec in Hp as [? _]. }
  assert (length rel = length pos) as Hrel by (unfold rel; by rewrite length_fmap, length_take_cells).
  destruct (sort_to_indices_ok rel true) as (sidx & Es & Hperm & Hsort).
  pose proof (permutation_bounds _ _ Hperm) as Hsb. rewrite Hrel in Hperm, Hsb.
  exists sidx. split_and!; [done..|]. intros order.
  assert (order ≡ₚ pos) as Hop by (by apply take_cells_perm).
  assert (take_cells rel sidx = score <$> take_cells ids order) as Hscores.
  { unfold rel, order. by rewrite take_cells_fmap, take_cells_compose. }
  assert (in_bounds (length ids) order) as Hob by (unfold in_bounds; by rewrite Hop).
  split_and!; [done..|]. unfold ranking. split_and!; [rewrite Hop; apply NoDup_mask_positions| |by apply scored_order|].
  - intros p. rewrite Hop. apply first_positions_spec.
  - rewrite <- Hscores. eapply sorted_take; [|exact Hsort]. intros i j x y HR Hx Hy. by apply HR.
Qed.

(** Appending the scores and taking the rows in sorted order. *)
Lemma take_scored all pos sidx scores ranked :
  rb_wf all → in_bounds (rb_num_rows all) pos → in_bounds (length pos) sidx →
  length scores = length pos → take_cells scores sidx = ranked →
  let order := take_cells pos sidx in
  rb_wf (ranked_rb all order ranked) ∧
  (columns ← try_map (λ c, unwrap_ok (array_take c sidx))
               (rb_columns (take_rb all pos) ++ [CF32 <$> scores]);
   try_new (rb_fields (take_rb all pos) ++ [relevance_field]) columns) = Ok (ranked_rb all order ranked).
Proof using LK LH.
  intros Hall Hpos Hsb Hl <- order.
  assert (take_rb all order = take_rb (take_rb all pos) sidx) as Hcompose.
  { symmetry. by apply take_rb_compose. }
  assert (in_bounds (rb_num_rows all) order) as Hob.
  { apply Forall_forall. intros i (j & _ & Hi)%list_elem_of_omap. unfold in_bounds in Hpos.
    rewrite Forall_forall in Hpos. by eapply Hpos, list_elem_of_lookup_2. }
  assert (rb_wf (ranked_rb all order (take_cells scores sidx))) as Hrw.
  { apply ranked_wf; [done..|]. unfold order. rewrite !length_take_cells; [done..|by rewrite Hl]. }
  split; [done|]. rewrite (taken_columns _ _ (length pos)); [|apply Forall_app; split|done].
  - run_ok. rewrite fmap_app, list_fmap_singleton, take_cells_fmap.
    rewrite (try_new_columns (length order)); [|by intros [_ ?]%app_nil|].
    + unfold ranked_rb. by rewrite Hcompose.
    + unfold rb_wf, ranked_rb in Hrw. by rewrite Hcompose in Hrw.
  - apply (rb_wf_lengths (take_rb all pos)). wf.
  - apply Forall_singleton. by rewrite length_fmap.
Qed.

Lemma rerank_ok j k query vec fts vids fids :
  rb_wf vec → rb_wf fts → Forall2 field_fits (rb_fields fts) (rb_fields vec) →
  ids_at j vec vids → ids_at j fts fids →
  let all := concat_rb (rb_fields fts) [vec; fts] in
  ∃ order scores, ranking k vids fids order scores ∧ rb_wf (ranked_rb all order scores) ∧
    rb_wf all ∧ in_bounds (rb_num_rows all) order ∧ ids_at j all (vids ++ fids) ∧
    rerank_hybrid null_slot k query vec fts = Ok (ranked_rb all order scores).
Proof using LK LH.
  intros Hv Hf Hff Hvi Hfi all.
  destruct (merge_results_ok j vec fts vids fids) as (Hwf & Hlen & Hall & Hm); [done..|].
  fold all in Hwf, Hlen, Hall, Hm.
  destruct (sort_ranking k vids fids) as (sidx & Es & Hsb & Hpos & Hob & Hscores & Hrank).
  set (ids := vids ++ fids) in *. set (pos := mask_positions (new_ids [] ids)) in *.
  set (score := λ id, default F32.zero (rrf_score k vids fids id)) in *.
  set (rel := score <$> take_cells ids pos : list F32.t) in *.
  destruct (take_scored all pos sidx rel (score <$> take_cells ids (take_cells pos sidx))) as [Hrw Et];
    [done|by rewrite Hlen|done|by unfold rel; rewrite length_fmap, length_take_cells|done|].
  eexists _, _. split_and!; [exact Hrank|done|done|by rewrite Hlen|done|].
  unfold rerank_hybrid. destruct (column_at _ _ _ Hvi) as (fv & -> & Hfv).
  destruct (column_at _ _ _ Hfi) as (ff & -> & Hfl). cbn [ok_or mbind outcome_bind fst snd].
  rewrite !u64_array_ok by done. run_ok. rewrite Hm. run_ok.
  destruct (column_at _ _ _ (ids_at_take _ _ _ pos Hall)) as (fa & -> & Hfa).
  cbn [unwrap mbind outcome_bind fst snd]. rewrite u64_array_ok by done. run_ok.
  match goal with |- context [try_map ?h (take_cells ids pos)] =>
    assert (try_map h (take_cells ids pos) = Ok rel) as -> end.
  { apply try_map_Ok, Forall2_fmap_r, Forall_Forall2_diag, Forall_forall. intros id Hid.
    rewrite score_map_lookup. unfold score. simpl. destruct (rrf_score_total k vids fids id) as [s ->]; [|done].
    apply list_elem_of_omap in Hid as (i & _ & Hi). by eapply list_elem_of_lookup_2. }
  run_ok. match goal with |- context [sort_to_indices ?a true] => change a with (Some <$> rel : f32s) end.
  rewrite Es. cbn [unwrap_ok]. run_ok. exact Et.
Qed.
End fusion.

(** ** Normalisation *)

(** [b'] is [b] with another column [name]. *)
Definition same_but (name : string) (b b' : RecordBatch) : Prop :=
  rb_wf b' ∧ rb_fields b' = rb_fields b ∧ rb_num_rows b' = rb_num_rows b ∧
  ∀ i f, rb_fields b !! i = Some f → f_name f ≠ name → rb_columns b' !! i = rb_columns b !! i.

(** The first column [name] is one of scores. *)
Definition has_scores (name : string) (fields : list Field) : Prop :=
  ∃ i f, list_find (λ f, f_name f = name) fields = Some (i, f) ∧ f_type f = Float32.

Lemma same_but_refl name b : rb_wf b → same_but name b b.
Proof. done. Qed.

Lemma same_but_trans name b1 b2 b3 : same_but name b1 b2 → same_but name b2 b3 → same_but name b1 b3.
Proof.
  intros (_ & F1 & N1 & C1) (W2 & F2 & N2 & C2). split_and!; [done|congruence..|].
  intros i f Hf Hn. rewrite (C2 i f), (C1 i f); [done..| |done]. by rewrite F1.
Qed.

Lemma ids_at_same_but name j b b' ids :
  name ≠ ROW_ID → same_but name b b' → ids_at j b ids → ids_at j b' ids.
Proof.
  intros Hn (_ & HF & _ & HC) (f & Hf & Hc & Hname & Ht & Hfirst). exists f.
  rewrite HF, (HC j f) by (done || congruence). done.
Qed.

(** A float array for a column of [f]: nulls only where they are allowed. *)
Definition f32s_ok (n : nat) (f : Field) (xs : f32s) : Prop :=
  length xs = n ∧ Forall (λ x, x = None → f_nullable f = true) xs.

Lemma f32_array_ok n f c :
  column_ok n f c → f_type f = Float32 → ∃ xs, f32_array f c = Ok xs ∧ f32s_ok n f xs.
Proof.
  intros [Hl Hc] Hf. unfold f32_array. rewrite bool_decide_eq_true_2 by done. eexists. split; [done|].
  split; [by rewrite length_fmap|]. apply Forall_fmap. eapply Forall_impl; [exact Hc|].
  intros x Hx. simpl. unfold cell_ok in Hx. rewrite Hf in Hx. by destruct x.
Qed.

Lemma map_f32_ok n f g xs : f32s_ok n f xs → f32s_ok n f (map_f32 g xs).
Proof.
  intros [Hl Hx]. split; [unfold map_f32; by rewrite length_fmap|]. apply Forall_fmap.
  eapply Forall_impl; [exact Hx|]. intros x Hn Hg. simpl in Hg. apply Hn. by destruct x.
Qed.

Lemma f32_column_ok n f xs : f32s_ok n f xs → f_type f = Float32 → column_ok n f (f32_column xs).
Proof.
  intros [Hl Hx] Hf. split; [unfold f32_column; by rewrite length_fmap|]. apply Forall_fmap.
  eapply Forall_impl; [exact Hx|]. intros [x|] Hn; unfold cell_ok; simpl; [by rewrite Hf|by apply Hn].
Qed.

Section normalise.
Context {K : ArrowKernels} {LK : ArrowLaws K} {HK : HybridKernels} {LH : HybridLaws HK}.

Lemma column_found b name i f :
  rb_wf b → list_find (λ f, f_name f = name) (rb_fields b) = Some (i, f) →
  ∃ c, column_by_name b name = Some (f, c) ∧ column_ok (rb_num_rows b) f c.
Proof using.
  intros Hb (Hf & Hn & Hfirst)%list_find_Some.
  destruct (Forall2_lookup_l _ _ _ _ _ Hb Hf) as (c & Hc & Hok). exists c. split; [|done].
  unfold column_by_name. apply fmap_Some. exists (i, (f, c)). split; [|done]. apply list_find_Some.
  split_and!; [by rewrite lookup_zip_with, Hf; simpl; rewrite Hc|done|].
  intros k [g d] Hk Hl. rewrite lookup_zip_with in Hk. simpl.
  apply bind_Some in Hk as (g' & Hg & Hk). apply bind_Some in Hk as (c' & _ & [= <- <-]). by eapply Hfirst.
Qed.

Lemma with_column_ok b name i f c :
  rb_wf b → list_find (λ f, f_name f = name) (rb_fields b) = Some (i, f) →
  column_ok (rb_num_rows b) f c → ∃ b', with_column b name c = Ok b' ∧ same_but name b b'.
Proof using LK.
  intros Hb Hfind Hc. pose proof Hfind as (Hf & Hn & Hfirst)%list_find_Some.
  assert (Forall2 (column_ok (rb_num_rows b)) (rb_fields b) (<[i := c]> (rb_columns b))) as Hwf.
  { rewrite <- (list_insert_id (rb_fields b) i f) by done. by apply Forall2_insert. }
  exists (mkRB (rb_fields b) (<[i := c]> (rb_columns b)) (rb_num_rows b)). split.
  - unfold with_column. rewrite Hfind. cbn [fmap option_fmap option_map fst unwrap mbind outcome_bind].
    apply try_new_columns; [|done]. intros E. rewrite E in Hwf. apply Forall2_nil_inv_r in Hwf.
    by rewrite Hwf in Hf.
  - split_and!; [done..|]. intros k g Hg Hne. simpl. apply list_lookup_insert_ne. congruence.
Qed.

Lemma normalize_scores_ok b name invert :
  rb_wf b → has_scores name (rb_fields b) →
  ∃ b', normalize_scores b name invert = Ok b' ∧ same_but name b b'.
Proof using LK LH.
  intros Hb (i & f & Hfind & Hf). destruct (column_found _ _ _ _ Hb Hfind) as (c & Hc & Hok).
  unfold normalize_scores. rewrite Hc. cbn [ok_or mbind outcome_bind fst snd].
  destruct (rb_num_rows b =? 0); [by exists b|].
  destruct (f32_array_ok _ _ _ Hok Hf) as (xs & -> & Hxs). run_ok.
  set (rng := if F32.ltb _ _ then _ else _).
  assert (∃ ys, (if F32.eqb rng F32.zero then Ok xs
                 else
                   shifted ← sub_kernel (Array xs) (Scalar (default F32.zero (min_kernel xs)));
                   div_kernel (Array shifted) (Scalar rng)) = Ok ys ∧ f32s_ok (rb_num_rows b) f ys)
    as (ys & -> & Hys).
  { destruct (F32.eqb rng F32.zero); [by exists xs|]. rewrite sub_array_scalar. run_ok.
    rewrite div_array_scalar. eexists. split; [done|]. by do 2 apply map_f32_ok. }
  run_ok.
  assert (∃ zs, (if default false invert then sub_kernel (Scalar F32.one) (Array ys) else Ok ys) = Ok zs ∧
            f32s_ok (rb_num_rows b) f zs) as (zs & -> & Hzs).
  { destruct (default false invert); [|by exists ys]. rewrite sub_scalar_array. eexists.
    split; [done|]. by apply map_f32_ok. }
  run_ok.
  destruct (with_column_ok b name i f (f32_column zs)) as (b' & -> & Hs); [done..|by apply f32_column_ok|].
  by exists b'.
Qed.

Lemma rank_ok b name ascending :
  rb_wf b → has_scores name (rb_fields b) →
  ∃ b', rank b name ascending = Ok b' ∧ same_but name b b'.
Proof using LK LH.
  intros Hb (i & f & Hfind & Hf). destruct (column_found _ _ _ _ Hb Hfind) as (c & Hc & Hok).
  unfold rank. rewrite Hc. cbn [ok_or mbind outcome_bind fst snd].
  destruct (rb_num_rows b =? 0); [by exists b|].
  destruct (f32_array_ok _ _ _ Hok Hf) as (xs & -> & Hxs & _). run_ok.
  destruct (rank_kernel_ok xs (negb (default true ascending))) as (rs & -> & Hrs). run_ok.
  apply (with_column_ok b name i f); [done..|]. split; [rewrite length_fmap; congruence|].
  apply Forall_fmap, Forall_true. intros z. unfold cell_ok. simpl. by rewrite Hf.
Qed.
End normalise.

(** ** Cutting the result into batches *)
Section chunks.
Context {K : ArrowKernels} {LK : ArrowLaws K}.

Lemma slice_rb_wf b off len : rb_wf b → off + len ≤ rb_num_rows b → rb_wf (slice_rb b off len).
Proof using.
  intros Hb Hl. unfold rb_wf, slice_rb; simpl. rewrite Forall2_fmap_r.
  eapply Forall2_impl; [exact Hb|]. intros f c [Hc Hf]. split; [apply length_slice_cells; lia|].
  by apply Forall_take, Forall_drop.
Qed.

Lemma slice_rb_all b : rb_wf b → slice_rb b 0 (rb_num_rows b) = b.
Proof using.
  intros Hb%rb_wf_lengths. destruct b as [fs cs n]; unfold slice_rb; simpl in *. f_equal.
  induction Hb as [|c cs Hc _ IH]; [done|]. rewrite fmap_cons, IH. f_equal.
  unfold slice_cells. rewrite drop_0. apply take_ge. cbn in Hc. lia.
Qed.

Lemma slice_rb_split b off m len :
  slice_rb b off (m + len) =
  mkRB (rb_fields b) (zip_with app (rb_columns (slice_rb b off m)) (rb_columns (slice_rb b (off + m) len)))
    (m + len).
Proof using.
  unfold slice_rb; simpl. f_equal. apply list_eq. intros i.
  rewrite lookup_zip_with, !list_lookup_fmap. destruct (rb_columns b !! i) as [c|]; [|done]. simpl.
  f_equal. unfold slice_cells. by rewrite <- drop_drop, take_take_drop.
Qed.

Lemma batch_chunks_ok b m fuel : ∀ off,
  rb_wf b → 0 < m → off ≤ rb_num_rows b → rb_num_rows b - off ≤ fuel →
  ∃ bs, batch_chunks fuel b m off = Ok bs ∧ batches_ok (rb_fields b) bs ∧
    Forall (λ b, rb_num_rows b ≤ m) bs ∧
    concat_rb (rb_fields b) bs = slice_rb b off (rb_num_rows b - off).
Proof using LK.
  induction fuel as [|fuel IH]; intros off Hb Hm Hoff Hf; cbn [batch_chunks];
    destruct (Nat.ltb_spec off (rb_num_rows b)); try lia.
  1, 3: exists []; split_and!; [done|constructor|constructor|].
  1, 2: replace (rb_num_rows b - off) with 0 by lia; unfold concat_rb, slice_rb; f_equal;
    apply list_eq; intros i; rewrite !list_lookup_fmap; pose proof (Forall2_length _ _ _ Hb) as Hl;
    destruct (decide (i < length (rb_columns b)));
    [rewrite lookup_seq_lt by lia; by destruct (lookup_lt_is_Some_2 (rb_columns b) i) as [? ->]
    |rewrite lookup_seq_ge by lia; by rewrite lookup_ge_None_2 by lia].
  set (len := Nat.min (rb_num_rows b - off) m).
  destruct (IH (off + len)) as (bs & -> & Hbs & Hle & Hc); [done|done|lia|lia|].
  run_ok. rewrite rb_slice_ok by (done || lia).
  assert (rb_wf (slice_rb b off len)) as Hw by (apply slice_rb_wf; [done|lia]).
  eexists. split; [done|]. split_and!.
  - by constructor.
  - constructor; [simpl; lia|done].
  - rewrite (concat_rb_cons (rb_fields b)) by done. rewrite Hc.
    replace (rb_num_rows b - off) with (len + (rb_num_rows b - (off + len))) by lia.
    rewrite slice_rb_split. f_equal. simpl.
    apply (f_equal rb_num_rows) in Hc. simpl in Hc. lia.
Qed.

Lemma single_batch_stream_ok b m :
  rb_wf b →
  ∃ bs, single_batch_stream b m = Ok (mkStream (rb_fields b) (Ok <$> bs)) ∧
    batches_ok (rb_fields b) bs ∧ concat_rb (rb_fields b) bs = b ∧
    (0 < m → Forall (λ b, rb_num_rows b ≤ m) bs).
Proof using LK.
  intros Hb. unfold single_batch_stream. destruct (_ || _) eqn:E.
  - exists [b]. split_and!; [done|by apply Forall_singleton|by apply concat_rb_singleton|].
    intros Hm. apply Forall_singleton. apply orb_true_iff in E as [E|E]; to_prop; lia.
  - apply orb_false_iff in E as [E _]. to_prop.
    destruct (batch_chunks_ok b m (rb_num_rows b) 0) as (bs & -> & ? & ? & Hc); [done|lia..|].
    exists bs. split_and!; [done|done| |done]. rewrite Hc, Nat.sub_0_r. by apply slice_rb_all.
Qed.
End chunks.

(** ** The pipeline *)
Section pipeline.
Context {K : ArrowKernels} {LK : ArrowLaws K} {HK : HybridKernels} {LH : HybridLaws HK}.
Context {D : DropColumn} {LD : DropColumnLaws D} (null_slot : Z).

(** A leg after ranking and normalisation. *)
Lemma leg_ok (by_rank : bool) name l :
  rb_wf l → has_scores name (rb_fields l) →
  ∃ b b', (if by_rank then rank l name None else Ok l) = Ok b ∧
    normalize_scores b name None = Ok b' ∧ same_but name l b'.
Proof using LK LH.
  intros Hw Hs.
  assert (∃ b, (if by_rank then rank l name None else Ok l) = Ok b ∧ same_but name l b)
    as (b & -> & Hb).
  { destruct by_rank; [by apply rank_ok|]. eauto using same_but_refl. }
  pose proof Hb as (Hbw & HF & _). destruct (normalize_scores_ok b name None) as (b' & E & Hb');
    [done|by rewrite HF|]. exists b, b'. eauto using same_but_trans.
Qed.

(** The best [n] rows. *)
Definition top_rb (all : RecordBatch) (n : nat) (order : list Z) (scores : list F32.t) : RecordBatch :=
  ranked_rb all (take n order) (take n scores).

Lemma limit_ok all n order scores :
  rb_wf all → in_bounds (rb_num_rows all) order → rb_wf (ranked_rb all order scores) →
  (if n <? rb_num_rows (ranked_rb all order scores) then rb_slice (ranked_rb all order scores) 0 n
   else ranked_rb all order scores) = top_rb all n order scores ∧ rb_wf (top_rb all n order scores).
Proof using LK.
  intros Hall Ho Hw. simpl rb_num_rows. destruct (Nat.ltb_spec n (length order)) as [Hn|Hn].
  - rewrite rb_slice_ok by (done || simpl; lia).
    assert (slice_rb (ranked_rb all order scores) 0 n = top_rb all n order scores) as E.
    { unfold slice_rb, top_rb, ranked_rb. simpl. rewrite length_take_le by lia. f_equal.
      rewrite fmap_app. f_equal.
      - rewrite <- list_fmap_compose. apply list_fmap_ext. intros i c Hc. simpl. unfold slice_cells.
        rewrite drop_0. symmetry. apply take_cells_take_drop. by rewrite (rb_wf_column _ _ _ Hall Hc).
      - rewrite list_fmap_singleton. unfold slice_cells. by rewrite drop_0, fmap_take. }
    split; [exact E|]. rewrite <- E. apply slice_rb_wf; [done|simpl; lia].
  - assert (length scores = length order) as Hl.
    { pose proof (rb_wf_column _ (length (rb_columns all)) (CF32 <$> scores) Hw) as H.
      simpl in H. rewrite length_fmap in H. apply H.
      rewrite lookup_app_r, length_fmap, Nat.sub_diag by (rewrite length_fmap; lia). done. }
    unfold top_rb. rewrite !take_ge by lia. done.
Qed.

(** The row ids of the result are dropped unless they were asked for. *)
Definition answer_rb (request : HybridRequest) (out : RecordBatch) : RecordBatch :=
  if with_row_id request then out else drop_named out ROW_ID.

Lemma top_has_relevance all order scores :
  RELEVANCE_SCORE ∈ f_name <$> rb_fields (ranked_rb all order scores).
Proof using. simpl. rewrite fmap_app. apply elem_of_app. right. by apply list_elem_of_singleton. Qed.

(** What the two legs are joined to, whatever the ids they are joined on. *)
Lemma rerank_legs_ok request vec fts j fids vids query :
  rb_wf vec → rb_wf fts → Forall2 field_fits (rb_fields fts) (rb_fields vec) →
  has_scores SCORE_COL (rb_fields fts) → has_scores DIST_COL (rb_fields vec) →
  ids_at j fts fids → ids_at j vec vids →
  reranker request = None → full_text_search request = Some query →
  ∃ v f order scores,
    same_but DIST_COL vec v ∧ same_but SCORE_COL fts f ∧
    ranking (F32.of_Z 60) vids fids order scores ∧
    let out := top_rb (concat_rb (rb_fields fts) [v; f]) (default DEFAULT_TOP_K (limit request)) order scores in
    rb_wf out ∧ rerank_legs null_slot request vec fts = Ok out.
Proof using LK LH.
  intros Hvw0 Hfw0 Hfit Hfs Hvs Hfi Hvi Hr Hq.
  set (by_rank := bool_decide (norm request = Some Rank)).
  destruct (leg_ok by_rank DIST_COL vec) as (v0 & v & Ev0 & Ev & Hsv); [done..|].
  destruct (leg_ok by_rank SCORE_COL fts) as (f0 & f & Ef0 & Ef & Hsf); [done..|].
  pose proof Hsv as (Hvw & HvF & _). pose proof Hsf as (Hfw & HfF & _).
  destruct (rerank_ok null_slot j (F32.of_Z 60) query v f vids fids)
    as (order & scores & Hrank & Hrw & Haw & Ho & _ & Er); [done|done|by rewrite HvF, HfF| | |].
  { eapply ids_at_same_but; [|exact Hsv|exact Hvi]. discriminate. }
  { eapply ids_at_same_but; [|exact Hsf|exact Hfi]. discriminate. }
  rewrite HfF in *. set (all := concat_rb (rb_fields fts) [v; f]) in *.
  destruct (limit_ok all (default DEFAULT_TOP_K (limit request)) order scores) as [El Hlw]; [done..|].
  exists v, f, order, scores. split_and!; [done..|]. unfold rerank_legs. fold by_rank. cbv zeta.
  rewrite Ev0. run_ok. rewrite Ef0. run_ok. rewrite Ev. run_ok. rewrite Ef. run_ok.
  rewrite Hq, Hr. cbn [ok_or mbind outcome_bind].
  change (default (default_reranker null_slot) None) with (rerank_hybrid null_slot (F32.of_Z 60)).
  rewrite Er. run_ok.
  unfold check_reranker_result. rewrite bool_decide_eq_true_2 by apply top_has_relevance.
  run_ok. by rewrite El.
Qed.

Lemma run_hybrid_ok request fts vec ffields vfields j fids vids query m :
  batches_ok ffields fts → batches_ok vfields vec → fts ≠ [] → vec ≠ [] →
  Forall2 field_fits ffields vfields → has_scores SCORE_COL ffields → has_scores DIST_COL vfields →
  ids_at j (concat_rb ffields fts) fids → ids_at j (concat_rb vfields vec) vids →
  reranker request = None → full_text_search request = Some query →
  ∃ v f order scores bs,
    same_but DIST_COL (concat_rb vfields vec) v ∧ same_but SCORE_COL (concat_rb ffields fts) f ∧
    ranking (F32.of_Z 60) vids fids order scores ∧
    let out := answer_rb request (top_rb (concat_rb ffields [v; f]) (default DEFAULT_TOP_K (limit request))
                                    order scores) in
    run_hybrid null_slot request (Ok (fts, vec)) m = Ok (mkStream (rb_fields out) (Ok <$> bs)) ∧
    concat_rb (rb_fields out) bs = out ∧ batches_ok (rb_fields out) bs ∧
    (0 < m → Forall (λ b, rb_num_rows b ≤ m) bs).
Proof using LK LH LD.
  intros Hf Hv Hfn Hvn Hfit Hfs Hvs Hfi Hvi Hr Hq.
  destruct (rerank_legs_ok request (concat_rb vfields vec) (concat_rb ffields fts) j fids vids query)
    as (v & f & order & scores & Hsv & Hsf & Hrank & Hlw & El); [wf|wf|done..|].
  change (rb_fields (concat_rb ffields fts)) with ffields in *.
  set (top := top_rb _ _ order scores) in *.
  assert (rb_wf (answer_rb request top)) as How.
  { unfold answer_rb. destruct (with_row_id request); [done|wf]. }
  destruct (single_batch_stream_ok _ m How) as (bs & Es & Hbs & Hc & Hm).
  exists v, f, order, scores, bs. split_and!; [done..|]. unfold run_hybrid.
  run_ok. unfold query_schemas. destruct fts as [|fb fts]; [done|]. destruct vec as [|vb vec]; [done|].
  pose proof Hf as [[_ Hff] _]%Forall_cons. pose proof Hv as [[_ Hvf] _]%Forall_cons.
  cbn [fst snd fmap list_fmap head]. rewrite Hff, Hvf, !concat_batches_ok by done. run_ok.
  rewrite El. run_ok. fold top.
  assert ((if with_row_id request then Ok top else drop_column top ROW_ID) = Ok (answer_rb request top)) as ->.
  { unfold answer_rb. destruct (with_row_id request); [done|]. apply drop_column_ok; [done|].
    apply Exists_exists. exists relevance_field. split; [apply elem_of_app; right; set_solver|done]. }
  run_ok. split_and!; done.
Qed.
End pipeline.

(** ** A model of the laws *)

(** The order of floats as a lexicographic key, NaN last. *)
Definition key (x : F32.t) : Z * Z * Z :=
  match x with
  | S754_nan => (3, 0, 0)
  | S754_infinity s => (if s then -2 else 2, 0, 0)
  | S754_zero _ => (0, 0, 0)
  | S754_finite false m e => (1, e, Zpos m)
  | S754_finite true m e => (-1, - e, Zneg m)
  end%Z.

Definition lex_le (a b : Z * Z * Z) : Prop :=
  (a.1.1 < b.1.1 ∨ a.1.1 = b.1.1 ∧ (a.1.2 < b.1.2 ∨ a.1.2 = b.1.2 ∧ a.2 ≤ b.2))%Z.

#[export] Instance lex_le_dec a b : Decision (lex_le a b).
Proof. unfold lex_le. apply _. Defined.

Lemma ltb_key x y : F32.ltb y x = true → ¬ lex_le (key x) (key y).
Proof.
  unfold F32.ltb, SFltb, SFcompare, lex_le.
  destruct x as [|[]| |[] m e], y as [|[]| |[] m' e']; simpl; try lia; try discriminate.
  all: destruct (Z.compare_spec e' e); simpl; try lia; try discriminate.
  all: match goal with |- context [Pcompare ?a ?b ?c] => change (Pcompare a b c) with (a ?= b)%positive end.
  all: destruct (Pos.compare_spec m' m); simpl; try lia; try discriminate.
Qed.

Definition key_at (xs : f32s) (i : Z) : Z * Z * Z :=
  match xs !! Z.to_nat i with Some (Some x) => key x | _ => (-3, 0, 0)%Z end.

Definition index_le (desc : bool) (xs : f32s) (i j : Z) : Prop :=
  if desc then lex_le (key_at xs j) (key_at xs i) else lex_le (key_at xs i) (key_at xs j).

#[export] Instance index_le_dec desc xs : RelDecision (index_le desc xs).
Proof. intros i j. unfold index_le. destruct desc; apply _. Defined.
#[export] Instance index_le_total desc xs : Total (index_le desc xs).
Proof. intros i j. unfold index_le, lex_le. destruct desc; lia. Qed.
#[export] Instance index_le_trans desc xs : Transitive (index_le desc xs).
Proof. intros i j k. unfold index_le, lex_le. destruct desc; lia. Qed.

Definition binary (op : F32.t → F32.t → F32.t) (a b : Datum) : result f32s :=
  match a, b with
  | Array xs, Scalar y => Ok (map_f32 (λ x, op x y) xs)
  | Scalar x, Array ys => Ok (map_f32 (λ y, op x y) ys)
  | Scalar x, Scalar y => Ok [Some (op x y)]
  | Array xs, Array ys =>
      if length xs =? length ys
      then Ok (zip_with (λ x y, x ≫= λ x, y ≫= λ y, Some (op x y)) xs ys)
      else Err (Arrow "Cannot perform binary operation on arrays of different length")
  end.

Definition best (before : F32.t → F32.t → bool) (xs : f32s) : option F32.t :=
  foldl (λ o x, match o, x with
                | Some a, Some b => Some (if before b a then b else a)
                | None, _ => x
                | _, None => o
                end) None xs.

#[export] Instance ref_hybrid : HybridKernels := {|
  filter_record_batch b mask := Ok (take_rb b (mask_positions mask));
  array_take c idx := Ok (take_cells c idx);
  sort_to_indices xs desc := Ok (merge_sort (index_le desc xs) (Z.of_nat <$> seq 0 (length xs)));
  rank_kernel xs desc :=
    Ok ((λ i, Z.of_nat (length (filter (λ j, index_le desc xs j i) (Z.of_nat <$> seq 0 (length xs)))))
          <$> (Z.of_nat <$> seq 0 (length xs)));
  max_kernel := best (λ a b, F32.ltb b a);
  min_kernel := best F32.ltb;
  sub_kernel := binary F32.sub;
  div_kernel := binary F32.div
|}.

Lemma sorted_impl {A} (R S : A → A → Prop) l :
  (∀ x y, R x y → S x y) → StronglySorted R l → StronglySorted S l.
Proof. intros HRS. induction 1; constructor; [done|]. eapply Forall_impl; eauto. Qed.

#[export] Instance ref_hybrid_laws : HybridLaws ref_hybrid.
Proof.
  split; try done.
  - intros xs desc. eexists. split; [done|]. rewrite length_fmap. split; [apply merge_sort_Permutation|].
    eapply sorted_impl; [|apply StronglySorted_merge_sort; apply _].
    intros i j Hij x y Hx Hy. apply not_true_is_false. intros H%ltb_key. apply H.
    unfold index_le, key_at in Hij. rewrite !list_lookup_fmap, Hx, Hy in Hij. by destruct desc.
  - intros xs desc. eexists. split; [done|]. by rewrite !length_fmap, length_seq.
Qed.

#[local] Instance ref_drop : DropColumn := {| drop_column b name := Ok (drop_named b name) |}.

#[local] Instance ref_drop_laws : DropColumnLaws ref_drop.
Proof. by split. Qed.

(** ** Theorems *)

(** reciprocal rank fusion.  The reranked batch holds every row id of the
    two results exactly once, as the row of its first occurrence (the vector
    results before the full text results), with the sum of its reciprocal ranks
    [1 / (position + k)] in both results as relevance score, and no row has a
    lower score than a later one. *)
Theorem rrf_reranks {K : ArrowKernels} {LK : ArrowLaws K} {HK : HybridKernels} {LH : HybridLaws HK}
    null_slot j k query vec fts vids fids :
  rb_wf vec → rb_wf fts → Forall2 field_fits (rb_fields fts) (rb_fields vec) →
  ids_at j vec vids → ids_at j fts fids →
  ∃ order scores, ranking k vids fids order scores ∧
    rerank_hybrid null_slot k query vec fts =
      Ok (ranked_rb (concat_rb (rb_fields fts) [vec; fts]) order scores).
Proof.
  intros Hv Hf Hff Hvi Hfi. destruct (rerank_ok null_slot j k query vec fts vids fids)
    as (order & scores & Hr & _ & _ & _ & _ & E); [done..|]. by exists order, scores.
Qed.

Definition leg_fields (score : string) : list Field :=
  [mkField "name" Utf8 false ∅; mkField score Float32 true ∅; mkField ROW_ID UInt64 false ∅].

Definition leg_rb (score : string) (rows : list (string * Z * Z)) : RecordBatch :=
  mkRB (leg_fields score)
    [(λ p, COpaque p.1.1) <$> rows; (λ p, CF32 (F32.of_decimal p.1.2 1)) <$> rows; (λ p, CU64 p.2) <$> rows]
    (length rows).

Definition vec_leg : RecordBatch :=
  leg_rb DIST_COL [("foo", 1, 1); ("bar", 2, 4); ("baz", 3, 2); ("bean", 4, 5); ("dog", 5, 3)]%Z.
Definition fts_leg : RecordBatch := leg_rb SCORE_COL [("bar", 9, 4); ("bean", 8, 5); ("dog", 7, 3)]%Z.

Lemma vec_leg_ids : ids_at 2 vec_leg [1; 4; 2; 5; 3]%Z.
Proof. eexists. split_and!; [done..|]. intros [|[|i]] g Hi Hg; [injection Hg as <-; done..|lia]. Qed.
Lemma fts_leg_ids : ids_at 2 fts_leg [4; 5; 3]%Z.
Proof. eexists. split_and!; [done..|]. intros [|[|i]] g Hi Hg; [injection Hg as <-; done..|lia]. Qed.
Lemma vec_leg_wf : rb_wf vec_leg. Proof. by repeat constructor. Qed.
Lemma fts_leg_wf : rb_wf fts_leg. Proof. by repeat constructor. Qed.
Lemma leg_fields_fit : Forall2 field_fits (leg_fields SCORE_COL) (leg_fields DIST_COL).
Proof. by repeat constructor. Qed.

Lemma rrf_reranks_witness :
  ∃ order scores, ranking F32.one [1; 4; 2; 5; 3]%Z [4; 5; 3]%Z order scores ∧
    rerank_hybrid 0 F32.one "" vec_leg fts_leg =
      Ok (ranked_rb (concat_rb (leg_fields SCORE_COL) [vec_leg; fts_leg]) order scores).
Proof.
  exact (@rrf_reranks ref_kernels ref_laws ref_hybrid ref_hybrid_laws 0%Z 2 F32.one "" vec_leg fts_leg _ _
           vec_leg_wf fts_leg_wf leg_fields_fit vec_leg_ids fts_leg_ids).
Defined.

(** The ranking of the test of rrf.rs. *)
Example rrf_example :
  rerank_hybrid 0 F32.one "" vec_leg fts_leg =
    Ok (ranked_rb (concat_rb (leg_fields SCORE_COL) [vec_leg; fts_leg]) [1; 0; 3; 4; 2]%Z
          [F32.of_decimal 15 1; F32.one; F32.of_decimal 75 2;
           F32.add (F32.of_decimal 2 1) (F32.div F32.one (F32.of_Z 3)); F32.div F32.one (F32.of_Z 3)]).
Proof. vm_compute. done. Qed.

(** C8: hybrid search.  When both searches answer, the stream of [run_hybrid]
    holds the [limit] best rows (ten, unless set) of the reciprocal rank fusion
    of the two answers, whose scores are normalised and otherwise kept; row ids
    are dropped unless they were asked for, normalising by rank or by score
    makes no difference to which rows are returned, and no batch is longer than
    [max_batch_length]. *)
Theorem hybrid_search_top {K : ArrowKernels} {LK : ArrowLaws K} {HK : HybridKernels} {LH : HybridLaws HK}
    {D : DropColumn} {LD : DropColumnLaws D} null_slot request fts vec ffields vfields j fids vids query m :
  batches_ok ffields fts → batches_ok vfields vec → fts ≠ [] → vec ≠ [] →
  Forall2 field_fits ffields vfields → has_scores SCORE_COL ffields → has_scores DIST_COL vfields →
  ids_at j (concat_rb ffields fts) fids → ids_at j (concat_rb vfields vec) vids →
  reranker request = None → full_text_search request = Some query →
  ∃ v f order scores bs,
    same_but DIST_COL (concat_rb vfields vec) v ∧ same_but SCORE_COL (concat_rb ffields fts) f ∧
    ranking (F32.of_Z 60) vids fids order scores ∧
    let out := answer_rb request (top_rb (concat_rb ffields [v; f]) (default DEFAULT_TOP_K (limit request))
                                    order scores) in
    run_hybrid null_slot request (Ok (fts, vec)) m = Ok (mkStream (rb_fields out) (Ok <$> bs)) ∧
    concat_rb (rb_fields out) bs = out ∧ batches_ok (rb_fields out) bs ∧
    (0 < m → Forall (λ b, rb_num_rows b ≤ m) bs).
Proof. apply run_hybrid_ok. Qed.

Definition demo_request : HybridRequest := mkRequest (Some Rank) None (Some "puppy") (Some 3) false.

Lemma hybrid_search_top_witness :
  ∃ v f order scores bs,
    same_but DIST_COL (concat_rb (leg_fields DIST_COL) [vec_leg]) v ∧
    same_but SCORE_COL (concat_rb (leg_fields SCORE_COL) [fts_leg]) f ∧
    ranking (F32.of_Z 60) [1; 4; 2; 5; 3]%Z [4; 5; 3]%Z order scores ∧
    let out := answer_rb demo_request (top_rb (concat_rb (leg_fields SCORE_COL) [v; f])
                                         (default DEFAULT_TOP_K (limit demo_request)) order scores) in
    run_hybrid 0 demo_request (Ok ([fts_leg], [vec_leg])) 2 = Ok (mkStream (rb_fields out) (Ok <$> bs)) ∧
    concat_rb (rb_fields out) bs = out ∧ batches_ok (rb_fields out) bs ∧
    (0 < 2 → Forall (λ b, rb_num_rows b ≤ 2) bs).
Proof.
  apply (hybrid_search_top 0%Z demo_request [fts_leg] [vec_leg] (leg_fields SCORE_COL) (leg_fields DIST_COL)
           2 [4; 5; 3]%Z [1; 4; 2; 5; 3]%Z "puppy" 2).
  - apply Forall_singleton. split; [exact fts_leg_wf|done].
  - apply Forall_singleton. split; [exact vec_leg_wf|done].
  - discriminate.
  - discriminate.
  - exact leg_fields_fit.
  - by exists 1, (mkField SCORE_COL Float32 true ∅).
  - by exists 1, (mkField DIST_COL Float32 true ∅).
  - rewrite concat_rb_singleton; [exact fts_leg_ids|exact fts_leg_wf|done].
  - rewrite concat_rb_singleton; [exact vec_leg_ids|exact vec_leg_wf|done].
  - done.
  - done.
Defined.

(** a vector search without batches.  When the vector search yields no batch
    while the full text search does, the schema made for the empty side renames
    the distance column to the score column instead of the other way round, so
    the normalisation does not find its column and the query fails. *)
Theorem vector_leg_without_batches {K : ArrowKernels} {LK : ArrowLaws K} {HK : HybridKernels}
    {D : DropColumn} null_slot request fts fields m :
  batches_ok fields fts → fts ≠ [] → DIST_COL ∉ f_name <$> fields →
  run_hybrid null_slot request (Ok (fts, [])) m = Err not_found.
Proof.
  intros Hf Hne Hd.
  assert (list_find (λ f, f_name f = DIST_COL) fields = None) as Hnone.
  { apply list_find_None, Forall_forall. intros g Hg E. apply Hd. rewrite <- E. by apply list_elem_of_fmap_2. }
  assert (column_by_name (concat_rb fields []) DIST_COL = None) as Hcol.
  { unfold column_by_name. rewrite fmap_None. apply list_find_None, Forall_forall.
    intros [g c] (i & g' & c' & [= -> ->] & Hg & _)%elem_of_lookup_zip_with E. apply Hd. rewrite <- E.
    by apply list_elem_of_fmap_2, (list_elem_of_lookup_2 _ i). }
  assert (rank (concat_rb fields []) DIST_COL None = Err not_found) as Hrank by (unfold rank; by rewrite Hcol).
  assert (normalize_scores (concat_rb fields []) DIST_COL None = Err not_found) as Hnorm
    by (unfold normalize_scores; by rewrite Hcol).
  unfold run_hybrid. cbn [mbind outcome_bind fst snd]. unfold query_schemas.
  destruct fts as [|b fts]; [done|]. pose proof Hf as [[_ HF] _]%Forall_cons.
  cbn [fmap list_fmap head fst snd]. rewrite HF. unfold with_field_name_replaced. rewrite Hnone.
  rewrite !concat_batches_ok by (done || constructor). run_ok.
  unfold rerank_legs. destruct (bool_decide (norm request = Some Rank)).
  - by rewrite Hrank.
  - run_ok. by rewrite Hnorm.
Qed.

Lemma vector_leg_without_batches_witness :
  run_hybrid 0 demo_request (Ok ([fts_leg], [])) 0 = Err not_found.
Proof.
  apply (vector_leg_without_batches 0%Z demo_request [fts_leg] (leg_fields SCORE_COL) 0).
  - apply Forall_singleton. split; [exact fts_leg_wf|done].
  - discriminate.
  - apply (bool_decide_unpack _). by vm_compute.
Defined.

(** The other way round the query succeeds. *)
Example fts_leg_without_batches :
  is_ok (run_hybrid 0 demo_request (Ok ([], [vec_leg])) 0) = true.
Proof. vm_compute. done. Qed.

(** Scores that lie close together are divided by the largest one, which may be
    much smaller than their spread: the distances -4e-5 and 1e-5 become 0 and
    about 5, although normalised scores are said to lie between 0 and 1. *)
Example normalised_above_one :
  let row x := mkRB [mkField DIST_COL Float32 true ∅] [CF32 <$> x] (length x) in
  match normalize_scores (row [F32.of_decimal (-4) 5; F32.of_decimal 1 5]) DIST_COL None with
  | Ok b => match rb_columns b with
            | [[CF32 x; CF32 y]] => F32.eqb x F32.zero && F32.ltb (F32.of_decimal 49 1) y
            | _ => false
            end
  | _ => false
  end = true.
Proof. vm_compute. done. Qed.
End Hybrid.
