(* ===== verification/ReadFreshness.v ===== *)
(** * Freshness of remote reads (rust/lancedb/src/database/read_freshness.rs and
      the freshness state of remote/table.rs)

    A server may answer a read from a cache.  The client attaches the least
    version and the least timestamp it will accept: for namespace clients from a
    shared map of baselines per table, for remote tables from a state that
    follows the handle's timeline.  A [SystemTime] is a number of nanoseconds
    since the epoch and the clock is not assumed to be monotone. *)

From S2P Require Import Prelude RustStr.

(** The greatest element. *)
Fixpoint maximum (l : list Z) : option Z :=
  match l with
  | [] => None
  | x :: l' => Some (match maximum l' with Some y => Z.max x y | None => x end)
  end.

Lemma maximum_app l l' :
  maximum (l ++ l') =
  match maximum l, maximum l' with
  | Some x, Some y => Some (Z.max x y)
  | Some x, None => Some x
  | None, o => o
  end.
Proof.
  induction l as [|x l IH]; simpl; [done|]. rewrite IH.
  destruct (maximum l), (maximum l'); f_equal; lia.
Qed.

Lemma maximum_snoc l x : maximum (l ++ [x]) = Some (match maximum l with Some y => Z.max y x | None => x end).
Proof. rewrite maximum_app. simpl. by destruct (maximum l). Qed.

(** [SystemTime::checked_sub]: seconds are an [i64]. *)
Definition checked_sub (now d : Z) : option Z :=
  if (- 2 ^ 63 * 10 ^ 9 <=? now - d)%Z then Some (now - d)%Z else None.

(** What the consistency interval alone demands at [now]. *)
Definition interval_floor (interval : option Z) (now : Z) : option Z :=
  match interval with
  | None => None
  | Some d => if (d =? 0)%Z then Some now else Some (default now (checked_sub now d))
  end.

(** [compute_min_timestamp] of both files. *)
Definition compute_min_timestamp (baseline interval : option Z) (now : Z) : option Z :=
  match interval_floor interval now, baseline with
  | None, None => None
  | Some t, None | None, Some t => Some t
  | Some a, Some b => Some (Z.max a b)
  end.

Lemma compute_min_timestamp_maximum l interval now :
  compute_min_timestamp (maximum l) interval now =
  maximum (option_list (interval_floor interval now) ++ l).
Proof.
  unfold compute_min_timestamp. destruct (interval_floor interval now) as [t|]; simpl; [|by destruct (maximum l)].
  by destruct (maximum l).
Qed.

(** ** Namespace clients: read_freshness.rs *)
Module Baselines.

Definition MIN_TIMESTAMP_CONTEXT_KEY : string := "headers.x-lancedb-min-timestamp".

Abbreviation FreshnessBaselines := (gmap string Z).

Definition next_freshness_baseline (prev : option Z) (now : Z) : Z :=
  match prev with Some p => Z.max p now | None => now end.

(** [TableFreshness::bump] *)
Definition bump (baselines : FreshnessBaselines) (key : string) (now : Z) : FreshnessBaselines :=
  <[key := next_freshness_baseline (baselines !! key) now]> baselines.

Definition is_read_operation (operation : string) : bool :=
  bool_decide (operation ∈ ["describe_table"; "list_table_versions"; "query_table"; "list_tables"]).

(** [provide_context]; [to_rfc3339] prints a time. *)
Definition provide_context (to_rfc3339 : Z → string) (baselines : FreshnessBaselines)
    (read_consistency_interval : option Z) (operation object_id : string) (now : Z) : gmap string string :=
  if negb (is_read_operation operation) then ∅
  else
    match compute_min_timestamp (baselines !! object_id) read_consistency_interval now with
    | Some ts => {[ MIN_TIMESTAMP_CONTEXT_KEY := to_rfc3339 ts ]}
    | None => ∅
    end.

(** The baselines after handles bumped tables at the given times. *)
Definition bump_all (events : list (string * Z)) : FreshnessBaselines :=
  foldl (λ m e, bump m e.1 e.2) ∅ events.

Definition times (key : string) (events : list (string * Z)) : list Z :=
  snd <$> filter (λ e, e.1 = key) events.

Lemma bump_all_snoc events k t : bump_all (events ++ [(k, t)]) = bump (bump_all events) k t.
Proof. unfold bump_all. by rewrite foldl_snoc. Qed.

Lemma bump_all_lookup key events : bump_all events !! key = maximum (times key events).
Proof.
  induction events as [|[k t] events IH] using rev_ind; [done|].
  rewrite bump_all_snoc. unfold bump, times. rewrite filter_app, fmap_app. fold (times key events).
  rewrite filter_cons. simpl. case_decide as Hk.
  - subst k. rewrite lookup_insert_eq, IH. simpl. by rewrite maximum_snoc.
  - rewrite lookup_insert_ne, IH by done. simpl. by rewrite app_nil_r.
Qed.

(** the freshness floor of namespace reads.  Whatever handles bumped which
    tables, and even if the clock jumped back in between, a read of a table asks
    for the latest of all bumps of that table and the start of the consistency
    interval, or for nothing if there is neither; bumps of other tables do not
    matter and operations that do not read ask for nothing. *)
Theorem read_freshness_floor to_rfc3339 events interval operation object_id now :
  provide_context to_rfc3339 (bump_all events) interval operation object_id now =
  if is_read_operation operation then
    match maximum (option_list (interval_floor interval now) ++ times object_id events) with
    | Some ts => {[ MIN_TIMESTAMP_CONTEXT_KEY := to_rfc3339 ts ]}
    | None => ∅
    end
  else ∅.
Proof.
  unfold provide_context. rewrite bump_all_lookup, compute_min_timestamp_maximum.
  by destruct (is_read_operation operation).
Qed.

End Baselines.

(** ** Remote tables: the freshness state of remote/table.rs *)
Module RemoteFreshness.

Record FreshnessState : Type := mkFreshness {
  generation : Z;
  pinned : bool;
  min_version : option Z;
  min_read_version : option Z;
  checkout_baseline : option Z
}.

Definition default_freshness : FreshnessState := mkFreshness 0 false None None None.

Record FreshnessHeaders : Type := mkHeaders {
  h_generation : Z;
  h_min_version : option Z;
  h_min_timestamp : option Z;
  h_min_read_version : option Z
}.

(** What a [RemoteTable] keeps under its two locks: the version it is checked
    out at, and its freshness. *)
Record Handle : Type := mkHandle { version : option Z; freshness : FreshnessState }.

(** A new handle, and [with_branch]. *)
Definition new_handle : Handle := mkHandle None default_freshness.

(** [freshness_headers_snapshot], [freshness_state_snapshot] *)
Definition snapshot (state : FreshnessState) (interval : option Z) (now : Z) : FreshnessHeaders :=
  if pinned state then mkHeaders (generation state) None None None
  else mkHeaders (generation state) (min_version state)
         (compute_min_timestamp (checkout_baseline state) interval now) (min_read_version state).

Definition max_or (o : option Z) (v : Z) : option Z :=
  Some (match o with Some x => Z.max x v | None => v end).

(** [track_read_version], on its own and for a generation. *)
Definition track_read_version (state : FreshnessState) (v : Z) : FreshnessState :=
  if (v =? 0)%Z then state
  else mkFreshness (generation state) (pinned state) (min_version state)
         (max_or (min_read_version state) v) (checkout_baseline state).

Definition track_read_version_for_generation (state : FreshnessState) (gen v : Z) : FreshnessState :=
  if (v =? 0)%Z then state
  else if (generation state =? gen)%Z then track_read_version state v else state.

Definition observe_version (request : FreshnessHeaders) (state : FreshnessState) (v : Z) : FreshnessState :=
  track_read_version_for_generation state (h_generation request) v.

(** [header] is the text of the version header, if the response has one. *)
Definition observe_headers (request : FreshnessHeaders) (state : FreshnessState) (header : option string)
    : FreshnessState :=
  match header ≫= parse_u64 with
  | Some v => observe_version request state v
  | None => state
  end.

Definition update_if_current (request : FreshnessHeaders) (state : FreshnessState)
    (update : FreshnessState → FreshnessState) : FreshnessState :=
  if (generation state =? h_generation request)%Z then update state else state.

Definition is_current (request : FreshnessHeaders) (state : FreshnessState) : bool :=
  (generation state =? h_generation request)%Z.

Definition track_write_version (request : FreshnessHeaders) (state : FreshnessState) (v : Z) : FreshnessState :=
  if (v =? 0)%Z then state
  else update_if_current request state
         (λ s, mkFreshness (generation s) (pinned s) (max_or (min_version s) v)
                 (min_read_version s) (checkout_baseline s)).

Definition reset_freshness (state : FreshnessState) (baseline : option Z) (pin : bool) : FreshnessState :=
  mkFreshness ((generation state + 1) mod U64) pin None None baseline.

(** [checkout] and [checkout_tag] once the version is resolved. *)
Definition checkout (h : Handle) (v : Z) : Handle :=
  mkHandle (Some v) (reset_freshness (freshness h) None true).

Definition checkout_latest (h : Handle) (now : Z) : Handle :=
  mkHandle None (reset_freshness (freshness h) (Some now) false).

(** The handle made by [snapshot_at_current_version], and by [query_snapshot]
    and [checkout_current], at version [v]. *)
Definition snapshot_at_version (v : Z) : Handle :=
  mkHandle (Some v) (reset_freshness default_freshness None true).
Definition query_snapshot (v : Z) : Handle := mkHandle (Some v) (freshness new_handle).

Definition check_mutable (h : Handle) : result unit :=
  match version h with
  | None => Ok tt
  | Some _ => Err (NotSupported "Cannot mutate table reference fixed at version {}. Call checkout_latest() to get a mutable table reference.")
  end.

(** The version a finished [RefreshColumn] job reports: [published_version] and
    [source_version], if the job's value has them. *)
Definition tracked_version (value : option (option Z * Z)) : option Z :=
  match value with
  | Some (published, source) =>
      let v := match published with Some p => Z.max p source | None => source end in
      if (v =? 0)%Z then None else Some v
  | None => None
  end.

(** [FreshnessJob::wait] when the job has finished. *)
Definition job_wait (request : FreshnessHeaders) (h : Handle) (value : option (option Z * Z)) (now : Z) : Handle :=
  match version h with
  | Some _ => h
  | None =>
      mkHandle None
        (match tracked_version value with
         | Some v => observe_version request (freshness h) v
         | None =>
             update_if_current request (freshness h)
               (λ s, mkFreshness (generation s) (pinned s) (min_version s) (min_read_version s) (Some now))
         end)
  end.

(** ** A handle with its requests in flight

    [epoch] counts the checkouts; a request remembers the epoch it was prepared
    in, and [log] what was learned in which epoch.  Neither is state of the
    code: they state what the generations are for. *)
Inductive Event : Type :=
  | EWrite (epoch v : Z)
  | ERead (epoch v : Z)
  | EBaseline (epoch t : Z).

Record World : Type := mkWorld {
  handle : Handle;
  epoch : Z;
  requests : list (Z * FreshnessHeaders);
  log : list Event
}.

Definition with_freshness (w : World) (s : FreshnessState) (l : list Event) : World :=
  mkWorld (mkHandle (version (handle w)) s) (epoch w) (requests w) (log w ++ l).

Inductive step (w : World) : World → Prop :=
  | Prepare interval now :
      step w (mkWorld (handle w) (epoch w)
                (requests w ++ [(epoch w, snapshot (freshness (handle w)) interval now)]) (log w))
  | ReadAnswer e r v :
      (e, r) ∈ requests w →
      step w (with_freshness w (observe_version r (freshness (handle w)) v) [ERead e v])
  | ReadHeader e r header v :
      (e, r) ∈ requests w → header ≫= parse_u64 = Some v →
      step w (with_freshness w (observe_headers r (freshness (handle w)) header) [ERead e v])
  | WriteAnswer e r v :
      (e, r) ∈ requests w →
      step w (with_freshness w (track_write_version r (freshness (handle w)) v) [EWrite e v])
  | JobDone e r value now :
      (e, r) ∈ requests w →
      step w (mkWorld (job_wait r (handle w) value now) (epoch w) (requests w)
                (log w ++ match version (handle w), tracked_version value with
                          | Some _, _ => []
                          | None, Some v => [ERead e v]
                          | None, None => [EBaseline e now]
                          end))
  | Checkout v : step w (mkWorld (checkout (handle w) v) (epoch w + 1) (requests w) (log w))
  | CheckoutLatest now :
      step w (mkWorld (checkout_latest (handle w) now) (epoch w + 1) (requests w)
                (log w ++ [EBaseline (epoch w + 1) now])).

(** A handle may have been opened with the version of a describe body. *)
Definition opened (v : Z) : World :=
  mkWorld (mkHandle None (track_read_version default_freshness v)) 0 [] [ERead 0 v].

Inductive reachable : World → Prop :=
  | reachable_opened v : reachable (opened v)
  | reachable_step w w' : reachable w → step w w' → reachable w'.

(** What was learned in epoch [e]. *)
Definition writes (e : Z) (l : list Event) : list Z :=
  omap (λ x, match x with EWrite e' v => if (e' =? e)%Z && negb (v =? 0)%Z then Some v else None | _ => None end) l.
Definition reads (e : Z) (l : list Event) : list Z :=
  omap (λ x, match x with ERead e' v => if (e' =? e)%Z && negb (v =? 0)%Z then Some v else None | _ => None end) l.
Definition baselines (e : Z) (l : list Event) : list Z :=
  omap (λ x, match x with EBaseline e' t => if (e' =? e)%Z then Some t else None | _ => None end) l.

(** ** The invariant *)
Definition event_epoch (x : Event) : Z :=
  match x with EWrite e _ | ERead e _ | EBaseline e _ => e end.

Record inv (w : World) : Prop := mkInv {
  inv_epoch : (0 ≤ epoch w)%Z;
  inv_generation : generation (freshness (handle w)) = (epoch w mod U64)%Z;
  inv_requests : Forall (λ p, 0 ≤ p.1 ≤ epoch w ∧ h_generation p.2 = p.1 mod U64)%Z (requests w);
  inv_log : Forall (λ x, event_epoch x ≤ epoch w)%Z (log w);
  inv_pinned : pinned (freshness (handle w)) = bool_decide (is_Some (version (handle w)));
  inv_writes : min_version (freshness (handle w)) = maximum (writes (epoch w) (log w));
  inv_reads : min_read_version (freshness (handle w)) = maximum (reads (epoch w) (log w));
  inv_baseline : checkout_baseline (freshness (handle w)) = last (baselines (epoch w) (log w))
}.

Lemma learned_app e l l' :
  writes e (l ++ l') = writes e l ++ writes e l' ∧ reads e (l ++ l') = reads e l ++ reads e l' ∧
  baselines e (l ++ l') = baselines e l ++ baselines e l'.
Proof. unfold writes, reads, baselines. by rewrite !omap_app. Qed.

(** Nothing was learned in an epoch to come. *)
Lemma learned_later e l :
  Forall (λ x, event_epoch x ≤ e)%Z l →
  writes (e + 1) l = [] ∧ reads (e + 1) l = [] ∧ baselines (e + 1) l = [].
Proof.
  induction 1 as [|x l Hx _ (H1 & H2 & H3)]; [done|].
  unfold writes, reads, baselines in *. simpl. destruct x as [e' v|e' v|e' t]; simpl in *;
    rewrite (proj2 (Z.eqb_neq _ _)) by lia; simpl; auto.
Qed.

(** Epochs below the number of generations have distinct generations. *)
Lemma generation_epoch w e r :
  inv w → (epoch w < U64)%Z → (e, r) ∈ requests w →
  (0 ≤ e ≤ epoch w)%Z ∧ ((generation (freshness (handle w)) =? h_generation r)%Z = (e =? epoch w)%Z).
Proof.
  intros Hi Hlt Hr. pose proof (inv_requests _ Hi) as Hq. rewrite Forall_forall in Hq.
  destruct (Hq _ Hr) as [He Hg]. simpl in He, Hg. split; [done|].
  rewrite Hg, (inv_generation _ Hi), !Z.mod_small by (pose proof (inv_epoch _ Hi); lia).
  destruct (Z.eqb_spec (epoch w) e), (Z.eqb_spec e (epoch w)); (done || lia).
Qed.

Definition learned_read (w : World) (e v : Z) : FreshnessState :=
  let s := freshness (handle w) in
  if (e =? epoch w)%Z && negb (v =? 0)%Z
  then mkFreshness (generation s) (pinned s) (min_version s) (max_or (min_read_version s) v) (checkout_baseline s)
  else s.

Lemma observe_learned w e r v :
  inv w → (epoch w < U64)%Z → (e, r) ∈ requests w →
  observe_version r (freshness (handle w)) v = learned_read w e v.
Proof.
  intros Hi Hlt Hr. destruct (generation_epoch w e r) as [_ Hg]; [done..|].
  unfold observe_version, track_read_version_for_generation, track_read_version, learned_read.
  rewrite Hg. by destruct (v =? 0)%Z, (e =? epoch w)%Z.
Qed.

(** A step that changes neither version nor epoch, and learns [x]. *)
Lemma inv_learn w s x :
  inv w → (event_epoch x ≤ epoch w)%Z →
  generation s = generation (freshness (handle w)) → pinned s = pinned (freshness (handle w)) →
  min_version s = maximum (writes (epoch w) (log w ++ [x])) →
  min_read_version s = maximum (reads (epoch w) (log w ++ [x])) →
  checkout_baseline s = last (baselines (epoch w) (log w ++ [x])) →
  inv (with_freshness w s [x]).
Proof.
  intros [] Hx Hg Hp H1 H2 H3. split; simpl; try done; [congruence| |congruence].
  apply Forall_app; split; [done|by apply Forall_singleton].
Qed.

Lemma inv_read w e v : inv w → (e ≤ epoch w)%Z → inv (with_freshness w (learned_read w e v) [ERead e v]).
Proof.
  intros Hi He. pose proof (inv_writes _ Hi) as HW. pose proof (inv_reads _ Hi) as HR.
  pose proof (inv_baseline _ Hi) as HB.
  destruct (learned_app (epoch w) (log w) [ERead e v]) as (E1 & E2 & E3).
  apply inv_learn; rewrite ?E1, ?E2, ?E3; unfold learned_read, writes, reads, baselines in *; simpl;
    rewrite ?app_nil_r; try done; destruct ((e =? epoch w)%Z && negb (v =? 0)%Z); simpl; rewrite ?app_nil_r; try done.
  rewrite maximum_snoc. unfold max_or. by rewrite HR.
Qed.

Lemma inv_write w e r v :
  inv w → (epoch w < U64)%Z → (e, r) ∈ requests w →
  inv (with_freshness w (track_write_version r (freshness (handle w)) v) [EWrite e v]).
Proof.
  intros Hi Hlt Hr. destruct (generation_epoch w e r) as [He Hg]; [done..|].
  pose proof (inv_writes _ Hi) as HW. pose proof (inv_reads _ Hi) as HR. pose proof (inv_baseline _ Hi) as HB.
  destruct (learned_app (epoch w) (log w) [EWrite e v]) as (E1 & E2 & E3).
  unfold track_write_version, update_if_current. rewrite Hg.
  apply inv_learn; rewrite ?E1, ?E2, ?E3; unfold writes, reads, baselines in *; simpl;
    rewrite ?app_nil_r; try done; try (simpl; lia);
    destruct (v =? 0)%Z, (e =? epoch w)%Z; simpl; rewrite ?app_nil_r; try done.
  rewrite maximum_snoc. unfold max_or. by rewrite HW.
Qed.

Lemma inv_baseline_set w e r now :
  inv w → (epoch w < U64)%Z → (e, r) ∈ requests w →
  inv (with_freshness w
         (update_if_current r (freshness (handle w))
            (λ s, mkFreshness (generation s) (pinned s) (min_version s) (min_read_version s) (Some now)))
         [EBaseline e now]).
Proof.
  intros Hi Hlt Hr. destruct (generation_epoch w e r) as [He Hg]; [done..|].
  pose proof (inv_writes _ Hi) as HW. pose proof (inv_reads _ Hi) as HR. pose proof (inv_baseline _ Hi) as HB.
  destruct (learned_app (epoch w) (log w) [EBaseline e now]) as (E1 & E2 & E3).
  unfold update_if_current. rewrite Hg.
  apply inv_learn; rewrite ?E1, ?E2, ?E3; unfold writes, reads, baselines in *; simpl;
    rewrite ?app_nil_r; try done; try (simpl; lia);
    destruct (e =? epoch w)%Z; simpl; rewrite ?app_nil_r; try done.
  by rewrite last_snoc.
Qed.

Lemma inv_checkout w h baseline pin l :
  inv w → freshness h = reset_freshness (freshness (handle w)) baseline pin →
  pin = bool_decide (is_Some (version h)) →
  l = match baseline with Some t => [EBaseline (epoch w + 1) t] | None => [] end →
  inv (mkWorld h (epoch w + 1) (requests w) (log w ++ l)).
Proof.
  intros [] Hf Hp Hl. destruct (learned_later _ _ inv_log0) as (H1 & H2 & H3).
  destruct (learned_app (epoch w + 1) (log w) l) as (E1 & E2 & E3).
  split; simpl; rewrite ?Hf; simpl; rewrite ?E1, ?E2, ?E3, ?H1, ?H2, ?H3; try done.
  - lia.
  - rewrite inv_generation0. by rewrite Zplus_mod_idemp_l.
  - eapply Forall_impl; [exact inv_requests0|]. simpl. intros p ?. split; [lia|tauto].
  - apply Forall_app. split; [eapply Forall_impl; [exact inv_log0|]; simpl; lia|].
    subst l. destruct baseline; [|constructor]. apply Forall_singleton. simpl. lia.
  - subst l. by destruct baseline.
  - subst l. by destruct baseline.
  - subst l. destruct baseline as [t|]; [|done]. unfold baselines. simpl. by rewrite Z.eqb_refl.
Qed.

Lemma freshness_step_inv w w' : inv w → (epoch w < U64)%Z → step w w' → inv w'.
Proof.
  intros Hi Hlt Hs. destruct Hs as [interval now|e r v Hr|e r header v Hr Hh|e r v Hr|e r value now Hr|v|now].
  - destruct Hi. split; simpl; try done. apply Forall_app. split; [done|]. apply Forall_singleton. simpl.
    split; [lia|]. unfold snapshot. by destruct (pinned _).
  - rewrite (observe_learned w e) by done. apply inv_read; [done|]. by apply (generation_epoch w e r).
  - unfold observe_headers. rewrite Hh, (observe_learned w e) by done. apply inv_read; [done|].
    by apply (generation_epoch w e r).
  - by apply inv_write.
  - unfold job_wait. destruct (version (handle w)) as [u|] eqn:Ev.
    + rewrite app_nil_r. by destruct w.
    + rewrite <- Ev at 1. destruct (tracked_version value) as [v|].
      * rewrite (observe_learned w e) by done. apply (inv_read w e v); [done|]. by apply (generation_epoch w e r).
      * by apply (inv_baseline_set w e r).
  - rewrite <- (app_nil_r (log w)). by apply (inv_checkout w _ None true).
  - by apply (inv_checkout w _ (Some now) false).
Qed.

Lemma step_epoch w w' : step w w' → (epoch w ≤ epoch w')%Z.
Proof. intros []; simpl; lia. Qed.

Lemma freshness_reachable_inv w : reachable w → (epoch w < U64)%Z → inv w.
Proof.
  induction 1 as [v|w w' _ IH Hs]; intros Hlt.
  - unfold opened, track_read_version. destruct (Z.eqb_spec v 0) as [->|Hv]; split; simpl; try done.
    + apply Forall_singleton. simpl. lia.
    + apply Forall_singleton. simpl. lia.
    + unfold reads. simpl. by rewrite (proj2 (Z.eqb_neq _ _) Hv).
  - pose proof (step_epoch _ _ Hs). eapply freshness_step_inv; [apply IH|..]; (done || lia).
Qed.

(** the freshness of a remote handle follows its timeline.  In every
    interleaving of requests, their answers, finished jobs and checkouts (fewer
    than 2^64 of them): a handle checked out at a version asks for no freshness;
    any other asks for exactly the greatest version its writes returned and the
    greatest committed version its answers showed since the last checkout, with
    the last baseline as least timestamp.  Answers to requests that were prepared
    before the last checkout change nothing. *)
Theorem freshness_timeline w interval now :
  reachable w → (epoch w < U64)%Z →
  let hs := snapshot (freshness (handle w)) interval now in
  (∀ v, version (handle w) = Some v → hs = mkHeaders (generation (freshness (handle w))) None None None) ∧
  (version (handle w) = None →
     h_min_version hs = maximum (writes (epoch w) (log w)) ∧
     h_min_read_version hs = maximum (reads (epoch w) (log w)) ∧
     h_min_timestamp hs = compute_min_timestamp (last (baselines (epoch w) (log w))) interval now) ∧
  (∀ e r, (e, r) ∈ requests w → e ≠ epoch w →
     (∀ v, observe_version r (freshness (handle w)) v = freshness (handle w) ∧
           track_write_version r (freshness (handle w)) v = freshness (handle w)) ∧
     ∀ value now, job_wait r (handle w) value now = handle w).
Proof.
  intros Hr Hlt. pose proof (freshness_reachable_inv w Hr Hlt) as Hi.
  pose proof (inv_pinned _ Hi) as Hp. simpl. split_and!.
  - intros v Hv. rewrite Hv in Hp. unfold snapshot. by rewrite Hp.
  - intros Hv. rewrite Hv in Hp. unfold snapshot. rewrite Hp. simpl.
    by rewrite (inv_writes _ Hi), (inv_reads _ Hi), (inv_baseline _ Hi).
  - intros e r Hin Hne. destruct (generation_epoch w e r) as [_ Hg]; [done..|].
    rewrite (proj2 (Z.eqb_neq _ _) Hne) in Hg.
    assert (∀ v, observe_version r (freshness (handle w)) v = freshness (handle w)) as Hobs.
    { intros v. rewrite (observe_learned w e) by done. unfold learned_read.
      by rewrite (proj2 (Z.eqb_neq _ _) Hne). }
    split.
    + intros v. split; [done|]. unfold track_write_version, update_if_current. rewrite Hg. by case_match.
    + intros value t. unfold job_wait. destruct (handle w) as [[v|] s] eqn:Eh; [done|]. simpl in *.
      f_equal. case_match; [apply Hobs|]. unfold update_if_current. by rewrite Hg.
Qed.

(** A handle opened at version 3 prepares a write, checks out version 2 and
    returns to the latest version before the write answers 7; the next write
    answers 8. *)
Definition demo_request (g : Z) (read baseline : option Z) : FreshnessHeaders := mkHeaders g None baseline read.

Definition demo_world : World :=
  mkWorld (mkHandle None (mkFreshness 2 false (Some 8%Z) None (Some 50%Z))) 2
    [(0, demo_request 0 (Some 3) None); (2, demo_request 2 None (Some 50))]%Z
    [ERead 0 3; EBaseline 2 50; EWrite 0 7; EWrite 2 8]%Z.

Lemma demo_world_reachable : reachable demo_world.
Proof.
  pose proof (reachable_opened 3) as H.
  pose proof (reachable_step _ _ H (Prepare _ None 10)) as H1. clear H. cbv in H1.
  pose proof (reachable_step _ _ H1 (Checkout _ 2)) as H2. clear H1. cbv in H2.
  pose proof (reachable_step _ _ H2 (CheckoutLatest _ 50)) as H3. clear H2. cbv in H3.
  epose proof (reachable_step _ _ H3 (WriteAnswer _ 0 _ 7 _)) as H4. clear H3.
  Unshelve. 3: { apply list_elem_of_here. } cbv in H4.
  pose proof (reachable_step _ _ H4 (Prepare _ None 60)) as H5. clear H4. cbv in H5.
  epose proof (reachable_step _ _ H5 (WriteAnswer _ 2 _ 8 _)) as H6. clear H5.
  Unshelve. 3: { apply list_elem_of_further, list_elem_of_here. } exact H6.
Qed.

Lemma freshness_timeline_witness :
  let hs := snapshot (freshness (handle demo_world)) (Some 5%Z) 90 in
  (∀ v, version (handle demo_world) = Some v →
     hs = mkHeaders (generation (freshness (handle demo_world))) None None None) ∧
  (version (handle demo_world) = None →
     h_min_version hs = maximum (writes (epoch demo_world) (log demo_world)) ∧
     h_min_read_version hs = maximum (reads (epoch demo_world) (log demo_world)) ∧
     h_min_timestamp hs =
       compute_min_timestamp (last (baselines (epoch demo_world) (log demo_world))) (Some 5%Z) 90) ∧
  (∀ e r, (e, r) ∈ requests demo_world → e ≠ epoch demo_world →
     (∀ v, observe_version r (freshness (handle demo_world)) v = freshness (handle demo_world) ∧
           track_write_version r (freshness (handle demo_world)) v = freshness (handle demo_world)) ∧
     ∀ value now, job_wait r (handle demo_world) value now = handle demo_world).
Proof. apply (freshness_timeline demo_world (Some 5%Z) 90 demo_world_reachable). by vm_compute. Defined.

(** constraints that are missing or left over.  A job is said to keep later
    reads from being served from before the completed fill; when the handle
    returned to the latest version while the job ran (at 10), a wait that
    succeeds at 20 sets no baseline, and the next read accepts a snapshot of
    time 10.  Handles of [query_snapshot] and [checkout_current] are fixed at a
    version but not marked as pinned, so unlike those of
    [snapshot_at_current_version] they send the constraints of the latest
    timeline. *)
Theorem freshness_gaps :
  (∃ w r, reachable w ∧ (0%Z, r) ∈ requests w ∧ log w = [ERead 0 3; EBaseline 1 10]%Z ∧
     job_wait r (handle w) None 20 = handle w ∧
     h_min_timestamp (snapshot (freshness (handle w)) None 30) = Some 10%Z) ∧
  snapshot (freshness (query_snapshot 5)) (Some 100%Z) 1000 = mkHeaders 0 None (Some 900%Z) None ∧
  snapshot (freshness (snapshot_at_version 5)) (Some 100%Z) 1000 = mkHeaders 1 None None None.
Proof.
  split; [|by vm_compute].
  pose proof (reachable_step _ _ (reachable_opened 3) (Prepare _ None 5)) as H1.
  pose proof (reachable_step _ _ H1 (CheckoutLatest _ 10)) as H2. clear H1. cbv in H2.
  eexists _, _. split; [exact H2|]. split; [apply list_elem_of_here|]. by vm_compute.
Qed.
End RemoteFreshness.
