(* ===== verification/Streams.v ===== *)
(** * Stream adapters (rust/lancedb/src/utils/mod.rs)

    [TimeoutStream] and [MaxBatchLengthStream] wrap the stream of a query's
    batches.  Each is a state machine that is polled; the inner stream is any
    machine that can be polled.  A [DataFusionError] is an [External] error. *)

From S2P Require Import Prelude Floats Arrow Hybrid.

Module Streams.

Inductive Poll (A : Type) : Type :=
  | Ready (a : A)
  | Pending.
Arguments Ready {A} a.
Arguments Pending {A}.

(** What a poll of a stream of batches yields. *)
Abbreviation item := (Poll (option (result RecordBatch))).

(** Any inner stream: its state and its [poll_next]. *)
Class Inner (I : Type) : Type := { poll_inner : I → item * I }.

Section streams.
Context {K : ArrowKernels} {I : Type} {S : Inner I}.

(** ** TimeoutStream *)
Inductive TimeoutState : Type :=
  | NotStarted (timeout : Z)
  | Started (deadline timeout : Z)
  | Completed.

(** Whether the timer of a deadline has fired at a time. *)
Context (fired : Z → Z → bool).

Definition timeout_error : result RecordBatch := Err (External "Query timeout after {} ms").

Definition poll_started (deadline timeout now : Z) (inner : I) : item * (TimeoutState * I) :=
  if fired deadline now then (Ready (Some timeout_error), (Completed, inner))
  else let '(r, inner') := poll_inner inner in (r, (Started deadline timeout, inner')).

(** [TimeoutStream::poll_next] at time [now] *)
Definition timeout_poll (now : Z) (s : TimeoutState * I) : item * (TimeoutState * I) :=
  match s with
  | (NotStarted timeout, inner) =>
      if (timeout =? 0)%Z then (Ready (Some timeout_error), s)
      else poll_started (now + timeout) timeout now inner
  | (Started deadline timeout, inner) => poll_started deadline timeout now inner
  | (Completed, inner) => (Ready None, s)
  end.

(** The results of polling at the given times. *)
Fixpoint timeout_polls (times : list Z) (s : TimeoutState * I) : list item :=
  match times with
  | [] => []
  | now :: times' => let '(r, s') := timeout_poll now s in r :: timeout_polls times' s'
  end.

Fixpoint inner_polls (n : nat) (inner : I) : list item :=
  match n with
  | O => []
  | Datatypes.S n' => let '(r, inner') := poll_inner inner in r :: inner_polls n' inner'
  end.

Lemma completed_polls times inner : timeout_polls times (Completed, inner) = replicate (length times) (Ready None).
Proof. induction times as [|t times IH]; [done|]. simpl. by rewrite IH. Qed.

Lemma started_polls deadline timeout post pre : ∀ inner,
  Forall (λ t, fired deadline t = false) pre →
  (∀ t, head post = Some t → fired deadline t = true) →
  timeout_polls (pre ++ post) (Started deadline timeout, inner) =
  inner_polls (length pre) inner ++
    match post with [] => [] | _ :: post' => Ready (Some timeout_error) :: replicate (length post') (Ready None) end.
Proof.
  induction pre as [|t pre IH]; intros inner Hpre Hpost.
  - destruct post as [|t post]; [done|]. simpl. unfold poll_started. rewrite (Hpost t) by done.
    by rewrite completed_polls.
  - apply Forall_cons in Hpre as [Ht Hpre]. simpl. unfold poll_started. rewrite Ht.
    destruct (poll_inner inner) as [r inner']. simpl. by rewrite (IH inner').
Qed.

(** ** MaxBatchLengthStream *)
Record MaxBatchLengthStream : Type := mkStream {
  inner : I;
  max_batch_length : option nat;
  buffered_batch : option RecordBatch;
  buffered_offset : nat
}.

Definition new (i : I) (n : nat) : MaxBatchLengthStream :=
  mkStream i (if 0 <? n then Some n else None) None 0.

(** [MaxBatchLengthStream::poll_next]: one round of its loop yields a result or
    another round; [None] only means that the fuel ran out. *)
Fixpoint max_poll (fuel : nat) (s : MaxBatchLengthStream) : option (item * MaxBatchLengthStream) :=
  match fuel with
  | O => None
  | Datatypes.S fuel' =>
      match max_batch_length s with
      | None =>
          let '(r, inner') := poll_inner (inner s) in
          Some (r, mkStream inner' None (buffered_batch s) (buffered_offset s))
      | Some m =>
          let next (s : MaxBatchLengthStream) :=
            let '(r, inner') := poll_inner (inner s) in
            let s' := mkStream inner' (Some m) (buffered_batch s) (buffered_offset s) in
            match r with
            | Ready (Some (Ok batch)) =>
                if rb_num_rows batch <=? m then Some (r, s')
                else max_poll fuel' (mkStream inner' (Some m) (Some batch) 0)
            | _ => Some (r, s')
            end in
          match buffered_batch s with
          | Some batch =>
              if buffered_offset s <? rb_num_rows batch then
                let length := Nat.min (rb_num_rows batch - buffered_offset s) m in
                let sliced := rb_slice batch (buffered_offset s) length in
                let offset := buffered_offset s + length in
                Some (Ready (Some (Ok sliced)),
                      if rb_num_rows batch <=? offset then mkStream (inner s) (Some m) None 0
                      else mkStream (inner s) (Some m) (Some batch) offset)
              else next (mkStream (inner s) (Some m) None 0)
          | None => next s
          end
      end
  end.

(** Polling [n] times, two rounds each. *)
Fixpoint max_polls (n : nat) (s : MaxBatchLengthStream) : option (list item) :=
  match n with
  | O => Some []
  | Datatypes.S n' =>
      match max_poll 2 s with
      | Some (r, s') => (r ::.) <$> max_polls n' s'
      | None => None
      end
  end.
End streams.

(** A stream given by what its polls yield. *)
#[export] Instance scripted : Inner (list item) := {|
  poll_inner s := match s with [] => (Ready None, []) | r :: s' => (r, s') end
|}.

(** ** Chunks *)
Section chunks.
Context {K : ArrowKernels} {LK : ArrowLaws K}.

(** [bs] are the pieces of [b], in order and none longer than [m]. *)
Definition pieces (m : nat) (b : RecordBatch) (bs : list RecordBatch) : Prop :=
  batches_ok (rb_fields b) bs ∧ concat_rb (rb_fields b) bs = b ∧ Forall (λ c, 0 < rb_num_rows c ≤ m) bs.

(** What a poll of the inner stream becomes. *)
Definition cut (m : nat) (r : item) (outs : list item) : Prop :=
  match r with
  | Ready (Some (Ok b)) =>
      if rb_num_rows b <=? m then outs = [r]
      else ∃ bs, outs = (λ c, Ready (Some (Ok c))) <$> bs ∧ pieces m b bs
  | _ => outs = [r]
  end.

(** Emptying the buffer. *)
Lemma buffered_polls m b script rest : ∀ off,
  rb_wf b → 0 < m → off < rb_num_rows b → rb_num_rows b - off ≤ rest →
  ∃ k bs, 0 < k ∧
    Hybrid.batch_chunks rest b m off = Ok bs ∧ k = length bs ∧
    Forall (λ c, 0 < rb_num_rows c) bs ∧
    ∀ n, max_polls (k + n) (mkStream script (Some m) (Some b) off) =
         (((λ c, Ready (Some (Ok c))) <$> bs) ++.) <$> max_polls n (mkStream script (Some m) None 0).
Proof using LK.
  induction rest as [|rest IH]; intros off Hb Hm Hoff Hr; [lia|]. cbn [Hybrid.batch_chunks].
  destruct (Nat.ltb_spec off (rb_num_rows b)); [|lia].
  set (len := Nat.min (rb_num_rows b - off) m).
  assert (rb_num_rows (rb_slice b off len) = len) as Hlen by (rewrite rb_slice_ok by (done || lia); done).
  destruct (decide (rb_num_rows b ≤ off + len)) as [Hend|Hend].
  - destruct rest as [|rest']; cbn [Hybrid.batch_chunks];
      (destruct (Nat.ltb_spec (off + len) (rb_num_rows b)); [lia|]); run_ok.
    all: exists 1, [rb_slice b off len]; split_and!; [lia|done|done|apply Forall_singleton; lia|].
    all: intros n; cbn [Nat.add max_polls max_poll max_batch_length buffered_batch buffered_offset inner];
      rewrite (proj2 (Nat.ltb_lt _ _)) by lia; fold len; rewrite (proj2 (Nat.leb_le _ _)) by lia; done.
  - destruct (IH (off + len)) as (k & bs & Hk & -> & Hl & Hne & Hpolls); [done|done|lia|lia|].
    run_ok. exists (S k), (rb_slice b off len :: bs).
    split_and!; [lia|done|simpl; congruence|constructor; [lia|done]|].
    intros n. cbn [Nat.add max_polls max_poll max_batch_length buffered_batch buffered_offset inner].
    rewrite (proj2 (Nat.ltb_lt _ _)) by lia. fold len. rewrite (proj2 (Nat.leb_gt _ _)) by lia.
    rewrite Hpolls. by destruct (max_polls n _).
Qed.

Definition item_wf (r : item) : Prop :=
  match r with Ready (Some (Ok b)) => rb_wf b | _ => True end.

(** A batch that is too long is buffered and its first piece returned. *)
Lemma long_batch_polls m b script n :
  0 < m → m < rb_num_rows b →
  max_polls (S n) (mkStream (Ready (Some (Ok b)) :: script) (Some m) None 0) =
  max_polls (S n) (mkStream script (Some m) (Some b) 0).
Proof using.
  intros Hm Hb. cbn [max_polls max_poll max_batch_length buffered_batch buffered_offset inner poll_inner scripted].
  rewrite (proj2 (Nat.leb_gt _ _)), (proj2 (Nat.ltb_lt _ _)) by lia. done.
Qed.

Lemma script_polls m script :
  0 < m → Forall item_wf script →
  ∃ outs, Forall2 (cut m) script outs ∧
    ∀ k, max_polls (length (mjoin (M := list) outs) + k) (mkStream script (Some m) None 0) =
         Some (mjoin (M := list) outs ++ replicate k (Ready None)).
Proof using LK.
  intros Hm. induction 1 as [|r script Hr _ (outs & Houts & IH)].
  - exists []. split; [constructor|]. intros k. cbn [mjoin list_join length Nat.add app].
    induction k as [|k IHk]; [done|].
    cbn [max_polls max_poll max_batch_length buffered_batch buffered_offset inner poll_inner scripted].
    by rewrite IHk.
  - assert (∀ r0, cut m r0 [r0] → (∀ n, max_polls (S n) (mkStream (r0 :: script) (Some m) None 0) =
              (r0 ::.) <$> max_polls n (mkStream script (Some m) None 0)) →
            ∃ outs, Forall2 (cut m) (r0 :: script) outs ∧
              ∀ k, max_polls (length (mjoin (M := list) outs) + k) (mkStream (r0 :: script) (Some m) None 0) =
                   Some (mjoin (M := list) outs ++ replicate k (Ready None))) as Hone.
    { intros r0 Hc Hp. exists ([r0] :: outs). split; [by constructor|]. intros k. rewrite mjoin_cons.
      cbn [app length Nat.add]. by rewrite Hp, IH. }
    destruct r as [[[b|e|]|]|]; try by apply Hone.
    destruct (Nat.leb_spec (rb_num_rows b) m) as [Hle|Hgt].
    + apply Hone; [simpl; by rewrite (proj2 (Nat.leb_le _ _)) by lia|]. intros n.
      cbn [max_polls max_poll max_batch_length buffered_batch buffered_offset inner poll_inner scripted].
      by rewrite (proj2 (Nat.leb_le _ _)) by lia.
    + destruct (buffered_polls m b script (rb_num_rows b) 0) as (k0 & bs & Hk0 & Eb & Hl & Hne & Hp);
        [done|lia|lia|lia|].
      destruct (Hybrid.batch_chunks_ok b m (rb_num_rows b) 0) as (bs' & Eb' & Hbs & Hle & Hc); [done|lia..|].
      rewrite Eb in Eb'. injection Eb' as <-. rewrite Nat.sub_0_r, Hybrid.slice_rb_all in Hc by done.
      exists (((λ c, Ready (Some (Ok c))) <$> bs) :: outs). split.
      * constructor; [|done]. simpl. rewrite (proj2 (Nat.leb_gt _ _)) by lia. exists bs. split; [done|].
        split_and!; [done|done|]. by apply Forall_and.
      * intros k. rewrite mjoin_cons, length_app, length_fmap, <- Hl, <- Nat.add_assoc.
        destruct k0 as [|k0]; [lia|]. cbn [Nat.add]. rewrite long_batch_polls by lia.
        change (S (k0 + (length (mjoin (M := list) outs) + k))) with (S k0 + (length (mjoin (M := list) outs) + k)).
        rewrite Hp, IH. simpl. by rewrite <- app_assoc.
Qed.
End chunks.

(** ** Theorems *)

(** batch lengths.  Polled to the end, the stream wrapped with a maximum
    length yields exactly what the inner stream yields, with every batch that is
    too long replaced by its pieces: non-empty, in order, none longer than the
    maximum and together the batch.  Pending polls and errors pass through and
    two rounds of the loop are enough for every poll. *)
Theorem max_batch_stream {K : ArrowKernels} {LK : ArrowLaws K} m (script : list item) :
  0 < m → Forall item_wf script →
  ∃ outs, Forall2 (cut m) script outs ∧
    ∀ k, max_polls (length (mjoin (M := list) outs) + k) (new script m) =
         Some (mjoin (M := list) outs ++ replicate k (Ready None)).
Proof.
  intros Hm Hs. unfold new. rewrite (proj2 (Nat.ltb_lt _ _)) by done. by apply script_polls.
Qed.

Definition ids_rb (ids : list Z) : RecordBatch :=
  mkRB [mkField "id" UInt64 false ∅] [CU64 <$> ids] (length ids).

Definition demo_script : list item :=
  [Ready (Some (Ok (ids_rb [1; 2; 3; 4; 5]%Z))); Pending; Ready (Some (Err (Runtime "lost"))); Ready (Some (Ok (ids_rb [6]%Z)))].

Lemma max_batch_stream_witness :
  ∃ outs, Forall2 (cut 2) demo_script outs ∧
    ∀ k, max_polls (length (mjoin (M := list) outs) + k) (new demo_script 2) =
         Some (mjoin (M := list) outs ++ replicate k (Ready None)).
Proof. apply (@max_batch_stream ref_kernels ref_laws 2 demo_script); [lia|]. by repeat constructor. Defined.

Example max_batch_example :
  max_polls 7 (new demo_script 2) =
    Some [Ready (Some (Ok (ids_rb [1; 2]%Z))); Ready (Some (Ok (ids_rb [3; 4]%Z))); Ready (Some (Ok (ids_rb [5]%Z)));
          Pending; Ready (Some (Err (Runtime "lost"))); Ready (Some (Ok (ids_rb [6]%Z))); Ready None].
Proof. vm_compute. done. Qed.

(** timeouts.  A stream with a positive timeout is transparent until a poll
    finds the timer, started at the first poll, fired; that poll yields the
    timeout error and all later ones the end of the stream.  With a timeout of
    zero every poll yields the error and the stream never ends. *)
Theorem timeout_stream {I : Type} {S : Inner I} fired timeout (i : I) t0 pre post :
  Forall (λ t, fired (t0 + timeout)%Z t = false) pre →
  (∀ t, head post = Some t → fired (t0 + timeout)%Z t = true) →
  head (pre ++ post) = Some t0 →
  timeout_polls fired (pre ++ post) (NotStarted timeout, i) =
    if (timeout =? 0)%Z then replicate (length (pre ++ post)) (Ready (Some timeout_error))
    else inner_polls (length pre) i ++
           match post with
           | [] => []
           | _ :: post' => Ready (Some timeout_error) :: replicate (length post') (Ready None)
           end.
Proof.
  intros Hpre Hpost Hhead. destruct (timeout =? 0)%Z eqn:E.
  - clear Hpre Hpost Hhead. induction (pre ++ post) as [|t times IH]; [done|]. simpl. rewrite E. simpl.
    by rewrite IH.
  - rewrite <- (started_polls fired (t0 + timeout) timeout post pre i) by done.
    destruct (pre ++ post) as [|t times]; [done|]. injection Hhead as ->. simpl. by rewrite E.
Qed.

Lemma timeout_stream_witness :
  timeout_polls Z.leb ([100; 105] ++ [110; 120])%Z (NotStarted 10, demo_script) =
    if (10 =? 0)%Z then replicate 4 (Ready (Some timeout_error))
    else inner_polls 2 demo_script ++ [Ready (Some timeout_error); Ready None].
Proof.
  apply (timeout_stream Z.leb 10 demo_script 100 [100; 105]%Z [110; 120]%Z).
  - by repeat constructor.
  - by intros t [= <-].
  - done.
Defined.
End Streams.
