(* ===== verification/Checkpoint.v ===== *)
(** * Checkpoints of the write path (rust/lancedb/src/table/checkpoint.rs and
      table/memwal_stats.rs)

    The statistics of the table shards, one request with its retries
    ([issue]), the poll loop ([drain_to_targets]) and the rounds of
    [checkpoint_memwal].  The node that owns the table is a parameter: the
    class [MemWal] gives what it answers to each request and how it changes
    while the client sleeps.  The poll loop has no bound in the code, so it
    takes fuel; the liveness theorem shows that against a node whose
    compaction makes progress some fuel is enough. *)

From S2P Require Import Prelude.

Module Checkpoint.

(** ** memwal_stats.rs *)

Record SsTableStats : Type := mkSsTable {
  generation : Z;
  sstable_bytes : Z;
  sstable_rows : option Z
}.

Record MemtableStats : Type := mkMemtable {
  memtable_generation : Z;
  memtable_rows : Z;
  memtable_bytes : Z;
  memtable_batches : Z;
  memtable_indexes : list string
}.

Record TableShardStats : Type := mkShard {
  shard_id : string;
  shard_status : string;
  writer_epoch : Z;
  manifest_version : Z;
  current_generation : Z;
  replay_after_wal_entry_position : Z;
  wal_entry_position_last_seen : Z;
  sstables : list SsTableStats;
  compacting : bool;
  memtables : option (list MemtableStats)
}.

Record MemWalStats : Type := mkStats { table_shards : list TableShardStats }.

(** [Iterator::max] *)
Fixpoint iter_max (l : list Z) : option Z :=
  match l with
  | [] => None
  | x :: l' => Some (match iter_max l' with None => x | Some m => Z.max x m end)
  end.

Definition newest_sstable_generation (b : TableShardStats) : option Z :=
  iter_max (generation <$> sstables b).

(** A count of elements held in memory, so not near the top of [usize]. *)
Definition outstanding_sstables (b : TableShardStats) (target : Z) : nat :=
  length (filter (λ g, generation g ≤ target)%Z (sstables b)).

(** ** The errors the loop acts on *)

(** The build with the [remote] feature; without it no error has a status. *)
Definition status_of (e : Error) : option Z :=
  match e with
  | Http _ (Some status) => Some status
  | _ => None
  end.

Definition is_retryable (e : Error) : bool :=
  match status_of e with
  | Some s => (s =? 429)%Z || (s =? 503)%Z
  | None => false
  end.

Definition is_lost_claim (e : Error) : bool :=
  bool_decide (status_of e = Some 421%Z).

(** ** Constants; a [Duration] is its nanoseconds. *)
Definition DURATION_MAX : Z := (U64 - 1) * 1000000000 + 999999999.
Definition from_millis (n : Z) : Z := n * 1000000.
Definition saturating_mul (d k : Z) : Z := Z.min (d * k) DURATION_MAX.

Definition POLL_INTERVAL : Z := from_millis 5000.
Definition MAX_REISSUES : nat := 3.
Definition MAX_RETRIES : nat := 8.
Definition RETRY_BACKOFF_BASE : Z := from_millis 100.
Definition RETRY_BACKOFF_MAX : Z := from_millis 5000.

(** The delay that [backoff(attempt)] sleeps. *)
Definition backoff_delay (attempt : nat) : Z :=
  Z.min (saturating_mul RETRY_BACKOFF_BASE (Z.shiftl 1 (Z.of_nat (attempt `min` 8))))
    RETRY_BACKOFF_MAX.

Inductive CheckpointOutcome : Type := Done | RestartFromFlush.

Inductive Attempt (T : Type) : Type :=
  | AttemptOk (value : T)
  | ReissueFromFlush.
Arguments AttemptOk {T} value.
Arguments ReissueFromFlush {T}.

(** ** The node: what [Table]'s requests answer, and the passing of time. *)
Class MemWal (W : Type) : Type := {
  flush_memwal : W → result unit * W;
  get_memwal_stats : bool → W → result (option MemWalStats) * W;
  compact_memwal : W → result unit * W;
  sleep : Z → W → W
}.

Section checkpoint.
Context `{MemWal W}.

(** The loop of [issue]: [budget] is [MAX_RETRIES - retries]. *)
Fixpoint issue_from {T} (call : W → result T * W) (budget retries : nat) (w : W)
    : result (Attempt T) * W :=
  match call w with
  | (Ok value, w) => (Ok (AttemptOk value), w)
  | (Panic, w) => (Panic, w)
  | (Err e, w) =>
      if is_lost_claim e then (Ok ReissueFromFlush, w)
      else if negb (is_retryable e) then (Err e, w)
      else match budget with
           | 0 => (Err e, w)
           | S budget => issue_from call budget (S retries) (sleep (backoff_delay retries) w)
           end
  end.

Definition issue {T} (call : W → result T * W) : W → result (Attempt T) * W :=
  issue_from call MAX_RETRIES 0.

(** The fold over the shards in [drain_to_targets]: how many SSTables are
    outstanding, and whether every shard that has some is compacting. *)
Definition survey_step (targets : gmap string Z) (acc : nat * bool) (b : TableShardStats)
    : nat * bool :=
  match targets !! shard_id b with
  | None => acc
  | Some target =>
      let n := outstanding_sstables b target in
      if 0 <? n then (acc.1 + n, acc.2 && compacting b) else acc
  end.

Definition survey (targets : gmap string Z) (shards : list TableShardStats) : nat * bool :=
  foldl (survey_step targets) (0, true) shards.

Fixpoint drain_to_targets (fuel : nat) (targets : gmap string Z) (w : W)
    : option (result CheckpointOutcome * W) :=
  match fuel with
  | 0 => None
  | S fuel =>
      let poll w := drain_to_targets fuel targets (sleep POLL_INTERVAL w) in
      match issue (get_memwal_stats false) w with
      | (Err e, w) => Some (Err e, w)
      | (Panic, w) => Some (Panic, w)
      | (Ok ReissueFromFlush, w) => Some (Ok RestartFromFlush, w)
      | (Ok (AttemptOk None), w) => Some (Ok Done, w)
      | (Ok (AttemptOk (Some stats)), w) =>
          let s := survey targets (table_shards stats) in
          if s.1 =? 0 then Some (Ok Done, w)
          else if s.2 then poll w
          else match compact_memwal w with
               | (Ok _, w) => poll w
               | (Panic, w) => Some (Panic, w)
               | (Err e, w) =>
                   if is_lost_claim e then Some (Ok RestartFromFlush, w)
                   else if negb (is_retryable e) then Some (Err e, w)
                   else poll w
               end
      end
  end.

(** [stats.table_shards.iter().filter_map(..).collect::<HashMap<_, _>>()]: a
    later entry of the same shard replaces an earlier one. *)
Definition targets_of (stats : MemWalStats) : gmap string Z :=
  foldl (λ m b, match newest_sstable_generation b with
                | Some g => <[shard_id b := g]> m
                | None => m
                end) ∅ (table_shards stats).

Definition lost_claim_error : Error := Runtime
  "checkpoint_memwal: the owning node kept losing its claim; re-issued from flush the maximum number of times".

(** [for reissue in rounds { .. }], then the error after the loop. *)
Fixpoint checkpoint_rounds (fuel : nat) (rounds : list nat) (w : W) : option (result unit * W) :=
  match rounds with
  | [] => Some (Err lost_claim_error, w)
  | reissue :: rounds =>
      let again w := checkpoint_rounds fuel rounds (sleep (backoff_delay reissue) w) in
      match issue flush_memwal w with
      | (Err e, w) => Some (Err e, w)
      | (Panic, w) => Some (Panic, w)
      | (Ok ReissueFromFlush, w) => again w
      | (Ok (AttemptOk _), w) =>
          match issue (get_memwal_stats false) w with
          | (Err e, w) => Some (Err e, w)
          | (Panic, w) => Some (Panic, w)
          | (Ok ReissueFromFlush, w) => again w
          | (Ok (AttemptOk None), w) => Some (Ok tt, w)
          | (Ok (AttemptOk (Some stats)), w) =>
              let targets := targets_of stats in
              if decide (targets = ∅) then Some (Ok tt, w)
              else match drain_to_targets fuel targets w with
                   | None => None
                   | Some (Err e, w) => Some (Err e, w)
                   | Some (Panic, w) => Some (Panic, w)
                   | Some (Ok Done, w) => Some (Ok tt, w)
                   | Some (Ok RestartFromFlush, w) => again w
                   end
          end
      end
  end.

(** [0..=MAX_REISSUES] *)
Definition checkpoint_memwal (fuel : nat) (w : W) : option (result unit * W) :=
  checkpoint_rounds fuel (seq 0 (S MAX_REISSUES)) w.
End checkpoint.

(** ** What the answers mean *)

(** [drained targets answer]: the answer reports no SSTable at or below the
    target of its shard. *)
Definition drained (targets : gmap string Z) (answer : option MemWalStats) : Prop :=
  ∀ stats b target g, answer = Some stats → b ∈ table_shards stats →
    targets !! shard_id b = Some target → g ∈ sstables b → (target < generation g)%Z.

Lemma iter_max_spec l :
  match iter_max l with
  | None => l = []
  | Some m => m ∈ l ∧ ∀ x, x ∈ l → (x ≤ m)%Z
  end.
Proof.
  induction l as [|x l IH]; simpl; [done|].
  destruct (iter_max l) as [m|]; simpl in *.
  - destruct IH as [Hin Hle]. split.
    + destruct (Z.max_spec x m) as [[_ ->]|[_ ->]]; set_solver.
    + intros y [->|Hy]%elem_of_cons; [lia|]. specialize (Hle y Hy); lia.
  - subst. split; [set_solver|]. intros y ->%list_elem_of_singleton; lia.
Qed.

Lemma newest_is_newest b g :
  newest_sstable_generation b = Some g → ∀ x, x ∈ sstables b → (generation x ≤ g)%Z.
Proof.
  unfold newest_sstable_generation. intros Hg x Hx.
  pose proof (iter_max_spec (generation <$> sstables b)) as Hm. rewrite Hg in Hm.
  apply Hm. by apply list_elem_of_fmap_2.
Qed.

Lemma newest_none b : newest_sstable_generation b = None → sstables b = [].
Proof.
  unfold newest_sstable_generation. intros Hn.
  pose proof (iter_max_spec (generation <$> sstables b)) as Hm. rewrite Hn in Hm.
  by apply fmap_nil_inv in Hm.
Qed.

Lemma outstanding_zero b target :
  outstanding_sstables b target = 0 ↔ ∀ g, g ∈ sstables b → (target < generation g)%Z.
Proof.
  unfold outstanding_sstables. rewrite length_zero_iff_nil. split.
  - intros Hn g Hg. apply Z.nle_gt. intros Hle.
    assert (g ∈ filter (λ g, generation g ≤ target)%Z (sstables b)) as Hin
      by by apply list_elem_of_filter.
    rewrite Hn in Hin. by apply elem_of_nil in Hin.
  - intros Hgt. apply elem_of_nil_inv. intros g [Hle Hg]%list_elem_of_filter.
    specialize (Hgt g Hg). lia.
Qed.

Lemma survey_zero targets l acc :
  (foldl (survey_step targets) acc l).1 = 0 ↔
  acc.1 = 0 ∧
  ∀ b target, b ∈ l → targets !! shard_id b = Some target → outstanding_sstables b target = 0.
Proof.
  revert acc; induction l as [|b l IH]; intros acc; simpl.
  { split; [|tauto]. intros ->; split; [done|]. intros b t ?%elem_of_nil; done. }
  rewrite IH. setoid_rewrite elem_of_cons. unfold survey_step.
  destruct (targets !! shard_id b) as [t|] eqn:Ht.
  - destruct (Nat.ltb_spec 0 (outstanding_sstables b t)); simpl.
    + split; [lia|]. intros [_ Hb]. specialize (Hb b t (or_introl eq_refl) Ht). lia.
    + split; [|naive_solver]. intros [? Hl]; split; [done|].
      intros b' t' [->|?] Ht'; [|by eapply Hl]. replace t' with t by congruence. lia.
  - split; [|naive_solver]. intros [? Hl]; split; [done|].
    intros b' t' [->|?] Ht'; [congruence|by eapply Hl].
Qed.

Lemma drained_survey targets stats :
  drained targets (Some stats) ↔ (survey targets (table_shards stats)).1 = 0.
Proof.
  unfold survey, drained. rewrite survey_zero. setoid_rewrite outstanding_zero. split.
  - intros Hd; split; [done|]. intros b t Hb Ht g Hg. by eapply Hd.
  - intros [_ Hd] ? b t g [= <-] Hb Ht Hg. by eapply Hd.
Qed.

(** The watermark of a shard that is reported once. *)
Lemma targets_notin l id (m : gmap string Z) :
  id ∉ shard_id <$> l →
  foldl (λ m b, match newest_sstable_generation b with
                | Some g => <[shard_id b := g]> m | None => m end) m l !! id = m !! id.
Proof.
  revert m; induction l as [|b l IH]; intros m; [done|].
  rewrite fmap_cons. intros Hid. simpl. rewrite IH by set_solver.
  destruct (newest_sstable_generation b); [|done]. rewrite lookup_insert_ne; set_solver.
Qed.

Lemma targets_lookup stats b :
  NoDup (shard_id <$> table_shards stats) → b ∈ table_shards stats →
  targets_of stats !! shard_id b = newest_sstable_generation b.
Proof.
  unfold targets_of. destruct stats as [l]; simpl.
  assert (∀ m : gmap string Z, m !! shard_id b = None → NoDup (shard_id <$> l) → b ∈ l →
    foldl (λ m b, match newest_sstable_generation b with
                  | Some g => <[shard_id b := g]> m | None => m end) m l !! shard_id b
    = newest_sstable_generation b) as Hgen; [|by apply Hgen].
  induction l as [|b' l IH]; intros m Hm Hnd Hb; [by apply elem_of_nil in Hb|].
  rewrite fmap_cons, NoDup_cons in Hnd. destruct Hnd as [Hid Hnd].
  apply elem_of_cons in Hb as [<-|Hb]; simpl.
  - rewrite targets_notin by done. destruct (newest_sstable_generation b); [|done].
    by rewrite lookup_insert_eq.
  - apply IH; [|done..]. destruct (newest_sstable_generation b'); [|done].
    rewrite lookup_insert_ne; [done|]. intros Heq. apply Hid. rewrite Heq.
    by apply list_elem_of_fmap_2.
Qed.

(** ** The steps of the client *)
Section steps.
Context `{MemWal W}.

Inductive client_step : W → W → Prop :=
  | step_flush w : client_step w (flush_memwal w).2
  | step_stats b w : client_step w (get_memwal_stats b w).2
  | step_compact w : client_step w (compact_memwal w).2
  | step_sleep d w : client_step w (sleep d w).
#[local] Hint Constructors client_step : core.

(** A successful request was answered at some moment after the start. *)
Lemma issue_answered {T} (call : W → result T * W) budget retries w v w' :
  (∀ w, client_step w (call w).2) →
  issue_from call budget retries w = (Ok (AttemptOk v), w') →
  ∃ w0, rtc client_step w w0 ∧ call w0 = (Ok v, w').
Proof.
  intros Hstep; revert retries w; induction budget as [|budget IH]; intros retries w; simpl;
    (pose proof (Hstep w) as Hw; destruct (call w) as [[a|e|] w1] eqn:Hc; simpl in Hw; [|..|done]).
  1, 3: intros [= <- <-]; by exists w.
  - destruct (is_lost_claim e), (negb (is_retryable e)); done.
  - destruct (is_lost_claim e), (negb (is_retryable e)); [done..|].
    intros (w0 & ? & ?)%IH. exists w0; split; [|done].
    by eapply rtc_l, rtc_l; [exact Hw|apply step_sleep|].
Qed.

Lemma issue_steps {T} (call : W → result T * W) budget retries w :
  (∀ w, client_step w (call w).2) →
  rtc client_step w (issue_from call budget retries w).2.
Proof.
  intros Hstep; revert retries w; induction budget as [|budget IH]; intros retries w; simpl;
    (pose proof (Hstep w) as Hw; destruct (call w) as [[a|e|] w1] eqn:Hc; simpl in Hw);
    repeat case_match; simpl; eauto using rtc_once.
  by eapply rtc_l, rtc_l; [exact Hw|apply step_sleep|].
Qed.

Lemma drain_done fuel targets w w' :
  drain_to_targets fuel targets w = Some (Ok Done, w') →
  ∃ w0 st, rtc client_step w w0 ∧ get_memwal_stats false w0 = (Ok st, w') ∧ drained targets st.
Proof.
  revert w; induction fuel as [|fuel IH]; intros w; [done|]. cbn -[issue].
  destruct (issue (get_memwal_stats false) w) as [[[st|]|e|] w1] eqn:Hi; try done.
  apply issue_answered in Hi as (w0 & Hw0 & Hc); [|done].
  assert (rtc client_step w w1) as Hw1.
  { eapply rtc_r; [exact Hw0|]. pose proof (step_stats false w0) as Hs. by rewrite Hc in Hs. }
  destruct st as [stats|].
  2: { intros [= <-]. exists w0, None. split_and!; [done..|]. by intros ??????. }
  destruct (Nat.eqb_spec (survey targets (table_shards stats)).1 0) as [Hz|_].
  { intros [= <-]. exists w0, (Some stats). by rewrite drained_survey. }
  assert (∀ w2, rtc client_step w w2 →
    drain_to_targets fuel targets (sleep POLL_INTERVAL w2) = Some (Ok Done, w') →
    ∃ w0 st, rtc client_step w w0 ∧ get_memwal_stats false w0 = (Ok st, w') ∧
      drained targets st) as Hpoll.
  { intros w2 Hw2 (w3 & st & Hw3 & ? & ?)%IH. exists w3, st. split_and!; [|done..].
    etrans; [exact Hw2|]. eapply rtc_l; [apply step_sleep|exact Hw3]. }
  destruct (survey targets (table_shards stats)).2; [by apply Hpoll|].
  pose proof (step_compact w1) as Hs. destruct (compact_memwal w1) as [[[]|e'|] w2]; simpl in Hs;
    [| |done]; repeat case_match; try done; apply Hpoll; by eapply rtc_r.
Qed.

(** [fresh_drained fresh last]: no shard of the answer [last] still has an
    SSTable that is no newer than one [fresh] reported for it. *)
Definition fresh_drained (fresh last : option MemWalStats) : Prop :=
  ∀ f l b0 b g0 g, fresh = Some f → last = Some l →
    NoDup (shard_id <$> table_shards f) →
    b0 ∈ table_shards f → g0 ∈ sstables b0 →
    b ∈ table_shards l → shard_id b = shard_id b0 → g ∈ sstables b →
    (generation g0 < generation g)%Z.

Lemma drained_fresh f last : drained (targets_of f) last → fresh_drained (Some f) last.
Proof.
  intros Hd f' l b0 b g0 g [= <-] -> Hnd Hb0 Hg0 Hb Hid Hg.
  pose proof (targets_lookup f b0 Hnd Hb0) as Ht.
  destruct (newest_sstable_generation b0) as [t|] eqn:Hn.
  - pose proof (newest_is_newest b0 t Hn g0 Hg0). rewrite <- Hid in Ht.
    specialize (Hd l b t g eq_refl Hb Ht Hg). lia.
  - apply newest_none in Hn. rewrite Hn in Hg0. by apply elem_of_nil in Hg0.
Qed.

(** What a checkpoint that returned has seen: a flush that succeeded, the
    answer [fresh] after it, and the [last] answer it acted on. *)
Definition converged (w w' : W) : Prop :=
  ∃ w1 w2 w3 w4 w5 fresh last,
    rtc client_step w w1 ∧ flush_memwal w1 = (Ok tt, w2) ∧
    rtc client_step w2 w3 ∧ get_memwal_stats false w3 = (Ok fresh, w4) ∧
    (fresh = last ∧ w4 = w' ∨
     rtc client_step w4 w5 ∧ get_memwal_stats false w5 = (Ok last, w')) ∧
    fresh_drained fresh last.

Lemma converged_later w w1 w2 w' :
  rtc client_step w w1 → client_step w1 w2 → converged w2 w' → converged w w'.
Proof.
  intros Hw Hs (w3 & w4 & w5 & w6 & w7 & f & l & Hw3 & Hrest).
  exists w3, w4, w5, w6, w7, f, l. split; [|done]. etrans; [exact Hw|]. by eapply rtc_l.
Qed.

(** The world after a drain, whatever it returns. *)
Lemma drain_steps fuel targets w r w' :
  drain_to_targets fuel targets w = Some (r, w') → rtc client_step w w'.
Proof.
  revert w; induction fuel as [|fuel IH]; intros w; [done|]. cbn -[issue].
  pose proof (issue_steps (get_memwal_stats false) MAX_RETRIES 0 w (step_stats false)) as Hs.
  change (issue_from (get_memwal_stats false) MAX_RETRIES 0 w)
    with (issue (get_memwal_stats false) w) in Hs.
  destruct (issue (get_memwal_stats false) w) as [[[[stats|]|]|e|] w1]; simpl in Hs;
    try (by intros [= <- <-]).
  destruct (survey targets (table_shards stats)).1 as [|n]; [by intros [= <- <-]|].
  assert (∀ w2, rtc client_step w w2 →
    drain_to_targets fuel targets (sleep POLL_INTERVAL w2) = Some (r, w') →
    rtc client_step w w') as Hpoll.
  { intros w2 Hw2 Hd%IH. etrans; [exact Hw2|]. by eapply rtc_l; [apply step_sleep|]. }
  simpl. destruct (survey targets (table_shards stats)).2; [by apply Hpoll|].
  pose proof (step_compact w1) as Hc.
  destruct (compact_memwal w1) as [[[]|e'|] w2]; simpl in Hc;
    (assert (rtc client_step w w2) as Hw2 by by eapply rtc_r);
    repeat case_match; try (by intros [= <- <-]); by apply Hpoll.
Qed.

Lemma checkpoint_rounds_ok fuel rounds w w' :
  checkpoint_rounds fuel rounds w = Some (Ok tt, w') → converged w w'.
Proof.
  revert w; induction rounds as [|r rounds IH]; intros w; [done|]. cbn -[issue targets_of].
  pose proof (issue_steps flush_memwal MAX_RETRIES 0 w step_flush) as Hs1.
  change (issue_from flush_memwal MAX_RETRIES 0 w) with (issue flush_memwal w) in Hs1.
  destruct (issue flush_memwal w) as [[[[]|]|e|] w2] eqn:Hf; simpl in Hs1; try done.
  2: { intros ?%IH. by eapply converged_later; [|apply step_sleep|]. }
  apply issue_answered in Hf as (w1 & Hw1 & Hf); [|constructor].
  pose proof (issue_steps (get_memwal_stats false) MAX_RETRIES 0 w2 (step_stats false)) as Hs2.
  change (issue_from (get_memwal_stats false) MAX_RETRIES 0 w2)
    with (issue (get_memwal_stats false) w2) in Hs2.
  destruct (issue (get_memwal_stats false) w2) as [[[st|]|e|] w4] eqn:Hg; simpl in Hs2; try done.
  2: { intros ?%IH. eapply converged_later; [|apply step_sleep|done]. by etrans. }
  apply issue_answered in Hg as (w3 & Hw3 & Hg); [|constructor].
  destruct st as [f|].
  2: { intros [= <-]. exists w1, w2, w3, w4, w4, None, None. split_and!; eauto. by intros ??????. }
  destruct (decide (targets_of f = ∅)) as [He|_].
  { intros [= <-]. exists w1, w2, w3, w4, w4, (Some f), (Some f). split_and!; eauto.
    apply drained_fresh. rewrite He. by intros ???????%lookup_empty_Some. }
  destruct (drain_to_targets fuel (targets_of f) w4) as [[[[]|e|] w5]|] eqn:Hd; try done.
  - intros [= <-]. apply drain_done in Hd as (w6 & last & Hw6 & Hl & Hd).
    exists w1, w2, w3, w4, w6, (Some f), last. split_and!; eauto using drained_fresh.
  - intros ?%IH. eapply converged_later; [|apply step_sleep|done].
    apply drain_steps in Hd. do 2 (etrans; [done|]). done.
Qed.
End steps.

(** ** Convergence

    A node that owns its claim, refuses a request as contended a bounded number
    of times, and whose compaction makes progress: whenever SSTables at or below
    the watermark are outstanding and either every such shard is compacting or
    a pass has just been asked for, some work is done by the next poll.  New
    SSTables may arrive at any time, above the watermark. *)
Class CompactingNode (W : Type) `{MemWal W} : Type := {
  node_inv : W → Prop;
  shards : W → list TableShardStats;
  watermark : gmap string Z → W → Prop;
  patience : W → nat;
  work : gmap string Z → W → nat;

  patience_bound w : node_inv w → patience w ≤ MAX_RETRIES;
  flush_law w r w' : node_inv w → flush_memwal w = (r, w') →
    node_inv w' ∧
    match r with
    | Ok _ => True
    | Err e => is_retryable e = true ∧ patience w' < patience w
    | Panic => False
    end;
  stats_law w r w' : node_inv w → get_memwal_stats false w = (r, w') →
    node_inv w' ∧
    (∀ T, watermark T w → watermark T w' ∧ work T w' ≤ work T w) ∧
    match r with
    | Ok st => st = Some (mkStats (shards w')) ∧ watermark (targets_of (mkStats (shards w'))) w'
    | Err e => is_retryable e = true ∧ patience w' < patience w
    | Panic => False
    end;
  sleep_law w d : node_inv w →
    node_inv (sleep d w) ∧ patience (sleep d w) ≤ patience w ∧
    (∀ T, watermark T w → watermark T (sleep d w) ∧ work T (sleep d w) ≤ work T w);
  compacting_law w T : node_inv w → watermark T w →
    (survey T (shards w)).1 ≠ 0 → (survey T (shards w)).2 = true →
    work T (sleep POLL_INTERVAL w) < work T w;
  compact_law w r w' T : node_inv w → watermark T w → compact_memwal w = (r, w') →
    (survey T (shards w)).1 ≠ 0 →
    node_inv w' ∧ watermark T w' ∧ work T (sleep POLL_INTERVAL w') < work T w ∧
    match r with Ok _ => True | Err e => is_retryable e = true | Panic => False end
}.

Lemma retryable_not_lost e : is_retryable e = true → is_lost_claim e = false.
Proof.
  unfold is_retryable, is_lost_claim. destruct (status_of e) as [s|]; [|done].
  intros Hs%orb_true_iff. apply bool_decide_eq_false_2. intros [= ->]. by destruct Hs.
Qed.

Section converge.
Context `{CompactingNode W}.

Lemma issue_flush_live budget retries w :
  node_inv w → patience w ≤ budget →
  ∃ w', issue_from flush_memwal budget retries w = (Ok (AttemptOk tt), w') ∧ node_inv w'.
Proof.
  revert retries w; induction budget as [|budget IH]; intros retries w Hw Hp; simpl;
    destruct (flush_memwal w) as [r w1] eqn:Hf; destruct (flush_law w r w1 Hw Hf) as [Hw1 Hr];
    destruct r as [[]|e|]; try done; eauto; destruct Hr as [Hre Hlt]; [lia|].
  rewrite (retryable_not_lost e Hre), Hre. simpl.
  destruct (sleep_law w1 (backoff_delay retries) Hw1) as (? & ? & _). apply IH; [done|lia].
Qed.

Lemma issue_stats_live budget retries w :
  node_inv w → patience w ≤ budget →
  ∃ w', issue_from (get_memwal_stats false) budget retries w
        = (Ok (AttemptOk (Some (mkStats (shards w')))), w') ∧
    node_inv w' ∧ watermark (targets_of (mkStats (shards w'))) w' ∧
    ∀ T, watermark T w → watermark T w' ∧ work T w' ≤ work T w.
Proof.
  revert retries w; induction budget as [|budget IH]; intros retries w Hw Hp; simpl;
    destruct (get_memwal_stats false w) as [r w1] eqn:Hf;
    destruct (stats_law w r w1 Hw Hf) as (Hw1 & HT & Hr);
    destruct r as [st|e|]; try done;
    try (destruct Hr as [-> Hr]; exists w1; by split_and!);
    destruct Hr as [Hre Hlt]; [lia|].
  rewrite (retryable_not_lost e Hre), Hre. simpl.
  destruct (sleep_law w1 (backoff_delay retries) Hw1) as (Hw2 & ? & HT2).
  destruct (IH (S retries) _ Hw2) as (w' & Hi & Hw' & Hwm & HT'); [lia|].
  exists w'. split_and!; [done..|]. intros T Ht.
  destruct (HT T Ht) as [Ht1 ?], (HT2 T (proj1 (HT T Ht))) as [Ht2 ?], (HT' T) as [? ?]; [done|].
  split; [done|lia].
Qed.

Lemma drain_live fuel T w :
  node_inv w → watermark T w → work T w < fuel →
  ∃ w', drain_to_targets fuel T w = Some (Ok Done, w').
Proof.
  revert w; induction fuel as [|fuel IH]; intros w Hw Ht Hlt; [lia|]. cbn -[issue].
  destruct (issue_stats_live MAX_RETRIES 0 w Hw (patience_bound w Hw))
    as (w1 & Hi & Hw1 & _ & HT).
  destruct (HT T Ht) as [Ht1 Hle].
  change (issue_from (get_memwal_stats false) MAX_RETRIES 0 w)
    with (issue (get_memwal_stats false) w) in Hi. rewrite Hi. simpl.
  destruct (Nat.eqb_spec (survey T (shards w1)).1 0) as [_|Hn]; [eauto|].
  destruct (survey T (shards w1)).2 eqn:Hc.
  - destruct (sleep_law w1 POLL_INTERVAL Hw1) as (? & _ & HT2).
    apply IH; [done|by apply HT2|]. pose proof (compacting_law w1 T Hw1 Ht1 Hn Hc). lia.
  - destruct (compact_memwal w1) as [r w2] eqn:Hcm.
    destruct (compact_law w1 r w2 T Hw1 Ht1 Hcm Hn) as (Hw2 & Ht2 & Hwk & Hr).
    destruct (sleep_law w2 POLL_INTERVAL Hw2) as (? & _ & HT2).
    assert (∃ w', drain_to_targets fuel T (sleep POLL_INTERVAL w2) = Some (Ok Done, w')) as Hd.
    { apply IH; [done|by apply HT2|lia]. }
    destruct r as [[]|e|]; [done| |done]. by rewrite (retryable_not_lost e Hr), Hr.
Qed.
End converge.

(** ** A node that takes writes while it compacts

    One latch; a pass takes one poll interval, drains every SSTable there was
    and leaves the one that was written meanwhile; the node refuses a number of
    requests with 429 first. *)
Module Node.
Record t : Type := mkNode {
  tables : list (string * list Z);
  latched : bool;
  next : Z;
  refusals : nat
}.

Definition shard_of (n : t) (p : string * list Z) : TableShardStats :=
  mkShard p.1 "Active" 1 1 (next n) 0 0 ((λ g, mkSsTable g 1 None) <$> p.2) (latched n) None.
Definition shards_of (n : t) : list TableShardStats := shard_of n <$> tables n.

Definition refused : Error := Http "req" (Some 429%Z).

(** Every table shard writes an SSTable of the next generation. *)
Definition write (n : t) (drop : bool) : t :=
  mkNode ((λ p : string * list Z, (p.1, (if drop then [] else p.2) ++ [next n])) <$> tables n)
    false (next n + 1) (refusals n).

Definition refuse {A} (n : t) (a : A) (n' : t) : result A * t :=
  match refusals n with
  | 0 => (Ok a, n')
  | S k => (Err refused, mkNode (tables n) (latched n) (next n) k)
  end.

#[global] Instance memwal : MemWal t := {
  flush_memwal n := refuse n tt n;
  get_memwal_stats _ n := refuse n (Some (mkStats (shards_of n))) n;
  compact_memwal n := if latched n then (Err refused, n)
                      else (Ok tt, mkNode (tables n) true (next n) (refusals n));
  sleep d n := if (d =? POLL_INTERVAL)%Z && latched n then write n true else n
}.

Definition outstanding (T : gmap string Z) (n : t) : nat := (survey T (shards_of n)).1.

Definition node_ok (n : t) : Prop :=
  refusals n ≤ MAX_RETRIES ∧ Forall (λ p : string * list Z, Forall (λ g, g < next n)%Z p.2) (tables n).
Definition past (T : gmap string Z) (n : t) : Prop := map_Forall (λ _ g, g < next n)%Z T.

Lemma newest_of n p : newest_sstable_generation (shard_of n p) = iter_max p.2.
Proof.
  unfold newest_sstable_generation. simpl. f_equal.
  induction p.2 as [|g l IH]; [done|]. by rewrite !fmap_cons, IH.
Qed.

Lemma past_newest n : node_ok n → past (targets_of (mkStats (shards_of n))) n.
Proof.
  intros [_ Hall]. unfold targets_of, shards_of; simpl.
  assert (∀ m, past m n → past (foldl (λ m b, match newest_sstable_generation b with
    | Some g => <[shard_id b := g]> m | None => m end) m (shard_of n <$> tables n)) n) as Hgen;
    [|apply Hgen, map_Forall_empty].
  induction (tables n) as [|p l IH]; intros m Hm; [done|].
  rewrite fmap_cons. simpl. apply Forall_cons in Hall as [Hp Hl]. apply (IH Hl).
  rewrite newest_of. pose proof (iter_max_spec p.2) as Hx.
  destruct (iter_max p.2) as [g|]; [|done].
  apply map_Forall_insert_2; [|done]. rewrite Forall_forall in Hp. apply Hp, Hx.
Qed.

Lemma outstanding_write T n : past T n → outstanding T (write n true) = 0.
Proof.
  intros Hp. apply survey_zero. split; [done|]. intros b g Hb Hg.
  apply outstanding_zero. intros x Hx.
  unfold shards_of, write in Hb. simpl in Hb. rewrite <- list_fmap_compose in Hb.
  apply list_elem_of_fmap in Hb as (p & -> & _). simpl in *.
  apply list_elem_of_singleton in Hx as ->. simpl. by apply (Hp p.1).
Qed.

Lemma write_ok n : node_ok n → node_ok (write n true).
Proof.
  intros [? Hall]. split; [done|]. simpl. apply Forall_fmap, Forall_forall. intros p _. simpl.
  apply Forall_singleton. lia.
Qed.

Lemma past_write T n : past T n → past T (write n true).
Proof. intros Hp id g Hg. simpl. specialize (Hp id g Hg). simpl in Hp. lia. Qed.

Lemma sleep_cases d n :
  sleep d n = n ∨ sleep d n = write n true.
Proof. simpl. destruct (_ && _); auto. Qed.

Lemma refuse_inv {A} n (a : A) r n' :
  node_ok n → refuse n a n = (r, n') →
  node_ok n' ∧ tables n' = tables n ∧ latched n' = latched n ∧ next n' = next n ∧
  match r with
  | Ok v => v = a ∧ n' = n
  | Err e => is_retryable e = true ∧ refusals n' < refusals n
  | Panic => False
  end.
Proof.
  intros [Hr Hall]. unfold refuse. destruct (refusals n) as [|k] eqn:Hk; intros [= <- <-].
  - by rewrite <- Hk in Hr.
  - repeat split; try done; simpl; lia.
Qed.

(** Without the latch the survey finds every outstanding shard idle. *)
Lemma unlatched_survey T n :
  latched n = false → (survey T (shards_of n)).2 = true → (survey T (shards_of n)).1 = 0.
Proof.
  intros Hl. unfold survey, shards_of.
  assert (∀ acc, (foldl (survey_step T) acc (shard_of n <$> tables n)).2 = true →
    acc.2 = true ∧ (foldl (survey_step T) acc (shard_of n <$> tables n)).1 = acc.1) as Hgen.
  { induction (tables n) as [|p l IH]; intros acc; [done|]. rewrite fmap_cons; simpl.
    intros [H2 H1]%IH. rewrite H1. revert H2. unfold survey_step.
    destruct (T !! _); [|done]. destruct (0 <? _); [|done]. simpl. rewrite Hl.
    by destruct acc.2. }
  by intros [_ ->]%Hgen.
Qed.

#[global] Program Instance compacting_node : CompactingNode t := {
  node_inv := node_ok;
  shards := shards_of;
  watermark := past;
  patience := refusals;
  work := outstanding
}.
Next Obligation. by intros n []. Qed.
Next Obligation. intros n r n' Hn (? & _ & _ & _ & Hr)%refuse_inv; [|done]. by destruct r. Qed.
Next Obligation.
  intros n r n' Hn (Hn' & Ht & Hl & Hx & Hr)%refuse_inv; [|done].
  assert (shards_of n' = shards_of n) as Hs
    by (unfold shards_of, shard_of; by rewrite Ht, Hl, Hx).
  split; [done|]. split.
  - intros T HT. unfold past, outstanding in *. by rewrite Hx, Hs.
  - destruct r as [v|e|]; [|done..]. destruct Hr as [-> ->]. split; [done|]. by apply past_newest.
Qed.
Next Obligation.
  intros n d Hn. destruct (sleep_cases d n) as [->| ->]; [by split_and!|].
  split; [by apply write_ok|]. split; [done|]. intros T HT.
  split; [by apply past_write|]. rewrite outstanding_write by done. lia.
Qed.
Next Obligation.
  intros n T Hn HT Hout Hc. simpl.
  assert (latched n = true) as Hl.
  { apply not_false_iff_true. intros Hl. apply Hout. by apply unlatched_survey. }
  rewrite Hl. change (outstanding T (write n true) < outstanding T n).
  rewrite outstanding_write by done. change (outstanding T n ≠ 0) in Hout. lia.
Qed.
Next Obligation.
  intros n r n' T Hn HT Hc Hout. change (outstanding T n ≠ 0) in Hout. simpl in Hc.
  destruct (latched n) eqn:Hl; injection Hc as <- <-.
  - split_and!; try done. simpl. rewrite Hl.
    change (outstanding T (write n true) < outstanding T n). rewrite outstanding_write by done. lia.
  - split_and!; try done. simpl.
    change (outstanding T (write (mkNode (tables n) true (next n) (refusals n)) true) < outstanding T n).
    rewrite outstanding_write by done. lia.
Qed.

Definition example : t := mkNode [("b0", [7; 8]%Z); ("b1", [])] false 9 3.

Lemma example_ok : node_ok example.
Proof. split; [simpl; unfold MAX_RETRIES; lia|]. repeat constructor. Qed.
End Node.

(** ** Properties *)
Section properties.
Context `{MemWal W}.

(** The state of the node at attempt [k] of a request that is contended. *)
Fixpoint attempt_at {T} (call : W → result T * W) (k : nat) (w : W) : W :=
  match k with
  | 0 => w
  | S j => sleep (backoff_delay j) (call (attempt_at call j w)).2
  end.

Definition contended {T} (r : result T) : Prop :=
  match r with Err e => is_retryable e = true | _ => False end.

(** What [issue] makes of the answer it stops at. *)
Definition verdict {T} (r : result T) : result (Attempt T) :=
  match r with
  | Ok v => Ok (AttemptOk v)
  | Err e => if is_lost_claim e then Ok ReissueFromFlush else Err e
  | Panic => Panic
  end.

Lemma issue_from_spec {T} (call : W → result T * W) budget n w :
  ∃ k, n ≤ k ≤ n + budget ∧
    (∀ j, n ≤ j < k → contended (call (attempt_at call j w)).1) ∧
    issue_from call budget n (attempt_at call n w) =
      (verdict (call (attempt_at call k w)).1, (call (attempt_at call k w)).2) ∧
    (contended (call (attempt_at call k w)).1 → k = n + budget).
Proof.
  revert n; induction budget as [|budget IH]; intros n; simpl;
    destruct (call (attempt_at call n w)) as [[v|e|] w1] eqn:Hc.
  1, 3, 4, 6: exists n; rewrite Hc; simpl; split_and!; try lia; try done; intros; lia.
  1: { exists n. rewrite Hc. simpl. split_and!; [lia|lia|intros; lia| |intros; lia].
       by destruct (is_lost_claim e), (is_retryable e). }
  destruct (is_retryable e) eqn:Hr.
  - rewrite (retryable_not_lost e Hr). simpl.
    destruct (IH (S n)) as (k & Hk & Hj & Hi & Hlast). simpl in Hi. rewrite Hc in Hi. simpl in Hi.
    exists k. split_and!; [lia|lia| |done|intros Hx; specialize (Hlast Hx); lia].
    intros j Hnj. destruct (decide (j = n)) as [->|]; [by rewrite Hc|apply Hj; lia].
  - exists n. rewrite Hc. simpl. rewrite Hr. split_and!; [lia|lia|intros; lia| |done].
    by destruct (is_lost_claim e).
Qed.

Lemma backoff_budget : zsum (backoff_delay <$> seq 0 MAX_RETRIES) = from_millis 16300.
Proof. by vm_compute. Qed.

(** One request ([issue]) makes at most nine attempts.  It stops at the
    first attempt that is not contended (429 or 503), or at the ninth, and
    returns that attempt's own answer: its value, the word that the claim is
    lost (421), or the error itself. *)
Theorem issue_stops {T} (call : W → result T * W) w :
  ∃ k, k ≤ MAX_RETRIES ∧
    (∀ j, j < k → contended (call (attempt_at call j w)).1) ∧
    issue call w = (verdict (call (attempt_at call k w)).1, (call (attempt_at call k w)).2) ∧
    (contended (call (attempt_at call k w)).1 → k = MAX_RETRIES) ∧
    (zsum (backoff_delay <$> seq 0 k) ≤ from_millis 16300)%Z.
Proof.
  destruct (issue_from_spec call MAX_RETRIES 0 w) as (k & Hk & Hj & Hi & Hlast).
  exists k. split_and!; [lia|intros; apply Hj; lia|exact Hi|exact Hlast|].
  rewrite <- backoff_budget. replace MAX_RETRIES with (k + (MAX_RETRIES - k)) by lia.
  rewrite seq_app, fmap_app, zsum_app.
  enough (0 ≤ zsum (backoff_delay <$> seq (0 + k) (MAX_RETRIES - k)))%Z by lia.
  apply zsum_nonneg, Forall_fmap, Forall_forall. intros a _. simpl. unfold backoff_delay,
    saturating_mul. rewrite Z.shiftl_1_l. pose proof (Z.pow_nonneg 2 (Z.of_nat (a `min` 8))).
  unfold RETRY_BACKOFF_BASE, RETRY_BACKOFF_MAX, from_millis, DURATION_MAX, U64. lia.
Qed.

(** A checkpoint that returns [Ok] flushed the table and, unless the table
    has no write path, has seen an answer in which no shard holds an SSTable as
    old as one that was reported for it right after the flush: whatever the
    node answered in between, and however many rounds were restarted. *)
Theorem checkpoint_ok_converged fuel w w'
    (Hok : checkpoint_memwal fuel w = Some (Ok tt, w')) :
  converged w w'.
Proof. by eapply checkpoint_rounds_ok. Qed.
End properties.

Lemma checkpoint_ok_converged_witness :
  converged Node.example
    (Node.mkNode [("b0", [9]%Z); ("b1", [9]%Z)] false 10 0).
Proof. apply (checkpoint_ok_converged 5). by vm_compute. Defined.

(** C10: Against a node whose compaction makes progress a checkpoint terminates
    and succeeds, although the node refuses requests as contended (at most
    eight in a row) and takes new writes all the while: some number of polls is
    enough, and then the table has converged. *)
Theorem checkpoint_converges `{CompactingNode W} w (Hw : node_inv w) :
  ∃ polls, ∀ fuel, polls ≤ fuel →
    ∃ w', checkpoint_memwal fuel w = Some (Ok tt, w') ∧ converged w w'.
Proof.
  destruct (issue_flush_live MAX_RETRIES 0 w Hw (patience_bound w Hw)) as (w1 & Hf & Hw1).
  destruct (issue_stats_live MAX_RETRIES 0 w1 Hw1 (patience_bound w1 Hw1))
    as (w2 & Hs & Hw2 & Hwm & _).
  set (T := targets_of (mkStats (shards w2))) in *.
  exists (S (work T w2)). intros fuel Hfuel.
  enough (∃ w', checkpoint_memwal fuel w = Some (Ok tt, w')) as [w' Hok]
    by (exists w'; split; [done|]; by eapply checkpoint_rounds_ok).
  change (issue flush_memwal w = (Ok (AttemptOk tt), w1)) in Hf.
  change (issue (get_memwal_stats false) w1
          = (Ok (AttemptOk (Some (mkStats (shards w2)))), w2)) in Hs.
  unfold checkpoint_memwal. cbn -[issue targets_of drain_to_targets].
  rewrite Hf. cbn -[issue targets_of drain_to_targets]. rewrite Hs. fold T.
  destruct (decide (T = ∅)); [by eexists|].
  destruct (drain_live fuel T w2) as [w' ->]; [done..|lia|]. by eexists.
Qed.

Lemma checkpoint_converges_witness :
  Node.node_ok Node.example ∧
  ∃ polls, ∀ fuel, polls ≤ fuel →
    ∃ w', checkpoint_memwal fuel Node.example = Some (Ok tt, w') ∧ converged Node.example w'.
Proof. split; [exact Node.example_ok|]. exact (checkpoint_converges Node.example Node.example_ok). Defined.

End Checkpoint.
