(* ===== verification/Listing.v ===== *)
(** * Listings of database resources (rust/lancedb/src/listing.rs)

    [Listing] is a stream over the pages of a backend.  The state machine of
    [poll_next] is modelled with its pending request; the request futures and
    the backend they talk to are a parameter ([Backend]).  Against a backend
    with a fixed sequence of pages the stream refines the abstract listing
    [enumerates], the concatenation of the pages that the tokens lead to; and
    when the tokens come from a finite set the listing ends, because a repeated
    token stops it. *)

From S2P Require Import Prelude.

Module Listing.

Inductive Poll (A : Type) : Type :=
  | Ready (a : A)
  | Pending.
Arguments Ready {A} a.
Arguments Pending {A}.

Record ListingOptions : Type := mkOptions {
  page_token : option string;
  page_limit : option Z
}.

(** [ListingOptions::default] and its two setters *)
Definition default_options : ListingOptions := mkOptions None None.
Definition with_page_token (o : ListingOptions) (token : string) : ListingOptions :=
  mkOptions (Some token) (page_limit o).
Definition with_page_limit (o : ListingOptions) (limit : Z) : ListingOptions :=
  mkOptions (page_token o) (Some limit).

Record ListingPage (T : Type) : Type := mkPage {
  p_items : list T;
  p_page_token : option string
}.
Arguments mkPage {T}.
Arguments p_items {T}.
Arguments p_page_token {T}.

(** The futures of the requests ([FetchPage]) and the backend they poll; a
    request ends with an error or a page. *)
Class Backend (T F B : Type) : Type := {
  fetch : ListingOptions → F;
  poll_fetch : F → B → Poll (Error + ListingPage T) * F * B
}.

Record Listing (T F : Type) : Type := mkListing {
  items : list T;
  options : ListingOptions;
  done : bool;
  seen_tokens : gset string;
  pending : option F
}.
Arguments mkListing {T F}.
Arguments items {T F}.
Arguments options {T F}.
Arguments done {T F}.
Arguments seen_tokens {T F}.
Arguments pending {T F}.

(** [.filter(|token| !token.is_empty())] *)
Definition non_empty (token : option string) : option string :=
  match token with
  | Some t => if String.eqb t EmptyString then None else Some t
  | None => None
  end.

Definition token_set (token : option string) : gset string :=
  match token with Some t => {[ t ]} | None => ∅ end.

Definition I32_MAX : Z := 2 ^ 31 - 1.
(** [limit == 0 || limit > i32::MAX as u32] of a limit that is set *)
Definition bad_limit (limit : option Z) : bool :=
  match limit with
  | Some l => (l =? 0)%Z || (I32_MAX <? l)%Z
  | None => false
  end.

Definition limit_error : Error :=
  InvalidInput "Listing page limit must be between 1 and 2147483647".
Definition repeated_error : Error := Runtime "Listing response repeated a page_token".

Definition new {T F} (o : ListingOptions) : Listing T F :=
  mkListing [] o false (token_set (non_empty (page_token o))) None.

Definition num_page_results {T F} (l : Listing T F) : nat := length (items l).
Definition listing_page_token {T F} (l : Listing T F) : option string := page_token (options l).

Section poll.
Context `{Backend T F B}.

(** [Listing::poll_next]: one round of its loop returns or goes round again;
    [None] only means that the fuel ran out. *)
Fixpoint poll_next (fuel : nat) (l : Listing T F) (b : B)
    : option (Poll (option (result T)) * Listing T F * B) :=
  match fuel with
  | O => None
  | S fuel =>
      match items l with
      | item :: rest =>
          Some (Ready (Some (Ok item)),
                mkListing rest (options l) (done l) (seen_tokens l) (pending l), b)
      | [] =>
          if done l then Some (Ready None, l, b)
          else if bad_limit (page_limit (options l)) then
            Some (Ready (Some (Err limit_error)),
                  mkListing [] (options l) true (seen_tokens l) (pending l), b)
          else
            let f := match pending l with Some f => f | None => fetch (options l) end in
            match poll_fetch f b with
            | (Pending, f, b) =>
                Some (Pending, mkListing [] (options l) (done l) (seen_tokens l) (Some f), b)
            | (Ready (inr page), _, b) =>
                match non_empty (p_page_token page) with
                | Some token =>
                    if decide (token ∈ seen_tokens l) then
                      Some (Ready (Some (Err repeated_error)),
                            mkListing [] (options l) true (seen_tokens l) None, b)
                    else
                      poll_next fuel
                        (mkListing (p_items page) (mkOptions (Some token) (page_limit (options l)))
                           false ({[ token ]} ∪ seen_tokens l) None) b
                | None =>
                    poll_next fuel
                      (mkListing (p_items page) (mkOptions None (page_limit (options l)))
                         true (seen_tokens l) None) b
                end
            | (Ready (inl error), _, b) =>
                Some (Ready (Some (Err error)),
                      mkListing [] (options l) true (seen_tokens l) None, b)
            end
      end
  end.

(** A consumer that polls until the stream ends ([StreamExt::collect]). *)
Fixpoint collect (fuel : nat) (l : Listing T F) (b : B) : option (list (result T)) :=
  match fuel with
  | O => None
  | S fuel' =>
      match poll_next fuel l b with
      | None => None
      | Some (Pending, l, b) => collect fuel' l b
      | Some (Ready None, _, _) => Some []
      | Some (Ready (Some r), l, b) => (r ::.) <$> collect fuel' l b
      end
  end.
End poll.

(** ** The abstract listing *)

(** A backend with a fixed page behind every request: a pending request ends
    after a number of polls with that page. *)
Class StableBackend (T F B : Type) `{Backend T F B} : Type := {
  page_of : ListingOptions → Error + ListingPage T;
  asks : F → ListingOptions → Prop;
  delay : F → nat;
  asks_fetch o : asks (fetch o) o;
  poll_fetch_law f o b r f' b' : asks f o → poll_fetch f b = (r, f', b') →
    match r with
    | Ready r => r = page_of o
    | Pending => asks f' o ∧ delay f' < delay f
    end
}.

Section enumerates.
Context (T : Type) (page_of : ListingOptions → Error + ListingPage T) (limit : option Z).

(** [enumerates seen token l]: the listing that goes on at [token], with the
    tokens [seen] used up, yields the results [l] and ends. *)
Inductive enumerates (seen : gset string) (token : option string) : list (result T) → Prop :=
  | enum_limit :
      bad_limit limit = true → enumerates seen token [Err limit_error]
  | enum_last p :
      bad_limit limit = false → page_of (mkOptions token limit) = inr p →
      non_empty (p_page_token p) = None →
      enumerates seen token (Ok <$> p_items p)
  | enum_next p next l :
      bad_limit limit = false → page_of (mkOptions token limit) = inr p →
      non_empty (p_page_token p) = Some next → next ∉ seen →
      enumerates ({[ next ]} ∪ seen) (Some next) l →
      enumerates seen token ((Ok <$> p_items p) ++ l)
  | enum_repeated p next :
      bad_limit limit = false → page_of (mkOptions token limit) = inr p →
      non_empty (p_page_token p) = Some next → next ∈ seen →
      enumerates seen token [Err repeated_error]
  | enum_failed e :
      bad_limit limit = false → page_of (mkOptions token limit) = inl e →
      enumerates seen token [Err e].

(** A listing without errors does not depend on the tokens that were used up. *)
Lemma enumerates_forget seen seen' token l :
  enumerates seen token l → Forall is_ok l → seen' ⊆ seen → enumerates seen' token l.
Proof.
  intros Hl; revert seen'; induction Hl as [| |seen token p next l Hb Hp Hn Hs _ IH| |];
    intros seen' Hok Hsub.
  1, 4, 5: by rewrite Forall_singleton in Hok.
  - by apply enum_last.
  - apply Forall_app in Hok as [_ Hok]. eapply enum_next; [done..|set_solver|].
    apply IH; [done|set_solver].
Qed.
End enumerates.

(** ** Refinement *)
Section refinement.
Context `{StableBackend T F B}.

(** [view l rs]: what is left to yield, in terms of the abstract listing. *)
Definition view (l : Listing T F) (rs : list (result T)) : Prop :=
  ∃ rest, rs = (Ok <$> items l) ++ rest ∧
    if done l then rest = []
    else enumerates T page_of (page_limit (options l)) (seen_tokens l) (page_token (options l)) rest.

Definition listing_wf (l : Listing T F) : Prop :=
  ∀ f, pending l = Some f → asks f (options l).

Lemma view_item r rest l rs :
  items l = r :: rest →
  view (mkListing rest (options l) (done l) (seen_tokens l) (pending l)) rs ↔ view l (Ok r :: rs).
Proof.
  intros Hi. unfold view; simpl. rewrite Hi, fmap_cons. simpl. split.
  - intros (rest' & -> & ?). by exists rest'.
  - intros (rest' & [= ->] & ?). by exists rest'.
Qed.

(** The request that a poll drives. *)
Definition request (l : Listing T F) : F :=
  match pending l with Some f => f | None => fetch (options l) end.

Lemma asks_request l : listing_wf l → asks (request l) (options l).
Proof.
  intros Hwf. unfold request. destruct (pending l) as [f|] eqn:Hp; [by apply Hwf|apply asks_fetch].
Qed.

(** The state after a page whose token is not a repetition. *)
Definition turn (l : Listing T F) (page : ListingPage T) : Listing T F :=
  let next := non_empty (p_page_token page) in
  mkListing (p_items page) (mkOptions next (page_limit (options l)))
    (bool_decide (next = None)) (token_set next ∪ seen_tokens l) None.

Definition repeats (l : Listing T F) (page : ListingPage T) : Prop :=
  ∃ next, non_empty (p_page_token page) = Some next ∧ next ∈ seen_tokens l.

(** A round with no item left, the listing not done and the limit good. *)
Lemma poll_round fuel l b :
  items l = [] → done l = false → bad_limit (page_limit (options l)) = false →
  poll_next (S fuel) l b =
    match poll_fetch (request l) b with
    | (Pending, f, b) =>
        Some (Pending, mkListing [] (options l) false (seen_tokens l) (Some f), b)
    | (Ready (inl error), _, b) =>
        Some (Ready (Some (Err error)), mkListing [] (options l) true (seen_tokens l) None, b)
    | (Ready (inr page), _, b) =>
        match non_empty (p_page_token page) with
        | Some token =>
            if decide (token ∈ seen_tokens l) then
              Some (Ready (Some (Err repeated_error)),
                    mkListing [] (options l) true (seen_tokens l) None, b)
            else poll_next fuel (turn l page) b
        | None => poll_next fuel (turn l page) b
        end
    end.
Proof.
  intros Hi Hd Hb. unfold turn. simpl. rewrite Hi, Hd, Hb. unfold request.
  destruct (poll_fetch _ b) as [[[[e|p]|] f'] b']; [done| |done].
  destruct (non_empty (p_page_token p)); [done|]. simpl. by rewrite union_empty_l_L.
Qed.

Lemma view_turn l page rs :
  items l = [] → done l = false → bad_limit (page_limit (options l)) = false →
  page_of (options l) = inr page → ¬ repeats l page →
  view (turn l page) rs ↔ view l rs.
Proof.
  intros Hi Hd Hb Hp Hr. unfold view, turn; simpl. rewrite Hi, Hd. simpl.
  assert (options l = mkOptions (page_token (options l)) (page_limit (options l))) as Ho
    by by destruct (options l).
  unfold repeats in Hr.
  destruct (non_empty (p_page_token page)) as [next|] eqn:Hn; simpl; split.
  - intros (rest & -> & He). eexists; split; [done|]. rewrite Ho in Hp.
    eapply enum_next; [done|exact Hp|done|naive_solver|done].
  - intros (rest & -> & He). rewrite Ho in Hp. inversion He; subst; try congruence.
    + match goal with Hx : page_of _ = inr ?p |- _ => replace page with p in * by congruence end.
      eexists; split; [done|]. replace next with next0 by congruence. done.
    + exfalso. apply Hr. exists next. split; [done|]. congruence.
  - intros (rest & -> & ->). exists ((Ok <$> p_items page) ++ []). split; [done|].
    rewrite app_nil_r. rewrite Ho in Hp. by apply enum_last.
  - intros (rest & -> & He). rewrite Ho in Hp. exists []. rewrite app_nil_r. split; [|done].
    inversion He; subst; congruence.
Qed.

(** A request that is answered while the listing is waiting for it. *)
Lemma view_pending l f rs :
  items l = [] → done l = false →
  view (mkListing [] (options l) false (seen_tokens l) (Some f)) rs ↔ view l rs.
Proof. intros Hi Hd. unfold view; simpl. by rewrite Hi, Hd. Qed.

Lemma view_stopped o seen p rs :
  view (mkListing (F:=F) [] o true seen p) rs ↔ rs = [].
Proof. split; [by intros (? & -> & ->)|]. intros ->. by exists []. Qed.

Lemma view_stops l r o seen p rs :
  items l = [] → done l = false →
  (∀ rest, enumerates T page_of (page_limit (options l)) (seen_tokens l)
             (page_token (options l)) rest ↔ rest = [r]) →
  view l rs ↔ ∃ rs', rs = r :: rs' ∧ view (mkListing (F:=F) [] o true seen p) rs'.
Proof.
  intros Hi Hd He. setoid_rewrite view_stopped. unfold view. rewrite Hi, Hd. setoid_rewrite He.
  simpl. naive_solver.
Qed.

(** What one poll does to what is left. *)
Definition consumed (p : Poll (option (result T))) (l l' : Listing T F) : Prop :=
  ∀ rs, view l rs ↔
    match p with
    | Pending => view l' rs
    | Ready (Some r) => ∃ rs', rs = r :: rs' ∧ view l' rs'
    | Ready None => rs = []
    end.

Lemma poll_consumed fuel l b p l' b' :
  listing_wf l → poll_next fuel l b = Some (p, l', b') → listing_wf l' ∧ consumed p l l'.
Proof.
  revert l b; induction fuel as [|fuel IH]; intros l b Hwf; [done|].
  destruct (items l) as [|r rest] eqn:Hi.
  2: { simpl. rewrite Hi. intros [= <- <- <-]. split; [done|]. intros rs. split.
       - intros Hv. pose proof Hv as (x & -> & _). rewrite Hi, fmap_cons. simpl. eexists.
         split; [done|]. apply (view_item r rest l _ Hi). by rewrite Hi, fmap_cons in Hv.
       - intros (rs' & -> & Hv). by apply (view_item r rest l _ Hi). }
  destruct (done l) eqn:Hd.
  { simpl. rewrite Hi, Hd. intros [= <- <- <-]. split; [done|]. intros rs. unfold view.
    rewrite Hi, Hd. simpl. naive_solver. }
  destruct (bad_limit (page_limit (options l))) eqn:Hb.
  { simpl. rewrite Hi, Hd, Hb. intros [= <- <- <-]. split; [done|]. intros rs.
    apply view_stops; [done..|]. intros rest. split; [inversion 1; congruence|].
    intros ->. by constructor. }
  rewrite poll_round by done.
  destruct (poll_fetch (request l) b) as [[r f] b1] eqn:Hf.
  pose proof (poll_fetch_law _ _ _ _ _ _ (asks_request l Hwf) Hf) as Hlaw.
  assert (options l = mkOptions (page_token (options l)) (page_limit (options l))) as Ho
    by by destruct (options l).
  destruct r as [[e|page]|].
  - intros [= <- <- <-]. split; [done|]. intros rs. apply view_stops; [done..|]. intros rest.
    rewrite Ho in Hlaw. split; [inversion 1; congruence|]. intros ->. by apply enum_failed.
  - assert (¬ repeats l page → poll_next fuel (turn l page) b1 = Some (p, l', b') →
      listing_wf l' ∧ consumed p l l') as Hturn.
    { intros Hr Hp. assert (listing_wf (turn l page)) as Hwf1 by done.
      destruct (IH _ _ Hwf1 Hp) as [Hwf' Hbef]. split; [done|].
      intros rs. rewrite <- (Hbef rs). symmetry. by apply view_turn. }
    destruct (non_empty (p_page_token page)) as [next|] eqn:Hn.
    2: { apply Hturn. intros (next & ? & ?). congruence. }
    destruct (decide (next ∈ seen_tokens l)) as [Hin|Hin].
    + intros [= <- <- <-]. split; [done|]. intros rs. apply view_stops; [done..|]. intros rest.
      rewrite Ho in Hlaw. split; [inversion 1; congruence|].
      intros ->. by eapply enum_repeated.
    + apply Hturn. intros (? & ? & ?). congruence.
  - intros [= <- <- <-]. split; [by intros ? [= <-]; apply Hlaw|].
    intros rs. symmetry. by apply view_pending.
Qed.

Lemma collect_before fuel l b rs :
  listing_wf l → collect fuel l b = Some rs → view l rs.
Proof.
  revert l b rs; induction fuel as [|fuel IH]; intros l b rs Hwf; [done|]. cbn -[poll_next].
  destruct (poll_next (S fuel) l b) as [[[p l'] b']|] eqn:Hp; [|done].
  destruct (poll_consumed _ _ _ _ _ _ Hwf Hp) as [Hwf' Hb]. rewrite (Hb rs).
  destruct p as [[r|]|]; [|by intros [= <-]|by eauto].
  intros (rs' & Hc & ->)%fmap_Some. eauto.
Qed.

(** ** Enough polls reach the end *)
Lemma poll_mono fuel fuel' l b x :
  fuel ≤ fuel' → poll_next fuel l b = Some x → poll_next fuel' l b = Some x.
Proof.
  revert fuel' l b; induction fuel as [|fuel IH]; intros [|fuel'] l b Hle; [done|done|lia|].
  simpl. destruct (items l); [|done]. destruct (done l); [done|].
  destruct (bad_limit _); [done|].
  destruct (poll_fetch _ b) as [[[[e|p]|] f'] b']; [done| |done].
  destruct (non_empty _); [destruct (decide _); [done|]|]; apply IH; lia.
Qed.

Lemma collect_mono fuel fuel' l b rs :
  fuel ≤ fuel' → collect fuel l b = Some rs → collect fuel' l b = Some rs.
Proof.
  revert fuel' l b rs; induction fuel as [|fuel IH]; intros [|fuel'] l b rs Hle;
    [done|done|lia|]. cbn -[poll_next].
  destruct (poll_next (S fuel) l b) as [[[p l'] b']|] eqn:Hp; [|done].
  rewrite (poll_mono (S fuel) (S fuel') l b _ Hle Hp).
  destruct p as [[r|]|]; [|done|intros; eapply IH; [lia|done]].
  intros (rs' & Hc & ->)%fmap_Some. apply fmap_Some. exists rs'. split; [|done].
  eapply IH; [lia|done].
Qed.

Definition ends (l : Listing T F) (rs : list (result T)) : Prop :=
  ∀ b, ∃ fuel, collect fuel l b = Some rs.

Lemma ends_item r rest l rs :
  items l = r :: rest →
  ends (mkListing rest (options l) (done l) (seen_tokens l) (pending l)) rs → ends l (Ok r :: rs).
Proof.
  intros Hi He b. destruct (He b) as [fuel Hc]. exists (S fuel). cbn -[poll_next].
  simpl. rewrite Hi. simpl. by rewrite Hc.
Qed.

Lemma ends_items rest l rs :
  ends (mkListing [] (options l) (done l) (seen_tokens l) (pending l)) rs →
  items l = rest → ends l ((Ok <$> rest) ++ rs).
Proof.
  intros He; revert l He; induction rest as [|r rest IH]; intros [its o d s p] He Hi; simpl in *;
    subst; [done|]. eapply ends_item; [done|]. by apply IH.
Qed.

(** One round of a waiting listing: the answer decides, or the request is a poll
    nearer to its answer. *)
Lemma ends_round l rs :
  listing_wf l → items l = [] → done l = false →
  bad_limit (page_limit (options l)) = false →
  match page_of (options l) with
  | inl e => rs = [Err e]
  | inr page =>
      (repeats l page ∧ rs = [Err repeated_error]) ∨ (¬ repeats l page ∧ ends (turn l page) rs)
  end → ends l rs.
Proof.
  remember (delay (request l)) as d eqn:Hdel. revert l Hdel.
  induction d as [d IH] using lt_wf_ind; intros l -> Hwf Hi Hd Hb Hpage b.
  destruct (poll_fetch (request l) b) as [[r f] b1] eqn:Hf.
  pose proof (poll_fetch_law _ _ _ _ _ _ (asks_request l Hwf) Hf) as Hlaw.
  destruct r as [[e|page]|].
  - rewrite <- Hlaw in Hpage. subst rs. exists 2. cbn -[poll_next].
    rewrite poll_round, Hf by done. done.
  - rewrite <- Hlaw in Hpage.
    destruct Hpage as [[(next & Hn & Hin) ->]|[Hnr He]].
    + exists 2. cbn -[poll_next]. rewrite poll_round, Hf, Hn by done.
      by rewrite decide_True.
    + destruct (He b1) as [fuel Hc]. exists (S fuel). cbn -[poll_next].
      rewrite poll_round, Hf by done.
      assert ((match non_empty (p_page_token page) with
        | Some token => if decide (token ∈ seen_tokens l)
            then Some (Ready (Some (Err repeated_error)), mkListing [] (options l) true (seen_tokens l) None, b1)
            else poll_next fuel (turn l page) b1
        | None => poll_next fuel (turn l page) b1
        end) = poll_next fuel (turn l page) b1) as ->.
      { destruct (non_empty (p_page_token page)) as [next|] eqn:Hn; [|done].
        destruct (decide _); [|done]. exfalso. apply Hnr. by exists next. }
      destruct fuel as [|fuel]; [done|]. cbn -[poll_next] in Hc.
      destruct (poll_next (S fuel) (turn l page) b1) as [[[[[r|]|] l'] b']|]; [|done| |done].
      * apply fmap_Some in Hc as (rs' & Hc & ->). apply fmap_Some. exists rs'. split; [|done].
        eapply collect_mono; [|done]. lia.
      * eapply collect_mono; [|done]. lia.
  - destruct Hlaw as [Ha Hlt].
    destruct (IH _ Hlt (mkListing [] (options l) false (seen_tokens l) (Some f)) eq_refl) with b1
      as [fuel Hc]; [by intros ? [= <-]|done|done|done|done|].
    exists (S fuel). cbn -[poll_next]. by rewrite poll_round, Hf by done.
Qed.


Lemma ends_enumerates seen token limit rs :
  enumerates T page_of limit seen token rs →
  ∀ p, listing_wf (mkListing [] (mkOptions token limit) false seen p) →
  ends (mkListing [] (mkOptions token limit) false seen p) rs.
Proof.
  induction 1 as [seen token Hb|seen token page Hb Hp Hn|seen token page next rs Hb Hp Hn Hs _ IH
    |seen token page next Hb Hp Hn Hs|seen token e Hb Hp]; intros p Hwf.
  - intros b. exists 2. cbn -[bad_limit]. by rewrite Hb.
  - apply ends_round; simpl; [done..|]. rewrite Hp. right. split; [by intros (? & ? & ?); congruence|].
    unfold turn. rewrite Hn. simpl. rewrite <- (app_nil_r (Ok <$> _)). apply ends_items; [|done].
    intros b. by exists 1.
  - apply ends_round; simpl; [done..|]. rewrite Hp. right.
    split; [by intros (? & ? & ?); simpl in *; congruence|].
    unfold turn. rewrite Hn. simpl. apply ends_items; [|done]. by apply IH.
  - apply ends_round; simpl; [done..|]. rewrite Hp. left. split; [by exists next|done].
  - apply ends_round; simpl; [done..|]. by rewrite Hp.
Qed.

(** Several polls, with the results they produce. *)
Inductive polls : Listing T F → B → list (result T) → Listing T F → B → Prop :=
  | polls_nil l b : polls l b [] l b
  | polls_pending fuel l b l1 b1 rs l' b' :
      poll_next fuel l b = Some (Pending, l1, b1) → polls l1 b1 rs l' b' → polls l b rs l' b'
  | polls_result fuel l b r l1 b1 rs l' b' :
      poll_next fuel l b = Some (Ready (Some r), l1, b1) → polls l1 b1 rs l' b' →
      polls l b (r :: rs) l' b'.

Lemma polls_consumed l b rs l' b' all :
  polls l b rs l' b' → listing_wf l → view l all → ∃ rest, all = rs ++ rest ∧ view l' rest.
Proof.
  intros Hps; revert all; induction Hps as [|fuel l b l1 b1 rs l' b' Hp _ IH
    |fuel l b r l1 b1 rs l' b' Hp _ IH]; intros all Hwf Hv; [by exists all|..];
    destruct (poll_consumed _ _ _ _ _ _ Hwf Hp) as [Hwf1 Hc]; apply Hc in Hv.
  - by apply IH.
  - destruct Hv as (all' & -> & Hv). destruct (IH _ Hwf1 Hv) as (rest & -> & ?). by exists rest.
Qed.

(** The token of a listing is one it has seen. *)
Definition token_seen (l : Listing T F) : Prop :=
  ∀ t, non_empty (listing_page_token l) = Some t → t ∈ seen_tokens l.

Lemma non_empty_idem o : non_empty (non_empty o) = non_empty o.
Proof. destruct o as [t|]; [|done]. simpl. destruct (String.eqb t _) eqn:E; [done|]. simpl. by rewrite E. Qed.

Lemma poll_token_seen fuel l b p l' b' :
  poll_next fuel l b = Some (p, l', b') → token_seen l → token_seen l'.
Proof.
  revert l b; induction fuel as [|fuel IH]; intros l b; [done|]. simpl.
  destruct (items l) as [|r rest]; [|by intros [= <- <- <-]].
  destruct (done l); [by intros [= <- <- <-]|].
  destruct (bad_limit _); [by intros [= <- <- <-]|].
  destruct (poll_fetch _ b) as [[[[e|pg]|] f'] b1];
    [by intros [= <- <- <-]| |by intros [= <- <- <-]].
  destruct (non_empty (p_page_token pg)) as [next|].
  - destruct (decide _); [by intros [= <- <- <-]|]. intros Hp _. eapply IH; [exact Hp|].
    intros t. unfold listing_page_token. simpl. destruct (String.eqb _ _); [done|].
    intros [= ->]. set_solver.
  - intros Hp _. eapply IH; [exact Hp|]. by intros t.
Qed.

Lemma polls_token_seen l b rs l' b' : polls l b rs l' b' → token_seen l → token_seen l'.
Proof. induction 1; eauto using poll_token_seen. Qed.

Lemma new_token_seen o : token_seen (new (T:=T) (F:=F) o).
Proof. intros t. unfold new, listing_page_token; simpl. intros ->. simpl. set_solver. Qed.

(** A listing that is done without an error has no token left. *)
Definition settled (l : Listing T F) : Prop := done l = true → listing_page_token l = None.

Lemma poll_settled fuel l b p l' b' :
  poll_next fuel l b = Some (p, l', b') → settled l →
  (∀ r, p = Ready (Some r) → is_ok r = true) → settled l'.
Proof.
  revert l b; induction fuel as [|fuel IH]; intros l b; [done|]. simpl.
  destruct (items l) as [|r rest]; [|by intros [= <- <- <-]].
  destruct (done l) eqn:Hd; [by intros [= <- <- <-]|].
  destruct (bad_limit _); [by intros [= <- <- <-] _ Hok; specialize (Hok _ eq_refl)|].
  destruct (poll_fetch _ b) as [[[[e|pg]|] f'] b1].
  - by intros [= <- <- <-] _ Hok; specialize (Hok _ eq_refl).
  - destruct (non_empty (p_page_token pg)) as [next|].
    + destruct (decide _); [by intros [= <- <- <-] _ Hok; specialize (Hok _ eq_refl)|].
      intros Hp _. by eapply IH.
    + intros Hp _. by eapply IH.
  - by intros [= <- <- <-].
Qed.

Lemma polls_settled l b rs l' b' :
  polls l b rs l' b' → settled l → Forall (λ r, is_ok r = true) rs → settled l'.
Proof.
  induction 1 as [|fuel l b l1 b1 rs l' b' Hp _ IH|fuel l b r l1 b1 rs l' b' Hp _ IH];
    intros Hs Hok; [done| |].
  - apply IH; [|done]. by eapply poll_settled.
  - apply Forall_cons in Hok as [Hr Hok]. apply IH; [|done].
    eapply poll_settled; [done..|]. by intros ? [= <-].
Qed.

Lemma poll_limit fuel l b p l' b' :
  poll_next fuel l b = Some (p, l', b') → page_limit (options l') = page_limit (options l).
Proof.
  revert l b; induction fuel as [|fuel IH]; intros l b; [done|]. simpl.
  destruct (items l); [|by intros [= <- <- <-]]. destruct (done l); [by intros [= <- <- <-]|].
  destruct (bad_limit _); [by intros [= <- <- <-]|].
  destruct (poll_fetch _ b) as [[[[e|pg]|] f'] b1]; [by intros [= <- <- <-]| |by intros [= <- <- <-]].
  destruct (non_empty (p_page_token pg)) as [next|]; [|by intros ->%IH].
  destruct (decide _); [by intros [= <- <- <-]|by intros ->%IH].
Qed.

Lemma polls_limit l b rs l' b' :
  polls l b rs l' b' → page_limit (options l') = page_limit (options l).
Proof. induction 1; [done|..]; erewrite IHpolls; by eapply poll_limit. Qed.

(** The tokens seen grow within a finite set, so a listing ends. *)
Lemma enumerates_total (toks : gset string) limit seen token :
  (∀ o p t, page_of o = inr p → p_page_token p = Some t → t ∈ toks) →
  ∃ rs, enumerates T page_of limit seen token rs.
Proof.
  intros Hfin. remember (size (toks ∖ seen)) as n eqn:Hn. revert seen token Hn.
  induction n as [n IH] using lt_wf_ind; intros seen token ->.
  destruct (bad_limit limit) eqn:Hb; [eexists; by apply enum_limit|].
  destruct (page_of (mkOptions token limit)) as [e|page] eqn:Hp; [eexists; by apply enum_failed|].
  destruct (non_empty (p_page_token page)) as [next|] eqn:Ht; [|eexists; by apply enum_last].
  destruct (decide (next ∈ seen)) as [Hin|Hin]; [eexists; by eapply enum_repeated|].
  assert (p_page_token page = Some next) as Ht'.
  { revert Ht. destruct (p_page_token page) as [t|]; [|done]. simpl. by destruct (String.eqb t _). }
  pose proof (Hfin _ _ _ Hp Ht') as Hnext.
  destruct (IH (size (toks ∖ ({[ next ]} ∪ seen)))) with ({[ next ]} ∪ seen) (Some next)
    as [rs Hrs]; [|done|].
  { apply subset_size. split; [set_solver|]. intros Hsub. specialize (Hsub next). set_solver. }
  eexists. by eapply enum_next.
Qed.

(** ** Properties *)

(** C11: Polling a listing until its stream ends yields exactly the abstract
    listing: the items of the pages in order, the tokens followed one after the
    other, and at most one error, which is the last result; pending requests
    and empty pages do not show. *)
Theorem listing_refines (o : ListingOptions) (b : B) (rs : list (result T)) :
  (∃ fuel, collect fuel (new o) b = Some rs) ↔
  enumerates T page_of (page_limit o) (token_set (non_empty (page_token o))) (page_token o) rs.
Proof.
  split.
  - intros [fuel Hc]. apply collect_before in Hc as (rest & -> & He); [|done]. done.
  - intros He. destruct o as [token limit]. by apply (ends_enumerates _ _ _ _ He None).
Qed.

(** A listing ends when the backend draws its continuation tokens from a
    finite set, even when it sends them in circles: the stream stops with an
    error at the first token that it has seen before. *)
Theorem listing_terminates (toks : gset string) (o : ListingOptions) (b : B)
    (Hfin : ∀ o p t, page_of o = inr p → p_page_token p = Some t → t ∈ toks) :
  ∃ fuel rs, collect fuel (new o) b = Some rs.
Proof.
  destruct (enumerates_total toks (page_limit o) (token_set (non_empty (page_token o)))
    (page_token o) Hfin) as [rs He].
  destruct o as [token limit]. destruct (ends_enumerates _ _ _ _ He None) with b as [fuel Hc];
    [done|]. by exists fuel, rs.
Qed.

(** A listing can be resumed.  When the cached items are drained, a new
    listing that starts at the saved token yields exactly what the first one
    had left to yield, provided the whole listing has no error. *)
Theorem listing_resumes (o : ListingOptions) (b b' b2 : B) (done_part : list (result T))
    (l' : Listing T F) (t : string) (all : list T)
    (Hall : enumerates T page_of (page_limit o) (token_set (non_empty (page_token o)))
              (page_token o) (Ok <$> all))
    (Hpolls : polls (new o) b done_part l' b')
    (Hdrained : num_page_results l' = 0)
    (Htoken : listing_page_token l' = Some t) :
  ∃ left fuel, Ok <$> all = done_part ++ left ∧
    collect fuel (new (with_page_token o t)) b2 = Some left.
Proof.
  destruct (polls_consumed _ _ _ _ _ (Ok <$> all) Hpolls) as (rest & Hrest & Hview); [done|by exists (Ok <$> all)|].
  assert (Forall (λ r, is_ok r = true) (done_part ++ rest)) as Hok.
  { rewrite <- Hrest. apply Forall_fmap, Forall_forall. by intros x _. }
  apply Forall_app in Hok as [Hok Hok2].
  assert (done l' = false) as Hd.
  { apply not_true_iff_false. intros Hd. apply (polls_settled _ _ _ _ _ Hpolls) in Hd; [|done..].
    congruence. }
  destruct Hview as (rest' & Heq & He).
  rewrite Hd, (polls_limit _ _ _ _ _ Hpolls) in He. change (options (new o)) with o in He.
  apply nil_length_inv in Hdrained. rewrite Hdrained in Heq. simpl in Heq. subst rest'.
  unfold listing_page_token in Htoken. rewrite Htoken in He. exists rest.
  assert (enumerates T page_of (page_limit o) (token_set (non_empty (Some t))) (Some t) rest) as He'.
  { eapply enumerates_forget; [exact He| |].
    - eapply Forall_impl; [exact Hok2|]. intros r Hr. by rewrite Hr.
    - destruct (non_empty (Some t)) as [t'|] eqn:Ht; [|set_solver].
      pose proof (polls_token_seen _ _ _ _ _ Hpolls (new_token_seen o) t') as Hseen.
      unfold listing_page_token in Hseen. rewrite Htoken in Hseen. specialize (Hseen Ht). set_solver. }
  destruct (ends_enumerates _ _ _ _ He' None) with b2 as [fuel Hc]; [done|]. by exists fuel.
Qed.
End refinement.

(** ** A backend

    Three pages behind the tokens "start", "empty" and "last", the second of
    them empty; a request is pending for one poll. *)
Module Pages.
Definition page (o : ListingOptions) : Error + ListingPage nat :=
  match page_token o with
  | Some "start" => inr (mkPage [1; 2] (Some "empty"))
  | Some "empty" => inr (mkPage [] (Some "last"))
  | Some "last" => inr (mkPage [3; 4] (Some ""))
  | _ => inl (Runtime "unexpected request")
  end.

#[global] Instance backend : Backend nat (bool * ListingOptions) unit := {
  fetch o := (true, o);
  poll_fetch f b :=
    if f.1 then (Pending, (false, f.2), b) else (Ready (page f.2), f, b)
}.

#[global] Program Instance stable : StableBackend nat (bool * ListingOptions) unit := {
  page_of := page;
  asks f o := f.2 = o;
  delay f := if f.1 : bool then 1 else 0
}.
Next Obligation. done. Qed.
Next Obligation.
  intros [[] o'] o [] r f' b' <-; simpl; intros [= <- <- <-]; [|done]. split; [done|]. apply Nat.lt_0_1.
Qed.

Definition start : ListingOptions := mkOptions (Some "start") (Some 2%Z).

Lemma start_enumerates :
  enumerates nat page_of (Some 2%Z) {[ "start" ]} (Some "start") (Ok <$> [1; 2; 3; 4]).
Proof.
  apply (enum_next nat page_of (Some 2%Z) {[ "start" ]} (Some "start")
    (mkPage [1; 2] (Some "empty")) "empty" [Ok 3; Ok 4]); [done..|set_solver|].
  apply (enum_next nat page_of (Some 2%Z) _ (Some "empty")
    (mkPage [] (Some "last")) "last" [Ok 3; Ok 4]); [done..|set_solver|].
  by apply (enum_last nat page_of (Some 2%Z) _ (Some "last") (mkPage [3; 4] (Some ""))).
Qed.

Lemma page_tokens o p t :
  page_of o = inr p → p_page_token p = Some t → t ∈ ({[ "empty"; "last"; "" ]} : gset string).
Proof.
  simpl. unfold page. intros Hp Ht. destruct (page_token o) as [s|]; [|done].
  repeat case_match; try done; injection Hp as <-; injection Ht as <-; set_solver.
Qed.
End Pages.

Lemma listing_terminates_witness :
  ∃ fuel rs, collect (T:=nat) fuel (new Pages.start) tt = Some rs.
Proof. exact (listing_terminates {[ "empty"; "last"; "" ]} Pages.start tt Pages.page_tokens). Defined.

Lemma listing_resumes_witness :
  ∃ left fuel, Ok <$> [1; 2; 3; 4] = [Ok 1; Ok 2] ++ left ∧
    collect fuel (new (with_page_token Pages.start "empty")) tt = Some left.
Proof.
  eapply (listing_resumes Pages.start tt tt tt [Ok 1; Ok 2] _ "empty" [1; 2; 3; 4]).
  - exact Pages.start_enumerates.
  - eapply (polls_pending 5); [reflexivity|].
    eapply (polls_result 5); [vm_compute; reflexivity|].
    eapply (polls_result 5); [vm_compute; reflexivity|]. apply polls_nil.
  - reflexivity.
  - reflexivity.
Defined.
End Listing.
