(* ===== verification/Jobs.v ===== *)
(** * Job handles (rust/lancedb/src/job.rs and rust/lancedb/src/remote/job.rs)

    The client's names for the states of a server-side job and the poll loop of
    [RemoteJob::wait]; the state machine of an operation that runs as a task of
    this process ([SpawnedJob]); and the handle [Job] over either, with what it
    caches.  The server and the clock, the JSON values and the Display of an
    error are parameters.  The poll loop has no bound in the code, so it takes
    fuel; it returns as soon as the server reports a terminal state. *)

From S2P Require Import Prelude.

Module Jobs.

(** ** States of a server-side job *)
Inductive JobState : Type :=
  | InProgress
  | Cancelled
  | Failed
  | Done
  | OtherState (state : string).

Definition client_label (s : JobState) : string :=
  match s with
  | InProgress => "running"
  | Done => "finished"
  | Failed => "failed"
  | Cancelled => "cancelled"
  | OtherState state => state
  end.

(** [JobState::from] *)
Definition state_of (state : string) : JobState :=
  match state with
  | "IN_PROGRESS" | "in_progress" => InProgress
  | "CANCELLED" | "cancelled" | "canceled" => Cancelled
  | "FAILED" | "failed" | "TIMED_OUT" | "timed_out" => Failed
  | "DONE" | "done" | "succeeded" => Done
  | other => OtherState other
  end.

Definition job_state_to_client (state : string) : string := client_label (state_of state).

(** error.rs [JobFailure], without the shared source error of an in-process
    failure, whose text is the message. *)
Record JobFailure : Type := mkFailure {
  phase : option string;
  message : option string;
  retryable : option bool
}.
Definition default_failure : JobFailure := mkFailure None None None.

Definition job_failed (job_id : option string) (f : JobFailure) : Error :=
  JobFailed job_id (phase f) (message f) (retryable f).

(** The in-place reading of the wire's [ReportedFailure]. *)
Record ReportedFailure : Type := mkReported {
  r_phase : option string;
  r_message : option string;
  r_retryable : option bool
}.
Definition into_job_failure (f : ReportedFailure) : JobFailure :=
  mkFailure (r_phase f) (r_message f) (r_retryable f).

(** ** The wire's envelope, over JSON values [V] *)
Record DescribeJobResponse (V : Type) : Type := mkDescribe {
  d_job_id : string;
  d_job_type : string;
  d_job_state : string;
  d_creation_ms : Z;
  d_spec : V;
  d_result : option V;
  d_failure : option ReportedFailure
}.
Arguments mkDescribe {V}.
Arguments d_job_id {V}.
Arguments d_job_type {V}.
Arguments d_job_state {V}.
Arguments d_creation_ms {V}.
Arguments d_spec {V}.
Arguments d_result {V}.
Arguments d_failure {V}.

(** database.rs *)
Record JobDescription (V : Type) : Type := mkDescription {
  job_id : string;
  job_type : string;
  state : string;
  creation_ms : Z;
  spec : V;
  result_value : option V;
  failure : option JobFailure
}.
Arguments mkDescription {V}.
Arguments state {V}.
Arguments job_type {V}.
Arguments creation_ms {V}.
Arguments result_value {V}.
Arguments failure {V}.

Definition into_description {V} (d : DescribeJobResponse V) : JobDescription V :=
  mkDescription (d_job_id d) (d_job_type d) (client_label (state_of (d_job_state d)))
    (d_creation_ms d) (d_spec d) (d_result d) (into_job_failure <$> d_failure d).

(** job.rs *)
Record TerminalResult (V : Type) : Type := mkTerminal {
  value : option V;
  request_id : option string
}.
Arguments mkTerminal {V}.
Arguments value {V}.
Arguments request_id {V}.

Definition local {V} (v : V) : TerminalResult V := mkTerminal (Some v) None.
Definition remote {V} (v : option V) (request_id : string) : TerminalResult V :=
  mkTerminal v (Some request_id).

Definition missing_result : Error := Runtime "successful typed job did not contain a result".
Definition unparsed_result : Error := Runtime "failed to parse typed job result: {}".

(** [TerminalResult::decode], over [serde_json::from_value] *)
Definition decode {V T} (from_value : V → option T) (r : TerminalResult V) : result T :=
  match value r with
  | None => Err (match request_id r with Some id => Http id None | None => missing_result end)
  | Some v =>
      match from_value v with
      | Some t => Ok t
      | None => Err (match request_id r with Some id => Http id None | None => unparsed_result end)
      end
  end.

Definition into_terminal_result {V} (d : DescribeJobResponse V) (request_id : string)
    : TerminalResult V := remote (d_result d) request_id.

(** The lifecycle state a settled [JobHandle::wait] implies. *)
Definition terminal_state {V} (settled : result (TerminalResult V)) : option string :=
  match settled with
  | Ok _ => Some "finished"
  | Err (JobFailed _ _ _ _) => Some "failed"
  | Err (JobCancelled _) => Some "cancelled"
  | _ => None
  end.

(** ** remote/job.rs [RemoteJob]

    [fetch_description] is one round trip: it answers with the request id and
    the parsed envelope, or fails. *)
Class JobServer (V W : Type) : Type := {
  fetch_description : string → W → result (string * DescribeJobResponse V) * W;
  post_cancel : string → W → result unit * W;
  sleep : Z → W → W
}.

(** Durations in milliseconds. *)
Definition INITIAL_POLL_INTERVAL : Z := 200.
Definition MAX_POLL_INTERVAL : Z := 5000.

Section remote_job.
Context {V W : Type} `{JobServer V W}.

Definition remote_status (id : string) (w : W) : result string * W :=
  let '(r, w) := fetch_description id w in
  ((λ d, client_label (state_of (d_job_state d.2))) <$> r, w).

Definition remote_describe (id : string) (w : W) : result (JobDescription V) * W :=
  let '(r, w) := fetch_description id w in ((λ d, into_description d.2) <$> r, w).

(** What an answer settles: nothing while the state is not a terminal one. *)
Definition verdict (id : string) (answer : string * DescribeJobResponse V)
    : option (result (TerminalResult V)) :=
  let '(request_id, description) := answer in
  match state_of (d_job_state description) with
  | Done => Some (Ok (into_terminal_result description request_id))
  | Failed =>
      Some (Err (job_failed (Some id)
        (default default_failure (into_job_failure <$> d_failure description))))
  | Cancelled => Some (Err (JobCancelled (Some id)))
  | InProgress => None
  | OtherState _ => None
  end.

(** The loop of [RemoteJob::wait] *)
Fixpoint wait_loop (fuel : nat) (id : string) (interval : Z) (w : W)
    : option (result (TerminalResult V) * W) :=
  match fuel with
  | O => None
  | S fuel =>
      match fetch_description id w with
      | (Err e, w) => Some (Err e, w)
      | (Panic, w) => Some (Panic, w)
      | (Ok answer, w) =>
          match verdict id answer with
          | Some settled => Some (settled, w)
          | None =>
              wait_loop fuel id (Z.min (interval * 2) MAX_POLL_INTERVAL) (sleep interval w)
          end
      end
  end.

Definition remote_wait (fuel : nat) (id : string) (w : W) : option (result (TerminalResult V) * W) :=
  wait_loop fuel id INITIAL_POLL_INTERVAL w.
End remote_job.

(** ** An operation that runs as a task of this process *)
Inductive Outcome (V : Type) : Type :=
  | Succeeded (r : TerminalResult V)
  | OFailed (e : Error)
  | OCancelled.
Arguments Succeeded {V} r.
Arguments OFailed {V} e.
Arguments OCancelled {V}.

(** How a task ends: its own result, its abort, or a panic. *)
Inductive JoinResult (T : Type) : Type :=
  | Returned (r : T + Error)
  | Aborted
  | Panicked (message : string).
Arguments Returned {T} r.
Arguments Aborted {T}.
Arguments Panicked {T} message.

Section spawned.
Context {V T : Type} (to_value : T → option V) (display : Error → string).

(** [JobFailure::from_source] and [Outcome::into_result] *)
Definition from_source (e : Error) : JobFailure := mkFailure None (Some (display e)) None.
Definition into_result (o : Outcome V) : result (TerminalResult V) :=
  match o with
  | Succeeded r => Ok r
  | OFailed source => Err (job_failed None (from_source source))
  | OCancelled => Err (JobCancelled None)
  end.

(** What the watching task of [SpawnedJob::new_inner] sends. *)
Definition watched (joined : JoinResult T) : Outcome V :=
  match joined with
  | Returned (inl r) =>
      match to_value r with
      | Some v => Succeeded (local v)
      | None => OFailed (Runtime "failed to serialize job result: {err}")
      end
  | Returned (inr e) => OFailed e
  | Aborted => OCancelled
  | Panicked m => OFailed (Runtime ("job task failed: " ++ m))
  end.

(** The task, the abort handle, the watch channel and its sender. *)
Record Spawned : Type := mkSpawned {
  task : option (JoinResult T);
  abort_requested : bool;
  channel : option (Outcome V);
  sender_dropped : bool;
  has_cancellation : bool
}.

Definition spawned_new (has_cancellation : bool) : Spawned :=
  mkSpawned None false None false has_cancellation.

Definition spawned_status (s : Spawned) : string :=
  match channel s with
  | None => "running"
  | Some (Succeeded _) => "finished"
  | Some (OFailed _) => "failed"
  | Some OCancelled => "cancelled"
  end.

Definition dropped_error (what : string) : Error :=
  Runtime ("job outcome was dropped before " ++ what).

(** [outcome.wait_for(is_some)]: the value once there is one, an error when the
    sender is gone without one; [None] while it waits. *)
Definition wait_for (s : Spawned) (what : string) : option (result (Outcome V)) :=
  match channel s with
  | Some o => Some (Ok o)
  | None => if sender_dropped s then Some (Err (dropped_error what)) else None
  end.

(** [SpawnedJob::wait], when it returns *)
Definition spawned_wait (s : Spawned) : option (result (TerminalResult V)) :=
  (λ r, o ← r; into_result o) <$> wait_for s "it completed".

Definition abort (s : Spawned) : Spawned :=
  mkSpawned (task s) true (channel s) (sender_dropped s) (has_cancellation s).

(** [SpawnedJob::cancel] at the moment its [select!] has a branch ready, given
    what the cancellation callback has answered by then: biased, the outcome
    first. *)
Definition spawned_cancel (callback : option (result unit)) (s : Spawned)
    : option (result unit * Spawned) :=
  if has_cancellation s then
    match wait_for s "cancellation completed" with
    | Some settled => Some ((λ _, tt) <$> settled, s)
    | None =>
        match callback with
        | None => None
        | Some (Ok _) => Some (Ok tt, abort s)
        | Some r => Some (r, s)
        end
    end
  else Some (Ok tt, abort s).

(** What a caller observes. *)
Inductive Observation : Type :=
  | Waited (r : result (TerminalResult V))
  | Reported (label : string)
  | CancelAnswered (r : result unit).

(** The steps of the runtime and of the callers. *)
Inductive spawned_step : Spawned → option Observation → Spawned → Prop :=
  | task_ends s r : task s = None →
      spawned_step s None
        (mkSpawned (Some (Returned r)) (abort_requested s) (channel s) (sender_dropped s)
           (has_cancellation s))
  | task_panics s m : task s = None →
      spawned_step s None
        (mkSpawned (Some (Panicked m)) (abort_requested s) (channel s) (sender_dropped s)
           (has_cancellation s))
  | task_aborts s : task s = None → abort_requested s = true →
      spawned_step s None
        (mkSpawned (Some Aborted) (abort_requested s) (channel s) (sender_dropped s)
           (has_cancellation s))
  | watcher_sends s joined : task s = Some joined → sender_dropped s = false →
      spawned_step s None
        (mkSpawned (task s) (abort_requested s) (Some (watched joined)) true (has_cancellation s))
  | watcher_dropped s : sender_dropped s = false →
      spawned_step s None
        (mkSpawned (task s) (abort_requested s) (channel s) true (has_cancellation s))
  | waits s r : spawned_wait s = Some r → spawned_step s (Some (Waited r)) s
  | reports s : spawned_step s (Some (Reported (spawned_status s))) s
  | cancels s callback r s' : spawned_cancel callback s = Some (r, s') →
      spawned_step s (Some (CancelAnswered r)) s'.

(** A run with what the callers observe, in order. *)
Inductive spawned_run : Spawned → list Observation → Spawned → Prop :=
  | run_nil s : spawned_run s [] s
  | run_silent s s1 obs s' :
      spawned_step s None s1 → spawned_run s1 obs s' → spawned_run s obs s'
  | run_observed s o s1 obs s' :
      spawned_step s (Some o) s1 → spawned_run s1 obs s' → spawned_run s (o :: obs) s'.

(** The channel holds what the watching task makes of how the task ended. *)
Definition spawned_inv (s : Spawned) : Prop :=
  match channel s with
  | None => True
  | Some o => sender_dropped s = true ∧ ∃ joined, task s = Some joined ∧ o = watched joined
  end.

(** What never changes again. *)
Definition evolves (s s' : Spawned) : Prop :=
  spawned_inv s → spawned_inv s' ∧
    (∀ o, channel s = Some o → channel s' = Some o) ∧
    (∀ j, task s = Some j → task s' = Some j) ∧
    (sender_dropped s = true → sender_dropped s' = true ∧ channel s' = channel s) ∧
    has_cancellation s' = has_cancellation s.

Lemma evolves_refl s : evolves s s.
Proof. intros ?; split_and!; auto. Qed.

Lemma cancel_cases callback s r s' :
  spawned_cancel callback s = Some (r, s') → s' = s ∨ s' = abort s.
Proof.
  unfold spawned_cancel. destruct (has_cancellation s); [|intros [= <- <-]; by right].
  destruct (wait_for _ _); [intros [= <- <-]; by left|].
  destruct callback as [[[]|e|]|]; [| | |done]; intros [= <- <-]; auto.
Qed.

Lemma spawned_step_evolves s o s' : spawned_step s o s' → evolves s s'.
Proof.
  destruct 1 as [s r Ht|s m Ht|s Ht Ha|s j Ht Hs|s Hs|s r Hr|s|s cb r s' Hc].
  1-5: unfold evolves, spawned_inv; simpl; destruct (channel s) eqn:Hch; intros Hi;
    split_and!; try done; try (intros; congruence); try naive_solver.
  1, 2: apply evolves_refl.
  apply cancel_cases in Hc as [->| ->]; [apply evolves_refl|].
  by intros Hi; split_and!; auto.
Qed.

Lemma spawned_run_evolves s obs s' : spawned_run s obs s' → evolves s s'.
Proof.
  induction 1 as [|s s1 obs s' Hs _ IH|s o s1 obs s' Hs _ IH]; [apply evolves_refl|..];
    apply spawned_step_evolves in Hs; intros Hi; destruct (Hs Hi) as (Hi1 & Ho1 & Ht1 & Hd1 & Hc1);
    destruct (IH Hi1) as (Hi2 & Ho2 & Ht2 & Hd2 & Hc2);
    (split_and!; auto; [|congruence]); intros Hd; destruct (Hd1 Hd) as [Hd' <-]; auto.
Qed.

(** Once a waiter has an answer it is the answer of every later one. *)
Lemma wait_stable s s' r :
  evolves s s' → spawned_inv s → spawned_wait s = Some r → spawned_wait s' = Some r.
Proof.
  intros Hev Hi. destruct (Hev Hi) as (_ & Ho & _ & Hd & _). unfold spawned_wait, wait_for.
  destruct (channel s) as [o|] eqn:Hc; [by rewrite (Ho o)|].
  destruct (sender_dropped s) eqn:Hs; [|done]. by destruct (Hd eq_refl) as [-> ->].
Qed.

(** A label that agrees with the answer [r] of a waiter. *)
Definition agrees (r : result (TerminalResult V)) (o : Observation) : Prop :=
  match o with
  | Waited r' => r' = r
  | Reported l => Some l = terminal_state r ∨ r = Err (dropped_error "it completed") ∧ l = "running"
  | CancelAnswered _ => True
  end.

Lemma status_agrees s r : spawned_wait s = Some r → agrees r (Reported (spawned_status s)).
Proof.
  unfold spawned_wait, wait_for, spawned_status. simpl.
  destruct (channel s) as [[t|e|]|]; [by intros [= <-]; left..|].
  destruct (sender_dropped s); [|done]. intros [= <-]. by right.
Qed.

Lemma run_agrees s obs s' r :
  spawned_run s obs s' → spawned_inv s → spawned_wait s = Some r → Forall (agrees r) obs.
Proof.
  induction 1 as [|s s1 obs s' Hs _ IH|s o s1 obs s' Hs _ IH]; intros Hi Hr; [constructor|..];
    pose proof (spawned_step_evolves _ _ _ Hs) as Hev;
    pose proof (wait_stable _ _ _ Hev Hi Hr) as Hr1; destruct (Hev Hi) as [Hi1 _]; [by apply IH|].
  constructor; [|by apply IH]. inversion Hs; subst; simpl; [congruence|by apply status_agrees|done].
Qed.

(** What a waiter gets is what the watching task made of the task's end. *)
Lemma wait_verdict s r :
  spawned_inv s → spawned_wait s = Some r →
  (∃ j, task s = Some j ∧ r = into_result (watched j)) ∨ r = Err (dropped_error "it completed").
Proof.
  unfold spawned_inv, spawned_wait, wait_for. destruct (channel s) as [o|].
  - intros (_ & j & Hj & ->) [= <-]. left. by exists j.
  - intros _. destruct (sender_dropped s); [|done]. intros [= <-]. by right.
Qed.

Lemma run_app_inv s obs1 o obs2 s' :
  spawned_run s (obs1 ++ o :: obs2) s' →
  ∃ s1 s2, spawned_run s obs1 s1 ∧ spawned_step s1 (Some o) s2 ∧ spawned_run s2 obs2 s'.
Proof.
  remember (obs1 ++ o :: obs2) as obs eqn:Hobs. intros Hrun; revert obs1 Hobs.
  induction Hrun as [s|s s1 obs s' Hs Hr IH|s o' s1 obs s' Hs Hr IH]; intros obs1 Hobs.
  - by destruct obs1.
  - destruct (IH _ Hobs) as (s2 & s3 & ? & ? & ?). exists s2, s3. split_and!; [|done..].
    by eapply run_silent.
  - destruct obs1 as [|o1 obs1]; simplify_eq/=.
    + exists s, s1. split_and!; [constructor|done..].
    + destruct (IH _ eq_refl) as (s2 & s3 & ? & ? & ?). exists s2, s3. split_and!; [|done..].
      by eapply run_observed.
Qed.
End spawned.
(** ** The handle *)

(** The trait [JobHandle] (its event history aside); [wait] may not return. *)
Class JobHandle (V W : Type) : Type := {
  handle_id : option string;
  handle_status : W → result string * W;
  handle_wait : nat → W → option (result (TerminalResult V) * W);
  handle_cancel : W → result unit * W;
  handle_describe : W → result (JobDescription V) * W
}.

Definition job_detail_not_supported {A} (what : string) : result A :=
  Err (NotSupported (what ++ " is only available for server-side jobs")).

#[export] Instance remote_handle {V W} `{JobServer V W} (id : string) : JobHandle V W := {
  handle_id := Some id;
  handle_status := remote_status id;
  handle_wait fuel := remote_wait fuel id;
  handle_cancel := post_cancel id;
  handle_describe := remote_describe id
}.

(** A spawned job whose callback, if it has one, answers [callback]. *)
Definition spawned_handle {V T} (display : Error → string) (callback : result unit)
    : JobHandle V (Spawned (V:=V) (T:=T)) := {|
  handle_id := None;
  handle_status s := (Ok (spawned_status s), s);
  handle_wait _ s := (λ r, (r, s)) <$> spawned_wait display s;
  handle_cancel s := default (Ok tt, s) (spawned_cancel (Some callback) s);
  handle_describe s := (job_detail_not_supported "describing a job", s)
|}.

Inductive JobInner (V T : Type) : Type :=
  | Handle (decode : TerminalResult V → result T)
  | Completed (r : T).
Arguments Handle {V T} decode.
Arguments Completed {V T} r.

Record JobCache (V : Type) : Type := mkCache {
  c_state : option string;
  c_description : option (JobDescription V)
}.
Arguments mkCache {V}.
Arguments c_state {V}.
Arguments c_description {V}.

Record Job (V T : Type) : Type := mkJob {
  inner : JobInner V T;
  cache : JobCache V
}.
Arguments mkJob {V T}.
Arguments inner {V T}.
Arguments cache {V T}.

Definition new_done {V} : Job V unit := mkJob (Completed tt) (mkCache (Some "finished") None).
Definition new {V} : Job V unit := mkJob (Handle (λ _, Ok tt)) (mkCache None None).
Definition opened {V} (d : JobDescription V) : Job V unit :=
  mkJob (inner new) (mkCache (Some (state d)) (Some d)).
Definition new_typed {V T} (from_value : V → option T) : Job V T :=
  mkJob (Handle (decode from_value)) (mkCache None None).

(** The accessors of what was last observed *)
Definition job_state {V T} (j : Job V T) : option string := c_state (cache j).
Definition description {V T} (j : Job V T) : option (JobDescription V) := c_description (cache j).
Definition with_description {V T R} (j : Job V T) (read : JobDescription V → R) : option R :=
  read <$> c_description (cache j).
Definition job_result {V T} (j : Job V T) : option V := mjoin (with_description j result_value).
Definition job_failure {V T} (j : Job V T) : option JobFailure := mjoin (with_description j failure).

Section job.
Context {V T W : Type} `{JobHandle V W}.

Definition set_state (j : Job V T) (s : string) : Job V T :=
  mkJob (inner j) (mkCache (Some s) (c_description (cache j))).

Definition refresh_state (j : Job V T) (w : W) : result string * Job V T * W :=
  match inner j with
  | Completed _ => (Ok "finished", set_state j "finished", w)
  | Handle _ =>
      match handle_describe w with
      | (Ok d, w) => (Ok (state d), mkJob (inner j) (mkCache (Some (state d)) (Some d)), w)
      | (Err (NotSupported _), w) =>
          match handle_status w with
          | (Ok s, w) => (Ok s, set_state j s, w)
          | (r, w) => (r, j, w)
          end
      | (Err e, w) => (Err e, j, w)
      | (Panic, w) => (Panic, j, w)
      end
  end.

Definition job_wait (fuel : nat) (j : Job V T) (w : W) : option (result T * Job V T * W) :=
  match inner j with
  | Completed r => Some (Ok r, set_state j "finished", w)
  | Handle decode =>
      match handle_wait fuel w with
      | None => None
      | Some (settled, w) =>
          let j := match terminal_state settled with Some s => set_state j s | None => j end in
          Some (settled ≫= decode, j, w)
      end
  end.

Definition job_cancel (j : Job V T) (w : W) : result unit * W :=
  match inner j with
  | Handle _ => handle_cancel w
  | Completed _ => (Ok tt, w)
  end.
End job.

Definition job_map {V T U} (f : T → U) (j : Job V T) : Job V U :=
  match inner j with
  | Handle decode => mkJob (Handle (λ r, f <$> decode r)) (cache j)
  | Completed r => mkJob (Completed (f r)) (cache j)
  end.

(** ** Properties *)
Section remote_properties.
Context {V W : Type} `{JobServer V W} (id : string).

(** The wait before poll [k + 1], and the world at poll [k]. *)
Fixpoint interval_at (k : nat) : Z :=
  match k with
  | O => INITIAL_POLL_INTERVAL
  | S j => Z.min (interval_at j * 2) MAX_POLL_INTERVAL
  end.
Fixpoint poll_at (k : nat) (w : W) : W :=
  match k with
  | O => w
  | S j => sleep (interval_at j) (fetch_description id (poll_at j w)).2
  end.

(** What the answer to a poll settles: its verdict, or its own failure. *)
Definition settles (answer : result (string * DescribeJobResponse V))
    : option (result (TerminalResult V)) :=
  match answer with
  | Ok a => verdict id a
  | Err e => Some (Err e)
  | Panic => Some Panic
  end.

Lemma wait_loop_spec fuel n w r w' :
  wait_loop fuel id (interval_at n) (poll_at n w) = Some (r, w') ↔
  ∃ k, n ≤ k < n + fuel ∧ settles (fetch_description id (poll_at k w)).1 = Some r ∧
    w' = (fetch_description id (poll_at k w)).2 ∧
    ∀ j, n ≤ j < k → settles (fetch_description id (poll_at j w)).1 = None.
Proof.
  revert n; induction fuel as [|fuel IH]; intros n.
  { split; [done|]. intros (k & ? & _). lia. }
  cbn [wait_loop]. destruct (fetch_description id (poll_at n w)) as [a w1] eqn:Hf.
  destruct (settles a) as [r0|] eqn:Hs.
  - assert (∀ x, (match a with
      | Ok answer => match verdict id answer with Some settled => Some (settled, w1)
          | None => wait_loop fuel id (Z.min (interval_at n * 2) MAX_POLL_INTERVAL) (sleep (interval_at n) w1) end
      | Err e => Some (Err e, w1) | Panic => Some (Panic, w1) end = Some x) ↔ x = (r0, w1)) as Hx.
    { intros x. destruct a as [a|e|]; simpl in Hs; [rewrite Hs|..]; naive_solver. }
    destruct a; simpl in *; rewrite Hx; clear Hx; (split;
      [intros [= -> ->]; exists n; rewrite Hf; split_and!; simpl; try done; try lia; intros; lia
      |intros (k & Hk & Hs' & -> & Hj); destruct (decide (k = n)) as [->|];
        [by rewrite Hf in Hs' |- *; simpl in *; simplify_eq
        |specialize (Hj n); rewrite Hf in Hj; simpl in Hj; rewrite Hs in Hj; by discriminate Hj; lia]]).
  - destruct a as [a|e|]; [|done..]. simpl in Hs. rewrite Hs.
    specialize (IH (S n)). cbn [interval_at poll_at] in IH. rewrite Hf in IH. simpl in IH. rewrite IH.
    split.
    + intros (k & ? & ? & ? & Hj). exists k. split_and!; [lia|lia|done|done|].
      intros j ?. destruct (decide (j = n)) as [->|]; [by rewrite Hf|apply Hj; lia].
    + intros (k & ? & Hk & ? & Hj). exists k. destruct (decide (k = n)) as [->|].
      { rewrite Hf in Hk. simpl in Hk. congruence. }
      split_and!; [lia|lia|done|done|]. intros j ?. apply Hj. lia.
Qed.

Lemma interval_doubles k : interval_at k = Z.min (200 * 2 ^ Z.of_nat k) 5000.
Proof.
  induction k as [|k IH]; [done|]. cbn [interval_at]. rewrite IH, Nat2Z.inj_succ, Z.pow_succ_r by lia.
  unfold MAX_POLL_INTERVAL. pose proof (Z.pow_pos_nonneg 2 (Z.of_nat k)). lia.
Qed.

(** The states in which a job has ended, by the names the server gives them, and
    what a waiter is then owed; a poll that fails ends the wait as well. *)
Inductive ends : result (string * DescribeJobResponse V) → result (TerminalResult V) → Prop :=
  | ends_finished request d : d_job_state d ∈ ["DONE"; "done"; "succeeded"] →
      ends (Ok (request, d)) (Ok (mkTerminal (d_result d) (Some request)))
  | ends_failed request d f : d_job_state d ∈ ["FAILED"; "failed"; "TIMED_OUT"; "timed_out"] →
      d_failure d = Some f →
      ends (Ok (request, d)) (Err (JobFailed (Some id) (r_phase f) (r_message f) (r_retryable f)))
  | ends_failed_untold request d : d_job_state d ∈ ["FAILED"; "failed"; "TIMED_OUT"; "timed_out"] →
      d_failure d = None → ends (Ok (request, d)) (Err (JobFailed (Some id) None None None))
  | ends_cancelled request d : d_job_state d ∈ ["CANCELLED"; "cancelled"; "canceled"] →
      ends (Ok (request, d)) (Err (JobCancelled (Some id)))
  | ends_unanswered e : ends (Err e) (Err e)
  | ends_panic : ends Panic Panic.
Definition named (state : JobState) (s : string) : Prop :=
  match state with
  | Done => s ∈ ["DONE"; "done"; "succeeded"]
  | Failed => s ∈ ["FAILED"; "failed"; "TIMED_OUT"; "timed_out"]
  | Cancelled => s ∈ ["CANCELLED"; "cancelled"; "canceled"]
  | _ => True
  end.
Lemma state_of_named s : named (state_of s) s.
Proof. unfold state_of. repeat case_match; first [exact I|repeat (first [by left|right])]. Qed.
Lemma state_of_names s :
  (state_of s = Done ↔ named Done s) ∧ (state_of s = Failed ↔ named Failed s) ∧ (state_of s = Cancelled ↔ named Cancelled s).
Proof.
  pose proof (state_of_named s) as Hn.
  split_and!; (split; [by intros Hs; rewrite Hs in Hn|]);
    intros Hin; repeat (apply elem_of_cons in Hin as [->|Hin]; [done|]); by apply elem_of_nil in Hin.
Qed.
Lemma settles_ends a r : settles a = Some r ↔ ends a r.
Proof.
  destruct a as [[request d]|e|]; cbn [settles].
  2, 3: split; [intros [= <-]; constructor|by inversion 1].
  destruct (state_of_names (d_job_state d)) as (Hd & Hf & Hc). unfold verdict. split.
  - destruct (state_of (d_job_state d)) eqn:Hs; try done; intros [= <-].
    + apply ends_cancelled. by apply Hc.
    + destruct (d_failure d) as [f|] eqn:Ef; cbn; [eapply ends_failed|apply ends_failed_untold]; try done; by apply Hf.
    + apply ends_finished. by apply Hd.
  - inversion 1 as [? ? Hin|? ? ? Hin Ef|? ? Hin Ef|? ? Hin| |]; subst.
    + by rewrite (proj2 Hd Hin).
    + by rewrite (proj2 Hf Hin), Ef.
    + by rewrite (proj2 Hf Hin), Ef.
    + by rewrite (proj2 Hc Hin).
Qed.

(** C12: Waiting for a server-side job returns if and only if some poll gets an
    answer that ends it: a state by one of the names of a finished, failed or
    cancelled job, or a failure to ask.  It then returns what the first such
    answer owes, right after that poll; any other state, known or not, goes on.
    Poll [k + 1] comes [min(200 ms * 2^k, 5 s)] after poll [k]. *)
Theorem remote_wait_returns (w : W) (r : result (TerminalResult V)) :
  (∃ fuel w', remote_wait fuel id w = Some (r, w')) ↔
  (∃ k, ends (fetch_description id (poll_at k w)).1 r ∧
     (∀ j r', j < k → ¬ ends (fetch_description id (poll_at j w)).1 r') ∧
     (∀ fuel, k < fuel → remote_wait fuel id w = Some (r, (fetch_description id (poll_at k w)).2)) ∧
     ∀ j, interval_at j = Z.min (200 * 2 ^ Z.of_nat j) 5000).
Proof.
  split.
  - intros (fuel & w' & Hw). apply (wait_loop_spec fuel 0) in Hw as (k & Hk & Hs & -> & Hj).
    exists k. split_and!; [by apply settles_ends| | |apply interval_doubles].
    + intros j r' Hjk He%settles_ends. rewrite Hj in He; [done|lia].
    + intros fuel' Hf. apply (wait_loop_spec fuel' 0). exists k. split_and!; [lia|lia|done..].
  - intros (k & _ & _ & Hf & _). exists (S k). eexists. apply Hf. lia.
Qed.

Lemma verdict_state (a : string * DescribeJobResponse V) r :
  verdict id a = Some r → terminal_state r = Some (job_state_to_client (d_job_state a.2)).
Proof.
  destruct a as [req d]. unfold verdict, job_state_to_client. simpl.
  destruct (state_of (d_job_state d)); intros [= <-]; done.
Qed.

(** What a handle records when it waits for a server-side job.  When the
    wait ends with a verdict, the recorded state is the client's name of the
    state the server reported in that very answer, also when the result then
    cannot be decoded; when it ends because the server could not be reached,
    the handle is as before. *)
Theorem job_wait_records {T} (from_result : TerminalResult V → result T) (known : JobCache V)
    (fuel : nat) (w w' : W) (r : result T) (j' : Job V T)
    (Hwait : job_wait (H:=remote_handle id) fuel (mkJob (Handle from_result) known) w
             = Some (r, j', w')) :
  ∃ k answer, fetch_description id (poll_at k w) = (answer, w') ∧
    match answer with
    | Ok a => ∃ settled, verdict id a = Some settled ∧ r = (settled ≫= from_result) ∧
        j' = mkJob (Handle from_result)
               (mkCache (Some (job_state_to_client (d_job_state a.2))) (c_description known))
    | Err e => r = Err e ∧
        (terminal_state (V:=V) (Err e) = None → j' = mkJob (Handle from_result) known)
    | Panic => r = Panic
    end.
Proof.
  unfold job_wait in Hwait. simpl in Hwait.
  destruct (remote_wait fuel id w) as [[settled w1]|] eqn:Hw; [|done]. injection Hwait as <- <- <-.
  apply (wait_loop_spec fuel 0) in Hw as (k & _ & Hs & -> & _). exists k.
  destruct (fetch_description id (poll_at k w)) as [answer w2]. simpl in *. exists answer.
  split; [done|]. destruct answer as [a|e|]; simpl in Hs.
  - exists settled. by rewrite (verdict_state a settled Hs).
  - injection Hs as <-. split; [done|]. by destruct e.
  - by injection Hs as <-.
Qed.
End remote_properties.

(** A server whose job is in progress for two polls and then done. *)
Module CountingServer.
#[global] Instance server : JobServer nat nat := {
  fetch_description id n :=
    (Ok ("req", mkDescribe id "refresh" (if n <? 2 then "IN_PROGRESS" else "succeeded") 0 0
                  (Some n) None), S n);
  post_cancel _ n := (Ok tt, n);
  sleep _ n := n
}.
End CountingServer.

Lemma job_wait_records_witness :
  ∃ k answer, fetch_description "j" (poll_at (W:=nat) "j" k 0) = (answer, 3) ∧
    match answer with
    | Ok a => ∃ settled, verdict "j" a = Some settled ∧
        (Ok 2 : result nat) = (settled ≫= decode Some) ∧
        mkJob (Handle (decode (V:=nat) Some)) (mkCache (Some "finished") None)
        = mkJob (Handle (decode Some))
            (mkCache (Some (job_state_to_client (d_job_state a.2))) None)
    | Err e => (Ok 2 : result nat) = Err e ∧ (terminal_state (V:=nat) (Err e) = None →
        mkJob (Handle (decode (V:=nat) Some)) (mkCache (Some "finished") None)
        = mkJob (Handle (decode Some)) (mkCache None None))
    | Panic => (Ok 2 : result nat) = Panic
    end.
Proof.
  exact (job_wait_records "j" (decode Some) (mkCache None None) 5 0 3 (Ok 2)
    (mkJob (Handle (decode Some)) (mkCache (Some "finished") None)) eq_refl).
Defined.

(** The mapped handle waits for the same job. *)
Lemma map_wait {V T U W} `{JobHandle V W} (f : T → U) fuel (j : Job V T) (w : W) :
  job_wait fuel (job_map f j) w =
  (λ x : result T * Job V T * W, (f <$> x.1.1, job_map f x.1.2, x.2)) <$> job_wait fuel j w.
Proof.
  destruct j as [[dec|t] [st d]]; unfold job_map, job_wait; simpl; [|done].
  destruct (handle_wait fuel w) as [[settled w']|]; [|done]. simpl.
  destruct settled as [a|e|]; simpl; [by destruct (dec a)|by destruct e|done].
Qed.

(** The client's names are fixed points of the translation. *)
Lemma job_state_to_client_idempotent s :
  job_state_to_client (job_state_to_client s) = job_state_to_client s.
Proof.
  assert (∀ s x, state_of s = OtherState x → state_of x = OtherState x) as Hother.
  { clear. intros s x. unfold state_of at 1. repeat case_match; try done; by intros [= <-]. }
  unfold job_state_to_client. destruct (state_of s) as [| | | |x] eqn:Hs; simpl; [done..|].
  by rewrite (Hother s x Hs).
Qed.

(** In-process jobs: once a waiter has an answer, every later waiter gets
    the same one and every later status agrees with it, whatever the task, the
    watching task and the callers (cancellations included) do meanwhile.  The
    answer is what the watching task made of the way the task really ended:
    cancelling an operation that had already ended changes nothing. *)
Theorem spawned_waiters_agree {V T} (to_value : T → option V) (display : Error → string)
    (cancellable : bool) (before after : list Observation) (r : result (TerminalResult V))
    (s' : Spawned)
    (Hrun : spawned_run to_value display (spawned_new cancellable) (before ++ Waited r :: after) s') :
  Forall (agrees r) after ∧ spawned_wait display s' = Some r ∧
  ((∃ j, task s' = Some j ∧ r = into_result display (watched to_value j)) ∨
   r = Err (dropped_error "it completed")).
Proof.
  apply run_app_inv in Hrun as (s1 & s2 & Hr1 & Hs & Hr2).
  assert (spawned_inv to_value (spawned_new cancellable)) as Hi0 by done.
  destruct (spawned_run_evolves _ _ _ _ _ Hr1 Hi0) as [Hi1 _].
  assert (spawned_wait display s1 = Some r ∧ s2 = s1) as [Hw ->] by by inversion Hs.
  pose proof (spawned_run_evolves _ _ _ _ _ Hr2) as Hev.
  pose proof (wait_stable _ _ _ _ _ Hev Hi1 Hw) as Hw'. destruct (Hev Hi1) as [Hi' _].
  split_and!; [by eapply run_agrees|done|by eapply wait_verdict].
Qed.

Lemma spawned_waiters_agree_witness :
  let s := mkSpawned (V:=nat) (T:=nat) (Some (Returned (inl 41))) true (Some (Succeeded (local 41))) true false in
  let r : result (TerminalResult nat) := Ok (local 41) in
  Forall (agrees r) [CancelAnswered (Ok tt); Reported "finished"; Waited r] ∧
  spawned_wait (λ _, EmptyString) s = Some r ∧
  ((∃ j, task s = Some j ∧ r = into_result (λ _, EmptyString) (watched Some j)) ∨
   r = Err (dropped_error "it completed")).
Proof.
  intros s r.
  apply (spawned_waiters_agree Some (λ _, EmptyString) false [Reported "running"]
    [CancelAnswered (Ok tt); Reported "finished"; Waited r] r s).
  eapply run_observed; [apply reports|].
  eapply run_silent; [by apply (task_ends _ _ _ (inl 41))|].
  eapply run_silent; [by eapply watcher_sends|].
  eapply run_observed; [by apply waits|].
  eapply run_observed; [by apply (cancels _ _ _ None)|].
  eapply run_observed; [apply reports|].
  eapply run_observed; [by apply waits|]. apply run_nil.
Defined.
End Jobs.
