(* ===== verification/WriteProgress.v ===== *)
(** * Progress of a write (rust/lancedb/src/table/write_progress.rs)

    The tracker that the parallel tasks of a write share, with the callbacks it
    has made.  Each operation is split into its atomic steps: what happens under
    the lock of the callback is one step, and the addition to the wire bytes,
    which happens before the lock is taken, is another.  A concurrent write is
    any interleaving of such steps, so the theorems quantify over all lists of
    them. *)

From S2P Require Import Prelude.
From Stdlib Require Import Sorting.Sorted.

Module WriteProgress.

Record WriteProgress : Type := mkProgress {
  elapsed : Z;
  output_rows : Z;
  output_bytes : Z;
  progress_total_rows : option Z;
  progress_active_tasks : Z;
  progress_total_tasks : Z;
  done : bool
}.

(** The tracker; [calls] are the snapshots its callback was given, latest
    first, and [now] is the clock. *)
Record WriteProgressTracker : Type := mkTracker {
  rows : Z;
  bytes : Z;
  wire_bytes : Z;
  active_tasks : Z;
  total_tasks : Z;
  start : Z;
  total_rows : option Z;
  now : Z;
  calls : list WriteProgress
}.

Definition new (total_rows : option Z) (now : Z) : WriteProgressTracker :=
  mkTracker 0 0 0 0 1 now total_rows now [].

Definition snapshot (t : WriteProgressTracker) (rows in_memory_bytes : Z) (done : bool)
    : WriteProgress :=
  let wire := wire_bytes t in
  let output_bytes := if (0 <? wire)%Z then wire else in_memory_bytes in
  mkProgress (now t - start t) rows output_bytes (total_rows t) (active_tasks t) (total_tasks t) done.

Definition call (t : WriteProgressTracker) (p : WriteProgress) : WriteProgressTracker :=
  mkTracker (rows t) (bytes t) (wire_bytes t) (active_tasks t) (total_tasks t) (start t)
    (total_rows t) (now t) (p :: calls t).

(** [AtomicUsize::fetch_add] and [fetch_sub] wrap around. *)
Definition wrap (z : Z) : Z := z mod U64.

Definition set_total_tasks (n : Z) (t : WriteProgressTracker) : WriteProgressTracker :=
  mkTracker (rows t) (bytes t) (wire_bytes t) (active_tasks t) n (start t) (total_rows t) (now t)
    (calls t).

Definition set_active (n : Z) (t : WriteProgressTracker) : WriteProgressTracker :=
  mkTracker (rows t) (bytes t) (wire_bytes t) n (total_tasks t) (start t) (total_rows t) (now t)
    (calls t).
(** The guard's creation and its drop *)
Definition track_task (t : WriteProgressTracker) : WriteProgressTracker :=
  set_active (wrap (active_tasks t + 1)) t.
Definition drop_task (t : WriteProgressTracker) : WriteProgressTracker :=
  set_active (wrap (active_tasks t - 1)) t.

Section progress.
Context {prof : Profile}.

(** [record_batch], under the lock of the callback *)
Definition record_batch (r b : Z) (t : WriteProgressTracker) : result WriteProgressTracker :=
  rows' ← u64_add (rows t) r;
  bytes' ← u64_add (bytes t) b;
  let t := mkTracker rows' bytes' (wire_bytes t) (active_tasks t) (total_tasks t) (start t)
             (total_rows t) (now t) (calls t) in
  Ok (call t (snapshot t rows' bytes' false)).

(** [record_bytes]: the addition before the lock, and what happens under it *)
Definition add_wire_bytes (b : Z) (t : WriteProgressTracker) : WriteProgressTracker :=
  mkTracker (rows t) (bytes t) (wrap (wire_bytes t + b)) (active_tasks t) (total_tasks t) (start t)
    (total_rows t) (now t) (calls t).
Definition report (t : WriteProgressTracker) : WriteProgressTracker :=
  call t (snapshot t (rows t) (bytes t) false).

Definition finish (t : WriteProgressTracker) : WriteProgressTracker :=
  let s := snapshot t (rows t) (bytes t) true in
  call t (mkProgress (elapsed s) (output_rows s) (output_bytes s)
            (Some (default (rows t) (total_rows t))) (progress_active_tasks s)
            (progress_total_tasks s) (done s)).

(** [FinishOnDrop::drop] of a guard that may hold the tracker *)
Definition finish_on_drop (holds : bool) (t : WriteProgressTracker) : WriteProgressTracker :=
  if holds then finish t else t.

(** The atomic steps of the tasks of a write, and the passing of time. *)
Inductive Step : Type :=
  | Batch (rows bytes : Z)
  | AddWire (bytes : Z)
  | Report
  | Track
  | Drop
  | SetTotal (n : Z)
  | Tick (d : Z).

Definition exec (s : Step) (t : WriteProgressTracker) : result WriteProgressTracker :=
  match s with
  | Batch r b => record_batch r b t
  | AddWire b => Ok (add_wire_bytes b t)
  | Report => Ok (report t)
  | Track => Ok (track_task t)
  | Drop => Ok (drop_task t)
  | SetTotal n => Ok (set_total_tasks n t)
  | Tick d => Ok (mkTracker (rows t) (bytes t) (wire_bytes t) (active_tasks t) (total_tasks t)
                    (start t) (total_rows t) (now t + d) (calls t))
  end.

Fixpoint exec_all (steps : list Step) (t : WriteProgressTracker) : result WriteProgressTracker :=
  match steps with
  | [] => Ok t
  | s :: steps => t ← exec s t; exec_all steps t
  end.

(** What the steps add up to. *)
Definition batch_rows (s : Step) : Z := match s with Batch r _ => r | _ => 0 end.
Definition batch_bytes (s : Step) : Z := match s with Batch _ b => b | _ => 0 end.
Definition wire (s : Step) : Z := match s with AddWire b => b | _ => 0 end.
Definition task_delta (s : Step) : Z := match s with Track => 1 | Drop => -1 | _ => 0 end.
Definition sums (f : Step → Z) (steps : list Step) : Z := zsum (f <$> steps).

(** Sizes are not negative, time does not go back, a guard is dropped after it
    was made, and the totals fit in a [usize]. *)
Definition step_ok (s : Step) : Prop :=
  match s with
  | Batch r b => (0 ≤ r ∧ 0 ≤ b)%Z
  | AddWire b => (0 ≤ b)%Z
  | Tick d => (0 ≤ d)%Z
  | _ => True
  end.
Definition run_ok (steps : list Step) : Prop :=
  Forall step_ok steps ∧
  (sums batch_rows steps < U64)%Z ∧ (sums batch_bytes steps < U64)%Z ∧
  (sums wire steps < U64)%Z ∧
  ∀ pre, pre `prefix_of` steps → u64_range (sums task_delta pre).

Lemma sums_app f a b : sums f (a ++ b) = (sums f a + sums f b)%Z.
Proof. unfold sums. by rewrite fmap_app, zsum_app. Qed.

Lemma sums_snoc f a s : sums f (a ++ [s]) = (sums f a + f s)%Z.
Proof. rewrite sums_app. unfold sums. simpl. lia. Qed.

Lemma exec_all_app a b t : exec_all (a ++ b) t = (t' ← exec_all a t; exec_all b t').
Proof.
  revert t; induction a as [|s a IH]; intros t; simpl; [done|].
  destruct (exec s t); simpl; [apply IH|done..].
Qed.

(** Earlier snapshots report no more rows and no later time. *)
Definition later (p q : WriteProgress) : Prop :=
  (output_rows q ≤ output_rows p ∧ elapsed q ≤ elapsed p)%Z.

(** The state after the steps [steps] of a run that started at [t0]. *)
Record tracks (t0 t : WriteProgressTracker) (steps : list Step) : Prop := {
  tracks_rows : rows t = sums batch_rows steps;
  tracks_bytes : bytes t = sums batch_bytes steps;
  tracks_wire : wire_bytes t = sums wire steps;
  tracks_active : active_tasks t = sums task_delta steps;
  tracks_start : start t = start t0 ∧ total_rows t = total_rows t0 ∧ (start t ≤ now t)%Z;
  tracks_calls : StronglySorted later (calls t);
  tracks_last : Forall (λ p, output_rows p ≤ rows t ∧ elapsed p ≤ now t - start t)%Z (calls t);
  tracks_done : Forall (λ p, done p = false) (calls t)
}.

Lemma sums_nonneg (f : Step → Z) steps :
  (∀ s, step_ok s → (0 ≤ f s)%Z) → Forall step_ok steps → (0 ≤ sums f steps)%Z.
Proof.
  intros Hf Hs. apply zsum_nonneg, Forall_fmap. eapply Forall_impl; [exact Hs|]. apply Hf.
Qed.

Lemma run_ok_init steps s : run_ok (steps ++ [s]) → run_ok steps ∧ step_ok s ∧
  (sums batch_rows steps + batch_rows s < U64)%Z ∧ (sums batch_bytes steps + batch_bytes s < U64)%Z ∧
  (sums wire steps + wire s < U64)%Z ∧ u64_range (sums task_delta steps + task_delta s).
Proof.
  intros (Hs & Hr & Hb & Hw & Ht). rewrite !sums_snoc in *.
  apply Forall_app in Hs as [Hs Hs1]. rewrite Forall_singleton in Hs1.
  assert ((0 ≤ batch_rows s ∧ 0 ≤ batch_bytes s ∧ 0 ≤ wire s)%Z) as (? & ? & ?)
    by (destruct s; simpl in *; lia).
  split; [split_and!; [done|lia|lia|lia|]; intros pre Hpre; apply Ht; by apply prefix_app_r|].
  split_and!; [done..|]. rewrite <- sums_snoc. by apply Ht.
Qed.

Lemma wrap_ok z : u64_range z → wrap z = z.
Proof. intros. unfold wrap. by apply Z.mod_small. Qed.

(** A callback that reports the present rows and time comes later than all. *)
Lemma call_later t p :
  output_rows p = rows t → elapsed p = (now t - start t)%Z →
  StronglySorted later (calls t) →
  Forall (λ p, output_rows p ≤ rows t ∧ elapsed p ≤ now t - start t)%Z (calls t) →
  StronglySorted later (p :: calls t) ∧
  Forall (λ p, output_rows p ≤ rows t ∧ elapsed p ≤ now t - start t)%Z (p :: calls t).
Proof.
  intros Hr He Hs Hl. split.
  - constructor; [done|]. eapply Forall_impl; [exact Hl|]. unfold later. simpl. lia.
  - constructor; [lia|done].
Qed.

Lemma exec_tracks t0 t t' steps s :
  run_ok (steps ++ [s]) → tracks t0 t steps → exec s t = Ok t' → tracks t0 t' (steps ++ [s]).
Proof.
  intros Hok [Hr Hb Hw Ha (Hst & Htr & Hnow) Hc Hl Hd] He.
  apply run_ok_init in Hok as ((Hs & _) & Hsok & Hr1 & Hb1 & Hw1 & Ht1).
  assert (0 ≤ sums batch_rows steps ∧ 0 ≤ sums batch_bytes steps ∧ 0 ≤ sums wire steps)%Z
    as (? & ? & ?).
  { split_and!; apply sums_nonneg; try done; intros [] ?; simpl in *; lia. }
  destruct s as [r b|b| | | |n|d]; simpl in *.
  - unfold record_batch, u64_add in He. rewrite Hr, Hb in He.
    rewrite !u64_arith_ok in He by (unfold u64_range; lia). run_ok. injection He as <-.
    destruct (call_later (mkTracker (sums batch_rows steps + r) (sums batch_bytes steps + b)
      (wire_bytes t) (active_tasks t) (total_tasks t) (start t) (total_rows t) (now t) (calls t))
      (snapshot t (sums batch_rows steps + r) (sums batch_bytes steps + b) false)) as [??]; try done.
    { simpl. eapply Forall_impl; [exact Hl|]. simpl. lia. }
    split; rewrite ?sums_snoc; simpl; try done; try lia. by constructor.
  - injection He as <-. split; rewrite ?sums_snoc; simpl; try done; try lia.
    rewrite Hw. apply wrap_ok. unfold u64_range. lia.
  - injection He as <-. destruct (call_later t (snapshot t (rows t) (bytes t) false)) as [??]; try done.
    split; rewrite ?sums_snoc; simpl; try done; try lia. by constructor.
  - injection He as <-. split; rewrite ?sums_snoc; simpl; try done; try lia.
    rewrite Ha. by apply wrap_ok.
  - injection He as <-. split; rewrite ?sums_snoc; simpl; try done; try lia.
    rewrite Ha. by apply wrap_ok.
  - injection He as <-. split; rewrite ?sums_snoc; simpl; try done; lia.
  - injection He as <-. split; rewrite ?sums_snoc; simpl; try done; try lia.
    + split_and!; [done..|lia].
    + eapply Forall_impl; [exact Hl|]. simpl. lia.
Qed.

Lemma run_tracks steps total t0 :
  run_ok steps → ∃ t, exec_all steps (new total t0) = Ok t ∧ tracks (new total t0) t steps.
Proof.
  induction steps as [|s steps IH] using rev_ind; intros Hok.
  { eexists; split; [done|]. split; simpl; try done; by constructor. }
  destruct IH as (t & He & Ht); [by apply run_ok_init in Hok as [? _]|].
  assert (∃ t', exec s t = Ok t') as [t' Hs].
  { apply run_ok_init in Hok as ((Hs & _) & Hsok & Hr1 & Hb1 & _).
    assert (0 ≤ sums batch_rows steps ∧ 0 ≤ sums batch_bytes steps)%Z as (? & ?).
    { split; apply sums_nonneg; try done; intros [] ?; simpl in *; lia. }
    destruct Ht as [Hr Hb _ _ _ _ _ _]. destruct s as [r b|b| | | |n|d]; try by eexists.
    simpl in *. unfold record_batch, u64_add. rewrite Hr, Hb, !u64_arith_ok by (unfold u64_range; lia).
    by eexists. }
  exists t'. split; [|by eapply exec_tracks].
  rewrite exec_all_app, He. simpl. by rewrite Hs.
Qed.

(** ** Properties *)

(** The callbacks of a write, in whatever way its parallel tasks
    interleave.  None of them panics; the rows and the time they report never
    go back; every callback before [finish] says that the write is not done.
    The last one, when the guard that finishes the write is dropped, says that
    it is, with the rows of all batches, the bytes handed to the writer (or the
    bytes in memory when the writer reports none), a total that is always
    known, and the tasks still running. *)
Theorem progress_timeline (steps : list Step) (total : option Z) (t0 : Z)
    (Hok : run_ok steps) :
  ∃ t, exec_all steps (new total t0) = Ok t ∧
    StronglySorted later (calls (finish_on_drop true t)) ∧
    Forall (λ p, done p = false) (calls t) ∧
    head (calls (finish_on_drop true t)) = Some {|
      elapsed := now t - start t;
      output_rows := sums batch_rows steps;
      output_bytes := if (0 <? sums wire steps)%Z then sums wire steps else sums batch_bytes steps;
      progress_total_rows := Some (default (sums batch_rows steps) total);
      progress_active_tasks := sums task_delta steps;
      progress_total_tasks := total_tasks t;
      done := true
    |}.
Proof.
  destruct (run_tracks steps total t0 Hok) as (t & He & [Hr Hb Hw Ha (Hst & Htr & _) Hc Hl Hd]).
  exists t. split; [done|]. split.
  { unfold finish_on_drop, finish. by apply call_later. }
  split; [done|]. simpl. by rewrite Hr, Hb, Hw, Ha, Htr.
Qed.

(** The bytes reported may go down when the writer starts to report its own. *)
Lemma output_bytes_can_drop :
  output_bytes <$> default [] (match exec_all [Batch 10 1000; AddWire 16; Report] (new None 0) with
    | Ok t => Some (calls t) | _ => None end) = [16; 1000]%Z.
Proof. by vm_compute. Qed.
End progress.

Lemma progress_timeline_witness :
  let steps := [Track; Batch 3 100; AddWire 40; Tick 5; Track; Report; Batch 4 120; Drop; AddWire 60;
                Drop] in
  ∃ t, exec_all (prof:=true) steps (new None 7) = Ok t ∧
    StronglySorted later (calls (finish_on_drop true t)) ∧
    Forall (λ p, done p = false) (calls t) ∧
    head (calls (finish_on_drop true t)) = Some {|
      elapsed := now t - start t;
      output_rows := 7;
      output_bytes := 100;
      progress_total_rows := Some 7%Z;
      progress_active_tasks := 0;
      progress_total_tasks := total_tasks t;
      done := true
    |}.
Proof.
  intros steps. apply (progress_timeline (prof:=true) steps None 7).
  split; [unfold step_ok; repeat constructor; lia|]. split_and!; [by vm_compute..|].
  intros pre Hpre. assert (pre ∈ ((λ n, take n steps) <$> seq 0 11)) as Hin.
  { destruct Hpre as [suf Heq]. apply list_elem_of_fmap. exists (length pre). split.
    - by rewrite Heq, take_app_length.
    - apply elem_of_seq. assert (length steps = 10) as Hlen by done. rewrite Heq, length_app in Hlen. lia. }
  assert (forallb (λ p, u64_in_range (sums task_delta p)) ((λ n, take n steps) <$> seq 0 11) = true)
    as Hall by by vm_compute.
  rewrite forallb_forall in Hall. apply u64_in_range_spec, Hall. by apply list_elem_of_In.
Defined.
End WriteProgress.
