(* ===== verification/WalFusion.v ===== *)
(** * Hybrid search on tables with a write path (rust/lancedb/src/query/wal_fusion.rs)

    Such a table refuses row ids, so the two legs of a hybrid search are joined
    on ids made from the primary key: the key columns of a schema, the columns
    to add to the selection, the surrogate ids, and the fallback with its memory
    of earlier refusals.  Arrow's row format, [lance_arrow]'s
    [try_with_column], the metadata keys of [lance_core] and the Display of an
    error are parameters. *)

From S2P Require Import Prelude RustStr.
From Stdlib Require Import Ascii SpecFloat.
From S2P Require Import Floats Arrow Hybrid.
From Stdlib Require Import Sorting.Sorted.
From stdpp Require Import sorting.

Module WalFusion.
Import Hybrid.

(** ** The primary key of a schema *)

(** [lance_core]'s metadata keys and [str_is_truthy]. *)
Class LanceKeys : Type := {
  PRIMARY_KEY : string;
  PRIMARY_KEY_POSITION : string;
  str_is_truthy : string → bool
}.

(** [str::parse::<u32>] *)
Definition parse_u32 (s : string) : option Z :=
  match s with
  | String "+" s' => parse_uint (2 ^ 32 - 1) s'
  | _ => parse_uint (2 ^ 32 - 1) s
  end.

(** A keyed field: [(position == 0, position, idx, name)]. *)
Record Keyed : Type := mkKeyed {
  legacy : bool;
  position : Z;
  k_index : nat;
  k_name : string
}.

#[export] Instance Keyed_eq_dec : EqDecision Keyed.
Proof. solve_decision. Defined.

(** The order of the tuples; two fields never share an index, so the name is
    never compared. *)
Definition keyed_le (a b : Keyed) : bool :=
  if eqb (legacy a) (legacy b) then
    (position a <? position b)%Z || ((position a =? position b)%Z && (k_index a <=? k_index b))
  else legacy b.
Definition key_order (a b : Keyed) : Prop := keyed_le a b = true.

#[export] Instance key_order_dec a b : Decision (key_order a b).
Proof. unfold key_order. apply _. Defined.

Section pk.
Context {LK : LanceKeys}.

(** The closure of the [filter_map] *)
Definition key_position (f : Field) : option Z :=
  match f_metadata f !! PRIMARY_KEY_POSITION ≫= parse_u32 with
  | Some p => Some p
  | None =>
      match f_metadata f !! PRIMARY_KEY with
      | Some value => if str_is_truthy value then Some 0%Z else None
      | None => None
      end
  end.

Definition keyed_of (idx : nat) (f : Field) : option Keyed :=
  (λ p, mkKeyed (p =? 0)%Z p idx (f_name f)) <$> key_position f.

Definition keyed_fields (schema : list Field) : list Keyed :=
  omap id (imap keyed_of schema).

Definition pk_columns (schema : list Field) : list string :=
  k_name <$> merge_sort key_order (keyed_fields schema).
End pk.

(** ** The selection *)

(** [Select], over the expressions [E] of DataFusion and their [col]. *)
Inductive Select (E : Type) : Type :=
  | All
  | Columns (columns : list string)
  | Dynamic (pairs : list (string * string))
  | Expr (pairs : list (string * E)).
Arguments All {E}.
Arguments Columns {E} columns.
Arguments Dynamic {E} pairs.
Arguments Expr {E} pairs.

Definition pk_columns_to_inject {E} (select : Select E) (pk_columns : list string) : list string :=
  let missing (produced : list string) := filter (λ pk, pk ∉ produced) pk_columns in
  match select with
  | All => []
  | Columns columns => missing columns
  | Dynamic pairs => missing (fst <$> pairs)
  | Expr pairs => missing (fst <$> pairs)
  end.

Definition inject_pk_columns {E} (col : string → E) (select : Select E) (pk_columns : list string)
    : Select E :=
  let missing := pk_columns_to_inject select pk_columns in
  match select with
  | All => All
  | Columns columns => Columns (columns ++ missing)
  | Dynamic pairs => Dynamic (pairs ++ ((λ pk, (pk, pk)) <$> missing))
  | Expr pairs => Expr (pairs ++ ((λ pk, (pk, col pk)) <$> missing))
  end.

(** The names a selection produces; [All] produces every non-system column. *)
Definition produces {E} (schema : list string) (select : Select E) : list string :=
  match select with
  | All => schema
  | Columns columns => columns
  | Dynamic pairs => fst <$> pairs
  | Expr pairs => fst <$> pairs
  end.

(** ** Surrogate row ids *)

(** Arrow's row format and [lance_arrow::RecordBatchExt::try_with_column]. *)
Class RowKernels : Type := {
  row_converter_new : list DataType → result unit;
  convert_columns : list DataType → list (Field * column) → result (list (list Z));
  try_with_column : RecordBatch → Field → column → result RecordBatch
}.

Definition no_primary_key : Error := InvalidInput
  "hybrid search on a MemWAL table needs an unenforced primary key to deduplicate on, and this table declares none".
Definition missing_key (name : string) : Error := InvalidInput
  ("hybrid search could not deduplicate: primary key column " +:+ name).

(** [*next.entry(row).or_insert(next.len())] for every row *)
Fixpoint assign_ids (ids : gmap (list Z) Z) (rows : list (list Z)) : list Z * gmap (list Z) Z :=
  match rows with
  | [] => ([], ids)
  | row :: rows =>
      let id := default (Z.of_nat (size ids)) (ids !! row) in
      let r := assign_ids (<[row := id]> ids) rows in
      (id :: fst r, snd r)
  end.

Section stamp.
Context {R : RowKernels} {D : DropColumn}.

(** The converter (its column types) and the ids handed out so far. *)
Record StampState : Type := mkStamp {
  converter : option (list DataType);
  ids : gmap (list Z) Z
}.

Definition row_id_field : Field := mkField ROW_ID UInt64 false ∅.

(** The converter is made for the first batch that has rows, and kept. *)
Definition converter_types (st : StampState) (key_columns : list (Field * column))
    : result (list DataType) :=
  match converter st with
  | Some types => Ok types
  | None =>
      let types := (λ c : Field * column, f_type (fst c)) <$> key_columns in
      _ ← row_converter_new types; Ok types
  end.

(** The ids of one batch *)
Definition stamp_ids (pk_columns : list string) (st : StampState) (batch : RecordBatch)
    : result (list Z * StampState) :=
  if rb_num_rows batch =? 0 then Ok ([], st)
  else
    key_columns ← try_map (λ name, ok_or (missing_key name) (column_by_name batch name)) pk_columns;
    types ← converter_types st key_columns;
    rows ← convert_columns types key_columns;
    let r := assign_ids (ids st) rows in
    Ok (fst r, mkStamp (Some types) (snd r)).

Definition replace_row_id (batch : RecordBatch) (row_ids : list Z) : result RecordBatch :=
  base ← (if bool_decide (ROW_ID ∈ f_name <$> rb_fields batch)
          then drop_column batch ROW_ID else Ok batch);
  try_with_column base row_id_field (CU64 <$> row_ids).

Fixpoint stamp_batches (pk_columns : list string) (st : StampState) (batches : list RecordBatch)
    : result (list RecordBatch) :=
  match batches with
  | [] => Ok []
  | batch :: batches =>
      r ← stamp_ids pk_columns st batch;
      stamped ← replace_row_id batch (fst r);
      rest ← stamp_batches pk_columns (snd r) batches;
      Ok (stamped :: rest)
  end.

Definition stamp_surrogate_row_ids (batches : list RecordBatch) (pk_columns : list string)
    : result (list RecordBatch) :=
  match pk_columns with
  | [] => Err no_primary_key
  | _ => stamp_batches pk_columns (mkStamp None ∅) batches
  end.

(** [PkFusion] *)
Record PkFusion : Type := mkFusion {
  columns : list string;
  injected : list string
}.

Definition stamp (fusion : PkFusion) (vector fts : RecordBatch) : result (RecordBatch * RecordBatch) :=
  legs ← stamp_surrogate_row_ids [vector; fts] (columns fusion);
  match legs with
  | [vector; fts] => Ok (vector, fts)
  | _ => Panic
  end.

(** The loop of [PkFusion::strip] *)
Fixpoint strip_injected (injected : list string) (results : RecordBatch) : result RecordBatch :=
  match injected with
  | [] => Ok results
  | column :: injected =>
      results ← (if bool_decide (column ∈ f_name <$> rb_fields results)
                 then drop_column results column else Ok results);
      strip_injected injected results
  end.

Definition strip (fusion : PkFusion) (results : RecordBatch) : result RecordBatch :=
  results ← drop_column results ROW_ID;
  strip_injected (injected fusion) results.
End stamp.
(** ** The order of the key columns *)
Lemma key_order_cases a b :
  key_order a b ↔
  (legacy a = false ∧ legacy b = true) ∨
  (legacy a = legacy b ∧
    (position a < position b ∨ position a = position b ∧ (k_index a ≤ k_index b)%nat)%Z).
Proof.
  unfold key_order, keyed_le. destruct (eqb_spec (legacy a) (legacy b)) as [E|E].
  - rewrite orb_true_iff, andb_true_iff, Z.ltb_lt, Z.eqb_eq, Nat.leb_le. rewrite E. intuition congruence.
  - destruct (legacy a), (legacy b); intuition congruence.
Qed.

#[export] Instance key_order_trans : Transitive key_order.
Proof.
  intros a b c. rewrite !key_order_cases. intros [[H1 H2]|[H1 H2]] [[H3 H4]|[H3 H4]];
    [congruence|left; split; congruence|left; split; congruence|right; split; [congruence|lia]].
Qed.

#[export] Instance key_order_total : Total key_order.
Proof.
  intros a b. rewrite !key_order_cases. destruct (legacy a), (legacy b); [|auto..|];
    (destruct (Z.lt_trichotomy (position a) (position b)) as [|[|]];
       [left; right; auto| |right; right; auto]);
    (destruct (Nat.le_ge_cases (k_index a) (k_index b)); [left|right]; right; auto).
Qed.

(** A list sorted by the order of the tuples: the positioned fields first. *)
Lemma sorted_split l :
  StronglySorted key_order l →
  l = filter (λ k, legacy k = false) l ++ filter (λ k, legacy k = true) l.
Proof.
  induction 1 as [|a l Hl IH Ha]; [done|]. rewrite !filter_cons.
  destruct (legacy a) eqn:E; simpl.
  - assert (filter (λ k, legacy k = false) l = []) as Hnil.
    { apply elem_of_nil_inv. intros b [Hb Hin]%list_elem_of_filter.
      rewrite Forall_forall in Ha. apply Ha, key_order_cases in Hin. rewrite E, Hb in Hin.
      intuition congruence. }
    rewrite Hnil in IH |- *. simpl in *. by rewrite <- IH.
  - by rewrite IH at 1.
Qed.

Definition by_index (a b : Keyed) : Prop := k_index a ≤ k_index b.

Section pk_order.
Context {LK : LanceKeys}.

Lemma keyed_index l n :
  StronglySorted by_index (omap id (imap (λ i, keyed_of (n + i)) l)) ∧
  Forall (λ k, n ≤ k_index k) (omap id (imap (λ i, keyed_of (n + i)) l)).
Proof.
  revert n; induction l as [|f l IH]; intros n; [by split; constructor|].
  destruct (IH (S n)) as [Hs Hf].
  assert (imap (λ i, keyed_of (n + i)) (f :: l) =
          keyed_of n f :: imap (λ i, keyed_of (S n + i)) l) as ->.
  { rewrite imap_cons, Nat.add_0_r. f_equal. apply imap_ext. intros i x _. simpl. f_equal. lia. }
  set (rest := omap id _) in *. cbn [omap list_omap].
  destruct (keyed_of n f) as [k|] eqn:Hk; cbn [id].
  - fold rest. unfold keyed_of in Hk. apply fmap_Some in Hk as (p & _ & ->). split.
    + constructor; [done|]. eapply Forall_impl; [exact Hf|]. intros x Hx. unfold by_index. simpl in *. lia.
    + constructor; [done|]. eapply Forall_impl; [exact Hf|]. simpl. lia.
  - split; [exact Hs|]. eapply Forall_impl; [exact Hf|]. simpl. lia.
Qed.

Lemma keyed_legacy schema : Forall (λ k, legacy k = true → position k = 0%Z) (keyed_fields schema).
Proof.
  unfold keyed_fields. apply Forall_forall. intros k (o & Ho & Hk)%list_elem_of_omap.
  apply elem_of_lookup_imap in Ho as (i & f & -> & _). simpl in Hk. unfold keyed_of in Hk.
  apply fmap_Some in Hk as (p & _ & ->). simpl. by intros ->%Z.eqb_eq.
Qed.

Lemma keyed_sorted schema : StronglySorted by_index (keyed_fields schema).
Proof. apply (keyed_index schema 0). Qed.

(** The position of a field in the key, for the positioned ones. *)
Definition before (a b : Keyed) : Prop :=
  (position a < position b)%Z ∨ position a = position b ∧ k_index a < k_index b.

Lemma sorted_filter {A} (R : A → A → Prop) (P : A → Prop) `{∀ x, Decision (P x)} l :
  StronglySorted R l → StronglySorted R (filter P l).
Proof.
  induction 1 as [|a l Hl IH Ha]; [constructor|]. rewrite filter_cons. case_decide; [|done].
  constructor; [done|]. apply Forall_forall. intros b [_ Hb]%list_elem_of_filter.
  rewrite Forall_forall in Ha. by apply Ha.
Qed.

Lemma sorted_impl_elem {A} (R S : A → A → Prop) l :
  (∀ a b, a ∈ l → b ∈ l → R a b → S a b) → StronglySorted R l → StronglySorted S l.
Proof.
  intros HRS Hl; revert HRS. induction Hl as [|a l Hl IH Ha]; intros HRS; [constructor|].
  constructor; [apply IH; intros; apply HRS; set_solver|].
  rewrite Forall_forall in Ha |- *. intros b Hb. apply HRS; [set_solver..|by apply Ha].
Qed.

(** Two index-ordered lists of the same fields are the same list. *)
Lemma by_index_unique l l' :
  NoDup (k_index <$> l) → l ≡ₚ l' → StronglySorted by_index l → StronglySorted by_index l' → l = l'.
Proof.
  intros Hnd Hp Hs. revert l' Hp Hnd. induction Hs as [|a l Hl IH Ha]; intros l' Hp Hnd Hs'.
  { by apply Permutation_nil_l in Hp. }
  destruct l' as [|b l']; [by apply Permutation_nil_r in Hp|].
  inversion Hs' as [|? ? Hl' Hb]; subst. rewrite fmap_cons, NoDup_cons in Hnd. destruct Hnd as [Hna Hnd].
  assert (a = b) as ->.
  { destruct (decide (a = b)) as [|Hne]; [done|]. exfalso.
    assert (b ∈ l) as Hbl by (assert (b ∈ a :: l) as Hin by (rewrite Hp; set_solver); set_solver).
    assert (a ∈ l') as Hal by (assert (a ∈ b :: l') as Hin by (rewrite <- Hp; set_solver); set_solver).
    rewrite Forall_forall in Ha, Hb. specialize (Ha b Hbl). specialize (Hb a Hal).
    unfold by_index in *. apply Hna. replace (k_index a) with (k_index b) by lia.
    by apply list_elem_of_fmap_2. }
  f_equal. apply IH; [by apply Permutation.Permutation_cons_inv in Hp|done..].
Qed.

Lemma keyed_indices schema : NoDup (k_index <$> keyed_fields schema).
Proof.
  unfold keyed_fields.
  assert (∀ l n, NoDup (k_index <$> omap id (imap (λ i, keyed_of (n + i)) l))) as Hgen;
    [|apply (Hgen _ 0)].
  induction l as [|f l IH]; intros n; [constructor|].
  assert (imap (λ i, keyed_of (n + i)) (f :: l) =
          keyed_of n f :: imap (λ i, keyed_of (S n + i)) l) as ->.
  { rewrite imap_cons, Nat.add_0_r. f_equal. apply imap_ext. intros i x _. simpl. f_equal. lia. }
  pose proof (proj2 (keyed_index l (S n))) as Hf. specialize (IH (S n)).
  set (rest := omap id _) in *. cbn [omap list_omap].
  destruct (keyed_of n f) as [k|] eqn:Hk; cbn [id]; [|done].
  fold rest. rewrite fmap_cons. constructor; [|done].
  intros (k' & Heq & Hin)%list_elem_of_fmap. rewrite Forall_forall in Hf. apply Hf in Hin.
  unfold keyed_of in Hk. apply fmap_Some in Hk as (p & _ & ->). simpl in *. lia.
Qed.

Lemma nodup_filter (P : Keyed → Prop) `{∀ k, Decision (P k)} l :
  NoDup (k_index <$> l) → NoDup (k_index <$> filter P l).
Proof.
  induction l as [|k l IH]; [done|]. rewrite fmap_cons, NoDup_cons, filter_cons. intros [Hk Hl].
  case_decide; [|by apply IH]. rewrite fmap_cons, NoDup_cons. split; [|by apply IH].
  intros (k' & Heq & [_ Hin]%list_elem_of_filter)%list_elem_of_fmap. apply Hk. rewrite Heq.
  by apply list_elem_of_fmap_2.
Qed.

(** The key: the positioned fields by position (by declaration where positions
    are equal), then the legacy ones by declaration. *)
Lemma pk_columns_order schema :
  ∃ ps, pk_columns schema =
      (k_name <$> ps) ++ (k_name <$> filter (λ k, legacy k = true) (keyed_fields schema)) ∧
    ps ≡ₚ filter (λ k, legacy k = false) (keyed_fields schema) ∧ StronglySorted before ps.
Proof.
  set (l := keyed_fields schema). set (m := merge_sort key_order l).
  assert (m ≡ₚ l) as Hp by apply merge_sort_Permutation.
  assert (StronglySorted key_order m) as Hs.
  { apply StronglySorted_merge_sort; apply _. }
  pose proof (keyed_indices schema) as Hnd. fold l in Hnd.
  assert (NoDup (k_index <$> m)) as Hndm by by rewrite Hp.
  exists (filter (λ k, legacy k = false) m). split_and!.
  - unfold pk_columns. fold l m. rewrite (sorted_split m Hs) at 1. rewrite fmap_app. f_equal. f_equal.
    apply by_index_unique.
    + by apply nodup_filter.
    + by rewrite Hp.
    + apply (sorted_filter _ (λ k, legacy k = true)) in Hs.
      eapply sorted_impl_elem; [|exact Hs]. intros a b [Ha Hia]%list_elem_of_filter
        [Hb Hib]%list_elem_of_filter Hab%key_order_cases.
      pose proof (keyed_legacy schema) as Hl. rewrite Forall_forall in Hl. fold l in Hl.
      rewrite Hp in Hia, Hib. pose proof (Hl a Hia Ha). pose proof (Hl b Hib Hb). unfold by_index.
      destruct Hab as [[? ?]|[_ ?]]; [congruence|lia].
    + apply sorted_filter, keyed_sorted.
  - by rewrite Hp.
  - apply (sorted_filter _ (λ k, legacy k = false)) in Hs.
    pose proof (nodup_filter (λ k, legacy k = false) m Hndm) as Hnd'.
    revert Hs Hnd'. set (q := filter _ m). assert (Forall (λ k, legacy k = false) q) as Hq.
    { apply Forall_forall. by intros k [? _]%list_elem_of_filter. }
    clearbody q. induction 1 as [|a q' Hq' IH Ha]; intros Hndq; [constructor|].
    rewrite fmap_cons, NoDup_cons in Hndq. destruct Hndq as [Hna Hndq].
    apply Forall_cons in Hq as [Hla Hlq]. constructor; [by apply IH|].
    rewrite Forall_forall in Ha, Hlq |- *. intros b Hb. pose proof (Ha b Hb) as Hab.
    apply key_order_cases in Hab. rewrite Hla, (Hlq b Hb) in Hab. unfold before.
    destruct Hab as [[_ [=]]|[_ [?|[? ?]]]]; [by left|]. right. split; [done|].
    assert (k_index a ≠ k_index b); [|lia]. intros E. apply Hna. rewrite E.
    by apply list_elem_of_fmap_2.
Qed.
End pk_order.

(** ** The surrogate ids *)

(** The distinct values of a list in the order they are first seen. *)
Definition first_seen {A} `{EqDecision A} (seen l : list A) : list A :=
  foldl (λ s x, if decide (x ∈ s) then s else s ++ [x]) seen l.

(** [surrogates keys ids]: the id of a row is the place of its key among the
    distinct keys, in first-seen order. *)
Definition surrogates {A} `{EqDecision A} (keys : list A) (ids : list Z) : Prop :=
  Forall2 (λ k z, 0 ≤ z ∧ first_seen [] keys !! Z.to_nat z = Some k)%Z keys ids.

Section first_seen.
Context {A : Type} `{EqDecision A}.

Lemma first_seen_cons (seen : list A) x l :
  first_seen seen (x :: l) = first_seen (if decide (x ∈ seen) then seen else seen ++ [x]) l.
Proof. done. Qed.

Lemma first_seen_app (seen l l' : list A) :
  first_seen seen (l ++ l') = first_seen (first_seen seen l) l'.
Proof. apply foldl_app. Qed.

Lemma first_seen_prefix (seen l : list A) : seen `prefix_of` first_seen seen l.
Proof.
  revert seen; induction l as [|x l IH]; intros seen; [done|]. rewrite first_seen_cons.
  etrans; [|apply IH]. case_decide; [done|]. by apply prefix_app_r.
Qed.

Lemma first_seen_nodup (seen l : list A) : NoDup seen → NoDup (first_seen seen l).
Proof.
  revert seen; induction l as [|x l IH]; intros seen Hs; [done|]. rewrite first_seen_cons.
  apply IH. case_decide; [done|]. apply NoDup_app. split_and!; [done|set_solver|apply NoDup_singleton].
Qed.

Lemma first_seen_elem (seen l : list A) x : x ∈ first_seen seen l → x ∈ seen ++ l.
Proof.
  revert seen; induction l as [|y l IH]; intros seen Hx; [set_solver|].
  rewrite first_seen_cons in Hx. apply IH in Hx. case_decide; set_solver.
Qed.

Lemma first_seen_length (seen l : list A) :
  length (first_seen seen l) ≤ length seen + length l.
Proof.
  revert seen; induction l as [|x l IH]; intros seen; simpl; [lia|].
  etrans; [apply IH|]. case_decide; rewrite ?length_app; simpl; lia.
Qed.

Lemma surrogates_range (keys : list A) ids :
  surrogates keys ids → Forall (λ z, 0 ≤ z < Z.of_nat (length keys))%Z ids.
Proof.
  unfold surrogates. intros Hs. apply Forall_forall. intros z (i & Hz)%list_elem_of_lookup.
  destruct (Forall2_lookup_r _ _ _ _ _ Hs Hz) as (k & _ & ? & Hk%lookup_lt_Some).
  pose proof (first_seen_length [] keys). simpl in *. lia.
Qed.

(** Equal ids mean equal keys. *)
Lemma surrogates_inj (keys : list A) ids i j k k' z z' :
  surrogates keys ids → keys !! i = Some k → keys !! j = Some k' → ids !! i = Some z →
  ids !! j = Some z' → k = k' ↔ z = z'.
Proof.
  intros Hs Hi Hj Hz Hz'.
  destruct (Forall2_lookup_lr _ _ _ _ _ _ Hs Hi Hz) as [H0 Hk].
  destruct (Forall2_lookup_lr _ _ _ _ _ _ Hs Hj Hz') as [H0' Hk'].
  split; [intros ->|intros ->; congruence].
  assert (Z.to_nat z = Z.to_nat z') as E; [|lia].
  eapply NoDup_lookup; [apply (first_seen_nodup [] keys); constructor|exact Hk|exact Hk'].
Qed.
End first_seen.

(** The map of the ids is the list of the rows it has seen. *)
Definition dense (ids : gmap (list Z) Z) (seen : list (list Z)) : Prop :=
  NoDup seen ∧ ∀ r z, ids !! r = Some z ↔ (0 ≤ z)%Z ∧ seen !! Z.to_nat z = Some r.

Lemma dense_size ids seen : dense ids seen → size ids = length seen.
Proof.
  intros [Hnd Hd]. rewrite <- size_dom, <- (size_list_to_set (C:=gset (list Z)) seen) by done.
  f_equal. apply set_eq. intros r. rewrite elem_of_dom, elem_of_list_to_set, list_elem_of_lookup. split.
  - intros [z Hz]. apply Hd in Hz as [_ Hz]. eauto.
  - intros [i Hi]. exists (Z.of_nat i). apply Hd. rewrite Nat2Z.id. split; [lia|done].
Qed.

Lemma dense_insert ids seen r :
  dense ids seen →
  let id := default (Z.of_nat (size ids)) (ids !! r) in
  dense (<[r := id]> ids) (if decide (r ∈ seen) then seen else seen ++ [r]).
Proof.
  intros Hd id. pose proof (dense_size _ _ Hd) as Hsz. destruct Hd as [Hnd Hd]. subst id.
  destruct (ids !! r) as [z|] eqn:Hr; simpl.
  - rewrite insert_id by done. pose proof Hr as [_ Hz]%Hd.
    rewrite decide_True by (by eapply list_elem_of_lookup_2). done.
  - rewrite decide_False.
    2: { intros [i Hi]%list_elem_of_lookup. assert (ids !! r = Some (Z.of_nat i)); [|congruence].
         apply Hd. rewrite Nat2Z.id. split; [lia|done]. }
    assert (r ∉ seen) as Hns.
    { intros [i Hi]%list_elem_of_lookup. assert (ids !! r = Some (Z.of_nat i)); [|congruence].
      apply Hd. rewrite Nat2Z.id. split; [lia|done]. }
    split; [apply NoDup_app; split_and!; [done|set_solver|apply NoDup_singleton]|].
    intros r' z. rewrite Hsz. destruct (decide (r = r')) as [<-|Hne].
    + rewrite lookup_insert_eq. split.
      * intros [= <-]. rewrite Nat2Z.id, lookup_app_r, Nat.sub_diag by lia. split; [lia|done].
      * intros [H0 Hz]. destruct (decide (Z.to_nat z < length seen)).
        { rewrite lookup_app_l in Hz by done. exfalso. apply Hns. by eapply list_elem_of_lookup_2. }
        apply lookup_lt_Some in Hz. rewrite length_app in Hz. simpl in Hz. f_equal. lia.
    + rewrite lookup_insert_ne, Hd by done. split; intros [H0 Hz]; (split; [done|]).
      * by apply lookup_app_l_Some.
      * destruct (decide (Z.to_nat z < length seen)); [by rewrite lookup_app_l in Hz|].
        rewrite lookup_app_r in Hz by lia. apply list_lookup_singleton_Some in Hz as [_ ?]. congruence.
Qed.

Lemma assign_ids_dense ids seen rows :
  dense ids seen →
  dense (assign_ids ids rows).2 (first_seen seen rows) ∧
  Forall2 (λ r z, 0 ≤ z ∧ first_seen seen rows !! Z.to_nat z = Some r)%Z rows (assign_ids ids rows).1.
Proof.
  revert ids seen; induction rows as [|r rows IH]; intros ids seen Hd; [by split; [|constructor]|].
  pose proof (dense_insert ids seen r Hd) as Hd'. simpl in Hd'. rewrite first_seen_cons.
  destruct (IH _ _ Hd') as [Hd2 Hf]. cbn [assign_ids fst snd]. split; [exact Hd2|].
  constructor; [|exact Hf].
  set (id := default _ _) in *. destruct Hd' as [_ Hd'].
  assert ((<[r := id]> ids : gmap (list Z) Z) !! r = Some id) as [H0 Hid]%Hd'
    by by rewrite lookup_insert_eq.
  split; [done|]. by eapply prefix_lookup_Some, first_seen_prefix.
Qed.

(** ** What the kernels promise *)

(** The rows of columns of length [n]. *)
Definition tuples (n : nat) (cols : list column) : list (list cell) :=
  (λ i, (λ c : column, default CNull (c !! i)) <$> cols) <$> seq 0 n.

Definition typed (types : list DataType) (k : list cell) : Prop :=
  Forall2 (λ t c, cell_ok (mkField EmptyString t true ∅) c = true) types k.

(** Rows are converted one by one, and rows of the converter's types have equal
    bytes only if they are equal. *)
Class RowLaws (R : RowKernels) : Type := {
  encode_row : list DataType → list cell → list Z;
  encode_row_inj types k k' :
    typed types k → typed types k' → encode_row types k = encode_row types k' → k = k';
  convert_columns_ok types (cols : list (Field * column)) n :
    row_converter_new types = Ok tt → cols ≠ [] →
    (λ c : Field * column, f_type (fst c)) <$> cols = types →
    Forall (λ c : Field * column, column_ok n (fst c) (snd c)) cols →
    convert_columns types cols = Ok (encode_row types <$> tuples n (snd <$> cols));
  try_with_column_ok b f c :
    rb_wf b → f_name f ∉ f_name <$> rb_fields b → column_ok (rb_num_rows b) f c →
    try_with_column b f c = Ok (mkRB (rb_fields b ++ [f]) (rb_columns b ++ [c]) (rb_num_rows b))
}.

(** The key columns of a batch and its keys, row by row. *)
Definition key_columns (pk : list string) (b : RecordBatch) : list (Field * column) :=
  omap (column_by_name b) pk.
Definition keys_of (pk : list string) (b : RecordBatch) : list (list cell) :=
  tuples (rb_num_rows b) (snd <$> key_columns pk b).

(** A leg that can be stamped: well formed, with a column beside the row id,
    and, when it has rows, with the key columns at the types [types]. *)
Definition stampable (pk : list string) (types : list DataType) (b : RecordBatch) : Prop :=
  rb_wf b ∧ Exists (λ f, f_name f ≠ ROW_ID) (rb_fields b) ∧
  (rb_num_rows b = 0 ∨
   Forall (λ name, is_Some (column_by_name b name)) pk ∧
   (λ c : Field * column, f_type (fst c)) <$> key_columns pk b = types).

(** The batch with the surrogate ids in place of its row id. *)
Definition with_row_ids (b : RecordBatch) (ids : list Z) : RecordBatch :=
  let base := if bool_decide (ROW_ID ∈ f_name <$> rb_fields b) then drop_named b ROW_ID else b in
  mkRB (rb_fields base ++ [row_id_field]) (rb_columns base ++ [CU64 <$> ids]) (rb_num_rows b).

Lemma first_seen_fmap {A B} `{EqDecision A, EqDecision B} (g : A → B) (seen l : list A) :
  (∀ x y, x ∈ seen ++ l → y ∈ seen ++ l → g x = g y → x = y) →
  first_seen (g <$> seen) (g <$> l) = g <$> first_seen seen l.
Proof.
  revert seen; induction l as [|x l IH]; intros seen Hinj; [done|].
  rewrite fmap_cons, !first_seen_cons.
  assert (g x ∈ g <$> seen ↔ x ∈ seen) as Hiff.
  { split; [|apply list_elem_of_fmap_2]. intros (y & Hxy & Hy)%list_elem_of_fmap.
    assert (x = y) as ->; [|done]. apply Hinj; [set_solver..|done]. }
  destruct (decide (x ∈ seen)).
  - rewrite decide_True by tauto. apply IH. intros; apply Hinj; set_solver.
  - rewrite decide_False by tauto. change ((g <$> seen) ++ [g x]) with ((g <$> seen) ++ (g <$> [x])).
    rewrite <- fmap_app. apply IH. intros y z. rewrite <- !app_assoc. intros; by apply Hinj.
Qed.

Lemma column_by_name_ok b name c :
  rb_wf b → column_by_name b name = Some c → column_ok (rb_num_rows b) (fst c) (snd c).
Proof.
  unfold column_by_name. intros Hb Hc. apply fmap_Some in Hc as ([i c'] & Hc & ->).
  apply list_find_Some in Hc as (Hi & _ & _). destruct c' as [f c]. simpl.
  rewrite lookup_zip_with in Hi. apply bind_Some in Hi as (f' & Hf & Hi).
  apply bind_Some in Hi as (c' & Hc & [= <- <-]). by eapply Forall2_lookup_lr.
Qed.

Lemma keys_typed pk types b :
  rb_wf b → (λ c : Field * column, f_type (fst c)) <$> key_columns pk b = types →
  Forall (typed types) (keys_of pk b).
Proof.
  intros Hb <-. unfold keys_of, tuples. apply Forall_fmap, Forall_forall. intros i Hi%elem_of_seq.
  simpl. unfold typed. rewrite Forall2_fmap_l, <- list_fmap_compose, Forall2_fmap_r.
  apply Forall_Forall2_diag, Forall_forall. intros c (name & _ & Hc)%list_elem_of_omap. simpl.
  destruct (column_by_name_ok _ _ _ Hb Hc) as [Hl Hok].
  destruct (lookup_lt_is_Some_2 (snd c) i) as [x Hx]; [lia|]. rewrite Hx. simpl.
  rewrite Forall_lookup in Hok. specialize (Hok i x Hx). unfold cell_ok in *. simpl. by destruct x.
Qed.

Section stamp_laws.
Context {R : RowKernels} {RL : RowLaws R} {D : DropColumn} {LD : DropColumnLaws D}.

Lemma replace_row_id_ok b ids :
  rb_wf b → Exists (λ f, f_name f ≠ ROW_ID) (rb_fields b) → length ids = rb_num_rows b →
  Forall u64_range ids → replace_row_id b ids = Ok (with_row_ids b ids).
Proof using RL LD.
  intros Hb He Hl Hr. unfold replace_row_id, with_row_ids.
  assert (column_ok (rb_num_rows b) row_id_field (CU64 <$> ids)) as Hc.
  { split; [by rewrite length_fmap|]. apply Forall_fmap. eapply Forall_impl; [exact Hr|].
    intros z Hz. unfold cell_ok. simpl. by apply u64_in_range_spec. }
  case_bool_decide as Hin.
  - rewrite drop_column_ok by done. run_ok. rewrite (try_with_column_ok (drop_named b ROW_ID)); [done|wf| |exact Hc].
    simpl. intros (f & Hf & Hx)%list_elem_of_fmap. apply list_elem_of_fmap in Hx as ([f' c] & -> & Hx).
    apply list_elem_of_filter in Hx as [Hne _]. simpl in *. congruence.
  - run_ok. by apply try_with_column_ok.
Qed.

Lemma key_columns_found pk b :
  Forall (λ name, is_Some (column_by_name b name)) pk →
  try_map (λ name, ok_or (missing_key name) (column_by_name b name)) pk = Ok (key_columns pk b).
Proof using.
  intros Hall. apply try_map_Ok. unfold key_columns. induction Hall as [|name pk [c Hc] _ IH]; [constructor|].
  simpl. rewrite Hc. constructor; [by rewrite Hc|exact IH].
Qed.

(** The ids so far stand for the keys so far. *)
Definition stamped (types : list DataType) (st : StampState) (seen : list (list cell)) : Prop :=
  (converter st = None ∨ converter st = Some types) ∧ Forall (typed types) seen ∧
  dense (ids st) (encode_row types <$> seen).

Lemma stamp_ids_ok pk types st seen b :
  pk ≠ [] → row_converter_new types = Ok tt → stamped types st seen → stampable pk types b →
  ∃ out st', stamp_ids pk st b = Ok (out, st') ∧ length out = rb_num_rows b ∧
    stamped types st' (first_seen seen (keys_of pk b)) ∧
    Forall2 (λ k z, 0 ≤ z ∧ first_seen seen (keys_of pk b) !! Z.to_nat z = Some k)%Z (keys_of pk b) out.
Proof using RL.
  intros Hpk Hnew (Hconv & Hty & Hd) (Hb & _ & Hkey). unfold stamp_ids.
  destruct (Nat.eqb_spec (rb_num_rows b) 0) as [H0|H0].
  { exists [], st. unfold keys_of. rewrite H0. by split_and!. }
  destruct Hkey as [?|[Hfound Htypes]]; [done|].
  pose proof (key_columns_found pk b Hfound) as Hkc. rewrite Hkc. apply try_map_Ok in Hkc. run_ok.
  assert (converter_types st (key_columns pk b) = Ok types) as ->.
  { unfold converter_types. destruct Hconv as [->| ->]; [|done]. by rewrite Htypes, Hnew. }
  run_ok. rewrite (convert_columns_ok types _ (rb_num_rows b)); [|done| |done|].
  2: { intros E. rewrite E in Hkc. by apply Forall2_nil_inv_r in Hkc. }
  2: { apply Forall_forall. intros c (name & _ & Hc)%list_elem_of_omap. by eapply column_by_name_ok. }
  run_ok. cbv zeta. fold (keys_of pk b).
  pose proof (keys_typed pk types b Hb Htypes) as Hkt.
  assert (∀ x y, x ∈ seen ++ keys_of pk b → y ∈ seen ++ keys_of pk b →
    encode_row types x = encode_row types y → x = y) as Hinj.
  { assert (Forall (typed types) (seen ++ keys_of pk b)) as Hall by by apply Forall_app.
    rewrite Forall_forall in Hall. intros x y Hx Hy. apply encode_row_inj; by apply Hall. }
  destruct (assign_ids_dense _ _ (encode_row types <$> keys_of pk b) Hd) as [Hd' Hf].
  rewrite first_seen_fmap in Hd', Hf by done.
  eexists _, _. split; [done|]. split.
  { apply Forall2_length in Hf. rewrite <- Hf, length_fmap. unfold keys_of, tuples.
    by rewrite length_fmap, length_seq. }
  split; [split_and!; [by right| |exact Hd']|].
  - apply Forall_forall. intros k Hk.
    apply first_seen_elem in Hk.
    assert (Forall (typed types) (seen ++ keys_of pk b)) as Hall by by apply Forall_app.
    rewrite Forall_forall in Hall. by apply Hall.
  - rewrite Forall2_fmap_l in Hf. apply Forall2_same_length_lookup_2; [by eapply Forall2_length|].
    intros i k z Hk Hz. destruct (Forall2_lookup_lr _ _ _ _ _ _ Hf Hk Hz) as [H0' Hfs].
    split; [done|]. rewrite list_lookup_fmap in Hfs. apply fmap_Some in Hfs as (k' & Hk' & Heq).
    rewrite Hk'. f_equal. symmetry. apply Hinj; [|eauto using first_seen_elem, list_elem_of_lookup_2|done].
    apply elem_of_app. right. by eapply list_elem_of_lookup_2.
Qed.

Lemma stamp_batches_ok pk types st seen bs :
  pk ≠ [] → row_converter_new types = Ok tt → stamped types st seen → Forall (stampable pk types) bs →
  (Z.of_nat (length seen + total_rows bs) ≤ U64)%Z →
  ∃ idss, stamp_batches pk st bs = Ok (zip_with with_row_ids bs idss) ∧
    Forall2 (λ b l, length l = rb_num_rows b) bs idss ∧
    Forall2 (λ k z, 0 ≤ z ∧ first_seen seen (mjoin (M:=list) (keys_of pk <$> bs)) !! Z.to_nat z = Some k)%Z
      (mjoin (M:=list) (keys_of pk <$> bs)) (mjoin (M:=list) idss).
Proof using RL LD.
  intros Hpk Hnew Hst Hbs. revert st seen Hst. induction Hbs as [|b bs Hb Hbs IH]; intros st seen Hst Hlen.
  { exists []. split_and!; [done|constructor..]. }
  destruct (stamp_ids_ok pk types st seen b Hpk Hnew Hst Hb) as (out & st' & Es & Hl & Hst' & Hf).
  pose proof (first_seen_length seen (keys_of pk b)) as Hfl.
  assert (length (keys_of pk b) = rb_num_rows b) as Hkl.
  { unfold keys_of, tuples. by rewrite length_fmap, length_seq. }
  unfold total_rows in Hlen. simpl in Hlen.
  destruct (IH _ _ Hst') as (idss & Er & Hls & Hfs); [unfold total_rows; lia|].
  exists (out :: idss). pose proof Hb as (Hwf & Hex & _). split_and!.
  - cbn [stamp_batches]. rewrite Es. run_ok. cbn [fst snd]. rewrite replace_row_id_ok; [|done..|].
    + run_ok. rewrite Er. done.
    + apply Forall_forall. intros z [i Hz]%list_elem_of_lookup.
      destruct (Forall2_lookup_r _ _ _ _ _ Hf Hz) as (k & _ & H0 & Hk%lookup_lt_Some).
      unfold u64_range. lia.
  - by constructor.
  - rewrite fmap_cons, !mjoin_cons, first_seen_app. apply Forall2_app; [|exact Hfs].
    eapply Forall2_impl; [exact Hf|]. intros k z [H0 Hk]. split; [done|].
    eapply prefix_lookup_Some; [exact Hk|apply first_seen_prefix].
Qed.
End stamp_laws.

(** ** Dropping the surrogate and the injected columns *)
Definition drop_names (ns : list string) (b : RecordBatch) : RecordBatch :=
  let kept := filter (λ p : Field * column, f_name (fst p) ∉ ns) (zip (rb_fields b) (rb_columns b)) in
  mkRB (fst <$> kept) (snd <$> kept) (rb_num_rows b).

Lemma zip_fst_snd {A B} (l : list (A * B)) : zip (fst <$> l) (snd <$> l) = l.
Proof. induction l as [|[a b] l IH]; [done|]. rewrite !fmap_cons. simpl. by rewrite IH. Qed.

Lemma drop_names_cons n ns b : drop_names (n :: ns) b = drop_named (drop_names ns b) n.
Proof.
  unfold drop_named, drop_names. simpl. rewrite zip_fst_snd, list_filter_filter.
  assert (filter (λ p : Field * column, f_name (fst p) ∉ n :: ns) (zip (rb_fields b) (rb_columns b)) =
    filter (λ p : Field * column, f_name (fst p) ≠ n ∧ f_name (fst p) ∉ ns)
      (zip (rb_fields b) (rb_columns b))) as ->; [|done].
  apply list_filter_iff. intros [f c]. simpl. rewrite elem_of_cons. tauto.
Qed.

Lemma drop_names_absent n ns b :
  n ∉ f_name <$> rb_fields (drop_names ns b) → drop_names (n :: ns) b = drop_names ns b.
Proof.
  intros Hn. rewrite drop_names_cons. unfold drop_named. unfold drop_names in *. simpl in *.
  rewrite zip_fst_snd. rewrite <- list_fmap_compose in Hn.
  assert (∀ l : list (Field * column), n ∉ f_name ∘ fst <$> l →
    filter (λ p : Field * column, f_name (fst p) ≠ n) l = l) as Hgen.
  { intros l Hl. induction l as [|p l IH]; [done|]. rewrite fmap_cons in Hl.
    rewrite filter_cons_True by set_solver. f_equal. apply IH. set_solver. }
  by rewrite Hgen.
Qed.

Lemma drop_names_wf ns b : rb_wf b → rb_wf (drop_names ns b).
Proof.
  unfold rb_wf, drop_names. simpl. intros Hb. apply Forall2_fmap, Forall_Forall2_diag.
  apply Forall_forall. intros [f c] [_ Hin]%list_elem_of_filter. simpl.
  apply elem_of_lookup_zip_with in Hin as (i & ? & ? & [= -> ->] & ? & ?).
  by eapply Forall2_lookup_lr.
Qed.

Lemma drop_names_keeps ns b name :
  rb_wf b → name ∈ f_name <$> rb_fields b → name ∉ ns → name ∈ f_name <$> rb_fields (drop_names ns b).
Proof.
  intros Hb (f & -> & [i Hf]%list_elem_of_lookup)%list_elem_of_fmap Hns.
  destruct (Forall2_lookup_l _ _ _ _ _ Hb Hf) as (c & Hc & _).
  apply list_elem_of_fmap. exists f. split; [done|]. simpl. apply list_elem_of_fmap. exists (f, c).
  split; [done|]. apply list_elem_of_filter. split; [done|].
  apply (list_elem_of_lookup_2 _ i). rewrite lookup_zip_with, Hf. simpl. by rewrite Hc.
Qed.

Lemma drop_names_drops ns b : Forall (λ n, n ∉ ns) (f_name <$> rb_fields (drop_names ns b)).
Proof.
  apply Forall_fmap, Forall_forall. intros f (p & -> & Hp)%list_elem_of_fmap.
  by apply list_elem_of_filter in Hp as [? _].
Qed.

Section strip.
Context {D : DropColumn} {LD : DropColumnLaws D}.

Lemma drop_one_ok ns b n kept :
  rb_wf b → kept ∈ f_name <$> rb_fields b → kept ∉ n :: ns →
  drop_column (drop_names ns b) n = Ok (drop_names (n :: ns) b).
Proof.
  intros Hb Hk Hn. rewrite drop_names_cons. apply drop_column_ok; [by apply drop_names_wf|].
  assert (kept ∈ f_name <$> rb_fields (drop_names ns b)) as (f & Hf & Hin)%list_elem_of_fmap
    by (apply drop_names_keeps; set_solver).
  apply Exists_exists. exists f. split; [done|]. set_solver.
Qed.

Lemma strip_injected_ok injected ns b kept :
  rb_wf b → kept ∈ f_name <$> rb_fields b → kept ∉ ns → kept ∉ injected →
  strip_injected injected (drop_names ns b) = Ok (drop_names (reverse injected ++ ns) b).
Proof.
  intros Hb Hk. revert ns; induction injected as [|n l IH]; intros ns Hns Hl; [done|].
  cbn [strip_injected]. rewrite reverse_cons, <- app_assoc. cbn [app].
  case_bool_decide as Hin.
  - rewrite (drop_one_ok ns b n kept) by set_solver. run_ok. apply IH; set_solver.
  - run_ok. rewrite <- (drop_names_absent n) by done. apply IH; set_solver.
Qed.

Lemma strip_ok fusion b kept :
  rb_wf b → kept ∈ f_name <$> rb_fields b → kept ∉ ROW_ID :: injected fusion →
  strip fusion b = Ok (drop_names (reverse (injected fusion) ++ [ROW_ID]) b).
Proof.
  intros Hb Hk Hn. unfold strip.
  assert (drop_names [] b = b) as E.
  { destruct b as [fs cs n]. unfold drop_names. simpl.
    assert (∀ l : list (Field * column), filter (λ p : Field * column, f_name (fst p) ∉ []) l = l) as Hf.
    { induction l as [|p l IH]; [done|]. rewrite filter_cons_True by (by intros ?%elem_of_nil). by rewrite IH. }
    rewrite Hf. pose proof (Forall2_length _ _ _ Hb) as Hl. simpl in Hl.
    f_equal; [apply fst_zip|apply snd_zip]; lia. }
  rewrite <- E at 1. rewrite (drop_one_ok [] b ROW_ID kept) by set_solver. run_ok.
  apply (strip_injected_ok _ [ROW_ID] b kept); set_solver.
Qed.
End strip.

(** ** The pipeline *)
Section fused.
Context {K : ArrowKernels} {HK : HybridKernels} {D : DropColumn} {R : RowKernels}.
Context (null_slot : Z).

(** [run_hybrid] of query.rs with [pk_fusion = Some fusion] *)
Definition run_hybrid_fused (fusion : PkFusion) (request : HybridRequest)
    (legs : result (list RecordBatch * list RecordBatch)) (max_batch_length : nat) : result Stream :=
  results ← legs;
  let schemas := query_schemas (fst results) (snd results) in
  fts_results ← concat_batches (fst schemas) (fst results);
  vec_results ← concat_batches (snd schemas) (snd results);
  both ← stamp fusion vec_results fts_results;
  results ← rerank_legs null_slot request (fst both) (snd both);
  results ← strip fusion results;
  single_batch_stream results max_batch_length.
End fused.

(** ** The fallback *)
Section fallback.
Context {LK : LanceKeys} {E T : Type} (to_string : Error → string).

(** What the fallback reads of the query. *)
Record HybridQuery : Type := mkHybridQuery {
  use_memwal : option bool;
  asks_row_id : bool;
  q_select : Select E
}.

Definition WAL_ROW_ID_REFUSAL : string := "does not support with_row_id".
Definition is_wal_row_id_refusal (e : Error) : bool := contains WAL_ROW_ID_REFUSAL (to_string e).

Definition wal_row_id_unsupported : Error := NotSupported
  "hybrid search on a MemWAL table cannot return _rowid: the fresh tier has no stable row id, and the ids the fusion joins on are synthesized from the primary key. Set use_memwal(false) to read the base table only (results will exclude un-compacted MemWAL data)".

(** [PkFusionMemory], an instant in nanoseconds *)
Definition MEMORY_TTL : Z := 30 * 1000000000.
Definition learned (memory : option Z) (now : Z) : bool :=
  match memory with
  | Some learned => (Z.max 0 (now - learned) <? MEMORY_TTL)%Z
  | None => false
  end.
Definition note (now : Z) : option Z := Some now.
Definition forget : option Z := None.

Definition resolve (query : HybridQuery) (schema : result (list Field)) : result PkFusion :=
  if asks_row_id query then Err wal_row_id_unsupported
  else
    schema ← schema;
    let columns := pk_columns schema in
    Ok (mkFusion columns (pk_columns_to_inject (q_select query) columns)).

(** [with_pk_fallback]: the outcome, the memory, and the runs that were made;
    the refusal is noted at the time [later]. *)
Definition with_pk_fallback (query : HybridQuery) (memory : option Z) (now later : Z)
    (schema : result (list Field)) (run : option PkFusion → result T)
    : result T * option Z * list (option PkFusion) :=
  let fused memory runs :=
    match resolve query schema with
    | Ok fusion => (run (Some fusion), memory, runs ++ [Some fusion])
    | Err e => (Err e, memory, runs)
    | Panic => (Panic, memory, runs)
    end in
  if negb (bool_decide (use_memwal query = Some false)) && learned memory now then fused memory []
  else
    match run None with
    | Err e =>
        if is_wal_row_id_refusal e then
          if asks_row_id query then (Err wal_row_id_unsupported, memory, [None])
          else fused (note later) [None]
        else (Err e, memory, [None])
    | r => (r, memory, [None])
    end.

(** On a table that refuses row ids every query is answered by the key, and a
    query within the memory's life is not refused again. *)
Lemma fallback_learns q1 q2 memory t1 noted t2 later schema run e :
  run None = Err e → is_wal_row_id_refusal e = true →
  asks_row_id q1 = false → use_memwal q2 ≠ Some false → learned memory t1 = false →
  (noted ≤ t2 < noted + MEMORY_TTL)%Z →
  let '(r1, memory', runs1) := with_pk_fallback q1 memory t1 noted schema run in
  let '(r2, _, runs2) := with_pk_fallback q2 memory' t2 later schema run in
  r1 = (f ← resolve q1 schema; run (Some f)) ∧ memory' = Some noted ∧ head runs1 = Some None ∧
  r2 = (f ← resolve q2 schema; run (Some f)) ∧ None ∉ runs2.
Proof.
  intros Hrun He Hq1 Hq2 Hl Ht. unfold with_pk_fallback at 1. rewrite Hl, andb_false_r, Hrun, He, Hq1.
  assert (learned (Some noted) t2 = true) as Hl2 by (unfold learned; apply Z.ltb_lt; lia).
  destruct (resolve q1 schema) as [f1|e1|]; simpl; unfold with_pk_fallback, note;
    rewrite bool_decide_eq_false_2, Hl2 by done; simpl;
    destruct (resolve q2 schema) as [f2|e2|]; split_and!; try done; set_solver.
Qed.

(** A failure that is not a refusal is returned as it is, and taught nothing. *)
Lemma fallback_passes_failures query memory now later schema run r :
  run None = r → (∀ e, r = Err e → is_wal_row_id_refusal e = false) → learned memory now = false →
  with_pk_fallback query memory now later schema run = (r, memory, [None]).
Proof.
  intros <- He Hl. unfold with_pk_fallback. rewrite Hl, andb_false_r.
  destruct (run None) as [t|e|]; [done| |done]. by rewrite (He e).
Qed.
End fallback.

(** A selection that gets the key columns added produces all of them. *)
Lemma inject_produces {E} (col : string → E) schema sel pk :
  (∀ name, name ∈ pk → sel = All → name ∈ schema) →
  ∀ name, name ∈ pk → name ∈ produces schema (inject_pk_columns col sel pk).
Proof.
  intros Hall name Hn. destruct sel as [|cs|ps|ps]; simpl; [by apply Hall|..].
  - destruct (decide (name ∈ cs)); apply elem_of_app; [by left|right].
    by apply list_elem_of_filter.
  - rewrite fmap_app, <- list_fmap_compose. destruct (decide (name ∈ ps.*1)); apply elem_of_app;
      [by left|right]. apply list_elem_of_fmap. exists name. split; [done|]. by apply list_elem_of_filter.
  - rewrite fmap_app, <- list_fmap_compose. destruct (decide (name ∈ ps.*1)); apply elem_of_app;
      [by left|right]. apply list_elem_of_fmap. exists name. split; [done|]. by apply list_elem_of_filter.
Qed.

(** ** Hybrid search joined on the primary key *)
Lemma with_row_ids_fresh b ids :
  ROW_ID ∉ f_name <$> rb_fields b →
  with_row_ids b ids = mkRB (rb_fields b ++ [row_id_field]) (rb_columns b ++ [CU64 <$> ids]) (rb_num_rows b).
Proof. intros Hn. unfold with_row_ids. by rewrite bool_decide_eq_false_2. Qed.

Lemma with_row_ids_wf b ids :
  rb_wf b → length ids = rb_num_rows b → Forall u64_range ids →
  rb_wf (mkRB (rb_fields b ++ [row_id_field]) (rb_columns b ++ [CU64 <$> ids]) (rb_num_rows b)).
Proof.
  intros Hb Hl Hr. unfold rb_wf. simpl. apply Forall2_app; [done|]. apply Forall2_cons. split; [|constructor].
  split; [by rewrite length_fmap|]. apply Forall_fmap. eapply Forall_impl; [exact Hr|].
  intros z Hz. unfold cell_ok. simpl. by apply u64_in_range_spec.
Qed.

Lemma with_row_ids_at b ids n :
  rb_wf b → ROW_ID ∉ f_name <$> rb_fields b → n = length (rb_fields b) →
  ids_at n (mkRB (rb_fields b ++ [row_id_field]) (rb_columns b ++ [CU64 <$> ids]) (rb_num_rows b)) ids.
Proof.
  intros Hb Hn ->. pose proof (Forall2_length _ _ _ Hb) as Hl. exists row_id_field. simpl.
  rewrite lookup_app_r, Nat.sub_diag by done. rewrite lookup_app_r, Hl, Nat.sub_diag by lia.
  split_and!; [done..|]. intros i g Hi Hg. rewrite lookup_app_l in Hg by lia.
  intros E. apply Hn. rewrite <- E. by apply list_elem_of_fmap_2, (list_elem_of_lookup_2 _ i).
Qed.

Lemma has_scores_app name fields f : has_scores name fields → has_scores name (fields ++ [f]).
Proof.
  intros (i & g & Hf & Ht). exists i, g. split; [|done].
  apply list_find_Some in Hf as (Hi & Hg & Hlt). apply list_find_Some. split_and!; [|done|].
  - by apply lookup_app_l_Some.
  - intros k y Hk Hki. apply lookup_lt_Some in Hi. rewrite lookup_app_l in Hk by lia. by eapply Hlt.
Qed.

Section fused_laws.
Context {K : ArrowKernels} {LK : ArrowLaws K} {HK : HybridKernels} {LH : HybridLaws HK}.
Context {D : DropColumn} {LD : DropColumnLaws D} {R : RowKernels} {RL : RowLaws R}.

(** C13: Hybrid search on a table with a write path.  The two answers, which have
    no row ids, are joined on the primary key: every row gets the place of its
    key among the distinct keys in the order the vector answer and then the text
    answer show them, so rows share an id exactly when their keys are equal.
    The stream holds the [limit] best rows of the reciprocal rank fusion on
    those ids, without the ids and without the key columns that were added for
    them. *)
Theorem fused_hybrid_top null_slot fusion request fts vec ffields vfields types query m :
  batches_ok ffields fts → batches_ok vfields vec → fts ≠ [] → vec ≠ [] →
  Forall2 field_fits ffields vfields → has_scores SCORE_COL ffields → has_scores DIST_COL vfields →
  ROW_ID ∉ f_name <$> ffields → ROW_ID ∉ f_name <$> vfields →
  columns fusion ≠ [] → row_converter_new types = Ok tt →
  stampable (columns fusion) types (concat_rb vfields vec) →
  stampable (columns fusion) types (concat_rb ffields fts) →
  (Z.of_nat (total_rows vec + total_rows fts) ≤ U64)%Z →
  RELEVANCE_SCORE ∉ injected fusion →
  reranker request = None → full_text_search request = Some query →
  let keys := keys_of (columns fusion) (concat_rb vfields vec) ++
              keys_of (columns fusion) (concat_rb ffields fts) in
  ∃ vids fids v f order scores bs,
    surrogates keys (vids ++ fids) ∧
    same_but DIST_COL (with_row_ids (concat_rb vfields vec) vids) v ∧
    same_but SCORE_COL (with_row_ids (concat_rb ffields fts) fids) f ∧
    ranking (F32.of_Z 60) vids fids order scores ∧
    let top := top_rb (concat_rb (ffields ++ [row_id_field]) [v; f])
                 (default DEFAULT_TOP_K (limit request)) order scores in
    let out := drop_names (reverse (injected fusion) ++ [ROW_ID]) top in
    run_hybrid_fused null_slot fusion request (Ok (fts, vec)) m
      = Ok (mkStream (rb_fields out) (Ok <$> bs)) ∧
    concat_rb (rb_fields out) bs = out ∧ batches_ok (rb_fields out) bs ∧
    (0 < m → Forall (λ b, rb_num_rows b ≤ m) bs).
Proof using LK LH LD RL.
  intros Hf Hv Hfn Hvn Hfit Hfs Hvs Hfr Hvr Hpk Hnew Hvst Hfst Hlen Hrel Hrr Hq keys.
  set (V := concat_rb vfields vec) in *. set (F := concat_rb ffields fts) in *.
  destruct (stamp_batches_ok (columns fusion) types (mkStamp None ∅) [] [V; F])
    as (idss & Es & Hls & Hids); [done|done| |by apply Forall_cons; split; [|apply Forall_singleton]| |].
  { split_and!; [by left|constructor|]. split; [constructor|]. intros r z. split; [done|]. by intros [_ ?]. }
  { unfold total_rows at 1. simpl. fold (total_rows vec) (total_rows fts). lia. }
  apply Forall2_cons_inv_l in Hls as (vids & ? & Hvl & Hls & ->).
  apply Forall2_cons_inv_l in Hls as (fids & ? & Hfl & ->%Forall2_nil_inv_l & ->).
  assert (surrogates keys (vids ++ fids)) as Hsur.
  { unfold surrogates, keys. simpl in Hids. by rewrite !app_nil_r in Hids. }
  assert (length keys = total_rows vec + total_rows fts) as Hkl.
  { unfold keys, keys_of, tuples. by rewrite length_app, !length_fmap, !length_seq. }
  pose proof (surrogates_range _ _ Hsur) as Hr. rewrite Hkl in Hr.
  assert (Forall u64_range (vids ++ fids)) as [Hvu Hfu]%Forall_app.
  { eapply Forall_impl; [exact Hr|]. intros z Hz. unfold u64_range. simpl in Hz. lia. }
  pose proof (concat_rb_wf vfields vec Hv) as HVw. pose proof (concat_rb_wf ffields fts Hf) as HFw.
  pose proof (Forall2_length _ _ _ Hfit) as Hfl2.
  set (V' := mkRB (vfields ++ [row_id_field]) (rb_columns V ++ [CU64 <$> vids]) (rb_num_rows V)).
  set (F' := mkRB (ffields ++ [row_id_field]) (rb_columns F ++ [CU64 <$> fids]) (rb_num_rows F)).
  assert (with_row_ids V vids = V') as EV by by apply with_row_ids_fresh.
  assert (with_row_ids F fids = F') as EF by by apply with_row_ids_fresh.
  assert (Forall2 field_fits (rb_fields F') (rb_fields V')) as Hfit'.
  { apply Forall2_app; [done|]. constructor; [by split|constructor]. }
  destruct (rerank_legs_ok null_slot request V' F' (length ffields) fids vids query)
    as (v & f & order & scores & Hsv & Hsf & Hrank & Htop & El);
    [exact (with_row_ids_wf V vids HVw Hvl Hvu)|exact (with_row_ids_wf F fids HFw Hfl Hfu)
    |exact Hfit'|by apply has_scores_app|by apply has_scores_app
    |exact (with_row_ids_at F fids _ HFw Hfr eq_refl)|exact (with_row_ids_at V vids _ HVw Hvr Hfl2)
    |done|done|].
  change (rb_fields F') with (ffields ++ [row_id_field]) in *.
  set (top := top_rb _ _ order scores) in *.
  set (out := drop_names (reverse (injected fusion) ++ [ROW_ID]) top).
  assert (strip fusion top = Ok out) as Est.
  { apply (strip_ok fusion top RELEVANCE_SCORE); [done|apply top_has_relevance|].
    intros [E|E]%elem_of_cons; [discriminate E|done]. }
  destruct (single_batch_stream_ok out m (drop_names_wf _ _ Htop)) as (bs & Ess & Hbs & Hc & Hm).
  exists vids, fids, v, f, order, scores, bs. rewrite EV, EF. split_and!; [done..|].
  cbv zeta. split_and!; [|done..]. unfold run_hybrid_fused. run_ok. unfold query_schemas.
  destruct fts as [|fb fts]; [done|]. destruct vec as [|vb vec]; [done|].
  pose proof Hf as [[_ Hff] _]%Forall_cons. pose proof Hv as [[_ Hvf] _]%Forall_cons.
  cbn [fst snd fmap list_fmap head]. rewrite Hff, Hvf, !concat_batches_ok by done. run_ok.
  fold V F. unfold stamp, stamp_surrogate_row_ids.
  destruct (columns fusion) as [|c cs] eqn:Ec; [done|]. rewrite Es. cbn [zip_with].
  rewrite EV, EF. run_ok. cbn [fst snd]. rewrite El. run_ok. fold top. by rewrite Est.
Qed.
End fused_laws.

(** ** A model of the laws *)
Module Ref.
#[export] Instance spec_float_eq_dec : EqDecision spec_float.
Proof. solve_decision. Defined.

#[export] Program Instance spec_float_countable : Countable spec_float :=
  inj_countable' (A:=(bool + bool) + (unit + bool * positive * Z))
    (λ x, match x with
          | S754_zero s => inl (inl s)
          | S754_infinity s => inl (inr s)
          | S754_nan => inr (inl tt)
          | S754_finite s m e => inr (inr (s, m, e))
          end)
    (λ y, match y with
          | inl (inl s) => S754_zero s
          | inl (inr s) => S754_infinity s
          | inr (inl _) => S754_nan
          | inr (inr (s, m, e)) => S754_finite s m e
          end) _.
Next Obligation. by intros []. Qed.

#[export] Program Instance cell_countable : Countable cell :=
  inj_countable' (A:=(unit + Z) + (spec_float + string))
    (λ c, match c with
          | CNull => inl (inl tt)
          | CU64 z => inl (inr z)
          | CF32 x => inr (inl x)
          | COpaque p => inr (inr p)
          end)
    (λ y, match y with
          | inl (inl _) => CNull
          | inl (inr z) => CU64 z
          | inr (inl x) => CF32 x
          | inr (inr p) => COpaque p
          end) _.
Next Obligation. by intros []. Qed.

Definition row_bytes (types : list DataType) (k : list cell) : list Z := [Zpos (encode k)].

#[export] Instance row_kernels : RowKernels := {
  row_converter_new _ := Ok tt;
  convert_columns types cols :=
    Ok (row_bytes types <$> tuples (from_option (λ c : Field * column, length (snd c)) 0 (head cols))
                              (snd <$> cols));
  try_with_column b f c :=
    Ok (mkRB (rb_fields b ++ [f]) (rb_columns b ++ [c]) (rb_num_rows b))
}.

#[export] Program Instance row_laws : RowLaws row_kernels := { encode_row := row_bytes }.
Next Obligation. intros types k k' _ _ [= Hk]. by apply (inj encode) in Hk. Qed.
Next Obligation.
  intros types [|c cols] n _ Hne _ Hall; [done|]. apply Forall_cons in Hall as [[Hl _] _].
  simpl in *. by rewrite Hl.
Qed.
Next Obligation. done. Qed.

#[export] Instance drop : DropColumn := {| drop_column b name := Ok (drop_named b name) |}.
#[export] Instance drop_laws : DropColumnLaws drop.
Proof. by constructor. Qed.

(** The vector answer ranks the keys a, b and c, the text answer b and d. *)
Definition fields (score : string) : list Field :=
  [mkField "id" Utf8 false ∅; mkField score Float32 true ∅].
Definition leg (score : string) (rows : list (string * Z)) : RecordBatch :=
  mkRB (fields score) [(λ p, COpaque p.1) <$> rows; (λ p, CF32 (F32.of_decimal p.2 1)) <$> rows]
    (length rows).
Definition vec : RecordBatch := leg DIST_COL [("a", 1); ("b", 2); ("c", 3)]%Z.
Definition fts : RecordBatch := leg SCORE_COL [("b", 9); ("d", 8)]%Z.
Definition fusion : PkFusion := mkFusion ["id"] ["id"].
Definition request : HybridRequest := mkRequest (Some Rank) None (Some "puppy") (Some 3) false.

Lemma vec_wf : rb_wf vec. Proof. by repeat constructor. Qed.
Lemma fts_wf : rb_wf fts. Proof. by repeat constructor. Qed.
Lemma stampable_leg score b : rb_wf b → rb_fields b = fields score → stampable ["id"] [Utf8] b.
Proof.
  intros Hb Hf. pose proof Hb as Hb'. unfold rb_wf in Hb'. rewrite Hf in Hb'.
  apply Forall2_cons_inv_l in Hb' as (c & cs & _ & _ & Hc). split_and!; [done| |].
  - rewrite Hf. by left.
  - right. unfold key_columns, column_by_name. rewrite Hf, Hc. simpl.
    split; [by apply Forall_singleton|done].
Qed.
End Ref.

Import Ref.

Lemma fused_hybrid_top_witness :
  let keys := keys_of ["id"] (concat_rb (fields DIST_COL) [Ref.vec]) ++
              keys_of ["id"] (concat_rb (fields SCORE_COL) [Ref.fts]) in
  ∃ vids fids v f order scores bs,
    surrogates keys (vids ++ fids) ∧
    same_but DIST_COL (with_row_ids (concat_rb (fields DIST_COL) [Ref.vec]) vids) v ∧
    same_but SCORE_COL (with_row_ids (concat_rb (fields SCORE_COL) [Ref.fts]) fids) f ∧
    ranking (F32.of_Z 60) vids fids order scores ∧
    let top := top_rb (concat_rb (fields SCORE_COL ++ [row_id_field]) [v; f])
                 (default DEFAULT_TOP_K (limit Ref.request)) order scores in
    let out := drop_names (reverse (injected Ref.fusion) ++ [ROW_ID]) top in
    run_hybrid_fused 0 Ref.fusion Ref.request (Ok ([Ref.fts], [Ref.vec])) 2
      = Ok (mkStream (rb_fields out) (Ok <$> bs)) ∧
    concat_rb (rb_fields out) bs = out ∧ batches_ok (rb_fields out) bs ∧
    (0 < 2 → Forall (λ b, rb_num_rows b ≤ 2) bs).
Proof.
  apply (fused_hybrid_top 0%Z Ref.fusion Ref.request [Ref.fts] [Ref.vec] (fields SCORE_COL)
           (fields DIST_COL) [Utf8] "puppy" 2).
  - apply Forall_singleton. split; [exact fts_wf|done].
  - apply Forall_singleton. split; [exact vec_wf|done].
  - discriminate.
  - discriminate.
  - by repeat constructor.
  - by exists 1, (mkField SCORE_COL Float32 true ∅).
  - by exists 1, (mkField DIST_COL Float32 true ∅).
  - apply (bool_decide_unpack _). by vm_compute.
  - apply (bool_decide_unpack _). by vm_compute.
  - discriminate.
  - done.
  - rewrite concat_rb_singleton; [|exact vec_wf|done]. exact (stampable_leg DIST_COL Ref.vec vec_wf eq_refl).
  - rewrite concat_rb_singleton; [|exact fts_wf|done]. exact (stampable_leg SCORE_COL Ref.fts fts_wf eq_refl).
  - by vm_compute.
  - apply (bool_decide_unpack _). by vm_compute.
  - done.
  - done.
Defined.

(** The surrogate ids of the test of wal_fusion.rs. *)
Example surrogate_ids_example :
  (λ r : RecordBatch * RecordBatch, (last (rb_columns (fst r)), last (rb_columns (snd r))))
    <$> stamp Ref.fusion Ref.vec Ref.fts
  = Ok (Some [CU64 0; CU64 1; CU64 2]%Z, Some [CU64 1; CU64 3]%Z).
Proof. vm_compute. done. Qed.
End WalFusion.
