(* ===== verification/RustText.v ===== *)
(** * Whitespace, lines and suffixes of Rust strings

    [char::is_whitespace] is the Unicode property White_Space, so its
    characters take one, two or three bytes of UTF-8.  A continuation byte never starts
    one of them: scanning the bytes of a valid [str] finds the same characters
    as scanning its [char]s. *)

From S2P Require Import Prelude RustStr.
From Stdlib Require Import Ascii.

Local Open Scope string_scope.

(** ** White space *)
Definition ws1 (a : ascii) : bool :=
  let x := byte_of a in ((9 <=? x) && (x <=? 13) || (x =? 32))%Z.
(** U+0085 and U+00A0 *)
Definition ws2 (a b : ascii) : bool :=
  ((byte_of a =? 194) && ((byte_of b =? 133) || (byte_of b =? 160)))%Z.
(** U+1680, U+2000 to U+200A, U+2028, U+2029, U+202F, U+205F and U+3000 *)
Definition ws3 (a b c : ascii) : bool :=
  let '(x, y, z) := (byte_of a, byte_of b, byte_of c) in
  ((x =? 225) && (y =? 154) && (z =? 128) ||
   (x =? 226) && (y =? 128) &&
     ((128 <=? z) && (z <=? 138) || (z =? 168) || (z =? 169) || (z =? 175)) ||
   (x =? 226) && (y =? 129) && (z =? 159) ||
   (x =? 227) && (y =? 128) && (z =? 128))%Z.

(** What follows a leading white space character. *)
Definition skip_ws (s : string) : option string :=
  match s with
  | "" => None
  | String a s1 =>
      if ws1 a then Some s1
      else match s1 with
      | "" => None
      | String b s2 =>
          if ws2 a b then Some s2
          else match s2 with
          | "" => None
          | String c s3 => if ws3 a b c then Some s3 else None
          end
      end
  end.

(** [s.trim_start()] *)
Fixpoint trim_start (s : string) : string :=
  match s with
  | "" => ""
  | String a s1 =>
      if ws1 a then trim_start s1
      else match s1 with
      | "" => s
      | String b s2 =>
          if ws2 a b then trim_start s2
          else match s2 with
          | "" => s
          | String c s3 => if ws3 a b c then trim_start s3 else s
          end
      end
  end.

(** [s.trim_end()] *)
Fixpoint trim_end (s : string) : string :=
  match s with
  | "" => ""
  | String a s' => if is_empty (trim_start s) then "" else String a (trim_end s')
  end.
Definition trim (s : string) : string := trim_end (trim_start s).

(** [s.split_whitespace()]: the word the string starts with and the words after
    it; the word is empty when white space comes first. *)
Definition push_word (r : string * list string) : list string :=
  if is_empty (fst r) then snd r else fst r :: snd r.
Fixpoint words (s : string) : string * list string :=
  match s with
  | "" => ("", [])
  | String a s1 =>
      let here := let r := words s1 in (String a (fst r), snd r) in
      if ws1 a then ("", push_word (words s1))
      else match s1 with
      | "" => here
      | String b s2 =>
          if ws2 a b then ("", push_word (words s2))
          else match s2 with
          | "" => here
          | String c s3 => if ws3 a b c then ("", push_word (words s3)) else here
          end
      end
  end.
Definition split_whitespace (s : string) : list string := push_word (words s).

(** ** Lines *)
Definition LF : ascii := ascii_of_nat 10.
Definition CR : ascii := ascii_of_nat 13.

(** [s.trim_end_matches(c)] *)
Fixpoint trim_end_matches (c : ascii) (s : string) : string :=
  match s with
  | "" => ""
  | String a s' =>
      let t := trim_end_matches c s' in
      if Ascii.eqb a c && is_empty t then "" else String a t
  end.

(** [s.strip_suffix(suf)] *)
Fixpoint strip_suffix (suf s : string) : option string :=
  if decide (s = suf) then Some ""
  else match s with
  | "" => None
  | String a s' => String a <$> strip_suffix suf s'
  end.

(** [s.lines().next()]: a line ends at a line feed, which takes one carriage
    return before it along. *)
Definition first_line (s : string) : option string :=
  match s with
  | "" => None
  | _ =>
      match split_once LF s with
      | Some (line, _) => Some (default line (strip_suffix (String CR "") line))
      | None => Some s
      end
  end.

(** [a.eq_ignore_ascii_case(b)] *)
Definition to_ascii_lowercase (c : ascii) : ascii :=
  if between "A" "Z" c then ascii_of_nat (nat_of_ascii c + 32) else c.
Fixpoint lowercase (s : string) : string :=
  match s with "" => "" | String a s' => String (to_ascii_lowercase a) (lowercase s') end.
Definition eq_ignore_ascii_case (a b : string) : bool := String.eqb (lowercase a) (lowercase b).

(** ** [str::from_utf8]: the well-formed byte sequences of the Unicode standard *)
Definition continues (x : Z) : bool := ((128 <=? x) && (x <=? 191))%Z.
Definition utf8_pair (x y : Z) : bool := ((194 <=? x) && (x <=? 223) && continues y)%Z.
Definition utf8_triple (x y z : Z) : bool :=
  ((224 <=? x) && (x <=? 239) && continues y && continues z &&
   (negb (x =? 224) || (160 <=? y)) && (negb (x =? 237) || (y <=? 159)))%Z.
Definition utf8_quad (x y z w : Z) : bool :=
  ((240 <=? x) && (x <=? 244) && continues y && continues z && continues w &&
   (negb (x =? 240) || (144 <=? y)) && (negb (x =? 244) || (y <=? 143)))%Z.

Fixpoint utf8_valid (s : string) : bool :=
  match s with
  | "" => true
  | String a s1 =>
      if (byte_of a <? 128)%Z then utf8_valid s1
      else match s1 with
      | "" => false
      | String b s2 =>
          if utf8_pair (byte_of a) (byte_of b) then utf8_valid s2
          else match s2 with
          | "" => false
          | String c s3 =>
              if utf8_triple (byte_of a) (byte_of b) (byte_of c) then utf8_valid s3
              else match s3 with
              | "" => false
              | String d s4 =>
                  utf8_quad (byte_of a) (byte_of b) (byte_of c) (byte_of d) && utf8_valid s4
              end
          end
      end
  end.

(** ** Lemmas *)

(** A text in which the byte of no white space character occurs. *)
Definition solid (c : ascii) : bool :=
  negb (ws1 c) && negb (byte_of c =? 194)%Z && negb (byte_of c =? 225)%Z &&
  negb (byte_of c =? 226)%Z && negb (byte_of c =? 227)%Z.

Lemma solid_not_ws a : solid a = true →
  ws1 a = false ∧ (∀ b, ws2 a b = false) ∧ (∀ b c, ws3 a b c = false).
Proof.
  unfold solid, ws2, ws3. rewrite !andb_true_iff, !negb_true_iff.
  intros ((((H1 & H2) & H3) & H4) & H5). rewrite H1, H2, H3, H4, H5. done.
Qed.

Lemma words_solid w s : all_chars solid w = true →
  words (w +:+ s) = (w +:+ fst (words s), snd (words s)).
Proof.
  induction w as [|a w IH]; intros Hw; [simpl; by destruct (words s)|].
  cbn [all_chars] in Hw. apply andb_true_iff in Hw as [(H1 & H2 & H3)%solid_not_ws Hw].
  specialize (IH Hw). cbn [String.append words]. rewrite H1, IH. cbn [fst snd String.append].
  destruct (w +:+ s) as [|b s1]; [done|]. rewrite H2. destruct s1 as [|c s2]; [done|].
  by rewrite H3.
Qed.

(** Words of solid characters separated by single spaces. *)
Lemma split_whitespace_cons w s : all_chars solid w = true → w ≠ "" →
  split_whitespace (w +:+ String " " s) = w :: split_whitespace s.
Proof.
  intros Hw Hne. unfold split_whitespace. rewrite words_solid by done.
  cbn [words fst snd]. change (ws1 " ") with true. cbn [fst snd]. rewrite str_app_nil_r.
  unfold push_word at 1. cbn [fst snd]. by destruct w.
Qed.

Lemma trim_end_matches_app c s : trim_end_matches c (s +:+ String c "") = trim_end_matches c s.
Proof.
  induction s as [|a s IH]; cbn [String.append trim_end_matches]; [|by rewrite IH].
  by rewrite Ascii.eqb_refl.
Qed.

Lemma str_length_app a b : String.length (a +:+ b) = String.length a + String.length b.
Proof. induction a as [|x a IH]; simpl; [done|]. by rewrite IH. Qed.

Lemma strip_suffix_Some suf s r : strip_suffix suf s = Some r ↔ s = r +:+ suf.
Proof.
  revert r; induction s as [|a s IH]; intros r; cbn [strip_suffix]; destruct (decide _) as [Hs|Hs].
  - split; [intros [= <-]; done|]. destruct r; [done|discriminate].
  - split; [done|]. destruct r; [done|discriminate].
  - split; [intros [= <-]; done|]. intros Hr. rewrite <-Hs in Hr.
    destruct r as [|b r]; [done|]. apply (f_equal String.length) in Hr.
    rewrite str_length_app in Hr. simpl in Hr. lia.
  - rewrite fmap_Some. setoid_rewrite IH. split; [by intros (r' & -> & ->)|].
    destruct r as [|b r]; [done|]. cbn [String.append]. intros [= -> ->]. by exists r.
Qed.

(** ** The bits of a positive as text, for concrete codecs *)
Fixpoint bits (p : positive) : string :=
  match p with
  | xH => ""
  | xI p => String "1" (bits p)
  | xO p => String "0" (bits p)
  end.
Fixpoint of_bits (s : string) : positive :=
  match s with
  | "" => xH
  | String a s => if Ascii.eqb a "1" then xI (of_bits s) else xO (of_bits s)
  end.
Lemma of_bits_bits p : of_bits (bits p) = p.
Proof. induction p as [p IH|p IH|]; simpl; by rewrite ?IH. Qed.

(** ** Delimiters doubled and undoubled: [s.replace(c, cc)] and [s.replace(cc, c)] *)
Fixpoint double_char (c : ascii) (s : string) : string :=
  match s with
  | "" => ""
  | String x s =>
      if Ascii.eqb x c then String x (String x (double_char c s)) else String x (double_char c s)
  end.
Fixpoint undouble_char (c : ascii) (s : string) : string :=
  match s with
  | String x (String y s'' as s') =>
      if Ascii.eqb x c && Ascii.eqb y c then String c (undouble_char c s'')
      else String x (undouble_char c s')
  | _ => s
  end.
Lemma undouble_double c s : undouble_char c (double_char c s) = s.
Proof.
  induction s as [|x s IH]; [done|]. cbn [double_char]. destruct (Ascii.eqb_spec x c) as [->|Hx].
  - cbn [undouble_char]. rewrite Ascii.eqb_refl. cbn [andb]. by rewrite IH.
  - rewrite <-IH at 2. destruct (double_char c s) as [|y s'] eqn:Hd; [by destruct s; [|cbn in Hd; case_match]|].
    cbn [undouble_char]. apply Ascii.eqb_neq in Hx. rewrite Hx. cbn [andb]. done.
Qed.

(** ** Sorted lists of names *)
(** [Vec::dedup] *)
Fixpoint dedup (l : list string) : list string :=
  match l with
  | [] => []
  | x :: l =>
      match dedup l with
      | [] => [x]
      | (y :: _) as l' => if decide (x = y) then l' else x :: l'
      end
  end.

Lemma elem_of_dedup l x : x ∈ dedup l ↔ x ∈ l.
Proof.
  induction l as [|y l IH]; [done|]. cbn [dedup]. rewrite elem_of_cons, <-IH.
  destruct (dedup l) as [|z l']; [set_solver|].
  destruct (decide (y = z)) as [->|]; set_solver.
Qed.
