(* ===== verification/OAuthConfig.v ===== *)
(** * OAuth configurations and the callback server (remote/oauth.rs)

    How a configuration is resolved and checked: the method of client
    authentication, the transport of every URL, the loopback redirect of the
    authorization code flow; and the server that waits on that redirect for the
    code: what it reads from each connection, which requests it ignores and which
    it accepts.  The parser of the url crate is a parameter; the connections
    and the bytes they send, with their times, are a script the theorems
    quantify over. *)

From stdpp Require Import pretty.
From S2P Require Import Prelude RustStr RustText.

Module OAuthConfig.
Local Open Scope string_scope.

(** ** Configurations *)
Record AuthorizationCodeOptions : Type := mkCodeOptions {
  redirect_uri : option string;
  callback_port : option Z;
  use_pkce : bool
}.
Definition default_options : AuthorizationCodeOptions := mkCodeOptions None None true.
Definition with_redirect_uri (o : AuthorizationCodeOptions) (uri : string) : AuthorizationCodeOptions :=
  mkCodeOptions (Some uri) (callback_port o) (use_pkce o).
Definition with_callback_port (o : AuthorizationCodeOptions) (p : Z) : AuthorizationCodeOptions :=
  mkCodeOptions (redirect_uri o) (Some p) (use_pkce o).
Definition with_use_pkce (o : AuthorizationCodeOptions) (b : bool) : AuthorizationCodeOptions :=
  mkCodeOptions (redirect_uri o) (callback_port o) b.

Inductive OAuthFlow : Type :=
  | ClientCredentials
  | AuthorizationCode (options : AuthorizationCodeOptions)
  | DeviceCode
  | AzureManagedIdentity (client_id : option string).

Inductive ClientAuthMethod : Type :=
  | NoAuth
  | ClientSecretBasic
  | ClientSecretPost.
#[export] Instance client_auth_method_eq_dec : EqDecision ClientAuthMethod.
Proof. solve_decision. Defined.

(** oauth2's [AuthType] *)
Inductive AuthType : Type := RequestBody | BasicAuth.
Definition auth_type (m : ClientAuthMethod) : AuthType :=
  match m with
  | NoAuth | ClientSecretPost => RequestBody
  | ClientSecretBasic => BasicAuth
  end.

(** The rendering of a method by its derived [Debug] *)
Definition debug_method (m : ClientAuthMethod) : string :=
  match m with
  | NoAuth => "None"
  | ClientSecretBasic => "ClientSecretBasic"
  | ClientSecretPost => "ClientSecretPost"
  end.

Definition resolve_client_auth_method (method : option ClientAuthMethod)
    (client_secret : option string) : result ClientAuthMethod :=
  match method, client_secret with
  | Some NoAuth, Some _ =>
      Err (InvalidInput "client_auth_method None cannot be combined with client_secret")
  | Some ((ClientSecretBasic | ClientSecretPost) as m), None =>
      Err (InvalidInput
        ("client_auth_method " +:+ debug_method m +:+ " requires client_secret to be set"))
  | Some m, _ => Ok m
  | None, Some _ => Ok ClientSecretBasic
  | None, None => Ok NoAuth
  end.

(** [TokenCacheOptions]; a path is a string. *)
Record TokenCacheOptions : Type := mkCacheOptions {
  cache_dir : option string;
  lock_timeout_secs : option Z
}.

Record OAuthConfig : Type := mkConfig {
  issuer_url : string;
  client_id : string;
  client_secret : option string;
  scopes : list string;
  resource : option string;
  audience : option string;
  flow : OAuthFlow;
  client_auth_method : option ClientAuthMethod;
  refresh_buffer_secs : option Z;
  token_cache : option TokenCacheOptions
}.

(** ** URLs (the url crate's accessors) *)
Inductive Host : Type :=
  | Domain (name : string)
  | Ipv4 (ip : Z)
  | Ipv6 (ip : Z).

Record Url : Type := mkUrl {
  scheme : string;
  host : option Host;
  port : option Z;
  path : string;
  query : option string;
  fragment : option string;
  query_pairs : list (string * string)
}.

Class UrlParser : Type := url_parse : string → option Url.

Inductive IpAddr : Type := V4 (ip : Z) | V6 (ip : Z).

(** [is_loopback]: 127.0.0.0/8 and ::1 *)
Definition v4_loopback (ip : Z) : bool := (Z.shiftr ip 24 =? 127)%Z.
Definition v6_loopback (ip : Z) : bool := (ip =? 1)%Z.
Definition LOCALHOST : Z := 127 * 2 ^ 24 + 1.

Definition oauth_url_uses_secure_transport (url : Url) : bool :=
  String.eqb (scheme url) "https"
  || (String.eqb (scheme url) "http"
      && match host url with
         | Some (Domain h) => eq_ignore_ascii_case h "localhost"
         | Some (Ipv4 ip) => v4_loopback ip
         | Some (Ipv6 ip) => v6_loopback ip
         | None => false
         end).

Definition DEFAULT_CALLBACK_PORT : Z := 8400.
(** Durations in milliseconds. *)
Definition AUTHORIZATION_CALLBACK_TIMEOUT : Z := 300 * 1000.
Definition READ_TIMEOUT : Z := 10 * 1000.
Definition MAX_CALLBACK_REQUEST_BYTES : nat := 16 * 1024.

(** Whether reqwest builds a client. *)
Class HttpBuilder : Type := client_builds : bool.

Section urls.
Context {U : UrlParser} {B : HttpBuilder}.

Definition validate_oauth_url (value name : string) : result Url :=
  url ← ok_or (InvalidInput ("Invalid OAuth " +:+ name +:+ ": {e}")) (url_parse value);
  if oauth_url_uses_secure_transport url then Ok url
  else Err (InvalidInput
    ("OAuth " +:+ name +:+ " must use https, except for http on a loopback host")).

(** ** [ResolvedRedirect] *)
Record ResolvedRedirect : Type := mkRedirect {
  uri : string;
  bind_ip : IpAddr;
  bind_port : Z;
  callback_path : string
}.

Definition redirect_uri_of (o : AuthorizationCodeOptions) : string :=
  match redirect_uri o with
  | Some u => u
  | None =>
      "http://127.0.0.1:" +:+ pretty (Z.to_N (default DEFAULT_CALLBACK_PORT (callback_port o)))
      +:+ "/callback"
  end.

Definition loopback_ip (h : option Host) : result IpAddr :=
  match h with
  | Some (Domain name) =>
      if eq_ignore_ascii_case name "localhost" then Ok (V4 LOCALHOST)
      else Err (InvalidInput "OAuth redirect_uri must use a loopback host")
  | Some (Ipv4 ip) =>
      if v4_loopback ip then Ok (V4 ip)
      else Err (InvalidInput "OAuth redirect_uri must use a loopback host")
  | Some (Ipv6 ip) =>
      if v6_loopback ip then Ok (V6 ip)
      else Err (InvalidInput "OAuth redirect_uri must use a loopback host")
  | None => Err (InvalidInput "OAuth redirect_uri must include a loopback host")
  end.

Definition resolved_redirect (o : AuthorizationCodeOptions) : result ResolvedRedirect :=
  let uri := redirect_uri_of o in
  parsed ← ok_or (InvalidInput "Invalid OAuth redirect_uri: {e}") (url_parse uri);
  if negb (String.eqb (scheme parsed) "http") then
    Err (InvalidInput "OAuth redirect_uri must use http with a loopback host")
  else if bool_decide (is_Some (query parsed)) || bool_decide (is_Some (fragment parsed)) then
    Err (InvalidInput "OAuth redirect_uri must not contain a query or fragment")
  else
    ip ← loopback_ip (host parsed);
    port ← ok_or (InvalidInput "OAuth redirect_uri must include a port") (port parsed);
    if (port =? 0)%Z then
      Err (InvalidInput "OAuth redirect_uri port must be greater than zero")
    else if match callback_port o with Some p => negb (p =? port)%Z | None => false end then
      Err (InvalidInput
        "OAuth callback_port {callback_port} does not match redirect_uri port {port}")
    else Ok (mkRedirect uri ip port (path parsed)).

(** ** The callback request *)
Inductive AuthorizationCallback : Type :=
  | Code (code : string)
  | ProviderError (message : string).

Definition request_target_of (request : string) : option string :=
  line ← first_line request;
  match split_whitespace line with
  | "GET" :: target :: _ => Some target
  | _ => None
  end.

(** [query_pairs().collect::<HashMap<_, _>>()]: a later pair replaces an
    earlier one with its key. *)
Definition query_params (url : Url) : gmap string string :=
  list_to_map (reverse (query_pairs url)).

Definition parse_authorization_callback (request expected_path expected_state : string)
    : result AuthorizationCallback :=
  request_target ← ok_or
    (Runtime "OAuth authorization callback was not a valid HTTP GET request")
    (request_target_of request);
  callback ← ok_or (Runtime "OAuth authorization callback URL was invalid: {e}")
    (url_parse ("http://loopback" +:+ request_target));
  if negb (String.eqb (path callback) expected_path) then
    Err (Runtime "OAuth authorization callback used unexpected path {}")
  else
    let params := query_params callback in
    if bool_decide (params !! "state" ≠ Some expected_state) then
      Err (Runtime "OAuth authorization callback state did not match")
    else match params !! "error" with
    | Some error =>
        let description := default error (params !! "error_description") in
        Ok (ProviderError ("OAuth authorization failed: " +:+ description))
    | None =>
        ok_or (Runtime "OAuth authorization callback did not contain a code")
          (Code <$> params !! "code")
    end.

(** ** Reading it from a connection

    What one [read] returns, and when. *)
Inductive ReadEvent : Type :=
  | Bytes (s : string)
  | Closed
  | ReadFailed.

(** [tokio::time::timeout_at]: the inner future is polled first, so an event
    that is there already is delivered even after the deadline. *)
Definition timeout_at (deadline now arrival : Z) : option Z :=
  if (arrival <=? now)%Z then Some now
  else if (arrival <=? deadline)%Z then Some arrival
  else None.

Definition CRLF2 : string := String CR (String LF (String CR (String LF ""))).

Definition read_timeout_error : Error :=
  Runtime "Timed out reading the OAuth authorization callback".

Fixpoint read_request (deadline now : Z) (request : string) (reads : list (Z * ReadEvent))
    : result string * Z :=
  match reads with
  | [] => (Err read_timeout_error, Z.max now deadline)
  | (arrival, event) :: reads =>
      match timeout_at deadline now arrival with
      | None => (Err read_timeout_error, Z.max now deadline)
      | Some now =>
          match event with
          | ReadFailed =>
              (Err (Runtime "Failed to read OAuth authorization callback: {e}"), now)
          | Closed =>
              (Err (Runtime "OAuth authorization callback closed before sending a request"), now)
          | Bytes s =>
              let request := request +:+ s in
              if contains CRLF2 request then (Ok request, now)
              else if (MAX_CALLBACK_REQUEST_BYTES <=? String.length request)%nat then
                (Err (Runtime "OAuth authorization callback request was too large"), now)
              else read_request deadline now request reads
          end
      end
  end.

Definition read_authorization_callback (expected_path expected_state : string)
    (overall_deadline now : Z) (reads : list (Z * ReadEvent))
    : result AuthorizationCallback * Z :=
  let deadline := Z.min overall_deadline (now + READ_TIMEOUT) in
  let '(request, now) := read_request deadline now "" reads in
  (request ← request;
   if utf8_valid request then parse_authorization_callback request expected_path expected_state
   else Err (Runtime "OAuth authorization callback was not valid UTF-8: {e}"), now).

(** ** The server: each accepted connection, and when it arrives *)
Inductive Accept : Type :=
  | Accepted (reads : list (Z * ReadEvent))
  | AcceptFailed.

Definition callback_timeout_error : Error :=
  Runtime "Timed out waiting for the OAuth authorization callback".

(** The result, when it comes, and the response written to each connection
    ([true] for 200). *)
Fixpoint accept_loop (path state : string) (deadline now : Z) (conns : list (Z * Accept))
    : result string * Z * list bool :=
  match conns with
  | [] => (Err callback_timeout_error, Z.max now deadline, [])
  | (arrival, accepted) :: conns =>
      match timeout_at deadline now arrival with
      | None => (Err callback_timeout_error, Z.max now deadline, [])
      | Some now =>
          match accepted with
          | AcceptFailed =>
              (Err (Runtime "Failed to accept OAuth callback connection: {e}"), now, [])
          | Accepted reads =>
              match read_authorization_callback path state deadline now reads with
              | (Ok (Code code), now) => (Ok code, now, [true])
              | (Ok (ProviderError message), now) => (Err (Runtime message), now, [false])
              | (Panic, now) => (Panic, now, [])
              | (Err _, now) =>
                  if (deadline <=? now)%Z then (Err callback_timeout_error, now, [])
                  else
                    let '(r, t, responses) := accept_loop path state deadline now conns in
                    (r, t, false :: responses)
              end
          end
      end
  end.

Definition wait_for_callback (path state : string) (now : Z) (conns : list (Z * Accept))
    : result string * Z * list bool :=
  accept_loop path state (now + AUTHORIZATION_CALLBACK_TIMEOUT) now conns.

(** ** Token sources *)

(** [OidcClient] without its HTTP client and its discovery cache. *)
Record OidcClient : Type := mkOidc {
  oidc_issuer_url : string;
  oidc_client_id : string;
  oidc_client_secret : option string;
  oidc_client_auth_method : ClientAuthMethod;
  oidc_scopes : list string;
  oidc_resource : option string;
  oidc_audience : option string
}.

Inductive TokenSource : Type :=
  | ClientCredentialsSource (oidc : OidcClient)
  | AuthorizationCodeSource (oidc : OidcClient) (options : AuthorizationCodeOptions)
      (redirect : ResolvedRedirect)
  | DeviceCodeSource (oidc : OidcClient)
  | AzureImdsSource (imds_client_id : option string) (imds_resource : string).


Definition build_http_client (what : string) : result unit :=
  if client_builds then Ok tt
  else Err (Runtime ("Failed to create HTTP client for " +:+ what +:+ ": {e}")).

Definition oidc_client_new (config : OAuthConfig) (method : ClientAuthMethod) : result OidcClient :=
  _ ← validate_oauth_url (issuer_url config) "issuer_url";
  _ ← build_http_client "OAuth";
  Ok (mkOidc (issuer_url config) (client_id config) (client_secret config) method
        (scopes config) (resource config) (audience config)).

Definition resource_from_scopes (scopes : list string) : result string :=
  match scopes with
  | [scope] => Ok (default scope (strip_suffix "/.default" scope))
  | _ => Err (InvalidInput
      "AzureManagedIdentity flow requires exactly one OAuth scope or resource")
  end.

Definition is_azure (f : OAuthFlow) : bool :=
  match f with AzureManagedIdentity _ => true | _ => false end.

Definition client_credentials_new (config : OAuthConfig) (method : ClientAuthMethod)
    : result TokenSource :=
  match client_secret config with
  | None => Err (InvalidInput "client_secret is required for ClientCredentials flow")
  | Some _ => ClientCredentialsSource <$> oidc_client_new config method
  end.

Definition authorization_code_new (config : OAuthConfig) (method : ClientAuthMethod)
    (options : AuthorizationCodeOptions) : result TokenSource :=
  redirect ← resolved_redirect options;
  oidc ← oidc_client_new config method;
  Ok (AuthorizationCodeSource oidc options redirect).

Definition azure_imds_new (scopes : list string) (client_id : option string) : result TokenSource :=
  resource ← resource_from_scopes scopes;
  _ ← build_http_client "Azure IMDS OAuth";
  Ok (AzureImdsSource client_id resource).

Definition build_token_source (config : OAuthConfig) : result TokenSource :=
  if is_azure (flow config) &&
     (bool_decide (is_Some (resource config)) || bool_decide (is_Some (audience config))) then
    Err (InvalidInput
      "resource and audience are not supported for AzureManagedIdentity; configure its resource through scopes")
  else if bool_decide (scopes config = []) then
    Err (InvalidInput "At least one OAuth scope is required")
  else
    method ← resolve_client_auth_method (client_auth_method config) (client_secret config);
    match flow config with
    | ClientCredentials => client_credentials_new config method
    | AuthorizationCode options => authorization_code_new config method options
    | DeviceCode => DeviceCodeSource <$> oidc_client_new config method
    | AzureManagedIdentity client_id => azure_imds_new (scopes config) client_id
    end.

(** * Specification *)

(** The addresses of the loopback interface *)
Definition loopback (ip : IpAddr) : Prop :=
  match ip with
  | V4 ip => (127 * 2 ^ 24 ≤ ip < 128 * 2 ^ 24)%Z
  | V6 ip => ip = 1%Z
  end.

Definition host_address (h : option Host) (ip : IpAddr) : Prop :=
  match h, ip with
  | Some (Domain name), V4 ip => eq_ignore_ascii_case name "localhost" = true ∧ ip = LOCALHOST
  | Some (Ipv4 ip'), V4 ip => ip = ip'
  | Some (Ipv6 ip'), V6 ip => ip = ip'
  | _, _ => False
  end.

Record redirect_typed (o : AuthorizationCodeOptions) (r : ResolvedRedirect) (url : Url) : Prop := {
  rt_uri : uri r = redirect_uri_of o;
  rt_parse : url_parse (uri r) = Some url;
  rt_scheme : scheme url = "http";
  rt_plain : query url = None ∧ fragment url = None;
  rt_host : host_address (host url) (bind_ip r);
  rt_loopback : loopback (bind_ip r);
  rt_port : port url = Some (bind_port r) ∧ bind_port r ≠ 0%Z;
  rt_agrees : ∀ p, callback_port o = Some p → p = bind_port r;
  rt_path : callback_path r = path url
}.

(** The client authenticates exactly when it has a secret, with the method the
    configuration names if it names one, and its issuer is secure. *)
Record client_typed (config : OAuthConfig) (o : OidcClient) : Prop := {
  ct_fields : o = mkOidc (issuer_url config) (client_id config) (client_secret config)
                    (oidc_client_auth_method o) (scopes config) (resource config) (audience config);
  ct_auth : oidc_client_auth_method o = NoAuth ↔ client_secret config = None;
  ct_named : match client_auth_method config with
             | Some m => oidc_client_auth_method o = m
             | None => oidc_client_auth_method o ≠ ClientSecretPost
             end;
  ct_secure : ∃ url, url_parse (issuer_url config) = Some url ∧
                oauth_url_uses_secure_transport url = true
}.

Inductive source_typed (config : OAuthConfig) : TokenSource → Prop :=
  | typed_credentials o :
      flow config = ClientCredentials → client_secret config ≠ None → client_typed config o →
      source_typed config (ClientCredentialsSource o)
  | typed_code o options r url :
      flow config = AuthorizationCode options → redirect_typed options r url →
      client_typed config o →
      source_typed config (AuthorizationCodeSource o options r)
  | typed_device o :
      flow config = DeviceCode → client_typed config o →
      source_typed config (DeviceCodeSource o)
  | typed_azure client_id scope :
      flow config = AzureManagedIdentity client_id →
      resource config = None → audience config = None → scopes config = [scope] →
      is_ok (resolve_client_auth_method (client_auth_method config) (client_secret config)) = true →
      source_typed config
        (AzureImdsSource client_id (default scope (strip_suffix "/.default" scope))).

(** A request that carries the code [c] for the given path and state. *)
Definition code_request (request path' state c : string) : Prop :=
  ∃ target url, request_target_of request = Some target ∧
    url_parse ("http://loopback" +:+ target) = Some url ∧ path url = path' ∧
    query_params url !! "state" = Some state ∧
    query_params url !! "error" = None ∧ query_params url !! "code" = Some c.

(** The text of the first [n] reads. *)
Fixpoint text_of (reads : list (Z * ReadEvent)) : string :=
  match reads with
  | (_, Bytes s) :: reads => s +:+ text_of reads
  | _ => ""
  end.

(** * Lemmas *)
Lemma v4_loopback_spec ip : v4_loopback ip = true ↔ loopback (V4 ip).
Proof.
  unfold v4_loopback, loopback. rewrite Z.eqb_eq, Z.shiftr_div_pow2 by lia.
  pose proof (Z.div_mod ip (2 ^ 24)). pose proof (Z.mod_pos_bound ip (2 ^ 24)).
  change (2 ^ 24)%Z with 16777216%Z in *. lia.
Qed.

Lemma loopback_ip_spec h ip : loopback_ip h = Ok ip ↔ host_address h ip ∧ loopback ip.
Proof.
  unfold loopback_ip, host_address, v6_loopback. destruct h as [[name|a|a]|].
  - assert (loopback (V4 LOCALHOST)) by (unfold loopback, LOCALHOST; lia).
    destruct (eq_ignore_ascii_case _ _), ip; naive_solver.
  - pose proof (v4_loopback_spec a). destruct (v4_loopback a), ip; naive_solver.
  - destruct (Z.eqb_spec a 1), ip; naive_solver.
  - destruct ip; naive_solver.
Qed.

Lemma resolved_redirect_spec o r : resolved_redirect o = Ok r ↔ ∃ url, redirect_typed o r url.
Proof.
  unfold resolved_redirect. split.
  - intros (url & Hu & H)%bind_Ok. apply ok_or_Ok in Hu.
    destruct (String.eqb_spec (scheme url) "http") as [Hs|]; [|done]. simpl in H.
    destruct (query url) eqn:Hq; [done|]. destruct (fragment url) eqn:Hf; [done|]. simpl in H.
    apply bind_Ok in H as (ip & [Hh Hl]%loopback_ip_spec & H).
    apply bind_Ok in H as (p & Hp%ok_or_Ok & H).
    destruct (Z.eqb_spec p 0) as [|Hp0]; [done|].
    destruct (match callback_port o with Some _ => _ | None => _ end) eqn:Hc; [done|].
    injection H as <-. exists url. split; simpl; try done.
    intros p' Hp'. rewrite Hp' in Hc. to_prop. done.
  - intros (url & [Hr Hp Hs [Hq Hf] Hh Hl [Hpo Hp0] Ha Hpa]). rewrite <-Hr, Hp. run_ok.
    cbn [ok_or mbind outcome_bind]. rewrite Hs, Hq, Hf. simpl.
    assert (loopback_ip (host url) = Ok (bind_ip r)) as -> by by apply loopback_ip_spec.
    run_ok. rewrite Hpo. cbn [ok_or mbind outcome_bind].
    destruct (Z.eqb_spec (bind_port r) 0); [done|].
    destruct (callback_port o) as [p|] eqn:Hc.
    + rewrite (Ha p eq_refl), Z.eqb_refl. simpl. destruct r; simpl in *. by subst.
    + destruct r; simpl in *. by subst.
Qed.

Lemma resolve_spec method secret a :
  resolve_client_auth_method method secret = Ok a ↔
  (a = NoAuth ↔ secret = None) ∧
  match method with Some m => a = m | None => a ≠ ClientSecretPost end.
Proof.
  unfold resolve_client_auth_method. destruct method as [[]|], secret, a; simpl; naive_solver.
Qed.

Lemma validate_oauth_url_spec value name url :
  validate_oauth_url value name = Ok url ↔
  url_parse value = Some url ∧ oauth_url_uses_secure_transport url = true.
Proof.
  unfold validate_oauth_url. rewrite bind_Ok. setoid_rewrite ok_or_Ok. split.
  - intros (u & Hu & H). case_match; naive_solver.
  - intros [? H]. exists url. by rewrite H.
Qed.

Lemma oidc_client_spec config o (Hb : client_builds = true) :
  (∃ m, resolve_client_auth_method (client_auth_method config) (client_secret config) = Ok m ∧
        oidc_client_new config m = Ok o) ↔ client_typed config o.
Proof.
  unfold oidc_client_new, build_http_client. rewrite Hb. split.
  - intros (m & [Hm Hn]%resolve_spec & H). apply bind_Ok in H as (url & Hu & H).
    apply validate_oauth_url_spec in Hu. injection H as <-. split; simpl; [done|done| |by exists url].
    by destruct (client_auth_method config).
  - intros [Hf Ha Hn (url & Hu)]. exists (oidc_client_auth_method o). split.
    { apply resolve_spec. split; [done|]. by destruct (client_auth_method config). }
    assert (validate_oauth_url (issuer_url config) "issuer_url" = Ok url) as ->
      by by apply validate_oauth_url_spec.
    run_ok. by rewrite <-Hf.
Qed.

Lemma parse_code_spec request path' state c :
  parse_authorization_callback request path' state = Ok (Code c) ↔
  code_request request path' state c.
Proof.
  unfold parse_authorization_callback, code_request. rewrite bind_Ok. setoid_rewrite ok_or_Ok.
  setoid_rewrite bind_Ok. setoid_rewrite ok_or_Ok. split.
  - intros (target & Ht & url & Hu & H).
    destruct (String.eqb_spec (path url) path'); [|done]. simpl in H.
    case_bool_decide as Hs; [done|]. 
    destruct (query_params url !! "error") eqn:He; [done|].
    apply ok_or_Ok, fmap_Some in H as (c' & Hc & [= <-]). by exists target, url.
  - intros (target & url & Ht & Hu & <- & Hs & He & Hc). exists target. split; [done|].
    exists url. split; [done|]. rewrite String.eqb_refl. simpl.
    rewrite bool_decide_eq_false_2 by (intros Hn; done). by rewrite He, Hc.
Qed.

Lemma timeout_at_bound deadline now arrival t :
  timeout_at deadline now arrival = Some t → (now ≤ t ∧ (now ≤ deadline → t ≤ deadline))%Z.
Proof. unfold timeout_at. intros. repeat case_match; to_prop; simplify_eq; lia. Qed.

Lemma read_request_spec deadline now request reads r t :
  read_request deadline now request reads = (r, t) →
  (now ≤ t ∧ (now ≤ deadline → t ≤ deadline))%Z ∧ r ≠ Panic ∧
  ∀ text, r = Ok text → ∃ n, text = request +:+ text_of (take n reads) ∧ contains CRLF2 text = true.
Proof.
  revert now request; induction reads as [|[arrival event] reads IH]; intros now request;
    cbn [read_request]; [intros [= <- <-]; split_and!; [lia..|done|done]|].
  destruct (timeout_at deadline now arrival) as [t1|] eqn:Ht;
    [|intros [= <- <-]; split_and!; [lia..|done|done]].
  apply timeout_at_bound in Ht. destruct event as [s| |];
    [|intros [= <- <-]; split_and!; [lia..|done|done]..].
  destruct (contains _ _) eqn:Hc.
  { intros [= <- <-]. split_and!; [lia..|done|]. intros text [= <-]. exists 1. simpl.
    by rewrite str_app_nil_r. }
  destruct (_ <=? _)%nat; [intros [= <- <-]; split_and!; [lia..|done|done]|].
  intros (Hb & Hp & Hr)%IH. split_and!; [lia..|done|]. intros text Htext.
  destruct (Hr text Htext) as (n & -> & ?). exists (S n). simpl. by rewrite str_app_assoc in *.
Qed.

Lemma parse_no_panic request path' state :
  parse_authorization_callback request path' state ≠ Panic.
Proof.
  unfold parse_authorization_callback. destruct (request_target_of _); [|done]. run_ok.
  cbn [ok_or mbind outcome_bind]. destruct (url_parse _); [|done]. cbn [ok_or mbind outcome_bind].
  repeat case_match; try done. by destruct (query_params _ !! "code").
Qed.

Lemma read_callback_spec path' state deadline now reads r t :
  read_authorization_callback path' state deadline now reads = (r, t) → (now ≤ deadline)%Z →
  (now ≤ t ≤ deadline)%Z ∧ r ≠ Panic ∧
  ∀ c, r = Ok (Code c) → ∃ n, code_request (text_of (take n reads)) path' state c.
Proof.
  unfold read_authorization_callback. intros H Hle.
  destruct (read_request _ _ _ _) as [r0 t0] eqn:Hr. injection H as <- <-.
  apply read_request_spec in Hr as (Ht & Hp & Hr). unfold READ_TIMEOUT in Ht. split; [lia|].
  destruct r0 as [text|e|]; run_ok; [|done..]. destruct (Hr text eq_refl) as (n & Htext & _).
  split; [case_match; [apply parse_no_panic|done]|]. intros c. case_match; [|done].
  intros Hc%parse_code_spec. exists n. by rewrite Htext in Hc.
Qed.

(** What the loop guarantees from any point before the deadline. *)
Lemma accept_loop_spec path' state deadline now conns r t responses :
  accept_loop path' state deadline now conns = (r, t, responses) → (now < deadline)%Z →
  (now ≤ t ≤ deadline)%Z ∧
  ∀ code, r = Ok code → ∃ i arrival reads n,
    conns !! i = Some (arrival, Accepted reads) ∧
    code_request (text_of (take n reads)) path' state code ∧
    responses = (replicate i false ++ [true])%list.
Proof.
  revert now r t responses; induction conns as [|[arrival accepted] conns IH];
    intros now r t responses; cbn [accept_loop]; [intros [= <- <- <-] ?; split; [lia|done]|].
  destruct (timeout_at deadline now arrival) as [t1|] eqn:Ht;
    [|intros [= <- <- <-] ?; split; [lia|done]].
  apply timeout_at_bound in Ht. destruct accepted as [reads|]; [|intros [= <- <- <-] ?; split; [lia|done]].
  destruct (read_authorization_callback _ _ _ _ _) as [r0 t0] eqn:Hr. intros H Hlt.
  apply read_callback_spec in Hr as (Hb & Hp & Hc); [|lia].
  destruct r0 as [[code|m]|e|]; [| | |done].
  - injection H as <- <- <-. split; [lia|]. intros c [= <-].
    destruct (Hc code eq_refl) as [n Hn]. by exists 0, arrival, reads, n.
  - injection H as <- <- <-. split; [lia|done].
  - destruct (Z.leb_spec deadline t0); [injection H as <- <- <-; split; [lia|done]|].
    destruct (accept_loop path' state deadline t0 conns) as [[r1 t2] resp] eqn:Hl.
    injection H as <- <- <-. apply IH in Hl as [Hb' Ho]; [|done]. split; [lia|].
    intros code Hcode. destruct (Ho code Hcode) as (i & a & rd & n & Hi & Hn & ->).
    by exists (S i), a, rd, n.
Qed.

(** * Properties *)

(** C16: The token source of a configuration: building it succeeds exactly when
    the configuration is well typed, and then the source is the one of its flow: the
    client authenticates if and only if it has a secret, with the method the
    configuration names when it names one; the issuer is reached over https, or
    http on a loopback host; the callback server of the code flow binds a
    loopback address at the nonzero port of the redirect URI, which agrees with
    the port asked for; a managed identity has one scope and no
    resource or audience.  The method is checked against the secret for every flow:
    also for a managed identity, which never uses either and whose documentation
    says that it ignores the method ([managed_identity_checks_method]). *)
Theorem build_token_source_typed (config : OAuthConfig) (s : TokenSource)
    (Hbuilds : client_builds = true) :
  build_token_source config = Ok s ↔ scopes config ≠ [] ∧ source_typed config s.
Proof.
  unfold build_token_source. split.
  - destruct (is_azure (flow config) && _) eqn:Haz; [done|].
    destruct (bool_decide (scopes config = [])) eqn:Hsc; [done|].
    apply bool_decide_eq_false_1 in Hsc. intros (m & Hm & H)%bind_Ok. split; [done|].
    destruct (flow config) as [|options| |cid] eqn:Hf.
    + unfold client_credentials_new in H. destruct (client_secret config) eqn:Hs; [|done].
      apply fmap_Ok in H as (o & Ho & <-). apply typed_credentials; [done|by rewrite Hs|].
      apply oidc_client_spec; [done|]. exists m. by rewrite Hs.
    + apply bind_Ok in H as (rd & [url Hr]%resolved_redirect_spec & H).
      apply bind_Ok in H as (o & Ho & [= <-]). eapply typed_code; [done..|].
      apply oidc_client_spec; [done|]. by exists m.
    + apply fmap_Ok in H as (o & Ho & <-). apply typed_device; [done|].
      apply oidc_client_spec; [done|]. by exists m.
    + unfold azure_imds_new, resource_from_scopes, build_http_client in H. rewrite Hbuilds in H.
      simpl in Haz. apply orb_false_iff in Haz as [Hr Ha]. to_prop.
      destruct (scopes config) as [|sc [|]] eqn:Hscs; [done| |done]. injection H as <-.
      destruct (resource config) eqn:?; [by destruct Hr|].
      destruct (audience config) eqn:?; [by destruct Ha|].
      apply typed_azure; try done. by rewrite Hm.
  - intros [Hsc Hs]. destruct Hs as [o Hf Hsec Hc|o options rd url Hf Hr Hc|o Hf Hc|cid scope Hf Hr Ha Hscs Hm];
      rewrite Hf; simpl; rewrite (bool_decide_eq_false_2 (scopes config = []) Hsc).
    1-3: apply oidc_client_spec in Hc as (m & -> & Ho); [|done]; run_ok.
    + unfold client_credentials_new. destruct (client_secret config); [|done]. by rewrite Ho.
    + unfold authorization_code_new.
      assert (resolved_redirect options = Ok rd) as -> by (apply resolved_redirect_spec; eauto).
      run_ok. by rewrite Ho.
    + by rewrite Ho.
    + rewrite Hr, Ha. simpl. destruct (resolve_client_auth_method _ _); [|done..]. run_ok.
      unfold azure_imds_new, build_http_client. rewrite Hscs, Hbuilds. done.
Qed.

(** The authorization code: the callback server answers within five minutes,
    whatever connects to it, and a code it returns was carried by a GET request
    of one connection for the path of the redirect URI and with the state of this very
    login, which reports no error; every connection before it was answered
    with a failure and that one with success. *)
Theorem callback_code_origin (path' state : string) (now : Z) (conns : list (Z * Accept))
    (r : result string) (t : Z) (responses : list bool)
    (Hwait : wait_for_callback path' state now conns = (r, t, responses)) :
  (now ≤ t ≤ now + 300 * 1000)%Z ∧
  ∀ code, r = Ok code → ∃ i arrival reads n,
    conns !! i = Some (arrival, Accepted reads) ∧
    code_request (text_of (take n reads)) path' state code ∧
    responses = (replicate i false ++ [true])%list.
Proof.
  unfold wait_for_callback, AUTHORIZATION_CALLBACK_TIMEOUT in Hwait.
  apply accept_loop_spec in Hwait as [Ht Hc]; [|lia]. split; [lia|done].
Qed.

(** A managed identity with a method that needs a secret, and without one, is
    refused. *)
Lemma managed_identity_checks_method (config : OAuthConfig) cid m :
  flow config = AzureManagedIdentity cid → client_auth_method config = Some m → m ≠ NoAuth →
  client_secret config = None → ∀ s, build_token_source config ≠ Ok s.
Proof.
  intros Hf Hm Hne Hs s. unfold build_token_source. destruct (_ && _); [done|]. destruct (bool_decide _); [done|].
  rewrite Hm, Hs. by destruct m.
Qed.

End urls.

(** A parser of the forms the witnesses use. *)
#[local] Instance demo_urls : UrlParser := λ s,
  if decide (s = "http://127.0.0.1:8400/callback") then
    Some (mkUrl "http" (Some (Ipv4 LOCALHOST)) (Some 8400%Z) "/callback" None None [])
  else if decide (s = "https://idp") then
    Some (mkUrl "https" (Some (Domain "idp")) None "/" None None [])
  else if decide (s = "http://loopback/callback?code=c&state=s") then
    Some (mkUrl "http" (Some (Domain "loopback")) None "/callback" (Some "code=c&state=s") None
            [("code", "c"); ("state", "s")])
  else if decide (s = "http://loopback/callback?code=evil&state=other") then
    Some (mkUrl "http" (Some (Domain "loopback")) None "/callback" (Some "code=evil&state=other") None
            [("code", "evil"); ("state", "other")])
  else None.
#[local] Instance demo_builder : HttpBuilder := true.

Definition demo_config : OAuthConfig :=
  mkConfig "https://idp" "app" None ["openid"] None None (AuthorizationCode default_options)
    None None None.
Definition demo_client : OidcClient := mkOidc "https://idp" "app" None NoAuth ["openid"] None None.
Definition demo_redirect : ResolvedRedirect :=
  mkRedirect "http://127.0.0.1:8400/callback" (V4 LOCALHOST) 8400 "/callback".

Lemma build_token_source_typed_witness :
  build_token_source demo_config =
    Ok (AuthorizationCodeSource demo_client default_options demo_redirect) ∧
  source_typed demo_config (AuthorizationCodeSource demo_client default_options demo_redirect).
Proof.
  assert (build_token_source demo_config =
    Ok (AuthorizationCodeSource demo_client default_options demo_redirect)) as H
    by (vm_compute; reflexivity).
  split; [exact H|]. exact (proj2 (proj1 (build_token_source_typed _ _ eq_refl) H)).
Defined.

(** A forged request is ignored, the browser's is accepted. *)
Definition demo_conns : list (Z * Accept) :=
  [(100, Accepted [(100, Bytes ("GET /callback?code=evil&state=other HTTP/1.1" +:+ CRLF2))]);
   (200, Accepted [(210, Bytes "GET /callback?code=c&st"); (220, Bytes ("ate=s HTTP/1.1" +:+ CRLF2))])]%Z.

Lemma callback_code_origin_witness :
  wait_for_callback "/callback" "s" 0 demo_conns = (Ok "c", 220%Z, [false; true]) ∧
  ∃ i arrival reads n,
    demo_conns !! i = Some (arrival, Accepted reads) ∧
    code_request (text_of (take n reads)) "/callback" "s" "c" ∧
    [false; true] = (replicate i false ++ [true])%list.
Proof.
  assert (wait_for_callback "/callback" "s" 0 demo_conns = (Ok "c", 220%Z, [false; true])) as H
    by (vm_compute; reflexivity).
  split; [exact H|]. exact (proj2 (callback_code_origin _ _ _ _ _ _ _ H) "c" eq_refl).
Defined.

(** The url crate reports no port when it is the default one of the scheme:
    a redirect to port 80 is refused although it names its port. *)
Lemma default_port_refused `{U : UrlParser}
    (Hdefault : ∀ s url, url_parse s = Some url → scheme url = "http" → port url ≠ Some 80%Z)
    (o : AuthorizationCodeOptions) r :
  callback_port o = Some 80%Z → resolved_redirect o ≠ Ok r.
Proof.
  intros Hp (url & [Hu Hparse Hs _ _ _ [Hport _] Ha _])%resolved_redirect_spec.
  rewrite <-(Ha _ Hp) in Hport. by apply (Hdefault _ _ Hparse Hs).
Qed.

End OAuthConfig.
