(* ===== verification/OAuthToken.v ===== *)
(** * Tokens and the header provider (remote/oauth.rs)

    The token responses of a provider, the in-memory state of a session and
    [OAuthHeaderProvider]: callers take the read lock for a token that is still
    valid and otherwise queue for the write lock, where one of them
    refreshes or acquires.  The token source and the persistent cache are interfaces
    ([TokenSource], [TokenCache] of the code); OAuthFlow and TokenCache implement them.
    Any number of callers interleave with each other and with the passing of
    time. *)

From S2P Require Import Prelude RustStr Floats.
From Stdlib Require Import SpecFloat.

Module OAuthToken.
Local Open Scope string_scope.

(** ** Responses *)
Definition DEFAULT_REFRESH_BUFFER_SECS : Z := 300.
Definition DEFAULT_TOKEN_TTL_SECS : Z := 3600.

Record TokenResponse : Type := mkResponse {
  access_token : string;
  refresh_token : option string;
  expires_in : option Z
}.

(** The visitor of [deserialize_optional_u64_or_string]: what the JSON parser
    calls it with, and [None] for the error it returns. *)
Inductive Visit : Type :=
  | VisitU64 (v : Z)
  | VisitI64 (v : Z)
  | VisitF64 (v : F64.t)
  | VisitStr (v : string)
  | VisitNone
  | VisitUnit.

(** [v.fract() != 0.0] of a finite [v], and [v as u64] of one that is an
    integer: truncated and saturated. *)
Definition f64_trunc (v : F64.t) : Z :=
  match v with
  | S754_finite s m e =>
      let a := if (0 <=? e)%Z then (Zpos m * 2 ^ e)%Z else (Zpos m / 2 ^ (- e))%Z in
      if s then (- a)%Z else a
  | _ => 0%Z
  end.
Definition f64_integral (v : F64.t) : bool :=
  match v with
  | S754_finite _ m e => (0 <=? e)%Z || (Zpos m mod 2 ^ (- e) =? 0)%Z
  | S754_zero _ => true
  | _ => false
  end.
Definition f64_finite (v : F64.t) : bool :=
  match v with S754_finite _ _ _ | S754_zero _ => true | _ => false end.
Definition f64_as_u64 (v : F64.t) : Z := Z.max 0 (Z.min (f64_trunc v) (U64 - 1)).

Definition deserialize_optional_u64_or_string (v : Visit) : option (option Z) :=
  match v with
  | VisitU64 v => Some (Some v)
  | VisitI64 v => if (v <? 0)%Z then None else Some (Some v)
  | VisitF64 v =>
      if negb (f64_finite v) || F64.ltb v F64.zero || negb (f64_integral v)
         || F64.ltb (F64.of_Z (U64 - 1)) v
      then None
      else Some (Some (f64_as_u64 v))
  | VisitStr v => Some <$> parse_u64 v
  | VisitNone | VisitUnit => Some None
  end.

Inductive RefreshResult : Type :=
  | Refreshed (response : TokenResponse)
  | Reauthenticate
  | Unsupported.

(** ** Time

    An instant is in milliseconds; the platform's clock holds [i64] seconds and
    [Instant + Duration] panics beyond them. *)
Definition instant_add (now secs : Z) : result Z :=
  let t := (now + secs * 1000)%Z in
  if (t / 1000 <? I63)%Z then Ok t else Panic.

(** ** [TokenState] *)
Record TokenState : Type := mkState {
  st_access_token : option string;
  st_refresh_token : option string;
  st_expires_at : option Z
}.
Definition token_state_new : TokenState := mkState None None None.

Definition is_expired (s : TokenState) (buffer now : Z) : result bool :=
  match st_access_token s, st_expires_at s with
  | Some _, Some expires_at => t ← instant_add now buffer; Ok (expires_at <=? t)%Z
  | None, _ => Ok true
  | Some _, None => Ok true
  end.

Definition lifetime (r : TokenResponse) : Z := default DEFAULT_TOKEN_TTL_SECS (expires_in r).

Definition update (s : TokenState) (resp : TokenResponse) (now : Z) : result TokenState :=
  let refresh := match refresh_token resp with Some t => Some t | None => st_refresh_token s end in
  expires_at ← instant_add now (lifetime resp);
  Ok (mkState (Some (access_token resp)) refresh (Some expires_at)).

(** ** The token source and the persistent cache *)
Class TokenSource (W : Type) : Type := {
  fetch_token : W → result TokenResponse * W;
  source_refresh_token : string → W → result RefreshResult * W;
  now : W → Z
}.

(** [TokenCache::refresh_or_acquire] over the same source. *)
Definition CacheOp (W : Type) : Type := W → result TokenResponse * W.

Section provider.
Context {W : Type} `{TokenSource W}.

(** [OAuthHeaderProvider] without its state. *)
Record Provider : Type := mkProvider {
  refresh_buffer : Z;
  token_cache : option (CacheOp W)
}.

Definition provider_new (refresh_buffer_secs : option Z) (cache : option (CacheOp W)) : Provider :=
  mkProvider (default DEFAULT_REFRESH_BUFFER_SECS refresh_buffer_secs) cache.

(** The token of the state, if it is valid: the body of both checks. *)
Definition valid_token (p : Provider) (s : TokenState) (t : Z) : result (option string) :=
  expired ← is_expired s (refresh_buffer p) t;
  Ok (if negb expired then st_access_token s else None).

(** The state keeps its tokens; a rejected refresh token is dropped before the
    new acquisition. *)
Definition drop_refresh (s : TokenState) : TokenState :=
  mkState (st_access_token s) None (st_expires_at s).

Definition acquire (p : Provider) (s : TokenState) (w : W)
    : result TokenResponse * TokenState * W :=
  match token_cache p with
  | Some refresh_or_acquire => let '(r, w) := refresh_or_acquire w in (r, s, w)
  | None =>
      match st_refresh_token s with
      | Some token =>
          match source_refresh_token token w with
          | (Ok (Refreshed response), w) => (Ok response, s, w)
          | (Ok Unsupported, w) => let '(r, w) := fetch_token w in (r, s, w)
          | (Ok Reauthenticate, w) => let '(r, w) := fetch_token w in (r, drop_refresh s, w)
          | (Err e, w) => (Err e, s, w)
          | (Panic, w) => (Panic, s, w)
          end
      | None => let '(r, w) := fetch_token w in (r, s, w)
      end
  end.

(** What a caller does with what it acquired, under the write lock. *)
Definition store_response (s : TokenState) (r : result TokenResponse) (t : Z)
    : result string * TokenState :=
  match r with
  | Ok resp =>
      match update s resp t with
      | Ok s => (Ok (access_token resp), s)
      | Err e => (Err e, s)
      | Panic =>
          (Panic, mkState (Some (access_token resp))
             (match refresh_token resp with Some t => Some t | None => st_refresh_token s end)
             (st_expires_at s))
      end
  | Err e => (Err e, s)
  | Panic => (Panic, s)
  end.

(** The section of [get_valid_token] under the write lock. *)
Definition locked_section (p : Provider) (s : TokenState) (w : W)
    : result string * TokenState * W :=
  match valid_token p s (now w) with
  | Ok (Some token) => (Ok token, s, w)
  | Ok None =>
      let '(r, s, w) := acquire p s w in
      let '(r, s) := store_response s r (now w) in
      (r, s, w)
  | Err e => (Err e, s, w)
  | Panic => (Panic, s, w)
  end.

(** [get_valid_token] of a caller that nobody interleaves with. *)
Definition get_valid_token (p : Provider) (s : TokenState) (w : W)
    : result string * TokenState * W :=
  match valid_token p s (now w) with
  | Ok (Some token) => (Ok token, s, w)
  | Ok None => locked_section p s w
  | Err e => (Err e, s, w)
  | Panic => (Panic, s, w)
  end.

Definition headers_of (token : string) : gmap string string :=
  {[ "authorization" := "Bearer " +:+ token; "x-lancedb-credential-type" := "oidc" ]}.
Definition get_headers (p : Provider) (s : TokenState) (w : W)
    : result (gmap string string) * TokenState * W :=
  let '(r, s, w) := get_valid_token p s w in (headers_of <$> r, s, w).

(** ** Concurrent callers

    A caller takes the read lock, and if that does not answer, the write lock; what it
    does under the write lock is one step, since nobody else holds the lock
    meanwhile. *)
Inductive Caller : Type :=
  | Start
  | Waiting
  | Finished (r : result string).

Record Contact : Type := mkContact {
  c_start : Z;
  c_end : Z;
  c_used : option string;
  c_rejected : bool;
  c_response : result TokenResponse
}.

(** What a step shows: a token served from memory and when, or a contact with
    the token source. *)
Inductive Label : Type :=
  | Served (token : string) (t : Z)
  | Contacted (c : Contact).

Record Session : Type := mkSession {
  state : TokenState;
  world : W;
  callers : list Caller
}.

Definition session_new (w : W) (n : nat) : Session :=
  mkSession token_state_new w (replicate n Start).

(** Whether the provider answers the refresh of a contact with a request to
    authenticate again. *)
Definition rejected (p : Provider) (s : TokenState) (w : W) : bool :=
  match token_cache p, st_refresh_token s with
  | None, Some token =>
      match source_refresh_token token w with (Ok Reauthenticate, _) => true | _ => false end
  | _, _ => false
  end.

Inductive session_step (p : Provider) : Session → option Label → Session → Prop :=
  | step_time σ w' :
      (now (world σ) ≤ now w')%Z →
      session_step p σ None (mkSession (state σ) w' (callers σ))
  | step_fast σ i token :
      callers σ !! i = Some Start →
      valid_token p (state σ) (now (world σ)) = Ok (Some token) →
      session_step p σ (Some (Served token (now (world σ))))
        (mkSession (state σ) (world σ) (<[i := Finished (Ok token)]> (callers σ)))
  | step_queue σ i :
      callers σ !! i = Some Start →
      valid_token p (state σ) (now (world σ)) = Ok None →
      session_step p σ None (mkSession (state σ) (world σ) (<[i := Waiting]> (callers σ)))
  | step_overflow σ i c :
      callers σ !! i = Some c → c = Start ∨ c = Waiting →
      valid_token p (state σ) (now (world σ)) = Panic →
      session_step p σ None (mkSession (state σ) (world σ) (<[i := Finished Panic]> (callers σ)))
  | step_double_check σ i token :
      callers σ !! i = Some Waiting →
      valid_token p (state σ) (now (world σ)) = Ok (Some token) →
      session_step p σ (Some (Served token (now (world σ))))
        (mkSession (state σ) (world σ) (<[i := Finished (Ok token)]> (callers σ)))
  | step_contact σ i s1 r w' s2 res :
      callers σ !! i = Some Waiting →
      valid_token p (state σ) (now (world σ)) = Ok None →
      acquire p (state σ) (world σ) = (r, s1, w') →
      store_response s1 r (now w') = (res, s2) →
      session_step p σ
        (Some (Contacted (mkContact (now (world σ)) (now w') (st_refresh_token (state σ))
                            (rejected p (state σ) (world σ)) r)))
        (mkSession s2 w' (<[i := Finished res]> (callers σ))).

Inductive session_run (p : Provider) : Session → list Label → Session → Prop :=
  | run_nil σ : session_run p σ [] σ
  | run_snoc σ ls σ1 l σ2 :
      session_run p σ ls σ1 → session_step p σ1 l σ2 →
      session_run p σ (ls ++ option_list l)%list σ2.

(** ** What the steps show, and what they ought to *)
Definition contacts (ls : list Label) : list Contact :=
  omap (λ l, match l with Contacted c => Some c | Served _ _ => None end) ls.

(** The refresh token the session holds after a contact. *)
Definition refresh_after (held : option string) (c : Contact) : option string :=
  match c_response c with
  | Ok resp =>
      match refresh_token resp with
      | Some t => Some t
      | None => if c_rejected c then None else held
      end
  | _ => if c_rejected c then None else held
  end.

(** The token of a contact, and when it runs out. *)
Definition grants (c : Contact) (token : string) (t : Z) : Prop :=
  ∃ resp, c_response c = Ok resp ∧ access_token resp = token ∧
    t = (c_end c + lifetime resp * 1000)%Z.

(** The last contact that got a token. *)
Definition granted (c : Contact) : Prop := is_ok (c_response c) = true.
#[local] Instance granted_dec c : Decision (granted c).
Proof. unfold granted. apply _. Defined.
Definition last_granted (cs : list Contact) : option Contact := last (filter granted cs).

(** No response asks for a lifetime beyond the clock. *)
Definition representable (c : Contact) : Prop :=
  ∀ resp, c_response c = Ok resp → ((c_end c + lifetime resp * 1000) / 1000 < I63)%Z.

(** The clock of the source never goes back. *)
Class TokenSourceLaws : Prop := {
  fetch_time w r w' : fetch_token w = (r, w') → (now w ≤ now w')%Z;
  refresh_time tok w r w' : source_refresh_token tok w = (r, w') → (now w ≤ now w')%Z
}.
Definition cache_time (p : Provider) : Prop :=
  ∀ op w r w', token_cache p = Some op → op w = (r, w') → (now w ≤ now w')%Z.

(** * Lemmas *)
Lemma contacts_app ls ks : contacts (ls ++ ks)%list = (contacts ls ++ contacts ks)%list.
Proof. apply omap_app. Qed.

Lemma last_granted_snoc cs c :
  last_granted (cs ++ [c])%list = if decide (granted c) then Some c else last_granted cs.
Proof.
  unfold last_granted. rewrite filter_app. cbn [filter list_filter].
  destruct (decide (granted c)); [by rewrite last_snoc|by rewrite app_nil_r].
Qed.

Lemma instant_add_Ok t secs t' : instant_add t secs = Ok t' → t' = (t + secs * 1000)%Z.
Proof. unfold instant_add. case_match; naive_solver. Qed.

Lemma valid_token_some p s t token :
  valid_token p s t = Ok (Some token) →
  st_access_token s = Some token ∧
  ∃ e, st_expires_at s = Some e ∧ (t + refresh_buffer p * 1000 < e)%Z.
Proof.
  unfold valid_token, is_expired. destruct (st_access_token s) eqn:Ha, (st_expires_at s) as [e|] eqn:He;
    simpl; try done.
  destruct (instant_add t (refresh_buffer p)) as [t'| |] eqn:Ht; [|done..]. simpl.
  apply instant_add_Ok in Ht as ->. destruct (Z.leb_spec e (t + refresh_buffer p * 1000)); simpl; [done|].
  intros [= <-]. split; [done|]. by exists e.
Qed.

Lemma valid_token_none p s t e :
  valid_token p s t = Ok None → st_access_token s ≠ None → st_expires_at s = Some e →
  (e ≤ t + refresh_buffer p * 1000)%Z.
Proof.
  unfold valid_token, is_expired. intros Hv Ha He. destruct (st_access_token s) as [a|]; [|done].
  rewrite He in Hv. simpl in Hv. destruct (instant_add t (refresh_buffer p)) as [t'| |] eqn:Ht; [|done..].
  apply instant_add_Ok in Ht as ->. simpl in Hv.
  by destruct (Z.leb_spec e (t + refresh_buffer p * 1000)).
Qed.

(** Acquiring changes nothing of the state but a rejected refresh token. *)
Lemma acquire_spec p s w r s' w' `{TokenSourceLaws} (Hc : cache_time p) :
  acquire p s w = (r, s', w') →
  (now w ≤ now w')%Z ∧ s' = if rejected p s w then drop_refresh s else s.
Proof.
  unfold acquire, rejected. destruct (token_cache p) as [op|] eqn:Hop.
  { destruct (op w) as [r0 w0] eqn:Hw. intros [= <- <- <-]. split; [by eapply Hc|done]. }
  destruct (st_refresh_token s) as [token|] eqn:Hs.
  - destruct (source_refresh_token token w) as [[[resp| |]|e|] w0] eqn:Hr;
      apply refresh_time in Hr; [by intros [= <- <- <-]; auto| | |by intros [= <- <- <-]; auto..];
      destruct (fetch_token w0) as [r1 w1] eqn:Hf; apply fetch_time in Hf;
      intros [= <- <- <-]; (split; [lia|done]).
  - destruct (fetch_token w) as [r1 w1] eqn:Hf. apply fetch_time in Hf.
    intros [= <- <- <-]. auto.
Qed.

(** The session after the contacts [cs]. *)
Record session_inv (p : Provider) (cs : list Contact) (σ : Session) : Prop := {
  inv_token : match last_granted cs with
    | None => st_access_token (state σ) = None ∧ st_expires_at (state σ) = None
    | Some c => ∃ token e, grants c token e ∧
        st_access_token (state σ) = Some token ∧ st_expires_at (state σ) = Some e
    end;
  inv_time : Forall (λ c, c_start c ≤ c_end c ≤ now (world σ))%Z cs;
  inv_spacing : ∀ i j c d token e, cs !! i = Some c → cs !! j = Some d → (i < j)%nat →
    grants c token e → (e ≤ c_start d + refresh_buffer p * 1000)%Z;
  inv_refresh : st_refresh_token (state σ) = foldl refresh_after None cs;
  inv_used : ∀ i c, cs !! i = Some c → c_used c = foldl refresh_after None (take i cs)
}.

Lemma session_inv_time p cs σ w' cl :
  session_inv p cs σ → (now (world σ) ≤ now w')%Z →
  session_inv p cs (mkSession (state σ) w' cl).
Proof.
  intros [Ht Hti Hs Hr Hu] Hw. split; try done; simpl.
  eapply Forall_impl; [exact Hti|]. simpl. intros; lia.
Qed.

Lemma grants_granted c token e : grants c token e → granted c.
Proof. intros (resp & Hr & _). unfold granted. by rewrite Hr. Qed.

Lemma granted_last cs i c : cs !! i = Some c → granted c →
  ∃ k d, last_granted cs = Some d ∧ cs !! k = Some d ∧ (i ≤ k)%nat.
Proof.
  revert i; induction cs as [|d cs IH] using rev_ind; intros i Hi Hg; [done|].
  rewrite last_granted_snoc. apply lookup_snoc_Some in Hi as [[Hlt Hi]|[-> ->]].
  - destruct (decide (granted d)).
    + exists (length cs), d. split; [done|]. split; [by apply list_lookup_middle|lia].
    + destruct (IH i Hi Hg) as (k & d' & Hd & Hk & ?). exists k, d'. split; [done|].
      split; [|done]. by apply lookup_app_l_Some.
  - rewrite decide_True by done. exists (length cs), c. split; [done|].
    split; [by apply list_lookup_middle|lia].
Qed.

(** When a caller contacts the source, every token granted so far has run out
    up to the buffer. *)
Lemma contact_after_expiry p cs σ i c token e :
  session_inv p cs σ → valid_token p (state σ) (now (world σ)) = Ok None →
  cs !! i = Some c → grants c token e →
  (e ≤ now (world σ) + refresh_buffer p * 1000)%Z.
Proof.
  intros [Ht Hti Hs _ _] Hv Hi Hg.
  destruct (granted_last cs i c Hi) as (k & d & Hl & Hk & Hle); [by eapply grants_granted|].
  rewrite Hl in Ht. destruct Ht as (tok' & e' & Hg' & Ha & He).
  pose proof (valid_token_none p _ _ e' Hv ltac:(by rewrite Ha) He).
  destruct (decide (i = k)) as [->|].
  - assert (d = c) as -> by congruence. destruct Hg as (r1 & Hr1 & _ & ->), Hg' as (r2 & Hr2 & _ & ->).
    rewrite Hr1 in Hr2. injection Hr2 as <-. done.
  - pose proof (Hs i k c d token e Hi Hk ltac:(lia) Hg).
    rewrite Forall_lookup in Hti. specialize (Hti k d Hk). simpl in Hti. lia.
Qed.

Lemma store_response_spec s r t res s' : store_response s r t = (res, s') →
  (∀ resp, r = Ok resp → ((t + lifetime resp * 1000) / 1000 < I63)%Z) →
  match r with
  | Ok resp =>
      s' = mkState (Some (access_token resp))
             (match refresh_token resp with Some x => Some x | None => st_refresh_token s end)
             (Some (t + lifetime resp * 1000)%Z) ∧ res = Ok (access_token resp)
  | _ => s' = s
  end.
Proof.
  unfold store_response. destruct r as [resp|e|]; intros Hst Hr; [|congruence..].
  unfold update, instant_add in Hst. specialize (Hr resp eq_refl). apply Z.ltb_lt in Hr.
  rewrite Hr in Hst. simpl in Hst. injection Hst as <- <-. done.
Qed.

Lemma session_inv_contact p cs σ r s1 w' s2 res cl `{TokenSourceLaws}
    (Hc : cache_time p)
    (c := mkContact (now (world σ)) (now w') (st_refresh_token (state σ))
      (rejected p (state σ) (world σ)) r) :
  session_inv p cs σ → representable c →
  valid_token p (state σ) (now (world σ)) = Ok None →
  acquire p (state σ) (world σ) = (r, s1, w') → store_response s1 r (now w') = (res, s2) →
  session_inv p (cs ++ [c])%list (mkSession s2 w' cl).
Proof.
  intros Hinv Hrep Hv Ha Hst. pose proof (acquire_spec p _ _ _ _ _ Hc Ha) as [Htime Hs1].
  apply store_response_spec in Hst; [|exact Hrep].
  pose proof Hinv as [Ht Hti Hs Hrf Hu]. split; cbn [state world].
  - rewrite last_granted_snoc. destruct (decide (granted c)) as [Hg|Hg].
    + unfold granted in Hg. simpl in Hg. destruct r as [resp|e|]; [|done..]. destruct Hst as [-> _].
      exists (access_token resp), (now w' + lifetime resp * 1000)%Z. split; [|done]. by exists resp.
    + destruct r as [resp|e|]; [by destruct Hg|..]; rewrite Hst, Hs1; by destruct (rejected _ _ _).
  - apply Forall_app. split; [|constructor; [simpl; lia|done]].
    eapply Forall_impl; [exact Hti|]. simpl. intros; lia.
  - intros i j d d' token e Hi Hj Hij Hg. apply lookup_snoc_Some in Hj as [[Hlt Hj]|[-> <-]].
    + rewrite lookup_app_l in Hi by lia. exact (Hs i j d d' token e Hi Hj Hij Hg).
    + rewrite lookup_app_l in Hi by lia. simpl. by eapply contact_after_expiry.
  - rewrite foldl_app. cbn [foldl]. rewrite <-Hrf. unfold refresh_after. subst c. cbn [c_response c_rejected].
    destruct r as [resp|e|]; [destruct Hst as [-> _]; simpl; destruct (refresh_token resp); [done|]|subst s2..];
      rewrite Hs1; by destruct (rejected p (state σ) (world σ)).
  - intros i d Hi. apply lookup_snoc_Some in Hi as [[Hlt Hi]|[-> <-]].
    + rewrite take_app_le by lia. by apply Hu.
    + rewrite take_app_length. done.
Qed.

Lemma session_run_inv p w n ls σ `{TokenSourceLaws} (Hc : cache_time p) :
  session_run p (session_new w n) ls σ → Forall representable (contacts ls) →
  session_inv p (contacts ls) σ ∧
  ∀ pre token t post, ls = (pre ++ Served token t :: post)%list →
    ∃ c e, last_granted (contacts pre) = Some c ∧ grants c token e ∧
      (t + refresh_buffer p * 1000 < e)%Z.
Proof.
  intros Hrun. remember (session_new w n) as σ0 eqn:Hσ0.
  induction Hrun as [σ|σ ls σ1 l σ2 Hrun IH Hstep]; intros Hrep.
  { subst. split; [|intros []; done]. split; simpl; try done. }
  rewrite contacts_app, Forall_app in Hrep. destruct Hrep as [Hrep1 Hrep2].
  destruct (IH Hσ0 Hrep1) as [Hinv Hserved]. clear IH.
  assert (∀ token t, valid_token p (state σ1) (now (world σ1)) = Ok (Some token) →
    t = now (world σ1) → ∃ c e, last_granted (contacts ls) = Some c ∧ grants c token e ∧
      (t + refresh_buffer p * 1000 < e)%Z) as Hsv.
  { intros token t [Hat (e & He & Hlt)]%valid_token_some ->. destruct Hinv as [Ht _ _ _ _].
    destruct (last_granted (contacts ls)) as [c|]; [|by destruct Ht; congruence].
    destruct Ht as (token' & e' & Hg & Ha & He'). simplify_eq. by exists c, e'. }
  rewrite contacts_app.
  destruct Hstep as [τ w' Hw|τ i token Hi Hv|τ i Hi Hv|τ i c Hi Hcc Hv|τ i token Hi Hv
    |τ i s1 r w' s2 res Hi Hv Ha Hst]; unfold option_list in *; rewrite ?app_nil_r.
  1,3,4: split; [eapply session_inv_time; [done|simpl; lia]|done].
  1,2: split; [eapply session_inv_time; [done|simpl; lia]|].
  1,2: intros pre tok t post Heq; destruct post as [|x post _] using rev_ind;
    [apply app_inj_tail in Heq as [-> [= <- <-]]; by apply Hsv
    |rewrite app_comm_cons, app_assoc in Heq; apply app_inj_tail in Heq as [-> _]; by eapply Hserved].
  split.
  - apply (session_inv_contact p _ _ r s1 w' s2 res _ Hc Hinv); try done.
    by inversion Hrep2.
  - intros pre tok t post Heq. destruct post as [|x post _] using rev_ind;
      [by apply app_inj_tail in Heq as [_ [=]]
      |rewrite app_comm_cons, app_assoc in Heq; apply app_inj_tail in Heq as [-> _]; by eapply Hserved].
Qed.

(** * Properties *)

(** The header provider, for any number of callers in any interleaving with
    each other and with the passing of time: a token served from memory is the
    one of the last successful contact with the token source and does not run
    out within the refresh buffer; the source is contacted only when every token
    it has granted runs out within the buffer, so the callers that
    wait while a token is being acquired share it; and, without a persistent
    cache, every contact uses the refresh token that the contacts before it left: the
    last one granted, unless it was rejected since. *)
Theorem session_contacts (p : Provider) (w : W) (n : nat) (ls : list Label) (σ : Session)
    (Hlaws : TokenSourceLaws) (Hcache : cache_time p)
    (Hrun : session_run p (session_new w n) ls σ)
    (Hrep : Forall representable (contacts ls)) :
  (∀ pre token t post, ls = (pre ++ Served token t :: post)%list →
     ∃ c e, last_granted (contacts pre) = Some c ∧ grants c token e ∧
       (t + refresh_buffer p * 1000 < e)%Z) ∧
  (∀ i j c d token e, contacts ls !! i = Some c → contacts ls !! j = Some d → (i < j)%nat →
     grants c token e → (e ≤ c_start d + refresh_buffer p * 1000)%Z) ∧
  (token_cache p = None →
     ∀ i c, contacts ls !! i = Some c → c_used c = foldl refresh_after None (take i (contacts ls))).
Proof.
  destruct (session_run_inv p w n ls σ Hcache Hrun Hrep) as [[_ _ Hs _ Hu] Hserved].
  split; [done|]. split; [done|]. intros _. apply Hu.
Qed.

End provider.

(** A provider that rotates its refresh token; every request takes a second. *)
Module Rotating.
#[global] Instance source : TokenSource (Z * string) := {
  fetch_token w := (Ok (mkResponse "a" (Some "r1") (Some 600%Z)), (w.1 + 1000, "r1")%Z);
  source_refresh_token tok w :=
    if decide (tok = w.2)
    then (Ok (Refreshed (mkResponse "b" (Some "r2") None)), (w.1 + 1000, "r2")%Z)
    else (Ok Reauthenticate, (w.1 + 1000, w.2)%Z);
  now w := w.1
}.

Lemma source_laws : TokenSourceLaws.
Proof.
  split; simpl; [intros w r w' [= <- <-]; simpl; lia|].
  intros tok w r w'. destruct (decide _); intros [= <- <-]; simpl; lia.
Qed.

Definition provider : Provider (W := Z * string) := provider_new None None.

(** Two callers queue and share one acquisition; when the token is about to
    run out a third one refreshes it. *)
Definition first : Contact :=
  mkContact 0 1000 None false (Ok (mkResponse "a" (Some "r1") (Some 600%Z))).
Definition second : Contact :=
  mkContact 400000 401000 (Some "r1") false (Ok (mkResponse "b" (Some "r2") None)).
Definition labels : list Label := [Contacted first; Served "a" 1000; Contacted second].
Definition final : Session (W := Z * string) :=
  mkSession (mkState (Some "b") (Some "r2") (Some 4001000%Z)) (401000%Z, "r2")
    [Finished (Ok "a"); Finished (Ok "a"); Finished (Ok "b")].

Definition at_start (cs : list Caller) : Session (W := Z * string) :=
  mkSession token_state_new (0%Z, "") cs.
Definition with_a (t : Z) (cs : list Caller) : Session (W := Z * string) :=
  mkSession (mkState (Some "a") (Some "r1") (Some 601000%Z)) (t, "r1") cs.

Lemma run : session_run provider (session_new (0%Z, "") 3) labels final.
Proof.
  pose (a := Finished (Ok "a")).
  pose (s1 := at_start [Waiting; Start; Start]).
  pose (s2 := at_start [Waiting; Waiting; Start]).
  pose (s3 := with_a 1000 [a; Waiting; Start]).
  pose (s4 := with_a 1000 [a; a; Start]).
  pose (s5 := with_a 400000 [a; a; Start]).
  pose (s6 := with_a 400000 [a; a; Waiting]).
  assert (session_run provider (at_start [Start; Start; Start]) [] s1) as R1
    by exact (run_snoc _ _ _ _ _ _ (run_nil _ _)
                (step_queue _ (at_start [Start; Start; Start]) 0 eq_refl eq_refl)).
  assert (session_run provider (at_start [Start; Start; Start]) [] s2) as R2
    by exact (run_snoc _ _ _ _ _ _ R1 (step_queue _ s1 1 eq_refl eq_refl)).
  assert (session_run provider (at_start [Start; Start; Start]) [Contacted first] s3) as R3.
  { apply (run_snoc _ _ [] s2 (Some (Contacted first)) _ R2).
    exact (step_contact provider s2 0 (state s2) (c_response first) (1000%Z, "r1") (state s3)
             (Ok "a") eq_refl eq_refl eq_refl eq_refl). }
  pose proof (run_snoc _ _ _ _ _ _ R3 (step_double_check provider s3 1 "a" eq_refl eq_refl)) as R4.
  assert (now (world s4) ≤ now (400000%Z, "r1"))%Z as Ht by (simpl; lia).
  pose proof (run_snoc _ _ _ _ _ _ R4 (step_time provider s4 (400000%Z, "r1") Ht)) as R5.
  pose proof (run_snoc _ _ _ _ _ _ R5 (step_queue provider s5 2 eq_refl eq_refl)) as R6.
  apply (run_snoc _ _ [Contacted first; Served "a" 1000] s6 (Some (Contacted second)) _ R6).
  exact (step_contact provider s6 2 (state s6) (c_response second) (world final) (state final)
           (Ok "b") eq_refl eq_refl eq_refl eq_refl).
Qed.
End Rotating.

Lemma session_contacts_witness :
  session_run Rotating.provider (session_new (0%Z, "") 3) Rotating.labels Rotating.final ∧
  (∃ c e, last_granted (contacts [Contacted Rotating.first]) = Some c ∧ grants c "a" e ∧
     (1000 + 300 * 1000 < e)%Z) ∧
  (601000 ≤ 400000 + 300 * 1000)%Z ∧
  c_used Rotating.second = foldl refresh_after None [Rotating.first].
Proof.
  assert (cache_time Rotating.provider) as Hc by (intros op w r w' Hop; discriminate Hop).
  assert (Forall representable (contacts Rotating.labels)) as Hrep.
  { repeat constructor; intros resp [= <-]; vm_compute; reflexivity. }
  destruct (session_contacts Rotating.provider (0%Z, "") 3 Rotating.labels Rotating.final
    Rotating.source_laws Hc Rotating.run Hrep) as (Hserved & Hspaced & Hused).
  split; [exact Rotating.run|]. split.
  { exact (Hserved [Contacted Rotating.first] "a" 1000%Z [Contacted Rotating.second] eq_refl). }
  split; [|exact (Hused eq_refl 1 Rotating.second eq_refl)].
  apply (Hspaced 0 1 Rotating.first Rotating.second "a" 601000%Z eq_refl eq_refl); [lia|].
  eexists. split_and!; reflexivity.
Defined.

(** A lifetime the provider sends is not checked before it is added to the
    clock: a large one makes the caller panic. *)
Lemma huge_lifetime_panics s t a refresh :
  (0 ≤ t)%Z → update s (mkResponse a refresh (Some (2 ^ 63)%Z)) t = Panic.
Proof.
  intros Ht. unfold update, instant_add.
  change (lifetime _) with (2 ^ 63)%Z.
  destruct (Z.ltb_spec ((t + 2 ^ 63 * 1000) / 1000) I63); [|done].
  unfold I63 in *. rewrite Z.div_add in * by lia. pose proof (Z.div_pos t 1000). lia.
Qed.

(** The visitor accepts the float 2^64, which saturates. *)
Example float_lifetime_saturates :
  deserialize_optional_u64_or_string (VisitF64 (F64.of_Z (2 ^ 64))) = Some (Some (U64 - 1)%Z).
Proof. reflexivity. Qed.

End OAuthToken.
