(* ===== verification/OAuthFlow.v ===== *)
(** * The OAuth flows (remote/oauth.rs)

    The token sources as programs over the network: OIDC discovery with its
    cache, the authorization code flow, device authorization, client
    credentials, the Azure endpoint, and the refresh grant.  The network, the
    browser, the random generator, the clock and the oauth2 crate answer as functions
    of the history of everything the client did, so a theorem for
    every such environment covers every adversary.  The module implements the
    interface [TokenSource] of OAuthToken. *)

From Stdlib Require Import Ascii.
From S2P Require Import Prelude RustStr RustText OAuthConfig OAuthToken.

Module OAuthFlow.
Import OAuthConfig.
Local Open Scope string_scope.

(** ** Data *)
Record OidcDiscovery : Type := mkDiscovery {
  token_endpoint : string;
  authorization_endpoint : option string;
  device_authorization_endpoint : option string
}.

(** oauth2's [StandardDeviceAuthorizationResponse] as far as it is read. *)
Record DeviceAuthorization : Type := mkDevice {
  verification_uri : string;
  verification_uri_complete : option string;
  user_code : string;
  device_code : string
}.

Inductive OAuthHttpError : Type :=
  | Build (message : string)
  | Transport (error : string)
  | Transient (status : Z).

(** oauth2's [RequestTokenError]: what the provider reported, with its code,
    or how the request failed. *)
Inductive RequestTokenError : Type :=
  | ServerResponse (code : string)
  | RequestFailed (e : OAuthHttpError)
  | ParseFailed (error : string)
  | OtherFailed (message : string).

(** The grants of a request to the token or device endpoint. *)
Inductive Grant : Type :=
  | ClientCredentialsGrant (scopes : list string)
  | CodeGrant (code redirect : string) (verifier : option string)
  | RefreshGrant (token : string)
  | DeviceRequest (scopes : list string)
  | DeviceGrant (device : DeviceAuthorization).

(** A form the oauth2 crate posts. *)
Record Request : Type := mkRequest {
  endpoint : string;
  req_client_id : string;
  req_client_secret : option string;
  req_auth_type : AuthType;
  extra_params : list (string * string);
  grant : Grant
}.

(** The page the user authorizes on: the endpoint and the parameters of the
    URL the crate builds. *)
Record AuthorizationRequest : Type := mkAuthorization {
  auth_endpoint : string;
  auth_redirect : string;
  auth_scopes : list string;
  auth_params : list (string * string);
  auth_state : string;
  auth_challenge : option string
}.

(** What the client did. *)
Inductive Event : Type :=
  | Discovered (url : string)
  | Posted (r : Request)
  | BoundCallback (r : ResolvedRedirect)
  | Authorized (r : AuthorizationRequest)
  | Browsed (url : string)
  | AskedImds (url : string).

(** ** The environment *)
Inductive HttpReply (A : Type) : Type :=
  | SendFailed
  | BadStatus (status : Z) (body : string)
  | BadBody
  | Received (a : A).
Arguments SendFailed {A}.
Arguments BadStatus {A} status body.
Arguments BadBody {A}.
Arguments Received {A} a.

Class Environment : Type := {
  discovery_reply : list Event → HttpReply OidcDiscovery;
  token_reply : list Event → OAuthToken.TokenResponse + RequestTokenError;
  device_reply : list Event → DeviceAuthorization + RequestTokenError;
  imds_reply : list Event → HttpReply OAuthToken.TokenResponse;
  callback_binds : list Event → bool;
  connections : list Event → list (Z * Accept);
  random_state : list Event → string;
  random_pkce : list Event → string * string;
  clock : list Event → Z;
  urlencode : string → string
}.

(** ** HTTP transport *)

(** The redirect policy of the client: followed when it returns true. *)
Definition follows_redirect (url : Url) : bool := oauth_url_uses_secure_transport url.

Definition is_retryable_status_or_body (error_field : string → option string)
    (status : Z) (body : string) : bool :=
  if ((status =? 429) || ((500 <=? status) && (status <? 600)))%Z then true
  else match error_field body with
       | Some error => String.eqb error "temporarily_unavailable"
       | None => false
       end.

(** [OAuthHttpClient::call] once the response has arrived. *)
Definition oauth_http_call (error_field : string → option string) (status : Z) (body : string)
    : (Z * string) + OAuthHttpError :=
  if negb ((200 <=? status) && (status <? 300))%Z
     && is_retryable_status_or_body error_field status body
  then inr (Transient status) else inl (status, body).

Definition map_token_error (e : RequestTokenError) (context : string) : Error :=
  match e with
  | ServerResponse code => Runtime (context +:+ " failed: " +:+ code)
  | RequestFailed _ => Runtime (context +:+ " failed: {error}")
  | ParseFailed error => Runtime (context +:+ " response could not be parsed: " +:+ error)
  | OtherFailed message => Runtime (context +:+ " failed: " +:+ message)
  end.

Definition map_device_token_error (e : RequestTokenError) : Error :=
  match e with
  | ServerResponse code =>
      if String.eqb code "access_denied" then
        Runtime "Device authorization was denied by the user"
      else if String.eqb code "expired_token" then
        Runtime "Device authorization expired before authentication completed"
      else Runtime ("Device token request failed: " +:+ code)
  | RequestFailed _ => Runtime "Device token request failed: {error}"
  | ParseFailed error => Runtime ("Device token response could not be parsed: " +:+ error)
  | OtherFailed message => Runtime ("Device token request failed: " +:+ message)
  end.

(** The sleep between two polls, in milliseconds. *)
Definition poll_sleep (interval : Z) : Z := Z.max interval 1000.

(** ** Programs: the history and the cached discovery document *)
Record World : Type := mkWorld {
  history : list Event;
  discovery : option OidcDiscovery
}.
Definition IO (A : Type) : Type := World → result A * World.
#[export] Instance io_ret : MRet IO := λ A a w, (Ok a, w).
#[export] Instance io_bind : MBind IO := λ A B f m w,
  match m w with
  | (Ok a, w) => f a w
  | (Err e, w) => (Err e, w)
  | (Panic, w) => (Panic, w)
  end.
Definition lift {A} (r : result A) : IO A := λ w, (r, w).
Definition emit (e : Event) : IO unit :=
  λ w, (Ok tt, mkWorld (e :: history w) (discovery w)).
Definition ask {A} (f : list Event → A) : IO A := λ w, (Ok (f (history w)), w).

Section flows.
Context {U : UrlParser} {E : Environment}.

Definition open_reply {A} (what status_what parse_what : string) (r : HttpReply A) : result A :=
  match r with
  | SendFailed => Err (Runtime (what +:+ ": {e}"))
  | BadStatus status body => Err (Runtime (status_what +:+ " {}: " +:+ body))
  | BadBody => Err (Runtime (parse_what +:+ ": {e}"))
  | Received a => Ok a
  end.

Definition validate_optional (value : option string) (name : string) : result unit :=
  match value with
  | Some v => (λ _, tt) <$> validate_oauth_url v name
  | None => Ok tt
  end.

Definition discovery_url (o : OidcClient) : string :=
  trim_end_matches "/"%char (oidc_issuer_url o) +:+ "/.well-known/openid-configuration".

Definition keep_discovery (d : OidcDiscovery) : IO OidcDiscovery :=
  λ w, (Ok d, mkWorld (history w) (Some d)).

Definition fetch_discovery (o : OidcClient) : IO OidcDiscovery :=
  _ ← emit (Discovered (discovery_url o));
  reply ← ask discovery_reply;
  disc ← lift (open_reply "Failed to fetch OIDC discovery document"
                 "OIDC discovery failed with status"
                 "Failed to parse OIDC discovery document" reply);
  _ ← lift (validate_oauth_url (token_endpoint disc) "token_endpoint");
  _ ← lift (validate_optional (authorization_endpoint disc) "authorization_endpoint");
  _ ← lift (validate_optional (device_authorization_endpoint disc)
              "device_authorization_endpoint");
  keep_discovery disc.

(** The check of the cache and the double check under its write lock see the
    same document: a source is driven by one caller at a time. *)
Definition get_discovery (o : OidcClient) : IO OidcDiscovery := λ w,
  match discovery w with
  | Some d => (Ok d, w)
  | None => fetch_discovery o w
  end.

Definition target_params (o : OidcClient) : list (string * string) :=
  (match oidc_resource o with Some r => [("resource", r)] | None => [] end ++
   match oidc_audience o with Some a => [("audience", a)] | None => [] end)%list.

(** [base_client] with the endpoint and grant of a request. *)
Definition request_of (o : OidcClient) (endpoint : string) (g : Grant) : Request :=
  mkRequest endpoint (oidc_client_id o) (oidc_client_secret o)
    (auth_type (oidc_client_auth_method o)) (target_params o) g.

(** The URL types of the crate parse what they wrap. *)
Definition parse_endpoint (value name : string) : result string :=
  match url_parse value with
  | Some _ => Ok value
  | None => Err (InvalidInput ("Invalid OAuth " +:+ name +:+ ": {e}"))
  end.

Definition token_client (o : OidcClient) : IO string :=
  d ← get_discovery o; lift (parse_endpoint (token_endpoint d) "token_endpoint").

Definition post {A} (reply : list Event → A + RequestTokenError) (r : Request)
    : IO (A + RequestTokenError) :=
  _ ← emit (Posted r); ask reply.

Definition or_error {A} (context : string) (r : A + RequestTokenError) : result A :=
  match r with inl a => Ok a | inr e => Err (map_token_error e context) end.

Definition oidc_refresh_token (o : OidcClient) (token : string) : IO OAuthToken.RefreshResult :=
  endpoint ← token_client o;
  reply ← post token_reply (request_of o endpoint (RefreshGrant token));
  lift match reply with
  | inl response => Ok (OAuthToken.Refreshed response)
  | inr (ServerResponse "invalid_grant") | inr (ServerResponse "invalid_token") =>
      Ok OAuthToken.Reauthenticate
  | inr e => Err (map_token_error e "Refresh token request")
  end.

(** *** Client credentials *)
Definition client_credentials_fetch (o : OidcClient) : IO OAuthToken.TokenResponse :=
  endpoint ← token_client o;
  reply ← post token_reply (request_of o endpoint (ClientCredentialsGrant (oidc_scopes o)));
  lift (or_error ("Token request to " +:+ endpoint) reply).

(** *** Authorization code *)
Definition build_authorization_request (o : OidcClient) (options : AuthorizationCodeOptions)
    (redirect : ResolvedRedirect) : IO (AuthorizationRequest * option string) :=
  d ← get_discovery o;
  endpoint ← lift (ok_or (Runtime "OIDC discovery did not provide authorization_endpoint")
                     (authorization_endpoint d));
  auth_url ← lift (parse_endpoint endpoint "authorization_endpoint");
  redirect_url ← lift (parse_endpoint (uri redirect) "redirect_uri");
  pkce ← ask (λ h, if use_pkce options then Some (random_pkce h) else None);
  st ← ask random_state;
  lift (Ok (mkAuthorization auth_url redirect_url (oidc_scopes o) (target_params o) st
              (fst <$> pkce), snd <$> pkce)).

Definition exchange_code (o : OidcClient) (redirect : ResolvedRedirect) (code : string)
    (code_verifier : option string) : IO OAuthToken.TokenResponse :=
  endpoint ← token_client o;
  redirect_url ← lift (parse_endpoint (uri redirect) "redirect_uri");
  reply ← post token_reply (request_of o endpoint (CodeGrant code redirect_url code_verifier));
  lift (or_error ("Token request to " +:+ endpoint) reply).

Definition await_code (redirect : ResolvedRedirect) (expected_state : string) : IO string := λ w,
  let '(r, _, _) := wait_for_callback (callback_path redirect) expected_state
                      (clock (history w)) (connections (history w)) in (r, w).

Definition authorization_code_fetch (o : OidcClient) (options : AuthorizationCodeOptions)
    (redirect : ResolvedRedirect) : IO OAuthToken.TokenResponse :=
  bound ← ask callback_binds;
  _ ← lift (if bound : bool then Ok tt
            else Err (Runtime "Failed to bind OAuth callback server at {}: {e}"));
  _ ← emit (BoundCallback redirect);
  request ← build_authorization_request o options redirect;
  _ ← emit (Authorized (fst request));
  code ← await_code redirect (auth_state (fst request));
  exchange_code o redirect code (snd request).

(** *** Device code *)
Definition request_device_authorization (o : OidcClient) : IO DeviceAuthorization :=
  d ← get_discovery o;
  endpoint ← lift (ok_or (Runtime "OIDC discovery did not provide device_authorization_endpoint")
                     (device_authorization_endpoint d));
  device_url ← lift (parse_endpoint endpoint "device_authorization_endpoint");
  reply ← post device_reply (request_of o device_url (DeviceRequest (oidc_scopes o)));
  device ← lift (or_error ("Device authorization request to " +:+ endpoint) reply);
  _ ← lift (validate_oauth_url (verification_uri device) "verification_uri");
  _ ← lift (validate_optional (verification_uri_complete device) "verification_uri_complete");
  lift (Ok device).

(** The crate's polls count as one request: they post the same form. *)
Definition poll_for_token (o : OidcClient) (device : DeviceAuthorization)
    : IO OAuthToken.TokenResponse :=
  endpoint ← token_client o;
  reply ← post token_reply (request_of o endpoint (DeviceGrant device));
  lift match reply with inl r => Ok r | inr e => Err (map_device_token_error e) end.

Definition device_code_fetch (o : OidcClient) : IO OAuthToken.TokenResponse :=
  device ← request_device_authorization o;
  let '(browser_url, name) :=
    match verification_uri_complete device with
    | Some uri => (uri, "verification_uri_complete")
    | None => (verification_uri device, "verification_uri")
    end in
  _ ← lift (validate_oauth_url browser_url name);
  _ ← emit (Browsed browser_url);
  poll_for_token o device.

(** *** Azure managed identity *)
Definition AZURE_IMDS_ENDPOINT : string :=
  "http://169.254.169.254/metadata/identity/oauth2/token".
Definition AZURE_IMDS_API_VERSION : string := "2018-02-01".

Definition imds_url (client_id : option string) (resource : string) : string :=
  AZURE_IMDS_ENDPOINT +:+ "?api-version=" +:+ AZURE_IMDS_API_VERSION +:+ "&resource="
  +:+ urlencode resource
  +:+ match client_id with Some cid => "&client_id=" +:+ urlencode cid | None => "" end.

Definition azure_imds_fetch (client_id : option string) (resource : string)
    : IO OAuthToken.TokenResponse :=
  _ ← emit (AskedImds (imds_url client_id resource));
  reply ← ask imds_reply;
  lift (open_reply "Azure IMDS request failed" "Azure IMDS returned status"
          "Failed to parse IMDS token response" reply).

(** *** The [TokenSource] implementations *)
Definition source_fetch (s : TokenSource) : IO OAuthToken.TokenResponse :=
  match s with
  | ClientCredentialsSource o => client_credentials_fetch o
  | AuthorizationCodeSource o options redirect => authorization_code_fetch o options redirect
  | DeviceCodeSource o => device_code_fetch o
  | AzureImdsSource client_id resource => azure_imds_fetch client_id resource
  end.

Definition source_refresh (s : TokenSource) (token : string) : IO OAuthToken.RefreshResult :=
  match s with
  | AuthorizationCodeSource o _ _ | DeviceCodeSource o => oidc_refresh_token o token
  | ClientCredentialsSource _ | AzureImdsSource _ _ => lift (Ok OAuthToken.Unsupported)
  end.

#[export] Instance flow_source (s : TokenSource) : OAuthToken.TokenSource World := {
  fetch_token := source_fetch s;
  source_refresh_token := source_refresh s;
  now w := clock (history w)
}.

(** * Specification: what each thing the client does may be *)
Definition secure (value : string) : Prop :=
  ∃ url, url_parse value = Some url ∧ oauth_url_uses_secure_transport url = true.

Definition discovery_ok (d : OidcDiscovery) : Prop :=
  secure (token_endpoint d) ∧
  (∀ v, authorization_endpoint d = Some v → secure v) ∧
  (∀ v, device_authorization_endpoint d = Some v → secure v).
Definition discovery_secure (w : World) : Prop := ∀ d, discovery w = Some d → discovery_ok d.

Definition pkce_of (options : AuthorizationCodeOptions) (h : list Event) : option (string * string) :=
  if use_pkce options then Some (random_pkce h) else None.

(** A grant posted by [s] after the history [h]; [given] is the refresh token
    the caller passed.  A code is exchanged only right after the authorization it
    answers: some connection carried it with the state of that authorization,
    and the verifier is the one of its challenge. *)
Definition grant_ok (s : TokenSource) (given : option string) (o : OidcClient) (h : list Event)
    (g : Grant) : Prop :=
  match g with
  | ClientCredentialsGrant scopes => s = ClientCredentialsSource o ∧ scopes = oidc_scopes o
  | RefreshGrant token => given = Some token
  | DeviceRequest scopes => s = DeviceCodeSource o ∧ scopes = oidc_scopes o
  | DeviceGrant device => s = DeviceCodeSource o ∧
      ∃ h', h = Browsed (default (verification_uri device) (verification_uri_complete device)) :: h' ∧
        device_reply h' = inl device
  | CodeGrant code redirect verifier =>
      ∃ options r req h' i arrival reads n, s = AuthorizationCodeSource o options r ∧
        h = Authorized req :: h' ∧ redirect = uri r ∧
        connections h !! i = Some (arrival, Accepted reads) ∧
        code_request (text_of (take n reads)) (callback_path r) (auth_state req) code ∧
        verifier = snd <$> pkce_of options h'
  end.

Definition oidc_of (s : TokenSource) : option OidcClient :=
  match s with
  | ClientCredentialsSource o | DeviceCodeSource o | AuthorizationCodeSource o _ _ => Some o
  | AzureImdsSource _ _ => None
  end.

(** The parameters beside the grant: the configured resource and audience, each
    once, and no other *)
Definition targets_ok (o : OidcClient) (params : list (string * string)) : Prop :=
  NoDup params ∧ ∀ k v, (k, v) ∈ params ↔
    k = "resource" ∧ oidc_resource o = Some v ∨ k = "audience" ∧ oidc_audience o = Some v.
(** A form of the client: its own id and its secret, carried in the header or in
    the body as configured *)
Definition form_ok (o : OidcClient) (r : Request) : Prop :=
  req_client_id r = oidc_client_id o ∧ req_client_secret r = oidc_client_secret o ∧
  (req_auth_type r = BasicAuth ↔ oidc_client_auth_method o = ClientSecretBasic) ∧
  targets_ok o (extra_params r).
Definition event_ok (s : TokenSource) (given : option string) (h : list Event) (e : Event) : Prop :=
  match e with
  | Discovered url => ∃ o, oidc_of s = Some o ∧
      url = trim_end_matches "/"%char (oidc_issuer_url o) +:+ "/.well-known/openid-configuration"
  | Posted r => ∃ o, oidc_of s = Some o ∧ secure (endpoint r) ∧ form_ok o r ∧ grant_ok s given o h (grant r)
  | BoundCallback r => ∃ o options, s = AuthorizationCodeSource o options r
  | Authorized req => ∃ o options r, s = AuthorizationCodeSource o options r ∧
      secure (auth_endpoint req) ∧ auth_redirect req = uri r ∧ auth_scopes req = oidc_scopes o ∧
      targets_ok o (auth_params req) ∧ auth_state req = random_state h ∧
      auth_challenge req = fst <$> pkce_of options h
  | Browsed url => secure url
  | AskedImds url => ∃ client_id resource, s = AzureImdsSource client_id resource ∧
      url = "http://169.254.169.254/metadata/identity/oauth2/token?api-version=2018-02-01&resource=" +:+
            urlencode resource +:+
            match client_id with Some id => "&client_id=" +:+ urlencode id | None => "" end
  end.

Fixpoint trace_ok (s : TokenSource) (given : option string) (base new : list Event) : Prop :=
  match new with
  | [] => True
  | e :: new => event_ok s given (new ++ base)%list e ∧ trace_ok s given base new
  end.

Definition traced (s : TokenSource) (given : option string) (w w' : World) : Prop :=
  discovery_secure w' ∧
  ∃ new, history w' = (new ++ history w)%list ∧ trace_ok s given (history w) new.

(** * Lemmas: a weakest precondition for the programs *)
Section wp.
Context (s : TokenSource) (given : option string).

Definition wp {A} (m : IO A) (Q : A → World → Prop) (w : World) : Prop :=
  discovery_secure w → let '(r, w') := m w in
  traced s given w w' ∧ ∀ a, r = Ok a → Q a w'.

Lemma trace_ok_app base new1 new2 :
  trace_ok s given base new1 → trace_ok s given (new1 ++ base)%list new2 →
  trace_ok s given base (new2 ++ new1)%list.
Proof.
  intros H1. induction new2 as [|e new2 IH]; [done|]. intros [He H2]. split; [|by apply IH].
  by rewrite <-app_assoc.
Qed.

Lemma traced_refl w : discovery_secure w → traced s given w w.
Proof. intros. split; [done|]. by exists []. Qed.

Lemma traced_trans w1 w2 w3 : traced s given w1 w2 → traced s given w2 w3 → traced s given w1 w3.
Proof.
  intros [_ (n1 & H1 & T1)] [Hd (n2 & H2 & T2)]. split; [done|]. exists (n2 ++ n1)%list.
  rewrite H2, H1, app_assoc. split; [done|]. rewrite H1 in T2. by apply trace_ok_app.
Qed.

Lemma wp_bind {A B} (m : IO A) (f : A → IO B) Q w :
  wp m (λ a, wp (f a) Q) w → wp (m ≫= f) Q w.
Proof.
  intros Hm Hd. specialize (Hm Hd). unfold mbind, io_bind. destruct (m w) as [[a|e|] w1];
    [|by destruct Hm as [? _]..]. destruct Hm as [Ht Hq].
  specialize (Hq a eq_refl (proj1 Ht)). destruct (f a w1) as [r w2]. destruct Hq as [Ht2 ?].
  split; [by eapply traced_trans|done].
Qed.

Lemma wp_lift {A} (r : result A) Q w : (∀ a, r = Ok a → Q a w) → wp (lift r) Q w.
Proof. intros Hq Hd. simpl. split; [by apply traced_refl|done]. Qed.

Lemma wp_ask {A} (f : list Event → A) Q w : Q (f (history w)) w → wp (ask f) Q w.
Proof. intros Hq Hd. simpl. split; [by apply traced_refl|by intros a [= <-]]. Qed.

Lemma wp_emit e Q w :
  event_ok s given (history w) e → Q tt (mkWorld (e :: history w) (discovery w)) →
  wp (emit e) Q w.
Proof.
  intros He Hq Hd. simpl. split; [|by intros [] _]. split; [exact Hd|]. by exists [e].
Qed.

Lemma wp_post {A} (reply : list Event → A + RequestTokenError) r Q w :
  event_ok s given (history w) (Posted r) →
  Q (reply (Posted r :: history w)) (mkWorld (Posted r :: history w) (discovery w)) →
  wp (post reply r) Q w.
Proof. intros. apply wp_bind, wp_emit; [done|]. by apply wp_ask. Qed.

Lemma validate_secure value name url : validate_oauth_url value name = Ok url → secure value.
Proof. intros [? ?]%validate_oauth_url_spec. by exists url. Qed.

Lemma validate_optional_secure value name u :
  validate_optional value name = Ok u → ∀ v, value = Some v → secure v.
Proof.
  unfold validate_optional. destruct value as [v|]; [|done].
  intros (url & Hu & _)%fmap_Ok v' [= <-]. by eapply validate_secure.
Qed.

(** The endpoint of a cached document, and of one that may have to be fetched. *)
Lemma wp_cached_discovery o d Q w :
  discovery w = Some d → (discovery_ok d → Q d w) → wp (get_discovery o) Q w.
Proof.
  intros Hd Hq Hs. unfold get_discovery. rewrite Hd. split; [by apply traced_refl|].
  intros a [= <-]. by apply Hq, Hs.
Qed.

Lemma wp_get_discovery o Q w (Ho : oidc_of s = Some o) :
  (∀ d w', discovery w' = Some d → discovery_ok d → Q d w') → wp (get_discovery o) Q w.
Proof.
  intros Hq. destruct (discovery w) as [d|] eqn:Hd.
  { apply (wp_cached_discovery o d); [done|]. by apply Hq. }
  assert (wp (fetch_discovery o) Q w) as Hf.
  { apply wp_bind, wp_emit; [by exists o|]. apply wp_bind, wp_ask.
    apply wp_bind, wp_lift. intros d _. apply wp_bind, wp_lift. intros u1 H1%validate_secure.
    apply wp_bind, wp_lift. intros u2 H2. apply wp_bind, wp_lift. intros u3 H3.
    pose proof (validate_optional_secure _ _ _ H2). pose proof (validate_optional_secure _ _ _ H3).
    intros Hs. simpl. split; [split; [by intros ? [= <-]|by exists []]|].
    intros a [= <-]. by apply Hq. }
  intros Hs. specialize (Hf Hs). unfold get_discovery. by rewrite Hd.
Qed.

Lemma parse_endpoint_Ok v name r : parse_endpoint v name = Ok r → r = v.
Proof. unfold parse_endpoint. case_match; naive_solver. Qed.

Lemma wp_token_client o Q w (Ho : oidc_of s = Some o) :
  (∀ endpoint w', secure endpoint → Q endpoint w') → wp (token_client o) Q w.
Proof.
  intros Hq. apply wp_bind, wp_get_discovery; [done|]. intros d w' _ (Ht & _).
  apply wp_lift. intros a Ha. rewrite (parse_endpoint_Ok _ _ _ Ha). by apply Hq.
Qed.

(** With the document cached, nothing is sent. *)
Lemma wp_cached_token_client o d Q w :
  discovery w = Some d → (secure (token_endpoint d) → Q (token_endpoint d) w) →
  wp (token_client o) Q w.
Proof.
  intros Hd Hq. apply wp_bind, (wp_cached_discovery o d); [done|]. intros (Ht & _).
  apply wp_lift. intros a Ha. rewrite (parse_endpoint_Ok _ _ _ Ha). by apply Hq.
Qed.

Lemma target_params_ok o : targets_ok o (target_params o).
Proof.
  unfold targets_ok, target_params. destruct (oidc_resource o) as [v|], (oidc_audience o) as [a|]; cbn;
    (split; [repeat constructor; set_solver|]); intros k x; rewrite ?elem_of_cons, ?elem_of_nil; naive_solver.
Qed.
Lemma posted_ok o endpoint h g :
  oidc_of s = Some o → secure endpoint → grant_ok s given o h g →
  event_ok s given h (Posted (request_of o endpoint g)).
Proof.
  intros Ho He Hg. exists o. split_and!; [done..| |done]. split_and!; [done..| |apply target_params_ok].
  cbn. unfold auth_type. by destruct (oidc_client_auth_method o).
Qed.
End wp.

(** Nothing is promised about the result of a program. *)
Definition sends {A} (s : TokenSource) (given : option string) (m : IO A) : Prop :=
  ∀ w, wp s given m (λ _ _, True) w.

Lemma client_credentials_sends o :
  sends (ClientCredentialsSource o) None (client_credentials_fetch o).
Proof.
  intros w. apply wp_bind, wp_token_client; [done|]. intros endpoint w' He.
  apply wp_bind, wp_post; [by apply posted_ok|]. by apply wp_lift.
Qed.

Lemma await_code_wp s given r st Q w :
  (∀ code i arrival reads n, connections (history w) !! i = Some (arrival, Accepted reads) →
     code_request (text_of (take n reads)) (callback_path r) st code → Q code w) →
  wp s given (await_code r st) Q w.
Proof.
  intros Hq Hd. unfold await_code.
  destruct (wait_for_callback _ _ _ _) as [[res t] responses] eqn:Hw.
  unfold wait_for_callback in Hw.
  apply accept_loop_spec in Hw as [_ Hc]; [|unfold AUTHORIZATION_CALLBACK_TIMEOUT; lia].
  split; [by apply traced_refl|]. intros code ->.
  destruct (Hc code eq_refl) as (i & arrival & reads & n & Hi & Hr & _). by eapply Hq.
Qed.

Lemma build_request_wp o options r Q w (s := AuthorizationCodeSource o options r) given :
  (∀ d req verifier w', discovery w' = Some d → secure (auth_endpoint req) →
     req = mkAuthorization (auth_endpoint req) (uri r) (oidc_scopes o) (target_params o)
             (random_state (history w')) (fst <$> pkce_of options (history w')) →
     verifier = snd <$> pkce_of options (history w') → Q (req, verifier) w') →
  wp s given (build_authorization_request o options r) Q w.
Proof.
  intros Hq. apply wp_bind, wp_get_discovery; [done|]. intros d w' Hd (_ & Ha & _).
  apply wp_bind, wp_lift. intros endpoint He%ok_or_Ok.
  apply wp_bind, wp_lift. intros auth_url Hu. rewrite (parse_endpoint_Ok _ _ _ Hu).
  apply wp_bind, wp_lift. intros redirect_url Hr. rewrite (parse_endpoint_Ok _ _ _ Hr).
  apply wp_bind, wp_ask, wp_bind, wp_ask, wp_lift. intros a [= <-].
  by apply (Hq d); [|apply Ha|..].
Qed.

Lemma authorization_code_sends o options r :
  sends (AuthorizationCodeSource o options r) None (authorization_code_fetch o options r).
Proof.
  intros w. apply wp_bind, wp_ask, wp_bind, wp_lift. intros u _.
  apply wp_bind, wp_emit; [by exists o, options|]. apply wp_bind, build_request_wp.
  intros d req verifier w' Hd Hs Hreq Hv. cbn [fst snd].
  apply wp_bind, wp_emit.
  { exists o, options, r. split_and!; [done..| | | | |]; rewrite Hreq; [done..|apply target_params_ok|done|done]. }
  apply wp_bind, await_code_wp.
  cbn [history]. intros code i arrival reads n Hi Hc.
  apply wp_bind, (wp_cached_token_client _ _ _ d); [done|]. intros He.
  apply wp_bind, wp_lift. intros redirect_url Hr. rewrite (parse_endpoint_Ok _ _ _ Hr).
  apply wp_bind, wp_post; [|by apply wp_lift].
  apply posted_ok; [done..|]. exists options, r, req, (history w'), i, arrival, reads, n. done.
Qed.

Lemma device_code_sends o : sends (DeviceCodeSource o) None (device_code_fetch o).
Proof.
  intros w. apply wp_bind, wp_bind, wp_get_discovery; [done|]. intros d w' Hd (_ & _ & Hde).
  apply wp_bind, wp_lift. intros endpoint He%ok_or_Ok.
  apply wp_bind, wp_lift. intros device_url Hu. rewrite (parse_endpoint_Ok _ _ _ Hu).
  apply wp_bind, wp_post; [apply posted_ok; [done|by apply Hde|done]|].
  apply wp_bind, wp_lift. intros device Hdev.
  apply wp_bind, wp_lift. intros u1 _. apply wp_bind, wp_lift. intros u2 _.
  apply wp_lift. intros device' [= <-].
  assert (device_reply (Posted (request_of o endpoint (DeviceRequest (oidc_scopes o))) :: history w')
    = inl device) as Hreply by (destruct (device_reply _); naive_solver).
  destruct (verification_uri_complete device) as [complete|] eqn:Hc; cbn [history discovery];
    apply wp_bind, wp_lift; intros url Hurl%validate_secure;
    (apply wp_bind, wp_emit; [done|]); cbn [history discovery];
    (apply wp_bind, (wp_cached_token_client _ _ _ d); [done|]); intros Ht;
    (apply wp_bind, wp_post; [|by apply wp_lift]);
    (apply posted_ok; [done..|]); (split; [done|]); eexists; rewrite Hc; simpl; split; done.
Qed.

Lemma azure_imds_sends client_id resource :
  sends (AzureImdsSource client_id resource) None (azure_imds_fetch client_id resource).
Proof.
  intros w. apply wp_bind, wp_emit; [by exists client_id, resource|].
  apply wp_bind, wp_ask. by apply wp_lift.
Qed.

Lemma oidc_refresh_sends s o token :
  oidc_of s = Some o → sends s (Some token) (oidc_refresh_token o token).
Proof.
  intros Ho w. apply wp_bind, wp_token_client; [done|]. intros endpoint w' He.
  apply wp_bind, wp_post; [by apply posted_ok|]. by apply wp_lift.
Qed.

Lemma sends_traced {A} s given (m : IO A) w r w' :
  sends s given m → discovery_secure w → m w = (r, w') → traced s given w w'.
Proof. intros Hm Hd Hw. specialize (Hm w Hd). rewrite Hw in Hm. apply Hm. Qed.

(** * Properties *)

(** C15: Whatever the network, the browser and the connections to the callback
    server do, a flow of a source only ever does what it may: every form it posts goes
    to a secure endpoint with the client's own id and secret, in the header exactly
    when the method is ClientSecretBasic, and with the configured resource and
    audience and no other parameter; a refresh posts the token it was given and
    nothing else does; a code is exchanged only when a connection carried it with the
    state of the authorization just before, with the verifier of the challenge sent
    there (and none when PKCE is off); a device grant follows the prompt of the device the
    provider answered; and the browser is sent to secure pages only. *)
Theorem flow_requests (s : TokenSource) (w : World) (Hsecure : discovery_secure w) :
  (∀ r w', source_fetch s w = (r, w') → traced s None w w') ∧
  (∀ token r w', source_refresh s token w = (r, w') → traced s (Some token) w w').
Proof.
  split.
  - intros r w'. destruct s; apply sends_traced;
      auto using client_credentials_sends, authorization_code_sends, device_code_sends,
        azure_imds_sends.
  - intros token r w'. destruct s; simpl; try (apply sends_traced; [|done]; by apply oidc_refresh_sends);
      intros [= <- <-]; by apply traced_refl.
Qed.

End flows.

(** An environment in which a login by code succeeds. *)
Module Demo.
#[local] Existing Instance demo_urls.
#[export] Instance env : Environment := {
  discovery_reply _ := Received (mkDiscovery "https://idp" (Some "https://idp") None);
  token_reply _ := inl (OAuthToken.mkResponse "access" (Some "refresh") None);
  device_reply _ := inr (OtherFailed "");
  imds_reply _ := SendFailed;
  callback_binds _ := true;
  connections _ := demo_conns;
  random_state _ := "s";
  random_pkce _ := ("challenge", "verifier");
  clock h := Z.of_nat (length h);
  urlencode v := v
}.

Definition source : TokenSource := AuthorizationCodeSource demo_client default_options demo_redirect.
Definition authorization : AuthorizationRequest :=
  mkAuthorization "https://idp" (uri demo_redirect) ["openid"] [] "s" (Some "challenge").
Definition exchange : Request :=
  mkRequest "https://idp" "app" None RequestBody [] (CodeGrant "c" (uri demo_redirect) (Some "verifier")).
Definition log : list Event :=
  [Posted exchange; Authorized authorization;
   Discovered "https://idp/.well-known/openid-configuration"; BoundCallback demo_redirect].
End Demo.

Lemma flow_requests_witness :
  let U := demo_urls in let E := Demo.env in
  source_fetch Demo.source (mkWorld [] None) =
    (Ok (OAuthToken.mkResponse "access" (Some "refresh") None),
     mkWorld Demo.log (Some (mkDiscovery "https://idp" (Some "https://idp") None))) ∧
  traced Demo.source None (mkWorld [] None)
    (mkWorld Demo.log (Some (mkDiscovery "https://idp" (Some "https://idp") None))).
Proof.
  intros U E.
  assert (source_fetch Demo.source (mkWorld [] None) =
    (Ok (OAuthToken.mkResponse "access" (Some "refresh") None),
     mkWorld Demo.log (Some (mkDiscovery "https://idp" (Some "https://idp") None)))) as H
    by (vm_compute; reflexivity).
  split; [exact H|].
  assert (discovery_secure (mkWorld [] None)) as Hs by (intros d Hd; discriminate Hd).
  exact (proj1 (flow_requests Demo.source (mkWorld [] None) Hs) _ _ H).
Defined.

End OAuthFlow.
