(* ===== verification/TokenCache.v ===== *)
(** * The persistent token cache (remote/token_cache.rs)

    The identity of a cached session and the checks of the directory and of a
    record; the operations of [TokenCache] and [OAuthSession] as programs over
    the effects they have (the advisory lock, the record file, the provider,
    the clock); and any number of processes that run such programs against one
    record, one lock and one provider that rotates its refresh tokens, with crashes and failures
    anywhere.  The hash and the JSON codec are parameters. *)

From Stdlib Require Import Ascii.
From stdpp Require Import sorting pretty.
From S2P Require Import Prelude RustStr RustText OAuthConfig OAuthToken.

Module TokenCache.
Import OAuthConfig.
Local Open Scope string_scope.

(** ** Options and directories *)
Definition DEFAULT_LOCK_TIMEOUT_SECS : Z := 30.
(** Milliseconds. *)
Definition LOCK_POLL_INTERVAL : Z := 100.
Definition CACHE_RECORD_VERSION : Z := 1.

Definition options_default : TokenCacheOptions := mkCacheOptions None None.
Definition with_cache_dir (o : TokenCacheOptions) (dir : string) : TokenCacheOptions :=
  mkCacheOptions (Some dir) (lock_timeout_secs o).
Definition with_lock_timeout_secs (o : TokenCacheOptions) (secs : Z) : TokenCacheOptions :=
  mkCacheOptions (cache_dir o) (Some secs).

(** The environment variables of the Unix build. *)
Record Vars : Type := mkVars { XDG_CACHE_HOME : option string; HOME : option string }.

Definition non_empty (v : option string) : option string :=
  match v with Some s => if is_empty s then None else Some s | None => None end.

(** [PathBuf::push] of a relative component *)
Definition path_push (base component : string) : string :=
  if bool_decide (is_Some (strip_suffix "/" base)) || is_empty base
  then base +:+ component else base +:+ "/" +:+ component.

Definition default_cache_dir (v : Vars) : option string :=
  base ← match non_empty (XDG_CACHE_HOME v) with
         | Some x => Some x
         | None => (λ home, path_push home ".cache") <$> non_empty (HOME v)
         end;
  Some (path_push (path_push base "lancedb") "oauth").

Definition resolved_dir (v : Vars) (o : TokenCacheOptions) : result string :=
  match cache_dir o with
  | Some dir =>
      if is_empty dir
      then Err (InvalidInput "OAuth token cache directory must not be empty")
      else Ok dir
  | None => ok_or (InvalidInput
      "Could not determine a default OAuth token cache directory; set TokenCacheOptions::cache_dir or XDG_CACHE_HOME/HOME")
      (default_cache_dir v)
  end.

Definition lock_timeout (o : TokenCacheOptions) : Z :=
  default DEFAULT_LOCK_TIMEOUT_SECS (lock_timeout_secs o).

(** What is at a path that ought to be the directory. *)
Inductive DirState : Type :=
  | Absent (creatable : bool)
  | NotADirectory
  | UnreadableDirectory
  | Directory (mode owner : Z).

(** Group and other bits of a mode *)
Definition shared_mode (mode : Z) : bool := negb (Z.land mode 63 =? 0)%Z.

(** [prepare_cache_dir], and the directory it leaves: created ones are private. *)
Definition prepare_cache_dir (uid : Z) (d : DirState) : result DirState :=
  match d with
  | Directory mode owner =>
      if shared_mode mode then
        Err (InvalidInput "OAuth token cache directory {} must not be accessible by group or other users (mode {:o}); run `chmod 700` on it or choose a private directory")
      else Ok d
  | UnreadableDirectory => Err (Runtime "Failed to inspect OAuth token cache directory {}: {e}")
  | NotADirectory => Err (InvalidInput "OAuth token cache path {} exists and is not a directory")
  | Absent true => Ok (Directory 448 uid)
  | Absent false => Err (Runtime "Failed to create OAuth token cache directory {}: {e}")
  end.

(** ** The identity of a session *)
Definition canonicalize_issuer (issuer_url : string) : string :=
  trim_end_matches "/"%char issuer_url.

(** The scopes that are asked for: trimmed, without empty ones. *)
Definition trimmed (scopes : list string) : list string :=
  filter (λ s, s ≠ "") (trim <$> scopes).

Definition canonicalize_scopes (scopes : list string) : list string :=
  dedup (merge_sort String.le (trimmed scopes)).

Definition flow_key (f : OAuthFlow) : option string :=
  match f with
  | AuthorizationCode _ => Some "authorization_code"
  | DeviceCode => Some "device_code"
  | ClientCredentials | AzureManagedIdentity _ => None
  end.

Definition client_auth_key (client_secret : option string) : string :=
  match client_secret with Some _ => "confidential" | None => "public" end.

Record CacheKey : Type := mkKey {
  k_issuer_url : string;
  k_client_id : string;
  k_scopes : list string;
  k_resource : option string;
  k_audience : option string;
  k_flow : string;
  k_client_auth : string;
  k_file_stem : string
}.

Record CachedTokenRecord : Type := mkRecord {
  r_version : Z;
  r_issuer_url : string;
  r_client_id : string;
  r_scopes : list string;
  r_resource : option string;
  r_audience : option string;
  r_flow : string;
  r_client_auth : string;
  r_refresh_token : string;
  r_obtained_at : Z
}.

(** sha2 in hexadecimal, and serde_json. *)
Class Codec : Type := {
  hex_sha256 : string → string;
  json_identity : string * string * list string * string * string * option string * option string →
    string;
  json_record : CachedTokenRecord → string;
  parse_record : string → option CachedTokenRecord
}.

Section cache.
Context {C : Codec}.

Definition LFs : string := String LF "".
Definition identity_v1 (issuer client : string) (scopes : list string) (flow auth : string) : string :=
  "v1" +:+ LFs +:+ issuer +:+ LFs +:+ client +:+ LFs +:+ join " "%char scopes +:+ LFs +:+ flow
  +:+ LFs +:+ auth.

Definition identity (issuer client : string) (scopes : list string) (flow auth : string)
    (resource audience : option string) : string :=
  match resource, audience with
  | None, None => identity_v1 issuer client scopes flow auth
  | _, _ => json_identity (issuer, client, scopes, flow, auth, resource, audience)
  end.

Definition cache_key (config : OAuthConfig) : result CacheKey :=
  flow ← ok_or (InvalidInput "A persistent OAuth token cache is not supported for the {:?} flow; remove TokenCacheOptions to keep tokens in memory")
           (flow_key (flow config));
  let issuer := canonicalize_issuer (issuer_url config) in
  let scopes := canonicalize_scopes (scopes config) in
  let auth := client_auth_key (client_secret config) in
  Ok (mkKey issuer (client_id config) scopes (resource config) (audience config) flow auth
        (hex_sha256 (identity issuer (client_id config) scopes flow auth
                       (resource config) (audience config)))).

Record TokenCache : Type := mkCache {
  dir : string;
  key : CacheKey;
  timeout : Z;
  dir_owner : Z
}.

Definition record_path (c : TokenCache) : string :=
  path_push (dir c) (k_file_stem (key c) +:+ ".token.json").
Definition lock_path (c : TokenCache) : string :=
  path_push (dir c) (k_file_stem (key c) +:+ ".lock").

(** [TokenCache::new]; [dirs] is the state of the file system. *)
Definition cache_new (v : Vars) (uid : Z) (dirs : string → DirState) (config : OAuthConfig)
    (options : TokenCacheOptions) : result TokenCache :=
  key ← cache_key config;
  dir ← resolved_dir v options;
  d ← prepare_cache_dir uid (dirs dir);
  match d with
  | Directory _ owner => Ok (mkCache dir key (lock_timeout options) owner)
  | _ => Err (Runtime "Failed to inspect OAuth token cache directory {}: {e}")
  end.

Definition token_cache_for_config (v : Vars) (uid : Z) (dirs : string → DirState)
    (config : OAuthConfig) : result (option TokenCache) :=
  match token_cache config with
  | None => Ok None
  | Some options =>
      match flow config with
      | AzureManagedIdentity _ =>
          Err (InvalidInput "A persistent OAuth token cache cannot be used with the AzureManagedIdentity flow; remove TokenCacheOptions to keep the machine identity token in memory")
      | ClientCredentials => Ok None
      | _ => Some <$> cache_new v uid dirs config options
      end
  end.

(** ** The record file *)
Inductive Entry : Type :=
  | Unstatable
  | Node (regular : bool) (mode uid : Z) (content : option string).

Definition read_record (e : option Entry) (dir_owner : Z) : result (option CachedTokenRecord) :=
  match e with
  | None => Ok None
  | Some Unstatable => Err (Runtime "Failed to read OAuth token cache record {}: {e}")
  | Some (Node regular mode uid content) =>
      if negb regular then
        Err (InvalidInput "OAuth token cache record {} is not a regular file; refusing to use it. Remove the file or call logout to clear it")
      else if shared_mode mode then
        Err (InvalidInput "OAuth token cache record {} must not be accessible by group or other users (mode {:o}); run `chmod 600` on it or call logout to clear it")
      else if negb (dir_owner =? 0)%Z && negb (uid =? dir_owner)%Z then
        Err (InvalidInput "OAuth token cache record {} is owned by a different user; refusing to use it. Remove the file or call logout to clear it")
      else
        payload ← ok_or (Runtime "Failed to read OAuth token cache record {}: {e}") content;
        record ← ok_or (Runtime "OAuth token cache record {} is corrupt ({e}); remove the file or call logout to clear it")
                   (parse_record payload);
        if negb (r_version record =? CACHE_RECORD_VERSION)%Z then
          Err (Runtime "OAuth token cache record {} has unsupported version {}; expected {}. Remove the file or call logout to clear it")
        else Ok (Some record)
  end.

(** What [write_record] renames into place when nothing fails; the mode stays
    that of a new file when the permissions cannot be set. *)
Definition written (uid new_mode : Z) (private : bool) (r : CachedTokenRecord) : Entry :=
  Node true (if private then 384 else new_mode) uid (Some (json_record r)).

Definition record_from_response (k : CacheKey) (resp : OAuthToken.TokenResponse) (now : Z)
    : option CachedTokenRecord :=
  (λ token, mkRecord CACHE_RECORD_VERSION (k_issuer_url k) (k_client_id k) (k_scopes k)
     (k_resource k) (k_audience k) (k_flow k) (k_client_auth k) token now)
  <$> OAuthToken.refresh_token resp.

(** ** The polling loop of [acquire_lock]: what each try answers, and when *)
Inductive TryLock : Type := Locked | Busy | LockFailed.
Fixpoint lock_loop (deadline : Z) (tries : list (Z * TryLock)) : option (result unit) :=
  match tries with
  | [] => None
  | (_, Locked) :: _ => Some (Ok tt)
  | (t, Busy) :: tries =>
      if (deadline <=? t)%Z
      then Some (Err (Runtime "Timed out after {}s waiting for the OAuth token cache lock at {}"))
      else lock_loop deadline tries
  | (_, LockFailed) :: _ =>
      Some (Err (Runtime "Failed to lock the OAuth token cache file {}: {error}"))
  end.

(** ** Programs *)
Inductive eff : Type → Type :=
  | ELock : eff (result unit)
  | EUnlock : eff unit
  | ELoad : eff (result (option CachedTokenRecord))
  | ERefresh (token : string) : eff (result OAuthToken.RefreshResult)
  | EFetch : eff (result OAuthToken.TokenResponse)
  | EStore (r : CachedTokenRecord) : eff (result unit)
  | EDelete : eff (result bool)
  | ENow : eff Z.

Inductive prog (A : Type) : Type :=
  | Ret (a : A)
  | Do {B : Type} (e : eff B) (k : B → prog A).
Arguments Ret {A} a.
Arguments Do {A B} e k.

Fixpoint prog_bind {A B} (f : A → prog B) (p : prog A) : prog B :=
  match p with
  | Ret a => f a
  | Do e k => Do e (λ b, prog_bind f (k b))
  end.
#[local] Instance prog_mret : MRet prog := λ A a, Ret a.
#[local] Instance prog_mbind : MBind prog := λ A B f p, prog_bind f p.

(** [?] *)
Definition attempt {A B} (p : prog (result A)) (k : A → prog (result B)) : prog (result B) :=
  prog_bind (λ r, match r with Ok a => k a | Err e => Ret (Err e) | Panic => Ret Panic end) p.
Definition op {B} (e : eff B) : prog B := Do e (λ b, Ret b).

(** The guard of a section is dropped on every way out of it. *)
Definition locked {A} (body : prog (result A)) : prog (result A) :=
  attempt (op ELock) (λ _, prog_bind (λ r, Do EUnlock (λ _, Ret r)) body).

Definition store_if_refreshable (k : CacheKey) (resp : OAuthToken.TokenResponse)
    : prog (result unit) :=
  prog_bind (λ now,
    match record_from_response k resp now with
    | Some r => op (EStore r)
    | None => Ret (Ok tt)
    end) (op ENow).

(** The section under the lock of [refresh_or_acquire]: [Some] response ends
    the call. *)
Definition refresh_locked (k : CacheKey) : prog (result (option OAuthToken.TokenResponse)) :=
  attempt (op ELoad) (λ record,
    match record with
    | Some record =>
        attempt (op (ERefresh (r_refresh_token record))) (λ answer,
          match answer with
          | OAuthToken.Refreshed response =>
              attempt (store_if_refreshable k response) (λ _, Ret (Ok (Some response)))
          | OAuthToken.Reauthenticate => attempt (op EDelete) (λ _, Ret (Ok None))
          | OAuthToken.Unsupported => Ret (Ok None)
          end)
    | None => Ret (Ok None)
    end).

Definition refresh_or_acquire (k : CacheKey) : prog (result OAuthToken.TokenResponse) :=
  attempt (locked (refresh_locked k)) (λ done,
    match done with
    | Some response => Ret (Ok response)
    | None =>
        attempt (op EFetch) (λ response,
          locked (attempt (store_if_refreshable k response) (λ _, Ret (Ok response))))
    end).

Definition store_login_response (k : CacheKey) (resp : OAuthToken.TokenResponse)
    : prog (result unit) :=
  locked (prog_bind (λ now,
    match record_from_response k resp now with
    | Some r => op (EStore r)
    | None => attempt (op EDelete) (λ _, Ret (Ok tt))
    end) (op ENow)).

Record SessionStatus : Type := mkStatus {
  refreshable : bool;
  s_issuer_url : string;
  s_client_id : string;
  s_scopes : list string;
  s_resource : option string;
  s_audience : option string;
  s_flow : string;
  s_obtained_at : option Z
}.

Definition status_of (k : CacheKey) (record : option CachedTokenRecord) : SessionStatus :=
  match record with
  | Some r => mkStatus true (r_issuer_url r) (r_client_id r) (r_scopes r) (r_resource r)
                (r_audience r) (r_flow r) (Some (r_obtained_at r))
  | None => mkStatus false (k_issuer_url k) (k_client_id k) (k_scopes k) (k_resource k)
              (k_audience k) (k_flow k) None
  end.
Definition status (k : CacheKey) : prog (result SessionStatus) :=
  attempt (op ELoad) (λ record, Ret (Ok (status_of k record))).

Definition login (k : CacheKey) : prog (result SessionStatus) :=
  attempt (op EFetch) (λ response, attempt (store_login_response k response) (λ _, status k)).

(** [SessionLogout]'s one field *)
Definition logout (k : CacheKey) : prog (result bool) :=
  attempt (op EDelete) (λ removed, Ret (Ok removed)).

(** [OAuthSession::new] *)
Definition session_new {U : UrlParser} {B : HttpBuilder} (v : Vars) (uid : Z)
    (dirs : string → DirState) (config : OAuthConfig) : result (TokenSource * TokenCache) :=
  options ← ok_or (InvalidInput "OAuthSession requires OAuthConfig.token_cache to be set")
              (token_cache config);
  if bool_decide (scopes config = []) then
    Err (InvalidInput "At least one OAuth scope is required")
  else
    source ← build_token_source config;
    cache ← cache_new v uid dirs config options;
    Ok (source, cache).

(** ** Processes on one record

    The processes share the record file, the lock and the provider's valid
    refresh tokens.  [interrupts] counts what may lose a rotated token: a crash
    or a failed store or delete of the process that holds the lock or stores,
    and a refresh whose answer never arrives.  [rejections] counts the refresh
    requests the provider answers with a request to authenticate again. *)
Inductive Process : Type :=
  | Proc {A : Type} (p : prog A)
  | Crashed.

Record Shared : Type := mkShared {
  file : option Entry;
  holder : option nat;
  valid : gset string;
  interrupts : nat;
  rejections : nat
}.

Definition set_file (e : option Entry) (s : Shared) : Shared :=
  mkShared e (holder s) (valid s) (interrupts s) (rejections s).
Definition set_holder (h : option nat) (s : Shared) : Shared :=
  mkShared (file s) h (valid s) (interrupts s) (rejections s).
Definition set_valid (v : gset string) (s : Shared) : Shared :=
  mkShared (file s) (holder s) v (interrupts s) (rejections s).
Definition interrupt (s : Shared) : Shared :=
  mkShared (file s) (holder s) (valid s) (S (interrupts s)) (rejections s).
Definition reject (s : Shared) : Shared :=
  mkShared (file s) (holder s) (valid s) (interrupts s) (S (rejections s)).

(** The refresh token of the record in the file. *)
Definition file_token (owner : Z) (e : option Entry) : option string :=
  match read_record e owner with Ok (Some r) => Some (r_refresh_token r) | _ => None end.

(** What a process is started with: the header provider's call or one of the
    session's. *)
Inductive Call : Type := CallRefresh | CallLogin | CallLogout | CallStatus.
Definition start (k : CacheKey) (c : Call) : Process :=
  match c with
  | CallRefresh => Proc (refresh_or_acquire k)
  | CallLogin => Proc (login k)
  | CallLogout => Proc (logout k)
  | CallStatus => Proc (status k)
  end.

(** The tokens the provider may issue are new: [issued] are all it ever
    issued or was shown. *)
Section processes.
Context (owner uid new_mode : Z) (private : bool).

Definition rotate (tok : string) (new : option string) (s : Shared) : Shared :=
  match new with
  | Some t => set_valid ({[ t ]} ∪ (valid s ∖ {[ tok ]})) s
  | None => s
  end.

(** [exec pid issued e s b s']: effect [e] of process [pid] answers [b]. *)
Inductive exec (pid : nat) (issued : gset string) : ∀ {B}, eff B → Shared → B → Shared → Prop :=
  | exec_lock s : holder s = None →
      exec pid issued ELock s (Ok tt) (set_holder (Some pid) s)
  | exec_lock_fails s e : exec pid issued ELock s (Err e) s
  | exec_unlock s :
      exec pid issued EUnlock s tt (if decide (holder s = Some pid) then set_holder None s else s)
  | exec_load s : exec pid issued ELoad s (read_record (file s) owner) s
  | exec_refreshed s tok resp :
      tok ∈ valid s →
      (∀ t, OAuthToken.refresh_token resp = Some t → t ∉ issued) →
      exec pid issued (ERefresh tok) s (Ok (OAuthToken.Refreshed resp))
        (rotate tok (OAuthToken.refresh_token resp) s)
  | exec_rejected s tok :
      tok ∉ valid s →
      exec pid issued (ERefresh tok) s (Ok OAuthToken.Reauthenticate) (reject s)
  | exec_refresh_unsupported s tok :
      exec pid issued (ERefresh tok) s (Ok OAuthToken.Unsupported) s
  | exec_refresh_unsent s tok e : exec pid issued (ERefresh tok) s (Err e) s
  | exec_refresh_lost s tok t e :
      tok ∈ valid s → t ∉ issued →
      exec pid issued (ERefresh tok) s (Err e) (interrupt (rotate tok (Some t) s))
  | exec_fetch s resp :
      (∀ t, OAuthToken.refresh_token resp = Some t → t ∉ issued) →
      exec pid issued EFetch s (Ok resp)
        (match OAuthToken.refresh_token resp with
         | Some t => set_valid ({[ t ]} ∪ valid s) s
         | None => s
         end)
  | exec_fetch_fails s e : exec pid issued EFetch s (Err e) s
  | exec_store s r :
      exec pid issued (EStore r) s (Ok tt) (set_file (Some (written uid new_mode private r)) s)
  | exec_store_fails s r e : exec pid issued (EStore r) s (Err e) (interrupt s)
  | exec_delete s :
      exec pid issued EDelete s (Ok (bool_decide (is_Some (file s)))) (set_file None s)
  | exec_delete_fails s e : exec pid issued EDelete s (Err e) (interrupt s)
  | exec_now s t : exec pid issued ENow s t s.

Record Config : Type := mkConfigs {
  procs : list Process;
  shared : Shared;
  issued : gset string
}.

Inductive cache_step : Config → Config → Prop :=
  | step_exec c pid A B (e : eff B) (k : B → prog A) b s' :
      procs c !! pid = Some (Proc (Do e k)) →
      exec pid (issued c) e (shared c) b s' →
      cache_step c (mkConfigs (<[pid := Proc (k b)]> (procs c)) s' (valid s' ∪ issued c))
  | step_crash c pid A (p : prog A) :
      procs c !! pid = Some (Proc p) →
      cache_step c (mkConfigs (<[pid := Crashed]> (procs c))
        (if decide (holder (shared c) = Some pid)
         then interrupt (set_holder None (shared c)) else shared c) (issued c))
  | step_spawn c k call :
      cache_step c (mkConfigs (procs c ++ [start k call])%list (shared c) (issued c)).

(** A record the provider would refuse is in the file. *)
Definition stale (s : Shared) : Prop :=
  ∃ t, file_token owner (file s) = Some t ∧ t ∉ valid s.

Inductive cache_reachable : Config → Prop :=
  | reach_init f v :
      (∀ t, file_token owner f = Some t → t ∈ v) →
      cache_reachable (mkConfigs [] (mkShared f None v 0 0) v)
  | reach_step c c' : cache_reachable c → cache_step c c' → cache_reachable c'.

Class CodecLaws : Prop := parse_json r : parse_record (json_record r) = Some r.

(** * Lemmas: what each process may do, whatever the others do

    [hold] is what a process knows while it holds the lock: nothing yet, the
    token of the record, that the provider has just rotated it, or that it was rejected;
    [own] is a token only this process has, which no record holds. *)
Inductive hold : Type :=
  | Idle
  | Held
  | HasToken (tok : string)
  | Rotated
  | Rejected.
#[local] Instance hold_eq_dec : EqDecision hold.
Proof. solve_decision. Defined.

Definition after_refresh (resp : OAuthToken.TokenResponse) : hold :=
  match OAuthToken.refresh_token resp with Some _ => Rotated | None => Held end.
Definition after_delete (h : hold) : hold := match h with Rejected => Held | _ => h end.
Definition after_load (r : result (option CachedTokenRecord)) (h : hold) : hold :=
  match h, r with
  | Held, Ok (Some rec) => HasToken (r_refresh_token rec)
  | _, _ => h
  end.

Definition obligation {B} (e : eff B) :
    (B → hold → option string → Prop) → hold → option string → Prop :=
  match e in eff B return (B → hold → option string → Prop) → hold → option string → Prop with
  | ELock => λ K h own, h = Idle ∧ K (Ok tt) Held own ∧ ∀ e, K (Err e) Idle own
  | EUnlock => λ K h own, h = Held ∧ K tt Idle own
  | ELoad => λ K h own, (h = Idle ∨ h = Held) ∧ ∀ r, K r (after_load r h) own
  | ERefresh tok => λ K h own, h = HasToken tok ∧ own = None ∧
      (∀ resp, K (Ok (OAuthToken.Refreshed resp)) (after_refresh resp)
                 (OAuthToken.refresh_token resp)) ∧
      K (Ok OAuthToken.Reauthenticate) Rejected None ∧
      K (Ok OAuthToken.Unsupported) Held None ∧ ∀ e, K (Err e) Held None
  | EFetch => λ K h own, h = Idle ∧ own = None ∧
      (∀ resp, K (Ok resp) Idle (OAuthToken.refresh_token resp)) ∧ ∀ e, K (Err e) Idle None
  | EStore r => λ K h own, (h = Held ∨ h = Rotated) ∧ own = Some (r_refresh_token r) ∧
      K (Ok tt) Held None ∧ ∀ e, K (Err e) Held None
  | EDelete => λ K h own, (h = Idle ∨ h = Held ∨ h = Rejected) ∧
      (∀ b, K (Ok b) (after_delete h) own) ∧ ∀ e, K (Err e) (after_delete h) own
  | ENow => λ K h own, ∀ t, K t h own
  end.

Fixpoint safe {A} (p : prog A) : hold → option string → Prop :=
  match p with
  | Ret _ => λ h _, h = Idle
  | Do e k => obligation e (λ b, safe (k b))
  end.

(** The state of the processes, what they know and what they share. *)
Definition ghost : Type := nat → hold * option string.
Definition upd (g : ghost) (i : nat) (x : hold * option string) : ghost :=
  λ j, if decide (j = i) then x else g j.
Definition phase (g : ghost) (s : Shared) : hold :=
  match holder s with Some i => (g i).1 | None => Idle end.

(** An interruption that no rejection has answered yet. *)
Definition credit (s : Shared) : Prop := (rejections s < interrupts s)%nat.

Record shared_inv (g : ghost) (s : Shared) (issued : gset string) : Prop := {
  i_idle : ∀ i, (g i).1 ≠ Idle → holder s = Some i;
  i_own : ∀ i t, (g i).2 = Some t → t ∈ valid s ∧ file_token owner (file s) ≠ Some t;
  i_distinct : ∀ i j t, (g i).2 = Some t → (g j).2 = Some t → i = j;
  i_loaded : ∀ i tok, (g i).1 = HasToken tok →
    tok ∈ issued ∧ (∀ j, (g j).2 ≠ Some tok) ∧
    (∀ t, file_token owner (file s) = Some t → t = tok) ∧
    (tok ∉ valid s → credit s);
  i_issued : valid s ⊆ issued ∧ ∀ t, file_token owner (file s) = Some t → t ∈ issued;
  i_count : (rejections s ≤ interrupts s)%nat;
  i_stale : phase g s = Idle ∨ phase g s = Held → stale s → credit s
}.

Context `{!CodecLaws}.

Lemma written_token r t :
  file_token owner (Some (written uid new_mode private r)) = Some t → t = r_refresh_token r.
Proof.
  unfold file_token, read_record, written. cbn [negb ok_or mbind outcome_bind]. rewrite parse_json.
  cbn [ok_or mbind outcome_bind]. repeat case_match; naive_solver.
Qed.

Lemma upd_same g i x : upd g i x i = x.
Proof. unfold upd. by rewrite decide_True. Qed.
Lemma upd_other g i j x : j ≠ i → upd g i x j = g j.
Proof. intros. unfold upd. by rewrite decide_False. Qed.

Ltac ghosts :=
  repeat match goal with
  | H : context [upd ?g ?i ?x ?j] |- _ =>
      destruct (decide (j = i)) as [->|]; [rewrite upd_same in H|rewrite upd_other in H by done];
      cbn [fst snd] in H
  | |- context [upd ?g ?i ?x ?j] =>
      destruct (decide (j = i)) as [->|]; [rewrite upd_same|rewrite upd_other by done];
      cbn [fst snd]
  end.

(** A process that does not hold the lock knows nothing. *)
Lemma not_holder_idle g s issued i :
  shared_inv g s issued → holder s ≠ Some i → (g i).1 = Idle.
Proof. intros [Hi _ _ _ _ _ _] Hh. destruct (decide ((g i).1 = Idle)) as [|Hn]; [done|]. by apply Hi in Hn. Qed.

(** What a process knows may change without a change of the shared state. *)
Lemma inv_knows g s issued i h' o' :
  shared_inv g s issued → o' = (g i).2 ∨ o' = None →
  (h' ≠ Idle → (g i).1 ≠ Idle) →
  (∀ tok, h' = HasToken tok → tok ∈ issued ∧ (∀ j, (g j).2 ≠ Some tok) ∧
     (∀ t, file_token owner (file s) = Some t → t = tok) ∧ (tok ∉ valid s → credit s)) →
  ((h' = Idle ∨ h' = Held) → holder s = Some i → stale s → credit s) →
  shared_inv (upd g i (h', o')) s (valid s ∪ issued).
Proof.
  intros [Hi Ho Hd Hl [Hv Hf] Hc Hs] Hg Hh' Htok Hstale.
  assert (∀ j t, (upd g i (h', o') j).2 = Some t → (g j).2 = Some t) as Hu.
  { intros j t Hj. ghosts; [|done]. destruct Hg as [Hg|Hg]; congruence. }
  split.
  - intros j Hj. ghosts; [|by apply Hi]. by apply Hi, Hh'.
  - intros j t Hj%Hu. by apply (Ho j).
  - intros j k t Hj%Hu Hk%Hu. by eapply Hd.
  - intros j tok Hj. assert ((∀ k, (g k).2 ≠ Some tok) → ∀ k, (upd g i (h', o') k).2 ≠ Some tok) as Hn.
    { intros Hk k Hk2%Hu. by apply (Hk k). }
    clear Hu. ghosts.
    + destruct (Htok tok Hj) as (? & ? & ? & ?). split_and!; [set_solver|by apply Hn|done|done].
    + destruct (Hl j tok Hj) as (? & ? & ? & ?). split_and!; [set_solver|by apply Hn|done|done].
  - split; [set_solver|]. intros t Ht. specialize (Hf t Ht). set_solver.
  - done.
  - unfold phase in *. intros Hp Hst. destruct (holder s) as [j|] eqn:Hh; [|apply Hs; auto].
    ghosts; [by apply Hstale|by apply Hs].
Qed.

Lemma inv_interrupt g s issued : shared_inv g s issued → shared_inv g (interrupt s) issued.
Proof.
  intros [Hi Ho Hd Hl Hv Hc Hs]. unfold credit in *. split; try done; unfold credit; simpl; try lia.
  intros i tok Hj. destruct (Hl i tok Hj) as (? & ? & ? & ?). split_and!; try done. intros. lia.
Qed.

Lemma interrupt_credit g s issued : shared_inv g s issued → credit (interrupt s).
Proof. intros [_ _ _ _ _ Hc _]. unfold credit. simpl. lia. Qed.

Lemma inv_no_file g s issued : shared_inv g s issued → shared_inv g (set_file None s) issued.
Proof.
  intros [Hi Ho Hd Hl [Hv _] Hc Hs]. split; try done; simpl.
  - intros i t Ht. split; [by apply (Ho i)|done].
  - intros i tok Hj. destruct (Hl i tok Hj) as (? & ? & ? & ?). done.
  - intros _ (t & Ht & _). done.
Qed.

Lemma inv_lock g s issued i o :
  shared_inv g s issued → holder s = None → g i = (Idle, o) →
  shared_inv (upd g i (Held, o)) (set_holder (Some i) s) (valid s ∪ issued).
Proof.
  intros Hinv Hh Hg.
  assert (∀ j, (g j).1 = Idle) as Hidle.
  { intros j. eapply not_holder_idle; [exact Hinv|]. by rewrite Hh. }
  destruct Hinv as [Hi Ho Hd Hl [Hv Hf] Hc Hs].
  assert (∀ j t, (upd g i (Held, o) j).2 = Some t → (g j).2 = Some t) as Hu.
  { intros j t Hj. ghosts; [by rewrite Hg|done]. }
  split; cbn [holder valid file set_holder rejections interrupts].
  - intros j Hj. ghosts; [done|]. by rewrite Hidle in Hj.
  - intros j t Hj%Hu. by apply (Ho j).
  - intros j k t Hj%Hu Hk%Hu. by eapply Hd.
  - intros j tok Hj. clear Hu. ghosts; [done|]. by rewrite Hidle in Hj.
  - split; [set_solver|]. intros t Ht. specialize (Hf t Ht). set_solver.
  - done.
  - intros _ Hst. apply Hs; [|done]. unfold phase. rewrite Hh. by left.
Qed.

Lemma inv_unlock g s issued i o :
  shared_inv g s issued → g i = (Held, o) →
  shared_inv (upd g i (Idle, o)) (set_holder None s) (valid s ∪ issued).
Proof.
  intros Hinv Hg.
  assert (holder s = Some i) as Hh by (apply (i_idle _ _ _ Hinv); by rewrite Hg).
  assert (∀ j, j ≠ i → (g j).1 = Idle) as Hidle.
  { intros j Hj. eapply not_holder_idle; [exact Hinv|]. rewrite Hh. congruence. }
  destruct Hinv as [Hi Ho Hd Hl [Hv Hf] Hc Hs].
  assert (∀ j t, (upd g i (Idle, o) j).2 = Some t → (g j).2 = Some t) as Hu.
  { intros j t Hj. ghosts; [by rewrite Hg|done]. }
  split; cbn [holder valid file set_holder rejections interrupts].
  - intros j Hj. ghosts; [done|]. by rewrite Hidle in Hj.
  - intros j t Hj%Hu. by apply (Ho j).
  - intros j k t Hj%Hu Hk%Hu. by eapply Hd.
  - intros j tok Hj. clear Hu. ghosts; [done|]. by rewrite Hidle in Hj.
  - split; [set_solver|]. intros t Ht. specialize (Hf t Ht). set_solver.
  - done.
  - intros _ Hst. apply Hs; [|done]. unfold phase. rewrite Hh, Hg. by right.
Qed.

(** The provider issues a token to process [i], and may take one back. *)
Lemma inv_issue g s issued i h' t v' :
  shared_inv g s issued → t ∉ issued →
  (h' = Idle ∧ (g i).1 = Idle ∨ h' = Rotated ∧ ∃ tok, (g i).1 = HasToken tok ∧
     ∀ x, x ∈ valid s → x ∈ v' ∨ x = tok) →
  (h' = Idle → valid s ⊆ v') → t ∈ v' → v' ⊆ {[ t ]} ∪ valid s →
  shared_inv (upd g i (h', Some t)) (set_valid v' s) (v' ∪ issued).
Proof.
  intros Hinv Ht Hh Hkeep Htv Hv'. pose proof Hinv as [Hi Ho Hd Hl [Hv Hf] Hc Hs].
  assert (∀ j x, (g j).2 = Some x → x ∈ v') as Hown.
  { intros j x Hx. pose proof (Ho j x Hx) as [Hxv _].
    destruct Hh as [[-> _]|(-> & tok & Hg & Hx')]; [by apply Hkeep|].
    destruct (Hx' x Hxv) as [?| ->]; [done|]. destruct (Hl i tok Hg) as (_ & Hn & _). by destruct (Hn j). }
  assert (∀ j x, (g j).2 = Some x → x ≠ t) as Hfresh.
  { intros j x Hx ->. destruct (Ho j t Hx). set_solver. }
  split; cbn [holder valid file set_valid rejections interrupts].
  - intros j Hj. ghosts; [|by apply Hi]. apply Hi. destruct Hh as [[-> _]|(-> & tok & Hg & _)]; [done|].
    by rewrite Hg.
  - intros j x Hj. ghosts.
    + injection Hj as <-. split; [done|]. intros Hx. by apply Ht, Hf.
    + split; [by eapply Hown|]. by apply (Ho j).
  - intros j k x Hj Hk. ghosts; simplify_eq; try done;
      first [by destruct (Hfresh _ _ Hk)|by destruct (Hfresh _ _ Hj)|by eapply Hd].
  - intros j tok Hj. destruct (decide (j = i)) as [->|Hji].
    { rewrite upd_same in Hj. simpl in Hj. by destruct Hh as [[-> _]|[-> _]]. }
    rewrite upd_other in Hj by done. destruct (Hl j tok Hj) as (Htok & Hn & Hft & Hcr).
    assert (holder s = Some j) as Hhj by (apply Hi; by rewrite Hj).
    destruct Hh as [[-> _]|(-> & tok' & Hg & _)].
    + split_and!; [set_solver| |done|intros Hnv; apply Hcr; set_solver].
      intros k Hk. ghosts; [injection Hk as ->; done|by apply (Hn k)].
    + assert (holder s = Some i) by (apply Hi; by rewrite Hg). congruence.
  - split; [set_solver|]. intros x Hx. specialize (Hf x Hx). set_solver.
  - done.
  - unfold phase. cbn [holder set_valid]. intros Hp (x & Hx & Hxv). cbn [file valid set_valid] in Hx, Hxv.
    destruct Hh as [[-> Hg]|(-> & tok & Hg & _)].
    + apply Hs; [|exists x; split; [done|set_solver]]. unfold phase.
      destruct (holder s) as [j|]; [|by left]. destruct (decide (j = i)) as [->|];
        [rewrite Hg; by left|by rewrite upd_other in Hp].
    + assert (holder s = Some i) as Hhi by (apply Hi; by rewrite Hg). rewrite Hhi, upd_same in Hp.
      simpl in Hp. by destruct Hp.
Qed.

Lemma inv_reject g s issued i tok :
  shared_inv g s issued → (g i).1 = HasToken tok → tok ∉ valid s →
  shared_inv (upd g i (Rejected, None)) (reject s) (valid s ∪ issued).
Proof.
  intros Hinv Hg Htok. pose proof (i_loaded _ _ _ Hinv i tok Hg) as (_ & _ & _ & Hcr).
  assert (holder s = Some i) as Hhi by (apply (i_idle _ _ _ Hinv); by rewrite Hg).
  destruct (inv_knows g s issued i Rejected None Hinv) as [Hi Ho Hd Hl Hv Hc Hs];
    [by right|by rewrite Hg|done|by intros [?|?]|].
  specialize (Hcr Htok). unfold credit in Hcr.
  split; try done.
  - intros j tok' Hj. ghosts; [done|].
    assert (holder s = Some j) as Hhj; [|congruence]. apply (i_idle _ _ _ Hinv). by rewrite Hj.
  - unfold phase. cbn [holder reject]. rewrite Hhi, upd_same. simpl. by intros [?|?].
Qed.

Lemma inv_store g s issued i r :
  shared_inv g s issued → (g i).1 = Held ∨ (g i).1 = Rotated → (g i).2 = Some (r_refresh_token r) →
  shared_inv (upd g i (Held, None)) (set_file (Some (written uid new_mode private r)) s)
    (valid s ∪ issued).
Proof.
  intros Hinv Hh Hg. pose proof Hinv as [Hi Ho Hd Hl [Hv Hf] Hc Hs].
  assert (holder s = Some i) as Hhi by (apply Hi; destruct Hh as [Hh|Hh]; by rewrite Hh).
  destruct (Ho _ _ Hg) as [Hvr _].
  assert (∀ t, file_token owner (Some (written uid new_mode private r)) = Some t →
    t = r_refresh_token r) as Hw by apply written_token.
  split; cbn [holder valid file set_file rejections interrupts].
  - intros j Hj. ghosts; [done|by apply Hi].
  - intros j t Hj. ghosts; [done|]. split; [by apply (Ho j)|]. intros Ht%Hw. subst.
    assert (j = i) by (by eapply Hd). done.
  - intros j k t Hj Hk. ghosts; try done. by eapply Hd.
  - intros j tok Hj. ghosts; [done|].
    assert (holder s = Some j) as Hhj; [|congruence]. apply Hi. by rewrite Hj.
  - split; [set_solver|]. intros t Ht%Hw. subst. set_solver.
  - done.
  - intros _ (t & Ht & Hn). cbn [file valid set_file] in Ht, Hn. apply Hw in Ht. by subst.
Qed.

Lemma inv_issued_again g s issued : shared_inv g s issued → valid s ∪ issued = issued.
Proof. intros [_ _ _ _ [Hv _] _ _]. set_solver. Qed.

Lemma inv_ext g g' s issued :
  (∀ j, g j = g' j) → shared_inv g s issued → shared_inv g' s issued.
Proof.
  intros He [Hi Ho Hd Hl Hv Hc Hs]. split; try done.
  - intros i. rewrite <-He. apply Hi.
  - intros i t. rewrite <-He. apply Ho.
  - intros i j t. rewrite <-!He. apply Hd.
  - intros i tok. rewrite <-He. intros (? & Hn & ? & ?)%Hl. split_and!; try done.
    intros j. rewrite <-He. apply Hn.
  - unfold phase in *. destruct (holder s); rewrite <-?He; done.
Qed.

(** What an effect answers is among what the obligation foresees. *)
Lemma exec_preserves pid issued B (e : eff B) s b s' :
  exec pid issued e s b s' →
  ∀ K g, obligation e K (g pid).1 (g pid).2 → shared_inv g s issued →
  ∃ h o, K b h o ∧ shared_inv (upd g pid (h, o)) s' (valid s' ∪ issued).
Proof.
  intros Hex K g Hob Hinv. pose proof Hinv as [Hi Ho Hd Hl [Hv Hf] Hc Hs].
  assert (∀ h, (g pid).1 = h → h ≠ Idle → phase g s = h) as Hphase.
  { intros h Hg Hn. unfold phase. by rewrite (Hi pid) by by rewrite Hg. }
  destruct Hex as [s Hh|s e|s|s|s tok resp Htok Hnew|s tok Htok|s tok|s tok e|s tok t e Htok Hnew
    |s resp Hnew|s e|s r|s r e|s|s e|s t]; cbn [obligation] in Hob.
  - destruct Hob as (Hg & Hk & _). exists Held, (g pid).2. split; [done|].
    refine (inv_lock g s issued pid _ Hinv Hh _). by rewrite <-Hg, <-surjective_pairing.
  - destruct Hob as (Hg & _ & Hk). exists Idle, (g pid).2. split; [done|].
    apply inv_knows; [done|by left|done|done|]. intros _ Hh. apply Hs. unfold phase. rewrite Hh, Hg. by left.
  - destruct Hob as (Hg & Hk). exists Idle, (g pid).2. split; [done|].
    rewrite decide_True by (apply Hi; by rewrite Hg).
    refine (inv_unlock g s issued pid _ Hinv _). by rewrite <-Hg, <-surjective_pairing.
  - destruct Hob as (Hg & Hk). exists (after_load (read_record (file s) owner) (g pid).1), (g pid).2.
    split; [done|]. destruct Hg as [Hg|Hg].
    + rewrite Hg. simpl. apply inv_knows; [done|by left|done|done|].
      intros _ Hh. apply Hs. unfold phase. rewrite Hh, Hg. by left.
    + rewrite Hg. simpl. apply inv_knows; [done|by left|by rewrite Hg| |].
      * intros tok Ht. assert (file_token owner (file s) = Some tok) as Hft.
        { unfold file_token. destruct (read_record (file s) owner) as [[rec|]|e|]; naive_solver. }
        split_and!; [by apply Hf| |congruence|].
        -- intros j Hj. by destruct (Ho j tok Hj).
        -- intros Hnv. apply Hs; [rewrite (Hphase Held) by done; by right|]. by exists tok.
      * intros _ _. apply Hs. rewrite (Hphase Held) by done. by right.
  - destruct Hob as (Hg & Hown & Hk & _). exists (after_refresh resp), (OAuthToken.refresh_token resp).
    split; [done|]. unfold after_refresh, rotate. destruct (OAuthToken.refresh_token resp) as [t|].
    + apply inv_issue; [done|by apply Hnew| |done|set_solver|set_solver].
      right. split; [done|]. exists tok. split; [done|]. intros x Hx.
      destruct (decide (x = tok)); [by right|left; set_solver].
    + apply inv_knows; [done|by left|by rewrite Hg|done|].
      intros _ _ (t & Ht & Hn). destruct (Hl pid tok Hg) as (_ & _ & Hft & _). by rewrite (Hft t Ht) in Hn.
  - destruct Hob as (Hg & _ & _ & Hk & _). exists Rejected, None. split; [done|]. exact (inv_reject g s issued pid tok Hinv Hg Htok).
  - destruct Hob as (Hg & _ & _ & _ & Hk & _). exists Held, None. split; [done|].
    apply inv_knows; [done|by right|by rewrite Hg|done|].
    intros _ _ (t & Ht & Hn). destruct (Hl pid tok Hg) as (_ & _ & Hft & Hcr).
    apply Hcr. by rewrite <-(Hft t Ht).
  - destruct Hob as (Hg & _ & _ & _ & _ & Hk). exists Held, None. split; [done|].
    apply inv_knows; [done|by right|by rewrite Hg|done|].
    intros _ _ (t & Ht & Hn). destruct (Hl pid tok Hg) as (_ & _ & Hft & Hcr).
    apply Hcr. by rewrite <-(Hft t Ht).
  - destruct Hob as (Hg & _ & _ & _ & _ & Hk). exists Held, None. split; [done|].
    assert (shared_inv (upd g pid (Rotated, Some t)) (rotate tok (Some t) s)
      (valid (rotate tok (Some t) s) ∪ issued)) as Hr.
    { apply inv_issue; [done|done| |done|set_solver|set_solver].
      right. split; [done|]. exists tok. split; [done|]. intros x Hx.
      destruct (decide (x = tok)); [by right|left; set_solver]. }
    pose proof (interrupt_credit _ _ _ Hr) as Hcr. apply inv_interrupt in Hr.
    pose proof (inv_knows _ _ _ pid Held None Hr ltac:(by right) ltac:(by rewrite upd_same) ltac:(done)
      ltac:(done)) as Hr2.
    rewrite (inv_issued_again _ _ _ Hr) in Hr2. refine (inv_ext _ _ _ _ _ Hr2).
    intros j. unfold upd. by case_decide.
  - destruct Hob as (Hg & Hown & Hk & _). exists Idle, (OAuthToken.refresh_token resp). split; [done|].
    destruct (OAuthToken.refresh_token resp) as [t|].
    + apply inv_issue; [done|by apply Hnew|by left|set_solver..].
    + apply inv_knows; [done|by left|done|done|]. intros _ Hh. apply Hs. unfold phase. rewrite Hh, Hg. by left.
  - destruct Hob as (Hg & Hown & _ & Hk). exists Idle, None. split; [done|].
    apply inv_knows; [done|by right|done|done|]. intros _ Hh. apply Hs. unfold phase. rewrite Hh, Hg. by left.
  - destruct Hob as (Hg & Hown & Hk & _). exists Held, None. split; [done|]. exact (inv_store g s issued pid r Hinv Hg Hown).
  - destruct Hob as (Hg & Hown & _ & Hk). exists Held, None. split; [done|].
    pose proof (interrupt_credit _ _ _ Hinv). refine (inv_knows g (interrupt s) issued pid _ _ (inv_interrupt _ _ _ Hinv) _ _ _ _);
      [by right| |done|done].
    intros _. by destruct Hg as [-> | ->].
  - destruct Hob as (Hg & Hk & _). exists (after_delete (g pid).1), (g pid).2. split; [done|].
    refine (inv_knows g (set_file None s) issued pid _ _ (inv_no_file _ _ _ Hinv) _ _ _ _);
      [by left| | |].
    + destruct Hg as [-> | [-> | ->]]; done.
    + intros tok. destruct Hg as [-> | [-> | ->]]; done.
    + intros _ _ (t & Ht & _). done.
  - destruct Hob as (Hg & _ & Hk). exists (after_delete (g pid).1), (g pid).2. split; [done|].
    pose proof (interrupt_credit _ _ _ Hinv). refine (inv_knows g (interrupt s) issued pid _ _ (inv_interrupt _ _ _ Hinv) _ _ _ _);
      [by left| | |done].
    + destruct Hg as [-> | [-> | ->]]; done.
    + intros tok. destruct Hg as [-> | [-> | ->]]; done.
  - exists (g pid).1, (g pid).2. split; [done|]. apply inv_knows; [done|by left|done|by apply Hl|].
    intros Hp Hh. apply Hs. unfold phase. by rewrite Hh.
Qed.

(** ** The programs meet their obligations *)
Lemma safe_unlock {A} (r : A) own : safe (Do EUnlock (λ _, Ret r)) Held own.
Proof. done. Qed.

Lemma store_if_refreshable_safe {A} key resp h (K : result unit → prog (result A)) :
  (h = Held ∨ h = Rotated) → (OAuthToken.refresh_token resp = None → h = Held) →
  (∀ r, safe (K r) Held None) →
  safe (prog_bind K (store_if_refreshable key resp)) h (OAuthToken.refresh_token resp).
Proof.
  intros Hh Hn HK. cbn. intros t. unfold record_from_response.
  destruct (OAuthToken.refresh_token resp) as [tok|]; simpl.
  - split_and!; [done|done|apply HK|intros; apply HK].
  - rewrite (Hn eq_refl). apply HK.
Qed.

Lemma prog_bind_assoc {A B D} (p : prog A) (f : A → prog B) (h : B → prog D) own st :
  safe (prog_bind (λ a, prog_bind h (f a)) p) st own → safe (prog_bind h (prog_bind f p)) st own.
Proof.
  revert own st; induction p as [a|X e k IH]; intros own st; [done|]. cbn.
  destruct e; cbn [obligation]; naive_solver.
Qed.

Lemma locked_store_safe key resp own :
  OAuthToken.refresh_token resp = own →
  safe (locked (attempt (store_if_refreshable key resp) (λ _, Ret (Ok resp)))) Idle own.
Proof.
  intros <-. split; [done|]. split; [|done]. unfold attempt. apply prog_bind_assoc.
  apply store_if_refreshable_safe; [by left|done|]. by intros [[]| |].
Qed.

Lemma refresh_or_acquire_safe key : safe (refresh_or_acquire key) Idle None.
Proof.
  assert (∀ h, h = Held →
    safe (prog_bind (λ done, match done with
      | Ok (Some response) => Ret (Ok response)
      | Ok None => attempt (op EFetch) (λ response,
          locked (attempt (store_if_refreshable key response) (λ _, Ret (Ok response))))
      | Err e => Ret (Err e) | Panic => Ret Panic end) (Do EUnlock (λ _, Ret (Ok None)))) h None) as Hnext.
  { intros h ->. split; [done|]. split; [done|]. split; [done|]. split; [|done].
    intros resp. by apply locked_store_safe. }
  split; [done|]. split; [|done]. split; [by right|]. intros r.
  destruct r as [[rec|]|e|]; [|by apply Hnext|done|done].
  cbn [after_load]. split; [done|]. split; [done|]. split; [|split; [|split; [by apply Hnext|done]]].
  - intros resp. unfold attempt at 1. cbn [prog_bind]. do 2 apply prog_bind_assoc.
    apply prog_bind_assoc. apply store_if_refreshable_safe.
    + unfold after_refresh. case_match; auto.
    + unfold after_refresh. by intros ->.
    + by intros [[]| |].
  - split; [auto|]. split; [intros b; by apply Hnext|done].
Qed.

Lemma status_safe key own : safe (status key) Idle own.
Proof. split; [by left|]. by intros [[r|]| |]. Qed.

Lemma login_safe key : safe (login key) Idle None.
Proof.
  split; [done|]. split; [done|]. split; [|done]. intros resp. split; [done|]. split; [|done].
  intros t. unfold record_from_response. destruct (OAuthToken.refresh_token resp) as [tok|]; cbn.
  - split; [by left|]. split; [done|]. split; [|done]. split; [done|]. apply status_safe.
  - split; [by right; left|]. split; [|done]. intros b. split; [done|]. apply status_safe.
Qed.

Definition proc_safe (q : Process) (h : hold) (own : option string) : Prop :=
  match q with Proc p => safe p h own | Crashed => True end.

Lemma start_safe key call : proc_safe (start key call) Idle None.
Proof.
  destruct call; cbn [start proc_safe];
    auto using refresh_or_acquire_safe, login_safe, status_safe.
  split; [by left|]. split; [intros b; done|done].
Qed.

Lemma inv_crash g s issued i :
  shared_inv g s issued →
  shared_inv (upd g i (Idle, None))
    (if decide (holder s = Some i) then interrupt (set_holder None s) else s) issued.
Proof.
  intros Hinv. destruct (decide (holder s = Some i)) as [Hh|Hh].
  - assert (∀ j, j ≠ i → (g j).1 = Idle) as Hidle.
    { intros j Hj. eapply not_holder_idle; [exact Hinv|]. rewrite Hh. congruence. }
    pose proof (interrupt_credit _ _ _ Hinv) as Hcr. destruct Hinv as [Hi Ho Hd Hl Hv Hc Hs].
    split; cbn [holder valid file interrupt set_holder]; try done.
    + intros j Hj. ghosts; [done|]. by rewrite Hidle in Hj.
    + intros j t Hj. ghosts; [done|]. by apply (Ho j).
    + intros j k t Hj Hk. ghosts; try done. by eapply Hd.
    + intros j tok Hj. ghosts; [done|]. by rewrite Hidle in Hj.
    + cbn [rejections interrupts interrupt set_holder]. lia.
  - pose proof (not_holder_idle _ _ _ _ Hinv Hh) as Hg.
    rewrite <-(inv_issued_again _ _ _ Hinv). apply inv_knows; [done|by right|by rewrite Hg|done|].
    intros _ Hh'. done.
Qed.

Definition config_inv (g : ghost) (c : Config) : Prop :=
  shared_inv g (shared c) (issued c) ∧
  (∀ i q, procs c !! i = Some q → proc_safe q (g i).1 (g i).2) ∧
  (∀ i, length (procs c) ≤ i → g i = (Idle, None))%nat.

Lemma token_cache_step_inv g c c' : config_inv g c → cache_step c c' → ∃ g', config_inv g' c'.
Proof.
  intros (Hinv & Hsafe & Hnew) Hstep.
  destruct Hstep as [c pid A X e k b s' Hp Hex|c pid A p Hp|c key call].
  - pose proof (Hsafe pid _ Hp) as Hob. cbn [proc_safe safe] in Hob.
    destruct (exec_preserves _ _ _ _ _ _ _ Hex _ g Hob Hinv) as (h & o & Hk & Hinv').
    exists (upd g pid (h, o)). split; [done|]. split; cbn [procs].
    + intros i q. destruct (decide (i = pid)) as [->|].
      * rewrite list_lookup_insert_eq by (by eapply lookup_lt_Some). intros [= <-].
        by rewrite upd_same.
      * rewrite list_lookup_insert_ne by done. rewrite upd_other by done. apply Hsafe.
    + intros i. rewrite length_insert. intros Hi. apply lookup_lt_Some in Hp.
      rewrite upd_other by lia. by apply Hnew.
  - exists (upd g pid (Idle, None)). split; [by apply inv_crash|]. split; cbn [procs].
    + intros i q. destruct (decide (i = pid)) as [->|].
      * rewrite list_lookup_insert_eq by (by eapply lookup_lt_Some). by intros [= <-].
      * rewrite list_lookup_insert_ne by done. rewrite upd_other by done. apply Hsafe.
    + intros i. rewrite length_insert. intros Hi. apply lookup_lt_Some in Hp.
      rewrite upd_other by lia. by apply Hnew.
  - exists g. split; [done|]. split; cbn [procs].
    + intros i q [[_ Hi]|[-> <-]]%lookup_snoc_Some; [by apply Hsafe|].
      rewrite Hnew by done. apply start_safe.
    + intros i. rewrite length_app. intros. apply Hnew. lia.
Qed.

Lemma token_cache_reachable_inv c : cache_reachable c → ∃ g, config_inv g c.
Proof.
  induction 1 as [f v Hf|c c' _ [g Hg] Hstep]; [|by eapply token_cache_step_inv].
  exists (λ _, (Idle, None)). split; [|split; [done|done]].
  split; try done; cbn [file valid rejections interrupts issued shared procs holder].
  intros _ (t & Ht & Hn). by apply Hf in Ht.
Qed.

End processes.

(** * The identity of a session *)

(** A part of a [v1] identity without the separators of the format. *)
Definition plain (s : string) : Prop := no_char LF s = true.
Definition plain_scopes (l : list string) : Prop :=
  Forall (λ s, plain s ∧ no_char " "%char s = true ∧ s ≠ "") l.

Lemma plain_join l : plain_scopes l → plain (join " "%char l).
Proof.
  induction 1 as [|x l (Hx & _ & _) Hl IH]; [done|]. destruct l as [|y l]; [done|].
  rewrite join_cons by done. unfold plain in *. rewrite no_char_app, no_char_cons. done.
Qed.

Lemma join_inj l1 l2 : plain_scopes l1 → plain_scopes l2 →
  join " "%char l1 = join " "%char l2 → l1 = l2.
Proof.
  assert (∀ l, plain_scopes l → Forall (λ s, no_char " "%char s = true) l) as Hn.
  { intros l Hl. eapply Forall_impl; [exact Hl|]. by intros s (_ & ? & _). }
  assert (∀ l, plain_scopes l → l ≠ [] → join " "%char l ≠ "") as Hne.
  { intros [|x [|y l]] Hl Hnil; [done| |]; apply Forall_cons in Hl as [(_ & _ & Hx) _]; [done|].
    rewrite join_cons by done. by destruct x. }
  intros H1 H2 Heq. destruct l1 as [|x l1], l2 as [|y l2]; [done| | |].
  - by destruct (Hne (y :: l2)).
  - by destruct (Hne (x :: l1)).
  - rewrite <-(split_join " "%char (x :: l1)), <-(split_join " "%char (y :: l2)), Heq; auto.
Qed.

Lemma dedup_sorted l : StronglySorted String.le l → StronglySorted String.le (dedup l) ∧ NoDup (dedup l).
Proof.
  induction 1 as [|y l Hl [IHs IHd] Hy]; [split; constructor|]. cbn [dedup].
  assert (∀ z, z ∈ dedup l → String.le y z) as Hle.
  { intros z Hz. rewrite elem_of_dedup in Hz. rewrite Forall_forall in Hy. by apply Hy. }
  destruct (dedup l) as [|z l'] eqn:Hd; [split; [by repeat constructor|apply NoDup_singleton]|].
  destruct (decide (y = z)) as [->|Hne]; [done|]. split.
  - constructor; [done|]. by apply Forall_forall.
  - constructor; [|done]. intros Hin. apply Hne. apply (anti_symm String.le); [apply Hle; set_solver|].
    apply elem_of_cons in Hin as [->|Hin]; [done|].
    apply StronglySorted_inv in IHs as [_ Hz]. rewrite Forall_forall in Hz. by apply Hz.
Qed.

(** The canonical scopes are the set of the scopes asked for. *)
Lemma canonical_scopes l1 l2 :
  canonicalize_scopes l1 = canonicalize_scopes l2 ↔ ∀ s, s ∈ trimmed l1 ↔ s ∈ trimmed l2.
Proof.
  assert (∀ l s, s ∈ canonicalize_scopes l ↔ s ∈ trimmed l) as He.
  { intros l s. unfold canonicalize_scopes. by rewrite elem_of_dedup, merge_sort_Permutation. }
  assert (∀ l, StronglySorted String.le (canonicalize_scopes l) ∧ NoDup (canonicalize_scopes l)) as Hs.
  { intros l. apply dedup_sorted, StronglySorted_merge_sort; apply _. }
  split; [intros Heq s; by rewrite <-!He, Heq|]. intros Hset.
  apply (StronglySorted_unique String.le); [apply Hs..|].
  apply NoDup_Permutation; [apply Hs..|]. intros s. by rewrite !He.
Qed.

(** Appending after a separator that the first parts do not have *)
Lemma sep_inj a b x y : plain a → plain b → a +:+ LFs +:+ x = b +:+ LFs +:+ y → a = b ∧ x = y.
Proof.
  unfold plain, LFs. intros Ha Hb Heq. cbn [String.append] in Heq.
  pose proof (split_once_app LF a x Ha) as H1. pose proof (split_once_app LF b y Hb) as H2.
  rewrite Heq in H1. rewrite H1 in H2. by injection H2.
Qed.



(** The JSON encodings start with a bracket and determine what they encode. *)
Class IdentityLaws : Prop := {
  json_array x : ∃ rest, json_identity x = "[" +:+ rest;
  json_inj x y : json_identity x = json_identity y → x = y
}.

Lemma identity_v1_inj i1 c1 s1 f1 a1 i2 c2 s2 f2 a2 :
  plain i1 → plain i2 → plain c1 → plain c2 → plain_scopes s1 → plain_scopes s2 →
  plain f1 → plain f2 →
  identity_v1 i1 c1 s1 f1 a1 = identity_v1 i2 c2 s2 f2 a2 →
  (i1, c1, s1, f1, a1) = (i2, c2, s2, f2, a2).
Proof.
  intros Hi1 Hi2 Hc1 Hc2 Hs1 Hs2 Hf1 Hf2 Heq. unfold identity_v1 in Heq.
  apply sep_inj in Heq as [_ Heq]; [|done..].
  apply sep_inj in Heq as [-> Heq]; [|done..].
  apply sep_inj in Heq as [-> Heq]; [|done..].
  apply sep_inj in Heq as [Hj Heq]; [|by apply plain_join..].
  apply sep_inj in Heq as [-> ->]; [|done..].
  by rewrite (join_inj _ _ Hs1 Hs2 Hj).
Qed.

(** * Properties *)

(** C14: Any number of processes that refresh, log in, log out and ask for the status of
    one cached session, interleaved in any way and crashing at any point, against a
    provider that takes back the old refresh token whenever it issues a new one:
    the provider refuses a refresh at most as often as a rotated
    token was put at risk - by the crash of a process that held the lock, a store or a
    delete that failed, or an answer that was lost.  Without such an interruption no
    process is ever sent to authenticate again because of another one. *)
Theorem reauthentication_bounded `{!CodecLaws} (owner uid new_mode : Z) (private : bool) (c : Config)
    (Hreach : cache_reachable owner uid new_mode private c) :
  (rejections (shared c) ≤ interrupts (shared c))%nat.
Proof.
  apply token_cache_reachable_inv in Hreach as (g & Hinv & _); [|done].
  by apply (i_count _ _ _ _ Hinv).
Qed.

(** Two configurations share a cached session only if they are the same
    session: the identities from which the file names are hashed agree exactly when issuer (up
    to trailing slashes), client, the set of scopes, flow, kind of client, resource and
    audience agree, for parts without line feeds and scopes without spaces when
    neither a resource nor an audience is given. *)
Theorem cache_identity_separates `{!IdentityLaws} (c1 c2 : OAuthConfig) (k1 k2 : CacheKey)
    (Hk1 : cache_key c1 = Ok k1) (Hk2 : cache_key c2 = Ok k2)
    (Hp1 : plain (k_issuer_url k1) ∧ plain (k_client_id k1) ∧ plain_scopes (k_scopes k1))
    (Hp2 : plain (k_issuer_url k2) ∧ plain (k_client_id k2) ∧ plain_scopes (k_scopes k2))
    (Hhash : ∀ x y, hex_sha256 x = hex_sha256 y → x = y) :
  k_file_stem k1 = k_file_stem k2 ↔
  canonicalize_issuer (issuer_url c1) = canonicalize_issuer (issuer_url c2) ∧
  client_id c1 = client_id c2 ∧
  (∀ s, s ∈ trimmed (scopes c1) ↔ s ∈ trimmed (scopes c2)) ∧
  flow_key (flow c1) = flow_key (flow c2) ∧
  client_auth_key (client_secret c1) = client_auth_key (client_secret c2) ∧
  resource c1 = resource c2 ∧ audience c1 = audience c2.
Proof.
  rewrite <-canonical_scopes. unfold cache_key in *. apply bind_Ok in Hk1 as (f1 & Hf1%ok_or_Ok & [= <-]).
  apply bind_Ok in Hk2 as (f2 & Hf2%ok_or_Ok & [= <-]). simpl in *.
  assert (∀ f x, flow_key f = Some x → plain x) as Hpf by (intros [] x [= <-]; done).
  split.
  - intros Hid%Hhash. rewrite Hf1, Hf2. unfold identity in Hid.
    assert (∀ x i cl s f a, identity_v1 i cl s f a ≠ json_identity x) as Hne.
    { intros x i cl s f a Heq. destruct (json_array x) as [rest Hr]. rewrite Hr in Heq. done. }
    destruct (resource c1) eqn:?, (audience c1) eqn:?, (resource c2) eqn:?, (audience c2) eqn:?;
      try (by apply Hne in Hid); try (symmetry in Hid; by apply Hne in Hid);
      try (apply json_inj in Hid; injection Hid as -> -> -> -> -> ; naive_solver).
    apply identity_v1_inj in Hid; [|naive_solver..]. injection Hid as -> -> -> -> ->. done.
  - intros (-> & -> & -> & Hf & -> & -> & ->). rewrite Hf1, Hf2 in Hf. injection Hf as ->. done.
Qed.



End cache.
Arguments Ret {A} a.
Arguments Do {A B} e k.

(** A codec on the binary numerals of stdpp's encodings. *)
Module Binary.
Definition tuple (r : CachedTokenRecord) :=
  (r_version r, r_issuer_url r, r_client_id r, r_scopes r, r_resource r, r_audience r, r_flow r,
   r_client_auth r, r_refresh_token r, r_obtained_at r).
Definition of_tuple (x : Z * string * string * list string * option string * option string *
    string * string * string * Z) : CachedTokenRecord :=
  let '(v, i, c, s, re, a, f, ca, rt, o) := x in mkRecord v i c s re a f ca rt o.

#[local] Instance codec : Codec := {
  hex_sha256 s := s;
  json_identity x := "[" +:+ bits (encode x);
  json_record r := bits (encode (tuple r));
  parse_record s := of_tuple <$> decode (of_bits s)
}.

Lemma codec_laws : CodecLaws.
Proof. intros [v i c s re a f ca rt o]. cbn. by rewrite of_bits_bits, decode_encode. Qed.

Lemma identity_laws : IdentityLaws.
Proof.
  split; [by intros x; eexists|]. cbn. intros x y [= Heq].
  apply (f_equal of_bits) in Heq. rewrite !of_bits_bits in Heq. by apply encode_inj in Heq.
Qed.

Definition config : OAuthConfig :=
  mkConfig "https://idp/" "app" None ["openid"; " email "; "openid"] None None DeviceCode
    None None (Some options_default).
Definition other : OAuthConfig :=
  mkConfig "https://idp" "app" None ["email"; "openid"] None None DeviceCode
    None None None.
Definition key : CacheKey :=
  mkKey "https://idp" "app" ["email"; "openid"] None None "device_code" "public"
    (identity_v1 "https://idp" "app" ["email"; "openid"] "device_code" "public").
Definition record (token : string) : CachedTokenRecord :=
  mkRecord 1 "https://idp" "app" ["email"; "openid"] None None "device_code" "public" token 0.
Definition entry (token : string) : Entry := written 1000 384 true (record token).
Definition answer : OAuthToken.TokenResponse := OAuthToken.mkResponse "access" (Some "t1") None.

Ltac keep R R' :=
  clear R; rename R' into R;
  cbn -[union difference singleton elem_of entry record written] in R.
Ltac spawn R call :=
  match type of R with
  | cache_reachable ?o ?u ?m ?p ?c =>
      let R' := fresh in
      pose proof (reach_step o u m p c _ R (step_spawn o u m p c key call)) as R'; keep R R'
  end.
Ltac take R st tac :=
  match type of R with
  | cache_reachable ?o ?u ?m ?p ?c =>
      let R' := fresh in
      eassert (cache_reachable o u m p _) as R' by (eapply (reach_step o u m p c _ R); st; tac);
      keep R R'
  end.
(** Process [pid] runs its next effect; [tac] says what it answers. *)
Tactic Notation "run" ident(R) constr(pid) tactic3(tac) :=
  take R ltac:(eapply (step_exec _ _ _ _ _ pid); [reflexivity|]) tac.

Lemma old_valid : "t0" ∈ ({[ "t0" ]} : gset string).
Proof. set_solver. Qed.
Lemma new_fresh : "t1" ∉ ({[ "t0" ]} ∪ {[ "t0"; "t0" ]} : gset string).
Proof. set_solver. Qed.
Lemma old_gone : "t0" ∉ ({[ "t1" ]} ∪ ({[ "t0" ]} ∖ {[ "t0" ]}) : gset string).
Proof. set_solver. Qed.

Lemma initial t : file_token 1000 (Some (entry "t0")) = Some t → t ∈ ({[ "t0" ]} : gset string).
Proof.
  pose proof codec_laws as Hlaws. intros Ht. apply written_token in Ht; [|done]. set_solver.
Qed.
Lemma loads pid issued s : file s = Some (entry "t0") →
  exec 1000 1000 384 true pid issued ELoad s (Ok (Some (record "t0"))) s.
Proof.
  assert (read_record (Some (entry "t0")) 1000 = Ok (Some (record "t0"))) as Hload
    by (vm_compute; reflexivity).
  intros Hs. rewrite <-Hload, <-Hs. constructor.
Qed.

(** A process rotates the token and dies before it stores the new one; the
    next process is refused. *)
Lemma crash_run : ∃ c, cache_reachable 1000 1000 384 true c ∧
  rejections (shared c) = 1 ∧ interrupts (shared c) = 1.
Proof.
  pose proof (reach_init 1000 1000 384 true _ _ initial) as R.
  spawn R CallRefresh.
  run R 0 (eapply exec_lock; reflexivity). run R 0 (eapply loads; reflexivity).
  run R 0 (eapply (exec_refreshed _ _ _ _ _ _ _ _ answer);
    [exact old_valid|intros t [= <-]; exact new_fresh]).
  take R ltac:(eapply (step_crash _ _ _ _ _ 0)) ltac:(reflexivity).
  spawn R CallRefresh.
  run R 1 (eapply exec_lock; reflexivity). run R 1 (eapply loads; reflexivity).
  run R 1 (eapply exec_rejected; exact old_gone).
  eexists. split; [exact R|]. done.
Qed.
(** [logout] removes the record without the lock: a process that is between its
    refresh and its store puts the session back. *)
Lemma logout_undone : ∃ c, cache_reachable 1000 1000 384 true c ∧
  procs c !! 1 = Some (Proc (Ret (Ok true : result bool))) ∧
  file_token 1000 (file (shared c)) = Some "t1".
Proof.
  pose proof (reach_init 1000 1000 384 true _ _ initial) as R.
  spawn R CallRefresh.
  run R 0 (eapply exec_lock; reflexivity). run R 0 (eapply loads; reflexivity).
  run R 0 (eapply (exec_refreshed _ _ _ _ _ _ _ _ answer);
    [exact old_valid|intros t [= <-]; exact new_fresh]).
  spawn R CallLogout. run R 1 (eapply exec_delete).
  run R 0 (eapply (exec_now _ _ _ _ _ _ _ 0%Z)). run R 0 (eapply exec_store).
  eexists. split; [exact R|]. split; [reflexivity|]. vm_compute. reflexivity.
Qed.
End Binary.

Lemma reauthentication_bounded_witness :
  let C := Binary.codec in
  ∃ c, cache_reachable 1000 1000 384 true c ∧ rejections (shared c) = 1 ∧
    (rejections (shared c) ≤ interrupts (shared c))%nat.
Proof.
  intros C. destruct Binary.crash_run as (c & Hc & Hr & _). exists c. split; [exact Hc|].
  split; [exact Hr|].
  exact (reauthentication_bounded (H := Binary.codec_laws) 1000 1000 384 true c Hc).
Defined.

Lemma cache_identity_separates_witness :
  let C := Binary.codec in
  cache_key Binary.config = Ok Binary.key ∧ cache_key Binary.other = Ok Binary.key ∧
  (∀ s, s ∈ trimmed (scopes Binary.config) ↔ s ∈ trimmed (scopes Binary.other)).
Proof.
  intros C.
  assert (cache_key Binary.config = Ok Binary.key) as H1 by (vm_compute; reflexivity).
  assert (cache_key Binary.other = Ok Binary.key) as H2 by (vm_compute; reflexivity).
  split; [exact H1|]. split; [exact H2|].
  assert (plain (k_issuer_url Binary.key) ∧ plain (k_client_id Binary.key) ∧
    plain_scopes (k_scopes Binary.key)) as Hp.
  { split; [reflexivity|]. split; [reflexivity|]. repeat constructor; done. }
  exact (proj1 (proj2 (proj2 (proj1 (cache_identity_separates (H := Binary.identity_laws)
    _ _ _ _ H1 H2 Hp Hp (λ x y Hxy, Hxy)) eq_refl)))).
Defined.

End TokenCache.
