(* ===== verification/Sidecar.v ===== *)
(** * Signature sidecars (table/freshness.rs)

    The map from fragments to input signatures that a computed column's
    freshness rests on is stored as an immutable object named by the digest of
    its bytes: its binary codec, how it is read from the table's own directory
    or through the bases of a clone, how the field metadata refers to it, and
    how sidecars that no retained version refers to are removed.  The hash, the JSON
    parser and the object stores' answers are parameters. *)

From Stdlib Require Import Ascii.
From stdpp Require Import sorting.
From S2P Require Import Prelude RustStr RustText.

Module Sidecar.
Local Open Scope string_scope.

(** [{fragment id -> input signature}]; a byte is a [Z]. *)
Abbreviation SignatureMap := (gmap Z string).

Definition invalid {A} (message : string) : result A := Err (InvalidInput message).

Definition SIDECAR_REF : string := "sidecar:".
Definition SIDECAR_MAGIC : list Z := [67; 83; 73; 71]%Z.
Definition SIDECAR_FORMAT : Z := 1.

(** ** Numbers *)

(** [to_le_bytes] and [from_le_bytes] *)
Fixpoint to_le (n : nat) (z : Z) : list Z :=
  match n with
  | O => []
  | S n => (z mod 256)%Z :: to_le n (z / 256)%Z
  end.
Fixpoint from_le (bytes : list Z) : Z :=
  match bytes with [] => 0 | b :: bytes => b + 256 * from_le bytes end%Z.

(** [format!("{hash:016x}")] *)
Definition hex_digit (d : Z) : ascii :=
  ascii_of_nat (Z.to_nat (if d <? 10 then 48 + d else 87 + d)%Z).
Fixpoint hex_digits (n : nat) (z : Z) : string :=
  match n with
  | O => ""
  | S n => hex_digits n (z / 16)%Z +:+ String (hex_digit (z mod 16)%Z) ""
  end.
Definition hex16 (z : Z) : string := hex_digits 16 z.

(** [u64::from_str_radix(s, 16)]: an optional plus sign and at least one digit *)
Definition hex_value (c : ascii) : option Z :=
  let b := byte_of c in
  if (48 <=? b)%Z && (b <=? 57)%Z then Some (b - 48)%Z
  else if (97 <=? b)%Z && (b <=? 102)%Z then Some (b - 87)%Z
  else if (65 <=? b)%Z && (b <=? 70)%Z then Some (b - 55)%Z
  else None.
Fixpoint parse_hex_digits (acc : Z) (s : string) : option Z :=
  match s with
  | "" => Some acc
  | String c s =>
      d ← hex_value c;
      let acc := (acc * 16 + d)%Z in
      if (acc <? U64)%Z then parse_hex_digits acc s else None
  end.
Definition from_str_radix_16 (s : string) : option Z :=
  match s with
  | "" => None
  | String c rest =>
      if Ascii.eqb c "+"%char
      then if is_empty rest then None else parse_hex_digits 0 rest
      else parse_hex_digits 0 s
  end.

(** ** The codec *)

(** The entries of a [BTreeMap], in the order of their keys. *)
Definition key_le (a b : Z * string) : Prop := (a.1 ≤ b.1)%Z.
#[local] Instance key_le_dec : RelDecision key_le.
Proof. intros a b. unfold key_le. apply _. Defined.
Definition sorted_entries (m : SignatureMap) : list (Z * string) :=
  merge_sort key_le (map_to_list m).

Definition encode_entry (entry : Z * string) : result (list Z) :=
  match from_str_radix_16 entry.2 with
  | Some hash => Ok (to_le 4 entry.1 ++ to_le 8 hash)%list
  | None => invalid ("signature '" +:+ entry.2 +:+ "' is not a 64-bit hex digest")
  end.

Definition encode_sidecar (map : SignatureMap) : result (list Z) :=
  if (Z.of_nat (size map) <? U32)%Z then
    body ← try_map encode_entry (sorted_entries map);
    Ok (SIDECAR_MAGIC ++ [SIDECAR_FORMAT] ++ to_le 4 (Z.of_nat (size map)) ++ mjoin body)%list
  else invalid "too many fragments for a signature sidecar".

(** [chunks_exact(12)] *)
Fixpoint decode_entries (n : nat) (body : list Z) : list (Z * string) :=
  match n with
  | O => []
  | S n =>
      (from_le (take 4 body), hex16 (from_le (take 8 (drop 4 body))))
      :: decode_entries n (drop 12 body)
  end.

Definition decode_sidecar (bytes : list Z) : result SignatureMap :=
  let malformed := invalid "signature sidecar is malformed" in
  if (length bytes <? 9)%nat || bool_decide (take 4 bytes ≠ SIDECAR_MAGIC)
     || bool_decide (bytes !! 4 ≠ Some SIDECAR_FORMAT) then malformed
  else
    let count := from_le (take 4 (drop 5 bytes)) in
    let body := drop 9 bytes in
    if negb (Z.of_nat (length body) =? count * 12)%Z then malformed
    else Ok (list_to_map (reverse (decode_entries (Z.to_nat count) body))).

(** ** Storage *)
Inductive Fetch : Type :=
  | Found (bytes : list Z)
  | NotFound
  | FetchError (e : Error).

(** The base paths of a manifest; a path is the list of its parts. *)
Record BasePath : Type := mkBase {
  base_id : Z;
  base_name : option string;
  base_parts : list string;
  is_dataset_root : bool
}.

Class Storage : Type := {
  digest_of : list Z → string;
  parse_json_map : string → option SignatureMap;
  base_fetch : Z → list string → Fetch;
  unmodified_since : Z → Z → bool
}.

(** The objects of [_computed/] and when they were last modified. *)
Record Object : Type := mkObject { bytes : list Z; modified : Z }.
Abbreviation Directory := (gmap string Object).

Section storage.
Context {St : Storage}.

Definition sidecar_name (digest : string) : string := digest +:+ ".sig".

(** A base cloned from a branch sits below the root the stamps are at. *)
Definition base_root (b : BasePath) : list string :=
  let below := match base_name b with
               | Some branch => (1 + length (split "/"%char branch))%nat
               | None => O
               end in
  take (length (base_parts b) - below) (base_parts b).

Fixpoint read_sidecar_through_bases (bases : list BasePath) (digest : string) : result (list Z) :=
  match bases with
  | [] => invalid ("signature sidecar " +:+ digest +:+
            " is in neither the table's directory nor a base's")
  | b :: bases =>
      if negb (is_dataset_root b) then read_sidecar_through_bases bases digest
      else match base_fetch (base_id b) (base_root b ++ ["_computed"; sidecar_name digest])%list with
      | Found bytes => Ok bytes
      | NotFound => read_sidecar_through_bases bases digest
      | FetchError e => Err e
      end
  end.

(** [own_error]: the own directory cannot be read; [puts]: whether a copy
    into it succeeds. *)
Definition read_sidecar (own_error : option Error) (puts : bool) (now : Z) (dir : Directory)
    (bases : list BasePath) (digest : string) : result SignatureMap * Directory :=
  let check (bytes : list Z) : result SignatureMap :=
    if String.eqb (digest_of bytes) digest then decode_sidecar bytes
    else invalid ("signature sidecar " +:+ digest +:+ " does not match its digest") in
  match own_error with
  | Some e => (Err e, dir)
  | None =>
      match dir !! sidecar_name digest with
      | Some o => (check (bytes o), dir)
      | None =>
          match read_sidecar_through_bases bases digest with
          | Ok bytes =>
              (check bytes,
               if puts then <[sidecar_name digest := mkObject bytes now]> dir else dir)
          | Err e => (Err e, dir)
          | Panic => (Panic, dir)
          end
      end
  end.

Definition write_sidecar (puts : bool) (now : Z) (dir : Directory) (map : SignatureMap)
    : result string * Directory :=
  match encode_sidecar map with
  | Ok bytes =>
      let digest := digest_of bytes in
      if puts
      then (Ok (SIDECAR_REF +:+ digest), <[sidecar_name digest := mkObject bytes now]> dir)
      else (Err (Runtime "object store error"), dir)
  | Err e => (Err e, dir)
  | Panic => (Panic, dir)
  end.

Inductive StoredSignatures : Type :=
  | Absent
  | Present (map : SignatureMap)
  | Unreadable.

(** [stored_signatures] of the metadata value of a column *)
Definition stored_signatures (own_error : option Error) (puts : bool) (now : Z) (dir : Directory)
    (bases : list BasePath) (meta : option string) : StoredSignatures * Directory :=
  match meta with
  | None => (Absent, dir)
  | Some encoded =>
      let '(read, dir) :=
        match strip_prefix SIDECAR_REF encoded with
        | Some digest => read_sidecar own_error puts now dir bases digest
        | None => (ok_or (InvalidInput "{e}") (parse_json_map encoded), dir)
        end in
      (match read with Ok map => Present map | _ => Unreadable end, dir)
  end.

(** ** Pruning *)
Definition SIDECAR_UNVERIFIED_THRESHOLD : Z := 7 * 24 * 3600.

(** The references of one version: the metadata value of each of its fields. *)
Definition digest_ref (meta : option string) : option string :=
  value ← meta; strip_prefix SIDECAR_REF value.
Definition referenced_digests (versions : list (list (option string))) : gset string :=
  list_to_set (omap digest_ref (mjoin versions)).

(** The versions of main and of every branch, as far as they can be listed. *)
Definition all_referenced (main : result (list (list (option string))))
    (branches : result (list (result (list (list (option string)))))) : result (gset string) :=
  versions ← main;
  others ← branches;
  lists ← try_map (λ b : result (list (list (option string))), b) others;
  Ok (referenced_digests versions ∪ ⋃ (referenced_digests <$> lists)).

(** The digests of the objects a prune looks at. *)
Definition present_digests (now : Z) (delete_unverified : bool) (dir : Directory) : list string :=
  omap (λ o : string * Object,
      if delete_unverified || unmodified_since (now - SIDECAR_UNVERIFIED_THRESHOLD) (modified o.2)
      then strip_suffix ".sig" o.1 else None)
    (map_to_list dir).

(** Deletes one by one, and stops at the first deletion that fails. *)
Fixpoint delete_all (deletes : string → option Error) (referenced : gset string)
    (present : list string) (removed : nat) (dir : Directory) : result nat * Directory :=
  match present with
  | [] => (Ok removed, dir)
  | digest :: present =>
      if decide (digest ∈ referenced) then delete_all deletes referenced present removed dir
      else match deletes digest with
      | Some e => (Err e, dir)
      | None =>
          delete_all deletes referenced present (removed + 1) (delete (sidecar_name digest) dir)
      end
  end.

(** [on_main]: the main branch can be checked out when the handle is on another. *)
Definition prune_sidecars (on_main : result unit) (lists : bool) (deletes : string → option Error)
    (main : result (list (list (option string))))
    (branches : result (list (result (list (list (option string))))))
    (now : Z) (delete_unverified : bool) (dir : Directory) : result nat * Directory :=
  match on_main with
  | Err e => (Err e, dir)
  | Panic => (Panic, dir)
  | Ok _ =>
  if negb lists then (Ok O, dir)
  else match present_digests now delete_unverified dir with
  | [] => (Ok O, dir)
  | present =>
      match all_referenced main branches with
      | Ok referenced => delete_all deletes referenced present O dir
      | Err e => (Err e, dir)
      | Panic => (Panic, dir)
      end
  end
  end.

(** ** What happens to the directory *)
Inductive dir_step (version : list (option string)) : Directory → Directory → Prop :=
  | step_write dir puts now map r dir' :
      write_sidecar puts now dir map = (r, dir') → dir_step version dir dir'
  | step_read dir own_error puts now bases meta r dir' :
      stored_signatures own_error puts now dir bases meta = (r, dir') → dir_step version dir dir'
  | step_prune dir on_main lists deletes main branches now unverified r dir' :
      (∃ vs, main = Ok vs ∧ version ∈ vs) ∨
      (∃ bs vs, branches = Ok bs ∧ Ok vs ∈ bs ∧ version ∈ vs) →
      prune_sidecars on_main lists deletes main branches now unverified dir = (r, dir') →
      dir_step version dir dir'.

(** * Lemmas *)
Lemma length_to_le n z : length (to_le n z) = n.
Proof. revert z; induction n as [|n IH]; intros z; simpl; [done|by rewrite IH]. Qed.

Lemma from_to_le n z : (0 ≤ z < 256 ^ Z.of_nat n)%Z → from_le (to_le n z) = z.
Proof.
  revert z; induction n as [|n IH]; intros z Hz; [simpl in *; lia|]. cbn [to_le from_le].
  rewrite Nat2Z.inj_succ, Z.pow_succ_r in Hz by lia.
  rewrite IH; [pose proof (Z.div_mod z 256); lia|].
  split; [apply Z.div_pos; lia|apply Z.div_lt_upper_bound; lia].
Qed.

Lemma hex_value_digit d : (0 ≤ d < 16)%Z → hex_value (hex_digit d) = Some d.
Proof.
  intros Hd. assert (d ∈ [0;1;2;3;4;5;6;7;8;9;10;11;12;13;14;15]%Z) as Hin.
  { rewrite !elem_of_cons, elem_of_nil. lia. }
  rewrite !elem_of_cons, elem_of_nil in Hin.
  repeat destruct Hin as [->|Hin]; try reflexivity. done.
Qed.

Lemma parse_hex_digits_app n z acc s :
  (0 ≤ z < 16 ^ Z.of_nat n)%Z → (0 ≤ acc)%Z → (acc * 16 ^ Z.of_nat n + z < U64)%Z →
  parse_hex_digits acc (hex_digits n z +:+ s) =
  parse_hex_digits (acc * 16 ^ Z.of_nat n + z) s.
Proof.
  revert z acc s; induction n as [|n IH]; intros z acc s Hz Ha Hlt.
  { simpl in *. f_equal. lia. }
  rewrite Nat2Z.inj_succ, Z.pow_succ_r in * by lia.
  pose proof (Z.div_mod z 16 ltac:(lia)) as Hdm. pose proof (Z.mod_pos_bound z 16 ltac:(lia)).
  assert (0 ≤ z / 16 < 16 ^ Z.of_nat n)%Z.
  { split; [apply Z.div_pos; lia|apply Z.div_lt_upper_bound; lia]. }
  cbn [hex_digits]. rewrite <-str_app_assoc. cbn [String.append].
  rewrite IH by (try lia; nia). cbn [parse_hex_digits].
  rewrite hex_value_digit by done. cbn [mbind option_bind].
  replace ((acc * 16 ^ Z.of_nat n + z / 16) * 16 + z mod 16)%Z
    with (acc * (16 * 16 ^ Z.of_nat n) + z)%Z by lia.
  destruct (Z.ltb_spec (acc * (16 * 16 ^ Z.of_nat n) + z) U64); [done|lia].
Qed.

Lemma hex_digits_head n z : ∃ x rest, hex_digits (S n) z = String (hex_digit x) rest ∧ (0 ≤ x < 16)%Z.
Proof.
  revert z; induction n as [|n IH]; intros z.
  - exists (z mod 16)%Z, "". split; [done|apply Z.mod_pos_bound; lia].
  - destruct (IH (z / 16)%Z) as (x & rest & Hx & ?). exists x. eexists. split; [|done].
    change (hex_digits (S (S n)) z)
      with (hex_digits (S n) (z / 16)%Z +:+ String (hex_digit (z mod 16)%Z) "").
    by rewrite Hx.
Qed.

Lemma parse_hex16 z : u64_range z → from_str_radix_16 (hex16 z) = Some z.
Proof.
  intros Hz. unfold from_str_radix_16, hex16.
  destruct (hex_digits_head 15 z) as (x & rest & Hx & Hr).
  assert (parse_hex_digits 0 (hex_digits 16 z) = Some z) as Hp.
  { rewrite <-(str_app_nil_r (hex_digits 16 z)).
    rewrite parse_hex_digits_app; [done| |lia|]; unfold u64_range, U64 in *; simpl; lia. }
  rewrite Hx in Hp |- *.
  assert (Ascii.eqb (hex_digit x) "+"%char = false) as ->; [|done].
  apply Ascii.eqb_neq. intros Heq. pose proof (hex_value_digit x Hr) as Hv. by rewrite Heq in Hv.
Qed.

Lemma parse_hex_digits_range acc s z :
  u64_range acc → parse_hex_digits acc s = Some z → u64_range z.
Proof.
  revert acc; induction s as [|c s IH]; intros acc Ha; cbn [parse_hex_digits]; [by intros [= <-]|].
  destruct (hex_value c) as [d|] eqn:Hd; [|done]. cbn [mbind option_bind].
  destruct (Z.ltb_spec (acc * 16 + d) U64); [|done]. apply IH.
  assert (0 ≤ d)%Z; [|unfold u64_range in *; lia].
  unfold hex_value in Hd. repeat (case_match; [injection Hd as <-; to_prop; lia|]). done.
Qed.

Lemma from_str_radix_16_range s z : from_str_radix_16 s = Some z → u64_range z.
Proof.
  assert (u64_range 0) by (unfold u64_range, U64; lia).
  unfold from_str_radix_16. destruct s as [|c s]; [done|].
  destruct (Ascii.eqb c "+"%char); [destruct (is_empty s); [done|]|]; by apply parse_hex_digits_range.
Qed.

(** What a signature reads back as *)
Definition normal (s : string) : string := default s (hex16 <$> from_str_radix_16 s).

Definition canonical (m : SignatureMap) : Prop :=
  (Z.of_nat (size m) < U32)%Z ∧
  ∀ k s, m !! k = Some s → (0 ≤ k < U32)%Z ∧ ∃ z, u64_range z ∧ s = hex16 z.

Lemma normal_hex16 z : u64_range z → normal (hex16 z) = hex16 z.
Proof. intros Hz. unfold normal. by rewrite parse_hex16. Qed.

Lemma sorted_entries_perm m : sorted_entries m ≡ₚ map_to_list m.
Proof. apply merge_sort_Permutation. Qed.

Lemma encode_entries (l : list (Z * string)) body :
  Forall (λ e, 0 ≤ e.1 < U32)%Z l → try_map encode_entry l = Ok body →
  length (mjoin body) = 12 * length l ∧
    decode_entries (length l) (mjoin body) = prod_map id normal <$> l.
Proof.
  intros Hl. revert body. induction Hl as [|[k s] l Hk _ IH]; intros body; cbn [try_map].
  { by intros [= <-]. }
  intros (x & Hx & Hb)%bind_Ok. apply bind_Ok in Hb as (rest & Hrest & [= <-]).
  destruct (IH _ Hrest) as [Hlen Hd].
  unfold encode_entry in Hx. cbn [fst snd] in *.
  destruct (from_str_radix_16 s) as [z|] eqn:Hz; [|done].
  assert (x = to_le 4 k ++ to_le 8 z)%list as -> by congruence. clear Hx.
  pose proof (from_str_radix_16_range s z Hz) as Hr.
  rewrite mjoin_cons. split.
  { rewrite !length_app, !length_to_le, Hlen. simpl. lia. }
  cbn [length decode_entries]. rewrite <-(app_assoc (to_le 4 k)).
  rewrite (take_app_length' (to_le 4 k)), (drop_app_length' (to_le 4 k)) by by rewrite length_to_le.
  rewrite (take_app_length' (to_le 8 z)) by by rewrite length_to_le.
  rewrite (app_assoc (to_le 4 k)), (drop_app_length' (to_le 4 k ++ to_le 8 z)%list)
    by by rewrite length_app, !length_to_le.
  rewrite Hd, !from_to_le; [|unfold u64_range, U64, U32 in *; simpl; lia..].
  rewrite fmap_cons. f_equal. unfold prod_map, normal. cbn [fst snd]. by rewrite Hz.
Qed.

(** Decoding an encoding gives the map with every signature in its normal form. *)
Lemma sidecar_decodes m bytes : (∀ k s, m !! k = Some s → 0 ≤ k < U32)%Z →
  encode_sidecar m = Ok bytes → decode_sidecar bytes = Ok (normal <$> m).
Proof.
  intros Hm. unfold encode_sidecar. destruct (Z.ltb_spec (Z.of_nat (size m)) U32); [|done].
  intros (body & Hb & He)%bind_Ok.
  assert (bytes = SIDECAR_MAGIC ++ [SIDECAR_FORMAT] ++ to_le 4 (Z.of_nat (size m)) ++ mjoin body)%list
    as -> by congruence. clear He.
  destruct (encode_entries (sorted_entries m) body) as (Hl & Hd); [|done|].
  { rewrite sorted_entries_perm. apply Forall_forall. intros [k s] Hin%elem_of_map_to_list.
    by eapply Hm. }
  assert (length (sorted_entries m) = size m) as Hlen.
  { rewrite sorted_entries_perm. apply length_map_to_list. }
  unfold decode_sidecar. rewrite Hlen in *.
  set (bytes := (SIDECAR_MAGIC ++ _)%list).
  assert (take 4 bytes = SIDECAR_MAGIC) as H4 by done.
  assert (bytes !! 4 = Some SIDECAR_FORMAT) as Hf by done.
  assert (drop 5 bytes = to_le 4 (Z.of_nat (size m)) ++ mjoin body)%list as H5 by done.
  assert (length bytes = 9 + length (mjoin body)) as Hlb.
  { subst bytes. rewrite !length_app, length_to_le. done. }
  assert (drop 9 bytes = mjoin body) as H9.
  { change (drop 9 bytes) with (drop 4 (drop 5 bytes)). rewrite H5.
    apply drop_app_length'. by rewrite length_to_le. }
  destruct (Nat.ltb_spec (length bytes) 9); [lia|].
  rewrite (bool_decide_eq_false_2 (take 4 bytes ≠ SIDECAR_MAGIC)) by (intros Hn; by apply Hn).
  rewrite (bool_decide_eq_false_2 (bytes !! 4 ≠ Some SIDECAR_FORMAT)) by (intros Hn; by apply Hn).
  cbn [orb]. rewrite H9, H5. clearbody bytes.
  rewrite (take_app_length' (to_le 4 _)) by by rewrite length_to_le.
  rewrite from_to_le by (unfold U32 in *; simpl; lia). rewrite Hl.
  destruct (Z.eqb_spec (Z.of_nat (12 * size m)) (Z.of_nat (size m) * 12)); [|lia]. cbn [negb].
  rewrite Nat2Z.id, Hd, <-fmap_reverse, list_to_map_fmap. do 2 f_equal.
  transitivity (list_to_map (map_to_list m) : SignatureMap); [|apply list_to_map_to_list].
  apply list_to_map_proper.
  - rewrite reverse_Permutation, sorted_entries_perm. apply NoDup_fst_map_to_list.
  - by rewrite reverse_Permutation, sorted_entries_perm.
Qed.

Lemma sidecar_codec m : canonical m → ∃ bytes, encode_sidecar m = Ok bytes ∧ decode_sidecar bytes = Ok m.
Proof.
  intros [Hsize Hm].
  assert (∃ body, try_map encode_entry (sorted_entries m) = Ok body) as [body Hbody].
  { assert (Forall (λ e, ∃ z, u64_range z ∧ e.2 = hex16 z) (sorted_entries m)) as Hall.
    { rewrite sorted_entries_perm. apply Forall_forall. intros [k s] Hin%elem_of_map_to_list.
      by apply (Hm k s). }
    induction Hall as [|[k s] l (z & Hz & Hs) _ (body & IH)]; [by exists []|].
    cbn [try_map]. cbn [snd] in Hs. subst s.
    assert (encode_entry (k, hex16 z) = Ok (to_le 4 k ++ to_le 8 z)%list) as ->
      by (unfold encode_entry; cbn [fst snd]; by rewrite parse_hex16).
    run_ok. rewrite IH. run_ok. eauto. }
  assert (encode_sidecar m = Ok (SIDECAR_MAGIC ++ [SIDECAR_FORMAT] ++
    to_le 4 (Z.of_nat (size m)) ++ mjoin body)%list) as He.
  { unfold encode_sidecar. destruct (Z.ltb_spec (Z.of_nat (size m)) U32); [|lia].
    by rewrite Hbody. }
  eexists. split; [exact He|].
  rewrite (sidecar_decodes m _ (λ k s Hk, proj1 (Hm k s Hk)) He). f_equal.
  rewrite <-(map_fmap_id m) at 2. apply map_fmap_ext. intros k s Hk.
  destruct (Hm k s Hk) as (_ & z & Hz & ->). by apply normal_hex16.
Qed.

(** ** The directory *)

(** The object a reference names is there, and is the encoding of [m]. *)
Definition holds (m : SignatureMap) (digest : string) (dir : Directory) : Prop :=
  ∃ o, dir !! sidecar_name digest = Some o ∧ digest_of (bytes o) = digest ∧
    decode_sidecar (bytes o) = Ok m.

Lemma sidecar_name_inj a b : sidecar_name a = sidecar_name b → a = b.
Proof.
  unfold sidecar_name. intros Heq.
  assert (strip_suffix ".sig" (a +:+ ".sig") = Some a) as Ha by by apply strip_suffix_Some.
  assert (strip_suffix ".sig" (b +:+ ".sig") = Some b) as Hb by by apply strip_suffix_Some.
  congruence.
Qed.

Lemma holds_same_digest m digest dir o :
  (∀ x y, digest_of x = digest_of y → x = y) → holds m digest dir →
  digest_of (bytes o) = digest → holds m digest (<[sidecar_name digest := o]> dir).
Proof.
  intros Hinj (o' & _ & Hd & Hm) Ho. exists o. rewrite lookup_insert_eq. split; [done|].
  split; [done|]. by rewrite (Hinj (bytes o) (bytes o')) by congruence.
Qed.

Lemma holds_other m digest name dir o :
  holds m digest dir → name ≠ sidecar_name digest → holds m digest (<[name := o]> dir).
Proof. intros (o' & Hl & ?) Hn. exists o'. by rewrite lookup_insert_ne. Qed.

Lemma write_holds m digest puts now dir m' r dir' :
  (∀ x y, digest_of x = digest_of y → x = y) → holds m digest dir →
  write_sidecar puts now dir m' = (r, dir') → holds m digest dir'.
Proof.
  unfold write_sidecar. intros Hinj Hh. destruct (encode_sidecar m') as [b|e|]; [|by intros [= <- <-]..].
  destruct puts; [|by intros [= <- <-]]. intros [= <- <-].
  destruct (decide (digest = digest_of b)) as [->|Hne]; [by apply holds_same_digest|].
  apply holds_other; [done|]. intros Heq%sidecar_name_inj. by apply Hne.
Qed.

(** Reading an object that is not there never touches one that is. *)
Lemma read_holds m digest own_error puts now dir bases meta r dir' :
  holds m digest dir → stored_signatures own_error puts now dir bases meta = (r, dir') →
  holds m digest dir'.
Proof.
  intros Hh. unfold stored_signatures, read_sidecar. destruct meta as [encoded|]; [|by intros [= <- <-]].
  destruct (strip_prefix SIDECAR_REF encoded) as [d|]; [|by intros [= <- <-]].
  destruct own_error as [e|]; [by intros [= <- <-]|].
  destruct (dir !! sidecar_name d) as [o|] eqn:Ho; [by intros [= <- <-]|].
  destruct (read_sidecar_through_bases bases d) as [b|e|]; [|by intros [= <- <-]..].
  destruct puts; intros [= <- <-]; [|done]. apply holds_other; [done|].
  intros Heq. destruct Hh as (o & Hl & _). by rewrite <-Heq, Ho in Hl.
Qed.

Lemma delete_all_holds m digest deletes referenced present removed dir r dir' :
  holds m digest dir → digest ∈ referenced →
  delete_all deletes referenced present removed dir = (r, dir') → holds m digest dir'.
Proof.
  revert removed dir; induction present as [|d present IH]; intros removed dir Hh Hr; cbn [delete_all];
    [by intros [= <- <-]|].
  destruct (decide (d ∈ referenced)); [by apply IH|].
  destruct (deletes d); [by intros [= <- <-]|]. apply IH; [|done].
  destruct Hh as (o & Hl & ?). exists o. rewrite lookup_delete_ne; [done|].
  intros Heq%sidecar_name_inj. by subst.
Qed.

Lemma elem_of_referenced (version : list (option string)) versions digest :
  version ∈ versions → Some (SIDECAR_REF +:+ digest) ∈ version →
  digest ∈ referenced_digests versions.
Proof.
  intros Hv Hm. unfold referenced_digests. apply elem_of_list_to_set, list_elem_of_omap.
  exists (Some (SIDECAR_REF +:+ digest)). split; [|by cbn [digest_ref mbind option_bind]; apply strip_prefix_app].
  apply list_elem_of_join. by exists version.
Qed.

Lemma dir_step_holds m digest version dir dir' :
  (∀ x y, digest_of x = digest_of y → x = y) → Some (SIDECAR_REF +:+ digest) ∈ version →
  holds m digest dir → dir_step version dir dir' → holds m digest dir'.
Proof.
  intros Hinj Href Hh Hstep.
  destruct Hstep as [dir puts now map r dir' Hw|dir own_error puts now bases meta r dir' Hr
    |dir on_main lists deletes main branches now unverified r dir' Hret Hp].
  - by eapply write_holds.
  - by eapply read_holds.
  - unfold prune_sidecars in Hp. destruct on_main as [[]|e|]; [|by injection Hp as <- <-..].
    destruct lists; cbn [negb] in Hp; [|by injection Hp as <- <-].
    destruct (present_digests now unverified dir) as [|d present]; [by injection Hp as <- <-|].
    destruct (all_referenced main branches) as [referenced|e|] eqn:Hall; [|by injection Hp as <- <-..].
    eapply delete_all_holds; [done| |exact Hp].
    unfold all_referenced in Hall. apply bind_Ok in Hall as (vs & Hmain & Hall).
    apply bind_Ok in Hall as (others & Hbr & Hall). apply bind_Ok in Hall as (ls & Hls & [= <-]).
    apply try_map_Ok in Hls. destruct Hret as [(vs' & Hv & Hin)|(bs & vs' & Hb & Hin & Hv)].
    + apply elem_of_union_l. rewrite Hv in Hmain. injection Hmain as ->. by eapply elem_of_referenced.
    + apply elem_of_union_r, elem_of_union_list. rewrite Hb in Hbr. injection Hbr as ->.
      apply list_elem_of_lookup in Hin as [i Hi].
      destruct (Forall2_lookup_l _ _ _ _ _ Hls Hi) as (y & Hy & [= <-]).
      exists (referenced_digests vs'). split; [|by eapply elem_of_referenced].
      apply list_elem_of_fmap_2. by eapply list_elem_of_lookup_2.
Qed.

(** * Properties *)

(** C18: A signature map survives: the reference that writing it returns reads
    back exactly that map, whatever writes, reads and prunes happen to the directory after
    it, as long as every prune sees the version that holds the reference among the retained
    versions of main or of a branch. *)
Theorem sidecar_survives (m : SignatureMap) (now : Z) (dir dir1 dir2 : Directory)
    (reference : string) (version : list (option string)) (puts : bool) (now2 : Z)
    (bases : list BasePath)
    (Hdigest : ∀ x y, digest_of x = digest_of y → x = y)
    (Hmap : canonical m)
    (Hwrite : write_sidecar true now dir m = (Ok reference, dir1))
    (Hversion : Some reference ∈ version)
    (Hsteps : rtc (dir_step version) dir1 dir2) :
  stored_signatures None puts now2 dir2 bases (Some reference) = (Present m, dir2).
Proof.
  destruct (sidecar_codec m Hmap) as (b & Hb & Hdec). unfold write_sidecar in Hwrite.
  rewrite Hb in Hwrite. injection Hwrite as Href <-.
  assert (strip_prefix SIDECAR_REF reference = Some (digest_of b)) as Hs
    by (rewrite <-Href; exact (strip_prefix_app SIDECAR_REF (digest_of b))).
  assert (holds m (digest_of b) dir2) as (o & Hl & Hd & Hm).
  { assert (holds m (digest_of b) (<[sidecar_name (digest_of b) := mkObject b now]> dir)) as Hh.
    { exists (mkObject b now). rewrite lookup_insert_eq. done. }
    induction Hsteps as [|d1 d2 d3 Hstep _ IH]; [done|]. apply IH. eapply dir_step_holds; [done| |done..].
    rewrite <-Href in Hversion. exact Hversion. }
  unfold stored_signatures, read_sidecar. rewrite Hs, Hl, Hd.
  rewrite String.eqb_refl, Hm. done.
Qed.

End storage.
(** A storage whose digest spells the bytes. *)
Module Spelled.
#[local] Instance storage : Storage := {
  digest_of bytes := bits (encode bytes);
  parse_json_map _ := None;
  base_fetch _ _ := NotFound;
  unmodified_since t m := (m <? t)%Z
}.

Lemma digest_inj x y : digest_of x = digest_of y → x = y.
Proof.
  cbn. intros Heq%(f_equal of_bits). rewrite !of_bits_bits in Heq. by apply encode_inj in Heq.
Qed.

Definition map : SignatureMap := {[ 0%Z := "00000000000000ff"; 7%Z := "0123456789abcdef" ]}.
Definition reference : string :=
  match write_sidecar true 0 ∅ map with (Ok r, _) => r | _ => "" end.
Definition after : Directory := snd (write_sidecar true 0 ∅ map).

Lemma map_canonical : canonical map.
Proof.
  split; [reflexivity|]. intros k s. unfold map. rewrite !lookup_insert_Some.
  intros [[<- <-]|(_ & [<- <-]%lookup_singleton_Some)].
  - split; [by unfold U32|]. exists 255%Z. split; [by unfold u64_range, U64|reflexivity].
  - split; [by unfold U32|]. exists 81985529216486895%Z. split; [by unfold u64_range, U64|reflexivity].
Qed.

Lemma write_map : write_sidecar true 0 ∅ map = (Ok reference, after).
Proof.
  destruct (sidecar_codec map map_canonical) as (b & Hb & _).
  unfold reference, after, write_sidecar. by rewrite Hb.
Qed.

(** A prune long after, by a handle that sees the version on a branch. *)
Definition pruned : result nat * Directory :=
  prune_sidecars (Ok tt) true (λ _, None) (Ok []) (Ok [Ok [[Some reference]]]) 10000000 false after.

Lemma pruned_keeps : dir_step [Some reference] after (snd pruned).
Proof.
  refine (step_prune [Some reference] after (Ok tt) true (λ _, None) (Ok [])
            (Ok [Ok [[Some reference]]]) 10000000 false (fst pruned) (snd pruned) _
            (surjective_pairing pruned)).
  right. exists [Ok [[Some reference]]], [[Some reference]].
  split; [exact eq_refl|]. split; apply list_elem_of_here.
Qed.
End Spelled.

Lemma sidecar_survives_witness :
  let St := Spelled.storage in
  write_sidecar true 0 ∅ Spelled.map = (Ok Spelled.reference, Spelled.after) ∧
  dir_step [Some Spelled.reference] Spelled.after (snd Spelled.pruned) ∧
  stored_signatures None true 10000001 (snd Spelled.pruned) [] (Some Spelled.reference) =
    (Present Spelled.map, snd Spelled.pruned).
Proof.
  intros St. split; [exact Spelled.write_map|]. split; [exact Spelled.pruned_keeps|].
  apply (sidecar_survives Spelled.map 0 ∅ Spelled.after _ Spelled.reference
           [Some Spelled.reference]).
  - exact Spelled.digest_inj.
  - exact Spelled.map_canonical.
  - exact Spelled.write_map.
  - apply list_elem_of_here.
  - exact (rtc_once _ _ Spelled.pruned_keeps).
Defined.

(** A copy found through a base is put in the table's own directory before it
    is checked against its digest: a damaged copy stays there and hides the base's. *)
Lemma damaged_copy_kept `{St : Storage} now bases digest bytes own :
  read_sidecar_through_bases bases digest = Ok bytes → digest_of bytes ≠ digest →
  own !! sidecar_name digest = None →
  ∃ o, (read_sidecar None true now own bases digest).2 !! sidecar_name digest = Some o ∧
    ∀ bases', is_ok (read_sidecar None true now
      (read_sidecar None true now own bases digest).2 bases' digest).1 = false.
Proof.
  intros Hb Hd Ho. unfold read_sidecar. rewrite Ho, Hb. cbn [snd fst].
  exists (mkObject bytes now). rewrite lookup_insert_eq. split; [done|]. intros bases'.
  cbn [fst Sidecar.bytes]. destruct (String.eqb_spec (digest_of bytes) digest); done.
Qed.

End Sidecar.
