(* ===== verification/Freshness.v ===== *)
(** * Source-change detection for computed columns (table/freshness.rs)

    What identifies the input data of a fragment, which fragments a refresh
    must recompute, how freshness is followed through compactions, and how a
    refresh records the input state its values were computed from.  The
    manifests, the transaction log, row counts and scans are lance's: they are
    the classes [Formats] and [Log].  [Truth] says what rows the manifests stand
    for, and is what the theorem on staleness is about. *)

From Stdlib Require Import Ascii String.
From stdpp Require Import strings pretty.
From S2P Require Import Prelude RustStr RustText Sidecar.

Module Freshness.
Import Sidecar.
Local Open Scope string_scope.
Local Open Scope Z_scope.

(** ** Schemas and fragments *)
Inductive Field : Type :=
  mkField (field_id : Z) (field_name : string) (metadata : gmap string string)
    (children : list Field).
Definition field_id (f : Field) : Z := let 'mkField id _ _ _ := f in id.
Definition field_name (f : Field) : string := let 'mkField _ name _ _ := f in name.
Definition field_metadata (f : Field) : gmap string string := let 'mkField _ _ m _ := f in m.
Definition field_children (f : Field) : list Field := let 'mkField _ _ _ cs := f in cs.

Record DataFile : Type := mkFile {
  file_fields : list Z;
  column_indices : list Z;
  file_path : string;
  file_base : option Z
}.

(** [coverage] is what the overlay answers for the field at a position. *)
Record Overlay : Type := mkOverlay {
  data_file : DataFile;
  coverage : nat → result (list Z);
  committed_version : Z
}.
Record Fragment : Type := mkFragment {
  frag_id : Z;
  frag_files : list DataFile;
  frag_overlays : list Overlay
}.

(** A base path of the manifest, with the URI it names. *)
Record Base : Type := mkBaseUri { base : BasePath; base_uri : string }.

(** One version of a table. *)
Record Dataset : Type := mkDataset {
  uri : string;
  base_paths : list Base;
  fragments : list Fragment;
  schema : list Field;
  version : Z
}.

(** Where one field's values come from in a fragment. *)
Record InputBasis : Type := mkBasis {
  basis_files : list (string * string * Z);
  basis_overlays : list (string * string * Z * list Z * Z)
}.

(** [BTreeMap<Vec<String>, Vec<i32>>], in the order of its keys. *)
Abbreviation InputFields := (list (list string * list Z)).

Class Formats : Type := {
  parse_field_path : string → result (list string);
  schema_field : list Field → string → option Field;
  url_before_query : string → result string;
  sha256 : string → list Z;
  debug_basis : InputBasis → string
}.

Definition as_u32 (z : Z) : Z := z mod U32.

Fixpoint path_compare (a b : list string) : comparison :=
  match a, b with
  | [], [] => Eq
  | [], _ :: _ => Lt
  | _ :: _, [] => Gt
  | x :: a, y :: b =>
      match String.compare x y with
      | Eq => path_compare a b
      | c => c
      end
  end.
Fixpoint path_insert (path : list string) (ids : list Z) (m : InputFields) : InputFields :=
  match m with
  | [] => [(path, ids)]
  | (p, i) :: m' =>
      match path_compare path p with
      | Lt => (path, ids) :: m
      | Eq => (path, ids) :: m'
      | Gt => (p, i) :: path_insert path ids m'
      end
  end.

Section formats.
Context {Fm : Formats}.

(** The first eight bytes of the digest, in hex *)
Definition hex2 (b : Z) : string := hex_digits 2 b.
Definition short_hash (value : string) : string :=
  foldr (λ b s, hex2 b +:+ s) "" (take 8 (sha256 value)).
Definition definition_version (definition : string) : string := short_hash definition.

(** ** The fields the inputs cover *)
Fixpoint collect (field : Field) (path : list string) (ancestors : list Z) (out : InputFields)
    : InputFields :=
  match field with
  | mkField id _ _ children =>
      let ids := id :: ancestors in
      let out :=
        (fix go (children : list Field) (out : InputFields) : InputFields :=
           match children with
           | [] => out
           | child :: children =>
               go children (collect child (path ++ [field_name child])%list ids out)
           end) children out in
      path_insert path ids out
  end.

Fixpoint descend (field_path : string) (field : Field) (rest : list string) (ancestors : list Z)
    : result (Field * list Z) :=
  match rest with
  | [] => Ok (field, ancestors)
  | name :: rest =>
      child ← ok_or (InvalidInput ("unknown computed column input '" +:+ field_path +:+ "'"))
                (List.find (λ child, String.eqb (field_name child) name) (field_children field));
      descend field_path child rest (field_id field :: ancestors)
  end.

Definition collect_path (schema : list Field) (field_path : string) (out : InputFields)
    : result InputFields :=
  parts ← parse_field_path field_path;
  match parts with
  | [] => invalid "computed column input path is empty"
  | root :: rest =>
      field ← ok_or (InvalidInput ("unknown computed column input '" +:+ field_path +:+ "'"))
                (schema_field schema root);
      found ← descend field_path field rest [];
      Ok (collect found.1 parts found.2 out)
  end.

Fixpoint collect_paths (schema : list Field) (paths : list string) (out : InputFields)
    : result InputFields :=
  match paths with
  | [] => Ok out
  | field_path :: paths =>
      out ← collect_path schema field_path out;
      collect_paths schema paths out
  end.
Definition fields_for_paths (schema : list Field) (paths : list string) : result InputFields :=
  collect_paths schema paths [].

(** ** Where storage bases are *)
Record Bases : Type := mkBases { own : string; registered : gmap Z string }.

Definition location (uri : string) (is_root : bool) : result string :=
  url ← url_before_query uri;
  let location := trim_end_matches "/"%char url in
  Ok (if is_root then location +:+ "/data" else location).

Definition registered_entry (b : Base) : result (Z * string) :=
  at_base ← location (base_uri b) (is_dataset_root (base b));
  Ok (base_id (base b), at_base).
Definition bases_of (d : Dataset) : result Bases :=
  entries ← try_map registered_entry (base_paths d);
  own ← location (uri d) true;
  Ok (mkBases own (list_to_map (reverse entries))).

Definition base_location (bases : Bases) (id : option Z) : result string :=
  match id with
  | None => Ok (own bases)
  | Some id =>
      ok_or (InvalidInput ("base path id " +:+ pretty id +:+ " not found")) (registered bases !! id)
  end.

(** ** Signatures *)

(** The position of the first field of the file that is one of [ids], and its physical column. *)
Definition column_of (ids : list Z) (file : DataFile) : option (nat * Z) :=
  '(pos, _) ← list_find (λ id, id ∈ ids) (file_fields file);
  Some (pos, default (-1) (column_indices file !! pos)).

Fixpoint basis_of_files (bases : Bases) (ids : list Z) (files : list DataFile)
    : result (list (string * string * Z)) :=
  match files with
  | [] => Ok []
  | file :: files =>
      match column_of ids file with
      | None => basis_of_files bases ids files
      | Some (_, column) =>
          at_base ← base_location bases (file_base file);
          rest ← basis_of_files bases ids files;
          Ok ((at_base, file_path file, column) :: rest)
      end
  end.

Fixpoint basis_of_overlays (bases : Bases) (ids : list Z) (overlays : list Overlay)
    : result (list (string * string * Z * list Z * Z)) :=
  match overlays with
  | [] => Ok []
  | overlay :: overlays =>
      match column_of ids (data_file overlay) with
      | None => basis_of_overlays bases ids overlays
      | Some (pos, column) =>
          at_base ← base_location bases (file_base (data_file overlay));
          cells ← coverage overlay pos;
          rest ← basis_of_overlays bases ids overlays;
          Ok ((at_base, file_path (data_file overlay), column, cells, committed_version overlay) :: rest)
      end
  end.

Definition input_basis (bases : Bases) (metadata : Fragment) (ids : list Z) : result InputBasis :=
  files ← basis_of_files bases ids (frag_files metadata);
  overlays ← basis_of_overlays bases ids (frag_overlays metadata);
  Ok (mkBasis files overlays).

Definition signature_part (bases : Bases) (fragment : Fragment) (input : list string * list Z)
    : result string :=
  basis ← input_basis bases fragment input.2;
  Ok (join "."%char input.1 +:+ "=" +:+ debug_basis basis).
Definition fragment_input_signature (bases : Bases) (fragment : Fragment) (inputs : InputFields)
    : result string :=
  parts ← try_map (signature_part bases fragment) inputs;
  Ok (short_hash (join "|"%char parts)).

Definition get_fragment (d : Dataset) (id : Z) : option Fragment :=
  List.find (λ f, frag_id f =? id) (fragments d).

Definition signature_of (d : Dataset) (fragment_id : Z) (inputs : InputFields)
    : result (option string) :=
  bases ← bases_of d;
  match get_fragment d fragment_id with
  | None => Ok None
  | Some fragment => Some <$> fragment_input_signature bases fragment inputs
  end.

Definition signature_entry (bases : Bases) (inputs : InputFields) (fragment : Fragment)
    : result (Z * string) :=
  signature ← fragment_input_signature bases fragment inputs;
  Ok (as_u32 (frag_id fragment), signature).
Definition signatures_for (d : Dataset) (fragment_ids : list Z) (inputs : InputFields)
    : result SignatureMap :=
  bases ← bases_of d;
  entries ← try_map (signature_entry bases inputs)
              (filter (λ fragment, as_u32 (frag_id fragment) ∈ fragment_ids) (fragments d));
  Ok (list_to_map (reverse entries)).

Definition field_meta (d : Dataset) (column key : string) : option String.string :=
  field ← schema_field (schema d) column;
  field_metadata field !! key.

(** ** The log since the stamp *)
Record RewriteGroup : Type := mkGroup {
  old_fragments : list Fragment;
  new_fragments : list Fragment
}.
Inductive Operation : Type :=
  | Append
  | Rewrite (groups : list RewriteGroup)
  | OtherOperation.
Inductive TransactionRead : Type :=
  | Transaction (operation : Operation)
  | NoTransaction
  | DatasetNotFound
  | ReadFailed (e : Error).

Inductive Step : Type :=
  | StepAppend
  | StepCompaction (groups : list (list Z * list Z)).

Definition file_identity (bases : Bases) (file : DataFile) : result (string * string) :=
  at_base ← base_location bases (file_base file);
  Ok (at_base, file_path file).

(** The fragment of a data file: the last one that has it *)
Fixpoint index_files (bases : Bases) (id : Z) (files : list DataFile)
    (by_file : gmap (string * string) Z) : result (gmap (string * string) Z) :=
  match files with
  | [] => Ok by_file
  | file :: files =>
      key ← file_identity bases file;
      index_files bases id files (<[key := id]> by_file)
  end.
Fixpoint index_fragments (bases : Bases) (fragments : list Fragment)
    (by_file : gmap (string * string) Z) : result (gmap (string * string) Z) :=
  match fragments with
  | [] => Ok by_file
  | fragment :: fragments =>
      by_file ← index_files bases (as_u32 (frag_id fragment)) (frag_files fragment) by_file;
      index_fragments bases fragments by_file
  end.

Fixpoint find_produced (bases : Bases) (by_file : gmap (string * string) Z) (files : list DataFile)
    : result (option Z) :=
  match files with
  | [] => Ok None
  | file :: files =>
      key ← file_identity bases file;
      match by_file !! key with
      | Some id => Ok (Some id)
      | None => find_produced bases by_file files
      end
  end.
Definition produced_id (bases : Bases) (by_file : gmap (string * string) Z) (version : Z)
    (fragment : Fragment) : result Z :=
  found ← find_produced bases by_file (frag_files fragment);
  ok_or (InvalidInput ("a fragment added in version " +:+ pretty version +:+
           " is not in that version's manifest")) found.
Definition compaction_of (bases : Bases) (by_file : gmap (string * string) Z) (version : Z)
    (group : RewriteGroup) : result (list Z * list Z) :=
  produced ← try_map (produced_id bases by_file version) (new_fragments group);
  Ok (map (λ f, as_u32 (frag_id f)) (old_fragments group), produced).

(** [scan]: the batches of a scan of one fragment for row addresses; a batch
    without a column of them is [None]. *)
Class Log : Type := {
  checkout_version : Z → result Dataset;
  read_transaction_by_version : Z → TransactionRead;
  count_rows : Dataset → Fragment → result Z;
  scan : Dataset → Fragment → string → string → result (list (result (option (list (option Z)))));
  update_field_metadata : Dataset → string → list (string * string) → result Dataset
}.

(** [quote_identifier] of table/refresh.rs *)
Definition quote_identifier (name : string) : string := "`" +:+ double_char "`"%char name +:+ "`".

Section log.
Context {L : Log} {St : Storage}.

Definition step_at (version : Z) : result (option Step) :=
  match read_transaction_by_version version with
  | NoTransaction | DatasetNotFound => Ok None
  | ReadFailed e => Err e
  | Transaction Append => Ok (Some StepAppend)
  | Transaction OtherOperation => Ok None
  | Transaction (Rewrite groups) =>
      at_version ← checkout_version version;
      bases ← bases_of at_version;
      by_file ← index_fragments bases (fragments at_version) ∅;
      compactions ← try_map (compaction_of bases by_file version) groups;
      Ok (Some (StepCompaction compactions))
  end.

(** [appends] is newest first. *)
Fixpoint appended_untouched (appends : list Z) (fragment_id : Z) (current : string)
    (inputs : InputFields) : result bool :=
  match appends with
  | [] => Ok false
  | version :: appends =>
      at_version ← checkout_version version;
      born ← signature_of at_version fragment_id inputs;
      match born with
      | None => appended_untouched appends fragment_id current inputs
      | Some born =>
          before ← checkout_version (version - 1);
          earlier ← signature_of before fragment_id inputs;
          match earlier with
          | Some _ => appended_untouched appends fragment_id current inputs
          | None => Ok (String.eqb born current)
          end
      end
  end.

Definition in_range (offset : Z) (range : Z * Z) : bool :=
  (range.1 <=? offset) && (offset <? range.2).
Definition batch_holds (ranges : list (Z * Z)) (addresses : list (option Z)) : bool :=
  existsb (λ address : option Z,
    match address with
    | Some address => existsb (in_range (Z.land address 0xFFFFFFFF)) ranges
    | None => false
    end) addresses.
Fixpoint batches_hold (ranges : list (Z * Z)) (batches : list (result (option (list (option Z)))))
    : result bool :=
  match batches with
  | [] => Ok false
  | batch :: batches =>
      batch ← batch;
      addresses ← ok_or (InvalidInput "row addresses missing from a freshness scan") batch;
      if batch_holds ranges addresses then Ok true else batches_hold ranges batches
  end.
Definition holds_values_in (d : Dataset) (fragment_id : Z) (column : string)
    (ranges : list (Z * Z)) : result bool :=
  match get_fragment d fragment_id with
  | None => Ok false
  | Some fragment =>
      batches ← scan d fragment column (quote_identifier column +:+ " IS NOT NULL");
      batches_hold ranges batches
  end.

(** ** Following compactions *)
Definition rows_of (d : Dataset) (id : Z) : result Z :=
  match get_fragment d id with
  | Some fragment => count_rows d fragment
  | None => Ok 0
  end.

(** Each source's signature and live rows just before the compaction *)
Definition source_of (before : Dataset) (inputs : InputFields) (id : Z)
    : result (Z * option string * Z) :=
  live ← rows_of before id;
  signature ← signature_of before id inputs;
  Ok (id, signature, live).

Definition recorded_as (fresh : SignatureMap) (id : Z) (current : option string) : bool :=
  match fresh !! id, current with
  | Some recorded, Some current => String.eqb recorded current
  | _, _ => false
  end.
Definition untouched (appends : list Z) (id : Z) (current : option string) (inputs : InputFields)
    : result bool :=
  match current with
  | None => Ok false
  | Some current => appended_untouched appends id current inputs
  end.

(** The ranges of the rows that appends contributed, or [None] when a source is not fresh. *)
Fixpoint follow_sources (fresh : SignatureMap) (appends : list Z) (inputs : InputFields)
    (sources : list (Z * option string * Z)) (offset : Z) (appended : list (Z * Z))
    : result (option (list (Z * Z))) :=
  match sources with
  | [] => Ok (Some appended)
  | (id, current, live) :: sources =>
      if recorded_as fresh id current
      then follow_sources fresh appends inputs sources (offset + live) appended
      else
        is_append ← untouched appends id current inputs;
        if (is_append : bool)
        then follow_sources fresh appends inputs sources (offset + live)
               (appended ++ [(offset, offset + live)])
        else Ok None
  end.

Definition local_ranges (appended : list (Z * Z)) (base rows : Z) : list (Z * Z) :=
  map (λ range : Z * Z, (Z.max range.1 base - base, Z.min range.2 (base + rows) - base))
    (filter (λ range : Z * Z, range.1 < base + rows ∧ range.2 > base) appended).

Definition no_ranges (local : list (Z * Z)) : bool :=
  match local with [] => true | _ => false end.

Fixpoint unfilled (after : Dataset) (column : string) (appended : list (Z * Z))
    (produced : list Z) (base : Z) : result bool :=
  match produced with
  | [] => Ok true
  | id :: produced =>
      rows ← rows_of after id;
      let local := local_ranges appended base rows in
      filled ← (if no_ranges local then Ok false else holds_values_in after id column local);
      if (filled : bool) then Ok false
      else unfilled after column appended produced (base + rows)
  end.

(** The maps [fresh] and [inherited] after the products are recorded *)
Fixpoint record_products (after : Dataset) (inputs : InputFields) (produced : list Z)
    (maps : SignatureMap * SignatureMap) : result (SignatureMap * SignatureMap) :=
  match produced with
  | [] => Ok maps
  | id :: produced =>
      signature ← signature_of after id inputs;
      record_products after inputs produced
        (match signature with
         | Some signature => (<[id := signature]> maps.1, <[id := signature]> maps.2)
         | None => maps
         end)
  end.

Definition is_nil {A} (l : list A) : bool := match l with [] => true | _ => false end.

Definition follow_compaction (version : Z) (column : string) (inputs : InputFields)
    (appends : list Z) (group : list Z * list Z) (maps : SignatureMap * SignatureMap)
    : result (SignatureMap * SignatureMap) :=
  let '(consumed, produced) := group in
  before ← checkout_version (version - 1);
  sources ← try_map (source_of before inputs) consumed;
  appended ← (if is_nil consumed then Ok None
              else follow_sources maps.1 appends inputs sources 0 []);
  match appended with
  | None => Ok maps
  | Some appended =>
      after ← checkout_version version;
      clear ← unfilled after column appended produced 0;
      if (clear : bool) then record_products after inputs produced maps else Ok maps
  end.

Fixpoint follow_compactions (version : Z) (column : string) (inputs : InputFields)
    (appends : list Z) (groups : list (list Z * list Z)) (maps : SignatureMap * SignatureMap)
    : result (SignatureMap * SignatureMap) :=
  match groups with
  | [] => Ok maps
  | group :: groups =>
      maps ← follow_compaction version column inputs appends group maps;
      follow_compactions version column inputs appends groups maps
  end.

Fixpoint follow_versions (column : string) (inputs : InputFields) (versions : list Z)
    (appends : list Z) (maps : SignatureMap * SignatureMap) : result SignatureMap :=
  match versions with
  | [] => Ok maps.2
  | version :: versions =>
      step ← step_at version;
      match step with
      | None => follow_versions column inputs versions appends maps
      | Some StepAppend => follow_versions column inputs versions (version :: appends) maps
      | Some (StepCompaction groups) =>
          maps ← follow_compactions version column inputs appends groups maps;
          follow_versions column inputs versions appends maps
      end
  end.

Definition MAX_CARRY_FORWARD_VERSIONS : Z := 1024.
Definition SOURCE_SIGNATURE_META_KEY : string := "computed_refresh.source_signature".
Definition DEFINITION_VERSION_META_KEY : string := "computed_refresh.definition_version".
Definition RECORDED_AT_VERSION_META_KEY : string := "computed_refresh.recorded_at_version".

Definition recorded_at (d : Dataset) (column : string) : option Z :=
  meta ← field_meta d column RECORDED_AT_VERSION_META_KEY; parse_u64 meta.

Definition carried_forward (d : Dataset) (column : string) (stored : SignatureMap)
    (inputs : InputFields) : result SignatureMap :=
  match recorded_at d column with
  | None => Ok ∅
  | Some at_version =>
      let to := version d in
      if (to <=? at_version) || (MAX_CARRY_FORWARD_VERSIONS <? to - at_version) then Ok ∅
      else follow_versions column inputs (seqZ (at_version + 1) (to - at_version)) [] (stored, ∅)
  end.

(** ** What is stale *)
Record StalenessPlan : Type := mkPlan {
  recompute_all : bool;
  dirty : gset Z;
  inherited : SignatureMap
}.
Definition default_plan : StalenessPlan := mkPlan false ∅ ∅.
Definition everything : StalenessPlan := mkPlan true ∅ ∅.
Definition is_dirty (plan : StalenessPlan) (fragment_id : Z) : bool :=
  recompute_all plan || bool_decide (fragment_id ∈ dirty plan).

(** The directory's answers to one read: see [Sidecar.stored_signatures]. *)
Record Io : Type := mkIo { own_error : option Error; copy_puts : bool; now : Z }.
Definition stored_on (io : Io) (d : Dataset) (column : string) (dir : Directory)
    : StoredSignatures * Directory :=
  stored_signatures (own_error io) (copy_puts io) (now io) dir (map base (base_paths d))
    (field_meta d column SOURCE_SIGNATURE_META_KEY).

Definition live_ids (d : Dataset) : gset Z :=
  list_to_set (map (λ f, as_u32 (frag_id f)) (fragments d)).

(** The fragments whose signature is not the one recorded or carried forward. *)
Fixpoint dirty_of (bases : Bases) (inputs : InputFields) (stored inherited : SignatureMap)
    (fragments : list Fragment) (dirty : gset Z) : result (gset Z) :=
  match fragments with
  | [] => Ok dirty
  | fragment :: fragments =>
      let id := as_u32 (frag_id fragment) in
      current ← fragment_input_signature bases fragment inputs;
      dirty_of bases inputs stored inherited fragments
        (if bool_decide ((stored ∪ inherited) !! id = Some current) then dirty else {[ id ]} ∪ dirty)
  end.

Definition plan_against (d : Dataset) (column : string) (inputs : InputFields)
    (stored : SignatureMap) : result StalenessPlan :=
  let unrecorded :=
    existsb (λ f, bool_decide (stored !! as_u32 (frag_id f) = None)) (fragments d) in
  inherited ← (if unrecorded then carried_forward d column stored inputs else Ok ∅);
  bases ← bases_of d;
  dirty ← dirty_of bases inputs stored inherited (fragments d) ∅;
  Ok (mkPlan false dirty (filter (λ e, e.1 ∈ live_ids d ∧ e.1 ∉ dirty) inherited)).

Definition staleness_against (io : Io) (d : Dataset) (column : string)
    (definition : string) (inputs : InputFields) (dir : Directory)
    : result StalenessPlan * Directory :=
  let '(stored, dir) := stored_on io d column dir in
  (match stored with
   | Absent => Ok default_plan
   | Unreadable => Ok everything
   | Present stored =>
       match field_meta d column DEFINITION_VERSION_META_KEY with
       | Some version =>
           if String.eqb version definition then plan_against d column inputs stored
           else Ok everything
       | None => plan_against d column inputs stored
       end
   end, dir).

(** ** Recording what a refresh computed *)
Definition write_signatures (io : Io) (puts : bool) (d : Dataset) (column : string)
    (definition : string) (entries : SignatureMap) (dir : Directory)
    : result Dataset * Directory :=
  let '(stored, dir) := stored_on io d column dir in
  let merged := match stored with Present stored => entries ∪ stored | _ => entries end in
  let merged := filter (λ e, e.1 ∈ live_ids d) merged in
  let '(encoded, dir) :=
    if bool_decide (merged = ∅) then (Ok "{}", dir)
    else write_sidecar puts (now io) dir merged in
  (encoded ← encoded;
   update_field_metadata d column
     [(SOURCE_SIGNATURE_META_KEY, encoded);
      (DEFINITION_VERSION_META_KEY, definition);
      (RECORDED_AT_VERSION_META_KEY, pretty (version d))], dir).

Record FreshnessRecord : Type := mkRecord {
  stamped : option Z;
  recorded : nat;
  moved : nat
}.

Definition entries_of (pinned : option (Dataset * StalenessPlan)) (absent : bool)
    (inputs : InputFields) : result SignatureMap :=
  match pinned with
  | None => Ok ∅
  | Some (pinned, staleness) =>
      if absent
      then signatures_for pinned (map (λ f, as_u32 (frag_id f)) (fragments pinned)) inputs
      else Ok (inherited staleness)
  end.

Definition is_absent (stored : StoredSignatures) : bool :=
  match stored with Absent => true | _ => false end.

Definition record_freshness (io io' : Io) (puts : bool) (latest : Dataset)
    (pinned : option (Dataset * StalenessPlan)) (column : string) (definition : string)
    (inputs : InputFields) (computed : SignatureMap) (dir : Directory)
    : result (FreshnessRecord * Dataset) * Directory :=
  let '(stored, dir) := stored_on io latest column dir in
  let absent := is_absent stored in
  match entries_of pinned absent inputs with
  | Err e => (Err e, dir)
  | Panic => (Panic, dir)
  | Ok entries =>
      let entries := computed ∪ entries in
      if bool_decide (entries = ∅) && negb absent
      then (Ok (mkRecord None 0 0, latest), dir)
      else
        match signatures_for latest (map fst (map_to_list entries)) inputs with
        | Err e => (Err e, dir)
        | Panic => (Panic, dir)
        | Ok current =>
            let verified := filter (λ e, current !! e.1 = Some e.2) entries in
            let '(written, dir) :=
              write_signatures io' puts latest column definition verified dir in
            (d ← written;
             Ok (mkRecord (Some (version d)) (size verified) (size entries - size verified), d), dir)
        end
  end.

(** ** The rows that manifests stand for

    A row of a fragment: its offset in the fragment's files, its inputs and what
    the computed column holds. *)
Record Row (A B : Type) : Type := mkRow { offset : Z; input : A; value : option B }.
#[global] Arguments mkRow {_ _} _ _ _.
#[global] Arguments offset {_ _} _.
#[global] Arguments input {_ _} _.
#[global] Arguments value {_ _} _.

(** [live_rows v id]: the rows of fragment [id] that are not deleted in
    version [v], in order; [compute]: the column's expression. *)
Class Truth (A B : Type) : Type := {
  live_rows : Z → Z → option (list (Row A B));
  compute : A → option B
}.

Section truth.
Context {A B : Type} {T : Truth A B} (column : string) (inputs : InputFields).

Definition rows_at (v id : Z) : list (Row A B) := default [] (live_rows v id).

(** A null is computed by every refresh. *)
Definition fresh_row (r : Row A B) : Prop := value r = None ∨ value r = compute (input r).
Definition content (r : Row A B) : A * option B := (input r, value r).

(** The fragment [id] of [d] shares a data file with [new]. *)
Definition names_fragment (d : Dataset) (new : Fragment) (id : Z) : Prop :=
  ∃ bases f file file' key, bases_of d = Ok bases ∧ f ∈ fragments d ∧ as_u32 (frag_id f) = id ∧
    file ∈ frag_files new ∧ file' ∈ frag_files f ∧
    file_identity bases file = Ok key ∧ file_identity bases file' = Ok key.

Definition batch_has (offset : Z) (batch : result (option (list (option Z)))) : Prop :=
  match batch with
  | Ok (Some addresses) => ∃ a, Some a ∈ addresses ∧ Z.land a 0xFFFFFFFF = offset
  | _ => True
  end.

(** ** Where the values of the inputs are

    The files, and the overlays with their commits, that hold one of the
    fields, wherever the storage bases put them. *)
Definition held_at (bases : Bases) (ids : list Z) (file : DataFile)
    : option (result string * string * Z) :=
  match list_find (λ id, id ∈ ids) (file_fields file) with
  | Some (i, _) =>
      Some (base_location bases (file_base file), file_path file, nth i (column_indices file) (-1))
  | None => None
  end.
Definition overlay_at (bases : Bases) (ids : list Z) (o : Overlay)
    : option (result string * string * Z * Z) :=
  (λ place, (place, committed_version o)) <$> held_at bases ids (data_file o).
Definition same_sources (bases bases' : Bases) (f f' : Fragment) (ids : list Z) : Prop :=
  omap (held_at bases ids) (frag_files f) = omap (held_at bases' ids) (frag_files f') ∧
  omap (overlay_at bases ids) (frag_overlays f) = omap (overlay_at bases' ids) (frag_overlays f').

(** The text that a signature is the hash of. *)
Definition signature_text (d : Dataset) (id : Z) : result (option string) :=
  bases ← bases_of d;
  match get_fragment d id with
  | None => Ok None
  | Some f => parts ← try_map (signature_part bases f) inputs; Ok (Some (join "|"%char parts))
  end.
Definition overlay_source (o : string * string * Z * list Z * Z) : string * string * Z * Z :=
  let '(at_base, path, column, _, committed) := o in (at_base, path, column, committed).

(** What lance promises of versions, files, compactions and scans, and what
    every writer of the column keeps to.  [inputs_immutable]: a data file is
    written once and an overlay covers the cells it was committed with, so a
    row whose inputs are held in the same places keeps them; and its value is
    kept, cleared or computed.  [debug_delimited]: the [Debug] form of a basis
    says where it ends and what is in it, the cells of an overlay excepted,
    which a large bitmap abridges.  [no_collision]: the table's own history
    has no two states of one fragment whose truncated hashes collide. *)
Class TruthLaws : Prop := {
  ids_are_u32 : ∀ v d, checkout_version v = Ok d →
    NoDup (map frag_id (fragments d)) ∧ ∀ f, f ∈ fragments d → 0 ≤ frag_id f < U32;
  rows_exist : ∀ v d id, checkout_version v = Ok d →
    is_Some (live_rows v id) ↔ is_Some (get_fragment d id);
  rows_counted : ∀ v d id f n, checkout_version v = Ok d → get_fragment d id = Some f →
    count_rows d f = Ok n → n = Z.of_nat (length (rows_at v id));
  inputs_immutable : ∀ v v' d d' id bases bases' f f' r, v ≤ v' →
    checkout_version v = Ok d → checkout_version v' = Ok d' →
    bases_of d = Ok bases → bases_of d' = Ok bases' →
    get_fragment d id = Some f → get_fragment d' id = Some f' →
    (∀ input, input ∈ inputs → same_sources bases bases' f f' input.2) → r ∈ rows_at v' id →
    ∃ r0, r0 ∈ rows_at v id ∧ input r = input r0 ∧
      (value r = value r0 ∨ value r = None ∨ value r = compute (input r0));
  debug_delimited : ∀ b b' s s', debug_basis b +:+ s = debug_basis b' +:+ s' →
    debug_basis b = debug_basis b' ∧ basis_files b = basis_files b' ∧
    map overlay_source (basis_overlays b) = map overlay_source (basis_overlays b');
  no_collision : ∀ v v' d d' id t t', checkout_version v = Ok d → checkout_version v' = Ok d' →
    signature_text d id = Ok (Some t) → signature_text d' id = Ok (Some t') →
    short_hash t = short_hash t' → t = t';
  compaction_copies : ∀ v d groups g ids,
    read_transaction_by_version v = Transaction (Rewrite groups) → checkout_version v = Ok d →
    g ∈ groups → Forall2 (names_fragment d) (new_fragments g) ids →
    map content (ids ≫= rows_at v) =
      map content (map (λ f, as_u32 (frag_id f)) (old_fragments g) ≫= rows_at (v - 1)) ∧
    ∀ id, id ∈ ids → live_rows (v - 1) id = None ∧
      map offset (rows_at v id) = seqZ 0 (Z.of_nat (length (rows_at v id)));
  scan_finds : ∀ v d id f batches r, checkout_version v = Ok d → get_fragment d id = Some f →
    scan d f column (quote_identifier column +:+ " IS NOT NULL") = Ok batches →
    r ∈ rows_at v id → value r ≠ None → Exists (batch_has (offset r)) batches
}.

(** The entry names a state in which every row of its fragment was fresh. *)
Definition grounded_entry (until id : Z) (s : string) : Prop :=
  ∃ v d, v ≤ until ∧ checkout_version v = Ok d ∧
    signature_of d id inputs = Ok (Some s) ∧ Forall fresh_row (rows_at v id).
Definition grounded (until : Z) (m : SignatureMap) : Prop :=
  ∀ id s, m !! id = Some s → grounded_entry until id s.
(** The same of the fragments that were there in version [until]. *)
Definition grounded_live (until : Z) (m : SignatureMap) : Prop :=
  ∀ id s, m !! id = Some s → is_Some (live_rows until id) → grounded_entry until id s.

(** * Lemmas *)
Context {Laws : TruthLaws}.

Lemma fresh_content r r' : content r = content r' → fresh_row r' → fresh_row r.
Proof. unfold fresh_row, content. by intros [= -> ->]. Qed.

Lemma grounded_weaken u u' m : u ≤ u' → grounded u m → grounded u' m.
Proof. intros Hu Hg id s Hs. destruct (Hg id s Hs) as (v & d & ? & ?). exists v, d. split; [lia|done]. Qed.
Lemma grounded_grounded_live u m : grounded u m → grounded_live u m.
Proof. intros Hg id s Hs _. by apply Hg. Qed.

(** ** Equal signatures mean equal sources *)
Lemma files_sources bases ids files l : basis_of_files bases ids files = Ok l →
  omap (held_at bases ids) files = map (λ e : string * string * Z, (Ok e.1.1, e.1.2, e.2)) l.
Proof.
  revert l; induction files as [|file files IH]; intros l; cbn [basis_of_files]; [by intros [= <-]|].
  unfold column_of. cbn [omap list_omap]. unfold held_at at 1.
  destruct (list_find _ (file_fields file)) as [[i id]|]; cbn [mbind option_bind]; [|apply IH].
  intros (at_base & Hb & Hr)%bind_Ok. apply bind_Ok in Hr as (rest & Hr & [= <-]).
  rewrite Hb. cbn [map fst snd]. by rewrite (IH rest Hr), nth_lookup.
Qed.
Lemma overlays_sources bases ids overlays l : basis_of_overlays bases ids overlays = Ok l →
  omap (overlay_at bases ids) overlays =
    map (λ e : string * string * Z * Z, (Ok e.1.1.1, e.1.1.2, e.1.2, e.2)) (map overlay_source l).
Proof.
  revert l; induction overlays as [|o overlays IH]; intros l; cbn [basis_of_overlays]; [by intros [= <-]|].
  unfold column_of. cbn [omap list_omap]. unfold overlay_at at 1, held_at.
  destruct (list_find _ (file_fields (data_file o))) as [[i id]|]; cbn [mbind option_bind]; [|apply IH].
  intros (at_base & Hb & Hr)%bind_Ok. apply bind_Ok in Hr as (cells & _ & Hr).
  apply bind_Ok in Hr as (rest & Hr & [= <-]).
  rewrite Hb. cbn [map fst snd fmap option_fmap option_map overlay_source]. by rewrite (IH rest Hr), nth_lookup.
Qed.
Lemma basis_sources bases bases' f f' ids b b' :
  input_basis bases f ids = Ok b → input_basis bases' f' ids = Ok b' →
  basis_files b = basis_files b' →
  map overlay_source (basis_overlays b) = map overlay_source (basis_overlays b') →
  same_sources bases bases' f f' ids.
Proof.
  unfold input_basis. intros (fs & Hfs & Hr)%bind_Ok. apply bind_Ok in Hr as (os & Hos & [= <-]).
  intros (fs' & Hfs' & Hr)%bind_Ok. apply bind_Ok in Hr as (os' & Hos' & [= <-]).
  cbn [basis_files basis_overlays]. intros Hf Ho. split.
  - by rewrite (files_sources _ _ _ _ Hfs), (files_sources _ _ _ _ Hfs'), Hf.
  - by rewrite (overlays_sources _ _ _ _ Hos), (overlays_sources _ _ _ _ Hos'), Ho.
Qed.

(** The text names every input and its basis. *)
Lemma text_sources bases bases' f f' (l : InputFields) parts parts' :
  try_map (signature_part bases f) l = Ok parts → try_map (signature_part bases' f') l = Ok parts' →
  join "|"%char parts = join "|"%char parts' →
  ∀ input, input ∈ l → same_sources bases bases' f f' input.2.
Proof.
  revert parts parts'; induction l as [|i l IH]; intros parts parts'; [by intros _ _ _ ? ?%not_elem_of_nil|].
  cbn [try_map]. intros (p & Hp & Hr)%bind_Ok. apply bind_Ok in Hr as (ps & Hps & [= <-]).
  intros (p' & Hp' & Hr)%bind_Ok. apply bind_Ok in Hr as (ps' & Hps' & [= <-]).
  unfold signature_part in Hp, Hp'. apply bind_Ok in Hp as (b & Hb & [= <-]).
  apply bind_Ok in Hp' as (b' & Hb' & [= <-]). intros Ht.
  set (name := join "."%char i.1 +:+ "=") in *.
  assert (∀ x ys, join "|"%char (x :: ys) = x +:+ match ys with [] => "" | _ => String "|" (join "|"%char ys) end)
    as Hjoin by (intros x [|y ys]; cbn [join]; [by rewrite str_app_nil_r|done]).
  rewrite !Hjoin, <-!str_app_assoc in Ht.
  apply (inj (String.append _)) in Ht. injection Ht as Ht. pose proof Ht as Ht'.
  apply debug_delimited in Ht' as (Hdb & Hfiles & Hover). rewrite Hdb in Ht.
  apply (inj (String.append _)) in Ht. intros input [->|Hin]%elem_of_cons.
  { by apply (basis_sources _ _ _ _ _ b b'). }
  assert (length ps = length ps') as Hlen.
  { apply try_map_Ok, Forall2_length in Hps, Hps'. congruence. }
  apply (IH ps ps'); [done..| |done]. destruct ps, ps'; [done..|]. by injection Ht.
Qed.

Lemma signature_hash d id s : signature_of d id inputs = Ok (Some s) →
  ∃ bases f parts, bases_of d = Ok bases ∧ get_fragment d id = Some f ∧
    try_map (signature_part bases f) inputs = Ok parts ∧
    signature_text d id = Ok (Some (join "|"%char parts)) ∧ s = short_hash (join "|"%char parts).
Proof.
  unfold signature_of, signature_text. intros (bases & -> & Hs)%bind_Ok. run_ok.
  destruct (get_fragment d id) as [f|]; [|done].
  unfold fragment_input_signature in Hs. destruct (try_map (signature_part bases f) inputs) as [parts|e|] eqn:Hp;
    [|done..]. cbn in Hs. injection Hs as <-. exists bases, f, parts. by rewrite Hp.
Qed.

(** Under the same signature a row keeps its inputs. *)
Lemma inputs_kept v v' d d' id s r : v ≤ v' → checkout_version v = Ok d →
  checkout_version v' = Ok d' → signature_of d id inputs = Ok (Some s) →
  signature_of d' id inputs = Ok (Some s) → r ∈ rows_at v' id →
  ∃ r0, r0 ∈ rows_at v id ∧ input r = input r0 ∧
    (value r = value r0 ∨ value r = None ∨ value r = compute (input r0)).
Proof.
  intros Hv Hd Hd' (bases & f & parts & Hb & Hf & Hp & Ht & Hs)%signature_hash.
  intros (bases' & f' & parts' & Hb' & Hf' & Hp' & Ht' & Hs')%signature_hash Hr.
  apply (inputs_immutable v v' d d' id bases bases' f f' r); try done.
  apply (text_sources _ _ _ _ _ parts parts' Hp Hp').
  apply (no_collision v v' d d' id); [done..|congruence].
Qed.

Lemma grounded_fresh u v d id s :
  grounded_entry u id s → u ≤ v → checkout_version v = Ok d →
  signature_of d id inputs = Ok (Some s) → Forall fresh_row (rows_at v id).
Proof.
  intros (v0 & d0 & Hv & Hd0 & Hs0 & Hf) Hu Hd Hs.
  apply Forall_forall. intros r Hr.
  destruct (inputs_kept v0 v d0 d id s r ltac:(lia) Hd0 Hd Hs0 Hs Hr) as (r0 & Hr0 & Hi & Hv').
  rewrite Forall_forall in Hf. specialize (Hf r0 Hr0). unfold fresh_row in *. rewrite Hi.
  destruct Hv' as [->|[->| ->]]; auto.
Qed.

Lemma signature_of_live v d id s : checkout_version v = Ok d →
  signature_of d id inputs = Ok (Some s) → is_Some (live_rows v id).
Proof.
  intros Hd (bases & _ & Hs)%bind_Ok. apply (rows_exist v d id Hd).
  destruct (get_fragment d id); [eauto|done].
Qed.

Lemma get_fragment_live v d f : checkout_version v = Ok d → f ∈ fragments d →
  get_fragment d (as_u32 (frag_id f)) = Some f.
Proof.
  intros Hd Hf. destruct (ids_are_u32 v d Hd) as [Hnd Hr]. unfold as_u32.
  rewrite Z.mod_small by by apply Hr. unfold get_fragment.
  revert Hf Hnd. generalize (fragments d) as l. clear. induction l as [|x l IH]; [set_solver|].
  cbn [map List.find]. rewrite elem_of_cons, NoDup_cons. intros Hin [Hx Hnd].
  destruct (Z.eqb_spec (frag_id x) (frag_id f)) as [Heq|Hne].
  - destruct Hin as [->|Hin]; [done|]. exfalso. apply Hx. rewrite Heq. by apply list_elem_of_fmap_2.
  - destruct Hin as [->|Hin]; [done|]. by apply IH.
Qed.

Lemma rows_of_length v d id n : checkout_version v = Ok d → rows_of d id = Ok n →
  n = Z.of_nat (length (rows_at v id)).
Proof.
  intros Hd. unfold rows_of. destruct (get_fragment d id) as [f|] eqn:Hf.
  - by apply rows_counted.
  - intros [= <-]. unfold rows_at. destruct (live_rows v id) eqn:Hl; [|done].
    assert (is_Some (get_fragment d id)) as [? ?]; [apply (rows_exist v d id Hd); eauto|congruence].
Qed.

(** A range covers a row of the list that starts at [off]. *)
Definition covered (off : Z) (ranges : list (Z * Z)) (i : nat) : Prop :=
  Exists (λ rg, in_range (off + Z.of_nat i) rg = true) ranges.

Lemma follow_sources_extends fresh appends sources off app app' :
  follow_sources fresh appends inputs sources off app = Ok (Some app') → app ⊆ app'.
Proof.
  revert off app; induction sources as [|[[id cur] live] sources IH]; intros off app;
    cbn [follow_sources]; [by intros [= <-]|].
  destruct (recorded_as fresh id cur); [apply IH|].
  intros ([|] & _ & Hf)%bind_Ok; [|done]. apply IH in Hf. set_solver.
Qed.

(** Every row of the sources is fresh or lies in a range that an append contributed. *)
Lemma follow_sources_ok v before fresh appends consumed sources off app app' i r :
  checkout_version (v - 1) = Ok before → grounded_live (v - 1) fresh →
  Forall2 (λ id src, source_of before inputs id = Ok src) consumed sources →
  follow_sources fresh appends inputs sources off app = Ok (Some app') →
  (consumed ≫= rows_at (v - 1)) !! i = Some r →
  fresh_row r ∨ covered off app' i.
Proof.
  intros Hb Hg Hs. revert off app i.
  induction Hs as [|id [[id' cur] live] consumed sources Hsrc _ IH]; intros off app i; [done|].
  unfold source_of in Hsrc. apply bind_Ok in Hsrc as (live' & Hlive & Hsrc).
  apply bind_Ok in Hsrc as (sig & Hsig & [= <- <- <-]).
  pose proof (rows_of_length (v - 1) before id live' Hb Hlive) as Hlen.
  cbn [follow_sources]. rewrite bind_cons.
  assert (∀ app0, follow_sources fresh appends inputs sources (off + live') app0 = Ok (Some app') →
    (length (rows_at (v - 1) id) ≤ i)%nat →
    (consumed ≫= rows_at (v - 1)) !! (i - length (rows_at (v - 1) id))%nat = Some r →
    fresh_row r ∨ covered off app' i) as Htail.
  { intros app0 Hf Hi Hl. destruct (IH _ _ _ Hf Hl) as [?|Hc]; [by left|right].
    unfold covered in *. eapply Exists_impl; [exact Hc|]. intros rg. rewrite Hlen.
    by replace (off + Z.of_nat (length (rows_at (v - 1) id)) +
      Z.of_nat (i - length (rows_at (v - 1) id))) with (off + Z.of_nat i) by lia. }
  rewrite lookup_app_Some.
  destruct (recorded_as fresh id sig) eqn:Hrec.
  - intros Hf [Hl|[Hi Hl]]; [|by eapply Htail]. left.
    unfold recorded_as in Hrec. destruct (fresh !! id) as [s|] eqn:Hm; [|done].
    destruct sig as [s'|]; [|done]. apply String.eqb_eq in Hrec as <-.
    pose proof (grounded_fresh (v - 1) (v - 1) before id s
      (Hg id s Hm (signature_of_live _ _ _ _ Hb Hsig)) ltac:(lia) Hb Hsig) as Hall.
    rewrite Forall_forall in Hall. apply Hall. by eapply list_elem_of_lookup_2.
  - intros ([|] & _ & Hf)%bind_Ok; [|done]. intros [Hl|[Hi Hl]]; [|by eapply Htail].
    right. apply follow_sources_extends in Hf. unfold covered. apply Exists_exists.
    exists (off, off + live'). split; [set_solver|].
    apply lookup_lt_Some in Hl. unfold in_range. cbn [fst snd].
    apply andb_true_iff. split; [apply Z.leb_le|apply Z.ltb_lt]; lia.
Qed.

(** ** Values in ranges *)
Lemma batches_hold_false ranges batches o :
  batches_hold ranges batches = Ok false → Exists (batch_has o) batches →
  ∀ rg, rg ∈ ranges → in_range o rg = false.
Proof.
  intros Hb He rg Hrg. induction He as [b batches Hb0|b batches _ IH]; cbn [batches_hold] in Hb;
    apply bind_Ok in Hb as (b' & -> & Hb); apply bind_Ok in Hb as (addrs & Ha & Hb);
    apply ok_or_Ok in Ha as ->; destruct (batch_holds ranges addrs) eqn:Hh; try done; [|by apply IH].
  destruct Hb0 as (a & Ha & <-). destruct (in_range _ rg) eqn:Hr; [|done]. exfalso.
  assert (batch_holds ranges addrs = true); [|congruence].
  unfold batch_holds. apply existsb_exists. exists (Some a). split; [by apply list_elem_of_In|].
  apply existsb_exists. exists rg. split; [by apply list_elem_of_In|done].
Qed.

Lemma local_ranges_elem appended base rows rg i :
  rg ∈ appended → in_range (base + i) rg = true → 0 ≤ i < rows →
  ∃ rg', rg' ∈ local_ranges appended base rows ∧ in_range i rg' = true.
Proof.
  unfold in_range. intros Hrg [H1 H2]%andb_true_iff Hi. apply Z.leb_le in H1. apply Z.ltb_lt in H2.
  exists (Z.max rg.1 base - base, Z.min rg.2 (base + rows) - base). split.
  - unfold local_ranges. apply (list_elem_of_fmap_2 (λ range : Z * Z,
      (Z.max range.1 base - base, Z.min range.2 (base + rows) - base))).
    apply list_elem_of_filter. split; [lia|done].
  - cbn [fst snd]. apply andb_true_iff. split; [apply Z.leb_le|apply Z.ltb_lt]; lia.
Qed.

(** The rows of the products in the ranges hold no value. *)
Lemma unfilled_ok v after appended produced base i r :
  checkout_version v = Ok after →
  (∀ id, id ∈ produced →
    map offset (rows_at v id) = seqZ 0 (Z.of_nat (length (rows_at v id)))) →
  unfilled after column appended produced base = Ok true →
  (produced ≫= rows_at v) !! i = Some r → covered base appended i → value r = None.
Proof.
  intros Hd. revert base i; induction produced as [|id produced IH]; intros base i Hoff; [done|].
  cbn [unfilled]. intros (rows & Hrows & Hu)%bind_Ok.
  apply bind_Ok in Hu as (filled & Hf & Hu). destruct filled; [done|].
  pose proof (rows_of_length v after id rows Hd Hrows) as Hlen.
  rewrite bind_cons, lookup_app_Some. intros [Hl|[Hi Hl]] Hc.
  - apply Exists_exists in Hc as (rg & Hrg & Hin).
    pose proof (lookup_lt_Some _ _ _ Hl) as Hlt.
    destruct (local_ranges_elem appended base rows rg (Z.of_nat i) Hrg Hin ltac:(lia))
      as (rg' & Hrg' & Hin').
    destruct (local_ranges appended base rows) as [|l0 l] eqn:Hloc; [by apply not_elem_of_nil in Hrg'|].
    cbn [no_ranges] in Hf. destruct (value r) eqn:Hval; [exfalso|done].
    assert (is_Some (get_fragment after id)) as [f Hfr].
    { apply (rows_exist v after id Hd). unfold rows_at in Hl. destruct (live_rows v id); [done|].
      by destruct i. }
    unfold holds_values_in in Hf. rewrite Hfr in Hf. apply bind_Ok in Hf as (batches & Hs & Hf).
    assert (offset r = Z.of_nat i) as Ho.
    { assert ((offset <$> rows_at v id) !! i = Some (offset r)) as Hm
        by by rewrite list_lookup_fmap, Hl.
      change (offset <$> rows_at v id) with (map offset (rows_at v id)) in Hm.
      rewrite Hoff in Hm by (by apply list_elem_of_here).
      apply lookup_seqZ in Hm as [-> _]. lia. }
    pose proof (scan_finds v after id f batches r Hd Hfr Hs
      (list_elem_of_lookup_2 _ _ _ Hl) ltac:(congruence)) as He.
    rewrite Ho in He. rewrite (batches_hold_false _ _ _ Hf He rg' Hrg') in Hin'. done.
  - eapply (IH (base + rows)); [|done|done|].
    + intros id' Hid'. apply Hoff. by apply list_elem_of_further.
    + unfold covered in *. eapply Exists_impl; [exact Hc|]. intros rg. rewrite Hlen.
      by replace (base + Z.of_nat (length (rows_at v id)) + Z.of_nat (i - length (rows_at v id)))
        with (base + Z.of_nat i) by lia.
Qed.

(** ** Compactions *)
Lemma index_files_Ok bases id files by_file by_file' key n :
  index_files bases id files by_file = Ok by_file' → by_file' !! key = Some n →
  by_file !! key = Some n ∨
  n = id ∧ ∃ file, file ∈ files ∧ file_identity bases file = Ok key.
Proof.
  revert by_file; induction files as [|file files IH]; intros by_file; cbn [index_files].
  { intros [= ->]; auto. }
  intros (k & Hk & Hi)%bind_Ok Hl. destruct (IH _ Hi Hl) as [Hin|(-> & f & Hf & ?)].
  - apply lookup_insert_Some in Hin as [[-> ->]|[_ ?]]; [right|by left].
    split; [done|]. exists file. by split; [apply list_elem_of_here|].
  - right. split; [done|]. exists f. by split; [apply list_elem_of_further|].
Qed.

Lemma index_fragments_Ok bases frags by_file by_file' key n :
  index_fragments bases frags by_file = Ok by_file' → by_file' !! key = Some n →
  by_file !! key = Some n ∨
  ∃ f file, f ∈ frags ∧ as_u32 (frag_id f) = n ∧ file ∈ frag_files f ∧
    file_identity bases file = Ok key.
Proof.
  revert by_file; induction frags as [|f frags IH]; intros by_file; cbn [index_fragments].
  { intros [= ->]; auto. }
  intros (b & Hb & Hi)%bind_Ok Hl. destruct (IH _ Hi Hl) as [Hin|(f' & file & ? & ?)].
  - destruct (index_files_Ok _ _ _ _ _ _ _ Hb Hin) as [?|(-> & file & ? & ?)]; [by left|right].
    exists f, file. split; [apply list_elem_of_here|done].
  - right. exists f', file. split; [by apply list_elem_of_further|done].
Qed.

Lemma find_produced_Ok bases by_file files n :
  find_produced bases by_file files = Ok (Some n) →
  ∃ file key, file ∈ files ∧ file_identity bases file = Ok key ∧ by_file !! key = Some n.
Proof.
  induction files as [|file files IH]; cbn [find_produced]; [done|].
  intros (key & Hk & Hf)%bind_Ok. destruct (by_file !! key) as [m|] eqn:Hl.
  - injection Hf as ->. exists file, key. split; [apply list_elem_of_here|done].
  - destruct (IH Hf) as (f & k & ? & ?). exists f, k. split; [by apply list_elem_of_further|done].
Qed.

Lemma produced_names d bases by_file v new n :
  bases_of d = Ok bases → index_fragments bases (fragments d) ∅ = Ok by_file →
  produced_id bases by_file v new = Ok n → names_fragment d new n.
Proof.
  intros Hb Hi (found & Hf & Hn)%bind_Ok. apply ok_or_Ok in Hn as ->.
  destruct (find_produced_Ok _ _ _ _ Hf) as (file & key & ? & ? & Hl).
  destruct (index_fragments_Ok _ _ _ _ _ _ Hi Hl) as [He|(f & file' & ? & ? & ? & ?)].
  - by rewrite lookup_empty in He.
  - by exists bases, f, file, file', key.
Qed.

(** What a step that is a compaction says of the rows, by [compaction_copies] *)
Lemma step_at_compaction v groups consumed produced :
  step_at v = Ok (Some (StepCompaction groups)) → (consumed, produced) ∈ groups →
  map content (produced ≫= rows_at v) = map content (consumed ≫= rows_at (v - 1)) ∧
  ∀ id, id ∈ produced → live_rows (v - 1) id = None ∧
    map offset (rows_at v id) = seqZ 0 (Z.of_nat (length (rows_at v id))).
Proof.
  unfold step_at. destruct (read_transaction_by_version v) as [[|gs|]| | |] eqn:Ht; try done.
  intros (d & Hd & Hs)%bind_Ok Hin. apply bind_Ok in Hs as (bases & Hb & Hs).
  apply bind_Ok in Hs as (by_file & Hi & Hs). apply bind_Ok in Hs as (cs & Hc & [= <-]).
  apply try_map_Ok in Hc. apply list_elem_of_lookup in Hin as [k Hk].
  destruct (Forall2_lookup_r _ _ _ _ _ Hc Hk) as (g & Hg & Hgc).
  unfold compaction_of in Hgc. apply bind_Ok in Hgc as (ids & Hids & [= <- <-]).
  apply try_map_Ok in Hids.
  apply (compaction_copies v d gs g ids Ht Hd); [by eapply list_elem_of_lookup_2|].
  eapply Forall2_impl; [exact Hids|]. intros new n Hn.
  exact (produced_names d bases by_file v new n Hb Hi Hn).
Qed.

Lemma record_products_grounded v after produced maps maps' :
  checkout_version v = Ok after →
  (∀ id, id ∈ produced → live_rows (v - 1) id = None ∧ Forall fresh_row (rows_at v id)) →
  record_products after inputs produced maps = Ok maps' →
  grounded_live (v - 1) maps.1 → grounded v maps.1 → grounded v maps.2 →
  grounded_live (v - 1) maps'.1 ∧ grounded v maps'.1 ∧ grounded v maps'.2.
Proof.
  intros Hd. revert maps; induction produced as [|id produced IH]; intros maps Hf;
    cbn [record_products]; [by intros [= <-]|].
  intros (sig & Hs & Hr)%bind_Ok H0 H1 H2.
  destruct (Hf id (list_elem_of_here _ _)) as [Hnew Hfr].
  assert (∀ m s, sig = Some s → grounded v m → grounded v (<[id:=s]> m)) as Hins.
  { intros m s -> Hm id' s' [[<- <-]|[_ ?]]%lookup_insert_Some; [|by apply Hm]. by exists v, after. }
  assert (∀ m s, grounded_live (v - 1) m → grounded_live (v - 1) (<[id:=s]> m)) as Hins'.
  { intros m s Hm id' s' [[<- <-]|[_ ?]]%lookup_insert_Some Hl; [|by apply Hm].
    rewrite Hnew in Hl. by apply is_Some_None in Hl. }
  eapply IH; [|exact Hr|..]; [intros; apply Hf; by apply list_elem_of_further|..];
    destruct sig; cbn [fst snd]; auto.
Qed.

Lemma Forall_bind_lookup (P : Row A B → Prop) v (ids : list Z) :
  (∀ i r, (ids ≫= rows_at v) !! i = Some r → P r) → ∀ id, id ∈ ids → Forall P (rows_at v id).
Proof.
  intros HP id Hid. apply Forall_forall. intros r Hr.
  assert (r ∈ ids ≫= rows_at v) as Hin by (apply list_elem_of_bind; eauto).
  apply list_elem_of_lookup in Hin as [i Hi]. by eapply HP.
Qed.

Lemma follow_compaction_grounded v groups appends group maps maps' :
  step_at v = Ok (Some (StepCompaction groups)) → group ∈ groups →
  follow_compaction v column inputs appends group maps = Ok maps' →
  grounded_live (v - 1) maps.1 → grounded v maps.1 → grounded v maps.2 →
  grounded_live (v - 1) maps'.1 ∧ grounded v maps'.1 ∧ grounded v maps'.2.
Proof.
  destruct group as [consumed produced]. intros Hst Hg. unfold follow_compaction.
  intros (before & Hb & Hf)%bind_Ok H0 H1 H2. apply bind_Ok in Hf as (sources & Hs & Hf).
  apply try_map_Ok in Hs. apply bind_Ok in Hf as (appended & Ha & Hf).
  destruct appended as [appended|]; [|by injection Hf as <-].
  apply bind_Ok in Hf as (after & Hafter & Hf). apply bind_Ok in Hf as (clear & Hu & Hf).
  destruct clear; [|by injection Hf as <-].
  destruct (step_at_compaction v groups consumed produced Hst Hg) as [Hrows Hnew].
  eapply record_products_grounded; [done| |done..].
  intros id Hid. split; [by apply Hnew|]. revert id Hid. apply Forall_bind_lookup. intros i r Hr.
  assert ((content <$> (consumed ≫= rows_at (v - 1))) !! i = Some (content r)) as Hm.
  { change (content <$> ?l) with (map content l). rewrite <-Hrows.
    change (map content ?l) with (content <$> l). by rewrite list_lookup_fmap, Hr. }
  rewrite list_lookup_fmap in Hm. apply fmap_Some in Hm as (r0 & Hr0 & Hc).
  destruct consumed as [|c0 consumed]; [by destruct i|]. cbn [is_nil] in Ha.
  destruct (follow_sources_ok v before maps.1 appends _ sources 0 [] appended i r0 Hb H0 Hs Ha Hr0)
    as [Hfr|Hcov]; [by eapply fresh_content|].
  left. eapply unfilled_ok; [done| |done..]. intros id Hid. by apply Hnew.
Qed.

Lemma follow_compactions_grounded v groups gs appends maps maps' :
  step_at v = Ok (Some (StepCompaction groups)) → gs ⊆ groups →
  follow_compactions v column inputs appends gs maps = Ok maps' →
  grounded_live (v - 1) maps.1 → grounded v maps.1 → grounded v maps.2 →
  grounded v maps'.1 ∧ grounded v maps'.2.
Proof.
  intros Hst. revert maps; induction gs as [|g gs IH]; intros maps Hsub;
    cbn [follow_compactions]; [by intros [= <-]|].
  intros (maps1 & Hc & Hf)%bind_Ok H0 H1 H2.
  destruct (follow_compaction_grounded _ _ _ _ _ _ Hst (Hsub g (list_elem_of_here _ _)) Hc H0 H1 H2)
    as (? & ? & ?).
  eapply IH; [|exact Hf|done..]. intros x Hx. apply Hsub. by apply list_elem_of_further.
Qed.

Lemma follow_versions_grounded n from appends maps inherited :
  follow_versions column inputs (seqZ from (Z.of_nat n)) appends maps = Ok inherited →
  grounded (from - 1) maps.1 → grounded (from - 1) maps.2 →
  grounded (from - 1 + Z.of_nat n) inherited.
Proof.
  revert from appends maps; induction n as [|n IH]; intros from appends maps.
  { cbn. intros [= <-] _ ?. by rewrite Z.add_0_r. }
  rewrite seqZ_cons by lia. cbn [follow_versions].
  replace (Z.pred (Z.of_nat (S n))) with (Z.of_nat n) by lia.
  replace (from - 1 + Z.of_nat (S n)) with (Z.succ from - 1 + Z.of_nat n) by lia.
  intros (step & Hst & Hf)%bind_Ok H1 H2.
  assert (∀ m, grounded (from - 1) m → grounded (Z.succ from - 1) m) as Hw
    by (intros m; apply grounded_weaken; lia).
  destruct step as [[|groups]|]; [by eapply IH; eauto| |by eapply IH; eauto].
  apply bind_Ok in Hf as (maps' & Hc & Hf).
  destruct (follow_compactions_grounded from groups groups appends maps maps' Hst) as [? ?];
    [done|done|by apply grounded_grounded_live|eapply grounded_weaken; [|done]; lia..|].
  eapply IH; [exact Hf|..]; by replace (Z.succ from - 1) with from by lia.
Qed.

(** The version the stamp on the column describes *)
Definition stamp_version (d : Dataset) : Z :=
  match recorded_at d column with
  | Some at_version => Z.min at_version (version d)
  | None => version d
  end.

Lemma carried_forward_grounded d stored inherited :
  grounded (stamp_version d) stored → carried_forward d column stored inputs = Ok inherited →
  grounded (version d) inherited.
Proof.
  unfold stamp_version, carried_forward. intros Hg.
  destruct (recorded_at d column) as [at_version|]; [|intros [= <-]; by intros ? ? ?].
  destruct (Z.leb_spec (version d) at_version); [intros [= <-]; by intros ? ? ?|].
  destruct (_ <? _); [intros [= <-]; by intros ? ? ?|]. cbn [orb].
  rewrite <-(Z2Nat.id (version d - at_version)) by lia. intros Hf%follow_versions_grounded.
  - by replace (at_version + 1 - 1 + Z.of_nat (Z.to_nat (version d - at_version)))
      with (version d) in Hf by lia.
  - cbn [fst]. eapply grounded_weaken; [|exact Hg]. lia.
  - cbn [snd]. by intros ? ? ?.
Qed.

Lemma dirty_of_clean bases stored inherited frags acc acc' f :
  dirty_of bases inputs stored inherited frags acc = Ok acc' →
  (acc ⊆ acc') ∧
  (f ∈ frags → as_u32 (frag_id f) ∉ acc' → ∃ s,
    fragment_input_signature bases f inputs = Ok s ∧
    (stored ∪ inherited) !! as_u32 (frag_id f) = Some s).
Proof.
  revert acc; induction frags as [|x frags IH]; intros acc; cbn [dirty_of].
  { intros [= <-]. split; [done|set_solver]. }
  intros (s & Hs & Hd)%bind_Ok. destruct (IH _ Hd) as [Hsub Hin]. split.
  { case_bool_decide; [done|]. intros y Hy. apply Hsub. by apply elem_of_union_r. }
  intros [->|Hf]%elem_of_cons Hni; [|by apply Hin]. exists s. split; [done|].
  case_bool_decide as Heq; [done|]. exfalso. apply Hni, Hsub. apply elem_of_union_l, elem_of_singleton. done.
Qed.

Lemma signature_of_fragment v d bases f s : checkout_version v = Ok d → bases_of d = Ok bases →
  f ∈ fragments d → fragment_input_signature bases f inputs = Ok s →
  signature_of d (as_u32 (frag_id f)) inputs = Ok (Some s).
Proof.
  intros Hd Hb Hf Hs. unfold signature_of. rewrite Hb. run_ok.
  by rewrite (get_fragment_live v d f Hd Hf), Hs.
Qed.

(** A fragment that the plan leaves alone is fresh. *)
Lemma plan_against_clean d stored plan f :
  checkout_version (version d) = Ok d → grounded (stamp_version d) stored →
  plan_against d column inputs stored = Ok plan → f ∈ fragments d →
  is_dirty plan (as_u32 (frag_id f)) = false →
  Forall fresh_row (rows_at (version d) (as_u32 (frag_id f))).
Proof.
  intros Hhandle Hstamp Hp Hlive Hclean.
  unfold plan_against in Hp. apply bind_Ok in Hp as (inherited & Hi & Hp).
  apply bind_Ok in Hp as (bases & Hb & Hp). apply bind_Ok in Hp as (ids & Hd & [= <-]).
  unfold is_dirty in Hclean. cbn [recompute_all dirty orb] in Hclean.
  apply bool_decide_eq_false in Hclean.
  destruct (dirty_of_clean _ _ _ _ _ _ f Hd) as [_ Hc].
  destruct (Hc Hlive Hclean) as (s & Hs & Hl).
  assert (grounded_entry (version d) (as_u32 (frag_id f)) s) as Hg.
  { apply lookup_union_Some_raw in Hl as [Hl|[_ Hl]].
    - destruct (Hstamp _ _ Hl) as (v & d0 & Hv & ?). exists v, d0. split; [|done].
      unfold stamp_version in Hv. destruct (recorded_at d column); lia.
    - revert Hl. destruct (existsb _ _); [|injection Hi as <-; by rewrite lookup_empty].
      by apply (carried_forward_grounded d stored inherited Hstamp Hi). }
  exact (grounded_fresh _ (version d) d _ s Hg ltac:(lia) Hhandle
    (signature_of_fragment _ _ _ _ _ Hhandle Hb Hlive Hs)).
Qed.

(** What the plan is made of, when the column has a readable stamp *)
Lemma staleness_present io definition d dir dir1 dir2 stored plan :
  stored_on io d column dir = (Present stored, dir1) →
  staleness_against io d column definition inputs dir = (Ok plan, dir2) →
  plan = everything ∨ plan_against d column inputs stored = Ok plan.
Proof.
  intros Hstored Hplan. unfold staleness_against in Hplan. rewrite Hstored in Hplan.
  injection Hplan as Hp _. destruct (field_meta d column _) as [v|]; [|by right].
  destruct (String.eqb v definition); [by right|]. injection Hp as <-. by left.
Qed.

(** * Properties *)

(** C17: What a refresh leaves alone is up to date: under a stamp whose entries were
    true when they were recorded, every row of a fragment that the plan does not call
    dirty holds nothing or what the expression computes from its inputs as they now are,
    through any writes, appends and compactions since the stamp. *)
Theorem clean_fragments_are_current (io : Io) (definition : string) (d : Dataset)
    (dir dir1 dir2 : Directory) (stored : SignatureMap) (plan : StalenessPlan)
    (f : Fragment) (rows : list (Row A B))
    (Hhandle : checkout_version (version d) = Ok d)
    (Hstored : stored_on io d column dir = (Present stored, dir1))
    (Hstamp : grounded (stamp_version d) stored)
    (Hplan : staleness_against io d column definition inputs dir = (Ok plan, dir2))
    (Hlive : f ∈ fragments d)
    (Hclean : is_dirty plan (as_u32 (frag_id f)) = false)
    (Hrows : live_rows (version d) (as_u32 (frag_id f)) = Some rows) :
  Forall fresh_row rows.
Proof.
  destruct (staleness_present _ _ _ _ _ _ _ _ Hstored Hplan) as [-> |Hp]; [done|].
  pose proof (plan_against_clean d stored plan f Hhandle Hstamp Hp Hlive Hclean) as Hf.
  unfold rows_at in Hf. by rewrite Hrows in Hf.
Qed.

End truth.

(** ** Signatures are hex digests *)
Lemma hex_digits_split m n a b : 0 ≤ b < 16 ^ Z.of_nat n →
  hex_digits (m + n)%nat (a * 16 ^ Z.of_nat n + b) = hex_digits m a +:+ hex_digits n b.
Proof.
  revert b; induction n as [|n IH]; intros b Hb.
  { rewrite Nat.add_0_r, str_app_nil_r. simpl in Hb. f_equal. lia. }
  rewrite Nat2Z.inj_succ, Z.pow_succ_r in * by lia. rewrite Nat.add_succ_r. cbn [hex_digits].
  assert (0 ≤ b / 16 < 16 ^ Z.of_nat n).
  { split; [apply Z.div_pos; lia|apply Z.div_lt_upper_bound; lia]. }
  replace (a * (16 * 16 ^ Z.of_nat n) + b) with (b + (a * 16 ^ Z.of_nat n) * 16) by lia.
  rewrite Z.div_add, Z.mod_add by lia. rewrite (Z.add_comm (b / 16)), IH by done.
  by rewrite str_app_assoc.
Qed.

Fixpoint be_value (bytes : list Z) : Z :=
  match bytes with [] => 0 | b :: bytes => b * 256 ^ Z.of_nat (length bytes) + be_value bytes end.

Lemma be_value_range l : Forall (λ b, 0 ≤ b < 256) l → 0 ≤ be_value l < 256 ^ Z.of_nat (length l).
Proof.
  induction 1 as [|b l Hb _ IH]; cbn [be_value length]; [simpl; lia|].
  rewrite Nat2Z.inj_succ, Z.pow_succ_r by lia. nia.
Qed.

Lemma hex_bytes l : Forall (λ b, 0 ≤ b < 256) l →
  foldr (λ b s, hex2 b +:+ s) "" l = hex_digits (2 * length l) (be_value l).
Proof.
  induction 1 as [|b l Hb Hl IH]; [done|]. cbn [foldr be_value length]. rewrite IH.
  replace (2 * S (length l))%nat with (2 + 2 * length l)%nat by lia.
  assert (256 ^ Z.of_nat (length l) = 16 ^ Z.of_nat (2 * length l)) as He.
  { rewrite Nat2Z.inj_mul, Z.pow_mul_r by lia. done. }
  rewrite He, hex_digits_split; [done|]. rewrite <-He. by apply be_value_range.
Qed.

Definition sha256_bytes : Prop := ∀ s, (8 ≤ length (sha256 s))%nat ∧ Forall (λ b, 0 ≤ b < 256) (sha256 s).

Lemma short_hash_normal s : sha256_bytes → normal (short_hash s) = short_hash s.
Proof.
  intros Hsha. destruct (Hsha s) as [Hlen Hb]. unfold short_hash.
  assert (Forall (λ b, 0 ≤ b < 256) (take 8 (sha256 s))) as Ht by by apply Forall_take.
  assert (length (take 8 (sha256 s)) = 8%nat) as H8 by (rewrite length_take; lia).
  rewrite hex_bytes, H8 by done. apply normal_hex16. unfold u64_range.
  apply be_value_range in Ht. rewrite H8 in Ht. exact Ht.
Qed.

Lemma fragment_signature_normal bases f inputs s : sha256_bytes →
  fragment_input_signature bases f inputs = Ok s → normal s = s.
Proof. intros Hsha (parts & _ & [= <-])%bind_Ok. by apply short_hash_normal. Qed.

(** ** Stamps *)
Lemma as_u32_range z : 0 ≤ as_u32 z < U32.
Proof. apply Z.mod_pos_bound. done. Qed.

Lemma elem_of_live_ids d id : id ∈ live_ids d ↔ ∃ f, f ∈ fragments d ∧ as_u32 (frag_id f) = id.
Proof.
  unfold live_ids. rewrite elem_of_list_to_set, list_elem_of_fmap. naive_solver.
Qed.

(** A map that was written reads back in normal form. *)
Lemma written_reads_back puts now0 dir dir' m encoded bases io :
  (∀ k s, m !! k = Some s → 0 ≤ k < U32) →
  write_sidecar puts now0 dir m = (Ok encoded, dir') → own_error io = None →
  (stored_signatures (own_error io) (copy_puts io) (now io) dir' bases (Some encoded)).1 =
    Present (normal <$> m).
Proof.
  intros Hm Hw Hio. unfold write_sidecar in Hw. destruct (encode_sidecar m) as [b|e|] eqn:He; [|done..].
  destruct puts; [|done].
  assert (encoded = SIDECAR_REF +:+ digest_of b) as -> by congruence.
  assert (dir' = <[sidecar_name (digest_of b) := mkObject b now0]> dir) as -> by congruence. clear Hw.
  unfold stored_signatures. rewrite strip_prefix_app. unfold read_sidecar.
  rewrite Hio, lookup_insert_eq. cbn [Sidecar.bytes]. rewrite String.eqb_refl.
  by rewrite (sidecar_decodes m b Hm He).
Qed.

Lemma dirty_of_elem bases inputs stored inherited frags acc acc' id :
  dirty_of bases inputs stored inherited frags acc = Ok acc' → id ∈ acc' →
  id ∈ acc ∨ ∃ f s, f ∈ frags ∧ as_u32 (frag_id f) = id ∧
    fragment_input_signature bases f inputs = Ok s ∧ (stored ∪ inherited) !! id ≠ Some s.
Proof.
  revert acc; induction frags as [|x frags IH]; intros acc; cbn [dirty_of]; [intros [= <-]; auto|].
  intros (s & Hs & Hd)%bind_Ok Hid. destruct (IH _ Hd Hid) as [Hin|(f & s' & Hf & ?)].
  - case_bool_decide as Heq; [by left|].
    apply elem_of_union in Hin as [Hin%elem_of_singleton|?]; [|by left]. right.
    exists x, s. subst id. repeat split; [apply list_elem_of_here|done|done].
  - right. exists f, s'. split; [by apply list_elem_of_further|done].
Qed.

Lemma same_fragment d f f' : NoDup (map (λ f, as_u32 (frag_id f)) (fragments d)) →
  f ∈ fragments d → f' ∈ fragments d → as_u32 (frag_id f) = as_u32 (frag_id f') → f = f'.
Proof.
  intros Hnd [i Hi]%list_elem_of_lookup [j Hj]%list_elem_of_lookup Heq.
  assert (i = j) as ->; [|congruence].
  apply (NoDup_lookup ((λ f, as_u32 (frag_id f)) <$> fragments d) i j (as_u32 (frag_id f)));
    [done| |]; rewrite list_lookup_fmap, ?Hi, ?Hj; simpl; congruence.
Qed.

Lemma signatures_for_live d ids inputs m bases f s :
  NoDup (map (λ f, as_u32 (frag_id f)) (fragments d)) →
  signatures_for d ids inputs = Ok m → bases_of d = Ok bases → f ∈ fragments d →
  as_u32 (frag_id f) ∈ ids → fragment_input_signature bases f inputs = Ok s →
  m !! as_u32 (frag_id f) = Some s.
Proof.
  intros Hnd (b & Hb & Hm)%bind_Ok Hb' Hf Hid Hs. rewrite Hb in Hb'. injection Hb' as ->.
  apply bind_Ok in Hm as (entries & He & [= <-]). apply try_map_Ok in He.
  set (live := filter _ (fragments d)) in He.
  assert (f ∈ live) as Hl by by apply list_elem_of_filter.
  apply list_elem_of_lookup in Hl as [i Hi].
  destruct (Forall2_lookup_l _ _ _ _ _ He Hi) as (e & Hei & Hee).
  unfold signature_entry in Hee. rewrite Hs in Hee. injection Hee as <-.
  assert (entries.*1 = map (λ f, as_u32 (frag_id f)) live) as Hk.
  { clear -He. induction He as [|x y l k Hxy _ IH]; [done|].
    apply bind_Ok in Hxy as (z & _ & [= <-]). rewrite fmap_cons. cbn [map]. by f_equal. }
  apply elem_of_list_to_map.
  - rewrite fmap_reverse, reverse_Permutation, Hk. subst live. clear -Hnd.
    induction (fragments d) as [|x l IH]; [done|]. cbn [map] in Hnd. apply NoDup_cons in Hnd as [Hx Hnd].
    rewrite filter_cons. case_decide; [|by apply IH]. cbn [map]. apply NoDup_cons. split; [|by apply IH].
    intros (y & Hy & [_ Hin]%list_elem_of_filter)%list_elem_of_fmap. apply Hx.
    rewrite Hy. by apply (list_elem_of_fmap_2 (λ f, as_u32 (frag_id f))).
  - apply elem_of_reverse. by eapply list_elem_of_lookup_2.
Qed.

(** What a stamp on the version [latest] does, when no other commit comes in between *)
Definition commits_metadata (latest : Dataset) (column : string) : Prop :=
  ∀ entries d', update_field_metadata latest column entries = Ok d' → NoDup entries.*1 →
    uri d' = uri latest ∧ base_paths d' = base_paths latest ∧ fragments d' = fragments latest ∧
    ∀ k v, (k, v) ∈ entries → field_meta d' column k = Some v.

Lemma stamp_reads_back io puts latest column definition entries dir d dir' io'' id s :
  commits_metadata latest column →
  write_signatures io puts latest column definition entries dir = (Ok d, dir') →
  own_error io'' = None → entries !! id = Some s → id ∈ live_ids latest → normal s = s →
  field_meta d column DEFINITION_VERSION_META_KEY = Some definition ∧
  fragments d = fragments latest ∧ bases_of d = bases_of latest ∧
  ∃ stored, (stored_on io'' d column dir').1 = Present stored ∧ stored !! id = Some s.
Proof.
  intros Hcommit Hw Hio He Hid Hn. unfold write_signatures in Hw.
  destruct (stored_on io latest column dir) as [old dir0].
  set (m0 := match old with Present stored => entries ∪ stored | _ => entries end) in Hw.
  set (merged := filter (λ e, e.1 ∈ live_ids latest) m0) in Hw.
  assert (merged !! id = Some s) as Hm.
  { apply map_lookup_filter_Some. split; [|done].
    subst m0. destruct old; [done| |done]. by apply lookup_union_Some_l. }
  rewrite bool_decide_eq_false_2 in Hw by (intros Heq; by rewrite Heq, lookup_empty in Hm).
  destruct (write_sidecar puts (now io) dir0 merged) as [encoded dir1] eqn:Hs.
  injection Hw as (enc & -> & Hup)%bind_Ok <-.
  assert (NoDup [SOURCE_SIGNATURE_META_KEY; DEFINITION_VERSION_META_KEY; RECORDED_AT_VERSION_META_KEY])
    as Hkeys by (apply (bool_decide_unpack _); reflexivity).
  destruct (Hcommit _ _ Hup Hkeys) as (Hu & Hb & Hf & Hmeta).
  split; [apply Hmeta; set_solver|]. split; [done|].
  split; [by unfold bases_of; rewrite Hu, Hb|].
  exists (normal <$> merged). split; [|by rewrite lookup_fmap, Hm; simpl; rewrite Hn].
  unfold stored_on. rewrite (Hmeta SOURCE_SIGNATURE_META_KEY enc) by apply list_elem_of_here.
  eapply written_reads_back; [|exact Hs|done].
  intros k s' [_ Hk]%map_lookup_filter_Some. cbn [fst] in Hk.
  apply elem_of_live_ids in Hk as (f & _ & <-). apply as_u32_range.
Qed.

Lemma recorded_entries io io' puts latest pinned column definition inputs computed dir stamp d dir1
    at_version bases f s :
  NoDup (map (λ f, as_u32 (frag_id f)) (fragments latest)) →
  record_freshness io io' puts latest pinned column definition inputs computed dir =
    (Ok (stamp, d), dir1) → stamped stamp = Some at_version →
  bases_of latest = Ok bases → f ∈ fragments latest →
  computed !! as_u32 (frag_id f) = Some s → fragment_input_signature bases f inputs = Ok s →
  ∃ verified dir0, verified !! as_u32 (frag_id f) = Some s ∧
    write_signatures io' puts latest column definition verified dir0 = (Ok d, dir1).
Proof.
  intros Hids Hrec Hst Hb Hf Hc Hs. unfold record_freshness in Hrec.
  destruct (stored_on io latest column dir) as [old dir0].
  destruct (entries_of pinned (is_absent old) inputs) as [entries|e|]; [|done..].
  assert ((computed ∪ entries) !! as_u32 (frag_id f) = Some s) as Hin by by apply lookup_union_Some_l.
  destruct (bool_decide (computed ∪ entries = ∅) && negb (is_absent old));
    [injection Hrec as <- <- <-; done|].
  destruct (signatures_for latest _ inputs) as [current|e|] eqn:Hcur; [|done..].
  destruct (write_signatures io' puts latest column definition _ dir0) as [written dir2] eqn:Hw.
  injection Hrec as (d' & -> & Hd)%bind_Ok <-. injection Hd as _ <-.
  eexists _, dir0. split; [|exact Hw]. apply map_lookup_filter_Some. split; [done|]. cbn [fst snd].
  eapply (signatures_for_live _ _ _ _ _ _ _ Hids Hcur Hb Hf); [|exact Hs].
  apply list_elem_of_fmap. exists (as_u32 (frag_id f), s). split; [done|]. by apply elem_of_map_to_list.
Qed.

(** What a refresh computed is not computed again: a fragment whose signature, as the
    refresh computed from it, is still the one the latest version has, is not dirty for
    the plan made against the version the stamp landed at; a stamp never makes a refresh
    recompute everything. *)
Theorem recorded_fragment_is_clean (io io' io'' : Io) (puts : bool) (latest d : Dataset)
    (pinned : option (Dataset * StalenessPlan)) (column definition : string) (inputs : InputFields)
    (computed : SignatureMap) (dir dir1 dir2 : Directory) (stamp : FreshnessRecord) (at_version : Z)
    (plan : StalenessPlan) (bases : Bases) (f : Fragment) (s : string)
    (Hsha : sha256_bytes)
    (Hids : NoDup (map (λ f, as_u32 (frag_id f)) (fragments latest)))
    (Hcommit : commits_metadata latest column)
    (Hrecord : record_freshness io io' puts latest pinned column definition inputs computed dir =
       (Ok (stamp, d), dir1))
    (Hstamped : stamped stamp = Some at_version)
    (Hio : own_error io'' = None)
    (Hplan : staleness_against io'' d column definition inputs dir1 = (Ok plan, dir2))
    (Hbases : bases_of latest = Ok bases) (Hlive : f ∈ fragments latest)
    (Hcomputed : computed !! as_u32 (frag_id f) = Some s)
    (Hcurrent : fragment_input_signature bases f inputs = Ok s) :
  is_dirty plan (as_u32 (frag_id f)) = false ∧ recompute_all plan = false.
Proof.
  destruct (recorded_entries _ _ _ _ _ _ _ _ _ _ _ _ _ _ _ _ _ Hids Hrecord Hstamped Hbases Hlive
    Hcomputed Hcurrent) as (verified & dir0 & Hv & Hw).
  destruct (stamp_reads_back io' puts latest column definition verified dir0 d dir1 io''
    (as_u32 (frag_id f)) s Hcommit Hw Hio Hv) as (Hdef & Hfr & Hb & stored & Hst & Hl).
  { apply elem_of_live_ids. eauto. }
  { by eapply fragment_signature_normal. }
  unfold staleness_against in Hplan. destruct (stored_on io'' d column dir1) as [st dir3].
  cbn [fst] in Hst. subst st. rewrite Hdef, String.eqb_refl in Hplan.
  injection Hplan as (inherited & _ & Hp)%bind_Ok _. rewrite Hb, Hbases in Hp.
  apply bind_Ok in Hp as (b' & [= <-] & Hp). apply bind_Ok in Hp as (ids & Hd & [= <-]). split; [|done].
  unfold is_dirty. cbn [recompute_all dirty orb]. apply bool_decide_eq_false. intros Hin.
  destruct (dirty_of_elem _ _ _ _ _ _ _ _ Hd Hin) as [He|(f' & s' & Hf' & Hid & Hs' & Hne)].
  { set_solver. }
  rewrite Hfr in Hf'. rewrite (same_fragment latest f' f) in Hs' by done.
  rewrite Hcurrent in Hs'. injection Hs' as <-. apply Hne. by apply lookup_union_Some_l.
Qed.

End log.
End formats.

(** ** A table with an append and a compaction since its stamp *)
Module Demo.
(** A printed basis: its binary code up to a semicolon *)
Fixpoint bits (p : positive) : string :=
  match p with
  | xH => ";"
  | xO p => String "0" (bits p)
  | xI p => String "1" (bits p)
  end.
Lemma bits_delimited p : ∀ q s s', bits p +:+ s = bits q +:+ s' → p = q.
Proof.
  induction p as [p IH|p IH|]; intros [q|q|] s s'; cbn; try (intros ?; discriminate); [| |done];
    intros [= Hs]; f_equal; by eapply IH.
Qed.

#[local] Instance formats : Formats := {
  parse_field_path path := Ok [path];
  schema_field fields name := List.find (λ f, String.eqb (field_name f) name) fields;
  url_before_query uri := Ok uri;
  sha256 s := (map byte_of (list_ascii_of_string s) ++ repeat 0 8)%list;
  debug_basis b := bits (encode (basis_files b, basis_overlays b))
}.

Lemma printed b b' s s' : debug_basis b +:+ s = debug_basis b' +:+ s' →
  debug_basis b = debug_basis b' ∧ basis_files b = basis_files b' ∧
  map overlay_source (basis_overlays b) = map overlay_source (basis_overlays b').
Proof.
  intros Hs%bits_delimited. apply (inj encode) in Hs. injection Hs as Hf Ho. cbn. by rewrite Hf, Ho.
Qed.

Definition file (path : string) : DataFile := mkFile [0; 1] [0; 1] path None.
Definition fragment (id : Z) (path : string) : Fragment := mkFragment id [file path] [].
Definition inputs : InputFields := [(["x"], [0])].
Definition frag_rows (id : Z) : list (Row Z Z) :=
  if id =? 0 then [mkRow 0 10 (Some 11)]
  else if id =? 1 then [mkRow 0 20 None]
  else [mkRow 0 10 (Some 11); mkRow 1 20 None].

(** The stamp: fragment 0, in version 1 *)
Definition stamp : gmap string string :=
  {[ SOURCE_SIGNATURE_META_KEY := "stamp"; RECORDED_AT_VERSION_META_KEY := "1" ]}.
Definition with_stamp (stamp : gmap string string) : list Field :=
  [mkField 0 "x" ∅ []; mkField 1 "y" stamp []].
Definition table (frags : list Fragment) (version : Z) : Dataset :=
  mkDataset "db/t.lance" [] frags (with_stamp stamp) version.
Definition product : Fragment := fragment 2 "c".
Definition v1 : Dataset := table [fragment 0 "a"] 1.
Definition v2 : Dataset := table [fragment 0 "a"; fragment 1 "b"] 2.
Definition v3 : Dataset := table [product] 3.
Definition signature (f : Fragment) : string :=
  match fragment_input_signature (mkBases "db/t.lance/data" ∅) f inputs with Ok s => s | _ => "" end.

#[local] Instance storage : Storage := {
  digest_of _ := "d";
  parse_json_map s :=
    if String.eqb s "stamp" then Some {[ 0 := signature (fragment 0 "a") ]} else None;
  base_fetch _ _ := NotFound;
  unmodified_since t m := m <? t
}.

Definition checkout (v : Z) : result Dataset :=
  if v =? 1 then Ok v1 else if v =? 2 then Ok v2 else if v =? 3 then Ok v3
  else Err (Runtime "no version").
Definition groups : list RewriteGroup :=
  [mkGroup [fragment 0 "a"; fragment 1 "b"] [fragment 0 "c"]].

#[local] Instance log : Log := {
  checkout_version := checkout;
  read_transaction_by_version v :=
    if v =? 2 then Transaction Append
    else if v =? 3 then Transaction (Rewrite groups) else NoTransaction;
  count_rows _ f := Ok (Z.of_nat (length (frag_rows (frag_id f))));
  scan _ f _ _ :=
    Ok [Ok (Some (map (λ r, Some (offset r))
         (filter (λ r : Row Z Z, value r ≠ None) (frag_rows (frag_id f)))))];
  update_field_metadata d _ entries :=
    Ok (mkDataset (uri d) (base_paths d) (fragments d)
          (with_stamp (list_to_map entries)) (version d + 1))
}.
#[local] Instance truth : Truth Z Z := {
  live_rows v id :=
    match checkout v with
    | Ok d => (λ _, frag_rows id) <$> get_fragment d id
    | _ => None
    end;
  compute x := Some (x + 1)
}.

Lemma checkout_cases v d : checkout v = Ok d → (v, d) ∈ [(1, v1); (2, v2); (3, v3)].
Proof.
  unfold checkout. rewrite !elem_of_cons, elem_of_nil.
  destruct (Z.eqb_spec v 1) as [->|_]; [intros [= <-]; auto|].
  destruct (Z.eqb_spec v 2) as [->|_]; [intros [= <-]; auto|].
  destruct (Z.eqb_spec v 3) as [->|_]; [intros [= <-]; auto|done].
Qed.

Lemma get_fragment_id d id f : get_fragment d id = Some f → frag_id f = id.
Proof. intros [_ Hf]%List.find_some. by apply Z.eqb_eq. Qed.

Lemma rows_at_live v d id f : checkout v = Ok d → get_fragment d id = Some f →
  rows_at v id = frag_rows id.
Proof. intros Hd Hf. unfold rows_at. cbn. by rewrite Hd, Hf. Qed.

Lemma rows_at_elem v id (r : Row Z Z) : r ∈ rows_at v id → r ∈ frag_rows id.
Proof.
  unfold rows_at. cbn. destruct (checkout v) as [d|e|]; [|by inversion 1..].
  destruct (get_fragment d id); [done|by inversion 1].
Qed.

Lemma bases_same v d : checkout v = Ok d → bases_of d = Ok (mkBases "db/t.lance/data" ∅).
Proof.
  intros Hd%checkout_cases. rewrite !elem_of_cons, elem_of_nil in Hd.
  by destruct Hd as [[= -> ->]|[[= -> ->]|[[= -> ->]|[]]]].
Qed.
Lemma same_id v v' d d' id f f' : checkout v = Ok d → checkout v' = Ok d' →
  get_fragment d id = Some f → get_fragment d' id = Some f' → f = f'.
Proof.
  intros Hd%checkout_cases Hd'%checkout_cases. rewrite !elem_of_cons, elem_of_nil in Hd, Hd'.
  intros Hf Hf'. pose proof (get_fragment_id _ _ _ Hf). pose proof (get_fragment_id _ _ _ Hf').
  apply List.find_some in Hf as [Hf _], Hf' as [Hf' _]. apply list_elem_of_In in Hf, Hf'.
  destruct Hd as [[= -> ->]|[[= -> ->]|[[= -> ->]|[]]]];
    destruct Hd' as [[= -> ->]|[[= -> ->]|[[= -> ->]|[]]]]; cbn in Hf, Hf';
    set_solver.
Qed.

Lemma product_named ids : Forall2 (names_fragment v3) [fragment 0 "c"] ids → ids = [2].
Proof.
  inversion 1 as [|? id ? ids' Hn Hnil]. inversion Hnil.
  destruct Hn as (b & f & _ & _ & _ & _ & Hf & <- & _).
  apply list_elem_of_singleton in Hf as ->. done.
Qed.

#[local] Instance laws : TruthLaws "y" inputs.
Proof.
  split.
  - intros v d Hd%checkout_cases. rewrite !elem_of_cons, elem_of_nil in Hd.
    destruct Hd as [[= -> ->]|[[= -> ->]|[[= -> ->]|[]]]];
      (split; [vm_compute; repeat constructor; set_solver|]);
      intros f; cbn; rewrite ?elem_of_cons, elem_of_nil; intros Hf;
      repeat destruct Hf as [->|Hf]; try done.
  - intros v d id Hd. cbn in *. rewrite Hd, fmap_is_Some. done.
  - intros v d id f n Hd Hf [= <-]. rewrite (rows_at_live v d id f) by done.
    by rewrite (get_fragment_id d id f).
  - intros v v' d d' id bases bases' f f' r _ Hd _ _ _ Hf _ _ Hr.
    exists r. rewrite (rows_at_live v d id f) by done.
    split; [by eapply rows_at_elem|]. split; [done|by left].
  - exact printed.
  - intros v v' d d' id t t' Hd Hd' Ht Ht' _. unfold signature_text in Ht, Ht'.
    rewrite (bases_same v d Hd) in Ht. rewrite (bases_same v' d' Hd') in Ht'.
    apply bind_Ok in Ht as (b & [= <-] & Ht). apply bind_Ok in Ht' as (b' & [= <-] & Ht').
    destruct (get_fragment d id) as [f|] eqn:Hf; [|done].
    destruct (get_fragment d' id) as [f'|] eqn:Hf'; [|done].
    rewrite (same_id v v' d d' id f f' Hd Hd' Hf Hf') in Ht. congruence.
  - intros v d gs g ids Ht Hd Hg Hids. cbn in Ht, Hd.
    destruct (Z.eqb_spec v 2) as [->|_]; [done|].
    destruct (Z.eqb_spec v 3) as [->|_]; [|done]. injection Ht as <-. injection Hd as <-.
    apply list_elem_of_singleton in Hg as ->.
    rewrite (product_named ids Hids). split; [reflexivity|].
    intros id ->%list_elem_of_singleton. by split.
  - intros v d id f batches r _ Hf [= <-] Hr Hv. apply Exists_cons. left. exists (offset r).
    apply get_fragment_id in Hf as ->. apply rows_at_elem in Hr. split.
    + apply (list_elem_of_fmap_2 (λ r, Some (offset r))). by apply list_elem_of_filter.
    + unfold frag_rows in Hr. revert Hr.
      destruct (id =? 0); [|destruct (id =? 1)]; rewrite !elem_of_cons, elem_of_nil;
        intros Hr; repeat destruct Hr as [->|Hr]; done.
Qed.

Definition io : Io := mkIo None true 0.
Definition the_plan : StalenessPlan :=
  match staleness_against io v3 "y" "def" inputs ∅ with (Ok plan, _) => plan | _ => everything end.
(** A refresh that computed the product in full *)
Definition stamped_table : result (FreshnessRecord * Dataset) * Directory :=
  record_freshness io io true v3 None "y" "def" inputs {[ 2 := signature product ]} ∅.
Definition after_stamp : Dataset :=
  match stamped_table with (Ok (_, d), _) => d | _ => v3 end.
Definition plan_after : StalenessPlan :=
  match staleness_against io after_stamp "y" "def" inputs stamped_table.2 with
  | (Ok plan, _) => plan | _ => everything end.

Lemma sha256_ok : sha256_bytes.
Proof.
  intros s. cbn. split; [rewrite length_app; simpl; lia|]. apply Forall_app. split.
  - apply Forall_fmap, Forall_true. intros c. unfold byte_of. cbn.
    pose proof (nat_ascii_bounded c). lia.
  - repeat constructor; lia.
Qed.

Lemma commits : commits_metadata v3 "y".
Proof.
  intros entries d' [= <-] Hnd. split; [done|]. split; [done|]. split; [done|].
  intros k v Hkv. unfold field_meta. cbn. by apply elem_of_list_to_map.
Qed.

Lemma grounded_stamp : grounded inputs 1 {[ 0 := signature (fragment 0 "a") ]}.
Proof.
  intros id s [<- <-]%lookup_singleton_Some. exists 1, v1. split; [lia|]. split; [done|].
  split; [reflexivity|]. apply Forall_singleton. by right.
Qed.
End Demo.

Lemma clean_fragments_are_current_witness :
  is_dirty Demo.the_plan 2 = false ∧
  Forall (@fresh_row Z Z Demo.truth) [mkRow 0 10 (Some 11); mkRow 1 20 None].
Proof.
  split; [reflexivity|].
  apply (@clean_fragments_are_current Demo.formats Demo.log Demo.storage Z Z Demo.truth "y" Demo.inputs
    Demo.laws Demo.io "def" Demo.v3 ∅ ∅ ∅ {[ 0 := Demo.signature (Demo.fragment 0 "a") ]} Demo.the_plan
    Demo.product).
  - reflexivity.
  - reflexivity.
  - exact Demo.grounded_stamp.
  - vm_compute. reflexivity.
  - apply list_elem_of_here.
  - reflexivity.
  - reflexivity.
Defined.

Lemma recorded_fragment_is_clean_witness :
  is_dirty Demo.plan_after 2 = false ∧ recompute_all Demo.plan_after = false.
Proof.
  apply (@recorded_fragment_is_clean Demo.formats Demo.log Demo.storage Demo.io Demo.io Demo.io true
    Demo.v3 Demo.after_stamp None "y" "def" Demo.inputs {[ 2 := Demo.signature Demo.product ]}
    ∅ Demo.stamped_table.2 Demo.stamped_table.2 (mkRecord (Some 4) 1 0) 4 Demo.plan_after
    (mkBases "db/t.lance/data" ∅) Demo.product (Demo.signature Demo.product)).
  - exact Demo.sha256_ok.
  - apply (bool_decide_unpack _). reflexivity.
  - exact Demo.commits.
  - vm_compute. reflexivity.
  - reflexivity.
  - reflexivity.
  - vm_compute. reflexivity.
  - reflexivity.
  - apply list_elem_of_here.
  - reflexivity.
  - reflexivity.
Defined.
End Freshness.
