(* ===== verification/Schema.v ===== *)
(** * Arrow schemas

    Fields, data types and schemas as the code reads and rebuilds them, with
    decidable equality and the induction principle over nested fields.  Types
    the code never looks into are [TOther]. *)

From S2P Require Import Prelude.

Module Schema.
Local Open Scope string_scope.

Inductive Field : Type :=
  mkField (field_name : string) (field_type : DataType) (field_nullable : bool)
    (field_metadata : gmap string string)
with DataType : Type :=
  | TStruct (children : list Field)
  | TList (child : Field)
  | TListView (child : Field)
  | TLargeList (child : Field)
  | TLargeListView (child : Field)
  | TFixedSizeList (child : Field) (size : Z)
  | TMap (child : Field) (sorted : bool)
  | TUnion (variants : list (Z * Field)) (dense : bool)
  | TRunEndEncoded (run_ends values : Field)
  | TDictionary (key value : DataType)
  | TNull
  | TLargeBinary
  | TOther (name : string).

Definition field_name (f : Field) : string := let 'mkField n _ _ _ := f in n.
Definition field_type (f : Field) : DataType := let 'mkField _ t _ _ := f in t.
Definition field_nullable (f : Field) : bool := let 'mkField _ _ b _ := f in b.
Definition field_metadata (f : Field) : gmap string string := let 'mkField _ _ _ m := f in m.

Record ArrowSchema : Type := mkSchema {
  fields : list Field;
  schema_metadata : gmap string string
}.
Definition names (schema : ArrowSchema) : list string := map field_name (fields schema).
Definition field_with_name (schema : ArrowSchema) (name : string) : option Field :=
  List.find (λ f, String.eqb (field_name f) name) (fields schema).

(** ** Induction over nested fields *)
Section induction.
Context (P : Field → Prop) (Q : DataType → Prop).
Context (Hfield : ∀ n t b m, Q t → P (mkField n t b m)).
Context (Hstruct : ∀ cs, Forall P cs → Q (TStruct cs)).
Context (Hlist : ∀ c, P c → Q (TList c)) (Hlistview : ∀ c, P c → Q (TListView c)).
Context (Hlarge : ∀ c, P c → Q (TLargeList c)) (Hlargeview : ∀ c, P c → Q (TLargeListView c)).
Context (Hfixed : ∀ c n, P c → Q (TFixedSizeList c n)) (Hmap : ∀ c b, P c → Q (TMap c b)).
Context (Hunion : ∀ vs b, Forall (λ v, P v.2) vs → Q (TUnion vs b)).
Context (Hrun : ∀ a b, P a → P b → Q (TRunEndEncoded a b)).
Context (Hdict : ∀ a b, Q a → Q b → Q (TDictionary a b)).
Context (Hnull : Q TNull) (Hbinary : Q TLargeBinary) (Hother : ∀ n, Q (TOther n)).

Fixpoint field_nested_ind (f : Field) : P f :=
  match f with mkField n t b m => Hfield n t b m (type_nested_ind t) end
with type_nested_ind (t : DataType) : Q t :=
  match t with
  | TStruct cs =>
      Hstruct cs ((fix go cs : Forall P cs :=
        match cs with [] => Forall_nil_2 _ | c :: cs => Forall_cons_2 _ _ _ (field_nested_ind c) (go cs) end) cs)
  | TList c => Hlist c (field_nested_ind c)
  | TListView c => Hlistview c (field_nested_ind c)
  | TLargeList c => Hlarge c (field_nested_ind c)
  | TLargeListView c => Hlargeview c (field_nested_ind c)
  | TFixedSizeList c n => Hfixed c n (field_nested_ind c)
  | TMap c b => Hmap c b (field_nested_ind c)
  | TUnion vs b =>
      Hunion vs b ((fix go vs : Forall (λ v, P v.2) vs :=
        match vs with
        | [] => Forall_nil_2 _
        | (i, v) :: vs => Forall_cons_2 (λ v, P v.2) (i, v) vs (field_nested_ind v) (go vs)
        end) vs)
  | TRunEndEncoded a b => Hrun a b (field_nested_ind a) (field_nested_ind b)
  | TDictionary a b => Hdict a b (type_nested_ind a) (type_nested_ind b)
  | TNull => Hnull
  | TLargeBinary => Hbinary
  | TOther n => Hother n
  end.

Lemma nested_ind : (∀ f, P f) ∧ (∀ t, Q t).
Proof. split; [exact field_nested_ind | exact type_nested_ind]. Qed.
End induction.

(** ** Equality *)
Fixpoint field_dec (f g : Field) {struct f} : {f = g} + {f ≠ g}
with type_dec (t u : DataType) {struct t} : {t = u} + {t ≠ u}.
Proof.
  - destruct f as [n t b m], g as [n' t' b' m'].
    destruct (decide (n = n')); [|right; congruence]. destruct (type_dec t t'); [|right; congruence].
    destruct (decide (b = b')); [|right; congruence]. destruct (decide (m = m')); [|right; congruence].
    left; congruence.
  - destruct t as [cs|c|c|c|c|c n|c b|vs b|a b|a b| | |n], u as [cs'|c'|c'|c'|c'|c' n'|c' b'|vs' b'|a' b'|a' b'| | |n'];
      try (right; congruence); try (left; reflexivity);
      try (destruct (field_dec c c'); [|right; congruence]).
    + destruct (List.list_eq_dec field_dec cs cs'); [left|right]; congruence.
    + left; congruence.
    + left; congruence.
    + left; congruence.
    + left; congruence.
    + destruct (decide (n = n')); [left|right]; congruence.
    + destruct (decide (b = b')); [left|right]; congruence.
    + destruct (decide (b = b')); [|right; congruence].
      destruct (List.list_eq_dec (λ v w : Z * Field, match v, w with
        | (i, v), (j, w) => match decide (i = j), field_dec v w with
          | left p, left q => left (f_equal2 pair p q)
          | right p, _ => right (λ e : (i, v) = (j, w), p (f_equal fst e))
          | _, right q => right (λ e : (i, v) = (j, w), q (f_equal snd e))
          end end) vs vs'); [left|right]; congruence.
    + destruct (field_dec a a'); [|right; congruence]. destruct (field_dec b b'); [left|right]; congruence.
    + destruct (type_dec a a'); [|right; congruence]. destruct (type_dec b b'); [left|right]; congruence.
    + destruct (decide (n = n')); [left|right]; congruence.
Defined.
#[global] Instance Field_eq_dec : EqDecision Field := field_dec.
#[global] Instance DataType_eq_dec : EqDecision DataType := type_dec.
#[global] Instance ArrowSchema_eq_dec : EqDecision ArrowSchema.
Proof. solve_decision. Defined.

(** ** Looking fields up *)
Lemma field_with_name_in schema f :
  NoDup (names schema) → f ∈ fields schema → field_with_name schema (field_name f) = Some f.
Proof.
  unfold names, field_with_name. induction (fields schema) as [|g l IH]; [by intros _ ?%not_elem_of_nil|].
  cbn. intros [Hg Hnd]%NoDup_cons [->|Hf]%elem_of_cons; [by rewrite String.eqb_refl|].
  destruct (String.eqb_spec (field_name g) (field_name f)) as [He|]; [|by apply IH].
  exfalso. apply Hg. rewrite He. by apply (list_elem_of_fmap_2 field_name).
Qed.
Lemma field_with_name_Some schema n f :
  field_with_name schema n = Some f → f ∈ fields schema ∧ field_name f = n.
Proof.
  unfold field_with_name. intros [Hin Heq]%List.find_some. split; [by apply list_elem_of_In|].
  by apply String.eqb_eq.
Qed.
Lemma field_with_name_None schema n :
  field_with_name schema n = None ↔ n ∉ names schema.
Proof.
  unfold field_with_name, names. induction (fields schema) as [|g l IH]; cbn.
  { split; [intros _; apply not_elem_of_nil|done]. }
  rewrite elem_of_cons. destruct (String.eqb_spec (field_name g) n) as [->|Hn]; [naive_solver|].
  rewrite IH. naive_solver.
Qed.
End Schema.
