(* ===== verification/ComputedColumns.v ===== *)
(** * Computed columns (table/computed_columns.rs)

    Declarations in field metadata, how they are read back, the expression a
    declaration binds to, the guards that keep a declaration evaluable, and the
    Function bindings a schema carries.  DataFusion's planner, lance's field
    paths and the JSON codecs are the class [Planner]; the comparison of a
    binding with its Arrow schemas is the class [BindingChecks]. *)

From Stdlib Require Import Ascii String.
From stdpp Require Import strings pretty sorting.
From S2P Require Import Prelude RustStr RustText Schema.

Module ComputedColumns.
Export Schema.
Local Open Scope string_scope.

(** ** Metadata keys *)
Definition COMPUTED_COLUMN_META_KEY : string := "computed_column".
Definition KIND_META_KEY : string := "computed_column.kind".
Definition EXPRESSION_META_KEY : string := "computed_column.expression".
Definition INPUTS_META_KEY : string := "computed_column.inputs".
Definition FUNCTION_BINDING_ID_META_KEY : string := "computed_column.function.binding_id".
Definition FUNCTION_OUTPUT_ORDINAL_META_KEY : string := "computed_column.function.output_ordinal".
Definition FUNCTION_ASSIGNMENT_OUTPUT_ORDINAL : Z := 2 ^ 32 - 1.
Definition FUNCTION_BINDINGS_META_KEY : string := "lancedb::function_bindings".
Definition FUNCTION_BINDINGS_VERSION : Z := 1.
Definition SOURCE_SIGNATURE_META_KEY : string := "computed_refresh.source_signature".
Definition SQL_KIND : string := "sql".
Definition FUNCTION_KIND : string := "function".
Definition WHOLE_RESULT_FIELD : string := "$value".

Definition is_declaration_key (key : string) : bool :=
  String.eqb key COMPUTED_COLUMN_META_KEY || starts_with "computed_column." key
  || starts_with "computed_refresh." key.

(** ** Declarations *)
Inductive ComputedColumnKind : Type :=
  | Sql (expression : string)
  | Function (binding_id : string) (output_ordinal : Z)
  | Unrecognized (kind : string).
Record ComputedColumn : Type := mkComputed {
  name : string;
  kind : ComputedColumnKind;
  inputs : list string
}.

(** DataFusion's expressions, as far as the code looks into them: whether a
    function is immutable, and the shape of a field access. *)
Inductive Expr : Type :=
  | Column (path : string)
  | ScalarFunction (function : string) (immutable : bool) (args : list Expr)
  | Utf8Literal (value : string)
  | OtherExpr (children : list Expr).

Class Planner : Type := {
  Physical : Type;
  parse_field_path : string → outcome string (list string);
  format_field_path_minimal : list string → string;
  resolve_case_insensitive : ArrowSchema → string → result Field;
  parse_inputs : string → option (list string);
  print_inputs : list string → string;
  is_blob_v2 : Field → bool;
  BLOB_V2_DESC_FIELD : Field;
  parse_expr : ArrowSchema → string → outcome string Expr;
  column_names_in_expr : Expr → list string;
  optimize_expr : ArrowSchema → Expr → outcome string Expr;
  create_physical_expr : ArrowSchema → Expr → outcome string Physical;
  physical_type : Physical → ArrowSchema → outcome string DataType
}.

(** [value.parse::<u32>()] *)
Definition parse_u32 (s : string) : option Z :=
  v ← parse_u64 s; if (v <? 2 ^ 32)%Z then Some v else None.

Section planner.
Context {P : Planner}.

Definition computed_column_metadata (expression : string) (inputs : list string)
    : gmap string string :=
  list_to_map
    [(COMPUTED_COLUMN_META_KEY, "true"); (KIND_META_KEY, SQL_KIND);
     (EXPRESSION_META_KEY, expression); (INPUTS_META_KEY, print_inputs inputs);
     (SOURCE_SIGNATURE_META_KEY, "{}")].

Definition function_computed_column_metadata (binding_id : string) (output_ordinal : Z)
    (inputs : list string) : gmap string string :=
  list_to_map
    [(COMPUTED_COLUMN_META_KEY, "true"); (KIND_META_KEY, FUNCTION_KIND);
     (FUNCTION_BINDING_ID_META_KEY, binding_id);
     (FUNCTION_OUTPUT_ORDINAL_META_KEY, pretty (Z.to_N output_ordinal));
     (INPUTS_META_KEY, print_inputs inputs); (SOURCE_SIGNATURE_META_KEY, "{}")].

Definition function_kind (metadata : gmap string string) : ComputedColumnKind :=
  match metadata !! FUNCTION_BINDING_ID_META_KEY,
        metadata !! FUNCTION_OUTPUT_ORDINAL_META_KEY ≫= parse_u32 with
  | Some binding_id, Some output_ordinal =>
      if is_empty binding_id then Unrecognized FUNCTION_KIND
      else Function binding_id output_ordinal
  | _, _ => Unrecognized FUNCTION_KIND
  end.

Definition kind_of (metadata : gmap string string) : option ComputedColumnKind :=
  kind ← metadata !! KIND_META_KEY;
  if String.eqb kind SQL_KIND then Sql <$> metadata !! EXPRESSION_META_KEY
  else if String.eqb kind FUNCTION_KIND then Some (function_kind metadata)
  else Some (Unrecognized kind).

Definition is_flagged (f : Field) : bool :=
  bool_decide (field_metadata f !! COMPUTED_COLUMN_META_KEY = Some "true").

Definition computed_column_from_field (f : Field) : option ComputedColumn :=
  let metadata := field_metadata f in
  if negb (is_flagged f) then None
  else
    kind ← kind_of metadata;
    Some (mkComputed (field_name f) kind
            (default [] (metadata !! INPUTS_META_KEY ≫= parse_inputs))).

Definition computed_columns (schema : ArrowSchema) : list ComputedColumn :=
  omap computed_column_from_field (fields schema).

(** ** Field paths *)
Definition parsed_path (path : string) : result (list string) :=
  map_err (λ e, InvalidInput ("invalid column path '" +:+ path +:+ "': " +:+ e)) (parse_field_path path).
Definition empty_path (path : string) : Error :=
  InvalidInput ("column path '" +:+ path +:+ "' is empty").

Definition field_root (path : string) : result string :=
  parts ← parsed_path path; ok_or (empty_path path) (head parts).

Definition whole_column (path : string) : result (option string) :=
  parts ← parsed_path path;
  match parts with
  | [] => Err (empty_path path)
  | [column] => Ok (Some column)
  | _ => Ok None
  end.

Definition root (path : string) : string :=
  match field_root path with
  | Ok column => column
  | _ => default path (head (split "."%char path))
  end.

(** ** Guards on declarations *)
Definition mem (name : string) (l : list string) : bool := bool_decide (name ∈ l).

Fixpoint ensure_not_written_in (declared written : list string) : result unit :=
  match written with
  | [] => Ok tt
  | name :: written =>
      if mem (root name) declared
      then Err (InvalidInput "column '{}' is computed; its values come from refresh and cannot be written directly")
      else ensure_not_written_in declared written
  end.
Definition ensure_not_written (schema : ArrowSchema) (written : list string) : result unit :=
  ensure_not_written_in (map name (computed_columns schema)) written.

Definition ensure_no_foreign_declaration (f : Field) : result unit :=
  if existsb is_declaration_key (map fst (map_to_list (field_metadata f)))
  then Err (InvalidInput "field '{}' carries computed-column metadata; declare computed columns with add_columns().computed()")
  else Ok tt.
Definition ensure_no_foreign_declarations (fields : list Field) : result unit :=
  try_for ensure_no_foreign_declaration fields.

Definition ensure_not_retyped_one (paths : list string) (declaration : ComputedColumn) : result unit :=
  try_for (λ path,
    if String.eqb (name declaration) (root path)
    then Err (InvalidInput "column '{}' is computed; drop it and declare it again to change its type")
    else Ok tt) paths.
Definition ensure_not_retyped (schema : ArrowSchema) (paths : list string) : result unit :=
  try_for (ensure_not_retyped_one paths) (computed_columns schema).

(** The columns a declaration reads *)
Definition inputs_of (schema : ArrowSchema) (declaration : ComputedColumn) : result (list string) :=
  match kind declaration with
  | Sql expression =>
      map_err (λ e, InvalidInput ("computed column '" +:+ name declaration +:+
                 "' has an unevaluable expression (" +:+ e +:+
                 "); drop it before changing the schema"))
        (column_names_in_expr <$> parse_expr schema expression)
  | _ => Ok (inputs declaration)
  end.

Definition ensure_path_not_read (declaration : ComputedColumn) (inputs : list string)
    (path : string) : result unit :=
  if String.eqb (name declaration) path then Ok tt
  else if String.eqb (name declaration) (root path)
  then Err (InvalidInput "'{}' is part of computed column '{}'; drop the column and declare it again")
  else if mem (root path) (map root inputs)
  then Err (InvalidInput "column '{}' is read by computed column '{}'; drop that column first")
  else Ok tt.

Definition ensure_declaration_unread (schema : ArrowSchema) (paths : list string)
    (removed : list string) (declaration : ComputedColumn) : result unit :=
  if mem (name declaration) removed then Ok tt
  else
    inputs ← inputs_of schema declaration;
    try_for (ensure_path_not_read declaration inputs) paths.

Definition ensure_not_an_input_of (schema : ArrowSchema) (paths removed : list string)
    : result unit :=
  removed ← try_map whole_column removed;
  try_for (ensure_declaration_unread schema paths (omap id removed)) (computed_columns schema).
Definition ensure_not_an_input (schema : ArrowSchema) (paths : list string) : result unit :=
  ensure_not_an_input_of schema paths [].

(** ** Blob leaves

    A Blob v2 field is materialized as [LargeBinary] where an expression reads
    it, and is its descriptor elsewhere. *)
Fixpoint collect_blob_paths (f : Field) (parent : list string) : list (list string) :=
  match f with
  | mkField n t _ _ =>
      let path := (parent ++ [n])%list in
      if is_blob_v2 f then [path]
      else match t with
      | TStruct children =>
          (fix go (cs : list Field) : list (list string) :=
             match cs with
             | [] => []
             | c :: cs => (collect_blob_paths c path ++ go cs)%list
             end) children
      | TList c | TLargeList c | TFixedSizeList c _ | TMap c _ => collect_blob_paths c path
      | _ => []
      end
  end.
Definition schema_blob_paths (schema : ArrowSchema) : list (list string) :=
  mjoin (map (λ f, collect_blob_paths f []) (fields schema)).

Fixpoint transform_blob_field (f : Field) (parent : list string)
    (materialized : list (list string)) : Field :=
  match f with
  | mkField n t nullable metadata =>
      let path := (parent ++ [n])%list in
      if is_blob_v2 f then
        if bool_decide (path ∈ materialized) then mkField n TLargeBinary nullable ∅
        else mkField n (field_type BLOB_V2_DESC_FIELD) nullable (field_metadata BLOB_V2_DESC_FIELD)
      else
        let under c := transform_blob_field c path materialized in
        match t with
        | TStruct children =>
            mkField n (TStruct ((fix go (cs : list Field) : list Field :=
              match cs with
              | [] => []
              | c :: cs => transform_blob_field c path materialized :: go cs
              end) children)) nullable metadata
        | TList c => mkField n (TList (under c)) nullable metadata
        | TLargeList c => mkField n (TLargeList (under c)) nullable metadata
        | TFixedSizeList c size => mkField n (TFixedSizeList (under c) size) nullable metadata
        | TMap c sorted => mkField n (TMap (under c) sorted) nullable metadata
        | _ => f
        end
  end.
Definition blob_runtime_schema (schema : ArrowSchema) (materialized : list (list string))
    : ArrowSchema :=
  mkSchema (map (λ f, transform_blob_field f [] materialized) (fields schema))
    (schema_metadata schema).

Fixpoint is_prefix (a b : list string) : bool :=
  match a, b with
  | [], _ => true
  | x :: a, y :: b => String.eqb x y && is_prefix a b
  | _ :: _, [] => false
  end.
Definition input_path (input : string) : result (list string) :=
  map_err (λ e, InvalidInput ("invalid computed-column input path '" +:+ input +:+ "': " +:+ e))
    (parse_field_path input).
Definition referenced_blob_paths (schema : ArrowSchema) (inputs : list string)
    : result (list (list string)) :=
  paths ← try_map input_path inputs;
  Ok (filter (λ blob_path, Is_true (existsb (λ input, is_prefix input blob_path) paths))
        (schema_blob_paths schema)).

(** ** Binding an expression *)
Record BoundExpression : Type := mkBound {
  bound_inputs : list string;
  roots : list string;
  physical : Physical;
  data_type : DataType;
  blob_paths : list string;
  projected_blob : option Field
}.

Fixpoint is_direct_field_projection (e : Expr) : bool :=
  match e with
  | Column _ => true
  | ScalarFunction f _ [a; Utf8Literal _] =>
      String.eqb f "get_field" && is_direct_field_projection a
  | _ => false
  end.
Definition projected_blob_field (schema : ArrowSchema) (e : Expr) : result (option Field) :=
  if negb (is_direct_field_projection e) then Ok None
  else match column_names_in_expr e with
  | [path] =>
      f ← resolve_case_insensitive schema path;
      Ok (if is_blob_v2 f then Some f else None)
  | _ => Ok None
  end.

(** The first function, in preorder, that is not immutable *)
Fixpoint first_volatile (e : Expr) : option string :=
  let fix go (es : list Expr) : option string :=
    match es with
    | [] => None
    | e :: es => match first_volatile e with Some f => Some f | None => go es end
    end in
  match e with
  | ScalarFunction f immutable args => if immutable then go args else Some f
  | OtherExpr children => go children
  | Column _ | Utf8Literal _ => None
  end.

Definition str_le (a b : string) : Prop := Is_true (String.leb a b).
#[global] Instance str_le_dec : RelDecision str_le.
Proof. intros a b. unfold str_le. apply _. Defined.

Definition sorted_inputs (e : Expr) : list string :=
  dedup (merge_sort str_le (column_names_in_expr e)).

Definition index_of (schema : ArrowSchema) (name : string) : option nat :=
  fst <$> list_find (λ f, field_name f = name) (fields schema).
Fixpoint input_indices (invalid : string → Error) (schema : ArrowSchema) (inputs : list string)
    (indices : list nat) : result (list nat) :=
  match inputs with
  | [] => Ok indices
  | input :: inputs =>
      index ← ok_or (invalid ("unknown column '" +:+ input +:+ "'")) (index_of schema (root input));
      input_indices invalid schema inputs
        (if bool_decide (index ∈ indices) then indices else indices ++ [index])%list
  end.
Definition project (schema : ArrowSchema) (indices : list nat) : ArrowSchema :=
  mkSchema (omap (λ i, fields schema !! i) indices) (schema_metadata schema).

Definition bind (schema : ArrowSchema) (column expression : string) : result BoundExpression :=
  let invalid := InvalidExpression column in
  let parsing_schema := blob_runtime_schema schema (schema_blob_paths schema) in
  parsed ← map_err invalid (parse_expr parsing_schema expression);
  projected ← projected_blob_field schema parsed;
  match first_volatile parsed with
  | Some _ =>
      Err (invalid "'{function}' is not deterministic; a computed column's expression must yield the same value every time it is evaluated")
  | None =>
      let inputs := sorted_inputs parsed in
      blobs ← referenced_blob_paths schema inputs;
      let runtime_schema := blob_runtime_schema schema blobs in
      indices ← input_indices invalid runtime_schema inputs [];
      let read_schema := project runtime_schema (merge_sort le indices) in
      optimized ← map_err invalid (optimize_expr runtime_schema parsed);
      compiled ← map_err invalid (create_physical_expr read_schema optimized);
      type ← map_err invalid (physical_type compiled read_schema);
      Ok (mkBound inputs (names read_schema) compiled type
            (map format_field_path_minimal blobs) projected)
  end.

(** ** Declaring columns *)
Definition declared_field (name expression : string) (bound : BoundExpression) : Field :=
  let metadata := computed_column_metadata expression (bound_inputs bound) in
  match projected_blob bound with
  | Some source =>
      mkField name (field_type source) true
        (metadata ∪ filter (λ e, is_declaration_key e.1 = false) (field_metadata source))
  | None => mkField name (data_type bound) true metadata
  end.

Fixpoint plan_columns (schema : ArrowSchema) (columns : list (string * string))
    : result (list Field) :=
  match columns with
  | [] => Ok []
  | (name, expression) :: columns =>
      match field_with_name schema name with
      | Some _ => Err (ColumnAlreadyExists name)
      | None =>
          bound ← bind schema name expression;
          let field := declared_field name expression bound in
          rest ← plan_columns (mkSchema (fields schema ++ [field]) (schema_metadata schema)) columns;
          Ok (field :: rest)
      end
  end.
Definition plan_declarations (schema : ArrowSchema) (columns : list (string * string))
    : result (list Field) :=
  match columns with
  | [] => Err (InvalidInput "at least one computed column is required")
  | _ => plan_columns schema columns
  end.

(** ** Function bindings *)
Record InputBinding : Type := mkInput {
  parameter : string;
  input_field_path : string;
  input_arrow_type : string;
  input_nullable : bool
}.
Record OutputMapping : Type := mkOutput {
  result_field : string;
  output_name : string;
  output_ordinal : Z;
  output_arrow_type : string;
  output_nullable : bool
}.
Record FunctionBinding : Type := mkBinding {
  binding_id : string;
  function_name : string;
  function_version : string;
  binding_inputs : list InputBinding;
  binding_outputs : list OutputMapping;
  assignment : option string;
  has_input_schema : bool;
  has_output_schema : bool
}.

(** The JSON codec of the envelope and of a binding, the check that a raw
    binding has no newer field, and the comparison of a binding with the Arrow
    fields of the schema. *)
Class BindingChecks : Type := {
  Value : Type;
  parse_envelope : string → outcome string (Z * list Value);
  print_envelope : list FunctionBinding → outcome string string;
  from_value : Value → outcome string FunctionBinding;
  ensure_known_binding_shape : Value → result unit;
  ensure_binding_matches_schema : ArrowSchema → FunctionBinding → result unit
}.

Section bindings.
Context {BC : BindingChecks}.

Definition invalid_metadata (e : string) : Error :=
  InvalidInput ("invalid Function binding metadata: " +:+ e).
Definition function_binding_envelope (schema : ArrowSchema) : result (option (list Value)) :=
  match schema_metadata schema !! FUNCTION_BINDINGS_META_KEY with
  | None => Ok None
  | Some raw =>
      envelope ← map_err invalid_metadata (parse_envelope raw);
      if Z.eqb envelope.1 FUNCTION_BINDINGS_VERSION then Ok (Some envelope.2)
      else Err (NotSupported "Function binding metadata version {} is not supported by this client")
  end.
Definition decode_bindings (values : list Value) : result (list FunctionBinding) :=
  try_map (λ value, map_err invalid_metadata (from_value value)) values.
Definition function_bindings (schema : ArrowSchema) : result (list FunctionBinding) :=
  envelope ← function_binding_envelope schema;
  match envelope with
  | None => Ok []
  | Some values => decode_bindings values
  end.
Definition function_bindings_metadata (bindings : list FunctionBinding) : result string :=
  map_err invalid_metadata (print_envelope bindings).

(** [ordinals_canonical from outputs]: the outputs are numbered from [from]. *)
Fixpoint ordinals_canonical (from : Z) (outputs : list OutputMapping) : bool :=
  match outputs with
  | [] => true
  | output :: outputs => Z.eqb (output_ordinal output) from && ordinals_canonical (from + 1) outputs
  end.

Fixpoint check_bindings (schema : ArrowSchema) (seen : list string)
    (bindings : list FunctionBinding) : result unit :=
  match bindings with
  | [] => Ok tt
  | b :: bindings =>
      if mem (binding_id b) seen then Err (InvalidInput "duplicate Function binding '{}'")
      else if bool_decide (binding_outputs b = []) then
        Err (InvalidInput "Function binding '{}' has no outputs")
      else if is_empty (function_name b) || is_empty (function_version b) then
        Err (InvalidInput "Function binding '{}' has no exact version")
      else if negb (has_input_schema b && has_output_schema b) then
        Err (NotSupported "Function binding '{}' does not contain exact Arrow schemas")
      else if negb (ordinals_canonical 0 (binding_outputs b)) then
        Err (InvalidInput "Function binding '{}' has non-canonical output ordinals")
      else
        _ ← ensure_binding_matches_schema schema b;
        check_bindings schema (binding_id b :: seen) bindings
  end.
(** The field of a Function binding's output names its place in the binding. *)
Definition destination_of (binding : FunctionBinding) (ordinal : Z) : option string :=
  if Z.eqb ordinal FUNCTION_ASSIGNMENT_OUTPUT_ORDINAL then assignment binding
  else output_name <$> binding_outputs binding !! Z.to_nat ordinal.

(** Bindings collected in a map by their id: the last of an id counts. *)
Definition find_binding (bindings : list FunctionBinding) (id : string) : option FunctionBinding :=
  List.find (λ b, String.eqb (binding_id b) id) (reverse bindings).

Definition check_function_output (bindings : list FunctionBinding) (f : Field) (id : string)
    (ordinal : Z) : result unit :=
  binding ← ok_or (InvalidInput "Function output '{}' references missing binding '{}'")
              (find_binding bindings id);
  destination ← ok_or (InvalidInput "Function output '{}' has invalid ordinal {}")
                  (destination_of binding ordinal);
  if String.eqb destination (field_name f) then Ok tt
  else Err (InvalidInput "Function output '{}' does not match binding destination '{}'").

Definition check_declaration (bindings : list FunctionBinding) (f : Field) : result unit :=
  if negb (is_flagged f) then Ok tt
  else match kind <$> computed_column_from_field f with
  | Some (Function id ordinal) => check_function_output bindings f id ordinal
  | Some (Sql _) => Ok tt
  | Some (Unrecognized _) => Err (NotSupported "computed column '{}' uses unsupported kind '{}'")
  | None => Err (InvalidInput "computed column '{}' has incomplete declaration metadata")
  end.

(** ** Cycles

    [reads]: the computed columns each computed column reads. *)
Definition paths_of (bindings : list FunctionBinding) (column : ComputedColumn) : list string :=
  match kind column with
  | Function id _ => default [] (map input_field_path ∘ binding_inputs <$> find_binding bindings id)
  | _ => inputs column
  end.
Definition read_roots (declared : list string) (paths : list string) : list string :=
  dedup (merge_sort str_le (filter (λ r, r ∈ declared) (map root paths))).
Definition reads_of (columns : list ComputedColumn) (bindings : list FunctionBinding)
    : gmap string (list string) :=
  list_to_map (reverse (map (λ c,
    (name c, read_roots (map name columns) (paths_of bindings c))) columns)).

Inductive Visit : Type := Open | Done.
#[global] Instance Visit_eq_dec : EqDecision Visit.
Proof. solve_decision. Defined.

Fixpoint visit_all (visit : string → gmap string Visit → result (gmap string Visit))
    (inputs : list string) (state : gmap string Visit) : result (gmap string Visit) :=
  match inputs with
  | [] => Ok state
  | input :: inputs => state ← visit input state; visit_all visit inputs state
  end.
Fixpoint visit (fuel : nat) (reads : gmap string (list string)) (column : string)
    (state : gmap string Visit) : result (gmap string Visit) :=
  match fuel with
  | O => Panic
  | S fuel =>
      match state !! column with
      | Some Done => Ok state
      | Some Open => Err (InvalidInput "computed column '{column}' depends on itself")
      | None =>
          state ← visit_all (visit fuel reads) (default [] (reads !! column)) (<[column:=Open]> state);
          Ok (<[column:=Done]> state)
      end
  end.
Definition visit_columns (columns : list string) (reads : gmap string (list string)) : result unit :=
  state ← visit_all (visit (S (length columns)) reads) columns ∅; Ok tt.
Definition ensure_computed_inputs_acyclic (schema : ArrowSchema) (bindings : list FunctionBinding)
    : result unit :=
  let columns := computed_columns schema in
  visit_columns (map name columns) (reads_of columns bindings).

Definition ensure_supported_function_metadata (schema : ArrowSchema) : result unit :=
  envelope ← function_binding_envelope schema;
  let raw := default [] envelope in
  _ ← try_for ensure_known_binding_shape raw;
  bindings ← decode_bindings raw;
  _ ← check_bindings schema [] bindings;
  _ ← try_for (check_declaration bindings) (fields schema);
  ensure_computed_inputs_acyclic schema bindings.

(** ** Guards on Function bindings *)
Definition ensure_no_function_bindings_for_mutation (schema : ArrowSchema) : result unit :=
  _ ← ensure_supported_function_metadata schema;
  bindings ← function_bindings schema;
  if bool_decide (bindings = []) then Ok tt
  else Err (NotSupported "{operation} is not supported on a table with registered Function bindings").

Definition protected_of (binding : FunctionBinding) : result (list string) :=
  roots ← try_map (λ input, field_root (input_field_path input)) (binding_inputs binding);
  Ok (roots ++ map output_name (binding_outputs binding) ++ option_list (assignment binding))%list.
Definition protected_roots (bindings : list FunctionBinding) : result (list string) :=
  lists ← try_map protected_of bindings; Ok (concat lists).

Definition ensure_not_bound_by (bindings : list FunctionBinding) (touched : list string)
    : result unit :=
  protected ← protected_roots bindings;
  if bool_decide (protected = []) then Ok tt
  else try_for (λ path,
         column ← field_root path;
         if mem column protected
         then Err (InvalidInput "{operation} of '{column}' is not supported: a Function binding reads or writes it")
         else Ok tt) touched.
Definition ensure_not_function_bound (schema : ArrowSchema) (touched : list string) : result unit :=
  _ ← ensure_supported_function_metadata schema;
  bindings ← function_bindings schema;
  ensure_not_bound_by bindings touched.

(** ** Dropping Function outputs *)
Record FunctionUnbinding : Type := mkUnbinding {
  retained : list FunctionBinding;
  assignment_columns : list string;
  cleared_columns : list string;
  bindings_metadata : option string
}.
Definition is_noop (plan : FunctionUnbinding) : bool := bool_decide (cleared_columns plan = []).

Definition unbind_one (named : list string) (binding : FunctionBinding) (plan : FunctionUnbinding)
    : result FunctionUnbinding :=
  let outputs := map output_name (binding_outputs binding) in
  match List.find (λ o, mem o named) outputs with
  | None =>
      Ok (mkUnbinding (retained plan ++ [binding]) (assignment_columns plan)
            (cleared_columns plan) (bindings_metadata plan))
  | Some _ =>
      if forallb (λ o, mem o named) outputs then
        Ok (mkUnbinding (retained plan)
              (assignment_columns plan ++
                 match assignment binding with
                 | Some a => if mem a named then [] else [a]
                 | None => []
                 end)
              (cleared_columns plan ++ outputs ++ option_list (assignment binding))
              (bindings_metadata plan))
      else Err (InvalidInput "dropping Function output '{dropped}' must drop every output of its binding; the same request must also name {}")
  end.
Fixpoint unbind_all (named : list string) (bindings : list FunctionBinding)
    (plan : FunctionUnbinding) : result FunctionUnbinding :=
  match bindings with
  | [] => Ok plan
  | binding :: bindings => plan ← unbind_one named binding plan; unbind_all named bindings plan
  end.

Definition plan_function_unbinding (schema : ArrowSchema) (columns : list string)
    : result FunctionUnbinding :=
  _ ← ensure_supported_function_metadata schema;
  named ← try_map whole_column columns;
  bindings ← function_bindings schema;
  plan ← unbind_all (omap id named) bindings (mkUnbinding [] [] [] None);
  if is_noop plan then Ok plan
  else
    metadata ← (if bool_decide (retained plan = []) then Ok None
                else Some <$> function_bindings_metadata (retained plan));
    Ok (mkUnbinding (retained plan) (assignment_columns plan) (cleared_columns plan) metadata).

Definition validate_declarations (schema : ArrowSchema) (columns : list (string * string))
    : result unit :=
  _ ← ensure_not_function_bound schema (map fst columns);
  _ ← plan_declarations schema columns;
  Ok tt.
End bindings.

(** * Lemmas *)

(** ** The search for cycles *)
Section search.
Context (reads : gmap string (list string)).

Definition reads_edge (a b : string) : Prop := b ∈ default [] (reads !! a).
Definition opens (state : gmap string Visit) : gset string :=
  dom (filter (λ e, e.2 = Open) state).

Lemma elem_of_opens c state : c ∈ opens state ↔ state !! c = Some Open.
Proof.
  unfold opens. rewrite elem_of_dom. split.
  - intros [v [Hv He]%map_lookup_filter_Some]. cbn [snd] in He. by subst v.
  - intros Hc. exists Open. by apply map_lookup_filter_Some.
Qed.

(** What a visit keeps: what is done stays done and is well-founded, what is
    open stays as it was. *)
Definition sound (state : gmap string Visit) : Prop :=
  ∀ c, state !! c = Some Done → Acc (flip reads_edge) c.
Definition extends (state state' : gmap string Visit) : Prop :=
  sound state' ∧ opens state' = opens state ∧
  ∀ c, state !! c = Some Done → state' !! c = Some Done.

Lemma finished_extends_refl state : sound state → extends state state.
Proof. by split. Qed.
Lemma extends_trans a b c : extends a b → extends b c → extends a c.
Proof. intros (? & H1 & ?) (? & H2 & ?). split; [done|]. split; [congruence|auto]. Qed.

Lemma visit_all_extends (f : string → gmap string Visit → result (gmap string Visit)) inputs state state' :
  (∀ c st st', sound st → f c st = Ok st' → extends st st' ∧ st' !! c = Some Done) →
  sound state → visit_all f inputs state = Ok state' →
  extends state state' ∧ ∀ c, c ∈ inputs → state' !! c = Some Done.
Proof.
  intros Hf. revert state; induction inputs as [|c inputs IH]; intros state Hs; cbn [visit_all].
  { intros [= <-]. split; [by apply finished_extends_refl|]. by intros c ?%not_elem_of_nil. }
  intros (st & Hst & Hr)%bind_Ok. destruct (Hf c state st Hs Hst) as [He Hd].
  destruct (IH st (proj1 He) Hr) as [He' Hds]. split; [by eapply extends_trans|].
  intros c' [->|?]%elem_of_cons; [by apply He'|by apply Hds].
Qed.

Lemma visit_extends fuel : ∀ c state state', sound state → visit fuel reads c state = Ok state' →
  extends state state' ∧ state' !! c = Some Done.
Proof.
  induction fuel as [|fuel IH]; intros c state state' Hs; [done|]. cbn [visit].
  destruct (state !! c) as [[|]|] eqn:Hc; [done|intros [= <-]; split; [by apply finished_extends_refl|done]|].
  intros (st & Hst & [= <-])%bind_Ok.
  assert (sound (<[c:=Open]> state)) as Hs'.
  { intros c' [[_ ?]|[_ ?]]%lookup_insert_Some; [done|by apply Hs]. }
  destruct (visit_all_extends _ _ _ _ IH Hs' Hst) as [(Hsound & Hopen & Hdone) Hin].
  split; [|by rewrite lookup_insert_eq]. split.
  - intros c' [[<- _]|[_ ?]]%lookup_insert_Some; [|by apply Hsound].
    constructor. intros b Hb. by apply Hsound, Hin.
  - split.
    + apply set_eq. intros x. rewrite elem_of_opens. pose proof (elem_of_opens x st) as Hx.
      rewrite Hopen, elem_of_opens in Hx. destruct (decide (x = c)) as [->|Hne].
      * rewrite lookup_insert_eq, elem_of_opens. naive_solver.
      * rewrite lookup_insert_ne by done. rewrite lookup_insert_ne in Hx by done.
        rewrite elem_of_opens. naive_solver.
    + intros x Hx. assert (x ≠ c) by (intros ->; congruence). rewrite lookup_insert_ne by done.
      apply Hdone. by rewrite lookup_insert_ne.
Qed.

(** A refusal: the open columns all lead to the one that is visited. *)
Lemma visit_all_Err (f : string → gmap string Visit → result (gmap string Visit)) inputs state e :
  visit_all f inputs state = Err e → sound state →
  (∀ c st st', sound st → f c st = Ok st' → extends st st' ∧ st' !! c = Some Done) →
  ∃ c st, c ∈ inputs ∧ extends state st ∧ f c st = Err e.
Proof.
  intros He Hs Hf. revert state He Hs; induction inputs as [|c inputs IH]; intros state; cbn [visit_all];
    [done|]. intros He Hs. destruct (f c state) as [st|e'|] eqn:Hc; run_ok; [|injection He as <-|done].
  - destruct (Hf c state st Hs Hc) as [Hex _]. destruct (IH st He (proj1 Hex)) as (c' & st' & ? & ? & ?).
    exists c', st'. split; [by apply list_elem_of_further|]. split; [by eapply extends_trans|done].
  - exists c, state. split; [apply list_elem_of_here|]. split; [by apply finished_extends_refl|done].
Qed.

Lemma visit_Err fuel : ∀ c state e, sound state →
  (∀ o, o ∈ opens state → tc reads_edge o c) → visit fuel reads c state = Err e →
  ∃ x, tc reads_edge x x.
Proof.
  induction fuel as [|fuel IH]; intros c state e Hs Ho; [done|]. cbn [visit].
  destruct (state !! c) as [[|]|] eqn:Hc; [|done|].
  { intros _. exists c. apply Ho. by apply elem_of_opens. }
  destruct (visit_all _ _ _) as [st|e'|] eqn:Hv; run_ok; [done| |done]. intros [= ->].
  assert (sound (<[c:=Open]> state)) as Hs'.
  { intros c' [[_ ?]|[_ ?]]%lookup_insert_Some; [done|by apply Hs]. }
  destruct (visit_all_Err _ _ _ _ Hv Hs' (visit_extends fuel)) as (b & st & Hb & (Hsst & Hop & _) & He).
  eapply (IH b st e Hsst); [|exact He]. intros o. rewrite Hop, elem_of_opens.
  intros [[<- _]|[_ Hl]]%lookup_insert_Some; [by apply tc_once|].
  eapply tc_r; [apply Ho; by apply elem_of_opens|done].
Qed.

(** ** Enough fuel *)
Lemma size_list_to_set_le (l : list string) : (size (list_to_set l : gset string) ≤ length l)%nat.
Proof.
  induction l as [|x l IH]; [done|]. rewrite list_to_set_cons, size_union_alt, size_singleton.
  cbn [length]. etransitivity; [|apply le_n_S, IH]. apply le_n_S, subseteq_size. set_solver.
Qed.

Lemma visit_all_Panic (f : string → gmap string Visit → result (gmap string Visit)) inputs state :
  visit_all f inputs state = Panic → sound state →
  (∀ c st st', sound st → f c st = Ok st' → extends st st' ∧ st' !! c = Some Done) →
  ∃ c st, c ∈ inputs ∧ extends state st ∧ f c st = Panic.
Proof.
  intros He Hs Hf. revert state He Hs; induction inputs as [|c inputs IH]; intros state; cbn [visit_all];
    [done|]. intros He Hs. destruct (f c state) as [st|e'|] eqn:Hc; run_ok; [|done|].
  - destruct (Hf c state st Hs Hc) as [Hex _]. destruct (IH st He (proj1 Hex)) as (c' & st' & ? & ? & ?).
    exists c', st'. split; [by apply list_elem_of_further|]. split; [by eapply extends_trans|done].
  - exists c, state. split; [apply list_elem_of_here|]. split; [by apply finished_extends_refl|done].
Qed.

Lemma visit_no_Panic columns fuel : ∀ c state,
  (∀ a b, reads_edge a b → b ∈ columns) → sound state →
  opens state ⊆ list_to_set columns → c ∈ columns →
  (length columns < fuel + size (opens state))%nat → visit fuel reads c state ≠ Panic.
Proof.
  induction fuel as [|fuel IH]; intros c state Hr Hs Ho Hc Hf.
  { apply subseteq_size in Ho. pose proof (size_list_to_set_le columns). lia. }
  cbn [visit]. destruct (state !! c) as [[|]|] eqn:Hl; [done..|].
  destruct (visit_all _ _ _) as [st|e|] eqn:Hv; run_ok; [done..|]. intros _.
  assert (sound (<[c:=Open]> state)) as Hs'.
  { intros c' [[_ ?]|[_ ?]]%lookup_insert_Some; [done|by apply Hs]. }
  destruct (visit_all_Panic _ _ _ Hv Hs' (visit_extends fuel)) as (b & st & Hb & (Hsst & Hop & _) & Hp).
  assert (opens (<[c:=Open]> state) = {[c]} ∪ opens state) as Hnew.
  { apply set_eq. intros x. rewrite elem_of_union, elem_of_singleton, !elem_of_opens.
    destruct (decide (x = c)) as [->|]; [rewrite lookup_insert_eq|rewrite lookup_insert_ne by done];
      naive_solver. }
  assert (c ∉ opens state) by (rewrite elem_of_opens; congruence).
  revert Hp. apply IH; [done|done| |by eapply Hr|].
  - rewrite Hop, Hnew. intros x [->%elem_of_singleton|Hx]%elem_of_union; [by apply elem_of_list_to_set|].
    by apply Ho.
  - rewrite Hop, Hnew, size_union, size_singleton by (apply disjoint_singleton_l; done). lia.
Qed.
End search.

Lemma Acc_no_cycle {A} (R : A → A → Prop) x : Acc (flip R) x → ¬ tc R x x.
Proof.
  intros Hx Hc. assert (Acc (flip (tc R)) x) as Ht.
  { clear Hc. induction Hx as [x _ IH]. constructor. intros y Hy. revert IH.
    destruct Hy as [x y Hy|x y z Hy Hyz]; intros IH; [by apply IH|].
    exact (Acc_inv (IH y Hy) Hyz). }
  induction Ht as [x _ IH]. by apply (IH x).
Qed.

Lemma tc_impl {A} (R R' : A → A → Prop) a b :
  (∀ x y, R x y → R' x y) → tc R a b → tc R' a b.
Proof. intros Hr. induction 1; [by apply tc_once, Hr|eapply tc_l; [by apply Hr|done]]. Qed.

Lemma lookup_reads_of columns bindings c :
  NoDup (map name columns) → c ∈ columns →
  reads_of columns bindings !! name c =
    Some (read_roots (map name columns) (paths_of bindings c)).
Proof.
  intros Hnd Hc. unfold reads_of. apply elem_of_list_to_map.
  - rewrite fmap_reverse, reverse_Permutation, <-list_fmap_compose. exact Hnd.
  - apply elem_of_reverse, (list_elem_of_fmap_2 (λ c,
      (name c, read_roots (map name columns) (paths_of bindings c)))). done.
Qed.

Lemma reads_of_keys columns bindings a rs :
  reads_of columns bindings !! a = Some rs → ∃ c, c ∈ columns ∧ name c = a ∧
    rs = read_roots (map name columns) (paths_of bindings c).
Proof.
  intros Ha%elem_of_list_to_map_2. rewrite elem_of_reverse in Ha.
  apply list_elem_of_fmap in Ha as (c & [= -> ->] & Hc). eauto.
Qed.

Lemma elem_of_read_roots r declared paths :
  r ∈ read_roots declared paths ↔ r ∈ declared ∧ r ∈ map root paths.
Proof.
  unfold read_roots. rewrite elem_of_dedup, (merge_sort_Permutation str_le), list_elem_of_filter. done.
Qed.

(** [reads_column columns bindings a b]: the computed column [a] reads [b]. *)
Definition reads_column (columns : list ComputedColumn) (bindings : list FunctionBinding)
    (a b : string) : Prop :=
  ∃ c, c ∈ columns ∧ name c = a ∧ b ∈ map name columns ∧ b ∈ map root (paths_of bindings c).

Lemma reads_edge_iff columns bindings a b : NoDup (map name columns) →
  reads_edge (reads_of columns bindings) a b ↔ reads_column columns bindings a b.
Proof.
  intros Hnd. unfold reads_edge, reads_column. split.
  - destruct (reads_of columns bindings !! a) as [rs|] eqn:Ha; [|by inversion 1].
    destruct (reads_of_keys _ _ _ _ Ha) as (c & Hc & Hn & ->). cbn [default from_option id].
    intros [? ?]%elem_of_read_roots. by exists c.
  - intros (c & Hc & <- & ? & ?). rewrite (lookup_reads_of columns bindings c Hnd Hc).
    cbn. by apply elem_of_read_roots.
Qed.

(** * Properties *)

(** C20: The check on what computed columns read ends with a verdict on every schema whose
    columns have distinct names, and accepts it exactly when no computed column reads
    itself, directly or through others. *)
Theorem acyclic_check_decides (schema : ArrowSchema) (bindings : list FunctionBinding)
    (Hnames : NoDup (map name (computed_columns schema))) :
  ensure_computed_inputs_acyclic schema bindings ≠ Panic ∧
  (is_ok (ensure_computed_inputs_acyclic schema bindings) = true ↔
   ∀ c, ¬ tc (reads_column (computed_columns schema) bindings) c c).
Proof.
  set (columns := computed_columns schema) in *.
  set (reads := reads_of columns bindings).
  assert (∀ a b, reads_edge reads a b ↔ reads_column columns bindings a b) as Hedge
    by (intros a b; by apply reads_edge_iff).
  assert (∀ a b, tc (reads_edge reads) a b ↔ tc (reads_column columns bindings) a b) as Htc.
  { intros a b; split; apply tc_impl; intros ? ?; apply Hedge. }
  assert (sound reads ∅) as Hs by (intros c; by rewrite lookup_empty).
  assert (opens ∅ = ∅) as Ho.
  { apply set_eq. intros x. rewrite elem_of_opens, lookup_empty. set_solver. }
  unfold ensure_computed_inputs_acyclic, visit_columns. fold columns reads.
  destruct (visit_all _ (map name columns) ∅) as [st|e|] eqn:Hv; run_ok.
  - split; [done|]. split; [|done]. intros _ c Hc.
    destruct (visit_all_extends reads _ _ _ _ (visit_extends reads _) Hs Hv) as [(Hsound & _) Hdone].
    assert (∃ b, reads_column columns bindings c b) as (b & x & Hx & Hn & _)
      by (inversion Hc; subst; eauto).
    apply (proj2 (Htc c c)) in Hc. eapply Acc_no_cycle; [|exact Hc]. apply Hsound, Hdone.
    subst c. by apply (list_elem_of_fmap_2 name).
  - split; [done|]. split; [done|]. intros Hno. exfalso.
    destruct (visit_all_Err reads _ _ _ _ Hv Hs (visit_extends reads _)) as (b & st & _ & (Hss & Hop & _) & He).
    destruct (visit_Err reads (S (length (map name columns))) b st e Hss) as [x Hx];
      [by rewrite Hop, Ho; set_solver|done|].
    apply (Hno x). by apply Htc.
  - exfalso.
    destruct (visit_all_Panic reads _ _ _ Hv Hs (visit_extends reads _)) as (b & st & Hb & (Hss & Hop & _) & Hp).
    revert Hp. apply (visit_no_Panic reads (map name columns)); [|done| |done|].
    + intros a c (x & _ & _ & Hc & _)%Hedge. exact Hc.
    + rewrite Hop, Ho. set_solver.
    + rewrite Hop, Ho, size_empty, length_map. lia.
Qed.

End planner.

(** A planner whose expressions are column names *)
Module Demo.
#[global] Instance planner : Planner := {
  Physical := DataType;
  parse_field_path p := Ok [p];
  format_field_path_minimal l := join "."%char l;
  resolve_case_insensitive s p := ok_or (Runtime "no field") (field_with_name s p);
  parse_inputs s := Some [s];
  print_inputs l := join ","%char l;
  is_blob_v2 _ := false;
  BLOB_V2_DESC_FIELD := mkField "" TLargeBinary true ∅;
  parse_expr s e := match field_with_name s e with Some _ => Ok (Column e) | None => Err "no column" end;
  column_names_in_expr x := match x with Column p => [p] | _ => [] end;
  optimize_expr _ x := Ok x;
  create_physical_expr s x :=
    match x with
    | Column p => ok_or "no column" (field_type <$> field_with_name s p)
    | _ => Err "no plan"
    end;
  physical_type t _ := Ok t
}.
Definition computed (n e : string) : Field :=
  mkField n (TOther "int") true (computed_column_metadata e [e]).
(** Two columns that read each other *)
Definition cyclic : ArrowSchema := mkSchema [computed "a" "b"; computed "b" "a"] ∅.
End Demo.

Lemma acyclic_check_decides_witness :
  map name (computed_columns Demo.cyclic) = ["a"; "b"] ∧
  is_ok (ensure_computed_inputs_acyclic Demo.cyclic []) = false ∧
  ¬ ∀ c, ¬ tc (reads_column (computed_columns Demo.cyclic) []) c c.
Proof.
  split; [vm_compute; reflexivity|]. split; [vm_compute; reflexivity|].
  assert (NoDup (map name (computed_columns Demo.cyclic))) as Hnd
    by (apply (bool_decide_unpack _); vm_compute; reflexivity).
  intros Hno. pose proof (acyclic_check_decides Demo.cyclic [] Hnd) as [_ Hiff].
  apply (proj2 Hiff) in Hno. vm_compute in Hno. discriminate.
Defined.
End ComputedColumns.
