(* ===== verification/SchemaChanges.v ===== *)
(** * Schema changes (table/schema_evolution.rs)

    Adding, declaring, altering and dropping columns and editing field
    metadata, and what these operations keep true of the computed columns of
    a table.  The dataset's own operations on a schema are the class
    [LanceSchema]; [SchemaLaws] says what they do to the fields. *)

From Stdlib Require Import Ascii String.
From stdpp Require Import strings sorting.
From S2P Require Import Prelude RustStr RustText ComputedColumns.

Module SchemaChanges.
Import ComputedColumns.
Local Open Scope string_scope.

(** ** Requests *)
Inductive NewColumnTransform : Type :=
  | SqlExpressions (expressions : list (string * string))
  | AllNulls (schema : list Field)
  | BatchUDF (output_schema : list Field)
  | StreamOf (schema : list Field)
  | ReaderOf (schema : list Field).
Record ColumnAlteration : Type := mkAlteration {
  alter_path : string;
  rename : option string;
  alter_nullable : option bool;
  alter_type : option DataType
}.
Record FieldMetadataUpdate : Type := mkUpdate {
  update_path : string;
  update_metadata : gmap string (option string);
  replace : bool
}.

(** [FieldMetadataUpdate::new], [set], [remove] and [replace] *)
Definition update_new (path : string) : FieldMetadataUpdate := mkUpdate path ∅ false.
Definition update_set (key value : string) (u : FieldMetadataUpdate) : FieldMetadataUpdate :=
  mkUpdate (update_path u) (<[key := Some value]> (update_metadata u)) (replace u).
Definition update_remove (key : string) (u : FieldMetadataUpdate) : FieldMetadataUpdate :=
  mkUpdate (update_path u) (<[key := None]> (update_metadata u)) (replace u).
Definition update_replace (u : FieldMetadataUpdate) : FieldMetadataUpdate :=
  mkUpdate (update_path u) (update_metadata u) true.

Class LanceSchema : Type := {
  add_columns : ArrowSchema → NewColumnTransform → result ArrowSchema;
  alter_columns : ArrowSchema → list ColumnAlteration → result ArrowSchema;
  plan_drop_columns : ArrowSchema → list string → result unit;
  drop_columns : ArrowSchema → list string → result ArrowSchema;
  update_config : ArrowSchema → option string → list (string * list string) → result ArrowSchema;
  update_field_metadata : ArrowSchema → list FieldMetadataUpdate → result ArrowSchema
}.

(** What the operations read of a table: whether the handle may write, and
    what is left of an LSM write spec. *)
Record Table : Type := mkTable {
  mutable : result unit;
  retained_sstables : result bool;
  has_memwal_spec : result bool;
  schema : ArrowSchema
}.

Definition DEFINITION_META_KEY : string := "mv.definition".

Section ops.
Context {P : Planner} {BC : BindingChecks} {LS : LanceSchema}.

Definition is_view (s : ArrowSchema) : bool :=
  bool_decide (is_Some (schema_metadata s !! DEFINITION_META_KEY)).
Definition ensure_not_a_view (s : ArrowSchema) : result unit :=
  if is_view s
  then Err (NotSupported "cannot {operation} '{name}': it is a materialized view, which only refresh writes")
  else Ok tt.

Definition ensure_only_computed_columns_of_a_view (s : ArrowSchema) (paths : list string)
    : result unit :=
  if negb (is_view s) then Ok tt
  else if forallb (λ path, mem path (map name (computed_columns s))) paths then Ok tt
  else ensure_not_a_view s.

(** ** Adding *)
Definition new_column_names (transforms : NewColumnTransform) : list string :=
  match transforms with
  | SqlExpressions expressions => map fst expressions
  | AllNulls fs | BatchUDF fs | StreamOf fs | ReaderOf fs => map field_name fs
  end.
Definition commit_add_columns (t : Table) (transforms : NewColumnTransform) : result ArrowSchema :=
  _ ← mutable t; add_columns (schema t) transforms.
Definition execute_add_columns (t : Table) (transforms : NewColumnTransform) : result ArrowSchema :=
  _ ← ensure_not_a_view (schema t);
  _ ← ensure_not_function_bound (schema t) (new_column_names transforms);
  _ ← match transforms with
      | AllNulls fs | BatchUDF fs => ensure_no_foreign_declarations fs
      | _ => Ok tt
      end;
  commit_add_columns t transforms.

(** [t]: the table after its latest version was checked out *)
Definition execute_declare (t : Table) (columns : list (string * string)) : result ArrowSchema :=
  _ ← ensure_not_function_bound (schema t) (map fst columns);
  retained ← retained_sstables t;
  spec ← (if (retained : bool) then Ok true else has_memwal_spec t);
  if (spec : bool)
  then Err (NotSupported "computed columns are not supported on a table with an LSM write spec: rows in un-compacted tiers are invisible to refresh")
  else
    fs ← plan_declarations (schema t) columns;
    commit_add_columns t (AllNulls fs).

(** ** Altering *)
Definition rebinds (a : ColumnAlteration) : bool :=
  match rename a, alter_type a with None, None => false | _, _ => true end.
Definition retypes (a : ColumnAlteration) : bool :=
  match alter_type a with None => false | _ => true end.

Definition execute_alter_columns (t : Table) (alterations : list ColumnAlteration)
    : result ArrowSchema :=
  let s := schema t in
  _ ← mutable t;
  _ ← ensure_only_computed_columns_of_a_view s (map alter_path alterations);
  _ ← ensure_not_function_bound s
        (mjoin (map (λ a, alter_path a :: option_list (rename a)) alterations));
  _ ← ensure_not_an_input s (map alter_path (List.filter rebinds alterations));
  _ ← ensure_not_retyped s (map alter_path (List.filter retypes alterations));
  alter_columns s alterations.

(** ** Dropping *)
Definition cleared_keys (s : ArrowSchema) (column : string) : result (string * list string) :=
  f ← ok_or (InvalidInput "Function output '{column}' does not exist in the table")
        (field_with_name s column);
  Ok (column, List.filter is_declaration_key (map fst (map_to_list (field_metadata f)))).
Definition commit_function_unbinding (s : ArrowSchema) (unbinding : FunctionUnbinding)
    : result ArrowSchema :=
  updates ← try_map (cleared_keys s) (cleared_columns unbinding);
  update_config s (bindings_metadata unbinding) updates.

Definition execute_drop_columns (t : Table) (columns : list string) : result ArrowSchema :=
  let s := schema t in
  _ ← mutable t;
  _ ← ensure_only_computed_columns_of_a_view s columns;
  unbinding ← plan_function_unbinding s columns;
  let dropped := (columns ++ assignment_columns unbinding)%list in
  _ ← ensure_not_bound_by (retained unbinding) dropped;
  _ ← ensure_not_an_input_of s dropped dropped;
  s ← (if is_noop unbinding then Ok s
       else _ ← plan_drop_columns s dropped; commit_function_unbinding s unbinding);
  drop_columns s dropped.

(** ** Field metadata *)
Fixpoint check_updates (declared : list string) (updates : list FieldMetadataUpdate) : result unit :=
  match updates with
  | [] => Ok tt
  | u :: updates =>
      if existsb is_declaration_key (map fst (map_to_list (update_metadata u)))
      then Err (InvalidInput "metadata keys of a computed-column declaration cannot be edited (path '{}'); drop the column and declare it again")
      else if replace u && mem (root (update_path u)) declared
      then Err (InvalidInput "replacing all metadata of computed column '{}' would erase its declaration; drop the column and declare it again")
      else check_updates declared updates
  end.
Definition execute_update_field_metadata (t : Table) (updates : list FieldMetadataUpdate)
    : result ArrowSchema :=
  let s := schema t in
  _ ← mutable t;
  _ ← ensure_not_function_bound s (map update_path updates);
  _ ← check_updates (map name (computed_columns s)) updates;
  update_field_metadata s updates.

(** Whether the field, or a field anywhere inside it, is a Blob v2 *)
Fixpoint has_blob (f : Field) : bool :=
  is_blob_v2 f ||
  match field_type f with
  | TStruct cs => existsb has_blob cs
  | TList c | TListView c | TLargeList c | TLargeListView c | TFixedSizeList c _ | TMap c _ => has_blob c
  | TUnion vs _ => existsb (λ v : Z * Field, let '(_, c) := v in has_blob c) vs
  | TRunEndEncoded a b => has_blob a || has_blob b
  | TDictionary _ _ | TNull | TLargeBinary | TOther _ => false
  end.
Definition blob_free (s : ArrowSchema) : Prop := Forall (λ f, has_blob f = false) (fields s).

(** The operations in any order, by any callers, while the schema has no Blob v2
    column.  The fields of a stream or reader carry no declaration: the code does
    not check that, see [streamed_declaration_breaks]. *)
Definition undeclared (f : Field) : Prop :=
  ∀ k, is_declaration_key k = true → field_metadata f !! k = None.
Definition checked_transform (t : NewColumnTransform) : Prop :=
  match t with StreamOf fs | ReaderOf fs => Forall undeclared fs | _ => True end.
Inductive evolves (t : Table) : ArrowSchema → Prop :=
  | by_add transforms s' : checked_transform transforms →
      execute_add_columns t transforms = Ok s' → evolves t s'
  | by_declare columns s' : execute_declare t columns = Ok s' → evolves t s'
  | by_alter alterations s' : execute_alter_columns t alterations = Ok s' → evolves t s'
  | by_drop columns s' : execute_drop_columns t columns = Ok s' → evolves t s'
  | by_metadata updates s' : execute_update_field_metadata t updates = Ok s' → evolves t s'.
Inductive schema_step (s : ArrowSchema) : ArrowSchema → Prop :=
  | schema_step_intro t s' : schema t = s → evolves t s' → blob_free s' → schema_step s s'.

(** ** What an expression depends on *)

(** A field without nullability and metadata, all the way down *)
Fixpoint erase (f : Field) : Field :=
  match f with
  | mkField n t _ _ =>
      mkField n
        match t with
        | TStruct cs => TStruct (List.map erase cs)
        | TList c => TList (erase c)
        | TListView c => TListView (erase c)
        | TLargeList c => TLargeList (erase c)
        | TLargeListView c => TLargeListView (erase c)
        | TFixedSizeList c size => TFixedSizeList (erase c) size
        | TMap c sorted => TMap (erase c) sorted
        | TUnion vs dense => TUnion (List.map (λ v : Z * Field, let '(i, c) := v in (i, erase c)) vs) dense
        | TRunEndEncoded a b => TRunEndEncoded (erase a) (erase b)
        | TDictionary _ _ | TNull | TLargeBinary | TOther _ => t
        end true ∅
  end.
Definition shape (t : DataType) : DataType := field_type (erase (mkField "" t true ∅)).
Definition shape_of (s : ArrowSchema) (n : string) : option DataType :=
  (λ f, shape (field_type f)) <$> field_with_name s n.

(** The schemas agree on the columns that an expression names. *)
Definition agree (x : Expr) (s s' : ArrowSchema) : Prop :=
  ∀ i, i ∈ column_names_in_expr x → shape_of s (root i) = shape_of s' (root i).

Definition well_named (s : ArrowSchema) : Prop :=
  NoDup (names s) ∧ ∀ n, n ∈ names s → root n = n ∧ whole_column n = Ok (Some n).
Definition plain (s : ArrowSchema) : Prop := well_named s ∧ blob_free s.

(** A path resolves to a field of the schema or inside one; DataFusion resolves
    an expression against the columns it names only, and nullability and
    metadata change neither whether it compiles nor its type. *)
Class PlannerLaws : Prop := {
  resolve_inside : ∀ s path f, resolve_case_insensitive s path = Ok f → blob_free s →
    is_blob_v2 f = false;
  parse_local : ∀ s s' e x, parse_expr s e = Ok x → agree x s s' → parse_expr s' e = Ok x;
  resolve_local : ∀ s s' x path f, column_names_in_expr x = [path] → agree x s s' →
    resolve_case_insensitive s path = Ok f → ∃ f', resolve_case_insensitive s' path = Ok f';
  compile_local : ∀ s s' r r' x o p t, agree x s s' → (∀ n, shape_of r n = shape_of r' n) →
    optimize_expr s x = Ok o → create_physical_expr r o = Ok p → physical_type p r = Ok t →
    ∃ o' p' t', optimize_expr s' x = Ok o' ∧ create_physical_expr r' o' = Ok p' ∧
      physical_type p' r' = Ok t' ∧ shape t' = shape t
}.

Definition same_field (f g : Field) : Prop :=
  field_name g = field_name f ∧ shape (field_type g) = shape (field_type f) ∧
  field_metadata g = field_metadata f ∧ has_blob g = has_blob f.
Definition is_rebound (alterations : list ColumnAlteration) (f : Field) : Prop :=
  ∃ a, a ∈ alterations ∧ rebinds a = true ∧ root (alter_path a) = field_name f.
Definition is_retyped (alterations : list ColumnAlteration) (f : Field) : Prop :=
  ∃ a, a ∈ alterations ∧ retypes a = true ∧ root (alter_path a) = field_name f.
Definition altered (alterations : list ColumnAlteration) (f g : Field) : Prop :=
  (¬ is_rebound alterations f → field_name g = field_name f) ∧
  (¬ is_retyped alterations f → shape (field_type g) = shape (field_type f)) ∧
  (field_metadata g = field_metadata f ∨ field_metadata g = ∅).
Definition keys_kept (updates : list FieldMetadataUpdate) (f g : Field) : Prop :=
  field_name g = field_name f ∧ shape (field_type g) = shape (field_type f) ∧
  ∀ k, (∀ u, u ∈ updates → update_metadata u !! k = None) →
    field_metadata g !! k = field_metadata f !! k ∨ field_metadata g !! k = None.
Definition cleared (updates : list (string * list string)) (f g : Field) : Prop :=
  field_name g = field_name f ∧ shape (field_type g) = shape (field_type f) ∧
  ∀ k, field_metadata g !! k = field_metadata f !! k ∨ field_metadata g !! k = None.
Definition transform_fields (t : NewColumnTransform) (new : list Field) : Prop :=
  match t with
  | AllNulls fs | BatchUDF fs | StreamOf fs | ReaderOf fs => Forall2 same_field fs new
  | SqlExpressions _ => Forall (λ g, field_metadata g = ∅) new
  end.

(** What lance's operations do to the fields of a schema. *)
Class SchemaLaws : Prop := {
  add_law : ∀ s t s', well_named s → add_columns s t = Ok s' →
    well_named s' ∧ ∃ new, fields s' = (fields s ++ new)%list ∧ transform_fields t new;
  alter_law : ∀ s l s', well_named s → alter_columns s l = Ok s' →
    well_named s' ∧ Forall2 (altered l) (fields s) (fields s');
  drop_law : ∀ s paths s', well_named s → drop_columns s paths = Ok s' →
    well_named s' ∧ ∃ d, fields s' = omap d (fields s) ∧
      (∀ f, field_name f ∉ map root paths → d f = Some f) ∧
      (∀ f path, path ∈ paths → whole_column path = Ok (Some (field_name f)) → d f = None) ∧
      ∀ f g, d f = Some g → field_name g = field_name f ∧ field_metadata g = field_metadata f;
  config_law : ∀ s m l s', well_named s → update_config s m l = Ok s' →
    well_named s' ∧ Forall2 (cleared l) (fields s) (fields s');
  metadata_law : ∀ s l s', well_named s → update_field_metadata s l = Ok s' →
    well_named s' ∧ Forall2 (keys_kept l) (fields s) (fields s')
}.

(** Every SQL declaration of the schema binds, to a type of the column's
    shape, and does not read its own column. *)
Definition evaluable_field (s : ArrowSchema) (f : Field) : Prop :=
  ∀ c e, computed_column_from_field f = Some c → kind c = Sql e →
    ∃ b, bind s (field_name f) e = Ok b ∧ shape (data_type b) = shape (field_type f) ∧
      field_name f ∉ map root (bound_inputs b).
Definition evaluable (s : ArrowSchema) : Prop :=
  plain s ∧ ∀ f, f ∈ fields s → evaluable_field s f.
End ops.

(** * Lemmas *)
Section laws.
Context {P : Planner} {BC : BindingChecks} {LS : LanceSchema} {PL : PlannerLaws}.

Lemma transform_id : ∀ f parent m, has_blob f = false → transform_blob_field f parent m = f.
Proof.
  fix IH 1. intros [n t nullable metadata] parent m. cbn [has_blob transform_blob_field field_type].
  intros [-> Hin]%orb_false_iff.
  destruct t as [cs| | | | | | | | | | | |]; rewrite ?IH; try done.
  do 2 f_equal. revert Hin. generalize (parent ++ [n])%list as path. intros path.
  induction cs as [|c cs IHcs]; [done|]. cbn [existsb]. intros [Hc Hcs]%orb_false_iff.
  by rewrite IH, IHcs.
Qed.
Lemma runtime_id s m : blob_free s → blob_runtime_schema s m = s.
Proof.
  unfold blob_runtime_schema, blob_free. destruct s as [fs md]. cbn [fields schema_metadata]. intros Hb.
  f_equal. induction Hb as [|f fs Hf _ IH]; [done|]. cbn [map]. by rewrite transform_id, IH.
Qed.
Lemma blob_free_sub s s' : (∀ f, f ∈ fields s' → f ∈ fields s) → blob_free s → blob_free s'.
Proof. unfold blob_free. rewrite !Forall_forall. auto. Qed.
Lemma project_blob_free s idx : blob_free s → blob_free (project s idx).
Proof.
  apply blob_free_sub. cbn [project fields]. intros f (i & _ & Hf)%list_elem_of_omap.
  by eapply list_elem_of_lookup_2.
Qed.

(** ** Looking fields up *)
Lemma same_name s f g : NoDup (names s) → f ∈ fields s → g ∈ fields s →
  field_name f = field_name g → f = g.
Proof.
  intros Hnd [i Hi]%list_elem_of_lookup [j Hj]%list_elem_of_lookup Heq.
  assert (i = j) as ->; [|congruence].
  apply (NoDup_lookup (field_name <$> fields s) i j (field_name f)); [exact Hnd| |];
    rewrite list_lookup_fmap, ?Hi, ?Hj; simpl; congruence.
Qed.
Lemma shape_of_in s f : NoDup (names s) → f ∈ fields s →
  shape_of s (field_name f) = Some (shape (field_type f)).
Proof. intros Hnd Hf. unfold shape_of. by rewrite field_with_name_in. Qed.

(** ** The columns a bound expression reads *)
Lemma index_of_Some s n i : index_of s n = Some i → ∃ f, fields s !! i = Some f ∧ field_name f = n.
Proof.
  unfold index_of. destruct (list_find _ _) as [[j f]|] eqn:Hf; [|done]. intros [= <-].
  apply list_find_Some in Hf as (? & ? & _). by exists f.
Qed.
Lemma index_of_in s n : n ∈ names s → is_Some (index_of s n).
Proof.
  intros (f & -> & Hf)%list_elem_of_fmap. unfold index_of. rewrite fmap_is_Some.
  by apply (list_find_elem_of _ _ f).
Qed.

Lemma input_indices_Ok invalid s inputs acc idx :
  input_indices invalid s inputs acc = Ok idx →
  (∀ i, i ∈ inputs → root i ∈ names s) ∧
  ∀ j, j ∈ idx ↔ j ∈ acc ∨ ∃ i, i ∈ inputs ∧ index_of s (root i) = Some j.
Proof.
  revert acc; induction inputs as [|i inputs IH]; intros acc; cbn [input_indices].
  { intros [= <-]. split; [by intros i ?%not_elem_of_nil|]. intros j. split; [auto|].
    intros [?|(i & ?%not_elem_of_nil & _)]; done. }
  intros (j0 & Hj0 & Hr)%bind_Ok. apply ok_or_Ok in Hj0. destruct (IH _ Hr) as [Hin Hiff]. split.
  - intros i' [->|?]%elem_of_cons; [|by apply Hin].
    destruct (index_of_Some _ _ _ Hj0) as (f & Hf & <-).
    apply (list_elem_of_fmap_2 field_name). by eapply list_elem_of_lookup_2.
  - intros j. rewrite Hiff. assert (∀ a, a ∈ (if bool_decide (j0 ∈ acc) then acc else acc ++ [j0])%list ↔
      a ∈ acc ∨ a = j0) as Hacc.
    { intros a. case_bool_decide; [naive_solver|]. by rewrite elem_of_app, list_elem_of_singleton. }
    rewrite Hacc. setoid_rewrite elem_of_cons. naive_solver.
Qed.
Lemma input_indices_total invalid s inputs acc :
  (∀ i, i ∈ inputs → root i ∈ names s) → ∃ idx, input_indices invalid s inputs acc = Ok idx.
Proof.
  revert acc; induction inputs as [|i inputs IH]; intros acc Hin; cbn [input_indices]; [by eexists|].
  destruct (index_of_in s (root i)) as [j ->]; [apply Hin, list_elem_of_here|]. run_ok.
  apply IH. intros i' Hi'. apply Hin. by apply list_elem_of_further.
Qed.

(** The schema that evaluation reads has the columns the inputs name. *)
Lemma shape_of_project s inputs idx n : NoDup (names s) →
  input_indices (InvalidExpression "") s inputs [] = Ok idx →
  shape_of (project s (merge_sort le idx)) n =
    if decide (n ∈ map root inputs) then shape_of s n else None.
Proof.
  intros Hnd Hidx. destruct (input_indices_Ok _ _ _ _ _ Hidx) as [Hin Hiff].
  assert (∀ f, f ∈ fields (project s (merge_sort le idx)) ↔
    f ∈ fields s ∧ field_name f ∈ map root inputs) as Hf.
  { intros f. cbn [project fields]. rewrite list_elem_of_omap.
    setoid_rewrite (merge_sort_Permutation le idx). split.
    - intros (j & Hj & Hl). split; [by eapply list_elem_of_lookup_2|].
      apply Hiff in Hj as [?%not_elem_of_nil|(i & Hi & Hio)]; [done|].
      destruct (index_of_Some _ _ _ Hio) as (f' & Hf' & Hn).
      assert (f = f') as -> by congruence. rewrite Hn. by apply (list_elem_of_fmap_2 root).
    - intros [Hfs (i & Hn & Hi)%list_elem_of_fmap].
      destruct (index_of_in s (root i)) as [j Hj]; [by apply Hin|].
      destruct (index_of_Some _ _ _ Hj) as (f' & Hf' & Hn').
      exists j. split; [apply Hiff; right; eauto|].
      rewrite Hf'. f_equal. apply (same_name s); [done|by eapply list_elem_of_lookup_2|done|congruence]. }
  unfold shape_of at 1. destruct (field_with_name _ n) as [f|] eqn:Hfn.
  - apply field_with_name_Some in Hfn as [[Hfs Hr]%Hf <-]. rewrite decide_True by done.
    by rewrite shape_of_in.
  - apply field_with_name_None in Hfn. destruct (decide (n ∈ map root inputs)) as [Hn|]; [|done].
    unfold shape_of. destruct (field_with_name s n) as [f|] eqn:Hs; [|done]. exfalso.
    apply field_with_name_Some in Hs as [Hs <-]. apply Hfn.
    apply (list_elem_of_fmap_2 field_name). by apply Hf.
Qed.
Lemma input_indices_invalid inv inv' s inputs acc idx :
  input_indices inv s inputs acc = Ok idx → input_indices inv' s inputs acc = Ok idx.
Proof.
  revert acc; induction inputs as [|i inputs IH]; intros acc; cbn [input_indices]; [done|].
  destruct (index_of s (root i)); [|done]. run_ok. apply IH.
Qed.

(** ** Binding in another schema *)
Lemma elem_of_sorted_inputs i x : i ∈ sorted_inputs x ↔ i ∈ column_names_in_expr x.
Proof. unfold sorted_inputs. by rewrite elem_of_dedup, (merge_sort_Permutation str_le). Qed.

Lemma bind_inv s c e b : blob_free s → bind s c e = Ok b → ∃ x, parse_expr s e = Ok x ∧
  bound_inputs b = sorted_inputs x ∧ ∀ i, i ∈ column_names_in_expr x → root i ∈ names s.
Proof.
  intros Hbf. unfold bind. rewrite !runtime_id by done. intros (x & Hx%map_err_Ok & Hb)%bind_Ok.
  exists x. split; [done|].
  apply bind_Ok in Hb as (pr & _ & Hb). destruct (first_volatile x); [done|].
  apply bind_Ok in Hb as (blobs & _ & Hb). rewrite !runtime_id in Hb by done.
  apply bind_Ok in Hb as (idx & Hidx & Hb). apply bind_Ok in Hb as (o & _ & Hb).
  apply bind_Ok in Hb as (p & _ & Hb). apply bind_Ok in Hb as (t & _ & [= <-]). split; [done|].
  intros i Hi%elem_of_sorted_inputs. by apply (input_indices_Ok _ _ _ _ _ Hidx).
Qed.

Lemma names_agree x s s' i : agree x s s' → i ∈ column_names_in_expr x → NoDup (names s) →
  root i ∈ names s → root i ∈ names s'.
Proof.
  intros Ha Hi Hnd (f & Hf & Hin)%list_elem_of_fmap. specialize (Ha i Hi).
  rewrite Hf, (shape_of_in s f Hnd Hin) in Ha. rewrite Hf. unfold shape_of in Ha.
  destruct (field_with_name s' (field_name f)) as [g|] eqn:Hg; [|done].
  apply field_with_name_Some in Hg as [Hg <-]. by apply (list_elem_of_fmap_2 field_name).
Qed.

Lemma bind_agree s s' c c' e x b : NoDup (names s) → NoDup (names s') → blob_free s → blob_free s' →
  bind s c e = Ok b → parse_expr s e = Ok x → agree x s s' →
  ∃ b', bind s' c' e = Ok b' ∧ shape (data_type b') = shape (data_type b) ∧
    bound_inputs b' = bound_inputs b.
Proof.
  intros Hnd Hnd' Hbf Hbf' Hb Hx Ha. pose proof (bind_inv _ _ _ _ Hbf Hb) as (x0 & Hx0 & _ & Hroots).
  rewrite Hx in Hx0. injection Hx0 as <-. unfold bind in Hb |- *.
  rewrite !(runtime_id s) in Hb by done. rewrite !(runtime_id s') by done.
  rewrite Hx in Hb. rewrite (parse_local s s' e x Hx Ha). cbn [map_err] in Hb |- *. run_ok.
  apply bind_Ok in Hb as (x1 & [= <-] & Hb). apply bind_Ok in Hb as (pr & Hpr & Hb).
  assert (∃ pr', projected_blob_field s' x = Ok pr') as [pr' ->].
  { unfold projected_blob_field in *. destruct (negb _); [by eexists|].
    destruct (column_names_in_expr x) as [|path [|]] eqn:Hn; [by eexists| |by eexists].
    apply bind_Ok in Hpr as (f & Hf & _). destruct (resolve_local s s' x path f Hn Ha Hf) as [f' ->].
    run_ok. by eexists. }
  run_ok. destruct (first_volatile x); [done|].
  apply bind_Ok in Hb as (blobs & Hbl & Hb). rewrite !(runtime_id s) in Hb by done.
  assert (∃ blobs', referenced_blob_paths s' (sorted_inputs x) = Ok blobs') as [blobs' ->].
  { unfold referenced_blob_paths in *. apply bind_Ok in Hbl as (ps & -> & _). run_ok. by eexists. }
  run_ok. rewrite !(runtime_id s') by done.
  apply bind_Ok in Hb as (idx & Hidx & Hb). apply bind_Ok in Hb as (o & Ho%map_err_Ok & Hb).
  apply bind_Ok in Hb as (p & Hp%map_err_Ok & Hb). apply bind_Ok in Hb as (t & Ht%map_err_Ok & [= <-]).
  destruct (input_indices_total (InvalidExpression c') s' (sorted_inputs x) []) as [idx' Hidx'].
  { intros i Hi%elem_of_sorted_inputs. eapply names_agree; eauto. }
  rewrite Hidx'. run_ok.
  destruct (compile_local s s' (project s (merge_sort le idx)) (project s' (merge_sort le idx')) x o p t)
    as (o' & p' & t' & -> & Hp' & Ht' & Hsh); [done| |done..|].
  { intros n. rewrite (shape_of_project s (sorted_inputs x)), (shape_of_project s' (sorted_inputs x));
      [|done|by eapply input_indices_invalid|done|by eapply input_indices_invalid].
    case_decide as Hn; [|done]. apply list_elem_of_fmap in Hn as (i & -> & Hi%elem_of_sorted_inputs).
    by apply Ha. }
  cbn [map_err]. run_ok. rewrite Hp'. cbn [map_err]. run_ok. rewrite Ht'. cbn [map_err]. run_ok.
  eexists. split; [done|]. done.
Qed.

(** ** Declarations and the metadata that makes them *)
Lemma computed_sql f c e : computed_column_from_field f = Some c → kind c = Sql e →
  name c = field_name f ∧ is_flagged f = true ∧
  field_metadata f !! KIND_META_KEY = Some SQL_KIND ∧ field_metadata f !! EXPRESSION_META_KEY = Some e.
Proof.
  unfold computed_column_from_field. destruct (is_flagged f) eqn:Hf; [|done]. cbn [negb].
  destruct (kind_of (field_metadata f)) as [k|] eqn:Hk; [|done]. cbn. intros [= <-]. cbn. intros ->.
  split; [done|]. split; [done|]. unfold kind_of in Hk.
  destruct (field_metadata f !! KIND_META_KEY) as [v|]; [|done]. cbn [mbind option_bind] in Hk.
  destruct (String.eqb v SQL_KIND) eqn:Hv; [apply String.eqb_eq in Hv as ->|].
  - destruct (field_metadata f !! EXPRESSION_META_KEY); [|done]. split; [done|]. cbn in Hk. congruence.
  - destruct (String.eqb v FUNCTION_KIND); [|done]. unfold function_kind in Hk.
    repeat case_match; congruence.
Qed.
Lemma sql_computed f e : is_flagged f = true → field_metadata f !! KIND_META_KEY = Some SQL_KIND →
  field_metadata f !! EXPRESSION_META_KEY = Some e →
  ∃ c, computed_column_from_field f = Some c ∧ kind c = Sql e ∧ name c = field_name f.
Proof.
  intros Hf Hk He. unfold computed_column_from_field. rewrite Hf. cbn [negb].
  unfold kind_of. rewrite Hk. cbn. rewrite He. cbn. by eexists.
Qed.
(** A field whose keys come from [f]'s declares nothing that [f] does not. *)
Lemma sql_from f g c e :
  (∀ k, is_declaration_key k = true →
     field_metadata g !! k = field_metadata f !! k ∨ field_metadata g !! k = None) →
  computed_column_from_field g = Some c → kind c = Sql e →
  ∃ c', computed_column_from_field f = Some c' ∧ kind c' = Sql e ∧ name c' = field_name f.
Proof.
  intros Hk Hc He. destruct (computed_sql g c e Hc He) as (_ & Hf & Hkind & Hexp).
  apply sql_computed; [|destruct (Hk KIND_META_KEY); [done|congruence..]
                       |destruct (Hk EXPRESSION_META_KEY); [done|congruence..]].
  unfold is_flagged in *. apply bool_decide_eq_true in Hf. apply bool_decide_eq_true.
  destruct (Hk COMPUTED_COLUMN_META_KEY); [done|congruence..].
Qed.

Lemma elem_of_computed s f c : f ∈ fields s → computed_column_from_field f = Some c →
  c ∈ computed_columns s.
Proof. intros Hf Hc. unfold computed_columns. apply list_elem_of_omap. eauto. Qed.

(** How a declaration survives a change: the field comes from [f], and the
    columns its expression reads keep their names and shapes. *)
Lemma evaluable_from s s' f g c e :
  evaluable s → plain s' → f ∈ fields s → g ∈ fields s' →
  computed_column_from_field f = Some c → kind c = Sql e →
  shape (field_type g) = shape (field_type f) →
  (∀ x, parse_expr s e = Ok x → (∀ i, i ∈ column_names_in_expr x →
     root i ∈ names s → root i ≠ field_name f → shape_of s (root i) = shape_of s' (root i) ∧
     root i ≠ field_name g)) →
  ∃ b, bind s' (field_name g) e = Ok b ∧ shape (data_type b) = shape (field_type g) ∧
    field_name g ∉ map root (bound_inputs b).
Proof.
  intros [[Hw Hbf] Hev] [Hw' Hbf'] Hf Hg Hc He Hsh Hx. destruct (Hev f Hf c e Hc He) as (b & Hb & Ht & Hself).
  destruct (bind_inv _ _ _ _ Hbf Hb) as (x & Hp & Hin & Hroots). specialize (Hx x Hp).
  assert (∀ i, i ∈ column_names_in_expr x → root i ≠ field_name f) as Hne.
  { intros i Hi Heq. apply Hself. rewrite <-Heq, Hin.
    apply (list_elem_of_fmap_2 root). by apply elem_of_sorted_inputs. }
  destruct (bind_agree s s' _ (field_name g) e x b (proj1 Hw) (proj1 Hw') Hbf Hbf' Hb Hp)
    as (b' & Hb' & Ht' & Hin').
  { intros i Hi. apply Hx; auto. }
  exists b'. split; [done|]. split; [congruence|]. rewrite Hin', Hin.
  intros (i & Heq & Hi%elem_of_sorted_inputs)%list_elem_of_fmap.
  destruct (Hx i Hi) as [_ Hn]; auto.
Qed.

Lemma Forall2_elem_r {A B} (R : A → B → Prop) l k y : Forall2 R l k → y ∈ k → ∃ x, x ∈ l ∧ R x y.
Proof.
  intros HR [i Hi]%list_elem_of_lookup. destruct (Forall2_lookup_r _ _ _ _ _ HR Hi) as (x & Hx & ?).
  exists x. split; [by eapply list_elem_of_lookup_2|done].
Qed.
Lemma Forall2_elem_l {A B} (R : A → B → Prop) l k x : Forall2 R l k → x ∈ l → ∃ y, y ∈ k ∧ R x y.
Proof.
  intros HR [i Hi]%list_elem_of_lookup. destruct (Forall2_lookup_l _ _ _ _ _ HR Hi) as (y & Hy & ?).
  exists y. split; [by eapply list_elem_of_lookup_2|done].
Qed.
Lemma try_for_elem {A} (f : A → result unit) l x : try_for f l = Ok tt → x ∈ l → f x = Ok tt.
Proof. rewrite try_for_Ok, Forall_forall. intros Hf Hx. by apply Hf. Qed.

Lemma shape_kept s s' f g : NoDup (names s) → NoDup (names s') → f ∈ fields s → g ∈ fields s' →
  field_name g = field_name f → shape (field_type g) = shape (field_type f) →
  shape_of s (field_name f) = shape_of s' (field_name f).
Proof.
  intros Hnd Hnd' Hf Hg Hn Hs. rewrite (shape_of_in s f) by done.
  rewrite <-Hn, (shape_of_in s' g) by done. by rewrite Hs.
Qed.

Lemma elem_of_names s n : n ∈ names s → ∃ f, f ∈ fields s ∧ field_name f = n.
Proof. intros (f & -> & Hf)%list_elem_of_fmap. eauto. Qed.

(** Changes that rename and reshape nothing and add no declaration key *)
Lemma evaluable_keys s s' : evaluable s → plain s' →
  Forall2 (λ f g, field_name g = field_name f ∧ shape (field_type g) = shape (field_type f) ∧
     ∀ k, is_declaration_key k = true →
       field_metadata g !! k = field_metadata f !! k ∨ field_metadata g !! k = None)
    (fields s) (fields s') → evaluable s'.
Proof.
  intros Hev Hw' HR. split; [done|]. intros g Hg c e Hc He.
  destruct (Forall2_elem_r _ _ _ _ HR Hg) as (f & Hf & Hn & Hsh & Hk).
  destruct (sql_from f g c e Hk Hc He) as (c' & Hc' & He' & _).
  apply (evaluable_from s s' f g c' e); try done. intros x _ i _ Hi Hne.
  split; [|by rewrite Hn]. destruct (elem_of_names _ _ Hi) as (fr & Hfr & <-).
  destruct (Forall2_elem_l _ _ _ _ HR Hfr) as (gr & Hgr & Hnr & Hshr & _).
  by apply (shape_kept s s' fr gr (proj1 (proj1 (proj1 Hev))) (proj1 (proj1 Hw'))).
Qed.

(** ** Guards *)
Lemma path_not_read c inputs path : ensure_path_not_read c inputs path = Ok tt →
  name c = path ∨ name c ≠ root path ∧ root path ∉ map root inputs.
Proof.
  unfold ensure_path_not_read. destruct (String.eqb_spec (name c) path); [auto|].
  destruct (String.eqb_spec (name c) (root path)); [done|].
  unfold mem. case_bool_decide; [done|]. auto.
Qed.

Lemma guard_reads s paths removed c e x path : ensure_not_an_input_of s paths removed = Ok tt →
  c ∈ computed_columns s → kind c = Sql e → parse_expr s e = Ok x → path ∈ paths →
  (∃ p, p ∈ removed ∧ whole_column p = Ok (Some (name c))) ∨ name c = path ∨
  name c ≠ root path ∧ root path ∉ map root (column_names_in_expr x).
Proof.
  unfold ensure_not_an_input_of. intros (rs & Hrs%try_map_Ok & Hg)%bind_Ok Hc He Hx Hp.
  apply (try_for_elem _ _ c) in Hg; [|done]. unfold ensure_declaration_unread, mem in Hg.
  case_bool_decide as Hm.
  - left. apply list_elem_of_omap in Hm as (o & Ho & Hid). cbn in Hid. subst o.
    destruct (Forall2_elem_r _ _ _ _ Hrs Ho) as (p & ? & ?). eauto.
  - right. apply bind_Ok in Hg as (inputs & Hin & Hg). unfold inputs_of in Hin.
    rewrite He, Hx in Hin. cbn in Hin. injection Hin as <-.
    apply path_not_read. by apply (try_for_elem _ _ path) in Hg.
Qed.

(** ** The operations *)
Lemma no_declaration f : undeclared f → computed_column_from_field f = None.
Proof.
  intros Hk. unfold computed_column_from_field, is_flagged.
  rewrite (Hk COMPUTED_COLUMN_META_KEY) by done. done.
Qed.
Lemma no_foreign_keys f : ensure_no_foreign_declaration f = Ok tt → undeclared f.
Proof.
  unfold ensure_no_foreign_declaration. destruct (existsb _ _) eqn:He; [done|]. intros _ k Hk.
  destruct (field_metadata f !! k) as [v|] eqn:Hv; [|done].
  assert (existsb is_declaration_key (map fst (map_to_list (field_metadata f))) = true); [|congruence].
  apply existsb_exists. exists k. split; [|done]. apply list_elem_of_In.
  change k with ((k, v).1). apply (list_elem_of_fmap_2 fst). by apply elem_of_map_to_list.
Qed.

Context {SL : SchemaLaws}.

Lemma extended_evaluable s s' new : evaluable s → plain s' → fields s' = (fields s ++ new)%list →
  (∀ g, g ∈ new → evaluable_field s' g) → evaluable s'.
Proof.
  intros Hev Hw' Hf Hnew. split; [done|]. intros g Hg c e Hc He. pose proof Hg as Hg'.
  rewrite Hf in Hg'. apply elem_of_app in Hg' as [Hgs|Hgn]; [|by apply (Hnew g Hgn c e)].
  apply (evaluable_from s s' g g c e); try done. intros x _ i _ Hi Hne. split; [|done].
  destruct (elem_of_names _ _ Hi) as (fr & Hfr & <-).
  apply (shape_kept s s' fr fr (proj1 (proj1 (proj1 Hev))) (proj1 (proj1 Hw'))); try done.
  rewrite Hf. apply elem_of_app. by left.
Qed.

Lemma add_evaluable t transforms s' : evaluable (schema t) → checked_transform transforms →
  blob_free s' → execute_add_columns t transforms = Ok s' → evaluable s'.
Proof.
  intros Hev Hch Hbf. unfold execute_add_columns. intros (_ & _ & Ha)%bind_Ok.
  apply bind_Ok in Ha as (_ & _ & Ha). apply bind_Ok in Ha as (u & Hfor & Ha). destruct u.
  apply bind_Ok in Ha as (_ & _ & Ha).
  destruct (add_law _ _ _ (proj1 (proj1 Hev)) Ha) as [Hw (new & Hf & Hn)].
  eapply extended_evaluable; [done|by split|done|]. intros g Hg c e Hc _. exfalso.
  assert (computed_column_from_field g = None); [|congruence]. apply no_declaration. intros k Hk.
  assert (∀ fs, Forall2 same_field fs new → (∀ f, f ∈ fs → undeclared f) → field_metadata g !! k = None)
    as Hsame.
  { intros fs HR Hfs. destruct (Forall2_elem_r _ _ _ _ HR Hg) as (f & Hff & _ & _ & -> & _).
    by apply (Hfs f Hff). }
  destruct transforms as [es|fs|fs|fs|fs]; cbn [transform_fields checked_transform] in Hn, Hch.
  - rewrite Forall_forall in Hn. by rewrite (Hn g Hg), lookup_empty.
  - apply (Hsame fs Hn). intros f Hff. apply no_foreign_keys. by apply (try_for_elem _ _ f) in Hfor.
  - apply (Hsame fs Hn). intros f Hff. apply no_foreign_keys. by apply (try_for_elem _ _ f) in Hfor.
  - apply (Hsame fs Hn). by apply Forall_forall.
  - apply (Hsame fs Hn). by apply Forall_forall.
Qed.

Lemma alter_evaluable t l s' : evaluable (schema t) → blob_free s' →
  execute_alter_columns t l = Ok s' → evaluable s'.
Proof.
  intros Hev Hbf. unfold execute_alter_columns. intros (_ & _ & Ha)%bind_Ok.
  apply bind_Ok in Ha as (_ & _ & Ha). apply bind_Ok in Ha as (_ & _ & Ha).
  apply bind_Ok in Ha as (u & Hin & Ha). destruct u. apply bind_Ok in Ha as (u & Hre & Ha). destruct u.
  destruct (alter_law _ _ _ (proj1 (proj1 Hev)) Ha) as [Hw HR]. set (s := schema t) in *.
  split; [done|]. intros g Hg c e Hc He. pose proof Hg as [j Hj]%list_elem_of_lookup.
  destruct (Forall2_lookup_r _ _ _ _ _ HR Hj) as (f & Hfj & Hname & Htype & Hmeta).
  assert (f ∈ fields s) as Hf by by eapply list_elem_of_lookup_2.
  destruct (sql_from f g c e) as (c' & Hc' & He' & Hn'); [|done..|].
  { intros k _. destruct Hmeta as [->| ->]; [by left|right; apply lookup_empty]. }
  assert (¬ is_retyped l f) as Hnr.
  { intros (a & Hal & Hr & Hp). apply (try_for_elem _ _ c') in Hre; [|by eapply elem_of_computed].
    unfold ensure_not_retyped_one in Hre.
    apply (try_for_elem _ _ (alter_path a)) in Hre.
    - rewrite Hn', Hp, String.eqb_refl in Hre. done.
    - apply (list_elem_of_fmap_2 alter_path), list_elem_of_In, List.filter_In.
      split; [by apply list_elem_of_In|done]. }
  apply (evaluable_from s s' f g c' e); try done; [by apply Htype|].
  intros x Hx i Hi Hri Hne. destruct (elem_of_names _ _ Hri) as (fr & Hfr & Hrn).
  assert (¬ is_rebound l fr) as Hnb.
  { intros (a & Hal & Hr & Hp).
    assert (alter_path a ∈ map alter_path (List.filter rebinds l)) as Hpa.
    { apply (list_elem_of_fmap_2 alter_path), list_elem_of_In, List.filter_In.
      split; [by apply list_elem_of_In|done]. }
    destruct (guard_reads s _ [] c' e x (alter_path a) Hin (elem_of_computed s f c' Hf Hc') He' Hx Hpa)
      as [(p & ?%not_elem_of_nil & _)|[Hq|[_ Hq]]]; [done| |].
    - apply Hne. rewrite <-Hrn, <-Hp, <-Hq, Hn'. apply (proj2 (proj1 (proj1 Hev))).
      by apply (list_elem_of_fmap_2 field_name).
    - apply Hq. rewrite Hp, Hrn. by apply (list_elem_of_fmap_2 root). }
  apply list_elem_of_lookup in Hfr as [k Hk].
  destruct (Forall2_lookup_l _ _ _ _ _ HR Hk) as (gr & Hgr & Hnamer & Htyper & _).
  rewrite <-Hrn. split.
  - apply (shape_kept s s' fr gr (proj1 (proj1 (proj1 Hev))) (proj1 Hw));
      [by eapply list_elem_of_lookup_2..| |].
    + by apply Hnamer.
    + apply Htyper. intros (a & ? & Hr & ?). apply Hnb. exists a. split; [done|]. split; [|done].
      unfold retypes in Hr. unfold rebinds. destruct (alter_type a); [by destruct (rename a)|done].
  - intros Heq. assert (j = k) as ->; [|apply Hne; rewrite <-Hrn; congruence].
    apply (NoDup_lookup (field_name <$> fields s') j k (field_name g)); [exact (proj1 Hw)| |];
      rewrite list_lookup_fmap, ?Hj, ?Hgr; simpl; [done|]. by rewrite (Hnamer Hnb), Heq.
Qed.

Lemma metadata_evaluable t l s' : evaluable (schema t) → blob_free s' →
  execute_update_field_metadata t l = Ok s' → evaluable s'.
Proof.
  intros Hev Hbf. unfold execute_update_field_metadata. intros (_ & _ & Ha)%bind_Ok.
  apply bind_Ok in Ha as (_ & _ & Ha). apply bind_Ok in Ha as (u & Hch & Ha). destruct u.
  destruct (metadata_law _ _ _ (proj1 (proj1 Hev)) Ha) as [Hw HR].
  eapply evaluable_keys; [done|by split|]. eapply Forall2_impl; [exact HR|]. intros f g (Hn & Hs & Hk).
  split; [done|]. split; [done|]. intros k Hdk. apply Hk. intros u Hu. clear -Hch Hu Hdk.
  revert Hch Hu. generalize (map name (computed_columns (schema t))) as declared. intros declared.
  induction l as [|v l IH]; [by intros _ ?%not_elem_of_nil|]. cbn [check_updates].
  destruct (existsb _ _) eqn:He; [done|]. destruct (_ && _); [done|].
  intros Hch [->|Hu]%elem_of_cons; [|by apply IH].
  destruct (update_metadata v !! k) as [o|] eqn:Ho; [|done]. exfalso.
  assert (existsb is_declaration_key (map fst (map_to_list (update_metadata v))) = true); [|congruence].
  apply existsb_exists. exists k. split; [|done]. apply list_elem_of_In.
  change k with ((k, o).1). apply (list_elem_of_fmap_2 fst). by apply elem_of_map_to_list.
Qed.

Lemma unbound_schema s unbinding dropped s1 : well_named s →
  (if is_noop unbinding then Ok s
   else _ ← plan_drop_columns s dropped; commit_function_unbinding s unbinding) = Ok s1 →
  well_named s1 ∧ Forall2 (cleared []) (fields s) (fields s1).
Proof.
  intros Hw. destruct (is_noop unbinding).
  - intros [= <-]. split; [done|]. apply Forall_Forall2_diag, Forall_true. by repeat split; left.
  - intros (_ & _ & Hu)%bind_Ok. apply bind_Ok in Hu as (updates & _ & Hu).
    destruct (config_law _ _ _ _ Hw Hu) as [Hw1 HR]. split; [done|].
    eapply Forall2_impl; [exact HR|]. by intros f g.
Qed.

Lemma drop_evaluable t columns s' : evaluable (schema t) → blob_free s' →
  execute_drop_columns t columns = Ok s' → evaluable s'.
Proof.
  intros Hev Hbf. unfold execute_drop_columns. intros (_ & _ & Ha)%bind_Ok.
  apply bind_Ok in Ha as (_ & _ & Ha). apply bind_Ok in Ha as (unbinding & _ & Ha).
  apply bind_Ok in Ha as (_ & _ & Ha). apply bind_Ok in Ha as (u & Hg & Ha). destruct u.
  set (dropped := (columns ++ assignment_columns unbinding)%list) in *.
  apply bind_Ok in Ha as (s1 & Hs1 & Ha). set (s := schema t) in *.
  destruct (unbound_schema s unbinding dropped s1 (proj1 (proj1 Hev)) Hs1) as [Hw1 HR].
  destruct (drop_law _ _ _ Hw1 Ha) as [Hw (d & Hd & Hkeep & Hgone & Hsome)].
  split; [done|]. intros g Hgin c e Hc He. pose proof Hgin as Hgin'. rewrite Hd in Hgin'.
  apply list_elem_of_omap in Hgin' as (f1 & Hf1 & Hdf).
  destruct (Forall2_elem_r _ _ _ _ HR Hf1) as (f & Hf & Hn & Hsh & Hk).
  destruct (Hsome _ _ Hdf) as [Hng Hmg].
  destruct (sql_from f g c e) as (c' & Hc' & He' & Hn'); [by intros k _; rewrite Hmg|done..|].
  assert (∀ path, path ∈ dropped → whole_column path ≠ Ok (Some (name c'))) as Hnot.
  { intros path Hp Hwhole. rewrite Hn', <-Hn in Hwhole. by rewrite (Hgone f1 path Hp Hwhole) in Hdf. }
  destruct (proj2 Hev f Hf c' e Hc' He') as (b & Hb & _).
  destruct (bind_inv _ _ _ _ (proj2 (proj1 Hev)) Hb) as (x & Hx & _).
  assert (∀ path, path ∈ dropped → name c' ≠ root path ∧ root path ∉ map root (column_names_in_expr x))
    as Hguard.
  { intros path Hp.
    destruct (guard_reads s dropped dropped c' e x path Hg (elem_of_computed s f c' Hf Hc') He' Hx Hp)
      as [(q & Hq & Hwhole)|[Heq|?]]; [by destruct (Hnot q Hq)| |done].
    destruct (Hnot path Hp). rewrite <-Heq. apply (proj2 (proj1 (proj1 Hev))). rewrite Hn'.
    by apply (list_elem_of_fmap_2 field_name). }
  assert (field_name f1 ∉ map root dropped) as Hun.
  { rewrite Hn, <-Hn'. intros (p & Hp & Hin)%list_elem_of_fmap. by destruct (Hguard p Hin). }
  rewrite (Hkeep f1 Hun) in Hdf. injection Hdf as <-.
  apply (evaluable_from s s' f f1 c' e); try done. intros x' Hx' i Hi Hri Hne.
  rewrite Hx in Hx'. injection Hx' as <-. split; [|by rewrite Hn].
  destruct (elem_of_names _ _ Hri) as (fr & Hfr & Hrn).
  destruct (Forall2_elem_l _ _ _ _ HR Hfr) as (fr1 & Hfr1 & Hnr & Hsr & _). rewrite <-Hrn.
  apply (shape_kept s s' fr fr1 (proj1 (proj1 (proj1 Hev))) (proj1 Hw)); try done. rewrite Hd.
  apply list_elem_of_omap. exists fr1. split; [done|]. apply Hkeep.
  rewrite Hnr, Hrn. intros (p & Hp & Hin)%list_elem_of_fmap. destruct (Hguard p Hin) as [_ Hni].
  apply Hni. rewrite <-Hp. by apply (list_elem_of_fmap_2 root).
Qed.

(** ** Declaring *)
Lemma metadata_expression e l : computed_column_metadata e l !! EXPRESSION_META_KEY = Some e.
Proof.
  unfold computed_column_metadata. cbn [list_to_map foldr uncurry].
  rewrite !lookup_insert_ne by done. by rewrite lookup_insert_eq.
Qed.

Lemma plan_columns_Ok columns : ∀ s fs i g, plan_columns s columns = Ok fs → fs !! i = Some g →
  ∃ n e b, bind (mkSchema (fields s ++ take i fs) (schema_metadata s)) n e = Ok b ∧
    g = declared_field n e b ∧ n ∉ names (mkSchema (fields s ++ take i fs) (schema_metadata s)).
Proof.
  induction columns as [|[n e] columns IH]; intros s fs i g; cbn [plan_columns]; [by intros [= <-]|].
  destruct (field_with_name s n) eqn:Hfn; [done|]. intros (b & Hb & Hp)%bind_Ok.
  apply bind_Ok in Hp as (rest & Hrest & [= <-]). destruct i as [|i].
  - intros [= <-]. exists n, e, b. cbn [take]. rewrite app_nil_r. destruct s as [l md].
    split; [done|]. split; [done|]. by apply (field_with_name_None (mkSchema l md)).
  - intros Hi. destruct (IH _ _ _ _ Hrest Hi) as (n' & e' & b' & Hb' & Hg & Hn').
    cbn [fields schema_metadata] in Hb', Hn'. exists n', e', b'. cbn [take].
    by rewrite (cons_middle _ (fields s)), app_assoc.
Qed.

Lemma no_projection s x o : blob_free s → projected_blob_field s x = Ok o → o = None.
Proof.
  intros Hbf. unfold projected_blob_field. destruct (negb _); [by intros [= <-]|].
  destruct (column_names_in_expr x) as [|path [|]]; [by intros [= <-]| |by intros [= <-]].
  intros (f & Hf & [= <-])%bind_Ok. by rewrite (resolve_inside s _ f Hf Hbf).
Qed.
Lemma bind_unprojected s n e b : blob_free s → bind s n e = Ok b → projected_blob b = None.
Proof.
  intros Hbf. unfold bind. intros (x & _ & Hb)%bind_Ok.
  apply bind_Ok in Hb as (o & Ho%no_projection & Hb); [|done].
  destruct (first_volatile x); [done|].
  apply bind_Ok in Hb as (blobs & _ & Hb). apply bind_Ok in Hb as (idx & _ & Hb).
  apply bind_Ok in Hb as (opt & _ & Hb). apply bind_Ok in Hb as (p & _ & Hb).
  apply bind_Ok in Hb as (ty & _ & [= <-]). done.
Qed.

Lemma declared_blob_free s fs new s' i : fields s' = (fields s ++ new)%list → Forall2 same_field fs new →
  blob_free s' → blob_free (mkSchema (fields s ++ take i fs) (schema_metadata s)).
Proof.
  unfold blob_free. cbn [fields]. intros -> HR [Hs Hn]%Forall_app. apply Forall_app. split; [done|].
  apply Forall_take. clear -HR Hn. induction HR as [|f g fs new (_ & _ & _ & Hb) _ IH]; [constructor|].
  apply Forall_cons in Hn as [Hg Hn]. constructor; [congruence|by apply IH].
Qed.
Lemma declared_evaluable s fs new s' i g g' n e b :
  plain s' → fields s' = (fields s ++ new)%list → Forall2 same_field fs new →
  fs !! i = Some g → new !! i = Some g' →
  bind (mkSchema (fields s ++ take i fs) (schema_metadata s)) n e = Ok b →
  g = declared_field n e b → n ∉ names (mkSchema (fields s ++ take i fs) (schema_metadata s)) →
  evaluable_field s' g'.
Proof.
  intros [Hw Hbf] Hf HR Hi Hi' Hb Hg Hn c e' Hc He'.
  pose proof (declared_blob_free s fs new s' i Hf HR Hbf) as Hbfi.
  pose proof (bind_unprojected _ _ _ _ Hbfi Hb) as Hp.
  destruct (Forall2_lookup_lr _ _ _ _ _ _ HR Hi Hi') as (Hgn & Hgs & Hgm & _).
  unfold declared_field in Hg. rewrite Hp in Hg. subst g. cbn [field_name field_type field_metadata] in *.
  destruct (computed_sql g' c e' Hc He') as (_ & _ & _ & Hexp). rewrite Hgm in Hexp.
  assert (e' = e) as -> by (rewrite metadata_expression in Hexp; congruence).
  destruct (bind_inv _ _ _ _ Hbfi Hb) as (x & Hx & Hin & Hroots).
  set (si := mkSchema (fields s ++ take i fs)%list (schema_metadata s)) in *.
  assert (names s' = names s ++ map field_name fs)%list as Hns.
  { unfold names. rewrite Hf, map_app. f_equal. clear -HR. induction HR as [|f g fs new [Hn _] _ IH]; [done|].
    cbn [map]. by rewrite IH, Hn. }
  assert (NoDup (names si)) as Hndi.
  { destruct Hw as [Hnd _]. rewrite Hns in Hnd. unfold si, names. cbn [fields]. rewrite map_app.
    rewrite <-(take_drop i fs), map_app, app_assoc in Hnd. by apply NoDup_app in Hnd as (? & _). }
  destruct (bind_agree si s' n (field_name g') e x b Hndi (proj1 Hw) Hbfi Hbf Hb Hx)
    as (b' & Hb' & Ht & Hin').
  { intros j Hj. destruct (elem_of_names _ _ (Hroots j Hj)) as (fr & Hfr & <-). pose proof Hfr as Hfr'.
    cbn [fields si] in Hfr'. apply elem_of_app in Hfr' as [Hfs|Hft].
    - apply (shape_kept si s' fr fr Hndi (proj1 Hw)); try done. rewrite Hf. apply elem_of_app. by left.
    - assert (fr ∈ fs) as Hff by (rewrite <-(take_drop i fs); apply elem_of_app; by left).
      destruct (Forall2_elem_l _ _ _ _ HR Hff) as (gr & Hgr & Hnr & Hsr & _ & _).
      apply (shape_kept si s' fr gr Hndi (proj1 Hw)); try done. rewrite Hf. apply elem_of_app. by right. }
  exists b'. split; [done|]. split; [congruence|]. rewrite Hin', Hin, Hgn.
  intros (j & Heq & Hj%elem_of_sorted_inputs)%list_elem_of_fmap. apply Hn. rewrite Heq. by apply Hroots.
Qed.

Lemma declare_evaluable t columns s' : evaluable (schema t) → blob_free s' →
  execute_declare t columns = Ok s' → evaluable s'.
Proof.
  intros Hev Hbf. unfold execute_declare. intros (_ & _ & Ha)%bind_Ok.
  apply bind_Ok in Ha as (retained & _ & Ha). apply bind_Ok in Ha as (spec & _ & Ha).
  destruct spec; [done|]. apply bind_Ok in Ha as (fs & Hfs & Ha). apply bind_Ok in Ha as (_ & _ & Ha).
  destruct (add_law _ _ _ (proj1 (proj1 Hev)) Ha) as [Hw (new & Hf & HR)]. cbn [transform_fields] in HR.
  assert (plan_columns (schema t) columns = Ok fs) as Hp by (destruct columns; [done|exact Hfs]).
  eapply extended_evaluable; [done|by split|done|]. intros g' [i Hi']%list_elem_of_lookup.
  destruct (Forall2_lookup_r _ _ _ _ _ HR Hi') as (g & Hi & _).
  destruct (plan_columns_Ok _ _ _ _ _ Hp Hi) as (n & e & b & Hb & Hg & Hn).
  eapply declared_evaluable; [by split|done..].
Qed.

Lemma changes_keep_evaluable s s' : evaluable s → rtc schema_step s s' → evaluable s'.
Proof.
  intros Hstart Hchanges. induction Hchanges as [s|s s1 s' Hstep _ IH]; [done|]. apply IH. clear IH.
  destruct Hstep as [t s1 <- Hev Hbf]. destruct Hev.
  - by eapply add_evaluable.
  - by eapply declare_evaluable.
  - by eapply alter_evaluable.
  - by eapply drop_evaluable.
  - by eapply metadata_evaluable.
Qed.

(** * Properties *)

(** C19: Computed columns stay evaluable: while the schema has no Blob v2 column, whatever
    columns are added, declared, altered and dropped and whatever field metadata is edited
    (a stream or reader bringing no declaration of its own, which is not checked), the
    expression of every SQL computed column keeps binding against the schema, to a type of
    the shape the column was declared with, and never reads its own column. *)
Theorem declarations_stay_evaluable (s s' : ArrowSchema)
    (Hstart : evaluable s) (Hchanges : rtc schema_step s s') :
  evaluable s'.
Proof.
  exact (changes_keep_evaluable s s' Hstart Hchanges).
Qed.
End laws.

(** ** A table that declares a column, drops another and renames the first *)
Module Table1.
Import ComputedColumns.Demo.
#[local] Instance checks : BindingChecks := {
  Value := unit;
  parse_envelope _ := Err "no envelope";
  print_envelope _ := Err "no envelope";
  from_value _ := Err "no binding";
  ensure_known_binding_shape _ := Ok tt;
  ensure_binding_matches_schema _ _ := Ok tt
}.

Definition checked (s : ArrowSchema) : result ArrowSchema :=
  if bool_decide (NoDup (names s)) then Ok s else Err (Runtime "duplicate column").
Definition rename_field (l : list ColumnAlteration) (f : Field) : Field :=
  match List.find (λ a, String.eqb (alter_path a) (field_name f)) l with
  | Some a => mkField (default (field_name f) (rename a)) (field_type f) (field_nullable f)
                (field_metadata f)
  | None => f
  end.
Definition added (t : NewColumnTransform) : list Field :=
  match t with
  | SqlExpressions es => map (λ e, mkField e.1 (TOther "int") true ∅) es
  | AllNulls fs | BatchUDF fs | StreamOf fs | ReaderOf fs => fs
  end.
#[local] Instance lance : LanceSchema := {
  add_columns s t := checked (mkSchema (fields s ++ added t) (schema_metadata s));
  alter_columns s l :=
    if existsb retypes l then Err (Runtime "no cast")
    else checked (mkSchema (map (rename_field l) (fields s)) (schema_metadata s));
  plan_drop_columns _ _ := Ok tt;
  drop_columns s paths :=
    checked (mkSchema (omap (λ f, if mem (field_name f) paths then None else Some f) (fields s))
      (schema_metadata s));
  update_config s _ _ := Ok s;
  update_field_metadata s _ := Ok s
}.

#[local] Instance planner_laws : PlannerLaws.
Proof.
  assert (∀ s s' p, shape_of s p = shape_of s' p → ∀ f, field_with_name s p = Some f →
    ∃ f', field_with_name s' p = Some f' ∧ shape (field_type f') = shape (field_type f)) as Hsame.
  { intros s s' p Hs f Hf. unfold shape_of in Hs. rewrite Hf in Hs.
    destruct (field_with_name s' p) as [f'|]; [|done]. exists f'. split; [done|].
    cbn [fmap option_fmap option_map] in Hs. congruence. }
  split.
  - intros s p f _ _. done.
  - intros s s' e x. cbn. destruct (field_with_name s e) as [f|] eqn:Hf; [|done]. intros [= <-] Ha.
    destruct (Hsame s s' e (Ha e (list_elem_of_here _ _)) f Hf) as (f' & -> & _). done.
  - intros s s' [p| | |] path f; cbn; [|done..]. intros [= ->] Ha Hr%ok_or_Ok.
    destruct (Hsame s s' path (Ha path (list_elem_of_here _ _)) f Hr) as (f' & -> & _). by exists f'.
  - intros s s' r r' x o p t Ha Hr [= <-] Hp [= <-]. destruct x as [c| | |]; [|done..].
    cbn in Hp. apply ok_or_Ok in Hp. apply fmap_Some in Hp as (f & Hf & ->).
    destruct (Hsame r r' c (Hr c) f Hf) as (f' & Hf' & Hs').
    exists (Column c), (field_type f'), (field_type f'). cbn. by rewrite Hf'.
Qed.

Lemma checked_Ok s s' : checked s = Ok s' → well_named s' ∧ s' = s.
Proof.
  unfold checked. case_bool_decide as Hnd; [|done]. intros [= <-]. split; [|done]. by split.
Qed.

#[local] Instance schema_laws : SchemaLaws.
Proof.
  split.
  - intros s t s' _ [Hw ->]%checked_Ok. split; [done|]. exists (added t). split; [done|].
    destruct t; cbn; try done; try (apply Forall_Forall2_diag, Forall_true; by repeat split).
    apply Forall_fmap, Forall_true. done.
  - intros s l s' _. cbn. destruct (existsb retypes l); [done|]. intros [Hw ->]%checked_Ok.
    split; [done|]. cbn [fields]. apply Forall2_fmap_r, Forall_Forall2_diag, Forall_true.
    intros f. change (altered l f (rename_field l f)). unfold rename_field, altered.
    destruct (List.find (λ a, String.eqb (alter_path a) (field_name f)) l) as [a|] eqn:Ha;
      [|split; [done|split; [done|by left]]]. cbn.
    split; [|by split; [|left]]. intros Hno. destruct (rename a) as [n|] eqn:Hr; [|done].
    apply List.find_some in Ha as [Hal Hp%String.eqb_eq]. destruct Hno. exists a.
    split; [by apply list_elem_of_In|]. split; [unfold rebinds; by rewrite Hr|by rewrite Hp].
  - intros s paths s' _ [Hw ->]%checked_Ok. split; [done|].
    exists (λ f, if mem (field_name f) paths then None else Some f). split; [done|].
    unfold mem. split; [|split].
    + intros f Hf. rewrite bool_decide_eq_false_2; [done|]. intros Hin. apply Hf.
      change (field_name f) with (root (field_name f)). by apply (list_elem_of_fmap_2 root).
    + intros f path Hp [= ->]. by rewrite bool_decide_eq_true_2.
    + intros f g. by case_bool_decide; [|intros [= <-]].
  - intros s m l s' Hw [= <-]. split; [done|].
    apply Forall_Forall2_diag, Forall_true. by repeat split; left.
  - intros s l s' Hw [= <-]. split; [done|].
    apply Forall_Forall2_diag, Forall_true. by repeat split; left.
Qed.

Definition table (s : ArrowSchema) : Table := mkTable (Ok tt) (Ok false) (Ok false) s.
Definition plain (n : string) : Field := mkField n (TOther "int") true ∅.
Lemma no_blob s : blob_free s.
Proof.
  apply Forall_true. fix IH 1. intros [n t nullable m]. cbn [has_blob is_blob_v2 Demo.planner orb field_type].
  destruct t as [cs| | | | | | |vs d|a b| | | |]; rewrite ?IH; try done.
  - induction cs as [|c cs IHcs]; [done|]. cbn [existsb]. by rewrite IH, IHcs.
  - induction vs as [|[i c] vs IHvs]; [done|]. cbn [existsb]. by rewrite IH, IHvs.
Qed.
Definition get (r : result ArrowSchema) : ArrowSchema := match r with Ok s => s | _ => mkSchema [] ∅ end.

Definition s0 : ArrowSchema := mkSchema [plain "x"; plain "y"] ∅.
Definition s1 : ArrowSchema := get (execute_declare (table s0) [("c", "x")]).
Definition s2 : ArrowSchema := get (execute_drop_columns (table s1) ["y"]).
Definition s3 : ArrowSchema :=
  get (execute_alter_columns (table s2) [mkAlteration "c" (Some "d") None None]).
End Table1.

Lemma declarations_stay_evaluable_witness :
  map field_name (fields Table1.s3) = ["x"; "d"] ∧
  @evaluable Demo.planner Table1.s3.
Proof.
  split; [vm_compute; reflexivity|].
  apply (@declarations_stay_evaluable Demo.planner Table1.checks Table1.lance Table1.planner_laws
    Table1.schema_laws Table1.s0 Table1.s3).
  - split; [split; [split; [apply (bool_decide_unpack _); vm_compute; reflexivity|done]|apply Table1.no_blob]|].
    intros f Hf c e Hc. exfalso. cbn in Hf. rewrite !elem_of_cons, elem_of_nil in Hf.
    repeat destruct Hf as [->|Hf]; done.
  - apply (rtc_l _ _ Table1.s1).
    { apply (schema_step_intro _ (Table1.table Table1.s0)); [reflexivity| |].
      - apply (by_declare _ [("c", "x")]). vm_compute. reflexivity.
      - apply Table1.no_blob. }
    apply (rtc_l _ _ Table1.s2).
    { apply (schema_step_intro _ (Table1.table Table1.s1)); [reflexivity| |].
      - apply (by_drop _ ["y"]). vm_compute. reflexivity.
      - apply Table1.no_blob. }
    apply rtc_once. apply (schema_step_intro _ (Table1.table Table1.s2)); [reflexivity| |].
    + apply (by_alter _ [mkAlteration "c" (Some "d") None None]). vm_compute. reflexivity.
    + apply Table1.no_blob.
Defined.

(** A declaration that a stream brings is not checked: its expression binds nothing. *)
Lemma streamed_declaration_breaks :
  let _ := Table1.lance in let _ := Table1.checks in
  ∃ s', execute_add_columns (Table1.table Table1.s0) (StreamOf [Demo.computed "c" "nothing"]) = Ok s' ∧
    ¬ @evaluable Demo.planner s'.
Proof.
  cbn zeta. eexists. split; [vm_compute; reflexivity|]. intros [_ Hev].
  destruct (Hev (Demo.computed "c" "nothing")) with (c := mkComputed "c" (Sql "nothing") ["nothing"])
    (e := "nothing") as (b & Hb & _).
  - cbn [fields]. apply list_elem_of_In. right. right. by left.
  - vm_compute. reflexivity.
  - reflexivity.
  - vm_compute in Hb. discriminate.
Qed.
End SchemaChanges.
