(* ===== verification/Refresh.v ===== *)
(** * Filling computed columns (table/refresh.rs)

    A refresh of one SQL computed column: which fragments are staged, which
    rows are filled, what the expression is evaluated over, the commit and the
    stamp after it.  Scans, the evaluation of a compiled expression and the
    dataset's commits are the class [Engine]; [Store] is the rows that
    fragments hold, which the theorem is about. *)

From Stdlib Require Import Ascii String.
From stdpp Require Import strings.
From S2P Require Import Prelude RustStr RustText Sidecar Schema ComputedColumns Freshness.

Module Refresh.
Import Sidecar Freshness.
Import Schema (ArrowSchema).
Import ComputedColumns (Planner, Physical, BoundExpression, Sql, Function, Unrecognized).
Local Open Scope string_scope.
Local Open Scope Z_scope.

(** A record batch: named columns, and the row ids when they were asked for.
    A deleted row has no row id. *)
Record Batch (V : Type) : Type := mkBatch {
  num_rows : nat;
  columns : list (string * list (option V));
  row_ids : option (list (option Z))
}.
Arguments mkBatch {V} _ _ _.
Arguments num_rows {V} _.
Arguments columns {V} _.
Arguments row_ids {V} _.

(** An evaluated array: its cells, and the [null_count] of its own validity
    buffer.  The cells are logical: a slot of a [Null], dictionary, union or
    run-end encoded array can be null without the buffer counting it. *)
Record ArrayRef (V : Type) : Type := mkArrayRef {
  values : list (option V);
  null_count : nat
}.
Arguments mkArrayRef {V} _ _.
Arguments values {V} _.
Arguments null_count {V} _.
Inductive ColumnarValue (V : Type) : Type :=
  | Array (array : ArrayRef V)
  | Scalar (value : option V).
Arguments Array {V} _.
Arguments Scalar {V} _.

(** [to_array_of_size]: the array of a scalar, repeated; [scan_null]: the live rows of a fragment that a filter on a column admits;
    [scan_all]: every physical row, deleted ones included.  [blob_array] is the
    conversion of a Blob output, which is not modelled. *)
Class Engine (V : Type) `{Planner} : Type := {
  arrow_schema : Dataset → ArrowSchema;
  resolve_field : list Field → string → option Field;
  field_is_blob : Field → bool;
  evaluate_physical : Physical → list (string * list (option V)) → nat → result (ColumnarValue V);
  to_array_of_size : option V → nat → ArrayRef V;
  scan_null : Dataset → Fragment → list string → string → list Z → result (list (result (Batch V)));
  scan_all : Dataset → Fragment → list string → list Z → result (list (result (Batch V)));
  blob_array : list (option V) → result (list (option V));
  write_columns : Dataset → Fragment → string → list (list (option V)) → result unit;
  commit_replacements : Dataset → list (Z * list (option V)) → result Dataset
}.

Section refresh.
Context {V : Type} {Fm : Formats} {L : Log} {St : Storage} {P : Planner} {En : Engine V}.

(** ** The column's declaration *)
Definition declared_expression (d : Dataset) (column : string) : result string :=
  field ← ok_or (ColumnNotFound column) (Schema.field_with_name (arrow_schema d) column);
  declaration ← ok_or (NotAComputedColumn column) (ComputedColumns.computed_column_from_field field);
  match ComputedColumns.kind declaration with
  | Sql expression => Ok expression
  | Function _ _ => Err (NotSupported "registered Function columns are refreshed only by a remote server Job")
  | Unrecognized _ => Err (NotSupported "computed column '{column}' is defined by '{kind}', which this version of lancedb cannot evaluate")
  end.

(** ** Evaluating the expression *)
Definition column_by_name (b : Batch V) (name : string) : option (list (option V)) :=
  snd <$> List.find (λ c, String.eqb c.1 name) (columns b).
Definition read_no (name : string) : Error :=
  Lance ("refreshing a computed column read no " +:+ name +:+ " column").

(** [arrow::compute::nullif] *)
Definition nullif (column : list (option V)) (mask : list bool) : list (option V) :=
  zip_with (λ c (m : bool), if m then None else c) column mask.

Definition evaluation_column (b : Batch V) (mask_out : option (list bool)) (name : string)
    : result (string * list (option V)) :=
  column ← ok_or (read_no name) (column_by_name b name);
  Ok (name, match mask_out with Some mask => nullif column mask | None => column end).
Definition evaluation_batch (b : Batch V) (bound : BoundExpression) (mask_out : option (list bool))
    : result (list (string * list (option V))) :=
  try_map (evaluation_column b mask_out) (ComputedColumns.roots bound).

Definition into_array (n : nat) (value : ColumnarValue V) : ArrayRef V :=
  match value with Array array => array | Scalar value => to_array_of_size value n end.
Definition evaluate (bound : BoundExpression) (batch : list (string * list (option V))) (n : nat)
    : result (ArrayRef V) :=
  value ← evaluate_physical (ComputedColumns.physical bound) batch n;
  Ok (into_array n value).

Definition is_value (c : option V) : bool := match c with Some _ => true | None => false end.
Definition count_true (l : list bool) : Z := Z.of_nat (length (List.filter id l)).

(** ** Blob inputs *)
Definition blob_id (fields : list Field) (path : string) : result Z :=
  field ← ok_or (InvalidInput "computed Blob input '{path}' no longer exists") (resolve_field fields path);
  if negb (field_is_blob field)
  then Err (InvalidInput "computed Blob input '{path}' is no longer Blob v2")
  else if (field_id field <? 0) || (U32 <=? field_id field)
  then Err (InvalidInput "computed Blob input '{path}' has invalid field id {}")
  else Ok (field_id field).
Definition materialized_blob_ids (fields : list Field) (paths : list string) : result (list Z) :=
  try_map (blob_id fields) paths.
Definition configure_blob_inputs (d : Dataset) (bound : BoundExpression) (extra : option Z)
    : result (list Z) :=
  ids ← materialized_blob_ids (schema d) (ComputedColumns.blob_paths bound);
  Ok (ids ++ option_list extra)%list.

(** ** How many rows would gain a value *)
Fixpoint count_batches (bound : BoundExpression) (batches : list (result (Batch V)))
    (gained considered : Z) : result (Z * Z) :=
  match batches with
  | [] => Ok (gained, considered)
  | batch :: batches =>
      batch ← batch;
      columns ← evaluation_batch batch bound None;
      evaluated ← evaluate bound columns (num_rows batch);
      count_batches bound batches
        (gained + (Z.of_nat (num_rows batch) - Z.of_nat (null_count evaluated)))
        (considered + Z.of_nat (num_rows batch))
  end.
Definition count_fragment_gains (d : Dataset) (f : Fragment) (bound : BoundExpression)
    (column : string) : result (Z * Z) :=
  ids ← configure_blob_inputs d bound None;
  batches ← scan_null d f (ComputedColumns.roots bound)
              (quote_identifier column +:+ " IS NULL") ids;
  count_batches bound batches 0 0.

(** ** Filling *)
Definition ROW_ID : string := "_rowid".

(** [zip(&fill, &computed, existing)] *)
Fixpoint zip_fill (fill : list bool) (computed existing : list (option V)) : list (option V) :=
  match fill, computed, existing with
  | b :: fill, c :: computed, e :: existing => (if b : bool then c else e) :: zip_fill fill computed existing
  | _, _, _ => []
  end.

Definition fill_batch (bound : BoundExpression) (column : string) (output_is_blob recompute : bool)
    (batch : Batch V) : result (list (option V) * Z) :=
  existing ← ok_or (read_no column) (column_by_name batch column);
  ids ← ok_or (read_no ROW_ID) (row_ids batch);
  let live := map (λ r : option Z, match r with Some _ => true | None => false end) ids in
  let fill := if recompute then live else zip_with andb (map (λ c, negb (is_value c)) existing) live in
  let keep := map negb fill in
  columns ← evaluation_batch batch bound (Some keep);
  computed ← evaluate bound columns (num_rows batch);
  let computed := values computed in
  if negb (Nat.eqb (length computed) (length fill)) || negb (Nat.eqb (length existing) (length fill))
  then Err (Arrow "arrays of different lengths")
  else
    let gained := count_true (zip_with andb fill (map is_value computed)) in
    let merged := zip_fill fill computed existing in
    merged ← (if output_is_blob then blob_array merged else Ok merged);
    Ok (merged, gained).

(** [fill_stream], consumed to its end by the write *)
Fixpoint fill_batches (bound : BoundExpression) (column : string) (output_is_blob recompute : bool)
    (batches : list (result (Batch V))) : result (list (list (option V)) * Z) :=
  match batches with
  | [] => Ok ([], 0)
  | batch :: batches =>
      batch ← batch;
      filled ← fill_batch bound column output_is_blob recompute batch;
      rest ← fill_batches bound column output_is_blob recompute batches;
      Ok (filled.1 :: rest.1, filled.2 + rest.2)
  end.
Definition fill_stream (d : Dataset) (f : Fragment) (bound : BoundExpression) (column : string)
    (output_is_blob recompute : bool) : result (list (list (option V)) * Z) :=
  let extra :=
    if output_is_blob then
      field ← schema_field (schema d) column;
      if (field_id field <? 0) || (U32 <=? field_id field) then None else Some (field_id field)
    else None in
  ids ← configure_blob_inputs d bound extra;
  _ ← ok_or (ColumnNotFound column) (Schema.field_with_name (arrow_schema d) column);
  batches ← scan_all d f (ComputedColumns.roots bound ++ [column])%list ids;
  fill_batches bound column output_is_blob recompute batches.

(** ** The fragments of a refresh *)
Record Staged : Type := mkStaged {
  rows_filled : Z;
  replacements : list (Z * list (option V));
  computed_sigs : SignatureMap
}.

(** Whether a fragment is staged, and if it is whether all of it is computed *)
Definition probe (d : Dataset) (f : Fragment) (bound : BoundExpression) (column : string)
    (recompute : bool) : result (option (Z * bool)) :=
  if recompute then Ok (Some (0, true))
  else
    gains ← count_fragment_gains d f bound column;
    if (gains.1 =? 0) then Ok None
    else
      rows ← count_rows d f;
      Ok (Some (gains.1, gains.2 =? rows)).

Definition stage_fragment (d : Dataset) (bases : Bases) (inputs : InputFields)
    (bound : BoundExpression) (column : string) (output_is_blob : bool) (plan : StalenessPlan)
    (f : Fragment) (st : Staged) : result Staged :=
  if U32 <=? frag_id f
  then Err (Runtime "fragment id {} does not fit a signature map")
  else
    let recompute := is_dirty plan (frag_id f) in
    probed ← probe d f bound column recompute;
    match probed with
    | None => Ok st
    | Some (gained, whole) =>
        sigs ← (if (whole : bool)
                then signature ← fragment_input_signature bases f inputs;
                     Ok (<[frag_id f := signature]> (computed_sigs st))
                else Ok (computed_sigs st));
        filled ← fill_stream d f bound column output_is_blob recompute;
        _ ← write_columns d f column filled.1;
        Ok (mkStaged (rows_filled st + gained + (if recompute then filled.2 else 0))
              (replacements st ++ [(frag_id f, mjoin filled.1)]) sigs)
    end.

Fixpoint stage_fragments (d : Dataset) (bases : Bases) (inputs : InputFields)
    (bound : BoundExpression) (column : string) (output_is_blob : bool) (plan : StalenessPlan)
    (fs : list Fragment) (st : Staged) : result Staged :=
  match fs with
  | [] => Ok st
  | f :: fs =>
      st ← stage_fragment d bases inputs bound column output_is_blob plan f st;
      stage_fragments d bases inputs bound column output_is_blob plan fs st
  end.

(** ** Inputs that are computed columns *)
Fixpoint sum_gains (d : Dataset) (bound : BoundExpression) (input : string) (fs : list Fragment)
    (unfilled : Z) : result Z :=
  match fs with
  | [] => Ok unfilled
  | f :: fs =>
      gains ← count_fragment_gains d f bound input;
      sum_gains d bound input fs (unfilled + gains.1)
  end.
Definition ensure_input_filled (d : Dataset) (s : ArrowSchema) (column : string) (input : string)
    : result unit :=
  match Schema.field_with_name s input ≫= ComputedColumns.computed_column_from_field with
  | None => Ok tt
  | Some declaration =>
      match ComputedColumns.kind declaration with
      | Sql expression =>
          bound ← ComputedColumns.bind s input expression;
          unfilled ← sum_gains d bound input (fragments d) 0;
          if (0 <? unfilled)
          then Err (InvalidInput "computed column '{column}' reads '{input}', which has {unfilled} unfilled rows; refresh '{input}' first")
          else Ok tt
      | _ => Err (NotSupported "computed column '{column}' reads '{input}', whose fill state this refresh cannot check; refresh '{input}' first")
      end
  end.
Definition ensure_inputs_filled (d : Dataset) (s : ArrowSchema) (column : string)
    (bound : BoundExpression) : result unit :=
  try_for (ensure_input_filled d s column) (ComputedColumns.roots bound).

(** ** The refresh *)
Record Handle : Type := mkHandle {
  mutable : result unit;
  retained_sstables : result bool;
  has_memwal_spec : result bool;
  dataset : Dataset
}.
Definition ensure_no_memwal_spec (h : Handle) : result unit :=
  retained ← retained_sstables h;
  spec ← (if (retained : bool) then Ok true else has_memwal_spec h);
  if (spec : bool)
  then Err (NotSupported "refresh_column is not supported on a table with an LSM write spec: rows in un-compacted tiers are invisible to refresh")
  else Ok tt.

Record RefreshExecution : Type := mkExecution {
  filled : Z;
  result_version : Z;
  source_version : Z;
  published_version : option Z
}.

(** [record]: the version of the stamp and the dataset after it *)
Definition record (io io' : Io) (puts : bool) (latest pinned : Dataset) (plan : StalenessPlan)
    (column definition : string) (inputs : InputFields) (computed : SignatureMap) (dir : Directory)
    : option Z * Dataset * Directory :=
  match record_freshness io io' puts latest (Some (pinned, plan)) column definition inputs computed dir with
  | (Ok (stamp, d), dir) => (stamped stamp, d, dir)
  | (_, dir) => (None, latest, dir)
  end.

(** What is decided and staged before anything is committed *)
Record Prepared : Type := mkPrepared {
  definition : string;
  input_fields : InputFields;
  the_bound : BoundExpression;
  staleness : StalenessPlan;
  staged : Staged
}.
Definition prepare (io : Io) (h : Handle) (column : string) (dir : Directory)
    : result Prepared * Directory :=
  let d := dataset h in
  let started :=
    _ ← mutable h;
    _ ← ensure_no_memwal_spec h;
    expression ← declared_expression d column;
    bound ← ComputedColumns.bind (arrow_schema d) column expression;
    _ ← ensure_inputs_filled d (arrow_schema d) column bound;
    field ← ok_or (ColumnNotFound column) (schema_field (schema d) column);
    inputs ← fields_for_paths (schema d) (ComputedColumns.bound_inputs bound);
    bases ← bases_of d;
    Ok (expression, bound, field_is_blob field, inputs, bases) in
  match started with
  | Ok (expression, bound, blob, inputs, bases) =>
      let definition := definition_version expression in
      let '(plan, dir) := staleness_against io d column definition inputs dir in
      (plan ← plan;
       st ← stage_fragments d bases inputs bound column blob plan (fragments d)
              (mkStaged 0 [] ∅);
       Ok (mkPrepared definition inputs bound plan st), dir)
  | Err e => (Err e, dir)
  | Panic => (Panic, dir)
  end.

(** The execution and the dataset the handle then has *)
Definition finish (io io' : Io) (puts : bool) (h : Handle) (column : string) (p : Prepared)
    (dir : Directory) : result (RefreshExecution * Dataset) * Directory :=
  let d := dataset h in
  let sigs := computed_sigs (staged p) in
  match replacements (staged p) with
  | [] =>
      let '(version_of, latest, dir) :=
        record io io' puts d d (staleness p) column (definition p) (input_fields p) sigs dir in
      (Ok (mkExecution 0 (default (version d) version_of) (version d) version_of,
           match version_of with Some _ => latest | None => d end), dir)
  | reps =>
      match commit_replacements d reps with
      | Ok new_dataset =>
          let '(version_of, latest, dir) :=
            record io io' puts new_dataset d (staleness p) column (definition p) (input_fields p)
              sigs dir in
          let at_version := default (version latest) version_of in
          (Ok (mkExecution (rows_filled (staged p)) at_version (version d) (Some at_version), latest), dir)
      | Err e => (Err e, dir)
      | Panic => (Panic, dir)
      end
  end.

Definition execute_refresh_column_with_source (io io' io'' : Io) (puts : bool) (h : Handle)
    (column : string) (dir : Directory) : result (RefreshExecution * Dataset) * Directory :=
  match prepare io h column dir with
  | (Ok p, dir) => finish io' io'' puts h column p dir
  | (Err e, dir) => (Err e, dir)
  | (Panic, dir) => (Panic, dir)
  end.
(** The rows filled and the version *)
Definition execute_refresh_column (io io' io'' : Io) (puts : bool) (h : Handle) (column : string)
    (dir : Directory) : result (Z * Z) * Directory :=
  match execute_refresh_column_with_source io io' io'' puts h column dir with
  | (Ok (execution, _), dir) => (Ok (filled execution, result_version execution), dir)
  | (Err e, dir) => (Err e, dir)
  | (Panic, dir) => (Panic, dir)
  end.

(** ** The refresh as a job: what the call checks, and what the job then does *)
Record RefreshColumnResult : Type := mkColumnResult {
  rows_assigned : Z;
  rows_failed : Z;
  rows_remaining : Z;
  job_source_version : Z;
  job_published_version : option Z
}.
Definition admit_refresh (h : Handle) (column : string) : result unit :=
  _ ← mutable h;
  _ ← ensure_no_memwal_spec h;
  _ ← declared_expression (dataset h) column;
  Ok tt.
Definition column_result (e : RefreshExecution) : RefreshColumnResult :=
  mkColumnResult (filled e) 0 0 (source_version e) (published_version e).
Definition execute_refresh_column_async (h : Handle) (column : string)
    : result (Io → Io → Io → bool → Handle → Directory → result RefreshColumnResult * Directory) :=
  _ ← admit_refresh h column;
  Ok (λ io io' io'' puts h dir,
        match execute_refresh_column_with_source io io' io'' puts h column dir with
        | (Ok (execution, _), dir) => (Ok (column_result execution), dir)
        | (Err e, dir) => (Err e, dir)
        | (Panic, dir) => (Panic, dir)
        end).

(** What the call refuses is exactly what would fail at once in the job. *)
Lemma admission_is_the_job's io h column dir :
  (∀ e, admit_refresh h column = Err e → prepare io h column dir = (Err e, dir)) ∧
  (is_Some (match prepare io h column dir with (Ok p, _) => Some p | _ => None end) →
   admit_refresh h column = Ok tt).
Proof.
  unfold prepare, admit_refresh. destruct (mutable h) as [[]|e|]; cbn [mbind outcome_bind];
    [|split; [by intros ? [= <-]|by intros [? ?]]..].
  destruct (ensure_no_memwal_spec h) as [[]|e|]; cbn [mbind outcome_bind];
    [|split; [by intros ? [= <-]|by intros [? ?]]..].
  destruct (declared_expression (dataset h) column) as [e|e|]; cbn [mbind outcome_bind];
    [|split; [by intros ? [= <-]|by intros [? ?]]..].
  by split; [intros ? ?|].
Qed.
End refresh.

(** ** The rows that fragments hold *)
Record PhysRow (V : Type) : Type := mkPhys { row_id : option Z; cell : string → option V }.
Arguments mkPhys {V} _ _.
Arguments row_id {V} _.
Arguments cell {V} _ _.

(** [phys v id]: the physical rows of a fragment in a version; [compute]: the
    expression on the values of its roots. *)
Class Store (V : Type) : Type := {
  phys : Z → Z → option (list (PhysRow V));
  compute : list (option V) → option V
}.

Section rows.
Context {V : Type} {Fm : Formats} {L : Log} {St : Storage} {P : Planner} {En : Engine V} {R : Store V}.
Context (bound : BoundExpression) (column : string).
Local Abbreviation roots := (ComputedColumns.roots bound).

Definition is_live (r : PhysRow V) : bool := match row_id r with Some _ => true | None => false end.
Definition computes (r : PhysRow V) : option V := compute (map (cell r) roots).
(** Whether a fill writes the row, and what the column then holds *)
Definition fills (recompute : bool) (r : PhysRow V) : bool :=
  if recompute then is_live r else negb (is_value (cell r column)) && is_live r.
Definition new_cell (recompute : bool) (r : PhysRow V) : option V :=
  if fills recompute r then computes r else cell r column.
Definition gains (recompute : bool) (rows : list (PhysRow V)) : Z :=
  count_true (map (λ r, fills recompute r && is_value (computes r)) rows).
Definition set_cell (r : PhysRow V) (v : option V) : PhysRow V :=
  mkPhys (row_id r) (λ n, if String.eqb n column then v else cell r n).

Fixpoint live_from (n : Z) (rows : list (PhysRow V)) : list (Row (list (option V)) V) :=
  match rows with
  | [] => []
  | r :: rows =>
      (if is_live r then [Freshness.mkRow n (map (cell r) roots) (cell r column)] else [])
      ++ live_from (n + 1) rows
  end.
Definition truth : Truth (list (option V)) V := {|
  live_rows v id := live_from 0 <$> phys v id;
  Freshness.compute := compute
|}.

Definition batch_of (names : list string) (rows : list (PhysRow V)) : Batch V :=
  mkBatch (length rows) (map (λ n, (n, map (λ r, cell r n) rows)) names) (Some (map row_id rows)).
(** The rows in batches, as far as an error lets them through *)
Inductive delivers (names : list string) : list (PhysRow V) → list (result (Batch V)) → Prop :=
  | delivers_end : delivers names [] []
  | delivers_batch part rows batches : delivers names rows batches →
      delivers names (part ++ rows) (Ok (batch_of names part) :: batches)
  | delivers_error rows e batches : delivers names rows (Err e :: batches)
  | delivers_panic rows batches : delivers names rows (Panic :: batches).

Definition columns_of (gs : list (string → option V)) : list (string * list (option V)) :=
  map (λ n, (n, map (λ g, g n) gs)) roots.

Definition logical_nulls (l : list (option V)) : nat := length (List.filter negb (map is_value l)).
(** The expression's arrays count every null in their validity buffer. *)
Definition nulls_are_physical : Prop := ∀ gs value,
  evaluate_physical (ComputedColumns.physical bound) (columns_of gs) (length gs) = Ok value →
  null_count (into_array (length gs) value) = logical_nulls (values (into_array (length gs) value)).

(** What a scan, an evaluation and a commit do.  The commits are those that
    nobody else's commit comes in between. *)
Class EngineLaws : Prop := {
  scan_all_law : ∀ d f names ids rows batches, checkout_version (version d) = Ok d →
    f ∈ fragments d → phys (version d) (frag_id f) = Some rows →
    scan_all d f names ids = Ok batches → delivers names rows batches;
  scan_null_law : ∀ d f names ids rows batches, checkout_version (version d) = Ok d →
    f ∈ fragments d → phys (version d) (frag_id f) = Some rows →
    scan_null d f names (quote_identifier column +:+ " IS NULL") ids = Ok batches →
    delivers names (List.filter (fills false) rows) batches;
  evaluate_law : ∀ gs value,
    evaluate_physical (ComputedColumns.physical bound) (columns_of gs) (length gs) = Ok value →
    values (into_array (length gs) value) = map (λ g, compute (map g roots)) gs ∧
    (null_count (into_array (length gs) value) ≤
       logical_nulls (values (into_array (length gs) value)))%nat;
  commit_law : ∀ d reps d', commit_replacements d reps = Ok d' →
    map frag_id (fragments d') = map frag_id (fragments d) ∧
    ∀ id, phys (version d') id =
      match (list_to_map reps : gmap Z (list (option V))) !! id with
      | Some values => (λ rows, zip_with set_cell rows values) <$> phys (version d) id
      | None => phys (version d) id
      end;
  stamp_law : ∀ d entries d', update_field_metadata d column entries = Ok d' →
    fragments d' = fragments d ∧ ∀ id, phys (version d') id = phys (version d) id
}.

(** * Lemmas *)
Lemma zip_with_map {A B C D} (f : B → C → D) (g : A → B) (h : A → C) l :
  zip_with f (map g l) (map h l) = map (λ x, f (g x) (h x)) l.
Proof. induction l as [|x l IH]; [done|]. cbn. by rewrite IH. Qed.
Lemma zip_fill_map {A} (a : A → bool) (b c : A → option V) l :
  zip_fill (map a l) (map b l) (map c l) = map (λ x, if a x then b x else c x) l.
Proof. induction l as [|x l IH]; [done|]. cbn. by rewrite IH. Qed.
Lemma count_true_app l k : count_true (l ++ k) = count_true l + count_true k.
Proof. unfold count_true. rewrite List.filter_app, length_app. lia. Qed.
Lemma gains_app recompute a b : gains recompute (a ++ b) = gains recompute a + gains recompute b.
Proof. unfold gains. by rewrite map_app, count_true_app. Qed.

Lemma column_of_batch names rows n : n ∈ names →
  column_by_name (batch_of names rows) n = Some (map (λ r, cell r n) rows).
Proof.
  unfold column_by_name, batch_of. cbn [columns]. induction names as [|m names IH]; [by intros ?%not_elem_of_nil|].
  cbn [map List.find fst]. destruct (String.eqb_spec m n) as [->|Hne]; [done|].
  intros [->|Hn]%elem_of_cons; [done|by apply IH].
Qed.

Definition masked (keep : PhysRow V → bool) (r : PhysRow V) : string → option V :=
  if keep r then λ _, None else cell r.
Lemma evaluation_columns names rows mask (g : PhysRow V → string → option V) : roots ⊆ names →
  (∀ n, n ∈ names → evaluation_column (batch_of names rows) mask n = Ok (n, map (λ r, g r n) rows)) →
  evaluation_batch (batch_of names rows) bound mask = Ok (columns_of (map g rows)).
Proof.
  intros Hn Hg. unfold evaluation_batch, columns_of. induction roots as [|n ns IH]; [done|].
  cbn [try_map map]. rewrite Hg by (apply Hn, list_elem_of_here). run_ok.
  rewrite IH by (intros x Hx; apply Hn; by apply list_elem_of_further). run_ok. by rewrite map_map.
Qed.
Lemma evaluation_batch_of names rows keep : roots ⊆ names →
  evaluation_batch (batch_of names rows) bound (Some (map keep rows)) =
    Ok (columns_of (map (masked keep) rows)).
Proof.
  intros Hn. apply evaluation_columns; [done|]. intros n Hin. unfold evaluation_column.
  rewrite column_of_batch by done. cbn [ok_or]. run_ok. unfold nullif. rewrite zip_with_map.
  do 2 f_equal. apply map_ext. intros r. unfold masked. by destruct (keep r).
Qed.
Lemma evaluation_batch_all names rows : roots ⊆ names →
  evaluation_batch (batch_of names rows) bound None = Ok (columns_of (map cell rows)).
Proof.
  intros Hn. apply evaluation_columns; [done|]. intros n Hin. unfold evaluation_column.
  by rewrite column_of_batch.
Qed.

Context {Laws : EngineLaws}.

(** The expression sees only the rows that are filled. *)
Lemma fill_batch_of recompute rows values g :
  fill_batch bound column false recompute (batch_of (roots ++ [column]) rows) = Ok (values, g) →
  values = map (new_cell recompute) rows ∧ g = gains recompute rows.
Proof.
  unfold fill_batch. rewrite column_of_batch by (apply elem_of_app; right; apply list_elem_of_here).
  cbn [ok_or row_ids batch_of num_rows]. run_ok. rewrite !map_map.
  set (fill := if recompute then _ else _).
  assert (fill = map (fills recompute) rows) as ->.
  { subst fill. unfold fills. destruct recompute; [done|]. by rewrite zip_with_map. }
  rewrite map_map, evaluation_batch_of by (intros x Hx; apply elem_of_app; by left). run_ok.
  unfold evaluate. intros (computed & (value & Hv & [= <-])%bind_Ok & Hr)%bind_Ok.
  set (keep := λ r, negb (fills recompute r)) in *.
  rewrite <-(length_map (masked keep) rows) in Hv, Hr.
  pose proof (proj1 (evaluate_law _ _ Hv)) as He. rewrite length_map in He, Hr. cbn zeta in Hr.
  rewrite He, !map_map in Hr.
  rewrite !length_map, Nat.eqb_refl in Hr. cbn [negb orb] in Hr.
  rewrite zip_with_map, zip_fill_map in Hr. injection Hr as <- <-.
  assert (∀ r, fills recompute r = true → compute (map (masked keep r) roots) = computes r) as Hm.
  { intros r Hf. unfold masked, keep. by rewrite Hf. }
  split.
  - apply map_ext. intros r. unfold new_cell. destruct (fills recompute r) eqn:Hf; [by apply Hm|done].
  - unfold gains. f_equal. apply map_ext. intros r.
    destruct (fills recompute r) eqn:Hf; [by rewrite Hm|done].
Qed.

Lemma fill_batches_of recompute rows batches values g :
  delivers (roots ++ [column]) rows batches →
  fill_batches bound column false recompute batches = Ok (values, g) →
  mjoin values = map (new_cell recompute) rows ∧ g = gains recompute rows.
Proof.
  intros Hd. revert values g. induction Hd as [|part rows batches _ IH|rows e batches|rows batches];
    intros values g; cbn [fill_batches]; [by intros [= <- <-]| |done..].
  run_ok. intros ([v1 g1] & H1 & Hr)%bind_Ok. apply bind_Ok in Hr as ([v2 g2] & H2 & [= <- <-]).
  apply fill_batch_of in H1 as [-> ->]. destruct (IH _ _ H2) as [Hv ->]. cbn [fst snd].
  by rewrite mjoin_cons, Hv, map_app, gains_app.
Qed.

Lemma count_nulls (l : list (option V)) :
  Z.of_nat (length l) - Z.of_nat (logical_nulls l) = count_true (map is_value l).
Proof.
  unfold count_true, logical_nulls. induction l as [|[c|] l IH]; [done|..]; cbn [map is_value List.filter negb id length] in *; lia.
Qed.

(** The count is not below the values the expression computes, and it is their
    number when the arrays count their nulls. *)
Lemma count_batches_of rows batches g0 c0 g c :
  delivers roots rows batches → count_batches bound batches g0 c0 = Ok (g, c) →
  g0 + count_true (map (λ r, is_value (computes r)) rows) ≤ g ∧
  (nulls_are_physical → g = g0 + count_true (map (λ r, is_value (computes r)) rows)).
Proof.
  intros Hd. revert g0 c0. induction Hd as [|part rows batches _ IH|rows e batches|rows batches];
    intros g0 c0; cbn [count_batches];
    [intros [= <- <-]; unfold count_true; cbn [map List.filter length]; split; [lia|intros _; lia]| |done..].
  run_ok. rewrite evaluation_batch_all by done. run_ok. cbn [num_rows batch_of]. unfold evaluate.
  intros (l & (value & Hv & [= <-])%bind_Ok & Hr)%bind_Ok.
  rewrite <-(length_map cell part) in Hv, Hr. pose proof (evaluate_law _ _ Hv) as [Hval Hle].
  apply IH in Hr as [Hge Heq]. rewrite map_app, count_true_app.
  pose proof (count_nulls (map computes part)) as Hn. rewrite !map_map, length_map in Hn.
  assert (logical_nulls (values (into_array (length (map cell part)) value)) =
    logical_nulls (map computes part)) as Hl by (by rewrite Hval, map_map).
  pose proof (λ Hp : nulls_are_physical, Hp (map cell part) value Hv) as Hphys.
  rewrite length_map in *. split; [unfold computes in *; lia|].
  intros Hp. specialize (Hphys Hp). specialize (Heq Hp). unfold computes in *. lia.
Qed.

(** ** Staging *)
Lemma gains_filtered rows :
  count_true (map (λ r, is_value (computes r)) (List.filter (fills false) rows)) = gains false rows.
Proof.
  unfold gains, count_true. induction rows as [|r rows IH]; [done|]. cbn [List.filter map].
  destruct (fills false r); cbn [map andb]; [|exact IH].
  destruct (is_value (computes r)); cbn [List.filter id length]; lia.
Qed.

Lemma gains_zero rows r : gains false rows = 0 → r ∈ rows → fills false r = true → computes r = None.
Proof.
  unfold gains, count_true. intros Hg Hr Hf. destruct (computes r) as [v|] eqn:Hc; [exfalso|done].
  assert (true ∈ List.filter id (map (λ r, fills false r && is_value (computes r)) rows)) as Hin.
  { apply list_elem_of_In, List.filter_In. split; [|done]. apply list_elem_of_In.
    apply list_elem_of_fmap. exists r. by rewrite Hf, Hc. }
  destruct (List.filter _ _); [by apply not_elem_of_nil in Hin|]. simpl in Hg. lia.
Qed.

Lemma gains_nonneg recompute rows : 0 ≤ gains recompute rows.
Proof. unfold gains, count_true. lia. Qed.

(** What staging one fragment says of its rows *)
Definition settled (recompute : bool) (rows : list (PhysRow V)) : Prop :=
  recompute = false ∧ ∀ r, r ∈ rows → fills false r = true → computes r = None.

Lemma stage_fragment_Ok d bases inputs plan f rows st st' :
  checkout_version (version d) = Ok d → f ∈ fragments d → phys (version d) (frag_id f) = Some rows →
  stage_fragment d bases inputs bound column false plan f st = Ok st' →
  let recompute := is_dirty plan (frag_id f) in
  (rows_filled st + gains recompute rows ≤ rows_filled st' ∧
   (nulls_are_physical → rows_filled st' = rows_filled st + gains recompute rows)) ∧
  (settled recompute rows ∧ replacements st' = replacements st ∨
   replacements st' = (replacements st ++ [(frag_id f, map (new_cell recompute) rows)])%list).
Proof.
  intros Hd Hf Hrows. unfold stage_fragment. destruct (U32 <=? frag_id f); [done|].
  set (recompute := is_dirty plan (frag_id f)). cbn zeta. intros (probed & Hp & Hs)%bind_Ok.
  unfold probe in Hp.
  assert (∀ filled : list (list (option V)) * Z, fill_stream d f bound column false recompute = Ok filled →
    mjoin filled.1 = map (new_cell recompute) rows ∧ filled.2 = gains recompute rows) as Hfill.
  { intros [vs g]. unfold fill_stream. intros (ids & _ & Hr)%bind_Ok. apply bind_Ok in Hr as (_ & _ & Hr).
    apply bind_Ok in Hr as (batches & Hb & Hr). eapply fill_batches_of; [|exact Hr].
    by eapply scan_all_law. }
  assert (recompute = false → ∀ g c, count_fragment_gains d f bound column = Ok (g, c) →
    gains false rows ≤ g ∧ (nulls_are_physical → g = gains false rows)) as Hcount.
  { intros _ g c. unfold count_fragment_gains. intros (ids & _ & Hr)%bind_Ok.
    apply bind_Ok in Hr as (batches & Hb & Hr). apply count_batches_of with
      (rows := List.filter (fills false) rows) in Hr; [|by eapply scan_null_law].
    by rewrite gains_filtered, !Z.add_0_l in Hr. }
  destruct recompute eqn:Hre.
  - injection Hp as <-. apply bind_Ok in Hs as (sigs & _ & Hs).
    apply bind_Ok in Hs as (filled & Hfl & Hs). apply bind_Ok in Hs as (_ & _ & [= <-]).
    destruct (Hfill filled Hfl) as [Hv Hg]. cbn [rows_filled replacements]. rewrite Hv, Hg.
    split; [lia|by right].
  - apply bind_Ok in Hp as ([g c] & Hc & Hp). cbn [fst snd] in Hp.
    pose proof (Hcount eq_refl g c Hc) as [Hge Heq]. pose proof (gains_nonneg false rows) as Hnn.
    destruct (Z.eqb_spec g 0) as [Hz|_].
    + injection Hp as <-. injection Hs as <-. split; [lia|]. left. split; [|done]. split; [done|].
      intros r Hr. apply (gains_zero rows); [lia|done].
    + apply bind_Ok in Hp as (n & _ & [= <-]). apply bind_Ok in Hs as (sigs & _ & Hs).
      apply bind_Ok in Hs as (filled & Hfl & Hs). apply bind_Ok in Hs as (_ & _ & [= <-]).
      destruct (Hfill filled Hfl) as [Hv Hg]. cbn [rows_filled replacements]. rewrite Hv.
      split; [split; [lia|intros Hphys; specialize (Heq Hphys); lia]|by right].
Qed.

(** The rows of a fragment of [d] *)
Definition phys_of (d : Dataset) (f : Fragment) : list (PhysRow V) :=
  default [] (phys (version d) (frag_id f)).

Lemma stage_fragments_Ok d bases inputs plan fs st st' :
  checkout_version (version d) = Ok d → NoDup (map frag_id fs) →
  (∀ f, f ∈ fs → f ∈ fragments d ∧ is_Some (phys (version d) (frag_id f)) ∧
     frag_id f ∉ (replacements st).*1) →
  stage_fragments d bases inputs bound column false plan fs st = Ok st' →
  (let total := rows_filled st +
     zsum (map (λ f, gains (is_dirty plan (frag_id f)) (phys_of d f)) fs) in
   total ≤ rows_filled st' ∧ (nulls_are_physical → rows_filled st' = total)) ∧
  ∃ more, replacements st' = (replacements st ++ more)%list ∧ more.*1 ⊆ map frag_id fs ∧
    (∀ f, f ∈ fs →
      (settled (is_dirty plan (frag_id f)) (phys_of d f) ∧ frag_id f ∉ (replacements st').*1) ∨
      (frag_id f, map (new_cell (is_dirty plan (frag_id f))) (phys_of d f)) ∈ replacements st') ∧
    (NoDup (replacements st).*1 → NoDup (replacements st').*1).
Proof.
  intros Hd. revert st; induction fs as [|f fs IH]; intros st Hnd Hfs; cbn [stage_fragments].
  { intros [= <-]. split; [cbn; lia|]. exists []. rewrite app_nil_r.
    split; [done|]. split; [done|]. split; [by intros f ?%not_elem_of_nil|done]. }
  intros (st1 & H1 & Hr)%bind_Ok. cbn [map] in Hnd. apply NoDup_cons in Hnd as [Hf Hnd].
  destruct (Hfs f (list_elem_of_here _ _)) as (Hfd & [rows Hrows] & Hfn).
  pose proof (stage_fragment_Ok _ _ _ _ _ _ _ _ Hd Hfd Hrows H1) as [Hg1 Hr1]. cbn zeta in Hr1.
  assert (phys_of d f = rows) as Hpo by (unfold phys_of; by rewrite Hrows).
  assert (∃ one, replacements st1 = (replacements st ++ one)%list ∧
    (∀ x, x ∈ one.*1 → x = frag_id f) ∧ NoDup one.*1) as (one & Hone & Hone1 & Hone2).
  { destruct Hr1 as [[_ He]|He].
    - exists []. rewrite app_nil_r. split; [done|]. split; [by intros x ?%not_elem_of_nil|constructor].
    - eexists. split; [exact He|]. cbn. split; [by intros x ->%list_elem_of_singleton|apply NoDup_singleton]. }
  destruct (IH st1 Hnd) as (Hg & more & Hmore & Hsub & Hall & Hnodup); [|done|].
  { intros f' Hf'. destruct (Hfs f' ltac:(by apply list_elem_of_further)) as (? & ? & Hni).
    split; [done|]. split; [done|]. rewrite Hone, fmap_app. intros [?|Ho]%elem_of_app; [done|].
    apply Hone1 in Ho. apply Hf. rewrite <-Ho. by apply (list_elem_of_fmap_2 frag_id). }
  split.
  { cbn [map zsum]. rewrite Hpo. cbn zeta in Hg |- *. destruct Hg as [Hg Hge], Hg1 as [Hg1 Hge1].
    split; [lia|]. intros Hp. specialize (Hge Hp). specialize (Hge1 Hp). lia. }
  exists (one ++ more)%list. split; [by rewrite Hmore, Hone, app_assoc|]. split.
  { rewrite fmap_app. cbn [map]. intros x [->%Hone1|?]%elem_of_app; [apply list_elem_of_here|].
    apply list_elem_of_further. by apply Hsub. }
  assert (frag_id f ∉ more.*1) as Hfm by (intros Hin; by apply Hf, Hsub).
  split.
  - intros f' [->|Hf']%elem_of_cons; [|by apply Hall]. rewrite Hpo. destruct Hr1 as [[Hs He]|He].
    + left. split; [done|]. rewrite Hmore, He, fmap_app. by intros [?|?]%elem_of_app.
    + right. rewrite Hmore, He. apply elem_of_app. left. apply elem_of_app. right. apply list_elem_of_here.
  - intros Hn. apply Hnodup. rewrite Hone, fmap_app. apply NoDup_app. split; [done|]. split.
    + intros x Hx ->%Hone1. done.
    + done.
Qed.

Lemma settled_gains recompute rows : settled recompute rows → gains recompute rows = 0.
Proof.
  intros [-> Hs]. unfold gains, count_true. induction rows as [|r rows IH]; [done|].
  cbn [map List.filter]. destruct (fills false r) eqn:Hf; cbn [andb].
  - rewrite (Hs r (list_elem_of_here _ _) Hf). cbn [is_value id]. apply IH.
    intros r' Hr'. apply Hs. by apply list_elem_of_further.
  - apply IH. intros r' Hr'. apply Hs. by apply list_elem_of_further.
Qed.
Lemma zsum_zero {A} (f : A → Z) l : (∀ x, x ∈ l → f x = 0) → zsum (map f l) = 0.
Proof.
  induction l as [|x l IH]; [done|]. intros Hf. cbn [map zsum].
  rewrite Hf, IH; [done| |apply list_elem_of_here]. intros y Hy. apply Hf. by apply list_elem_of_further.
Qed.

(** ** The stamp *)
Lemma record_keeps_rows io io' puts latest pinned plan definition inputs sigs dir v d' dir' :
  record io io' puts latest pinned plan column definition inputs sigs dir = (v, d', dir') →
  fragments d' = fragments latest ∧ ∀ id, phys (version d') id = phys (version latest) id.
Proof.
  unfold record. destruct (record_freshness _ _ _ _ _ _ _ _ _ _) as [[[stamp d]|e|] dir0] eqn:Hr;
    [|by intros [= _ <- _]..].
  intros [= _ <- _]. unfold record_freshness in Hr.
  destruct (stored_on io latest column dir) as [old dir1].
  destruct (entries_of _ _ _) as [entries|e|]; [|done..].
  destruct (bool_decide _ && negb _); [by injection Hr as _ <- _|].
  destruct (signatures_for latest _ inputs) as [current|e|]; [|done..].
  destruct (write_signatures _ _ _ _ _ _ _) as [written dir2] eqn:Hw.
  injection Hr as (d1 & -> & Hd)%bind_Ok _. injection Hd as _ <-.
  unfold write_signatures in Hw. destruct (stored_on io' latest column dir1) as [old' dir3].
  destruct (if bool_decide _ then _ else _) as [encoded dir4].
  injection Hw as (enc & _ & Hup)%bind_Ok _. by eapply stamp_law.
Qed.

Lemma live_from_in n rows r : r ∈ rows → is_live r = true →
  ∃ row, row ∈ live_from n rows ∧ input row = map (cell r) roots ∧ value row = cell r column.
Proof.
  revert n; induction rows as [|x rows IH]; intros n; [by intros ?%not_elem_of_nil|].
  cbn [live_from]. intros [->|Hr]%elem_of_cons Hl.
  - rewrite Hl. eexists. split; [apply list_elem_of_here|done].
  - destruct (IH (n + 1) Hr Hl) as (row & Hrow & ?). exists row.
    split; [apply elem_of_app; by right|done].
Qed.

(** ** The rows after a refresh *)
Definition current_row (r : PhysRow V) : Prop := is_live r = true → cell r column = computes r.

Lemma new_cell_current recompute r : column ∉ roots → is_live r = true →
  (recompute = false → cell r column = None ∨ cell r column = computes r) →
  current_row (set_cell r (new_cell recompute r)).
Proof.
  intros Hself Hl Hfresh _. unfold computes. cbn [set_cell cell]. rewrite String.eqb_refl.
  assert (map (λ n, if String.eqb n column then new_cell recompute r else cell r n) roots =
    map (cell r) roots) as ->.
  { apply map_ext_in. intros n Hn%list_elem_of_In. destruct (String.eqb_spec n column) as [->|]; done. }
  fold (computes r). unfold new_cell, fills. rewrite Hl, andb_true_r.
  destruct recompute; [done|]. destruct (cell r column) eqn:Hc; cbn [is_value negb]; [|done].
  destruct (Hfresh eq_refl) as [?|?]; [done|congruence].
Qed.

Lemma settled_current rows r : (cell r column = None ∨ cell r column = computes r) →
  settled false rows → r ∈ rows → current_row r.
Proof.
  intros Hfresh [_ Hs] Hr Hl. destruct Hfresh as [Hn|?]; [|done]. rewrite Hn.
  symmetry. apply Hs; [done|]. unfold fills. by rewrite Hn, Hl.
Qed.

Lemma zip_set_map rows (f : PhysRow V → option V) :
  zip_with set_cell rows (map f rows) = map (λ r, set_cell r (f r)) rows.
Proof. induction rows as [|r rows IH]; [done|]. cbn. by rewrite IH. Qed.

Lemma settled_rows_current d plan f : column ∉ roots →
  (is_dirty plan (frag_id f) = false → ∀ r, r ∈ phys_of d f → is_live r = true →
     cell r column = None ∨ cell r column = computes r) →
  settled (is_dirty plan (frag_id f)) (phys_of d f) →
  ∀ r, r ∈ phys_of d f → current_row r.
Proof.
  intros Hself Hfresh Hs r Hr Hl. pose proof Hs as [Hd _]. rewrite Hd in Hs.
  by apply (settled_current (phys_of d f) r (Hfresh Hd r Hr Hl)).
Qed.
Lemma staged_rows_current d plan f : column ∉ roots →
  (is_dirty plan (frag_id f) = false → ∀ r, r ∈ phys_of d f → is_live r = true →
     cell r column = None ∨ cell r column = computes r) →
  ∀ r, r ∈ zip_with set_cell (phys_of d f)
             (map (new_cell (is_dirty plan (frag_id f))) (phys_of d f)) → current_row r.
Proof.
  intros Hself Hfresh r. rewrite zip_set_map. intros (r0 & -> & Hr0)%list_elem_of_fmap Hl.
  apply new_cell_current; [done|exact Hl| |exact Hl]. intros Hd. by apply Hfresh.
Qed.

Section current.
Context (inputs : InputFields) {TL : TruthLaws (T := truth) column inputs}.

(** The stamp the refresh starts from is true, or unreadable: then everything
    is computed again. *)
Definition sound_stamp (d : Dataset) (stored : StoredSignatures) : Prop :=
  match stored with
  | Absent => False
  | Unreadable => True
  | Present stored => grounded (T := truth) inputs (stamp_version column d) stored
  end.

Lemma clean_rows_fresh io definition d dir dir' plan f :
  checkout_version (version d) = Ok d → sound_stamp d (stored_on io d column dir).1 →
  staleness_against io d column definition inputs dir = (Ok plan, dir') → f ∈ fragments d →
  is_dirty plan (frag_id f) = false →
  ∀ r, r ∈ phys_of d f → is_live r = true → cell r column = None ∨ cell r column = computes r.
Proof.
  intros Hd Hs Hp Hf Hc r Hr Hl.
  destruct (ids_are_u32 (T := truth) column inputs _ _ Hd) as [_ Hrange].
  assert (as_u32 (frag_id f) = frag_id f) as Hu by by apply Z.mod_small, Hrange.
  destruct (stored_on io d column dir) as [stored dir1] eqn:Hst. cbn [fst] in Hs.
  assert (Forall (fresh_row (T := truth)) (rows_at (T := truth) (version d) (frag_id f))) as Hfresh.
  { rewrite <-Hu in Hc |- *. destruct stored as [|stored|]; [done| |].
    - destruct (staleness_present _ _ _ _ _ _ _ _ _ _ Hst Hp) as [->|Hpa]; [done|].
      by apply (plan_against_clean (T := truth) column inputs d stored plan f).
    - unfold staleness_against in Hp. rewrite Hst in Hp. injection Hp as <- _. done. }
  unfold phys_of in Hr. unfold rows_at in Hfresh. cbn [live_rows truth] in Hfresh.
  destruct (phys (version d) (frag_id f)) as [rows|]; [|by apply not_elem_of_nil in Hr].
  cbn in Hr, Hfresh. destruct (live_from_in 0 rows r Hr Hl) as (row & Hrow & Hi & Hv).
  rewrite Forall_forall in Hfresh. specialize (Hfresh row Hrow). unfold fresh_row in Hfresh.
  rewrite Hi, Hv in Hfresh. exact Hfresh.
Qed.

Lemma finish_rows io io' puts d handle p dir exec d' dir' :
  dataset handle = d →
  finish io io' puts handle column p dir = (Ok (exec, d'), dir') →
  filled exec = (match replacements (staged p) with [] => 0 | _ => rows_filled (staged p) end) ∧
  map frag_id (fragments d') = map frag_id (fragments d) ∧
  ∀ id, phys (version d') id =
    match (list_to_map (replacements (staged p)) : gmap Z (list (option V))) !! id with
    | Some values => (λ rows, zip_with set_cell rows values) <$> phys (version d) id
    | None => phys (version d) id
    end.
Proof.
  intros Hh. unfold finish. rewrite Hh. destruct (replacements (staged p)) as [|rep reps] eqn:Hreps.
  - destruct (record _ _ _ _ _ _ _ _ _ _ _) as [[v latest] dir2] eqn:Hr. intros [= <- <- _].
    split; [done|]. destruct v; [|done].
    destruct (record_keeps_rows _ _ _ _ _ _ _ _ _ _ _ _ _ Hr) as [-> Hph]. done.
  - destruct (commit_replacements d (rep :: reps)) as [nd|e|] eqn:Hc; [|done..].
    destruct (record _ _ _ _ _ _ _ _ _ _ _) as [[v latest] dir2] eqn:Hr. intros [= <- <- _].
    destruct (record_keeps_rows _ _ _ _ _ _ _ _ _ _ _ _ _ Hr) as [-> Hph].
    destruct (commit_law _ _ _ Hc) as [Hids Hrows]. split; [done|]. split; [done|].
    intros id. by rewrite Hph, Hrows.
Qed.

Lemma prepare_Ok io handle expression plan dir dir1 dir2 p :
  declared_expression (dataset handle) column = Ok expression →
  ComputedColumns.bind (arrow_schema (dataset handle)) column expression = Ok bound →
  fields_for_paths (schema (dataset handle)) (ComputedColumns.bound_inputs bound) = Ok inputs →
  staleness_against io (dataset handle) column (definition_version expression) inputs dir = (Ok plan, dir1) →
  (∀ field, schema_field (schema (dataset handle)) column = Some field → field_is_blob field = false) →
  prepare io handle column dir = (Ok p, dir2) →
  ∃ bases, stage_fragments (dataset handle) bases inputs bound column false plan
    (fragments (dataset handle)) (mkStaged 0 [] ∅) = Ok (staged p).
Proof.
  intros He Hb Hi Hplan Hblob Hp. unfold prepare in Hp.
  match type of Hp with context [match ?o with _ => _ end] => destruct o as [[[[[e b] blob] ins] bases]|?|] eqn:Ho;
    [|done..] end.
  apply bind_Ok in Ho as (_ & _ & Ho). apply bind_Ok in Ho as (_ & _ & Ho).
  rewrite He in Ho. cbn [mbind outcome_bind] in Ho. rewrite Hb in Ho. cbn [mbind outcome_bind] in Ho.
  apply bind_Ok in Ho as (_ & _ & Ho). apply bind_Ok in Ho as (field & Hf%ok_or_Ok & Ho).
  rewrite Hi in Ho. cbn [mbind outcome_bind] in Ho.
  apply bind_Ok in Ho as (bases' & _ & [= <- <- <- <- <-]). rewrite (Hblob field Hf) in Hp.
  rewrite Hplan in Hp. injection Hp as Hs _. apply bind_Ok in Hs as (st & Hst & [= <-]).
  by exists bases'.
Qed.

(** * Properties *)

End current.
End rows.

(** ** A table with an unfilled row and a stale fragment *)
Module Demo.
#[local] Existing Instance Freshness.Demo.formats.
#[local] Existing Instance Freshness.Demo.storage.
Definition int : Schema.DataType := Schema.TOther "int".
Definition bound : BoundExpression := ComputedColumns.mkBound ["x"] ["x"] int int [] None.
Definition arrow : ArrowSchema :=
  Schema.mkSchema
    [Schema.mkField "x" int true ∅; ComputedColumns.Demo.computed "y" "x"] ∅.
Definition v1 : Dataset :=
  Freshness.Demo.table [Freshness.Demo.fragment 0 "a"; Freshness.Demo.fragment 1 "b"] 1.
Definition row (id : option Z) (x : Z) (y : option Z) : PhysRow Z :=
  mkPhys id (λ n, if String.eqb n "x" then Some x else if String.eqb n "y" then y else None).
Definition before (id : Z) : option (list (PhysRow Z)) :=
  if id =? 0 then Some [row (Some 0) 10 (Some 11); row (Some 1) 20 None; row None 5 None]
  else if id =? 1 then Some [row (Some 2) 30 (Some 99)]
  else None.
Definition expected : list (Z * list (option Z)) :=
  [(0, [Some 11; Some 21; None]); (1, [Some 31])].
Definition after (id : Z) : option (list (PhysRow Z)) :=
  match (list_to_map expected : gmap Z (list (option Z))) !! id with
  | Some values => (λ rows, zip_with (set_cell "y") rows values) <$> before id
  | None => before id
  end.

#[local] Instance store : Store Z := {
  phys v id := if v =? 1 then before id else after id;
  compute cells := match cells with [Some x] => Some (x + 1) | _ => None end
}.
#[local] Instance log : Log := {
  checkout_version v := if v =? 1 then Ok v1 else Err (Runtime "no version");
  read_transaction_by_version _ := NoTransaction;
  count_rows d f :=
    Ok (Z.of_nat (length (default [] (live_from bound "y" 0 <$> before (frag_id f)))));
  Freshness.scan _ _ _ _ := Ok [Err (Runtime "no scan")];
  update_field_metadata d _ entries :=
    if version d =? 2
    then Ok (mkDataset (uri d) (base_paths d) (fragments d)
               (Freshness.Demo.with_stamp (list_to_map entries)) 3)
    else Err (Runtime "conflict")
}.
Definition rows_in (d : Dataset) (f : Fragment) : list (PhysRow Z) :=
  default [] (phys (version d) (frag_id f)).
#[local] Instance engine : Engine Z := {
  arrow_schema _ := arrow;
  resolve_field _ _ := None;
  field_is_blob _ := false;
  evaluate_physical _ columns _ :=
    match columns with
    | [(_, column)] =>
        let cells := map (λ c : option Z, (λ x, x + 1) <$> c) column in
        Ok (Array (mkArrayRef cells (logical_nulls cells)))
    | _ => Err (Runtime "no column")
    end;
  to_array_of_size value n :=
    mkArrayRef (replicate n value) (logical_nulls (replicate n value));
  scan_null d f names _ _ :=
    Ok [Ok (batch_of names (List.filter (fills "y" false) (rows_in d f)))];
  scan_all d f names _ := Ok [Ok (batch_of names (rows_in d f))];
  blob_array values := Ok values;
  write_columns _ _ _ _ := Ok tt;
  commit_replacements d reps :=
    if (version d =? 1) && bool_decide (reps = expected)
    then Ok (mkDataset (uri d) (base_paths d) (fragments d) (schema d) 2)
    else Err (Runtime "conflict")
}.

Lemma one_batch names rows : delivers (V := Z) names rows [Ok (batch_of names rows)].
Proof. rewrite <-(app_nil_r rows) at 1. apply delivers_batch, delivers_end. Qed.

#[local] Instance engine_laws : EngineLaws bound "y".
Proof.
  split.
  - intros d f names ids rows batches _ _ Hr [= <-]. unfold rows_in. rewrite Hr. apply one_batch.
  - intros d f names ids rows batches _ _ Hr [= <-]. unfold rows_in. rewrite Hr. apply one_batch.
  - intros gs value [= <-]. split; [|done]. cbn. rewrite map_map. apply map_ext. intros g.
    by destruct (g "x").
  - intros d reps d'. cbn. destruct (Z.eqb_spec (version d) 1) as [Hv|]; [|done]. cbn [andb].
    case_bool_decide as Hr; [|done]. intros [= <-]. split; [done|]. intros id. cbn.
    by rewrite Hr.
  - intros d entries d'. cbn. destruct (Z.eqb_spec (version d) 2) as [Hv|]; [|done].
    intros [= <-]. split; [done|]. intros id. cbn. by rewrite Hv.
Qed.

Lemma checkout_v1 v d : checkout_version v = Ok d → v = 1 ∧ d = v1.
Proof. cbn. destruct (Z.eqb_spec v 1); [|done]. by intros [= <-]. Qed.

Lemma before_get id : is_Some (before id) ↔ is_Some (get_fragment v1 id).
Proof.
  unfold before, get_fragment, v1. cbn [Freshness.Demo.table fragments List.find frag_id
    Freshness.Demo.fragment]. rewrite (Z.eqb_sym id 0), (Z.eqb_sym id 1).
  destruct (0 =? id); [split; eauto|]. destruct (1 =? id); [split; eauto|]. done.
Qed.

#[local] Instance truth_laws : TruthLaws (T := truth bound "y") "y" Freshness.Demo.inputs.
Proof.
  split.
  - intros v d [-> ->]%checkout_v1. split; [apply (bool_decide_unpack _); reflexivity|].
    intros f. cbn. rewrite !elem_of_cons, elem_of_nil. intros Hf. repeat destruct Hf as [->|Hf]; done.
  - intros v d id [-> ->]%checkout_v1. rewrite <-before_get. cbn. by rewrite fmap_is_Some.
  - intros v d id f n [-> ->]%checkout_v1 [_ <-%Z.eqb_eq]%List.find_some [= <-]. done.
  - intros v v' d d' id b b' f f' r _ [-> ->]%checkout_v1 [-> ->]%checkout_v1 _ _ _ _ _ Hr.
    exists r. auto.
  - exact Freshness.Demo.printed.
  - intros v v' d d' id t t' [-> ->]%checkout_v1 [-> ->]%checkout_v1 Ht Ht' _. congruence.
  - intros v d groups g ids Ht. done.
  - intros v d id f batches r _ _ [= <-] _ _. apply Exists_cons. by left.
Qed.

Definition handle : Handle := mkHandle (Ok tt) (Ok false) (Ok false) v1.
Definition io : Io := mkIo None true 0.
Definition run := execute_refresh_column_with_source io io io true handle "y" ∅.
Definition outcome : RefreshExecution * Dataset :=
  match run.1 with Ok r => r | _ => (mkExecution 0 0 0 None, v1) end.
Definition the_plan : StalenessPlan :=
  match (staleness_against io v1 "y" (definition_version "x") Freshness.Demo.inputs ∅).1 with
  | Ok plan => plan
  | _ => default_plan
  end.

Lemma stamp_sound : sound_stamp bound "y" Freshness.Demo.inputs v1 (stored_on io v1 "y" ∅).1.
Proof.
  assert (stored_on io v1 "y" ∅ =
    (Present {[ 0 := Freshness.Demo.signature (Freshness.Demo.fragment 0 "a") ]}, ∅)) as ->
    by (vm_compute; reflexivity).
  intros id s [<- <-]%lookup_singleton_Some. exists 1, v1. split; [vm_compute; discriminate|].
  split; [reflexivity|]. split; [vm_compute; reflexivity|].
  apply Forall_cons. split; [by right|]. apply Forall_cons. split; [by left|]. by apply Forall_nil.
Qed.
End Demo.

End Refresh.
