(* ===== verification/Admission.v ===== *)
(** * Admitting declarations (table/computed_columns.rs)

    A table created with computed columns: every declaration its schema carries
    is checked against the schema, and the stream of its first rows may hold no
    values for them.  What is admitted is what [Refresh] can execute. *)

From Stdlib Require Import String.
From stdpp Require Import strings sorting.
From S2P Require Import Prelude RustStr RustText Sidecar Schema ComputedColumns.
From S2P Require Import SchemaChanges Freshness Refresh.

Module Admission.
Import ComputedColumns SchemaChanges.
Import Refresh (ArrayRef, Engine, mkArrayRef, values, null_count, is_value, logical_nulls).
Local Open Scope string_scope.

Section admission.
Context {P : Planner} {BC : BindingChecks}.

(** ** Declarations *)
Definition has_declaration_key (f : Field) : bool :=
  existsb is_declaration_key (map fst (map_to_list (field_metadata f))).
Definition ensure_complete (f : Field) : result unit :=
  if has_declaration_key f && bool_decide (computed_column_from_field f = None)
  then Err (InvalidInput "field '{}' carries an incomplete computed-column declaration")
  else Ok tt.

Definition without (schema : ArrowSchema) (column : string) : ArrowSchema :=
  mkSchema (List.filter (λ f, negb (String.eqb (field_name f) column)) (fields schema)) ∅.

Definition ensure_sql_planned (schema : ArrowSchema) (declared : list string)
    (column : ComputedColumn) (field : Field) (expression : string) : result unit :=
  bound ← bind (without schema (name column)) (name column) expression;
  match List.find (λ r, mem r declared) (roots bound) with
  | Some _ => Err (InvalidInput "computed column '{}' reads computed column '{input}'")
  | None =>
      if negb (bool_decide (data_type bound = field_type field))
      then Err (InvalidInput "computed column '{}' is declared as {} but its expression yields {}")
      else if negb (bool_decide (merge_sort str_le (inputs column) = bound_inputs bound))
      then Err (InvalidInput "computed column '{}' declares inputs {:?} but its expression reads {:?}")
      else Ok tt
  end.
Definition ensure_planned (schema : ArrowSchema) (declared : list string) (column : ComputedColumn)
    : result unit :=
  field ← ok_or (Arrow "Unable to get field named {}") (field_with_name schema (name column));
  if negb (field_nullable field)
  then Err (InvalidInput "computed column '{}' must be nullable until a refresh fills it")
  else match kind column with
  | Sql expression => ensure_sql_planned schema declared column field expression
  | Function _ _ => Ok tt
  | Unrecognized _ => Err (NotSupported "computed column '{}' is defined by '{kind}', which this version of lancedb cannot fill")
  end.
Definition ensure_declarations_are_planned (schema : ArrowSchema) : result unit :=
  _ ← try_for ensure_complete (fields schema);
  _ ← try_for (ensure_planned schema (map name (computed_columns schema))) (computed_columns schema);
  ensure_supported_function_metadata schema.

(** ** The first rows *)
Section batches.
Context {V : Type}.

(** A record batch: its named columns *)
Definition Batch : Type := list (string * ArrayRef V).
Definition column_by_name (batch : Batch) (column : string) : option (ArrayRef V) :=
  snd <$> List.find (λ c, String.eqb c.1 column) batch.

Definition ensure_unwritten (batch : Batch) (column : string) : result unit :=
  match column_by_name batch column with
  | Some array =>
      if negb (Nat.eqb (null_count array) (length (values array)))
      then Err (InvalidInput "column '{name}' is computed; its values come from refresh and cannot be written directly")
      else Ok tt
  | None => Ok tt
  end.
Definition ensure_batch_writes_no_computed_values (declared : list string) (batch : Batch)
    : result unit :=
  try_for (ensure_unwritten batch) declared.

Record UnfilledDeclarations : Type := mkUnfilled {
  inner : ArrowSchema * list (result Batch);
  declared : list string
}.
Definition admit_create_source (batches : ArrowSchema * list (result Batch))
    : result UnfilledDeclarations :=
  _ ← ensure_declarations_are_planned batches.1;
  Ok (mkUnfilled batches (map name (computed_columns batches.1))).
Definition unfilled_item (declared : list string) (item : result Batch) : result Batch :=
  batch ← item;
  _ ← ensure_batch_writes_no_computed_values declared batch;
  Ok batch.
Definition into_stream (u : UnfilledDeclarations) : list (result Batch) :=
  match declared u with
  | [] => (inner u).2
  | declared => map (unfilled_item declared) (inner u).2
  end.
End batches.
End admission.

(** * Lemmas *)
Section laws.
Context {P : Planner} {BC : BindingChecks} {PL : PlannerLaws}.

Lemma without_names s c : names (without s c) = List.filter (λ n, negb (String.eqb n c)) (names s).
Proof.
  unfold names, without. cbn. induction (fields s) as [|f l IH]; [done|]. cbn.
  destruct (String.eqb (field_name f) c); cbn; by rewrite IH.
Qed.
Lemma elem_of_without n s c : n ∈ names (without s c) ↔ n ∈ names s ∧ n ≠ c.
Proof.
  rewrite without_names, !list_elem_of_In, List.filter_In, negb_true_iff, String.eqb_neq. done.
Qed.
Lemma NoDup_without s c : NoDup (names s) → NoDup (names (without s c)).
Proof. rewrite without_names, !NoDup_ListNoDup. apply List.NoDup_filter. Qed.
Lemma shape_without s c n : n ≠ c → shape_of (without s c) n = shape_of s n.
Proof.
  intros Hn. unfold shape_of, field_with_name, without. cbn.
  induction (fields s) as [|f l IH]; [done|]. cbn.
  destruct (String.eqb_spec (field_name f) c) as [->|]; cbn.
  - destruct (String.eqb_spec c n); [done|]. exact IH.
  - destruct (String.eqb (field_name f) n); [done|]. exact IH.
Qed.

Lemma computed_name f c : computed_column_from_field f = Some c → name c = field_name f.
Proof.
  unfold computed_column_from_field. destruct (negb _); [done|].
  destruct (kind_of _); [|done]. by intros [= <-].
Qed.

(** The columns that evaluation reads are the roots of the inputs. *)
Lemma bind_roots s c e x b r : NoDup (names s) → blob_free s → bind s c e = Ok b →
  parse_expr s e = Ok x → r ∈ roots b ↔ ∃ i, i ∈ column_names_in_expr x ∧ root i = r.
Proof.
  intros Hnd Hbf Hb Hx. unfold bind in Hb. rewrite !runtime_id, Hx in Hb by done. cbn [map_err] in Hb.
  apply bind_Ok in Hb as (x1 & [= <-] & Hb). apply bind_Ok in Hb as (pr & _ & Hb).
  destruct (first_volatile x); [done|]. apply bind_Ok in Hb as (blobs & _ & Hb).
  rewrite !runtime_id in Hb by done. apply bind_Ok in Hb as (idx & Hidx & Hb).
  apply bind_Ok in Hb as (o & _ & Hb). apply bind_Ok in Hb as (p & _ & Hb).
  apply bind_Ok in Hb as (t & _ & [= <-]). cbn [roots].
  apply (input_indices_invalid _ (InvalidExpression "")) in Hidx.
  pose proof (shape_of_project s (sorted_inputs x) idx r Hnd Hidx) as Hsh.
  destruct (input_indices_Ok _ _ _ _ _ Hidx) as [Hin _].
  assert (r ∈ names (project s (merge_sort le idx)) ↔ is_Some (shape_of (project s (merge_sort le idx)) r)) as ->.
  { unfold shape_of. rewrite fmap_is_Some. destruct (field_with_name _ r) as [g|] eqn:Hg.
    - apply field_with_name_Some in Hg as [Hg <-]. split; [by eexists|].
      intros _. by apply (list_elem_of_fmap_2 field_name).
    - apply field_with_name_None in Hg. split; [done|by intros []]. }
  rewrite Hsh. case_decide as Hr.
  - split; [intros _|intros _].
    + apply list_elem_of_fmap in Hr as (i & -> & Hi%elem_of_sorted_inputs). by exists i.
    + apply list_elem_of_fmap in Hr as (i & -> & Hi). apply Hin in Hi as (g & Hg & Hgs)%list_elem_of_fmap.
      rewrite Hg, (shape_of_in s g Hnd Hgs). by eexists.
  - split; [by intros []|]. intros (i & Hi & <-). destruct Hr.
    apply (list_elem_of_fmap_2 root). by apply elem_of_sorted_inputs.
Qed.

Lemma without_blob_free s c : blob_free s → blob_free (without s c).
Proof.
  apply blob_free_sub. unfold without. cbn [fields]. intros f.
  rewrite !list_elem_of_In, List.filter_In. tauto.
Qed.

(** What the checks of a SQL declaration establish *)
Lemma planned_sql s f c e : plain s → f ∈ fields s → computed_column_from_field f = Some c →
  kind c = Sql e → ensure_declarations_are_planned s = Ok tt →
  ∃ b, bind s (field_name f) e = Ok b ∧ shape (data_type b) = shape (field_type f) ∧
    bound_inputs b = merge_sort str_le (inputs c) ∧
    (∀ r, r ∈ roots b → r ∈ map root (bound_inputs b)) ∧
    ∀ i, i ∈ bound_inputs b → root i ∈ names s ∧ root i ∉ map name (computed_columns s).
Proof.
  intros [[Hnd Hroot] Hbf] Hf Hc He Hp. pose proof (without_blob_free s (field_name f) Hbf) as Hbfw. pose proof (computed_name f c Hc) as Hn.
  apply bind_Ok in Hp as ([] & _ & Hp). apply bind_Ok in Hp as ([] & Hp & _).
  pose proof (try_for_elem _ _ c Hp (elem_of_computed s f c Hf Hc)) as Hone.
  unfold ensure_planned in Hone. rewrite Hn, (field_with_name_in s f Hnd Hf), He in Hone.
  cbn [ok_or mbind outcome_bind] in Hone. destruct (negb (field_nullable f)); [done|].
  apply bind_Ok in Hone as (b & Hb & Hone). rewrite Hn in Hb.
  destruct (List.find _ (roots b)) eqn:Hr; [done|].
  destruct (negb (bool_decide (data_type b = _))) eqn:Ht; [done|].
  apply negb_false_iff, bool_decide_eq_true in Ht.
  destruct (negb (bool_decide (_ = bound_inputs b))) eqn:Hi; [done|].
  apply negb_false_iff, bool_decide_eq_true in Hi.
  destruct (bind_inv _ _ _ _ Hbfw Hb) as (x & Hx & Hin & Hrx).
  destruct (bind_agree (without s (field_name f)) s _ (field_name f) e x b
    (NoDup_without _ _ Hnd) Hnd Hbfw Hbf Hb Hx) as (b' & Hb' & Ht' & Hin').
  { intros i Hi'. apply shape_without. apply (elem_of_without (root i) s). by apply Hrx. }
  exists b'. split; [done|]. split; [congruence|]. split; [congruence|]. split.
  { assert (parse_expr s e = Ok x) as Hxs.
    { apply (parse_local (without s (field_name f)) s e x Hx). intros i Hi'. apply shape_without.
      apply (elem_of_without (root i) s). by apply Hrx. }
    intros r Hr'. apply (bind_roots _ _ _ _ _ _ Hnd Hbf Hb' Hxs) in Hr' as (i & Hi' & <-).
    apply (list_elem_of_fmap_2 root). rewrite Hin', Hin. by apply elem_of_sorted_inputs. }
  intros i Hib. rewrite Hin', Hin in Hib. apply elem_of_sorted_inputs in Hib as Hix.
  split; [by apply (elem_of_without _ s (field_name f)), Hrx|]. intros Hdecl.
  pose proof (List.find_none _ _ Hr (root i)) as Hno. cbn beta in Hno.
  assert (root i ∈ roots b) as Hrb.
  { apply (bind_roots _ _ _ _ _ _ (NoDup_without _ _ Hnd) Hbfw Hb Hx). by exists i. }
  apply list_elem_of_In in Hrb. specialize (Hno Hrb). unfold mem in Hno.
  by apply bool_decide_eq_false in Hno.
Qed.

Lemma elem_of_computed_names s f c : f ∈ fields s → computed_column_from_field f = Some c →
  field_name f ∈ map name (computed_columns s).
Proof.
  intros Hf Hc. rewrite <-(computed_name f c Hc). apply (list_elem_of_fmap_2 name).
  by apply (elem_of_computed s f).
Qed.

Lemma planned_evaluable s : plain s → ensure_declarations_are_planned s = Ok tt → evaluable s.
Proof.
  intros Hw Hp. split; [done|]. intros f Hf c e Hc He.
  destruct (planned_sql s f c e Hw Hf Hc He Hp) as (b & Hb & Ht & _ & _ & Hin). exists b.
  split; [done|]. split; [done|]. intros (i & Heq & Hi)%list_elem_of_fmap.
  apply (Hin i Hi). rewrite <-Heq. by apply (elem_of_computed_names s f c).
Qed.

Lemma all_null {V} (l : list (option V)) : logical_nulls l = length l → Forall (λ c, c = None) l.
Proof.
  unfold logical_nulls. induction l as [|[x|] l IH]; cbn; [constructor| |].
  - pose proof (List.filter_length_le negb (map is_value l)) as Hle. rewrite length_map in Hle. lia.
  - intros [= Hl]. constructor; [done|by apply IH].
Qed.

Lemma unfilled_stream {V} (u : UnfilledDeclarations (V := V)) b column array :
  Ok b ∈ into_stream u → column ∈ declared u → column_by_name b column = Some array →
  null_count array = length (values array).
Proof.
  unfold into_stream. destruct (declared u) as [|c0 cs] eqn:Hd; [by intros _ ?%not_elem_of_nil|].
  intros (item & Hb & _)%list_elem_of_fmap Hc Hv. unfold unfilled_item in Hb.
  destruct item as [b'|e|]; cbn [mbind outcome_bind] in Hb; [|done..].
  destruct (ensure_batch_writes_no_computed_values (c0 :: cs) b') as [[]|e|] eqn:He; [|done..].
  assert (b' = b) as -> by (cbn [mbind outcome_bind] in Hb; congruence).
  apply (try_for_elem _ _ column) in He; [|done]. unfold ensure_unwritten in He. rewrite Hv in He.
  by destruct (Nat.eqb_spec (null_count array) (length (values array))).
Qed.

(** * Properties *)

(** C22: A table created with computed columns starts in a state that refresh can work on:
    when its schema has no Blob v2 column and is admitted, the expression of every SQL
    column binds against it to a type of the column's shape, reads no computed column, and
    a refresh of the column finds its declaration and is not refused for unfilled inputs;
    the columns stay evaluable through any later schema changes that keep to
    [schema_step]; and the rows the table is created from hold no value in a computed
    column, a validity buffer counting no slot that holds one. *)
Theorem admitted_columns_can_refresh {LS : LanceSchema} {SL : SchemaLaws} {Fm : Freshness.Formats}
    {L : Freshness.Log} {St : Sidecar.Storage} {V : Type} {En : Engine V} (d : Freshness.Dataset)
    (items : list (result (Batch (V := V)))) (u : UnfilledDeclarations)
    (Hplain : plain (Refresh.arrow_schema d))
    (Hadmitted : admit_create_source (Refresh.arrow_schema d, items) = Ok u) :
  (∀ f c e, f ∈ fields (Refresh.arrow_schema d) → computed_column_from_field f = Some c →
     kind c = Sql e → ∃ b,
     Refresh.declared_expression d (field_name f) = Ok e ∧
     bind (Refresh.arrow_schema d) (field_name f) e = Ok b ∧
     shape (data_type b) = shape (field_type f) ∧
     (∀ i, i ∈ bound_inputs b →
        root i ∈ names (Refresh.arrow_schema d) ∧
        ¬ ∃ g, g ∈ fields (Refresh.arrow_schema d) ∧ field_name g = root i ∧
            is_Some (computed_column_from_field g)) ∧
     Refresh.ensure_inputs_filled d (Refresh.arrow_schema d) (field_name f) b = Ok tt) ∧
  (∀ s, rtc schema_step (Refresh.arrow_schema d) s → evaluable s) ∧
  (∀ b f array, Ok b ∈ into_stream u → f ∈ fields (Refresh.arrow_schema d) →
     is_Some (computed_column_from_field f) → column_by_name b (field_name f) = Some array →
     (null_count array ≤ logical_nulls (values array))%nat → Forall (λ c, c = None) (values array)).
Proof.
  unfold admit_create_source in Hadmitted. apply bind_Ok in Hadmitted as ([] & Hp & Hu).
  cbn [fst] in Hp. split; [|split].
  - intros f c e Hf Hc He. destruct (planned_sql _ f c e Hplain Hf Hc He Hp)
      as (b & Hb & Ht & _ & Hroots & Hin). exists b. split.
    { unfold Refresh.declared_expression. rewrite (field_with_name_in _ f (proj1 (proj1 Hplain)) Hf).
      cbn [ok_or mbind outcome_bind]. rewrite Hc. cbn [ok_or mbind outcome_bind]. by rewrite He. }
    split; [done|]. split; [done|]. split.
    { intros i Hi. destruct (Hin i Hi) as [Hn Hno]. split; [done|]. intros (g & Hg & Hgn & [cg Hcg]).
      apply Hno. rewrite <-Hgn. by apply (elem_of_computed_names _ g cg). }
    apply try_for_Ok, Forall_forall. intros r Hr.
    unfold Refresh.ensure_input_filled.
    destruct (field_with_name (Refresh.arrow_schema d) r) as [g|] eqn:Hg; [|done]. cbn [mbind option_bind].
    destruct (computed_column_from_field g) as [cg|] eqn:Hcg; [|done]. exfalso.
    apply field_with_name_Some in Hg as [Hg <-].
    apply Hroots in Hr as (i & Hi & Hib)%list_elem_of_fmap. apply (Hin i Hib). rewrite <-Hi.
    by apply (elem_of_computed_names _ g cg).
  - intros s Hs. apply (changes_keep_evaluable (Refresh.arrow_schema d) s); [|done].
    by apply planned_evaluable.
  - intros b f array Hb Hf [c Hc] Ha Hle. apply all_null.
    assert (null_count array = length (values array)) as Hn.
    { apply (unfilled_stream u b (field_name f) array); [done| |done]. injection Hu as <-.
      by apply (elem_of_computed_names _ f c). }
    pose proof (List.filter_length_le negb (map is_value (values array))) as Hl.
    rewrite length_map in Hl. unfold logical_nulls in *. lia.
Qed.
End laws.

(** ** A table created with a column [y] computed from [x] *)
Module Demo.
Definition schema : ArrowSchema := Refresh.Demo.arrow.
Definition good : Batch (V := Z) :=
  [("x", mkArrayRef [Some 1%Z; Some 2%Z] 0); ("y", mkArrayRef [None; None] 2)].
Definition bad : Batch (V := Z) := [("x", mkArrayRef [Some 1%Z] 0); ("y", mkArrayRef [Some 2%Z] 0)].
(** A dictionary whose values are null counts none of its slots. *)
Definition masked : Batch (V := Z) := [("y", mkArrayRef [None] 0)].
Definition items : list (result (Batch (V := Z))) := [Ok good; Ok bad; Ok masked].
Definition source : UnfilledDeclarations :=
  match @admit_create_source ComputedColumns.Demo.planner Table1.checks Z (schema, items) with
  | Ok u => u
  | _ => mkUnfilled (schema, items) []
  end.
End Demo.

Lemma admitted_columns_can_refresh_witness :
  (∃ e, into_stream Demo.source = [Ok Demo.good; Err e; Err e]) ∧
  ∃ b, @bind ComputedColumns.Demo.planner Demo.schema "y" "x" = Ok b ∧
    @evaluable ComputedColumns.Demo.planner Demo.schema.
Proof.
  split; [eexists; vm_compute; reflexivity|].
  destruct (@admitted_columns_can_refresh ComputedColumns.Demo.planner Table1.checks
    Table1.planner_laws Table1.lance Table1.schema_laws Freshness.Demo.formats Refresh.Demo.log
    Freshness.Demo.storage Z Refresh.Demo.engine Refresh.Demo.v1 Demo.items Demo.source)
    as (Hcols & Hev & _).
  - split; [split; [apply (bool_decide_unpack _); vm_compute; reflexivity|by intros n _]|].
    apply Table1.no_blob.
  - vm_compute. reflexivity.
  - destruct (Hcols (ComputedColumns.Demo.computed "y" "x") (mkComputed "y" (Sql "x") ["x"]) "x")
      as (b & _ & Hb & _).
    + cbn. rewrite !elem_of_cons. auto.
    + vm_compute. reflexivity.
    + reflexivity.
    + exists b. split; [exact Hb|]. apply Hev. reflexivity.
Defined.
End Admission.
