(* ===== verification/ViewQuery.v ===== *)
(** * The query of a materialized view (materialized_view/query.rs)

    A view is stored as one canonical SQL query.  sqlparser's tokenizer, parser
    and printer are the class [SqlParser]; its syntax trees are inductive types
    with the constructors the code matches on, the rest of a node being its
    text.  An identifier carries how it was quoted: the code never reads that,
    but the text that a view stores is printed with it. *)

From Stdlib Require Import Ascii String.
From stdpp Require Import strings pretty.
From S2P Require Import Prelude RustStr RustText Schema ComputedColumns.

Module ViewQuery.
Import ComputedColumns (Planner, parse_expr, column_names_in_expr).
Import Schema.
Local Open Scope string_scope.

(** ** Definitions of views (materialized_view.rs) *)
Record ViewProjection : Type := mkProjection { output : string; expression : string }.
#[global] Instance ViewProjection_eq_dec : EqDecision ViewProjection.
Proof. solve_decision. Defined.
Definition star : ViewProjection := mkProjection "*" "*".

Inductive LateralSource : Type :=
  | LUnnest (column : string)
  | LFunction (name : string) (args : list string).
#[global] Instance LateralSource_eq_dec : EqDecision LateralSource.
Proof. solve_decision. Defined.
Record ViewLateral : Type := mkLateral { lateral_source : LateralSource; lateral_alias : string }.
#[global] Instance ViewLateral_eq_dec : EqDecision ViewLateral.
Proof. solve_decision. Defined.

Record MaterializedViewDefinition : Type := mkDefinition {
  source_table : string;
  source_namespace : list string;
  lateral : option ViewLateral;
  projections : list ViewProjection;
  view_filter : option string;
  group_by : list string;
  limit : option Z
}.
#[global] Instance MaterializedViewDefinition_eq_dec : EqDecision MaterializedViewDefinition.
Proof. solve_decision. Defined.

Definition is_grouped (d : MaterializedViewDefinition) : bool :=
  match group_by d with [] => false | _ => true end.
Definition selects_star (d : MaterializedViewDefinition) : bool :=
  match projections d with [p] => bool_decide (p = star) | _ => false end.

(** ** Syntax trees *)
Inductive Token : Type :=
  | Word (value : string) (quote : option ascii)
  | OtherToken (text : string).

Record Ident : Type := mkIdent { ident_value : string; quote_style : option ascii }.
Inductive SqlExpr : Type :=
  | Identifier (ident : Ident)
  | CompoundIdentifier (parts : list Ident)
  | NumberValue (number : string)
  | OtherValue (text : string)
  | Rollup (text : string) | Cube (text : string) | GroupingSets (text : string)
  | OtherSqlExpr (text : string).

Inductive ObjectNamePart : Type := NameIdentifier (ident : Ident) | NameFunction (text : string).
Inductive FunctionArg : Type := UnnamedArg (e : SqlExpr) | OtherArg (text : string).
Record TableAlias : Type := mkAlias { alias_name : Ident; explicit : bool }.
Inductive TableFactor : Type :=
  | TableRelation (name : list ObjectNamePart) (alias : option TableAlias)
      (args : option (list FunctionArg)) (modifiers : string)
  | FunctionRelation (name : list ObjectNamePart) (args : list FunctionArg)
      (alias : option TableAlias) (modifiers : string)
  | UnnestRelation (alias : option TableAlias) (array_exprs : list SqlExpr) (modifiers : string)
  | OtherRelation (text : string).
Inductive JoinOperator : Type := CrossJoin (constraint : string) | OtherJoin (text : string).
Record Join : Type := mkJoin { join_relation : TableFactor; join_operator : JoinOperator }.
Record TableWithJoins : Type := mkFrom { relation : TableFactor; joins : list Join }.
Inductive SelectItem : Type :=
  | Wildcard (options : string)
  | UnnamedExpr (e : SqlExpr)
  | ExprWithAlias (e : SqlExpr) (alias : Ident)
  | OtherItem (text : string).
Inductive GroupByExpr : Type :=
  | GroupExpressions (exprs : list SqlExpr) (modifiers : list string)
  | GroupByAll (text : string).
Record Select : Type := mkSelect {
  projection : list SelectItem;
  from : list TableWithJoins;
  selection : option SqlExpr;
  having : option SqlExpr;
  select_group_by : GroupByExpr;
  other_clauses : string
}.
Inductive SetExpr : Type := SelectBody (s : Select) | OtherBody (text : string).
Inductive LimitClause : Type :=
  | LimitOffset (limit : option SqlExpr) (offset : option string) (limit_by : list SqlExpr)
  | OtherLimit (text : string).
Record Query : Type := mkQuery {
  body : SetExpr;
  limit_clause : option LimitClause;
  query_clauses : string
}.
Inductive Statement : Type := QueryStatement (q : Query) | OtherStatement (text : string).

(** [parse_leading_expr]: the expression, and whether the input ends after it *)
Class SqlParser : Type := {
  tokenize : string → outcome string (list Token);
  token_to_string : Token → string;
  parse_statements : string → outcome string (list Statement);
  parse_leading_expr : string → outcome string (SqlExpr * bool);
  expr_to_string : SqlExpr → string;
  object_name_to_string : list ObjectNamePart → string;
  query_to_string : Query → string;
  reserved_keyword : string → bool
}.

Definition invalid {A} (message : string) : result A := Err (InvalidInput message).

Section query.
Context {P : Planner} {Sql : SqlParser}.

(** ** Spelling identifiers *)
Definition plain_char (first : bool) (c : ascii) : bool :=
  Ascii.eqb c "_" || between "a" "z" c || (negb first && is_ascii_digit c).
Definition is_plain (name : string) : bool :=
  match name with
  | "" => false
  | String c rest => plain_char true c && all_chars (plain_char false) rest
  end.
Definition reads_as_column (name : string) : bool :=
  match parse_expr (mkSchema [mkField name (TOther "Int32") true ∅] ∅) (name +:+ " IS NOT NULL") with
  | Ok e => bool_decide (column_names_in_expr e = [name])
  | _ => false
  end.
Definition reads_as_table (name : string) : bool :=
  match parse_statements ("SELECT 1 FROM " +:+ name) with
  | Ok [QueryStatement q] =>
      match body q with
      | SelectBody s =>
          match from s with
          | [f] =>
              match relation f with
              | TableRelation table _ _ _ => String.eqb (object_name_to_string table) name
              | _ => false
              end
          | _ => false
          end
      | OtherBody _ => false
      end
  | _ => false
  end.
Definition needs_quote (name : string) : bool :=
  if negb (is_plain name) then true
  else if reserved_keyword name then true
  else if negb (reads_as_column name) then true
  else negb (reads_as_table name).
Definition ident_sql (name : string) : string :=
  if needs_quote name then "`" +:+ double_char "`"%char name +:+ "`" else name.

Definition dquote : ascii := ascii_of_nat 34.
Definition canonical_token (token : Token) : string :=
  match token with
  | Word value (Some q) =>
      if Ascii.eqb q dquote then ident_sql (undouble_char dquote value)
      else if Ascii.eqb q "`" then ident_sql (undouble_char "`"%char value)
      else token_to_string token
  | _ => token_to_string token
  end.
Definition canonical_tokens (sql : string) : result string :=
  tokens ← map_err (λ e, InvalidInput ("invalid SQL: " +:+ e)) (tokenize sql);
  Ok (String.concat "" (map canonical_token tokens)).

Definition canonical_expr (sql : string) : result string :=
  text ← canonical_tokens sql;
  match parse_leading_expr text with
  | Ok (e, true) => Ok (expr_to_string e)
  | Ok (_, false) | Err _ => invalid "invalid SQL expression '{sql}': {err}"
  | Panic => Panic
  end.

Definition column_ref_name (e : SqlExpr) : option string :=
  match e with
  | Identifier ident => Some (ident_value ident)
  | CompoundIdentifier parts => ident_value <$> last parts
  | _ => None
  end.

(** ** One spelling per relation *)
Definition is_lateral_item (f : TableFactor) : bool :=
  match f with
  | UnnestRelation _ _ _ | FunctionRelation _ _ _ _ | TableRelation _ _ (Some _) _ => true
  | _ => false
  end.
Definition split_cross_join (from : list TableWithJoins) : list TableWithJoins :=
  match from with
  | [mkFrom r [mkJoin lateral (CrossJoin _)]] =>
      if is_lateral_item lateral then [mkFrom r []; mkFrom lateral []] else from
  | _ => from
  end.
Definition normalize_item (item : SelectItem) : SelectItem :=
  match item with
  | ExprWithAlias e alias =>
      if bool_decide (column_ref_name e = Some (ident_value alias)) then UnnamedExpr e else item
  | _ => item
  end.
Definition as_table (f : TableFactor) : TableFactor :=
  match f with
  | FunctionRelation name args alias _ => TableRelation name alias (Some args) ""
  | _ => f
  end.
Definition explicit_alias (f : TableFactor) : TableFactor :=
  match f with
  | UnnestRelation (Some a) exprs m => UnnestRelation (Some (mkAlias (alias_name a) true)) exprs m
  | TableRelation name (Some a) args m =>
      TableRelation name (Some (mkAlias (alias_name a) true)) args m
  | _ => f
  end.
Definition normalize_second (from : list TableWithJoins) : list TableWithJoins :=
  match from with
  | first :: second :: rest =>
      first :: mkFrom (explicit_alias (as_table (relation second))) (joins second) :: rest
  | _ => from
  end.
Definition normalize_from (q : Query) : Query :=
  match body q with
  | SelectBody s =>
      mkQuery
        (SelectBody (mkSelect (map normalize_item (projection s))
           (normalize_second (split_cross_join (from s))) (selection s) (having s)
           (select_group_by s) (other_clauses s)))
        (limit_clause q) (query_clauses q)
  | OtherBody _ => q
  end.

(** ** From the query to the definition *)
Definition name_part (part : ObjectNamePart) : result string :=
  match part with
  | NameIdentifier ident => Ok (ident_value ident)
  | NameFunction _ => invalid "unsupported table name part '{other}'"
  end.
Definition single_name (name : list ObjectNamePart) : result string :=
  match name with
  | [NameIdentifier ident] => Ok (ident_value ident)
  | _ => invalid "{what} must be a single name, not '{name}'"
  end.

Definition extract_source (from : list TableWithJoins) : result (list string * string) :=
  match relation <$> head from with
  | Some (TableRelation _ _ (Some _) _) =>
      invalid "a view reads a table; a Function in FROM position follows it: `FROM table, function(args) AS alias`"
  | Some (TableRelation _ (Some _) None _) =>
      invalid "table aliases are not supported (`AS {}`); refer to columns unqualified"
  | Some (TableRelation name None None _) =>
      parts ← try_map name_part name;
      table ← ok_or (InvalidInput "empty table name") (last parts);
      Ok (removelast parts, table)
  | _ => invalid "the view must read one table; {SHAPE}"
  end.

Definition extract_arg (arg : FunctionArg) : result string :=
  match arg with
  | UnnamedArg e => Ok (expr_to_string e)
  | OtherArg _ => invalid "'{function}' takes positional expression arguments, not '{other}'"
  end.
Definition extract_lateral (from : list TableWithJoins) : result (option ViewLateral) :=
  match relation <$> from !! 1%nat with
  | None => Ok None
  | Some (UnnestRelation alias array_exprs _) =>
      column ← (match array_exprs with
                | [Identifier ident] => Ok (ident_value ident)
                | _ => invalid "UNNEST takes one top-level list column of the table"
                end);
      alias ← ok_or (InvalidInput "UNNEST needs an alias: `UNNEST(column) AS alias`") alias;
      Ok (Some (mkLateral (LUnnest column) (ident_value (alias_name alias))))
  | Some (TableRelation name alias (Some args) _) =>
      function ← single_name name;
      rendered ← try_map extract_arg args;
      alias ← ok_or (InvalidInput "'{function}' in FROM position needs an alias: `{function}(...) AS alias`") alias;
      Ok (Some (mkLateral (LFunction function rendered) (ident_value (alias_name alias))))
  | Some _ => invalid "the view must read one table; {SHAPE}"
  end.

Definition extract_item (only : bool) (item : SelectItem) : result ViewProjection :=
  match item with
  | Wildcard _ => if only then Ok star else invalid "`*` must be the only column selected"
  | UnnamedExpr e =>
      name ← ok_or (InvalidInput "view column `{expr}` needs a name: `{expr} AS name`") (column_ref_name e);
      Ok (mkProjection name (expr_to_string e))
  | ExprWithAlias e alias => Ok (mkProjection (ident_value alias) (expr_to_string e))
  | OtherItem _ => invalid "unsupported select item '{other}'"
  end.

Definition extract_limit (clause : option LimitClause) : result (option Z) :=
  match clause with
  | None => Ok None
  | Some (LimitOffset (Some (NumberValue n)) None []) =>
      n ← ok_or (InvalidInput "view limit {n} is not a non-negative integer") (parse_u64 n);
      Ok (Some n)
  | Some (LimitOffset (Some (OtherValue _)) None []) => invalid "view limit must be an integer literal"
  | Some _ => invalid "view limit must be a plain `LIMIT n`"
  end.

Definition is_grouping_extension (e : SqlExpr) : bool :=
  match e with Rollup _ | Cube _ | GroupingSets _ => true | _ => false end.
Definition extract_group_by (g : GroupByExpr) : result (list string) :=
  match g with
  | GroupExpressions exprs [] =>
      if existsb is_grouping_extension exprs
      then invalid "a view groups by a plain `GROUP BY expr, ...` list"
      else Ok (map expr_to_string exprs)
  | _ => invalid "a view groups by a plain `GROUP BY expr, ...` list"
  end.

Definition check_grouping (d : MaterializedViewDefinition) : result unit :=
  if negb (is_grouped d) then Ok tt
  else if negb (bool_decide (lateral d = None)) then
    invalid "GROUP BY cannot be combined with a FROM-position item; group in one view and expand in a view over it"
  else if selects_star d then invalid "a grouped view selects its keys and aggregates, not `*`"
  else if negb (bool_decide (limit d = None)) then
    invalid "LIMIT is not supported together with GROUP BY"
  else Ok tt.

Definition extract (q : Query) : result MaterializedViewDefinition :=
  match body q with
  | OtherBody _ => invalid "expected a SELECT; {SHAPE}"
  | SelectBody s =>
      source ← extract_source (from s);
      lateral ← extract_lateral (from s);
      _ ← (match drop 2 (from s) with
           | [] => Ok tt
           | _ => invalid "the view must read one table; {SHAPE}"
           end);
      projections ← try_map (extract_item (Nat.eqb (length (projection s)) 1)) (projection s);
      limit ← extract_limit (limit_clause q);
      _ ← (match having s with
           | Some _ => invalid "HAVING is not supported in a view query"
           | None => Ok tt
           end);
      group_by ← extract_group_by (select_group_by s);
      let d := mkDefinition source.2 source.1 lateral projections
                 (expr_to_string <$> selection s) group_by limit in
      _ ← check_grouping d;
      Ok d
  end.

(** ** From the definition to the query *)
Definition is_bare (p : ViewProjection) : bool :=
  match parse_leading_expr (expression p) with
  | Ok (e, _) => bool_decide (column_ref_name e = Some (output p))
  | _ => false
  end.
Definition render_item (p : ViewProjection) : string :=
  if is_bare p then expression p else expression p +:+ " AS " +:+ ident_sql (output p).
Definition render_source (l : LateralSource) : string :=
  match l with
  | LUnnest column => ", UNNEST(" +:+ ident_sql column +:+ ")"
  | LFunction name args => ", " +:+ ident_sql name +:+ "(" +:+ String.concat ", " args +:+ ")"
  end.
Definition render (d : MaterializedViewDefinition) : string :=
  "SELECT "
  +:+ (if selects_star d then "*" else String.concat ", " (map render_item (projections d)))
  +:+ " FROM "
  +:+ String.concat "." (map ident_sql (source_namespace d ++ [source_table d])%list)
  +:+ (match lateral d with
       | Some l => render_source (lateral_source l) +:+ " AS " +:+ ident_sql (lateral_alias l)
       | None => ""
       end)
  +:+ (match view_filter d with Some f => " WHERE " +:+ f | None => "" end)
  +:+ (if is_grouped d then " GROUP BY " +:+ String.concat ", " (group_by d) else "")
  +:+ (match limit d with Some n => " LIMIT " +:+ pretty (Z.to_N n) | None => "" end).

Definition parse (sql : string) : result MaterializedViewDefinition :=
  text ← canonical_tokens sql;
  statements ← map_err (λ e, InvalidInput ("invalid SQL: " +:+ e)) (parse_statements text);
  match statements with
  | [QueryStatement query] =>
      let query := normalize_from query in
      definition ← extract query;
      printed ← canonical_tokens (query_to_string query);
      if String.eqb printed (render definition) then Ok definition
      else invalid "unsupported clause in the view query; {SHAPE}"
  | _ => invalid "expected a single SELECT statement; {SHAPE}"
  end.
End query.

(** A quoted word in the quoting that [ident_sql] chooses *)
Definition quoted_name (value : string) (q : ascii) : option string :=
  if Ascii.eqb q dquote then Some (undouble_char dquote value)
  else if Ascii.eqb q "`" then Some (undouble_char "`"%char value)
  else None.
Definition ident_token `{Planner, SqlParser} (name : string) : Token :=
  if needs_quote name then Word (double_char "`"%char name) (Some "`"%char) else Word name None.
Definition respelled `{Planner, SqlParser} (token : Token) : Token :=
  match token with
  | Word value (Some q) => default token (ident_token <$> quoted_name value q)
  | _ => token
  end.

(** No quoted word touches another word or a literal: what stands beside it is
    blanks and punctuation that no word, number or string can begin or end with. *)
Definition separator_char (c : ascii) : bool :=
  existsb (Ascii.eqb c) (list_ascii_of_string " ,().=<>+-*/:;[]{}|&^~%!?").
Definition separates (token : Token) : bool :=
  match token with Word _ _ => false | OtherToken text => all_chars separator_char text end.
Definition is_quoted (token : Token) : bool :=
  match token with Word _ (Some _) => true | _ => false end.
Fixpoint spaced (tokens : list Token) : bool :=
  match tokens with
  | a :: (b :: _) as tokens =>
      (negb (is_quoted a) || separates b) && (negb (is_quoted b) || separates a) && spaced tokens
  | _ => true
  end.

(** ** What is documented of sqlparser

    Tokens print as they were read, a bare word as itself, and tokenizing text
    whose quoted words stood apart and were respelled finds the respelled words. *)
Class SqlLaws {P : Planner} {Sql : SqlParser} : Type := {
  bare_word_text : ∀ v, token_to_string (Word v None) = v;
  retokenize : ∀ s tokens, tokenize s = Ok tokens → spaced tokens = true →
    tokenize (String.concat "" (map canonical_token tokens)) = Ok (map respelled tokens)
}.

(** Not every syntax tree prints as text that parses back to it, and the code
    relies on it for the trees it stores: the tree that [sql] is normalized to
    prints with its quoted names apart, and its text, once spelled
    canonically, parses to the same tree. *)
Definition prints_back {P : Planner} {Sql : SqlParser} (sql : string) : Prop :=
  ∀ text q tokens, canonical_tokens sql = Ok text → parse_statements text = Ok [QueryStatement q] →
    tokenize (query_to_string (normalize_from q)) = Ok tokens →
    spaced tokens = true ∧
    parse_statements (String.concat "" (map canonical_token tokens)) =
      Ok [QueryStatement (normalize_from q)].

(** * Lemmas *)
Section laws.
Context {P : Planner} {Sql : SqlParser} {L : SqlLaws}.

Lemma canonical_ident_token name : canonical_token (ident_token name) = ident_sql name.
Proof.
  unfold ident_token, ident_sql. destruct (needs_quote name) eqn:Hn.
  - change (ident_sql (undouble_char "`" (double_char "`" name)) = "`" +:+ double_char "`" name +:+ "`").
    unfold ident_sql. by rewrite undouble_double, Hn.
  - apply bare_word_text.
Qed.
Lemma canonical_respelled token : canonical_token (respelled token) = canonical_token token.
Proof.
  destruct token as [v [q|]|]; [|done..]. cbn [respelled]. unfold quoted_name.
  destruct (Ascii.eqb q dquote) eqn:Hd; [|destruct (Ascii.eqb q "`") eqn:Hb].
  - cbn -[ident_token canonical_token]. rewrite canonical_ident_token. cbn. by rewrite Hd.
  - cbn -[ident_token canonical_token]. rewrite canonical_ident_token. cbn. by rewrite Hd, Hb.
  - done.
Qed.

(** Canonical text is its own canonical text. *)
Lemma canonical_idempotent text tokens : tokenize text = Ok tokens → spaced tokens = true →
  canonical_tokens (String.concat "" (map canonical_token tokens)) =
    Ok (String.concat "" (map canonical_token tokens)).
Proof.
  intros Ht Hs. unfold canonical_tokens. rewrite (retokenize text tokens Ht Hs). cbn [map_err]. run_ok.
  do 2 f_equal. rewrite map_map. apply map_ext. intros token. apply canonical_respelled.
Qed.

Lemma normalize_item_idempotent item : normalize_item (normalize_item item) = normalize_item item.
Proof. destruct item as [| |e a|]; [done..| |done]. cbn. case_bool_decide as H; [done|]. cbn. by rewrite bool_decide_eq_false_2. Qed.
Lemma normalize_second_idempotent from :
  normalize_second (split_cross_join (normalize_second (split_cross_join from))) =
  normalize_second (split_cross_join from).
Proof.
  assert (∀ a b rest, normalize_second (split_cross_join (normalize_second (a :: b :: rest))) =
    normalize_second (a :: b :: rest)) as Htwo.
  { intros [ra ja] [rb jb] rest.
    destruct rb as [n [al|] args m|n args [al|] m|[al|] es m|t]; by destruct ja as [|[jr [?|?]] []]. }
  destruct from as [|[r js] [|b rest]]; [done| |].
  - destruct js as [|[l [c|c]] [|]]; try done. cbn [split_cross_join].
    destruct (is_lateral_item l) eqn:Hl; [apply Htwo|]. cbn. by rewrite Hl.
  - cbn [split_cross_join]. destruct js as [|[l [?|?]] []]; apply Htwo.
Qed.
Lemma normalize_idempotent q : normalize_from (normalize_from q) = normalize_from q.
Proof.
  destruct q as [b l c]. unfold normalize_from. cbn [body]. destruct b as [s|]; [|done].
  cbn [body limit_clause query_clauses projection from selection having select_group_by other_clauses].
  do 3 f_equal; [|apply normalize_second_idempotent].
  rewrite map_map. apply map_ext. apply normalize_item_idempotent.
Qed.

(** What a definition renders to is what is parsed back. *)
Lemma parse_render sql d : prints_back sql → parse sql = Ok d → parse (render d) = Ok d.
Proof.
  intros Hback. unfold parse at 1. intros (text & Htext & Hp)%bind_Ok.
  apply bind_Ok in Hp as (stmts & Hs%map_err_Ok & Hp).
  destruct stmts as [|[q|] [|]]; [done| |done..]. apply bind_Ok in Hp as (d' & Hd & Hp).
  apply bind_Ok in Hp as (t & Ht & Hp). destruct (String.eqb_spec t (render d')) as [->|]; [|done].
  injection Hp as ->. pose proof Ht as Hc.
  unfold canonical_tokens in Hc. apply bind_Ok in Hc as (tokens & Htok%map_err_Ok & [= Hc]).
  destruct (Hback text q tokens Htext Hs Htok) as [Hsp Hre]. rewrite Hc in Hre.
  pose proof (canonical_idempotent _ _ Htok Hsp) as Hid. rewrite Hc in Hid.
  unfold parse. rewrite Hid. run_ok. rewrite Hre. cbn [map_err]. run_ok.
  rewrite normalize_idempotent, Hd. run_ok. rewrite Ht. run_ok. by rewrite String.eqb_refl.
Qed.

(** The definitions that parsing accepts *)
Lemma parse_grouping sql d : parse sql = Ok d → check_grouping d = Ok tt.
Proof.
  unfold parse. intros (text & _ & Hp)%bind_Ok. apply bind_Ok in Hp as (stmts & _ & Hp).
  destruct stmts as [|[q|] [|]]; [done| |done..]. apply bind_Ok in Hp as (d' & Hd & Hp).
  apply bind_Ok in Hp as (t & _ & Hp). destruct (String.eqb t (render d')); [|done].
  injection Hp as ->. unfold extract in Hd. destruct (body _) as [s|]; [|done].
  apply bind_Ok in Hd as (? & _ & Hd). apply bind_Ok in Hd as (? & _ & Hd).
  apply bind_Ok in Hd as (? & _ & Hd). apply bind_Ok in Hd as (? & _ & Hd).
  apply bind_Ok in Hd as (? & _ & Hd). apply bind_Ok in Hd as (? & _ & Hd).
  apply bind_Ok in Hd as (? & _ & Hd). apply bind_Ok in Hd as ([] & Hg & [= <-]). done.
Qed.
End laws.
End ViewQuery.
