(* ===== verification/ViewPlan.v ===== *)
(** * Planning a materialized view (materialized_view.rs, materialized_view/grouped.rs)

    The stored form of a definition and how it is read back, the resolution of
    a definition against its source's schema, and the grouped views that
    DataFusion plans.  serde_json is the class [JsonCodec]; the planners are
    [Planner] and the classes here. *)

From Stdlib Require Import Ascii String.
From stdpp Require Import strings pretty sorting.
From S2P Require Import Prelude RustStr RustText Schema ComputedColumns ViewQuery.

Module ViewPlan.
Import Schema ViewQuery.
Import ComputedColumns (Planner, parse_expr, column_names_in_expr, optimize_expr,
  create_physical_expr, physical_type, Expr, Column, ScalarFunction, Utf8Literal, OtherExpr, str_le,
  str_le_dec).
Local Open Scope string_scope.

(** ** JSON *)
Inductive Json : Type :=
  | JNull
  | JBool (b : bool)
  | JNumber (n : Z)
  | JOtherNumber (text : string)
  | JString (s : string)
  | JArray (items : list Json)
  | JObject (entries : list (string * Json)).
Definition json_get (v : Json) (key : string) : option Json :=
  match v with
  | JObject entries => snd <$> List.find (λ e, String.eqb e.1 key) entries
  | _ => None
  end.
Definition as_str (v : Json) : option string := match v with JString s => Some s | _ => None end.
Definition as_u64 (v : Json) : option Z :=
  match v with JNumber n => if u64_in_range n then Some n else None | _ => None end.
(** An array whose items all decode *)
Definition as_list {A} (read : Json → option A) (v : Json) : option (list A) :=
  match v with JArray l => mapM read l | _ => None end.
(** An [Option] field: absent and [null] are [None]. *)
Definition json_option {A} (read : Json → option A) (v : option Json) : option (option A) :=
  match v with
  | None | Some JNull => Some None
  | Some v => Some <$> read v
  end.

Class JsonCodec : Type := {
  parse_json : string → outcome string Json;
  print_json : Json → string
}.

(** ** Stored definitions *)
Definition DEFINITION_META_KEY : string := "mv.definition".
Definition SCHEMA_DECLARATION_META_PREFIX : string := "lance-schema:".
Definition LANCE_FIELD_ID_KEY : string := "lance:field_id".
Definition DEFINITION_FORMAT : Z := 2.
Definition SELECT_KIND : string := "select".
Definition NAMESPACED_SELECT_KIND : string := "namespaced_select".
Definition format_of (d : MaterializedViewDefinition) : Z := if is_grouped d then 2 else 1.

Inductive StoredDefinition : Type :=
  | StoredQuery (d : MaterializedViewDefinition)
  | Newer (format : string).
Record LegacyDefinition : Type := mkLegacy {
  legacy_table : string;
  legacy_namespace : list string;
  legacy_projections : list ViewProjection;
  legacy_filter : option string;
  legacy_limit : option Z
}.

Definition decode_projection (v : Json) : option ViewProjection :=
  output ← json_get v "output" ≫= as_str;
  expression ← json_get v "expression" ≫= as_str;
  Some (mkProjection output expression).
Definition decode_legacy (v : Json) : option LegacyDefinition :=
  table ← json_get v "source_table" ≫= as_str;
  namespace ← (match json_get v "source_namespace" with
               | None => Some []
               | Some l => as_list as_str l
               end);
  projections ← json_get v "projections" ≫= as_list decode_projection;
  filter ← json_option as_str (json_get v "filter");
  limit ← json_option as_u64 (json_get v "limit");
  Some (mkLegacy table namespace projections filter limit).

Definition unreadable : Error := Runtime "unreadable materialized view definition: {e}".

Section stored.
Context {P : Planner} {Sql : SqlParser} {J : JsonCodec}.

Definition definition_metadata_from_sql_with_format (sql : string) (format : Z) : string :=
  print_json (JObject [("kind", JString "query"); ("format", JNumber format); ("query", JString sql)]).
Definition definition_metadata_from_sql (sql : string) : string :=
  definition_metadata_from_sql_with_format sql 1.
Definition definition_to_metadata (d : MaterializedViewDefinition) : string :=
  definition_metadata_from_sql_with_format (render d) (format_of d).
Definition definition_metadata_from_sql_with_defaults (sql default_database : string)
    (default_namespace_path : list string) : string :=
  print_json (JObject [("kind", JString "query"); ("format", JNumber 1); ("query", JString sql);
    ("default_database", JString default_database);
    ("default_namespace_path", JArray (map JString default_namespace_path))]).

Record MaterializedViewSqlDefinition : Type := mkSqlDefinition {
  query_sql : string;
  default_database : option string;
  default_namespace_path : option (list string)
}.
Definition decode_sql_definition (v : Json) : option MaterializedViewSqlDefinition :=
  query ← json_get v "query" ≫= as_str;
  database ← json_option as_str (json_get v "default_database");
  namespace ← json_option (as_list as_str) (json_get v "default_namespace_path");
  Some (mkSqlDefinition query database namespace).
Definition read_definition_sql_with_defaults (metadata : gmap string string)
    : result (option MaterializedViewSqlDefinition) :=
  match metadata !! DEFINITION_META_KEY with
  | None => Ok None
  | Some raw =>
      value ← map_err (λ _, unreadable) (parse_json raw);
      d ← ok_or unreadable (decode_sql_definition value);
      Ok (Some d)
  end.
Definition read_definition_sql (metadata : gmap string string) : result (option string) :=
  d ← read_definition_sql_with_defaults metadata; Ok (option_map query_sql d).

Definition read_current (value : Json) (format : Json) : result StoredDefinition :=
  format ← ok_or unreadable (as_u64 format);
  if (DEFINITION_FORMAT <? format)%Z then Ok (Newer (pretty (Z.to_N format)))
  else
    sql ← ok_or unreadable (json_get value "query" ≫= as_str);
    definition ← map_err (λ _, unreadable) (parse sql);
    if (format <? format_of definition)%Z then Err unreadable else Ok (StoredQuery definition).
Definition read_legacy (value : Json) : result StoredDefinition :=
  kind ← ok_or unreadable (json_get value "kind" ≫= as_str);
  if negb (String.eqb kind SELECT_KIND) && negb (String.eqb kind NAMESPACED_SELECT_KIND)
  then Ok (Newer ("kind '" +:+ kind +:+ "'"))
  else
    legacy ← ok_or unreadable (decode_legacy value);
    if negb (Bool.eqb (String.eqb kind SELECT_KIND) (bool_decide (legacy_namespace legacy = [])))
    then Err unreadable
    else Ok (StoredQuery (mkDefinition (legacy_table legacy) (legacy_namespace legacy) None
               (legacy_projections legacy) (legacy_filter legacy) [] (legacy_limit legacy))).
Definition read_definition (metadata : gmap string string) : result (option StoredDefinition) :=
  match metadata !! DEFINITION_META_KEY with
  | None => Ok None
  | Some raw =>
      value ← map_err (λ _, unreadable) (parse_json raw);
      d ← (match json_get value "format" with
           | Some format => read_current value format
           | None => read_legacy value
           end);
      Ok (Some d)
  end.

Record MaterializedViewInfo : Type := mkInfo {
  definition_sql : string;
  parsed_definition : option MaterializedViewDefinition
}.
Definition materialized_view_info_from_metadata (name : string) (metadata : gmap string string)
    : result MaterializedViewInfo :=
  stored ← read_definition metadata;
  match stored with
  | Some (StoredQuery d) => Ok (mkInfo (render d) (Some d))
  | Some (Newer _) =>
      Err (NotSupported "materialized view '{name}' is stored in format {format}, which this version of lancedb cannot refresh")
  | None => Err (NotAMaterializedView name)
  end.

(** A user write to a materialized view is refused, whatever its definition. *)
Definition ensure_not_a_view (name : string) (metadata : gmap string string) (operation : string)
    : result unit :=
  match metadata !! DEFINITION_META_KEY with
  | Some _ => Err (NotSupported "cannot {operation} '{name}': it is a materialized view, which only refresh writes")
  | None => Ok tt
  end.
End stored.

(** ** Schemas a view is planned against *)
Record ViewUnnest : Type := mkUnnest { unnest_column : string; unnest_alias : string }.
Definition physical_unnest (d : MaterializedViewDefinition) : result (option ViewUnnest) :=
  match lateral d with
  | None => Ok None
  | Some l =>
      match lateral_source l with
      | LUnnest column => Ok (Some (mkUnnest column (lateral_alias l)))
      | LFunction _ _ =>
          Err (NotSupported "'{name}' in FROM position is a Function; views over Function rows are supported only on LanceDB Cloud and Enterprise")
      end
  end.

(** [path.split('.').next()] *)
Definition root (path : string) : string := default path (head (split "."%char path)).

Definition flattened_schema (schema : ArrowSchema) (u : ViewUnnest) : result ArrowSchema :=
  field ← ok_or (InvalidInput "UNNEST column '{}' is not a column of the source")
            (field_with_name schema (unnest_column u));
  match field_type field with
  | TList element =>
      match field_with_name schema (unnest_alias u) with
      | Some _ => Err (InvalidInput "UNNEST alias '{}' collides with a source column")
      | None =>
          Ok (mkSchema
                (map (λ f, if String.eqb (field_name f) (unnest_column u)
                           then mkField (unnest_alias u) (field_type element) true ∅ else f)
                   (fields schema)) ∅)
      end
  | _ => Err (InvalidInput "UNNEST column '{}' is {}, not a list")
  end.

Fixpoint child_at (f : Field) (path : list string) : option Field :=
  match path with
  | [] => Some f
  | part :: path =>
      match field_type f with
      | TStruct children =>
          c ← List.find (λ c, String.eqb (field_name c) part) children; child_at c path
      | _ => None
      end
  end.
Definition field_at_path (schema : ArrowSchema) (path : string) : option Field :=
  match split "."%char path with
  | [] => None
  | part :: parts => f ← field_with_name schema part; child_at f parts
  end.
Definition recorded_input (unnest : option ViewUnnest) (path : string) : string :=
  match unnest with
  | Some u => if String.eqb (root path) (unnest_alias u) then unnest_column u else path
  | None => path
  end.
Definition project_schema (schema : ArrowSchema) (columns : list string) : ArrowSchema :=
  mkSchema (List.filter (λ f, bool_decide (field_name f ∈ map root columns)) (fields schema)) ∅.

Definition is_declaration (key : string) : bool :=
  starts_with SCHEMA_DECLARATION_META_PREFIX key || String.eqb key LANCE_FIELD_ID_KEY
  || ComputedColumns.is_declaration_key key.
Definition kept_metadata (m : gmap string string) : gmap string string :=
  filter (λ e, is_declaration e.1 = false) m.
Fixpoint without_declarations (f : Field) : Field :=
  match f with
  | mkField n t nullable m =>
      mkField n
        match t with
        | TStruct cs => TStruct (List.map without_declarations cs)
        | TList c => TList (without_declarations c)
        | TListView c => TListView (without_declarations c)
        | TLargeList c => TLargeList (without_declarations c)
        | TLargeListView c => TLargeListView (without_declarations c)
        | TMap c sorted => TMap (without_declarations c) sorted
        | TFixedSizeList c n => TFixedSizeList (without_declarations c) n
        | TUnion vs dense =>
            TUnion (List.map (λ v : Z * Field, let '(i, c) := v in (i, without_declarations c)) vs) dense
        | TRunEndEncoded a b => TRunEndEncoded (without_declarations a) (without_declarations b)
        | TDictionary _ _ | TNull | TLargeBinary | TOther _ => t
        end nullable (kept_metadata m)
  end.

(** ** What a projection reads *)
Fixpoint projected_path (e : Expr) : option (list string) :=
  match e with
  | Column c => Some [c]
  | ScalarFunction f _ args =>
      if String.eqb f "get_field" then
        match args with
        | [inner; Utf8Literal n] => (λ path, path ++ [n])%list <$> projected_path inner
        | _ => None
        end
      else None
  | _ => None
  end.
Definition projected_field (e : Expr) (schema : ArrowSchema) : option Field :=
  match projected_path e with
  | Some (column :: segments) => f ← field_with_name schema column; child_at f segments
  | _ => None
  end.

(** Which view outputs each source column is projected to directly *)
Abbreviation Lineage := (gmap string (list string)).

Class ViewPlanner : Type := { parse_filter : ArrowSchema → string → outcome string Expr }.

Section planning.
Context {P : Planner} {Sql : SqlParser} {VP : ViewPlanner}.

Definition sorted (l : list string) : list string := dedup (merge_sort str_le l).
Definition resolve_inputs (schema : ArrowSchema) (e : Expr) (error : string → Error)
    : result (list string) :=
  let inputs := sorted (column_names_in_expr e) in
  _ ← try_for (λ input, match field_with_name schema (root input) with
                        | Some _ => Ok tt
                        | None => Err (error ("unknown column '" +:+ input +:+ "'"))
                        end) inputs;
  Ok inputs.

Definition invalid_filter (e : string) : Error := InvalidInput ("invalid view filter: " +:+ e).
Definition plan_filter (schema : ArrowSchema) (filter : string) : result (list string) :=
  e ← map_err invalid_filter (parse_filter schema filter);
  inputs ← resolve_inputs schema e invalid_filter;
  let read_schema := project_schema schema inputs in
  physical ← map_err invalid_filter (create_physical_expr read_schema e);
  type ← map_err invalid_filter (physical_type physical read_schema);
  if bool_decide (type = TOther "Boolean") then Ok inputs
  else Err (InvalidInput "view filter must be a boolean predicate, not {data_type}").

Definition lineage_push (lineage : Lineage) (source output : string) : Lineage :=
  <[source := (default [] (lineage !! source) ++ [output])%list]> lineage.

Record Planned : Type := mkPlanned {
  planned_definition : MaterializedViewDefinition;
  planned_fields : list Field;
  lineage : Lineage;
  planned_inputs : list string
}.

Definition plan_projection (schema : ArrowSchema) (output expression : string)
    : result (Field * list string * option string) :=
  let invalid := InvalidExpression output in
  parsed ← map_err invalid (parse_expr schema expression);
  e ← map_err invalid (optimize_expr schema parsed);
  inputs ← resolve_inputs schema e invalid;
  let read_schema := project_schema schema inputs in
  physical ← map_err invalid (create_physical_expr read_schema e);
  type ← map_err invalid (physical_type physical read_schema);
  let column := match projected_path e with Some [c] => Some c | _ => None end in
  let nullable :=
    match column with
    | Some c => default true (field_nullable <$> field_with_name schema c)
    | None => true
    end in
  let metadata := default ∅ (field_metadata <$> projected_field e schema) in
  Ok (without_declarations (mkField output type nullable metadata), inputs, column).

Fixpoint plan_projections (schema : ArrowSchema) (projections : list ViewProjection)
    (declared : list string) (planned : list Field * list string * Lineage)
    : result (list Field * list string * Lineage) :=
  match projections with
  | [] => Ok planned
  | p :: projections =>
      let '(fs, inputs, lineage) := planned in
      if bool_decide (output p ∈ declared) then Err (ColumnAlreadyExists (output p))
      else
        one ← plan_projection schema (output p) (expression p);
        let '(f, read, column) := one in
        plan_projections schema projections (declared ++ [output p])%list
          (fs ++ [f], inputs ++ read,
           match column with Some c => lineage_push lineage c (output p) | None => lineage end)%list
  end.

Definition canonical_projection (p : ViewProjection) : result ViewProjection :=
  expression ← map_err (λ _, InvalidExpression (output p) "{e}") (canonical_expr (expression p));
  Ok (mkProjection (output p) expression).
Definition star_projections (schema : ArrowSchema) : list ViewProjection :=
  map (λ f, mkProjection (field_name f) (ident_sql (field_name f))) (fields schema).

Definition filter_error (e : Error) : Error :=
  match e with InvalidInput message => invalid_filter message | e => e end.
Definition canonical_filter (d : MaterializedViewDefinition) : result (option string) :=
  match view_filter d with
  | None => Ok None
  | Some f => f ← map_err filter_error (canonical_expr f); Ok (Some f)
  end.
Definition planning_schema (schema : ArrowSchema) (d : MaterializedViewDefinition)
    (unnest : option ViewUnnest) : result ArrowSchema :=
  match unnest with
  | None => Ok schema
  | Some u =>
      if negb (bool_decide (limit d = None))
      then Err (InvalidInput "LIMIT is not supported together with UNNEST")
      else flattened_schema schema u
  end.
Definition filter_inputs (schema : ArrowSchema) (filter : option string) : result (list string) :=
  match filter with Some f => plan_filter schema f | None => Ok [] end.

(** [plan] of an ungrouped definition *)
Definition plan_rows (source_schema : ArrowSchema) (d : MaterializedViewDefinition)
    (filter : option string) : result Planned :=
  unnest ← physical_unnest d;
  schema ← planning_schema source_schema d unnest;
  projections ← (if selects_star d then Ok (star_projections schema)
                 else try_map canonical_projection (projections d));
  _ ← (match limit d with
       | Some n => if (I63 <=? n)%Z
                   then Err (InvalidInput "view limit {limit} exceeds the maximum of {}") else Ok tt
       | None => Ok tt
       end);
  planned ← plan_projections schema projections [] ([], [], ∅);
  let '(fs, inputs, lineage) := planned in
  read ← filter_inputs schema filter;
  Ok (mkPlanned
        (mkDefinition (source_table d) (source_namespace d) (lateral d) projections filter []
           (limit d))
        fs lineage (sorted (map (recorded_input unnest) (inputs ++ read)))).
End planning.

(** ** Grouped views (materialized_view/grouped.rs) *)
Definition SOURCE : string := "__source".
Definition IVF_PARTITION : string := "ivf_partition".

(** [SqlToRel] over the source's columns, and what a plan shows: the
    expressions of its nodes and the fields it yields *)
Class GroupedPlanner : Type := {
  LogicalPlan : Type;
  statement_to_plan : ArrowSchema → Statement → outcome string LogicalPlan;
  plan_expressions : LogicalPlan → list Expr;
  plan_schema_fields : LogicalPlan → list Field
}.

Section grouped.
Context {P : Planner} {Sql : SqlParser} {VP : ViewPlanner} {G : GroupedPlanner}.

Definition grouped_item (p : ViewProjection) : string :=
  expression p +:+ " AS " +:+ ident_sql (output p).
Definition grouped_sql (d : MaterializedViewDefinition) (filtered : bool) : string :=
  "SELECT " +:+ String.concat ", " (map grouped_item (projections d)) +:+ " FROM " +:+ SOURCE
  +:+ (match filtered, view_filter d with true, Some f => " WHERE " +:+ f | _, _ => "" end)
  +:+ " GROUP BY " +:+ String.concat ", " (group_by d).
Definition invalid_grouped (e : string) : Error := InvalidInput ("invalid grouped view: " +:+ e).
Definition logical_plan (schema : ArrowSchema) (d : MaterializedViewDefinition) (filtered : bool)
    : result LogicalPlan :=
  statements ← map_err invalid_grouped (parse_statements (grouped_sql d filtered));
  statement ← ok_or (invalid_grouped "empty query") (last statements);
  map_err invalid_grouped (statement_to_plan schema statement).

(** The columns that [ivf_partition] is called on, and a call on anything else *)
Fixpoint ivf_calls (e : Expr) : list string * bool :=
  let fix go (es : list Expr) : list string * bool :=
    match es with
    | [] => ([], false)
    | e :: es => let a := ivf_calls e in let b := go es in (a.1 ++ b.1, a.2 || b.2)%list
    end in
  match e with
  | ScalarFunction f _ args =>
      let here :=
        if String.eqb f IVF_PARTITION then
          match args with [Column c] => ([c], false) | _ => ([], true) end
        else ([], false) in
      let inside := go args in (here.1 ++ inside.1, here.2 || inside.2)%list
  | OtherExpr children => go children
  | Column _ | Utf8Literal _ => ([], false)
  end.
Definition ivf_columns (plan : LogicalPlan) : result (list string) :=
  let calls := map ivf_calls (plan_expressions plan) in
  if existsb snd calls
  then Err (InvalidInput "{IVF_PARTITION} takes a vector column of the source, not `{call}`")
  else Ok (sorted (concat (map fst calls))).

Fixpoint column_refs (e : Expr) : list string :=
  let fix go (es : list Expr) : list string :=
    match es with [] => [] | e :: es => (column_refs e ++ go es)%list end in
  match e with
  | Column c => [c]
  | ScalarFunction _ _ args => go args
  | OtherExpr children => go children
  | Utf8Literal _ => []
  end.

Fixpoint grouped_projections (ps seen : list ViewProjection) : result (list ViewProjection) :=
  match ps with
  | [] => Ok seen
  | p :: ps =>
      if existsb (λ s, String.eqb (output s) (output p)) seen then Err (ColumnAlreadyExists (output p))
      else p ← canonical_projection p; grouped_projections ps (seen ++ [p])%list
  end.
Definition plan_groups (source_schema : ArrowSchema) (d : MaterializedViewDefinition)
    (filter : option string) : result Planned :=
  _ ← check_grouping d;
  inputs ← filter_inputs source_schema filter;
  projections ← grouped_projections (projections d) [];
  group_by ← try_map canonical_expr (group_by d);
  let d := mkDefinition (source_table d) (source_namespace d) (lateral d) projections filter
             group_by (limit d) in
  planned ← logical_plan source_schema d false;
  _ ← ivf_columns planned;
  let read := List.filter (λ n, match field_with_name source_schema n with Some _ => true | None => false end)
                (concat (map column_refs (plan_expressions planned))) in
  Ok (mkPlanned d (map without_declarations (plan_schema_fields planned)) ∅ (sorted (inputs ++ read)%list)).

Definition plan (source_schema : ArrowSchema) (d : MaterializedViewDefinition) : result Planned :=
  filter ← canonical_filter d;
  if is_grouped d then plan_groups source_schema d filter else plan_rows source_schema d filter.

(** The index that [ivf_partition] assigns by *)
Inductive DistanceType : Type := L2 | Cosine | Dot | Hamming.
#[global] Instance DistanceType_eq_dec : EqDecision DistanceType.
Proof. solve_decision. Defined.
Record Index : Type := mkIndex { index_fields : list Z; index_name : string; index_uuid : string }.
Record Ivf : Type := mkIvf { ivf_metric : DistanceType; ivf_centroids : option string }.
Record SourceIndexes : Type := mkIndexes {
  source_field : string → option (Z * DataType);
  load_indices : result (list Index);
  open_vector_index : string → string → result Ivf
}.
Record IvfBinding : Type := mkIvfBinding {
  bound_index : string;
  transformer : string * DistanceType;
  normalize : bool
}.

Fixpoint find_index (s : SourceIndexes) (column : string) (field : Z) (indices : list Index)
    (found : option (string * string * DistanceType * string))
    : result (option (string * string * DistanceType * string)) :=
  match indices with
  | [] => Ok found
  | index :: indices =>
      if negb (bool_decide (index_fields index = [field])) then find_index s column field indices found
      else match open_vector_index s column (index_uuid index) with
      | Ok (mkIvf metric (Some centroids)) =>
          match found with
          | None =>
              find_index s column field indices
                (Some (index_name index, index_uuid index, metric, centroids))
          | Some (name, _, seen_metric, seen) =>
              if String.eqb name (index_name index) then
                if negb (bool_decide (seen_metric = metric)) || negb (String.eqb seen centroids)
                then Err (InvalidInput "{IVF_PARTITION}({column}): the segments of index '{name}' were trained separately and assign by different models; rebuild the index before grouping by it")
                else find_index s column field indices found
              else Err (InvalidInput "{IVF_PARTITION}({column}) is ambiguous: indices '{name}' and '{}' both cover it")
          end
      | Panic => Panic
      | _ => find_index s column field indices found
      end
  end.
Definition is_byte_vectors (t : DataType) : bool :=
  match t with
  | TFixedSizeList element _ => bool_decide (field_type element = TOther "UInt8")
  | _ => false
  end.
Definition bind_column (s : SourceIndexes) (column : string) : result IvfBinding :=
  field ← ok_or (InvalidInput "{IVF_PARTITION}: the source has no column '{column}'")
            (source_field s column);
  indices ← load_indices s;
  found ← find_index s column field.1 indices None;
  match found with
  | None => Err (InvalidInput "{IVF_PARTITION}({column}) needs an IVF vector index on '{column}'; create one first")
  | Some (_, uuid, metric, centroids) =>
      if negb (Bool.eqb (is_byte_vectors field.2) (bool_decide (metric = Hamming)))
      then Err (InvalidInput "{IVF_PARTITION}({column}): the index assigns by {metric}, which does not apply to {}")
      else
        let normalize := bool_decide (metric = Cosine) in
        Ok (mkIvfBinding uuid (centroids, if normalize then L2 else metric) normalize)
  end.
Definition bind (schema : ArrowSchema) (s : SourceIndexes) (d : MaterializedViewDefinition)
    : result (gmap string IvfBinding) :=
  planned ← logical_plan schema d false;
  columns ← ivf_columns planned;
  bindings ← try_map (λ column, b ← bind_column s column; Ok (column, b)) columns;
  Ok (list_to_map bindings).
Definition check (schema : ArrowSchema) (s : SourceIndexes) (d : MaterializedViewDefinition)
    : result unit :=
  _ ← bind schema s d; Ok tt.
End grouped.
End ViewPlan.
