(* ===== verification/View.v ===== *)
(** * Declaring a materialized view (materialized_view.rs)

    A prepared declaration: the schema a view will have, the definition stamped
    in its metadata, the internal columns that computed columns read, and the
    descriptions of columns carried over from the source; and the check that a
    view never reads itself. *)

From Stdlib Require Import Ascii String.
From stdpp Require Import strings pretty sorting.
From S2P Require Import Prelude RustStr RustText Schema ComputedColumns SchemaChanges Admission ViewQuery ViewPlan.

Module View.
Import Schema ViewQuery ViewPlan.
Import ComputedColumns (Planner, BindingChecks, FunctionBinding, computed_columns,
  computed_column_from_field, function_bindings_metadata, FUNCTION_BINDINGS_META_KEY).
Import Admission (ensure_declarations_are_planned).
Local Open Scope string_scope.

Definition MAX_SOURCE_DEPTH : nat := 32.
Definition EMBEDDING_FUNCTIONS_META_KEY : string := "embedding_functions".
Definition COLUMN_DEFINITIONS_META_KEY : string := "lancedb::column_definitions".
Definition INPUT_COLUMN_PREFIX : string := "__input_".

(** [source_column.replace('.', "__")] *)
Fixpoint replace_dots (s : string) : string :=
  match s with
  | "" => ""
  | String c s =>
      if Ascii.eqb c "." then String "_" (String "_" (replace_dots s)) else String c (replace_dots s)
  end.
Definition input_column_name (source_column : string) : string :=
  INPUT_COLUMN_PREFIX +:+ replace_dots source_column.

(** ** Descriptions of columns *)
Record EmbeddingDefinition : Type := mkEmbedding {
  source_column : string;
  dest_column : option string;
  embedding_name : string
}.
#[global] Instance EmbeddingDefinition_eq_dec : EqDecision EmbeddingDefinition.
Proof. solve_decision. Defined.
Inductive ColumnKind : Type := Physical | Embedding (e : EmbeddingDefinition).
#[global] Instance ColumnKind_eq_dec : EqDecision ColumnKind.
Proof. solve_decision. Defined.
Abbreviation ColumnDefinition := ColumnKind.

Class ColumnDefinitionCodec : Type := {
  parse_definitions : string → option (list ColumnDefinition);
  print_definitions : list ColumnDefinition → option string
}.

Section view.
Context {P : Planner} {BC : BindingChecks} {Sql : SqlParser} {VP : ViewPlanner} {G : GroupedPlanner}.
Context {J : JsonCodec} {CD : ColumnDefinitionCodec}.

(** [Map::insert] *)
Fixpoint json_insert (entries : list (string * Json)) (key : string) (v : Json)
    : list (string * Json) :=
  match entries with
  | [] => [(key, v)]
  | (k, w) :: entries =>
      if String.eqb k key then (k, v) :: entries else (k, w) :: json_insert entries key v
  end.
Definition SOURCE_KEYS : list string := ["source_column"; "sourceColumn"].
Definition DEST_KEYS : list string := ["vector_column"; "dest_column"; "vectorColumn"; "destColumn"].

Definition named_outputs (lineage : Lineage) (entry : Json) (keys : list string)
    : option (string * list string) :=
  key ← List.find (λ key, match json_get entry key with Some _ => true | None => false end) keys;
  value ← json_get entry key ≫= as_str;
  outputs ← lineage !! value;
  Some (key, outputs).
Definition rewritten_entries (lineage : Lineage) (entry : Json) : list Json :=
  match entry with
  | JObject entries =>
      match named_outputs lineage entry SOURCE_KEYS, named_outputs lineage entry DEST_KEYS with
      | Some (source_key, sources), Some (dest_key, dests) =>
          concat (map (λ source, map (λ dest,
            JObject (json_insert (json_insert entries source_key (JString source)) dest_key
                       (JString dest))) dests) sources)
      | _, _ => []
      end
  | _ => []
  end.
Definition embedding_config_for_view (raw : string) (lineage : Lineage) : option string :=
  match parse_json raw with
  | Ok (JArray entries) =>
      match concat (map (rewritten_entries lineage) entries) with
      | [] => None
      | kept => Some (print_json (JArray kept))
      end
  | _ => None
  end.

Definition embedding_of (column : Field * ColumnDefinition) : option (string * EmbeddingDefinition) :=
  match column.2 with
  | Embedding e => Some (field_name column.1, e)
  | Physical => None
  end.
Definition lineage_sources (lineage : Lineage) : gmap string string :=
  list_to_map (concat (map (λ entry, map (λ o, (o, entry.1)) entry.2) (map_to_list lineage))).
Definition embedding_for_output (name : string) (embeddings : gmap string EmbeddingDefinition)
    (sources : gmap string string) (lineage : Lineage) : option EmbeddingDefinition :=
  source ← sources !! name;
  embedding ← embeddings !! source;
  input ← lineage !! source_column embedding ≫= head;
  Some (mkEmbedding input (Some name) (embedding_name embedding)).
Definition column_definitions_for_view (raw : string) (source_schema : ArrowSchema)
    (view_fields : list Field) (lineage : Lineage) : option string :=
  source_definitions ← parse_definitions raw;
  let embeddings := list_to_map (reverse
    (omap embedding_of (zip (fields source_schema) source_definitions))) in
  let sources := lineage_sources lineage in
  let found := map (λ f, embedding_for_output (field_name f) embeddings sources lineage) view_fields in
  if existsb (λ e : option EmbeddingDefinition, match e with Some _ => true | None => false end) found
  then print_definitions (map (λ e, match e with Some e => Embedding e | None => Physical end) found)
  else None.

Definition definition_at (by_name : gmap string ColumnDefinition) (f : Field) : ColumnDefinition :=
  default Physical (by_name !! field_name f).
Definition rewrite_column_definitions (metadata : gmap string string) (previous : ArrowSchema)
    (fs : list Field) : result (gmap string string) :=
  match metadata !! COLUMN_DEFINITIONS_META_KEY with
  | None => Ok metadata
  | Some raw =>
      definitions ← ok_or (Runtime "unreadable column definitions on the view: {e}")
                      (parse_definitions raw);
      let by_name := list_to_map (reverse (zip (names previous) definitions)) in
      rewritten ← ok_or (Runtime "failed to serialize column definitions: {e}")
                    (print_definitions (map (definition_at by_name) fs));
      Ok (<[COLUMN_DEFINITIONS_META_KEY := rewritten]> metadata)
  end.

(** ** Prepared declarations *)
Record PreparedDeclaration : Type := mkPrepared {
  prepared_schema : ArrowSchema;
  prepared_definition : MaterializedViewDefinition;
  source_schema : ArrowSchema;
  prepared_lineage : Lineage;
  internal_inputs : nat
}.

Definition with_projection (d : MaterializedViewDefinition) (p : ViewProjection)
    : MaterializedViewDefinition :=
  mkDefinition (source_table d) (source_namespace d) (lateral d) (projections d ++ [p])%list
    (view_filter d) (group_by d) (limit d).
Definition input_projection (name source : string) : ViewProjection :=
  mkProjection name (String.concat "." (map ident_sql (split "."%char source))).
Definition renamed (f : Field) (name : string) : Field :=
  mkField name (field_type f) (field_nullable f) (field_metadata f).

(** The name, and the declaration after the call, which a failure to describe
    the columns leaves half extended *)
Definition input_column_run (p : PreparedDeclaration) (source : string)
    : result string * PreparedDeclaration :=
  if is_grouped (prepared_definition p)
  then (Err (InvalidInput "a computed column on a grouped view cannot read source column '{source_column}'; declare it on a view over the grouped view"), p)
  else match prepared_lineage p !! source ≫= head with
  | Some output => (Ok output, p)
  | None =>
      let name := input_column_name source in
      match field_at_path (source_schema p) source, field_with_name (prepared_schema p) name with
      | None, _ => (Err (InvalidInput "the source has no column '{source_column}' to read"), p)
      | Some _, Some _ => (Err (ColumnAlreadyExists name), p)
      | Some field, None =>
          let fs := (fields (prepared_schema p) ++ [without_declarations (renamed field name)])%list in
          let definition := with_projection (prepared_definition p) (input_projection name source) in
          let extended schema :=
            mkPrepared schema definition (source_schema p)
              (lineage_push (prepared_lineage p) source name) (S (internal_inputs p)) in
          match rewrite_column_definitions (schema_metadata (prepared_schema p)) (prepared_schema p) fs with
          | Ok metadata =>
              (Ok name, extended (mkSchema fs
                 (<[DEFINITION_META_KEY := definition_to_metadata definition]> metadata)))
          | Err e => (Err e, extended (prepared_schema p))
          | Panic => (Panic, extended (prepared_schema p))
          end
      end
  end.
Definition input_column (p : PreparedDeclaration) (source : string)
    : result (string * PreparedDeclaration) :=
  let '(r, p) := input_column_run p source in name ← r; Ok (name, p).

(** Columns the declaration lists: everything before the internal projections *)
Definition visible_count (p : PreparedDeclaration) : nat :=
  length (projections (prepared_definition p)) - internal_inputs p
  + length (computed_columns (prepared_schema p)).

(** [sort_by_key], which is stable *)
Fixpoint insert_by_position (c : nat * Field) (l : list (nat * Field)) : list (nat * Field) :=
  match l with
  | [] => [c]
  | d :: l' => if (c.1 <=? d.1)%nat then c :: l else d :: insert_by_position c l'
  end.
Fixpoint sort_by_position (l : list (nat * Field)) : list (nat * Field) :=
  match l with [] => [] | c :: l => insert_by_position c (sort_by_position l) end.
(** [Vec::insert] *)
Definition vec_insert (fs : list Field) (position : nat) (f : Field) : result (list Field) :=
  if (position <=? length fs)%nat then Ok (take position fs ++ f :: drop position fs)%list else Panic.

Fixpoint place_columns (visible inserted : nat) (columns : list (nat * Field)) (fs : list Field)
    : result (list Field) :=
  match columns with
  | [] => Ok fs
  | (position, field) :: columns =>
      let name := field_name field in
      if starts_with INPUT_COLUMN_PREFIX name then Err (InvalidInput "view column name '{name}' is reserved")
      else if existsb (λ f, String.eqb (field_name f) name) fs then Err (ColumnAlreadyExists name)
      else if negb (field_nullable field)
      then Err (InvalidInput "computed column '{name}' must be nullable until a refresh fills it")
      else match computed_column_from_field field with
      | None => Err (InvalidInput "column '{name}' does not carry a computed-column declaration")
      | Some _ =>
          if (visible + inserted <? position)%nat
          then Err (InvalidInput "computed column '{name}' is placed at {position}, past the view's {limit} columns")
          else
            fs ← vec_insert fs position field;
            place_columns visible (S inserted) columns fs
      end
  end.
Definition with_computed_columns (p : PreparedDeclaration) (columns : list (nat * Field))
    (bindings : list FunctionBinding) : result PreparedDeclaration :=
  if Nat.eqb (length columns) 0 then Err (InvalidInput "at least one computed column is needed")
  else if negb (Nat.eqb (length (computed_columns (prepared_schema p))) 0)
  then Err (InvalidInput "computed columns were already declared on this view")
  else if bool_decide (projections (prepared_definition p) = [])
  then Err (InvalidInput "a view of computed columns alone must read at least one source column")
  else
    fs ← place_columns (visible_count p) 0 (sort_by_position columns) (fields (prepared_schema p));
    metadata ← (match bindings with
                | [] => Ok (schema_metadata (prepared_schema p))
                | _ =>
                    raw ← function_bindings_metadata bindings;
                    Ok (<[FUNCTION_BINDINGS_META_KEY := raw]> (schema_metadata (prepared_schema p)))
                end);
    metadata ← rewrite_column_definitions metadata (prepared_schema p) fs;
    let schema := mkSchema fs metadata in
    _ ← ensure_declarations_are_planned schema;
    Ok (mkPrepared schema (prepared_definition p) (source_schema p) (prepared_lineage p)
          (internal_inputs p)).

(** ** Preparing *)

(** A handle on a source table, and what its database resolves its name to *)
Record Resolved : Type := mkResolved {
  resolved_native : bool;
  resolved_uri : result string;
  ensure_no_mem_wal : result unit;
  resolved_schema : result ArrowSchema;
  indexes : SourceIndexes
}.
Record Source : Type := mkSource {
  source_name : string;
  source_path : list string;
  is_native : bool;
  has_database : bool;
  handle_uri : result string;
  resolved : result Resolved
}.

Definition view_metadata (source_metadata : gmap string string) (source : ArrowSchema)
    (planned : Planned) : gmap string string :=
  let metadata :=
    match source_metadata !! EMBEDDING_FUNCTIONS_META_KEY ≫=
          λ raw, embedding_config_for_view raw (lineage planned) with
    | Some rewritten => {[EMBEDDING_FUNCTIONS_META_KEY := rewritten]}
    | None => ∅
    end : gmap string string in
  let metadata :=
    match source_metadata !! COLUMN_DEFINITIONS_META_KEY ≫=
          λ raw, column_definitions_for_view raw source (planned_fields planned) (lineage planned) with
    | Some rewritten => <[COLUMN_DEFINITIONS_META_KEY := rewritten]> metadata
    | None => metadata
    end in
  <[DEFINITION_META_KEY := definition_to_metadata (planned_definition planned)]> metadata.

Definition prepare_with (s : Source) (d : MaterializedViewDefinition) : result PreparedDeclaration :=
  if negb (is_native s)
  then Err (NotSupported "materialized views are supported only on local databases")
  else if negb (has_database s)
  then Err (InvalidInput "the source was not opened through a database connection")
  else
    r ← resolved s;
    if negb (resolved_native r)
    then Err (NotSupported "materialized views are supported only on local databases")
    else
      caller_uri ← handle_uri s;
      uri ← resolved_uri r;
      if negb (String.eqb caller_uri uri)
      then Err (InvalidInput "the source handle does not resolve to itself through its database: '{}' resolves to '{resolved_uri}', but the handle reads '{caller_uri}'")
      else
        _ ← ensure_no_mem_wal r;
        if existsb (λ p, starts_with INPUT_COLUMN_PREFIX (output p)) (projections d)
        then Err (InvalidInput "view column name '{}' is reserved")
        else
          schema ← resolved_schema r;
          planned ← plan schema d;
          let d := planned_definition planned in
          _ ← (if is_grouped d then check schema (indexes r) d else Ok tt);
          unnest ← physical_unnest d;
          planning ← (match unnest with None => Ok schema | Some u => flattened_schema schema u end);
          Ok (mkPrepared
                (mkSchema (planned_fields planned) (view_metadata (schema_metadata schema) schema planned))
                d planning (lineage planned) 0).
Definition prepare_definition (s : Source) (d : MaterializedViewDefinition)
    : result PreparedDeclaration :=
  if negb (String.eqb (source_table d) (source_name s))
     || negb (bool_decide (source_namespace d = source_path s))
  then Err (InvalidInput "the query reads '{}' in namespace {:?}, but the source handle is '{}' in {:?}")
  else prepare_with s d.
Definition prepare_declaration (s : Source) (ps : option (list (string * string)))
    (filter : option string) (limit : option Z) : result PreparedDeclaration :=
  prepare_definition s
    (mkDefinition (source_name s) (source_path s) None
       (match ps with None => [star] | Some ps => map (λ p, mkProjection p.1 p.2) ps end)
       filter [] limit).

(** ** Creating the view *)

(** [open_table] of the database, and the schema of what it opens *)
Definition Database : Type := list string → string → result (result ArrowSchema).
Class CreateTable : Type := {
  create_table : Database → list string → string → ArrowSchema → result Database
}.
Context {CT : CreateTable}.

Fixpoint follow_source (fuel : nat) (db : Database) (namespace_path : list string) (name : string)
    (next : list string * string) : result unit :=
  match fuel with
  | O => Err (InvalidInput "materialized view '{name}' would nest deeper than {MAX_SOURCE_DEPTH} views")
  | S fuel =>
      let '(namespace, source) := next in
      if bool_decide (namespace = namespace_path) && String.eqb source name
      then Err (InvalidInput "materialized view '{name}' would read itself: {}")
      else match db namespace source with
      | Ok schema =>
          schema ← schema;
          match read_definition (schema_metadata schema) with
          | Ok (Some (StoredQuery upstream)) =>
              follow_source fuel db namespace_path name
                (source_namespace upstream, source_table upstream)
          | Panic => Panic
          | _ => Ok tt
          end
      | Err (TableNotFound _) => Ok tt
      | Err e => Err e
      | Panic => Panic
      end
  end.
Definition ensure_no_source_cycle (db : Database) (namespace_path : list string) (name : string)
    (d : MaterializedViewDefinition) : result unit :=
  follow_source MAX_SOURCE_DEPTH db namespace_path name (source_namespace d, source_table d).

Definition create_in (p : PreparedDeclaration) (db : Database) (namespace_path : list string)
    (name : string) : result (Database * MaterializedViewInfo) :=
  _ ← ensure_no_source_cycle db namespace_path name (prepared_definition p);
  db ← create_table db namespace_path name (prepared_schema p);
  Ok (db, mkInfo (render (prepared_definition p)) (Some (prepared_definition p))).
Definition create (p : PreparedDeclaration) (db : Database) (name : string)
    : result (Database * MaterializedViewInfo) := create_in p db [] name.

(** ** The builder's query *)
Definition quote (name : string) : string :=
  String dquote (double_char dquote name) +:+ String dquote "".
Definition source_sql_identifier (namespace_path : list string) (source : string)
    (namespace_in_schema_position : bool) : string :=
  let namespace :=
    if namespace_in_schema_position && negb (bool_decide (namespace_path = []))
    then [join "$"%char namespace_path] else namespace_path in
  String.concat "." (map quote namespace ++ [quote source])%list.
Definition builder_query (uri : string) (namespace_path : list string) (source : string)
    (ps : list (string * string)) (filter : option string) (limit : option Z) : string :=
  "SELECT "
  +:+ (match ps with
       | [] => "*"
       | _ => String.concat ", " (map (λ p, p.2 +:+ " AS " +:+ quote p.1) ps)
       end)
  +:+ " FROM " +:+ source_sql_identifier namespace_path source (starts_with "db://" uri)
  +:+ (match filter with Some f => " WHERE " +:+ f | None => "" end)
  +:+ (match limit with Some n => " LIMIT " +:+ pretty (Z.to_N n) | None => "" end).
End view.

(** ** What is documented of the codecs, of DataFusion and of the database *)
Section laws.
Context {P : Planner} {BC : BindingChecks} {Sql : SqlParser} {VP : ViewPlanner} {G : GroupedPlanner}.
Context {J : JsonCodec} {CD : ColumnDefinitionCodec} {CT : CreateTable}.

Class JsonLaws : Prop := {
  parse_envelope : ∀ sql format, u64_range format →
    parse_json (definition_metadata_from_sql_with_format sql format) =
    Ok (JObject [("kind", JString "query"); ("format", JNumber format); ("query", JString sql)])
}.
Class DefinitionLaws : Prop := {
  parse_printed_definitions : ∀ defs raw, print_definitions defs = Some raw →
    parse_definitions raw = Some defs
}.
(** A query yields the columns of its select list under their aliases. *)
Class GroupedLaws : Prop := {
  plan_yields_aliases : ∀ schema d filtered plan, logical_plan schema d filtered = Ok plan →
    map field_name (plan_schema_fields plan) = map output (projections d)
}.
Class CreateLaws : Prop := {
  create_elsewhere : ∀ db ns name schema db' ns' name', create_table db ns name schema = Ok db' →
    (ns', name') ≠ (ns, name) → db' ns' name' = db ns' name'
}.

(** ** Declarations and their operations *)
Inductive declared (s : Source) : PreparedDeclaration → Prop :=
  | declared_prepare d p : prepare_definition s d = Ok p → declared s p
  | declared_input p source name p' : declared s p → input_column p source = Ok (name, p') →
      declared s p'
  | declared_computed p columns bindings p' : declared s p →
      with_computed_columns p columns bindings = Ok p' → declared s p'.

Definition is_stored (f : Field) : bool :=
  match computed_column_from_field f with Some _ => false | None => true end.
Definition stored (fs : list Field) : list Field := List.filter is_stored fs.
(** The definition that the schema's metadata gives a column *)
Definition described (schema : ArrowSchema) (n : string) : option ColumnDefinition :=
  raw ← schema_metadata schema !! COLUMN_DEFINITIONS_META_KEY;
  definitions ← parse_definitions raw;
  (list_to_map (zip (names schema) definitions) : gmap string ColumnDefinition) !! n.
Definition described_whole (schema : ArrowSchema) : Prop :=
  ∀ raw, schema_metadata schema !! COLUMN_DEFINITIONS_META_KEY = Some raw →
  ∃ definitions, parse_definitions raw = Some definitions ∧
    length definitions = length (fields schema).

Record consistent (p : PreparedDeclaration) : Prop := mkConsistent {
  names_distinct : NoDup (names (prepared_schema p));
  stored_outputs : map field_name (stored (fields (prepared_schema p))) =
    map output (projections (prepared_definition p));
  internal_last : (internal_inputs p ≤ length (projections (prepared_definition p)))%nat ∧
    map field_name (drop (visible_count p) (fields (prepared_schema p))) =
    drop (length (projections (prepared_definition p)) - internal_inputs p)
      (map output (projections (prepared_definition p)));
  lineage_projected : ∀ source outputs n, prepared_lineage p !! source = Some outputs →
    n ∈ outputs → n ∈ map output (projections (prepared_definition p));
  definition_stamped : schema_metadata (prepared_schema p) !! DEFINITION_META_KEY =
    Some (definition_to_metadata (prepared_definition p));
  definitions_whole : described_whole (prepared_schema p)
}.
End laws.

(** * Lemmas *)

(** ** Counting the stored columns *)
Section counting.
Context {P : Planner}.
Lemma stored_app a b : stored (a ++ b)%list = (stored a ++ stored b)%list.
Proof. apply List.filter_app. Qed.
Lemma length_stored fs metadata :
  length fs = (length (stored fs) + length (computed_columns (mkSchema fs metadata)))%nat.
Proof.
  unfold computed_columns, stored, is_stored. cbn [fields]. induction fs as [|f fs IH]; [done|].
  cbn [List.filter omap list_omap length]. destruct (computed_column_from_field f); cbn [length]; lia.
Qed.
Lemma length_schema schema :
  length (fields schema) =
  (length (stored (fields schema)) + length (computed_columns schema))%nat.
Proof. destruct schema. apply length_stored. Qed.

Lemma kept_computed m : kept_metadata m !! ComputedColumns.COMPUTED_COLUMN_META_KEY = None.
Proof.
  unfold kept_metadata. apply map_lookup_filter_None. right. intros v _. by cbn.
Qed.
Lemma without_declarations_name f : field_name (without_declarations f) = field_name f.
Proof. by destruct f. Qed.
Lemma without_declarations_stored f : is_stored (without_declarations f) = true.
Proof.
  unfold is_stored, computed_column_from_field, ComputedColumns.is_flagged.
  assert (field_metadata (without_declarations f) !! ComputedColumns.COMPUTED_COLUMN_META_KEY = None) as ->.
  { destruct f as [n t b m]. apply kept_computed. }
  done.
Qed.
Lemma stored_all fs : Forall (λ f, is_stored f = true) fs → stored fs = fs.
Proof. induction 1 as [|f fs Hf _ IH]; [done|]. unfold stored in *. cbn. by rewrite Hf, IH. Qed.
End counting.

Section lemmas.
Context {P : Planner} {BC : BindingChecks} {Sql : SqlParser} {VP : ViewPlanner} {G : GroupedPlanner}.
Context {J : JsonCodec} {CD : ColumnDefinitionCodec} {CT : CreateTable}.

(** ** Planning names the columns after the projections *)
Lemma plan_projection_Ok schema n e f read column :
  plan_projection schema n e = Ok (f, read, column) → field_name f = n ∧ is_stored f = true.
Proof.
  unfold plan_projection. intros (x & _ & H)%bind_Ok. apply bind_Ok in H as (o & _ & H).
  apply bind_Ok in H as (ins & _ & H). apply bind_Ok in H as (ph & _ & H).
  apply bind_Ok in H as (t & _ & H).
  match type of H with Ok (?g, _, _) = _ => assert (f = g) as -> by congruence end.
  split; [by rewrite without_declarations_name|apply without_declarations_stored].
Qed.

(** Every output that the lineage names is one of [outputs]. *)
Definition lineage_within (lineage : Lineage) (outputs : list string) : Prop :=
  ∀ source os n, lineage !! source = Some os → n ∈ os → n ∈ outputs.
Lemma lineage_push_within lineage outputs source output :
  lineage_within lineage outputs → lineage_within (lineage_push lineage source output) (outputs ++ [output])%list.
Proof.
  intros Hl s os n. unfold lineage_push. destruct (decide (s = source)) as [->|Hne].
  - rewrite lookup_insert_eq. intros [= <-] [Hn|Hn]%elem_of_app; apply elem_of_app; [|by right].
    destruct (lineage !! source) as [os|] eqn:Hs; [|by apply not_elem_of_nil in Hn]. left. by apply (Hl source os).
  - rewrite lookup_insert_ne by done. intros Hs Hn. apply elem_of_app. left. by apply (Hl s os).
Qed.
Lemma lineage_within_app lineage a b : lineage_within lineage a → lineage_within lineage (a ++ b)%list.
Proof. intros Hl s os n Hs Hn. apply elem_of_app. left. by apply (Hl s os). Qed.
Lemma lineage_empty outputs : lineage_within ∅ outputs.
Proof. by intros ? ? ? ?%lookup_empty_Some. Qed.
Lemma plan_lineage schema ps declared acc fs ins lin :
  lineage_within acc.2 declared → plan_projections schema ps declared acc = Ok (fs, ins, lin) →
  lineage_within lin (declared ++ map output ps)%list.
Proof.
  revert declared acc. induction ps as [|p ps IH]; intros declared [[fs0 ins0] lin0]; cbn [snd].
  { intros Hl [= <- <- <-]. by apply lineage_within_app. }
  intros Hl. cbn [plan_projections]. case_bool_decide as Hd; [done|].
  intros ([[f read] column] & _ & H)%bind_Ok. apply IH in H; cbn [snd].
  - cbn [map]. by rewrite <-app_assoc in H.
  - destruct column; [by apply lineage_push_within|by apply lineage_within_app].
Qed.

Lemma plan_projections_Ok schema ps declared acc fs ins lin :
  map field_name acc.1.1 = declared → NoDup declared → Forall (λ f, is_stored f = true) acc.1.1 →
  plan_projections schema ps declared acc = Ok (fs, ins, lin) →
  map field_name fs = (declared ++ map output ps)%list ∧ NoDup (map field_name fs) ∧
  Forall (λ f, is_stored f = true) fs.
Proof.
  revert declared acc. induction ps as [|p ps IH]; intros declared [[fs0 ins0] lin0]; cbn [fst].
  { intros Hn Hnd Hs [= <- <- <-]. rewrite app_nil_r, Hn. done. }
  intros Hn Hnd Hs. cbn [plan_projections]. case_bool_decide as Hd; [done|].
  intros ([[f read] column] & Hone & H)%bind_Ok.
  destruct (plan_projection_Ok _ _ _ _ _ _ Hone) as [Hf Hst].
  apply IH in H; cbn [fst].
  - cbn [map]. by rewrite <-app_assoc in H.
  - rewrite map_app, Hn. cbn. by rewrite Hf.
  - apply NoDup_app. split; [done|]. split; [|apply NoDup_singleton].
    intros x Hx ->%list_elem_of_singleton. done.
  - apply Forall_app. split; [done|]. by constructor.
Qed.

Lemma grouped_projections_Ok ps seen out :
  NoDup (map output seen) → grouped_projections ps seen = Ok out →
  NoDup (map output out) ∧ map output out = (map output seen ++ map output ps)%list.
Proof.
  revert seen. induction ps as [|p ps IH]; intros seen Hnd; cbn [grouped_projections].
  { intros [= <-]. by rewrite app_nil_r. }
  destruct (existsb _ seen) eqn:Hx; [done|]. intros (p' & Hp & H)%bind_Ok.
  assert (output p' = output p) as Ho.
  { unfold canonical_projection in Hp. apply bind_Ok in Hp as (e & _ & [= <-]). done. }
  apply IH in H as [Hn Hm].
  - split; [done|]. rewrite Hm, map_app, <-app_assoc. cbn. by rewrite Ho.
  - rewrite map_app. apply NoDup_app. split; [done|]. split; [|apply NoDup_singleton].
    cbn. rewrite Ho. intros x (q & -> & Hq)%list_elem_of_fmap Heq%list_elem_of_singleton.
    assert (existsb (λ s, String.eqb (output s) (output p)) seen = true); [|congruence].
    apply existsb_exists. exists q. split; [by apply list_elem_of_In|]. by apply String.eqb_eq.
Qed.

Lemma map_without fs : map field_name (map without_declarations fs) = map field_name fs.
Proof. rewrite map_map. apply map_ext, without_declarations_name. Qed.
Lemma stored_without fs : stored (map without_declarations fs) = map without_declarations fs.
Proof.
  apply stored_all, Forall_forall. intros f (g & -> & _)%list_elem_of_fmap.
  apply without_declarations_stored.
Qed.

Context {GL : GroupedLaws}.

Lemma plan_fields_Ok schema d planned : plan schema d = Ok planned →
  map field_name (planned_fields planned) = map output (projections (planned_definition planned)) ∧
  NoDup (map field_name (planned_fields planned)) ∧ stored (planned_fields planned) = planned_fields planned ∧
  lineage_within (lineage planned) (map output (projections (planned_definition planned))).
Proof.
  unfold plan. intros (flt & _ & H)%bind_Ok. destruct (is_grouped d).
  - unfold plan_groups in H. apply bind_Ok in H as (? & _ & H). apply bind_Ok in H as (ins & _ & H).
    apply bind_Ok in H as (ps & Hps & H). apply bind_Ok in H as (gs & _ & H).
    apply bind_Ok in H as (pl & Hpl & H). apply bind_Ok in H as (? & _ & [= <-]).
    cbn [planned_fields planned_definition projections].
    apply grouped_projections_Ok in Hps as [Hnd _]; [|apply NoDup_nil_2].
    rewrite map_without, (plan_yields_aliases _ _ _ _ Hpl). cbn [projections].
    split; [done|]. split; [done|]. split; [apply stored_without|]. apply lineage_empty.
  - unfold plan_rows in H. apply bind_Ok in H as (un & _ & H). apply bind_Ok in H as (sc & _ & H).
    apply bind_Ok in H as (ps & _ & H). apply bind_Ok in H as (? & _ & H).
    apply bind_Ok in H as ([[fs ins] lin] & Hpl & H). apply bind_Ok in H as (rd & _ & [= <-]).
    cbn [planned_fields planned_definition projections].
    pose proof (plan_lineage _ _ _ ([], [], ∅) _ _ _ (lineage_empty []) Hpl) as Hlin.
    apply plan_projections_Ok in Hpl as (Hn & Hnd & Hst); [|done|apply NoDup_nil_2|apply Forall_nil_2].
    split; [done|]. split; [done|]. split; [by apply stored_all|done].
Qed.

(** ** Positional column definitions *)
Context {DL : DefinitionLaws}.

Lemma rewrite_keeps metadata previous fs metadata' k :
  rewrite_column_definitions metadata previous fs = Ok metadata' →
  k ≠ COLUMN_DEFINITIONS_META_KEY → metadata' !! k = metadata !! k.
Proof.
  unfold rewrite_column_definitions. destruct (metadata !! COLUMN_DEFINITIONS_META_KEY); [|by intros [= <-]].
  intros (defs & _ & H)%bind_Ok. apply bind_Ok in H as (out & _ & [= <-]). intros Hk.
  by rewrite lookup_insert_ne.
Qed.

Lemma rewrite_whole metadata previous fs metadata' m :
  rewrite_column_definitions metadata previous fs = Ok metadata' →
  m !! COLUMN_DEFINITIONS_META_KEY = metadata' !! COLUMN_DEFINITIONS_META_KEY →
  described_whole (mkSchema fs m).
Proof.
  unfold rewrite_column_definitions, described_whole. cbn [schema_metadata fields]. intros H ->.
  destruct (metadata !! COLUMN_DEFINITIONS_META_KEY) eqn:Hm.
  - apply bind_Ok in H as (defs & _ & H). apply bind_Ok in H as (out & Hout & [= <-]).
    apply ok_or_Ok in Hout. intros raw. rewrite lookup_insert_eq. intros [= <-].
    rewrite (parse_printed_definitions _ _ Hout). eexists. split; [done|]. by rewrite length_map.
  - injection H as <-. by rewrite Hm.
Qed.

(** Columns that were described before keep their description. *)
Lemma rewrite_described metadata previous fs metadata' m n :
  NoDup (names previous) → described_whole previous → NoDup (map field_name fs) →
  metadata !! COLUMN_DEFINITIONS_META_KEY = schema_metadata previous !! COLUMN_DEFINITIONS_META_KEY →
  rewrite_column_definitions metadata previous fs = Ok metadata' →
  m !! COLUMN_DEFINITIONS_META_KEY = metadata' !! COLUMN_DEFINITIONS_META_KEY →
  n ∈ names previous → n ∈ map field_name fs →
  described (mkSchema fs m) n = described previous n.
Proof.
  intros Hnd Hw Hndf Heq. unfold rewrite_column_definitions, described. cbn [schema_metadata].
  intros H ->. destruct (schema_metadata previous !! COLUMN_DEFINITIONS_META_KEY) as [raw|] eqn:Hm; rewrite Heq in H; cbn [mbind option_bind].
  2: { injection H as <-. by rewrite Heq. }
  destruct (Hw raw Hm) as (defs & Hdefs & Hlen). rewrite Hdefs in H |- *. cbn [ok_or mbind outcome_bind option_bind] in H |- *.
  apply bind_Ok in H as (out & Hout & [= <-]). apply ok_or_Ok in Hout.
  rewrite lookup_insert_eq. cbn [mbind option_bind]. rewrite (parse_printed_definitions _ _ Hout).
  cbn [mbind option_bind names fields]. intros Hn Hf.
  assert (NoDup (zip (names previous) defs).*1) as Hz.
  { rewrite fst_zip; [done|]. unfold names. rewrite length_map. lia. }
  assert (list_to_map (reverse (zip (names previous) defs)) =
    (list_to_map (zip (names previous) defs) : gmap string ColumnDefinition)) as ->.
  { apply list_to_map_proper; [by rewrite fmap_reverse, reverse_Permutation|apply reverse_Permutation]. }
  apply list_elem_of_fmap in Hf as (f & -> & Hf). apply list_elem_of_lookup in Hf as [i Hi].
  set (by_name := list_to_map (zip (names previous) defs)).
  transitivity (Some (definition_at by_name f)).
  - apply elem_of_list_to_map_1.
    { rewrite fst_zip; [exact Hndf|]. unfold names. rewrite !length_map. done. }
    apply list_elem_of_lookup. exists i. unfold names. cbn [fields].
    apply lookup_zip_with_Some. exists (field_name f), (definition_at by_name f).
    split; [done|]. rewrite !list_lookup_fmap, Hi. done.
  - unfold definition_at. assert (is_Some (by_name !! field_name f)) as [d Hd]; [|by rewrite Hd].
    apply list_elem_of_lookup in Hn as [j Hj].
    destruct (lookup_lt_is_Some_2 defs j) as [d Hd].
    { rewrite Hlen. apply lookup_lt_Some in Hj. unfold names in Hj. by rewrite length_map in Hj. }
    exists d. apply elem_of_list_to_map_1; [done|]. apply list_elem_of_lookup. exists j.
    apply lookup_zip_with_Some. eauto.
Qed.

(** ** Placing computed columns *)
Lemma place_columns_Ok visible inserted columns fs fs' :
  NoDup (map field_name fs) → (visible + inserted ≤ length fs)%nat →
  place_columns visible inserted columns fs = Ok fs' →
  NoDup (map field_name fs') ∧ stored fs' = stored fs ∧
  length fs' = (length fs + length columns)%nat ∧
  drop (visible + inserted + length columns) fs' = drop (visible + inserted) fs ∧
  ∀ n, n ∈ map field_name fs → n ∈ map field_name fs'.
Proof.
  revert inserted fs. induction columns as [|[k f] columns IH]; intros inserted fs Hnd Hle; cbn [place_columns].
  { intros [= <-]. cbn [length]. rewrite !Nat.add_0_r. done. }
  destruct (starts_with _ _); [done|]. destruct (existsb _ fs) eqn:Hx; [done|].
  destruct (negb (field_nullable f)); [done|].
  destruct (computed_column_from_field f) as [c|] eqn:Hc; [|done].
  destruct (Nat.ltb_spec (visible + inserted) k) as [|Hk]; [done|].
  intros (fs1 & H1 & H)%bind_Ok. unfold vec_insert in H1.
  destruct (Nat.leb_spec k (length fs)); [|done].
  assert (fs1 = (take k fs ++ f :: drop k fs)%list) as -> by congruence.
  assert (map field_name (take k fs ++ f :: drop k fs) ≡ₚ field_name f :: map field_name fs) as Hp.
  { rewrite <-Permutation_middle. cbn. by rewrite take_drop. }
  apply IH in H as (Hn & Hs & Hl & Hd & Hin).
  - split; [done|]. split; [|split; [|split]].
    + rewrite Hs, stored_app. unfold stored at 2. cbn [List.filter]. unfold is_stored at 1. rewrite Hc.
      fold (stored (drop k fs)). by rewrite <-stored_app, take_drop.
    + rewrite Hl, length_app. cbn [length]. rewrite <-(take_drop k fs) at 3. rewrite length_app. lia.
    + cbn [length]. replace (visible + inserted + S (length columns))%nat with (visible + S inserted + length columns)%nat by lia.
      rewrite Hd, drop_app_ge by (rewrite length_take; lia). rewrite length_take, Nat.min_l by lia.
      replace (visible + S inserted - k)%nat with (S (visible + inserted - k)) by lia. cbn [drop].
      rewrite drop_drop. f_equal. lia.
    + intros n Hi. apply Hin. rewrite Hp. by apply list_elem_of_further.
  - rewrite Hp. apply NoDup_cons. split; [|done]. intros (g & Hg & Hgin)%list_elem_of_fmap.
    assert (existsb (λ g, String.eqb (field_name g) (field_name f)) fs = true); [|congruence].
    apply existsb_exists. exists g. split; [by apply list_elem_of_In|]. by apply String.eqb_eq.
  - rewrite length_app. cbn [length]. rewrite <-(take_drop k fs) in Hle at 1. rewrite length_app in Hle. lia.
Qed.
Lemma place_columns_total visible inserted columns fs :
  (visible + inserted ≤ length fs)%nat → place_columns visible inserted columns fs ≠ Panic.
Proof.
  revert inserted fs. induction columns as [|[k f] columns IH]; intros inserted fs Hle; cbn [place_columns]; [done|].
  destruct (starts_with _ _); [done|]. destruct (existsb _ fs); [done|].
  destruct (negb (field_nullable f)); [done|]. destruct (computed_column_from_field f); [|done].
  destruct (Nat.ltb_spec (visible + inserted) k); [done|]. unfold vec_insert.
  destruct (Nat.leb_spec k (length fs)); [|lia]. run_ok. apply IH.
  rewrite length_app. cbn [length]. rewrite <-(take_drop k fs) in Hle at 1. rewrite length_app in Hle. lia.
Qed.
Lemma length_sort_by_position l : length (sort_by_position l) = length l.
Proof.
  assert (∀ c l, length (insert_by_position c l) = S (length l)) as Hi.
  { intros c l'. induction l' as [|d l' IH]; [done|]. cbn. case_match; cbn; by rewrite ?IH. }
  induction l as [|c l IH]; [done|]. cbn. by rewrite Hi, IH.
Qed.

(** ** Every operation leaves the declaration consistent *)
Lemma view_definition_stamped m source planned :
  view_metadata m source planned !! DEFINITION_META_KEY =
  Some (definition_to_metadata (planned_definition planned)).
Proof. unfold view_metadata. apply lookup_insert_eq. Qed.
Lemma view_definitions_whole m source planned :
  described_whole (mkSchema (planned_fields planned) (view_metadata m source planned)).
Proof.
  unfold described_whole, view_metadata. cbn [schema_metadata fields]. intros raw.
  rewrite lookup_insert_ne by done.
  destruct (m !! COLUMN_DEFINITIONS_META_KEY ≫= _) as [out|] eqn:Hout.
  - rewrite lookup_insert_eq. intros [= <-]. apply bind_Some in Hout as (raw0 & _ & Hout).
    unfold column_definitions_for_view in Hout. apply bind_Some in Hout as (defs & _ & Hout).
    destruct (existsb _ _); [|done]. apply parse_printed_definitions in Hout. rewrite Hout.
    eexists. split; [done|]. by rewrite !length_map.
  - destruct (m !! EMBEDDING_FUNCTIONS_META_KEY ≫= _).
    + by rewrite lookup_singleton_ne.
    + by rewrite lookup_empty.
Qed.

(** The listed columns come before the internal ones. *)
Lemma visible_le p : consistent p →
  (visible_count p + internal_inputs p = length (fields (prepared_schema p)))%nat.
Proof.
  intros [_ Hs [Hi _] _ _ _]. apply (f_equal length) in Hs. rewrite !length_map in Hs. unfold visible_count.
  pose proof (length_schema (prepared_schema p)). lia.
Qed.

Lemma prepared_consistent s d p : prepare_definition s d = Ok p → consistent p.
Proof.
  unfold prepare_definition, prepare_with.
  repeat match goal with |- context [if ?b then _ else _] => destruct b; try done; [] end.
  destruct (resolved s) as [r| |]; [|done|done]. run_ok.
  repeat match goal with |- context [if ?b then _ else _] => destruct b; try done; [] end.
  intros (cu & _ & H)%bind_Ok. apply bind_Ok in H as (u & _ & H).
  destruct (negb _); [done|]. apply bind_Ok in H as ([] & _ & H). destruct (existsb _ _); [done|].
  apply bind_Ok in H as (schema & _ & H). apply bind_Ok in H as (pl & Hpl & H).
  apply bind_Ok in H as ([] & _ & H). apply bind_Ok in H as (un & _ & H).
  apply bind_Ok in H as (planning & _ & H). injection H as <-.
  destruct (plan_fields_Ok _ _ _ Hpl) as (Hn & Hnd & Hst & Hlin).
  assert (length (planned_fields pl) = length (projections (planned_definition pl))) as Hl.
  { apply (f_equal length) in Hn. by rewrite !length_map in Hn. }
  pose proof (length_stored (planned_fields pl)
    (view_metadata (schema_metadata schema) schema pl)) as Hc. rewrite Hst in Hc.
  split; unfold visible_count; cbn [prepared_schema prepared_definition internal_inputs fields];
    [done|by rewrite Hst| |exact Hlin|apply view_definition_stamped|apply view_definitions_whole].
  split; [lia|]. rewrite !drop_ge; [done|rewrite length_map; lia|lia].
Qed.

(** What reading one more source column changes *)
Record reads_one_more (p : PreparedDeclaration) (source : string) (p' : PreparedDeclaration)
    : Prop := mkReadsOne {
  one_more_field : field_with_name (prepared_schema p) (input_column_name source) = None ∧
    ∃ f, field_name f = input_column_name source ∧ is_stored f = true ∧
    fields (prepared_schema p') = (fields (prepared_schema p) ++ [f])%list;
  one_more_projection : prepared_definition p' =
    with_projection (prepared_definition p) (input_projection (input_column_name source) source);
  one_more_lineage : prepared_lineage p' =
    lineage_push (prepared_lineage p) source (input_column_name source);
  one_more_internal : internal_inputs p' = S (internal_inputs p);
  one_more_metadata : ∃ metadata,
    rewrite_column_definitions (schema_metadata (prepared_schema p)) (prepared_schema p)
      (fields (prepared_schema p')) = Ok metadata ∧
    schema_metadata (prepared_schema p') =
      <[DEFINITION_META_KEY := definition_to_metadata (prepared_definition p')]> metadata
}.
Lemma input_column_Ok p source name p' : input_column p source = Ok (name, p') →
  (p' = p ∧ prepared_lineage p !! source ≫= head = Some name) ∨
  (name = input_column_name source ∧ reads_one_more p source p').
Proof.
  unfold input_column, input_column_run. destruct (is_grouped _); [done|].
  destruct (prepared_lineage p !! source ≫= head) eqn:Hl; [intros [= <- <-]; by left|].
  destruct (field_at_path _ source) as [f|]; [|done].
  destruct (field_with_name (prepared_schema p) _) eqn:Hf; [done|]. cbn zeta.
  destruct (rewrite_column_definitions _ _ _) as [metadata|e|] eqn:Hm; [|done..].
  cbn [mbind outcome_bind]. intros H. right.
  match type of H with Ok (?n, ?q) = _ => assert (name = n) as -> by congruence;
    assert (p' = q) as -> by congruence end.
  split; [done|]. split; cbn [prepared_schema prepared_definition prepared_lineage internal_inputs fields schema_metadata].
  - split; [done|]. eexists. split; [|split; [|reflexivity]].
    + by rewrite without_declarations_name.
    + apply without_declarations_stored.
  - done.
  - done.
  - done.
  - eauto.
Qed.

(** A failure is not taken back: the next call answers with a column that the
    schema does not have. *)
Lemma failed_input_is_remembered p source e p' : input_column_run p source = (Err e, p') → p' ≠ p →
  input_column p' source = Ok (input_column_name source, p') ∧
  field_with_name (prepared_schema p') (input_column_name source) = None.
Proof.
  unfold input_column, input_column_run. destruct (is_grouped (prepared_definition p)) eqn:Hg; [by intros [= _ <-]|].
  destruct (prepared_lineage p !! source ≫= head) as [o|] eqn:Hl; [by intros [= _ <-]|].
  destruct (field_at_path _ source) as [f|]; [|by intros [= _ <-]].
  destruct (field_with_name (prepared_schema p) _) eqn:Hf; [by intros [= _ <-]|]. cbn zeta.
  destruct (rewrite_column_definitions _ _ _) as [metadata|e'|]; [done| |done].
  intros [= _ <-] _. cbn [prepared_definition prepared_lineage prepared_schema].
  unfold with_projection at 1. cbn [is_grouped group_by]. unfold is_grouped in Hg |- *. cbn [group_by].
  rewrite Hg. split; [|done].
  assert (lineage_push (prepared_lineage p) source (input_column_name source) !! source ≫= head =
    Some (input_column_name source)) as ->; [|done].
  unfold lineage_push. rewrite lookup_insert_eq. cbn [mbind option_bind].
  destruct (prepared_lineage p !! source) as [[|x l]|] eqn:Hx; [done| |done].
  cbn in Hl. discriminate Hl.
Qed.

Lemma input_consistent p source name p' :
  consistent p → input_column p source = Ok (name, p') → consistent p'.
Proof.
  intros Hc [[-> _]|[_ [[Hnone (f & Hf & Hst & Hfs)] Hd Hlin Hi (m & Hm & Hmeta)]]]%input_column_Ok; [done|].
  pose proof (visible_le _ Hc) as Hv. destruct Hc as [Hnd Hso [Hil Hin] Hlp Hds Hw].
  assert (stored (fields (prepared_schema p')) = (stored (fields (prepared_schema p)) ++ [f])%list) as Hs'.
  { rewrite Hfs, stored_app. f_equal. apply stored_all. by constructor. }
  assert (length (projections (prepared_definition p')) = S (length (projections (prepared_definition p)))) as Hl'.
  { rewrite Hd. cbn [with_projection projections]. rewrite length_app. cbn. lia. }
  assert (visible_count p' = visible_count p) as Hvis.
  { pose proof (length_schema (prepared_schema p')) as H1. pose proof (length_schema (prepared_schema p)).
    unfold visible_count. rewrite Hs', Hfs, !length_app in H1. cbn [length] in H1. lia. }
  split.
  - unfold names. rewrite Hfs, map_app. cbn. rewrite Hf. apply NoDup_app. split; [done|].
    split; [|apply NoDup_singleton]. intros x Hx ->%list_elem_of_singleton.
    by apply (field_with_name_None (prepared_schema p) (input_column_name source)) in Hnone.
  - rewrite Hs', map_app, Hso, Hd. cbn [with_projection projections]. rewrite map_app. cbn. by rewrite Hf.
  - rewrite Hi, Hvis, Hl'. split; [lia|]. rewrite Hfs, drop_app_le by lia. rewrite map_app, Hin, Hd.
    cbn [with_projection projections]. rewrite map_app, drop_app_le by (rewrite length_map; lia).
    cbn. by rewrite Hf.
  - rewrite Hlin, Hd. cbn [with_projection projections]. rewrite map_app. by apply lineage_push_within.
  - by rewrite Hmeta, lookup_insert_eq.
  - destruct (prepared_schema p') as [fs' m']. cbn [fields schema_metadata] in *.
    apply (rewrite_whole _ _ _ _ _ Hm). by rewrite Hmeta, lookup_insert_ne.
Qed.

(** What placing computed columns changes *)
Record places (p : PreparedDeclaration) (columns : list (nat * Field)) (p' : PreparedDeclaration)
    : Prop := mkPlaces {
  none_before : length (computed_columns (prepared_schema p)) = 0;
  placed_fields : place_columns (visible_count p) 0 (sort_by_position columns)
    (fields (prepared_schema p)) = Ok (fields (prepared_schema p'));
  placed_rest : prepared_definition p' = prepared_definition p ∧
    prepared_lineage p' = prepared_lineage p ∧
    internal_inputs p' = internal_inputs p;
  placed_metadata : ∃ metadata,
    rewrite_column_definitions metadata (prepared_schema p) (fields (prepared_schema p')) =
      Ok (schema_metadata (prepared_schema p')) ∧
    ∀ k, k ≠ FUNCTION_BINDINGS_META_KEY → metadata !! k = schema_metadata (prepared_schema p) !! k
}.
Lemma with_computed_columns_Ok p columns bindings p' :
  with_computed_columns p columns bindings = Ok p' → places p columns p'.
Proof.
  unfold with_computed_columns. destruct (Nat.eqb _ 0); [done|].
  destruct (Nat.eqb (length (computed_columns (prepared_schema p))) 0) eqn:Hc; [cbn [negb]|done].
  apply Nat.eqb_eq in Hc. destruct (bool_decide _); [done|].
  intros (fs & Hfs & H)%bind_Ok. apply bind_Ok in H as (m1 & Hm1 & H).
  apply bind_Ok in H as (m2 & Hm2 & H). apply bind_Ok in H as ([] & _ & H).
  match type of H with Ok ?q = _ => assert (p' = q) as -> by congruence end.
  split; cbn [prepared_schema prepared_definition prepared_lineage internal_inputs fields
    schema_metadata]; [done|done|done|].
  exists m1. split; [done|]. intros k Hk. destruct bindings.
  - assert (m1 = schema_metadata (prepared_schema p)) as -> by congruence. done.
  - apply bind_Ok in Hm1 as (raw & _ & Hm1).
    assert (m1 = <[FUNCTION_BINDINGS_META_KEY := raw]> (schema_metadata (prepared_schema p))) as -> by congruence.
    by rewrite lookup_insert_ne.
Qed.
Lemma placed_consistent p columns bindings p' :
  consistent p → with_computed_columns p columns bindings = Ok p' → consistent p'.
Proof.
  intros Hc [Hnone Hfs (Hd & Hlin & Hi) (m & Hm & Hmk)]%with_computed_columns_Ok.
  pose proof (visible_le _ Hc) as Hv. destruct Hc as [Hnd Hso [Hil Hin] Hlp Hds Hw].
  apply place_columns_Ok in Hfs as (Hnd' & Hs' & Hl' & Hdrop & _); [|done|lia].
  rewrite length_sort_by_position in Hl', Hdrop. rewrite Nat.add_0_r in Hdrop.
  assert (visible_count p' = (visible_count p + length columns)%nat) as Hvis.
  { pose proof (length_schema (prepared_schema p')) as H1. pose proof (length_schema (prepared_schema p)).
    rewrite Hs' in H1. unfold visible_count in *. rewrite Hd, Hi. lia. }
  split.
  - done.
  - by rewrite Hs', Hso, Hd.
  - by rewrite Hi, Hd, Hvis, Hdrop.
  - by rewrite Hlin, Hd.
  - rewrite (rewrite_keeps _ _ _ _ _ Hm) by done. by rewrite Hmk, Hd by done.
  - destruct (prepared_schema p') as [fs' m']. by apply (rewrite_whole _ _ _ _ _ Hm).
Qed.

Lemma declared_consistent s p : declared s p → consistent p.
Proof.
  induction 1 as [d p H|p source name p' _ IH H|p columns bindings p' _ IH H].
  - by apply prepared_consistent in H.
  - by apply (input_consistent p source name).
  - by apply (placed_consistent p columns bindings).
Qed.

(** ** Stored definitions *)
Context {L : SqlLaws} {JL : JsonLaws}.
Lemma format_range d : u64_range (format_of d).
Proof. unfold format_of. by destruct (is_grouped d). Qed.
Lemma written_reads sql d metadata : prints_back sql → parse sql = Ok d →
  read_definition (<[DEFINITION_META_KEY := definition_to_metadata d]> metadata) =
  Ok (Some (StoredQuery d)).
Proof.
  intros Hback Hp. unfold read_definition, definition_to_metadata. rewrite lookup_insert_eq.
  rewrite parse_envelope by apply format_range. cbn [map_err]. run_ok.
  change (json_get _ "format") with (Some (JNumber (format_of d))). cbv iota. unfold read_current.
  assert (as_u64 (JNumber (format_of d)) = Some (format_of d)) as -> by (unfold format_of; by destruct (is_grouped d)).
  cbn [ok_or]. run_ok.
  assert ((DEFINITION_FORMAT <? format_of d)%Z = false) as -> by (unfold format_of; by destruct (is_grouped d)).
  change (json_get _ "query" ≫= as_str) with (Some (render d)). cbn [ok_or]. run_ok.
  rewrite (parse_render _ _ Hback Hp). cbn [map_err]. run_ok. by rewrite Z.ltb_irrefl.
Qed.
Lemma newer_reads sql format metadata : (DEFINITION_FORMAT < format)%Z → u64_range format →
  read_definition (<[DEFINITION_META_KEY := definition_metadata_from_sql_with_format sql format]> metadata) =
  Ok (Some (Newer (pretty (Z.to_N format)))).
Proof.
  intros Hn Hu. unfold read_definition. rewrite lookup_insert_eq, parse_envelope by done. cbn [map_err]. run_ok.
  change (json_get _ "format") with (Some (JNumber format)). cbv iota. unfold read_current, as_u64.
  rewrite (proj2 (u64_in_range_spec format) Hu). cbn [ok_or]. run_ok.
  by rewrite (proj2 (Z.ltb_lt _ _) Hn).
Qed.

(** ** Columns keep their descriptions *)
Lemma input_described p source name p' n :
  consistent p → input_column p source = Ok (name, p') → n ∈ names (prepared_schema p) →
  described (prepared_schema p') n = described (prepared_schema p) n.
Proof.
  intros Hc Hi Hn. pose proof (names_distinct _ (input_consistent _ _ _ _ Hc Hi)) as Hnd'.
  apply input_column_Ok in Hi as [[-> _]|[_ [[_ (f & _ & _ & Hfs)] _ _ _ (m & Hm & Hmeta)]]]; [done|].
  destruct (prepared_schema p') as [fs' m']. cbn [fields schema_metadata] in *. subst fs'.
  apply (rewrite_described _ _ _ _ _ _ (names_distinct _ Hc) (definitions_whole _ Hc) Hnd' eq_refl Hm).
  - by rewrite Hmeta, lookup_insert_ne.
  - done.
  - cbn [fields]. rewrite map_app. apply elem_of_app. by left.
Qed.
Lemma placed_described p columns bindings p' n :
  consistent p → with_computed_columns p columns bindings = Ok p' → n ∈ names (prepared_schema p) →
  described (prepared_schema p') n = described (prepared_schema p) n.
Proof.
  intros Hc Hp Hn. pose proof (names_distinct _ (placed_consistent _ _ _ _ Hc Hp)) as Hnd'.
  apply with_computed_columns_Ok in Hp as [_ Hfs _ (m & Hm & Hmk)].
  pose proof (visible_le _ Hc) as Hv.
  apply place_columns_Ok in Hfs as (_ & _ & _ & _ & Hkeep); [|apply Hc|lia].
  destruct (prepared_schema p') as [fs' m']. cbn [fields schema_metadata] in *.
  assert (COLUMN_DEFINITIONS_META_KEY ≠ FUNCTION_BINDINGS_META_KEY) as Hk by done.
  apply (rewrite_described _ _ _ _ _ _ (names_distinct _ Hc) (definitions_whole _ Hc) Hnd'
           (Hmk _ Hk) Hm eq_refl Hn).
  by apply Hkeep.
Qed.
Lemma input_is_stored p source name p' :
  consistent p → input_column p source = Ok (name, p') →
  name ∈ map field_name (stored (fields (prepared_schema p'))).
Proof.
  intros Hc Hi. pose proof (input_consistent _ _ _ _ Hc Hi) as Hc'.
  rewrite (stored_outputs _ Hc').
  apply input_column_Ok in Hi as [[-> Hl]|[-> [_ Hd _ _ _]]].
  - apply bind_Some in Hl as (outputs & Hl & Hh). apply (lineage_projected _ Hc source outputs); [done|].
    destruct outputs; [done|]. injection Hh as ->. apply list_elem_of_here.
  - rewrite Hd. cbn [with_projection projections]. rewrite map_app. apply elem_of_app. right.
    apply list_elem_of_here.
Qed.

(** ** The chain of sources *)

(** The view [x] of the database reads the table [y]. *)
Definition reads (db : Database) (x y : list string * string) : Prop :=
  ∃ schema d, db x.1 x.2 = Ok (Ok schema) ∧
    read_definition (schema_metadata schema) = Ok (Some (StoredQuery d)) ∧
    y = (source_namespace d, source_table d).
Lemma follow_step fuel db ns name x y :
  follow_source fuel db ns name x = Ok tt → reads db x y →
  ∃ fuel', follow_source fuel' db ns name y = Ok tt.
Proof.
  destruct fuel as [|fuel]; [done|]. destruct x as [xns xname]. cbn [follow_source].
  destruct (bool_decide _ && _); [done|]. intros H (schema & d & Hdb & Hd & ->). cbn [fst snd] in Hdb.
  rewrite Hdb in H. cbn [mbind outcome_bind] in H. rewrite Hd in H. eauto.
Qed.
Lemma follow_elsewhere fuel db ns name x : follow_source fuel db ns name x = Ok tt → x ≠ (ns, name).
Proof.
  destruct fuel as [|fuel]; [done|]. destruct x as [xns xname]. cbn [follow_source].
  intros H [= -> ->]. by rewrite bool_decide_eq_true_2, String.eqb_refl in H.
Qed.
End lemmas.

(** * Theorems *)
Section theorems.
Context {P : Planner} {BC : BindingChecks} {Sql : SqlParser} {VP : ViewPlanner} {G : GroupedPlanner}.
Context {J : JsonCodec} {CD : ColumnDefinitionCodec} {CT : CreateTable}.

(** C23: A declaration stays consistent: however a view's declaration was
    prepared and extended with source columns and computed columns, its schema's
    columns have distinct names, its stored columns are its query's outputs in
    order, the internal ones last, and its metadata carries its own query.  A
    computed column never lands outside the schema, the column that a source
    column is read from is a stored column of the view, and no operation loses
    the description of a column it had. *)
Theorem declaration_stays_consistent {GL : GroupedLaws} {DL : DefinitionLaws} s p :
  declared s p →
  consistent p ∧
  (∀ columns, place_columns (visible_count p) 0 (sort_by_position columns)
                (fields (prepared_schema p)) ≠ Panic) ∧
  (∀ source name p', input_column p source = Ok (name, p') →
     name ∈ map field_name (stored (fields (prepared_schema p'))) ∧
     ∀ n, n ∈ names (prepared_schema p) →
       described (prepared_schema p') n = described (prepared_schema p) n) ∧
  (∀ columns bindings p', with_computed_columns p columns bindings = Ok p' →
     stored (fields (prepared_schema p')) = stored (fields (prepared_schema p)) ∧
     ∀ n, n ∈ names (prepared_schema p) →
       described (prepared_schema p') n = described (prepared_schema p) n).
Proof.
  intros Hc%declared_consistent. pose proof (visible_le _ Hc) as Hv. split; [done|]. split; [|split].
  - intros columns. apply place_columns_total. lia.
  - intros source name p' Hi. split; [by apply (input_is_stored p source)|].
    intros n Hn. by apply (input_described p source name).
  - intros columns bindings p' Hp. split; [|intros n Hn; by apply (placed_described p columns bindings)].
    apply with_computed_columns_Ok in Hp as [_ Hfs _ _].
    apply place_columns_Ok in Hfs as (_ & Hs & _); [done|apply Hc|lia].
Qed.

(** C25: No view reads itself: once a view is created, following what its
    source reads, and what that reads, never comes back to the view; and the
    database's other tables are as they were. *)
Theorem created_view_never_reads_itself {CL : CreateLaws} p db ns name db' info :
  create_in p db ns name = Ok (db', info) →
  (∀ x, rtc (reads db') (source_namespace (prepared_definition p), source_table (prepared_definition p)) x →
     x ≠ (ns, name)) ∧
  (∀ ns' name', (ns', name') ≠ (ns, name) → db' ns' name' = db ns' name') ∧
  definition_sql info = render (prepared_definition p).
Proof.
  unfold create_in. intros ([] & Hf & H)%bind_Ok. apply bind_Ok in H as (db1 & Hc & [= <- <-]).
  assert (∀ ns' name', (ns', name') ≠ (ns, name) → db1 ns' name' = db ns' name') as He
    by (intros ns' name'; by apply (create_elsewhere _ _ _ _ _ ns' name' Hc)).
  split; [|done]. intros x Hr. unfold ensure_no_source_cycle in Hf. revert Hf Hr.
  generalize MAX_SOURCE_DEPTH. intros fuel Hf Hr. revert fuel Hf.
  induction Hr as [x|x y z (schema & d & Hdb & Hd) _ IH]; intros fuel Hf.
  - by apply (follow_elsewhere fuel db).
  - pose proof (follow_elsewhere _ _ _ _ _ Hf) as Hx. destruct x as [xns xname]. cbn [fst snd] in Hdb.
    rewrite He in Hdb by done.
    destruct (follow_step _ _ _ _ _ y Hf) as [fuel' H']; [by exists schema, d|]. by apply (IH fuel').
Qed.

(** C24: A stored definition reads back: when sqlparser prints the normalized query as
    text that parses to it, the metadata written for a definition
    that was parsed from the query reads as that definition, under either of the
    formats it may be written in, and is the view's information; metadata of
    a newer format reads as newer and as nothing to refresh; and a schema
    without the key is not a view. *)
Theorem stored_definition_reads_back {L : SqlLaws} {JL : JsonLaws} sql d metadata name :
  prints_back sql → parse sql = Ok d →
  let view := <[DEFINITION_META_KEY := definition_to_metadata d]> metadata in
  read_definition view = Ok (Some (StoredQuery d)) ∧
  read_definition_sql view = Ok (Some (render d)) ∧
  materialized_view_info_from_metadata name view = Ok (mkInfo (render d) (Some d)) ∧
  (∀ format, (DEFINITION_FORMAT < format)%Z → u64_range format →
     let view := <[DEFINITION_META_KEY := definition_metadata_from_sql_with_format sql format]> metadata in
     read_definition view = Ok (Some (Newer (pretty (Z.to_N format)))) ∧
     materialized_view_info_from_metadata name view =
       Err (NotSupported "materialized view '{name}' is stored in format {format}, which this version of lancedb cannot refresh")) ∧
  (metadata !! DEFINITION_META_KEY = None → read_definition metadata = Ok None ∧
     materialized_view_info_from_metadata name metadata = Err (NotAMaterializedView name)).
Proof.
  intros Hback Hp. cbn zeta. assert (read_definition (<[DEFINITION_META_KEY := definition_to_metadata d]> metadata) =
    Ok (Some (StoredQuery d))) as Hr by (by apply (written_reads sql)).
  split; [done|]. split; [|split; [|split]].
  - unfold read_definition_sql, read_definition_sql_with_defaults, definition_to_metadata. rewrite lookup_insert_eq.
    rewrite parse_envelope by apply format_range. done.
  - unfold materialized_view_info_from_metadata. by rewrite Hr.
  - intros format Hn Hu. pose proof (newer_reads sql format metadata Hn Hu) as Hq.
    split; [done|]. unfold materialized_view_info_from_metadata. by rewrite Hq.
  - intros Hm. unfold materialized_view_info_from_metadata, read_definition. by rewrite Hm.
Qed.
End theorems.

(** * Witnesses *)
Module Demo.
Import ComputedColumns.Demo.
(** The query [SELECT x FROM "t"] and its canonical spelling *)
Definition words (q : ascii) : list Token :=
  [Word "SELECT" None; OtherToken " "; Word "x" None; OtherToken " "; Word "FROM" None; OtherToken " ";
   Word "t" (Some q)].
Definition given : string := "SELECT x FROM " +:+ String dquote ("t" +:+ String dquote "").
Definition canonical : string := "SELECT x FROM `t`".
Definition query : Query :=
  mkQuery (SelectBody (mkSelect [UnnamedExpr (Identifier (mkIdent "x" None))]
    [mkFrom (TableRelation [NameIdentifier (mkIdent "t" (Some "`"%char))] None None "") []] None None
    (GroupExpressions [] []) "")) None "".
#[export] Instance sql : SqlParser := {
  tokenize s :=
    Ok (if String.eqb s given then words dquote else if String.eqb s canonical then words "`"
        else [Word s None]);
  token_to_string t :=
    match t with
    | Word v None => v
    | Word v (Some q) => String q (v +:+ String q "")
    | OtherToken s => s
    end;
  parse_statements s := if String.eqb s canonical then Ok [QueryStatement query] else Err "no query";
  parse_leading_expr s := Ok (Identifier (mkIdent s None), true);
  expr_to_string e := match e with Identifier i => ident_value i | _ => "" end;
  object_name_to_string _ := "";
  query_to_string _ := canonical;
  reserved_keyword _ := false
}.
#[export] Instance sql_laws : SqlLaws.
Proof.
  split.
  - done.
  - intros s tokens. cbn [tokenize sql]. destruct (String.eqb s given) eqn:Hg; [|destruct (String.eqb s canonical) eqn:Hc];
      intros [= <-] _; [vm_compute; reflexivity..|].
    change (String.concat "" (map canonical_token [Word s None])) with s. by rewrite Hg, Hc.
Qed.
Lemma given_prints_back : prints_back given.
Proof.
  intros text q tokens Ht Hq. vm_compute in Ht. injection Ht as <-. vm_compute in Hq. injection Hq as <-.
  intros Htok. vm_compute in Htok. injection Htok as <-. split; vm_compute; reflexivity.
Qed.

(** Numbers in binary, for metadata that reads back *)
Fixpoint digits (p : positive) : string :=
  match p with xH => "" | xO p => "0" +:+ digits p | xI p => "1" +:+ digits p end.
Definition number (n : Z) : string :=
  match n with Zpos p => "+" +:+ digits p | _ => "0" end +:+ " ".
Fixpoint read_digits (s : string) : option (positive * string) :=
  match s with
  | "" => None
  | String c s =>
      if Ascii.eqb c " " then Some (xH, s)
      else '(p, rest) ← read_digits s; Some (if Ascii.eqb c "0" then xO p else xI p, rest)
  end.
Definition read_number (s : string) : option (Z * string) :=
  match s with
  | String "+" s => '(p, rest) ← read_digits s; Some (Zpos p, rest)
  | String _ (String _ s) => Some (0%Z, s)
  | _ => None
  end.
Lemma read_number_number n s : (0 ≤ n)%Z → read_number (number n +:+ s) = Some (n, s).
Proof.
  assert (∀ p, read_digits ((digits p +:+ " ") +:+ s) = Some (p, s)) as Hp.
  { induction p as [p IH|p IH|]; [by cbn; rewrite IH..|done]. }
  destruct n as [|p|]; [done| |done]. intros _. unfold number. cbn. by rewrite Hp.
Qed.
#[export] Instance json : JsonCodec := {
  print_json v :=
    match v with
    | JObject [(_, JString _); (_, JNumber n); (_, JString q)] => number n +:+ q
    | _ => ""
    end;
  parse_json s :=
    match read_number s with
    | Some (n, q) => Ok (JObject [("kind", JString "query"); ("format", JNumber n); ("query", JString q)])
    | None => Err "no metadata"
    end
}.
#[export] Instance json_laws : JsonLaws.
Proof.
  split. intros q format [Hf _]. unfold definition_metadata_from_sql_with_format. cbn [print_json parse_json json].
  by rewrite read_number_number.
Qed.

(** One embedded column among plain ones *)
Definition embedded : ColumnDefinition := Embedding (mkEmbedding "x" (Some "v") "openai").
Fixpoint read_definitions (s : string) : option (list ColumnDefinition) :=
  match s with
  | "" => Some []
  | String c s =>
      defs ← read_definitions s; Some ((if Ascii.eqb c "p" then Physical else embedded) :: defs)
  end.
Fixpoint definition_letters (defs : list ColumnDefinition) : option string :=
  match defs with
  | [] => Some ""
  | Physical :: defs => s ← definition_letters defs; Some (String "p" s)
  | Embedding e :: defs =>
      s ← definition_letters defs;
      if bool_decide (Embedding e = embedded) then Some (String "e" s) else None
  end.
#[export] Instance definitions_codec : ColumnDefinitionCodec := {
  parse_definitions := read_definitions;
  print_definitions := definition_letters
}.
#[export] Instance definition_laws : DefinitionLaws.
Proof.
  split. cbn. induction defs as [|[|e] defs IH]; intros raw; cbn.
  - by intros [= <-].
  - destruct (definition_letters defs) as [s|]; [|done]. intros [= <-]. cbn. by rewrite (IH s).
  - destruct (definition_letters defs) as [s|]; [|done]. cbn. case_bool_decide as He; [|done].
    intros [= <-]. cbn. by rewrite (IH s), He.
Qed.
#[export] Instance filters : ViewPlanner := { parse_filter _ _ := Err "no filters" }.
#[export] Instance groups : GroupedPlanner := {
  LogicalPlan := unit;
  statement_to_plan _ _ := Err "no groups";
  plan_expressions _ := [];
  plan_schema_fields _ := []
}.
#[export] Instance grouped_laws : GroupedLaws.
Proof.
  split. intros schema d filtered pl. unfold logical_plan. intros (? & _ & H)%bind_Ok.
  by apply bind_Ok in H as (? & _ & H).
Qed.
#[export] Instance tables : CreateTable := {
  create_table db ns name schema :=
    Ok (λ ns' name', if bool_decide ((ns', name') = (ns, name)) then Ok (Ok schema) else db ns' name')
}.
#[export] Instance create_laws : CreateLaws.
Proof. split. cbn. intros db ns name schema db' ns' name' [= <-] Hne. by rewrite bool_decide_eq_false_2. Qed.

#[export] Instance checks : BindingChecks := SchemaChanges.Table1.checks.

Definition int : DataType := TOther "int".
Definition source_columns : ArrowSchema :=
  mkSchema [mkField "x" int true ∅; mkField "v" int true ∅; mkField "w" int true ∅]
    {[COLUMN_DEFINITIONS_META_KEY := "pep"]}.
Definition source : Source :=
  mkSource "t" [] true true (Ok "/t")
    (Ok (mkResolved true (Ok "/t") (Ok tt) (Ok source_columns)
           (mkIndexes (λ _, None) (Ok []) (λ _ _, Err (Runtime "no index"))))).
Definition definition : MaterializedViewDefinition :=
  mkDefinition "t" [] None [mkProjection "x" "x"; mkProjection "v" "v"] None [] None.
Definition prepared : PreparedDeclaration :=
  match prepare_definition source definition with
  | Ok p => p
  | _ => mkPrepared (mkSchema [] ∅) definition (mkSchema [] ∅) ∅ 0
  end.
Definition reading : string * PreparedDeclaration :=
  match input_column prepared "w" with Ok r => r | _ => ("", prepared) end.
Definition placed : PreparedDeclaration :=
  match @with_computed_columns planner checks definitions_codec reading.2 [(1%nat, computed "c" "x")] [] with
  | Ok p => p
  | _ => reading.2
  end.

(** A database where the view [up] reads [t] *)
Definition stored_schema : ArrowSchema := mkSchema [] {[DEFINITION_META_KEY := "+ " +:+ given]}.
Definition database : Database := λ ns name,
  if String.eqb name "up" then Ok (Ok stored_schema)
  else if String.eqb name "t" then Ok (Ok source_columns) else Err (TableNotFound name).
Definition over (table : string) : PreparedDeclaration :=
  mkPrepared (mkSchema [] ∅) (mkDefinition table [] None [star] None [] None) (mkSchema [] ∅) ∅ 0.
End Demo.
Import Demo.

Lemma declaration_stays_consistent_witness :
  map field_name (fields (prepared_schema Demo.placed)) = ["x"; "c"; "v"; "__input_w"] ∧
  described (prepared_schema Demo.placed) "v" = Some Demo.embedded ∧
  consistent Demo.placed.
Proof.
  split; [vm_compute; reflexivity|]. split; [vm_compute; reflexivity|].
  apply (declaration_stays_consistent Demo.source).
  apply (declared_computed _ Demo.reading.2 [(1%nat, ComputedColumns.Demo.computed "c" "x")] []).
  - apply (declared_input _ Demo.prepared "w" Demo.reading.1).
    + apply (declared_prepare _ Demo.definition). vm_compute. reflexivity.
    + vm_compute. reflexivity.
  - vm_compute. reflexivity.
Defined.

Lemma created_view_never_reads_itself_witness :
  create_in (Demo.over "up") Demo.database [] "t" =
    Err (InvalidInput "materialized view '{name}' would read itself: {}") ∧
  ∃ db', is_ok (db' [] "new") = true ∧
    ∀ x, rtc (reads db') ([], "up") x → x ≠ ([], "new").
Proof.
  split; [vm_compute; reflexivity|].
  destruct (create_in (Demo.over "up") Demo.database [] "new") as [[db' info]| |] eqn:Hc.
  - exists db'. split.
    + vm_compute in Hc. injection Hc as <- _. vm_compute. reflexivity.
    + apply (created_view_never_reads_itself _ _ _ _ _ _ Hc).
  - vm_compute in Hc. discriminate Hc.
  - vm_compute in Hc. discriminate Hc.
Defined.

Lemma stored_definition_reads_back_witness :
  ∃ d, parse Demo.given = Ok d ∧ render d = Demo.canonical ∧
  read_definition {[DEFINITION_META_KEY := definition_to_metadata d]} = Ok (Some (StoredQuery d)).
Proof.
  exists (mkDefinition "t" [] None [mkProjection "x" "x"] None [] None).
  split; [vm_compute; reflexivity|]. split; [vm_compute; reflexivity|].
  apply (stored_definition_reads_back Demo.given _ ∅ "view"); [exact Demo.given_prints_back|].
  vm_compute. reflexivity.
Defined.
End View.
