(* ===== verification/ViewRefresh.v ===== *)
(** * Refreshing a materialized view (materialized_view/refresh.rs)

    A refresh recomputes a view from one version of its source and replaces all
    of its fragments in one commit.  Arrow's kernels, the scanner, the
    evaluation of compiled expressions, the writer and the commit are
    parameters. *)

From Stdlib Require Import String.
From stdpp Require Import strings sorting.
From S2P Require Import Prelude RustStr RustText Schema ComputedColumns Admission ViewQuery ViewPlan View.

Module ViewRefresh.
Import Schema ViewQuery ViewPlan.
Import ComputedColumns (Planner, Physical, BindingChecks, parse_expr, optimize_expr, create_physical_expr,
  computed_column_from_field).
Import Admission (ensure_declarations_are_planned).
Local Open Scope string_scope.

(** ** Arrays and batches *)
Section data.
Context {V : Type}.

(** A value, or a list of values; either may be null. *)
Inductive Cell : Type := CValue (v : option V) | CList (l : option (list (option V))).
(** A list array holds its elements end to end: row [i] is the run from
    [offsets[i]] to [offsets[i + 1]]. *)
Inductive Array : Type :=
  | Values (t : DataType) (values : list (option V))
  | ListArray (element : Field) (offsets : list Z) (validity : list bool) (values : list (option V)).
Record RecordBatch : Type := mkBatch {
  fields : list Field;
  columns : list Array;
  num_rows : nat
}.

Definition data_type (a : Array) : DataType :=
  match a with Values t _ => t | ListArray element _ _ _ => TList element end.
Definition at_offset (offsets : list Z) (i : nat) : nat := Z.to_nat (nth i offsets 0%Z).
(** The elements of row [i] *)
Definition element_run {A} (offsets : list Z) (values : list A) (i : nat) : list A :=
  take (at_offset offsets (S i) - at_offset offsets i) (drop (at_offset offsets i) values).
Definition list_cell (offsets : list Z) (validity : list bool) (values : list (option V)) (i : nat)
    : Cell :=
  CList (if nth i validity false then Some (element_run offsets values i) else None).
Definition cells (a : Array) : list Cell :=
  match a with
  | Values _ values => map CValue values
  | ListArray _ offsets validity values => map (list_cell offsets validity values) (seq 0 (length validity))
  end.
Definition is_null (c : Cell) : bool :=
  match c with CValue None | CList None => true | _ => false end.
Definition null_cell (t : DataType) : Cell := match t with TList _ => CList None | _ => CValue None end.

(** What Arrow keeps of an array: the offsets of a list do not go back. *)
Definition valid_array (a : Array) : Prop :=
  match a with
  | Values _ _ => True
  | ListArray _ offsets validity values =>
      length offsets = S (length validity) ∧ Forall (λ o, 0 ≤ o < U32)%Z offsets ∧
      ∀ i, (i < length validity)%nat →
        (at_offset offsets i ≤ at_offset offsets (S i))%nat ∧
        (at_offset offsets (S i) ≤ length values)%nat
  end.
Definition fits (n : nat) (f : Field) (a : Array) : Prop :=
  data_type a = field_type f ∧ length (cells a) = n ∧ valid_array a ∧
  (field_nullable f = true ∨ Forall (λ c, is_null c = false) (cells a)).
Definition valid_batch (b : RecordBatch) : Prop :=
  Forall2 (fits (num_rows b)) (fields b) (columns b) ∧ (Z.of_nat (num_rows b) < U32)%Z.

(** The rows of a batch, by position *)
Abbreviation Row := (list Cell).
Definition cell_at (i : nat) (a : Array) : Cell := nth i (cells a) (CValue None).
Definition row_at (b : RecordBatch) (i : nat) : Row := map (cell_at i) (columns b).
Definition rows_of (b : RecordBatch) : list Row := map (row_at b) (seq 0 (num_rows b)).
Definition cell_named (names : list string) (row : Row) (name : string) : option Cell :=
  snd <$> List.find (λ e, String.eqb e.1 name) (zip names row).
Definition column_by_name (b : RecordBatch) (name : string) : option Array :=
  snd <$> List.find (λ e, String.eqb e.1 name) (zip (map field_name (fields b)) (columns b)).

(** All rows of a stream that did not fail *)
Definition collected (items : list (result RecordBatch)) : option (list Row) :=
  mjoin <$> mapM (λ item, match item with Ok b => Some (rows_of b) | _ => None end) items.
End data.
Arguments Cell : clear implicits.
Arguments Array : clear implicits.
Arguments RecordBatch : clear implicits.

(** ** Arrow *)
Class Kernels (V : Type) : Type := {
  take_array : Array V → list Z → result (Array V);
  try_new : list Field → list (Array V) → result (RecordBatch V);
  try_from_iter : list (string * Array V) → result (RecordBatch V);
  filter_record_batch : RecordBatch V → list (option bool) → result (RecordBatch V);
  as_boolean_opt : Array V → option (list (option bool));
  new_null_array : DataType → nat → Array V
}.
(** A compiled expression's value over a batch: an array, or one value *)
Inductive ColumnarValue (V : Type) : Type := Whole (a : Array V) | Scalar (v : option V) (t : DataType).
Arguments Whole {V} _.
Arguments Scalar {V} _ _.

(** ** Lance and DataFusion *)
Inductive Operation (Fragment : Type) : Type :=
  | Append (fragments : list Fragment)
  | Update (removed_fragment_ids : list Z) (new_fragments : list Fragment)
      (inserted_rows_filter : list Z * list Z)
  | OtherOperation.
Arguments Append {Fragment} _.
Arguments Update {Fragment} _ _ _.
Arguments OtherOperation {Fragment}.

Class Lance (V : Type) `{Planner} `{GroupedPlanner} : Type := {
  Dataset : Type;
  Fragment : Type;
  version : Dataset → Z;
  schema_of : Dataset → ArrowSchema;
  first_field_id : Dataset → option Z;
  get_fragments : Dataset → list Fragment;
  fragment_id : Fragment → Z;
  checkout_version : Dataset → Z → result Dataset;
  list_mem_wal_latest_shard_ids : Dataset → result (list string);
  mem_wal_index_details : Dataset → result (option string);
  source_indexes : Dataset → SourceIndexes;
  (** the scanner *)
  Scanner : Type;
  scan : Dataset → Scanner;
  scan_filter : Scanner → string → result Scanner;
  project_with_transform : Scanner → list (string * string) → result Scanner;
  scan_project : Scanner → list string → result Scanner;
  scan_limit : Scanner → Z → result Scanner;
  try_into_stream : Scanner → result (list (result (RecordBatch V)));
  (** DataFusion *)
  evaluate : Physical → RecordBatch V → result (ColumnarValue V);
  into_array : ColumnarValue V → nat → result (Array V);
  execute_logical_plan : LogicalPlan → gmap string IvfBinding → list (result (RecordBatch V)) →
    result (list (result (RecordBatch V)));
  (** writes *)
  execute_uncommitted_stream : Dataset → list (result (RecordBatch V)) → result (Operation Fragment);
  filter_insert : Z → Z → result unit;
  commit : Dataset → Z → Operation Fragment → result Dataset
}.

Inductive RefreshMode : Type := Rebuild.
Record RefreshMaterializedViewResult : Type := mkResult {
  mode : RefreshMode;
  rows_written : Z;
  source_version : Z;
  result_version : Z
}.
Definition REFRESH_TOKEN_ID : Z := U64 - 1.

Section refresh.
Context {V : Type} {P : Planner} {BC : BindingChecks} {Sql : SqlParser} {VP : ViewPlanner}.
Context {G : GroupedPlanner} {J : JsonCodec} {K : Kernels V} {L : Lance V}.

(** ** Unnesting a batch *)
Definition repeat_row (offsets : list Z) (validity : list bool) (row : nat) : list Z :=
  if nth row validity false
  then replicate (at_offset offsets (S row) - at_offset offsets row) (Z.of_nat row mod U32)%Z
  else [].
Definition element_range (offsets : list Z) (validity : list bool) (row : nat) : list Z :=
  if nth row validity false
  then map Z.of_nat (seq (at_offset offsets row) (at_offset offsets (S row) - at_offset offsets row))
  else [].
(** The field and the column that take the place of column [index] *)
Definition unnested_column (list_index : nat) (elements : Array V) (repeat : list Z)
    (index : nat) (column : Field * Array V) : result (Field * Array V) :=
  let '(field, array) := column in
  if Nat.eqb index list_index then
    match field_type field with
    | TList element =>
        Ok (mkField (field_name field) (field_type element) true (field_metadata field), elements)
    | _ => Err (Runtime "expansion column '{list_column}' is {other}, not a list")
    end
  else taken ← take_array array repeat; Ok (field, taken).
Fixpoint unnested_columns (list_index : nat) (elements : Array V) (repeat : list Z)
    (index : nat) (columns : list (Field * Array V)) : result (list (Field * Array V)) :=
  match columns with
  | [] => Ok []
  | column :: columns =>
      c ← unnested_column list_index elements repeat index column;
      cs ← unnested_columns list_index elements repeat (S index) columns;
      Ok (c :: cs)
  end.
Fixpoint column_with_name (index : nat) (fs : list Field) (name : string) : option nat :=
  match fs with
  | [] => None
  | f :: fs => if String.eqb (field_name f) name then Some index else column_with_name (S index) fs name
  end.
Definition unnest_batch (batch : RecordBatch V) (list_column : string) : result (RecordBatch V) :=
  list_index ← ok_or (Runtime "expansion column '{list_column}' is not in the batch")
                 (column_with_name 0 (fields batch) list_column);
  array ← unwrap (columns batch !! list_index);
  match array with
  | Values _ _ => Err (Runtime "expansion column '{list_column}' is {}, not a list")
  | ListArray element offsets validity values =>
      let rows := seq 0 (length validity) in
      let repeat := flat_map (repeat_row offsets validity) rows in
      let ranges := flat_map (element_range offsets validity) rows in
      elements ← take_array (Values (field_type element) values) ranges;
      expanded ← unnested_columns list_index elements repeat 0 (zip (fields batch) (columns batch));
      try_new (map fst expanded) (map snd expanded)
  end.

(** ** The plan of an unnested view *)
Record UnnestPlan : Type := mkPlan {
  column : string;
  raw_inputs : list string;
  read_schema : list Field;
  plan_projections : list (string * Physical);
  plan_filter : option Physical
}.
Definition physical (schema : ArrowSchema) (what sql : string) : result Physical :=
  let error (e : string) := Runtime (what +:+ ": " +:+ e) in
  parsed ← map_err error (parse_expr schema sql);
  optimized ← map_err error (optimize_expr schema parsed);
  map_err error (create_physical_expr schema optimized).
Definition read_field (flattened : ArrowSchema) (unnest : ViewUnnest) (name : string) : result Field :=
  let name := if String.eqb name (unnest_column unnest) then unnest_alias unnest else name in
  ok_or (Runtime ("source column '" +:+ name +:+ "' read by the view is missing"))
    (field_with_name flattened name).
Definition new_unnest_plan (source : Dataset) (definition : MaterializedViewDefinition)
    (inputs : list string) (unnest : ViewUnnest) : result UnnestPlan :=
  let raw_inputs := sorted (map root inputs ++ [unnest_column unnest])%list in
  flattened ← flattened_schema (schema_of source) unnest;
  read_fields ← try_map (read_field flattened unnest) raw_inputs;
  let read_schema := mkSchema read_fields ∅ in
  projections ← try_map (λ p,
    e ← physical read_schema ("view column '" +:+ output p +:+ "'") (expression p);
    Ok (output p, e)) (projections definition);
  filter ← (match view_filter definition with
            | None => Ok None
            | Some sql => f ← physical read_schema "view filter" sql; Ok (Some f)
            end);
  Ok (mkPlan (unnest_column unnest) raw_inputs read_fields projections filter).

Definition apply_filter (filter : option Physical) (batch : RecordBatch V) : result (RecordBatch V) :=
  match filter with
  | None => Ok batch
  | Some filter =>
      keep ← evaluate filter batch;
      keep ← into_array keep (num_rows batch);
      keep ← ok_or (External "view filter did not evaluate to a boolean") (as_boolean_opt keep);
      filter_record_batch batch keep
  end.
Definition apply_projection (batch : RecordBatch V) (p : string * Physical) : result (string * Array V) :=
  value ← evaluate p.2 batch;
  array ← into_array value (num_rows batch);
  Ok (p.1, array).
Definition apply (plan : UnnestPlan) (batch : RecordBatch V) : result (RecordBatch V) :=
  unnested ← unnest_batch batch (column plan);
  unnested ← try_new (read_schema plan) (columns unnested);
  unnested ← apply_filter (plan_filter plan) unnested;
  columns ← try_map (apply_projection unnested) (plan_projections plan);
  try_from_iter columns.

(** ** The rows of the view *)
Definition view_column (batch : RecordBatch V) (field : Field) : result (Array V) :=
  match computed_column_from_field field with
  | Some _ => Ok (new_null_array (field_type field) (num_rows batch))
  | None =>
      ok_or (External "view column '{}' is not produced by the view's definition")
        (column_by_name batch (field_name field))
  end.
Definition to_view_batch (output_schema : list Field) (batch : RecordBatch V) : result (RecordBatch V) :=
  columns ← try_map (view_column batch) output_schema;
  try_new output_schema columns.
(** The items of a mapped stream and the counter once it is consumed; the
    counter wraps. *)
Definition map_stream (f : RecordBatch V → result (RecordBatch V))
    (items : list (result (RecordBatch V))) : list (result (RecordBatch V)) :=
  map (λ item, batch ← item; f batch) items.
Definition rows_counted (items : list (result (RecordBatch V))) : Z :=
  (foldr (λ item n, match item with Ok b => Z.of_nat (num_rows b) + n | _ => n end) 0 items mod U64)%Z.

Definition grouped_stream (source : Dataset) (definition : MaterializedViewDefinition)
    (inputs : list string) (schema : list Field) : result (list (result (RecordBatch V))) :=
  scanner ← (match view_filter definition with
             | Some filter => scan_filter (scan source) filter
             | None => Ok (scan source)
             end);
  scanner ← scan_project scanner inputs;
  items ← try_into_stream scanner;
  bindings ← bind (schema_of source) (source_indexes source) definition;
  planned ← logical_plan (schema_of source) definition false;
  groups ← execute_logical_plan planned bindings items;
  Ok (map_stream (to_view_batch schema) groups).

Definition filtered_scan (source : Dataset) (definition : MaterializedViewDefinition)
    (unnest : option ViewUnnest) : result Scanner :=
  match view_filter definition, unnest with
  | Some filter, None => scan_filter (scan source) filter
  | _, _ => Ok (scan source)
  end.
Definition projected_scan (source : Dataset) (definition : MaterializedViewDefinition)
    (inputs : list string) (unnest : option ViewUnnest) (scanner : Scanner)
    : result (Scanner * option UnnestPlan) :=
  match unnest with
  | Some unnest =>
      plan ← new_unnest_plan source definition inputs unnest;
      scanner ← scan_project scanner (raw_inputs plan);
      Ok (scanner, Some plan)
  | None =>
      scanner ← project_with_transform scanner
                  (map (λ p, (output p, expression p)) (projections definition));
      Ok (scanner, None)
  end.
Definition limited_scan (definition : MaterializedViewDefinition) (scanner : Scanner) : result Scanner :=
  match limit definition with
  | None => Ok scanner
  | Some limit =>
      if (I63 <=? limit)%Z
      then Err (InvalidInput "view limit {limit} exceeds the maximum of {}")
      else scan_limit scanner limit
  end.
Definition view_item (expanded : option UnnestPlan) (schema : list Field) (batch : RecordBatch V)
    : result (RecordBatch V) :=
  batch ← (match expanded with Some plan => apply plan batch | None => Ok batch end);
  to_view_batch schema batch.
Definition compute_stream (source : Dataset) (definition : MaterializedViewDefinition)
    (inputs : list string) (unnest : option ViewUnnest) (schema : list Field)
    : result (list (result (RecordBatch V))) :=
  if is_grouped definition then grouped_stream source definition inputs schema
  else
    scanner ← filtered_scan source definition unnest;
    projected ← projected_scan source definition inputs unnest scanner;
    let '(scanner, expanded) := projected in
    if bool_decide (limit definition = Some 0%Z) then Ok []
    else
      scanner ← limited_scan definition scanner;
      items ← try_into_stream scanner;
      Ok (map_stream (view_item expanded schema) items).

(** ** Replacing the fragments of the view *)
Definition refresh_conflict_filter (dataset : Dataset) : result (list Z * list Z) :=
  field_id ← ok_or (Runtime "a materialized view must have at least one field") (first_field_id dataset);
  _ ← map_err (λ _, Runtime "failed to build the materialized-view refresh conflict filter: {error}")
        (filter_insert field_id REFRESH_TOKEN_ID);
  Ok ([field_id], [REFRESH_TOKEN_ID]).
Definition replace_fragments (dataset : Dataset) (stream : list (result (RecordBatch V)))
    : result Dataset :=
  let read_version := version dataset in
  let removed_fragment_ids := map fragment_id (get_fragments dataset) in
  write ← execute_uncommitted_stream dataset stream;
  match write with
  | Append new_fragments =>
      filter ← refresh_conflict_filter dataset;
      committed ← commit dataset read_version (Update removed_fragment_ids new_fragments filter);
      if negb (version committed =? read_version + 1)%Z
      then Err (Runtime "a concurrent commit raced this refresh (view version {}, expected {})")
      else Ok committed
  | _ => Err (Runtime "expected an append while staging replacement rows")
  end.
Definition ensure_no_mem_wal (dataset : Dataset) : result unit :=
  shards ← list_mem_wal_latest_shard_ids dataset;
  let retained := negb (Nat.eqb (length shards) 0) in
  blocked ← (if retained then Ok true
             else details ← mem_wal_index_details dataset;
                  Ok (match details with Some _ => true | None => false end));
  if (blocked : bool)
  then Err (NotSupported "{role} '{name}' has a MemWAL write spec or retained un-compacted rows")
  else Ok tt.

(** ** A refresh *)

(** A view's handle: [latest] is what [reload] finds, [opened] what its
    database opens under a name, native or not. *)
Record Handle : Type := mkHandle {
  view_name : string;
  native : bool;
  mutable : result unit;
  latest : result Dataset;
  opened : option (list string → string → result (option (result Dataset)))
}.
Definition open_source (view : Handle) (definition : MaterializedViewDefinition) : result Dataset :=
  database ← ok_or (InvalidInput "the view was not opened through a database connection") (opened view);
  source ← database (source_namespace definition) (source_table definition);
  dataset ← ok_or (NotSupported "materialized views are supported only on local tables") source;
  dataset.
Definition replan_error (error : Error) : Error :=
  match error with
  | InvalidExpression _ _ => Schema "view column '{column}' no longer plans against '{}' (a source column was dropped or renamed): {message}"
  | InvalidInput _ => Schema "the stored query no longer plans against '{}' (a source column was dropped or renamed): {message}"
  | error => error
  end.
Definition is_computed (f : Field) : bool :=
  match computed_column_from_field f with Some _ => true | None => false end.
Definition stores (planned stored : Field) : bool :=
  String.eqb (field_name planned) (field_name stored)
  && bool_decide (field_type planned = field_type stored)
  && (field_nullable stored || negb (field_nullable planned)).
Definition produces (planned_fields stored_fields : list Field) : bool :=
  Nat.eqb (length planned_fields) (length stored_fields)
  && forallb (λ e, stores e.1 e.2) (zip planned_fields stored_fields).
Definition pin (pinned : option Z) (source : Dataset) : result Dataset :=
  match pinned with Some version => checkout_version source version | None => Ok source end.
Definition stored_definition (view : Handle) (dataset : Dataset) : result MaterializedViewDefinition :=
  stored ← read_definition (schema_metadata (schema_of dataset));
  match stored with
  | Some (StoredQuery definition) => Ok definition
  | Some (Newer _) => Err (NotSupported "materialized view '{}' is stored in format {format}, which this version of lancedb cannot refresh")
  | None => Err (NotAMaterializedView (view_name view))
  end.
Definition ensure_view_schema (physical : ArrowSchema) (planned_fields : list Field) : result unit :=
  _ ← ensure_declarations_are_planned physical;
  if existsb (λ f, is_computed f && negb (field_nullable f)) (Schema.fields physical)
  then Err (Schema "computed column '{}' of view '{}' cannot hold NULL; recreate the view")
  else if negb (produces planned_fields
                  (List.filter (λ f, negb (is_computed f)) (Schema.fields physical)))
  then Err (Schema "the stored definition of view '{}' does not produce this view's schema; recreate the view")
  else Ok tt.

Definition execute_refresh (view : Handle) (pinned : option Z)
    : result (RefreshMaterializedViewResult * Dataset) :=
  if negb (native view)
  then Err (NotSupported "materialized views are supported only on local tables")
  else
    _ ← mutable view;
    view_ds ← latest view;
    _ ← ensure_no_mem_wal view_ds;
    definition ← stored_definition view view_ds;
    source ← open_source view definition;
    source ← pin pinned source;
    _ ← ensure_no_mem_wal source;
    planned ← map_err replan_error (plan (schema_of source) definition);
    let definition := planned_definition planned in
    _ ← ensure_view_schema (schema_of view_ds) (planned_fields planned);
    unnest ← physical_unnest definition;
    stream ← compute_stream source definition (planned_inputs planned) unnest
               (Schema.fields (schema_of view_ds));
    committed ← replace_fragments view_ds stream;
    Ok (mkResult Rebuild (rows_counted stream) (version source) (version committed), committed).

Definition replace_materialized_view_fragments (view : Handle) (stream : list (result (RecordBatch V)))
    : result (Z * Dataset) :=
  if negb (native view)
  then Err (NotSupported "materialized views are supported only on local tables")
  else
    _ ← mutable view;
    dataset ← latest view;
    sql ← read_definition_sql (schema_metadata (schema_of dataset));
    match sql with
    | None => Err (NotAMaterializedView (view_name view))
    | Some _ => committed ← replace_fragments dataset stream; Ok (version committed, committed)
    end.
End refresh.

(** * What a refresh computes *)

(** ** The meaning of a query *)
Record Request (D : Type) : Type := mkRequest {
  req_dataset : D;
  req_filter : option string;
  req_output : option (list (string * string) + list string);
  req_limit : option Z
}.
Arguments mkRequest {D} _ _ _ _.
Arguments req_dataset {D} _.
Arguments req_filter {D} _.
Arguments req_output {D} _.
Arguments req_limit {D} _.

(** [compute]: the value of a compiled expression on a row; [request]: what a
    scanner was asked for; [group_rows]: the groups that a plan makes of rows. *)
Class Semantics (V : Type) `{L : Lance V} : Type := {
  compute : Physical → list Field → list (Cell V) → Cell V;
  holds : Cell V → bool;
  fragment_rows : Fragment → list (list (Cell V));
  group_rows : LogicalPlan → gmap string IvfBinding → list (list (Cell V)) → list (list (Cell V));
  request : Scanner → Request Dataset
}.

Section meaning.
Context {V : Type} {P : Planner} {BC : BindingChecks} {Sql : SqlParser} {VP : ViewPlanner}.
Context {G : GroupedPlanner} {J : JsonCodec} {K : Kernels V} {L : Lance V} {Sm : Semantics V}.

Definition table_rows (d : Dataset) : list (list (Cell V)) := mjoin (map fragment_rows (get_fragments d)).
Definition nulls : Cell V := CValue None.
(** An expression, and a predicate, over a row of a schema *)
Definition expr_value (schema : ArrowSchema) (sql : string) (row : list (Cell V)) : Cell V :=
  match physical schema "" sql with Ok e => compute e (Schema.fields schema) row | _ => nulls end.
Definition filter_holds (schema : ArrowSchema) (sql : string) (row : list (Cell V)) : bool :=
  match parse_filter schema sql ≫= λ e, optimize_expr schema e ≫= create_physical_expr schema with
  | Ok e => holds (compute e (Schema.fields schema) row)
  | _ => false
  end.
Definition pick (names : list string) (wanted : list string) (row : list (Cell V)) : list (Cell V) :=
  map (λ name, default nulls (cell_named names row name)) wanted.
Definition keeps (filter : option string) (schema : ArrowSchema) (row : list (Cell V)) : bool :=
  match filter with Some f => filter_holds schema f row | None => true end.
Definition take_limit {A} (limit : option Z) (rows : list A) : list A :=
  match limit with Some n => take (Z.to_nat n) rows | None => rows end.
Definition output_row (schema : ArrowSchema) (outputs : option (list (string * string) + list string))
    (row : list (Cell V)) : list (Cell V) :=
  match outputs with
  | Some (inl transforms) => map (λ t, expr_value schema t.2 row) transforms
  | Some (inr columns) => pick (names schema) columns row
  | None => row
  end.
Definition output_names (schema : ArrowSchema) (outputs : option (list (string * string) + list string))
    : list string :=
  match outputs with
  | Some (inl transforms) => map fst transforms
  | Some (inr columns) => columns
  | None => names schema
  end.
Definition answer (r : Request Dataset) : list (list (Cell V)) :=
  let schema := schema_of (req_dataset r) in
  map (output_row schema (req_output r))
    (take_limit (req_limit r)
       (List.filter (keeps (req_filter r) schema) (table_rows (req_dataset r)))).

(** One row per element of a list; none for an empty or a null list *)
Definition unnest_row (i : nat) (row : list (Cell V)) : list (list (Cell V)) :=
  match row !! i with
  | Some (CList (Some elements)) => map (λ e, <[i := CValue e]> row) elements
  | _ => []
  end.
Definition unnested_passes (filter : option string) (schema : ArrowSchema) (row : list (Cell V)) : bool :=
  match filter with Some f => holds (expr_value schema f row) | None => true end.
Definition raw_columns (inputs : list string) (u : ViewUnnest) : list string :=
  sorted (map root inputs ++ [unnest_column u])%list.

(** The rows that a planned query has over a version of its source *)
Inductive answers (source : Dataset) (planned : Planned) : list (list (Cell V)) → Prop :=
  | answers_rows :
      is_grouped (planned_definition planned) = false →
      physical_unnest (planned_definition planned) = Ok None →
      answers source planned
        (map (λ row, map (λ p, expr_value (schema_of source) (expression p) row)
                       (projections (planned_definition planned)))
           (take_limit (limit (planned_definition planned))
              (List.filter (keeps (view_filter (planned_definition planned)) (schema_of source))
                 (table_rows source))))
  | answers_elements u flattened read i :
      is_grouped (planned_definition planned) = false →
      physical_unnest (planned_definition planned) = Ok (Some u) →
      flattened_schema (schema_of source) u = Ok flattened →
      try_map (read_field flattened u) (raw_columns (planned_inputs planned) u) = Ok read →
      raw_columns (planned_inputs planned) u !! i = Some (unnest_column u) →
      answers source planned
        (map (λ row, map (λ p, expr_value (mkSchema read ∅) (expression p) row)
                       (projections (planned_definition planned)))
           (List.filter (unnested_passes (view_filter (planned_definition planned)) (mkSchema read ∅))
              (flat_map (unnest_row i)
                 (map (pick (names (schema_of source)) (raw_columns (planned_inputs planned) u))
                    (table_rows source)))))
  | answers_groups bindings plan :
      is_grouped (planned_definition planned) = true →
      bind (schema_of source) (source_indexes source) (planned_definition planned) = Ok bindings →
      logical_plan (schema_of source) (planned_definition planned) false = Ok plan →
      answers source planned
        (group_rows plan bindings
           (map (pick (names (schema_of source)) (planned_inputs planned))
              (List.filter (keeps (view_filter (planned_definition planned)) (schema_of source))
                 (table_rows source)))).

(** A row of the view: the query's columns by name, NULL where a column is
    computed. *)
Definition view_cell (outputs : list string) (row : list (Cell V)) (f : Field) : Cell V :=
  if is_computed f then null_cell (field_type f) else default nulls (cell_named outputs row (field_name f)).
Definition view_row (schema : list Field) (outputs : list string) (row : list (Cell V)) : list (Cell V) :=
  map (view_cell outputs row) schema.

(** ** What is documented of Arrow, Lance and DataFusion *)
Definition in_bounds (n : nat) (idx : list Z) : Prop := Forall (λ i, 0 ≤ i < Z.of_nat n)%Z idx.
Definition taken {A} (l : list A) (idx : list Z) : list A := omap (λ i, l !! Z.to_nat i) idx.
(** The columns of a batch fit its fields. *)
Definition fitting (b : RecordBatch V) : Prop := Forall2 (fits (num_rows b)) (fields b) (columns b).
Fixpoint kept {A} (l : list A) (mask : list bool) : list A :=
  match l, mask with
  | x :: l, m :: mask => if (m : bool) then x :: kept l mask else kept l mask
  | _, _ => []
  end.
Class KernelLaws : Prop := {
  take_ok : ∀ a idx out, valid_array a → in_bounds (length (cells a)) idx →
    take_array a idx = Ok out →
    cells out = taken (cells a) idx ∧ data_type out = data_type a ∧ valid_array out;
  try_new_fits : ∀ fs cs b, try_new fs cs = Ok b →
    fields b = fs ∧ columns b = cs ∧ cs ≠ [] ∧ fitting b;
  try_new_ok : ∀ n fs cs, fs ≠ [] → Forall2 (fits n) fs cs → is_ok (try_new fs cs) = true;
  try_from_iter_fits : ∀ cs b, try_from_iter cs = Ok b →
    map field_name (fields b) = map fst cs ∧ columns b = map snd cs ∧ cs ≠ [] ∧ fitting b;
  filter_keeps : ∀ b keep b', filter_record_batch b keep = Ok b' → fitting b →
    fields b' = fields b ∧ fitting b' ∧
    rows_of b' = kept (rows_of b) (map (λ k, bool_decide (k = Some true)) keep);
  boolean_holds : ∀ a keep, as_boolean_opt a = Some keep →
    map (λ k, bool_decide (k = Some true)) keep = map holds (cells a);
  null_array_cells : ∀ t n, cells (new_null_array t n) = replicate n (null_cell t)
}.
(** What a stream delivers: batches that fit, with the given column names. *)
Definition delivers (expected : list string) (items : list (result (RecordBatch V))) : Prop :=
  ∀ b, Ok b ∈ items → valid_batch b ∧ map field_name (fields b) = expected.
Class LanceLaws : Prop := {
  checkout_at : ∀ d v d', checkout_version d v = Ok d' → version d' = v;
  scan_request : ∀ d, request (scan d) = mkRequest d None None None;
  filter_request : ∀ s f s', scan_filter s f = Ok s' →
    request s' = mkRequest (req_dataset (request s)) (Some f) (req_output (request s)) (req_limit (request s));
  transform_request : ∀ s ts s', project_with_transform s ts = Ok s' →
    request s' = mkRequest (req_dataset (request s)) (req_filter (request s)) (Some (inl ts)) (req_limit (request s));
  project_request : ∀ s cs s', scan_project s cs = Ok s' →
    request s' = mkRequest (req_dataset (request s)) (req_filter (request s)) (Some (inr cs)) (req_limit (request s));
  limit_request : ∀ s n s', scan_limit s n = Ok s' →
    request s' = mkRequest (req_dataset (request s)) (req_filter (request s)) (req_output (request s)) (Some n);
  stream_answers : ∀ s items, try_into_stream s = Ok items →
    delivers (output_names (schema_of (req_dataset (request s))) (req_output (request s))) items ∧
    ∀ rows, collected items = Some rows → rows = answer (request s);
  evaluate_rows : ∀ e b v a, fitting b → evaluate e b = Ok v → into_array v (num_rows b) = Ok a →
    cells a = map (compute e (fields b)) (rows_of b);
  execute_groups : ∀ plan bindings items groups,
    execute_logical_plan plan bindings items = Ok groups →
    delivers (map field_name (plan_schema_fields plan)) groups ∧
    ∀ rows, collected groups = Some rows →
      ∃ ins, collected items = Some ins ∧ rows = group_rows plan bindings ins;
  staged_rows : ∀ d items fragments, execute_uncommitted_stream d items = Ok (Append fragments) →
    collected items = Some (mjoin (map fragment_rows fragments));
  committed_update : ∀ d removed fragments filter d',
    commit d (version d) (Update removed fragments filter) = Ok d' → version d' = (version d + 1)%Z →
    table_rows d' = (mjoin (map fragment_rows
      (List.filter (λ f, negb (bool_decide (fragment_id f ∈ removed))) (get_fragments d))) ++
      mjoin (map fragment_rows fragments))%list
}.
End meaning.

(** * Lemmas *)

(** ** Rows and columns *)
Section rows.
Context {V : Type}.
Lemma length_rows_of (b : RecordBatch V) : length (rows_of b) = num_rows b.
Proof. unfold rows_of. by rewrite length_map, length_seq. Qed.
Lemma rows_of_lookup (b : RecordBatch V) i : (i < num_rows b)%nat → rows_of b !! i = Some (row_at b i).
Proof. intros Hi. unfold rows_of. by rewrite list_lookup_fmap, lookup_seq_lt. Qed.
Lemma row_at_lookup (b : RecordBatch V) i j a : columns b !! j = Some a → row_at b i !! j = Some (cell_at i a).
Proof. intros Ha. unfold row_at. by rewrite list_lookup_fmap, Ha. Qed.
Lemma fits_length n f (a : Array V) : fits n f a → length (cells a) = n.
Proof. by intros (_ & H & _). Qed.
Lemma fitting_length b j a : fitting b → columns b !! j = Some a → length (cells a) = num_rows (V := V) b.
Proof.
  intros Hb Ha. destruct (Forall2_lookup_r _ _ _ _ _ Hb Ha) as (f & _ & Hf). by apply fits_length in Hf.
Qed.
Lemma fitting_valid b j a : fitting b → columns b !! j = Some a → valid_array (V := V) a.
Proof. intros Hb Ha. by destruct (Forall2_lookup_r _ _ _ _ _ Hb Ha) as (f & _ & _ & _ & H & _). Qed.
(** Batches with the same columns have the same rows. *)
Lemma rows_of_columns (b b' : RecordBatch V) :
  fitting b → fitting b' → columns b = columns b' → columns b ≠ [] → rows_of b = rows_of b'.
Proof.
  intros Hb Hb' Hc Hne. assert (num_rows b = num_rows b') as Hn.
  { destruct (columns b) as [|a l] eqn:Ha; [done|].
    rewrite <-(fitting_length b 0 a Hb), <-(fitting_length b' 0 a Hb'); [done|by rewrite <-Hc|by rewrite Ha]. }
  unfold rows_of, row_at. by rewrite Hn, Hc.
Qed.

Lemma taken_lookup {A} (l : list A) idx k x d : in_bounds (length l) idx → idx !! k = Some x →
  nth k (taken l idx) d = nth (Z.to_nat x) l d.
Proof.
  intros Hb. revert k. induction Hb as [|y idx Hy _ IH]; intros k; [done|]. unfold taken. cbn [omap list_omap].
  destruct (lookup_lt_is_Some_2 l (Z.to_nat y)) as [v Hv]; [lia|]. rewrite Hv.
  destruct k as [|k]; cbn; [intros [= <-]; symmetry; by apply nth_lookup_Some|apply IH].
Qed.
Lemma length_taken {A} (l : list A) idx : in_bounds (length l) idx → length (taken l idx) = length idx.
Proof.
  induction 1 as [|y idx Hy _ IH]; [done|]. unfold taken. cbn [omap list_omap].
  destruct (lookup_lt_is_Some_2 l (Z.to_nat y)) as [v ->]; [lia|]. cbn [length]. by rewrite <-IH.
Qed.

Lemma kept_filter {A} (p : A → bool) l : kept l (map p l) = List.filter p l.
Proof. induction l as [|x l IH]; [done|]. cbn. rewrite IH. by destruct (p x). Qed.

(** ** Looking a column up by name *)
Lemma named_cell names (cs : list (Array V)) i name a :
  snd <$> List.find (λ e, String.eqb e.1 name) (zip names cs) = Some a →
  cell_named names (map (cell_at i) cs) name = Some (cell_at i a).
Proof.
  unfold cell_named. revert cs. induction names as [|n names IH]; intros cs; [done|].
  destruct cs as [|c cs]; [done|]. cbn [zip zip_with map List.find fst]. destruct (String.eqb n name).
  - cbn. by intros [= <-].
  - apply IH.
Qed.

(** ** Streams *)
Lemma collected_cons (b : RecordBatch V) items rows :
  collected (Ok b :: items) = Some rows ↔ ∃ rest, collected items = Some rest ∧ rows = (rows_of b ++ rest)%list.
Proof.
  unfold collected. cbn [mapM mbind option_bind]. destruct (mapM _ items) as [l|]; cbn; naive_solver.
Qed.
Lemma collected_Ok items rows : collected (V := V) items = Some rows → Forall (λ i, is_ok i = true) items.
Proof.
  revert rows. induction items as [|[b|e|] items IH]; intros rows; [by constructor| |done|done].
  intros (rest & Hr & _)%collected_cons. constructor; [done|by apply (IH rest)].
Qed.
Lemma counted_rows items rows : collected (V := V) items = Some rows →
  rows_counted items = (Z.of_nat (length rows) mod U64)%Z.
Proof.
  intros H. unfold rows_counted. f_equal. revert rows H.
  induction items as [|[b|e|] items IH]; intros rows; [by intros [= <-]| |done|done].
  intros (rest & Hr & ->)%collected_cons. cbn [foldr]. rewrite (IH rest Hr), length_app, length_rows_of. lia.
Qed.
Lemma collected_map (f : RecordBatch V → result (RecordBatch V)) (h : list (Cell V) → list (list (Cell V)))
    items rows :
  (∀ b b', Ok b ∈ items → f b = Ok b' → rows_of b' = flat_map h (rows_of b)) →
  collected (map_stream f items) = Some rows →
  ∃ ins, collected items = Some ins ∧ rows = flat_map h ins.
Proof.
  revert rows. induction items as [|[b|e|] items IH]; intros rows Hf; [|cbn [map_stream map]|done|done].
  { intros [= <-]. by exists []. }
  run_ok. destruct (f b) as [b'|e|] eqn:Hb; [|done|done]. intros (rest & Hr & ->)%collected_cons.
  destruct (IH rest) as (ins & Hi & ->); [|done|].
  { intros x x' Hx. apply Hf. by apply list_elem_of_further. }
  exists (rows_of b ++ ins)%list. split; [apply collected_cons; eauto|].
  rewrite flat_map_app. f_equal. apply Hf; [apply list_elem_of_here|done].
Qed.
End rows.

(** ** Unnesting *)
Section unnesting.
Context {V : Type} {P : Planner} {BC : BindingChecks} {Sql : SqlParser} {VP : ViewPlanner}.
Context {G : GroupedPlanner} {J : JsonCodec} {K : Kernels V} {L : Lance V} {Sm : Semantics V}.
Context {KL : KernelLaws}.

Lemma column_with_name_lookup k fs name i : column_with_name k fs name = Some i →
  (k ≤ i)%nat ∧ ∃ f, fs !! (i - k)%nat = Some f ∧ field_name f = name.
Proof.
  revert k. induction fs as [|f fs IH]; intros k; [done|]. cbn [column_with_name].
  destruct (String.eqb_spec (field_name f) name) as [Hf|].
  - intros [= ->]. rewrite Nat.sub_diag. split; [done|]. by exists f.
  - intros [Hle (g & Hg & Hn)]%IH. split; [lia|]. exists g. split; [|done].
    by replace (i - k)%nat with (S (i - S k)) by lia.
Qed.

Lemma unnested_columns_lookup i elements repeat k cols out :
  unnested_columns i elements repeat k cols = Ok out →
  length out = length cols ∧ ∀ j c, cols !! j = Some c →
  ∃ c', out !! j = Some c' ∧ unnested_column i elements repeat (k + j) c = Ok c'.
Proof.
  revert k out. induction cols as [|c cols IH]; intros k out; cbn [unnested_columns]; [by intros [= <-]|].
  intros (c' & Hc & H)%bind_Ok. apply bind_Ok in H as (rest & Hrest & [= <-]).
  destruct (IH _ _ Hrest) as [Hl Hj]. split; [cbn; by rewrite Hl|]. intros [|j] d; cbn.
  - intros [= <-]. exists c'. by rewrite Nat.add_0_r.
  - intros Hd. destruct (Hj j d Hd) as (d' & Hd' & Hu). exists d'. split; [done|].
    by rewrite <-Nat.add_succ_comm.
Qed.

(** The indices that a list array expands to *)
Lemma repeat_bounds (offsets : list Z) validity n : (Z.of_nat n < U32)%Z →
  in_bounds n (flat_map (repeat_row offsets validity) (seq 0 n)).
Proof.
  intros Hn. apply Forall_forall. intros z Hz%list_elem_of_In.
  apply in_flat_map in Hz as (r & Hr%in_seq & Hz). unfold repeat_row in Hz.
  destruct (nth r validity false); [|done]. apply list_elem_of_In, elem_of_replicate in Hz as [-> _].
  rewrite Z.mod_small by lia. lia.
Qed.
Lemma range_bounds (offsets : list Z) validity (values : list (option V)) :
  (∀ i, (i < length validity)%nat → (at_offset offsets i ≤ at_offset offsets (S i))%nat ∧
     (at_offset offsets (S i) ≤ length values)%nat) →
  in_bounds (length values) (flat_map (element_range offsets validity) (seq 0 (length validity))).
Proof.
  intros Ho. apply Forall_forall. intros z Hz%list_elem_of_In.
  apply in_flat_map in Hz as (r & Hr%in_seq & Hz). unfold element_range in Hz.
  destruct (nth r validity false); [|done]. apply in_map_iff in Hz as (x & <- & Hx%in_seq).
  destruct (Ho r); lia.
Qed.
Lemma expansion_lengths offsets validity r :
  length (repeat_row offsets validity r) = length (element_range offsets validity r).
Proof.
  unfold repeat_row, element_range. destruct (nth r validity false); [|done].
  by rewrite length_replicate, length_map, length_seq.
Qed.
Lemma expansion_total offsets validity l :
  length (flat_map (repeat_row offsets validity) l) = length (flat_map (element_range offsets validity) l).
Proof.
  induction l as [|r l IH]; [done|]. cbn [flat_map]. by rewrite !length_app, expansion_lengths, IH.
Qed.
(** The pairs of row and element that one row expands to *)
Lemma expanded_row (b : RecordBatch V) i e offsets validity values r :
  valid_array (ListArray e offsets validity values) → (r < length validity)%nat →
  (Z.of_nat (length validity) < U32)%Z → columns b !! i = Some (ListArray e offsets validity values) →
  map (λ p : Z * Z, <[i := CValue (nth (Z.to_nat p.2) values None)]> (row_at b (Z.to_nat p.1)))
    (zip (repeat_row offsets validity r) (element_range offsets validity r)) = unnest_row i (row_at b r).
Proof.
  intros (_ & _ & Ho) Hr Hn Hc. unfold unnest_row. rewrite (row_at_lookup b r i _ Hc). unfold cell_at. cbn [cells].
  erewrite nth_lookup_Some; [|rewrite list_lookup_fmap, lookup_seq_lt by done; reflexivity].
  unfold list_cell. cbn [Nat.add]. unfold repeat_row, element_range. destruct (nth r validity false); [|done].
  rewrite Z.mod_small by lia. destruct (Ho r Hr) as [H1 H2]. unfold element_run.
  set (k := (at_offset offsets (S r) - at_offset offsets r)%nat).
  rewrite (run_nth values _ _ None) by lia. generalize (at_offset offsets r). intros o.
  rewrite map_map. generalize k o. clear. intros k. induction k as [|k IH]; intros o; [done|].
  cbn [replicate seq map zip zip_with]. f_equal; [by cbn; rewrite !Nat2Z.id|apply IH].
Qed.

(** One row of the unnested batch *)
Lemma unnested_row (b b' : RecordBatch V) i elements offsets validity values exp k r x :
  fitting b → columns b !! i = Some (ListArray elements offsets validity values) →
  ∀ out ranges repeat,
  unnested_columns i out repeat 0 (zip (fields b) (columns b)) = Ok exp → columns b' = map snd exp →
  in_bounds (num_rows b) repeat → in_bounds (length values) ranges →
  cells out = taken (map CValue values) ranges →
  repeat !! k = Some r → ranges !! k = Some x →
  row_at b' k = <[i := CValue (nth (Z.to_nat x) values None)]> (row_at b (Z.to_nat r)).
Proof.
  intros Hb Hi out ranges repeat Hexp Hcols Hrep Hran Hout Hr Hx.
  destruct (unnested_columns_lookup _ _ _ _ _ _ Hexp) as [Hlen Hj].
  pose proof (Forall2_length _ _ _ Hb) as Hfl.
  rewrite length_zip_with, Hfl, Nat.min_id in Hlen.
  apply list_eq. intros j. unfold row_at at 1. rewrite list_lookup_fmap, Hcols, list_lookup_fmap.
  destruct (columns b !! j) as [a|] eqn:Ha.
  2: { pose proof (lookup_ge_None_1 _ _ Ha). rewrite (lookup_ge_None_2 exp) by lia.
       rewrite lookup_ge_None_2; [done|]. rewrite length_insert. unfold row_at. rewrite length_map. lia. }
  destruct (lookup_lt_is_Some_2 (fields b) j) as [f Hf].
  { rewrite Hfl. by apply lookup_lt_Some in Ha. }
  destruct (Hj j (f, a)) as ([f' a'] & Hc' & Hu); [by rewrite lookup_zip_with, Hf; cbn; rewrite Ha|].
  rewrite Hc'. cbn [fmap option_fmap option_map snd]. unfold unnested_column in Hu. cbn [Nat.add] in Hu.
  destruct (Nat.eqb_spec j i) as [->|Hne].
  - destruct (field_type f); try done. injection Hu as <- <-.
    rewrite list_lookup_insert_eq; [|unfold row_at; rewrite length_map; by apply lookup_lt_Some in Ha].
    f_equal. unfold cell_at. rewrite Hout, (taken_lookup _ _ _ _ _ ltac:(by rewrite length_map) Hx).
    apply map_nth.
  - apply bind_Ok in Hu as (t & Ht & [= <- <-]). rewrite list_lookup_insert_ne by done.
    rewrite (row_at_lookup b _ j a Ha). f_equal. unfold cell_at.
    pose proof (fitting_length b j a Hb Ha) as Hal.
    destruct (take_ok a repeat t) as (Hcells & _);
      [by apply (fitting_valid b j)|by rewrite Hal|done|]. rewrite Hcells.
    apply taken_lookup; [by rewrite Hal|done].
Qed.

(** What an unnested batch is made of *)
Record unnesting (b : RecordBatch V) (name : string) (i : nat) (b' : RecordBatch V) : Prop := mkUnnesting {
  unnested_at : column_with_name 0 (fields b) name = Some i;
  unnested_fitting : fitting b';
  unnested_rows : rows_of b' = flat_map (unnest_row i) (rows_of b);
  unnested_length : length (columns b') = length (columns b) ∧ (i < length (columns b))%nat
}.
Lemma unnest_batch_Ok b name b' : valid_batch b → unnest_batch b name = Ok b' → ∃ i, unnesting b name i b'.
Proof.
  intros [Hb Hsmall]. unfold unnest_batch. intros (i & Hi%ok_or_Ok & H)%bind_Ok.
  apply bind_Ok in H as (a & Ha & H). destruct (columns b !! i) as [a'|] eqn:Hc; [|done].
  assert (a = a') as -> by (cbn in Ha; congruence). destruct a' as [|e offsets validity values]; [done|].
  pose proof (fitting_length b i _ Hb Hc) as Hn. cbn [cells] in Hn. rewrite length_map, length_seq in Hn.
  pose proof (fitting_valid b i _ Hb Hc) as Hv.
  set (repeat := flat_map (repeat_row offsets validity) (seq 0 (length validity))) in *.
  set (ranges := flat_map (element_range offsets validity) (seq 0 (length validity))) in *.
  assert (in_bounds (num_rows b) repeat) as Hrep.
  { unfold repeat. rewrite Hn. by apply repeat_bounds. }
  assert (in_bounds (length values) ranges) as Hran by (apply range_bounds, Hv).
  apply bind_Ok in H as (out & Hout & H). apply bind_Ok in H as (exp & Hexp & H).
  destruct (take_ok (Values (field_type e) values) ranges out) as (Hcells & _);
    [done|by cbn; rewrite length_map|done|]. cbn [cells] in Hcells.
  apply try_new_fits in H as (_ & Hcols & _ & Hfit).
  destruct (unnested_columns_lookup _ _ _ _ _ _ Hexp) as [Hlen Hj].
  pose proof (Forall2_length _ _ _ Hb) as Hfl. rewrite length_zip_with, Hfl, Nat.min_id in Hlen.
  assert (length repeat = length ranges) as Hsame by apply expansion_total.
  assert (num_rows b' = length ranges) as Hn'.
  { destruct (lookup_lt_is_Some_2 (fields b) i) as [f Hf]; [rewrite Hfl; by apply lookup_lt_Some in Hc|].
    destruct (Hj i (f, ListArray e offsets validity values)) as ([f' a'] & Hc' & Hu); [by rewrite lookup_zip_with, Hf; cbn; rewrite Hc|].
    unfold unnested_column in Hu. cbn [Nat.add] in Hu. rewrite Nat.eqb_refl in Hu.
    destruct (field_type f); try done. injection Hu as <- <-.
    rewrite <-(fitting_length b' i out Hfit); [|by rewrite Hcols, list_lookup_fmap, Hc'].
    rewrite Hcells, length_taken; [done|by rewrite length_map]. }
  exists i. split; [done|done| |split; [by rewrite Hcols, length_map|by apply lookup_lt_Some in Hc]].
  transitivity (map (λ p : Z * Z, <[i := CValue (nth (Z.to_nat p.2) values None)]> (row_at b (Z.to_nat p.1)))
    (zip repeat ranges)).
  - apply list_eq. intros k. destruct (decide (k < length ranges)%nat) as [Hk|Hk].
    + rewrite rows_of_lookup by lia. rewrite list_lookup_fmap, lookup_zip_with.
      destruct (lookup_lt_is_Some_2 repeat k) as [r Hr]; [lia|]. destruct (lookup_lt_is_Some_2 ranges k) as [x Hx]; [done|].
      rewrite Hr, Hx. cbn. f_equal. by apply (unnested_row b b' i e offsets validity values exp k r x Hb Hc out ranges repeat).
    + rewrite !lookup_ge_None_2; [done| |rewrite length_rows_of; lia].
      rewrite length_map, length_zip_with. lia.
  - unfold repeat, ranges. rewrite zip_flat_map by apply expansion_lengths. rewrite map_flat_map.
    unfold rows_of. rewrite flat_map_map, Hn. apply flat_map_ext_in. intros r [_ Hr]%elem_of_seq.
    apply (expanded_row b i e); [done|lia|lia|done].
Qed.

(** A list column of a valid batch unnests when what is repeated can be taken:
    the offsets of a repeated string or list can overflow. *)
Definition takes (n : nat) (a : Array V) : Prop := ∀ idx,
  in_bounds (length (cells a)) idx → length idx = n → is_ok (take_array a idx) = true.
Lemma takes_Ok n a idx : takes n a → valid_array a → in_bounds (length (cells a)) idx → length idx = n →
  ∃ out, take_array a idx = Ok out ∧ cells out = taken (cells a) idx ∧
    data_type out = data_type a ∧ valid_array out.
Proof.
  intros Ht Hv Hi Hn. pose proof (Ht idx Hi Hn) as Hok.
  destruct (take_array a idx) as [out| |] eqn:Ho; [|done|done].
  exists out. split; [done|]. by apply take_ok in Ho.
Qed.
Lemma unnested_column_total n m i elements repeat k f a :
  in_bounds n repeat → length repeat = m → length (cells elements) = m → valid_array elements →
  fits n f a → (k ≠ i → takes m a) →
  (k = i → ∃ e, field_type f = TList e ∧ field_type e = data_type elements) →
  ∃ c, unnested_column i elements repeat k (f, a) = Ok c ∧ fits m c.1 c.2.
Proof.
  intros Hrep Hm He Hve Hfa Hval Hk. unfold unnested_column. destruct (Nat.eqb_spec k i) as [Heq|Hne].
  - destruct (Hk Heq) as (e & Hte & Hed). rewrite Hte. eexists.
    split; [done|]. repeat split; [by cbn|done|done|by left].
  - destruct Hfa as (Ht & Hla & Hva & Hnn).
    destruct (takes_Ok m a repeat (Hval Hne) Hva) as (a' & Ha' & Hcells & Hdt & Hva'); [by rewrite Hla|done|].
    rewrite Ha'. run_ok. eexists. split; [done|]. cbn [fst snd]. split; [by rewrite Hdt|].
    split; [rewrite Hcells, length_taken; [done|by rewrite Hla]|]. split; [done|].
    destruct Hnn as [Hnn|Hnn]; [by left|right]. rewrite Hcells. apply Forall_forall.
    intros c (z & _ & Hz)%list_elem_of_omap. rewrite Forall_forall in Hnn. apply Hnn.
    by apply list_elem_of_lookup_2 in Hz.
Qed.
Lemma unnested_columns_total n m i elements repeat :
  in_bounds n repeat → length repeat = m → length (cells elements) = m → valid_array elements →
  ∀ k fs cs, Forall2 (fits n) fs cs →
  (∀ j a, cs !! j = Some a → (k + j)%nat ≠ i → takes m a) →
  (∀ j f, fs !! j = Some f → (k + j)%nat = i → ∃ e, field_type f = TList e ∧ field_type e = data_type elements) →
  ∃ out, unnested_columns i elements repeat k (zip fs cs) = Ok out ∧
    length out = length fs ∧ Forall2 (fits m) (map fst out) (map snd out).
Proof.
  intros Hrep Hm He Hve k fs cs Hfit. revert k. induction Hfit as [|f a fs cs Hfa _ IH]; intros k Hval Hi.
  { by exists []. }
  cbn [zip zip_with unnested_columns].
  destruct (unnested_column_total n m i elements repeat k f a) as ([f' a'] & Hc & Hfc); [done..| | |].
  { intros Hk. apply (Hval 0%nat); [done|lia]. }
  { intros ->. apply (Hi 0%nat); [done|lia]. }
  destruct (IH (S k)) as (out & Ho & Hl & Hf).
  { intros j x Hx Hj. apply (Hval (S j)); [done|lia]. }
  { intros j x Hx Hj. apply (Hi (S j)); [done|lia]. }
  rewrite Hc. run_ok. rewrite Ho. run_ok. eexists. split; [done|]. cbn. split; [by rewrite Hl|].
  by constructor.
Qed.
Lemma unnest_batch_total b name i e offsets validity values :
  valid_batch b → column_with_name 0 (fields b) name = Some i →
  columns b !! i = Some (ListArray e offsets validity values) →
  let n := length (flat_map (element_range offsets validity) (seq 0 (length validity))) in
  takes n (Values (field_type e) values) →
  (∀ j a, columns b !! j = Some a → j ≠ i → takes n a) →
  is_ok (unnest_batch b name) = true.
Proof.
  intros [Hb Hsmall] Hi Hc n Hel Hval. unfold unnest_batch. rewrite Hi. cbn [ok_or]. run_ok. rewrite Hc. cbn [unwrap]. run_ok.
  pose proof (fitting_length b i _ Hb Hc) as Hn. cbn [cells] in Hn. rewrite length_map, length_seq in Hn.
  pose proof (fitting_valid b i _ Hb Hc) as (_ & _ & Ho). cbn beta iota zeta.
  set (ranges := flat_map (element_range offsets validity) (seq 0 (length validity))).
  set (repeat := flat_map (repeat_row offsets validity) (seq 0 (length validity))).
  assert (in_bounds (length values) ranges) as Hran by by apply range_bounds.
  destruct (takes_Ok n (Values (field_type e) values) ranges Hel) as (out & Hout & Hcells & Hdt & Hva);
    [done|by cbn; rewrite length_map|done|]. cbn [cells data_type] in Hcells, Hdt.
  assert (n = length repeat) as Hnr by (symmetry; apply expansion_total). rewrite Hnr in Hval.
  rewrite Hout. run_ok.
  destruct (unnested_columns_total (num_rows b) (length repeat) i out repeat) with (k := 0%nat) (fs := fields b) (cs := columns b)
    as (exp & Hexp & Hl & Hf); try done.
  - rewrite <-Hn. apply repeat_bounds. by rewrite Hn.
  - rewrite Hcells, length_taken by (by rewrite length_map). symmetry. apply expansion_total.
  - intros j f Hf Hj. cbn in Hj. subst j. destruct (Forall2_lookup_lr _ _ _ _ _ _ Hb Hf Hc) as (Ht & _).
    exists e. by rewrite <-Ht, Hdt.
  - rewrite Hexp. run_ok. apply (try_new_ok _ _ _) in Hf; [done|].
    destruct exp; [|done]. cbn in Hl. apply column_with_name_lookup in Hi as [_ (f & Hf' & _)].
    apply lookup_lt_Some in Hf'. lia.
Qed.

(** ** Evaluating columns *)

(** A batch whose columns are functions of the rows of another *)
Lemma columns_rows b' (cs : list (Array V)) (gs : list (list (Cell V) → Cell V)) rows :
  fitting b' → columns b' = cs → cs ≠ [] → Forall2 (λ a g, cells a = map g rows) cs gs →
  rows_of b' = map (λ row, map (λ g, g row) gs) rows.
Proof.
  intros Hb Hc Hne Hg. assert (num_rows b' = length rows) as Hn.
  { destruct Hg as [|a g cs gs Hag]; [done|].
    rewrite <-(fitting_length b' 0 a Hb) by (by rewrite Hc). by rewrite Hag, length_map. }
  apply list_eq. intros k. destruct (decide (k < length rows)%nat) as [Hk|Hk].
  - rewrite rows_of_lookup by lia. rewrite list_lookup_fmap.
    destruct (lookup_lt_is_Some_2 rows k Hk) as [row Hrow]. rewrite Hrow. cbn. f_equal.
    unfold row_at. rewrite Hc. clear -Hg Hrow. induction Hg as [|a g cs gs Hag _ IH]; [done|]. cbn. f_equal; [|done].
    unfold cell_at. rewrite Hag. apply nth_lookup_Some. by rewrite list_lookup_fmap, Hrow.
  - rewrite !lookup_ge_None_2; [done|rewrite length_map; lia|rewrite length_rows_of; lia].
Qed.
Lemma cells_seq n (a : Array V) : length (cells a) = n → cells a = map (λ i, cell_at i a) (seq 0 n).
Proof.
  intros <-. apply list_eq. intros i. rewrite list_lookup_fmap.
  destruct (decide (i < length (cells a))%nat) as [Hi|Hi].
  - rewrite lookup_seq_lt by done. destruct (lookup_lt_is_Some_2 _ _ Hi) as [c Hc]. rewrite Hc. cbn. f_equal.
    symmetry. by apply nth_lookup_Some.
  - rewrite lookup_seq_ge, lookup_ge_None_2 by lia. done.
Qed.

Lemma view_batch_rows schema b b' :
  fitting b → to_view_batch schema b = Ok b' →
  fitting b' ∧ rows_of b' = map (view_row schema (map field_name (fields b))) (rows_of b).
Proof.
  intros Hb (cs & Hcs%try_map_Ok & H)%bind_Ok. apply try_new_fits in H as (_ & Hc & Hne & Hfit).
  split; [done|]. rewrite (columns_rows b' cs (map (λ f row, view_cell (map field_name (fields b)) row f) schema) (rows_of b));
    [|done..|].
  { apply map_ext. intros row. unfold view_row. by rewrite map_map. }
  clear -Hcs Hb KL. induction Hcs as [|f a schema cs Hfa _ IH]; [constructor|]. cbn [map]. constructor; [|done].
  unfold view_column in Hfa. unfold view_cell, is_computed. destruct (computed_column_from_field f).
  - injection Hfa as <-. rewrite null_array_cells, <-length_rows_of. clear.
    induction (rows_of b) as [|r l IH]; [done|]. cbn. by rewrite <-IH.
  - apply ok_or_Ok in Hfa. unfold column_by_name in Hfa.
    assert (length (cells a) = num_rows b) as Hl.
    { apply fmap_Some in Hfa as ([n a'] & Hin & ->). apply List.find_some in Hin as [Hin _].
      apply list_elem_of_In, elem_of_zip_r, list_elem_of_lookup in Hin as [j Hj]. by apply (fitting_length b j). }
    rewrite (cells_seq _ _ Hl). unfold rows_of. rewrite map_map. apply map_ext. intros i. unfold row_at.
    by rewrite (named_cell _ _ i _ _ Hfa).
Qed.

(** ** The unnest plan *)
Lemma physical_message schema what sql e : physical schema what sql = Ok e → physical schema "" sql = Ok e.
Proof.
  unfold physical. intros (x & Hx%map_err_Ok & H)%bind_Ok. apply bind_Ok in H as (y & Hy%map_err_Ok & H%map_err_Ok).
  rewrite Hx. cbn [map_err]. run_ok. rewrite Hy. cbn [map_err]. run_ok. by rewrite H.
Qed.
Lemma expr_value_physical schema what sql e row : physical schema what sql = Ok e →
  expr_value schema sql row = compute e (Schema.fields schema) row.
Proof. intros H%physical_message. unfold expr_value. by rewrite H. Qed.

Record plans (source : Dataset) (d : MaterializedViewDefinition) (inputs : list string) (u : ViewUnnest)
    (plan : UnnestPlan) : Prop := mkPlans {
  planned_column : column plan = unnest_column u ∧ raw_inputs plan = raw_columns inputs u;
  planned_read : ∃ flattened, flattened_schema (schema_of source) u = Ok flattened ∧
    try_map (read_field flattened u) (raw_columns inputs u) = Ok (read_schema plan);
  planned_projections : Forall2 (λ p q, q.1 = output p ∧
    ∀ row, expr_value (mkSchema (read_schema plan) ∅) (expression p) row = compute q.2 (read_schema plan) row)
    (projections d) (plan_projections plan);
  planned_filter : match view_filter d, plan_filter plan with
    | Some sql, Some e => ∀ row, expr_value (mkSchema (read_schema plan) ∅) sql row = compute e (read_schema plan) row
    | None, None => True
    | _, _ => False
    end
}.
Lemma new_unnest_plan_Ok source d inputs u plan :
  new_unnest_plan source d inputs u = Ok plan → plans source d inputs u plan.
Proof.
  unfold new_unnest_plan. intros (fl & Hfl & H)%bind_Ok. apply bind_Ok in H as (rs & Hrs & H).
  apply bind_Ok in H as (ps & Hps%try_map_Ok & H). apply bind_Ok in H as (flt & Hflt & H).
  match type of H with Ok ?q = _ => assert (plan = q) as -> by congruence end.
  split; cbn [column raw_inputs read_schema plan_projections plan_filter]; [done|by exists fl| |].
  - eapply Forall2_impl; [exact Hps|]. cbn. intros p q (e & He & [= <-])%bind_Ok. cbn. split; [done|].
    intros row. by rewrite (expr_value_physical _ _ _ _ _ He).
  - destruct (view_filter d) as [sql|].
    + apply bind_Ok in Hflt as (e & He & Hflt). assert (flt = Some e) as -> by congruence.
      intros row. by rewrite (expr_value_physical _ _ _ _ _ He).
    + by assert (flt = None) as -> by congruence.
Qed.

Context {LL : LanceLaws}.

Lemma column_index_names k fs fs' name :
  map field_name fs = map field_name fs' → column_with_name k fs name = column_with_name k fs' name.
Proof.
  revert k fs'. induction fs as [|f fs IH]; intros k [|f' fs']; try done. cbn. intros [= Hn Hr].
  rewrite Hn. destruct (String.eqb _ _); [done|]. by apply IH.
Qed.
(** Where a name is in a list of columns *)
Definition index_in (columns : list string) (name : string) : option nat :=
  column_with_name 0 (map (λ n, mkField n TNull true ∅) columns) name.
Lemma index_in_batch (b : RecordBatch V) columns name : map field_name (fields b) = columns →
  column_with_name 0 (fields b) name = index_in columns name.
Proof. intros <-. apply column_index_names. by rewrite !map_map. Qed.
Lemma index_in_lookup columns name i : index_in columns name = Some i → columns !! i = Some name.
Proof.
  intros [_ (f & Hf & <-)]%column_with_name_lookup. rewrite Nat.sub_0_r, list_lookup_fmap in Hf.
  destruct (columns !! i); [|done]. by injection Hf as <-.
Qed.
Lemma index_in_some columns name : name ∈ columns → is_Some (index_in columns name).
Proof.
  unfold index_in. generalize 0%nat. induction columns as [|c columns IH]; intros k; [by intros ?%not_elem_of_nil|].
  cbn. destruct (String.eqb_spec c name); [by eauto|]. intros [->|H]%elem_of_cons; [done|]. by apply IH.
Qed.
Lemma expanded_column_read inputs u : unnest_column u ∈ raw_columns inputs u.
Proof.
  unfold raw_columns, sorted. rewrite elem_of_dedup, merge_sort_Permutation. apply elem_of_app. right.
  apply list_elem_of_here.
Qed.

Lemma apply_filter_rows e b b' :
  fitting b → apply_filter e b = Ok b' →
  fields b' = fields b ∧ fitting b' ∧
  rows_of b' = match e with
               | Some e => List.filter (λ row, holds (compute e (fields b) row)) (rows_of b)
               | None => rows_of b
               end.
Proof.
  intros Hb. unfold apply_filter. destruct e as [e|]; [|by intros [= <-]].
  intros (v & Hv & H)%bind_Ok. apply bind_Ok in H as (a & Ha & H). apply bind_Ok in H as (keep & Hk%ok_or_Ok & H).
  apply filter_keeps in H as (Hf & Hfit & Hrows); [|done]. split; [done|]. split; [done|].
  rewrite Hrows, (boolean_holds _ _ Hk), (evaluate_rows _ _ _ _ Hb Hv Ha), map_map. apply kept_filter.
Qed.

(** What the plan makes of one row *)
Definition expanded_row_outputs (d : MaterializedViewDefinition) (read : list Field) (i : nat)
    (row : list (Cell V)) : list (list (Cell V)) :=
  map (λ row, map (λ p, expr_value (mkSchema read ∅) (expression p) row) (projections d))
    (List.filter (unnested_passes (view_filter d) (mkSchema read ∅)) (unnest_row i row)).
Lemma apply_rows source d inputs u plan b b' i :
  plans source d inputs u plan → valid_batch b → map field_name (fields b) = raw_columns inputs u →
  index_in (raw_columns inputs u) (unnest_column u) = Some i → apply plan b = Ok b' →
  fitting b' ∧ map field_name (fields b') = map output (projections d) ∧
  rows_of b' = flat_map (expanded_row_outputs d (read_schema plan) i) (rows_of b).
Proof.
  intros [[Hcol _] _ Hproj Hfilter] Hb Hnames Hi. unfold apply. rewrite Hcol.
  intros (b1 & H1 & H)%bind_Ok. apply unnest_batch_Ok in H1 as (j & [Hat Hfit1 Hrows1 _]); [|done].
  rewrite (index_in_batch _ _ _ Hnames), Hi in Hat. injection Hat as <-.
  apply bind_Ok in H as (b2 & H2 & H). apply try_new_fits in H2 as (Hf2 & Hc2 & Hne & Hfit2).
  assert (rows_of b2 = rows_of b1) as Hr2 by (by apply rows_of_columns; [..|by rewrite Hc2]).
  apply bind_Ok in H as (b3 & H3 & H). apply apply_filter_rows in H3 as (Hf3 & Hfit3 & Hr3); [|done].
  apply bind_Ok in H as (cs & Hcs%try_map_Ok & H). apply try_from_iter_fits in H as (Hn & Hc & Hne' & Hfit).
  rewrite Hf2 in Hf3, Hr3. split; [done|]. split.
  - rewrite Hn. clear -Hcs Hproj. revert cs Hcs. induction Hproj as [|p q ps qs [Hq _] _ IH]; intros cs Hcs.
    + by inversion Hcs.
    + inversion Hcs as [|? c ? cs' Hc Hcs']; subst. cbn. rewrite (IH _ Hcs'). f_equal.
      unfold apply_projection in Hc. apply bind_Ok in Hc as (v & _ & Hc). apply bind_Ok in Hc as (a & _ & [= <-]).
      done.
  - rewrite (columns_rows b' (map snd cs) (map (λ p row, expr_value (mkSchema (read_schema plan) ∅) (expression p) row) (projections d)) (rows_of b3));
      [|done|done|by destruct cs|].
    + assert (rows_of b3 = List.filter (unnested_passes (view_filter d) (mkSchema (read_schema plan) ∅)) (rows_of b2)) as ->.
      { rewrite Hr3. unfold unnested_passes. destruct (view_filter d) as [sql|], (plan_filter plan) as [e|]; try done.
        - apply filter_ext. intros row. by rewrite Hfilter.
        - clear. induction (rows_of b2) as [|r l IH]; [done|]. cbn. by rewrite <-IH. }
      rewrite Hr2, Hrows1, filter_flat_map, map_flat_map. apply flat_map_ext. intros row.
      unfold expanded_row_outputs. apply map_ext. intros r. by rewrite map_map.
    + clear -Hcs Hproj Hf3 Hfit3 LL. revert cs Hcs.
      induction Hproj as [|p q ps qs [_ Hq] _ IH]; intros cs Hcs; inversion Hcs as [|? c ? cs' Hc Hcs']; subst;
        [constructor|]. cbn [map]. constructor; [|by apply IH].
      unfold apply_projection in Hc. apply bind_Ok in Hc as (v & Hv & Hc). apply bind_Ok in Hc as (a & Ha & [= <-]).
      cbn [snd]. rewrite (evaluate_rows _ _ _ _ Hfit3 Hv Ha), Hf3. apply map_ext. intros row. by rewrite Hq.
Qed.

(** ** The stream of the view's rows *)
Lemma mapped_view_rows schema items rows expected :
  delivers expected items → collected (map_stream (to_view_batch schema) items) = Some rows →
  ∃ ins, collected items = Some ins ∧ rows = map (view_row schema expected) ins.
Proof.
  intros Hd Hc. apply (collected_map _ (λ row, [view_row schema expected row])) in Hc as (ins & Hi & ->).
  - exists ins. split; [done|]. apply flat_map_single.
  - intros b b' Hin Hb'. destruct (Hd b Hin) as [[Hb _] Hn].
    apply view_batch_rows in Hb' as [_ ->]; [|done]. by rewrite Hn, flat_map_single.
Qed.

Context {GL : View.GroupedLaws}.

Lemma keeps_all schema (rows : list (list (Cell V))) : List.filter (keeps None schema) rows = rows.
Proof. induction rows as [|r l IH]; [done|]. cbn. by rewrite IH. Qed.
Lemma filtered_scan_request source d u s : filtered_scan source d u = Ok s →
  request s = mkRequest source (match u with None => view_filter d | Some _ => None end) None None.
Proof.
  unfold filtered_scan. destruct (view_filter d) as [f|], u as [u|].
  - intros [= <-]. apply scan_request.
  - intros H. by rewrite (filter_request _ _ _ H), scan_request.
  - intros [= <-]. apply scan_request.
  - intros [= <-]. apply scan_request.
Qed.

Section streams.
Context (source : Dataset) (planned : Planned) (schema : list Field).
Abbreviation d := (planned_definition planned).
Abbreviation outputs := (map output (projections d)).

Lemma grouped_stream_answers items rows :
  is_grouped d = true → grouped_stream source d (planned_inputs planned) schema = Ok items →
  collected items = Some rows → ∃ ins, answers source planned ins ∧ rows = map (view_row schema outputs) ins.
Proof.
  intros Hg (s & Hs & H)%bind_Ok Hc. assert (request s = mkRequest source (view_filter d) None None) as Hreq.
  { destruct (view_filter d) as [f|]; [by rewrite (filter_request _ _ _ Hs), scan_request|].
    injection Hs as <-. apply scan_request. }
  apply bind_Ok in H as (s2 & Hs2 & H). apply bind_Ok in H as (scanned & Hst & H).
  apply bind_Ok in H as (bs & Hbs & H). apply bind_Ok in H as (pl & Hpl & H).
  apply bind_Ok in H as (groups & Hgr & H).
  assert (items = map_stream (to_view_batch schema) groups) as -> by congruence.
  destruct (execute_groups _ _ _ _ Hgr) as [Hdel Hrows].
  rewrite (View.plan_yields_aliases _ _ _ _ Hpl) in Hdel.
  apply (mapped_view_rows _ _ _ _ Hdel) in Hc as (ins & Hins & ->).
  destruct (Hrows _ Hins) as (raw & Hraw & ->). exists (group_rows pl bs raw). split; [|done].
  apply (proj2 (stream_answers _ _ Hst)) in Hraw. rewrite (project_request _ _ _ Hs2), Hreq in Hraw.
  rewrite Hraw. by apply answers_groups.
Qed.

Lemma row_stream_answers s items rows :
  is_grouped d = false → physical_unnest d = Ok None → filtered_scan source d None = Ok s →
  ∀ s2, project_with_transform s (map (λ p, (output p, expression p)) (projections d)) = Ok s2 →
  ∀ s3, limited_scan d s2 = Ok s3 → try_into_stream s3 = Ok items →
  collected (map_stream (view_item None schema) items) = Some rows →
  ∃ ins, answers source planned ins ∧ rows = map (view_row schema outputs) ins.
Proof.
  intros Hg Hu Hs s2 Hs2 s3 Hs3 Hst Hc.
  assert (request s3 = mkRequest source (view_filter d)
    (Some (inl (map (λ p, (output p, expression p)) (projections d)))) (limit d)) as Hreq.
  { apply transform_request in Hs2. rewrite (filtered_scan_request _ _ _ _ Hs) in Hs2. unfold limited_scan in Hs3.
    destruct (limit d) as [n|]; [|assert (s3 = s2) as -> by congruence; by rewrite Hs2].
    destruct (_ <=? _)%Z; [done|]. by rewrite (limit_request _ _ _ Hs3), Hs2. }
  destruct (stream_answers _ _ Hst) as [Hdel Hrows]. rewrite Hreq in Hdel, Hrows. cbn in Hdel.
  rewrite map_map in Hdel. cbn in Hdel.
  assert (map_stream (view_item None schema) items = map_stream (to_view_batch schema) items) as Hm by done.
  rewrite Hm in Hc. apply (mapped_view_rows _ _ _ _ Hdel) in Hc as (ins & Hins & ->).
  exists ins. split; [|done]. rewrite (Hrows _ Hins). unfold answer.
  cbn [req_dataset req_filter req_output req_limit output_row].
  erewrite map_ext; [by apply answers_rows|]. intros row. cbn [output_row]. by rewrite map_map.
Qed.

Lemma element_stream_answers u s plan items rows :
  is_grouped d = false → physical_unnest d = Ok (Some u) → filtered_scan source d (Some u) = Ok s →
  new_unnest_plan source d (planned_inputs planned) u = Ok plan →
  ∀ s2, scan_project s (raw_inputs plan) = Ok s2 → try_into_stream s2 = Ok items →
  collected (map_stream (view_item (Some plan) schema) items) = Some rows →
  ∃ ins, answers source planned ins ∧ rows = map (view_row schema outputs) ins.
Proof.
  intros Hg Hu Hs Hplan%new_unnest_plan_Ok s2 Hs2 Hst Hc.
  pose proof Hplan as [[_ Hraw] (fl & Hfl & Hread) _ _].
  destruct (stream_answers _ _ Hst) as [Hdel Hrows].
  rewrite (project_request _ _ _ Hs2), (filtered_scan_request _ _ _ _ Hs) in Hdel, Hrows.
  cbn [req_dataset req_filter req_output req_limit output_names] in Hdel. rewrite Hraw in Hdel, Hrows.
  destruct (index_in_some _ _ (expanded_column_read (planned_inputs planned) u)) as [i Hi].
  apply (collected_map _ (λ row, map (view_row schema outputs)
    (expanded_row_outputs d (read_schema plan) i row))) in Hc as (ins & Hins & ->).
  - eexists. split.
    { apply (answers_elements source planned u fl (read_schema plan) i Hg Hu Hfl Hread). by apply index_in_lookup. }
    rewrite (Hrows _ Hins). unfold answer. cbn [req_dataset req_filter req_output req_limit take_limit].
    rewrite keeps_all, filter_flat_map, !map_flat_map. apply flat_map_ext. intros row. done.
  - intros b b' Hin Hb'. destruct (Hdel b Hin) as [Hb Hn]. unfold view_item in Hb'.
    apply bind_Ok in Hb' as (b1 & Hb1 & Hb'). apply (apply_rows source d _ u plan b b1 i Hplan Hb Hn Hi) in Hb1
      as (Hfit & Hn1 & Hr1). apply view_batch_rows in Hb' as [_ ->]; [|done]. by rewrite Hn1, Hr1, map_flat_map.
Qed.

Lemma compute_stream_answers unnest items rows :
  physical_unnest d = Ok unnest → (∀ u, is_grouped d = false → unnest = Some u → limit d = None) →
  compute_stream source d (planned_inputs planned) unnest schema = Ok items →
  collected items = Some rows → ∃ ins, answers source planned ins ∧ rows = map (view_row schema outputs) ins.
Proof.
  intros Hu Hlim. unfold compute_stream. destruct (is_grouped d) eqn:Hg; [by apply grouped_stream_answers|].
  intros (s & Hs & H)%bind_Ok. apply bind_Ok in H as ([s2 expanded] & Hp & H).
  destruct unnest as [u|]; cbn [projected_scan] in Hp.
  - apply bind_Ok in Hp as (plan & Hplan & Hp). apply bind_Ok in Hp as (s3 & Hs3 & [= <- <-]).
    specialize (Hlim u eq_refl eq_refl). unfold limited_scan in H. rewrite Hlim in H.
    destruct (bool_decide _) eqn:Hz; [apply bool_decide_eq_true in Hz; done|]. cbn [mbind outcome_bind] in H.
    apply bind_Ok in H as (scanned & Hst & H). intros Hc.
    assert (items = map_stream (view_item (Some plan) schema) scanned) as -> by congruence.
    by apply (element_stream_answers u s plan scanned rows Hg Hu Hs Hplan s3).
  - apply bind_Ok in Hp as (s3 & Hs3 & [= <- <-]). destruct (bool_decide _) eqn:Hz.
    + apply bool_decide_eq_true in Hz. assert (items = []) as -> by congruence. intros [= <-].
      eexists. split; [by apply answers_rows|]. by rewrite Hz.
    + apply bind_Ok in H as (s4 & Hs4 & H). apply bind_Ok in H as (scanned & Hst & H). intros Hc.
      assert (items = map_stream (view_item None schema) scanned) as -> by congruence.
      by apply (row_stream_answers s scanned rows Hg Hu Hs s3 Hs3 s4).
Qed.
End streams.

(** ** Replacing the fragments *)
Lemma replaced_rows d items d' : replace_fragments d items = Ok d' →
  collected items = Some (table_rows d') ∧ version d' = (version d + 1)%Z.
Proof.
  unfold replace_fragments. intros (op & Hop & H)%bind_Ok. destruct op as [fragments| |]; [|done|done].
  apply bind_Ok in H as (flt & _ & H). apply bind_Ok in H as (c & Hcommit & H).
  destruct (Z.eqb_spec (version c) (version d + 1)) as [Hv|]; [|done]. injection H as <-. split; [|done].
  rewrite (staged_rows _ _ _ Hop). f_equal. rewrite (committed_update _ _ _ _ _ Hcommit Hv).
  rewrite filter_none; [done|]. intros f Hf. rewrite negb_false_iff, bool_decide_eq_true.
  apply list_elem_of_fmap. by exists f.
Qed.

(** ** Planning again *)
Lemma plan_unnest_limit schema d planned u : plan schema d = Ok planned →
  is_grouped (planned_definition planned) = false →
  physical_unnest (planned_definition planned) = Ok (Some u) → limit (planned_definition planned) = None.
Proof.
  unfold plan. intros (flt & _ & H)%bind_Ok. destruct (is_grouped d) eqn:Hg.
  - unfold plan_groups in H. apply bind_Ok in H as (? & _ & H). apply bind_Ok in H as (ins & _ & H).
    apply bind_Ok in H as (ps & _ & H). apply bind_Ok in H as (gs & Hgs & H).
    apply bind_Ok in H as (pl & _ & H). apply bind_Ok in H as (? & _ & [= <-]).
    cbn [planned_definition]. unfold is_grouped in Hg |- *. cbn [group_by].
    destruct (group_by d); [done|]. cbn [try_map] in Hgs. apply bind_Ok in Hgs as (k & _ & Hgs).
    apply bind_Ok in Hgs as (ks & _ & Hgs). by assert (gs = k :: ks) as -> by congruence.
  - unfold plan_rows in H. apply bind_Ok in H as (un & Hun & H). apply bind_Ok in H as (sc & Hsc & H).
    apply bind_Ok in H as (ps & _ & H). apply bind_Ok in H as (? & _ & H).
    apply bind_Ok in H as ([[fs ins] lin] & _ & H). apply bind_Ok in H as (rd & _ & [= <-]).
    cbn [planned_definition limit]. intros _ Hu. unfold physical_unnest in Hu, Hun. cbn [lateral] in Hu.
    rewrite Hu in Hun. injection Hun as <-. cbn [planning_schema] in Hsc.
    destruct (bool_decide (limit d = None)) eqn:Hl; [|done]. by apply bool_decide_eq_true in Hl.
Qed.

Lemma view_produced_names planned stored : produces planned stored = true →
  map field_name planned = map field_name stored.
Proof.
  unfold produces. intros [Hl Hf]%andb_true_iff. apply Nat.eqb_eq in Hl. revert stored Hl Hf.
  induction planned as [|p ps IH]; intros [|q qs]; try done. cbn. intros [= Hl] [Hpq Hf]%andb_true_iff.
  rewrite (IH qs Hl Hf). f_equal. unfold stores in Hpq. apply andb_true_iff in Hpq as [Hpq _].
  apply andb_true_iff in Hpq as [Hpq _]. by apply String.eqb_eq.
Qed.
Lemma ensure_view_schema_Ok schema planned : ensure_view_schema schema planned = Ok tt →
  map field_name planned =
    map field_name (List.filter (λ f, negb (is_computed f)) (Schema.fields schema)) ∧
  ∀ f, f ∈ Schema.fields schema → is_computed f = true → field_nullable f = true.
Proof.
  unfold ensure_view_schema. intros ([] & _ & H)%bind_Ok. destruct (existsb _ _) eqn:Hx; [done|].
  destruct (produces planned _) eqn:Hp; [|done]. split; [by apply view_produced_names|]. intros f Hf Hc.
  destruct (field_nullable f) eqn:Hn; [done|]. rewrite <-not_true_iff_false in Hx. destruct Hx.
  apply existsb_exists. exists f. split; [by apply list_elem_of_In|]. by rewrite Hc, Hn.
Qed.
End unnesting.

(** * Theorems *)
Section theorems.
Context {V : Type} {P : Planner} {BC : BindingChecks} {Sql : SqlParser} {VP : ViewPlanner}.
Context {G : GroupedPlanner} {J : JsonCodec} {K : Kernels V} {L : Lance V} {Sm : Semantics V}.

(** C27: Unnesting a batch gives one row per element: whatever the offsets of the
    list array, the rows of the expanded batch are, row by row, the given row
    with its list replaced by each of its elements in turn, so that a null or
    an empty list yields nothing; and the expansion fails only when Arrow cannot
    take so many slots of the elements or of another column. *)
Theorem unnest_batch_is_flat_map {KL : KernelLaws} (b : RecordBatch V) name :
  valid_batch b →
  (∀ b', unnest_batch b name = Ok b' →
     ∃ i, column_with_name 0 (fields b) name = Some i ∧ rows_of b' = flat_map (unnest_row i) (rows_of b)) ∧
  (∀ i e offsets validity values,
     column_with_name 0 (fields b) name = Some i →
     columns b !! i = Some (ListArray e offsets validity values) →
     let n := length (flat_map (element_range offsets validity) (seq 0 (length validity))) in
     takes n (Values (field_type e) values) →
     (∀ j a, columns b !! j = Some a → j ≠ i → takes n a) →
     is_ok (unnest_batch b name) = true).
Proof.
  intros Hb. split.
  - intros b' (i & [Hi _ Hr _])%unnest_batch_Ok; [by exists i|done].
  - intros i e offsets validity values Hi Hc n He Hv.
    by apply (unnest_batch_total b name i e offsets validity values).
Qed.

(** C26: A refresh publishes the query: when a refresh succeeds, the view holds
    exactly the rows of its stored query over the version of the source it
    reports, in order, each stored column under its name and NULL in every
    computed column, whatever batches the rows came in and whatever the view
    held before; it reports how many rows it wrote, and its commit is the
    version after the one it read. *)
Theorem refresh_publishes_the_query {KL : KernelLaws} {LL : LanceLaws} {GL : View.GroupedLaws}
    view pinned res view' :
  execute_refresh view pinned = Ok (res, view') →
  ∃ old source d planned rows,
    latest view = Ok old ∧ stored_definition view old = Ok d ∧
    (open_source view d ≫= pin pinned) = Ok source ∧ plan (schema_of source) d = Ok planned ∧
    answers source planned rows ∧
    table_rows view' =
      map (view_row (Schema.fields (schema_of old)) (map output (projections (planned_definition planned)))) rows ∧
    map field_name (List.filter (λ f, negb (is_computed f)) (Schema.fields (schema_of old))) =
      map output (projections (planned_definition planned)) ∧
    (∀ f, f ∈ Schema.fields (schema_of old) → is_computed f = true → field_nullable f = true) ∧
    rows_written res = (Z.of_nat (length (table_rows view')) mod U64)%Z ∧
    source_version res = version source ∧ (∀ v, pinned = Some v → source_version res = v) ∧
    result_version res = version view' ∧ version view' = (version old + 1)%Z.
Proof.
  unfold execute_refresh. destruct (native view); [cbn [negb]|done]. intros ([] & _ & H)%bind_Ok.
  apply bind_Ok in H as (old & Hold & H). apply bind_Ok in H as ([] & _ & H).
  apply bind_Ok in H as (d & Hd & H). apply bind_Ok in H as (opened0 & Hopen & H).
  apply bind_Ok in H as (source & Hpin & H). apply bind_Ok in H as ([] & _ & H).
  apply bind_Ok in H as (planned & Hplan%map_err_Ok & H). apply bind_Ok in H as ([] & Hschema & H).
  apply bind_Ok in H as (unnest & Hun & H). apply bind_Ok in H as (stream & Hstream & H).
  apply bind_Ok in H as (committed & Hcommit & [= <- <-]).
  destruct (replaced_rows _ _ _ Hcommit) as [Hrows Hversion].
  destruct (compute_stream_answers source planned (Schema.fields (schema_of old)) unnest stream
    (table_rows committed) Hun) as (rows & Hans & Hview); [|done|done|].
  { intros u Hg ->. by apply (plan_unnest_limit (schema_of source) d planned u). }
  apply ensure_view_schema_Ok in Hschema as [Hnames Hnull].
  destruct (View.plan_fields_Ok _ _ _ Hplan) as (Houts & _).
  exists old, source, d, planned, rows. cbn [rows_written source_version result_version].
  rewrite Hopen. split_and!; try done; [by rewrite <-Hnames|by rewrite (counted_rows _ _ Hrows)|].
  intros v ->. by apply checkout_at in Hpin.
Qed.
End theorems.

(** * Witnesses *)
#[export] Instance Cell_eq_dec `{EqDecision V} : EqDecision (Cell V).
Proof. solve_decision. Defined.

(** A table of lists, and a view of their elements with a computed column *)
Module Demo.
Import ComputedColumns.Demo.
#[export] Existing Instance View.Demo.json.
#[export] Existing Instance View.Demo.filters.
#[export] Existing Instance View.Demo.groups.
#[export] Existing Instance View.Demo.checks.

Definition canonical : string := "SELECT e FROM `t`, UNNEST(`tags`) AS `e`".
Definition query : Query :=
  mkQuery (SelectBody (mkSelect [UnnamedExpr (Identifier (mkIdent "e" None))]
    [mkFrom (TableRelation [NameIdentifier (mkIdent "t" None)] None None "") [];
     mkFrom (UnnestRelation (Some (mkAlias (mkIdent "e" None) true)) [Identifier (mkIdent "tags" None)] "") []] None None
    (GroupExpressions [] []) "")) None "".
#[export] Instance sql : SqlParser := {
  tokenize s := Ok [OtherToken s];
  token_to_string t := match t with OtherToken s => s | Word v _ => v end;
  parse_statements s := if String.eqb s canonical then Ok [QueryStatement query] else Err "no query";
  parse_leading_expr s := Ok (Identifier (mkIdent s None), true);
  expr_to_string e := match e with Identifier i => ident_value i | _ => "" end;
  object_name_to_string _ := "";
  query_to_string _ := canonical;
  reserved_keyword _ := false
}.

#[export] Instance grouped_laws : View.GroupedLaws.
Proof.
  split. intros schema d filtered pl. unfold logical_plan. intros (? & _ & H)%bind_Ok.
  by apply bind_Ok in H as (? & _ & H).
Qed.

(** *** Arrow *)
Definition fits_b (n : nat) (f : Field) (a : Array Z) : bool :=
  bool_decide (data_type a = field_type f) && Nat.eqb (length (cells a)) n
  && match a with
     | Values _ _ => true
     | ListArray _ offsets validity values =>
         Nat.eqb (length offsets) (S (length validity))
         && forallb (λ o, (0 <=? o) && (o <? U32))%Z offsets
         && forallb (λ i, (at_offset offsets i <=? at_offset offsets (S i))
                          && (at_offset offsets (S i) <=? length values))%nat (seq 0 (length validity))
     end
  && (field_nullable f || forallb (λ c, negb (is_null c)) (cells a)).
Lemma fits_b_spec n f a : fits_b n f a = true ↔ fits n f a.
Proof.
  unfold fits_b, fits, valid_array. rewrite !andb_true_iff, bool_decide_eq_true, Nat.eqb_eq, orb_true_iff.
  assert (forallb (λ c, negb (is_null c)) (cells a) = true ↔ Forall (λ c, is_null c = false) (cells a)) as ->.
  { rewrite forallb_forall, Forall_forall. setoid_rewrite list_elem_of_In. by setoid_rewrite negb_true_iff. }
  destruct a as [t vs|e o v vs]; [naive_solver|]. rewrite !andb_true_iff, Nat.eqb_eq.
  assert (forallb (λ o, (0 <=? o) && (o <? U32))%Z o = true ↔ Forall (λ o, 0 ≤ o < U32)%Z o) as ->.
  { rewrite forallb_forall, Forall_forall. setoid_rewrite list_elem_of_In. setoid_rewrite andb_true_iff.
    setoid_rewrite Z.leb_le. by setoid_rewrite Z.ltb_lt. }
  assert (forallb (λ i, (at_offset o i <=? at_offset o (S i)) && (at_offset o (S i) <=? length vs))%nat
      (seq 0 (length v)) = true ↔
    ∀ i, (i < length v)%nat → (at_offset o i ≤ at_offset o (S i))%nat ∧ (at_offset o (S i) ≤ length vs)%nat) as ->.
  { rewrite forallb_forall. setoid_rewrite in_seq. setoid_rewrite andb_true_iff. setoid_rewrite Nat.leb_le.
    split; intros H i Hi; apply H; lia. }
  tauto.
Qed.
Fixpoint all_fit (n : nat) (fs : list Field) (cs : list (Array Z)) : bool :=
  match fs, cs with
  | [], [] => true
  | f :: fs, c :: cs => fits_b n f c && all_fit n fs cs
  | _, _ => false
  end.
Lemma all_fit_spec n fs cs : all_fit n fs cs = true ↔ Forall2 (fits n) fs cs.
Proof.
  revert cs. induction fs as [|f fs IH]; intros [|c cs]; cbn.
  - split; [intros _; constructor|done].
  - split; [done|inversion 1].
  - split; [done|inversion 1].
  - by rewrite andb_true_iff, fits_b_spec, IH, Forall2_cons.
Qed.
Definition new_batch (fs : list Field) (cs : list (Array Z)) : result (RecordBatch Z) :=
  match cs with
  | [] => Err (Arrow "no columns")
  | c :: _ =>
      let n := length (cells c) in
      if all_fit n fs cs then Ok (mkBatch fs cs n) else Err (Arrow "columns do not fit")
  end.
Lemma new_batch_Ok fs cs b : new_batch fs cs = Ok b → fields b = fs ∧ columns b = cs ∧ cs ≠ [] ∧ fitting b.
Proof.
  unfold new_batch. destruct cs as [|c cs]; [done|]. destruct (all_fit _ _ _) eqn:Hf; [|done].
  intros [= <-]. apply all_fit_spec in Hf. done.
Qed.
#[export] Instance kernels : Kernels Z := {
  take_array a idx :=
    match a with Values t vs => Ok (Values t (taken vs idx)) | ListArray _ _ _ _ => Err (Arrow "list") end;
  try_new := new_batch;
  try_from_iter cs := new_batch (map (λ c, mkField c.1 (data_type c.2) true ∅) cs) (map snd cs);
  filter_record_batch _ _ := Err (Arrow "no filter");
  as_boolean_opt _ := None;
  new_null_array t n :=
    match t with
    | TList e => ListArray e (replicate (S n) 0%Z) (replicate n false) []
    | t => Values t (replicate n None)
    end
}.

(** *** Lance *)
Inductive Table : Type := Source | Before | After.
Inductive Piece : Type := SourcePiece | OldPiece | NewPiece.
#[export] Instance Table_eq_dec : EqDecision Table.
Proof. solve_decision. Defined.
#[export] Instance Piece_eq_dec : EqDecision Piece.
Proof. solve_decision. Defined.
#[export] Instance Request_eq_dec : EqDecision (Request Table).
Proof. solve_decision. Defined.
#[export] Instance Operation_eq_dec : EqDecision (Operation Piece).
Proof. solve_decision. Defined.

Definition int : DataType := TOther "int".
Definition item : Field := mkField "item" int true ∅.
Definition source_schema : ArrowSchema := mkSchema [mkField "tags" (TList item) true ∅] ∅.
Definition view_schema : ArrowSchema :=
  mkSchema [mkField "e" int true ∅; computed "y" "e"] {[DEFINITION_META_KEY := "+ " +:+ canonical]}.
Definition piece_rows (p : Piece) : list (list (Cell Z)) :=
  match p with
  | SourcePiece =>
      [[CList (Some [Some 1; Some 2])]; [CList None]; [CList (Some [])]; [CList (Some [Some 3])]]%Z
  | OldPiece => [[CValue (Some 7); CValue (Some 7)]]%Z
  | NewPiece =>
      [[CValue (Some 1); CValue None]; [CValue (Some 2); CValue None]; [CValue (Some 3); CValue None]]%Z
  end.
Definition pieces (t : Table) : list Piece :=
  match t with Source => [SourcePiece] | Before => [OldPiece] | After => [NewPiece] end.
Definition piece_id (p : Piece) : Z := match p with SourcePiece => 0 | OldPiece => 0 | NewPiece => 1 end.
(** The lists end to end; the null one covers an element of its own. *)
Definition scanned : RecordBatch Z :=
  mkBatch (Schema.fields source_schema)
    [ListArray item [0; 2; 3; 3; 4]%Z [true; false; true; true] [Some 1; Some 2; Some 9; Some 3]%Z] 4.
Definition scan_tags : Request Table := mkRequest Source None (Some (inr ["tags"])) None.
#[export] Instance lance : Lance Z := {
  Dataset := Table;
  Fragment := Piece;
  version t := match t with Source => 5 | Before => 1 | After => 2 end%Z;
  schema_of t := match t with Source => source_schema | _ => view_schema end;
  first_field_id _ := Some 0%Z;
  get_fragments := pieces;
  fragment_id := piece_id;
  checkout_version t v := if bool_decide (t = Source ∧ v = 5%Z) then Ok Source else Err (Runtime "no version");
  list_mem_wal_latest_shard_ids _ := Ok [];
  mem_wal_index_details _ := Ok None;
  source_indexes _ := mkIndexes (λ _, None) (Ok []) (λ _ _, Err (Runtime "no index"));
  Scanner := Request Table;
  scan t := mkRequest t None None None;
  scan_filter r f := Ok (mkRequest (req_dataset r) (Some f) (req_output r) (req_limit r));
  project_with_transform r ts := Ok (mkRequest (req_dataset r) (req_filter r) (Some (inl ts)) (req_limit r));
  scan_project r cs := Ok (mkRequest (req_dataset r) (req_filter r) (Some (inr cs)) (req_limit r));
  scan_limit r n := Ok (mkRequest (req_dataset r) (req_filter r) (req_output r) (Some n));
  try_into_stream r := Ok (if bool_decide (r = scan_tags) then [Ok scanned] else [Err (Runtime "no scan")]);
  evaluate _ b := match columns b with a :: _ => Ok (Whole a) | [] => Err (External "no column") end;
  into_array v _ := match v with Whole a => Ok a | Scalar _ _ => Err (External "a scalar") end;
  execute_logical_plan _ _ _ := Err (External "no groups");
  execute_uncommitted_stream _ items :=
    if bool_decide (collected items = Some (piece_rows NewPiece)) then Ok (Append [NewPiece])
    else Err (Runtime "no rows");
  filter_insert _ _ := Ok tt;
  commit t v op :=
    match op with
    | Update removed [NewPiece] _ =>
        if bool_decide (t = Before ∧ v = 1%Z ∧ removed = [0%Z]) then Ok After else Err (Runtime "conflict")
    | _ => Err (Runtime "conflict")
    end
}.
#[export] Instance meaning : Semantics Z := {
  compute _ _ row := default (CValue None) (head row);
  holds _ := false;
  fragment_rows := piece_rows;
  group_rows _ _ _ := [];
  request r := r
}.
Definition view : Handle :=
  mkHandle "v" true (Ok tt) (Ok Before) (Some (λ _ _, Ok (Some (Ok Source)))).

Lemma null_cells e n :
  cells (V := Z) (ListArray e (replicate (S n) 0%Z) (replicate n false) []) = replicate n (CList None).
Proof.
  cbn [cells]. rewrite length_replicate. apply list_eq. intros i. rewrite list_lookup_fmap.
  destruct (decide (i < n)%nat) as [Hi|Hi].
  - rewrite lookup_seq_lt, lookup_replicate_2 by done. cbn. unfold list_cell.
    by erewrite nth_lookup_Some; [|by apply lookup_replicate_2].
  - rewrite lookup_seq_ge by lia. symmetry. apply lookup_ge_None_2. rewrite length_replicate. lia.
Qed.
#[export] Instance kernel_laws : KernelLaws.
Proof.
  split.
  - intros [t vs|] idx out _ Hi; [|done]. cbn. intros [= <-]. split; [|done]. cbn [cells]. unfold taken.
    clear. induction idx as [|x idx IH]; [done|]. cbn. rewrite list_lookup_fmap.
    destruct (vs !! Z.to_nat x); cbn; by rewrite IH.
  - apply new_batch_Ok.
  - intros n fs cs Hne Hf. cbn. unfold new_batch. destruct Hf as [|f c fs cs Hfc Hf]; [done|].
    rewrite (fits_length _ _ _ Hfc). rewrite (proj2 (all_fit_spec n (f :: fs) (c :: cs))); [done|by constructor].
  - intros cs b (Hf & Hc & Hne & Hfit)%new_batch_Ok. split; [by rewrite Hf, map_map|]. split; [done|].
    split; [|done]. by destruct cs.
  - done.
  - done.
  - intros t n. cbn. destruct t; try apply (fmap_replicate CValue n None).
    apply null_cells.
Qed.
Lemma scanned_valid : valid_batch scanned.
Proof.
  split; [|done]. apply (proj1 (all_fit_spec 4 (fields scanned) (columns scanned))). vm_compute. reflexivity.
Qed.
#[export] Instance lance_laws : LanceLaws.
Proof.
  split.
  - cbn. intros t v t'. case_bool_decide as H; [|done]. destruct H as [-> ->]. by intros [= <-].
  - done.
  - cbn. by intros ??? [= <-].
  - cbn. by intros ??? [= <-].
  - cbn. by intros ??? [= <-].
  - cbn. by intros ??? [= <-].
  - cbn. intros r items [= <-]. case_bool_decide as Hr; [subst r|].
    + split.
      * intros b Hb. apply list_elem_of_singleton in Hb as [= ->]. split; [apply scanned_valid|done].
      * intros rows Hrows. vm_compute in Hrows |- *. by injection Hrows as <-.
    + split; [|done]. intros b Hb. by apply list_elem_of_singleton in Hb.
  - intros e b v a Hb Hv Ha. cbn in Hv, Ha |- *. destruct (columns b) as [|c cs] eqn:Hc; [done|].
    injection Hv as <-. injection Ha as <-. rewrite (cells_seq (num_rows b) c).
    + unfold rows_of. rewrite map_map. apply map_ext. intros i. unfold row_at. by rewrite Hc.
    + apply (fitting_length b 0 c Hb). by rewrite Hc.
  - done.
  - cbn. intros t items fragments. case_bool_decide as H; [|done]. intros [= <-]. by rewrite H.
  - cbn. intros t removed fragments filter t'. destruct fragments as [|[] []]; try done.
    case_bool_decide as H; [|done]. destruct H as (-> & _ & ->). by intros [= <-] _.
Qed.
End Demo.
Import Demo.

Lemma unnest_batch_is_flat_map_witness :
  ∃ b', unnest_batch Demo.scanned "tags" = Ok b' ∧ valid_batch Demo.scanned ∧
  rows_of b' = [[CValue (Some 1)]; [CValue (Some 2)]; [CValue (Some 3)]]%Z.
Proof.
  destruct (unnest_batch Demo.scanned "tags") as [b'| |] eqn:Hb; [|vm_compute in Hb; discriminate Hb..].
  exists b'. split; [done|]. split; [apply Demo.scanned_valid|].
  destruct (unnest_batch_is_flat_map Demo.scanned "tags" Demo.scanned_valid) as [Hrows _].
  destruct (Hrows b' Hb) as (i & Hi & ->). vm_compute in Hi. injection Hi as <-. vm_compute. reflexivity.
Defined.

Lemma refresh_publishes_the_query_witness :
  ∃ res view', execute_refresh Demo.view (Some 5%Z) = Ok (res, view') ∧
  res = mkResult Rebuild 3 5 2 ∧
  ∃ source planned rows, answers source planned rows ∧
    table_rows view' = map (view_row (Schema.fields Demo.view_schema) (map output (projections (planned_definition planned)))) rows ∧
    length rows = 3%nat.
Proof.
  destruct (execute_refresh Demo.view (Some 5%Z)) as [[res view']| |] eqn:Hr; [|vm_compute in Hr; discriminate Hr..].
  exists res, view'. split; [done|]. split; [vm_compute in Hr; congruence|].
  destruct (refresh_publishes_the_query _ _ _ _ Hr) as (old & source & d & planned & rows & Hold & _ & _ & _ & Hans & Hrows & _).
  exists source, planned, rows. split; [done|]. assert (Before = old) as <- by (cbn in Hold; congruence).
  split; [done|]. apply (f_equal length) in Hrows. rewrite length_map in Hrows. rewrite <-Hrows.
  assert (view' = After) as -> by (vm_compute in Hr; congruence). vm_compute. reflexivity.
Defined.
End ViewRefresh.
