(* ===== verification/SqlText.v ===== *)
(** * Expressions as SQL text (expr/sql.rs)

    Predicates respelled for Lance's parser, and typed expressions printed for
    it: binary literals, which the unparser cannot print, travel through it as
    placeholder strings that the printed text is then searched for.
    DataFusion's unparser, sqlparser's tokenizer and Arrow's printing of types
    and decimals are parameters. *)

From Stdlib Require Import Ascii String SpecFloat.
From stdpp Require Import strings pretty gmap.
From S2P Require Import Prelude RustStr RustText ViewQuery.

Module SqlText.
Import ViewQuery (Token, Word, OtherToken, dquote).
Local Open Scope string_scope.

Definition squote : ascii := "'".
Definition backtick : ascii := "`".

(** ** Identifiers

    [ALL_KEYWORDS] is sqlparser's list of reserved words, in upper case. *)
Class Keywords : Type := ALL_KEYWORDS : list string.
Definition is_ascii_uppercase (c : ascii) : bool := between "A" "Z" c.
Definition to_ascii_uppercase (c : ascii) : ascii :=
  if between "a" "z" c then ascii_of_nat (nat_of_ascii c - 32) else c.
Fixpoint to_uppercase (s : string) : string :=
  match s with "" => "" | String c s => String (to_ascii_uppercase c) (to_uppercase s) end.
Definition identifier_char (i : nat) (c : ascii) : bool :=
  Ascii.eqb c "_" || is_ascii_uppercase c || between "a" "z" c || ((0 <? i)%nat && is_ascii_digit c).
Fixpoint identifier_chars (i : nat) (s : string) : bool :=
  match s with "" => true | String c s => identifier_char i c && identifier_chars (S i) s end.
Definition identifier_quote_style `{Keywords} (identifier : string) : option ascii :=
  let identifier_upper := to_uppercase identifier in
  let needs_quote :=
    (negb (String.eqb identifier_upper "ID") && existsb (String.eqb identifier_upper) ALL_KEYWORDS)
    || negb (all_chars (λ c, negb (is_ascii_uppercase c)) identifier)
    || negb (identifier_chars 0 identifier) in
  if needs_quote then Some backtick else None.

(** ** Predicates *)
Class PredicateTokenizer : Type := {
  tokenize_predicate : string → outcome string (list Token);
  predicate_token_to_string : Token → string
}.
Definition canonical_predicate_token `{PredicateTokenizer} (token : Token) : string :=
  match token with
  | Word value (Some q) =>
      if Ascii.eqb q dquote
      then "`" +:+ double_char backtick (undouble_char dquote value) +:+ "`"
      else predicate_token_to_string token
  | _ => predicate_token_to_string token
  end.
Definition canonicalize_sql_predicate `{PredicateTokenizer} (predicate : string) : result string :=
  tokens ← map_err (λ e, InvalidInput ("invalid SQL predicate: " +:+ e)) (tokenize_predicate predicate);
  Ok (String.concat "" (map canonical_predicate_token tokens)).

(** ** Quoted text *)

(** From after an opening quote: what stands before the closing one, whether
    it holds a doubled quote, and what follows. *)
Fixpoint scan_quoted (q : ascii) (s : string) : option (string * bool * string) :=
  match s with
  | "" => None
  | String c rest =>
      if Ascii.eqb c q then
        match rest with
        | String c' rest' =>
            if Ascii.eqb c' q
            then '(raw, _, tail) ← scan_quoted q rest'; Some (String q (String q raw), true, tail)
            else Some ("", false, rest)
        | "" => Some ("", false, "")
        end
      else '(raw, escaped, tail) ← scan_quoted q rest; Some (String c raw, escaped, tail)
  end.

(** [format!("{b:02X}")] *)
Definition hex_upper (d : Z) : ascii :=
  ascii_of_nat (Z.to_nat (if (d <? 10)%Z then 48 + d else 55 + d)).
Definition bytes_to_hex_sql (bytes : list Z) : string :=
  "X'" +:+ foldr (λ b s, String (hex_upper (b / 16)) (String (hex_upper (b mod 16)) s)) "" bytes +:+ "'".

(** One pass over the text; each turn of the loop consumes at least a byte. *)
Fixpoint bind_from (fuel : nat) (s : string) (bindings : gmap string (list Z))
    : result (string * gmap string (list Z)) :=
  match s, fuel with
  | "", _ => Ok ("", bindings)
  | _, O => Panic
  | String c rest, S fuel =>
      if Ascii.eqb c backtick then
        scanned ← ok_or (InvalidInput "unterminated identifier while binding binary literal")
                    (scan_quoted backtick rest);
        let '(raw, _, tail) := scanned in
        out ← bind_from fuel tail bindings;
        Ok ("`" +:+ raw +:+ "`" +:+ out.1, out.2)
      else if negb (Ascii.eqb c squote) then
        out ← bind_from fuel rest bindings;
        Ok (String c out.1, out.2)
      else
        scanned ← ok_or (InvalidInput "unterminated string while binding binary literal")
                    (scan_quoted squote rest);
        let '(raw, escaped, tail) := scanned in
        match (if (escaped : bool) then None else bindings !! raw) with
        | Some value =>
            out ← bind_from fuel tail (delete raw bindings);
            Ok (bytes_to_hex_sql value +:+ out.1, out.2)
        | None =>
            out ← bind_from fuel tail bindings;
            Ok ("'" +:+ raw +:+ "'" +:+ out.1, out.2)
        end
  end.
Definition bind_binary_literals (sql : string) (bindings : gmap string (list Z)) : result string :=
  out ← bind_from (String.length sql) sql bindings;
  if bool_decide (out.2 = ∅) then Ok out.1
  else Err (InvalidInput "failed to bind binary literal while serializing expression").

(** ** Expressions *)
Inductive DataType : Type :=
  | DecimalType (width precision scale : Z)
  | FloatType (width : Z)
  | OtherType (name : string).
Inductive ScalarValue : Type :=
  | Utf8 (v : option string)
  | Binary (v : option (list Z))
  | Decimal (width : Z) (v : option Z) (precision scale : Z)
  | Float (width : Z) (v : option spec_float)
  | Boolean (v : option bool)
  | Null
  | OtherScalar (text : string).
Inductive Expr : Type :=
  | Literal (v : ScalarValue) (metadata : option string)
  | InList (e : Expr) (items : list Expr) (negated : bool)
  | Cast (e : Expr) (t : DataType)
  | TryCast (e : Expr) (t : DataType)
  | ScalarFunction (name : string) (args : list Expr)
  | OtherExpr (kind : string) (children : list Expr).

Class Unparser : Type := {
  expr_to_sql : Expr → outcome string string;
  format_decimal : Z → Z → Z → Z → string;
  type_to_string : DataType → string
}.

Section sql.
Context {U : Unparser}.

(** The expression with every empty membership test decided, bottom up *)
Fixpoint without_empty_lists (e : Expr) : Expr :=
  match e with
  | Literal _ _ => e
  | InList e items negated =>
      match map without_empty_lists items with
      | [] => Literal (Boolean (Some negated)) None
      | items => InList (without_empty_lists e) items negated
      end
  | Cast e t => Cast (without_empty_lists e) t
  | TryCast e t => TryCast (without_empty_lists e) t
  | ScalarFunction f args => ScalarFunction f (map without_empty_lists args)
  | OtherExpr k children => OtherExpr k (map without_empty_lists children)
  end.
Fixpoint string_literals (e : Expr) : list string :=
  match e with
  | Literal (Utf8 (Some v)) _ => [v]
  | Literal _ _ => []
  | InList e items _ => (string_literals e ++ concat (map string_literals items))%list
  | Cast e _ | TryCast e _ => string_literals e
  | ScalarFunction _ es | OtherExpr _ es => concat (map string_literals es)
  end.

Definition BINARY_PLACEHOLDER_PREFIX : string := "__lancedb_binary_placeholder_".
Definition placeholder (id : nat) : string :=
  BINARY_PLACEHOLDER_PREFIX +:+ pretty (N.of_nat id) +:+ "__".
(** The first placeholder from [next_id] on that is no string of the user, and
    the id after it *)
Fixpoint next_binary_placeholder (fuel : nat) (user_strings : list string) (next_id : nat)
    : option (string * nat) :=
  match fuel with
  | O => None
  | S fuel =>
      if bool_decide (placeholder next_id ∈ user_strings)
      then next_binary_placeholder fuel user_strings (S next_id)
      else Some (placeholder next_id, S next_id)
  end.

Definition arrow_cast (f : string) (e : Expr) (t : DataType) : Expr :=
  ScalarFunction f [e; Literal (Utf8 (Some (type_to_string t))) None].
Definition typed_string_literal (value : string) (t : DataType) : Expr :=
  arrow_cast "arrow_cast" (Literal (Utf8 (Some value)) None) t.
(** [to_string] of a float that is not finite *)
Definition non_finite (v : spec_float) : option string :=
  match v with
  | S754_nan => Some "NaN"
  | S754_infinity s => Some (if s then "-inf" else "inf")
  | _ => None
  end.

(** The ids used and the bindings made so far *)
Definition Bindings : Type := nat * list (string * list Z).
Definition rewrite_literal (user_strings : list string) (st : Bindings) (v : ScalarValue)
    (m : option string) : Expr * Bindings :=
  match v with
  | Binary (Some bytes) =>
      match next_binary_placeholder (S (length user_strings)) user_strings st.1 with
      | Some (p, id) => (Literal (Utf8 (Some p)) m, (id, st.2 ++ [(p, bytes)])%list)
      | None => (Literal v m, st)
      end
  | Binary None => (Literal Null m, st)
  | Decimal w (Some value) precision scale =>
      (typed_string_literal (format_decimal w value precision scale) (DecimalType w precision scale), st)
  | Float w (Some value) =>
      match non_finite value with
      | Some text => (typed_string_literal text (FloatType w), st)
      | None => (Literal v m, st)
      end
  | _ => (Literal v m, st)
  end.
Fixpoint rewrite_literals (user_strings : list string) (st : Bindings) (e : Expr) : Expr * Bindings :=
  let fix rewrite_all (st : Bindings) (es : list Expr) : list Expr * Bindings :=
    match es with
    | [] => ([], st)
    | e :: es =>
        let '(e, st) := rewrite_literals user_strings st e in
        let '(es, st) := rewrite_all st es in (e :: es, st)
    end in
  match e with
  | Literal v m => rewrite_literal user_strings st v m
  | InList e items negated =>
      let '(e, st) := rewrite_literals user_strings st e in
      let '(items, st) := rewrite_all st items in (InList e items negated, st)
  | Cast e t => let '(e, st) := rewrite_literals user_strings st e in (arrow_cast "arrow_cast" e t, st)
  | TryCast e t => let '(e, st) := rewrite_literals user_strings st e in (arrow_cast "arrow_try_cast" e t, st)
  | ScalarFunction f args => let '(args, st) := rewrite_all st args in (ScalarFunction f args, st)
  | OtherExpr k es => let '(es, st) := rewrite_all st es in (OtherExpr k es, st)
  end.

Definition run_unparser (e : Expr) : result string :=
  map_err (λ e, InvalidInput ("failed to serialize expression to SQL: " +:+ e)) (expr_to_sql e).
Definition expr_to_sql_string (e : Expr) : result string :=
  let rewritten := without_empty_lists e in
  let '(rewritten, (_, bindings)) := rewrite_literals (string_literals rewritten) (0%nat, []) rewritten in
  sql ← run_unparser rewritten;
  match bindings with
  | [] => Ok sql
  | _ => bind_binary_literals sql (list_to_map bindings)
  end.
End sql.

(** ** Functions by name (expr.rs)

    The registry's functions are DataFusion's; only their names are known here. *)
Definition FUNC_REGISTRY : list string :=
  ["lower"; "upper"; "contains"; "btrim"; "ltrim"; "rtrim"; "concat"; "octet_length"].
Definition func (name : string) (args : list Expr) : result Expr :=
  if existsb (String.eqb name) FUNC_REGISTRY then Ok (ScalarFunction name args)
  else Err (InvalidInput ("unknown function: " +:+ name)).
Definition is_in (e : Expr) (items : list Expr) : Expr := InList e items false.

(** * Printed text, segment by segment

    SQL text is a sequence of single characters, identifiers between backticks
    and strings between quotes, in both of which the delimiter is doubled.  Two
    strings, or two identifiers, never touch: they would read as one. *)
Inductive Segment : Type :=
  | Plain (c : ascii)
  | Identifier (name : string)
  | Text (value : string).
Definition print_segment (s : Segment) : string :=
  match s with
  | Plain c => String c ""
  | Identifier name => String backtick (double_char backtick name +:+ String backtick "")
  | Text value => String squote (double_char squote value +:+ String squote "")
  end.
Definition print (segments : list Segment) : string :=
  foldr (λ s text, print_segment s +:+ text) "" segments.
Definition is_text (s : Segment) : bool := match s with Text _ => true | _ => false end.
Definition is_identifier (s : Segment) : bool := match s with Identifier _ => true | _ => false end.
Definition plain_ok (s : Segment) : bool :=
  match s with Plain c => negb (Ascii.eqb c backtick) && negb (Ascii.eqb c squote) | _ => true end.
Fixpoint well_separated (segments : list Segment) : bool :=
  match segments with
  | [] => true
  | a :: rest =>
      plain_ok a
      && match rest with
         | [] => true
         | b :: _ => negb (is_text a && is_text b) && negb (is_identifier a && is_identifier b)
         end
      && well_separated rest
  end.
Definition contents (segments : list Segment) : list string :=
  omap (λ s, match s with Text v => Some v | _ => None end) segments.

(** The text with each bound string replaced, and the bindings left over *)
Definition binding (bindings : gmap string (list Z)) (value : string) : option (list Z) :=
  if no_char squote value then bindings !! value else None.
Fixpoint bound (segments : list Segment) (bindings : gmap string (list Z))
    : string * gmap string (list Z) :=
  match segments with
  | [] => ("", bindings)
  | Text value :: rest =>
      match binding bindings value with
      | Some bytes =>
          let out := bound rest (delete value bindings) in (bytes_to_hex_sql bytes +:+ out.1, out.2)
      | None => let out := bound rest bindings in (print_segment (Text value) +:+ out.1, out.2)
      end
  | s :: rest => let out := bound rest bindings in (print_segment s +:+ out.1, out.2)
  end.
(** What the unparser prints: the segments of its text hold every string literal
    of the expression once, and the other text it quotes (dates, intervals)
    does not look like a placeholder. *)
Definition placeholder_like (s : string) : bool := starts_with BINARY_PLACEHOLDER_PREFIX s.
Class UnparserLaws {U : Unparser} : Prop := {
  printed_literals e sql : expr_to_sql e = Ok sql → ∃ segments others,
    well_separated segments = true ∧ sql = print segments ∧
    contents segments ≡ₚ (string_literals e ++ others)%list ∧
    Forall (λ s, placeholder_like s = false) others;
  printed_type t : placeholder_like (type_to_string t) = false;
  printed_decimal w v p s : placeholder_like (format_decimal w v p s) = false
}.
#[global] Arguments UnparserLaws : clear implicits.

(** The binary literals of an expression, in the order they are visited *)
Fixpoint binaries (e : Expr) : list (list Z) :=
  match e with
  | Literal (Binary (Some bytes)) _ => [bytes]
  | Literal _ _ => []
  | InList e items _ => (binaries e ++ concat (map binaries items))%list
  | Cast e _ | TryCast e _ => binaries e
  | ScalarFunction _ es | OtherExpr _ es => concat (map binaries es)
  end.

(** The text with every bound string replaced *)
Definition render_segment (bindings : gmap string (list Z)) (s : Segment) : string :=
  match s with
  | Text value => from_option bytes_to_hex_sql (print_segment s) (bindings !! value)
  | _ => print_segment s
  end.
Definition render (bindings : gmap string (list Z)) (segments : list Segment) : string :=
  foldr (λ s text, render_segment bindings s +:+ text) "" segments.

(** * Lemmas *)

(** ** Scanning *)
Definition opens_with (q : ascii) (s : string) : bool :=
  match s with String c _ => Ascii.eqb c q | "" => false end.
Lemma no_char_head q v : no_char q (String q v) = false.
Proof. unfold no_char. cbn. by rewrite Ascii.eqb_refl. Qed.
Lemma no_char_other q c v : c ≠ q → no_char q (String c v) = no_char q v.
Proof. intros Hc%Ascii.eqb_neq. unfold no_char. cbn [all_chars]. by rewrite Hc. Qed.
Lemma scan_printed q v rest : opens_with q rest = false →
  scan_quoted q (double_char q v +:+ String q rest) = Some (double_char q v, negb (no_char q v), rest).
Proof.
  intros Hr. induction v as [|x v IH]; cbn [double_char String.append].
  - cbn. rewrite Ascii.eqb_refl. destruct rest as [|c rest]; [done|]. cbn in Hr. by rewrite Hr.
  - destruct (Ascii.eqb_spec x q) as [->|Hx].
    + cbn [String.append scan_quoted]. rewrite !Ascii.eqb_refl, IH. by rewrite no_char_head.
    + cbn [String.append scan_quoted]. rewrite no_char_other by done. apply Ascii.eqb_neq in Hx. by rewrite Hx, IH.
Qed.
Lemma scan_inverse q s raw escaped rest : scan_quoted q s = Some (raw, escaped, rest) →
  ∃ v, raw = double_char q v ∧ escaped = negb (no_char q v) ∧ s = raw +:+ String q rest ∧
    opens_with q rest = false.
Proof.
  remember (String.length s) as n eqn:Hn. revert s raw escaped rest Hn.
  induction (lt_wf n) as [n _ IH]. intros [|c s] raw escaped rest Hn; [done|]. cbn [scan_quoted].
  destruct (Ascii.eqb_spec c q) as [->|Hc].
  - destruct s as [|c' s]; [intros [= <- <- <-]; by exists ""|].
    destruct (Ascii.eqb_spec c' q) as [->|Hc'].
    + destruct (scan_quoted q s) as [[[raw' esc'] tail]|] eqn:Hs; [|done]. cbn. intros [= <- <- <-].
      destruct (IH (String.length s)) with (s := s) (raw := raw') (escaped := esc') (rest := tail)
        as (v & -> & _ & -> & Ho); [cbn in Hn; lia|done|done|].
      exists (String q v). cbn [double_char]. rewrite Ascii.eqb_refl. split; [done|]. split; [by rewrite no_char_head|done].
    + intros [= <- <- <-]. exists "". cbn. split_and!; try done. by apply Ascii.eqb_neq.
  - destruct (scan_quoted q s) as [[[raw' esc'] tail]|] eqn:Hs; [|done]. cbn. intros [= <- <- <-].
    destruct (IH (String.length s)) with (s := s) (raw := raw') (escaped := esc') (rest := tail)
      as (v & -> & -> & -> & Ho); [cbn in Hn; lia|done|done|].
    exists (String c v). rewrite no_char_other by done. cbn. apply Ascii.eqb_neq in Hc. by rewrite Hc.
Qed.
Lemma double_no_char q v : no_char q v = true → double_char q v = v.
Proof.
  induction v as [|x v IH]; [done|]. intros [Hx Hv]%no_char_cons. cbn. apply Ascii.eqb_neq in Hx.
  by rewrite Hx, IH.
Qed.

(** ** The scanner on printed text *)
Lemma opens_with_print q segs : q = backtick ∨ q = squote → well_separated segs = true →
  opens_with q (print segs) = match segs with
    | Text _ :: _ => Ascii.eqb squote q | Identifier _ :: _ => Ascii.eqb backtick q | _ => false end.
Proof.
  intros Hq. destruct segs as [|[c|n|v] segs]; [done| |done|done]. cbn [well_separated plain_ok].
  intros [[[H1 H2]%andb_true_iff _]%andb_true_iff _]%andb_true_iff. cbn.
  apply negb_true_iff in H1, H2. by destruct Hq as [-> | ->].
Qed.
Lemma well_separated_cons s segs : well_separated (s :: segs) = true →
  plain_ok s = true ∧ well_separated segs = true ∧
  (is_text s = true → opens_with squote (print segs) = false) ∧
  (is_identifier s = true → opens_with backtick (print segs) = false).
Proof.
  cbn [well_separated]. intros [[Hp Ha]%andb_true_iff Hw]%andb_true_iff. split_and!; [done|done| |].
  - intros Ht. rewrite opens_with_print by auto. destruct segs as [|[] segs]; try done. by rewrite Ht in Ha.
  - intros Ht. rewrite opens_with_print by auto. destruct segs as [|[] segs]; try done.
    rewrite Ht in Ha. cbn in Ha. by rewrite andb_false_r in Ha.
Qed.
Lemma length_append a b : String.length (a +:+ b) = (String.length a + String.length b)%nat.
Proof. induction a as [|c a IH]; [done|]. cbn. by rewrite IH. Qed.

Lemma bind_printed fuel segs bindings : well_separated segs = true →
  (String.length (print segs) ≤ fuel)%nat → bind_from fuel (print segs) bindings = Ok (bound segs bindings).
Proof.
  revert fuel bindings. induction segs as [|s segs IH]; intros fuel bindings; [by destruct fuel|].
  intros (Hp & Hw & Ht & Hi)%well_separated_cons. destruct s as [c|n|v]; cbn [print foldr print_segment bound].
  - cbn [String.append String.length]. intros Hf. destruct fuel as [|fuel]; [lia|]. cbn [bind_from].
    cbn in Hp. apply andb_true_iff in Hp as [H1%negb_true_iff H2%negb_true_iff]. rewrite H1, H2. cbn [negb].
    fold (print segs). rewrite IH by (done || (unfold print; lia)). done.
  - cbn [String.append]. rewrite <-str_app_assoc. cbn [String.append String.length]. fold (print segs).
    rewrite length_append. cbn [String.length]. intros Hf. destruct fuel as [|fuel]; [lia|]. cbn [bind_from].
    change (Ascii.eqb backtick backtick) with true. cbv iota.
    rewrite scan_printed by (by apply Hi). cbn [ok_or]. run_ok. rewrite IH by (done || lia). run_ok.
    by rewrite <-str_app_assoc.
  - cbn [String.append]. rewrite <-str_app_assoc. cbn [String.append String.length]. fold (print segs).
    rewrite length_append. cbn [String.length]. intros Hf. destruct fuel as [|fuel]; [lia|]. cbn [bind_from].
    change (Ascii.eqb squote backtick) with false. change (Ascii.eqb squote squote) with true. cbn [negb]. cbv iota.
    rewrite scan_printed by (by apply Ht). cbn [ok_or]. run_ok. unfold binding.
    destruct (no_char squote v) eqn:Hv; cbn [negb].
    + rewrite double_no_char by done. destruct (bindings !! v) as [bytes|]; rewrite IH by (done || lia); [done|].
      run_ok. cbn [print_segment]. rewrite ?double_no_char by done. cbn [String.append]. by rewrite <-?str_app_assoc.
    + rewrite IH by (done || lia). run_ok. cbn [print_segment String.append]. by rewrite <-?str_app_assoc.
Qed.

(** Text that the scanner accepts was printed. *)
Lemma bind_from_printed fuel s bindings out : bind_from fuel s bindings = Ok out →
  ∃ segs, well_separated segs = true ∧ s = print segs.
Proof.
  revert s bindings out. induction fuel as [|fuel IH]; intros [|c s] bindings out; cbn [bind_from]; try done;
    [by exists []..|].
  destruct (Ascii.eqb_spec c backtick) as [->|Hb]; [|destruct (Ascii.eqb_spec c squote) as [->|Hq]; cbn [negb]].
  - intros ([[raw esc] tail] & Hs%ok_or_Ok & H)%bind_Ok. apply bind_Ok in H as (o & Ho & _).
    apply scan_inverse in Hs as (v & -> & _ & -> & Hopen). destruct (IH _ _ _ Ho) as (segs & Hw & ->).
    exists (Identifier v :: segs). split; [|cbn; by rewrite <-str_app_assoc].
    rewrite opens_with_print in Hopen by auto. cbn [well_separated plain_ok]. rewrite Hw.
    by destruct segs as [|[] segs].
  - intros ([[raw esc] tail] & Hs%ok_or_Ok & H)%bind_Ok.
    apply scan_inverse in Hs as (v & -> & _ & -> & Hopen).
    assert (∃ b o, bind_from fuel tail b = Ok o) as (b & o & Ho).
    { destruct (if (esc : bool) then _ else _); apply bind_Ok in H as (o & Ho & _); eauto. }
    destruct (IH _ _ _ Ho) as (segs & Hw & ->).
    exists (Text v :: segs). split; [|cbn; by rewrite <-str_app_assoc].
    rewrite opens_with_print in Hopen by auto. cbn [well_separated plain_ok]. rewrite Hw.
    by destruct segs as [|[] segs].
  - intros (o & Ho & _)%bind_Ok. destruct (IH _ _ _ Ho) as (segs & Hw & ->).
    exists (Plain c :: segs). split; [|done]. cbn [well_separated plain_ok]. rewrite Hw.
    apply Ascii.eqb_neq in Hb, Hq. rewrite Hb, Hq. by destruct segs as [|[] segs].
Qed.
Lemma bind_from_total fuel s bindings : (String.length s ≤ fuel)%nat → bind_from fuel s bindings ≠ Panic.
Proof.
  revert s bindings. induction fuel as [|fuel IH]; intros [|c s] bindings Hl; try done; [cbn in Hl; lia|].
  cbn [bind_from]. cbn in Hl.
  assert (∀ q raw esc tail, scan_quoted q s = Some (raw, esc, tail) → (String.length tail ≤ fuel)%nat) as Htail.
  { intros q raw esc tail (v & _ & _ & -> & _)%scan_inverse. rewrite length_append in Hl. cbn in Hl. lia. }
  assert (∀ t b (k : string * gmap string (list Z) → result (string * gmap string (list Z))),
    (String.length t ≤ fuel)%nat → (∀ o, k o ≠ Panic) → (bind_from fuel t b ≫= k) ≠ Panic) as Hk.
  { intros t b k Ht Hk. destruct (bind_from fuel t b) as [o| |] eqn:Ho; [apply Hk|done|by apply IH in Ho]. }
  destruct (Ascii.eqb c backtick); [|destruct (Ascii.eqb c squote); cbn [negb]].
  - destruct (scan_quoted backtick s) as [[[raw esc] tail]|] eqn:Hs; [|done]. cbn [ok_or]. run_ok.
    apply Hk; [by apply (Htail _ _ _ _ Hs)|done].
  - destruct (scan_quoted squote s) as [[[raw esc] tail]|] eqn:Hs; [|done]. cbn [ok_or]. run_ok.
    destruct (if (esc : bool) then _ else _); (apply Hk; [by apply (Htail _ _ _ _ Hs)|done]).
  - apply Hk; [lia|done].
Qed.
(** ** Replacing each bound string once *)
Definition occurs (k : string) (l : list string) : nat := length (filter (λ s, s = k) l).
Lemma occurs_perm k l l' : l ≡ₚ l' → occurs k l = occurs k l'.
Proof. intros H. unfold occurs. by rewrite H. Qed.
Lemma occurs_none k l : k ∉ l → occurs k l = 0%nat.
Proof.
  unfold occurs. intros Hk. induction l as [|x l IH]; [done|]. rewrite filter_cons_False by set_solver.
  apply IH. set_solver.
Qed.
Lemma occurs_0 k l : occurs k l = 0%nat → k ∉ l.
Proof.
  unfold occurs. intros H%nil_length_inv Hk. apply (elem_of_nil k). rewrite <-H. by apply list_elem_of_filter.
Qed.
Lemma occurs_unique k l : NoDup l → k ∈ l → occurs k l = 1%nat.
Proof.
  intros Hd. unfold occurs. induction Hd as [|x l Hx Hd IH]; [by intros ?%elem_of_nil|].
  destruct (decide (x = k)) as [->|Hne].
  - intros _. rewrite filter_cons_True by done. cbn. f_equal. by apply occurs_none.
  - intros [?|?]%elem_of_cons; [done|]. rewrite filter_cons_False by done. by apply IH.
Qed.
Lemma occurs_app k l l' : occurs k (l ++ l')%list = (occurs k l + occurs k l')%nat.
Proof. unfold occurs. by rewrite filter_app, length_app. Qed.
Lemma render_delete k bindings segs : k ∉ contents segs → render (delete k bindings) segs = render bindings segs.
Proof.
  induction segs as [|s segs IH]; [done|]. intros Hk. cbn [render foldr].
  fold (render (delete k bindings) segs). fold (render bindings segs). rewrite IH by (destruct s; cbn in Hk; set_solver). f_equal. destruct s; try done. cbn.
  by rewrite lookup_delete_ne by (cbn in Hk; set_solver).
Qed.
Lemma render_empty segs : render ∅ segs = print segs.
Proof.
  induction segs as [|s segs IH]; [done|]. cbn [render print foldr]. fold (render ∅ segs). fold (print segs).
  rewrite IH. f_equal. by destruct s.
Qed.
Definition all_once (bindings : gmap string (list Z)) (l : list string) : Prop :=
  ∀ k v, bindings !! k = Some v → no_char squote k = true ∧ occurs k l = 1%nat.
Lemma bound_all segs bindings : all_once bindings (contents segs) →
  bound segs bindings = (render bindings segs, ∅).
Proof.
  revert bindings. induction segs as [|s segs IH]; intros bindings Ho.
  - cbn. f_equal. apply map_empty. intros k. destruct (bindings !! k) as [v|] eqn:Hk; [|done].
    by apply Ho in Hk as [_ ?].
  - destruct s as [c|n|value]; cbn [bound render foldr]; fold (render bindings segs).
    1,2: by rewrite IH. unfold binding. cbn [render_segment].
    change (contents (Text value :: segs)) with (value :: contents segs) in Ho.
    destruct (bindings !! value) as [bytes|] eqn:Hb; cbn [from_option].
    + destruct (Ho _ _ Hb) as [Hq Hn]. rewrite Hq. unfold occurs in Hn. rewrite filter_cons_True in Hn by done.
      cbn [length] in Hn. assert (value ∉ contents segs) as Hv by (apply occurs_0; unfold occurs; lia).
      rewrite IH; [by rewrite render_delete|]. intros k v [Hne Hk]%lookup_delete_Some.
      destruct (Ho _ _ Hk) as [? Hn']. split; [done|]. unfold occurs in Hn'. by rewrite filter_cons_False in Hn'.
    + assert (all_once bindings (contents segs)) as Ha; [|by destruct (no_char squote value); rewrite IH].
      intros k v Hk. destruct (Ho _ _ Hk) as [? Hn].
      split; [done|]. unfold occurs in Hn. rewrite filter_cons_False in Hn; [done|]. intros ->. congruence.
Qed.
(** ** Placeholders *)
Lemma placeholder_inj i j : placeholder i = placeholder j → i = j.
Proof.
  unfold placeholder. intros H%(inj (String.append _)).
  assert (∀ a b, a +:+ "__" = b +:+ "__" → a = b) as Hs.
  { induction a as [|x a IH]; intros [|y b] E; [done| | |by injection E as -> ->%IH].
    all: apply (f_equal String.length) in E; cbn [String.append String.length] in E;
      rewrite length_append in E; cbn in E; lia. }
  apply Hs, (inj pretty) in H. lia.
Qed.
Lemma placeholder_is_like i : placeholder_like (placeholder i) = true.
Proof. apply starts_with_spec. by eexists. Qed.
Lemma placeholder_no_quote i : no_char squote (placeholder i) = true.
Proof.
  unfold placeholder. rewrite !no_char_app. split; [done|]. split; [|done].
  apply (all_chars_weaken is_ascii_digit).
  - intros c Hc. apply negb_true_iff, Ascii.eqb_neq. by intros ->.
  - unfold pretty, pretty_N. case_decide; [done|]. by apply pretty_go_digits.
Qed.
Lemma next_binary_placeholder_scan fuel user id :
  (∃ j, next_binary_placeholder fuel user id = Some (placeholder j, S j) ∧ (id ≤ j)%nat ∧ placeholder j ∉ user)
  ∨ (next_binary_placeholder fuel user id = None ∧
     ∀ j, (id ≤ j < id + fuel)%nat → placeholder j ∈ user).
Proof.
  revert id. induction fuel as [|fuel IH]; intros id; cbn [next_binary_placeholder]; [right; split; [done|lia]|].
  destruct (decide (placeholder id ∈ user)) as [Hin|Hout].
  - rewrite bool_decide_true by done. destruct (IH (S id)) as [(j & ? & ? & ?)|[HN Hall]].
    + left. exists j. split_and!; [done|lia|done].
    + right. split; [done|]. intros j Hj. destruct (decide (j = id)) as [->|]; [done|]. apply Hall. lia.
  - rewrite bool_decide_false by done. left. exists id. split_and!; [done|lia|done].
Qed.
(** The loop ends: among one more placeholder than there are strings, one is
    free. *)
Lemma next_binary_placeholder_fresh user id : ∃ j,
  next_binary_placeholder (S (length user)) user id = Some (placeholder j, S j) ∧ (id ≤ j)%nat ∧ placeholder j ∉ user.
Proof.
  destruct (next_binary_placeholder_scan (S (length user)) user id) as [?|[_ Hall]]; [done|exfalso].
  assert (length (placeholder <$> seq id (S (length user))) ≤ length user)%nat as Hle.
  { apply submseteq_length, NoDup_submseteq; [apply NoDup_fmap_2_strong, NoDup_seq|].
    - intros. by apply placeholder_inj.
    - intros x (j & -> & [??]%elem_of_seq)%list_elem_of_fmap. apply Hall. lia. }
  rewrite length_fmap, length_seq in Hle. lia.
Qed.
(** ** The rewriting *)
Lemma Expr_nested_ind (P : Expr → Prop) :
  (∀ v m, P (Literal v m)) →
  (∀ e items negated, P e → Forall P items → P (InList e items negated)) →
  (∀ e t, P e → P (Cast e t)) → (∀ e t, P e → P (TryCast e t)) →
  (∀ f args, Forall P args → P (ScalarFunction f args)) →
  (∀ k es, Forall P es → P (OtherExpr k es)) → ∀ e, P e.
Proof.
  intros HL HI HC HT HF HO. fix IH 1.
  intros []; [apply HL|apply HI; [apply IH|]|apply HC, IH|apply HT, IH|apply HF|apply HO].
  all: match goal with |- Forall _ ?es => induction es; constructor; [apply IH|assumption] end.
Qed.

Definition unlike (l : list string) : Prop := Forall (λ s, placeholder_like s = false) l.
(** From [st] to [st']: the binary values [bins] were bound, each to a
    placeholder of its own; the strings were [old] and are [new]. *)
Definition rewrites (user : list string) (st st' : Bindings) (old : list string) (bins : list (list Z))
    (new : list string) : Prop :=
  ∃ added typed, st'.2 = (st.2 ++ added)%list ∧ added.*2 = bins ∧ (st.1 ≤ st'.1)%nat ∧
    NoDup added.*1 ∧
    Forall (λ k, ∃ i, (st.1 ≤ i < st'.1)%nat ∧ k = placeholder i ∧ k ∉ user) added.*1 ∧
    new ≡ₚ (old ++ added.*1 ++ typed)%list ∧ unlike typed.
Lemma rewrites_typed user st old typed : unlike typed → rewrites user st st old [] (old ++ typed)%list.
Proof. intros Ht. exists [], typed. rewrite app_nil_r. split_and!; try done; constructor. Qed.
Lemma rewrites_same user st old : rewrites user st st old [] old.
Proof. rewrite <-(app_nil_r old) at 2. by apply rewrites_typed; constructor. Qed.
Lemma rewrites_app user st st' st'' old old' bins bins' new new' :
  rewrites user st st' old bins new → rewrites user st' st'' old' bins' new' →
  rewrites user st st'' (old ++ old')%list (bins ++ bins')%list (new ++ new')%list.
Proof.
  intros (a & t & H2 & <- & Hle & Hd & Hf & Hn & Ht) (a' & t' & H2' & <- & Hle' & Hd' & Hf' & Hn' & Ht').
  exists (a ++ a')%list, (t ++ t')%list. rewrite !fmap_app. split_and!.
  - by rewrite H2', H2, app_assoc.
  - done.
  - lia.
  - apply NoDup_app. split_and!; [done| |done]. rewrite Forall_forall in Hf, Hf'.
    intros k (i & Hi & -> & _)%Hf (j & Hj & E%placeholder_inj & _)%Hf'. lia.
  - apply Forall_app. split; eapply Forall_impl; try done.
    all: intros k (i & Hi & ?); exists i; (split; [lia|done]).
  - rewrite Hn, Hn'. solve_Permutation.
  - by apply Forall_app.
Qed.

Section rewriting.
Context {U : Unparser} {UL : UnparserLaws U}.
Definition rewrite_all (user : list string) : Bindings → list Expr → list Expr * Bindings :=
  fix rewrite_all (st : Bindings) (es : list Expr) : list Expr * Bindings :=
    match es with
    | [] => ([], st)
    | e :: es =>
        let '(e, st) := rewrite_literals user st e in
        let '(es, st) := rewrite_all st es in (e :: es, st)
    end.
Definition rewritten (user : list string) (e : Expr) : Prop := ∀ st,
  let '(e', st') := rewrite_literals user st e in
  rewrites user st st' (string_literals e) (binaries e) (string_literals e').

Lemma rewrite_literal_rewrites user st v m :
  let '(e', st') := rewrite_literal user st v m in
  rewrites user st st' (string_literals (Literal v m)) (binaries (Literal v m)) (string_literals e').
Proof.
  destruct v as [[v|]|[bytes|]|w [v|] p s|w [v|]|b| |t]; try apply rewrites_same; cbn [rewrite_literal].
  - destruct (next_binary_placeholder_fresh user st.1) as (j & -> & Hj & Hu). cbn.
    exists [(placeholder j, bytes)], []. cbn. split_and!; try done; [lia|by apply NoDup_singleton| |constructor].
    constructor; [|constructor]. exists j. split_and!; [lia..|done|done].
  - apply (rewrites_typed user st []). constructor; [apply printed_decimal|]. constructor; [apply printed_type|constructor].
  - destruct (non_finite v) as [text|] eqn:Hv; [|apply rewrites_same].
    apply (rewrites_typed user st []). constructor; [|constructor; [apply printed_type|constructor]].
    destruct v as [s|s| |s k e]; simplify_eq/=; [by destruct s|done].
Qed.
Lemma rewrite_all_rewrites user es : Forall (rewritten user) es → ∀ st,
  let '(es', st') := rewrite_all user st es in
  rewrites user st st' (concat (map string_literals es)) (concat (map binaries es)) (concat (map string_literals es')).
Proof.
  induction 1 as [|e es He _ IH]; intros st; [apply rewrites_same|]. cbn [rewrite_all].
  specialize (He st). destruct (rewrite_literals user st e) as [e' st'].
  specialize (IH st'). destruct (rewrite_all user st' es) as [es' st'']. cbn. by eapply rewrites_app.
Qed.
Lemma arrow_cast_rewrites user st st' old bins f e t : rewrites user st st' old bins (string_literals e) →
  rewrites user st st' old bins (string_literals (arrow_cast f e t)).
Proof.
  intros H. rewrite <-(app_nil_r old), <-(app_nil_r bins). cbn. eapply rewrites_app; [done|].
  apply (rewrites_typed user st' []). constructor; [apply printed_type|constructor].
Qed.
Lemma rewrite_literals_rewrites user e : rewritten user e.
Proof.
  induction e as [v m|e items negated He Hs|e t He|e t He|f args Hs|k es Hs] using Expr_nested_ind; intros st;
    cbn [rewrite_literals]; try fold (rewrite_all user).
  - apply rewrite_literal_rewrites.
  - specialize (He st). destruct (rewrite_literals user st e) as [e' st'].
    pose proof (rewrite_all_rewrites user items Hs st') as Ha.
    destruct (rewrite_all user st' items) as [items' st'']. cbn. by eapply rewrites_app.
  - specialize (He st). destruct (rewrite_literals user st e) as [e' st']. by apply arrow_cast_rewrites.
  - specialize (He st). destruct (rewrite_literals user st e) as [e' st']. by apply arrow_cast_rewrites.
  - pose proof (rewrite_all_rewrites user args Hs st) as Ha. by destruct (rewrite_all user st args).
  - pose proof (rewrite_all_rewrites user es Hs st) as Ha. by destruct (rewrite_all user st es).
Qed.
Lemma rewritten_bindings e e' id bindings :
  rewrite_literals (string_literals e) (0%nat, []) e = (e', (id, bindings)) → ∃ typed,
  bindings.*2 = binaries e ∧ NoDup bindings.*1 ∧ unlike typed ∧
  string_literals e' ≡ₚ (string_literals e ++ bindings.*1 ++ typed)%list ∧
  Forall (λ k, placeholder_like k = true ∧ no_char squote k = true ∧ k ∉ string_literals e) bindings.*1.
Proof.
  intros Hr. pose proof (rewrite_literals_rewrites (string_literals e) e (0%nat, [])) as H. rewrite Hr in H.
  destruct H as (added & typed & Ha & Hb & _ & Hd & Hf & Hp & Ht). cbn in Ha. subst added.
  exists typed. split_and!; try done. eapply Forall_impl; [done|]. intros k (i & _ & -> & ?).
  split_and!; [apply placeholder_is_like|apply placeholder_no_quote|done].
Qed.
Lemma bind_printed_once segs (bindings : list (string * list Z)) others :
  well_separated segs = true → NoDup bindings.*1 → Forall (λ k, no_char squote k = true) bindings.*1 →
  contents segs ≡ₚ (bindings.*1 ++ others)%list → Forall (λ s, s ∉ bindings.*1) others →
  bind_binary_literals (print segs) (list_to_map bindings) = Ok (render (list_to_map bindings) segs).
Proof.
  intros Hw Hd Hq Hc Ho. unfold bind_binary_literals. rewrite bind_printed by done. run_ok.
  rewrite bound_all; [done|]. intros k v Hk%elem_of_list_to_map_2.
  assert (k ∈ bindings.*1) as Hin by (by apply (list_elem_of_fmap_2 fst _ (k, v))).
  rewrite Forall_forall in Hq, Ho. split; [by apply Hq|]. rewrite (occurs_perm _ _ _ Hc), occurs_app.
  rewrite occurs_unique by done. rewrite occurs_none; [lia|]. by intros ?%Ho.
Qed.
End rewriting.

(** An identifier printed bare reads back as itself: it is a word of lower-case
    letters, digits and underscores, and none of the reserved ones but [id]. *)
Lemma identifier_left_bare `{Keywords} s : identifier_quote_style s = None ↔
  identifier_chars 0 s = true ∧ all_chars (λ c, negb (is_ascii_uppercase c)) s = true ∧
  (to_uppercase s ∈ ALL_KEYWORDS → to_uppercase s = "ID").
Proof.
  unfold identifier_quote_style.
  assert (existsb (String.eqb (to_uppercase s)) ALL_KEYWORDS = bool_decide (to_uppercase s ∈ ALL_KEYWORDS)) as ->.
  { apply eq_true_iff_eq. rewrite bool_decide_eq_true, existsb_exists, list_elem_of_In. split.
    - by intros (k & Hk & ->%String.eqb_eq).
    - intros Hk. exists (to_uppercase s). by rewrite String.eqb_refl. }
  destruct (String.eqb_spec (to_uppercase s) "ID"), (all_chars _ s), (identifier_chars 0 s);
    cbn; try case_bool_decide; cbn; naive_solver.
Qed.

(** * Properties *)

(** C28: binding replaces strings of printed SQL text and nothing else: it
    succeeds exactly on text that is a sequence of plain characters, quoted
    identifiers and strings in which every binding's placeholder is a string of
    its own, and what it then returns is that text with each of those strings
    replaced by its value in hexadecimal; on any other text, an unterminated
    quote or a placeholder that is missing, it returns an error, and it panics
    on none. *)
Theorem binding_fails_only_on_unbound_text sql bindings :
  bind_binary_literals sql bindings ≠ Panic ∧
  ∀ text, bind_binary_literals sql bindings = Ok text ↔
    ∃ segments, well_separated segments = true ∧ sql = print segments ∧
      bound segments bindings = (text, ∅).
Proof.
  unfold bind_binary_literals. split.
  - pose proof (bind_from_total _ sql bindings (le_n _)). destruct (bind_from _ _ _) as [o| |]; [|done|done].
    run_ok. by case_bool_decide.
  - intros text. split.
    + intros (o & Ho & H)%bind_Ok. destruct (bind_from_printed _ _ _ _ Ho) as (segs & Hw & ->).
      exists segs. split_and!; [done|done|]. rewrite bind_printed in Ho by done.
      assert (bound segs bindings = o) as -> by congruence.
      destruct o as [out left]. cbn [fst snd] in H. case_bool_decide; [|done]. congruence.
    + intros (segs & Hw & -> & Hb). rewrite bind_printed by done. run_ok. rewrite Hb. cbn [fst snd].
      by rewrite bool_decide_true.
Qed.

Section properties.
Context {U : Unparser} {UL : UnparserLaws U}.

(** binary literals survive the printing of an expression: whenever the
    unparser prints the rewritten expression, the text of the expression is that
    print with every binary value, in hexadecimal, in place of a placeholder of
    its own, printed once, and with every other string, the user's among them
    whatever they look like, as it was printed. *)
Theorem binary_literals_survive e sql :
  let simplified := without_empty_lists e in
  let '(rewritten, (_, bindings)) := rewrite_literals (string_literals simplified) (0%nat, []) simplified in
  expr_to_sql rewritten = Ok sql → ∃ segments others,
    well_separated segments = true ∧ sql = print segments ∧
    expr_to_sql_string e = Ok (render (list_to_map bindings) segments) ∧
    bindings.*2 = binaries simplified ∧ NoDup bindings.*1 ∧
    contents segments ≡ₚ (bindings.*1 ++ others)%list ∧
    string_literals simplified ⊆ others ∧
    Forall (λ s, (list_to_map bindings : gmap string (list Z)) !! s = None) others.
Proof.
  intros simplified. destruct (rewrite_literals _ _ _) as [rewritten [id bindings]] eqn:Hr. intros Hs.
  destruct (rewritten_bindings _ _ _ _ Hr) as (typed & Hv & Hd & Ht & Hl & Hk).
  destruct (printed_literals _ _ Hs) as (segs & quoted & Hw & -> & Hc & Hq).
  rewrite Forall_forall in Hk. unfold unlike in Ht. rewrite Forall_forall in Ht, Hq.
  set (others := (string_literals simplified ++ typed ++ quoted)%list).
  assert (Forall (λ s, s ∉ bindings.*1) others) as Ho.
  { apply Forall_forall. intros s Hin Hb. destruct (Hk _ Hb) as (Hlike & _ & Hnot).
    apply elem_of_app in Hin as [Hin|[Hin%Ht|Hin%Hq]%elem_of_app]; congruence || done. }
  assert (contents segs ≡ₚ (bindings.*1 ++ others)%list) as Hp by (rewrite Hc, Hl; unfold others; solve_Permutation).
  exists segs, others. split_and!; try done.
  - unfold expr_to_sql_string. fold simplified. rewrite Hr. unfold run_unparser. rewrite Hs. cbn [map_err]. run_ok.
    assert (bind_binary_literals (print segs) (list_to_map bindings) = Ok (render (list_to_map bindings) segs)) as Hb.
    { apply (bind_printed_once _ _ others); try done. apply Forall_forall. by intros k (_ & ? & _)%Hk. }
    destruct bindings as [|b bindings]; [|done]. cbn [list_to_map]. by rewrite render_empty.
  - unfold others. intros s Hin. apply elem_of_app. by left.
  - eapply Forall_impl; [done|]. intros s Hin. by apply not_elem_of_list_to_map_1.
Qed.
End properties.

(** ** An unparser that prints the string literals of an expression, each
    followed by a comma *)
Module Demo.
Definition segments_of (l : list string) : list Segment := flat_map (λ v, [Text v; Plain ","%char]) l.
Definition unparser : Unparser := {|
  expr_to_sql e := Ok (print (segments_of (string_literals e)));
  format_decimal _ v _ _ := pretty v;
  type_to_string t := match t with DecimalType _ _ _ => "Decimal" | FloatType _ => "Float" | OtherType _ => "Other" end
|}.
Lemma segments_of_ok l : well_separated (segments_of l) = true ∧ contents (segments_of l) = l.
Proof.
  induction l as [|v l [Hw Hc]]; [done|]. split; [|exact (f_equal (cons v) Hc)].
  cbn [segments_of flat_map app well_separated]. fold (segments_of l). rewrite Hw. by destruct l.
Qed.
Lemma pretty_unlike v : placeholder_like (pretty (v : Z)) = false.
Proof.
  destruct (placeholder_like (pretty v)) eqn:H; [|done]. apply starts_with_spec in H as [r H].
  destruct v as [|p|p]; [done| |done].
  assert (all_chars is_ascii_digit (pretty (N.pos p)) = true) as Hd by (by apply pretty_go_digits).
  change (pretty (Z.pos p)) with (pretty (N.pos p)) in H. by rewrite H in Hd.
Qed.
Lemma laws : UnparserLaws unparser.
Proof.
  split; [|by intros []|intros w v p s; apply pretty_unlike].
  intros e sql [= <-]. exists (segments_of (string_literals e)), [].
  destruct (segments_of_ok (string_literals e)) as [? ->]. rewrite app_nil_r. by split_and!.
Qed.
(** A string of the user looks like the first placeholder. *)
Definition expression : Expr :=
  InList (Literal (Binary (Some [255; 10]%Z)) None) [Literal (Utf8 (Some (placeholder 0))) None] false.
Definition printed : string :=
  print (segments_of [placeholder 1; placeholder 0]).
End Demo.

Lemma binary_literals_survive_witness : ∃ segments others,
  well_separated segments = true ∧ Demo.printed = print segments ∧
  @expr_to_sql_string Demo.unparser Demo.expression
    = Ok (render (list_to_map [(placeholder 1, [255; 10]%Z)]) segments) ∧
  contents segments ≡ₚ (placeholder 1 :: others)%list ∧ [placeholder 0] ⊆ others.
Proof.
  destruct (@binary_literals_survive Demo.unparser Demo.laws Demo.expression Demo.printed)
    as (segs & others & Hw & Hp & He & _ & _ & Hc & Hin & _); [by vm_compute|].
  exists segs, others. split_and!; [exact Hw|exact Hp|exact He|exact Hc|exact Hin].
Defined.
Example expr_text :
  @expr_to_sql_string Demo.unparser Demo.expression = Ok ("X'FF0A','" +:+ placeholder 0 +:+ "',").
Proof. by vm_compute. Qed.
Example missing_placeholder : bind_binary_literals "a = `it's`" {["p" := [1]%Z]} =
  Err (InvalidInput "failed to bind binary literal while serializing expression").
Proof. by vm_compute. Qed.
End SqlText.
