(* ===== verification/MergeBuilder.v ===== *)
(** * Merge inserts: the builder and its checks (table/merge.rs)

    What a merge insert was asked to do, its filters respelled for Lance, and
    the check that every field of the source has a place in the table.  The
    table handle the builder carries is passed beside it. *)

From Stdlib Require Import Ascii String.
From stdpp Require Import strings gmap.
From S2P Require Import Prelude RustStr Schema ComputedColumns ViewQuery SqlText.

Module MergeBuilder.
Import Schema.
Import SqlText (PredicateTokenizer, canonicalize_sql_predicate).
Import ComputedColumns (Planner, is_blob_v2).
Local Open Scope string_scope.

(** ** The builder *)
Record MergeResult : Type := mkMergeResult {
  version : Z;
  num_inserted_rows : Z;
  num_updated_rows : Z;
  num_deleted_rows : Z;
  num_attempts : Z;
  num_rows : Z
}.
Inductive MergeFilter : Type := Sql (predicate : string) | Expr (e : SqlText.Expr).
(** Durations are milliseconds. *)
Record MergeInsertBuilder : Type := mkBuilder {
  on : list string;
  update_all : bool;
  update_all_filt : option MergeFilter;
  insert_all : bool;
  by_source_delete : bool;
  by_source_delete_filt : option MergeFilter;
  timeout : option Z;
  use_index : bool;
  use_memwal : option bool;
  validate_single_shard : bool
}.
Definition new (on : list string) : MergeInsertBuilder :=
  mkBuilder on false None false false None None true None true.
Definition when_matched_update_all (b : MergeInsertBuilder) (condition : option string) : MergeInsertBuilder :=
  mkBuilder (on b) true (Sql <$> condition) (insert_all b) (by_source_delete b) (by_source_delete_filt b)
    (timeout b) (use_index b) (use_memwal b) (validate_single_shard b).
Definition when_matched_update_all_expr (b : MergeInsertBuilder) (condition : SqlText.Expr) : MergeInsertBuilder :=
  mkBuilder (on b) true (Some (Expr condition)) (insert_all b) (by_source_delete b) (by_source_delete_filt b)
    (timeout b) (use_index b) (use_memwal b) (validate_single_shard b).
Definition when_not_matched_insert_all (b : MergeInsertBuilder) : MergeInsertBuilder :=
  mkBuilder (on b) (update_all b) (update_all_filt b) true (by_source_delete b) (by_source_delete_filt b)
    (timeout b) (use_index b) (use_memwal b) (validate_single_shard b).
Definition when_not_matched_by_source_delete (b : MergeInsertBuilder) (filter : option string)
    : MergeInsertBuilder :=
  mkBuilder (on b) (update_all b) (update_all_filt b) (insert_all b) true (Sql <$> filter)
    (timeout b) (use_index b) (use_memwal b) (validate_single_shard b).
Definition when_not_matched_by_source_delete_expr (b : MergeInsertBuilder) (filter : SqlText.Expr)
    : MergeInsertBuilder :=
  mkBuilder (on b) (update_all b) (update_all_filt b) (insert_all b) true (Some (Expr filter))
    (timeout b) (use_index b) (use_memwal b) (validate_single_shard b).
Definition set_timeout (b : MergeInsertBuilder) (t : Z) : MergeInsertBuilder :=
  mkBuilder (on b) (update_all b) (update_all_filt b) (insert_all b) (by_source_delete b)
    (by_source_delete_filt b) (Some t) (use_index b) (use_memwal b) (validate_single_shard b).
Definition set_use_index (b : MergeInsertBuilder) (enable : bool) : MergeInsertBuilder :=
  mkBuilder (on b) (update_all b) (update_all_filt b) (insert_all b) (by_source_delete b)
    (by_source_delete_filt b) (timeout b) enable (use_memwal b) (validate_single_shard b).
Definition set_use_memwal (b : MergeInsertBuilder) (enable : bool) : MergeInsertBuilder :=
  mkBuilder (on b) (update_all b) (update_all_filt b) (insert_all b) (by_source_delete b)
    (by_source_delete_filt b) (timeout b) (use_index b) (Some enable) (validate_single_shard b).
Definition set_validate_single_shard (b : MergeInsertBuilder) (validate : bool) : MergeInsertBuilder :=
  mkBuilder (on b) (update_all b) (update_all_filt b) (insert_all b) (by_source_delete b)
    (by_source_delete_filt b) (timeout b) (use_index b) (use_memwal b) validate.

(** ** Filters *)
Definition canonicalize_merge_filter `{PredicateTokenizer} (filter : option MergeFilter)
    : result (option MergeFilter) :=
  match filter with
  | None => Ok None
  | Some (Sql predicate) => p ← canonicalize_sql_predicate predicate; Ok (Some (Sql p))
  | Some (Expr e) => Ok (Some (Expr e))
  end.
Definition canonicalize_filters `{PredicateTokenizer} (b : MergeInsertBuilder) : result MergeInsertBuilder :=
  matched ← canonicalize_merge_filter (update_all_filt b);
  deleted ← canonicalize_merge_filter (by_source_delete_filt b);
  Ok (mkBuilder (on b) (update_all b) matched (insert_all b) (by_source_delete b) deleted
        (timeout b) (use_index b) (use_memwal b) (validate_single_shard b)).

(** ** Fields of the source *)
Section fields.
Context {P : Planner}.

Fixpoint field_tree_has_blob_v2 (f : Field) : bool :=
  is_blob_v2 f ||
  let 'mkField _ t _ _ := f in
  match t with
  | TStruct children => existsb field_tree_has_blob_v2 children
  | TList child | TLargeList child | TFixedSizeList child _ => field_tree_has_blob_v2 child
  | _ => false
  end.
Definition has_blob_columns (schema : ArrowSchema) : bool := existsb field_tree_has_blob_v2 (fields schema).

(** The target below its dictionaries.  Neither side's dictionaries matter to
    the check, and the source's are removed first. *)
Fixpoint undictionary (t : DataType) : DataType :=
  match t with TDictionary _ value => undictionary value | t => t end.
Definition collection_item (t : DataType) : option Field :=
  match t with
  | TList f | TLargeList f | TFixedSizeList f _ | TListView f | TLargeListView f => Some f
  | _ => None
  end.
Definition map_entries (t : DataType) : option Field := match t with TMap f _ => Some f | _ => None end.

(** One level of the source: [validate] is the check of a field's type. *)
Definition validate_fields_with (validate : DataType → DataType → string → result unit)
    (target : list Field) (parent : string) : list string → list Field → result unit :=
  fix go names input :=
    match input with
    | [] => Ok tt
    | mkField name t _ _ :: input =>
        let path := if is_empty parent then name else parent +:+ "." +:+ name in
        if existsb (String.eqb name) names
        then Err (InvalidInput ("merge source field '" +:+ path +:+ "' is specified more than once"))
        else
          target_field ← ok_or (InvalidInput ("merge source field '" +:+ path +:+ "' is not present in the table schema"))
                           (List.find (λ candidate, String.eqb (field_name candidate) name) target);
          _ ← (if is_blob_v2 target_field then Ok tt else validate t (field_type target_field) path);
          go (name :: names) input
    end.
Fixpoint validate_merge_source_type (input target : DataType) (path : string) {struct input} : result unit :=
  let item (f : Field) (target : option Field) : result unit :=
    match target with
    | None => Ok tt
    | Some target =>
        if is_blob_v2 target then Ok tt
        else let 'mkField _ t _ _ := f in validate_merge_source_type t (field_type target) path
    end in
  match input with
  | TDictionary _ input => validate_merge_source_type input target path
  | TStruct input =>
      match undictionary target with
      | TStruct target => validate_fields_with validate_merge_source_type target path [] input
      | _ => Ok tt
      end
  | TList f | TLargeList f | TFixedSizeList f _ | TListView f | TLargeListView f =>
      item f (collection_item (undictionary target))
  | TMap f _ => item f (map_entries (undictionary target))
  | _ => Ok tt
  end.
Definition validate_merge_source_fields (input target : list Field) (parent : string) : result unit :=
  validate_fields_with validate_merge_source_type target parent [] input.

(** * Lemmas *)

(** Nothing the source holds is erased when the table's fields are picked from
    it: at every level of structs its names are distinct and all found, and
    each is a blob of the table or has itself been checked. *)
Lemma validate_fields_with_spec validate target parent names input :
  validate_fields_with validate target parent names input = Ok tt ↔
  NoDup (map field_name input) ∧ Forall (λ f, field_name f ∉ names) input ∧
  Forall (λ f, ∃ t, List.find (λ c, String.eqb (field_name c) (field_name f)) target = Some t ∧
    (is_blob_v2 t = true ∨
     validate (field_type f) (field_type t)
       (if is_empty parent then field_name f else parent +:+ "." +:+ field_name f) = Ok tt)) input.
Proof.
  revert names. induction input as [|[name t nu md] input IH]; intros names; cbn [validate_fields_with].
  { split; [|done]. intros _. split_and!; constructor. }
  rewrite map_cons, !Forall_cons, NoDup_cons. cbn [field_name field_type].
  assert (existsb (String.eqb name) names = bool_decide (name ∈ names)) as ->.
  { apply eq_true_iff_eq. rewrite bool_decide_eq_true, existsb_exists, list_elem_of_In. split.
    - by intros (k & Hk & ->%String.eqb_eq).
    - intros Hk. exists name. by rewrite String.eqb_refl. }
  case_bool_decide as Hin; [by split; [|intros (_ & [? _] & _)]|].
  destruct (List.find _ target) as [target_field|]; cbn [ok_or]; run_ok;
    [|by split; [|intros (_ & _ & [(u & ? & _) _])]].
  assert (∀ l, Forall (λ f, field_name f ∉ name :: names) l ↔ name ∉ map field_name l ∧
    Forall (λ f, field_name f ∉ names) l) as Hnames.
  { induction l as [|f l IHl]; [split; [split; [apply not_elem_of_nil|constructor]|constructor]|].
    rewrite map_cons, !Forall_cons, IHl. set_solver. }
  specialize (IH (name :: names)). rewrite Hnames in IH. clear Hnames.
  match goal with |- context [∃ u, Some target_field = Some u ∧ @?Q u] =>
    assert ((∃ u, Some target_field = Some u ∧ Q u) ↔ Q target_field) as Hex; [|rewrite Hex; clear Hex] end.
  { split; [by intros (u & [= ->] & ?)|by eexists]. }
  cbn beta. destruct (is_blob_v2 target_field); run_ok; [rewrite IH; tauto|].
  destruct (validate _ _ _) as [[]| |]; run_ok; [rewrite IH; tauto|by split; [|intros (_ & _ & [[?|?] _])]..].
Qed.
End fields.
End MergeBuilder.
