(* ===== verification/MemWal.v ===== *)
(** * The MemWAL write path (table/merge/lsm.rs, table/primary_key.rs, table.rs)

    A table with a MemWAL write spec sends its upserts to a shard writer
    instead of rewriting fragments.  Here: installing, removing and reading
    back a spec, whether a merge insert takes that path, the shard its rows
    route to, and the batches and configuration it hands to the writer.  The
    writers themselves are in ShardWriter.v.  Lance's dataset, its MemWAL
    index, its evaluation of sharding specs and [Uuid::new_v5] are
    parameters. *)

From Stdlib Require Import Ascii String.
From stdpp Require Import strings gmap pretty sorting.
From S2P Require Import Prelude RustStr RustText Schema ComputedColumns ViewQuery ViewPlan View MergeBuilder.

Module MemWal.
Import Schema.
Import ComputedColumns (Planner, computed_columns, parse_u32, str_le, str_le_dec).
Import ViewQuery (SqlParser).
Import ViewPlan (JsonCodec, read_definition).
Import MergeBuilder (MergeInsertBuilder, MergeResult, mkMergeResult).
Local Open Scope string_scope.

(** ** Write specs (table.rs) *)
Inductive MemWalWriteSpec : Type :=
  | Bucket (column : string) (num_buckets : Z) (maintained : option (list string)) (defaults : gmap string string)
  | Identity (column : string) (maintained : option (list string)) (defaults : gmap string string)
  | Unsharded (maintained : option (list string)) (defaults : gmap string string).
Definition bucket (column : string) (num_buckets : Z) : MemWalWriteSpec := Bucket column num_buckets None ∅.
Definition identity (column : string) : MemWalWriteSpec := Identity column None ∅.
Definition unsharded : MemWalWriteSpec := Unsharded None ∅.
Definition with_maintained_indexes (spec : MemWalWriteSpec) (indexes : option (list string)) : MemWalWriteSpec :=
  match spec with
  | Bucket column n _ d => Bucket column n indexes d
  | Identity column _ d => Identity column indexes d
  | Unsharded _ d => Unsharded indexes d
  end.
(** A key that comes twice has its last value. *)
Definition with_writer_config_defaults (spec : MemWalWriteSpec) (defaults : list (string * string))
    : MemWalWriteSpec :=
  let m := foldl (λ m kv, <[kv.1 := kv.2]> m) ∅ defaults in
  match spec with
  | Bucket column n i _ => Bucket column n i m
  | Identity column i _ => Identity column i m
  | Unsharded i _ => Unsharded i m
  end.
Definition maintained_indexes (spec : MemWalWriteSpec) : option (list string) :=
  match spec with Bucket _ _ i _ | Identity _ i _ | Unsharded i _ => i end.
Definition writer_config_defaults (spec : MemWalWriteSpec) : gmap string string :=
  match spec with Bucket _ _ _ d | Identity _ _ d | Unsharded _ d => d end.

(** ** Lance's records, with the fields the code reads *)
Record ShardingField : Type := mkShardingField {
  source_ids : list Z;
  transform : option string;
  parameters : gmap string string
}.
Record ShardingSpec : Type := mkShardingSpec { spec_fields : list ShardingField }.
Record CompactedSsTable : Type := mkCompacted { compacted_shard : Z; compacted_generation : Z }.
(** [caught_up]: by shard *)
Record IndexCatchup : Type := mkCatchup { catchup_index : string; caught_up : gmap Z Z }.
Record MemWalIndexDetails : Type := mkDetails {
  sharding_specs : list ShardingSpec;
  maintain_all_indexes : bool;
  details_maintained : list string;
  details_defaults : gmap string string;
  compacted_sstables : list CompactedSsTable;
  index_catchup : list IndexCatchup
}.
Record LanceField : Type := mkLanceField { lance_id : Z; lance_field : Field }.

(** What [initialize_mem_wal] is asked for *)
Inductive Sharding : Type :=
  | BucketSharding (column : string) (num_buckets : Z)
  | IdentitySharding (column : string)
  | NoSharding.
Record InitializeMemWal : Type := mkInitialize {
  init_sharding : option Sharding;
  init_maintained : option (list string);
  init_defaults : gmap string string
}.

Class Lance : Type := {
  Dataset : Type;
  LanceSchema : Type;
  schema_of : Dataset → LanceSchema;
  arrow_schema : LanceSchema → ArrowSchema;
  field_of : LanceSchema → string → option LanceField;
  field_by_id : LanceSchema → Z → option LanceField;
  unenforced_primary_key : LanceSchema → list string;
  mem_wal_index_details : Dataset → result (option MemWalIndexDetails);
  validate_maintained_indexes_with : Dataset → list string → result unit;
  execute_initialize : Dataset → InitializeMemWal → result Dataset;
  MEM_WAL_INDEX_NAME : string;
  drop_index : Dataset → string → result Dataset;
  LANCE_UNENFORCED_PRIMARY_KEY : string;
  LANCE_UNENFORCED_PRIMARY_KEY_POSITION : string;
  replace_field_metadata : Dataset → list (Z * gmap string string) → result Dataset
}.

Definition SHARDING_SPEC_ID : Z := 1.
Definition BUCKET_TRANSFORM : string := "bucket".
Definition IDENTITY_TRANSFORM : string := "identity".
Definition UNSHARDED_TRANSFORM : string := "unsharded".
Definition NUM_BUCKETS_PARAM : string := "num_buckets".
Definition SHARD_NAMESPACE : Z := 0x4c534d57524954455f53484152443031%Z.

Section memwal.
Context {P : Planner} {Sql : SqlParser} {J : JsonCodec} {L : Lance}.

(** A table: what [dataset.get] returns now, what it returns after
    [checkout_latest], and the names of its indexes. *)
Record NativeTable : Type := mkTable {
  mutable : result unit;
  current : result Dataset;
  latest : result Dataset;
  list_indices : result (list string)
}.

(** ** Installing a spec *)
Definition str_sorted (l : list string) : list string := merge_sort str_le l.
Definition index_name_list (indices : list string) : string :=
  if bool_decide (indices = []) then "no indexes"
  else "[" +:+ String.concat ", " (str_sorted indices) +:+ "]".
Definition requested_indexes (table : NativeTable) (requested : list string) : result unit :=
  indices ← list_indices table;
  match List.find (λ name, negb (existsb (String.eqb name) indices)) requested with
  | Some name =>
      Err (InvalidInput ("maintained index '" +:+ name +:+ "' does not exist on this table; it has "
                          +:+ index_name_list indices))
  | None => dataset ← current table; validate_maintained_indexes_with dataset requested
  end.
Definition new_initialize : InitializeMemWal := mkInitialize None None ∅.
Definition with_sharding (b : InitializeMemWal) (spec : MemWalWriteSpec) : InitializeMemWal :=
  let sharding := match spec with
                  | Bucket column n _ _ => BucketSharding column n
                  | Identity column _ _ => IdentitySharding column
                  | Unsharded _ _ => NoSharding
                  end in
  mkInitialize (Some sharding) (init_maintained b) (init_defaults b).
Definition with_maintained (b : InitializeMemWal) (maintained : option (list string)) : InitializeMemWal :=
  match maintained with
  | Some _ => mkInitialize (init_sharding b) maintained (init_defaults b)
  | None => b
  end.
Definition add_writer_config_default (b : InitializeMemWal) (key value : string) : InitializeMemWal :=
  mkInitialize (init_sharding b) (init_maintained b) (<[key := value]> (init_defaults b)).
Definition initialize (spec : MemWalWriteSpec) (maintained : option (list string)) : InitializeMemWal :=
  map_fold (λ k v b, add_writer_config_default b k v)
    (with_maintained (with_sharding new_initialize spec) maintained) (writer_config_defaults spec).
Definition ensure_memwal_schema (schema : LanceSchema) : result unit :=
  if negb (bool_decide (computed_columns (arrow_schema schema) = []))
  then Err (NotSupported "a MemWAL write spec cannot be installed on a table with computed columns: rows in un-compacted tiers are invisible to refresh")
  else
    definition ← read_definition (schema_metadata (arrow_schema schema));
    match definition with
    | Some _ => Err (NotSupported "a MemWAL write spec cannot be installed on a materialized view: rows in un-compacted tiers are invisible to refresh")
    | None =>
        if bool_decide (unenforced_primary_key schema = [])
        then Err (InvalidInput "a MemWAL write spec requires the table to declare an unenforced primary key; set one with set_unenforced_primary_key first")
        else Ok tt
    end.
Definition enable_memwal (table : NativeTable) (spec : MemWalWriteSpec) : result Dataset :=
  _ ← mutable table;
  dataset ← current table;
  installed ← mem_wal_index_details dataset;
  match installed with
  | Some _ => Err (InvalidInput "enable_memwal: a MemWAL write spec is already set on this table and cannot be changed")
  | None =>
      _ ← (match maintained_indexes spec with Some requested => requested_indexes table requested | None => Ok tt end);
      dataset ← latest table;
      _ ← ensure_memwal_schema (schema_of dataset);
      execute_initialize dataset (initialize spec (maintained_indexes spec))
  end.

(** ** Reading a spec back *)
Definition get_memwal_error (what : string) : Error := Runtime ("get_memwal_spec: " +:+ what).
Definition sharding_column (field : ShardingField) (schema : LanceSchema) : result string :=
  source_id ← ok_or (get_memwal_error "sharding field has no source column") (head (source_ids field));
  f ← ok_or (get_memwal_error "sharding source field id {} not found in schema") (field_by_id schema source_id);
  Ok (field_name (lance_field f)).
Definition positive_buckets (field : ShardingField) : option Z :=
  n ← parameters field !! NUM_BUCKETS_PARAM ≫= parse_u32;
  if (0 <? n)%Z then Some n else None.
Definition first_sharding (error : string → Error) (details : MemWalIndexDetails)
    : result (ShardingSpec * ShardingField) :=
  spec ← ok_or (error "MemWAL index has no sharding spec") (head (sharding_specs details));
  field ← ok_or (error "MemWAL index has an empty sharding spec") (head (spec_fields spec));
  Ok (spec, field).
Definition memwal_spec_from_details (details : MemWalIndexDetails) (schema : LanceSchema)
    : result MemWalWriteSpec :=
  first ← first_sharding get_memwal_error details;
  let field := first.2 in
  base ← (match transform field with
          | Some t =>
              if String.eqb t BUCKET_TRANSFORM then
                num_buckets ← ok_or (get_memwal_error "MemWAL bucket spec has a missing or invalid num_buckets parameter")
                                (positive_buckets field);
                column ← sharding_column field schema;
                Ok (bucket column num_buckets)
              else if String.eqb t IDENTITY_TRANSFORM then
                column ← sharding_column field schema; Ok (identity column)
              else if String.eqb t UNSHARDED_TRANSFORM then Ok unsharded
              else Err (get_memwal_error "MemWAL index has an unsupported sharding transform {:?}")
          | None => Err (get_memwal_error "MemWAL index has an unsupported sharding transform {:?}")
          end);
  Ok (with_writer_config_defaults
        (with_maintained_indexes base
           (if maintain_all_indexes details then None else Some (details_maintained details)))
        (map_to_list (details_defaults details))).
Definition get_memwal_spec (dataset : Dataset) : result (option MemWalWriteSpec) :=
  details ← mem_wal_index_details dataset;
  match details with
  | None => Ok None
  | Some details => spec ← memwal_spec_from_details details (schema_of dataset); Ok (Some spec)
  end.

(** ** Removing a spec: the dataset without it; the cached writer is drained
    between the check and the removal. *)
Definition disable_check (table : NativeTable) : result unit :=
  _ ← mutable table;
  dataset ← current table;
  details ← mem_wal_index_details dataset;
  match details with
  | None => Err (InvalidInput "disable_memwal: no MemWAL write spec is set on this table")
  | Some _ => Ok tt
  end.
Definition disable_drop (table : NativeTable) : result Dataset :=
  dataset ← current table; drop_index dataset MEM_WAL_INDEX_NAME.

(** ** Whether a merge insert takes the MemWAL path *)
Inductive LsmMode : Type := BucketMode (spec : ShardingSpec) | IdentityMode (spec : ShardingSpec) | UnshardedMode.
Record LsmPlan : Type := mkPlan { mode : LsmMode; plan_defaults : gmap string string }.
Inductive LsmDispatch : Type := Standard | Lsm (plan : LsmPlan).

Definition merge_error (what : string) : Error := Runtime ("merge_insert: " +:+ what).
Definition is_none {A} (o : option A) : bool := match o with None => true | Some _ => false end.
Definition is_upsert_only (params : MergeInsertBuilder) : bool :=
  MergeBuilder.update_all params
  && is_none (MergeBuilder.update_all_filt params)
  && MergeBuilder.insert_all params
  && negb (MergeBuilder.by_source_delete params)
  && is_none (MergeBuilder.by_source_delete_filt params).
Definition resolve_lsm_mode (details : MemWalIndexDetails) : result LsmMode :=
  first ← first_sharding merge_error details;
  let '(spec, field) := first in
  match transform field with
  | Some t =>
      if String.eqb t BUCKET_TRANSFORM then
        _ ← ok_or (merge_error "MemWAL bucket spec has a missing or invalid num_buckets parameter")
              (positive_buckets field);
        Ok (BucketMode spec)
      else if String.eqb t IDENTITY_TRANSFORM then Ok (IdentityMode spec)
      else if String.eqb t UNSHARDED_TRANSFORM then Ok UnshardedMode
      else Err (merge_error "MemWAL index has an unsupported sharding transform {:?}")
  | None => Err (merge_error "MemWAL index has an unsupported sharding transform {:?}")
  end.
Definition lsm_dispatch_decision (dataset : result Dataset) (params : MergeInsertBuilder) : result LsmDispatch :=
  if bool_decide (MergeBuilder.use_memwal params = Some false) then Ok Standard
  else
    dataset ← dataset;
    details ← mem_wal_index_details dataset;
    match details with
    | None =>
        if bool_decide (MergeBuilder.use_memwal params = Some true)
        then Err (InvalidInput "use_memwal(true) was set but the table has no MemWAL write spec; install one with enable_memwal or leave use_memwal unset")
        else Ok Standard
    | Some details =>
        let pk_cols := unenforced_primary_key (schema_of dataset) in
        if bool_decide (pk_cols = [])
        then Err (merge_error "table has a MemWAL index but no unenforced primary key")
        else if negb (bool_decide (MergeBuilder.on params = [])) && negb (bool_decide (MergeBuilder.on params = pk_cols))
        then Err (InvalidInput "merge_insert: `on` columns {:?} must match the table's unenforced primary key {:?} when a MemWAL write spec is set; pass an empty `on` to default to the primary key")
        else if negb (is_upsert_only params)
        then Err (InvalidInput "merge_insert: when a MemWAL write spec is set, only the upsert form (when_matched_update_all without a filter + when_not_matched_insert_all, no by-source delete) is supported; call use_memwal(false) to use the standard merge_insert path")
        else mode ← resolve_lsm_mode details; Ok (Lsm (mkPlan mode (details_defaults details)))
    end.

(** ** The primary key (table/primary_key.rs) *)
Definition is_supported_pk_dtype (t : DataType) : bool :=
  match t with
  | TLargeBinary => true
  | TOther name =>
      existsb (String.eqb name) ["Int32"; "Int64"; "Utf8"; "LargeUtf8"; "Binary"]
      || starts_with "FixedSizeBinary" name
  | _ => false
  end.
Definition pk_error (what : string) : Error := InvalidInput ("set_unenforced_primary_key: " +:+ what).
Definition validate (schema : LanceSchema) (columns : list string) : result LanceField :=
  match columns with
  | [] => Err (pk_error "a column is required")
  | [column] =>
      if negb (bool_decide (unenforced_primary_key schema = []))
      then Err (pk_error "an unenforced primary key is already set on this table; changing it is not supported")
      else
        field ← ok_or (pk_error ("column '" +:+ column +:+ "' not found on table")) (field_of schema column);
        if is_supported_pk_dtype (field_type (lance_field field)) then Ok field
        else Err (pk_error ("column '" +:+ column +:+ "' has dtype {:?} which is not supported as a primary key. Supported: Int32, Int64, Utf8, LargeUtf8, Binary, LargeBinary, FixedSizeBinary"))
  | _ => Err (pk_error "compound primary keys are not supported, got {} columns")
  end.
Definition install_edit : list (string * option string) :=
  [(LANCE_UNENFORCED_PRIMARY_KEY, None); (LANCE_UNENFORCED_PRIMARY_KEY_POSITION, Some "1")].
Definition apply_edit (edit : list (string * option string)) (metadata : gmap string string) : gmap string string :=
  foldl (λ m e, match e.2 with Some v => <[e.1 := v]> m | None => delete e.1 m end) metadata edit.
Definition field_id_to_u32 (id : Z) (name : string) : result Z :=
  if (0 <=? id)%Z then Ok id
  else Err (Runtime ("internal: field '" +:+ name +:+ "' has unexpected negative field id {}")).
Definition set_unenforced_primary_key (table : NativeTable) (columns : list string) : result Dataset :=
  _ ← mutable table;
  dataset ← current table;
  field ← validate (schema_of dataset) columns;
  let metadata := apply_edit install_edit (field_metadata (lance_field field)) in
  id ← field_id_to_u32 (lance_id field) (field_name (lance_field field));
  replace_field_metadata dataset [(id, metadata)].
End memwal.

(** ** Batches *)
Inductive Value : Type := VInt (z : Z) | VStr (s : string) | VBool (b : bool) | VOther (s : string).
Record Array : Type := mkArray { data_type : DataType; values : list (option Value) }.
Record RecordBatch : Type := mkBatch { schema : ArrowSchema; columns : list Array; num_rows : nat }.
Definition column_by_name (batch : RecordBatch) (name : string) : option Array :=
  snd <$> List.find (λ e, String.eqb (field_name e.1) name) (zip (fields (schema batch)) (columns batch)).
Definition slice_array (offset n : nat) (a : Array) : Array :=
  mkArray (data_type a) (take n (drop offset (values a))).
Definition slice (batch : RecordBatch) (offset n : nat) : RecordBatch :=
  mkBatch (schema batch) (map (slice_array offset n) (columns batch)) n.

(** ** The writer's configuration; durations are milliseconds. *)
Record ShardWriterConfig : Type := mkConfig {
  shard_spec_id : Z;
  durable_write : bool;
  max_wal_buffer_size : Z;
  max_memtable_size : Z;
  max_memtable_rows : Z;
  max_memtable_batches : Z;
  manifest_scan_batch_size : Z;
  max_unflushed_memtable_bytes : Z;
  backpressure_log_interval : Z;
  enable_memtable : bool;
  max_wal_flush_interval : Z;
  stats_log_interval : option Z
}.

Class Kernels `{Lance} : Type := {
  try_new : ArrowSchema → list Array → outcome string RecordBatch;
  evaluate_sharding_spec : RecordBatch → ShardingSpec → LanceSchema → result RecordBatch;
  value_i32 : Array → nat → Z;
  new_v5 : Z → string → Z;
  default_config : ShardWriterConfig
}.

(** [z.to_le_bytes()] at a width of [n] bytes *)
Fixpoint le_bytes (n : nat) (z : Z) : string :=
  match n with
  | O => ""
  | S n => String (ascii_of_nat (Z.to_nat (z mod 256))) (le_bytes n (z / 256))
  end.

Section routing.
Context {L : Lance} {K : Kernels}.

Definition bucket_shard_id (bucket : Z) : Z := new_v5 SHARD_NAMESPACE ("bucket-" +:+ pretty bucket).
Definition identity_shard_id (value : string) : Z := new_v5 SHARD_NAMESPACE ("identity-" +:+ value).
Definition unsharded_shard_id : Z := new_v5 SHARD_NAMESPACE "unsharded".

Definition evaluate_lsm_shard_values (batch : RecordBatch) (spec : ShardingSpec) (schema : LanceSchema)
    : result Array :=
  values ← evaluate_sharding_spec batch spec schema;
  match columns values with
  | [column] => Ok column
  | _ => Err (merge_error "MemWAL sharding spec evaluated to {} fields; expected exactly one")
  end.
(** The width of an integer type in bytes *)
Definition int_width (t : DataType) : option nat :=
  match t with
  | TOther name =>
      snd <$> List.find (λ e, String.eqb e.1 name)
        [("Int8", 1%nat); ("Int16", 2%nat); ("Int32", 4%nat); ("Int64", 8%nat);
         ("UInt8", 1%nat); ("UInt16", 2%nat); ("UInt32", 4%nat); ("UInt64", 8%nat)]
  | _ => None
  end.
Definition encode_value (t : DataType) (v : Value) : result string :=
  match int_width t, v with
  | Some width, VInt z => Ok (le_bytes width z)
  | Some _, _ => Panic
  | None, _ =>
      if bool_decide (t = TOther "Utf8" ∨ t = TOther "LargeUtf8")
      then match v with VStr s => Ok s | _ => Panic end
      else if bool_decide (t = TOther "Boolean")
      then match v with VBool b => Ok (String (ascii_of_nat (if b then 1 else 0)) "") | _ => Panic end
      else Err (InvalidInput "merge_insert: identity sharding does not support column dtype {:?}")
  end.
Definition encode_scalar (array : Array) (row : nat) : result string :=
  match values array !! row with
  | None => Panic
  | Some None => Err (InvalidInput "merge_insert: identity sharding does not support null routing values")
  | Some (Some v) => encode_value (data_type array) v
  end.

Definition bucket_of (values : Array) (n : nat) (validate_single_shard : bool) : result Z :=
  if negb (bool_decide (data_type values = TOther "Int32"))
  then Err (merge_error "MemWAL bucket evaluator returned {:?}; expected Int32")
  else
    let first := value_i32 values 0 in
    if (validate_single_shard : bool) && existsb (λ row, negb (value_i32 values row =? first)%Z) (seq 1 (n - 1))
    then Err (InvalidInput "merge_insert: input row 0 hashes to bucket {} but row {} hashes to bucket {}; each merge_insert call must target a single bucket (pre-shard the input, or set validate_single_shard(false) to route by the first row only)")
    else if (first <? 0)%Z then Err (merge_error "MemWAL bucket evaluator returned negative bucket {}")
    else Ok (bucket_shard_id first).
Fixpoint same_scalar (array : Array) (first : string) (rows : list nat) : result unit :=
  match rows with
  | [] => Ok tt
  | row :: rows =>
      value ← encode_scalar array row;
      if String.eqb value first then same_scalar array first rows
      else Err (InvalidInput "merge_insert: input rows have differing values for identity-sharding column; each merge_insert call must target a single shard (pre-shard the input, or set validate_single_shard(false) to route by the first row only)")
  end.
Definition resolve_batch_shard (mode : LsmMode) (schema : LanceSchema) (batch : RecordBatch)
    (validate_single_shard : bool) : result Z :=
  let routing_batch := if validate_single_shard then batch else slice batch 0 1 in
  match mode with
  | UnshardedMode => Ok unsharded_shard_id
  | BucketMode spec =>
      values ← evaluate_lsm_shard_values routing_batch spec schema;
      bucket_of values (num_rows routing_batch) validate_single_shard
  | IdentityMode spec =>
      values ← evaluate_lsm_shard_values routing_batch spec schema;
      first ← encode_scalar values 0;
      _ ← (if validate_single_shard
           then same_scalar values first (seq 1 (num_rows routing_batch - 1)) else Ok tt);
      Ok (identity_shard_id first)
  end.
Fixpoint resolve_shards (mode : LsmMode) (schema : LanceSchema) (validate_single_shard : bool)
    (shard_id : option Z) (batches : list RecordBatch) : result (option Z) :=
  match batches with
  | [] => Ok shard_id
  | batch :: batches =>
      if Nat.eqb (num_rows batch) 0 then resolve_shards mode schema validate_single_shard shard_id batches
      else if negb validate_single_shard && negb (is_none shard_id)
      then resolve_shards mode schema validate_single_shard shard_id batches
      else
        batch_shard ← resolve_batch_shard mode schema batch validate_single_shard;
        match shard_id with
        | Some seen =>
            if (seen =? batch_shard)%Z
            then resolve_shards mode schema validate_single_shard (Some batch_shard) batches
            else Err (InvalidInput "merge_insert: input batches route to multiple shards; each merge_insert call must target a single shard")
        | None => resolve_shards mode schema validate_single_shard (Some batch_shard) batches
        end
  end.
Definition resolve_input_shard (mode : LsmMode) (schema : LanceSchema) (batches : list RecordBatch)
    (validate_single_shard : bool) : result (option Z) :=
  resolve_shards mode schema validate_single_shard None batches.

(** ** Configuration *)
Definition parse_bool (s : string) : option bool :=
  if String.eqb s "true" then Some true else if String.eqb s "false" then Some false else None.
Definition shard_writer_config_from_defaults (defaults : gmap string string) : ShardWriterConfig :=
  let config := default_config in
  let bool_of (key : string) (current : bool) := default current (defaults !! key ≫= parse_bool) in
  let usize_of (key : string) (current : Z) := default current (defaults !! key ≫= parse_u64) in
  {| shard_spec_id := SHARDING_SPEC_ID;
     durable_write := bool_of "durable_write" (durable_write config);
     max_wal_buffer_size := usize_of "max_wal_buffer_size" (max_wal_buffer_size config);
     max_memtable_size := usize_of "max_memtable_size" (max_memtable_size config);
     max_memtable_rows := usize_of "max_memtable_rows" (max_memtable_rows config);
     max_memtable_batches := usize_of "max_memtable_batches" (max_memtable_batches config);
     manifest_scan_batch_size := usize_of "manifest_scan_batch_size" (manifest_scan_batch_size config);
     max_unflushed_memtable_bytes := usize_of "max_unflushed_memtable_bytes" (max_unflushed_memtable_bytes config);
     backpressure_log_interval := usize_of "backpressure_log_interval_ms" (backpressure_log_interval config);
     enable_memtable := bool_of "enable_memtable" (enable_memtable config);
     max_wal_flush_interval := usize_of "max_wal_flush_interval_ms" (max_wal_flush_interval config);
     stats_log_interval :=
       match defaults !! "stats_log_interval_ms" ≫= parse_u64 with
       | Some v => Some v
       | None => stats_log_interval config
       end |}.

(** ** The input of a merge *)
Definition align_column (batch : RecordBatch) (field : Field) : result Array :=
  column ← ok_or (InvalidInput ("merge_insert: input is missing column '" +:+ field_name field
                                 +:+ "' required by the table schema"))
             (column_by_name batch (field_name field));
  if bool_decide (data_type column = field_type field) then Ok column
  else Err (InvalidInput ("merge_insert: input column '" +:+ field_name field +:+ "' has dtype {:?}, expected {:?}")).
Definition align_batch_schema (batch : RecordBatch) (target : ArrowSchema) : result RecordBatch :=
  if bool_decide (schema batch = target) then Ok batch
  else
    columns ← try_map (align_column batch) (fields target);
    map_err Arrow (try_new target columns).
Fixpoint collect_input (target : ArrowSchema) (items : list (result RecordBatch))
    : result (list RecordBatch) :=
  match items with
  | [] => Ok []
  | item :: items =>
      batch ← item;
      if Nat.eqb (num_rows batch) 0 then collect_input target items
      else
        batch ← align_batch_schema batch target;
        batches ← collect_input target items;
        Ok (batch :: batches)
  end.
Definition total_rows (batches : list RecordBatch) : Z := zsum (map (λ b, Z.of_nat (num_rows b)) batches).
Definition lsm_merge_result (num_rows : Z) : MergeResult := mkMergeResult 0 0 0 0 0 num_rows.

(** What is settled before the writer is asked for: the shard and the batches,
    or that there is nothing to write *)
Definition prepare_lsm_merge (dataset : Dataset) (plan : LsmPlan) (validate_single_shard : bool)
    (new_data : list (result RecordBatch)) : result (option (Z * list RecordBatch)) :=
  batches ← collect_input (arrow_schema (schema_of dataset)) new_data;
  shard_id ← resolve_input_shard (mode plan) (schema_of dataset) batches validate_single_shard;
  match shard_id with Some id => Ok (Some (id, batches)) | None => Ok None end.
End routing.

(** * Assumptions *)

(** The sharding field Lance records for a request: the transform by name, the
    number of buckets in decimal, the column by its field id *)
Section recorded.
Context {L : Lance}.
Definition reads_column (schema : LanceSchema) (field : ShardingField) (column : string) : Prop :=
  ∃ id f, head (source_ids field) = Some id ∧ field_by_id schema id = Some f ∧
    field_name (lance_field f) = column.
Definition recorded_sharding (schema : LanceSchema) (sharding : Sharding) (field : ShardingField) : Prop :=
  match sharding with
  | BucketSharding column n =>
      transform field = Some BUCKET_TRANSFORM ∧ (1 ≤ n ≤ 1024)%Z ∧
      parameters field !! NUM_BUCKETS_PARAM = Some (pretty n) ∧ reads_column schema field column
  | IdentitySharding column => transform field = Some IDENTITY_TRANSFORM ∧ reads_column schema field column
  | NoSharding => transform field = Some UNSHARDED_TRANSFORM
  end.
End recorded.
Class InitializeLaws `{Lance} : Prop := {
  initialized d b d' : execute_initialize d b = Ok d' →
    schema_of d' = schema_of d ∧
    ∃ details sharding field, mem_wal_index_details d' = Ok (Some details) ∧
      init_sharding b = Some sharding ∧
      sharding_specs details = [mkShardingSpec [field]] ∧
      recorded_sharding (schema_of d') sharding field ∧
      (if maintain_all_indexes details then None else Some (details_maintained details)) = init_maintained b ∧
      details_defaults details = init_defaults b
}.
#[global] Arguments InitializeLaws : clear implicits.

(** Rows, and sharding row by row: the bucket number and the identity value of
    a row are functions of the row. *)
Abbreviation Row := (list (option Value)).
Definition row_at (b : RecordBatch) (i : nat) : Row := map (λ c, default None (values c !! i)) (columns b).
Definition rows_of (b : RecordBatch) : list Row := map (row_at b) (seq 0 (num_rows b)).
Definition valid_batch (b : RecordBatch) : Prop :=
  length (columns b) = length (fields (schema b)) ∧ Forall (λ c, length (values c) = num_rows b) (columns b).
Class RoutingLaws `{Kernels} : Type := {
  bucket_number : ShardingSpec → LanceSchema → Row → Z;
  identity_value : ShardingSpec → LanceSchema → Row → option Value;
  identity_type : ShardingSpec → LanceSchema → DataType;
  built s cs b : try_new s cs = Ok b → schema b = s ∧ columns b = cs ∧ cs ≠ [] ∧ valid_batch b;
  bucketed b spec s vs c i row : valid_batch b → evaluate_sharding_spec b spec s = Ok vs → columns vs = [c] →
    rows_of b !! i = Some row → value_i32 c i = bucket_number spec s row;
  identified b spec s vs c : valid_batch b → evaluate_sharding_spec b spec s = Ok vs → columns vs = [c] →
    data_type c = identity_type spec s ∧ values c = map (identity_value spec s) (rows_of b)
}.
#[global] Arguments RoutingLaws _ _ : clear implicits.

(** * Routing *)
Section rows.
Context {L : Lance} {K : Kernels} {R : RoutingLaws L K}.

(** The shard of a row *)
Definition row_shard (mode : LsmMode) (schema : LanceSchema) (row : Row) : option Z :=
  match mode with
  | UnshardedMode => Some unsharded_shard_id
  | BucketMode spec => Some (bucket_shard_id (bucket_number spec schema row))
  | IdentityMode spec =>
      v ← identity_value spec schema row;
      match encode_value (identity_type spec schema) v with
      | Ok bytes => Some (identity_shard_id bytes)
      | _ => None
      end
  end.
Definition routes_to (mode : LsmMode) (schema : LanceSchema) (shard : Z) (row : Row) : Prop :=
  row_shard mode schema row = Some shard.

Lemma batch_rows_lookup b i row : rows_of b !! i = Some row ↔ (i < num_rows b)%nat ∧ row = row_at b i.
Proof.
  unfold rows_of. rewrite list_lookup_fmap. destruct (decide (i < num_rows b)%nat) as [Hi|Hi].
  - rewrite lookup_seq_lt by done. cbn. naive_solver.
  - rewrite lookup_seq_ge by lia. cbn. naive_solver lia.
Qed.
Lemma slice_first b : valid_batch b → num_rows b ≠ 0%nat →
  valid_batch (slice b 0 1) ∧ rows_of (slice b 0 1) = [row_at b 0].
Proof.
  intros [Hl Hv] Hn. split.
  - split; [by cbn; rewrite length_map|]. cbn. apply Forall_fmap. eapply Forall_impl; [done|].
    intros c Hc. cbn in Hc |- *. rewrite length_take, drop_0. lia.
  - unfold rows_of, row_at. cbn. f_equal. rewrite map_map. apply map_ext. intros c. cbn.
    by destruct (values c).
Qed.
Lemma evaluated_one b spec s c : evaluate_lsm_shard_values b spec s = Ok c →
  ∃ vs, evaluate_sharding_spec b spec s = Ok vs ∧ columns vs = [c].
Proof.
  intros (vs & Hvs & H)%bind_Ok. exists vs. destruct (columns vs) as [|x [|]]; try done. by simplify_eq/=.
Qed.
Lemma bucket_of_spec c n validate shard : bucket_of c n validate = Ok shard →
  shard = bucket_shard_id (value_i32 c 0) ∧
  (validate = true → ∀ i, (i < n)%nat → value_i32 c i = value_i32 c 0).
Proof.
  unfold bucket_of. destruct (negb _); [done|].
  destruct (validate && _) eqn:Hall; [done|]. destruct (_ <? 0)%Z; [done|]. intros [= <-]. split; [done|].
  intros -> i Hi. cbn in Hall. destruct (decide (i = 0%nat)) as [->|Hne]; [done|].
  destruct (Z.eqb_spec (value_i32 c i) (value_i32 c 0)) as [|Hv]; [done|]. exfalso.
  apply Bool.not_true_iff_false in Hall. apply Hall, existsb_exists. exists i.
  split; [apply in_seq; lia|]. by apply negb_true_iff, Z.eqb_neq.
Qed.
Lemma same_scalar_spec c first rows : same_scalar c first rows = Ok tt →
  Forall (λ i, encode_scalar c i = Ok first) rows.
Proof.
  induction rows as [|i rows IH]; [constructor|]. cbn. intros (v & Hv & H)%bind_Ok.
  destruct (String.eqb_spec v first) as [->|]; [|done]. constructor; auto.
Qed.
Lemma encoded_row spec s c b i first : valid_batch b →
  values c = map (identity_value spec s) (rows_of b) → data_type c = identity_type spec s →
  (i < num_rows b)%nat → encode_scalar c i = Ok first →
  row_shard (IdentityMode spec) s (row_at b i) = Some (identity_shard_id first).
Proof.
  intros Hb Hv Ht Hi. unfold encode_scalar. rewrite Hv, Ht, list_lookup_fmap.
  rewrite (proj2 (batch_rows_lookup b i (row_at b i))) by done. cbn [fmap option_fmap option_map].
  cbn [row_shard]. destruct (identity_value spec s (row_at b i)) as [v|]; [|done]. cbn. by intros ->.
Qed.

Lemma routing_batch_routes mode s b validate shard : valid_batch b → num_rows b ≠ 0%nat →
  resolve_batch_shard mode s b validate = Ok shard →
  routes_to mode s shard (row_at b 0) ∧ (validate = true → Forall (routes_to mode s shard) (rows_of b)).
Proof.
  intros Hb Hn. unfold resolve_batch_shard.
  set (r := if validate then b else slice b 0 1).
  assert (valid_batch r ∧ num_rows r ≠ 0%nat ∧ row_at r 0 = row_at b 0 ∧ (validate = true → r = b)) as (Hr & Hrn & Hr0 & Hrb).
  { destruct (slice_first b Hb Hn) as [Hs Hrows]. unfold r. destruct validate; [done|]. split_and!; try done.
    unfold rows_of in Hrows. by injection Hrows. }
  rewrite <-Hr0. clearbody r. unfold routes_to.
  destruct mode as [spec|spec|].
  - intros (c & (vs & Hvs & Hc)%evaluated_one & [-> Hall]%bucket_of_spec)%bind_Ok. cbn [row_shard].
    assert (∀ i, (i < num_rows r)%nat → value_i32 c i = bucket_number spec s (row_at r i)) as Hbucket.
    { intros i Hi. by apply (bucketed r spec s vs c i), batch_rows_lookup. }
    split; [by rewrite Hbucket by lia|]. intros Hv. rewrite <-(Hrb Hv). apply Forall_lookup.
    intros i row [Hi ->]%batch_rows_lookup. by rewrite <-Hbucket, Hall by done.
  - intros (c & (vs & Hvs & Hc)%evaluated_one & H)%bind_Ok. apply bind_Ok in H as (first & Hf & H).
    apply bind_Ok in H as ([] & Hsame & [= <-]).
    destruct (identified r spec s vs c Hr Hvs Hc) as [Ht Hval].
    split; [by apply (encoded_row spec s c); [..|lia|]|]. intros Hv. rewrite Hv in Hsame. rewrite <-(Hrb Hv).
    apply same_scalar_spec in Hsame. rewrite Forall_forall in Hsame. apply Forall_lookup.
    intros i row [Hi ->]%batch_rows_lookup. apply (encoded_row spec s c); try done.
    destruct (decide (i = 0%nat)) as [->|]; [done|]. apply Hsame, elem_of_seq. lia.
  - intros [= <-]. split; [done|]. intros _. by apply Forall_true.
Qed.

Definition all_rows (batches : list RecordBatch) : list Row := mjoin (map rows_of batches).
Lemma rows_of_empty b : num_rows b = 0%nat → rows_of b = [].
Proof. unfold rows_of. by intros ->. Qed.
Lemma rows_of_first b : num_rows b ≠ 0%nat → head (rows_of b) = Some (row_at b 0).
Proof. unfold rows_of. by destruct (num_rows b). Qed.
Lemma resolve_shards_route mode s validate batches : Forall valid_batch batches → ∀ seen shard,
  resolve_shards mode s validate seen batches = Ok shard →
  (∀ i, seen = Some i → shard = Some i) ∧
  (shard = None → all_rows batches = []) ∧
  (seen = None → ∀ i row, shard = Some i → head (all_rows batches) = Some row → routes_to mode s i row) ∧
  (validate = true → ∀ i, shard = Some i → Forall (routes_to mode s i) (all_rows batches)).
Proof.
  induction 1 as [|b batches Hb _ IH]; intros seen shard; cbn [resolve_shards].
  { intros [= <-]. split_and!; try done. }
  change (all_rows (b :: batches)) with (rows_of b ++ all_rows batches)%list.
  destruct (Nat.eqb_spec (num_rows b) 0) as [Hn|Hn].
  { rewrite (rows_of_empty b Hn). apply IH. }
  pose proof (rows_of_first b Hn) as Hfirst.
  assert (∀ row, head (rows_of b ++ all_rows batches)%list = Some row → row = row_at b 0) as Hhead.
  { intros row. destruct (rows_of b); simplify_eq/=; by intros [= <-]. }
  destruct (negb validate && negb (is_none seen)) eqn:Hskip.
  - apply andb_true_iff in Hskip as [Hv Hs]. destruct validate; [done|]. destruct seen as [i|]; [|done].
    intros H. destruct (IH _ _ H) as (H1 & H2 & H3 & H4). split_and!; try done.
    intros ->. by specialize (H1 i eq_refl).
  - intros (j & Hj & H)%bind_Ok. destruct (routing_batch_routes _ _ _ _ _ Hb Hn Hj) as [Hr Hall].
    assert (resolve_shards mode s validate (Some j) batches = Ok shard ∧ (∀ i, seen = Some i → i = j)) as [H' Hseen].
    { destruct seen as [i|]; [|done]. destruct (Z.eqb_spec i j) as [->|]; [|done]. split; [done|]. by intros ? [= ->]. }
    destruct (IH _ _ H') as (H1 & H2 & H3 & H4). pose proof (H1 j eq_refl) as ->. split_and!; try done.
    + intros i Hi. by rewrite (Hseen i Hi).
    + intros _ i row [= <-] Hrow. by rewrite (Hhead row Hrow).
    + intros Hv i [= <-]. apply Forall_app. split; [by apply Hall|by apply H4].
Qed.

(** ** The input *)

(** What a batch of the input becomes: the table's columns, by name *)
Definition aligned (target : ArrowSchema) (b b' : RecordBatch) : Prop :=
  schema b' = target ∧ valid_batch b' ∧ num_rows b' = num_rows b ∧
  Forall (λ f, ∃ c, column_by_name b (field_name f) = Some c ∧ column_by_name b' (field_name f) = Some c)
    (fields target).
Definition has_rows (b : RecordBatch) : Prop := num_rows b ≠ 0%nat.
#[global] Instance has_rows_dec b : Decision (has_rows b).
Proof. unfold has_rows. apply _. Defined.

Lemma found_in_zip {A B} (p : A → bool) (l : list A) (k : list B) x : length k = length l → x ∈ l → p x = true →
  ∃ a b, List.find (λ e, p e.1) (zip l k) = Some (a, b) ∧ b ∈ k.
Proof.
  revert k. induction l as [|a l IH]; intros [|b k]; try done; [by intros _ ?%elem_of_nil|].
  intros [= Hl] Hx Hp. cbn. destruct (p a) eqn:Ha; [exists a, b; split; [done|by left]|].
  destruct (IH k Hl) as (a' & b' & Hf & Hin); [|done|exists a', b'; split; [done|by right]].
  apply elem_of_cons in Hx as [->|]; [congruence|done].
Qed.
Lemma find_in_zip_map {A B} (p : A → bool) (g : A → B) (l : list A) a : List.find p l = Some a →
  List.find (λ e, p e.1) (zip l (map g l)) = Some (a, g a).
Proof. induction l as [|x l IH]; [done|]. cbn. destruct (p x); [by intros [= ->]|done]. Qed.
Lemma try_map_all {A B} (f : A → result B) l ys : try_map f l = Ok ys →
  length ys = length l ∧ ∀ p x, List.find p l = Some x → ∃ y, f x = Ok y ∧
    snd <$> List.find (λ e, p e.1) (zip l ys) = Some y.
Proof.
  intros H%try_map_Ok. induction H as [|x y l ys Hxy _ [Hl IH]]; [done|]. split; [by cbn; rewrite Hl|].
  intros p a. cbn. destruct (p x); [intros [= <-]; by exists y|apply IH].
Qed.
Lemma find_has {A} (p : A → bool) l x : x ∈ l → p x = true → ∃ y, List.find p l = Some y.
Proof.
  intros Hx Hp. destruct (List.find p l) as [y|] eqn:Hf; [by exists y|].
  apply list_elem_of_In in Hx. by rewrite (find_none _ _ Hf x Hx) in Hp.
Qed.
Lemma align_column_spec b f c : valid_batch b → align_column b f = Ok c →
  column_by_name b (field_name f) = Some c ∧ length (values c) = num_rows b.
Proof.
  intros [Hl Hv]. unfold align_column. intros (c' & Hc'%ok_or_Ok & H)%bind_Ok. case_bool_decide; [|done].
  injection H as ->. split; [done|]. unfold column_by_name in Hc'.
  destruct (List.find _ (zip _ (columns b))) as [[h x]|] eqn:Hz; [|done]. injection Hc' as ->.
  apply find_some in Hz as [Hin%list_elem_of_In _]. apply elem_of_zip_r in Hin.
  rewrite Forall_forall in Hv. by apply Hv.
Qed.
Lemma align_spec b target b' : valid_batch b → align_batch_schema b target = Ok b' → aligned target b b'.
Proof.
  intros Hb. unfold align_batch_schema. case_bool_decide as Hs.
  - intros [= <-]. split_and!; try done. rewrite <-Hs. apply Forall_forall. intros f Hf.
    unfold column_by_name. destruct (found_in_zip (λ g, String.eqb (field_name g) (field_name f)) (fields (schema b))
      (columns b) f) as (g & c & -> & _); [apply Hb|done|apply String.eqb_refl|by exists c].
  - intros (cs & Hcs & H)%bind_Ok. apply map_err_Ok in H. apply built in H as (Hs' & Hc & Hne & Hv').
    split_and!; [done|done| |].
    + apply try_map_Ok in Hcs. destruct Hcs as [|f c fs cs Hfc _]; [done|].
      destruct (align_column_spec b f c Hb Hfc) as [_ Hlen]. destruct Hv' as [_ Hv'].
      rewrite Hc, Forall_cons, Hlen in Hv'. by destruct Hv' as [<- _].
    + apply try_map_all in Hcs as [_ Hfind]. apply Forall_forall. intros f Hf.
      destruct (find_has (λ g, String.eqb (field_name g) (field_name f)) _ f Hf) as [g Hg]; [apply String.eqb_refl|].
      destruct (Hfind _ _ Hg) as (c & Hgc & Hz). apply find_some in Hg as [_ Hname%String.eqb_eq].
      destruct (align_column_spec b g c Hb Hgc) as [Hcol _]. exists c. rewrite <-Hname. split; [done|].
      unfold column_by_name. rewrite Hs', Hc, Hname. exact Hz.
Qed.
Lemma collect_input_spec target items batches : Forall (λ i, ∀ b, i = Ok b → valid_batch b) items →
  collect_input target items = Ok batches →
  ∃ inputs, items = map Ok inputs ∧ Forall2 (aligned target) (filter has_rows inputs) batches.
Proof.
  intros Hv. revert batches. induction Hv as [|item items Hi _ IH]; intros batches; cbn [collect_input].
  { intros [= <-]. exists []. by split. }
  intros (b & -> & H)%bind_Ok. specialize (Hi b eq_refl).
  destruct (Nat.eqb_spec (num_rows b) 0) as [Hn|Hn].
  - destruct (IH _ H) as (inputs & -> & Ha). exists (b :: inputs). split; [done|].
    by rewrite filter_cons_False by (unfold has_rows; lia).
  - apply bind_Ok in H as (b' & Hb' & H). apply bind_Ok in H as (bs & Hbs & [= <-]).
    destruct (IH _ Hbs) as (inputs & -> & Ha). exists (b :: inputs). split; [done|].
    rewrite filter_cons_True by done. constructor; [by apply align_spec|done].
Qed.
Definition valid_items (items : list (result RecordBatch)) : Prop :=
  Forall (λ i, ∀ b, i = Ok b → valid_batch b) items.
(** What is handed to the writer: the batches of the input that have rows, with
    the table's columns, all rows routing to the one shard when every row is
    checked, the first one when only it is. *)
Lemma prepared_merge d plan validate items prepared : valid_items items →
  prepare_lsm_merge d plan validate items = Ok prepared →
  ∃ inputs, items = map Ok inputs ∧
    match prepared with
    | None => filter has_rows inputs = []
    | Some (shard, batches) =>
        Forall2 (aligned (arrow_schema (schema_of d))) (filter has_rows inputs) batches ∧ batches ≠ [] ∧
        (validate = true → Forall (routes_to (mode plan) (schema_of d) shard) (all_rows batches)) ∧
        (∀ row, head (all_rows batches) = Some row → routes_to (mode plan) (schema_of d) shard row)
    end.
Proof.
  intros Hv (batches & Hb & H)%bind_Ok. destruct (collect_input_spec _ _ _ Hv Hb) as (inputs & -> & Ha).
  exists inputs. split; [done|]. apply bind_Ok in H as (shard & Hs & H).
  assert (Forall valid_batch batches ∧ Forall has_rows batches) as [Hvb Hrows].
  { pose proof (Forall2_length _ _ _ Ha) as Hlen. split.
    - eapply Forall2_Forall_r; [exact Ha|]. apply Forall_true. by intros b b' (_ & ? & _).
    - eapply Forall2_Forall_r; [exact Ha|]. apply Forall_forall. intros b [Hb' _]%list_elem_of_filter b' (_ & _ & Hn & _).
      unfold has_rows. by rewrite Hn. }
  destruct (resolve_shards_route _ _ _ _ Hvb _ _ Hs) as (_ & Hnone & Hfirst & Hall).
  destruct shard as [shard|]; injection H as <-.
  - split_and!; [done| | |].
    + intros ->. unfold resolve_input_shard in Hs. cbn in Hs. congruence.
    + intros Hvalid. by apply Hall.
    + intros row. by apply Hfirst.
  - specialize (Hnone eq_refl). destruct batches as [|b batches]; [by inversion Ha|].
    apply Forall_cons in Hrows as [Hr _]. pose proof (rows_of_first b Hr) as Hh. change (all_rows (b :: batches)) with (rows_of b ++ all_rows batches)%list in Hnone.
    by destruct (rows_of b).
Qed.

(** ** Shards of distinct values *)
Definition unique_names : Prop := ∀ a b, new_v5 SHARD_NAMESPACE a = new_v5 SHARD_NAMESPACE b → a = b.
(** The values of an integer type: [n] bytes, signed or not *)
Definition in_width (n : nat) (signed : bool) (z : Z) : Prop :=
  if signed then (- (256 ^ Z.of_nat n / 2) ≤ z < 256 ^ Z.of_nat n / 2)%Z else (0 ≤ z < 256 ^ Z.of_nat n)%Z.
Lemma le_bytes_mod n z z' : le_bytes n z = le_bytes n z' → (z mod 256 ^ Z.of_nat n = z' mod 256 ^ Z.of_nat n)%Z.
Proof.
  revert z z'. induction n as [|n IH]; intros z z'; [by rewrite !Z.mod_1_r|]. cbn [le_bytes].
  intros [= Hb Hr].
  assert (z mod 256 = z' mod 256)%Z as Hm.
  { apply (f_equal nat_of_ascii) in Hb. rewrite !nat_ascii_embedding in Hb by
      (pose proof (Z.mod_pos_bound z 256); pose proof (Z.mod_pos_bound z' 256); lia).
    pose proof (Z.mod_pos_bound z 256). pose proof (Z.mod_pos_bound z' 256). lia. }
  apply IH in Hr. rewrite Nat2Z.inj_succ, Z.pow_succ_r by lia.
  rewrite !(Z.rem_mul_r _ 256) by lia. by rewrite Hm, Hr.
Qed.
Lemma le_bytes_inj n signed z z' : in_width n signed z → in_width n signed z' →
  le_bytes n z = le_bytes n z' → z = z'.
Proof.
  intros Hz Hz' H%le_bytes_mod. unfold in_width in *.
  assert (0 < 256 ^ Z.of_nat n)%Z as Hp by (apply Z.pow_pos_nonneg; lia).
  set (w := (256 ^ Z.of_nat n)%Z) in *. clearbody w.
  pose proof (Z.div_mod z w ltac:(lia)) as E. pose proof (Z.div_mod z' w ltac:(lia)) as E'.
  rewrite H in E. assert (w * (z / w - z' / w) = z - z')%Z as Hd by lia.
  assert (- w < z - z' < w)%Z as Hw.
  { destruct signed; [|lia]. pose proof (Z.div_mod w 2 ltac:(lia)). pose proof (Z.mod_pos_bound w 2). lia. }
  assert (z / w - z' / w = 0)%Z as H0; [|lia]. nia.
Qed.
(** The values a column of the type holds *)
Definition holds_value (t : DataType) (v : Value) : Prop :=
  match t, v with
  | TOther name, VInt z =>
      match int_width t with Some n => in_width n (negb (starts_with "U" name)) z | None => False end
  | _, _ => True
  end.
Lemma encode_value_inj t v v' bytes : holds_value t v → holds_value t v' →
  encode_value t v = Ok bytes → encode_value t v' = Ok bytes → v = v'.
Proof.
  unfold encode_value, holds_value. destruct (int_width t) as [n|] eqn:Hw.
  - destruct v as [z|?|?|?], v' as [z'|?|?|?]; try done. destruct t as [| | | | | | | | | | | |name]; try done.
    intros Hz Hz' [= <-] [= H]. f_equal. by apply (le_bytes_inj n (negb (starts_with "U" name))).
  - intros _ _. case_bool_decide; [destruct v, v'; try done; by intros [= ->] [= ->]|].
    case_bool_decide; [|done]. destruct v as [| |[]|], v' as [| |[]|]; try done; by intros [= <-] [= ?].
Qed.
(** Distinct values of an identity-sharded column never share a shard. *)
Lemma identity_shards_separate t v v' a b : unique_names → holds_value t v → holds_value t v' →
  encode_value t v = Ok a → encode_value t v' = Ok b → identity_shard_id a = identity_shard_id b → v = v'.
Proof.
  intros Hu Hv Hv' Ha Hb Hid. apply Hu, (inj (String.append "identity-")) in Hid as ->.
  by apply (encode_value_inj t v v' b).
Qed.
End rows.

(** * Installing and reading back *)
Section specs.
Context {P : Planner} {Sql : SqlParser} {J : JsonCodec} {L : Lance} {IL : InitializeLaws L}.

Lemma initialize_spec spec :
  init_maintained (initialize spec (maintained_indexes spec)) = maintained_indexes spec ∧
  init_defaults (initialize spec (maintained_indexes spec)) = writer_config_defaults spec ∧
  init_sharding (initialize spec (maintained_indexes spec)) = init_sharding (with_sharding new_initialize spec).
Proof.
  unfold initialize. set (b := with_maintained _ _).
  assert (init_maintained b = maintained_indexes spec ∧ init_defaults b = ∅ ∧
    init_sharding b = init_sharding (with_sharding new_initialize spec)) as Hb
    by (unfold b; by destruct (maintained_indexes spec)).
  assert (∀ m, init_maintained (map_fold (λ k v b, add_writer_config_default b k v) b m) = init_maintained b ∧
    init_defaults (map_fold (λ k v b, add_writer_config_default b k v) b m) = m ∪ init_defaults b ∧
    init_sharding (map_fold (λ k v b, add_writer_config_default b k v) b m) = init_sharding b) as Hf.
  { intros m. apply (map_fold_weak_ind (λ r m, init_maintained r = init_maintained b ∧
      init_defaults r = m ∪ init_defaults b ∧ init_sharding r = init_sharding b)).
    - by rewrite (left_id_L ∅ (∪)).
    - intros k v m' r _ (? & Hd & ?). cbn. split_and!; [done| |done]. by rewrite Hd, insert_union_l. }
  destruct (Hf (writer_config_defaults spec)) as (-> & -> & ->). destruct Hb as (-> & -> & ->).
  by rewrite (right_id_L ∅ (∪)).
Qed.
Lemma foldl_insert_all (l : list (string * string)) (m : gmap string string) : NoDup l.*1 →
  foldl (λ m kv, <[kv.1 := kv.2]> m) m l = list_to_map l ∪ m.
Proof.
  revert m. induction l as [|[k v] l IH]; intros m; cbn; [by rewrite (left_id_L ∅ (∪))|].
  intros [Hk Hd]%NoDup_cons. rewrite IH by done.
  rewrite <-insert_union_r by (by apply not_elem_of_list_to_map_1). by rewrite insert_union_l.
Qed.
Lemma with_defaults_id spec m :
  with_writer_config_defaults spec (map_to_list m) = match spec with
  | Bucket c n i _ => Bucket c n i m | Identity c i _ => Identity c i m | Unsharded i _ => Unsharded i m end.
Proof.
  assert (foldl (λ m kv, <[kv.1 := kv.2]> m) (∅ : gmap string string) (map_to_list m) = m) as Hm.
  { rewrite foldl_insert_all by apply NoDup_fst_map_to_list. by rewrite list_to_map_to_list, (right_id_L ∅ (∪)). }
  unfold with_writer_config_defaults. by rewrite Hm.
Qed.
Lemma parse_pretty_buckets n : (1 ≤ n ≤ 1024)%Z → parse_u32 (pretty n) = Some n.
Proof.
  intros Hn. assert (pretty n = pretty (Z.to_N n)) as -> by (destruct n as [|p|p]; [lia|reflexivity|lia]).
  unfold parse_u32. rewrite parse_pretty_u64 by (unfold u64_range, U64; lia). cbn.
  by rewrite (proj2 (Z.ltb_lt _ _)) by lia.
Qed.
Lemma sharding_column_ok schema field column :
  reads_column schema field column → sharding_column field schema = Ok column.
Proof. intros (id & f & Hi & Hf & <-). unfold sharding_column. rewrite Hi. cbn. by rewrite Hf. Qed.
Lemma recorded_mode schema sharding field details :
  sharding_specs details = [mkShardingSpec [field]] → recorded_sharding schema sharding field →
  ∃ m, resolve_lsm_mode details = Ok m ∧
    memwal_spec_from_details details schema = Ok (with_writer_config_defaults (with_maintained_indexes
      (match sharding with BucketSharding c n => bucket c n | IdentitySharding c => identity c | NoSharding => unsharded end)
      (if maintain_all_indexes details then None else Some (details_maintained details)))
      (map_to_list (details_defaults details))) ∧
    m = match sharding with
        | BucketSharding _ _ => BucketMode (mkShardingSpec [field])
        | IdentitySharding _ => IdentityMode (mkShardingSpec [field])
        | NoSharding => UnshardedMode
        end.
Proof.
  intros Hs Hr. unfold resolve_lsm_mode, memwal_spec_from_details, first_sharding. rewrite Hs. cbn.
  destruct sharding as [c n|c|]; cbn in Hr.
  - destruct Hr as (-> & Hn & Hp & Hc). unfold positive_buckets. rewrite Hp. cbn.
    rewrite parse_pretty_buckets by done. cbn. rewrite (proj2 (Z.ltb_lt 0 n)) by lia. cbn.
    rewrite (sharding_column_ok _ _ _ Hc). by eexists.
  - destruct Hr as (-> & Hc). cbn. rewrite (sharding_column_ok _ _ _ Hc). by eexists.
  - rewrite Hr. by eexists.
Qed.
Lemma enabled_details table spec d : enable_memwal table spec = Ok d →
  ∃ details m, mem_wal_index_details d = Ok (Some details) ∧ resolve_lsm_mode details = Ok m ∧
    memwal_spec_from_details details (schema_of d) = Ok spec ∧
    details_defaults details = writer_config_defaults spec ∧ unenforced_primary_key (schema_of d) ≠ [] ∧
    match spec with
    | Bucket _ _ _ _ => ∃ s, m = BucketMode s | Identity _ _ _ => ∃ s, m = IdentityMode s | Unsharded _ _ => m = UnshardedMode
    end.
Proof.
  unfold enable_memwal. intros (u & _ & H)%bind_Ok. apply bind_Ok in H as (d0 & _ & H).
  apply bind_Ok in H as ([|] & _ & H); [done|]. apply bind_Ok in H as (u' & _ & H).
  apply bind_Ok in H as (d1 & _ & H). apply bind_Ok in H as (u'' & Hschema & H).
  apply initialized in H as (Hsame & details & sharding & field & Hd & Hi & Hs & Hr & Hm & Hdef).
  destruct (initialize_spec spec) as (Hi1 & Hi2 & Hi3). rewrite Hi1 in Hm. rewrite Hi2 in Hdef. rewrite Hi3 in Hi.
  destruct (recorded_mode _ _ _ _ Hs Hr) as (m & Hmode & Hspec & ->).
  eexists details, _. split_and!; [exact Hd|exact Hmode| |done| |].
  - rewrite Hspec, Hm, Hdef, with_defaults_id. by destruct spec; simplify_eq/=.
  - rewrite Hsame. unfold ensure_memwal_schema in Hschema. destruct (negb _); [done|].
    apply bind_Ok in Hschema as ([|] & _ & Hpk); [done|]. by case_bool_decide.
  - destruct spec; simplify_eq/=; by eexists.
Qed.

(** * Properties *)

(** C29: a spec that was installed reads back as it was given, its sharding,
    its maintained indexes and its writer defaults, and decides every later
    merge insert: one that opts out takes the standard path, an upsert keyed by
    the primary key (or by nothing) takes the MemWAL path with the spec's
    defaults and sharding, and any other is refused. *)
Theorem enabled_spec_reads_back table spec d :
  enable_memwal table spec = Ok d →
  get_memwal_spec d = Ok (Some spec) ∧
  ∀ params,
    if bool_decide (MergeBuilder.use_memwal params = Some false)
    then lsm_dispatch_decision (Ok d) params = Ok Standard
    else if (bool_decide (MergeBuilder.on params = []) ||
             bool_decide (MergeBuilder.on params = unenforced_primary_key (schema_of d)))
            && is_upsert_only params
    then ∃ m, lsm_dispatch_decision (Ok d) params = Ok (Lsm (mkPlan m (writer_config_defaults spec))) ∧
      match spec with
      | Bucket _ _ _ _ => ∃ s, m = BucketMode s | Identity _ _ _ => ∃ s, m = IdentityMode s | Unsharded _ _ => m = UnshardedMode
      end
    else ∃ e, lsm_dispatch_decision (Ok d) params = Err (InvalidInput e).
Proof.
  intros H. destruct (enabled_details _ _ _ H) as (details & m & Hd & Hm & Hs & Hdef & Hpk & Hk). split.
  - unfold get_memwal_spec. rewrite Hd. run_ok. by rewrite Hs.
  - intros params. unfold lsm_dispatch_decision. case_bool_decide; [done|]. run_ok. rewrite Hd. run_ok.
    rewrite (bool_decide_false _ Hpk).
    destruct (bool_decide (MergeBuilder.on params = [])), (bool_decide (MergeBuilder.on params = _)); cbn;
      try (by eexists); (destruct (is_upsert_only params); cbn; [|by eexists]);
      rewrite Hm; run_ok; rewrite Hdef; by eexists.
Qed.
End specs.

(** ** A table of one integer column, sharded by its value modulo 16 or by the
    value itself *)
Module Demo.
Import View.Demo.
Definition id_field : Field := mkField "id" (TOther "Int32") true ∅.
Definition table_schema : ArrowSchema := mkSchema [id_field] ∅.
Definition field_for (sharding : option Sharding) : option ShardingField :=
  match sharding with
  | Some (BucketSharding c n) =>
      if bool_decide (c = "id" ∧ 1 ≤ n ≤ 1024)%Z
      then Some (mkShardingField [0%Z] (Some BUCKET_TRANSFORM) {[NUM_BUCKETS_PARAM := pretty n]}) else None
  | Some (IdentitySharding c) =>
      if bool_decide (c = "id") then Some (mkShardingField [0%Z] (Some IDENTITY_TRANSFORM) ∅) else None
  | Some NoSharding => Some (mkShardingField [] (Some UNSHARDED_TRANSFORM) ∅)
  | None => None
  end.
Definition details_for (b : InitializeMemWal) (field : ShardingField) : MemWalIndexDetails :=
  mkDetails [mkShardingSpec [field]] (is_none (init_maintained b)) (default [] (init_maintained b))
    (init_defaults b) [] [].
#[export] Instance lance : Lance := {
  Dataset := option MemWalIndexDetails;
  LanceSchema := ();
  schema_of _ := ();
  arrow_schema _ := table_schema;
  field_of _ name := if String.eqb name "id" then Some (mkLanceField 0 id_field) else None;
  field_by_id _ id := if (id =? 0)%Z then Some (mkLanceField 0 id_field) else None;
  unenforced_primary_key _ := ["id"];
  mem_wal_index_details d := Ok d;
  validate_maintained_indexes_with _ _ := Ok tt;
  execute_initialize _ b :=
    match field_for (init_sharding b) with
    | Some field => Ok (Some (details_for b field))
    | None => Err (InvalidInput "no such sharding")
    end;
  MEM_WAL_INDEX_NAME := "mem_wal";
  drop_index _ _ := Ok None;
  LANCE_UNENFORCED_PRIMARY_KEY := "pk";
  LANCE_UNENFORCED_PRIMARY_KEY_POSITION := "pk:position";
  replace_field_metadata d _ := Ok d
}.
#[export] Instance initialize_laws : InitializeLaws lance.
Proof.
  split. intros d b d'. cbn. destruct (field_for (init_sharding b)) as [field|] eqn:Hf; [|done]. intros [= <-].
  split; [done|]. destruct (init_sharding b) as [sharding|] eqn:Hs; [|done].
  exists (details_for b field), sharding, field. split_and!; try done.
  - destruct sharding as [c n|c|]; cbn in Hf; [case_bool_decide|case_bool_decide|]; try done; injection Hf as <-; cbn; destruct_and?; subst; try done.
    + split_and!; try done; by exists 0%Z, (mkLanceField 0 id_field).
    + split; [done|]. by exists 0%Z, (mkLanceField 0 id_field).
  - cbn. by destruct (init_maintained b).
Qed.
Definition table : NativeTable := mkTable (Ok tt) (Ok None) (Ok None) (Ok ["id_idx"]).
Definition spec : MemWalWriteSpec := Bucket "id" 16 (Some ["id_idx"]) {["durable_write" := "true"]}.
Definition installed : option MemWalIndexDetails :=
  match enable_memwal table spec with Ok d => d | _ => None end.

Fixpoint name_number (name : string) : Z :=
  match name with "" => 1 | String c name => (byte_of c + 256 * name_number name)%Z end.
Definition first_column (b : RecordBatch) : Array :=
  mkArray (TOther "Int32") (map (λ row, default None (head row)) (rows_of b)).
Definition number_of (v : option Value) : Z := match v with Some (VInt z) => z | _ => 0 end.
Definition number_bucket (row : Row) : Z := (number_of (default None (head row)) mod 16)%Z.
Definition is_bucket (spec : ShardingSpec) : bool :=
  match spec_fields spec with
  | [f] => bool_decide (transform f = Some BUCKET_TRANSFORM) | _ => false end.
Definition shard_column (b : RecordBatch) (spec : ShardingSpec) : Array :=
  if is_bucket spec then mkArray (TOther "Int32") (map (λ row, Some (VInt (number_bucket row))) (rows_of b))
  else first_column b.
#[export] Instance kernels : Kernels := {
  try_new s cs :=
    match cs with
    | [] => Err "no columns"
    | c :: _ =>
        let n := length (values c) in
        if bool_decide (length cs = length (fields s) ∧ Forall (λ c, length (values c) = n) cs)
        then Ok (mkBatch s cs n) else Err "lengths"
    end;
  evaluate_sharding_spec b spec _ := Ok (mkBatch table_schema [shard_column b spec] (num_rows b));
  value_i32 a i := number_of (default None (values a !! i));
  new_v5 _ name := name_number name;
  default_config := mkConfig 0 false 1 2 3 4 5 6 7 true 8 None
}.
#[export] Instance routing_laws : RoutingLaws lance kernels.
Proof.
  refine {|
    bucket_number spec _ row := if is_bucket spec then number_bucket row else number_of (default None (head row));
    identity_value spec _ row := if is_bucket spec then Some (VInt (number_bucket row)) else default None (head row);
    identity_type _ _ := TOther "Int32" |}.
  - intros s [|c cs] b; [done|]. cbn [try_new kernels]. case_bool_decide as H; [|done].
    intros [= <-]. split_and!; try done; apply H.
  - intros b spec s vs c i row _ [= <-] [= <-] Hrow. cbn. unfold shard_column.
    destruct (is_bucket spec); cbn; rewrite list_lookup_fmap, Hrow; done.
  - intros b spec s vs c _ [= <-] [= <-]. unfold shard_column. by destruct (is_bucket spec).
Defined.
End Demo.

Lemma enabled_spec_reads_back_witness :
  @enable_memwal ComputedColumns.Demo.planner View.Demo.sql View.Demo.json Demo.lance Demo.table Demo.spec = Ok Demo.installed ∧
  @get_memwal_spec Demo.lance Demo.installed = Ok (Some Demo.spec).
Proof.
  split; [vm_compute; reflexivity|].
  apply (@enabled_spec_reads_back ComputedColumns.Demo.planner View.Demo.sql View.Demo.json Demo.lance
    Demo.initialize_laws Demo.table Demo.spec Demo.installed).
  vm_compute. reflexivity.
Defined.
End MemWal.
