(* ===== verification/ShardWriter.v ===== *)
(** * The shard-writer cache (table/merge/lsm.rs, table/query/lsm.rs)

    A table keeps at most one shard writer in a slot that merge inserts, reads
    and [close_memwal_writers] share.  Each lock section is one step of a
    transition system in which any number of merges, reads, drains and removals
    of the spec interleave with flushes and with other commits.  A writer's
    [put] appends its batches as a whole; a flush moves what a writer holds in
    memory to the shard's manifest, and closing a writer flushes it. *)

From Stdlib Require Import Ascii String.
From stdpp Require Import strings gmap.
From S2P Require Import Prelude RustStr Schema MergeBuilder MemWal.

Module ShardWriter.
Import Schema MemWal.
Import MergeBuilder (MergeInsertBuilder, MergeResult).
Local Open Scope string_scope.

(** ** The cache *)

(** A writer, by its position; [resident]: the puts it holds in memory *)
Record ShardWriterEntry : Type := mkEntry {
  entry_shard : Z;
  writer_open : bool;
  resident : list nat
}.
Record ShardWriterCache : Type := mkCache {
  slot : option (Z * nat);
  entries : list ShardWriterEntry
}.
Definition empty_cache : ShardWriterCache := mkCache None [].

Definition check_shard_match (cached wanted : Z) : result unit :=
  if (cached =? wanted)%Z then Ok tt
  else Err (InvalidInput "merge_insert: a shard writer is already open for shard {} but this input routes to shard {}; call close_memwal_writers before writing to a different shard").
(** Under the slot's read lock *)
Definition cached_writer (c : ShardWriterCache) (shard_id : Z) : result (option nat) :=
  match slot c with
  | Some (cached, entry) => _ ← check_shard_match cached shard_id; Ok (Some entry)
  | None => Ok None
  end.
(** Under the slot's write lock; [opened] is what Lance's [mem_wal_writer]
    answers. *)
Definition open_writer (c : ShardWriterCache) (shard_id : Z) (opened : outcome string unit)
    : result nat * ShardWriterCache :=
  match slot c with
  | Some (cached, entry) => ((_ ← check_shard_match cached shard_id; Ok entry), c)
  | None =>
      match opened with
      | Ok _ =>
          let entry := length (entries c) in
          (Ok entry, mkCache (Some (shard_id, entry)) (entries c ++ [mkEntry shard_id true []]))
      | Err e => (Err (Runtime ("merge_insert: failed to open MemWAL shard writer for shard {}: " +:+ e)), c)
      | Panic => (Panic, c)
      end
  end.
(** [put] on an entry, under its read lock: whether the batches were written as
    put [id], and what the writer answered *)
Definition entry_put (c : ShardWriterCache) (entry id : nat) (written : bool) (answer : outcome string unit)
    : result unit * bool * ShardWriterCache :=
  match entries c !! entry with
  | Some (mkEntry shard true puts) =>
      let answer := map_err (λ e, Runtime ("merge_insert: shard writer put failed: " +:+ e)) answer in
      if written
      then (answer, true, mkCache (slot c) (<[entry := mkEntry shard true (puts ++ [id])]> (entries c)))
      else (answer, false, c)
  | _ => (Err (Runtime "merge_insert: shard writer was closed before this write"), false, c)
  end.
Definition take_writer (c : ShardWriterCache) : option nat * ShardWriterCache :=
  (snd <$> slot c, mkCache None (entries c)).
(** The writer is taken out of its entry and closed: the puts it flushed *)
Definition entry_close (c : ShardWriterCache) (entry : nat) (answer : outcome string unit)
    : result unit * list nat * ShardWriterCache :=
  match entries c !! entry with
  | Some (mkEntry shard true puts) =>
      (map_err (λ e, Runtime ("merge_insert: shard writer close failed: " +:+ e)) answer, puts,
       mkCache (slot c) (<[entry := mkEntry shard false []]> (entries c)))
  | _ => (Ok tt, [], c)
  end.
(** What the entry holds in memory; nothing once it is closed *)
Definition in_memory_memtable_refs (c : ShardWriterCache) (entry : nat) : option (list nat) :=
  match entries c !! entry with Some (mkEntry _ true puts) => Some puts | _ => None end.
Definition is_open (c : ShardWriterCache) (entry : nat) : bool :=
  match entries c !! entry with Some (mkEntry _ true _) => true | _ => false end.

Section world.
Context {L : Lance} {K : Kernels}.

(** ** A merge insert that may take the MemWAL path *)
Record Input : Type := mkInput {
  params : MergeInsertBuilder;
  new_data : list (result RecordBatch)
}.
Inductive MergePhase : Type :=
  | MergeStart
  | Dispatched (plan : LsmPlan)
  | Wanting (d : Dataset) (plan : LsmPlan) (shard : Z) (batches : list RecordBatch)
  | Missing (d : Dataset) (plan : LsmPlan) (shard : Z) (batches : list RecordBatch)
  | Holding (d : Dataset) (plan : LsmPlan) (shard : Z) (batches : list RecordBatch) (entry : nat)
  | TookStandard
  | Merged (r : result MergeResult).
Definition dispatch (input : Input) (d : Dataset) : MergePhase :=
  match lsm_dispatch_decision (Ok d) (params input) with
  | Ok Standard => TookStandard
  | Ok (Lsm plan) => Dispatched plan
  | Err e => Merged (Err e)
  | Panic => Merged Panic
  end.
Definition prepare (input : Input) (plan : LsmPlan) (d : Dataset) : MergePhase :=
  match prepare_lsm_merge d plan (MergeBuilder.validate_single_shard (params input)) (new_data input) with
  | Ok (Some (shard, batches)) => Wanting d plan shard batches
  | Ok None => Merged (Ok (lsm_merge_result 0))
  | Err e => Merged (Err e)
  | Panic => Merged Panic
  end.
Definition found (d : Dataset) (plan : LsmPlan) (shard : Z) (batches : list RecordBatch)
    (r : result (option nat)) : MergePhase :=
  match r with
  | Ok (Some entry) => Holding d plan shard batches entry
  | Ok None => Missing d plan shard batches
  | Err e => Merged (Err e)
  | Panic => Merged Panic
  end.
Definition merged (batches : list RecordBatch) (r : result unit) : MergePhase :=
  Merged (_ ← r; Ok (lsm_merge_result (total_rows batches))).

(** ** Draining the cache, to close its writer or to remove the spec *)
Inductive DrainPhase : Type :=
  | DrainStart
  | Draining
  | Taken (entry : option nat)
  | Dropping
  | Drained (r : result unit).
Record Drain : Type := mkDrain { removes_spec : bool; drain_phase : DrainPhase }.
Definition after_close (removes : bool) (r : result unit) : DrainPhase :=
  match r with Ok _ => if removes then Dropping else Drained (Ok tt) | r => Drained r end.

(** ** A read: the manifests of the shards, then the cached writer's memtables
    and manifest (query/lsm.rs, [build_read_context]) *)
Abbreviation Snapshots := (list (Z * list nat)).
Inductive ReadPhase : Type :=
  | ReadStart
  | Scanning (todo : list Z) (snapshots : Snapshots)
  | Looking (snapshots : Snapshots)
  | Capturing (shard : Z) (entry : nat) (snapshots : Snapshots)
  | Manifesting (shard : Z) (entry : nat) (memtables : option (list nat)) (snapshots : Snapshots)
  | ReadDone (snapshots : Snapshots) (memtables : list nat).
Record Read : Type := mkRead { wal_only : bool; read_phase : ReadPhase }.
(** The snapshot of a shard replaced, or added *)
Definition override_snapshot (shard : Z) (sstables : list nat) (snapshots : Snapshots) : Snapshots :=
  if existsb (λ s, (s.1 =? shard)%Z) snapshots
  then map (λ s, if (s.1 =? shard)%Z then (shard, sstables) else s) snapshots
  else (snapshots ++ [(shard, sstables)])%list.
Definition visible (snapshots : Snapshots) (memtables : list nat) : list nat :=
  (mjoin (map snd snapshots) ++ memtables)%list.

(** ** The world *)
Record Put : Type := mkPut { put_by : nat; put_shard : Z; put_batches : list RecordBatch }.
Record World : Type := mkWorld {
  cache : ShardWriterCache;
  table : Dataset;
  log : list Put;
  flushed : list nat;
  merges : list (Input * MergePhase);
  drains : list Drain;
  reads : list Read
}.
(** The SSTables of a shard's manifest: its flushed puts *)
Definition manifest (w : World) (shard : Z) : list nat :=
  List.filter (λ id, match log w !! id with Some p => (put_shard p =? shard)%Z | None => false end) (flushed w).
Definition set_merge (w : World) (i : nat) (input : Input) (phase : MergePhase) (c : ShardWriterCache) : World :=
  mkWorld c (table w) (log w) (flushed w) (<[i := (input, phase)]> (merges w)) (drains w) (reads w).
Definition set_drain (w : World) (i : nat) (d : Drain) (c : ShardWriterCache) : World :=
  mkWorld c (table w) (log w) (flushed w) (merges w) (<[i := d]> (drains w)) (reads w).
Definition set_read (w : World) (i : nat) (r : Read) : World :=
  mkWorld (cache w) (table w) (log w) (flushed w) (merges w) (drains w) (<[i := r]> (reads w)).

(** ** Steps of a merge *)
Definition merge_step (w : World) (i : nat) (written : bool) (answer : outcome string unit) : World :=
  match merges w !! i with
  | Some (input, MergeStart) => set_merge w i input (dispatch input (table w)) (cache w)
  | Some (input, Dispatched plan) => set_merge w i input (prepare input plan (table w)) (cache w)
  | Some (input, Wanting d plan shard batches) =>
      set_merge w i input (found d plan shard batches (cached_writer (cache w) shard)) (cache w)
  | Some (input, Missing d plan shard batches) =>
      let '(r, c) := open_writer (cache w) shard answer in
      set_merge w i input (found d plan shard batches (Some <$> r)) c
  | Some (input, Holding d plan shard batches entry) =>
      let '(r, wrote, c) := entry_put (cache w) entry (length (log w)) written answer in
      let put := match entries (cache w) !! entry with
                 | Some e => [mkPut i (entry_shard e) batches] | None => [] end in
      mkWorld c (table w) (log w ++ (if wrote : bool then put else [])) (flushed w)
        (<[i := (input, merged batches r)]> (merges w)) (drains w) (reads w)
  | _ => w
  end.

(** ** Steps of a drain *)
Definition drain_step (w : World) (i : nat) (answer : outcome string unit) : World :=
  match drains w !! i with
  | Some (mkDrain removes DrainStart) =>
      if removes then
        match disable_check (mkTable (Ok tt) (Ok (table w)) (Ok (table w)) (Ok [])) with
        | Ok _ => set_drain w i (mkDrain removes Draining) (cache w)
        | r => set_drain w i (mkDrain removes (Drained r)) (cache w)
        end
      else set_drain w i (mkDrain removes Draining) (cache w)
  | Some (mkDrain removes Draining) =>
      let '(entry, c) := take_writer (cache w) in set_drain w i (mkDrain removes (Taken entry)) c
  | Some (mkDrain removes (Taken None)) => set_drain w i (mkDrain removes (after_close removes (Ok tt))) (cache w)
  | Some (mkDrain removes (Taken (Some entry))) =>
      let '(r, puts, c) := entry_close (cache w) entry answer in
      mkWorld c (table w) (log w) (flushed w ++ puts) (merges w)
        (<[i := mkDrain removes (after_close removes r)]> (drains w)) (reads w)
  | Some (mkDrain removes Dropping) =>
      match disable_drop (mkTable (Ok tt) (Ok (table w)) (Ok (table w)) (Ok [])) with
      | Ok d =>
          mkWorld (cache w) d (log w) (flushed w) (merges w)
            (<[i := mkDrain removes (Drained (Ok tt))]> (drains w)) (reads w)
      | Err e => set_drain w i (mkDrain removes (Drained (Err e))) (cache w)
      | Panic => set_drain w i (mkDrain removes (Drained Panic)) (cache w)
      end
  | _ => w
  end.

(** ** Steps of a read *)
Definition read_step (w : World) (i : nat) : World :=
  match reads w !! i with
  | Some (mkRead wal ReadStart) => set_read w i (mkRead wal (Scanning (map entry_shard (entries (cache w))) []))
  | Some (mkRead wal (Scanning (shard :: todo) snapshots)) =>
      set_read w i (mkRead wal (Scanning todo (snapshots ++ [(shard, manifest w shard)])))
  | Some (mkRead wal (Scanning [] snapshots)) =>
      set_read w i (mkRead wal (if (wal : bool) then ReadDone snapshots [] else Looking snapshots))
  | Some (mkRead wal (Looking snapshots)) =>
      set_read w i (mkRead wal
        match slot (cache w) with
        | Some (shard, entry) => Capturing shard entry snapshots
        | None => ReadDone snapshots []
        end)
  | Some (mkRead wal (Capturing shard entry snapshots)) =>
      set_read w i (mkRead wal (Manifesting shard entry (in_memory_memtable_refs (cache w) entry) snapshots))
  | Some (mkRead wal (Manifesting shard entry memtables snapshots)) =>
      let snapshots := if is_open (cache w) entry
                       then override_snapshot shard (manifest w shard) snapshots else snapshots in
      set_read w i (mkRead wal (ReadDone snapshots (default [] memtables)))
  | _ => w
  end.

(** ** The environment: a writer flushes the first of its puts, and another
    commit moves the table on. *)
Definition flush_step (w : World) (entry n : nat) : World :=
  match entries (cache w) !! entry with
  | Some (mkEntry shard true puts) =>
      mkWorld (mkCache (slot (cache w)) (<[entry := mkEntry shard true (drop n puts)]> (entries (cache w))))
        (table w) (log w) (flushed w ++ take n puts) (merges w) (drains w) (reads w)
  | _ => w
  end.
Definition commit_step (w : World) (d : Dataset) : World :=
  mkWorld (cache w) d (log w) (flushed w) (merges w) (drains w) (reads w).

Inductive undrained_step (w : World) : World → Prop :=
  | StepMerge i written answer : (answer = Ok tt → written = true) → undrained_step w (merge_step w i written answer)
  | StepRead i : undrained_step w (read_step w i)
  | StepFlush entry n : undrained_step w (flush_step w entry n)
  | StepCommit d : undrained_step w (commit_step w d).
Inductive step (w : World) : World → Prop :=
  | StepUndrained w' : undrained_step w w' → step w w'
  | StepDrain i answer : step w (drain_step w i answer).

Definition initial (d : Dataset) (inputs : list Input) (removals : list bool) (wals : list bool) : World :=
  mkWorld empty_cache d [] [] (map (λ input, (input, MergeStart)) inputs)
    (map (λ removes, mkDrain removes DrainStart) removals) (map (λ wal, mkRead wal ReadStart) wals).
Definition reachable (inputs : list Input) (w : World) : Prop :=
  ∃ d removals wals, rtc step (initial d inputs removals wals) w.

(** * Lemmas *)

(** ** Writers keep their shards *)
Definition extends (c c' : ShardWriterCache) : Prop := ∀ e en, entries c !! e = Some en →
  ∃ en', entries c' !! e = Some en' ∧ entry_shard en' = entry_shard en.
Definition writes_shard (c : ShardWriterCache) (e : nat) (shard : Z) : Prop :=
  ∃ en, entries c !! e = Some en ∧ entry_shard en = shard.
Definition slot_ok (c : ShardWriterCache) : Prop := ∀ shard e, slot c = Some (shard, e) → writes_shard c e shard.
Lemma entries_kept c : extends c c.
Proof. intros e en He. by exists en. Qed.
Lemma extends_writes c c' e shard : extends c c' → writes_shard c e shard → writes_shard c' e shard.
Proof. intros Hx (en & He & <-). destruct (Hx _ _ He) as (en' & ? & ?). by exists en'. Qed.
Lemma extends_replace c s e en en' : entries c !! e = Some en → entry_shard en' = entry_shard en →
  extends c (mkCache s (<[e := en']> (entries c))).
Proof.
  intros He Hs j x Hj. cbn. destruct (decide (j = e)) as [->|Hne].
  - rewrite list_lookup_insert_eq by (by eapply lookup_lt_Some). simplify_eq. by exists en'.
  - rewrite list_lookup_insert_ne by done. by exists x.
Qed.
Lemma slot_ok_extends c c' : slot_ok c → extends c c' → slot c' = slot c ∨ slot c' = None → slot_ok c'.
Proof.
  intros Hs Hx [Heq|Heq] shard e; rewrite Heq; [|done]. intros H. by eapply extends_writes, Hs.
Qed.
Lemma check_shard_match_Ok a b u : check_shard_match a b = Ok u → a = b.
Proof. unfold check_shard_match. by destruct (Z.eqb_spec a b). Qed.
Lemma cached_writer_Some c shard e : slot_ok c → cached_writer c shard = Ok (Some e) → writes_shard c e shard.
Proof.
  intros Hs. unfold cached_writer. destruct (slot c) as [[cached entry]|] eqn:Hc; [|done].
  intros (u & <-%check_shard_match_Ok & [= <-])%bind_Ok. by apply Hs.
Qed.
Lemma open_writer_spec c shard answer r c' : slot_ok c → open_writer c shard answer = (r, c') →
  extends c c' ∧ slot_ok c' ∧ (∀ e, r = Ok e → writes_shard c' e shard).
Proof.
  intros Hs. unfold open_writer. destruct (slot c) as [[cached entry]|] eqn:Hc.
  - intros [= <- <-]. split_and!; [apply entries_kept|done|].
    intros e (u & <-%check_shard_match_Ok & [= <-])%bind_Ok. by apply Hs.
  - destruct answer as [u|e|]; intros [= <- <-].
    + assert (writes_shard (mkCache (Some (shard, length (entries c))) (entries c ++ [mkEntry shard true []]))
        (length (entries c)) shard) as Hw by (eexists; split; [by apply list_lookup_middle|done]).
      split_and!.
      * intros j x Hj. exists x. cbn. by rewrite lookup_app_l by (by eapply lookup_lt_Some).
      * by intros s e [= <- <-].
      * by intros e [= <-].
    + split_and!; [apply entries_kept|done|done].
    + split_and!; [apply entries_kept|done|done].
Qed.
Lemma entry_put_spec c e id written answer r wrote c' : entry_put c e id written answer = (r, wrote, c') →
  extends c c' ∧ slot c' = slot c ∧ (wrote = true → written = true ∧ is_open c e = true) ∧
  (r = Ok tt → (answer = Ok tt → written = true) → wrote = true).
Proof.
  unfold entry_put, is_open. destruct (entries c !! e) as [[shard [] puts]|] eqn:He.
  2, 3: intros [= <- <- <-]; split_and!; [apply entries_kept|done..].
  destruct written; intros [= <- <- <-].
  - split_and!; [by eapply extends_replace|done|done|done].
  - split_and!; [apply entries_kept|done|done|]. intros H%map_err_Ok Ha. by specialize (Ha H).
Qed.
Lemma entry_close_spec c e answer r puts c' : entry_close c e answer = (r, puts, c') → extends c c' ∧ slot c' = slot c.
Proof.
  unfold entry_close. destruct (entries c !! e) as [[shard [] rs]|] eqn:He; intros [= <- <- <-].
  - split; [by eapply extends_replace|done].
  - split; [apply entries_kept|done].
  - split; [apply entries_kept|done].
Qed.

(** ** What a merge has written *)
Definition puts_of (i : nat) (l : list Put) : list Put := filter (λ p, put_by p = i) l.
Definition ready (input : Input) (d : Dataset) (plan : LsmPlan) (shard : Z) (batches : list RecordBatch) : Prop :=
  prepare_lsm_merge d plan (MergeBuilder.validate_single_shard (params input)) (new_data input)
    = Ok (Some (shard, batches)).
Definition nothing_to_write (input : Input) : Prop :=
  ∃ d plan, prepare_lsm_merge d plan (MergeBuilder.validate_single_shard (params input)) (new_data input) = Ok None.
Definition settled (i : nat) (input : Input) (puts : list Put) (r : result MergeResult) : Prop :=
  (puts = [] ∧ ∀ m, r = Ok m → m = lsm_merge_result 0 ∧ nothing_to_write input) ∨
  ∃ d plan shard batches, ready input d plan shard batches ∧ puts = [mkPut i shard batches] ∧
    ∀ m, r = Ok m → m = lsm_merge_result (total_rows batches).
Definition merge_ok (w : World) (i : nat) (input : Input) (phase : MergePhase) : Prop :=
  let puts := puts_of i (log w) in
  match phase with
  | MergeStart | Dispatched _ | TookStandard => puts = []
  | Wanting d plan shard batches | Missing d plan shard batches => puts = [] ∧ ready input d plan shard batches
  | Holding d plan shard batches e => puts = [] ∧ ready input d plan shard batches ∧ writes_shard (cache w) e shard
  | Merged r => settled i input puts r
  end.
Record merges_ok (w : World) : Prop := mkMergesOk {
  ok_slot : slot_ok (cache w);
  ok_merges i input phase : merges w !! i = Some (input, phase) → merge_ok w i input phase;
  ok_shards : Forall (λ p, ∃ e, writes_shard (cache w) e (put_shard p)) (log w)
}.
Lemma shards_extend c c' (l : list Put) : extends c c' → Forall (λ p, ∃ e, writes_shard c e (put_shard p)) l →
  Forall (λ p, ∃ e, writes_shard c' e (put_shard p)) l.
Proof. intros Hx H. eapply Forall_impl; [exact H|]. intros p (e & He). exists e. by eapply extends_writes. Qed.
Lemma merge_ok_mono w w' i input phase : extends (cache w) (cache w') →
  puts_of i (log w') = puts_of i (log w) → merge_ok w i input phase → merge_ok w' i input phase.
Proof.
  intros Hx Hp. unfold merge_ok. rewrite Hp. destruct phase; try done. intros (? & ? & ?).
  split_and!; try done. by eapply extends_writes.
Qed.
Lemma merges_ok_same w w' : merges_ok w → extends (cache w) (cache w') →
  slot (cache w') = slot (cache w) ∨ slot (cache w') = None →
  log w' = log w → merges w' = merges w → merges_ok w'.
Proof.
  intros [Hs Hm Hc] Hx Hslot Hl Hms. split; [by eapply slot_ok_extends| |by rewrite Hl; apply (shards_extend (cache w))].
  intros i input phase. rewrite Hms. intros H%Hm. apply (merge_ok_mono w); [done|by rewrite Hl|done].
Qed.
Lemma set_merge_ok w i input old phase c : merges_ok w → merges w !! i = Some (input, old) →
  extends (cache w) c → slot_ok c → merge_ok (set_merge w i input phase c) i input phase →
  merges_ok (set_merge w i input phase c).
Proof.
  intros [Hs Hm Hc] Hi Hx Hslot Hok. split; [done| |by apply (shards_extend (cache w))].
  intros j input' phase'. cbn. destruct (decide (j = i)) as [->|Hne].
  - rewrite list_lookup_insert_eq by (by eapply lookup_lt_Some). by intros [= <- <-].
  - rewrite list_lookup_insert_ne by done. intros H%Hm. by apply (merge_ok_mono w).
Qed.
Lemma found_ok w i input d plan shard batches r : puts_of i (log w) = [] → ready input d plan shard batches →
  (∀ e, r = Ok (Some e) → writes_shard (cache w) e shard) → merge_ok w i input (found d plan shard batches r).
Proof.
  intros Hp Hr He. destruct r as [[e|]|e|]; cbn; [split_and!; auto|done|left; by split|left; by split].
Qed.
Lemma put_ok w i written answer input d plan shard batches e : (answer = Ok tt → written = true) → merges_ok w →
  merges w !! i = Some (input, Holding d plan shard batches e) → merges_ok (merge_step w i written answer).
Proof.
  intros Ha [Hs Hm Hc] Hi. unfold merge_step. rewrite Hi.
  destruct (entry_put _ _ _ _ _) as [[r wrote] c] eqn:Hput.
  destruct (entry_put_spec _ _ _ _ _ _ _ _ Hput) as (Hx & Hslot & _ & Hok).
  destruct (Hm _ _ _ Hi) as (Hp & Hr & en & Hen & Hshard). rewrite Hen, Hshard.
  split; cbn [cache log merges].
  - apply (slot_ok_extends (cache w)); auto.
  - intros j input' phase'. destruct (decide (j = i)) as [->|Hne].
    + rewrite list_lookup_insert_eq by (by eapply lookup_lt_Some). intros [= <- <-]. unfold merge_ok, merged. cbn [log].
      unfold puts_of in *. rewrite filter_app, Hp. destruct wrote.
      * right. exists d, plan, shard, batches. rewrite filter_cons_True by done. split_and!; [done|done|].
        intros m (u & _ & [= <-])%bind_Ok. done.
      * left. split; [done|]. intros m (u & Hru & _)%bind_Ok. destruct u. by specialize (Hok Hru Ha).
    + rewrite list_lookup_insert_ne by done. intros H%Hm.
      apply (merge_ok_mono w); [done| |done]. cbn [log]. unfold puts_of. rewrite filter_app.
      destruct wrote; [rewrite filter_cons_False by (by cbn)|]; by rewrite app_nil_r.
  - apply Forall_app. split; [by apply (shards_extend (cache w))|]. destruct wrote; [|done].
    constructor; [|done]. exists e. apply (extends_writes (cache w)); [done|by exists en].
Qed.
Lemma merge_step_ok w i written answer : (answer = Ok tt → written = true) → merges_ok w →
  merges_ok (merge_step w i written answer).
Proof.
  intros Ha Hok. unfold merge_step. destruct (merges w !! i) as [[input phase]|] eqn:Hi; [|done].
  pose proof (ok_merges _ Hok _ _ _ Hi) as Hm. destruct phase as [|plan|d plan shard bs|d plan shard bs|d plan shard bs e| |r];
    cbn [merge_ok] in Hm; try done.
  - eapply set_merge_ok; [done..|apply entries_kept|apply Hok|]. unfold dispatch.
    destruct (lsm_dispatch_decision _ _) as [[|plan]|e|]; try done; by left.
  - eapply set_merge_ok; [done..|apply entries_kept|apply Hok|]. unfold prepare.
    destruct (prepare_lsm_merge _ _ _ _) as [[[shard bs]|]|e|] eqn:Hp; try (by left); [done|].
    left. split; [done|]. intros m [= <-]. split; [done|]. by exists (table w), plan.
  - eapply set_merge_ok; [done..|apply entries_kept|apply Hok|]. apply found_ok; [apply Hm..|].
    intros e. apply cached_writer_Some, Hok.
  - destruct (open_writer _ _ _) as [r c] eqn:Ho. destruct (open_writer_spec _ _ _ _ _ (ok_slot _ Hok) Ho) as (Hx & Hs & He).
    eapply set_merge_ok; [done..|]. apply found_ok; [apply Hm..|]. intros e H.
    destruct r as [x| |]; simplify_eq/=. by apply He.
  - pose proof (put_ok w i written answer _ _ _ _ _ _ Ha Hok Hi) as H. unfold merge_step in H. by rewrite Hi in H.
Qed.
Lemma drain_step_same w i answer : let w' := drain_step w i answer in
  extends (cache w) (cache w') ∧ (slot (cache w') = slot (cache w) ∨ slot (cache w') = None) ∧
  log w' = log w ∧ merges w' = merges w.
Proof.
  cbn zeta. unfold drain_step. destruct (drains w !! i) as [[removes []]|]; try by (split_and!; auto using entries_kept).
  - destruct removes; [|by split_and!; auto using entries_kept].
    destruct (disable_check _); split_and!; auto using entries_kept.
  - cbn. split_and!; auto. intros e en He. by exists en.
  - destruct entry as [e|]; [|by split_and!; auto using entries_kept].
    destruct (entry_close _ _ _) as [[r puts] c] eqn:He. destruct (entry_close_spec _ _ _ _ _ _ He) as [? ?].
    by split_and!; auto.
  - destruct (disable_drop _); split_and!; auto using entries_kept.
Qed.
Lemma read_step_same w i : cache (read_step w i) = cache w ∧ log (read_step w i) = log w ∧
  flushed (read_step w i) = flushed w ∧ merges (read_step w i) = merges w.
Proof.
  unfold read_step. destruct (reads w !! i) as [[wal phase]|]; [|done]. by destruct phase as [|[] ?| | | |].
Qed.
Lemma flush_step_same w e n : extends (cache w) (cache (flush_step w e n)) ∧
  slot (cache (flush_step w e n)) = slot (cache w) ∧ log (flush_step w e n) = log w ∧
  merges (flush_step w e n) = merges w ∧ reads (flush_step w e n) = reads w ∧ drains (flush_step w e n) = drains w.
Proof.
  unfold flush_step. destruct (entries (cache w) !! e) as [[shard [] puts]|] eqn:He; cbn.
  - split_and!; try done. by eapply extends_replace.
  - split_and!; try done. apply entries_kept.
  - split_and!; try done. apply entries_kept.
Qed.
Lemma step_ok w w' : step w w' → merges_ok w → merges_ok w'.
Proof.
  intros [w1 [i written answer Ha|i|e n|d]|i answer] Hok.
  - by apply merge_step_ok.
  - destruct (read_step_same w i) as (Hc & Hl & _ & Hm). apply (merges_ok_same w); rewrite ?Hc; auto using entries_kept.
  - destruct (flush_step_same w e n) as (? & ? & ? & ? & _). apply (merges_ok_same w); auto.
  - apply (merges_ok_same w); auto using entries_kept.
  - destruct (drain_step_same w i answer) as (? & ? & ? & ?). by apply (merges_ok_same w).
Qed.
Lemma initial_ok d inputs removals wals : merges_ok (initial d inputs removals wals).
Proof.
  split; [done| |constructor]. intros i input phase. cbn. rewrite list_lookup_fmap.
  destruct (inputs !! i); [|done]. by intros [= <- <-].
Qed.
Lemma reachable_ok inputs w : reachable inputs w → merges_ok w ∧ map fst (merges w) = inputs.
Proof.
  intros (d & removals & wals & Hr). apply (rtc_ind_r (R := step) (λ w, merges_ok w ∧ map fst (merges w) = inputs)
    (initial d inputs removals wals)); [| |exact Hr].
  - split; [apply initial_ok|]. cbn. rewrite map_map. apply map_id.
  - clear. intros w1 w2 _ Hs [Hok Hi]. split; [by eapply step_ok|]. rewrite <-Hi.
    assert (∀ (l : list (Input * MergePhase)) i input p p', l !! i = Some (input, p) →
      map fst (<[i := (input, p')]> l) = map fst l) as Hset.
    { intros l i input p p' Hl. change (fst <$> (<[i := (input, p')]> l) = fst <$> l).
      rewrite list_fmap_insert. apply list_insert_id. by rewrite list_lookup_fmap, Hl. }
    rename w1 into w. destruct Hs as [w2 [i written answer Ha|i|e n|d']|i answer]; [| | |done|].
    + unfold merge_step. destruct (merges w !! i) as [[input phase]|] eqn:Hw; [|done].
      destruct phase; cbn; try done; try by eapply Hset.
      * destruct (open_writer _ _ _). by eapply Hset.
      * destruct (entry_put _ _ _ _ _) as [[? ?] ?]. by eapply Hset.
    + by destruct (read_step_same w i) as (_ & _ & _ & ->).
    + by destruct (flush_step_same w e n) as (_ & _ & _ & -> & _).
    + by destruct (drain_step_same w i answer) as (_ & _ & _ & ->).
Qed.
(** ** Where the rows are *)
Definition taken (w : World) (e : nat) : Prop :=
  ∃ i removes, drains w !! i = Some (mkDrain removes (Taken (Some e))).
Definition resident_in (w : World) (p e : nat) : Prop :=
  ∃ en put, entries (cache w) !! e = Some en ∧ writer_open en = true ∧ p ∈ resident en ∧
    log w !! p = Some put ∧ put_shard put = entry_shard en.
Record stores_ok (w : World) : Prop := mkStoresOk {
  all_held p : (p < length (log w))%nat → p ∈ flushed w ∨ ∃ e, resident_in w p e;
  open_known e en : entries (cache w) !! e = Some en → writer_open en = true →
    (∃ s, slot (cache w) = Some (s, e)) ∨ taken w e;
  slot_open s e : slot (cache w) = Some (s, e) →
    ∃ en, entries (cache w) !! e = Some en ∧ writer_open en = true ∧ entry_shard en = s;
  taken_out e : taken w e → (e < length (entries (cache w)))%nat ∧ ∀ s, slot (cache w) ≠ Some (s, e)
}.
Lemma stores_ok_same w w' : stores_ok w → cache w' = cache w → log w' = log w → flushed w' = flushed w →
  (∀ e, taken w' e ↔ taken w e) → stores_ok w'.
Proof.
  intros [Ha Ho Hs Ht] Hc Hl Hf Htk. split; unfold resident_in in *; rewrite ?Hc, ?Hl, ?Hf; try done.
  - intros e en. rewrite Htk. apply Ho.
  - intros e. rewrite Htk. apply Ht.
Qed.
Definition takes (p : DrainPhase) (e : nat) : Prop := p = Taken (Some e).
Lemma taken_insert w w' i old new e : drains w !! i = Some old → drains w' = <[i := new]> (drains w) →
  taken w' e ↔ takes (drain_phase new) e ∨ (∃ j removes, j ≠ i ∧ drains w !! j = Some (mkDrain removes (Taken (Some e)))).
Proof.
  intros Hi Hd. unfold taken, takes. rewrite Hd. split.
  - intros (j & r & Hj). destruct (decide (j = i)) as [->|Hne].
    + rewrite list_lookup_insert_eq in Hj by (by eapply lookup_lt_Some). simplify_eq. by left.
    + rewrite list_lookup_insert_ne in Hj by done. right. by exists j, r.
  - intros [Hn|(j & r & Hne & Hj)].
    + exists i, (removes_spec new). rewrite list_lookup_insert_eq by (by eapply lookup_lt_Some).
      destruct new as [r p]. cbn in Hn |- *. by rewrite Hn.
    + exists j, r. by rewrite list_lookup_insert_ne.
Qed.
Lemma taken_split w i old e : drains w !! i = Some old →
  taken w e ↔ takes (drain_phase old) e ∨ (∃ j removes, j ≠ i ∧ drains w !! j = Some (mkDrain removes (Taken (Some e)))).
Proof.
  intros Hi. apply (taken_insert w w i old old); [done|]. by rewrite list_insert_id.
Qed.
Lemma taken_unchanged w w' i old new : drains w !! i = Some old → drains w' = <[i := new]> (drains w) →
  (∀ e, ¬ takes (drain_phase old) e) → (∀ e, ¬ takes (drain_phase new) e) → ∀ e, taken w' e ↔ taken w e.
Proof.
  intros Hi Hd Ho Hn e. rewrite (taken_insert w w' i old new), (taken_split w i old) by done. naive_solver.
Qed.
Lemma stores_ok_same_drains w w' : stores_ok w → cache w' = cache w → log w' = log w → flushed w' = flushed w →
  drains w' = drains w → stores_ok w'.
Proof. intros H Hc Hl Hf Hd. apply (stores_ok_same w); try done. intros e. unfold taken. by rewrite Hd. Qed.

(** A writer's entry replaced by one with the same shard, open if it was *)
Lemma stores_ok_replace w w' e shard puts puts' new more : stores_ok w →
  entries (cache w) !! e = Some (mkEntry shard true puts) →
  cache w' = mkCache (slot (cache w)) (<[e := mkEntry shard true puts']> (entries (cache w))) →
  drains w' = drains w → log w' = (log w ++ new)%list → flushed w' = (flushed w ++ more)%list →
  (∀ p, p ∈ puts → p ∈ puts' ∨ p ∈ more) →
  (∀ p put, log w' !! p = Some put → (length (log w) ≤ p)%nat → put_shard put = shard ∧ p ∈ puts') → stores_ok w'.
Proof.
  intros [Ha Ho Hs Ht] He Hc Hd Hl Hf Hp Hnew.
  assert (∀ j en, entries (cache w) !! j = Some en → ∃ en', entries (cache w') !! j = Some en' ∧
    writer_open en' = writer_open en ∧ entry_shard en' = entry_shard en ∧
    (∀ p, p ∈ resident en → p ∈ resident en' ∨ p ∈ more)) as Hfwd.
  { intros j en Hj. rewrite Hc. cbn. destruct (decide (j = e)) as [->|Hne].
    - rewrite list_lookup_insert_eq by (by eapply lookup_lt_Some). rewrite He in Hj. injection Hj as <-.
      eexists. split_and!; [done..|]. cbn. apply Hp.
    - rewrite list_lookup_insert_ne by done. exists en. split_and!; try done. by left. }
  split.
  - intros p. rewrite Hl, length_app. intros Hlen. destruct (decide (p < length (log w))%nat) as [Hold|Hge].
    + destruct (Ha p Hold) as [Hin|(j & en & put & Hj & Hopen & Hin & Hput & Hshard)].
      { left. rewrite Hf. apply elem_of_app. by left. }
      destruct (Hfwd j en Hj) as (en' & Hj' & Hopen' & Hshard' & Hres).
      destruct (Hres p Hin) as [Hin'|Hin']; [right|left; rewrite Hf; apply elem_of_app; by right].
      exists j, en', put. rewrite Hopen', Hl, lookup_app_l, Hshard' by done. done.
    + destruct (lookup_lt_is_Some_2 (log w') p) as [put Hput]; [rewrite Hl, length_app; lia|].
      destruct (Hnew p put Hput) as [Hshard Hin]; [lia|]. right. exists e, (mkEntry shard true puts'), put.
      rewrite Hc. cbn. rewrite list_lookup_insert_eq by (by eapply lookup_lt_Some). done.
  - intros j en. rewrite Hc. cbn. unfold taken. rewrite Hd. destruct (decide (j = e)) as [->|Hne].
    + intros _ _. by apply (Ho e (mkEntry shard true puts)).
    + rewrite list_lookup_insert_ne by done. apply Ho.
  - intros s j Hsj. rewrite Hc in Hsj. cbn in Hsj. destruct (Hs s j Hsj) as (en & Hj & Hopen & Hshard).
    destruct (Hfwd j en Hj) as (en' & Hj' & Hopen' & Hshard' & _). exists en'. by rewrite Hopen', Hshard'.
  - intros j. rewrite Hc. cbn. unfold taken. rewrite Hd, length_insert. apply Ht.
Qed.
Lemma stores_ok_open w w' shard : stores_ok w → slot (cache w) = None →
  cache w' = mkCache (Some (shard, length (entries (cache w)))) (entries (cache w) ++ [mkEntry shard true []]) →
  drains w' = drains w → log w' = log w → flushed w' = flushed w → stores_ok w'.
Proof.
  intros [Ha Ho Hs Ht] Hslot Hc Hd Hl Hf. split.
  - intros p. rewrite Hl, Hf. intros [?|(e & en & put & He & ? & ? & ? & ?)]%Ha; [by left|]. right.
    exists e, en, put. rewrite Hc, Hl. cbn. by rewrite lookup_app_l by (by eapply lookup_lt_Some).
  - intros e en. rewrite Hc. cbn. unfold taken. rewrite Hd. intros [He|[<- He]]%lookup_snoc_Some Hopen.
    + destruct (Ho e en) as [[s ?]|?]; [by apply He|done|congruence|by right].
    + left. by eexists.
  - intros s e. rewrite Hc. cbn. intros [= <- <-]. eexists. split_and!; [by apply list_lookup_middle|done|done].
  - intros e Hte. unfold taken in Hte. rewrite Hd in Hte. destruct (Ht e Hte) as [Hlt _].
    rewrite Hc. cbn. rewrite length_app. cbn. split; [lia|]. intros s [= _ Heq]. lia.
Qed.
Lemma stores_ok_take w i removes : stores_ok w → drains w !! i = Some (mkDrain removes Draining) →
  stores_ok (drain_step w i (Ok tt)).
Proof.
  intros [Ha Ho Hs Ht] Hi. unfold drain_step. rewrite Hi. cbn [take_writer]. set (w' := set_drain _ _ _ _).
  assert (∀ e, taken w' e ↔ takes (Taken (snd <$> slot (cache w))) e ∨ taken w e) as Htk.
  { intros e. rewrite (taken_insert w w' i _ _ e Hi eq_refl), (taken_split w i _ e Hi). cbn. unfold takes. intuition done. }
  split; [done| | |].
  - intros e en He Hopen. right. rewrite Htk. destruct (Ho e en He Hopen) as [[s Hse]|?]; [left|by right].
    unfold takes. by rewrite Hse.
  - done.
  - intros e. rewrite Htk. intros [Hse|[? ?]%Ht]; [|by split]. unfold takes in Hse.
    destruct (slot (cache w)) as [[s e']|] eqn:Hslot; [|done]. cbn in Hse. injection Hse as ->.
    destruct (Hs s e eq_refl) as (en & He & _). split; [by eapply lookup_lt_Some|done].
Qed.
Lemma drain_answer w i answer : (∀ removes e, drains w !! i ≠ Some (mkDrain removes (Taken (Some e)))) →
  drain_step w i answer = drain_step w i (Ok tt).
Proof.
  intros Hn. unfold drain_step. destruct (drains w !! i) as [[removes [| |[e|]| |]]|] eqn:Hi; try done. by specialize (Hn removes e).
Qed.
Lemma stores_ok_close w i removes e answer : stores_ok w → drains w !! i = Some (mkDrain removes (Taken (Some e))) →
  stores_ok (drain_step w i answer).
Proof.
  intros Hok Hi. destruct Hok as [Ha Ho Hs Ht]. unfold drain_step. rewrite Hi.
  assert (taken w e) as Hte by (by exists i, removes).
  assert (∀ p j, ¬ takes (after_close removes p) j) as Hafter by (intros [] j; unfold takes; by destruct removes).
  assert (∀ w' p, drains w' = <[i := mkDrain removes (after_close removes p)]> (drains w) → ∀ j, taken w' j → taken w j) as Hfwd.
  { intros w' p Hd j. rewrite (taken_insert w w' i _ _ j Hi Hd), (taken_split w i _ j Hi). intros [H|H]; [by apply Hafter in H|by right]. }
  assert (∀ w' p, drains w' = <[i := mkDrain removes (after_close removes p)]> (drains w) → ∀ j, j ≠ e → taken w j → taken w' j) as Hbwd.
  { intros w' p Hd j Hne. rewrite (taken_insert w w' i _ _ j Hi Hd), (taken_split w i _ j Hi). intros [H|H]; [|by right].
    unfold takes in H. cbn in H. congruence. }
  unfold entry_close. destruct (entries (cache w) !! e) as [[shard [] puts]|] eqn:He; cbn [fst snd];
    (match goal with |- stores_ok ?w' => specialize (Hfwd w' _ eq_refl); specialize (Hbwd w' _ eq_refl); set (w1 := w') in * end).
  - split.
    + intros p Hp. destruct (Ha p Hp) as [Hin|(j & en & put & Hj & Hopen & Hin & Hput)]; cbn;
        [left; apply elem_of_app; by left|].
      destruct (decide (j = e)) as [->|Hne]; [left; apply elem_of_app; right; by simplify_eq/=|right].
      exists j, en, put. cbn. by rewrite list_lookup_insert_ne.
    + intros j en. cbn. destruct (decide (j = e)) as [->|Hne].
      * rewrite list_lookup_insert_eq by (by eapply lookup_lt_Some). by intros [= <-].
      * rewrite list_lookup_insert_ne by done. intros Hj Hopen. destruct (Ho j en Hj Hopen); [by left|right; auto].
    + intros s j Hsj. cbn in Hsj. destruct (Hs s j Hsj) as (en & Hj & ?). exists en. cbn.
      rewrite list_lookup_insert_ne; [done|]. intros <-. destruct (Ht e Hte) as [_ Hslot]. by apply (Hslot s).
    + intros j Hj%Hfwd%Ht. cbn. by rewrite length_insert.
  - split; try done.
    + intros p Hp. cbn. rewrite app_nil_r. by apply Ha.
    + intros j en Hj Hopen. destruct (Ho j en Hj Hopen) as [|Htj]; [by left|right]. apply Hbwd; [|done].
      intros ->. cbn in Hj. rewrite He in Hj. by injection Hj as <-.
    + intros j Hj%Hfwd. by apply Ht.
  - apply lookup_ge_None_1 in He. destruct (Ht e Hte) as [Hlt _]. lia.
Qed.
Lemma stores_ok_merge w i written answer : stores_ok w → stores_ok (merge_step w i written answer).
Proof.
  intros Hok. unfold merge_step. destruct (merges w !! i) as [[input phase]|]; [|done].
  destruct phase as [|plan|d plan shard bs|d plan shard bs|d plan shard bs e| |r]; try done;
    try by apply (stores_ok_same_drains w).
  - unfold open_writer. destruct (slot (cache w)) as [[cached e]|] eqn:Hs; [by apply (stores_ok_same_drains w)|].
    destruct answer; [by apply (stores_ok_open w _ shard)|by apply (stores_ok_same_drains w)..].
  - unfold entry_put. destruct (entries (cache w) !! e) as [[es [] puts]|] eqn:He.
    2, 3: apply (stores_ok_same_drains w); cbn; rewrite ?app_nil_r; done.
    destruct written; cbn; [|apply (stores_ok_same_drains w); cbn; rewrite ?app_nil_r; done].
    apply (stores_ok_replace w _ e es puts (puts ++ [length (log w)]) [mkPut i es bs] []); try done; cbn.
    + by rewrite app_nil_r.
    + intros p Hp. left. apply elem_of_app. by left.
    + intros p put Hput Hp. rewrite lookup_app_r in Hput by done.
      destruct (p - length (log w))%nat as [|k] eqn:Hk; [|by destruct k]. cbn in Hput. injection Hput as <-.
      split; [done|]. apply elem_of_app. right. apply list_elem_of_singleton. lia.
Qed.
Lemma stores_ok_flush w e n : stores_ok w → stores_ok (flush_step w e n).
Proof.
  intros Hok. unfold flush_step. destruct (entries (cache w) !! e) as [[shard [] puts]|] eqn:He; [|done..].
  apply (stores_ok_replace w _ e shard puts (drop n puts) [] (take n puts)); try done; cbn.
  - by rewrite app_nil_r.
  - intros p. rewrite <-(take_drop n puts) at 1. rewrite elem_of_app. tauto.
  - intros p put Hput Hp. apply lookup_lt_Some in Hput. lia.
Qed.
Lemma stores_ok_drain w i answer : stores_ok w → stores_ok (drain_step w i answer).
Proof.
  intros Hok. destruct (drains w !! i) as [[removes phase]|] eqn:Hi; [|unfold drain_step; by rewrite Hi].
  assert (∀ w' new, cache w' = cache w → log w' = log w → flushed w' = flushed w → (∀ e, ¬ takes phase e) →
    drains w' = <[i := mkDrain removes new]> (drains w) → (∀ e, ¬ takes new e) → stores_ok w') as Hsame.
  { intros w' new Hc Hl Hf Hp Hd Hn. apply (stores_ok_same w); try done. by eapply taken_unchanged. }
  destruct phase as [| |[e|]| |r].
  - unfold drain_step. rewrite Hi. destruct removes; [|by apply (Hsame _ Draining)].
    destruct (disable_check _) as [[]|e|]; [by apply (Hsame _ Draining)|by apply (Hsame _ (Drained (Err e)))|by apply (Hsame _ (Drained Panic))].
  - rewrite drain_answer by (intros ? ?; rewrite Hi; congruence). by apply (stores_ok_take w i removes).
  - by apply (stores_ok_close w i removes e).
  - unfold drain_step. rewrite Hi. apply (Hsame _ (after_close removes (Ok tt))); try done. intros e. by destruct removes.
  - unfold drain_step. rewrite Hi. destruct (disable_drop _) as [d|e|];
      [by apply (Hsame _ (Drained (Ok tt)))|by apply (Hsame _ (Drained (Err e)))|by apply (Hsame _ (Drained Panic))].
  - unfold drain_step. by rewrite Hi.
Qed.
Lemma stores_ok_undrained w w' : undrained_step w w' → stores_ok w → stores_ok w'.
Proof.
  intros [i written answer _|i|e n|d] Hok.
  - by apply stores_ok_merge.
  - apply (stores_ok_same_drains w); try done; unfold read_step; destruct (reads w !! i) as [[wal phase]|]; try done;
      by destruct phase as [|[] ?| | | |].
  - by apply stores_ok_flush.
  - by apply (stores_ok_same_drains w).
Qed.
Lemma stores_ok_reachable inputs w : reachable inputs w → stores_ok w.
Proof.
  intros (d & removals & wals & Hr). apply (rtc_ind_r (R := step) stores_ok (initial d inputs removals wals)); [| |done].
  - split; cbn.
    + lia.
    + intros e en He. by rewrite lookup_nil in He.
    + done.
    + intros e (i & r & Hi). cbn in Hi. rewrite list_lookup_fmap in Hi. by destruct (removals !! i).
  - intros w1 w2 _ [w3 Hs|i answer] Hok; [by apply (stores_ok_undrained w1)|by apply stores_ok_drain].
Qed.

(** ** What a read sees *)
Definition quiet (w : World) : Prop := ∀ e, ¬ taken w e.
Lemma elem_of_manifest w shard p : p ∈ manifest w shard ↔
  p ∈ flushed w ∧ ∃ put, log w !! p = Some put ∧ put_shard put = shard.
Proof.
  unfold manifest. rewrite !list_elem_of_In, filter_In. apply and_iff_compat_l.
  destruct (log w !! p) as [put|]; [rewrite Z.eqb_eq|]; naive_solver.
Qed.
Definition in_snapshots (p : nat) (snapshots : Snapshots) : Prop := ∃ shard l, (shard, l) ∈ snapshots ∧ p ∈ l.
Lemma visible_spec p snapshots memtables : p ∈ visible snapshots memtables ↔
  in_snapshots p snapshots ∨ p ∈ memtables.
Proof.
  unfold visible, in_snapshots. rewrite elem_of_app, list_elem_of_join. apply or_iff_compat_r. split.
  - intros (l & Hp & ([s l'] & -> & Hin)%list_elem_of_fmap). by exists s, l'.
  - intros (s & l & Hin & Hp). exists l. split; [done|]. by apply (list_elem_of_fmap_2 snd _ (s, l)).
Qed.
(** Snapshots hold rows of the manifests as they are now. *)
Definition snapshots_ok (w : World) (snapshots : Snapshots) : Prop :=
  ∀ shard l p, (shard, l) ∈ snapshots → p ∈ l → p ∈ manifest w shard.
Lemma in_override w shard snapshots p : snapshots_ok w snapshots →
  in_snapshots p snapshots ∨ p ∈ manifest w shard →
  in_snapshots p (override_snapshot shard (manifest w shard) snapshots).
Proof.
  intros Hok Hp. unfold override_snapshot. destruct (existsb _ snapshots) eqn:Hex.
  - apply existsb_exists in Hex as ([s l] & Hin%list_elem_of_In & Hs%Z.eqb_eq). cbn in Hs. subst s.
    assert (p ∈ manifest w shard → in_snapshots p (map (λ s, if (s.1 =? shard)%Z then (shard, manifest w shard) else s) snapshots)) as Hman.
    { intros Hm. exists shard, (manifest w shard). split; [|done]. apply list_elem_of_fmap. exists (shard, l). cbn.
      by rewrite Z.eqb_refl. }
    destruct Hp as [(s & l' & Hl & Hpl)|]; [|by apply Hman]. destruct (Z.eqb_spec s shard) as [->|Hne].
    + by apply Hman, (Hok _ l').
    + exists s, l'. split; [|done]. apply list_elem_of_fmap. exists (s, l'). cbn. by rewrite (proj2 (Z.eqb_neq _ _) Hne).
  - destruct Hp as [(s & l' & Hl & Hpl)|Hm].
    + exists s, l'. split; [apply elem_of_app; by left|done].
    + exists shard, (manifest w shard). split; [apply elem_of_app; right; by left|done].
Qed.

(** The first [n] puts are seen, or will be by the steps that are left. *)
Definition each_put (w : World) (n : nat) (seen : nat → Z → Prop) : Prop :=
  ∀ p put, (p < n)%nat → log w !! p = Some put → seen p (put_shard put).
Definition slot_holds (w : World) (shard : Z) : Prop := ∃ e, slot (cache w) = Some (shard, e).
Definition covers (w : World) (n : nat) (phase : ReadPhase) : Prop :=
  match phase with
  | ReadStart => True
  | Scanning todo sn =>
      snapshots_ok w sn ∧ each_put w n (λ p shard, in_snapshots p sn ∨ shard ∈ todo ∨ slot_holds w shard)
  | Looking sn => snapshots_ok w sn ∧ each_put w n (λ p shard, in_snapshots p sn ∨ slot_holds w shard)
  | Capturing s e sn =>
      slot (cache w) = Some (s, e) ∧ snapshots_ok w sn ∧ each_put w n (λ p shard, in_snapshots p sn ∨ shard = s)
  | Manifesting s e mem sn =>
      slot (cache w) = Some (s, e) ∧ snapshots_ok w sn ∧
      each_put w n (λ p shard, in_snapshots p sn ∨ (shard = s ∧ (p ∈ default [] mem ∨ p ∈ flushed w)))
  | ReadDone sn mem => each_put w n (λ p _, p ∈ visible sn mem)
  end.
(** What an undrained step never takes back *)
Record grows (w w' : World) : Prop := mkGrows {
  grows_log : log w `prefix_of` log w';
  grows_flushed p : p ∈ flushed w → p ∈ flushed w';
  grows_slot s e : slot (cache w) = Some (s, e) → slot (cache w') = Some (s, e);
  grows_drains : drains w' = drains w
}.
Lemma grows_same w w' : log w' = log w → flushed w' = flushed w → slot (cache w') = slot (cache w) →
  drains w' = drains w → grows w w'.
Proof. intros Hl Hf Hs Hd. split; rewrite ?Hl, ?Hf, ?Hs; done. Qed.
Lemma each_put_mono w w' n (seen seen' : nat → Z → Prop) : (n ≤ length (log w))%nat → log w `prefix_of` log w' →
  (∀ p s, seen p s → seen' p s) → each_put w n seen → each_put w' n seen'.
Proof.
  intros Hn [k Hk] Himp H p put Hp Hput. apply Himp, H; [done|]. by rewrite Hk, lookup_app_l in Hput by lia.
Qed.
Lemma snapshots_ok_mono w w' sn : grows w w' → snapshots_ok w sn → snapshots_ok w' sn.
Proof.
  intros Hg Hok s l p Hin Hp. specialize (Hok s l p Hin Hp).
  apply elem_of_manifest in Hok as (Hf & put & Hput & Hs). apply elem_of_manifest. split; [by apply Hg|].
  exists put. split; [|done]. destruct (grows_log _ _ Hg) as [k ->]. by apply lookup_app_l_Some.
Qed.
Lemma covers_mono w w' n phase : (n ≤ length (log w))%nat → grows w w' → covers w n phase → covers w' n phase.
Proof.
  intros Hn Hg. pose proof (grows_log _ _ Hg) as Hl. pose proof (snapshots_ok_mono w w') as Hs.
  assert (∀ shard, slot_holds w shard → slot_holds w' shard) as Hslot by (intros s [e He]; exists e; by apply Hg).
  destruct phase as [|todo sn|sn|s e sn|s e mem sn|sn mem]; cbn [covers]; [done|..].
  - intros [? H]. split; [by apply Hs|]. eapply each_put_mono; [done..| |exact H]. cbn. intros p sh [?|[?|?]]; auto.
  - intros [? H]. split; [by apply Hs|]. eapply each_put_mono; [done..| |exact H]. cbn. intros p sh [?|?]; auto.
  - intros (? & ? & H). split_and!; [by apply Hg|by apply Hs|]. eapply each_put_mono; [done..| |exact H]. done.
  - intros (? & ? & H). split_and!; [by apply Hg|by apply Hs|]. eapply each_put_mono; [done..| |exact H]. cbn.
    intros p sh [?|[? [?|?]]]; [by left|right; by split; [|left]|right; split; [done|right; by apply Hg]].
  - intros H. eapply each_put_mono; [done..| |exact H]. done.
Qed.
(** With no drain under way, what is not flushed is in the cached writer. *)
Lemma held_by_slot w p put : stores_ok w → quiet w → log w !! p = Some put →
  p ∈ flushed w ∨ ∃ e puts, slot (cache w) = Some (put_shard put, e) ∧ in_memory_memtable_refs (cache w) e = Some puts ∧ p ∈ puts.
Proof.
  intros Hok Hq Hput. destruct (all_held _ Hok p) as [?|(e & en & put' & He & Hopen & Hin & Hput' & Hshard)];
    [by eapply lookup_lt_Some|by left|right]. assert (put' = put) as -> by congruence.
  destruct (open_known _ Hok e en He Hopen) as [[s Hs]|Ht]; [|by apply Hq in Ht].
  destruct (slot_open _ Hok s e Hs) as (en' & He' & _ & Hs'). assert (en' = en) as -> by congruence.
  exists e, (resident en). rewrite Hshard, Hs'. split_and!; [done| |done]. unfold in_memory_memtable_refs. rewrite He.
  destruct en as [? [] ?]; [done|discriminate Hopen].
Qed.
Lemma covers_scan w n shard todo sn : stores_ok w → quiet w →
  covers w n (Scanning (shard :: todo) sn) → covers w n (Scanning todo (sn ++ [(shard, manifest w shard)])).
Proof.
  intros Hok Hq [Hs H]. split.
  - intros s l p [?|Hin]%elem_of_app; [by apply Hs|]. apply list_elem_of_singleton in Hin. by injection Hin as -> ->.
  - intros p put Hp Hput. destruct (H p put Hp Hput) as [(s & l & Hin & Hl)|[Hin|?]]; [left|..|by right; right].
    { exists s, l. split; [apply elem_of_app; by left|done]. }
    apply elem_of_cons in Hin as [Heq|?]; [|by right; left].
    destruct (held_by_slot w p put Hok Hq Hput) as [Hf|(e & _ & He & _)]; [left|right; right; by exists e].
    exists shard, (manifest w shard). split; [apply elem_of_app; right; by left|].
    apply elem_of_manifest. split; [done|by exists put].
Qed.
Lemma covers_capture w n s e sn : stores_ok w → quiet w → covers w n (Capturing s e sn) →
  covers w n (Manifesting s e (in_memory_memtable_refs (cache w) e) sn).
Proof.
  intros Hok Hq (Hslot & Hs & H). split_and!; [done|done|]. intros p put Hp Hput.
  destruct (H p put Hp Hput) as [?|Heq]; [by left|right]. split; [done|].
  destruct (held_by_slot w p put Hok Hq Hput) as [?|(e' & puts & He & Href & Hin)]; [by right|left].
  rewrite Hslot in He. injection He as _ <-. by rewrite Href.
Qed.
Lemma covers_finish w n s e mem sn : stores_ok w → covers w n (Manifesting s e mem sn) →
  covers w n (ReadDone (if is_open (cache w) e then override_snapshot s (manifest w s) sn else sn) (default [] mem)).
Proof.
  intros Hok (Hslot & Hs & H). destruct (slot_open _ Hok s e Hslot) as ([es [] puts] & He & Hopen & _); [|done].
  unfold is_open. rewrite He. intros p put Hp Hput. apply visible_spec.
  destruct (H p put Hp Hput) as [Hin|[Heq [Hin|Hf]]]; [left|by right|left]; apply in_override; auto.
  right. apply elem_of_manifest. split; [done|by exists put].
Qed.
Lemma read_step_covers w n i phase : merges_ok w → stores_ok w → quiet w → (n ≤ length (log w))%nat →
  reads w !! i = Some (mkRead false phase) → covers w n phase →
  ∃ phase', reads (read_step w i) !! i = Some (mkRead false phase') ∧ covers (read_step w i) n phase'.
Proof.
  intros Hm Hok Hq Hn Hi Hcov.
  assert (∀ phase', covers w n phase' → ∃ phase'', reads (set_read w i (mkRead false phase')) !! i
    = Some (mkRead false phase'') ∧ covers (set_read w i (mkRead false phase')) n phase'') as Hset.
  { intros phase' Hc. exists phase'. split; [by cbn; rewrite list_lookup_insert_eq by (by eapply lookup_lt_Some)|].
    apply (covers_mono w); [done|by apply grows_same|done]. }
  unfold read_step. rewrite Hi. destruct phase as [|[|shard todo] sn|sn|s e sn|s e mem sn|sn mem]; try apply Hset.
  - split; [by intros s l p ?%elem_of_nil|]. intros p put Hp Hput. right. left.
    pose proof (ok_shards _ Hm) as Hsh. rewrite Forall_forall in Hsh.
    destruct (Hsh put) as (e & en & He & <-); [by eapply list_elem_of_lookup_2|].
    apply list_elem_of_fmap_2. by eapply list_elem_of_lookup_2.
  - destruct Hcov as [Hs H]. split; [done|]. intros p put Hp Hput.
    by destruct (H p put Hp Hput) as [?|[?%elem_of_nil|?]]; [left|..|right].
  - by apply covers_scan.
  - destruct Hcov as [Hs H]. destruct (slot (cache w)) as [[s e]|] eqn:Hslot.
    + split_and!; [done|done|]. intros p put Hp Hput. destruct (H p put Hp Hput) as [?|[e' He]]; [by left|right].
      rewrite Hslot in He. by injection He as <-.
    + intros p put Hp Hput. apply visible_spec. left. destruct (H p put Hp Hput) as [?|[e' He]]; [done|congruence].
  - by apply covers_capture.
  - by apply covers_finish.
  - by exists (ReadDone sn mem).
Qed.
Lemma other_read_step w i j : i ≠ j → reads (read_step w j) !! i = reads w !! i.
Proof.
  intros Hne. unfold read_step. destruct (reads w !! j) as [[wal phase]|]; [|done].
  destruct phase as [|[] ?| | | |]; cbn; by rewrite ?list_lookup_insert_ne.
Qed.
Lemma merge_step_reads w i written answer : reads (merge_step w i written answer) = reads w ∧
  drains (merge_step w i written answer) = drains w ∧ flushed (merge_step w i written answer) = flushed w ∧
  log w `prefix_of` log (merge_step w i written answer).
Proof.
  unfold merge_step. destruct (merges w !! i) as [[input []]|]; cbn; try done.
  - by destruct (open_writer _ _ _).
  - destruct (entry_put _ _ _ _ _) as [[r wrote] c]. cbn. split_and!; try done. by apply prefix_app_r.
Qed.
Lemma merge_step_slot w i written answer s e : slot (cache w) = Some (s, e) →
  slot (cache (merge_step w i written answer)) = Some (s, e).
Proof.
  intros Hs. unfold merge_step. destruct (merges w !! i) as [[input []]|]; cbn; try done.
  - unfold open_writer. by rewrite Hs.
  - destruct (entry_put _ _ _ _ _) as [[r wrote] c] eqn:Hp. cbn. apply entry_put_spec in Hp as (_ & Hc & _). by rewrite Hc.
Qed.
Lemma undrained_grows w w' : undrained_step w w' → grows w w'.
Proof.
  intros [i written answer _|i|e n|d].
  - destruct (merge_step_reads w i written answer) as (_ & Hd & Hf & Hl). split; [done|by rewrite Hf| |done].
    intros s e. apply merge_step_slot.
  - destruct (read_step_same w i) as (Hc & Hl & Hf & _). apply grows_same; rewrite ?Hc; try done.
    unfold read_step. destruct (reads w !! i) as [[wal phase]|]; [|done]. by destruct phase as [|[] ?| | | |].
  - destruct (flush_step_same w e n) as (_ & Hs & Hl & _ & _ & Hd). split; rewrite ?Hl, ?Hs; try done.
    intros p Hp. unfold flush_step. destruct (entries (cache w) !! e) as [[shard [] puts]|]; [|done..].
    apply elem_of_app. by left.
  - by apply grows_same.
Qed.
Lemma undrained_covers w w' n i phase : undrained_step w w' → merges_ok w → stores_ok w → quiet w →
  (n ≤ length (log w))%nat → reads w !! i = Some (mkRead false phase) → covers w n phase →
  ∃ phase', reads w' !! i = Some (mkRead false phase') ∧ covers w' n phase'.
Proof.
  intros Hs Hm Hok Hq Hn Hi Hc. pose proof (undrained_grows _ _ Hs) as Hg.
  destruct Hs as [j written answer _|j|e k|d].
  - exists phase. destruct (merge_step_reads w j written answer) as (-> & _). split; [done|by apply (covers_mono w)].
  - destruct (decide (i = j)) as [<-|Hne]; [by apply (read_step_covers w n i phase)|].
    exists phase. rewrite other_read_step by done. split; [done|by apply (covers_mono w)].
  - exists phase. destruct (flush_step_same w e k) as (_ & _ & _ & _ & -> & _). split; [done|by apply (covers_mono w)].
  - exists phase. split; [done|by apply (covers_mono w)].
Qed.
Lemma undrained_run_covers w w' n i phase : rtc undrained_step w w' → merges_ok w → stores_ok w → quiet w →
  (n ≤ length (log w))%nat → reads w !! i = Some (mkRead false phase) → covers w n phase →
  ∃ phase', reads w' !! i = Some (mkRead false phase') ∧ covers w' n phase'.
Proof.
  intros Hr. revert phase. induction Hr as [w|w w1 w' Hs Hr IH]; intros phase Hm Hok Hq Hn Hi Hc; [by exists phase|].
  destruct (undrained_covers _ _ _ _ _ Hs Hm Hok Hq Hn Hi Hc) as (phase' & Hi' & Hc').
  pose proof (undrained_grows _ _ Hs) as Hg. apply (IH phase'); try done.
  - by apply (step_ok w); [apply StepUndrained|].
  - by apply (stores_ok_undrained w).
  - intros e. unfold taken. rewrite (grows_drains _ _ Hg). apply Hq.
  - pose proof (prefix_length _ _ (grows_log _ _ Hg)). lia.
Qed.
(** ** WAL-only reads

    They look at the manifests and nowhere else: what was flushed before they
    began is there, whatever runs meanwhile. *)
Definition wal_covers (w : World) (F : nat → Prop) (phase : ReadPhase) : Prop :=
  (∀ p, F p → p ∈ flushed w ∧ (p < length (log w))%nat) ∧
  match phase with
  | ReadStart => True
  | Scanning todo sn =>
      (∀ p put, F p → log w !! p = Some put → in_snapshots p sn ∨ put_shard put ∈ todo) ∧
      ∀ p, in_snapshots p sn → p ∈ flushed w
  | ReadDone sn mem => (∀ p, F p → p ∈ visible sn mem) ∧ ∀ p, p ∈ visible sn mem → p ∈ flushed w
  | _ => False
  end.
Record keeps (w w' : World) : Prop := mkKeeps {
  keeps_log : log w `prefix_of` log w';
  keeps_flushed p : p ∈ flushed w → p ∈ flushed w'
}.
Lemma wal_covers_mono w w' F phase : keeps w w' → wal_covers w F phase → wal_covers w' F phase.
Proof.
  intros [[k Hk] Hf] [HF H]. assert (∀ p, F p → log w' !! p = log w !! p) as Hsame.
  { intros p [_ Hp]%HF. rewrite Hk. by apply lookup_app_l. }
  split; [intros p Hp; destruct (HF p Hp); split; [by apply Hf|rewrite Hk, length_app; lia]|].
  destruct phase as [|todo sn|sn|s e sn|s e mem sn|sn mem]; try done.
  - destruct H as [H Hin]. split; [|auto]. intros p put Hp. rewrite Hsame by done. by apply H.
  - destruct H as [H Hin]. split; auto.
Qed.
Lemma drain_step_keeps w i answer :
  keeps w (drain_step w i answer) ∧ reads (drain_step w i answer) = reads w.
Proof.
  destruct (drain_step_same w i answer) as (_ & _ & Hl & _).
  split; [split; [by rewrite Hl|]|]; unfold drain_step; destruct (drains w !! i) as [[removes []]|]; try done.
  - destruct removes; [|done]. by destruct (disable_check _).
  - destruct entry as [e|]; [|done]. destruct (entry_close _ _ _) as [[r puts] c]. cbn.
    intros p Hp. apply elem_of_app. by left.
  - by destruct (disable_drop _).
  - destruct removes; [|done]. by destruct (disable_check _).
  - destruct entry as [e|]; [|done]. by destruct (entry_close _ _ _) as [[r puts] c].
  - by destruct (disable_drop _).
Qed.
Lemma wal_read_step w F i phase : merges_ok w → reads w !! i = Some (mkRead true phase) →
  wal_covers w F phase →
  ∃ phase', reads (read_step w i) !! i = Some (mkRead true phase') ∧ wal_covers (read_step w i) F phase'.
Proof.
  intros Hm Hi [HF H].
  assert (∀ phase', wal_covers w F phase' → ∃ phase'', reads (set_read w i (mkRead true phase')) !! i
    = Some (mkRead true phase'') ∧ wal_covers (set_read w i (mkRead true phase')) F phase'') as Hset.
  { intros phase' Hc. exists phase'. by split; [cbn; rewrite list_lookup_insert_eq by (by eapply lookup_lt_Some)|]. }
  unfold read_step. rewrite Hi. destruct phase as [|[|shard todo] sn|sn|s e sn|s e mem sn|sn mem]; try done.
  - apply Hset. split; [done|]. split; [|by intros p (? & ? & ?%elem_of_nil & _)]. intros p put _ Hput. right.
    pose proof (ok_shards _ Hm) as Hsh. rewrite Forall_forall in Hsh.
    destruct (Hsh put) as (e & en & He & <-); [by eapply list_elem_of_lookup_2|].
    apply list_elem_of_fmap_2. by eapply list_elem_of_lookup_2.
  - apply Hset. split; [done|]. destruct H as [H Hin]. split.
    + intros p Hp. apply visible_spec. left. destruct (HF p Hp) as [_ Hlt].
      destruct (lookup_lt_is_Some_2 (log w) p Hlt) as [put Hput].
      by destruct (H p put Hp Hput) as [?|?%elem_of_nil].
    + intros p [?|?%elem_of_nil]%visible_spec; [by apply Hin|done].
  - apply Hset. split; [done|]. destruct H as [H Hin]. split.
    + intros p put Hp Hput. destruct (H p put Hp Hput) as [(s & l & Hl & Hpl)|[Heq|?]%elem_of_cons]; [left|left|by right].
      { exists s, l. split; [apply elem_of_app; by left|done]. }
      exists shard, (manifest w shard). split; [apply elem_of_app; right; by left|].
      apply elem_of_manifest. split; [by apply HF|by exists put].
    + intros p (s & l & [Hl|Hl]%elem_of_app & Hpl); [apply Hin; by exists s, l|].
      apply list_elem_of_singleton in Hl. injection Hl as -> ->. by apply elem_of_manifest in Hpl as [? _].
  - exists (ReadDone sn mem). done.
Qed.
Lemma wal_step w w' F i phase : step w w' → merges_ok w → reads w !! i = Some (mkRead true phase) →
  wal_covers w F phase → ∃ phase', reads w' !! i = Some (mkRead true phase') ∧ wal_covers w' F phase'.
Proof.
  intros [w1 Hu|j answer] Hm Hi Hc; cycle 1.
  { exists phase. destruct (drain_step_keeps w j answer) as [Hk ->]. split; [done|by apply (wal_covers_mono w)]. }
  pose proof (undrained_grows _ _ Hu) as Hg. assert (keeps w w1) as Hk by (split; apply Hg).
  destruct Hu as [j written answer _|j|e k|d].
  - exists phase. destruct (merge_step_reads w j written answer) as (-> & _). split; [done|by apply (wal_covers_mono w)].
  - destruct (decide (i = j)) as [<-|Hne]; [by apply (wal_read_step w F i phase)|].
    exists phase. rewrite other_read_step by done. split; [done|by apply (wal_covers_mono w)].
  - exists phase. destruct (flush_step_same w e k) as (_ & _ & _ & _ & -> & _). split; [done|by apply (wal_covers_mono w)].
  - exists phase. split; [done|by apply (wal_covers_mono w)].
Qed.
Lemma wal_run w w' F i phase : rtc step w w' → merges_ok w → reads w !! i = Some (mkRead true phase) →
  wal_covers w F phase → ∃ phase', reads w' !! i = Some (mkRead true phase') ∧ wal_covers w' F phase'.
Proof.
  intros Hr. revert phase. induction Hr as [w|w w1 w' Hs Hr IH]; intros phase Hm Hi Hc; [by exists phase|].
  destruct (wal_step _ _ _ _ _ Hs Hm Hi Hc) as (phase' & Hi' & Hc').
  apply (IH phase'); [by apply (step_ok w)|done|done].
Qed.
End world.

(** * Properties *)
Section properties.
Context {L : Lance} {K : Kernels} {R : RoutingLaws L K}.

(** C30: however merges, reads, drains, removals of the spec, flushes and other
    commits interleave, a merge insert on the MemWAL path writes its input
    whole, once and to one shard, or not at all: until it has ended it has
    written nothing; when it reports success it wrote nothing only if its input
    has no rows, and otherwise exactly one put, made of the table's columns of
    every batch that has rows, to the shard that all of its rows route to (its
    first row, where only that is checked), and it reports that number of rows;
    a failed merge has at most that one put. *)
Theorem merges_land_whole_on_one_shard inputs w i input phase :
  Forall (λ input, valid_items (new_data input)) inputs → reachable inputs w →
  merges w !! i = Some (input, phase) →
  match phase with
  | Merged r =>
      (puts_of i (log w) = [] ∧ ∀ m, r = Ok m → m = lsm_merge_result 0 ∧
        ∃ batches, new_data input = map Ok batches ∧ filter has_rows batches = []) ∨
      ∃ d plan shard source batches,
        puts_of i (log w) = [mkPut i shard batches] ∧ new_data input = map Ok source ∧
        Forall2 (aligned (arrow_schema (schema_of d))) (filter has_rows source) batches ∧ batches ≠ [] ∧
        (∀ row, head (all_rows batches) = Some row → routes_to (mode plan) (schema_of d) shard row) ∧
        (MergeBuilder.validate_single_shard (params input) = true →
          Forall (routes_to (mode plan) (schema_of d) shard) (all_rows batches)) ∧
        ∀ m, r = Ok m → m = lsm_merge_result (total_rows batches)
  | _ => puts_of i (log w) = []
  end.
Proof.
  intros Hv Hr Hi. destruct (reachable_ok _ _ Hr) as [Hok Hin]. pose proof (ok_merges _ Hok _ _ _ Hi) as Hm.
  assert (valid_items (new_data input)) as Hitems.
  { rewrite Forall_forall in Hv. apply Hv. rewrite <-Hin. apply (list_elem_of_fmap_2 fst _ (input, phase)).
    by eapply list_elem_of_lookup_2. }
  destruct phase as [|plan|d plan shard bs|d plan shard bs|d plan shard bs e| |r]; cbn [merge_ok] in Hm;
    try done; try by destruct Hm.
  destruct Hm as [[Hp Hnone]|(d & plan & shard & bs & Hready & Hp & Hres)].
  - left. split; [done|]. intros m Hmr. destruct (Hnone m Hmr) as [-> (d & plan & Hprep)]. split; [done|].
    by destruct (prepared_merge _ _ _ _ _ Hitems Hprep) as (source & ? & ?); exists source.
  - right. destruct (prepared_merge _ _ _ _ _ Hitems Hready) as (source & ? & ? & ? & ? & ?).
    by exists d, plan, shard, source, bs.
Qed.

(** C31: a read sees what was written before it began.  A read that also looks
    at the cached writer sees every put, wherever its rows are when it looks: in
    a manifest, in the writer's memory, or moving from the one to the other
    while it reads; provided that no drain is under way when it begins and none
    runs until it ends.  A read of a table whose writers keep no memtable sees
    the puts that were flushed before it began, whatever runs meanwhile, and
    nothing that is not flushed when it ends. *)
Theorem reads_see_what_was_written inputs w w' i wal snapshots memtables :
  reachable inputs w → reads w !! i = Some (mkRead wal ReadStart) →
  rtc step w w' → reads w' !! i = Some (mkRead wal (ReadDone snapshots memtables)) →
  (wal = false → quiet w → rtc undrained_step w w' →
     ∀ p, (p < length (log w))%nat → p ∈ visible snapshots memtables) ∧
  (wal = true →
     (∀ p, (p < length (log w))%nat → p ∈ flushed w → p ∈ visible snapshots memtables) ∧
     ∀ p, p ∈ visible snapshots memtables → p ∈ flushed w').
Proof.
  intros Hr Hi Hall Hi'. pose proof (stores_ok_reachable _ _ Hr) as Hok.
  destruct (reachable_ok _ _ Hr) as [Hm _]. split.
  - intros -> Hq Hs p Hp.
    destruct (undrained_run_covers _ _ (length (log w)) _ _ Hs Hm Hok Hq (le_n _) Hi I) as (phase & Hphase & Hc).
    rewrite Hi' in Hphase. injection Hphase as <-.
    destruct (lookup_lt_is_Some_2 (log w') p) as [put Hput]; [|by apply (Hc p put)].
    assert (log w `prefix_of` log w') as Hl.
    { clear -Hs. induction Hs as [|w w1 w2 H _ IH]; [done|]. etrans; [apply (undrained_grows _ _ H)|done]. }
    apply prefix_length in Hl. lia.
  - intros ->. destruct (wal_run w w' (λ p, p ∈ flushed w ∧ (p < length (log w))%nat) i ReadStart)
      as (phase & Hphase & Hc); [done|done|done|by split|].
    rewrite Hi' in Hphase. injection Hphase as <-. destruct Hc as (_ & Hc & Hin). split; [|done].
    intros p Hp Hf. by apply Hc.
Qed.
End properties.

(** ** Runs over the table of MemWal.Demo *)
Module Demo.
Import MemWal.Demo.
Definition rows (ids : list Z) : RecordBatch :=
  mkBatch table_schema [mkArray (TOther "Int32") (map (Some ∘ VInt) ids)] (length ids).
Definition upsert : MergeInsertBuilder :=
  MergeBuilder.when_not_matched_insert_all (MergeBuilder.when_matched_update_all (MergeBuilder.new ["id"]) None).
Definition input : Input := mkInput upsert [Ok (rows []); Ok (rows [3; 19]%Z); Ok (rows [35]%Z)].
Definition start (removals : list bool) : World := initial installed [input] removals [false; true].

Lemma valid_rows ids : valid_batch (rows ids).
Proof. split; [done|]. constructor; [|done]. cbn. by rewrite length_map. Qed.
Lemma input_valid : Forall (λ i, valid_items (new_data i)) [input].
Proof.
  apply Forall_singleton. unfold valid_items, input. cbn [new_data].
  repeat apply Forall_cons_2; [intros b [= <-]; apply valid_rows..|constructor].
Qed.

(** Runs as sequences of moves *)
Inductive Move : Type := Merge | DrainMove | ReadMove | WalRead | Flush (n : nat).
Definition move (w : World) (m : Move) : World :=
  match m with
  | Merge => merge_step w 0 true (Ok tt)
  | DrainMove => drain_step w 0 (Ok tt)
  | ReadMove => read_step w 0
  | WalRead => read_step w 1
  | Flush n => flush_step w 0 n
  end.
Definition run (w : World) (moves : list Move) : World := foldl move w moves.
Lemma run_step w m : step w (move w m).
Proof.
  destruct m; [apply StepUndrained, StepMerge|apply StepDrain|apply StepUndrained, StepRead..|apply StepUndrained, StepFlush]; done.
Qed.
Lemma run_steps w moves : rtc step w (run w moves).
Proof. revert w. induction moves as [|m moves IH]; intros w; [done|]. eapply rtc_l; [apply run_step|apply IH]. Qed.
Definition drain_free (m : Move) : bool := match m with DrainMove => false | _ => true end.
Lemma run_undrained w moves : forallb drain_free moves = true → rtc undrained_step w (run w moves).
Proof.
  revert w. induction moves as [|m moves IH]; intros w; [done|]. cbn. intros [Hm Hs]%andb_true_iff.
  eapply rtc_l; [|by apply IH]. destruct m; [by apply StepMerge|done|apply StepRead..|apply StepFlush].
Qed.
Definition merged_world : World := run (start [false]) [Merge; Merge; Merge; Merge; Merge].
Definition read_world : World :=
  run merged_world [ReadMove; ReadMove; ReadMove; ReadMove; Flush 1; ReadMove; ReadMove].
(** A WAL-only read before the put is flushed, and one after it *)
Definition early_wal : World := run merged_world [WalRead; WalRead; Flush 1; WalRead].
Definition flushed_world : World := run merged_world [Flush 1].
Definition late_wal : World := run flushed_world [WalRead; DrainMove; WalRead; DrainMove; WalRead].
Definition drained_read : World :=
  run merged_world [ReadMove; ReadMove; DrainMove; DrainMove; DrainMove; ReadMove; ReadMove].
(** The spec is removed while a merge, dispatched to the MemWAL path, waits for
    its writer. *)
Definition disabled_world : World :=
  run (start [true]) [Merge; Merge; Merge; DrainMove; DrainMove; DrainMove; Merge; Merge; DrainMove].
Lemma reached removals moves : reachable [input] (run (start removals) moves).
Proof. exists installed, removals, [false; true]. apply run_steps. Qed.
Lemma merged_reached : reachable [input] merged_world.
Proof. apply reached. Qed.
Lemma flushed_reached : reachable [input] flushed_world.
Proof.
  destruct merged_reached as (d & rs & ws & Hr). exists d, rs, ws. etrans; [exact Hr|]. apply run_steps.
Qed.
End Demo.

Lemma merges_land_whole_on_one_shard_witness : ∃ r d plan shard source batches,
  merges Demo.merged_world !! 0%nat = Some (Demo.input, Merged r) ∧
  puts_of 0 (log Demo.merged_world) = [mkPut 0 shard batches] ∧
  new_data Demo.input = map Ok source ∧
  Forall2 (@aligned (arrow_schema (schema_of d))) (filter has_rows source) batches ∧
  Forall (@routes_to _ _ MemWal.Demo.routing_laws (mode plan) (schema_of d) shard) (all_rows batches).
Proof.
  assert (∃ r, merges Demo.merged_world !! 0%nat = Some (Demo.input, Merged r)) as [r Hr]
    by (eexists; vm_compute; reflexivity).
  destruct (@merges_land_whole_on_one_shard MemWal.Demo.lance
    MemWal.Demo.kernels MemWal.Demo.routing_laws [Demo.input] Demo.merged_world 0 Demo.input (Merged r)
    Demo.input_valid Demo.merged_reached Hr) as [[Hp _]|(d & plan & shard & source & batches & Hp & Hs & Ha & _ & _ & Hall & _)].
  - vm_compute in Hp. discriminate.
  - exists r, d, plan, shard, source, batches. split_and!; [exact Hr|exact Hp|exact Hs|exact Ha|]. by apply Hall.
Defined.
Lemma reads_see_what_was_written_witness : ∃ snapshots memtables snapshots',
  reads Demo.read_world !! 0%nat = Some (mkRead false (ReadDone snapshots memtables)) ∧
  0%nat ∈ visible snapshots memtables ∧
  reads Demo.late_wal !! 1%nat = Some (mkRead true (ReadDone snapshots' [])) ∧
  0%nat ∈ visible snapshots' [].
Proof.
  assert (∃ sn mem, reads Demo.read_world !! 0%nat = Some (mkRead false (ReadDone sn mem))) as (sn & mem & Hr)
    by (eexists _, _; vm_compute; reflexivity).
  assert (∃ sn, reads Demo.late_wal !! 1%nat = Some (mkRead true (ReadDone sn []))) as (sn' & Hr')
    by (eexists; vm_compute; reflexivity).
  exists sn, mem, sn'. split; [exact Hr|]. split; [|split; [exact Hr'|]].
  - destruct (@reads_see_what_was_written MemWal.Demo.lance
      MemWal.Demo.kernels [Demo.input] Demo.merged_world Demo.read_world 0 false sn mem Demo.merged_reached)
      as [Hread _].
    + vm_compute. reflexivity.
    + apply Demo.run_steps.
    + exact Hr.
    + apply (Hread eq_refl).
      * intros e (i & removes & Hi). destruct i as [|[|i]]; vm_compute in Hi; discriminate.
      * by apply Demo.run_undrained.
      * vm_compute. lia.
  - destruct (@reads_see_what_was_written MemWal.Demo.lance
      MemWal.Demo.kernels [Demo.input] Demo.flushed_world Demo.late_wal 1 true sn' [] Demo.flushed_reached)
      as [_ Hread].
    + vm_compute. reflexivity.
    + apply Demo.run_steps.
    + exact Hr'.
    + apply (Hread eq_refl); [vm_compute; lia|apply list_elem_of_In; vm_compute; auto].
Defined.

(** A WAL-only read misses a put that was acknowledged before it began and is
    flushed while it looks. *)
Theorem wal_read_misses_unflushed : @reachable MemWal.Demo.lance MemWal.Demo.kernels [Demo.input] Demo.merged_world ∧
  rtc (@step MemWal.Demo.lance MemWal.Demo.kernels) Demo.merged_world Demo.early_wal ∧
  merges Demo.merged_world !! 0%nat = Some (Demo.input, Merged (Ok (lsm_merge_result 3))) ∧
  ∃ snapshots, reads Demo.early_wal !! 1%nat = Some (mkRead true (ReadDone snapshots [])) ∧
    visible snapshots [] = [].
Proof.
  split_and!; [apply Demo.merged_reached|apply Demo.run_steps|vm_compute; reflexivity|].
  eexists. split; vm_compute; reflexivity.
Qed.

(** A drain that runs inside a read hides rows from it: the read took the
    manifest before the drain flushed the writer, and found the slot empty
    afterwards. *)
Theorem drain_hides_written_rows : @reachable MemWal.Demo.lance MemWal.Demo.kernels [Demo.input] Demo.merged_world ∧
  rtc (@step MemWal.Demo.lance MemWal.Demo.kernels) Demo.merged_world Demo.drained_read ∧ length (log Demo.merged_world) = 1%nat ∧
  ∃ snapshots, reads Demo.drained_read !! 0%nat = Some (mkRead false (ReadDone snapshots [])) ∧
    visible snapshots [] = [].
Proof.
  split_and!; [apply Demo.merged_reached|apply Demo.run_steps|vm_compute; reflexivity|].
  eexists. split; vm_compute; reflexivity.
Qed.
(** A merge that was dispatched before [disable_memwal] drained the cache opens
    a writer after it: its rows are acknowledged, the spec is gone, and they sit
    in the memory of a writer that no read will look at. *)
Theorem disable_strands_a_merge : @reachable MemWal.Demo.lance MemWal.Demo.kernels [Demo.input] Demo.disabled_world ∧
  drains Demo.disabled_world !! 0%nat = Some (mkDrain true (Drained (Ok tt))) ∧
  @mem_wal_index_details MemWal.Demo.lance (table Demo.disabled_world) = Ok None ∧
  merges Demo.disabled_world !! 0%nat = Some (Demo.input, Merged (Ok (lsm_merge_result 3))) ∧
  in_memory_memtable_refs (cache Demo.disabled_world) 0 = Some [0%nat] ∧ flushed Demo.disabled_world = [].
Proof. split; [apply (Demo.reached [true])|]. split_and!; vm_compute; reflexivity. Qed.
End ShardWriter.
