(* ===== verification/WriteCast.v ===== *)
(** * Fitting a write to the table's schema (table/datafusion/cast.rs,
    blob_coerce.rs, reject_nan.rs)

    A write is projected onto the fields of the table before Lance sees it:
    structs are rebuilt field by field, text is labelled as JSON, raw bytes and
    strings become blobs, everything else is cast.  The projection is a physical
    plan, evaluated batch by batch over arrays whose null parents may hide
    non-null children.  Arrow's kernels and DataFusion's functions are
    parameters. *)

From Stdlib Require Import String.
From stdpp Require Import strings gmap.
From S2P Require Import Prelude RustStr Schema ComputedColumns MergeBuilder.

Module WriteCast.
Import Schema.
Import ComputedColumns (Planner, is_blob_v2).
Import MergeBuilder (field_tree_has_blob_v2).
Local Open Scope string_scope.

(** ** Arrays

    A list array's items stand end to end; [lengths] is one run per row, null
    rows included.  A leaf is an array the code does not look into. *)
Inductive ListKind : Type := SmallList | LargeList | FixedSize (size : Z).
Inductive Array (V : Type) : Type :=
  | Leaf (t : DataType) (cells : list (option V))
  | StructArray (fields : list Field) (children : list (Array V)) (validity : list bool)
  | ListArray (kind : ListKind) (item : Field) (lengths : list nat) (validity : list bool) (items : Array V).
Arguments Leaf {V} _ _.
Arguments StructArray {V} _ _ _.
Arguments ListArray {V} _ _ _ _ _.

Definition list_type (kind : ListKind) (item : Field) : DataType :=
  match kind with
  | SmallList => TList item
  | LargeList => TLargeList item
  | FixedSize size => TFixedSizeList item size
  end.
Definition list_parts (t : DataType) : option (ListKind * Field) :=
  match t with
  | TList item => Some (SmallList, item)
  | TLargeList item => Some (LargeList, item)
  | TFixedSizeList item size => Some (FixedSize size, item)
  | _ => None
  end.
Definition data_type {V} (a : Array V) : DataType :=
  match a with
  | Leaf t _ => t
  | StructArray fs _ _ => TStruct fs
  | ListArray kind item _ _ _ => list_type kind item
  end.
Definition array_len {V} (a : Array V) : nat :=
  match a with
  | Leaf _ cells => length cells
  | StructArray _ _ validity | ListArray _ _ _ validity _ => length validity
  end.

(** ** Values: what a row of an array means, hidden children left out *)
Inductive Value (V : Type) : Type :=
  | VNull
  | VCell (v : V)
  | VStruct (children : list (string * Value V))
  | VList (items : list (Value V)).
Arguments VNull {V}.
Arguments VCell {V} _.
Arguments VStruct {V} _.
Arguments VList {V} _.
Definition run_start (lengths : list nat) (i : nat) : nat := sum_list (take i lengths).
Definition run_of (lengths : list nat) (i : nat) : list nat :=
  seq (run_start lengths i) (default 0 (lengths !! i)).
Fixpoint value {V} (a : Array V) (i : nat) : Value V :=
  match a with
  | Leaf _ cells => match cells !! i with Some (Some v) => VCell v | _ => VNull end
  | StructArray fs children validity =>
      if default false (validity !! i)
      then VStruct (zip (map field_name fs) (map (λ c, value c i) children)) else VNull
  | ListArray _ _ lengths validity items =>
      if default false (validity !! i) then VList (map (value items) (run_of lengths i)) else VNull
  end.
Definition is_null {V} (v : Value V) : bool := match v with VNull => true | _ => false end.

(** ** Physical expressions *)
Inductive PhysicalExpr : Type :=
  | Column (name : string) (index : nat)
  | CastExpr (e : PhysicalExpr) (t : DataType)
  | GetField (e : PhysicalExpr) (name : string)
  | NamedStruct (args : list (string * PhysicalExpr))
  | RestoreValidity (rebuilt source : PhysicalExpr)
  | NullLiteral (t : DataType)
  | AbsentBlobIsNull (source built : PhysicalExpr) (field : Field) (dropped_ranges : list nat)
      (ancestors : list PhysicalExpr)
  | CoerceBlobList (source : PhysicalExpr) (input_item : Field) (item_expr : PhysicalExpr) (field : Field)
      (ancestors : list PhysicalExpr).

Class Kernels (V : Type) : Type := {
  can_cast_types : DataType → DataType → bool;
  cast : Array V → DataType → outcome string (Array V);
  nullif : Array V → list bool → outcome string (Array V);
  get_field : Array V → string → outcome string (Array V);
  named_struct : list (string * Array V) → nat → outcome string (Array V);
  null_array : DataType → nat → Array V;
  struct_try_new : list Field → list (Array V) → list bool → nat → outcome string (Array V);
  batch_try_new : list Field → list (Array V) → outcome string unit;
  list_try_new : ListKind → Field → list nat → list bool → Array V → outcome string (Array V);
  bool_cell : bool → V;
  cell_is_nan : V → bool
}.
(** JSON extension types (lance-arrow) and typed null scalars (DataFusion) *)
Class Extensions : Type := {
  is_json_field : Field → bool;
  is_arrow_json_field : Field → bool;
  has_json_fields : Field → bool;
  ARROW_EXT_NAME_KEY : string;
  ARROW_JSON_EXT_NAME : string;
  try_new_null : DataType → outcome string unit
}.

Section build.
Context {P : Planner} {X : Extensions} {can_cast : DataType → DataType → bool}.

(** ** Labelling JSON text *)
Definition arrow_json_storage_type (input : DataType) : option DataType :=
  match input with
  | TOther name =>
      if String.eqb name "Utf8" || String.eqb name "Utf8View" then Some (TOther "Utf8")
      else if String.eqb name "LargeUtf8" then Some (TOther "LargeUtf8") else None
  | _ => None
  end.
Definition arrow_json_field (table_field : Field) (storage : DataType) : Field :=
  mkField (field_name table_field) storage (field_nullable table_field)
    (<[ARROW_EXT_NAME_KEY := ARROW_JSON_EXT_NAME]> (field_metadata table_field)).
Definition find_field (fs : list Field) (name : string) : option Field :=
  List.find (λ f, String.eqb (field_name f) name) fs.
Fixpoint json_write_target (input_field table_field : Field) {struct table_field} : option Field :=
  if is_json_field table_field then
    storage ← (if is_arrow_json_field input_field then Some (field_type input_field)
               else arrow_json_storage_type (field_type input_field));
    Some (arrow_json_field table_field storage)
  else if negb (has_json_fields table_field) then None
  else
    let 'mkField name t nullable metadata := table_field in
    relabelled ← (match t with
      | TList table_item =>
          '(_, input_item) ← list_parts (field_type input_field);
          item ← json_write_target input_item table_item; Some (TList item)
      | TLargeList table_item =>
          '(_, input_item) ← list_parts (field_type input_field);
          item ← json_write_target input_item table_item; Some (TLargeList item)
      | TFixedSizeList table_item size =>
          '(_, input_item) ← list_parts (field_type input_field);
          item ← json_write_target input_item table_item; Some (TFixedSizeList item size)
      | TMap table_entries sorted =>
          match field_type input_field with
          | TMap input_entries _ => entries ← json_write_target input_entries table_entries; Some (TMap entries sorted)
          | _ => None
          end
      | TStruct table_children =>
          match field_type input_field with
          | TStruct input_children =>
              let relabel (child : Field) :=
                input_child ← find_field input_children (field_name child);
                json_write_target input_child child in
              if existsb (λ child, match relabel child with Some _ => true | None => false end) table_children
              then Some (TStruct (map (λ child, default child (relabel child)) table_children))
              else None
          | _ => None
          end
      | _ => None
      end);
    Some (mkField name relabelled nullable metadata).

(** ** Blobs (blob_coerce.rs) *)
Inductive BlobInputShape : Type := Bytes | Text | Children (children : list Field).
Definition typed_null (t : DataType) : result PhysicalExpr :=
  _ ← map_err (λ _, InvalidInput "cannot build null literal for blob child type {data_type}: {e}") (try_new_null t);
  Ok (NullLiteral t).
Definition has_field (fs : list Field) (name : string) : bool :=
  existsb (λ f, String.eqb (field_name f) name) fs.
Definition is_range (name : string) : bool := String.eqb name "position" || String.eqb name "size".
Fixpoint check_blob_children (declared : list Field) (names : list string) (children : list Field)
    : result unit :=
  match children with
  | [] => Ok tt
  | child :: children =>
      let name := field_name child in
      if existsb (String.eqb name) names
      then Err (InvalidInput ("blob child '" +:+ name +:+ "' in column '{}' is specified more than once"))
      else if negb (has_field declared name) && negb (is_range name)
      then Err (InvalidInput ("unknown blob child '" +:+ name +:+ "' in column '{}'"))
      else check_blob_children declared (name :: names) children
  end.
Definition in_names (names : list string) (t : DataType) : bool :=
  match t with TOther name => existsb (String.eqb name) names | _ => false end.
(** [None]: the input has type [Null] *)
Definition input_shape (declared : list Field) (input : DataType) : result (option BlobInputShape) :=
  match input with
  | TNull => Ok None
  | TStruct children =>
      if negb (has_field children "data" || has_field children "uri")
      then Err (InvalidInput "blob struct input for column '{}' must contain a 'data' or 'uri' child")
      else _ ← check_blob_children declared [] children; Ok (Some (Children children))
  | TLargeBinary => Ok (Some Bytes)
  | t =>
      if in_names ["Binary"; "BinaryView"] t then Ok (Some Bytes)
      else if in_names ["Utf8"; "LargeUtf8"; "Utf8View"] t then Ok (Some Text)
      else Err (InvalidInput "cannot coerce column '{}' with type {} into a blob v2 struct. expected binary bytes (Binary, LargeBinary, BinaryView), strings (Utf8, LargeUtf8, Utf8View), or a Struct with a 'data' or 'uri' child")
  end.
Definition blob_child (shape : BlobInputShape) (input_expr : PhysicalExpr) (declared : Field)
    : result (string * PhysicalExpr) :=
  let name := field_name declared in
  value ← (match shape with
           | Bytes =>
               if String.eqb name "data" then Ok (CastExpr input_expr (field_type declared))
               else typed_null (field_type declared)
           | Text =>
               if String.eqb name "uri" then Ok (CastExpr input_expr (field_type declared))
               else typed_null (field_type declared)
           | Children children =>
               match find_field children name with
               | Some child =>
                   let field_expr := GetField input_expr name in
                   Ok (if bool_decide (field_type child = field_type declared) then field_expr
                       else CastExpr field_expr (field_type declared))
               | None => typed_null (field_type declared)
               end
           end);
  Ok (name, value).
Fixpoint dropped_from (declared : list Field) (index : nat) (children : list Field) : list nat :=
  match children with
  | [] => []
  | child :: children =>
      let rest := dropped_from declared (S index) children in
      if is_range (field_name child) && negb (has_field declared (field_name child)) then index :: rest else rest
  end.
Definition dropped_ranges (declared : list Field) (shape : BlobInputShape) : list nat :=
  match shape with Children children => dropped_from declared 0 children | _ => [] end.
Definition coerce_blob_expr (input_expr : PhysicalExpr) (input_field table_field : Field)
    (ancestors : list PhysicalExpr) : result (PhysicalExpr * Field) :=
  match field_type table_field with
  | TStruct declared =>
      shape ← input_shape declared (field_type input_field);
      match shape with
      | None => Ok (CastExpr input_expr (field_type table_field), table_field)
      | Some shape =>
          args ← try_map (blob_child shape input_expr) declared;
          Ok (AbsentBlobIsNull input_expr (NamedStruct args) table_field (dropped_ranges declared shape) ancestors,
              table_field)
      end
  | _ => Err (InvalidInput "blob v2 column '{}' must be a struct, table declares {}")
  end.

(** ** One field of the table *)
Definition with_type (f : Field) (t : DataType) : Field :=
  mkField (field_name f) t (field_nullable f) (field_metadata f).
Definition with_name (f : Field) (name : string) : Field :=
  mkField name (field_type f) (field_nullable f) (field_metadata f).
Definition VALIDITY_FIELD : string := "__blob_parent_validity".
Definition null_literal (field : Field) : result PhysicalExpr :=
  _ ← map_err (λ _, InvalidInput "cannot build null literal for column '{}' of type {}: {e}")
        (try_new_null (field_type field));
  Ok (NullLiteral (field_type field)).
Definition restore_struct_validity (rebuilt input_expr : PhysicalExpr) (input_field : Field) : PhysicalExpr :=
  if field_nullable input_field then RestoreValidity rebuilt input_expr else rebuilt.
(** The JSON target of a field that is not a struct, if the input casts to it *)
Definition json_cast_target (input_field table_field : Field) : option Field :=
  match field_type table_field with
  | TStruct _ => None
  | _ =>
      target ← json_write_target input_field table_field;
      if can_cast (field_type input_field) (field_type target) then Some target else None
  end.
Fixpoint position (fs : list Field) (name : string) : option (nat * Field) :=
  match fs with
  | [] => None
  | f :: fs =>
      if String.eqb (field_name f) name then Some (0%nat, f)
      else '(i, g) ← position fs name; Some (S i, g)
  end.
(** The fields of the table that the input has, each with its expression:
    [field_expr] is the body of the loop. *)
Definition fields_exprs (field_expr : Field → Field → PhysicalExpr → list PhysicalExpr → result (PhysicalExpr * Field))
    (input_fields : list Field) (get_input_expr : nat → Field → PhysicalExpr) (ancestors : list PhysicalExpr)
    : list Field → result (list (PhysicalExpr * Field)) :=
  fix go table_fields :=
    match table_fields with
    | [] => Ok []
    | table_field :: table_fields =>
        match position input_fields (field_name table_field) with
        | None => go table_fields
        | Some (index, input_field) =>
            e ← field_expr table_field input_field (get_input_expr index input_field) ancestors;
            es ← go table_fields;
            Ok (e :: es)
        end
    end.
Definition plain_expr (table_field input_field : Field) (input_expr : PhysicalExpr) : result (PhysicalExpr * Field) :=
  let output_field := mkField (field_name table_field) (field_type table_field) (field_nullable table_field) ∅ in
  if bool_decide (field_type input_field = field_type table_field) then Ok (input_expr, output_field)
  else if can_cast (field_type input_field) (field_type table_field)
  then Ok (CastExpr input_expr (field_type table_field), output_field)
  else Err (InvalidInput ("cannot cast field '" +:+ field_name table_field +:+ "' from {} to {}")).
Definition is_null_type (t : DataType) : bool := match t with TNull => true | _ => false end.
Fixpoint field_expr (table_field input_field : Field) (input_expr : PhysicalExpr) (ancestors : list PhysicalExpr)
    {struct table_field} : result (PhysicalExpr * Field) :=
  if is_json_field table_field && is_arrow_json_field input_field
     && bool_decide (input_field = arrow_json_field table_field (field_type input_field))
  then Ok (input_expr, input_field)
  else match json_cast_target input_field table_field with
  | Some target => Ok (CastExpr input_expr (field_type target), target)
  | None =>
    if is_blob_v2 table_field && negb (bool_decide (input_field = table_field))
    then coerce_blob_expr input_expr input_field table_field ancestors
    else
      let 'mkField name t nullable metadata := table_field in
      let other :=
        if is_null_type (field_type input_field) && negb (is_null_type t)
        then e ← null_literal table_field; Ok (e, table_field)
        else match t, field_type input_field with
        | TStruct tbl_children, TStruct in_children =>
            if bool_decide (in_children = tbl_children) then plain_expr table_field input_field input_expr
            else
              sub_exprs ← fields_exprs field_expr in_children (λ _ child, GetField input_expr (field_name child))
                            (ancestors ++ [input_expr]) tbl_children;
              let output_field := with_type table_field (TStruct (map snd sub_exprs)) in
              let ns_expr := NamedStruct (map (λ e, (field_name e.2, e.1)) sub_exprs) in
              Ok (restore_struct_validity ns_expr input_expr input_field, output_field)
        | _, _ => plain_expr table_field input_field input_expr
        end in
      let list_field (table_item : Field) (rebuild : Field → DataType) :=
        match list_parts (field_type input_field) with
        | Some (_, input_item) =>
            if negb (field_tree_has_blob_v2 table_item) || bool_decide (input_item = table_item) then other
            else
              item ← field_expr table_item (with_name input_item (field_name table_item))
                       (Column (field_name input_item) 0) [Column VALIDITY_FIELD 1];
              let output_field := with_type table_field (rebuild item.2) in
              Ok (CoerceBlobList input_expr input_item item.1 output_field ancestors, output_field)
        | None => other
        end in
      match t with
      | TList table_item => list_field table_item TList
      | TLargeList table_item => list_field table_item TLargeList
      | TFixedSizeList table_item size => list_field table_item (λ f, TFixedSizeList f size)
      | _ => other
      end
  end.
Definition build_field_exprs (input_fields table_fields : list Field) (get_input_expr : nat → Field → PhysicalExpr)
    (ancestors : list PhysicalExpr) : result (list (PhysicalExpr * Field)) :=
  fields_exprs field_expr input_fields get_input_expr ancestors table_fields.
(** [None]: the input already has the table's fields *)
Definition cast_to_table_schema (input_fields table_fields : list Field)
    : result (option (list (PhysicalExpr * Field))) :=
  if bool_decide (input_fields = table_fields) then Ok None
  else
    exprs ← build_field_exprs input_fields table_fields (λ index f, Column (field_name f) index) [];
    Ok (Some exprs).
End build.

(** ** Evaluation *)
Section evaluate.
Context {V : Type} {K : Kernels V}.

Definition arrow {A} (o : outcome string A) : result A := map_err Arrow o.
(** Whether each row is valid: [logical_nulls], negated *)
Definition valid_rows (a : Array V) : list bool := map (λ i, negb (is_null (value a i))) (seq 0 (array_len a)).
Definition all_valid (n : nat) : list bool := replicate n true.
(** [NullBuffer::union] *)
Definition both_valid (a b : list bool) : list bool := zip_with andb a b.
(** [expand_list_nulls] *)
Definition expand_validity (lengths : list nat) (validity : list bool) : list bool :=
  mjoin (zip_with (λ n v, replicate n v) lengths validity).

Definition restore_validity (rebuilt source : Array V) (n : nat) : result (Array V) :=
  match rebuilt with
  | StructArray fs children _ => arrow (struct_try_new fs children (valid_rows source) n)
  | _ => Err (External "restore_validity expects a struct, got {}")
  end.
(** The check of byte ranges that the table cannot store *)
Definition range_dropped (validity : list bool) (children : list (Array V)) (index : nat) : bool :=
  match children !! index with
  | Some child => existsb id (both_valid validity (valid_rows child))
  | None => false
  end.
Definition absent_blob_is_null (source : Array V) (dropped : list nat) (ancestors : list bool)
    (built : result (Array V)) : result (Array V) :=
  _ ← (match dropped, source with
       | [], _ => Ok tt
       | _, StructArray _ children validity =>
           if existsb (range_dropped (both_valid validity ancestors) children) dropped
           then Err (External "blob storage schema cannot store byte ranges in column '{}': position and size must both be null")
           else Ok tt
       | _, _ => Panic
       end);
  built ← built;
  if forallb id (valid_rows source) then Ok built
  else arrow (nullif built (map negb (valid_rows source))).
Definition intermediate_list (field input_item : Field) : option (ListKind * DataType) :=
  '(kind, _) ← list_parts (field_type field); Some (kind, list_type kind input_item).
(** The items of a list and the column that carries the validity of their rows *)
Definition item_batch (lengths : list nat) (validity ancestors : list bool) (items : Array V) : list (Array V) :=
  let item_validity := expand_validity lengths (both_valid validity ancestors) in
  [items; Leaf (TOther "Boolean") (map (λ v : bool, if v then Some (bool_cell true) else None) item_validity)].
Definition output_item (field : Field) (fallback : Field) : Field :=
  match list_parts (field_type field) with Some (_, item) => item | None => fallback end.

Fixpoint evaluate (e : PhysicalExpr) (columns : list (Array V)) (n : nat) {struct e} : result (Array V) :=
  let ancestor_validity (ancestors : list PhysicalExpr) : result (list bool) :=
    arrays ← try_map (λ a, evaluate a columns n) ancestors;
    Ok (foldl both_valid (all_valid n) (map valid_rows arrays)) in
  match e with
  | Column name index => ok_or (External "column index out of range") (columns !! index)
  | CastExpr e t => a ← evaluate e columns n; arrow (cast a t)
  | GetField e name => a ← evaluate e columns n; arrow (get_field a name)
  | NamedStruct args =>
      children ← try_map (λ arg, a ← evaluate arg.2 columns n; Ok (arg.1, a)) args;
      arrow (named_struct children n)
  | RestoreValidity rebuilt source =>
      rebuilt ← evaluate rebuilt columns n;
      source ← evaluate source columns n;
      restore_validity rebuilt source n
  | NullLiteral t => Ok (null_array t n)
  | AbsentBlobIsNull source built field dropped ancestors =>
      source ← evaluate source columns n;
      ancestors ← (match dropped with [] => Ok (all_valid n) | _ => ancestor_validity ancestors end);
      absent_blob_is_null source dropped ancestors (evaluate built columns n)
  | CoerceBlobList source input_item item_expr field ancestors =>
      source ← evaluate source columns n;
      intermediate ← unwrap (intermediate_list field input_item);
      let '(kind, t) := intermediate in
      source ← (if bool_decide (data_type source = t) then Ok source else arrow (cast source t));
      ancestors ← ancestor_validity ancestors;
      match source with
      | ListArray kind _ lengths validity items =>
          let batch := item_batch lengths (valid_rows source) ancestors items in
          _ ← arrow (batch_try_new [input_item; mkField VALIDITY_FIELD (TOther "Boolean") true ∅] batch);
          coerced ← evaluate item_expr batch (array_len items);
          arrow (list_try_new kind (output_item field input_item) lengths validity coerced)
      | _ => Err (External "coerce_blob_list expected a list, got {other}")
      end
  end.

(** ** Rejecting NaN (reject_nan.rs) *)
Definition is_vector_field (f : Field) : bool :=
  match field_type f with
  | TFixedSizeList child _ => in_names ["Float16"; "Float32"; "Float64"] (field_type child)
  | _ => false
  end.
Definition cell_nan (v : Value V) : bool := match v with VCell v => cell_is_nan v | _ => false end.
Definition check_no_nans (a : Array V) : result unit :=
  match a with
  | ListArray (FixedSize _) item _ _ _ =>
      let has_nan (row : Value V) : bool :=
        match row with
        | VList items => in_names ["Float16"; "Float32"; "Float64"] (field_type item) && existsb cell_nan items
        | _ => false
        end in
      if existsb (λ i, has_nan (value a i)) (seq 0 (array_len a))
      then Err (Arrow "Vector column contains NaN values") else Ok tt
  | _ => Err (External "reject_nan expected FixedSizeList")
  end.
Definition reject_nan_vectors (fs : list Field) (columns : list (Array V)) : result (list (Array V)) :=
  try_map (λ c : Field * Array V,
    if is_vector_field c.1 then _ ← check_no_nans c.2; Ok c.2 else Ok c.2) (zip fs columns).

(** ** The projection of a batch *)
Definition project (exprs : list (PhysicalExpr * Field)) (columns : list (Array V)) (n : nat)
    : result (list (Array V)) :=
  try_map (λ e, evaluate e.1 columns n) exprs.
End evaluate.

(** * What a write means, value by value *)
Section reference.
Context {V : Type} {K : Kernels V} {P : Planner} {X : Extensions}.
Context (cast_value : DataType → DataType → Value V → Value V).

Definition child_value (children : list (string * Value V)) (index : nat) : Value V :=
  default VNull (snd <$> children !! index).
(** A blob: its bytes, its URI, or its children by name; a byte range that the
    table has no place for must be null. *)
Definition blob_child_value (shape : BlobInputShape) (input : DataType) (v : Value V) (declared : Field) : Value V :=
  let name := field_name declared in
  match shape with
  | Bytes => if String.eqb name "data" then cast_value input (field_type declared) v else VNull
  | Text => if String.eqb name "uri" then cast_value input (field_type declared) v else VNull
  | Children children =>
      match position children name, v with
      | Some (index, child), VStruct vs => cast_value (field_type child) (field_type declared) (child_value vs index)
      | _, _ => VNull
      end
  end.
Definition loses_range (dropped : list nat) (v : Value V) : bool :=
  match v with VStruct vs => existsb (λ index, negb (is_null (child_value vs index))) dropped | _ => false end.
Definition coerce_blob (table_field input_field : Field) (v : Value V) : option (Value V) :=
  match field_type table_field with
  | TStruct declared =>
      match input_shape declared (field_type input_field) with
      | Ok (Some shape) =>
          if loses_range (dropped_ranges declared shape) v then None
          else Some (VStruct (map (λ d, (field_name d, blob_child_value shape (field_type input_field) v d)) declared))
      | _ => None
      end
  | _ => None
  end.
Definition coerce_children (coerce : Field → Field → Value V → option (Value V)) (input_fields : list Field)
    (vs : list (string * Value V)) : list Field → option (list (string * Value V)) :=
  fix go table_fields :=
    match table_fields with
    | [] => Some []
    | table_field :: table_fields =>
        match position input_fields (field_name table_field) with
        | None => go table_fields
        | Some (index, input_field) =>
            w ← coerce table_field input_field (child_value vs index);
            ws ← go table_fields;
            Some ((field_name table_field, w) :: ws)
        end
    end.
(** [None]: the value cannot be stored *)
Fixpoint coerce (table_field input_field : Field) (v : Value V) {struct table_field} : option (Value V) :=
  if is_null v then Some VNull
  else if is_json_field table_field && is_arrow_json_field input_field
     && bool_decide (input_field = arrow_json_field table_field (field_type input_field))
  then Some v
  else match json_cast_target (can_cast := can_cast_types) input_field table_field with
  | Some target => Some (cast_value (field_type input_field) (field_type target) v)
  | None =>
    if is_blob_v2 table_field && negb (bool_decide (input_field = table_field))
    then coerce_blob table_field input_field v
    else
      let 'mkField name t _ _ := table_field in
      let plain := Some (cast_value (field_type input_field) t v) in
      let items (kind : ListKind) (table_item : Field) :=
        match list_parts (field_type input_field) with
        | Some (_, input_item) =>
            if negb (field_tree_has_blob_v2 table_item) || bool_decide (input_item = table_item) then plain
            else match cast_value (field_type input_field) (list_type kind input_item) v with
                 | VList vs => VList <$> mapM (coerce table_item (with_name input_item (field_name table_item))) vs
                 | _ => Some VNull
                 end
        | _ => plain
        end in
      match t, field_type input_field, v with
      | TStruct tbl_children, TStruct in_children, VStruct vs =>
          if bool_decide (in_children = tbl_children) then Some v
          else VStruct <$> coerce_children coerce in_children vs tbl_children
      | TList table_item, _, _ => items SmallList table_item
      | TLargeList table_item, _, _ => items LargeList table_item
      | TFixedSizeList table_item size, _, _ => items (FixedSize size) table_item
      | _, _, _ => plain
      end
  end.
End reference.

(** ** Arrays of a field: [live] are the rows no ancestor hides. *)
Definition leaf_type (t : DataType) : Prop :=
  match t with TStruct _ => False | _ => list_parts t = None end.
Definition shows {V} (n : nat) (f : Field) (live : nat → Prop) (a : Array V) : Prop :=
  field_nullable f = false → ∀ i, (i < n)%nat → live i → value a i ≠ VNull.
Inductive fits {V} : nat → Field → (nat → Prop) → Array V → Prop :=
  | FitsLeaf n f live t cells : field_type f = t → leaf_type t → length cells = n →
      (t = TNull → Forall (λ c, c = None) cells) → shows n f live (Leaf t cells) → fits n f live (Leaf t cells)
  | FitsStruct n f live fs cs v : field_type f = TStruct fs → length v = n →
      Forall2 (λ g c, fits n g (λ i, live i ∧ v !! i = Some true) c) fs cs →
      shows n f live (StructArray fs cs v) → fits n f live (StructArray fs cs v)
  | FitsList n f live kind item lengths v items : field_type f = list_type kind item → length v = n →
      length lengths = n →
      fits (sum_list lengths) item (λ j, ∃ i, live i ∧ v !! i = Some true ∧ j ∈ run_of lengths i) items →
      shows n f live (ListArray kind item lengths v items) → fits n f live (ListArray kind item lengths v items).

Definition fits_list {V} (n : nat) (live : nat → Prop) (k : ListKind) (item : Field) (a : Array V) : Prop :=
  ∃ lengths v items, a = ListArray k item lengths v items ∧ length v = n ∧ length lengths = n ∧
    fits (sum_list lengths) item (λ j, ∃ i, live i ∧ v !! i = Some true ∧ j ∈ run_of lengths i) items.

(** What Arrow's kernels and DataFusion's functions do.  A cast may make a row
    null: a list of the wrong length for a fixed size. *)
Class KernelLaws (V : Type) (K : Kernels V) : Type := {
  cast_value : DataType → DataType → Value V → Value V;
  cast_spec a t a' : cast a t = Ok a' → data_type a' = t ∧ array_len a' = array_len a ∧
    ∀ i, (i < array_len a)%nat → value a' i = cast_value (data_type a) t (value a i);
  cast_null t t' : cast_value t t' VNull = VNull;
  cast_same t v : cast_value t t v = v;
  cast_list n f live a t a' k k' item : fits n f live a → list_parts (field_type f) = Some (k, item) →
    list_parts t = Some (k', item) → cast a t = Ok a' → fits_list n live k' item a';
  nullif_spec a m a' : nullif a m = Ok a' →
    ∀ i, value a' i = if default false (m !! i) then VNull else value a i;
  get_field_spec fs cs v name c : get_field (StructArray fs cs v) name = Ok c →
    ∃ i f, position fs name = Some (i, f) ∧ cs !! i = Some c;
  named_struct_spec args n a : named_struct args n = Ok a → ∃ fs, a = StructArray fs (map snd args) (all_valid n) ∧
    map field_name fs = map fst args;
  null_array_spec t n i : value (null_array t n) i = VNull;
  struct_try_new_spec fs cs v n a : struct_try_new fs cs v n = Ok a → a = StructArray fs cs v;
  list_try_new_spec kind item lengths v items a : list_try_new kind item lengths v items = Ok a →
    a = ListArray kind item lengths v items
}.
(** * Lemmas *)
Section lemmas.
Context {V : Type} {K : Kernels V} {KL : KernelLaws V K} {P : Planner} {X : Extensions}.

Lemma arrow_Ok {A} (o : outcome string A) a : arrow o = Ok a ↔ o = Ok a.
Proof. apply map_err_Ok. Qed.
Lemma is_null_spec (v : Value V) : is_null v = true ↔ v = VNull.
Proof. by destruct v. Qed.
Lemma fits_len n f live (a : Array V) : fits n f live a → array_len a = n.
Proof. by intros [| |]. Qed.
Lemma fits_type n f live (a : Array V) : fits n f live a → data_type a = field_type f.
Proof. by intros []. Qed.
Lemma fits_shows n f live (a : Array V) : fits n f live a →
  field_nullable f = false → ∀ i, (i < n)%nat → live i → value a i ≠ VNull.
Proof. intros [????? _ _ _ _ H|?????? _ _ _ H|???????? _ _ _ _ H]; apply H. Qed.
Lemma fits_renamed n f live (a : Array V) name : fits n f live a → fits n (with_name f name) live a.
Proof. intros [m g l t cs|m g l fs cs v|m g l k it lens v items]; by constructor. Qed.
Lemma fits_null n f live (a : Array V) : fits n f live a → field_type f = TNull → ∀ i, value a i = VNull.
Proof.
  intros [m g l t cs Ht Hleaf Hl Hn _|m g l fs cs v Ht|m g l k it lens v items Ht] Hf i; rewrite Hf in Ht.
  - specialize (Hn (eq_sym Ht)). rewrite Forall_lookup in Hn. cbn. destruct (cs !! i) as [c|] eqn:Hc; [|done].
    by rewrite (Hn _ _ Hc).
  - done.
  - by destruct k.
Qed.
Lemma fits_struct_inv n f live (a : Array V) fs : fits n f live a → field_type f = TStruct fs →
  ∃ cs v, a = StructArray fs cs v ∧ length v = n ∧
    Forall2 (λ g c, fits n g (λ i, live i ∧ v !! i = Some true) c) fs cs.
Proof.
  intros [m g l t cs Ht Hleaf|m g l fs' cs v Ht Hl Hcs|m g l k it lens v items Ht] Hf; rewrite Hf in Ht.
  - by subst t.
  - injection Ht as <-. by exists cs, v.
  - by destruct k.
Qed.
Lemma list_parts_type k (item : Field) : list_parts (list_type k item) = Some (k, item).
Proof. by destruct k. Qed.
Lemma fits_list_inv n f live (a : Array V) k item : fits n f live a → list_parts (field_type f) = Some (k, item) →
  fits_list n live k item a.
Proof.
  intros [m g l t cs Ht Hleaf|m g l fs' cs v Ht Hl Hcs|m g l k' it lens v items Ht Hl Hlens Hit] Hf; rewrite Ht in Hf.
  - destruct t; cbn in Hleaf, Hf; congruence.
  - done.
  - rewrite list_parts_type in Hf. injection Hf as -> ->. by exists lens, v, items.
Qed.
Lemma value_non_null_struct (fs : list Field) (cs : list (Array V)) v i : (i < length v)%nat →
  value (StructArray fs cs v) i ≠ VNull → v !! i = Some true.
Proof. intros [b Hb]%lookup_lt_is_Some_2. cbn. rewrite Hb. by destruct b. Qed.

(** ** Validity *)
Lemma valid_rows_lookup (a : Array V) i : (i < array_len a)%nat →
  valid_rows a !! i = Some (negb (is_null (value a i))).
Proof. intros Hi. unfold valid_rows. rewrite list_lookup_fmap, lookup_seq_lt by done. done. Qed.
Lemma valid_rows_length (a : Array V) : length (valid_rows a) = array_len a.
Proof. unfold valid_rows. by rewrite length_map, length_seq. Qed.
Lemma both_valid_lookup a b i : both_valid a b !! i = Some true ↔ a !! i = Some true ∧ b !! i = Some true.
Proof.
  unfold both_valid. rewrite lookup_zip_with. destruct (a !! i) as [[]|], (b !! i) as [[]|]; cbn; naive_solver.
Qed.
Lemma both_valid_length a b n : length a = n → length b = n → length (both_valid a b) = n.
Proof. intros. unfold both_valid. rewrite length_zip_with. lia. Qed.
Lemma foldl_valid_lookup (l : list (list bool)) acc i : acc !! i = Some true → Forall (λ v, v !! i = Some true) l →
  foldl both_valid acc l !! i = Some true.
Proof.
  revert acc. induction l as [|v l IH]; intros acc Ha Hl; [done|]. apply Forall_cons in Hl as [Hv Hl].
  apply IH; [by apply both_valid_lookup|done].
Qed.
Lemma expand_validity_lookup lengths v i j : length lengths = length v → j ∈ run_of lengths i →
  expand_validity lengths v !! j = v !! i.
Proof.
  unfold run_of, run_start, expand_validity. revert v i j. induction lengths as [|n lengths IH]; intros [|b v] i j; try done.
  cbn [length]. intros [= Hl] [Hlo Hhi]%elem_of_seq. cbn [zip_with]. rewrite mjoin_cons. destruct i as [|i].
  - cbn in Hhi. rewrite lookup_app_l by (rewrite length_replicate; lia). by rewrite lookup_replicate_2 by lia.
  - change ((n :: lengths) !! S i) with (lengths !! i) in Hhi. cbn [take] in Hlo, Hhi.
    change (sum_list (n :: take i lengths)) with (n + sum_list (take i lengths))%nat in Hlo, Hhi.
    rewrite lookup_app_r by (rewrite length_replicate; lia). rewrite length_replicate.
    apply (IH v i); [done|]. apply elem_of_seq. lia.
Qed.
(** Every ancestor shows the live rows. *)
Definition ancestors_show (ancestors : list PhysicalExpr) (columns : list (Array V)) (n : nat) (live : nat → Prop) : Prop :=
  Forall (λ e, ∀ arr, evaluate e columns n = Ok arr → array_len arr = n ∧
    ∀ i, (i < n)%nat → live i → value arr i ≠ VNull) ancestors.
Lemma ancestor_validity_shows ancestors columns n live arrays i :
  ancestors_show ancestors columns n live → try_map (λ a, evaluate a columns n) ancestors = Ok arrays →
  (i < n)%nat → live i → foldl both_valid (all_valid n) (map valid_rows arrays) !! i = Some true.
Proof.
  intros Hs Ha%try_map_Ok Hi Hlive. apply foldl_valid_lookup; [by apply lookup_replicate_2|].
  apply Forall_map. eapply Forall2_Forall_r; [exact Ha|]. eapply Forall_impl; [exact Hs|].
  intros e He arr Harr. destruct (He arr Harr) as [Hl Hv]. cbn. rewrite valid_rows_lookup by lia.
  specialize (Hv i Hi Hlive). by destruct (value arr i).
Qed.

Lemma ancestor_validity_length ancestors columns n live arrays :
  ancestors_show ancestors columns n live → try_map (λ a, evaluate a columns n) ancestors = Ok arrays →
  length (foldl both_valid (all_valid n) (map valid_rows arrays)) = n.
Proof.
  intros Hs Ha%try_map_Ok. assert (Forall (λ a, array_len a = n) arrays) as Hl.
  { eapply Forall2_Forall_r; [exact Ha|]. eapply Forall_impl; [exact Hs|]. intros e He a Hea. by destruct (He a Hea). }
  assert (length (all_valid n) = n) as Hacc by apply length_replicate. revert Hacc. generalize (all_valid n).
  clear Hs Ha. induction Hl as [|a arrays Hla _ IH]; intros acc Hacc; [done|]. cbn. apply IH, both_valid_length; [done|].
  by rewrite valid_rows_length.
Qed.

(** ** Children of a struct *)
Lemma find_position fs name : find_field fs name = snd <$> position fs name.
Proof.
  induction fs as [|f fs IH]; [done|]. cbn. destruct (String.eqb (field_name f) name); [done|].
  unfold find_field in IH. rewrite IH. by destruct (position fs name) as [[i g]|].
Qed.
Lemma position_spec fs name i f : position fs name = Some (i, f) → fs !! i = Some f ∧ field_name f = name.
Proof.
  revert i. induction fs as [|g fs IH]; intros i; [done|]. cbn. destruct (String.eqb_spec (field_name g) name) as [He|].
  - by intros [= <- <-].
  - destruct (position fs name) as [[j h]|]; [|done]. intros [= <- <-]. by apply IH.
Qed.
Lemma child_of_struct (fs : list Field) (cs : list (Array V)) i index f c : fs !! index = Some f → cs !! index = Some c →
  child_value (zip (map field_name fs) (map (λ c, value c i) cs)) index = value c i.
Proof.
  intros Hf Hc. unfold child_value. rewrite lookup_zip_with.
  change (map field_name fs) with (field_name <$> fs). change (map (λ c, value c i) cs) with ((λ c, value c i) <$> cs).
  rewrite !list_lookup_fmap, Hf, Hc. done.
Qed.

(** ** Casts *)
Lemma cast_row e t columns n a a' f live i : evaluate e columns n = Ok a → fits n f live a →
  evaluate (CastExpr e t) columns n = Ok a' → (i < n)%nat →
  value a' i = cast_value (field_type f) t (value a i).
Proof.
  intros Ha Hf H Hi. cbn [evaluate] in H. rewrite Ha in H. apply bind_Ok in H as (x & [= <-] & H).
  apply arrow_Ok, cast_spec in H as (_ & _ & H). rewrite (fits_type _ _ _ _ Hf) in H. apply H.
  by rewrite (fits_len _ _ _ _ Hf).
Qed.

(** ** Blobs *)
Lemma in_names_children declared input children : input_shape declared input = Ok (Some (Children children)) →
  input = TStruct children.
Proof.
  destruct input; cbn; try done; try by repeat case_match.
  destruct (negb _); [done|]. intros (u & _ & [= <-])%bind_Ok. done.
Qed.
Lemma blob_child_row declared shape e columns n a f live d name expr c i :
  input_shape declared (field_type f) = Ok (Some shape) → evaluate e columns n = Ok a → fits n f live a →
  (i < n)%nat → live i → value a i ≠ VNull →
  blob_child shape e d = Ok (name, expr) → evaluate expr columns n = Ok c →
  name = field_name d ∧ value c i = blob_child_value cast_value shape (field_type f) (value a i) d.
Proof.
  intros Hs Ha Hf Hi Hlive Hnn. unfold blob_child. intros (expr' & Hexpr & [= <- <-])%bind_Ok Hc. split; [done|].
  assert (∀ t x, typed_null t = Ok x → evaluate x columns n = Ok c → value c i = VNull) as Hnull.
  { unfold typed_null. intros t x (u & _ & [= <-])%bind_Ok. cbn. intros [= <-]. apply null_array_spec. }
  destruct shape as [| |children]; cbn [blob_child_value].
  - destruct (String.eqb (field_name d) "data"); [|by eapply Hnull]. injection Hexpr as <-.
    by apply (cast_row e (field_type d) columns n a c f live).
  - destruct (String.eqb (field_name d) "uri"); [|by eapply Hnull]. injection Hexpr as <-.
    by apply (cast_row e (field_type d) columns n a c f live).
  - apply in_names_children in Hs. rewrite find_position in Hexpr.
    destruct (position children (field_name d)) as [[index child]|] eqn:Hp; cbn in Hexpr; [|by eapply Hnull].
    destruct (fits_struct_inv _ _ _ _ _ Hf Hs) as (cs & v & -> & Hl & Hcs).
    destruct (position_spec _ _ _ _ Hp) as [Hchild _].
    assert (v !! i = Some true) as Hv by (apply (value_non_null_struct children cs); [lia|done]).
    destruct (Forall2_lookup_l _ _ _ _ _ Hcs Hchild) as (x & Hx & Hfx).
    assert (∀ c, evaluate (GetField e (field_name d)) columns n = Ok c → c = x) as Hget.
    { intros z. cbn. rewrite Ha. cbn. intros H%arrow_Ok%get_field_spec. destruct H as (i' & g & Hp' & Hx'). congruence. }
    assert (child_value (match value (StructArray children cs v) i with VStruct vs => vs | _ => [] end) index = value x i) as Hval.
    { cbn. rewrite Hv. cbn. by apply (child_of_struct children cs i index child x). }
    assert (∃ vs, value (StructArray children cs v) i = VStruct vs) as [vs Hvs] by (cbn; rewrite Hv; by eexists).
    rewrite Hvs in Hval |- *. rewrite Hval. case_bool_decide as Ht.
    + injection Hexpr as <-. by rewrite Ht, cast_same, (Hget c Hc).
    + injection Hexpr as <-. cbn [evaluate] in Hc.
      apply bind_Ok in Hc as (y & Hy & Hc). rewrite (Hget y Hy) in Hc.
      apply arrow_Ok, cast_spec in Hc as (_ & _ & H). rewrite (fits_type _ _ _ _ Hfx) in H.
      apply H. by rewrite (fits_len _ _ _ _ Hfx).
Qed.
Lemma dropped_from_spec declared children k index : index ∈ dropped_from declared k children →
  (k ≤ index < k + length children)%nat.
Proof.
  revert k. induction children as [|c children IH]; intros k; cbn; [by intros ?%elem_of_nil|].
  destruct (_ && _); [intros [->|H]%elem_of_cons|intros H]; [lia|apply IH in H; lia..].
Qed.
Lemma no_range_lost declared children (cs : list (Array V)) v ancestors i : (i < length v)%nat → length cs = length children →
  Forall (λ c, (i < array_len c)%nat) cs → v !! i = Some true → ancestors !! i = Some true →
  existsb (range_dropped (both_valid v ancestors) cs) (dropped_from declared 0 children) = false →
  loses_range (dropped_from declared 0 children) (VStruct (zip (map field_name children) (map (λ c, value c i) cs))) = false.
Proof.
  intros Hi Hlen Hcs Hv Ha H. cbn [loses_range]. apply not_true_iff_false. intros (index & Hin & Hnull)%existsb_exists.
  apply not_true_iff_false in H. apply H, existsb_exists. exists index. split; [done|].
  apply list_elem_of_In, dropped_from_spec in Hin as [_ Hlt]. cbn in Hlt.
  destruct (lookup_lt_is_Some_2 children index Hlt) as [f Hf].
  destruct (lookup_lt_is_Some_2 cs index) as [c Hc]; [lia|].
  rewrite (child_of_struct children cs i index f c Hf Hc) in Hnull. unfold range_dropped. rewrite Hc.
  apply existsb_exists. exists true. split; [|done]. apply list_elem_of_In, list_elem_of_lookup. exists i.
  apply both_valid_lookup. split; [by apply both_valid_lookup|].
  rewrite Forall_lookup in Hcs. rewrite valid_rows_lookup by (by eapply Hcs). by rewrite Hnull.
Qed.
Lemma blob_args_rows declared0 shape e columns n a f live ds args arrays i :
  input_shape declared0 (field_type f) = Ok (Some shape) → evaluate e columns n = Ok a → fits n f live a →
  (i < n)%nat → live i → value a i ≠ VNull →
  try_map (blob_child shape e) ds = Ok args →
  try_map (λ arg, c ← evaluate arg.2 columns n; Ok (arg.1, c)) args = Ok arrays →
  zip (map fst arrays) (map (λ c, value c i) (map snd arrays)) =
    map (λ d, (field_name d, blob_child_value cast_value shape (field_type f) (value a i) d)) ds.
Proof.
  intros Hs Ha Hf Hi Hlive Hnn Hargs%try_map_Ok. revert arrays.
  induction Hargs as [|d [name expr] ds args Hd _ IH]; intros arrays; cbn; [by intros [= <-]|].
  intros ([k c] & (c' & Hc & [= <- <-])%bind_Ok & H)%bind_Ok. apply bind_Ok in H as (arrays' & Harr & [= <-]). cbn.
  destruct (blob_child_row _ _ _ _ _ _ _ _ _ _ _ _ i Hs Ha Hf Hi Hlive Hnn Hd Hc) as [-> ->]. f_equal. by apply IH.
Qed.
Lemma nullif_row (source built a' : Array V) n i : array_len source = n → (i < n)%nat →
  (if forallb id (valid_rows source) then Ok built else arrow (nullif built (map negb (valid_rows source)))) = Ok a' →
  value a' i = if is_null (value source i) then VNull else value built i.
Proof.
  intros Hl Hi. pose proof (valid_rows_lookup source i ltac:(lia)) as Hv. destruct (forallb id _) eqn:Hall.
  - intros [= <-]. rewrite forallb_forall in Hall.
    assert (negb (is_null (value source i)) = true) as Hn.
    { apply (Hall (negb (is_null (value source i)))). apply list_elem_of_In. by eapply list_elem_of_lookup_2. }
    by destruct (is_null (value source i)).
  - intros H%arrow_Ok. rewrite (nullif_spec _ _ _ H). change (map negb (valid_rows source)) with (negb <$> valid_rows source).
    rewrite list_lookup_fmap, Hv. cbn. by destruct (is_null (value source i)).
Qed.
Lemma coerce_blob_sound table input e ancestors expr out columns n a a' live i :
  coerce_blob_expr e input table ancestors = Ok (expr, out) → evaluate e columns n = Ok a → fits n input live a →
  ancestors_show ancestors columns n live → evaluate expr columns n = Ok a' → (i < n)%nat → live i →
  (if is_null (value a i) then Some VNull else coerce_blob cast_value table input (value a i)) = Some (value a' i).
Proof.
  unfold coerce_blob_expr, coerce_blob. destruct (field_type table) as [declared| | | | | | | | | | | |] eqn:Ht; try done.
  intros (shape & Hs & H)%bind_Ok Ha Hf Hanc He Hi Hlive. rewrite Hs. destruct shape as [shape|].
  - apply bind_Ok in H as (args & Hargs & [= <- <-]). cbn [evaluate] in He. rewrite Ha in He.
    apply bind_Ok in He as (source & [= <-] & He). apply bind_Ok in He as (anc & Hancs & He).
    unfold absent_blob_is_null in He. apply bind_Ok in He as (u & Hcheck & He). apply bind_Ok in He as (built & Hb & He).
    pose proof (nullif_row _ _ _ n i (fits_len _ _ _ _ Hf) Hi He) as Hrow.
    destruct (is_null (value a i)) eqn:Hnull; [by rewrite Hrow|].
    assert (value a i ≠ VNull) as Hnn by (by intros E; rewrite E in Hnull).
    apply bind_Ok in Hb as (arrays & Harr & Hb). apply arrow_Ok, named_struct_spec in Hb as (fs & -> & Hnames).
    assert (loses_range (dropped_ranges declared shape) (value a i) = false) as ->.
    { destruct shape as [| |children]; try (by destruct (value a i)). pose proof (in_names_children _ _ _ Hs) as Hin.
      destruct (fits_struct_inv _ _ _ _ _ Hf Hin) as (cs & v & -> & Hl & Hcs).
      assert (v !! i = Some true) as Hv by (apply (value_non_null_struct children cs); [lia|done]).
      cbn [value]. rewrite Hv. cbn [default from_option id dropped_ranges].
      destruct (dropped_from declared 0 children) as [|x dropped] eqn:Hdrop; [done|]. cbn [dropped_ranges] in Hcheck, Hancs.
      rewrite Hdrop in Hcheck, Hancs. apply bind_Ok in Hancs as (arrs & Harrs & [= <-]).
      destruct (existsb _ (x :: dropped)) eqn:Hex; [done|]. rewrite <-Hdrop in Hex |- *.
      eapply (no_range_lost _ _ _ v); [lia|by rewrite (Forall2_length _ _ _ Hcs)| |done| |exact Hex].
      - eapply Forall2_Forall_r; [exact Hcs|]. apply Forall_true. intros g c Hc. by rewrite (fits_len _ _ _ _ Hc).
      - by apply (ancestor_validity_shows ancestors columns n live). }
    rewrite Hrow. f_equal. cbn [value]. unfold all_valid. rewrite lookup_replicate_2 by done. cbn [default from_option id].
    rewrite Hnames. f_equal. symmetry. by eapply blob_args_rows.
  - injection H as <- <-. assert (field_type input = TNull) as Hnull.
    { destruct (field_type input) as [children| | | | | | | | | | | |name]; try done; cbn in Hs;
        [destruct (negb _); [done|]; by apply bind_Ok in Hs as (? & _ & ?)|].
      repeat (destruct (_ || _) in Hs; try done). }
    rewrite (fits_null _ _ _ _ Hf Hnull i). cbn [is_null]. f_equal.
    rewrite (cast_row e _ columns n a a' input live i Ha Hf He Hi), (fits_null _ _ _ _ Hf Hnull i). by rewrite cast_null.
Qed.

(** ** A field of the table *)

(** The value of the field's expression is the field's value, coerced.  The
    input expression need not be evaluated: a typed null never looks at it. *)
Definition sound (table : Field) : Prop := ∀ input e ancestors expr out columns n a a' live i,
  field_expr (can_cast := can_cast_types) table input e ancestors = Ok (expr, out) →
  (∀ x, evaluate e columns n = Ok x → x = a) → fits n input live a → ancestors_show ancestors columns n live →
  evaluate expr columns n = Ok a' → (i < n)%nat → live i →
  coerce cast_value table input (value a i) = Some (value a' i).
Lemma evaluated_cast e t columns n a a' : (∀ x, evaluate e columns n = Ok x → x = a) →
  evaluate (CastExpr e t) columns n = Ok a' → evaluate e columns n = Ok a.
Proof. intros H Hc. cbn in Hc. apply bind_Ok in Hc as (x & Hx & _). by rewrite Hx, (H x Hx). Qed.
Lemma plain_sound table input e columns n a a' live i expr out :
  plain_expr (can_cast := can_cast_types) table input e = Ok (expr, out) →
  (∀ x, evaluate e columns n = Ok x → x = a) → fits n input live a → evaluate expr columns n = Ok a' → (i < n)%nat →
  value a' i = cast_value (field_type input) (field_type table) (value a i).
Proof.
  unfold plain_expr. intros H He Hf Hev Hi. case_bool_decide as Ht.
  - injection H as <- _. by rewrite (He a' Hev), Ht, cast_same.
  - destruct (can_cast_types _ _); [|done]. injection H as <- _.
    by apply (cast_row e _ columns n a a' input live); [eapply evaluated_cast|..].
Qed.
Lemma field_expr_name table input e ancestors expr out :
  field_expr (can_cast := can_cast_types) table input e ancestors = Ok (expr, out) → field_name out = field_name table.
Proof.
  assert (∀ x y, plain_expr (can_cast := can_cast_types) table input e = Ok (x, y) → field_name y = field_name table) as Hplain.
  { unfold plain_expr. intros x y. case_bool_decide; [by intros [= _ <-]|]. destruct (can_cast_types _ _); [by intros [= _ <-]|done]. }
  assert (∀ t, json_write_target input table = Some t → field_name t = field_name table) as Hjson.
  { intros t. destruct table as [name ty nu md]. cbn [json_write_target]. destruct (is_json_field _).
    - destruct (if is_arrow_json_field input then _ else _); [|done]. by intros [= <-].
    - destruct (negb _); [done|]. match goal with |- (?r ≫= _) = _ → _ => destruct r end; [|done]. by intros [= <-]. }
  destruct table as [name t nu md]. cbn [field_expr]. set (table := mkField name t nu md) in *.
  destruct (_ && _ && _) eqn:Hpass.
  { intros [= _ <-]. apply andb_true_iff in Hpass as [_ Hp%bool_decide_eq_true]. by rewrite Hp. }
  destruct (json_cast_target input table) as [target|] eqn:Htarget.
  { intros [= _ <-]. apply Hjson. unfold json_cast_target in Htarget. destruct (field_type table); try done;
      (destruct (json_write_target input table) as [u|]; [|done]; cbn in Htarget; destruct (can_cast_types _ _); [congruence|done]). }
  clear Hpass Htarget. destruct (is_blob_v2 table && _).
  { unfold coerce_blob_expr. destruct (field_type table); try done. intros (shape & _ & H)%bind_Ok.
    destruct shape as [shape|]; [|by injection H as _ <-]. apply bind_Ok in H as (args & _ & [= _ <-]). done. }
  set (other := if is_null_type (field_type input) && _ then _ else _).
  assert (other = Ok (expr, out) → field_name out = field_name table) as Hother.
  { unfold other. destruct (is_null_type (field_type input) && _); [by intros (x & _ & [= _ <-])%bind_Ok|].
    destruct t, (field_type input); try apply Hplain. case_bool_decide; [apply Hplain|].
    intros (subs & _ & [= _ <-])%bind_Ok. done. }
  destruct t; try apply Hother; (destruct (list_parts (field_type input)) as [[k item]|]; [|done]);
    (destruct (_ || _); [done|]); by intros (x & _ & [= _ <-])%bind_Ok.
Qed.
(** The child expressions of [columns] yield [cs]. *)
Definition reads (fs : list Field) (get : nat → Field → PhysicalExpr) (columns : list (Array V)) (n : nat)
    (cs : list (Array V)) : Prop :=
  ∀ index f y, position fs (field_name f) = Some (index, f) → evaluate (get index f) columns n = Ok y → cs !! index = Some y.
Definition row (fs : list Field) (cs : list (Array V)) (i : nat) : list (string * Value V) :=
  zip (map field_name fs) (map (λ c, value c i) cs).
Lemma fields_sound tbl : Forall sound tbl → ∀ fs get ancestors exprs columns n cs live i outs,
  fields_exprs (field_expr (can_cast := can_cast_types)) fs get ancestors tbl = Ok exprs → reads fs get columns n cs →
  Forall2 (λ g c, fits n g live c) fs cs → ancestors_show ancestors columns n live → (i < n)%nat → live i →
  project exprs columns n = Ok outs →
  coerce_children (coerce cast_value) fs (row fs cs i) tbl =
    Some (zip (map (λ e, field_name e.2) exprs) (map (λ c, value c i) outs)).
Proof.
  intros Hall fs get ancestors exprs columns n cs live i outs H Hget Hcs Hanc Hi Hlive. revert exprs outs H.
  induction Hall as [|table tbl Htable _ IH]; intros exprs outs; cbn [fields_exprs coerce_children].
  { intros [= <-]. cbn. by intros [= <-]. }
  destruct (position fs (field_name table)) as [[index input]|] eqn:Hp; [|apply IH].
  intros ([expr out] & Hexpr & H)%bind_Ok. apply bind_Ok in H as (exprs' & Hexprs & [= <-]).
  unfold project. cbn [map try_map]. intros (c' & Hc & H)%bind_Ok. apply bind_Ok in H as (outs' & Houts & [= <-]).
  cbn [fst snd] in Hc |- *. destruct (position_spec _ _ _ _ Hp) as [Hin Hname].
  destruct (Forall2_lookup_l _ _ _ _ _ Hcs Hin) as (x & Hx & Hfx).
  pose proof (child_of_struct fs cs i index input x Hin Hx) as Hchild. fold (row fs cs i) in Hchild. rewrite Hchild.
  assert (coerce cast_value table input (value x i) = Some (value c' i)) as ->.
  { eapply (Htable input (get index input) ancestors expr out columns n x c'); try done.
    intros y Hy. apply (Hget index input y) in Hy; [congruence|by rewrite Hname]. }
  cbn [mbind option_bind]. rewrite (IH _ _ Hexprs Houts). cbn. by rewrite (field_expr_name _ _ _ _ _ _ Hexpr).
Qed.
Lemma struct_args exprs columns n arrays :
  try_map (λ arg, c ← evaluate arg.2 columns n; Ok (arg.1, c)) (map (λ e : PhysicalExpr * Field, (field_name e.2, e.1)) exprs) = Ok arrays →
  project exprs columns n = Ok (map snd arrays) ∧ map fst arrays = map (λ e, field_name e.2) exprs.
Proof.
  unfold project. revert arrays. induction exprs as [|[e f] exprs IH]; intros arrays; cbn [map try_map fst snd].
  { by intros [= <-]. }
  intros ([k c] & (c' & Hc & [= <- <-])%bind_Ok & H)%bind_Ok. apply bind_Ok in H as (arrays' & Harr & [= <-]).
  destruct (IH _ Harr) as [IH1 IH2]. rewrite Hc. cbn. rewrite IH1. cbn. by rewrite IH2.
Qed.
Lemma evaluated_blob table input e ancestors expr out columns n a a' :
  coerce_blob_expr e input table ancestors = Ok (expr, out) → (∀ x, evaluate e columns n = Ok x → x = a) →
  evaluate expr columns n = Ok a' → evaluate e columns n = Ok a.
Proof.
  unfold coerce_blob_expr. destruct (field_type table); try done. intros (shape & _ & H)%bind_Ok He Hev.
  destruct shape as [shape|].
  - apply bind_Ok in H as (args & _ & [= <- _]). cbn in Hev. apply bind_Ok in Hev as (x & Hx & _). by rewrite Hx, (He x Hx).
  - injection H as <- _. by eapply evaluated_cast.
Qed.
Lemma restored_row args e input columns n a a' live i : (∀ x, evaluate e columns n = Ok x → x = a) → fits n input live a →
  evaluate (restore_struct_validity (NamedStruct args) e input) columns n = Ok a' → (i < n)%nat → live i →
  ∃ arrays, try_map (λ arg, c ← evaluate arg.2 columns n; Ok (arg.1, c)) args = Ok arrays ∧
    value a' i = if is_null (value a i) then VNull
                 else VStruct (zip (map fst arrays) (map (λ c, value c i) (map snd arrays))).
Proof.
  intros He Hf Hev Hi Hlive. unfold restore_struct_validity in Hev. destruct (field_nullable input) eqn:Hnull.
  - cbn [evaluate] in Hev. apply bind_Ok in Hev as (built & Hb & Hev). apply bind_Ok in Hev as (src & Hsrc & Hev).
    rewrite (He _ Hsrc) in Hev. apply bind_Ok in Hb as (arrays & Harr & Hb).
    apply arrow_Ok, named_struct_spec in Hb as (gs & -> & Hgs). exists arrays. split; [done|]. cbn [restore_validity] in Hev.
    apply arrow_Ok, struct_try_new_spec in Hev as ->. cbn [value]. rewrite valid_rows_lookup by (by rewrite (fits_len _ _ _ _ Hf)).
    cbn [default from_option id]. rewrite Hgs. by destruct (is_null _).
  - cbn [evaluate] in Hev. apply bind_Ok in Hev as (arrays & Harr & Hb).
    apply arrow_Ok, named_struct_spec in Hb as (gs & -> & Hgs). exists arrays. split; [done|].
    pose proof (fits_shows _ _ _ _ Hf Hnull i Hi Hlive) as Hn. cbn [value]. unfold all_valid. rewrite lookup_replicate_2 by done.
    cbn [default from_option id]. rewrite Hgs. by destruct (value a i).
Qed.
Lemma struct_sound tbl input ics e ancestors columns n a a' live i subs :
  Forall sound tbl → field_type input = TStruct ics →
  fields_exprs (field_expr (can_cast := can_cast_types)) ics (λ _ child, GetField e (field_name child)) (ancestors ++ [e]) tbl = Ok subs →
  (∀ x, evaluate e columns n = Ok x → x = a) → fits n input live a → ancestors_show ancestors columns n live →
  evaluate (restore_struct_validity (NamedStruct (map (λ e, (field_name e.2, e.1)) subs)) e input) columns n = Ok a' →
  (i < n)%nat → live i →
  match value a i with
  | VNull => value a' i = VNull
  | VStruct vs => VStruct <$> coerce_children (coerce cast_value) ics vs tbl = Some (value a' i)
  | _ => False
  end.
Proof.
  intros Hall Ht Hsubs He Hf Hanc Hev Hi Hlive.
  destruct (restored_row _ _ _ _ _ _ _ _ i He Hf Hev Hi Hlive) as (arrays & Harr & ->).
  destruct (fits_struct_inv _ _ _ _ _ Hf Ht) as (cs & v & -> & Hl & Hcs).
  cbn [value]. destruct (v !! i) as [[]|] eqn:Hv; [|done|done]. cbn [default from_option id is_null].
  assert (ancestors_show (ancestors ++ [e]) columns n (λ i, live i ∧ v !! i = Some true)) as Hanc'.
  { apply Forall_app. split.
    - eapply Forall_impl; [exact Hanc|]. intros x Hx arr Har. destruct (Hx arr Har) as [? Hs]. split; [done|].
      intros j Hj [? _]. by apply Hs.
    - constructor; [|constructor]. intros arr Har. rewrite (He _ Har). split; [done|].
      intros j Hj [_ Hvj]. cbn. by rewrite Hvj. }
  destruct (struct_args _ _ _ _ Harr) as [Hproj ->]. change (zip (map field_name ics) (map (λ c, value c i) cs)) with (row ics cs i).
  rewrite (fields_sound tbl Hall ics (λ _ child, GetField e (field_name child)) (ancestors ++ [e]) subs columns n cs (λ i, live i ∧ v !! i = Some true) i (map snd arrays)); try done.
  intros index f y Hp Hy. cbn in Hy. apply bind_Ok in Hy as (s' & Hs & Hy). rewrite (He _ Hs) in Hy.
  apply arrow_Ok, get_field_spec in Hy as (i' & g & Hp' & Hy). congruence.
Qed.
Lemma run_bound lengths i j : (i < length lengths)%nat → j ∈ run_of lengths i → (j < sum_list lengths)%nat.
Proof.
  unfold run_of, run_start. intros Hi [_ Hj]%elem_of_seq. eapply Nat.lt_le_trans; [exact Hj|]. clear Hj. revert i Hi.
  induction lengths as [|n lengths IH]; intros i; cbn [length]; [lia|]. destruct i as [|i]; intros Hi; [cbn; lia|].
  change ((n :: lengths) !! S i) with (lengths !! i). cbn [take].
  change (sum_list (n :: ?l)) with (n + sum_list l)%nat. specialize (IH i ltac:(lia)). lia.
Qed.
Lemma expand_validity_length lengths v : length lengths = length v → length (expand_validity lengths v) = sum_list lengths.
Proof.
  unfold expand_validity. revert v. induction lengths as [|n lengths IH]; intros [|b v]; try done. cbn [length]. intros [= Hl].
  cbn [zip_with]. rewrite mjoin_cons, length_app, length_replicate, (IH v Hl). done.
Qed.
Lemma item_validity_shows lengths v ancestors kind item (items : Array V) n live :
  length v = n → length lengths = n → length ancestors = n →
  (∀ i, v !! i = Some true → live i → ancestors !! i = Some true) →
  ∀ arr, item_batch lengths (valid_rows (ListArray kind item lengths v items)) ancestors items !! 1%nat = Some arr →
  array_len arr = sum_list lengths ∧ ∀ j, (j < sum_list lengths)%nat →
    (∃ i, live i ∧ v !! i = Some true ∧ j ∈ run_of lengths i) → value arr j ≠ VNull.
Proof.
  intros Hv Hl Ha Hanc arr [= <-]. set (validity := both_valid _ _).
  assert (length validity = n) as Hlen by (apply both_valid_length; [by rewrite valid_rows_length|done]).
  split; [cbn [array_len]; rewrite length_map; apply expand_validity_length; congruence|].
  intros j _ (i & Hlive & Hi & Hj). cbn [value].
  change (map ?f ?l) with (f <$> l). rewrite list_lookup_fmap, (expand_validity_lookup lengths validity i j) by congruence.
  assert (validity !! i = Some true) as ->; [|done]. apply both_valid_lookup. split; [|by apply Hanc].
  rewrite valid_rows_lookup by (cbn; apply lookup_lt_Some in Hi; lia). cbn. by rewrite Hi.
Qed.
Lemma cast_list_row a input live n t k k' item list i : fits n input live a → list_parts (field_type input) = Some (k, item) →
  (if bool_decide (data_type a = t) then Ok a else arrow (cast a t)) = Ok list → t = list_type k' item → (i < n)%nat →
  fits_list n live k' item list ∧ value list i = cast_value (field_type input) t (value a i).
Proof.
  intros Hf Hk H -> Hi. rewrite (fits_type _ _ _ _ Hf) in H. case_bool_decide as Hd.
  - injection H as <-. rewrite Hd, cast_same. split; [|done]. apply (fits_list_inv _ _ _ _ _ _ Hf). by rewrite Hd, list_parts_type.
  - apply arrow_Ok in H. split; [eapply cast_list; [exact Hf|exact Hk|apply list_parts_type|exact H]|].
    apply cast_spec in H as (_ & _ & H). rewrite H, (fits_type _ _ _ _ Hf); [done|]. by rewrite (fits_len _ _ _ _ Hf).
Qed.
Lemma mapM_rows (f : Value V → option (Value V)) (a b : Array V) js :
  (∀ j, j ∈ js → f (value a j) = Some (value b j)) → mapM f (map (value a) js) = Some (map (value b) js).
Proof.
  induction js as [|j js IH]; intros H; [done|]. cbn. rewrite (H j) by (apply elem_of_cons; by left). cbn.
  rewrite IH; [done|]. intros k Hk. apply H, elem_of_cons. by right.
Qed.
Lemma list_sound table_item input k k' item e ancestors columns n a a' live i name out field :
  sound table_item → list_parts (field_type input) = Some (k, item) →
  field_expr (can_cast := can_cast_types) table_item (with_name item name) (Column (field_name item) 0) [Column VALIDITY_FIELD 1] = Ok out →
  intermediate_list field item = Some (k', list_type k' item) →
  (∀ x, evaluate e columns n = Ok x → x = a) → fits n input live a → ancestors_show ancestors columns n live →
  evaluate (CoerceBlobList e item out.1 field ancestors) columns n = Ok a' → (i < n)%nat → live i →
  match cast_value (field_type input) (list_type k' item) (value a i) with
  | VList vs => VList <$> mapM (coerce cast_value table_item (with_name item name)) vs
  | _ => Some VNull
  end = Some (value a' i).
Proof.
  intros Hitem Hk Hout Hint He Hf Hanc Hev Hi Hlive. cbn [evaluate] in Hev.
  apply bind_Ok in Hev as (src & Hsrc & Hev). rewrite (He _ Hsrc), Hint in Hev. cbn [unwrap mbind] in Hev.
  apply bind_Ok in Hev as ([k3 t3] & Hk3 & Hev). cbn in Hk3. injection Hk3 as <- <-.
  apply bind_Ok in Hev as (list & Hlist & Hev).
  destruct (cast_list_row a input live n _ k k' item list i Hf Hk Hlist eq_refl Hi) as [Hfl Hvl]. rewrite <-Hvl.
  apply bind_Ok in Hev as (anc & Hancs & Hev). apply bind_Ok in Hancs as (arrs & Harrs & [= <-]).
  destruct Hfl as (lengths & v & items & -> & Hlv & Hll & Hitems).
  apply bind_Ok in Hev as (u & _ & Hev). apply bind_Ok in Hev as (coerced & Hco & Hev).
  apply arrow_Ok, list_try_new_spec in Hev as ->. rewrite (fits_len _ _ _ _ Hitems) in Hco.
  set (anc := foldl both_valid (all_valid n) (map valid_rows arrs)) in *.
  cbn [value]. destruct (v !! i) as [[]|] eqn:Hv; [|done|done]. cbn [default from_option id].
  rewrite (mapM_rows _ items coerced); [done|].
  intros j Hj. eapply (Hitem (with_name item name) _ _ out.1 out.2 (item_batch _ _ _ _) (sum_list lengths) items coerced
      (λ j, ∃ i, live i ∧ v !! i = Some true ∧ j ∈ run_of lengths i)); [by destruct out|intros x Hx; cbn in Hx; by injection Hx| | |exact Hco| |by exists i].
  - by apply fits_renamed.
  - constructor; [|constructor]. intros arr. cbn [evaluate]. destruct (item_batch _ _ _ _ !! 1%nat) as [x|] eqn:Hx; [|done].
    intros [= <-]. eapply (item_validity_shows lengths v anc k' item items n live); [done|done| | |exact Hx].
    1: by eapply ancestor_validity_length.
    intros i' Hi' Hlive'. eapply ancestor_validity_shows; [exact Hanc|exact Harrs| |done]. apply lookup_lt_Some in Hi'. lia.
  - apply (run_bound lengths i); [lia|done].
Qed.
Lemma coerce_null table input (v : Value V) : is_null v = true → coerce cast_value table input v = Some VNull.
Proof. destruct table. intros Hv. cbn [coerce]. by rewrite Hv. Qed.
Lemma all_sound : ∀ table, sound table.
Proof.
  apply (field_nested_ind sound (λ t, match t with
    | TStruct cs => Forall sound cs | TList f | TLargeList f | TFixedSizeList f _ => sound f | _ => True end)); try done.
  intros name t nullable md IH input e ancestors expr out columns n a a' live i H He Hf Hanc Hev Hi Hlive.
  cbn [field_expr] in H. cbn [coerce]. set (table := mkField name t nullable md) in *.
  destruct (_ && _ && _) eqn:Hpass; [injection H as <- <-; rewrite (He _ Hev); by destruct (value a i)|].
  destruct (json_cast_target input table) as [target|].
  { injection H as <- <-. rewrite (cast_row e _ columns n a a' input live i (evaluated_cast _ _ _ _ _ _ He Hev) Hf Hev Hi).
    destruct (value a i); [by rewrite cast_null|done..]. }
  destruct (is_blob_v2 table && _).
  { eapply coerce_blob_sound; [exact H|by eapply evaluated_blob|done..]. }
  destruct (is_null_type (field_type input) && negb (is_null_type t)) eqn:Hnl.
  { apply andb_true_iff in Hnl as [Hnl Htt]. assert (field_type input = TNull) as Htn by (by destruct (field_type input)).
    rewrite (fits_null _ _ _ _ Hf Htn i). cbn [is_null].
    assert (null_literal table ≫= (λ e, Ok (e, table)) = Ok (expr, out)) as Hlit by (rewrite Htn in H; destruct t; try discriminate Htt; exact H).
    apply bind_Ok in Hlit as (x & Hx & [= <- <-]). unfold null_literal in Hx. apply bind_Ok in Hx as (u & _ & [= <-]).
    cbn in Hev. injection Hev as <-. by rewrite null_array_spec. }
  assert (plain_expr (can_cast := can_cast_types) table input e = Ok (expr, out) →
    (if is_null (value a i) then Some VNull else Some (cast_value (field_type input) t (value a i))) = Some (value a' i)) as Hplain.
  { intros Hp. rewrite (plain_sound _ _ _ _ _ _ _ _ _ _ _ Hp He Hf Hev Hi). destruct (value a i); [by rewrite !cast_null|done..]. }
  assert (∀ table_item rebuild kind, t = rebuild table_item → (∀ f, rebuild f = list_type kind f) → sound table_item →
    match list_parts (field_type input) with
    | Some (_, input_item) =>
        if negb (field_tree_has_blob_v2 table_item) || bool_decide (input_item = table_item)
        then plain_expr (can_cast := can_cast_types) table input e
        else
          item ← field_expr (can_cast := can_cast_types) table_item (with_name input_item (field_name table_item))
                   (Column (field_name input_item) 0) [Column VALIDITY_FIELD 1];
          let output_field := with_type table (rebuild item.2) in
          Ok (CoerceBlobList e input_item item.1 output_field ancestors, output_field)
    | None => plain_expr (can_cast := can_cast_types) table input e
    end = Ok (expr, out) →
    (if is_null (value a i) then Some VNull else
     match list_parts (field_type input) with
     | Some (_, input_item) =>
         if negb (field_tree_has_blob_v2 table_item) || bool_decide (input_item = table_item)
         then Some (cast_value (field_type input) t (value a i))
         else match cast_value (field_type input) (list_type kind input_item) (value a i) with
              | VList vs => VList <$> mapM (coerce cast_value table_item (with_name input_item (field_name table_item))) vs
              | _ => Some VNull
              end
     | None => Some (cast_value (field_type input) t (value a i))
     end) = Some (value a' i)) as Hlist.
  { intros table_item rebuild kind Ht Hrebuild Hitem. destruct (list_parts (field_type input)) as [[k item]|] eqn:Hk; [|exact Hplain].
    destruct (_ || _); [exact Hplain|]. intros (io & Hio & [= <- <-])%bind_Ok.
    assert (intermediate_list (with_type table (rebuild io.2)) item = Some (kind, list_type kind item)) as Hint
      by (unfold intermediate_list; cbn; by rewrite Hrebuild, list_parts_type).
    pose proof (list_sound table_item input k kind item e ancestors columns n a a' live i _ io _ Hitem Hk Hio Hint He Hf Hanc Hev Hi Hlive)
      as Hl. destruct (value a i); [by rewrite cast_null in Hl|exact Hl..]. }
  destruct t as [tbl|f|f|f|f|f size|f b|vs b|f g|t u| | |other]; try exact (Hplain H);
    [|by eapply (Hlist f TList SmallList)|by eapply (Hlist f TLargeList LargeList)
     |by eapply (Hlist f (λ f, TFixedSizeList f size) (FixedSize size))].
  destruct (field_type input) as [ics| | | | | | | | | | | |] eqn:Ht; try exact (Hplain H).
  destruct (bool_decide (ics = tbl)) eqn:Hsame.
  { specialize (Hplain H). apply bool_decide_eq_true in Hsame as ->. rewrite cast_same in Hplain. destruct (value a i); rewrite ?cast_same; exact Hplain. }
  apply bind_Ok in H as (subs & Hsubs & [= <- <-]).
  pose proof (struct_sound tbl input ics e ancestors columns n a a' live i subs IH Ht Hsubs He Hf Hanc Hev Hi Hlive) as Hs.
  by destruct (value a i); [rewrite Hs|..].
Qed.
(** The columns that pass are the input's, and none of the vectors that a row
    shows has a NaN in it. *)
Lemma nan_free_vectors fs (cs out : list (Array V)) : length cs = length fs → reject_nan_vectors fs cs = Ok out →
  out = cs ∧ ∀ i f c j vs, fs !! i = Some f → cs !! i = Some c → is_vector_field f = true →
    (j < array_len c)%nat → data_type c = field_type f → value c j = VList vs → existsb cell_nan vs = false.
Proof.
  unfold reject_nan_vectors. intros Hl H%try_map_Ok. revert fs Hl out H. induction cs as [|c cs IH]; intros [|f fs] Hl out H; try done.
  { apply Forall2_nil_inv_l in H as ->. by split. }
  cbn [zip] in H. apply Forall2_cons_inv_l in H as (x & out' & Hx & H & ->). injection Hl as Hl. cbn [fst snd] in Hx.
  destruct (IH fs Hl out' H) as [-> Hall]. clear IH H. destruct (is_vector_field f) eqn:Hf.
  - apply bind_Ok in Hx as (u & Hcheck & [= <-]). split; [done|]. intros [|i] g d j vs; [|by apply Hall]. cbn. intros [= <-] [= <-] _ Hj Ht Hv.
    unfold check_no_nans in Hcheck. destruct c as [| |k item lengths v items]; try done. destruct k as [| |size]; try done.
    destruct (existsb _ _) eqn:Hex; [done|]. apply not_true_iff_false in Hex. apply not_true_iff_false. intros Hn. apply Hex, existsb_exists.
    exists j. split; [apply in_seq; lia|]. rewrite Hv, Hn, andb_true_r. unfold is_vector_field in Hf. by rewrite <-Ht in Hf.
  - injection Hx as <-. split; [done|]. intros [|i] g d j vs; [|by apply Hall]. cbn. intros [= <-] _ Hg. congruence.
Qed.
End lemmas.

(** * Properties *)
Section properties.
Context {V : Type} {K : Kernels V} {KL : KernelLaws V K} {P : Planner} {X : Extensions}.

(** C32: A write is stored as its values, coerced one by one: when the
    projection onto the table's fields is built and evaluates, every row of its
    output is the input row with each field the table has coerced by the
    reference [coerce], under the table's names and in the table's order,
    whatever the layout of the arrays hides under null parents.  A row that
    cannot be coerced fails the write. *)
Theorem write_is_coerced_by_value ins tbl exprs columns n outs i :
  cast_to_table_schema (can_cast := can_cast_types) ins tbl = Ok (Some exprs) →
  Forall2 (λ f c, fits n f (λ _, True) c) ins columns →
  project exprs columns n = Ok outs → (i < n)%nat →
  coerce_children (coerce cast_value) ins (row ins columns i) tbl =
    Some (zip (map (λ e, field_name e.2) exprs) (map (λ c, value c i) outs)).
Proof.
  unfold cast_to_table_schema. case_bool_decide; [done|]. intros (es & Hes & [= ->])%bind_Ok Hfits Hproj Hi.
  eapply (fields_sound tbl); [apply Forall_true, all_sound|exact Hes| |exact Hfits| |done|done|exact Hproj].
  - intros index f y _ Hy. cbn in Hy. by apply ok_or_Ok in Hy.
  - constructor.
Qed.
End properties.

(** ** A writer with three columns: the kernels keep cells as they are. *)
Module Demo.
#[export] Instance planner : Planner := {
  ComputedColumns.Physical := @ComputedColumns.Physical ComputedColumns.Demo.planner;
  ComputedColumns.parse_field_path := @ComputedColumns.parse_field_path ComputedColumns.Demo.planner;
  ComputedColumns.format_field_path_minimal := @ComputedColumns.format_field_path_minimal ComputedColumns.Demo.planner;
  ComputedColumns.resolve_case_insensitive := @ComputedColumns.resolve_case_insensitive ComputedColumns.Demo.planner;
  ComputedColumns.parse_inputs := @ComputedColumns.parse_inputs ComputedColumns.Demo.planner;
  ComputedColumns.print_inputs := @ComputedColumns.print_inputs ComputedColumns.Demo.planner;
  ComputedColumns.is_blob_v2 f := match field_metadata f !! "ARROW:extension:name" with Some n => String.eqb n "lance.blob.v2" | None => false end;
  ComputedColumns.BLOB_V2_DESC_FIELD := mkField "" TLargeBinary true ∅;
  ComputedColumns.parse_expr := @ComputedColumns.parse_expr ComputedColumns.Demo.planner;
  ComputedColumns.column_names_in_expr := @ComputedColumns.column_names_in_expr ComputedColumns.Demo.planner;
  ComputedColumns.optimize_expr := @ComputedColumns.optimize_expr ComputedColumns.Demo.planner;
  ComputedColumns.create_physical_expr := @ComputedColumns.create_physical_expr ComputedColumns.Demo.planner;
  ComputedColumns.physical_type := @ComputedColumns.physical_type ComputedColumns.Demo.planner
}.
#[export] Instance extensions : Extensions := {
  is_json_field _ := false; is_arrow_json_field _ := false; has_json_fields _ := false;
  ARROW_EXT_NAME_KEY := "ARROW:extension:name"; ARROW_JSON_EXT_NAME := "arrow.json";
  try_new_null _ := Ok tt
}.
Definition masked {A} (off : A → A) (m : list bool) (l : list A) : list A :=
  imap (λ i x, if default false (m !! i) then off x else x) l.
Definition is_fixed (k : ListKind) : bool := match k with FixedSize _ => true | _ => false end.
Definition relabel (a : Array nat) (t : DataType) : outcome string (Array nat) :=
  if bool_decide (data_type a = t) then Ok a
  else match a, list_parts t with
  | Leaf _ cells, None => match t with TStruct _ | TNull => Err "no cast" | _ => Ok (Leaf t cells) end
  | ListArray _ item lengths v items, Some (k, item') =>
      if bool_decide (item = item') && negb (is_fixed k) then Ok (ListArray k item lengths v items) else Err "no cast"
  | _, _ => Err "no cast"
  end.
#[export] Instance kernels : Kernels nat := {
  can_cast_types _ _ := true;
  cast := relabel;
  nullif a m :=
    Ok (match a with
        | Leaf t cells => Leaf t (masked (λ _, None) m cells)
        | StructArray fs cs v => StructArray fs cs (masked (λ _, false) m v)
        | ListArray k f lengths v items => ListArray k f lengths (masked (λ _, false) m v) items
        end);
  get_field a name :=
    match a with
    | StructArray fs cs _ => ok_or "no field" ('(i, _) ← position fs name; cs !! i)
    | _ => Err "no struct"
    end;
  named_struct args n :=
    Ok (StructArray (map (λ a, mkField a.1 (data_type a.2) true ∅) args) (map snd args) (all_valid n));
  null_array t n := Leaf t (replicate n None);
  struct_try_new fs cs v _ := Ok (StructArray fs cs v);
  batch_try_new _ _ := Ok tt;
  list_try_new k item lengths v items := Ok (ListArray k item lengths v items);
  bool_cell b := if b then 1%nat else 0%nat;
  cell_is_nan _ := false
}.
Lemma masked_lookup {A} (off : A → A) m l i : masked off m l !! i = (λ x, if default false (m !! i) then off x else x) <$> l !! i.
Proof. unfold masked. by rewrite list_lookup_imap. Qed.
#[export] Instance laws : KernelLaws nat kernels.
Proof.
  refine {| cast_value := λ _ _ v, v |}; try done.
  - intros a t a'. unfold cast, kernels, relabel. case_bool_decide as Ht; [by intros [= <-]|].
    destruct a as [u cells|fs cs v|k item lengths v items]; [..|]; destruct (list_parts t) as [[k' item']|] eqn:Hp; try done.
    + destruct t; try done; by intros [= <-].
    + destruct (bool_decide (item = item')) eqn:Hi; [|done]. apply bool_decide_eq_true in Hi as ->.
      destruct (is_fixed k'); [done|]. intros [= <-]. split; [|done]. cbn.
      destruct t; cbn in Hp; try done; by injection Hp as <- <-.
  - intros n f live a t a' k k' item Hf Hk Hk'. unfold cast, kernels, relabel. rewrite (fits_type _ _ _ _ Hf).
    destruct (fits_list_inv _ _ _ _ _ _ Hf Hk) as (lengths & v & items & -> & Hv & Hl & Hitems).
    case_bool_decide as Ht; [intros [= <-]; subst t|].
    + rewrite Hk in Hk'. injection Hk' as <-. by exists lengths, v, items.
    + rewrite Hk'. destruct (_ && _); [|done]. intros [= <-]. by exists lengths, v, items.
  - intros a m a' [= <-] i. destruct a as [t cells|fs cs v|k f lengths v items]; cbn; rewrite masked_lookup.
    + destruct (cells !! i); cbn; by destruct (default false (m !! i)).
    + destruct (v !! i) as [[]|]; cbn; by destruct (default false (m !! i)).
    + destruct (v !! i) as [[]|]; cbn; by destruct (default false (m !! i)).
  - intros fs cs v name c. cbn. destruct (position fs name) as [[i f]|] eqn:Hp; [|done]. cbn.
    intros H%ok_or_Ok. by exists i, f.
  - intros args n a [= <-]. eexists. split; [done|]. rewrite map_map. done.
  - intros t n i. cbn. destruct (replicate n None !! i) eqn:Hr; [|done]. by apply lookup_replicate in Hr as [-> _].
  - intros fs cs v n a. by intros [= <-].
  - intros k item lengths v items a. by intros [= <-].
Qed.
Definition plain (name : string) (t : string) : Field := mkField name (TOther t) true ∅.
Definition blob : Field := mkField "image" (TStruct [mkField "data" TLargeBinary true ∅; plain "uri" "Utf8"]) true
  {["ARROW:extension:name" := "lance.blob.v2"]}.
Definition gallery : list Field :=
  [plain "id" "Int64"; blob; mkField "meta" (TStruct [plain "b" "Int64"; plain "a" "Int64"]) true ∅;
   mkField "pages" (TLargeList (with_name blob "item")) true ∅].
(** Bytes for the blobs, a struct in another order, a list of bytes *)
Definition input : list Field :=
  [mkField "pages" (TList (mkField "element" TLargeBinary true ∅)) true ∅;
   mkField "meta" (TStruct [plain "a" "Int64"; plain "b" "Int64"]) true ∅; mkField "image" TLargeBinary true ∅; plain "id" "Int64"].
Definition batch : list (Array nat) :=
  [ListArray SmallList (mkField "element" TLargeBinary true ∅) [2; 0]%nat [true; false] (Leaf TLargeBinary [Some 10; None]%nat);
   StructArray [plain "a" "Int64"; plain "b" "Int64"] [Leaf (TOther "Int64") [Some 1; Some 2]%nat; Leaf (TOther "Int64") [Some 3; Some 4]%nat]
     [false; true];
   Leaf TLargeBinary [Some 7; None]%nat; Leaf (TOther "Int64") [Some 5; Some 6]%nat].
Lemma batch_fits : Forall2 (λ f c, fits 2 f (λ _, True) c) input batch.
Proof.
  repeat (constructor; try done); cbn; try (eapply FitsLeaf; try done; by intros ?).
Qed.
Definition exprs : list (PhysicalExpr * Field) :=
  match cast_to_table_schema (can_cast := can_cast_types) input gallery with Ok (Some exprs) => exprs | _ => [] end.
Definition outs : list (Array nat) := match project exprs batch 2 with Ok outs => outs | _ => [] end.
End Demo.

Lemma write_is_coerced_by_value_witness :
  map (λ c, value c 0%nat) Demo.outs =
    [VCell 5%nat; VStruct [("data", VCell 7%nat); ("uri", VNull)]; VNull;
     VList [VStruct [("data", VCell 10%nat); ("uri", VNull)]; VNull]] ∧
  coerce_children (@coerce nat Demo.kernels Demo.planner Demo.extensions (@cast_value nat Demo.kernels Demo.laws))
      Demo.input (row Demo.input Demo.batch 0) Demo.gallery =
    Some (zip (map (λ e, field_name e.2) Demo.exprs) (map (λ c, value c 0%nat) Demo.outs)).
Proof.
  split; [vm_compute; reflexivity|].
  apply (@write_is_coerced_by_value nat Demo.kernels Demo.laws Demo.planner Demo.extensions
    Demo.input Demo.gallery Demo.exprs Demo.batch 2 Demo.outs 0).
  - vm_compute. reflexivity.
  - exact Demo.batch_fits.
  - vm_compute. reflexivity.
  - lia.
Defined.
End WriteCast.
