(* ===== verification/Scannable.v ===== *)
(** * Sources of data (data/scannable.rs, embeddings.rs,
      table/datafusion/scannable_exec.rs, [TableDefinition] of table.rs)

    What a write reads: batches in memory, readers and streams that can be read
    once, any other implementation of the trait, and the wrappers that embed
    columns or look at the first batch.  A source is a value that scanning and
    peeking change; a stream is its schema and its items, and its consumer stops
    at the first error.  Embedding functions are user code and may panic. *)

From Stdlib Require Import String.
From stdpp Require Import strings gmap.
From S2P Require Import Prelude Schema WriteCast View WriteProgress.

Module Scannable.
Import Schema WriteCast.
Import View (EmbeddingDefinition, mkEmbedding, source_column, dest_column, embedding_name,
  ColumnKind, Physical, Embedding, ColumnDefinitionCodec, parse_definitions, print_definitions,
  COLUMN_DEFINITIONS_META_KEY).
Local Open Scope string_scope.

(** ** Table definitions *)
Record TableDefinition : Type := mkDefinition {
  column_definitions : list ColumnKind;
  schema : ArrowSchema
}.
Section definitions.
Context {CD : ColumnDefinitionCodec}.

Definition new_from_schema (s : ArrowSchema) : TableDefinition :=
  mkDefinition (map (λ _, Physical) (fields s)) s.
Definition try_from_rich_schema (s : ArrowSchema) : result TableDefinition :=
  match schema_metadata s !! COLUMN_DEFINITIONS_META_KEY with
  | Some raw =>
      definitions ← ok_or (Runtime "Failed to deserialize column definitions: {}") (parse_definitions raw);
      Ok (mkDefinition definitions s)
  | None => Ok (new_from_schema s)
  end.
Definition into_rich_schema (d : TableDefinition) : result ArrowSchema :=
  raw ← unwrap (print_definitions (column_definitions d));
  Ok (mkSchema (fields (schema d)) (<[COLUMN_DEFINITIONS_META_KEY := raw]> (schema_metadata (schema d)))).
End definitions.

(** ** Batches and streams *)
Record RecordBatch (V : Type) : Type := mkBatch {
  batch_schema : ArrowSchema;
  columns : list (Array V);
  num_rows_of : nat
}.
Arguments mkBatch {V} _ _ _.
Arguments batch_schema {V} _.
Arguments columns {V} _.
Arguments num_rows_of {V} _.
Record Stream (V : Type) : Type := mkStream {
  stream_schema : ArrowSchema;
  items : list (result (RecordBatch V))
}.
Arguments mkStream {V} _ _.
Arguments stream_schema {V} _.
Arguments items {V} _.

Section batches.
Context {V : Type}.
(** [RecordBatch::column_by_name] *)
Definition column_by_name (b : RecordBatch V) (name : string) : option (Array V) :=
  '(i, _) ← position (fields (batch_schema b)) name; columns b !! i.
End batches.

(** ** Embedding functions *)
Record EmbeddingFunction (V : Type) : Type := mkFunction {
  dest_type : result DataType;
  compute_source_embeddings : Array V → result (Array V)
}.
Arguments mkFunction {V} _ _.
Arguments dest_type {V} _.
Arguments compute_source_embeddings {V} _ _.

(** Of Arrow and lance-arrow: empty arrays, whether an array carries a buffer of
    nulls, appending a column, the memory an array takes *)
Class Columns (V : Type) : Type := {
  new_empty_array : DataType → Array V;
  has_nulls : Array V → bool;
  try_with_column : RecordBatch V → Field → Array V → outcome string (RecordBatch V);
  record_batch : ArrowSchema → list (Array V) → outcome string (RecordBatch V);
  array_memory_size : Array V → Z
}.

Section embeddings.
Context {V : Type} {K : Kernels V} {C : Columns V}.

Definition Embeddings : Type := list (EmbeddingDefinition * EmbeddingFunction V).

Definition dest_name (ed : EmbeddingDefinition) : string :=
  default (source_column ed +:+ "_embedding") (dest_column ed).
Definition compute_output_schema (base : ArrowSchema) (embeddings : Embeddings) : result ArrowSchema :=
  added ← try_map (λ e : EmbeddingDefinition * EmbeddingFunction V,
    src_field ← ok_or (InvalidInput "Source column '{}' not found in schema") (field_with_name base (source_column e.1));
    t ← dest_type e.2;
    Ok (mkField (dest_name e.1) t (field_nullable src_field) ∅)) embeddings;
  Ok (mkSchema (fields base ++ added)%list (schema_metadata base)).

(** The joined threads of a scope: a thread left unjoined after an error makes
    the scope panic if it panicked. *)
Fixpoint join_all {A} (threads : list (result A)) : result (list A) :=
  match threads with
  | [] => Ok []
  | Ok a :: threads => l ← join_all threads; Ok (a :: l)
  | Err e :: threads => if existsb is_panic threads then Panic else Err e
  | Panic :: threads =>
      if existsb is_panic threads then Panic
      else Err (Runtime "Thread panicked during embedding computation: {:?}")
  end.
Definition input_columns (batch : RecordBatch V) (embeddings : Embeddings)
    : result (list (Array V * EmbeddingFunction V)) :=
  try_map (λ e : EmbeddingDefinition * EmbeddingFunction V,
    src ← ok_or (InvalidInput "Source column '{}' not found") (column_by_name batch (source_column e.1));
    Ok (src, e.2)) embeddings.
Definition compute_embedding_arrays (batch : RecordBatch V) (embeddings : Embeddings) : result (list (Array V)) :=
  inputs ← input_columns batch embeddings;
  if (num_rows_of batch =? 0)%nat then
    try_map (λ i : Array V * EmbeddingFunction V, t ← dest_type i.2; Ok (new_empty_array t)) inputs
  else match inputs with
  | [(src, func)] => a ← compute_source_embeddings func src; Ok [a]
  | inputs => join_all (map (λ i, compute_source_embeddings i.2 i.1) inputs)
  end.
Fixpoint add_embeddings (batch : RecordBatch V) (added : list (EmbeddingDefinition * Array V))
    : result (RecordBatch V) :=
  match added with
  | [] => Ok batch
  | (ed, a) :: added =>
      batch ← arrow (try_with_column batch (mkField (dest_name ed) (data_type a) (has_nulls a) ∅) a);
      add_embeddings batch added
  end.
Definition compute_embeddings_for_batch (batch : RecordBatch V) (embeddings : Embeddings) : result (RecordBatch V) :=
  arrays ← compute_embedding_arrays batch embeddings;
  add_embeddings batch (zip (map fst embeddings) arrays).

(** [spawn_blocking(..).await.map_err(..)??] *)
Definition spawn_blocking {A} (task : result A) : result A :=
  match task with
  | Panic => Err (Runtime "Task panicked during embedding computation: {}")
  | r => r
  end.
Definition output_column (result_batch : RecordBatch V) (field : Field) : result (Array V) :=
  col ← ok_or (InvalidInput "Column '{}' required by the table schema was not present in the input batch")
          (column_by_name result_batch (field_name field));
  if bool_decide (data_type col = field_type field) then Ok col else arrow (cast col (field_type field)).
Definition embedded_item (embeddings : Embeddings) (output_schema : ArrowSchema) (item : result (RecordBatch V))
    : result (RecordBatch V) :=
  batch ← item;
  computed ← spawn_blocking (compute_embeddings_for_batch batch embeddings);
  columns ← try_map (output_column computed) (fields output_schema);
  arrow (record_batch output_schema columns).
End embeddings.
Arguments Embeddings V : clear implicits.

(** ** Sources

    [Custom] is any other implementation of the trait: the items of its [n]-th
    scan, what it says of its rows, and how often it has been scanned. *)
Inductive Scannable (V : Type) : Type :=
  | Single (batch : RecordBatch V)
  | Batches (batches : list (RecordBatch V))
  | Reader (reader : Stream V)
  | Sendable (stream : Stream V)
  | Custom (s : ArrowSchema) (scans : nat → list (result (RecordBatch V))) (rows : option Z) (again : bool)
      (scanned : nat)
  | WithEmbeddings (inner : Scannable V) (embeddings : Embeddings V) (output_schema : ArrowSchema)
  | Peeked (p : PeekedScannable V)
with PeekedScannable (V : Type) : Type :=
  mkPeeked (inner : Scannable V) (peeked : option (RecordBatch V)) (first_error : option Error)
    (stream : option (Stream V)).
Arguments Single {V} _.
Arguments Batches {V} _.
Arguments Reader {V} _.
Arguments Sendable {V} _.
Arguments Custom {V} _ _ _ _ _.
Arguments WithEmbeddings {V} _ _ _.
Arguments Peeked {V} _.
Arguments mkPeeked {V} _ _ _ _.

Section sources.
Context {V : Type} {K : Kernels V} {C : Columns V} {prof : Profile}.

Definition empty_schema : ArrowSchema := mkSchema [] ∅.
Fixpoint schema_of (s : Scannable V) : ArrowSchema :=
  match s with
  | Single batch => batch_schema batch
  | Batches [] => empty_schema
  | Batches (batch :: _) => batch_schema batch
  | Reader st | Sendable st => stream_schema st
  | Custom schema _ _ _ _ => schema
  | WithEmbeddings _ _ output_schema => output_schema
  | Peeked (mkPeeked inner _ _ _) => schema_of inner
  end.
Definition row_count (batch : RecordBatch V) : Z := Z.of_nat (num_rows_of batch).
Fixpoint num_rows (s : Scannable V) : result (option Z) :=
  match s with
  | Single batch => Ok (Some (row_count batch))
  | Batches batches => n ← u64_sum (map row_count batches); Ok (Some n)
  | Reader _ | Sendable _ => Ok None
  | Custom _ _ rows _ _ => Ok rows
  | WithEmbeddings inner _ _ => num_rows inner
  | Peeked (mkPeeked inner _ _ _) => num_rows inner
  end.
Fixpoint rescannable (s : Scannable V) : bool :=
  match s with
  | Single _ | Batches _ => true
  | Reader _ | Sendable _ => false
  | Custom _ _ _ again _ => again
  | WithEmbeddings inner _ _ => rescannable inner
  | Peeked (mkPeeked inner _ _ _) => rescannable inner
  end.

Definition consumed_reader : Error := Arrow "Reader has already been consumed".
Definition consumed_stream : Error := InvalidInput "Stream has already been consumed".
Definition empty_vec : Error := InvalidInput "Cannot scan an empty Vec<RecordBatch>".
(** The error reader of arrow ends each iteration like a list does. *)
Fixpoint scan_as_stream (s : Scannable V) : Stream V * Scannable V :=
  match s with
  | Single batch => (mkStream (batch_schema batch) [Ok batch], s)
  | Batches [] => (mkStream empty_schema [Err empty_vec], s)
  | Batches batches => (mkStream (schema_of s) (map Ok batches), s)
  | Reader st => (st, Reader (mkStream (stream_schema st) [Err consumed_reader]))
  | Sendable st => (st, Sendable (mkStream (stream_schema st) [Err consumed_stream]))
  | Custom schema scans rows again scanned =>
      (mkStream schema (scans scanned), Custom schema scans rows again (Datatypes.S scanned))
  | WithEmbeddings inner embeddings output_schema =>
      let '(st, inner) := scan_as_stream inner in
      (mkStream output_schema (map (embedded_item embeddings output_schema) (items st)),
       WithEmbeddings inner embeddings output_schema)
  | Peeked (mkPeeked inner peeked first_error stream) =>
      let schema := schema_of inner in
      let '(out, inner) :=
        match peeked, stream with
        | Some batch, Some rest => (mkStream schema (Ok batch :: items rest), inner)
        | Some batch, None => (mkStream schema [Ok batch], inner)
        | None, Some rest =>
            match first_error with
            | Some e => (mkStream schema [Err e], inner)
            | None => (rest, inner)
            end
        | None, None => scan_as_stream inner
        end in
      (out, Peeked (mkPeeked inner None None None))
  end.

Definition peeked_scannable (inner : Scannable V) : PeekedScannable V := mkPeeked inner None None None.
Definition peek (p : PeekedScannable V) : result (option (RecordBatch V) * PeekedScannable V) :=
  let '(mkPeeked inner peeked first_error stream) := p in
  match peeked with
  | Some batch => Ok (Some batch, p)
  | None =>
      if bool_decide (is_Some stream) || bool_decide (is_Some first_error) then Ok (None, p)
      else
        let '(st, inner) := scan_as_stream inner in
        match items st with
        | Ok batch :: rest => Ok (Some batch, mkPeeked inner (Some batch) None (Some (mkStream (stream_schema st) rest)))
        | Err e :: rest => Ok (None, mkPeeked inner None (Some e) (Some (mkStream (stream_schema st) rest)))
        | Panic :: _ => Panic
        | [] => Ok (None, mkPeeked inner None None (Some st))
        end
  end.

(** [get_array_memory_size] *)
Definition memory_size (batch : RecordBatch V) : Z := foldr Z.add 0%Z (map array_memory_size (columns batch)).
Definition estimate_write_partitions (sample_bytes sample_rows : Z) (total_rows_hint : option Z) (max_partitions : Z)
    : result Z :=
  if (sample_rows =? 0)%Z then Ok 1%Z
  else
    bytes_per_row ← u64_div sample_bytes sample_rows;
    let total_rows := default sample_rows total_rows_hint in
    total_bytes ← u64_mul total_rows bytes_per_row;
    by_rows ← u64_div_ceil total_rows 1000000;
    by_bytes ← u64_div_ceil total_bytes (2 * 1024 * 1024 * 1024);
    Ok (Z.min (Z.max (Z.max by_rows by_bytes) 1) max_partitions).

(** ** Embeddings of a table's definition: the registry *)
Definition lookup_embedding (registry : gmap string (EmbeddingFunction V)) (kind : ColumnKind)
    : result (option (EmbeddingDefinition * EmbeddingFunction V)) :=
  match kind with
  | Physical => Ok None
  | Embedding ed =>
      func ← ok_or (EmbeddingFunctionNotFound (embedding_name ed)
        "Table was defined with an embedding column `{}` but no embedding function was found with that name within the registry.")
        (registry !! embedding_name ed);
      Ok (Some (ed, func))
  end.
Definition scannable_with_embeddings (inner : Scannable V) (d : TableDefinition)
    (registry : option (gmap string (EmbeddingFunction V))) : result (Scannable V) :=
  match registry with
  | Some registry =>
      found ← try_map (lookup_embedding registry) (column_definitions d);
      match omap id found with
      | [] => Ok inner
      | embeddings => Ok (WithEmbeddings inner embeddings (schema d))
      end
  | None => Ok inner
  end.
Definition with_embeddings {CD : ColumnDefinitionCodec} (inner : Scannable V) (embeddings : Embeddings V)
    : result (Scannable V) :=
  output_schema ← compute_output_schema (schema_of inner) embeddings;
  let definitions := (map (λ _, Physical) (fields (schema_of inner)) ++ map (λ e, Embedding e.1) embeddings)%list in
  output_schema ← into_rich_schema (mkDefinition definitions output_schema);
  Ok (WithEmbeddings inner embeddings output_schema).
End sources.

(** ** Runs of a peeked source *)
Section runs.
Context {V : Type} {K : Kernels V} {C : Columns V} {prof : Profile}.

(** What a consumer sees of a stream *)
Fixpoint until_error {A} (l : list (result A)) : list (result A) :=
  match l with
  | Ok a :: l => Ok a :: until_error l
  | x :: _ => [x]
  | [] => []
  end.
Fixpoint nth_scan (s : Scannable V) (n : nat) : list (result (RecordBatch V)) :=
  let '(st, s) := scan_as_stream s in
  match n with
  | O => items st
  | Datatypes.S n => nth_scan s n
  end.

Inductive Op : Type := Peek | Scan.
Inductive Seen : Type :=
  | Sample (batch : option (RecordBatch V))
  | Rows (l : list (result (RecordBatch V))).
Fixpoint run (ops : list Op) (p : PeekedScannable V) : result (list Seen) :=
  match ops with
  | [] => Ok []
  | Peek :: ops => '(b, p) ← peek p; l ← run ops p; Ok (Sample b :: l)
  | Scan :: ops =>
      match scan_as_stream (Peeked p) with
      | (st, Peeked p) => l ← run ops p; Ok (Rows (until_error (items st)) :: l)
      | _ => Panic
      end
  end.
Definition first_batch (l : list (result (RecordBatch V))) : option (RecordBatch V) :=
  match l with Ok b :: _ => Some b | _ => None end.
(** The same operations on the source itself: a peek shows the first batch of
    the next scan. *)
Fixpoint spec (ops : list Op) (s : Scannable V) : list Seen :=
  match ops with
  | [] => []
  | Peek :: ops => Sample (first_batch (items (scan_as_stream s).1)) :: spec ops s
  | Scan :: ops => Rows (until_error (items (scan_as_stream s).1)) :: spec ops (scan_as_stream s).2
  end.

(** What the documentation of the trait asks of an implementation *)
Fixpoint honest (s : Scannable V) : Prop :=
  match s with
  | Custom _ scans _ again scanned =>
      scanned = O ∧ ∀ n, if again then scans n = scans O else ∃ e rest, scans (Datatypes.S n) = Err e :: rest
  | WithEmbeddings inner _ _ => honest inner
  | Peeked (mkPeeked inner peeked first_error stream) =>
      honest inner ∧ peeked = None ∧ first_error = None ∧ stream = None
  | _ => True
  end.
(** No poll of a scan panics. *)
Definition calm (l : list (result (RecordBatch V))) : Prop := Forall (λ i, is_panic i = false) l.
Definition rows_seen (seen : list Seen) : list (list (result (RecordBatch V))) :=
  omap (λ x, match x with Rows l => Some l | Sample _ => None end) seen.

Definition tracks (p : PeekedScannable V) (s : Scannable V) : Prop :=
  p = peeked_scannable s ∨
  let '(st, s1) := scan_as_stream s in
  match items st with
  | Ok b :: rest => p = mkPeeked s1 (Some b) None (Some (mkStream (stream_schema st) rest))
  | Err e :: rest => p = mkPeeked s1 None (Some e) (Some (mkStream (stream_schema st) rest))
  | Panic :: _ => False
  | [] => p = mkPeeked s1 None None (Some st)
  end.

Lemma peek_tracks p s : tracks p s → calm (items (scan_as_stream s).1) →
  ∃ p', peek p = Ok (first_batch (items (scan_as_stream s).1), p') ∧ tracks p' s.
Proof.
  unfold tracks. destruct (scan_as_stream s) as [[sch l] s1] eqn:Hs. cbn. intros [->|Ht] Hc.
  - cbn. rewrite Hs. destruct l as [|[b|e|] l]; cbn; [eauto..|].
    apply Forall_cons in Hc as [Hc _]. done.
  - destruct l as [|[b|e|] l]; [subst; cbn; eauto..|done].
Qed.
Lemma scan_tracks p s : tracks p s → calm (items (scan_as_stream s).1) →
  ∃ st, scan_as_stream (Peeked p) = (st, Peeked (peeked_scannable (scan_as_stream s).2)) ∧
    until_error (items st) = until_error (items (scan_as_stream s).1).
Proof.
  unfold tracks. destruct (scan_as_stream s) as [[sch l] s1] eqn:Hs. cbn [fst snd items]. intros [->|Ht] Hc.
  - cbn. rewrite Hs. by eexists.
  - destruct l as [|[b|e|] l]; [subst; cbn; by eexists..|done].
Qed.
Lemma nth_scan_next s n : nth_scan s (Datatypes.S n) = nth_scan (scan_as_stream s).2 n.
Proof. cbn. by destruct (scan_as_stream s). Qed.
Lemma nth_scan_first s : nth_scan s 0 = items (scan_as_stream s).1.
Proof. cbn. by destruct (scan_as_stream s). Qed.
Lemma run_spec ops : ∀ p s, tracks p s → (∀ n, calm (nth_scan s n)) → run ops p = Ok (spec ops s).
Proof.
  induction ops as [|[] ops IH]; intros p s Ht Hc; [done|..].
  - destruct (peek_tracks p s Ht) as (p' & Hp & Ht'); [rewrite <- nth_scan_first; apply Hc|].
    cbn [run spec]. rewrite Hp. cbn. by rewrite (IH _ _ Ht' Hc).
  - destruct (scan_tracks p s Ht) as (st & Hst & Heq); [rewrite <- nth_scan_first; apply Hc|].
    cbn [run spec]. rewrite Hst, Heq. cbn.
    rewrite (IH _ (scan_as_stream s).2); [done|by left|]. intros n. rewrite <- nth_scan_next. apply Hc.
Qed.

(** ** The trait's contract *)
Lemma nth_scan_embedded n : ∀ inner embeddings sch,
  nth_scan (WithEmbeddings inner embeddings sch) n = map (embedded_item embeddings sch) (nth_scan inner n).
Proof.
  induction n as [|n IH]; intros inner em sch; cbn; destruct (scan_as_stream inner) as [st inner']; [done|]. apply IH.
Qed.
Lemma nth_scan_peeked n : ∀ inner, nth_scan (Peeked (mkPeeked inner None None None)) n = nth_scan inner n.
Proof.
  induction n as [|n IH]; intros inner; cbn; destruct (scan_as_stream inner) as [st inner']; [done|]. apply IH.
Qed.
Lemma nth_scan_custom n : ∀ sch scans rows again k, nth_scan (Custom sch scans rows again k) n = scans (k + n)%nat.
Proof.
  induction n as [|n IH]; intros; cbn; [by rewrite Nat.add_0_r|]. rewrite IH. f_equal. lia.
Qed.
Lemma nth_scan_fixed s n : (scan_as_stream s).2 = s → nth_scan s n = nth_scan s 0.
Proof. intros Hs. induction n as [|n IH]; [done|]. by rewrite nth_scan_next, Hs. Qed.
Lemma nth_scan_consumed (mk : Stream V → Scannable V) e n st : (∀ st, scan_as_stream (mk st) = (st, mk (mkStream (stream_schema st) [Err e]))) →
  nth_scan (mk st) (Datatypes.S n) = [Err e].
Proof.
  intros Hmk. revert st. induction n as [|n IH]; intros st; rewrite nth_scan_next, Hmk; cbn [snd].
  - by rewrite nth_scan_first, Hmk.
  - apply IH.
Qed.
Definition keeps_contract (s : Scannable V) : Prop := ∀ n,
  if rescannable s then nth_scan s n = nth_scan s 0 else ∃ e rest, nth_scan s (Datatypes.S n) = Err e :: rest.
Fixpoint honest_contract (s : Scannable V) : honest s → keeps_contract s
with honest_peeked (p : PeekedScannable V) : honest (Peeked p) → keeps_contract (Peeked p).
Proof.
  - destruct s as [b|bs|st|st|sch scans rows again k|inner em sch|p]; intros H n.
    + by apply nth_scan_fixed.
    + apply nth_scan_fixed. by destruct bs.
    + cbn. eexists _, _. by apply (nth_scan_consumed Reader consumed_reader).
    + cbn. eexists _, _. by apply (nth_scan_consumed Sendable consumed_stream).
    + destruct H as [-> H]. cbn [rescannable]. rewrite !nth_scan_custom. specialize (H n). by destruct again.
    + pose proof (honest_contract inner H n) as Hi. cbn [rescannable].
      destruct (rescannable inner); rewrite !nth_scan_embedded; [by rewrite Hi|].
      destruct Hi as (e & rest & ->). cbn. eauto.
    + exact (honest_peeked p H n).
  - destruct p as [inner peeked first_error stream]. intros (H & -> & -> & ->) n.
    pose proof (honest_contract inner H n) as Hi. cbn [rescannable].
    destruct (rescannable inner); by rewrite !nth_scan_peeked.
Qed.
Lemma rows_seen_spec ops : ∀ s i l, rows_seen (spec ops s) !! i = Some l → l = until_error (nth_scan s i).
Proof.
  induction ops as [|[] ops IH]; intros s i l; cbn; [done|apply IH|].
  destruct i as [|i]; cbn.
  - intros [= <-]. by destruct (scan_as_stream s).
  - intros H%IH. subst. f_equal. by destruct (scan_as_stream s).
Qed.

(** a source whose first batch may be looked at behaves as the source
    itself: after any sequence of peeks and scans each scan gives, up to its
    first error, what the source's own scan of that turn gives, and each peek
    shows the first batch of the scan to come.  A rescannable source gives the
    same rows every time, so a failed write can be retried; any other gives its
    rows once and an error ever after, whatever wrappers stand around it. *)
Theorem peeking_preserves_scans (ops : list Op) (s : Scannable V) :
  honest s → (∀ n, calm (nth_scan s n)) →
  run ops (peeked_scannable s) = Ok (spec ops s) ∧
  ∀ i l, rows_seen (spec ops s) !! i = Some l →
    (i = O ∨ rescannable s = true) ∧ l = until_error (nth_scan s 0) ∨
    i ≠ O ∧ rescannable s = false ∧ ∃ e, l = [Err e].
Proof.
  intros Hh Hc. split; [apply run_spec; [by left|done]|].
  intros i l ->%rows_seen_spec. destruct i as [|i]; [left; auto|].
  pose proof (honest_contract s Hh) as Hk. unfold keeps_contract in Hk.
  destruct (rescannable s).
  - left. rewrite (Hk (Datatypes.S i)). auto.
  - right. destruct (Hk i) as (e & rest & ->). cbn. eauto.
Qed.
End runs.

(** ** Embedded batches *)
Class ColumnsLaws (V : Type) (C : Columns V) : Prop := {
  try_with_column_spec (b b' : RecordBatch V) (f : Field) a : try_with_column b f a = Ok b' →
    fields (batch_schema b') = (fields (batch_schema b) ++ [f])%list ∧ columns b' = (columns b ++ [a])%list ∧
    num_rows_of b' = num_rows_of b;
  record_batch_spec s (cs : list (Array V)) (b : RecordBatch V) : record_batch s cs = Ok b →
    batch_schema b = s ∧ columns b = cs ∧ Forall (λ c, array_len c = num_rows_of b) cs
}.
Definition batch_wf {V} (b : RecordBatch V) : Prop := length (columns b) = length (fields (batch_schema b)).

Section embedded.
Context {V : Type} {K : Kernels V} {C : Columns V} {CL : ColumnsLaws V C}.

Lemma position_app fs gs n :
  position (fs ++ gs) n =
  match position fs n with Some x => Some x | None => (λ x, (length fs + x.1, x.2)%nat) <$> position gs n end.
Proof.
  induction fs as [|f fs IH]; cbn [app position length].
  - destruct (position gs n) as [[]|]; done.
  - destruct (String.eqb (field_name f) n); [done|]. rewrite IH.
    destruct (position fs n) as [[]|]; [done|]. by destruct (position gs n) as [[]|].
Qed.
Lemma position_lt fs n i f : position fs n = Some (i, f) → (i < length fs)%nat.
Proof.
  revert i. induction fs as [|g fs IH]; intros i; cbn; [done|]. destruct (String.eqb _ _).
  - intros [= <- _]. lia.
  - destruct (position fs n) as [[j h]|]; [|done]. intros [= <- <-]. specialize (IH j eq_refl). lia.
Qed.

(** The column an embedded batch shows under a name: the input's, or else the
    first embedding of that name. *)
Definition source_or_embedding (batch : RecordBatch V) (added : list (EmbeddingDefinition * Array V)) (n : string)
    : option (Array V) :=
  match column_by_name batch n with
  | Some a => Some a
  | None => snd <$> List.find (λ x : EmbeddingDefinition * Array V, String.eqb (dest_name x.1) n) added
  end.
Lemma column_of_position (b : RecordBatch V) n : batch_wf b →
  column_by_name b n = match position (fields (batch_schema b)) n with Some (i, _) => columns b !! i | None => None end.
Proof. intros _. unfold column_by_name. by destruct (position _ n) as [[]|]. Qed.
Lemma add_embeddings_columns added : ∀ batch out, batch_wf batch → add_embeddings batch added = Ok out →
  batch_wf out ∧ ∀ n, column_by_name out n = source_or_embedding batch added n.
Proof.
  induction added as [|[ed a] added IH]; intros batch out Hwf; cbn [add_embeddings].
  - intros [= <-]. split; [done|]. intros n. unfold source_or_embedding. cbn. by destruct (column_by_name batch n).
  - intros (b & Hb%arrow_Ok & Hout)%bind_Ok. apply try_with_column_spec in Hb as (Hf & Hc & _).
    assert (Hwf' : batch_wf b) by (unfold batch_wf in *; rewrite Hf, Hc, !length_app; cbn; lia).
    destruct (IH b out Hwf' Hout) as [Hw Hall]. split; [done|]. intros n. rewrite (Hall n).
    unfold source_or_embedding. rewrite !column_of_position, Hf, Hc, position_app by done.
    destruct (position (fields (batch_schema batch)) n) as [[i g]|] eqn:Hp.
    + apply position_lt in Hp. unfold batch_wf in Hwf. rewrite <- Hwf in Hp. rewrite lookup_app_l by done.
      by apply lookup_lt_is_Some in Hp as [c ->].
    + cbn. destruct (String.eqb (dest_name ed) n); cbn; [|done].
      unfold batch_wf in Hwf. rewrite Nat.add_0_r, <- Hwf, lookup_app_r, Nat.sub_diag by lia. done.
Qed.

(** Each column of an embedded batch has the table's type and comes from the
    input's column of its name or, failing that, from its embedding. *)
Lemma embedded_columns embeddings output_schema (batch out : RecordBatch V) : batch_wf batch →
  embedded_item embeddings output_schema (Ok batch) = Ok out →
  ∃ arrays, compute_embedding_arrays batch embeddings = Ok arrays ∧ batch_schema out = output_schema ∧
    Forall2 (λ f c, ∃ src, source_or_embedding batch (zip (map fst embeddings) arrays) (field_name f) = Some src ∧
      (data_type src = field_type f ∧ c = src ∨ data_type src ≠ field_type f ∧ cast src (field_type f) = Ok c))
      (fields output_schema) (columns out).
Proof.
  intros Hwf. unfold embedded_item. cbn [mbind outcome_bind].
  intros (computed & Hsp & H)%bind_Ok. apply bind_Ok in H as (cs & Hcs & Hrb%arrow_Ok).
  unfold spawn_blocking in Hsp. destruct (compute_embeddings_for_batch batch embeddings) as [b'|e|] eqn:Hb; [|done..].
  injection Hsp as ->. unfold compute_embeddings_for_batch in Hb. apply bind_Ok in Hb as (arrays & Ha & Hadd).
  apply add_embeddings_columns in Hadd as [_ Hcol]; [|done]. apply record_batch_spec in Hrb as (-> & -> & _).
  exists arrays. split; [done|]. split; [done|]. apply try_map_Ok in Hcs.
  eapply Forall2_impl; [exact Hcs|]. intros f c (src & Hsrc%ok_or_Ok & Hc)%bind_Ok.
  exists src. rewrite <- Hcol. split; [done|]. case_bool_decide; [left; by injection Hc as ->|right].
  split; [done|]. by apply arrow_Ok in Hc.
Qed.
End embedded.

(** ** Partitions of a write *)
Section partitions.
Context {prof : Profile}.
Local Open Scope Z_scope.
(** At least one partition and no more than the machine has; as many as the rows
    and the bytes ask for when the product fits. *)
Lemma estimate_bounds bytes rows hint cpus n : 1 ≤ cpus → 0 ≤ bytes → 0 ≤ rows → 0 ≤ default rows hint →
  estimate_write_partitions bytes rows hint cpus = Ok n → 1 ≤ n ≤ cpus.
Proof.
  intros Hc Hb Hr Hh. unfold estimate_write_partitions.
  destruct (Z.eqb_spec rows 0) as [|Hnz]; [intros [= <-]; lia|].
  intros (bpr & _ & H)%bind_Ok. apply bind_Ok in H as (total & _ & H).
  apply bind_Ok in H as (by_rows & _ & H). apply bind_Ok in H as (by_bytes & _ & [= <-]). lia.
Qed.
Lemma estimate_overflow : overflow_checks = true →
  estimate_write_partitions 16 2 (Some (2 ^ 62)) 8 = Panic.
Proof.
  intros H. unfold estimate_write_partitions, u64_mul, u64_arith. cbn. by rewrite H.
Qed.
End partitions.

(** ** ScannableExec *)
Section exec.
Context {V : Type} {K : Kernels V} {C : Columns V}.
(** One partition; the wrapped source is scanned each time the plan runs. *)
Definition execute (partition : nat) (source : Scannable V) : result (Stream V * Scannable V) :=
  if negb (partition =? 0)%nat then Err (External "ScannableExec only supports partition 0, got {}")
  else
    let '(st, source) := scan_as_stream source in
    Ok (mkStream (schema_of source) (items st), source).
(** What the tracker is told while the stream is read *)
Definition progress (l : list (result (RecordBatch V))) : list WriteProgress.Step :=
  omap (λ i : result (RecordBatch V), match i with
    | Ok b => Some (WriteProgress.Batch (row_count b) (memory_size b))
    | _ => None
    end) l.
End exec.

(** ** A stream of titles that are embedded *)
Module Demo.
Import WriteCast.Demo.
#[export] Instance columns_demo : Columns nat := {
  new_empty_array t := Leaf t [];
  has_nulls a := existsb (λ i, is_null (value a i)) (seq 0 (array_len a));
  try_with_column b f a :=
    Ok (mkBatch (mkSchema (fields (batch_schema b) ++ [f])%list (schema_metadata (batch_schema b)))
          (columns b ++ [a])%list (num_rows_of b));
  record_batch s cs :=
    let n := match cs with c :: _ => array_len c | [] => 0%nat end in
    if forallb (λ c, array_len c =? n)%nat cs then Ok (mkBatch s cs n) else Err "lengths differ";
  array_memory_size a := (8 * Z.of_nat (array_len a))%Z
}.
#[export] Instance columns_demo_laws : ColumnsLaws nat columns_demo.
Proof.
  split.
  - by intros b b' f a [= <-].
  - intros s cs b. cbn. destruct (forallb _ cs) eqn:Hall; [|done]. intros [= <-]. split; [done|]. split; [done|].
    cbn. apply Forall_forall. intros c Hc. apply list_elem_of_In in Hc.
    rewrite forallb_forall in Hall. by apply Nat.eqb_eq, Hall.
Qed.
Definition titles (cells : list (option nat)) : RecordBatch nat :=
  mkBatch (mkSchema [plain "title" "Utf8"] ∅) [Leaf (TOther "Utf8") cells] (length cells).
Definition stored : ArrowSchema := mkSchema [plain "vector" "Float32"; plain "title" "Utf8"] ∅.
Definition twice : EmbeddingFunction nat :=
  mkFunction (Ok (TOther "Float32")) (λ a, match a with
    | Leaf _ cells => Ok (Leaf (TOther "Float32") (map (option_map (Nat.mul 2)) cells))
    | _ => Panic
    end).
Definition source : Scannable nat :=
  WithEmbeddings (Sendable (mkStream (mkSchema [plain "title" "Utf8"] ∅) [Ok (titles [Some 3; None]%nat); Ok (titles [])]))
    [(mkEmbedding "title" (Some "vector") "twice", twice)] stored.
Definition embedded (vectors cells : list (option nat)) : RecordBatch nat :=
  mkBatch stored [Leaf (TOther "Float32") vectors; Leaf (TOther "Utf8") cells] (length cells).
End Demo.

#[local] Existing Instances WriteCast.Demo.kernels Demo.columns_demo.
Lemma peeking_preserves_scans_witness :
  nth_scan Demo.source 0 = [Ok (Demo.embedded [Some 6; None]%nat [Some 3; None]%nat); Ok (Demo.embedded [] [])] ∧
  run [Peek; Peek; Scan; Peek; Scan] (peeked_scannable Demo.source) =
    Ok (spec [Peek; Peek; Scan; Peek; Scan] Demo.source) ∧
  ∀ i l, rows_seen (spec [Peek; Peek; Scan; Peek; Scan] Demo.source) !! i = Some l →
    (i = O ∨ rescannable Demo.source = true) ∧ l = until_error (nth_scan Demo.source 0) ∨
    i ≠ O ∧ rescannable Demo.source = false ∧ ∃ e, l = [Err e].
Proof.
  split; [vm_compute; reflexivity|]. apply peeking_preserves_scans; [exact I|].
  intros [|n]; [vm_compute; repeat constructor|].
  unfold Demo.source. rewrite nth_scan_embedded, (nth_scan_consumed Sendable consumed_stream) by done.
  repeat constructor.
Defined.
End Scannable.
