(* ===== verification/AddData.v ===== *)
(** * Adding rows to a table (table/add_data.rs, table/datafusion/insert.rs,
      [add] of [NativeTable] in table.rs)

    The builder of a write and the plan it becomes; then the partitions of a
    local write, which run at the same time and hand their uncommitted
    transactions to whichever finishes last.  Lance writes and commits, and
    DataFusion deals batches out to partitions: both are parameters. *)

From Stdlib Require Import String.
From stdpp Require Import strings gmap.
From S2P Require Import Prelude Schema Dataset ComputedColumns Refresh Admission ViewPlan WriteCast View WriteProgress Scannable.

Module AddData.
Import Schema WriteCast Scannable.
Import ComputedColumns (Planner, BindingChecks, is_blob_v2, computed_columns, mem).
Import View (ColumnDefinitionCodec).
Import Admission (ensure_batch_writes_no_computed_values).
Import ViewPlan (ensure_not_a_view).
Import WriteProgress (WriteProgressTracker).
Local Open Scope string_scope.

(** ** The builder *)
Module AddDataMode.
Inductive t : Type := Append | Overwrite.
End AddDataMode.
Module NaNVectorBehavior.
Inductive t : Type := Error | Keep.
End NaNVectorBehavior.
(** lance's [WriteMode] and [WriteParams]; [rest] stands for the settings the
    code passes on unread. *)
Module WriteMode.
Inductive t : Type := Create | Append | Overwrite.
End WriteMode.
Record WriteParams : Type := mkParams {
  params_mode : WriteMode.t;
  params_allow_external : bool;
  rest : gmap string string
}.
Definition WriteOptions : Type := option WriteParams.

Record AddDataBuilder (V : Type) : Type := mkBuilder {
  data : Scannable V;
  mode_of : AddDataMode.t;
  write_options_of : WriteOptions;
  nan_vectors : NaNVectorBehavior.t;
  embedding_registry : option (gmap string (EmbeddingFunction V));
  has_progress : bool;
  parallelism : option Z;
  allow_external : bool
}.
Arguments mkBuilder {V} _ _ _ _ _ _ _ _.
Arguments data {V} _.
Arguments mode_of {V} _.
Arguments write_options_of {V} _.
Arguments nan_vectors {V} _.
Arguments embedding_registry {V} _.
Arguments has_progress {V} _.
Arguments parallelism {V} _.
Arguments allow_external {V} _.

Section builder.
Context {V : Type}.
Definition new (d : Scannable V) (registry : option (gmap string (EmbeddingFunction V))) : AddDataBuilder V :=
  mkBuilder d AddDataMode.Append None NaNVectorBehavior.Error registry false None false.
Definition with_data (d : Scannable V) (b : AddDataBuilder V) : AddDataBuilder V :=
  mkBuilder d (mode_of b) (write_options_of b) (nan_vectors b) (embedding_registry b) (has_progress b)
    (parallelism b) (allow_external b).
Definition mode (m : AddDataMode.t) (b : AddDataBuilder V) : AddDataBuilder V :=
  mkBuilder (data b) m (write_options_of b) (nan_vectors b) (embedding_registry b) (has_progress b)
    (parallelism b) (allow_external b).
Definition write_options (o : WriteOptions) (b : AddDataBuilder V) : AddDataBuilder V :=
  mkBuilder (data b) (mode_of b) o (nan_vectors b) (embedding_registry b) (has_progress b)
    (parallelism b) (allow_external b).
Definition on_nan_vectors (n : NaNVectorBehavior.t) (b : AddDataBuilder V) : AddDataBuilder V :=
  mkBuilder (data b) (mode_of b) (write_options_of b) n (embedding_registry b) (has_progress b)
    (parallelism b) (allow_external b).
Definition progress (b : AddDataBuilder V) : AddDataBuilder V :=
  mkBuilder (data b) (mode_of b) (write_options_of b) (nan_vectors b) (embedding_registry b) true
    (parallelism b) (allow_external b).
Definition write_parallelism (p : Z) (b : AddDataBuilder V) : AddDataBuilder V :=
  mkBuilder (data b) (mode_of b) (write_options_of b) (nan_vectors b) (embedding_registry b) (has_progress b)
    (Some p) (allow_external b).
Definition allow_external_blob_outside_bases (a : bool) (b : AddDataBuilder V) : AddDataBuilder V :=
  mkBuilder (data b) (mode_of b) (write_options_of b) (nan_vectors b) (embedding_registry b) (has_progress b)
    (parallelism b) a.
(** The check before the table's own [add] *)
Definition check_execute (b : AddDataBuilder V) : result unit :=
  match parallelism b with
  | Some p => if (p =? 0)%Z then Err (InvalidInput "write_parallelism must be greater than 0") else Ok tt
  | None => Ok tt
  end.
End builder.

(** ** The schemas of a write *)
Section schemas.
Context {P : Planner}.
Definition list_item (t : DataType) : option Field := snd <$> list_parts t.
Definition duplicate_name : Error := InvalidInput "field '{}' is specified more than once".
Definition unknown_name : Error := InvalidInput "field '{}' does not exist in table schema".
(** The loop of [validate_fields], over the check of one field *)
Definition validate_with (validate : Field → Field → result unit) (tables : list Field)
    : list string → list Field → result unit :=
  fix go seen inputs :=
    match inputs with
    | [] => Ok tt
    | f :: inputs =>
        if mem (field_name f) seen then Err duplicate_name
        else match find_field tables (field_name f) with
        | None => Err unknown_name
        | Some t => _ ← validate f t; go (field_name f :: seen) inputs
        end
    end.
Fixpoint validate_field (input table : Field) {struct input} : result unit :=
  if is_blob_v2 table then Ok tt
  else
    let 'mkField _ input_type _ _ := input in
    match input_type, field_type table with
    | TStruct inputs, TStruct tables => validate_with validate_field tables [] inputs
    | TList item, t | TLargeList item, t | TFixedSizeList item _, t =>
        match list_item t with Some item' => validate_field item item' | None => Ok tt end
    | _, _ => Ok tt
    end.
Definition validate_fields (inputs tables : list Field) : result unit := validate_with validate_field tables [] inputs.
Definition validate_schema (input table : ArrowSchema) : result unit := validate_fields (fields input) (fields table).

(** Columns are matched by name in any order: each must be one of the table's and
    given once. *)
Lemma validate_with_Ok validate tables inputs : ∀ seen, validate_with validate tables seen inputs = Ok tt ↔
  NoDup (map field_name inputs) ∧ Forall (λ n, n ∉ seen) (map field_name inputs) ∧
  Forall (λ f, ∃ t, find_field tables (field_name f) = Some t ∧ validate f t = Ok tt) inputs.
Proof.
  induction inputs as [|f inputs IH]; intros seen; cbn.
  - split; [intros _; split_and!; constructor|done].
  - unfold mem. rewrite NoDup_cons, !Forall_cons.
    assert (Hsplit : ∀ l, Forall (λ n, n ∉ field_name f :: seen) l ↔ field_name f ∉ l ∧ Forall (λ n, n ∉ seen) l).
    { intros l. induction l as [|n l IHl]; [split; [intros _; split; [apply not_elem_of_nil|constructor]|intros _; constructor]|].
      rewrite !Forall_cons, IHl, !not_elem_of_cons. intuition congruence. }
    case_bool_decide as Hs; [split; [done|by intros (_ & [? _] & _)]|].
    destruct (find_field tables (field_name f)) as [t|].
    2: { split; [done|]. by intros (_ & _ & (t' & ? & _) & _). }
    destruct (validate f t) as [[]|e|] eqn:Hv; cbn.
    + rewrite IH, Hsplit. naive_solver.
    + split; [done|]. intros (_ & _ & (t' & [= <-] & H) & _). congruence.
    + split; [done|]. intros (_ & _ & (t' & [= <-] & H) & _). congruence.
Qed.
Lemma validate_schema_Ok input table : validate_schema input table = Ok tt ↔
  NoDup (names input) ∧
  Forall (λ f, ∃ t, find_field (fields table) (field_name f) = Some t ∧ validate_field f t = Ok tt) (fields input).
Proof.
  unfold validate_schema, validate_fields, names. rewrite validate_with_Ok. split; [naive_solver|].
  intros [? ?]. split; [done|]. split; [|done]. apply Forall_true. intros n. apply not_elem_of_nil.
Qed.
End schemas.

(** ** The plan of a write *)
Record PreprocessingOutput (V : Type) : Type := mkOutput {
  source : Scannable V;
  casts : option (list (PhysicalExpr * Field));
  rejects_nan : bool;
  overwrite : bool;
  rescannable_input : bool;
  output_options : WriteOptions;
  output_mode : AddDataMode.t;
  tracker : option WriteProgressTracker;
  output_allow_external : bool
}.
Arguments mkOutput {V} _ _ _ _ _ _ _ _ _.
Arguments source {V} _.
Arguments casts {V} _.
Arguments rejects_nan {V} _.
Arguments overwrite {V} _.
Arguments rescannable_input {V} _.
Arguments output_options {V} _.
Arguments output_mode {V} _.
Arguments tracker {V} _.
Arguments output_allow_external {V} _.

Section plans.
Context {V : Type} {P : Planner} {X : Extensions} {K : Kernels V} {C : Columns V} {prof : Profile}.

Definition overwrites (b : AddDataBuilder V) : bool :=
  match write_options_of b with
  | Some p => match params_mode p with WriteMode.Overwrite => true | _ => false end
  | None => false
  end || match mode_of b with AddDataMode.Overwrite => true | AddDataMode.Append => false end.
Definition into_plan (now : Z) (table_schema : ArrowSchema) (table_def : TableDefinition) (b : AddDataBuilder V)
    : result (PreprocessingOutput V) :=
  let overwrite := overwrites b in
  _ ← (if overwrite then Ok tt else validate_schema (schema_of (data b)) table_schema);
  data ← scannable_with_embeddings (data b) table_def (embedding_registry b);
  rows ← num_rows data;
  let tracker := if has_progress b then Some (WriteProgress.new rows now) else None in
  casts ← (if overwrite then Ok None
           else cast_to_table_schema (can_cast := can_cast_types) (fields (schema_of data)) (fields table_schema));
  let rejects := match nan_vectors b with NaNVectorBehavior.Error => true | NaNVectorBehavior.Keep => false end in
  Ok (mkOutput data casts rejects overwrite (rescannable data) (write_options_of b) (mode_of b) tracker
        (allow_external b)).

(** ProjectionExec and the functions of the plan, batch by batch *)
Definition project_batch (casts : option (list (PhysicalExpr * Field))) (b : RecordBatch V) : result (RecordBatch V) :=
  match casts with
  | None => Ok b
  | Some exprs =>
      cs ← project exprs (columns b) (num_rows_of b);
      arrow (record_batch (mkSchema (map snd exprs) (schema_metadata (batch_schema b))) cs)
  end.
Definition planned_item (o : PreprocessingOutput V) (i : result (RecordBatch V)) : result (RecordBatch V) :=
  b ← i;
  b ← project_batch (casts o) b;
  _ ← (if rejects_nan o then _ ← reject_nan_vectors (fields (batch_schema b)) (columns b); Ok tt else Ok tt);
  Ok b.
(** The stream of the plan's only partition; the source is scanned by it. *)
Definition run_plan (o : PreprocessingOutput V) : result (list (result (RecordBatch V)) * PreprocessingOutput V) :=
  '(st, source) ← execute 0 (source o);
  Ok (map (planned_item o) (items st),
      mkOutput source (casts o) (rejects_nan o) (overwrite o) (rescannable_input o) (output_options o)
        (output_mode o) (tracker o) (output_allow_external o)).

(** DataFusion's RepartitionExec, dealing batches out in turn *)
Class Repartition : Type := {
  deal : nat → list (result (RecordBatch V)) → list (list (result (RecordBatch V)))
}.

(** How many partitions a write gets, and the source it then reads *)
Definition sampled_partitions (cpus : Z) (p : PeekedScannable V) (sample : option (RecordBatch V)) : result Z :=
  match sample with
  | Some first_batch =>
      rows ← num_rows (Peeked p);
      estimate_write_partitions (memory_size first_batch) (row_count first_batch) rows cpus
  | None => Ok 1%Z
  end.
Definition native_partitions (cpus : Z) (b : AddDataBuilder V) : result (Z * AddDataBuilder V) :=
  match parallelism b with
  | Some p => Ok (p, b)
  | None =>
      '(sample, peeked) ← peek (peeked_scannable (data b));
      n ← sampled_partitions cpus peeked sample;
      Ok (n, with_data (Peeked peeked) b)
  end.
End plans.

(** ** Inserting (table/datafusion/insert.rs) *)
Inductive Operation (F : Type) : Type :=
  | AppendOp (fragments : list F)
  | OverwriteOp (fragments : list F) (schema : ArrowSchema)
  | OtherOp.
Arguments AppendOp {F} _.
Arguments OverwriteOp {F} _ _.
Arguments OtherOp {F}.
Record Transaction (F : Type) : Type := mkTransaction { read_version : Z; operation : Operation F }.
Arguments mkTransaction {F} _ _.
Arguments read_version {F} _.
Arguments operation {F} _.

Section transactions.
Context {F : Type} (fragment_rows : F → option Z) {prof : Profile}.
Definition operation_fragments (o : Operation F) : list F :=
  match o with AppendOp fs | OverwriteOp fs _ => fs | OtherOp => [] end.
Definition count_rows_from_operation (o : Operation F) : result Z :=
  u64_sum (map (λ f, default 0%Z (fragment_rows f)) (operation_fragments o)).
(** [operation_fragments_mut(..).extend_from_slice(..)] *)
Definition extend_fragments (o : Operation F) (more : list F) : result (Operation F) :=
  match o with
  | AppendOp fs => Ok (AppendOp (fs ++ more)%list)
  | OverwriteOp fs s => Ok (OverwriteOp (fs ++ more)%list s)
  | OtherOp => Panic
  end.
Fixpoint extend_all (first : Transaction F) (transactions : list (Transaction F)) : result (Transaction F) :=
  match transactions with
  | [] => Ok first
  | t :: transactions =>
      o ← extend_fragments (operation first) (operation_fragments (operation t));
      extend_all (mkTransaction (read_version first) o) transactions
  end.
Definition merge_transactions (transactions : list (Transaction F)) : result (option (Transaction F)) :=
  match rev transactions with
  | [] => Ok None
  | first :: before => t ← extend_all first (rev before); Ok (Some t)
  end.
End transactions.

(** lance's dataset as a write reads it, and the writing of one partition *)
Class Lance (V F : Type) : Type := {
  dataset_schema : Dataset.Dataset → ArrowSchema;
  fragment_rows : F → option Z;
  execute_uncommitted_stream :
    Dataset.Dataset → WriteParams → list (result (RecordBatch V)) → result (Transaction F)
}.

Section insert.
Context {V F : Type} {L : Lance V F} {P : Planner} {prof : Profile}.

(** Arrays as the guard on computed columns sees them: the validity buffer of an
    array of type Null counts no null. *)
Definition counted_array (a : Array V) : Refresh.ArrayRef (Value V) :=
  let slots := map (λ i, (is_null (value a i), value a i)) (seq 0 (array_len a)) in
  Refresh.mkArrayRef (map (λ s : bool * Value V, if s.1 then None else Some s.2) slots)
    (if is_null_type (data_type a) then 0 else length (List.filter fst slots)).
Definition counted (b : RecordBatch V) : Admission.Batch (V := Value V) :=
  zip (names (batch_schema b)) (map counted_array (columns b)).
Definition inserted_item (declared : list string) (i : result (RecordBatch V)) : result (RecordBatch V) :=
  b ← i;
  _ ← ensure_batch_writes_no_computed_values declared (counted b);
  Ok b.
(** What a partition writes before it looks at the others: its transaction and
    the count of its rows *)
Definition write_partition (ds : Dataset.Dataset) (params : WriteParams) (input : list (result (RecordBatch V)))
    : result (Transaction F * Z) :=
  let declared := map ComputedColumns.name (computed_columns (dataset_schema ds)) in
  t ← execute_uncommitted_stream ds params (map (inserted_item declared) input);
  rows ← count_rows_from_operation fragment_rows (operation t);
  Ok (t, rows).

(** ** Partitions that run at the same time *)
Inductive Task : Type :=
  | Writing
  | Wrote (t : Transaction F) (rows : Z)
  | Commits (rows : Z) (taken : list (Transaction F))
  | Done (r : result Z).
Record Insertion : Type := mkInsertion {
  tasks : list Task;
  partial_transactions : list (Transaction F);
  attempts : list (Transaction F * result Dataset.Dataset);
  ds_wrapper : Dataset.DatasetState
}.
Definition start (n : nat) (w : Dataset.DatasetState) : Insertion := mkInsertion (replicate n Writing) [] [] w.
Definition set_task (i : nat) (t : Task) (s : Insertion) : Insertion :=
  mkInsertion (<[i := t]> (tasks s)) (partial_transactions s) (attempts s) (ds_wrapper s).

Definition written (w : result (Transaction F * Z)) : Task :=
  match w with Ok (t, rows) => Wrote t rows | Err e => Done (Err e) | Panic => Done Panic end.
(** The section under the lock: the last of [total] partitions takes all. *)
Definition push (total i : nat) (t : Transaction F) (rows : Z) (s : Insertion) : Insertion :=
  let txns := (partial_transactions s ++ [t])%list in
  if (length txns =? total)%nat
  then set_task i (Commits rows txns) (mkInsertion (tasks s) [] (attempts s) (ds_wrapper s))
  else set_task i (Done (Ok rows)) (mkInsertion (tasks s) txns (attempts s) (ds_wrapper s)).
(** [answer] is what the commit answers, if it is tried. *)
Definition commit (i : nat) (rows : Z) (taken : list (Transaction F)) (answer : result Dataset.Dataset) (s : Insertion)
    : Insertion :=
  match merge_transactions taken with
  | Ok (Some merged) =>
      let attempts := (attempts s ++ [(merged, answer)])%list in
      match answer with
      | Ok d =>
          set_task i (Done (Ok rows))
            (mkInsertion (tasks s) (partial_transactions s) attempts (Dataset.update d (ds_wrapper s)).1)
      | Err e => set_task i (Done (Err e)) (mkInsertion (tasks s) (partial_transactions s) attempts (ds_wrapper s))
      | Panic => set_task i (Done Panic) (mkInsertion (tasks s) (partial_transactions s) attempts (ds_wrapper s))
      end
  | Ok None => set_task i (Done (Ok rows)) s
  | Err e => set_task i (Done (Err e)) s
  | Panic => set_task i (Done Panic) s
  end.
Inductive step (ds : Dataset.Dataset) (params : WriteParams) (inputs : list (list (result (RecordBatch V))))
    : Insertion → Insertion → Prop :=
  | StepWrite s i input : tasks s !! i = Some Writing → inputs !! i = Some input →
      step ds params inputs s (set_task i (written (write_partition ds params input)) s)
  | StepPush s i t rows : tasks s !! i = Some (Wrote t rows) →
      step ds params inputs s (push (length inputs) i t rows s)
  | StepCommit s i rows taken answer : tasks s !! i = Some (Commits rows taken) →
      step ds params inputs s (commit i rows taken answer s)
  | StepHandle s w : step ds params inputs s (mkInsertion (tasks s) (partial_transactions s) (attempts s) w).

(** ** [NativeTable::add] *)
(** The handles are awaited in some order; the first failure is the answer. *)
Fixpoint await_all (handles : list (result Z)) : result unit :=
  match handles with
  | [] => Ok tt
  | Ok _ :: handles => await_all handles
  | Err e :: _ => Err e
  | Panic :: _ => Err (Runtime "Insert task panicked: {}")
  end.
Definition lance_params (o : PreprocessingOutput V) : WriteParams :=
  let params := default (mkParams (match output_mode o with
                                   | AddDataMode.Append => WriteMode.Append
                                   | AddDataMode.Overwrite => WriteMode.Overwrite
                                   end) false ∅) (output_options o) in
  if output_allow_external o then mkParams (params_mode params) true (rest params) else params.

Context {CD : ColumnDefinitionCodec} {BC : BindingChecks}.
Context {X : Extensions} {K : Kernels V} {C : Columns V} {R : Repartition (V := V)}.
(** Up to the repartitioning: the dataset and the parameters to write with, the
    number of partitions and the stream of the plan.  [defined] and [got] answer
    the two reads of the dataset. *)
Definition native_plan (name : string) (now cpus : Z) (state : Dataset.DatasetState)
    (defined : result ArrowSchema) (got : result Dataset.Dataset) (add : AddDataBuilder V)
    : result (Dataset.Dataset * WriteParams * Z * list (result (RecordBatch V))) :=
  table_schema ← defined;
  table_def ← try_from_rich_schema table_schema;
  _ ← Dataset.ensure_mutable state;
  ds ← got;
  let table_schema := dataset_schema ds in
  _ ← ensure_not_a_view name (schema_metadata table_schema) "add to";
  _ ← ComputedColumns.ensure_supported_function_metadata table_schema;
  _ ← ComputedColumns.ensure_not_written table_schema (names (schema_of (data add)));
  _ ← (match mode_of add with
       | AddDataMode.Overwrite => ComputedColumns.ensure_no_foreign_declarations (fields (schema_of (data add)))
       | AddDataMode.Append => Ok tt
       end);
  '(num_partitions, add) ← native_partitions cpus add;
  output ← into_plan now table_schema table_def add;
  '(items, output) ← run_plan output;
  Ok (ds, lance_params output, num_partitions, items).
(** "Repartition for write parallelism if beneficial" *)
Definition native_inputs (num_partitions : Z) (items : list (result (RecordBatch V)))
    : list (list (result (RecordBatch V))) :=
  if (1 <? num_partitions)%Z then deal (Z.to_nat num_partitions) items else [items].
(** Once every task has ended: their results in the order they are awaited, and
    the version read afterwards *)
Definition native_result (handles : list (result Z)) (latest : result Dataset.Dataset) : result Z :=
  _ ← await_all handles;
  d ← latest;
  Ok (Dataset.version d).
End insert.
Arguments Task F : clear implicits.
Arguments Insertion F : clear implicits.

(** * What the dependencies promise

    A write that succeeds read a whole stream without errors, appends or
    overwrites, and its fragments hold the rows of the stream in order. *)
Definition Row (V : Type) : Type := list (string * Value V).
Definition rows_of {V} (b : RecordBatch V) : list (Row V) :=
  map (λ i, zip (names (batch_schema b)) (map (λ c, value c i) (columns b))) (seq 0 (num_rows_of b)).
Definition supported {F} (o : Operation F) : Prop := o ≠ OtherOp.
Class LanceLaws (V F : Type) (L : Lance V F) : Type := {
  fragment_data : F → list (Row V);
  write_spec ds params l t : execute_uncommitted_stream ds params l = Ok t →
    ∃ bs, l = map Ok bs ∧ supported (operation t) ∧
      concat (map fragment_data (operation_fragments (operation t))) = concat (map rows_of bs)
}.
Class RepartitionLaws (V : Type) (R : Repartition (V := V)) : Prop := {
  deal_length n l : length (deal n l) = n;
  deal_batches n bs : (0 < n)%nat → concat (deal n (map Ok bs)) ≡ₚ map Ok bs;
  deal_errors n l : (0 < n)%nat → Exists (λ i, is_ok i = false) l → Exists (Exists (λ i, is_ok i = false)) (deal n l)
}.

(** * Lemmas *)
Section merging.
Context {F : Type}.
Lemma extend_all_spec (ts : list (Transaction F)) : ∀ first, supported (operation first) →
  ∃ t, extend_all first ts = Ok t ∧ supported (operation t) ∧
    operation_fragments (operation t) =
      (operation_fragments (operation first) ++ concat (map (λ t, operation_fragments (operation t)) ts))%list.
Proof.
  induction ts as [|t ts IH]; intros first Hs.
  - exists first. cbn. by rewrite app_nil_r.
  - destruct first as [v [fs|fs sch|]]; [..|done]; cbn.
    + destruct (IH (mkTransaction v (AppendOp (fs ++ operation_fragments (operation t))%list))) as (t' & -> & Hs' & Hf);
        [done|]. exists t'. split; [done|]. split; [done|]. rewrite Hf. cbn. by rewrite <- app_assoc.
    + destruct (IH (mkTransaction v (OverwriteOp (fs ++ operation_fragments (operation t))%list sch))) as (t' & -> & Hs' & Hf);
        [done|]. exists t'. split; [done|]. split; [done|]. rewrite Hf. cbn. by rewrite <- app_assoc.
Qed.
Lemma merge_spec (ts : list (Transaction F)) : ts ≠ [] → Forall (λ t, supported (operation t)) ts →
  ∃ t, merge_transactions ts = Ok (Some t) ∧ supported (operation t) ∧
    operation_fragments (operation t) ≡ₚ concat (map (λ t, operation_fragments (operation t)) ts).
Proof.
  intros Hne Hall. unfold merge_transactions. destruct (rev ts) as [|first before] eqn:Hr.
  { destruct ts as [|x ts]; [done|]. apply (f_equal (@length _)) in Hr. rewrite length_rev in Hr. done. }
  assert (Hts : ts = (rev before ++ [first])%list) by (rewrite <- (rev_involutive ts), Hr; done).
  subst ts. apply Forall_app in Hall as [_ Hf]. apply Forall_cons in Hf as [Hf _].
  destruct (extend_all_spec (rev before) first Hf) as (t & -> & Hs & Hfr). exists t. split; [done|]. split; [done|].
  rewrite Hfr, map_app, concat_app. cbn. rewrite app_nil_r. apply Permutation_app_comm.
Qed.
End merging.

Lemma concat_insert {A} (ls : list (list A)) i x : ls !! i = Some [] → concat (<[i := [x]]> ls) ≡ₚ x :: concat ls.
Proof.
  revert i. induction ls as [|l ls IH]; intros [|i]; cbn; [done..| |].
  - by intros [= ->].
  - intros H. rewrite (IH i H). by rewrite Permutation_middle.
Qed.

Section insertion.
Context {V F : Type} {L : Lance V F} {LL : LanceLaws V F L} {P : Planner} {prof : Profile}.
Context (ds : Dataset.Dataset) (params : WriteParams) (inputs : list (list (result (RecordBatch V)))).

Abbreviation writes := (map (write_partition ds params) inputs).
Definition pushed_task (t : Task F) : bool := match t with Commits _ _ | Done _ => true | _ => false end.
Definition is_commits (t : Task F) : bool := match t with Commits _ _ => true | _ => false end.
Definition contribution (t : Task F) (w : result (Transaction F * Z)) : list (Transaction F) :=
  match w with Ok (x, _) => if pushed_task t then [x] else [] | _ => [] end.
Definition pushed (ts : list (Task F)) : list (Transaction F) := concat (zip_with contribution ts writes).
#[local] Arguments pushed : simpl never.
Definition task_ok (t : Task F) (w : result (Transaction F * Z)) : Prop :=
  match t with
  | Wrote x rows => w = Ok (x, rows)
  | Commits rows _ | Done (Ok rows) => ∃ x, w = Ok (x, rows)
  | _ => True
  end.
Definition early (ts : list (Task F)) : Prop :=
  Forall2 (λ t w, ∀ r, t = Done r → is_ok w = true → is_ok r = true) ts writes.
Definition all_pushed (ts : list (Task F)) : Prop := Forall2 (λ t w, pushed_task t = true ∧ is_ok w = true) ts writes.

Record gathering (s : Insertion F) : Prop := {
  partial_pushed : partial_transactions s ≡ₚ pushed (tasks s);
  partial_short : (length (partial_transactions s) < length inputs)%nat;
  none_tried : attempts s = [];
  none_commits : Forall (λ t, is_commits t = false) (tasks s);
  failed_early : early (tasks s)
}.
Record gathered (s : Insertion F) : Prop := {
  all_in : all_pushed (tasks s);
  one_try : (∃ taken i rows, taken ≡ₚ pushed (tasks s) ∧ attempts s = [] ∧
      tasks s !! i = Some (Commits rows taken) ∧ ∀ j t, tasks s !! j = Some t → j = i ∨ ∃ rows, t = Done (Ok rows)) ∨
    ∃ taken t r, taken ≡ₚ pushed (tasks s) ∧ merge_transactions taken = Ok (Some t) ∧ attempts s = [(t, r)] ∧
      if is_ok r then Forall (λ t, ∃ rows, t = Done (Ok rows)) (tasks s)
      else Forall (λ t, is_commits t = false) (tasks s) ∧ Exists (λ t, ∃ r, t = Done r ∧ is_ok r = false) (tasks s)
}.
Definition invariant (s : Insertion F) : Prop :=
  Forall2 task_ok (tasks s) writes ∧ (gathering s ∨ gathered s).

Lemma write_supported input t rows : write_partition ds params input = Ok (t, rows) → supported (operation t).
Proof.
  unfold write_partition. intros (t' & Ht & H)%bind_Ok. apply bind_Ok in H as (n & _ & [= <- _]).
  apply write_spec in Ht as (bs & _ & Hs & _). exact Hs.
Qed.
Lemma inputs_written ts i t : Forall2 task_ok ts writes → ts !! i = Some t →
  ∃ input, inputs !! i = Some input ∧ task_ok t (write_partition ds params input).
Proof.
  intros Hall Hi. destruct (Forall2_lookup_l _ _ _ _ _ Hall Hi) as (w & Hw & Hok).
  rewrite list_lookup_fmap in Hw. apply fmap_Some in Hw as (input & Hin & ->). eauto.
Qed.
Lemma task_ok_set ts i t input : Forall2 task_ok ts writes → inputs !! i = Some input →
  task_ok t (write_partition ds params input) → Forall2 task_ok (<[i := t]> ts) writes.
Proof.
  intros Hall Hin Hok. rewrite <- (list_insert_id writes i (write_partition ds params input)).
  - by apply Forall2_insert.
  - rewrite list_lookup_fmap, Hin. done.
Qed.
Lemma pushed_set ts i t input : inputs !! i = Some input →
  pushed (<[i := t]> ts) = concat (<[i := contribution t (write_partition ds params input)]> (zip_with contribution ts writes)).
Proof.
  intros Hin. unfold pushed. rewrite insert_zip_with. do 2 f_equal.
  symmetry. apply list_insert_id. rewrite list_lookup_fmap, Hin. done.
Qed.
Lemma contribution_at ts i t input : ts !! i = Some t → inputs !! i = Some input →
  zip_with contribution ts writes !! i = Some (contribution t (write_partition ds params input)).
Proof.
  intros Ht Hin. apply lookup_zip_with_Some. eexists t, _. rewrite list_lookup_fmap, Hin. done.
Qed.
(** A task that changes without being counted, and one that is counted *)
Lemma pushed_same ts i t t' input : ts !! i = Some t → inputs !! i = Some input →
  contribution t (write_partition ds params input) = contribution t' (write_partition ds params input) →
  pushed (<[i := t']> ts) = pushed ts.
Proof.
  intros Ht Hin Heq. rewrite (pushed_set _ _ _ _ Hin). unfold pushed. f_equal.
  apply list_insert_id. rewrite (contribution_at _ _ _ _ Ht Hin). by rewrite Heq.
Qed.
Lemma pushed_more ts i t t' x rows input : ts !! i = Some t → inputs !! i = Some input → pushed_task t = false →
  pushed_task t' = true → write_partition ds params input = Ok (x, rows) → pushed (<[i := t']> ts) ≡ₚ x :: pushed ts.
Proof.
  intros Ht Hin Hno Hyes Hw. rewrite (pushed_set _ _ _ _ Hin). unfold contribution at 1. rewrite Hw, Hyes.
  apply concat_insert. rewrite (contribution_at _ _ _ _ Ht Hin). unfold contribution. by rewrite Hw, Hno.
Qed.

Lemma pushed_at_most ts ws : (length (concat (zip_with contribution ts ws)) ≤ length ws)%nat.
Proof.
  revert ts. induction ws as [|w ws IH]; intros [|t ts]; cbn; [lia..|]. rewrite length_app. specialize (IH ts).
  assert (length (contribution t w) ≤ 1)%nat by (unfold contribution; destruct w as [[]| |]; [destruct (pushed_task t)|..]; cbn; lia).
  lia.
Qed.
Lemma pushed_full ts ws : length ts = length ws → length (concat (zip_with contribution ts ws)) = length ws ↔
  Forall2 (λ t w, pushed_task t = true ∧ is_ok w = true) ts ws.
Proof.
  revert ts. induction ws as [|w ws IH]; intros [|t ts] Hlen; try done; cbn in *.
  rewrite length_app, Forall2_cons, <- (IH ts) by lia. pose proof (pushed_at_most ts ws).
  unfold contribution at 1. destruct w as [[x n]| |]; [destruct (pushed_task t)|..]; cbn; split; (lia || naive_solver lia).
Qed.

Lemma invariant_start w : inputs ≠ [] → invariant (start (length inputs) w).
Proof.
  intros Hne. split.
  - unfold start. cbn. apply Forall2_same_length_lookup_2; [by rewrite length_replicate, length_map|].
    intros i t r [-> _]%lookup_replicate _. done.
  - left. split; cbn; [|destruct inputs; cbn; [done|lia]|done|by apply Forall_replicate|].
    2: { apply Forall2_same_length_lookup_2; [by rewrite length_replicate, length_map|].
         by intros i t r [-> _]%lookup_replicate _. }
    unfold pushed. clear Hne. induction inputs as [|input l IH]; [done|]. cbn. rewrite <- IH.
    unfold contribution. by destruct (write_partition ds params input) as [[]| |].
Qed.

Lemma pushed_supported ts : Forall (λ t, supported (operation t)) (pushed ts).
Proof.
  unfold pushed. apply Forall_concat, Forall_forall. intros l Hl.
  apply list_elem_of_lookup in Hl as [i (t & w & -> & _ & Hw)%lookup_zip_with_Some].
  rewrite list_lookup_fmap in Hw. apply fmap_Some in Hw as (input & _ & ->).
  unfold contribution. destruct (write_partition ds params input) as [[x n]| |] eqn:Hx; [|done..].
  destruct (pushed_task t); [|done]. repeat constructor. by eapply write_supported.
Qed.
Lemma all_pushed_at ts i t input : all_pushed ts → ts !! i = Some t → inputs !! i = Some input →
  pushed_task t = true ∧ is_ok (write_partition ds params input) = true.
Proof.
  intros Hall Ht Hin. apply (Forall2_lookup_lr _ _ _ _ _ _ Hall Ht). by rewrite list_lookup_fmap, Hin.
Qed.
Lemma all_pushed_length ts : length ts = length inputs → all_pushed ts ↔ length (pushed ts) = length inputs.
Proof.
  intros Hlen. unfold all_pushed, pushed. rewrite <- (length_map (write_partition ds params) inputs).
  symmetry. apply pushed_full. by rewrite length_map.
Qed.
Lemma all_pushed_set ts i t t' input : all_pushed ts → ts !! i = Some t → inputs !! i = Some input →
  pushed_task t' = true → all_pushed (<[i := t']> ts).
Proof.
  intros Hall Ht Hin Hp. unfold all_pushed.
  rewrite <- (list_insert_id writes i (write_partition ds params input)) by (by rewrite list_lookup_fmap, Hin).
  apply Forall2_insert; [done|]. split; [done|]. by eapply all_pushed_at.
Qed.
Lemma tasks_length ts : Forall2 task_ok ts writes → length ts = length inputs.
Proof. intros H%Forall2_length. by rewrite length_map in H. Qed.

Lemma early_set ts i t input : early ts → inputs !! i = Some input →
  (∀ r, t = Done r → is_ok (write_partition ds params input) = true → is_ok r = true) → early (<[i := t]> ts).
Proof.
  intros Hall Hin Ht. unfold early.
  rewrite <- (list_insert_id writes i (write_partition ds params input)) by (by rewrite list_lookup_fmap, Hin).
  by apply Forall2_insert.
Qed.
Lemma write_preserves s i input : invariant s → tasks s !! i = Some Writing → inputs !! i = Some input →
  invariant (set_task i (written (write_partition ds params input)) s).
Proof.
  intros [Hok Hs] Ht Hin. split.
  - apply (task_ok_set _ _ _ _ Hok Hin). by destruct (write_partition ds params input) as [[]| |].
  - left. destruct Hs as [[Hp Hl Ha Hn He]|[Hall _]].
    2: { by destruct (all_pushed_at _ _ _ _ Hall Ht Hin) as [? _]. }
    split; cbn [set_task tasks partial_transactions attempts]; [|done..| |].
    + rewrite (pushed_same _ _ _ _ _ Ht Hin); [done|]. unfold contribution.
      by destruct (write_partition ds params input) as [[]| |].
    + apply Forall_insert; [done|]. by destruct (write_partition ds params input) as [[]| |].
    + apply (early_set _ _ _ _ He Hin). intros r. by destruct (write_partition ds params input) as [[]| |].
Qed.
Lemma push_preserves s i t rows : invariant s → tasks s !! i = Some (Wrote t rows) →
  invariant (push (length inputs) i t rows s).
Proof.
  intros [Hok Hs] Ht. destruct (inputs_written _ _ _ Hok Ht) as (input & Hin & Hw). cbn in Hw.
  destruct Hs as [[Hp Hl Ha Hn He]|[Hall _]].
  2: { by destruct (all_pushed_at _ _ _ _ Hall Ht Hin) as [? _]. }
  pose proof (tasks_length _ Hok) as Hlen. unfold push.
  set (mk t' := <[i := t']> (tasks s)).
  assert (Hmk : ∀ t', pushed_task t' = true → (partial_transactions s ++ [t])%list ≡ₚ pushed (mk t')).
  { intros t' Ht'. unfold mk. rewrite (pushed_more _ _ _ _ _ _ _ Ht Hin eq_refl Ht' Hw), <- Hp.
    symmetry. apply Permutation_cons_append. }
  assert (Hokmk : ∀ t', task_ok t' (write_partition ds params input) → Forall2 task_ok (mk t') writes)
    by (intros t'; apply (task_ok_set _ _ _ _ Hok Hin)).
  destruct (Nat.eqb_spec (length (partial_transactions s ++ [t])) (length inputs)) as [Heq|Hne].
  - split; [apply Hokmk; cbn; eauto|]. right. specialize (Hmk (Commits rows (partial_transactions s ++ [t])) eq_refl).
    assert (Hfull : all_pushed (mk (Commits rows (partial_transactions s ++ [t])))).
    { apply all_pushed_length; [by subst mk; cbn; rewrite length_insert|]. apply Permutation_length in Hmk. congruence. }
    split; cbn; [exact Hfull|]. left. eexists _, i, rows. split; [exact Hmk|]. split; [done|].
    split; [apply list_lookup_insert_eq; apply lookup_lt_Some in Ht; done|].
    intros j tj Hj. destruct (decide (j = i)) as [|Hji]; [by left|right].
    destruct (inputs_written _ j tj (Hokmk (Commits rows (partial_transactions s ++ [t])) (ex_intro _ _ Hw)) Hj) as (inj & Hinj & Hokj).
    destruct (all_pushed_at _ _ _ _ Hfull Hj Hinj) as [Hpj Hwj].
    rewrite list_lookup_insert_ne in Hj by done. rewrite Forall_lookup in Hn. specialize (Hn _ _ Hj).
    destruct tj as [| | |[n|e|]]; try done; [eauto|..];
      (destruct (Forall2_lookup_l _ _ _ _ _ He Hj) as (w & Hwl & Hr); rewrite list_lookup_fmap, Hinj in Hwl;
       injection Hwl as <-; by specialize (Hr _ eq_refl Hwj)).
  - split; [apply Hokmk; cbn; eauto|]. left. specialize (Hmk (Done (Ok rows)) eq_refl). split; cbn; [done| |done| |].
    + pose proof (pushed_at_most (mk (Done (Ok rows))) writes) as Hm. rewrite length_map in Hm.
      apply Permutation_length in Hmk. unfold pushed in Hmk. lia.
    + by apply Forall_insert.
    + apply (early_set _ _ _ _ He Hin). by intros r [= <-].
Qed.
Lemma commit_preserves s i rows taken answer : invariant s → tasks s !! i = Some (Commits rows taken) →
  invariant (commit i rows taken answer s).
Proof.
  intros [Hok Hs] Ht. destruct (inputs_written _ _ _ Hok Ht) as (input & Hin & Hw). cbn in Hw.
  destruct Hs as [[_ _ _ Hn _]|[Hall Htry]].
  { rewrite Forall_lookup in Hn. by specialize (Hn _ _ Ht). }
  destruct Htry as [(taken' & i' & rows' & Hp & Ha & Hi' & Huniq)|(taken' & m & r & _ & _ & _ & Hr)].
  2: { destruct (is_ok r); [|destruct Hr as [Hr _]]; rewrite Forall_lookup in Hr; specialize (Hr _ _ Ht); naive_solver. }
  assert (i = i') as <- by (destruct (Huniq _ _ Ht) as [|[? ?]]; done). rewrite Ht in Hi'. injection Hi' as <- <-.
  destruct (merge_spec taken) as (m & Hm & _ & _).
  { intros ->. pose proof (tasks_length _ Hok) as Hlen. apply (all_pushed_length _ Hlen) in Hall.
    apply Permutation_length in Hp. apply lookup_lt_Some in Hin. rewrite <- Hp in Hall. cbn in Hall. lia. }
  { rewrite Hp. apply pushed_supported. }
  assert (Hsame : ∀ t', pushed_task t' = true → pushed (<[i := t']> (tasks s)) = pushed (tasks s)).
  { intros t' Ht'. apply (pushed_same _ _ _ _ _ Ht Hin). unfold contribution. by rewrite Ht'. }
  assert (Hothers : ∀ r, Forall (λ t, t = Done r ∨ ∃ rows, t = Done (Ok rows)) (<[i := Done r]> (tasks s))).
  { intros r. apply Forall_lookup. intros j tj Hj. destruct (decide (j = i)) as [->|Hji].
    - rewrite list_lookup_insert_eq in Hj by (by apply lookup_lt_Some in Ht). injection Hj as <-. by left.
    - rewrite list_lookup_insert_ne in Hj by done. by destruct (Huniq _ _ Hj) as [|[n ->]]; [|right; eauto]. }
  assert (Hexists : ∀ r, is_ok r = false → Exists (λ t : Task F, ∃ r, t = Done r ∧ is_ok r = false) (<[i := Done r]> (tasks s))).
  { intros r Hr. apply Exists_exists. exists (Done r). split; [|eauto].
    apply (list_elem_of_lookup_2 _ i). apply list_lookup_insert_eq. by apply lookup_lt_Some in Ht. }
  unfold commit. rewrite Hm.
  destruct answer as [d|e|]; (split;
    [apply (task_ok_set _ _ _ _ Hok Hin); cbn; eauto
    |right; split; cbn; [by eapply all_pushed_set|]; right; eexists taken, m, _;
     rewrite Ha, Hsame by done; split_and!; [exact Hp|exact Hm|done|cbn [is_ok]]]);
    try (split; [|by apply Hexists]); (eapply Forall_impl; [apply Hothers|]); naive_solver.
Qed.
Lemma step_preserves s s' : step ds params inputs s s' → invariant s → invariant s'.
Proof.
  intros [s0 i input Ht Hin|s0 i t rows Ht|s0 i rows taken answer Ht|s0 w] Hinv.
  - by apply write_preserves.
  - by apply push_preserves.
  - by apply commit_preserves.
  - destruct Hinv as [Hok [[]|[]]]; (split; [done|]); [left|right]; by split.
Qed.
Lemma reachable_invariant w (s : Insertion F) : inputs ≠ [] → rtc (step ds params inputs) (start (length inputs) w) s → invariant s.
Proof.
  intros Hne Hr. pose proof (invariant_start w Hne) as Hi. revert Hi.
  generalize (start (F := F) (length inputs) w) s Hr. clear Hne Hr s w. intros s0 s. induction 1 as [s|s1 s2 s3 Hs _ IH]; [done|].
  intros Hi. apply IH. by eapply step_preserves.
Qed.
End insertion.

(** ** Rows *)
Lemma concat_map_Permutation {A B} (f : A → list B) (l k : list A) : l ≡ₚ k → concat (map f l) ≡ₚ concat (map f k).
Proof. intros H. rewrite <- !flat_map_concat_map. by apply Permutation_flat_map. Qed.
Definition oks {A} (l : list (result A)) : list A := concat (map (λ r, match r with Ok a => [a] | _ => [] end) l).
Lemma oks_map {A} (l : list A) : oks (map Ok l) = l.
Proof. unfold oks. induction l as [|a l IH]; [done|]. cbn. by rewrite IH. Qed.
Lemma all_ok_map {A} (l : list (result A)) : Forall (λ r, is_ok r = true) l → l = map Ok (oks l).
Proof. induction 1 as [|[a|e|] l H _ IH]; [done| |done..]. cbn. by rewrite IH at 1. Qed.

Section rows.
Context {V F : Type} {L : Lance V F} {LL : LanceLaws V F L} {P : Planner} {prof : Profile}.

Lemma inserted_Ok declared (i : result (RecordBatch V)) b : inserted_item declared i = Ok b → i = Ok b.
Proof. unfold inserted_item. intros (b' & -> & H)%bind_Ok. by apply bind_Ok in H as ([] & _ & [= ->]). Qed.
Lemma inserted_items declared (l : list (result (RecordBatch V))) bs : map (inserted_item declared) l = map Ok bs → l = map Ok bs.
Proof.
  revert bs. induction l as [|i l IH]; intros [|b bs]; try done. cbn. intros [= Hi%inserted_Ok Hl]. by rewrite Hi, (IH _ Hl).
Qed.
Definition transaction_data (t : Transaction F) : list (Row V) :=
  concat (map fragment_data (operation_fragments (operation t))).
Lemma written_rows ds params l t rows : write_partition ds params l = Ok (t, rows) →
  ∃ bs, l = map Ok bs ∧ transaction_data t = concat (map rows_of bs).
Proof.
  unfold write_partition. intros (t' & Ht & H)%bind_Ok. apply bind_Ok in H as (n & _ & [= <- _]).
  apply write_spec in Ht as (bs & Hbs%inserted_items & _ & Hd). eauto.
Qed.
Lemma written_partitions ds params inputs ts : all_pushed ds params inputs ts →
  ∃ txns bss, pushed ds params inputs ts = txns ∧ inputs = map (map Ok) bss ∧
    concat (map transaction_data txns) = concat (map rows_of (concat bss)).
Proof.
  unfold all_pushed, pushed. revert ts. induction inputs as [|l inputs IH]; intros ts Hall.
  - exists [], []. inversion Hall. done.
  - cbn in Hall. apply Forall2_cons_inv_r in Hall as (t & ts' & [Ht Hw] & Hall & ->).
    destruct (IH _ Hall) as (txns & bss & Htx & -> & Hdata).
    destruct (write_partition ds params l) as [[x n]| |] eqn:Hl; [|done..].
    destruct (written_rows _ _ _ _ _ Hl) as (bs & -> & Hx). exists (x :: txns), (bs :: bss).
    cbn. rewrite Hl. unfold contribution at 1. rewrite Ht, Htx. split; [done|]. split; [done|]. rewrite map_app, concat_app. by rewrite Hx, Hdata.
Qed.
Lemma merged_rows taken txns (t : Transaction F) : taken ≡ₚ txns → txns ≠ [] → Forall (λ t, supported (operation t)) txns →
  merge_transactions taken = Ok (Some t) → transaction_data t ≡ₚ concat (map transaction_data txns).
Proof.
  intros Hp Hne Hs Hm. destruct (merge_spec taken) as (t' & Hm' & _ & Hf).
  { intros ->. by apply Permutation_nil_l in Hp. }
  { by rewrite Hp. }
  rewrite Hm in Hm'. injection Hm' as <-. unfold transaction_data at 1.
  rewrite (concat_map_Permutation _ _ _ Hf), (concat_map_Permutation _ _ _ Hp).
  clear. induction txns as [|x l IH]; [done|]. cbn. rewrite map_app, concat_app. by rewrite IH.
Qed.

(** The state of a finished insertion, whatever the interleaving *)
Lemma insertion_outcome ds params inputs w (s : Insertion F) : inputs ≠ [] →
  rtc (step ds params inputs) (start (length inputs) w) s →
  (attempts s = [] ∨ ∃ t r bss, attempts s = [(t, r)] ∧ inputs = map (map Ok) bss ∧
     transaction_data t ≡ₚ concat (map rows_of (concat bss))) ∧
  ∀ results handles, tasks s = map Done results → handles ≡ₚ results →
    (await_all handles = Ok tt ↔ ∃ t d, attempts s = [(t, Ok d)]).
Proof.
  intros Hne Hr. destruct (reachable_invariant ds params inputs w s Hne Hr) as [Hok Hs].
  assert (Hawait : ∀ handles, await_all handles = Ok tt ↔ Forall (λ r, is_ok r = true) handles).
  { induction handles as [|[n|e|] l IH]; cbn; rewrite ?Forall_cons, ?IH; cbn; [|naive_solver..]. done. }
  assert (Hlen : length (tasks s) = length inputs) by (by eapply tasks_length).
  destruct Hs as [[Hp Hl Ha _ He]|[Hall Htry]].
  - split; [by left|]. intros results handles Ht Hh. rewrite Hawait, Hh, Ha.
    split; [|naive_solver]. intros Hoks. exfalso.
    assert (Hfull : all_pushed ds params inputs (tasks s)).
    { apply Forall2_same_length_lookup_2; [by rewrite length_map|]. intros i t w' Hi Hw'.
      pose proof (Forall2_lookup_lr _ _ _ _ _ _ Hok Hi Hw') as Hti.
      rewrite Ht, list_lookup_fmap in Hi. apply fmap_Some in Hi as (r & Hri & ->).
      rewrite Forall_lookup in Hoks. specialize (Hoks _ _ Hri). destruct r; [|done..].
      by destruct Hti as [x ->]. }
    apply all_pushed_length in Hfull; [|done]. apply Permutation_length in Hp. lia.
  - destruct Htry as [(taken & i & rows & Hp & Ha & Hi & _)|(taken & t & r & Hp & Hm & Ha & Hr')].
    + split; [by left|]. intros results handles Ht. rewrite Ht, list_lookup_fmap in Hi. by apply fmap_Some in Hi as (? & _ & ?).
    + destruct (written_partitions _ _ _ _ Hall) as (txns & bss & Htx & Hin & Hdata). split.
      * right. exists t, r, bss. split; [done|]. split; [done|]. rewrite <- Hdata, <- Htx.
        eapply merged_rows; [exact Hp| |apply pushed_supported|exact Hm].
        intros Hnil. apply (all_pushed_length ds params inputs) in Hall; [|done]. rewrite Hnil in Hall. by destruct inputs.
      * intros results handles Ht Hh. rewrite Hawait, Hh, Ha. destruct r as [d|e|]; cbn in Hr'.
        -- split; [eauto|]. intros _. rewrite Ht, Forall_map in Hr'. eapply Forall_impl; [exact Hr'|]. cbn. naive_solver.
        -- split; [|naive_solver]. intros Hoks. destruct Hr' as [_ Hex]. rewrite Ht in Hex.
           apply Exists_exists in Hex as (tk & Hin' & r & -> & Hr0). apply list_elem_of_fmap in Hin' as (r1 & [= ->] & Hr1).
           rewrite Forall_forall in Hoks. rewrite (Hoks _ Hr1) in Hr0. done.
        -- split; [|naive_solver]. intros Hoks. destruct Hr' as [_ Hex]. rewrite Ht in Hex.
           apply Exists_exists in Hex as (tk & Hin' & r & -> & Hr0). apply list_elem_of_fmap in Hin' as (r1 & [= ->] & Hr1).
           rewrite Forall_forall in Hoks. rewrite (Hoks _ Hr1) in Hr0. done.
Qed.
End rows.

Section native.
Context {V F : Type} {L : Lance V F} {LL : LanceLaws V F L} {P : Planner} {prof : Profile}.
Context {CD : ColumnDefinitionCodec} {BC : BindingChecks}.
Context {X : Extensions} {K : Kernels V} {C : Columns V} {R : Repartition (V := V)} {RL : RepartitionLaws V R}.

Lemma native_inputs_ne n (items : list (result (RecordBatch V))) : native_inputs n items ≠ [].
Proof.
  unfold native_inputs. destruct (Z.ltb_spec 1 n) as [Hn|Hn]; [|done].
  intros Hnil. apply (f_equal length) in Hnil. rewrite deal_length in Hnil. cbn in Hnil. lia.
Qed.
Lemma native_inputs_rows n (items : list (result (RecordBatch V))) bss : native_inputs n items = map (map Ok) bss →
  ∃ bs, items = map Ok bs ∧ concat bss ≡ₚ bs.
Proof.
  unfold native_inputs. destruct (Z.ltb_spec 1 n) as [Hn|Hn].
  2: { intros H. destruct bss as [|bs [|? ?]]; try done. injection H as ->. exists bs. cbn. by rewrite app_nil_r. }
  intros H. destruct (decide (Forall (λ i, is_ok i = true) items)) as [Hok|Hno].
  - apply all_ok_map in Hok. exists (oks items). split; [done|].
    assert (Hp : concat (deal (Z.to_nat n) items) ≡ₚ map Ok (oks items)) by (rewrite Hok at 1; apply deal_batches; lia).
    rewrite H, <- concat_map in Hp. apply (concat_map_Permutation (λ r : result (RecordBatch V), match r with Ok a => [a] | _ => [] end)) in Hp.
    pose proof (oks_map (concat bss)) as H1. pose proof (oks_map (oks items)) as H2. unfold oks in H1, H2 at 1.
    rewrite H1 in Hp. rewrite H2 in Hp. exact Hp.
  - exfalso. apply not_Forall_Exists in Hno; [|apply _].
    assert (Hex : Exists (λ i, is_ok i = false) items).
    { eapply Exists_impl; [exact Hno|]. intros i. cbn. by destruct (is_ok i). }
    apply (deal_errors (Z.to_nat n)) in Hex; [|lia]. rewrite H in Hex.
    apply Exists_exists in Hex as (l & Hl & Hex). apply list_elem_of_fmap in Hl as (bs & -> & _).
    apply Exists_exists in Hex as (i & Hi & Hex). apply list_elem_of_fmap in Hi as (b & -> & _). done.
Qed.

(** adding rows to a local table is all or nothing, in every interleaving of
    the partitions that write at the same time and of changes to the handle.
    Only an unpinned handle of a table that is no view gets to write.  At most
    one commit is tried; it holds every row of the planned stream exactly once,
    and only when no item of that stream was an error.  Once all tasks have
    ended, the call succeeds exactly when that commit did. *)
Theorem local_add_commits_once (name : string) (now cpus n : Z) (state w : Dataset.DatasetState)
    (defined : result ArrowSchema) (got : result Dataset.Dataset) (add : AddDataBuilder V)
    (ds : Dataset.Dataset) (params : WriteParams) (items : list (result (RecordBatch V))) (s : Insertion F) :
  native_plan name now cpus state defined got add = Ok (ds, params, n, items) →
  rtc (step ds params (native_inputs n items)) (start (length (native_inputs n items)) w) s →
  (Dataset.pinned_version state = None ∧ got = Ok ds ∧
   schema_metadata (dataset_schema ds) !! ViewPlan.DEFINITION_META_KEY = None) ∧
  (attempts s = [] ∨ ∃ t r bs, attempts s = [(t, r)] ∧ items = map Ok bs ∧
     concat (map fragment_data (operation_fragments (operation t))) ≡ₚ concat (map rows_of bs)) ∧
  ∀ results handles, tasks s = map Done results → handles ≡ₚ results →
    (await_all handles = Ok tt ↔ ∃ t d, attempts s = [(t, Ok d)]).
Proof.
  intros Hplan Hr. split.
  - unfold native_plan in Hplan. apply bind_Ok in Hplan as (sch & _ & H). apply bind_Ok in H as (d & _ & H).
    apply bind_Ok in H as ([] & Hm & H). apply bind_Ok in H as (ds' & Hgot & H).
    apply bind_Ok in H as ([] & Hv & H). do 3 apply bind_Ok in H as (? & _ & H).
    apply bind_Ok in H as ([k add'] & _ & H). apply bind_Ok in H as (o & _ & H). apply bind_Ok in H as ([l o'] & _ & [= <- _ _ _]).
    unfold Dataset.ensure_mutable in Hm. unfold ensure_not_a_view in Hv.
    destruct (Dataset.pinned_version state); [done|]. by destruct (schema_metadata _ !! _).
  - destruct (insertion_outcome _ _ _ _ _ (native_inputs_ne n items) Hr) as [Hatt Hdone]. split; [|done].
    destruct Hatt as [|(t & r & bss & Ha & Hin & Hdata)]; [by left|right].
    destruct (native_inputs_rows _ _ _ Hin) as (bs & Hbs & Hp). exists t, r, bs. split; [done|]. split; [done|].
    unfold transaction_data in Hdata. rewrite Hdata. by apply concat_map_Permutation.
Qed.
(** A mode of its own is ignored when the caller also passes write parameters. *)
Lemma mode_ignored (o : PreprocessingOutput V) p : output_options o = Some p → params_mode (lance_params o) = params_mode p.
Proof. intros H. unfold lance_params. rewrite H. by destruct (output_allow_external o). Qed.
End native.

(** Steps chosen one by one *)
Inductive Choice : Type :=
  | CWrite (i : nat)
  | CPush (i : nat)
  | CCommit (i : nat) (answer : result Dataset.Dataset).
Section choices.
Context {V F : Type} {L : Lance V F} {P : Planner} {prof : Profile}.
Definition choose ds params (inputs : list (list (result (RecordBatch V)))) (c : Choice) (s : Insertion F) : option (Insertion F) :=
  match c with
  | CWrite i =>
      match tasks s !! i, inputs !! i with
      | Some Writing, Some input => Some (set_task i (written (write_partition ds params input)) s)
      | _, _ => None
      end
  | CPush i => match tasks s !! i with Some (Wrote t rows) => Some (push (length inputs) i t rows s) | _ => None end
  | CCommit i answer =>
      match tasks s !! i with Some (Commits rows taken) => Some (commit i rows taken answer s) | _ => None end
  end.
Fixpoint choose_all ds params (inputs : list (list (result (RecordBatch V)))) (cs : list Choice) (s : Insertion F) : option (Insertion F) :=
  match cs with
  | [] => Some s
  | c :: cs => s ← choose ds params inputs c s; choose_all ds params inputs cs s
  end.
Lemma choose_all_steps ds params inputs cs : ∀ s s', choose_all ds params inputs cs s = Some s' →
  rtc (step ds params inputs) s s'.
Proof.
  induction cs as [|c cs IH]; intros s s'; cbn [choose_all]; [by intros [= ->]|].
  destruct (choose ds params inputs c s) as [s1|] eqn:Hc; [|done]. intros H%IH.
  eapply rtc_l; [|exact H]. destruct c as [i|i|i answer]; cbn in Hc.
  - destruct (tasks s !! i) as [[]|] eqn:Hi; try done. destruct (inputs !! i) eqn:Hin; [|done].
    injection Hc as <-. by eapply StepWrite.
  - destruct (tasks s !! i) as [[]|] eqn:Hi; try done. injection Hc as <-. by eapply StepPush.
  - destruct (tasks s !! i) as [[]|] eqn:Hi; try done. injection Hc as <-. by eapply StepCommit.
Qed.
End choices.

(** ** Two writers of three batches *)
Module Demo.
Import WriteCast.Demo Scannable.Demo.
Section turns.
Context {A : Type}.
Fixpoint turns (l : list A) (parts : list (list A)) : list (list A) :=
  match l, parts with
  | x :: l, p :: parts => turns l (parts ++ [p ++ [x]])%list
  | _, parts => parts
  end.
Lemma turns_length l : ∀ parts, length (turns l parts) = length parts.
Proof. induction l as [|x l IH]; intros [|p parts]; cbn; [done..|]. rewrite IH, length_app. cbn. lia. Qed.
Lemma turns_concat l : ∀ parts, parts ≠ [] → concat (turns l parts) ≡ₚ (concat parts ++ l)%list.
Proof.
  induction l as [|x l IH]; intros [|p parts] Hne; try done.
  - cbn. by rewrite app_nil_r.
  - cbn. rewrite IH by (by destruct parts). rewrite concat_app. cbn. rewrite app_nil_r.
    rewrite <- (app_assoc p). rewrite <- !app_assoc. rewrite (Permutation_app_swap_app (concat parts) p). done.
Qed.
End turns.
#[export] Instance round_robin : Repartition (V := nat) := { deal n l := turns l (replicate n []) }.
#[export] Instance round_robin_laws : RepartitionLaws nat round_robin.
Proof.
  assert (Hnil : ∀ A n, concat (replicate n (@nil A)) = []) by (intros A; induction n; done).
  split; intros n l.
  - cbn. by rewrite turns_length, length_replicate.
  - intros Hn. cbn. rewrite turns_concat, Hnil; [done|]. by destruct n; [lia|].
  - intros Hn Hex. cbn. apply Exists_exists in Hex as (i & Hi & Hex).
    assert (Hin : i ∈ concat (turns l (replicate n []))).
    { rewrite turns_concat, Hnil; [done|]. by destruct n; [lia|]. }
    apply list_elem_of_In, in_concat in Hin as (p & Hp%list_elem_of_In & Hip%list_elem_of_In).
    apply Exists_exists. exists p. split; [done|]. apply Exists_exists. eauto.
Qed.
#[export] Instance store : Lance nat (list (Row nat)) := {
  dataset_schema _ := mkSchema [plain "title" "Utf8"] ∅;
  fragment_rows f := Some (Z.of_nat (length f));
  execute_uncommitted_stream ds params l :=
    bs ← try_map (λ b, b) l; Ok (mkTransaction (Dataset.version ds) (AppendOp (map rows_of bs)))
}.
#[export] Instance store_laws : LanceLaws nat (list (Row nat)) store.
Proof.
  refine {| fragment_data := λ f, f |}. intros ds params l t. cbn. intros (bs & Hbs & [= <-])%bind_Ok.
  exists bs. split; [|split; [done|by cbn; rewrite map_id]].
  apply try_map_Ok in Hbs. induction Hbs as [|i b l bs Hi _ IH]; [done|]. cbn. by rewrite Hi, IH.
Qed.

Definition books : Dataset.Dataset := Dataset.mkDs None 4.
Definition handle : Dataset.DatasetState := Dataset.mkState books None false.
Definition request : AddDataBuilder nat :=
  write_parallelism 2 (new (Batches [titles [Some 1]%nat; titles [None]; titles [Some 2; Some 3]%nat]) None).
Definition choices : list Choice :=
  [CWrite 1; CWrite 0; CPush 0; CPush 1; CCommit 1 (Ok (Dataset.mkDs None 5))].
End Demo.

#[local] Existing Instances WriteCast.Demo.planner WriteCast.Demo.extensions WriteCast.Demo.kernels Scannable.Demo.columns_demo
  Demo.round_robin Demo.round_robin_laws Demo.store Demo.store_laws View.Demo.definitions_codec View.Demo.checks.
Section example.
#[local] Instance debug : Profile := true.
Abbreviation OneRow := (list (Row nat)).
Definition planned_request : result (Dataset.Dataset * WriteParams * Z * list (result (RecordBatch nat))) :=
  native_plan (F := OneRow) "books" 0 8 Demo.handle (Ok (mkSchema [WriteCast.Demo.plain "title" "Utf8"] ∅)) (Ok Demo.books)
    Demo.request.
Definition planned_items : list (result (RecordBatch nat)) :=
  value_or [] ('(_, _, _, items) ← planned_request; Ok items).
Definition appended : WriteParams := mkParams WriteMode.Append false ∅.
Definition after_choices : Insertion OneRow :=
  default (start 2 Demo.handle)
    (choose_all Demo.books appended (native_inputs 2 planned_items) Demo.choices (start 2 Demo.handle)).

Lemma local_add_commits_once_witness :
  length planned_items = 3%nat ∧
  attempts after_choices = [(mkTransaction 4 (AppendOp [[[("title", VCell 1%nat)]]; [[("title", VCell 2%nat)]; [("title", VCell 3%nat)]]; [[("title", VNull)]]]),
                             Ok (Dataset.mkDs None 5))] ∧
  (attempts after_choices = [] ∨ ∃ t r bs, attempts after_choices = [(t, r)] ∧ planned_items = map Ok bs ∧
     concat (map fragment_data (operation_fragments (operation t))) ≡ₚ concat (map rows_of bs)).
Proof.
  split; [vm_compute; reflexivity|]. split; [vm_compute; reflexivity|].
  refine (proj1 (proj2 (local_add_commits_once "books" 0 8 2 Demo.handle Demo.handle
    (Ok (mkSchema [WriteCast.Demo.plain "title" "Utf8"] ∅)) (Ok Demo.books) Demo.request Demo.books appended
    planned_items after_choices _ _))).
  - vm_compute. reflexivity.
  - apply (choose_all_steps _ _ _ Demo.choices). vm_compute. reflexivity.
Defined.
End example.
End AddData.
