(* ===== verification/Query.v ===== *)
(** * Queries and their builders (query.rs)

    What a query asks for and the builders that record it: filters that
    accumulate, the bounds on probes, query vectors; and take queries, which
    look rows up by their offset and restore the order and the repetitions of
    the offsets asked for.  Expressions print as in SqlText; Arrow's kernels,
    the full text query of Lance and the rerankers are parameters. *)

From Stdlib Require Import Ascii String SpecFloat.
From stdpp Require Import strings gmap.
From S2P Require Import Prelude RustStr RustText Floats Arrow ViewQuery SqlText.

Module Query.
Import SqlText (Expr, Unparser, PredicateTokenizer, canonicalize_sql_predicate, expr_to_sql_string, tokenize_predicate,
  predicate_token_to_string, canonical_predicate_token, backtick).
Import ViewQuery (Token, Word, OtherToken, dquote).
Local Open Scope string_scope.

(** ** Requests *)
Definition DEFAULT_TOP_K : Z := 10.

Inductive Select : Type :=
  | SelectAll
  | Columns (columns : list string)
  | Dynamic (columns : list (string * string))
  | ExprSelect (columns : list (string * Expr)).
Inductive QueryFilter : Type :=
  | Sql (filter : string)
  | Substrait (plan : list Z)
  | Datafusion (e : Expr).
Inductive NormalizeMethod : Type := Score | Rank.
Inductive DistanceType : Type := L2 | Cosine | Dot | Hamming.
Inductive ApproxMode : Type := Fast | Normal | Accurate.
#[export] Instance DistanceType_eq_dec : EqDecision DistanceType.
Proof. solve_decision. Defined.

(** A full text query of Lance, as far as the code looks into it: its text, its
    set of columns, and what else there is to it when it is not a plain match
    of the text (phrases, boosts, operators, a limit), as an opaque string *)
Record FullTextSearchQuery : Type := mkFts {
  fts_text : string; fts_columns : list string; fts_structure : option string
}.
(** Lance's ordering of the results by one column *)
Record ColumnOrdering : Type := mkOrdering { ordered_by : string; ascending : bool; nulls_first : bool }.

Record QueryRequest : Type := mkQuery {
  limit : option Z;
  offset : option Z;
  take_offsets : option (list Z);
  filter : option QueryFilter;
  filter_error : option string;
  full_text_search : option FullTextSearchQuery;
  select : Select;
  fast_search : bool;
  with_row_id : bool;
  prefilter : bool;
  reranker : option string;
  norm : option NormalizeMethod;
  disable_scoring_autoprojection : bool;
  order_by : option (list ColumnOrdering);
  use_memwal : option bool
}.
Definition default_query : QueryRequest :=
  mkQuery None None None None None None SelectAll false false true None None false None None.

Definition set_limit (v : option Z) (q : QueryRequest) : QueryRequest :=
  let 'mkQuery _ o t f e s c a r p k n d b m := q in mkQuery v o t f e s c a r p k n d b m.
Definition set_offset (v : option Z) (q : QueryRequest) : QueryRequest :=
  let 'mkQuery l _ t f e s c a r p k n d b m := q in mkQuery l v t f e s c a r p k n d b m.
Definition set_take_offsets (v : option (list Z)) (q : QueryRequest) : QueryRequest :=
  let 'mkQuery l o _ f e s c a r p k n d b m := q in mkQuery l o v f e s c a r p k n d b m.
Definition set_filter (v : option QueryFilter) (q : QueryRequest) : QueryRequest :=
  let 'mkQuery l o t _ e s c a r p k n d b m := q in mkQuery l o t v e s c a r p k n d b m.
Definition set_filter_error (v : option string) (q : QueryRequest) : QueryRequest :=
  let 'mkQuery l o t f _ s c a r p k n d b m := q in mkQuery l o t f v s c a r p k n d b m.
Definition set_full_text_search (v : option FullTextSearchQuery) (q : QueryRequest) : QueryRequest :=
  let 'mkQuery l o t f e _ c a r p k n d b m := q in mkQuery l o t f e v c a r p k n d b m.
Definition set_select (v : Select) (q : QueryRequest) : QueryRequest :=
  let 'mkQuery l o t f e s _ a r p k n d b m := q in mkQuery l o t f e s v a r p k n d b m.
Definition set_fast_search (v : bool) (q : QueryRequest) : QueryRequest :=
  let 'mkQuery l o t f e s c _ r p k n d b m := q in mkQuery l o t f e s c v r p k n d b m.
Definition set_with_row_id (v : bool) (q : QueryRequest) : QueryRequest :=
  let 'mkQuery l o t f e s c a _ p k n d b m := q in mkQuery l o t f e s c a v p k n d b m.
Definition set_prefilter (v : bool) (q : QueryRequest) : QueryRequest :=
  let 'mkQuery l o t f e s c a r _ k n d b m := q in mkQuery l o t f e s c a r v k n d b m.
Definition set_reranker (v : option string) (q : QueryRequest) : QueryRequest :=
  let 'mkQuery l o t f e s c a r p _ n d b m := q in mkQuery l o t f e s c a r p v n d b m.
Definition set_norm (v : option NormalizeMethod) (q : QueryRequest) : QueryRequest :=
  let 'mkQuery l o t f e s c a r p k _ d b m := q in mkQuery l o t f e s c a r p k v d b m.
Definition set_order_by (v : option (list ColumnOrdering)) (q : QueryRequest) : QueryRequest :=
  let 'mkQuery l o t f e s c a r p k n d _ m := q in mkQuery l o t f e s c a r p k n d v m.
Definition set_use_memwal (v : option bool) (q : QueryRequest) : QueryRequest :=
  let 'mkQuery l o t f e s c a r p k n d b _ := q in mkQuery l o t f e s c a r p k n d b v.

(** ** Query vectors: arrays of a type, with the values of their slots *)
Record VectorArray : Type := mkVector { vector_type : string; values : list spec_float }.
Definition is_finite (x : spec_float) : bool :=
  match x with S754_zero _ | S754_finite _ _ _ => true | S754_infinity _ | S754_nan => false end.

Record VectorQueryRequest : Type := mkVectorQuery {
  base : QueryRequest;
  column : option string;
  query_vector : list VectorArray;
  nprobes : option Z;
  minimum_nprobes : option Z;
  maximum_nprobes : option Z;
  search_effort : option spec_float;
  lower_bound : option spec_float;
  upper_bound : option spec_float;
  ef : option Z;
  refine_factor : option Z;
  distance_type : option DistanceType;
  approx_mode : option ApproxMode;
  use_index : bool
}.
Definition from_plain_query (q : QueryRequest) : VectorQueryRequest :=
  mkVectorQuery q None [] None None None None None None None None None None true.

Definition set_base (v : QueryRequest) (r : VectorQueryRequest) : VectorQueryRequest :=
  let 'mkVectorQuery _ c q n mi ma s lo up e f d a u := r in mkVectorQuery v c q n mi ma s lo up e f d a u.
Definition set_column (v : option string) (r : VectorQueryRequest) : VectorQueryRequest :=
  let 'mkVectorQuery b _ q n mi ma s lo up e f d a u := r in mkVectorQuery b v q n mi ma s lo up e f d a u.
Definition set_query_vector (v : list VectorArray) (r : VectorQueryRequest) : VectorQueryRequest :=
  let 'mkVectorQuery b c _ n mi ma s lo up e f d a u := r in mkVectorQuery b c v n mi ma s lo up e f d a u.
Definition set_nprobes (v : option Z) (r : VectorQueryRequest) : VectorQueryRequest :=
  let 'mkVectorQuery b c q _ mi ma s lo up e f d a u := r in mkVectorQuery b c q v mi ma s lo up e f d a u.
Definition set_minimum_nprobes (v : option Z) (r : VectorQueryRequest) : VectorQueryRequest :=
  let 'mkVectorQuery b c q n _ ma s lo up e f d a u := r in mkVectorQuery b c q n v ma s lo up e f d a u.
Definition set_maximum_nprobes (v : option Z) (r : VectorQueryRequest) : VectorQueryRequest :=
  let 'mkVectorQuery b c q n mi _ s lo up e f d a u := r in mkVectorQuery b c q n mi v s lo up e f d a u.
Definition set_search_effort (v : option spec_float) (r : VectorQueryRequest) : VectorQueryRequest :=
  let 'mkVectorQuery b c q n mi ma _ lo up e f d a u := r in mkVectorQuery b c q n mi ma v lo up e f d a u.
Definition set_distance_range (l u : option spec_float) (r : VectorQueryRequest) : VectorQueryRequest :=
  let 'mkVectorQuery b c q n mi ma s _ _ e f d a i := r in mkVectorQuery b c q n mi ma s l u e f d a i.
Definition set_ef (v : option Z) (r : VectorQueryRequest) : VectorQueryRequest :=
  let 'mkVectorQuery b c q n mi ma s lo up _ f d a u := r in mkVectorQuery b c q n mi ma s lo up v f d a u.
Definition set_refine_factor (v : option Z) (r : VectorQueryRequest) : VectorQueryRequest :=
  let 'mkVectorQuery b c q n mi ma s lo up e _ d a u := r in mkVectorQuery b c q n mi ma s lo up e v d a u.
Definition set_distance_type (v : option DistanceType) (r : VectorQueryRequest) : VectorQueryRequest :=
  let 'mkVectorQuery b c q n mi ma s lo up e f _ a u := r in mkVectorQuery b c q n mi ma s lo up e f v a u.
Definition set_approx_mode (v : option ApproxMode) (r : VectorQueryRequest) : VectorQueryRequest :=
  let 'mkVectorQuery b c q n mi ma s lo up e f d _ u := r in mkVectorQuery b c q n mi ma s lo up e f d v u.
Definition set_use_index (v : bool) (r : VectorQueryRequest) : VectorQueryRequest :=
  let 'mkVectorQuery b c q n mi ma s lo up e f d a _ := r in mkVectorQuery b c q n mi ma s lo up e f d a v.

(** DataFusion's conjunction of expressions, Arrow's cast of a float array and
    the text of an error *)
Class QueryDeps : Type := {
  expr_and : Expr → Expr → Expr;
  cast_array : VectorArray → string → outcome string VectorArray;
  in_list : string → list Z → Expr;
  error_to_string : Error → string
}.

Section builders.
Context {U : Unparser} {T : PredicateTokenizer} {D : QueryDeps}.

(** ** Filters *)
Definition and_sql (lhs rhs : string) : string := "(" +:+ lhs +:+ ") AND (" +:+ rhs +:+ ")".
Definition and_filters (existing new : QueryFilter) : result QueryFilter :=
  match existing, new with
  | Sql lhs, Sql rhs => Ok (Sql (and_sql lhs rhs))
  | Datafusion lhs, Datafusion rhs => Ok (Datafusion (expr_and lhs rhs))
  | Sql lhs, Datafusion rhs => rhs ← expr_to_sql_string rhs; Ok (Sql (and_sql lhs rhs))
  | Datafusion lhs, Sql rhs => lhs ← expr_to_sql_string lhs; Ok (Sql (and_sql lhs rhs))
  | _, _ => Err (InvalidInput "cannot combine a Substrait filter with another filter")
  end.
Definition canonical_filter (f : QueryFilter) : result QueryFilter :=
  match f with
  | Sql filter => filter ← canonicalize_sql_predicate filter; Ok (Sql filter)
  | other => Ok other
  end.
(** [Panic]: the unparser does *)
Definition add_filter (q : QueryRequest) (new : QueryFilter) : result QueryRequest :=
  match canonical_filter new with
  | Panic => Panic
  | Err err => Ok (set_filter_error (Some (error_to_string err)) q)
  | Ok new =>
      match filter q with
      | None => Ok (set_filter (Some new) q)
      | Some existing =>
          match and_filters existing new with
          | Ok combined => Ok (set_filter (Some combined) q)
          | Err err => Ok (set_filter_error (Some (error_to_string err)) (set_filter None q))
          | Panic => Panic
          end
      end
  end.
Definition check_filter (q : QueryRequest) : result unit :=
  match filter_error q with Some message => Err (InvalidInput message) | None => Ok tt end.

(** ** Vector queries *)
Definition validate_search_effort (r : VectorQueryRequest) : result unit :=
  match search_effort r with
  | Some effort =>
      if negb (is_finite effort) || negb (SFleb F64.zero effort && SFleb effort F64.one)
      then Err (InvalidInput "search_effort must be finite and in [0, 1], got {effort}") else Ok tt
  | None => Ok tt
  end.
Definition is_float_type (t : string) : bool := existsb (String.eqb t) ["Float16"; "Float32"; "Float64"].
(** [IntoQueryVector] for an array *)
Definition to_query_vector (v : VectorArray) (data_type : string) : result VectorArray :=
  if negb (String.eqb data_type (vector_type v)) then
    if is_float_type data_type then
      map_err (λ _, InvalidInput "failed to create query vector, the input data type was {:?} but the expected data type was {:?}.  Attempt to cast yielded: {}")
        (cast_array v data_type)
    else Err (InvalidInput "failed to create query vector, the input data type was {:?} but the expected data type was {:?}")
  else Ok v.
Definition add_query_vector (r : VectorQueryRequest) (v : VectorArray) : result VectorQueryRequest :=
  vector ← to_query_vector v "Float32";
  if negb (String.eqb (vector_type vector) "Float32")
  then Err (InvalidInput "VectorQuery vector must be of type Float32")
  else if existsb (λ x, negb (is_finite x)) (values vector)
  then Err (InvalidInput "query vector must contain only finite values")
  else Ok (set_query_vector (query_vector r ++ [vector])%list r).
Definition nearest_to (q : QueryRequest) (v : VectorArray) : result VectorQueryRequest :=
  r ← add_query_vector (from_plain_query q) v;
  Ok (match limit (base r) with
      | None => set_base (set_limit (Some DEFAULT_TOP_K) (base r)) r
      | Some _ => r
      end).
Definition nprobes_builder (r : VectorQueryRequest) (n : Z) : result VectorQueryRequest :=
  if (n =? 0)%Z then Err (InvalidInput "nprobes must be greater than 0") else Ok (set_nprobes (Some n) r).
Definition search_effort_builder (r : VectorQueryRequest) (effort : option spec_float) : result VectorQueryRequest :=
  let r := set_search_effort effort r in _ ← validate_search_effort r; Ok r.
Definition minimum_nprobes_builder (r : VectorQueryRequest) (n : Z) : result VectorQueryRequest :=
  if (n =? 0)%Z then Err (InvalidInput "minimum_nprobes must be greater than 0")
  else if (match maximum_nprobes r with Some m => negb (m =? 0)%Z && (m <? n)%Z | None => false end)
  then Err (InvalidInput "minimum_nprobes must be less than or equal to maximum_nprobes")
  else Ok (set_minimum_nprobes (Some n) r).
Definition maximum_nprobes_builder (r : VectorQueryRequest) (n : option Z) : result VectorQueryRequest :=
  _ ← (match n with
       | Some n =>
           if (n =? 0)%Z then Err (InvalidInput "maximum_nprobes must be greater than 0")
           else if (match minimum_nprobes r with Some m => (n <? m)%Z | None => false end)
           then Err (InvalidInput "maximum_nprobes must be greater than or equal to minimum_nprobes")
           else Ok tt
       | None => Ok tt
       end);
  Ok (set_maximum_nprobes (Some (default 0%Z n)) r).

(** ** The calls a builder takes *)
Inductive BaseCall : Type :=
  | CallLimit (n : Z) | CallOffset (n : Z) | OnlyIf (f : string) | OnlyIfExpr (e : Expr)
  | FullTextSearch (f : FullTextSearchQuery) | CallSelect (s : Select) | FastSearch | Postfilter | WithRowId
  | Rerank (r : string) | Norm (m : NormalizeMethod) | OrderBy (o : option (list ColumnOrdering)) | UseMemwal (b : bool).
Definition base_call (q : QueryRequest) (c : BaseCall) : result QueryRequest :=
  match c with
  | CallLimit n => Ok (set_limit (Some n) q)
  | CallOffset n => Ok (set_offset (Some n) q)
  | OnlyIf f => add_filter q (Sql f)
  | OnlyIfExpr e => add_filter q (Datafusion e)
  | FullTextSearch f =>
      let q := match limit q with None => set_limit (Some DEFAULT_TOP_K) q | Some _ => q end in
      Ok (set_full_text_search (Some f) q)
  | CallSelect s => Ok (set_select s q)
  | FastSearch => Ok (set_fast_search true q)
  | Postfilter => Ok (set_prefilter false q)
  | WithRowId => Ok (set_with_row_id true q)
  | Rerank r => Ok (set_reranker (Some r) q)
  | Norm m => Ok (set_norm (Some m) q)
  | OrderBy o => Ok (set_order_by o q)
  | UseMemwal b => Ok (set_use_memwal (Some b) q)
  end.
Inductive VectorCall : Type :=
  | Base (c : BaseCall) | CallColumn (name : string) | AddQueryVector (v : VectorArray) | Nprobes (n : Z)
  | SearchEffort (e : option spec_float) | MinimumNprobes (n : Z) | MaximumNprobes (n : option Z)
  | DistanceRange (l u : option spec_float) | Ef (n : Z) | RefineFactor (n : Z) | CallDistanceType (d : DistanceType)
  | CallApproxMode (a : ApproxMode) | BypassVectorIndex.
Definition vector_call (r : VectorQueryRequest) (c : VectorCall) : result VectorQueryRequest :=
  match c with
  | Base c => q ← base_call (base r) c; Ok (set_base q r)
  | CallColumn name => Ok (set_column (Some name) r)
  | AddQueryVector v => add_query_vector r v
  | Nprobes n => nprobes_builder r n
  | SearchEffort e => search_effort_builder r e
  | MinimumNprobes n => minimum_nprobes_builder r n
  | MaximumNprobes n => maximum_nprobes_builder r n
  | DistanceRange l u => Ok (set_distance_range l u r)
  | Ef n => Ok (set_ef (Some n) r)
  | RefineFactor n => Ok (set_refine_factor (Some n) r)
  | CallDistanceType d => Ok (set_distance_type (Some d) r)
  | CallApproxMode a => Ok (set_approx_mode (Some a) r)
  | BypassVectorIndex => Ok (set_use_index false r)
  end.
Definition base_calls (q : QueryRequest) (cs : list BaseCall) : result QueryRequest :=
  foldl (λ q c, q ← q; base_call q c) (Ok q) cs.
Definition vector_calls (r : VectorQueryRequest) (cs : list VectorCall) : result VectorQueryRequest :=
  foldl (λ r c, r ← r; vector_call r c) (Ok r) cs.

(** ** What a backend is handed *)
Inductive AnyQuery : Type := PlainQuery (q : QueryRequest) | VectorQuery (r : VectorQueryRequest).
Definition any_base (q : AnyQuery) : QueryRequest := match q with PlainQuery q => q | VectorQuery r => base r end.
Definition with_base (q : AnyQuery) (b : QueryRequest) : AnyQuery :=
  match q with PlainQuery _ => PlainQuery b | VectorQuery r => VectorQuery (set_base b r) end.
Definition canonicalized_base (q : QueryRequest) : result QueryRequest :=
  match filter q with
  | Some (Sql predicate) => p ← canonicalize_sql_predicate predicate; Ok (set_filter (Some (Sql p)) q)
  | _ => Ok q
  end.
Definition canonicalized (q : AnyQuery) : result AnyQuery :=
  b ← canonicalized_base (any_base q); Ok (with_base q b).
End builders.

(** * What the builders keep true *)

(** ** Valid vector requests *)
Record request_ok (r : VectorQueryRequest) : Prop := {
  nprobes_positive : nprobes r ≠ Some 0%Z;
  minimum_positive : minimum_nprobes r ≠ Some 0%Z;
  probes_ordered a b : minimum_nprobes r = Some a → maximum_nprobes r = Some b → b = 0%Z ∨ (a ≤ b)%Z;
  effort_ok : validate_search_effort r = Ok tt;
  vectors_finite : Forall (λ v, vector_type v = "Float32" ∧ Forall (λ x, is_finite x = true) (values v)) (query_vector r);
  has_vector : query_vector r ≠ [];
  has_limit : limit (base r) ≠ None
}.
Section builder_lemmas.
Context {U : Unparser} {T : PredicateTokenizer} {D : QueryDeps}.

Lemma add_filter_limit q f q' : add_filter q f = Ok q' → limit q' = limit q.
Proof.
  unfold add_filter. destruct q as [l o t fi e s c a r p k n d b m]. cbn.
  repeat case_match; intros Heq; try done; by injection Heq as <-.
Qed.
Lemma base_call_limit q c q' : base_call q c = Ok q' → limit q ≠ None → limit q' ≠ None.
Proof.
  destruct c; cbn [base_call]; try (intros [= <-]; by destruct q); try (intros ->%add_filter_limit; done).
  all: destruct q as [[?|] ? ? ? ? ? ? ? ? ? ? ? ? ? ?]; cbn; intros [= <-]; done.
Qed.
Lemma add_query_vector_spec r v r' : add_query_vector r v = Ok r' →
  ∃ w, r' = set_query_vector (query_vector r ++ [w])%list r ∧ vector_type w = "Float32" ∧
    Forall (λ x, is_finite x = true) (values w).
Proof.
  unfold add_query_vector. intros (w & _ & H)%bind_Ok. destruct (String.eqb_spec (vector_type w) "Float32") as [Ht|]; [|done].
  cbn in H. destruct (existsb _ _) eqn:He; [done|]. injection H as <-. exists w. split_and!; [done..|].
  apply Forall_forall. intros x Hx%list_elem_of_In. apply not_false_iff_true. intros Hn.
  apply not_true_iff_false in He. apply He, existsb_exists. exists x. by rewrite Hn.
Qed.
Lemma vector_call_ok r c r' : request_ok r → vector_call r c = Ok r' → request_ok r'.
Proof.
  intros [Hn Hm Ho He Hv Hne Hl]. destruct r as [b col qv n mi ma se lo up e f d a u]. cbn in Hn, Hm, Ho, Hv, Hne, Hl.
  destruct c as [c|name|v|k|eff|k|k|l u'|k|k|dt|am|]; cbn.
  - intros (q & Hq & [= <-])%bind_Ok. constructor; try done. cbn. by eapply base_call_limit.
  - intros [= <-]. by constructor.
  - intros (w & -> & Ht & Hf)%add_query_vector_spec. constructor; try done; cbn; [|by destruct qv].
    apply Forall_app. by split; [|constructor].
  - unfold nprobes_builder. destruct (Z.eqb_spec k 0); [done|]. intros [= <-]. constructor; try done. cbn. congruence.
  - unfold search_effort_builder. intros ([] & Hs & [= <-])%bind_Ok. by constructor.
  - unfold minimum_nprobes_builder. destruct (Z.eqb_spec k 0); [done|]. cbn [maximum_nprobes]. destruct ma as [m|]; cbn.
    + destruct (Z.eqb_spec m 0), (Z.ltb_spec m k); cbn; try done; intros [= <-]; constructor; try done; cbn; try congruence;
        intros x y [= <-] [= <-]; lia.
    + intros [= <-]. constructor; try done; cbn; congruence.
  - unfold maximum_nprobes_builder. cbn [minimum_nprobes]. intros ([] & Hk & [= <-])%bind_Ok. constructor; try done. cbn.
    intros x y Hx [= <-]. destruct k as [k|]; cbn in Hk |- *; [|by left]. subst mi.
    destruct (Z.eqb_spec k 0); [done|]. destruct (Z.ltb_spec k x); [done|]. by right.
  - intros [= <-]. by constructor.
  - intros [= <-]. by constructor.
  - intros [= <-]. by constructor.
  - intros [= <-]. by constructor.
  - intros [= <-]. by constructor.
  - intros [= <-]. by constructor.
Qed.
Lemma nearest_to_ok q v r : nearest_to q v = Ok r → request_ok r.
Proof.
  unfold nearest_to. intros (r0 & (w & -> & Ht & Hf)%add_query_vector_spec & [= <-])%bind_Ok.
  destruct q as [[l|] o t fi e s c a rr p k n d b m]; cbn; constructor; try done; cbn; by repeat constructor.
Qed.
Lemma calls_run {A C} (step : A → C → result A) (P : A → Prop) cs a a' :
  (∀ a c a', P a → step a c = Ok a' → P a') → P a →
  foldl (λ r c, r ← r; step r c) (Ok a) cs = Ok a' → P a'.
Proof.
  intros Hstep. revert a. induction cs as [|c cs IH]; intros a Ha; cbn; [by intros [= <-]|].
  destruct (step a c) as [b|e|] eqn:Hb.
  - apply IH. by eapply Hstep.
  - assert (∀ l, foldl (λ r c, r ← r; step r c) (Err e) l = Err e) as -> by (by induction l). done.
  - assert (∀ l, foldl (λ r c, r ← r; step r c) Panic l = Panic) as -> by (by induction l). done.
Qed.
End builder_lemmas.

(** ** What filters mean

    A text is a condition through its tokens: as sqlparser's tokenizer reads it
    for the user, to whom double quotes delimit identifiers, and as Lance's
    parser reads it ([backend_tokens]), to whom backticks do. *)
Definition token_name (t : Token) : option string :=
  match t with Word value (Some q) => Some (undouble_char q value) | _ => None end.
(** Equal, but for the quotes around an identifier *)
Definition same_token (t t' : Token) : Prop :=
  match token_name t, token_name t' with Some n, Some n' => n = n' | None, None => t = t' | _, _ => False end.
Definition dquoted (t : Token) : bool := match t with Word _ (Some q) => Ascii.eqb q dquote | _ => false end.
(** The text of a token in backticks, and of one that is not in double quotes *)
Inductive spells `{PredicateTokenizer} : string → Token → Prop :=
  | SpellsName n : spells ("`" +:+ double_char backtick n +:+ "`") (Word (double_char backtick n) (Some backtick))
  | SpellsToken t : dquoted t = false → spells (predicate_token_to_string t) t.
(** A line comment that no line feed ends: what follows it would be part of it. *)
Definition open_comment (s : string) : bool :=
  starts_with "--" s && match strip_suffix (String LF "") s with Some _ => false | None => true end.
Definition closed (texts : list string) : Prop :=
  match last texts with Some s => open_comment s = false | None => True end.

Class FilterSemantics (Row : Type) : Type := {
  backend_tokens : string → option (list Token);
  (** the rows a sequence of tokens keeps, when it is a condition *)
  tokens_keep : list Token → option (Row → bool);
  (** the tokens between two conditions in parentheses, but for the second's *)
  and_tokens : list Token;
  (** the text ends outside of comments *)
  complete : string → Prop;
  expr_keeps : Expr → Row → bool;
  plan_keeps : list Z → Row → bool
}.
(** Both read a text as these tokens. *)
Definition lexes `{PredicateTokenizer} `{FilterSemantics Row} (s : string) (ts : list Token) : Prop :=
  tokenize_predicate s = Ok ts ∧ backend_tokens s = Some ts.
(** What holds of SQL: tokens print as texts that read as them; between a text
    that is complete and a parenthesis there is always a token's end; AND of two
    conditions in parentheses keeps what both keep. *)
Class FilterLaws {T : PredicateTokenizer} {D : QueryDeps} {Row} (F : FilterSemantics Row) : Prop := {
  relex p ts ts' texts : tokenize_predicate p = Ok ts → Forall2 same_token ts ts' → Forall2 spells texts ts' →
    lexes (String.concat "" texts) ts' ∧ (closed texts → complete (String.concat "" texts));
  same_meaning ts ts' : Forall2 same_token ts ts' → tokens_keep ts = tokens_keep ts';
  lex_open s ts : lexes s ts → complete s → lexes ("(" +:+ s) (OtherToken "(" :: ts) ∧ complete ("(" +:+ s);
  lex_close s ts rest ts' : lexes s ts → complete s → lexes (")" +:+ rest) ts' → complete (")" +:+ rest) →
    lexes (s +:+ ")" +:+ rest) (ts ++ ts') ∧ complete (s +:+ ")" +:+ rest);
  lex_and s ts : lexes ("(" +:+ s) ts → complete ("(" +:+ s) →
    lexes (") AND (" +:+ s) (and_tokens ++ ts) ∧ complete (") AND (" +:+ s);
  and_undquoted : Forall (λ t, dquoted t = false) and_tokens;
  lex_end : lexes ")" [OtherToken ")"] ∧ complete ")";
  and_meaning ts ts' k k' : tokens_keep ts = Some k → tokens_keep ts' = Some k' →
    ∃ both, tokens_keep ([OtherToken "("] ++ ts ++ and_tokens ++ [OtherToken "("] ++ ts' ++ [OtherToken ")"]) = Some both ∧ ∀ row, both row = k row && k' row;
  expr_and_meaning a b row : expr_keeps (expr_and a b) row = expr_keeps a row && expr_keeps b row
}.
(** A text without identifiers in double quotes, as a request holds it *)
Definition reads `{PredicateTokenizer} `{FilterSemantics Row} (s : string) (k : Row → bool) : Prop :=
  ∃ ts k', lexes s ts ∧ Forall (λ t, dquoted t = false) ts ∧ complete s ∧ tokens_keep ts = Some k' ∧ ∀ row, k' row = k row.

Section filters.
Context {U : Unparser} {T : PredicateTokenizer} {D : QueryDeps} {Row : Type} {F : FilterSemantics Row} {L : FilterLaws F}.
(** What SqlText promises of the text of an expression *)
Context (lowered : ∀ e s, expr_to_sql_string e = Ok s → reads s (expr_keeps e)).

(** As the user gave it, and as a request holds it *)
Definition given_keeps (f : QueryFilter) (row : Row) : bool :=
  match f with
  | Sql p => match tokenize_predicate p with
             | Ok ts => match tokens_keep ts with Some k => k row | None => false end
             | _ => false
             end
  | Datafusion e => expr_keeps e row
  | Substrait p => plan_keeps p row
  end.
(** A text that is a condition and does not end within a comment *)
Definition given_valid (f : QueryFilter) : Prop :=
  match f with
  | Sql p => ∀ ts, tokenize_predicate p = Ok ts → is_Some (tokens_keep ts) ∧ closed (map predicate_token_to_string ts)
  | _ => True
  end.
Definition held (f : option QueryFilter) (k : Row → bool) : Prop :=
  match f with
  | None => ∀ row, k row = true
  | Some (Sql p) => reads p k
  | Some (Datafusion e) => ∀ row, expr_keeps e row = k row
  | Some (Substrait p) => ∀ row, plan_keeps p row = k row
  end.
(** The rows a backend keeps, when it accepts the filter *)
Definition backend_keeps (f : option QueryFilter) : option (Row → bool) :=
  match f with
  | None => Some (λ _, true)
  | Some (Sql p) => backend_tokens p ≫= tokens_keep
  | Some (Datafusion e) => Some (expr_keeps e)
  | Some (Substrait p) => Some (plan_keeps p)
  end.
Definition filters_of (c : BaseCall) : list QueryFilter :=
  match c with OnlyIf f => [Sql f] | OnlyIfExpr e => [Datafusion e] | _ => [] end.
Definition filters_of_vector (c : VectorCall) : list QueryFilter := match c with Base c => filters_of c | _ => [] end.
(** The filter a request holds is the conjunction of [fs], unless an error is recorded. *)
Definition holds (fs : list QueryFilter) (q : QueryRequest) : Prop :=
  filter_error q = None → held (filter q) (λ row, forallb (λ f, given_keeps f row) fs).

Lemma held_ext f k k' : (∀ row, k row = k' row) → held f k → held f k'.
Proof.
  intros Hk. destruct f as [[p|p|e]|]; cbn; [|intros H row; by rewrite <-Hk..].
  intros (ts & k0 & ? & ? & ? & ? & H). exists ts, k0. split_and!; try done. intros row. by rewrite H.
Qed.
Lemma canonical_spells t : ∃ t', same_token t t' ∧ spells (canonical_predicate_token t) t' ∧ dquoted t' = false.
Proof.
  unfold same_token. destruct t as [value [q|]|text]; [destruct (Ascii.eqb_spec q dquote) as [->|Hq]|..].
  - exists (Word (double_char backtick (undouble_char dquote value)) (Some backtick)). cbn [token_name].
    rewrite undouble_double. split_and!; [done|apply SpellsName|done].
  - assert (Ascii.eqb q dquote = false) as Hd by by apply Ascii.eqb_neq. exists (Word value (Some q)). cbn.
    rewrite Hd. split_and!; [done|by apply SpellsToken|done].
  - exists (Word value None). split_and!; [done|by apply SpellsToken|done].
  - exists (OtherToken text). split_and!; [done|by apply SpellsToken|done].
Qed.
Lemma canonical_closed ts : closed (map predicate_token_to_string ts) → closed (map canonical_predicate_token ts).
Proof.
  unfold closed. change map with (@fmap list _). rewrite !fmap_last. destruct (last ts) as [t|]; [|done]. cbn.
  destruct t as [value [q|]|text]; [|done..]. cbn [canonical_predicate_token]. by destruct (Ascii.eqb q dquote).
Qed.
(** Canonical text reads as the user's: names keep, whatever their quotes. *)
Lemma canonical_lexes p ts : tokenize_predicate p = Ok ts →
  ∃ ts', Forall2 same_token ts ts' ∧ Forall (λ t, dquoted t = false) ts' ∧
    lexes (String.concat "" (map canonical_predicate_token ts)) ts' ∧
    (closed (map predicate_token_to_string ts) → complete (String.concat "" (map canonical_predicate_token ts))).
Proof.
  intros Hp. assert (∃ ts', Forall2 same_token ts ts' ∧ Forall (λ t, dquoted t = false) ts' ∧
    Forall2 spells (map canonical_predicate_token ts) ts') as (ts' & Hsame & Hd & Hspell).
  { clear Hp. induction ts as [|t ts (ts' & H1 & H2 & H3)]; [exists []; by split_and!|].
    destruct (canonical_spells t) as (t' & ? & ? & ?). exists (t' :: ts'). cbn [map]. split_and!; by constructor. }
  exists ts'. destruct (relex p ts ts' _ Hp Hsame Hspell) as [Hl Hc]. split_and!; [done|done|done|]. intros ?. by apply Hc, canonical_closed.
Qed.
Lemma canonical_filter_meaning f f' : given_valid f → canonical_filter f = Ok f' → held (Some f') (given_keeps f).
Proof.
  destruct f as [p|p|e]; cbn; [|by intros _ [= <-]..]. intros Hp (p' & Hc & [= <-])%bind_Ok.
  unfold canonicalize_sql_predicate in Hc. apply bind_Ok in Hc as (ts & Ht & [= <-]).
  destruct (tokenize_predicate p) as [ts0| |] eqn:Htok; [|done..]. injection Ht as ->.
  destruct (Hp ts eq_refl) as [[k Hk] Hclosed]. destruct (canonical_lexes p ts Htok) as (ts' & Hsame & Hd & Hl & Hc).
  exists ts', k. split_and!; [done|done|by apply Hc|by rewrite <-(same_meaning ts ts' Hsame)|].
  intros row. cbn [given_keeps]. by rewrite Htok, Hk.
Qed.
Lemma and_sql_meaning p q k k' : reads p k → reads q k' → reads (and_sql p q) (λ row, k row && k' row).
Proof.
  intros (tp & kp & Hlp & Hdp & Hcp & Hkp & Hep) (tq & kq & Hlq & Hdq & Hcq & Hkq & Heq).
  destruct lex_end as [Hle Hce]. destruct (lex_close q tq "" _ Hlq Hcq Hle Hce) as [H1 H2].
  destruct (lex_open _ _ H1 H2) as [H3 H4]. destruct (lex_and _ _ H3 H4) as [H5 H6].
  destruct (lex_close p tp _ _ Hlp Hcp H5 H6) as [H7 H8]. destruct (lex_open _ _ H7 H8) as [H9 H10].
  destruct (and_meaning tp tq kp kq Hkp Hkq) as (both & Hb & Hrow). eexists _, both. split_and!; [exact H9| |exact H10|exact Hb|].
  - constructor; [done|]. apply Forall_app. split; [done|]. apply Forall_app. split; [apply and_undquoted|].
    constructor; [done|]. apply Forall_app. split; [done|]. by constructor.
  - intros row. by rewrite Hrow, Hep, Heq.
Qed.
Lemma and_filters_meaning f g h k k' : held (Some f) k → held (Some g) k' → and_filters f g = Ok h →
  held (Some h) (λ row, k row && k' row).
Proof.
  destruct f as [p|p|e], g as [p'|p'|e']; intros Hf Hg; cbn [and_filters]; try done.
  - intros [= <-]. by apply and_sql_meaning.
  - intros (s & Hs & [= <-])%bind_Ok. apply and_sql_meaning; [done|]. apply (held_ext (Some (Sql s)) (expr_keeps e')); [done|].
    by apply lowered.
  - intros (s & Hs & [= <-])%bind_Ok. apply and_sql_meaning; [|done]. apply (held_ext (Some (Sql s)) (expr_keeps e)); [done|].
    by apply lowered.
  - intros [= <-] row. cbn in Hf, Hg. by rewrite expr_and_meaning, Hf, Hg.
Qed.
Lemma add_filter_holds fs q f q' : holds fs q → given_valid f → add_filter q f = Ok q' → holds (fs ++ [f])%list q'.
Proof.
  intros Hq Hf. unfold add_filter. destruct (canonical_filter f) as [f'|e|] eqn:Hc; [| |done].
  2: { intros [= <-]. intros Herr. by destruct q. }
  pose proof (canonical_filter_meaning f f' Hf Hc) as Hk.
  destruct (filter q) as [g|] eqn:Hg.
  - destruct (and_filters g f') as [h|e|] eqn:Hh; [| |done].
    + intros [= <-]. intros Herr. assert (filter_error q = None) as Hnone by (by destruct q).
      specialize (Hq Hnone). rewrite Hg in Hq. pose proof (and_filters_meaning g f' h _ _ Hq Hk Hh) as H.
      assert (filter (set_filter (Some h) q) = Some h) as -> by (by destruct q).
      eapply held_ext; [|exact H]. intros row. rewrite forallb_app. cbn [forallb]. by rewrite andb_true_r.
    + intros [= <-]. intros Herr. by destruct q.
  - intros [= <-]. intros Herr. assert (filter_error q = None) as Hnone by (by destruct q).
    specialize (Hq Hnone). rewrite Hg in Hq. assert (filter (set_filter (Some f') q) = Some f') as -> by (by destruct q).
    eapply held_ext; [|exact Hk]. intros row. cbn [held] in Hq. by rewrite forallb_app, Hq; cbn [forallb]; rewrite andb_true_r.
Qed.
Lemma unchanged_holds fs q q' : filter q' = filter q → filter_error q' = filter_error q → holds fs q → holds fs q'.
Proof. unfold holds. by intros -> ->. Qed.
Lemma base_call_holds fs q c q' : holds fs q → Forall given_valid (filters_of c) → base_call q c = Ok q' →
  holds (fs ++ filters_of c)%list q'.
Proof.
  intros Hq Hv Hc. destruct c; cbn [base_call filters_of] in *;
    try (by eapply add_filter_holds; [exact Hq|by apply Forall_singleton|exact Hc]);
    rewrite app_nil_r; injection Hc as <-; (eapply unchanged_holds; [| |exact Hq]); destruct q; try done; by destruct limit.
Qed.
Lemma vector_call_holds fs r c r' : holds fs (base r) → Forall given_valid (filters_of_vector c) → vector_call r c = Ok r' →
  holds (fs ++ filters_of_vector c)%list (base r').
Proof.
  intros Hr Hv Hc. destruct c; cbn [vector_call filters_of_vector] in *.
  - apply bind_Ok in Hc as (q & Hq & [= <-]). assert (base (set_base q r) = q) as -> by (by destruct r). by eapply base_call_holds.
  - rewrite app_nil_r. injection Hc as <-. by destruct r.
  - rewrite app_nil_r. apply add_query_vector_spec in Hc as (w & -> & _). by destruct r.
  - rewrite app_nil_r. unfold nprobes_builder in Hc. case_match; [done|]. injection Hc as <-. by destruct r.
  - rewrite app_nil_r. apply bind_Ok in Hc as (? & _ & [= <-]). by destruct r.
  - rewrite app_nil_r. unfold minimum_nprobes_builder in Hc. repeat (case_match; try done); injection Hc as <-; by destruct r.
  - rewrite app_nil_r. apply bind_Ok in Hc as (? & _ & [= <-]). by destruct r.
  - rewrite app_nil_r. injection Hc as <-. by destruct r.
  - rewrite app_nil_r. injection Hc as <-. by destruct r.
  - rewrite app_nil_r. injection Hc as <-. by destruct r.
  - rewrite app_nil_r. injection Hc as <-. by destruct r.
  - rewrite app_nil_r. injection Hc as <-. by destruct r.
  - rewrite app_nil_r. injection Hc as <-. by destruct r.
Qed.
(** Calls whose every step extends what is held extend it by all they give. *)
Lemma calls_hold {A C} (step : A → C → result A) (given : C → list QueryFilter) (base : A → QueryRequest) :
  (∀ fs a c a', holds fs (base a) → Forall given_valid (given c) → step a c = Ok a' → holds (fs ++ given c)%list (base a')) →
  ∀ cs fs a a', holds fs (base a) → Forall (λ c, Forall given_valid (given c)) cs →
  foldl (λ r c, r ← r; step r c) (Ok a) cs = Ok a' → holds (fs ++ flat_map given cs)%list (base a').
Proof.
  intros Hstep cs. induction cs as [|c cs IH]; intros fs a a' Ha Hcs; cbn [foldl flat_map].
  { rewrite app_nil_r. by intros [= <-]. }
  apply Forall_cons in Hcs as [Hc Hcs]. cbn [mbind outcome_bind]. destruct (step a c) as [b|e|] eqn:Hb.
  - rewrite app_assoc. apply IH; [by eapply Hstep|done].
  - assert (∀ l, foldl (λ r c, r ← r; step r c) (Err e) l = Err e) as -> by (by induction l). done.
  - assert (∀ l, foldl (λ r c, r ← r; step r c) Panic l = Panic) as -> by (by induction l). done.
Qed.
Lemma canonicalized_keeps q q' k : held (filter q) k → canonicalized_base q = Ok q' →
  ∃ k', backend_keeps (filter q') = Some k' ∧ ∀ row, k' row = k row.
Proof.
  unfold canonicalized_base. destruct (filter q) as [[p|p|e]|] eqn:Hq; intros Hv.
  2-4: intros [= <-]; rewrite Hq; eexists; split; [done|]; intros row; cbn in *; by rewrite Hv.
  intros (p' & Hp & [= <-])%bind_Ok. assert (filter (set_filter (Some (Sql p')) q) = Some (Sql p')) as -> by (by destruct q).
  destruct Hv as (ts & k0 & [Hl _] & _ & _ & Hk & Hrow).
  unfold canonicalize_sql_predicate in Hp. rewrite Hl in Hp. cbn in Hp. injection Hp as <-.
  destruct (canonical_lexes p ts Hl) as (ts' & Hsame & _ & [_ Hl'] & _). exists k0. cbn. rewrite Hl'. cbn.
  by rewrite <-(same_meaning ts ts' Hsame).
Qed.
Lemma nearest_to_base q v r : nearest_to q v = Ok r → filter (base r) = filter q ∧ filter_error (base r) = filter_error q.
Proof.
  unfold nearest_to. intros (r0 & (w & -> & _)%add_query_vector_spec & [= <-])%bind_Ok. by destruct q as [[l|] ?].
Qed.

End filters.

(** ** A filter that ends in a line comment

    The text of SQL without its line comments (outside of quotes) *)
Fixpoint uncommented (comment : bool) (s : string) : string :=
  match s with
  | "" => ""
  | String c s' =>
      if comment then if Ascii.eqb c LF then String LF (uncommented false s') else uncommented true s'
      else if starts_with "--" s then uncommented true s' else String c (uncommented false s')
  end.
(** The comment takes the parenthesis and the AND with it: of two filters the
    conjunction is neither, and still a condition. *)
Lemma comment_swallows_the_conjunction :
  let second := "b > 0" +:+ String LF "OR c > 0" in
  open_comment "-- note" = true ∧
  uncommented false (and_sql "a > 0 -- note" second) = "(a > 0 " +:+ String LF "OR c > 0)".
Proof. split; vm_compute; reflexivity. Qed.

(** Whatever calls build a vector query, it is a valid search: it has a
    query vector, every vector of it is finite 32-bit floats, it has a limit, no
    number of probes is zero except for the unbounded maximum, the minimum of
    probes is at most the maximum, and the search effort lies in [0, 1]. *)
Theorem built_requests_are_valid `{U : Unparser} `{T : PredicateTokenizer} `{D : QueryDeps} q v r calls r' :
  nearest_to q v = Ok r → vector_calls r calls = Ok r' → request_ok r'.
Proof.
  intros Hr Hr'. apply (calls_run vector_call request_ok calls r r'); [intros a c a'; apply vector_call_ok| |exact Hr'].
  by eapply nearest_to_ok.
Qed.

(** ** A client whose rows are the characters a predicate must not mention *)
Module Demo.
(** Every character is a token. *)
Definition characters (s : string) : list Token := map (λ c, OtherToken (String c "")) (list_ascii_of_string s).
#[export] Instance tokenizer : PredicateTokenizer := {|
  SqlText.tokenize_predicate p := Ok (characters p);
  SqlText.predicate_token_to_string t :=
    match t with ViewQuery.ViewQuery.OtherToken p => p | ViewQuery.ViewQuery.Word v _ => v end
|}.
Definition sql (e : Expr) : string :=
  match e with SqlText.Literal (SqlText.Utf8 (Some s)) _ => s | _ => "" end.
#[export] Instance unparser : Unparser := {|
  SqlText.expr_to_sql e := Ok (sql e);
  SqlText.format_decimal _ _ _ _ := "";
  SqlText.type_to_string _ := ""
|}.
Definition text (s : string) : Expr := SqlText.Literal (SqlText.Utf8 (Some s)) None.
Definition printed (e : Expr) : string := match expr_to_sql_string e with Ok s => s | _ => "" end.
#[export] Instance deps : QueryDeps := {|
  expr_and a b := text (and_sql (printed a) (printed b));
  cast_array v t := Ok (mkVector t (values v));
  in_list _ _ := text "";
  error_to_string _ := "error"
|}.
Fixpoint mentions (c : ascii) (s : string) : bool :=
  match s with EmptyString => false | String d s => Ascii.eqb c d || mentions c s end.
Definition keeps (s : string) (c : ascii) : bool := mentions c "() AND" || negb (mentions c s).
Definition said (t : Token) : string := default (predicate_token_to_string t) (token_name t).
Definition spelled (ts : list Token) : string := String.concat "" (map said ts).
Lemma mentions_app c s t : mentions c (s +:+ t) = mentions c s || mentions c t.
Proof. induction s as [|d s IH]; [done|]. cbn. by rewrite IH, orb_assoc. Qed.
Lemma mentions_spelled c ts : mentions c (spelled ts) = existsb (λ t, mentions c (said t)) ts.
Proof.
  unfold spelled. induction ts as [|t [|t' ts] IH]; [done|cbn; by rewrite orb_false_r|].
  change (mentions c (said t +:+ String.concat "" (map said (t' :: ts))) =
    mentions c (said t) || existsb (λ t, mentions c (said t)) (t' :: ts)).
  by rewrite mentions_app, IH.
Qed.
Lemma characters_app a b : characters (a +:+ b) = (characters a ++ characters b)%list.
Proof. induction a as [|c a IH]; [done|]. cbn. by f_equal. Qed.
Lemma spelled_characters p : spelled (characters p) = p.
Proof. induction p as [|c [|d p] IH]; [done|done|]. change (String c (spelled (characters (String d p))) = String c (String d p)). by rewrite IH. Qed.
Lemma spelled_characters' p : String.concat "" (map predicate_token_to_string (characters p)) = p.
Proof. rewrite <-(spelled_characters p) at 2. unfold spelled, characters. by rewrite !map_map. Qed.
(** No character is a name. *)
Lemma same_characters p ts : Forall2 same_token (characters p) ts → ts = characters p.
Proof.
  unfold characters. induction (list_ascii_of_string p) as [|c l IH] in ts |- *; intros H.
  - by apply Forall2_nil_inv_l in H.
  - apply Forall2_cons_inv_l in H as (t & ts' & Ht & H & ->). cbn [map]. f_equal; [|by apply IH].
    unfold same_token in Ht. cbn in Ht. by destruct (token_name t).
Qed.
Lemma spelled_texts p texts : Forall2 spells texts (characters p) → texts = map predicate_token_to_string (characters p).
Proof.
  unfold characters. induction (list_ascii_of_string p) as [|c l IH] in texts |- *; intros H.
  - by apply Forall2_nil_inv_r in H.
  - apply Forall2_cons_inv_r in H as (t & ts' & Ht & H & ->). cbn [map]. f_equal; [|by apply IH].
    by inversion Ht.
Qed.
Lemma keeps_and p q c : keeps (and_sql p q) c = keeps p c && keeps q c.
Proof.
  unfold keeps, and_sql. rewrite !mentions_app. destruct (mentions c "() AND") eqn:H; [done|].
  cbn in H |- *. rewrite !orb_false_iff in H. destruct H as (-> & -> & -> & -> & -> & -> & _).
  by destruct (mentions c p), (mentions c q).
Qed.
#[export] Instance semantics : FilterSemantics ascii := {|
  backend_tokens s := Some (characters s); tokens_keep ts := Some (keeps (spelled ts));
  and_tokens := characters ") AND "; complete _ := True;
  expr_keeps e := keeps (printed e); plan_keeps _ _ := true
|}.
Lemma and_spelled ts ts' c :
  keeps (spelled ([OtherToken "("] ++ ts ++ characters ") AND " ++ [OtherToken "("] ++ ts' ++ [OtherToken ")"])) c =
  keeps (spelled ts) c && keeps (spelled ts') c.
Proof.
  rewrite <-keeps_and. unfold keeps. destruct (mentions c "() AND") eqn:H; [done|]. cbn [orb]. f_equal.
  unfold and_sql. rewrite !mentions_app, !mentions_spelled, !existsb_app. cbn [existsb].
  rewrite <-(mentions_spelled c (characters ") AND ")), spelled_characters. cbn in H |- *.
  rewrite !orb_false_iff in H. destruct H as (-> & -> & -> & -> & -> & -> & _). cbn. by rewrite !orb_false_r.
Qed.
#[export] Instance laws : FilterLaws semantics.
Proof.
  split.
  - intros p ts ts' texts [= <-] ->%same_characters ->%spelled_texts.
    assert (String.concat "" (map predicate_token_to_string (characters p)) = p) as -> by apply spelled_characters'.
    done.
  - intros ts ts' H. cbn. do 2 f_equal. unfold spelled. f_equal. induction H as [|t t' ts ts' Ht _ IH]; [done|]. cbn. f_equal; [|done].
    unfold same_token, said in *. destruct (token_name t), (token_name t'); by subst.
  - intros s ts [[= <-] _] _. done.
  - intros s ts rest ts' [[= <-] _] _ [[= <-] _] _. unfold lexes. cbn. rewrite !characters_app. done.
  - intros s ts [[= <-] _] _. done.
  - by repeat constructor.
  - done.
  - intros ts ts' k k' [= <-] [= <-]. eexists. split; [done|]. intros c. apply and_spelled.
  - intros a b c. cbn. rewrite <-keeps_and. done.
Qed.
Lemma text_reads e s : expr_to_sql_string e = Ok s → reads s (expr_keeps e).
Proof.
  intros Hs. exists (characters s), (keeps s). split_and!; [done| |done|cbn; by rewrite spelled_characters|].
  - unfold characters. by induction (list_ascii_of_string s); constructor.
  - intros c. cbn. unfold printed. by rewrite Hs.
Qed.
Definition vector : VectorArray := mkVector "Float32" [S754_zero false].
Definition calls : list BaseCall := [OnlyIf "x"; OnlyIfExpr (text "y"); CallLimit 5].
Definition steps : list VectorCall :=
  [Base (OnlyIf "z"); Base Postfilter; MinimumNprobes 2; MaximumNprobes (Some 4%Z); SearchEffort (Some F64.half)].
Definition built : VectorQueryRequest :=
  match q ← base_calls default_query calls; r ← nearest_to q vector; vector_calls r steps with
  | Ok r => r
  | _ => from_plain_query default_query
  end.
Definition start : QueryRequest := match base_calls default_query calls with Ok q => q | _ => default_query end.
Definition searched : VectorQueryRequest := match nearest_to start vector with Ok r => r | _ => from_plain_query start end.
End Demo.

Import Demo.
Lemma built_requests_are_valid_witness : minimum_nprobes Demo.built = Some 2%Z ∧ request_ok Demo.built.
Proof.
  split; [vm_compute; reflexivity|].
  apply (@built_requests_are_valid Demo.unparser Demo.tokenizer Demo.deps Demo.start Demo.vector Demo.searched Demo.steps Demo.built);
    vm_compute; reflexivity.
Defined.
End Query.
