(* ===== verification/TakeQuery.v ===== *)
(** * Take queries (query.rs)

    Rows looked up by their offset.  The backend finds each row once; above it
    the client restores the repetitions, and for ordered reads the order, of
    the offsets asked for, and only then paginates.  Scans are the backend's;
    Arrow's kernels are those of Arrow.v. *)

From Stdlib Require Import String.
From stdpp Require Import strings gmap.
From S2P Require Import Prelude RustStr Arrow SqlText Query.

Module TakeQuery.
Import SqlText (Expr).
Import Query.
Local Open Scope string_scope.

(** The columns of a 64-bit signed array, which Arrow.v leaves opaque, and the
    value [values()] shows in the slot of a null *)
Class OffsetColumns : Type := { int64_values : Arrow.column → list Z; null_slot : Z }.
(** DataFusion's [col] *)
Class ColumnExpr : Type := col : string → Expr.

Section take.
Context {U : SqlText.Unparser} {D : QueryDeps} {K : ArrowKernels} {DC : DropColumn} {OC : OffsetColumns} {CE : ColumnExpr}.

(** ** The queries *)
Fixpoint dedup_offsets (seen : gset Z) (offsets : list Z) : list Z :=
  match offsets with
  | [] => []
  | o :: offsets => if decide (o ∈ seen) then dedup_offsets seen offsets else o :: dedup_offsets ({[o]} ∪ seen) offsets
  end.
Record TakeQuery : Type := mkTake { request : QueryRequest; offsets : option (list Z); preserve_order : bool }.
Definition from_offsets (os : list Z) : TakeQuery :=
  mkTake (set_take_offsets (Some os) (set_filter (Some (Datafusion (in_list "_rowoffset" (dedup_offsets ∅ os)))) default_query))
    (Some os) false.
Definition from_row_ids (ids : list Z) : TakeQuery :=
  mkTake (set_filter (Some (Datafusion (in_list "_rowid" ids))) default_query) None false.

(** ** The lookup *)
Definition ROW_OFFSET : string := "_rowoffset".
Definition INTERNAL_ROW_OFFSET : string := "__lancedb_take_row_offset".
(** The loop that lengthens the name until no column has it.  [None]: out of fuel *)
Fixpoint unused_name (fuel : nat) (names : list string) (name : string) : option string :=
  match fuel with
  | O => None
  | S fuel => if existsb (λ n, String.eqb n name) names then unused_name fuel names (name +:+ "_") else Some name
  end.
Definition ordering_name (names : list string) : result string :=
  match unused_name (S (length names)) names INTERNAL_ROW_OFFSET with Some name => Ok name | None => Panic end.
Definition request_with_row_offset (schema : list string) (q : QueryRequest) : result (QueryRequest * string * bool) :=
  let q := set_take_offsets None q in
  match select q with
  | SelectAll => Ok (set_select (Columns (schema ++ [ROW_OFFSET])%list) q, ROW_OFFSET, true)
  | Columns columns =>
      if existsb (λ c, String.eqb c ROW_OFFSET) columns then Ok (q, ROW_OFFSET, false)
      else Ok (set_select (Columns (columns ++ [ROW_OFFSET])%list) q, ROW_OFFSET, true)
  | Dynamic columns =>
      name ← ordering_name (map fst columns);
      Ok (set_select (Dynamic (columns ++ [(name, ROW_OFFSET)])%list) q, name, true)
  | ExprSelect columns =>
      name ← ordering_name (map fst columns);
      Ok (set_select (ExprSelect (columns ++ [(name, col ROW_OFFSET)])%list) q, name, true)
  end.
Record Lookup : Type := mkLookup {
  lookup_request : QueryRequest; ordering_column : string; drop_ordering_column : bool;
  output_offset : Z; output_limit : option Z
}.
Definition prepare_offsets_lookup (schema : list string) (q : QueryRequest) : result Lookup :=
  prepared ← request_with_row_offset schema q;
  let '(q, ordering, drop) := prepared in
  Ok (mkLookup (set_limit None (set_offset None q)) ordering drop (default 0%Z (offset q)) (limit q)).

(** ** Restoring what was asked for *)
Definition take_occurrences (os : list Z) : gmap Z nat :=
  foldl (λ m o, <[o := S (default 0 (m !! o))]> m) ∅ os.
Definition offset_of_i64 (o : Z) : result Z :=
  if (o <? 0)%Z then Err (Schema "take query ordering column '{ordering_column}' contained a negative offset") else Ok o.
Definition ordering_values (c : Arrow.Field * Arrow.column) : result (list Z) :=
  match f_type c.1 with
  | UInt64 => Ok (map (λ x, match x with CU64 z => z | _ => null_slot end) c.2)
  | OtherType name =>
      if String.eqb name "Int64" then try_map offset_of_i64 (int64_values c.2)
      else Err (Schema "take query ordering column '{ordering_column}' had unsupported type {data_type}")
  | _ => Err (Schema "take query ordering column '{ordering_column}' had unsupported type {data_type}")
  end.
(** The last index wins, as in a map collected from pairs. *)
Definition index_of (actual : list Z) : gmap Z nat :=
  foldl (λ m p, <[p.2 := p.1]> m) ∅ (imap (λ i o, (i, o)) actual).
Definition desired_order (preserve : bool) (os : list Z) (occurrences : gmap Z nat) (actual : list Z) : list nat :=
  if preserve then omap (λ o, index_of actual !! o) os
  else mjoin (imap (λ i o, replicate (default 0 (occurrences !! o)) i) actual).
Definition restore_take_batch_with_occurrences (batch : RecordBatch) (os : list Z) (occurrences : gmap Z nat)
    (ordering : string) (drop preserve : bool) : result RecordBatch :=
  c ← ok_or (Schema "take query result did not include ordering column '{ordering_column}'") (column_by_name batch ordering);
  actual ← ordering_values c;
  let desired := desired_order preserve os occurrences actual in
  ordered ← (if bool_decide (desired = seq 0 (rb_num_rows batch)) then Ok batch
             else take_record_batch batch (map Z.of_nat desired));
  if drop then drop_column ordered ordering else Ok ordered.
(** [RecordBatch::new_empty] *)
Definition new_empty (fields : list Arrow.Field) : RecordBatch := mkRB fields (map (λ _, []) fields) 0.
(** [TakeRestoreExec::execute] on one partition of its input *)
Definition take_restore (fields : list Arrow.Field) (os : list Z) (ordering : string) (drop preserve : bool)
    (input : list (result RecordBatch)) : list (result RecordBatch) :=
  let occurrences := take_occurrences os in
  if preserve then
    [batches ← try_collect input;
     batch ← (match batches with [] => Ok (new_empty fields) | _ => concat_batches fields batches end);
     restore_take_batch_with_occurrences batch os occurrences ordering drop true]
  else map (λ b, b ← b; restore_take_batch_with_occurrences b os occurrences ordering drop false) input.
(** [TakeRestoreExec::try_new]: the schema of its output, and how many
    partitions it has *)
Definition restored_partitions (preserve : bool) (inputs : nat) : nat := if preserve then 1 else inputs.

(** ** The plan *)
Inductive Plan (L : Type) : Type :=
  | Scan (lookup : L)
  | CoalescePartitions (input : Plan L)
  | TakeRestore (input : Plan L) (os : list Z) (ordering : string) (drop preserve : bool)
  | GlobalLimit (input : Plan L) (skip : Z) (fetch : option Z).
Arguments Scan {L} _.
Arguments CoalescePartitions {L} _.
Arguments TakeRestore {L} _ _ _ _ _.
Arguments GlobalLimit {L} _ _ _.

(** The backend's plans for a lookup, and DataFusion's operators.  A plan yields
    a stream for each of its partitions. *)
Class Backend (L : Type) : Type := {
  table_schema : result (list string);
  create_lookup_plan : QueryRequest → Z → result L;
  lookup_schema : L → list Arrow.Field;
  partitions : L → list (list (result RecordBatch));
  coalesce : list (list (result RecordBatch)) → list (result RecordBatch);
  global_limit : Z → option Z → list (list (result RecordBatch)) → list (list (result RecordBatch))
}.
Section plan.
Context {L : Type} {B : Backend L}.

(** [TakeRestoreExec::try_new]: only the schema can fail. *)
Definition restored_schema (fields : list Arrow.Field) (ordering : string) (drop : bool) : result (list Arrow.Field) :=
  if drop then b ← drop_column (new_empty fields) ordering; Ok (rb_fields b) else Ok fields.
Definition wrap_offsets_plan (lookup : L) (os : list Z) (ordering : string) (drop : bool) (skip : Z) (fetch : option Z)
    (preserve : bool) : result (Plan L) :=
  _ ← restored_schema (lookup_schema lookup) ordering drop;
  let input := if preserve then CoalescePartitions (Scan lookup) else Scan lookup in
  let restored := TakeRestore input os ordering drop preserve in
  Ok (if (0 <? skip)%Z || bool_decide (is_Some fetch) then GlobalLimit restored skip fetch else restored).
Definition create_take_offsets_plan (q : QueryRequest) (os : list Z) (max_batch_length : Z) (preserve : bool)
    : result (Plan L) :=
  schema ← (match select q with SelectAll => table_schema | _ => Ok [] end);
  l ← prepare_offsets_lookup schema q;
  lookup ← create_lookup_plan (lookup_request l) (if preserve then 0%Z else max_batch_length);
  wrap_offsets_plan lookup os (ordering_column l) (drop_ordering_column l) (output_offset l) (output_limit l) preserve.
Fixpoint input_schema (p : Plan L) : list Arrow.Field :=
  match p with
  | Scan l => lookup_schema l
  | CoalescePartitions p | GlobalLimit p _ _ => input_schema p
  | TakeRestore p _ ordering drop _ => match restored_schema (input_schema p) ordering drop with Ok fs => fs | _ => [] end
  end.
Fixpoint execute (p : Plan L) : list (list (result RecordBatch)) :=
  match p with
  | Scan l => partitions l
  | CoalescePartitions p => [coalesce (execute p)]
  | TakeRestore p os ordering drop preserve =>
      map (take_restore (input_schema p) os ordering drop preserve)
        (take (restored_partitions preserve (length (execute p))) (execute p))
  | GlobalLimit p skip fetch => global_limit skip fetch (execute p)
  end.
End plan.
End take.
Arguments Scan {L} _.
Arguments CoalescePartitions {L} _.
Arguments TakeRestore {L} _ _ _ _ _.
Arguments GlobalLimit {L} _ _ _.

(** * Rows *)
Definition rows (b : RecordBatch) : list (list cell) :=
  map (λ i, omap (λ c : Arrow.column, c !! i) (rb_columns b)) (seq 0 (rb_num_rows b)).
(** What a take of [os] means, given the rows a lookup found with their offsets *)
Definition requested (found : list (Z * list cell)) (os : list Z) : list (list cell) :=
  omap (λ o, (list_to_map found : gmap Z (list cell)) !! o) os.
(** A row without the cells of one column *)
Definition drop_cell (fields : list Arrow.Field) (name : string) (r : list cell) : list cell :=
  map snd (base.filter (λ p, f_name p.1 ≠ name) (zip fields r)).
Definition shown (fields : list Arrow.Field) (drop : bool) (name : string) (r : list cell) : list cell :=
  if drop then drop_cell fields name r else r.

Lemma rows_lookup b i : (i < rb_num_rows b)%nat → rows b !! i = Some (omap (λ c : Arrow.column, c !! i) (rb_columns b)).
Proof. intros Hi. unfold rows. rewrite list_lookup_fmap, lookup_seq_lt by done. done. Qed.
Lemma rows_length b : length (rows b) = rb_num_rows b.
Proof. unfold rows. by rewrite length_map, length_seq. Qed.
Lemma omap_lookup_seq {A} (l : list A) : omap (λ i, l !! i) (seq 0 (length l)) = l.
Proof.
  induction l as [|x l IH] using rev_ind; [done|]. rewrite length_app, seq_app. cbn [length seq]. rewrite omap_app. cbn [Nat.add].
  rewrite (list_omap_ext (λ i, (l ++ [x])%list !! i) (λ i, l !! i) _ (seq 0 (length l))).
  - rewrite IH. cbn. by rewrite list_lookup_middle.
  - apply Forall2_same_length_lookup_2; [done|]. intros k i j Hi Hj. apply lookup_seq in Hi as [-> Hk]. apply lookup_seq in Hj as [-> _].
    cbn. by rewrite lookup_app_l.
Qed.
Lemma rows_take b idx : rb_wf b → Forall (λ i, (i < rb_num_rows b)%nat) idx →
  rows (take_rb b (map Z.of_nat idx)) = omap (λ i, rows b !! i) idx.
Proof.
  intros Hb Hidx. assert (in_bounds (rb_num_rows b) (map Z.of_nat idx)) as Hin.
  { unfold in_bounds. apply Forall_map. eapply Forall_impl; [exact Hidx|]. cbn. lia. }
  assert (∀ idx', Forall (λ i, (i < rb_num_rows b)%nat) idx' → omap (λ i, rows b !! i) idx' =
    map (λ i, omap (λ c : Arrow.column, c !! i) (rb_columns b)) idx') as Hom.
  { intros idx'. induction 1 as [|i l Hi _ IH]; [done|]. cbn. rewrite rows_lookup by done. by rewrite IH. }
  rewrite (Hom _ Hidx). apply list_eq. intros k. unfold rows at 1. cbn [rb_num_rows take_rb rb_columns].
  rewrite length_map, !list_lookup_fmap. destruct (idx !! k) as [i|] eqn:Hk.
  - rewrite lookup_seq_lt by (by eapply lookup_lt_Some). cbn. f_equal. pose proof (rb_wf_lengths b Hb) as Hl.
    clear Hom. induction Hl as [|c cs Hc _ IH]; [done|]. cbn. rewrite take_cells_lookup by (by rewrite Hc).
    rewrite list_lookup_fmap, Hk. cbn. rewrite Nat2Z.id. destruct (c !! i); [f_equal|]; exact IH.
  - rewrite lookup_seq_ge; [done|]. by apply lookup_ge_None.
Qed.
Lemma rows_drop b name : rb_wf b → rows (drop_named b name) = map (drop_cell (rb_fields b) name) (rows b).
Proof.
  intros Hb. unfold rows. rewrite map_map. cbn [rb_num_rows drop_named]. apply map_ext_in. intros i Hi%in_seq.
  unfold drop_cell. cbn [rb_columns drop_named].
  assert (∀ n fs cs, Forall2 (column_ok n) fs cs → (i < n)%nat →
    omap (λ c : Arrow.column, c !! i) (map snd (base.filter (λ p, f_name p.1 ≠ name) (zip fs cs))) =
    map snd (base.filter (λ p, f_name p.1 ≠ name) (zip fs (omap (λ c : Arrow.column, c !! i) cs)))) as Hgen.
  { intros n fs cs H Hn. induction H as [|f c fs cs [Hl _] _ IH]; [done|].
    destruct (lookup_lt_is_Some_2 c i) as [x Hx]; [lia|]. cbn [omap list_omap]. rewrite Hx. cbn [zip zip_with].
    rewrite !filter_cons. cbn [fst]. case_decide; [|exact IH]. cbn [map omap list_omap snd]. rewrite Hx. f_equal. exact IH. }
  apply (Hgen (rb_num_rows b)); [exact Hb|lia].
Qed.
Lemma rows_concat fields bs : batches_ok fields bs → rows (concat_rb fields bs) = mjoin (map rows bs).
Proof.
  induction 1 as [|b bs [Hb Hf] Hbs IH]; [done|]. cbn [map]. rewrite mjoin_cons, <-IH. rewrite concat_rb_cons by done.
  pose proof (rb_wf_lengths _ Hb) as Hl. pose proof (rb_wf_lengths _ (concat_rb_wf fields bs Hbs)) as Hl'.
  assert (length (rb_columns b) = length (rb_columns (concat_rb fields bs))) as Hlen.
  { cbn. rewrite length_fmap, length_seq, <-Hf. symmetry. by eapply Forall2_length. }
  unfold rows at 1. cbn [rb_num_rows rb_columns]. rewrite seq_app, map_app. cbn [Nat.add].
  change (rb_num_rows (concat_rb fields bs)) with (total_rows bs) in Hl'. f_equal.
  - apply map_ext_in. intros i Hi%in_seq. revert Hlen Hl'. generalize (rb_columns (concat_rb fields bs)).
    induction Hl as [|c cs Hc _ IHc]; intros [|c' cs'] Hlen Hl'; try done. injection Hlen as Hlen.
    apply Forall_cons in Hl' as [_ Hl']. cbn. rewrite lookup_app_l by lia.
    destruct (c !! i); [f_equal|]; by apply IHc.
  - rewrite <-(Nat.add_0_r (rb_num_rows b)) at 1. rewrite <-fmap_add_seq, map_map. unfold rows.
    change (rb_num_rows (concat_rb fields bs)) with (total_rows bs). apply map_ext_in. intros i Hi%in_seq.
    revert Hlen Hl'. generalize (rb_columns (concat_rb fields bs)).
    induction Hl as [|c cs Hc _ IHc]; intros [|c' cs'] Hlen Hl'; try done. injection Hlen as Hlen.
    apply Forall_cons in Hl' as [_ Hl']. cbn. rewrite lookup_app_r by lia. replace (rb_num_rows b + i - length c)%nat with i by lia.
    destruct (c' !! i); [f_equal|]; by apply IHc.
Qed.

(** ** Order and multiplicity *)
Lemma index_of_app l o : index_of (l ++ [o])%list = <[o := length l]> (index_of l).
Proof. unfold index_of. rewrite imap_app, foldl_app. cbn. by rewrite Nat.add_0_r. Qed.
Lemma index_of_lookup l o i : NoDup l → index_of l !! o = Some i ↔ l !! i = Some o.
Proof.
  revert i. induction l as [|x l IH] using rev_ind; intros i Hnd.
  { split; [|done]. cbn. by rewrite lookup_empty. }
  apply NoDup_app in Hnd as (Hl & Hx & _). assert (x ∉ l) as Hxl by (intros H; apply (Hx x H); by apply list_elem_of_singleton).
  rewrite index_of_app. destruct (decide (x = o)) as [->|Hne].
  - rewrite lookup_insert_eq. split; [intros [= <-]; by apply list_lookup_middle|].
    intros [H|[Hge H]]%lookup_app_Some; [exfalso; apply Hxl; by eapply list_elem_of_lookup_2|].
    destruct (i - length l)%nat eqn:Hi; [f_equal; lia|done].
  - rewrite lookup_insert_ne by done. rewrite IH by done. split; [intros H; by apply lookup_app_l_Some|].
    intros [H|[Hge H]]%lookup_app_Some; [done|]. destruct (i - length l)%nat eqn:Hi; [|done]. by injection H as ->.
Qed.
Definition count (os : list Z) (o : Z) : nat := length (base.filter (λ x, x = o) os).
Lemma take_occurrences_count os o : default 0 (take_occurrences os !! o) = count os o.
Proof.
  assert (∀ m, default 0 (foldl (λ (m : gmap Z nat) o, <[o := S (default 0 (m !! o))]> m) m os !! o) =
    default 0 (m !! o) + count os o) as H.
  2: { unfold take_occurrences. rewrite H, lookup_empty. done. }
  unfold count. induction os as [|x os IH]; intros m; cbn [foldl]; [by rewrite Nat.add_0_r|].
  rewrite IH, filter_cons. case_decide as Hx.
  - subst x. rewrite lookup_insert_eq. cbn. lia.
  - by rewrite lookup_insert_ne.
Qed.
Lemma repeated_requested (found : list (Z * list cell)) os : NoDup (map fst found) →
  mjoin (map (λ p, replicate (count os p.1) p.2) found) ≡ₚ requested found os.
Proof.
  intros Hnd. induction os as [|o os IH].
  { cbn. induction found as [|p found IH]; [done|]. cbn. apply IH. by inversion Hnd. }
  unfold requested in *. cbn [omap list_omap]. fold (omap (λ o, (list_to_map found : gmap Z (list cell)) !! o) os).
  transitivity (option_list ((list_to_map found : gmap Z (list cell)) !! o) ++
    mjoin (map (λ p, replicate (count os p.1) p.2) found))%list.
  2: { rewrite IH. by destruct (list_to_map found !! o). }
  clear IH. induction found as [|[k r] found IH]; [done|]. cbn [map] in Hnd. apply NoDup_cons in Hnd as [Hk Hnd].
  cbn [map list_to_map foldr fst snd]. rewrite !mjoin_cons. unfold count at 1. rewrite filter_cons. cbn [fst snd].
  specialize (IH Hnd). case_decide as Ho.
  - subst k. rewrite lookup_insert_eq. cbn. constructor. apply Permutation_app_head. rewrite IH.
    assert ((list_to_map found : gmap Z (list cell)) !! o = None) as ->; [|done]. by apply not_elem_of_list_to_map.
  - rewrite lookup_insert_ne by congruence. rewrite IH. by rewrite Permutation_app_swap_app.
Qed.
Lemma requested_perm (found found' : list (Z * list cell)) os : NoDup (map fst found) → found ≡ₚ found' →
  requested found os = requested found' os.
Proof. intros Hnd Hp. unfold requested. by rewrite (list_to_map_proper found found'). Qed.

(** ** One batch *)
Class OffsetLaws {OC : OffsetColumns} : Prop := {
  int64_values_app c c' : int64_values (c ++ c')%list = (int64_values c ++ int64_values c')%list;
  int64_values_length c : length (int64_values c) = length c
}.
Section restore.
Context {K : ArrowKernels} {KL : ArrowLaws K} {DC : DropColumn} {DL : DropColumnLaws DC} {OC : OffsetColumns} {OL : OffsetLaws}.

Definition offsets_of (b : RecordBatch) (name : string) : result (list Z) :=
  c ← ok_or (Schema "take query result did not include ordering column '{ordering_column}'") (column_by_name b name);
  ordering_values c.
(** The rows of a batch by their offsets *)
Definition found_in (b : RecordBatch) (os : list Z) : list (Z * list cell) := zip os (rows b).

Lemma ordering_values_length c vs : ordering_values c = Ok vs → length vs = length c.2.
Proof.
  unfold ordering_values. destruct (f_type c.1); try done; [intros [= <-]; apply length_map|].
  destruct (String.eqb _ _); [|done]. intros H%try_map_Ok. apply Forall2_length in H. by rewrite <-H, int64_values_length.
Qed.
Lemma column_by_name_length b name c : rb_wf b → column_by_name b name = Some c → length c.2 = rb_num_rows b.
Proof.
  intros Hb. unfold column_by_name. destruct (list_find _ _) as [[j p]|] eqn:Hf; [|done]. intros [= <-].
  apply list_find_Some in Hf as (Hj & _). rewrite lookup_zip_with in Hj.
  destruct (rb_fields b !! j); [|done]. destruct (rb_columns b !! j) as [c'|] eqn:Hc; [|done]. injection Hj as <-.
  by apply (rb_wf_column b j).
Qed.
Lemma restored_rows b idx ordering (drop : bool) : rb_wf b → Forall (λ i, (i < rb_num_rows b)%nat) idx →
  (drop = true → Exists (λ f, f_name f ≠ ordering) (rb_fields b)) →
  ∃ out, (ordered ← (if bool_decide (idx = seq 0 (rb_num_rows b)) then Ok b else take_record_batch b (map Z.of_nat idx));
          if drop then drop_column ordered ordering else Ok ordered) = Ok out ∧
    rows out = map (shown (rb_fields b) drop ordering) (omap (λ i, rows b !! i) idx).
Proof.
  intros Hb Hidx Hdrop.
  assert (∃ o, (if bool_decide (idx = seq 0 (rb_num_rows b)) then Ok b else take_record_batch b (map Z.of_nat idx)) = Ok o ∧
    rb_wf o ∧ rb_fields o = rb_fields b ∧ rows o = omap (λ i, rows b !! i) idx) as (o & -> & Ho & Hf & Hr).
  { case_bool_decide as He.
    - exists b. split_and!; try done. by rewrite He, <-rows_length, omap_lookup_seq.
    - assert (in_bounds (rb_num_rows b) (map Z.of_nat idx)) as Hin
        by (unfold in_bounds; apply Forall_map; eapply Forall_impl; [exact Hidx|]; cbn; lia).
      exists (take_rb b (map Z.of_nat idx)). split_and!; [by apply take_record_batch_ok|by apply take_rb_wf|done|by apply rows_take]. }
  cbn [mbind outcome_bind]. destruct drop; cbn [shown].
  - exists (drop_named o ordering). rewrite drop_column_ok; [|done|by rewrite Hf; apply Hdrop]. split; [done|].
    by rewrite rows_drop, Hf, Hr.
  - exists o. split; [done|]. by rewrite Hr, map_id.
Qed.
Lemma found_row b vs i : length vs = rb_num_rows b → NoDup vs → ∀ o, vs !! i = Some o →
  rows b !! i = (list_to_map (found_in b vs) : gmap Z (list cell)) !! o.
Proof.
  intros Hl Hnd o Hi. pose proof (lookup_lt_Some _ _ _ Hi) as Hlt. rewrite rows_lookup by lia. symmetry.
  apply elem_of_list_to_map.
  - unfold found_in. change (zip vs (rows b)).*1 with (map fst (zip vs (rows b))).
    rewrite <-(fst_zip vs (rows b)) in Hnd by (rewrite rows_length; lia). exact Hnd.
  - apply list_elem_of_lookup. exists i. unfold found_in. rewrite lookup_zip_with, Hi. cbn. by rewrite rows_lookup by lia.
Qed.
Lemma ordered_rows b vs os : length vs = rb_num_rows b → NoDup vs →
  let idx := desired_order true os (take_occurrences os) vs in
  Forall (λ i, (i < rb_num_rows b)%nat) idx ∧ omap (λ i, rows b !! i) idx = requested (found_in b vs) os.
Proof.
  intros Hl Hnd. cbn [desired_order]. unfold requested. induction os as [|o os [IH1 IH2]]; [done|]. cbn [omap list_omap].
  destruct (index_of vs !! o) as [i|] eqn:Hi.
  - apply index_of_lookup in Hi; [|done]. pose proof (lookup_lt_Some _ _ _ Hi). split; [constructor; [lia|exact IH1]|].
    cbn [omap list_omap]. rewrite (found_row b vs i Hl Hnd o Hi).
    destruct (list_to_map (found_in b vs) !! o); [f_equal|]; exact IH2.
  - split; [exact IH1|]. assert ((list_to_map (found_in b vs) : gmap Z (list cell)) !! o = None) as ->; [|exact IH2].
    apply not_elem_of_list_to_map. unfold found_in. change (zip vs (rows b)).*1 with (map fst (zip vs (rows b))).
    rewrite fst_zip by (rewrite rows_length; lia). intros [j Hj]%list_elem_of_lookup.
    apply index_of_lookup in Hj; [|done]. congruence.
Qed.
Lemma repeats_bound (occ : gmap Z nat) (vs : list Z) :
  Forall (λ i, (i < length vs)%nat) (mjoin (imap (λ i o, replicate (default 0%nat (occ !! o)) i) vs)).
Proof.
  apply Forall_join, Forall_lookup. intros i l Hi. rewrite list_lookup_imap in Hi.
  destruct (vs !! i) as [o|] eqn:Hv; [|done]. injection Hi as <-. apply Forall_replicate. by apply lookup_lt_Some in Hv.
Qed.
Lemma omap_lookup_prefix {A} (l k : list A) idx : Forall (λ i, (i < length l)%nat) idx →
  omap (λ i, (l ++ k)%list !! i) idx = omap (λ i, l !! i) idx.
Proof. induction 1 as [|i idx Hi _ IH]; [done|]. cbn. rewrite lookup_app_l by done. destruct (l !! i); [f_equal|]; exact IH. Qed.
Lemma unordered_rows b vs os : length vs = rb_num_rows b →
  let idx := desired_order false os (take_occurrences os) vs in
  Forall (λ i, (i < rb_num_rows b)%nat) idx ∧
  omap (λ i, rows b !! i) idx = mjoin (map (λ p, replicate (count os p.1) p.2) (found_in b vs)).
Proof.
  intros Hl. cbn [desired_order]. split; [rewrite <-Hl; apply repeats_bound|].
  unfold found_in. rewrite <-rows_length in Hl. revert Hl. generalize (rows b).
  induction vs as [|o vs IH] using rev_ind; intros rs Hl.
  { by destruct rs. }
  destruct rs as [|r rs _] using rev_ind; [rewrite length_app in Hl; cbn in Hl; lia|].
  rewrite !length_app in Hl. cbn in Hl. rewrite imap_app, mjoin_app, omap_app, zip_with_app by lia.
  rewrite map_app, mjoin_app. f_equal.
  - rewrite <-IH by lia. apply omap_lookup_prefix. replace (length rs) with (length vs) by lia. apply repeats_bound.
  - cbn [imap zip_with map]. rewrite Nat.add_0_r. cbn [mjoin list_join]. rewrite !app_nil_r, take_occurrences_count. cbn [fst snd].
    induction (count os o) as [|n IHn]; [done|]. cbn. rewrite list_lookup_middle by lia. f_equal. exact IHn.
Qed.

(** ** Several batches *)
Lemma column_by_name_at b name j f : rb_wf b → list_find (λ f, f_name f = name) (rb_fields b) = Some (j, f) →
  ∃ c, rb_columns b !! j = Some c ∧ column_by_name b name = Some (f, c).
Proof.
  intros Hb (Hj & Hn & Hbefore)%list_find_Some. destruct (Forall2_lookup_l _ _ _ _ _ Hb Hj) as (c & Hc & _). exists c. split; [done|].
  unfold column_by_name. assert (list_find (λ p : Arrow.Field * Arrow.column, f_name p.1 = name) (zip (rb_fields b) (rb_columns b)) = Some (j, (f, c))) as ->; [|done].
  apply list_find_Some. split_and!; [by rewrite lookup_zip_with, Hj; cbn; rewrite Hc|done|].
  intros i [g d] Hi Hlt. rewrite lookup_zip_with in Hi. destruct (rb_fields b !! i) as [g'|] eqn:Hg; [|done]. cbn in Hi.
  destruct (rb_columns b !! i); [|done]. injection Hi as <- <-. by eapply Hbefore.
Qed.
Lemma try_map_app {E A B} (g : A → outcome E B) l l' xs ys : try_map g l = Ok xs → try_map g l' = Ok ys →
  try_map g (l ++ l')%list = Ok (xs ++ ys)%list.
Proof. rewrite !try_map_Ok. apply Forall2_app. Qed.
Lemma ordering_values_app f c c' vs vs' : ordering_values (f, c) = Ok vs → ordering_values (f, c') = Ok vs' →
  ordering_values (f, (c ++ c')%list) = Ok (vs ++ vs')%list.
Proof.
  unfold ordering_values. cbn [fst snd]. destruct (f_type f); try done; [intros [= <-] [= <-]; by rewrite map_app|].
  destruct (String.eqb _ _); [|done]. rewrite int64_values_app. apply try_map_app.
Qed.
Lemma offsets_of_concat fields bs name vss : batches_ok fields bs → Forall2 (λ b vs, offsets_of b name = Ok vs) bs vss →
  offsets_of (new_empty fields) name = Ok [] → offsets_of (concat_rb fields bs) name = Ok (mjoin vss).
Proof.
  intros Hbs Hvs He. destruct (list_find (λ f, f_name f = name) fields) as [[j f]|] eqn:Hf.
  2: { unfold offsets_of in He. apply bind_Ok in He as (c & Hc%ok_or_Ok & _). unfold column_by_name in Hc.
       destruct (list_find _ _) as [[i [g d]]|] eqn:Hi; [|done]. apply list_find_Some in Hi as (Hi & Hn & _).
       rewrite lookup_zip_with in Hi. cbn in Hi. destruct (fields !! i) as [g'|] eqn:Hg; [|done]. cbn in Hi.
       destruct (map _ fields !! i); [|done]. injection Hi as -> _. exfalso.
       eapply (list_find_None (λ f, f_name f = name) fields) in Hf. rewrite Forall_lookup in Hf. by apply (Hf i g Hg). }
  assert (∀ b vs, rb_wf b → rb_fields b = fields → offsets_of b name = Ok vs →
    ∃ c, rb_columns b !! j = Some c ∧ ordering_values (f, c) = Ok vs) as Hat.
  { intros b vs Hb Hbf Ho. rewrite <-Hbf in Hf. destruct (column_by_name_at b name j f Hb Hf) as (c & Hc & Hn).
    unfold offsets_of in Ho. rewrite Hn in Ho. by exists c. }
  assert (ordering_values (f, []) = Ok []) as Hnil.
  { assert (rb_wf (new_empty fields)) as Hnw.
    { unfold rb_wf, new_empty. cbn. clear. induction fields; constructor; [by split|done]. }
    destruct (Hat (new_empty fields) [] Hnw eq_refl He) as (c & Hc & Ho). cbn in Hc.
    change (map ?g ?l) with (g <$> l) in Hc. rewrite list_lookup_fmap in Hc. destruct (fields !! j); [|done]. by injection Hc as <-. }
  assert (rb_wf (concat_rb fields bs)) as Hwf by (by apply concat_rb_wf).
  destruct (column_by_name_at (concat_rb fields bs) name j f Hwf Hf) as (c & Hc & Hn). unfold offsets_of. rewrite Hn. cbn.
  cbn [rb_columns concat_rb] in Hc. rewrite list_lookup_fmap in Hc. apply list_find_Some in Hf as (Hj & _).
  rewrite lookup_seq_lt in Hc by (by eapply lookup_lt_Some). injection Hc as <-.
  clear Hn He. induction Hvs as [|b vs bs vss Hb _ IH]; [exact Hnil|].
  apply Forall_cons in Hbs as [[Hw Hbf] Hbs]. destruct (Hat b vs Hw Hbf Hb) as (cb & Hcb & Hob).
  unfold concat_column. cbn [fmap list_fmap]. rewrite Hcb. cbn [default from_option id]. rewrite !mjoin_cons.
  apply ordering_values_app; [done|]. apply IH; [done|by apply concat_rb_wf].
Qed.

Lemma take_found (bs : list RecordBatch) vss : Forall2 (λ b vs, length vs = rb_num_rows b) bs vss →
  zip (mjoin vss) (mjoin (map rows bs)) = mjoin (zip_with found_in bs vss).
Proof.
  induction 1 as [|b vs bs vss Hb _ IH]; [done|]. cbn [map zip_with]. rewrite !mjoin_cons, zip_with_app; [|by rewrite rows_length].
  by rewrite IH.
Qed.
Lemma found_offsets (bs : list RecordBatch) vss : Forall2 (λ b vs, length vs = rb_num_rows b) bs vss →
  map fst (mjoin (zip_with found_in bs vss)) = mjoin vss.
Proof.
  induction 1 as [|b vs bs vss Hb _ IH]; [done|]. cbn [zip_with]. rewrite !mjoin_cons, map_app, IH. f_equal.
  unfold found_in. apply fst_zip. rewrite rows_length. lia.
Qed.
Lemma offsets_lengths fields bs name vss : batches_ok fields bs → Forall2 (λ b vs, offsets_of b name = Ok vs) bs vss →
  Forall2 (λ b vs, length vs = rb_num_rows b) bs vss.
Proof.
  intros Hbs H. induction H as [|b vs bs vss Hb _ IH]; [constructor|]. apply Forall_cons in Hbs as [[Hw _] Hbs].
  constructor; [|by apply IH]. unfold offsets_of in Hb. apply bind_Ok in Hb as (c & Hc%ok_or_Ok & Ho).
  rewrite (ordering_values_length c vs Ho). by apply (column_by_name_length b name c).
Qed.
(** What the batches of a lookup hold *)
Record lookup_ok (fields : list Arrow.Field) (ordering : string) (drop : bool) (bs : list RecordBatch) (vss : list (list Z)) : Prop := {
  lookup_batches : batches_ok fields bs;
  lookup_offsets : Forall2 (λ b vs, offsets_of b ordering = Ok vs) bs vss;
  lookup_column : offsets_of (new_empty fields) ordering = Ok [];
  lookup_distinct : NoDup (mjoin vss);
  lookup_others : drop = true → Exists (λ f, f_name f ≠ ordering) fields
}.
Lemma restore_each fields ordering drop os bs vss : lookup_ok fields ordering drop bs vss →
  ∃ outs, take_restore fields os ordering drop false (map Ok bs) = map Ok outs ∧
    mjoin (map rows outs) =
      map (shown fields drop ordering) (mjoin (map (λ p, replicate (count os p.1) p.2) (mjoin (zip_with found_in bs vss)))).
Proof.
  intros [Hbs Hvs _ Hnd Hdrop]. cbn [take_restore]. clear Hnd.
  induction Hvs as [|b vs bs vss Hb Hvs IH]; [by exists []|]. apply Forall_cons in Hbs as [[Hw Hf] Hbs].
  destruct (IH Hbs) as (outs & Houts & Hrows). cbn [map]. cbn [mbind outcome_bind] in Houts |- *.
  assert (length vs = rb_num_rows b) as Hl.
  { unfold offsets_of in Hb. apply bind_Ok in Hb as (c & Hc%ok_or_Ok & Ho).
    rewrite (ordering_values_length c vs Ho). by apply (column_by_name_length b ordering c). }
  destruct (unordered_rows b vs os Hl) as [Hidx Hr]. rewrite <-Hf in Hdrop.
  destruct (restored_rows b _ ordering drop Hw Hidx Hdrop) as (out & Ho & Hout).
  exists (out :: outs). split.
  - cbn [map]. f_equal; [|exact Houts]. unfold restore_take_batch_with_occurrences. unfold offsets_of in Hb.
    apply bind_Ok in Hb as (c & Hc & Hv). rewrite Hc. cbn [mbind outcome_bind]. rewrite Hv. exact Ho.
  - cbn [map zip_with]. rewrite !mjoin_cons, map_app, mjoin_app, map_app, Hrows, Hout, Hr, Hf. done.
Qed.
Lemma restore_all fields ordering drop os bs vss : lookup_ok fields ordering drop bs vss →
  ∃ out, take_restore fields os ordering drop true (map Ok bs) = [Ok out] ∧
    rows out = map (shown fields drop ordering) (requested (mjoin (zip_with found_in bs vss)) os).
Proof.
  intros [Hbs Hvs Hcol Hnd Hdrop]. cbn [take_restore]. change (map Ok bs) with (Ok (E := Error) <$> bs). rewrite try_collect_Ok.
  cbn [mbind outcome_bind].
  assert ((match bs with [] => Ok (new_empty fields) | _ => concat_batches fields bs end) = Ok (concat_rb fields bs)) as ->.
  { destruct bs as [|b bs]; [|by apply concat_batches_ok]. unfold new_empty, concat_rb, concat_column, total_rows. cbn. do 2 f_equal.
    clear. generalize 0%nat. induction fields as [|f fs IH]; intros k; [done|]. cbn. f_equal. apply IH. }
  cbn [mbind outcome_bind]. pose proof (offsets_of_concat fields bs ordering vss Hbs Hvs Hcol) as Ho.
  pose proof (offsets_lengths _ _ _ _ Hbs Hvs) as Hls. pose proof (concat_rb_wf fields bs Hbs) as Hw.
  assert (length (mjoin vss) = rb_num_rows (concat_rb fields bs)) as Hl.
  { unfold offsets_of in Ho. apply bind_Ok in Ho as (c & Hc%ok_or_Ok & Ho).
    rewrite (ordering_values_length c _ Ho). by apply (column_by_name_length _ ordering c). }
  destruct (ordered_rows _ _ os Hl Hnd) as [Hidx Hr].
  destruct (restored_rows _ _ ordering drop Hw Hidx Hdrop) as (out & Hout & Hrows).
  exists out. split.
  - f_equal. unfold restore_take_batch_with_occurrences. unfold offsets_of in Ho. apply bind_Ok in Ho as (c & Hc & Hv).
    rewrite Hc. cbn [mbind outcome_bind]. rewrite Hv. exact Hout.
  - rewrite Hrows, Hr. unfold found_in. rewrite rows_concat by done. by rewrite take_found.
Qed.
End restore.

(** ** The name of the ordering column *)
Lemma append_longer (s : string) : (String.length (s +:+ "_") = S (String.length s))%nat.
Proof. induction s as [|c s IH]; [done|]. cbn. by rewrite IH. Qed.
(** The loop ends: each round uses up a column, since the names it tries differ. *)
Lemma unused_name_total fuel names name : (length (base.filter (λ n, String.length name ≤ String.length n)%nat names) < fuel)%nat →
  ∃ name', unused_name fuel names name = Some name'.
Proof.
  revert name. induction fuel as [|fuel IH]; intros name; cbn [unused_name]; [lia|]. intros Hlen.
  destruct (existsb _ names) eqn:He; [|by eexists]. apply IH. apply existsb_exists in He as (n & Hn%list_elem_of_In & ->%String.eqb_eq).
  enough (length (base.filter (λ n, String.length (name +:+ "_") ≤ String.length n)%nat names) <
    length (base.filter (λ n, String.length name ≤ String.length n)%nat names))%nat by lia.
  clear IH Hlen. rewrite append_longer.
  assert (∀ l : list string, (length (base.filter (λ n, S (String.length name) ≤ String.length n)%nat l) ≤
    length (base.filter (λ n, String.length name ≤ String.length n)%nat l))%nat) as Hle.
  { intros l. induction l as [|m l IH]; [done|]. rewrite !filter_cons. repeat case_decide; cbn; lia. }
  induction names as [|m names IH]; [by apply elem_of_nil in Hn|]. rewrite !filter_cons. apply elem_of_cons in Hn as [<-|Hn].
  - rewrite decide_False by lia. rewrite decide_True by lia. cbn. specialize (Hle names). lia.
  - specialize (IH Hn). repeat case_decide; cbn; lia.
Qed.
Lemma unused_name_fresh fuel names name name' : unused_name fuel names name = Some name' → name' ∉ names.
Proof.
  revert name. induction fuel as [|fuel IH]; intros name; cbn [unused_name]; [done|].
  destruct (existsb _ names) eqn:He; [apply IH|]. intros [= <-] Hin. apply not_true_iff_false in He. apply He, existsb_exists.
  exists name. split; [by apply list_elem_of_In|by apply String.eqb_eq].
Qed.
Lemma ordering_name_fresh names : ∃ name, ordering_name names = Ok name ∧ name ∉ names.
Proof.
  unfold ordering_name. destruct (unused_name_total (S (length names)) names INTERNAL_ROW_OFFSET) as [n Hn].
  { assert (length (base.filter (λ n, String.length INTERNAL_ROW_OFFSET ≤ String.length n)%nat names) ≤ length names)%nat; [|lia].
    apply length_filter. }
  exists n. rewrite Hn. split; [done|]. by eapply unused_name_fresh.
Qed.
(** The names a selection asks for *)
Definition select_names (s : Select) : list string :=
  match s with SelectAll => [] | Columns l => l | Dynamic l => map fst l | ExprSelect l => map fst l end.
(** The lookup reads one column more than the query shows, unless the query shows
    the offsets themselves. *)
Lemma lookup_selects `{CE : ColumnExpr} schema q : ∃ l,
  prepare_offsets_lookup schema q = Ok l ∧ take_offsets (lookup_request l) = None ∧
  limit (lookup_request l) = None ∧ offset (lookup_request l) = None ∧ filter (lookup_request l) = filter q ∧
  let asked := match select q with SelectAll => schema | s => select_names s end in
  if drop_ordering_column l then select_names (select (lookup_request l)) = (asked ++ [ordering_column l])%list ∧
    (select q = SelectAll ∨ ordering_column l ∉ asked)
  else select_names (select (lookup_request l)) = asked ∧ ordering_column l ∈ asked.
Proof.
  unfold prepare_offsets_lookup, request_with_row_offset. destruct q as [li o t f e s sel a r p k n d b m].
  cbn [set_take_offsets select]. destruct sel as [|cols|cols|cols].
  - eexists. split; [done|]. cbn. split_and!; try done. by left.
  - destruct (existsb _ cols) eqn:He.
    + eexists. split; [done|]. cbn. split_and!; try done. apply existsb_exists in He as (x & Hx & ->%String.eqb_eq).
      by apply list_elem_of_In.
    + eexists. split; [done|]. cbn. split_and!; try done. right. intros Hin. apply not_true_iff_false in He.
      apply He, existsb_exists. exists ROW_OFFSET. split; [by apply list_elem_of_In|done].
  - destruct (ordering_name_fresh (map fst cols)) as (name & -> & Hfresh). eexists. split; [done|]. cbn. split_and!; try done.
    + by rewrite map_app.
    + by right.
  - destruct (ordering_name_fresh (map fst cols)) as (name & -> & Hfresh). eexists. split; [done|]. cbn. split_and!; try done.
    + by rewrite map_app.
    + by right.
Qed.

(** * Properties *)
Definition paginate {A} (skip : Z) (fetch : option Z) (l : list A) : list A :=
  let l := list.drop (Z.to_nat skip) l in match fetch with Some n => take (Z.to_nat n) l | None => l end.
(** DataFusion's operators: merging partitions interleaves their batches, and a
    limit over one partition skips and fetches rows. *)
Class BackendLaws {L} (B : Backend L) : Prop := {
  coalesce_law (ps : list (list RecordBatch)) : ∃ bs, @coalesce L B (map (map Ok) ps) = map Ok bs ∧ bs ≡ₚ mjoin ps;
  limit_law skip fetch (bs : list RecordBatch) : ∃ bs', @global_limit L B skip fetch [map Ok bs] = [map Ok bs'] ∧
    mjoin (map rows bs') = paginate skip fetch (mjoin (map rows bs))
}.
Section properties.
Context {K : ArrowKernels} {KL : ArrowLaws K} {DC : DropColumn} {DL : DropColumnLaws DC} {OC : OffsetColumns} {OL : OffsetLaws}
  {CE : ColumnExpr} {L : Type} {B : Backend L} {BL : BackendLaws B}.

Lemma restored_plan (lookup : L) os ordering (drop preserve : bool) (ps : list (list RecordBatch)) vss :
  partitions lookup = map (map Ok) ps → lookup_ok (lookup_schema lookup) ordering drop (mjoin ps) vss →
  ∃ outs, execute (TakeRestore (if preserve then CoalescePartitions (Scan lookup) else Scan lookup) os ordering drop preserve)
      = map (map Ok) outs ∧ length outs = (if preserve then 1 else length ps)%nat ∧
    let asked := map (shown (lookup_schema lookup) drop ordering) (requested (mjoin (zip_with found_in (mjoin ps) vss)) os) in
    if preserve then mjoin (map rows (mjoin outs)) = asked else mjoin (map rows (mjoin outs)) ≡ₚ asked.
Proof.
  intros Hps Hok. destruct preserve; cbn [execute input_schema restored_partitions]; rewrite Hps.
  - destruct (coalesce_law ps) as (bs & -> & Hperm). cbn [take map]. destruct Hok as [Hbs Hvs Hcol Hnd Hdrop].
    assert (∃ vss', Forall2 (λ b vs, offsets_of b ordering = Ok vs) bs vss' ∧
      zip_with found_in bs vss' ≡ₚ zip_with found_in (mjoin ps) vss ∧ mjoin vss' ≡ₚ mjoin vss) as (vss' & Hvs' & Hz & Hv').
    { clear Hbs Hnd. symmetry in Hperm. revert vss Hvs. induction Hperm as [|x l l' _ IH|x y l|l l' l'' _ IH1 _ IH2]; intros vss Hvs.
      - exists []. apply Forall2_nil_inv_l in Hvs as ->. by split_and!.
      - apply Forall2_cons_inv_l in Hvs as (v & vss' & Hx & Hvs & ->). destruct (IH vss' Hvs) as (w & Hw & Hz & Hm).
        exists (v :: w). split_and!; [by constructor|by cbn; rewrite Hz|by rewrite !mjoin_cons, Hm].
      - apply Forall2_cons_inv_l in Hvs as (v & vss' & Hx & Hvs & ->). apply Forall2_cons_inv_l in Hvs as (w & vss'' & Hy & Hvs & ->).
        exists (w :: v :: vss''). split_and!; [by repeat constructor|cbn; apply perm_swap|].
        rewrite !mjoin_cons. apply Permutation_app_swap_app.
      - destruct (IH1 vss Hvs) as (w & Hw & Hz & Hm). destruct (IH2 w Hw) as (w' & Hw' & Hz' & Hm').
        exists w'. split_and!; [done|by rewrite Hz'|by rewrite Hm']. }
    assert (lookup_ok (lookup_schema lookup) ordering drop bs vss') as Hok'.
    { constructor; try done; [|by rewrite Hv']. unfold batches_ok. by rewrite Hperm. }
    destruct (restore_all _ _ _ os _ _ Hok') as (out & Hout & Hrows). rewrite Hout. exists [[out]]. split_and!; [done|done|].
    cbn. rewrite app_nil_r, Hrows. f_equal. apply requested_perm.
    + rewrite found_offsets by (by eapply offsets_lengths; [apply Hok'|]). apply Hok'.
    + unfold mjoin. by rewrite Hz.
  - rewrite length_map. rewrite firstn_all2 by (rewrite length_map; lia).
    assert (∀ ps vss, lookup_ok (lookup_schema lookup) ordering drop (mjoin ps) vss → ∃ outs,
      map (take_restore (lookup_schema lookup) os ordering drop false) (map (map Ok) ps) = map (map Ok) outs ∧ length outs = length ps ∧
      mjoin (map rows (mjoin outs)) = map (shown (lookup_schema lookup) drop ordering)
        (mjoin (map (λ p, replicate (count os p.1) p.2) (mjoin (zip_with found_in (mjoin ps) vss))))) as Heach.
    { clear Hps Hok ps vss. intros ps. induction ps as [|p ps IH]; intros vss Hok.
      - exists []. split_and!; [done|done|]. destruct Hok as [_ Hvs%Forall2_nil_inv_l _ _ _]. by subst.
      - destruct Hok as [Hbs Hvs Hcol Hnd Hdrop]. rewrite mjoin_cons in Hbs, Hvs.
        apply Forall_app in Hbs as [Hp Hps]. apply Forall2_app_inv_l in Hvs as (v1 & v2 & Hv1 & Hv2 & ->).
        rewrite mjoin_app in Hnd. apply NoDup_app in Hnd as (Hn1 & _ & Hn2).
        destruct (restore_each (lookup_schema lookup) ordering drop os p v1) as (o1 & Ho1 & Hr1); [done|].
        destruct (IH v2) as (o2 & Ho2 & Hl2 & Hr2); [done|]. exists (o1 :: o2).
        split_and!; [by rewrite !map_cons, Ho1, Ho2|by cbn; rewrite Hl2|].
        rewrite !mjoin_cons, map_app, mjoin_app, Hr1, Hr2, zip_with_app by (by eapply Forall2_length).
        by rewrite mjoin_app, map_app, mjoin_app, map_app. }
    destruct (Heach ps vss Hok) as (outs & Ho & Hl & Hr). exists outs. split_and!; [exact Ho|exact Hl|].
    rewrite Hr. apply Permutation_map, repeated_requested.
    rewrite found_offsets; [apply Hok|]. eapply offsets_lengths; [apply Hok|apply Hok].
Qed.

(** C33: A take returns the rows asked for and no others: when the lookup finds
    each of its rows once, the plan above it shows, for every occurrence of an
    offset in the request, the row found there, and nothing for an offset where
    there is none; an ordered take in the order of the request; the column
    that was only read to match them is gone; and the query's own offset and
    limit count occurrences, not distinct rows. *)
Theorem take_returns_requested_rows q os max_batch_length (preserve : bool) schema l lookup ps vss :
  (match select q with SelectAll => table_schema | _ => Ok [] end) = Ok schema →
  prepare_offsets_lookup schema q = Ok l →
  create_lookup_plan (lookup_request l) (if preserve then 0%Z else max_batch_length) = Ok lookup →
  partitions lookup = map (map Ok) ps →
  lookup_ok (lookup_schema lookup) (ordering_column l) (drop_ordering_column l) (mjoin ps) vss →
  (preserve = false → offset q ≠ None ∨ limit q ≠ None → length ps = 1%nat) →
  ∃ plan outs answer, create_take_offsets_plan q os max_batch_length preserve = Ok plan ∧
    execute plan = map (map Ok) outs ∧
    mjoin (map rows (mjoin outs)) = paginate (default 0%Z (offset q)) (limit q) answer ∧
    let asked := map (shown (lookup_schema lookup) (drop_ordering_column l) (ordering_column l))
                   (requested (mjoin (zip_with found_in (mjoin ps) vss)) os) in
    if preserve then answer = asked else answer ≡ₚ asked.
Proof.
  intros Hschema Hl Hlookup Hps Hok Hone. unfold create_take_offsets_plan. rewrite Hschema. cbn [mbind outcome_bind].
  rewrite Hl. cbn [mbind outcome_bind]. rewrite Hlookup. cbn [mbind outcome_bind]. unfold wrap_offsets_plan.
  assert (∃ fs, restored_schema (lookup_schema lookup) (ordering_column l) (drop_ordering_column l) = Ok fs) as [fs ->].
  { unfold restored_schema. destruct (drop_ordering_column l) eqn:Hd; [|by eexists]. rewrite drop_column_ok; [by eexists| |].
    - unfold rb_wf, new_empty. cbn. clear. induction (lookup_schema lookup); constructor; [by split|done].
    - by apply (lookup_others _ _ _ _ _ Hok). }
  cbn [mbind outcome_bind].
  destruct (restored_plan lookup os (ordering_column l) (drop_ordering_column l) preserve ps vss Hps Hok) as (outs & Hout & Hlen & Hrows).
  assert (output_offset l = default 0%Z (offset q) ∧ output_limit l = limit q) as [-> ->].
  { unfold prepare_offsets_lookup in Hl. apply bind_Ok in Hl as ([[q' n] d] & Hq & [= <-]). cbn. unfold request_with_row_offset in Hq.
    destruct q as [li o t f e s sel a r p k n' d' b m]. cbn [set_take_offsets select] in Hq.
    destruct sel as [|cols|cols|cols]; [injection Hq as <- _ _; done|destruct (existsb _ cols); injection Hq as <- _ _; done| |];
      apply bind_Ok in Hq as (? & _ & Hq); by injection Hq as <- _ _. }
  destruct ((0 <? default 0 (offset q))%Z || bool_decide (is_Some (limit q))) eqn:Hpage.
  - assert (length outs = 1%nat) as H1.
    { destruct preserve; [done|]. rewrite Hlen. apply Hone; [done|]. apply orb_true_iff in Hpage as [Hp|Hp%bool_decide_eq_true].
      - left. by destruct (offset q).
      - right. by destruct Hp as [n ->]. }
    destruct outs as [|out [|? ?]]; [done| |done].
    destruct (limit_law (default 0%Z (offset q)) (limit q) out) as (out' & Ho' & Hr').
    eexists _, [out'], (mjoin (map rows (mjoin [out]))). split_and!; [done| | |exact Hrows].
    + change (global_limit (default 0%Z (offset q)) (limit q)
        (execute (TakeRestore (if preserve then CoalescePartitions (Scan lookup) else Scan lookup) os
                    (ordering_column l) (drop_ordering_column l) preserve)) = map (map Ok) [out']).
      rewrite Hout. exact Ho'.
    + cbn. by rewrite !app_nil_r, Hr'.
  - eexists _, outs, (mjoin (map rows (mjoin outs))). split_and!; [done|exact Hout| |exact Hrows].
    apply orb_false_iff in Hpage as [Ho Hf]. destruct (limit q); [done|]. unfold paginate.
    replace (Z.to_nat (default 0%Z (offset q))) with 0%nat by (apply Z.ltb_ge in Ho; lia). done.
Qed.
End properties.

(** ** A table of three rows, scanned in two partitions *)
Module Demo.
#[export] Instance drop_kernel : DropColumn := {| drop_column b name := Ok (drop_named b name) |}.
#[export] Instance drop_laws : DropColumnLaws drop_kernel.
Proof. by constructor. Qed.
#[export] Instance offset_columns : OffsetColumns := {| int64_values c := map (λ _, 0%Z) c; null_slot := 0%Z |}.
#[export] Instance offset_laws : OffsetLaws.
Proof. split; intros; [apply map_app|apply length_map]. Qed.
Definition fields : list Arrow.Field :=
  [Arrow.mkField "id" UInt64 false ∅; Arrow.mkField "_rowoffset" UInt64 false ∅].
Definition batch (ids os : list Z) : RecordBatch := mkRB fields [map CU64 ids; map CU64 os] (length os).
Definition found_batches : list (list RecordBatch) := [[batch [10; 12]%Z [0; 2]%Z]; [batch [11]%Z [1]%Z]].
(** A batch, row by row *)
Definition singles (b : RecordBatch) : list RecordBatch := map (λ i, take_rb b [Z.of_nat i]) (seq 0 (rb_num_rows b)).
#[export] Instance backend : Backend unit := {|
  table_schema := Ok ["id"];
  create_lookup_plan _ _ := Ok tt;
  lookup_schema _ := fields;
  partitions _ := map (map Ok) found_batches;
  coalesce ps := mjoin ps;
  global_limit skip fetch ps :=
    match ps with
    | [items] =>
        match try_collect items with
        | Ok bs => [map Ok (paginate skip fetch (mjoin (map singles bs)))]
        | _ => [items]
        end
    | _ => ps
    end
|}.
Lemma singles_rows b : Forall (λ s, ∃ r, rows s = [r]) (singles b) ∧ mjoin (map rows (singles b)) = rows b.
Proof.
  unfold singles. assert (∀ i, rows (take_rb b [Z.of_nat i]) = [omap (λ c : Arrow.column, c !! i) (rb_columns b)]) as Hone.
  { intros i. unfold rows. cbn. f_equal. remember (Z.to_nat (Z.of_nat i)) as k eqn:Hk.
    rewrite Nat2Z.id in Hk. subst k. induction (rb_columns b) as [|c cs IH]; [done|]. cbn.
    destruct (c !! i); cbn; [f_equal|]; exact IH. }
  split.
  - apply Forall_map, Forall_true. intros i. eexists. apply Hone.
  - change (rows b) with (map (λ i, omap (λ c : Arrow.column, c !! i) (rb_columns b)) (seq 0 (rb_num_rows b))).
    induction (seq 0 (rb_num_rows b)) as [|i l IH]; [done|]. cbn [map]. by rewrite mjoin_cons, Hone, IH.
Qed.
Lemma paginate_map {A C} (g : A → C) skip fetch l : paginate skip fetch (map g l) = map g (paginate skip fetch l).
Proof. unfold paginate. rewrite skipn_map. destruct fetch; [by rewrite firstn_map|done]. Qed.
Lemma rows_of_singles l : Forall (λ s, ∃ r, rows s = [r]) l → mjoin (map rows l) = map (λ s, default [] (rows s !! 0%nat)) l.
Proof. induction 1 as [|s l [r Hr] _ IH]; [done|]. cbn [map]. by rewrite mjoin_cons, IH, Hr. Qed.
#[export] Instance backend_laws : BackendLaws backend.
Proof.
  split.
  - intros ps. exists (mjoin ps). split; [|done]. cbn. induction ps as [|p ps IH]; [done|]. cbn [map].
    by rewrite !mjoin_cons, map_app, IH.
  - intros skip fetch bs. exists (paginate skip fetch (mjoin (map singles bs))). cbn [global_limit backend].
    change (map Ok bs) with (Ok (E := Error) <$> bs). rewrite try_collect_Ok. split; [done|].
    assert (Forall (λ s, ∃ r, rows s = [r]) (mjoin (map singles bs)) ∧ mjoin (map rows (mjoin (map singles bs))) = mjoin (map rows bs)) as [Hf <-].
    { induction bs as [|b bs [IH1 IH2]]; [done|]. cbn [map]. rewrite !mjoin_cons, map_app, mjoin_app, IH2.
      destruct (singles_rows b) as [H1 ->]. split; [by apply Forall_app|done]. }
    rewrite (rows_of_singles _ Hf), paginate_map, rows_of_singles; [done|].
    unfold paginate. destruct fetch; [apply Forall_take|]; by apply Forall_drop.
Qed.
Definition q : QueryRequest := set_offset (Some 1%Z) default_query.
Definition col_expr : ColumnExpr := λ _, SqlText.Literal SqlText.Null None.
Definition lookup : Lookup :=
  mkLookup (set_select (Columns ["id"; "_rowoffset"]) default_query) "_rowoffset" true 1 None.
Definition answer : list (list (list cell)) :=
  match create_take_offsets_plan (CE := col_expr) q [2; 7; 0; 2]%Z 1024 true with
  | Ok plan => map (λ items, match try_collect items with Ok bs => mjoin (map rows bs) | _ => [] end) (execute plan)
  | _ => []
  end.
Lemma lookup_holds : lookup_ok fields "_rowoffset" true (mjoin found_batches) [[0; 2]; [1]]%Z.
Proof.
  split; try done.
  - repeat constructor.
  - repeat constructor.
  - apply (bool_decide_unpack _). vm_compute. exact I.
  - intros _. by constructor.
Qed.
End Demo.

Import Demo.
Lemma take_returns_requested_rows_witness :
  Demo.answer = [[[CU64 10]; [CU64 12]]]%Z ∧
  ∃ plan outs answer, create_take_offsets_plan (CE := Demo.col_expr) Demo.q [2; 7; 0; 2]%Z 1024 true = Ok plan ∧
    execute plan = map (map Ok) outs ∧
    mjoin (map rows (mjoin outs)) = paginate 1 None answer ∧
    answer = map (shown Demo.fields true "_rowoffset")
      (requested (mjoin (zip_with found_in (mjoin Demo.found_batches) [[0; 2]; [1]]))%Z [2; 7; 0; 2]%Z).
Proof.
  split; [vm_compute; reflexivity|].
  destruct (@take_returns_requested_rows ref_kernels ref_laws Demo.drop_kernel Demo.drop_laws Demo.offset_columns Demo.offset_laws
    Demo.col_expr unit Demo.backend Demo.backend_laws Demo.q [2; 7; 0; 2]%Z 1024%Z true ["id"] Demo.lookup tt Demo.found_batches
    [[0; 2]; [1]]%Z) as (plan & outs & answer & Hplan & Hex & Hrows & Hans);
    [reflexivity|vm_compute; reflexivity|reflexivity|reflexivity|exact Demo.lookup_holds|done|].
  by exists plan, outs, answer.
Defined.
End TakeQuery.
