(* ===== verification/LsmRead.v ===== *)
(** * The MemWAL read path (table/query/lsm.rs)

    A query on a table with a write spec reads the base table, the SSTables that
    compaction has not made redundant and the memtables of the open writer, in
    one scan.  Here: the query shapes that are refused, which SSTables a read may
    leave out, and the scan each shape becomes.  Lance's scanner, indexes and
    manifests are parameters; the writer's own snapshot is the one ShardWriter.v
    takes. *)

From Stdlib Require Import Ascii String SpecFloat.
From stdpp Require Import strings gmap sorting.
From S2P Require Import Prelude RustStr RustText Schema ComputedColumns ViewQuery ViewPlan SqlText MemWal Query.

Module LsmRead.
Import SqlText (Expr).
Import ComputedColumns (str_le, str_le_dec).
Import Schema (ArrowSchema, Field, DataType, TFixedSizeList, TOther, TStruct, field_name, field_type, fields).
Import MemWal (Lance, Dataset, LanceSchema, schema_of, arrow_schema, field_of, LanceField, lance_id, unenforced_primary_key,
  MemWalIndexDetails, mem_wal_index_details, maintain_all_indexes, details_maintained, details_defaults,
  compacted_sstables, index_catchup, CompactedSsTable, IndexCatchup, catchup_index, caught_up).
Import Query.
Local Open Scope string_scope.

(** [as i32] *)
Definition as_i32 (v : Z) : Z := let w := (v mod 2 ^ 32)%Z in if (w <? 2 ^ 31)%Z then w else (w - 2 ^ 32)%Z.

(** ** Vector columns (utils/mod.rs) *)
Class VectorTypes : Type := {
  infer_vector_dim : DataType → option Z;
  format_field_path : list string → string
}.
Fixpoint collect_vector_columns `{VectorTypes} (dim : option Z) (path : list string) (f : Field) {struct f} : list string :=
  let 'Schema.mkField name t _ _ := f in
  let path := (path ++ [name])%list in
  let children := match t with TStruct fs => flat_map (collect_vector_columns dim path) fs | _ => [] end in
  match infer_vector_dim t, dim with
  | Some _, None => [format_field_path path]
  | Some d, Some dim => if (as_i32 d =? dim)%Z then [format_field_path path] else children
  | None, _ => children
  end.
Definition default_vector_column `{VectorTypes} (schema : ArrowSchema) (dim : option Z) : result string :=
  match flat_map (collect_vector_columns dim []) (fields schema) with
  | [] => Err (InvalidInput "No vector column found to match with the query vector dimension: {}")
  | [column] => Ok column
  | _ => Err (Prelude.Schema "More than one vector columns found, please specify which column to create index or query: {:?}")
  end.

(** ** What a read looks at *)
Record SsTable : Type := mkSsTable { generation : Z; path : string }.
Record ShardManifest : Type := mkManifest { shard_spec_id : Z; current_generation : Z; sstables : list SsTable }.
Record ShardSnapshot : Type := mkSnapshot {
  shard_id : Z; spec_id : Z; snapshot_generation : Z; snapshot_sstables : list SsTable
}.
(** A memtable: its generation and the columns its full text indexes cover *)
Record MemTable : Type := mkMemTable { memtable_generation : Z; fts_indexed : list string }.
Record InMemoryMemTables : Type := mkMemTables { active : MemTable; frozen : list MemTable }.
(** A segment of an index of the base table *)
Record IndexSegment : Type := mkIndex { index_name : string; index_fields : list Z; type_url : option string; index_uuid : Z }.

Inductive LsmCall : Type :=
  | WithMemtables (shard : Z) (tables : InMemoryMemTables)
  | Project (columns : list string)
  | FilterExpr (e : Expr)
  | Overfetch
  | FullText (f : FullTextSearchQuery)
  | Nearest (column : string) (vector : VectorArray) (k : Z)
  | DistanceMetric (d : DistanceType)
  | MinimumNprobes (n : Z) | ScanNprobes (n : Z) | MaximumNprobes (n : Z) | Refine (n : Z)
  | Limit (limit offset : option Z).

(** ** Missing fields (table/query.rs)

    An error and the errors that caused it: for DataFusion's [FieldNotFound] the
    name of the field as [quoted_flat_name] prints it, and the error's text *)
Inductive ErrorChain : Type :=
  | RootError (missing : option string) (text : string)
  | CausedBy (missing : option string) (text : string) (source : ErrorChain).
Definition shown (e : ErrorChain) : string := match e with RootError _ text | CausedBy _ text _ => text end.
Fixpoint find_missing_field (e : ErrorChain) : option string :=
  match e with
  | RootError missing _ | CausedBy (Some _ as missing) _ _ => missing
  | CausedBy None _ source => find_missing_field source
  end.
Definition format_segment (segment : string) : string := "`" +:+ double_char "`"%char segment +:+ "`".
Fixpoint leaf_paths (prefix : list string) (f : Field) {struct f} : list string :=
  let 'Schema.mkField name t _ _ := f in
  if String.eqb name "" then []
  else
    let prefix := (prefix ++ [name])%list in
    match t with
    | TStruct (c :: cs) => flat_map (leaf_paths prefix) (c :: cs)
    | _ => [String.concat "." (map format_segment prefix)]
    end.
Definition leaf_field_paths (schema : ArrowSchema) : list string := flat_map (leaf_paths []) (fields schema).
Definition field_not_found_error (field : string) (schema : ArrowSchema) : Error :=
  let valid_fields := leaf_field_paths schema in
  InvalidInput ("Schema error: No field named " +:+ field +:+
    match valid_fields with [] => "" | _ => ". Valid fields are " +:+ String.concat ", " valid_fields end +:+ ".").

Class LsmLance `{L : Lance} : Type := {
  ExecutionPlan : Type;
  plan_fields : ExecutionPlan → list string;
  load_indices : Dataset → result (list IndexSegment);
  list_mem_wal_latest_shard_ids : Dataset → result (list Z);
  latest_manifest : Dataset → Z → result (option ShardManifest);
  open_vector_index : Dataset → string → Z → outcome string DistanceType;
  to_dfschema : ArrowSchema → outcome ErrorChain unit;
  parse_sql_expr : ArrowSchema → string → outcome ErrorChain Expr;
  column_refs : Expr → list string;
  column_ends_with : string → string → bool
}.
(** Lance's scanner: the calls made on it, each of which it may refuse *)
Record LsmScanner `{L : Lance} : Type := mkScanner {
  scan_dataset : Dataset; scan_snapshots : list ShardSnapshot; scan_pk : list string; scan_calls : list LsmCall
}.
Class LsmScans `{LL : LsmLance} : Type := {
  accepts : LsmScanner → LsmCall → result unit;
  create_scan_plan : LsmScanner → result ExecutionPlan
}.
(** The plan of a scan, and the columns a projection above it keeps *)
Record LsmPlan `{LL : LsmLance} : Type := mkLsmPlan {
  lsm_scan : LsmScanner; lsm_physical : ExecutionPlan; lsm_kept : option (list (nat * string))
}.

Section lsm.
Context {L : Lance} {LL : LsmLance} {LS : LsmScans} {VT : VectorTypes}.

Definition call (s : LsmScanner) (c : LsmCall) : result LsmScanner :=
  _ ← accepts s c; Ok (mkScanner _ (scan_dataset s) (scan_snapshots s) (scan_pk s) (scan_calls s ++ [c])%list).
Fixpoint calls (s : LsmScanner) (cs : list LsmCall) : result LsmScanner :=
  match cs with [] => Ok s | c :: cs => s ← call s c; calls s cs end.

(** ** Shapes that are refused *)
Definition unsupported (what : string) : result unit :=
  Err (NotSupported ("the MemWAL LSM scanner does not support " +:+ what +:+
    "; set use_memwal(false) to read the base table only (results will exclude un-compacted MemWAL data)")).
Definition is_some {A} (o : option A) : bool := match o with Some _ => true | None => false end.
Definition is_empty {A} (l : list A) : bool := match l with [] => true | _ => false end.
Definition reject_unsupported (q : VectorQueryRequest) : result unit :=
  let vector := negb (is_empty (query_vector q)) in
  let b := base q in
  if (1 <? length (query_vector q))%nat then unsupported "multiple query vectors"
  else if vector && is_some (full_text_search b) then unsupported "hybrid (vector + full-text) search"
  else if with_row_id b then unsupported "with_row_id (the LSM scanner exposes _rowaddr, not a stable _rowid)"
  else if is_some (reranker b) then unsupported "reranking / hybrid search"
  else if is_some (order_by b) then unsupported "order_by"
  else if vector && is_some (search_effort q) then unsupported "search_effort on vector search"
  else if vector && (is_some (lower_bound q) || is_some (upper_bound q)) then unsupported "distance_range on vector search"
  else if vector && negb (use_index q)
  then unsupported "use_index(false) / brute-force vector search (the LSM base arm is index-only)"
  else if (vector || is_some (full_text_search b)) && negb (prefilter b)
  then unsupported "postfilter on vector or full-text search (the LSM scanner always prefilters)"
  else match select b with
  | Dynamic _ | ExprSelect _ => unsupported "dynamic column projection"
  | SelectAll | Columns _ =>
      match filter b with
      | Some (Substrait _) => unsupported "Substrait filters"
      | Some (Datafusion e) =>
          if existsb (λ c, String.eqb c "_rowid" || String.eqb c "_rowoffset") (column_refs e)
          then unsupported "take by row id or row offset (the LSM scanner has no stable _rowid / _rowoffset)"
          else Ok tt
      | _ => Ok tt
      end
  end.
Definition pk_columns (ds : Dataset) : result (list string) :=
  match unenforced_primary_key (schema_of ds) with
  | [] => Err (InvalidInput "the MemWAL LSM scanner requires an unenforced primary key, but the table has none")
  | pk => Ok pk
  end.

(** ** Which SSTables a read may leave out *)
Definition caught_up_for (details : MemWalIndexDetails) (name : string) (shard : Z) : option Z :=
  icp ← List.find (λ i, String.eqb (catchup_index i) name) (index_catchup details); caught_up icp !! shard.
Definition watermark (details : MemWalIndexDetails) (index_names : list string) (entry : CompactedSsTable) : Z :=
  foldl (λ w name, match caught_up_for details name (MemWal.compacted_shard entry) with
                   | Some c => Z.min w c
                   | None => 0%Z
                   end) (MemWal.compacted_generation entry) index_names.
(** [exclude.entry(shard).or_insert(watermark)] *)
Definition exclusion_watermarks (details : MemWalIndexDetails) (index_names : list string) : gmap Z Z :=
  foldl (λ m entry, match m !! MemWal.compacted_shard entry with
                    | Some _ => m
                    | None => <[MemWal.compacted_shard entry := watermark details index_names entry]> m
                    end) ∅ (compacted_sstables details).
Definition snapshot_from_manifest (shard : Z) (m : ShardManifest) (compacted : gmap Z Z) : ShardSnapshot :=
  mkSnapshot shard (shard_spec_id m) (current_generation m)
    (List.filter (λ t, match compacted !! shard with Some w => (w <? generation t)%Z | None => true end) (sstables m)).
(** What the cached writer shows of itself: ShardWriter's [read_snapshot] *)
Definition WriterView : Type := option (Z * option ShardManifest * option InMemoryMemTables).
Definition override_snapshot (s : ShardSnapshot) (snapshots : list ShardSnapshot) : list ShardSnapshot :=
  match list_find (λ x, shard_id x = shard_id s) snapshots with
  | Some (i, _) => <[i := s]> snapshots
  | None => (snapshots ++ [s])%list
  end.
Definition disk_snapshots (ds : Dataset) (exclude : gmap Z Z) (shards : list Z) : result (list ShardSnapshot) :=
  foldl (λ acc shard, acc ← acc; m ← latest_manifest ds shard;
                      Ok (match m with Some m => (acc ++ [snapshot_from_manifest shard m exclude])%list | None => acc end))
    (Ok []) shards.
Definition is_wal_only (details : MemWalIndexDetails) : bool :=
  match details_defaults details !! "enable_memtable" with Some v => String.eqb v "false" | None => false end.
Definition build_read_context (read_snapshot : result WriterView) (ds : Dataset) (details : MemWalIndexDetails)
    (index_names : list string) : result (list ShardSnapshot * list (Z * InMemoryMemTables)) :=
  let exclude := exclusion_watermarks details index_names in
  shards ← list_mem_wal_latest_shard_ids ds;
  snapshots ← disk_snapshots ds exclude shards;
  if is_wal_only details then Ok (snapshots, [])
  else
    view ← read_snapshot;
    Ok (match view with
        | None => (snapshots, [])
        | Some (shard, manifest, memtables) =>
            (match manifest with
             | Some m => override_snapshot (snapshot_from_manifest shard m exclude) snapshots
             | None => snapshots
             end,
             match memtables with Some tables => [(shard, tables)] | None => [] end)
        end).

(** ** The index a search relies on *)
Definition spec_maintains (details : MemWalIndexDetails) (name : string) : bool :=
  maintain_all_indexes details || existsb (λ n, String.eqb n name) (details_maintained details).
Definition has_type (suffix : string) (i : IndexSegment) : bool :=
  match type_url i with Some u => column_ends_with suffix u | None => false end.
Definition covers_field (f : LanceField) (i : IndexSegment) : bool := existsb (Z.eqb (lance_id f)) (index_fields i).
Definition index_maintained (ds : Dataset) (column : string) (details : MemWalIndexDetails) (suffix : string) : result bool :=
  match field_of (schema_of ds) column with
  | None => Ok false
  | Some f =>
      indices ← load_indices ds;
      Ok (existsb (λ i, covers_field f i && spec_maintains details (index_name i) && has_type suffix i) indices)
  end.
Definition resident_memtables_carry (in_memory : list (Z * InMemoryMemTables)) (carries : MemTable → bool) : bool :=
  forallb (λ t : Z * InMemoryMemTables, carries (active t.2) && forallb carries (frozen t.2)) in_memory.
Definition sorted_dedup (l : list string) : list string := dedup (merge_sort str_le l).
Definition resolve_single_index (names : list string) (details : MemWalIndexDetails) (arm column : string) : result (option string) :=
  match sorted_dedup names with
  | [] => Ok None
  | [name] => Ok (if spec_maintains details name then Some name else None)
  | _ => Err (NotSupported ("the MemWAL LSM scanner cannot resolve the " +:+ arm +:+ " index catch-up watermark for '" +:+ column +:+
      "': it has multiple " +:+ arm +:+ " indexes; set use_memwal(false) to read the base table only"))
  end.
Definition vector_column (ds : Dataset) (q : VectorQueryRequest) : result string :=
  match column q with
  | Some c => Ok c
  | None => default_vector_column (arrow_schema (schema_of ds))
              ((λ v, as_i32 (Z.of_nat (length (values v)))) <$> head (query_vector q))
  end.
Definition arm_index (ds : Dataset) (details : MemWalIndexDetails) (indices : list IndexSegment) (arm : string * string * string)
    : result (list string) :=
  let '(column, type_url_suffix, label) := arm in
  match field_of (schema_of ds) column with
  | None => Ok []
  | Some f =>
      let segments := List.filter (λ i, covers_field f i && has_type type_url_suffix i) indices in
      name ← resolve_single_index (map index_name segments) details label column;
      Ok (match name with Some n => [n] | None => [] end)
  end.
Definition arm_maintained_index_names (ds : Dataset) (q : VectorQueryRequest) (details : MemWalIndexDetails) : result (list string) :=
  vector ← (if is_empty (query_vector q) then Ok [] else c ← vector_column ds q; Ok [(c, "VectorIndexDetails", "vector")]);
  let fts := match full_text_search (base q) with
             | Some f => match fts_columns f with c :: _ => [(c, "InvertedIndexDetails", "full-text")] | [] => [] end
             | None => []
             end in
  match (vector ++ fts)%list with
  | [] => Ok []
  | arms =>
      indices ← load_indices ds;
      names ← try_map (arm_index ds details indices) arms;
      Ok (sorted_dedup (mjoin names))
  end.

(** ** The scans *)
Definition enrich_filter_error (schema : ArrowSchema) (context : string) (e : ErrorChain) : Error :=
  match find_missing_field e with
  | Some field => field_not_found_error field schema
  | None => InvalidInput (context +:+ ": " +:+ shown e)
  end.
Definition as_i64 (v : option Z) : option Z := Prelude.as_i64 <$> v.
Definition base_scanner (ds : Dataset) (q : VectorQueryRequest) (pk : list string) (snapshots : list ShardSnapshot)
    (in_memory : list (Z * InMemoryMemTables)) : result LsmScanner :=
  s ← calls (mkScanner _ ds snapshots pk []) (map (λ t : Z * InMemoryMemTables, WithMemtables t.1 t.2) in_memory);
  s ← (match select (base q) with Columns cs => call s (Project cs) | _ => Ok s end);
  match filter (base q) with
  | None => Ok s
  | Some (Sql sql) =>
      let schema := arrow_schema (schema_of ds) in
      _ ← map_err (enrich_filter_error schema "Failed to create DFSchema") (to_dfschema schema);
      e ← map_err (enrich_filter_error schema "Failed to parse filter expression") (parse_sql_expr schema sql);
      call s (FilterExpr e)
  | Some (Datafusion e) => call s (FilterExpr e)
  | Some (Substrait _) =>
      Err (NotSupported "the MemWAL LSM scanner does not support Substrait filters; set use_memwal(false) to read the base table only")
  end.
Definition scan_of (s : LsmScanner) : result LsmPlan := p ← create_scan_plan s; Ok (mkLsmPlan _ _ s p None).
Definition plain_plan (ds : Dataset) (q : VectorQueryRequest) (pk : list string) (snapshots : list ShardSnapshot)
    (in_memory : list (Z * InMemoryMemTables)) : result LsmPlan :=
  s ← base_scanner ds q pk snapshots in_memory;
  s ← call s (Limit (as_i64 (limit (base q))) (as_i64 (offset (base q))));
  scan_of s.
Definition fts_plan (ds : Dataset) (fts : FullTextSearchQuery) (q : VectorQueryRequest) (details : MemWalIndexDetails)
    (pk : list string) (snapshots : list ShardSnapshot) (in_memory : list (Z * InMemoryMemTables)) : result LsmPlan :=
  match fts_columns fts with
  | [] => Err (NotSupported "the MemWAL LSM scanner full-text search requires an explicit FTS column")
  | _ :: _ :: _ => Err (NotSupported "the MemWAL LSM scanner full-text search supports a single column; set use_memwal(false) to read the base table only")
  | [column] =>
      maintained ← index_maintained ds column details "InvertedIndexDetails";
      if negb maintained || negb (resident_memtables_carry in_memory (λ m, existsb (String.eqb column) (fts_indexed m)))
      then Err (NotSupported ("the MemWAL LSM scanner full-text search requires the FTS index on '" +:+ column +:+ "' to be maintained by the write spec (MemWalWriteSpec::with_maintained_indexes) and carried by every resident MemTable; otherwise un-compacted documents are omitted. set use_memwal(false) to read the base table only"))
      else
        s ← base_scanner ds q pk snapshots in_memory;
        s ← calls s [Overfetch; FullText fts; Limit (as_i64 (limit (base q))) (as_i64 (offset (base q)))];
        scan_of s
  end.
Definition is_binary_vector_column (schema : ArrowSchema) (column : string) : bool :=
  match List.find (λ f, String.eqb (field_name f) column) (fields schema) with
  | Some f => match field_type f with
              | TFixedSizeList child _ => match field_type child with TOther n => String.eqb n "UInt8" | _ => false end
              | _ => false
              end
  | None => false
  end.
Fixpoint index_metric (ds : Dataset) (column : string) (f : LanceField) (indices : list IndexSegment) : result DistanceType :=
  match indices with
  | [] => Ok L2
  | i :: indices =>
      if covers_field f i
      then match open_vector_index ds column (index_uuid i) with
           | Ok d => Ok d
           | Err _ => index_metric ds column f indices
           | Panic => Panic
           end
      else index_metric ds column f indices
  end.
Definition resolve_distance_type (ds : Dataset) (q : VectorQueryRequest) (column : string) : result DistanceType :=
  match distance_type q with
  | Some d => Ok d
  | None =>
      match field_of (schema_of ds) column with
      | Some f => indices ← load_indices ds; index_metric ds column f indices
      | None => Ok L2
      end
  end.
Definition probe_calls (q : VectorQueryRequest) : list LsmCall :=
  (match nprobes q with
   | Some n => if bool_decide (maximum_nprobes q = Some 0%Z) then [MinimumNprobes n] else [ScanNprobes n]
   | None => []
   end ++
   match minimum_nprobes q with Some n => [MinimumNprobes n] | None => [] end ++
   match maximum_nprobes q with Some n => if (n =? 0)%Z then [] else [MaximumNprobes n] | None => [] end)%list.
Definition vector_plan (ds : Dataset) (q : VectorQueryRequest) (details : MemWalIndexDetails) (pk : list string)
    (snapshots : list ShardSnapshot) (in_memory : list (Z * InMemoryMemTables)) : result LsmPlan :=
  vector ← ok_or (InvalidInput "vector search requires a query vector") (head (query_vector q));
  column ← vector_column ds q;
  maintained ← index_maintained ds column details "VectorIndexDetails";
  if negb maintained
  then Err (NotSupported ("the MemWAL LSM scanner requires the vector index on '" +:+ column +:+ "' to be maintained by the write spec (MemWalWriteSpec::with_maintained_indexes); otherwise compacted rows not yet re-indexed are omitted. set use_memwal(false) to read the base table only"))
  else if is_binary_vector_column (arrow_schema (schema_of ds)) column
  then Err (NotSupported "the MemWAL LSM scanner does not support binary (uint8) vector search; set use_memwal(false) to read the base table only")
  else
    distance ← resolve_distance_type ds q column;
    let k := Z.max (default DEFAULT_TOP_K (limit (base q))) 1 in
    s ← base_scanner ds q pk snapshots in_memory;
    s ← calls s ([Overfetch; Nearest column vector k; DistanceMetric distance] ++ probe_calls q ++
                 match refine_factor q with Some r => [Refine r] | None => [] end ++
                 [Limit (as_i64 (limit (base q))) (as_i64 (offset (base q)))])%list;
    scan_of s.
(** The columns that stay: all but the key columns that were not asked for *)
Definition restore_projection (p : LsmPlan) (q : VectorQueryRequest) (pk : list string) : LsmPlan :=
  match select (base q) with
  | Columns selected =>
      let fields := plan_fields (lsm_physical p) in
      let keep := List.filter (λ f : nat * string, existsb (String.eqb f.2) selected || negb (existsb (String.eqb f.2) pk))
                    (imap pair fields) in
      if (length keep =? length fields)%nat then p else mkLsmPlan _ _ (lsm_scan p) (lsm_physical p) (Some keep)
  | _ => p
  end.
Definition create_lsm_plan (time_travel : option Z) (read_snapshot : result WriterView) (ds : Dataset)
    (q : VectorQueryRequest) : result LsmPlan :=
  _ ← reject_unsupported q;
  if is_some time_travel
  then Err (NotSupported "the MemWAL LSM scanner cannot read from a time-traveled dataset version; set use_memwal(false) to read the base table at this version")
  else
    details ← mem_wal_index_details ds;
    details ← ok_or (Runtime "the MemWAL write spec disappeared during read planning") details;
    pk ← pk_columns ds;
    arm_indexes ← arm_maintained_index_names ds q details;
    context ← build_read_context read_snapshot ds details arm_indexes;
    let '(snapshots, in_memory) := context in
    plan ← (if negb (is_empty (query_vector q)) then vector_plan ds q details pk snapshots in_memory
            else match full_text_search (base q) with
                 | Some fts => fts_plan ds fts q details pk snapshots in_memory
                 | None => plain_plan ds q pk snapshots in_memory
                 end);
    Ok (restore_projection plan q pk).
End lsm.

(** * What a read covers *)
Section coverage.
Context {L : Lance} {LL : LsmLance} {LS : LsmScans} {VT : VectorTypes}.

(** The base table shows generation [g] of a shard to a search by [names]: it is
    compacted, and every one of the indexes has caught up with it. *)
Definition base_covers (details : MemWalIndexDetails) (names : list string) (shard g : Z) : Prop :=
  ∃ entry, List.find (λ e, (MemWal.compacted_shard e =? shard)%Z) (compacted_sstables details) = Some entry ∧
    (g ≤ MemWal.compacted_generation entry)%Z ∧
    ∀ name, name ∈ names → ∃ c, caught_up_for details name shard = Some c ∧ (g ≤ c)%Z.

Lemma watermark_spec details names entry g : (0 < g)%Z →
  (g ≤ watermark details names entry)%Z ↔ (g ≤ MemWal.compacted_generation entry)%Z ∧
    ∀ name, name ∈ names → ∃ c, caught_up_for details name (MemWal.compacted_shard entry) = Some c ∧ (g ≤ c)%Z.
Proof.
  intros Hg. unfold watermark. generalize (MemWal.compacted_generation entry) as w. induction names as [|n names IH]; intros w; cbn [foldl].
  { split; [|by intros [? _]]. intros H. split; [done|]. by intros ? ?%elem_of_nil. }
  rewrite IH. setoid_rewrite elem_of_cons. destruct (caught_up_for details n _) as [c|] eqn:Hc.
  - rewrite Z.min_glb_iff. split.
    + intros [[Hw Hgc] Hall]. split; [done|]. intros name [->|Hin]; [by exists c|by apply Hall].
    + intros [Hw Hall]. destruct (Hall n (or_introl eq_refl)) as (c' & Hc' & Hle). rewrite Hc in Hc'. injection Hc' as <-.
      split; [done|]. intros name Hin. apply Hall. by right.
  - split; [lia|]. intros [_ Hall]. destruct (Hall n (or_introl eq_refl)) as (c' & Hc' & _). congruence.
Qed.
Lemma exclusion_lookup details names shard :
  exclusion_watermarks details names !! shard =
    watermark details names <$> List.find (λ e, (MemWal.compacted_shard e =? shard)%Z) (compacted_sstables details).
Proof.
  unfold exclusion_watermarks. assert (∀ (m : gmap Z Z) l, foldl (λ m entry, match m !! MemWal.compacted_shard entry with
      | Some _ => m | None => <[MemWal.compacted_shard entry := watermark details names entry]> m end) m l !! shard =
    match m !! shard with Some w => Some w | None => watermark details names <$> List.find (λ e, (MemWal.compacted_shard e =? shard)%Z) l end) as H.
  2: { rewrite H, lookup_empty. done. }
  intros m l. revert m. induction l as [|e l IH]; intros m; cbn [foldl List.find]; [by destruct (m !! shard)|].
  rewrite IH. clear IH. destruct (Z.eqb_spec (MemWal.compacted_shard e) shard) as [He|He].
  - rewrite He. destruct (m !! shard) as [w|] eqn:Hm; [by rewrite Hm|]. by rewrite lookup_insert_eq.
  - destruct (m !! MemWal.compacted_shard e); [done|]. by rewrite lookup_insert_ne.
Qed.
(** An SSTable is left out of a snapshot exactly when the base table covers it. *)
Lemma snapshot_keeps details names shard m t : t ∈ sstables m → (0 < generation t)%Z →
  t ∈ snapshot_sstables (snapshot_from_manifest shard m (exclusion_watermarks details names)) ↔
    ¬ base_covers details names shard (generation t).
Proof.
  intros Ht Hg. cbn [snapshot_sstables snapshot_from_manifest]. rewrite list_elem_of_In, filter_In, <-list_elem_of_In.
  rewrite exclusion_lookup. unfold base_covers. destruct (List.find _ _) as [entry|] eqn:Hf; cbn.
  - assert (MemWal.compacted_shard entry = shard) as Hs by (apply find_some in Hf as [_ Hf]; lia).
    pose proof (watermark_spec details names entry (generation t) Hg) as Hw. rewrite Hs in Hw. split.
    + intros [_ Hlt] (e & [= <-] & Hle & Hall). assert (generation t ≤ watermark details names entry)%Z by (by apply Hw). lia.
    + intros Hn. split; [done|]. apply Z.ltb_lt. destruct (Z.lt_ge_cases (watermark details names entry) (generation t)) as [?|Hge]; [done|].
      exfalso. apply Hn. exists entry. apply Hw in Hge as [H1 H2]. by split_and!.
  - split; [|by split]. by intros _ (e & ? & _).
Qed.

(** ** The manifests a read sees *)
Definition writer_manifest (read_snapshot : result WriterView) (details : MemWalIndexDetails) : option (Z * ShardManifest) :=
  if is_wal_only details then None
  else match read_snapshot with Ok (Some (shard, Some m, _)) => Some (shard, m) | _ => None end.
Definition sees (read_snapshot : result WriterView) (ds : Dataset) (details : MemWalIndexDetails) (shard : Z) (m : ShardManifest) : Prop :=
  writer_manifest read_snapshot details = Some (shard, m) ∨
  ((∃ shards, list_mem_wal_latest_shard_ids ds = Ok shards ∧ shard ∈ shards) ∧ latest_manifest ds shard = Ok (Some m) ∧
   ∀ m', writer_manifest read_snapshot details ≠ Some (shard, m')).
Lemma disk_snapshots_spec ds exclude shards snapshots : disk_snapshots ds exclude shards = Ok snapshots →
  ∀ shard m, shard ∈ shards → latest_manifest ds shard = Ok (Some m) → snapshot_from_manifest shard m exclude ∈ snapshots.
Proof.
  unfold disk_snapshots. assert (∀ acc, foldl (λ acc shard, acc ← acc; m ← latest_manifest ds shard;
      Ok (match m with Some m => (acc ++ [snapshot_from_manifest shard m exclude])%list | None => acc end)) (Ok acc) shards = Ok snapshots →
    (∀ x, x ∈ acc → x ∈ snapshots) ∧ ∀ shard m, shard ∈ shards → latest_manifest ds shard = Ok (Some m) →
      snapshot_from_manifest shard m exclude ∈ snapshots) as H.
  2: { intros Hd. by apply (H []). }
  induction shards as [|s shards IH]; intros acc; cbn [foldl].
  { intros [= ->]. split; [done|]. by intros ? ? ?%elem_of_nil. }
  cbn [mbind outcome_bind]. destruct (latest_manifest ds s) as [o|e|] eqn:Hm; cbn [mbind outcome_bind].
  - intros H. apply IH in H as [H1 H2]. split.
    + intros x Hx. apply H1. destruct o; [apply elem_of_app; by left|done].
    + intros shard m [->|Hin]%elem_of_cons Hl; [|by apply H2]. rewrite Hm in Hl. injection Hl as ->.
      apply H1, elem_of_app. right. by apply list_elem_of_singleton.
  - assert (∀ l, foldl (λ acc shard, acc ← acc; m ← latest_manifest ds shard;
      Ok (match m with Some m => (acc ++ [snapshot_from_manifest shard m exclude])%list | None => acc end)) (Err e) l = Err e) as ->
      by (by induction l). done.
  - assert (∀ l, foldl (λ acc shard, acc ← acc; m ← latest_manifest ds shard;
      Ok (match m with Some m => (acc ++ [snapshot_from_manifest shard m exclude])%list | None => acc end)) Panic l = Panic) as ->
      by (by induction l). done.
Qed.
Lemma override_keeps s snapshots : s ∈ override_snapshot s snapshots ∧
  ∀ x, x ∈ snapshots → shard_id x ≠ shard_id s → x ∈ override_snapshot s snapshots.
Proof.
  unfold override_snapshot. destruct (list_find _ snapshots) as [[i y]|] eqn:Hf.
  - apply list_find_Some in Hf as (Hi & Hy & _). pose proof (lookup_lt_Some _ _ _ Hi) as Hlt. split.
    + apply list_elem_of_lookup. exists i. by apply list_lookup_insert_eq.
    + intros x [j Hj]%list_elem_of_lookup Hx. apply list_elem_of_lookup. exists j.
      rewrite list_lookup_insert_ne; [done|]. intros ->. congruence.
  - split; [apply elem_of_app; right; by apply list_elem_of_singleton|]. intros x Hx _. apply elem_of_app. by left.
Qed.
Lemma read_context_sees view ds details names snapshots in_memory :
  build_read_context view ds details names = Ok (snapshots, in_memory) →
  (∀ shard m, sees view ds details shard m → snapshot_from_manifest shard m (exclusion_watermarks details names) ∈ snapshots) ∧
  (∀ shard m tables, is_wal_only details = false → view = Ok (Some (shard, m, Some tables)) → in_memory = [(shard, tables)]).
Proof.
  unfold build_read_context. intros (shards & Hshards & H)%bind_Ok. apply bind_Ok in H as (disk & Hdisk & H).
  pose proof (disk_snapshots_spec _ _ _ _ Hdisk) as Hd. unfold sees, writer_manifest. destruct (is_wal_only details).
  - injection H as <- <-. split; [|done]. intros shard m [?|((shards' & Hs & Hin) & Hl & _)]; [done|].
    rewrite Hshards in Hs. injection Hs as <-. by apply Hd.
  - apply bind_Ok in H as (v & -> & H). split.
    + intros shard m [Hw|((shards' & Hs & Hin) & Hl & Hn)].
      * destruct v as [[[s' [m'|]] mem]|]; try done. injection Hw as <- <-. injection H as <- _.
        exact (proj1 (override_keeps _ _)).
      * rewrite Hshards in Hs. injection Hs as <-. specialize (Hd _ _ Hin Hl). destruct v as [[[s' [m'|]] mem]|]; injection H as <- _; try done.
        apply (proj2 (override_keeps _ _)); [done|]. cbn. intros ->. by apply (Hn m').
    + intros shard m tables _ [= ->]. by injection H as _ <-.
Qed.

(** ** The scan *)
Lemma call_spec s c s' : call s c = Ok s' →
  scan_snapshots s' = scan_snapshots s ∧ scan_calls s' = (scan_calls s ++ [c])%list ∧ scan_dataset s' = scan_dataset s.
Proof. unfold call. by intros (u & _ & [= <-])%bind_Ok. Qed.
Lemma calls_spec cs s s' : calls s cs = Ok s' →
  scan_snapshots s' = scan_snapshots s ∧ scan_calls s' = (scan_calls s ++ cs)%list ∧ scan_dataset s' = scan_dataset s.
Proof.
  revert s. induction cs as [|c cs IH]; intros s; cbn [calls]; [intros [= <-]; by rewrite app_nil_r|].
  intros (s1 & (H1 & H2 & H3)%call_spec & (H4 & H5 & H6)%IH)%bind_Ok. rewrite H4, H5, H6, H1, H2, H3, <-app_assoc. done.
Qed.
(** Every scan starts from the snapshots and memtables of its context. *)
Definition scans (ds : Dataset) (snapshots : list ShardSnapshot) (in_memory : list (Z * InMemoryMemTables)) (s : LsmScanner) : Prop :=
  scan_dataset s = ds ∧ scan_snapshots s = snapshots ∧
  ∃ rest, scan_calls s = (map (λ t : Z * InMemoryMemTables, WithMemtables t.1 t.2) in_memory ++ rest)%list.
Lemma scans_call ds snapshots in_memory s c s' : scans ds snapshots in_memory s → call s c = Ok s' → scans ds snapshots in_memory s'.
Proof.
  intros (H1 & H2 & rest & H3) (H4 & H5 & H6)%call_spec. unfold scans. rewrite H4, H5, H6, H3. split_and!; try done.
  exists (rest ++ [c])%list. by rewrite app_assoc.
Qed.
Lemma scans_calls ds snapshots in_memory cs s s' : scans ds snapshots in_memory s → calls s cs = Ok s' → scans ds snapshots in_memory s'.
Proof.
  revert s. induction cs as [|c cs IH]; intros s Hs; cbn [calls]; [by intros [= <-]|].
  intros (s1 & H1 & H2)%bind_Ok. eapply IH; [by eapply scans_call|exact H2].
Qed.
Lemma base_scanner_scans ds q pk snapshots in_memory s : base_scanner ds q pk snapshots in_memory = Ok s →
  scans ds snapshots in_memory s.
Proof.
  unfold base_scanner. intros (s1 & (H1 & H2 & H3)%calls_spec & H)%bind_Ok. apply bind_Ok in H as (s2 & Hp & H).
  assert (scans ds snapshots in_memory s1) as Hs1 by (split_and!; [done|done|]; exists []; by rewrite app_nil_r).
  assert (scans ds snapshots in_memory s2) as Hs2 by (destruct (select (base q)); try (by injection Hp as <-); by eapply scans_call).
  destruct (filter (base q)) as [[sql|p|e]|]; [|done| |by injection H as <-].
  - apply bind_Ok in H as (u & _ & H). apply bind_Ok in H as (e & _ & H). by eapply scans_call.
  - by eapply scans_call.
Qed.
Lemma scan_of_scans ds snapshots in_memory s p : scans ds snapshots in_memory s → scan_of s = Ok p →
  scans ds snapshots in_memory (lsm_scan p).
Proof. unfold scan_of. by intros Hs (e & _ & [= <-])%bind_Ok. Qed.
Lemma restore_scan p q pk : lsm_scan (restore_projection p q pk) = lsm_scan p.
Proof. unfold restore_projection. destruct (select (base q)); try done. by case_match. Qed.

(** ** The index of a search *)
Lemma sorted_dedup_elem l x : x ∈ sorted_dedup l ↔ x ∈ l.
Proof. unfold sorted_dedup. by rewrite elem_of_dedup, (merge_sort_Permutation str_le). Qed.
(** A search of [column] by indexes of a type relies on [names]: one of them is
    maintained and is the only one of its type that covers the column. *)
Definition relies_on (ds : Dataset) (details : MemWalIndexDetails) (names : list string) (column suffix : string) : Prop :=
  ∃ f indices name, field_of (schema_of ds) column = Some f ∧ load_indices ds = Ok indices ∧ name ∈ names ∧
    spec_maintains details name = true ∧
    ∀ i, i ∈ indices → covers_field f i = true → has_type suffix i = true → index_name i = name.
Lemma index_maintained_Ok ds column details suffix : index_maintained ds column details suffix = Ok true →
  ∃ f indices i, field_of (schema_of ds) column = Some f ∧ load_indices ds = Ok indices ∧ i ∈ indices ∧
    covers_field f i = true ∧ spec_maintains details (index_name i) = true ∧ has_type suffix i = true.
Proof.
  unfold index_maintained. destruct (field_of (schema_of ds) column) as [f|]; [|done].
  intros (indices & Hi & [= (i & Hin & H)%existsb_exists])%bind_Ok. exists f, indices, i.
  apply andb_true_iff in H as [[H1 H2]%andb_true_iff H3]. split_and!; try done. by apply list_elem_of_In.
Qed.
Lemma arm_relies ds details indices names column suffix label : load_indices ds = Ok indices →
  arm_index ds details indices (column, suffix, label) = Ok names →
  index_maintained ds column details suffix = Ok true → relies_on ds details names column suffix.
Proof.
  intros Hl Ha (f & indices' & i & Hf & Hl' & Hi & Hc & Hm & Ht)%index_maintained_Ok.
  rewrite Hl in Hl'. injection Hl' as <-. unfold arm_index in Ha. rewrite Hf in Ha.
  apply bind_Ok in Ha as (o & Hr & [= <-]). unfold resolve_single_index in Hr.
  set (segments := List.filter _ indices) in *.
  assert (∀ j, j ∈ indices → covers_field f j = true → has_type suffix j = true →
    index_name j ∈ sorted_dedup (map index_name segments)) as Hseg.
  { intros j Hj Hcj Htj. apply sorted_dedup_elem, list_elem_of_fmap. exists j. split; [done|].
    apply list_elem_of_In, filter_In. split; [by apply list_elem_of_In|]. by rewrite Hcj, Htj. }
  pose proof (Hseg i Hi Hc Ht) as Hni. destruct (sorted_dedup _) as [|name [|]]; [by apply elem_of_nil in Hni| |done].
  apply list_elem_of_singleton in Hni as Hni. rewrite Hni in Hm. rewrite Hm in Hr. injection Hr as <-.
  exists f, indices, name. split_and!; try done; [by apply list_elem_of_singleton|].
  intros j Hj Hcj Htj. by apply list_elem_of_singleton, Hseg.
Qed.
Lemma relies_on_weaken ds details names names' column suffix : (∀ n, n ∈ names → n ∈ names') →
  relies_on ds details names column suffix → relies_on ds details names' column suffix.
Proof. intros Hsub (f & idx & n & ? & ? & ? & ? & ?). exists f, idx, n. split_and!; try done. by apply Hsub. Qed.
Lemma arms_rely ds details indices arms nested column suffix label : load_indices ds = Ok indices →
  try_map (arm_index ds details indices) arms = Ok nested → (column, suffix, label) ∈ arms →
  index_maintained ds column details suffix = Ok true → relies_on ds details (sorted_dedup (mjoin nested)) column suffix.
Proof.
  intros Hl H%try_map_Ok [k Hk]%list_elem_of_lookup Hm.
  destruct (Forall2_lookup_l _ _ _ _ _ H Hk) as (names & Hn & Ha). eapply relies_on_weaken; [|by eapply arm_relies].
  intros n Hin. apply sorted_dedup_elem, list_elem_of_join. exists names. split; [done|]. by eapply list_elem_of_lookup_2.
Qed.
Lemma vector_arm_relies ds q details names column : query_vector q ≠ [] → vector_column ds q = Ok column →
  arm_maintained_index_names ds q details = Ok names →
  index_maintained ds column details "VectorIndexDetails" = Ok true → relies_on ds details names column "VectorIndexDetails".
Proof.
  unfold arm_maintained_index_names. intros Hq Hc. destruct (query_vector q) eqn:E; [done|]. cbn [is_empty]. rewrite Hc. cbn [mbind outcome_bind].
  intros (indices & Hl & (nested & Ht & [= <-])%bind_Ok)%bind_Ok. eapply arms_rely; [done|exact Ht|]. by left.
Qed.
Lemma fts_arm_relies ds q details names fts column rest : query_vector q = [] → full_text_search (base q) = Some fts →
  fts_columns fts = column :: rest → arm_maintained_index_names ds q details = Ok names →
  index_maintained ds column details "InvertedIndexDetails" = Ok true → relies_on ds details names column "InvertedIndexDetails".
Proof.
  unfold arm_maintained_index_names. intros -> -> ->. cbn [is_empty app mbind outcome_bind].
  intros (indices & Hl & (nested & Ht & [= <-])%bind_Ok)%bind_Ok. eapply arms_rely; [done|exact Ht|]. by left.
Qed.

(** ** What each kind of plan went through *)
Definition carries_column (column : string) (t : InMemoryMemTables) : Prop :=
  ∀ m, m = active t ∨ m ∈ frozen t → column ∈ fts_indexed m.
Lemma carry_spec in_memory column :
  resident_memtables_carry in_memory (λ m, existsb (String.eqb column) (fts_indexed m)) = true →
  ∀ shard tables, (shard, tables) ∈ in_memory → carries_column column tables.
Proof.
  assert (∀ l, existsb (String.eqb column) l = true → column ∈ l) as He.
  { intros l (x & Hx & <-%String.eqb_eq)%existsb_exists. by apply list_elem_of_In. }
  unfold resident_memtables_carry. rewrite forallb_forall. intros H shard tables Hin%list_elem_of_In%H.
  apply andb_true_iff in Hin as [Ha Hf]. rewrite forallb_forall in Hf. intros m [->|Hm]; apply He; [done|].
  by apply Hf, list_elem_of_In.
Qed.
Lemma vector_plan_Ok ds q details pk snapshots in_memory p : vector_plan ds q details pk snapshots in_memory = Ok p →
  scans ds snapshots in_memory (lsm_scan p) ∧
  ∃ column, vector_column ds q = Ok column ∧ index_maintained ds column details "VectorIndexDetails" = Ok true.
Proof.
  unfold vector_plan. intros (v & _ & (column & Hc & (b & Hm & H)%bind_Ok)%bind_Ok)%bind_Ok. destruct b; [|done]. cbn [negb] in H.
  destruct (is_binary_vector_column _ _); [done|]. split; [|by exists column].
  apply bind_Ok in H as (d & _ & (s1 & H1%base_scanner_scans & (s2 & H2 & H)%bind_Ok)%bind_Ok).
  eapply scan_of_scans; [|exact H]. by eapply scans_calls.
Qed.
Lemma fts_plan_Ok ds fts q details pk snapshots in_memory p : fts_plan ds fts q details pk snapshots in_memory = Ok p →
  scans ds snapshots in_memory (lsm_scan p) ∧
  ∃ column, fts_columns fts = [column] ∧ index_maintained ds column details "InvertedIndexDetails" = Ok true ∧
    ∀ shard tables, (shard, tables) ∈ in_memory → carries_column column tables.
Proof.
  unfold fts_plan. destruct (fts_columns fts) as [|column [|]]; try done. intros (b & Hm & H)%bind_Ok.
  destruct (negb b || _) eqn:Hg; [done|]. apply orb_false_iff in Hg as [->%negb_false_iff Hr%negb_false_iff]. split.
  - apply bind_Ok in H as (s1 & H1%base_scanner_scans & (s2 & H2 & H)%bind_Ok). eapply scan_of_scans; [|exact H]. by eapply scans_calls.
  - exists column. split_and!; try done. by apply carry_spec.
Qed.
Lemma plain_plan_Ok ds q pk snapshots in_memory p : plain_plan ds q pk snapshots in_memory = Ok p →
  scans ds snapshots in_memory (lsm_scan p).
Proof.
  unfold plain_plan. intros (s1 & H1%base_scanner_scans & (s2 & H2 & H)%bind_Ok)%bind_Ok. eapply scan_of_scans; [|exact H].
  by eapply scans_call.
Qed.
(** What a search by the plan's query relies on *)
Definition search_served (view : result WriterView) (ds : Dataset) (q : VectorQueryRequest) (details : MemWalIndexDetails)
    (names : list string) : Prop :=
  match query_vector q, full_text_search (base q) with
  | _ :: _, _ => ∃ column, vector_column ds q = Ok column ∧ relies_on ds details names column "VectorIndexDetails"
  | [], Some fts => ∃ column, fts_columns fts = [column] ∧ relies_on ds details names column "InvertedIndexDetails" ∧
      ∀ shard m tables, is_wal_only details = false → view = Ok (Some (shard, m, Some tables)) → carries_column column tables
  | [], None => names = []
  end.

(** The indexes that gate a search do not depend on its filter: the scalar
    indexes that a prefilter uses are not collected. *)
Lemma prefilter_not_collected ds q q' details :
  query_vector q' = query_vector q → full_text_search (base q') = full_text_search (base q) → column q' = column q →
  arm_maintained_index_names ds q' details = arm_maintained_index_names ds q details.
Proof. intros Hv Hf Hc. unfold arm_maintained_index_names, vector_column. by rewrite Hv, Hf, Hc. Qed.
(** The scalar indexes that a search relies on for its filter, as a planner
    chooses them *)
Definition prefilter_indexes (chosen : QueryFilter → list string) (q : VectorQueryRequest) : list string :=
  match filter (base q) with
  | Some f => if negb (is_empty (query_vector q)) || is_some (full_text_search (base q)) then chosen f else []
  | None => []
  end.

(** C35: a MemWAL read leaves no generation out: whenever a plan is made for a scan
    or for a search without a filter, every
    SSTable of every manifest the read sees, the writer's own in place of the
    one on disk, is in the snapshot of its shard exactly when the base table
    does not cover it, that is when it is not compacted or an index the search
    relies on has not caught up with it; the memtables of the open writer are
    part of the scan; and a search relies on the one index of its type on its
    column, which the write spec maintains, and for full text search every
    resident memtable carries.  A filtered search may rely on the scalar
    indexes of its prefilter too, and the code does not gate on those. *)
Theorem no_generation_falls_between chosen tt view ds q p :
  (query_vector q ≠ [] ∨ full_text_search (base q) ≠ None → filter (base q) = None) → create_lsm_plan tt view ds q = Ok p →
  ∃ details names, mem_wal_index_details ds = Ok (Some details) ∧ tt = None ∧ scan_dataset (lsm_scan p) = ds ∧
    (∀ shard m, sees view ds details shard m →
       ∃ s, s ∈ scan_snapshots (lsm_scan p) ∧ shard_id s = shard ∧
         ∀ t, t ∈ sstables m → (0 < generation t)%Z →
           t ∈ snapshot_sstables s ↔ ¬ base_covers details (names ++ prefilter_indexes chosen q) shard (generation t)) ∧
    (∀ shard m tables, is_wal_only details = false → view = Ok (Some (shard, m, Some tables)) →
       WithMemtables shard tables ∈ scan_calls (lsm_scan p)) ∧
    search_served view ds q details names.
Proof.
  intros Hfilter.
  assert (prefilter_indexes chosen q = []) as ->.
  { unfold prefilter_indexes. destruct (filter (base q)) as [f|]; [|done].
    destruct (query_vector q); [|by discriminate Hfilter; left].
    destruct (full_text_search (base q)); [by discriminate Hfilter; right|done]. }
  setoid_rewrite app_nil_r. unfold create_lsm_plan. intros (u & _ & H)%bind_Ok. destruct tt as [v|]; [done|]. cbn [is_some] in H.
  apply bind_Ok in H as (o & Hd & (details & ->%ok_or_Ok & (pk & _ & (names & Hn & ([snapshots in_memory] & Hc & H)%bind_Ok)%bind_Ok)%bind_Ok)%bind_Ok).
  apply bind_Ok in H as (p' & H & [= <-]). rewrite restore_scan. exists details, names.
  destruct (read_context_sees _ _ _ _ _ _ Hc) as [Hsees Hmem].
  assert (scans ds snapshots in_memory (lsm_scan p') ∧ search_served view ds q details names) as [(Hds & Hsn & rest & Hcalls) Hserved].
  { unfold search_served. destruct (query_vector q) as [|x l] eqn:Hq; cbn [is_empty negb] in H.
    - destruct (full_text_search (base q)) as [fts|] eqn:Hf.
      + apply fts_plan_Ok in H as (Hs & column & Hfc & Hm & Hcarry). split; [done|]. exists column. split_and!; [done| |].
        * by eapply fts_arm_relies.
        * intros shard m tables Hw Hv. apply (Hcarry shard). rewrite (Hmem _ _ _ Hw Hv). by left.
      + apply plain_plan_Ok in H. split; [done|]. unfold arm_maintained_index_names in Hn. rewrite Hq, Hf in Hn. by injection Hn.
    - apply vector_plan_Ok in H as (Hs & column & Hvc & Hm). split; [done|]. exists column. split; [done|].
      eapply vector_arm_relies; try done. by rewrite Hq. }
  split_and!; try done.
  - intros shard m Hs%Hsees. rewrite Hsn. eexists. split; [exact Hs|]. split; [done|]. intros t Ht Hg. by apply snapshot_keeps.
  - intros shard m tables Hw Hv. rewrite Hcalls, (Hmem _ _ _ Hw Hv). by left.
Qed.
End coverage.

Module Demo.
Import MemWal.Demo.
#[export] Existing Instance MemWal.Demo.lance.
#[export] Instance vector_types : VectorTypes := {| infer_vector_dim _ := None; format_field_path := String.concat "." |}.
Definition details : MemWalIndexDetails :=
  MemWal.mkDetails [] false ["id_idx"] ∅ [MemWal.mkCompacted 1 2] [MemWal.mkCatchup "id_idx" {[1%Z := 1%Z]}].
Definition manifest : ShardManifest := mkManifest 0 4 [mkSsTable 1 "a"; mkSsTable 2 "b"; mkSsTable 3 "c"].
Definition resident : InMemoryMemTables := mkMemTables (mkMemTable 4 []) [].
#[export] Instance lsm_lance : LsmLance := {
  ExecutionPlan := ();
  plan_fields _ := ["id"; "_distance"];
  load_indices _ := Ok [mkIndex "id_idx" [0%Z] (Some "VectorIndexDetails") 7];
  list_mem_wal_latest_shard_ids _ := Ok [1%Z];
  latest_manifest _ shard := Ok (if (shard =? 1)%Z then Some manifest else None);
  open_vector_index _ _ _ := Ok Cosine;
  to_dfschema _ := Ok tt;
  parse_sql_expr _ sql := Ok (Query.Demo.text sql);
  column_refs _ := [];
  column_ends_with := String.eqb
}.
#[export] Instance lsm_scans : LsmScans := {| accepts _ _ := Ok tt; create_scan_plan _ := Ok tt |}.
Definition query : VectorQueryRequest :=
  set_column (Some "id") (set_query_vector [Query.Demo.vector] (from_plain_query default_query)).
Definition view : result WriterView := Ok (Some (1%Z, None, Some resident)).
Definition planned : LsmPlan :=
  value_or (mkLsmPlan _ _ (mkScanner _ None [] [] []) tt None) (create_lsm_plan None view (Some details) query).
End Demo.

Import Demo.

Lemma no_generation_falls_between_witness :
  (@create_lsm_plan MemWal.Demo.lance Demo.lsm_lance Demo.lsm_scans Demo.vector_types None Demo.view (Some Demo.details) Demo.query
     = Ok Demo.planned ∧
   map (λ s, map generation (snapshot_sstables s)) (scan_snapshots (lsm_scan Demo.planned)) = [[2; 3]]%Z) ∧
  ∃ details names, mem_wal_index_details (Some Demo.details) = Ok (Some details) ∧ (None : option Z) = None ∧
    scan_dataset (lsm_scan Demo.planned) = Some Demo.details ∧
    (∀ shard m, sees Demo.view (Some Demo.details) details shard m →
       ∃ s, s ∈ scan_snapshots (lsm_scan Demo.planned) ∧ shard_id s = shard ∧
         ∀ t, t ∈ sstables m → (0 < generation t)%Z →
           t ∈ snapshot_sstables s ↔ ¬ base_covers details (names ++ prefilter_indexes (λ _, ["n_idx"]) Demo.query) shard (generation t)) ∧
    (∀ shard m tables, is_wal_only details = false → Demo.view = Ok (Some (shard, m, Some tables)) →
       WithMemtables shard tables ∈ scan_calls (lsm_scan Demo.planned)) ∧
    search_served Demo.view (Some Demo.details) Demo.query details names.
Proof.
  split; [split; [apply value_or_Ok|]; vm_compute; reflexivity|].
  apply (@no_generation_falls_between MemWal.Demo.lance Demo.lsm_lance Demo.lsm_scans Demo.vector_types (λ _, ["n_idx"]) None Demo.view
    (Some Demo.details) Demo.query Demo.planned); [done|]. apply value_or_Ok. vm_compute. reflexivity.
Defined.
End LsmRead.
