(* ===== verification/QueryPlan.v ===== *)
(** * The plan of a query (table/query.rs)

    How a local table plans a query: takes by offset, reads of the MemWAL, one
    query vector, a batch of them in one scan or one scan each.  Lance's scanner
    is the record of the calls made on it. *)

From Stdlib Require Import String SpecFloat.
From stdpp Require Import strings gmap.
From S2P Require Import Prelude RustStr Floats Arrow SqlText Schema MemWal Query TakeQuery LsmRead.

Module QueryPlan.
Import SqlText (Expr, Unparser, PredicateTokenizer, expr_to_sql_string).
Import Schema (TList, TOther, field_type).
Import MemWal (Lance, Dataset, LanceSchema, schema_of, arrow_schema, field_of, lance_field, mem_wal_index_details).
Import LsmRead (VectorTypes, default_vector_column, as_i32, as_i64, is_some, ErrorChain, find_missing_field,
  field_not_found_error, LsmLance, LsmScans, LsmPlan, WriterView, create_lsm_plan).
Import Query.
Local Open Scope string_scope.

(** ** Lance's scanner *)
(** A query: one vector, or the rows of a fixed-size list *)
Inductive QueryArg : Type := Single (v : VectorArray) | FixedSizeList (vectors : list (list spec_float)).
Inductive ScanCall : Type :=
  | Nearest (column : string) (arg : QueryArg) (k : Z)
  | ScanApproxMode (a : ApproxMode) | ScanMinimumNprobes (n : Z) | ScanNprobes (n : Z) | ScanMaximumNprobes (n : Z)
  | ScanSearchEffort (e : spec_float)
  | ScanLimit (limit offset : option Z)
  | ScanEf (n : Z) | ScanDistanceRange (l u : option spec_float) | UseIndex (b : bool) | Prefilter (b : bool)
  | Project (columns : list string) | ProjectWithTransform (columns : list (string * string))
  | ScanWithRowId | BatchSize (n : Z) | ScanFastSearch
  | FilterSql (sql : string) | FilterSubstrait (plan : list Z) | FilterExpr (e : Expr)
  | FullText (f : FullTextSearchQuery) | Refine (n : Z) | DistanceMetric (d : DistanceType)
  | DisableScoringAutoprojection | ScanOrderBy (o : list ColumnOrdering).
(** The calls whose method returns a [Result] *)
Definition fallible (c : ScanCall) : bool :=
  match c with
  | Nearest _ _ _ | ScanSearchEffort _ | ScanLimit _ _ | Project _ | ProjectWithTransform _ | FilterSql _
  | FilterSubstrait _ | FullText _ | ScanOrderBy _ => true
  | _ => false
  end.
(** [lance_scan_plan] fails with Lance's error: its causes, and what it becomes *)
Class ScanLance `{L : Lance} : Type := {
  ScanPlan : Type;
  admits : Dataset → list ScanCall → ScanCall → result unit;
  lance_scan_plan : Dataset → list ScanCall → outcome (ErrorChain * Error) ScanPlan;
  get_vector_type : LanceSchema → string → result Schema.DataType;
  cast_to_uint8 : QueryArg → result QueryArg
}.

Inductive QPlan `{SL : ScanLance} `{LL : !LsmLance} : Type :=
  | PScan (ds : Dataset) (calls : list ScanCall) (physical : ScanPlan)
  | PLsm (plan : LsmPlan)
  | PTake (plan : TakeQuery.Plan QPlan)
  | PMulti (columns : list string) (plans : list (Z * QPlan)).
(** DataFusion's operators: the schema of a plan, whether a projection of named
    columns applies to it, whether plans can be united; and the partitions a
    plan yields, which only matter when it runs *)
Class PlanOperators `{SL : ScanLance} `{LL : !LsmLance} : Type := {
  plan_schema : QPlan → list Arrow.Field;
  projects : list string → QPlan → bool;
  unites : list QPlan → outcome string unit;
  plan_partitions : QPlan → list (list (result RecordBatch));
  plan_coalesce : list (list (result RecordBatch)) → list (result RecordBatch);
  plan_global_limit : Z → option Z → list (list (result RecordBatch)) → list (list (result RecordBatch))
}.
(** A table: the version it is pinned to, the snapshot its shard writer shows,
    its dataset and the names of its columns *)
Record Table `{L : Lance} : Type := mkTable {
  time_travel_version : option Z; shard_writer_snapshot : result WriterView; dataset : result Dataset;
  column_names : result (list string)
}.

Section plan.
Context {prof : Profile} {L : Lance} {SL : ScanLance} {LL : LsmLance} {LS : LsmScans} {VT : VectorTypes} {PO : PlanOperators}.
Context {U : Unparser} {T : PredicateTokenizer} {D : QueryDeps}.
Context {K : ArrowKernels} {DC : DropColumn} {CE : TakeQuery.ColumnExpr}.

Definition ask (ds : Dataset) (cs : list ScanCall) (c : ScanCall) : result (list ScanCall) :=
  _ ← (if fallible c then admits ds cs c else Ok tt); Ok (cs ++ [c])%list.
Fixpoint asks (ds : Dataset) (made cs : list ScanCall) : result (list ScanCall) :=
  match cs with [] => Ok made | c :: cs => made ← ask ds made c; asks ds made cs end.

(** ** One scan *)
Definition opt {A} (f : A → ScanCall) (o : option A) : list ScanCall := match o with Some a => [f a] | None => [] end.
Definition when (b : bool) (c : ScanCall) : list ScanCall := if b then [c] else [].
Definition probe_calls (r : VectorQueryRequest) : list ScanCall :=
  (opt ScanApproxMode (approx_mode r) ++
   match search_effort r, nprobes r with
   | None, Some n => if bool_decide (maximum_nprobes r = Some 0%Z) then [ScanMinimumNprobes n] else [ScanNprobes n]
   | _, _ => []
   end ++
   opt ScanMinimumNprobes (minimum_nprobes r) ++
   match maximum_nprobes r with Some n => when (negb (n =? 0)%Z) (ScanMaximumNprobes n) | None => [] end ++
   opt ScanSearchEffort (search_effort r))%list.
Definition select_calls (s : Select) : result (list ScanCall) :=
  match s with
  | Columns columns => Ok [Project columns]
  | Dynamic columns => Ok [ProjectWithTransform columns]
  | ExprSelect pairs =>
      pairs ← try_map (λ p : string * Expr, sql ← expr_to_sql_string p.2; Ok (p.1, sql)) pairs;
      Ok [ProjectWithTransform pairs]
  | SelectAll => Ok []
  end.
Definition filter_calls (f : option QueryFilter) : list ScanCall :=
  match f with
  | Some (Sql sql) => [FilterSql sql]
  | Some (Substrait p) => [FilterSubstrait p]
  | Some (Datafusion e) => [FilterExpr e]
  | None => []
  end.
Definition tuning_calls (r : VectorQueryRequest) : list ScanCall :=
  (opt ScanEf (ef r) ++
   [ScanDistanceRange (lower_bound r) (upper_bound r); UseIndex (use_index r); Prefilter (prefilter (base r))])%list.
Definition final_calls (r : VectorQueryRequest) (max_batch_length : Z) : list ScanCall :=
  (when (with_row_id (base r)) ScanWithRowId ++ when (0 <? max_batch_length)%Z (BatchSize max_batch_length) ++
   when (fast_search (base r)) ScanFastSearch ++ filter_calls (filter (base r)) ++
   opt FullText (full_text_search (base r)) ++ opt Refine (refine_factor r) ++ opt DistanceMetric (distance_type r) ++
   when (disable_scoring_autoprojection (base r)) DisableScoringAutoprojection ++ opt ScanOrderBy (order_by (base r)))%list.
Definition is_uint8 (t : Schema.DataType) : bool := match t with TOther n => String.eqb n "UInt8" | _ => false end.
Definition arg_len (arg : QueryArg) : Z :=
  match arg with Single v => Z.of_nat (length (values v)) | FixedSizeList vs => Z.of_nat (length vs) end.
Definition search_column (ds : Dataset) (column : option string) (len : Z) : result string :=
  match column with
  | Some c => Ok c
  | None => default_vector_column (arrow_schema (schema_of ds)) (Some (as_i32 len))
  end.
Definition nearest_calls (ds : Dataset) (r : VectorQueryRequest) (column : option string) (arg : QueryArg)
    : result (list ScanCall) :=
  column ← search_column ds column (arg_len arg);
  element ← get_vector_type (schema_of ds) column;
  top_k ← u64_add (default DEFAULT_TOP_K (limit (base r))) (default 0%Z (offset (base r)));
  arg ← (if is_uint8 element then cast_to_uint8 arg else Ok arg);
  asks ds [] (Nearest column arg top_k :: probe_calls r).
Definition enrich_lance_field_not_found (ds : Dataset) (e : ErrorChain * Error) : Error :=
  match find_missing_field e.1 with
  | Some field => field_not_found_error field (arrow_schema (schema_of ds))
  | None => e.2
  end.
Definition scan (ds : Dataset) (r : VectorQueryRequest) (column : option string) (arg : option QueryArg) (is_batch : bool)
    (max_batch_length : Z) : result QPlan :=
  made ← (match arg with Some arg => nearest_calls ds r column arg | None => Ok [] end);
  made ← asks ds made (when (negb is_batch) (ScanLimit (as_i64 (limit (base r))) (as_i64 (offset (base r)))) ++ tuning_calls r);
  projection ← select_calls (select (base r));
  made ← asks ds made (projection ++ final_calls r max_batch_length);
  plan ← map_err (enrich_lance_field_not_found ds) (lance_scan_plan ds made);
  Ok (PScan ds made plan).

(** ** Several query vectors *)
Definition mismatch (dim : nat) (vectors : list VectorArray) : option (nat * VectorArray) :=
  list_find (λ v, length (values v) ≠ dim) vectors.
(** [as_primitive] panics on another type. *)
Definition f32_values (v : VectorArray) : result (list spec_float) :=
  if String.eqb (vector_type v) "Float32" then Ok (values v) else Panic.
Definition create_multi_vector_plan (plans : list QPlan) : result QPlan :=
  match plans with
  | [] => Err (InvalidInput "No plans provided")
  | first :: _ =>
      let columns := map f_name (plan_schema first) in
      if forallb (projects columns) plans then
        _ ← map_err Runtime (unites plans);
        Ok (PMulti columns (imap (λ i p, (as_i32 (Z.of_nat i), p)) plans))
      else Panic
  end.
Definition is_list (t : Schema.DataType) : bool := match t with TList _ => true | _ => false end.

(** [use_memwal]: which of the two read paths *)
Definition route (has_spec : bool) (use_memwal : option bool) : result bool :=
  match use_memwal with
  | Some true =>
      if has_spec then Ok true
      else Err (InvalidInput "use_memwal(true) was set but the table has no MemWAL write spec; install one with enable_memwal or leave use_memwal unset")
  | Some false => Ok false
  | None => Ok has_spec
  end.
(** The lookups of a take are planned by the table itself. *)
Definition backend (t : Table) (plan : AnyQuery → Z → result QPlan) : TakeQuery.Backend QPlan := {|
  TakeQuery.table_schema := column_names t;
  TakeQuery.create_lookup_plan q max_batch_length := plan (PlainQuery q) max_batch_length;
  TakeQuery.lookup_schema := plan_schema;
  TakeQuery.partitions := plan_partitions;
  TakeQuery.coalesce := plan_coalesce;
  TakeQuery.global_limit := plan_global_limit
|}.
(** [create_plan], whose recursive calls are [plan] *)
Definition create_plan_with (plan : AnyQuery → Z → result QPlan) (t : Table) (query : AnyQuery) (max_batch_length : Z)
    : result QPlan :=
  query ← canonicalized query;
  match (match query with PlainQuery q => take_offsets q | VectorQuery _ => None end) with
  | Some offsets =>
      p ← TakeQuery.create_take_offsets_plan (B := backend t plan) (any_base query) offsets max_batch_length false;
      Ok (PTake p)
  | None =>
      let r := match query with VectorQuery r => r | PlainQuery q => from_plain_query q end in
      _ ← check_filter (base r);
      _ ← validate_search_effort r;
      ds ← dataset t;
      details ← mem_wal_index_details ds;
      memwal ← route (is_some details) (use_memwal (base r));
      if (memwal : bool) then
        p ← create_lsm_plan (time_travel_version t) (shard_writer_snapshot t) ds r; Ok (PLsm p)
      else
        match query_vector r with
        | [] => scan ds r (column r) None false max_batch_length
        | [v] => scan ds r (column r) (Some (Single v)) false max_batch_length
        | v :: _ =>
            column ← search_column ds (column r) (Z.of_nat (length (values v)));
            field ← (match field_of (schema_of ds) column with Some f => Ok (lance_field f) | None => Panic end);
            element ← get_vector_type (schema_of ds) column;
            if is_list (field_type field) || ((default 0%Z (offset (base r)) =? 0)%Z && negb (is_uint8 element)) then
              match mismatch (length (values v)) (query_vector r) with
              | Some _ => Err (InvalidInput "query vector at index {query_index} has dimension {actual_dim}, expected {dim}")
              | None =>
                  vectors ← try_map f32_values (query_vector r);
                  scan ds r (Some column) (Some (FixedSizeList vectors)) (negb (is_list (field_type field))) max_batch_length
              end
            else
              plans ← try_map (λ v, plan (VectorQuery (set_query_vector [v] r)) max_batch_length) (query_vector r);
              create_multi_vector_plan plans
        end
  end.
(** Out of fuel: [Panic] *)
Fixpoint create_plan_from (fuel : nat) (t : Table) (query : AnyQuery) (max_batch_length : Z) : result QPlan :=
  match fuel with O => Panic | S fuel => create_plan_with (create_plan_from fuel t) t query max_batch_length end.
(** A take plans one lookup, a batch one query for each vector: two levels. *)
Definition create_plan : Table → AnyQuery → Z → result QPlan := create_plan_from 2.

(** * What a plan is made of *)
Lemma asks_Ok ds made cs made' : asks ds made cs = Ok made' → made' = (made ++ cs)%list.
Proof.
  revert made. induction cs as [|c cs IH]; intros made; cbn [asks]; [intros [= <-]; by rewrite app_nil_r|].
  intros (made1 & (u & _ & [= <-])%bind_Ok & ->%IH)%bind_Ok. by rewrite <-app_assoc.
Qed.
Definition search_arg (ds : Dataset) (column : string) (arg : QueryArg) : result QueryArg :=
  element ← get_vector_type (schema_of ds) column; if is_uint8 element then cast_to_uint8 arg else Ok arg.
(** The calls that are neither the search nor the limit, in their order *)
Definition settings_of (r : VectorQueryRequest) (max_batch_length : Z) : result (list ScanCall) :=
  projection ← select_calls (select (base r));
  Ok (probe_calls r ++ tuning_calls r ++ projection ++ final_calls r max_batch_length)%list.
Lemma scan_Ok ds r column arg is_batch m p : scan ds r column (Some arg) is_batch m = Ok p →
  ∃ calls physical name arg' k projection, p = PScan ds calls physical ∧
    search_column ds column (arg_len arg) = Ok name ∧ search_arg ds name arg = Ok arg' ∧
    u64_add (default DEFAULT_TOP_K (limit (base r))) (default 0%Z (offset (base r))) = Ok k ∧
    select_calls (select (base r)) = Ok projection ∧
    calls = ([Nearest name arg' k] ++ probe_calls r ++
             when (negb is_batch) (ScanLimit (as_i64 (limit (base r))) (as_i64 (offset (base r)))) ++
             tuning_calls r ++ projection ++ final_calls r m)%list.
Proof.
  unfold scan, nearest_calls, search_arg. intros (made & Hn & (made1 & ->%asks_Ok & H)%bind_Ok)%bind_Ok.
  apply bind_Ok in Hn as (name & Hname & (element & He & (k & Hk & (arg' & Harg & ->%asks_Ok)%bind_Ok)%bind_Ok)%bind_Ok).
  apply bind_Ok in H as (projection & Hp & (made2 & ->%asks_Ok & (physical & _ & [= <-])%bind_Ok)%bind_Ok).
  eexists _, physical, name, arg', k, projection. split_and!; [done|done| |done|done|]; [by rewrite He|].
  cbn. by rewrite <-!app_assoc.
Qed.

(** ** More levels plan nothing else *)
Definition simple (q : AnyQuery) : Prop :=
  match q with PlainQuery b => take_offsets b = None | VectorQuery r => (length (query_vector r) ≤ 1)%nat end.
Lemma canonicalized_simple q q' : canonicalized q = Ok q' → simple q → simple q'.
Proof.
  unfold canonicalized, canonicalized_base. intros (b & Hb & [= <-])%bind_Ok.
  assert (take_offsets b = take_offsets (any_base q)) as Ht.
  { destruct (filter (any_base q)) as [[sql|?|?]|]; try (by injection Hb as <-).
    apply bind_Ok in Hb as (sql' & _ & [= <-]). by destruct (any_base q). }
  destruct q as [q|r]; cbn in *; [by rewrite Ht|by destruct r].
Qed.
Lemma simple_level plan plan' t q m : simple q → create_plan_with plan t q m = create_plan_with plan' t q m.
Proof.
  intros Hq. unfold create_plan_with. destruct (canonicalized q) as [q'|e|] eqn:Hc; [|reflexivity..]. cbn [mbind outcome_bind].
  pose proof (canonicalized_simple _ _ Hc Hq) as Hs. destruct q' as [b|r]; cbn [simple] in Hs; [by rewrite Hs|].
  destruct (query_vector r) as [|v [|]]; [done|done|cbn in Hs; lia].
Qed.
Lemma try_map_ext {A B} (f g : A → result B) l : (∀ x, f x = g x) → try_map f l = try_map g l.
Proof. intros H. induction l as [|x l IH]; [done|]. cbn [try_map]. by rewrite H, IH. Qed.
Lemma prepared_has_no_offsets names q l : TakeQuery.prepare_offsets_lookup names q = Ok l →
  take_offsets (TakeQuery.lookup_request l) = None.
Proof.
  unfold TakeQuery.prepare_offsets_lookup. intros (((q' & name) & dropped) & H & [= <-])%bind_Ok.
  assert (take_offsets q' = None) as Hq; [|by destruct q'].
  unfold TakeQuery.request_with_row_offset in H. destruct q as [? ? ? ? ? ? s]. destruct s; cbn in H.
  - by injection H as <- _ _.
  - case_match; by injection H as <- _ _.
  - apply bind_Ok in H as (? & _ & H). by injection H as <- _ _.
  - apply bind_Ok in H as (? & _ & H). by injection H as <- _ _.
Qed.
Lemma create_plan_with_ext plan plan' t q m : (∀ q, simple q → plan q m = plan' q m) →
  create_plan_with plan t q m = create_plan_with plan' t q m.
Proof.
  intros Hext. unfold create_plan_with. destruct (canonicalized q) as [q'|e|]; [|reflexivity..]. cbn [mbind outcome_bind].
  destruct (match q' with PlainQuery q => take_offsets q | VectorQuery _ => None end) as [os|] eqn:Ht.
  - destruct q' as [b|r]; [|done]. unfold TakeQuery.create_take_offsets_plan. cbn [any_base TakeQuery.table_schema backend].
    destruct (match select b with SelectAll => column_names t | _ => Ok [] end) as [names|e|]; [|reflexivity..]. cbn [mbind outcome_bind].
    destruct (TakeQuery.prepare_offsets_lookup names b) as [l|e|] eqn:Hl; [|reflexivity..]. cbn [mbind outcome_bind].
    cbn [TakeQuery.create_lookup_plan backend]. rewrite (Hext (PlainQuery (TakeQuery.lookup_request l))); [done|].
    by eapply prepared_has_no_offsets.
  - set (r := match q' with VectorQuery r => r | PlainQuery q => from_plain_query q end).
    assert (try_map (λ v, plan (VectorQuery (set_query_vector [v] r)) m) (query_vector r) =
      try_map (λ v, plan' (VectorQuery (set_query_vector [v] r)) m) (query_vector r)) as ->; [|done].
    apply try_map_ext. intros v. apply Hext. cbn. by destruct r.
Qed.
Lemma levels n t q m : create_plan_from (S (S n)) t q m = create_plan t q m.
Proof. apply create_plan_with_ext. intros q' Hq. by apply simple_level. Qed.
End plan.

(** * Pages *)
Definition searches (cs : list ScanCall) : list (string * QueryArg * Z) :=
  omap (λ c, match c with Nearest column arg k => Some (column, arg, k) | _ => None end) cs.
Definition limits (cs : list ScanCall) : list (option Z * option Z) :=
  omap (λ c, match c with ScanLimit l o => Some (l, o) | _ => None end) cs.
Definition is_setting (c : ScanCall) : bool := match c with Nearest _ _ _ | ScanLimit _ _ => false | _ => true end.
Definition settings (cs : list ScanCall) : list ScanCall := List.filter is_setting cs.
Definition page {A} (l o : option Z) (xs : list A) : list A :=
  let xs := drop (Z.to_nat (default 0%Z o)) xs in match l with Some l => take (Z.to_nat l) xs | None => xs end.

(** Nothing but the search orders the rows and scores them. *)
Definition only_nearest (cs : list ScanCall) : Prop :=
  Forall (λ c, match c with ScanOrderBy _ | FullText _ => False | _ => True end) cs.

(** [nearest ds cs column arg k]: the rows, best first, that a search under the
    settings [cs] finds when it is asked for [k]; what it finds may depend on
    [k], as a refine factor or a search effort makes it do.  [passes]: the
    filter that is applied to what was found, none under a prefilter.  The rows
    of a scan are the page of those, for a batch of vectors without a limit all
    of those for each vector, with its index. *)
Class ScanRows (Row : Type) `{SL : ScanLance} : Type := {
  nearest : Dataset → list ScanCall → string → QueryArg → Z → list Row;
  passes : Dataset → list ScanCall → Row → bool;
  scan_rows : Dataset → list ScanCall → list (option Z * Row)
}.
Definition found `{R : ScanRows Row} (ds : Dataset) (cs : list ScanCall) (column : string) (arg : QueryArg) (k : Z)
    : list Row := List.filter (passes ds cs) (nearest ds cs column arg k).
Class ScanLaws `{R : ScanRows Row} : Prop := {
  nearest_length ds cs column arg k : (0 ≤ k)%Z → (Z.of_nat (length (nearest ds cs column arg k)) ≤ k)%Z;
  prefilter_passes ds cs row : Prefilter true ∈ cs → passes ds cs row = true;
  scan_one ds cs column v k l o : searches cs = [(column, Single v, k)] → limits cs = [(l, o)] → only_nearest cs →
    (0 ≤ default 0 l)%Z → (0 ≤ default 0 o)%Z →
    scan_rows ds cs = map (pair None) (page l o (found ds (settings cs) column (Single v) k));
  scan_batch ds cs column vs k : searches cs = [(column, FixedSizeList vs, k)] → limits cs = [] → only_nearest cs →
    scan_rows ds cs = mjoin (imap (λ i v, map (pair (Some (Z.of_nat i)))
      (found ds (settings cs) column (Single (mkVector "Float32" v)) k)) vs);
  cast_single v arg : cast_to_uint8 (Single v) = Ok arg → ∃ v', arg = Single v'
}.

Section pages.
Context {prof : Profile} {L : Lance} {SL : ScanLance} {LL : LsmLance} {LS : LsmScans} {VT : VectorTypes} {PO : PlanOperators}.
Context {U : Unparser} {T : PredicateTokenizer} {D : QueryDeps}.
Context {K : ArrowKernels} {DC : DropColumn} {CE : TakeQuery.ColumnExpr}.
Context {Row : Type} {SR : ScanRows Row} {SRL : ScanLaws}.
Context (lsm_rows : LsmPlan → list (option Z * Row)) (take_rows : TakeQuery.Plan QPlan → list (option Z * Row)).

(** The rows of a plan, the partitions of a union one after the other *)
Fixpoint run (p : QPlan) : list (option Z * Row) :=
  match p with
  | PScan ds calls _ => scan_rows ds calls
  | PLsm p => lsm_rows p
  | PTake p => take_rows p
  | PMulti _ plans => mjoin (map (λ ip : Z * QPlan, map (λ row, (Some ip.1, row.2)) (run ip.2)) plans)
  end.
(** What the caller asked for: of the rows that are found for a vector when the
    page and all before it are asked for, the page *)
Definition page_for (ds : Dataset) (r : VectorQueryRequest) (calls : list ScanCall) (v : VectorArray) : result (list Row) :=
  name ← search_column ds (column r) (Z.of_nat (length (values v)));
  arg ← search_arg ds name (Single v);
  let limit := default DEFAULT_TOP_K (limit (base r)) in
  let offset := default 0%Z (offset (base r)) in
  Ok (take (Z.to_nat limit) (drop (Z.to_nat offset) (found ds calls name arg (limit + offset)%Z))).
Definition tagged (pages : list (list Row)) : list (option Z * Row) :=
  match pages with
  | [rows] => map (pair None) rows
  | _ => mjoin (imap (λ i, map (pair (Some (Z.of_nat i)))) pages)
  end.

(** ** The calls of a scan *)
Definition all_settings (cs : list ScanCall) : Prop := Forall (λ c, is_setting c = true) cs.
Lemma all_settings_opt {A} (f : A → ScanCall) o : (∀ a, is_setting (f a) = true) → all_settings (opt f o).
Proof. intros Hf. destruct o; repeat constructor. apply Hf. Qed.
Lemma all_settings_when b c : is_setting c = true → all_settings (when b c).
Proof. destruct b; repeat constructor. done. Qed.
Lemma probe_settings r : all_settings (probe_calls r).
Proof.
  unfold probe_calls. repeat apply Forall_app_2; try (by apply all_settings_opt).
  - destruct (search_effort r), (nprobes r); try constructor. case_bool_decide; by repeat constructor.
  - destruct (maximum_nprobes r); [by apply all_settings_when|constructor].
Qed.
Lemma tuning_settings r : all_settings (tuning_calls r).
Proof. unfold tuning_calls. apply Forall_app_2; [by apply all_settings_opt|by repeat constructor]. Qed.
Lemma final_settings r m : all_settings (final_calls r m).
Proof.
  unfold final_calls. repeat apply Forall_app_2; try (by apply all_settings_opt); try (by apply all_settings_when).
  destruct (filter (base r)) as [[|?|?]|]; by repeat constructor.
Qed.
Lemma select_settings s cs : select_calls s = Ok cs → all_settings cs.
Proof.
  destruct s; cbn; try (intros [= <-]; by repeat constructor). intros (x & _ & [= <-])%bind_Ok. by repeat constructor.
Qed.
Lemma rest_settings r m cs : select_calls (select (base r)) = Ok cs → all_settings (tuning_calls r ++ cs ++ final_calls r m).
Proof.
  intros Hs. apply Forall_app_2; [apply tuning_settings|]. apply Forall_app_2; [by eapply select_settings|apply final_settings].
Qed.
Lemma settings_spec cs : all_settings cs → searches cs = [] ∧ limits cs = [] ∧ settings cs = cs.
Proof.
  induction 1 as [|c cs Hc _ (IH1 & IH2 & IH3)]; [done|]. unfold searches, limits, settings in *. cbn. rewrite IH1, IH2, IH3.
  by destruct c.
Qed.
Lemma made_spec search probes page rest : all_settings probes → all_settings rest →
  (∀ c, c ∈ page → is_setting c = false) →
  let cs := (search ++ probes ++ page ++ rest)%list in
  searches cs = (searches search ++ searches page)%list ∧ limits cs = (limits search ++ limits page)%list ∧
  settings cs = (settings search ++ probes ++ rest)%list.
Proof.
  intros (Hp1 & Hp2 & Hp3)%settings_spec (Hr1 & Hr2 & Hr3)%settings_spec Hpage. cbn.
  assert (settings page = []) as Hs.
  { induction page as [|c page IH]; [done|]. unfold settings in *. cbn. rewrite (Hpage c) by (by left). apply IH.
    intros c' Hc'. apply Hpage. by right. }
  unfold searches, limits, settings in *. rewrite !omap_app, !List.filter_app, Hp1, Hp2, Hp3, Hr1, Hr2, Hr3, Hs, !app_nil_r. done.
Qed.

(** ** One query vector *)
Definition page_fits (r : VectorQueryRequest) : Prop :=
  (0 ≤ default 0 (limit (base r)) ∧ 0 ≤ default 0 (offset (base r)) ∧
   default DEFAULT_TOP_K (limit (base r)) + default 0 (offset (base r)) < I63)%Z.
Lemma fits_sum r k : page_fits r →
  u64_add (default DEFAULT_TOP_K (limit (base r))) (default 0%Z (offset (base r))) = Ok k →
  k = (default DEFAULT_TOP_K (limit (base r)) + default 0 (offset (base r)))%Z ∧ (0 ≤ default DEFAULT_TOP_K (limit (base r)))%Z ∧
  as_i64 (limit (base r)) = limit (base r) ∧ as_i64 (offset (base r)) = offset (base r).
Proof.
  unfold page_fits, u64_add, as_i64, Prelude.as_i64, I63, DEFAULT_TOP_K. intros (Hl & Ho & Hs).
  assert (0 ≤ default 10 (limit (base r)))%Z as Hd by (destruct (limit (base r)); cbn in *; lia).
  rewrite u64_arith_ok by (unfold u64_range, U64; lia). intros [= <-]. split_and!; [done|done|..].
  - destruct (limit (base r)) as [l|]; [|done]. cbn in *. by rewrite (proj2 (Z.ltb_lt l _)) by lia.
  - destruct (offset (base r)) as [o|]; [|done]. cbn in *. rewrite (proj2 (Z.ltb_lt o _)); [done|].
    destruct (limit (base r)); cbn in *; lia.
Qed.
Lemma found_length ds cs name arg k : (0 ≤ k)%Z → (Z.of_nat (length (found ds cs name arg k)) ≤ k)%Z.
Proof.
  intros Hk. pose proof (nearest_length ds cs name arg k Hk) as Hn. unfold found.
  pose proof (List.filter_length_le (passes ds cs) (nearest ds cs name arg k)). lia.
Qed.
Lemma page_of_best {A} (l o : option Z) (xs : list A) : (0 ≤ default DEFAULT_TOP_K l)%Z → (0 ≤ default 0%Z o)%Z →
  (Z.of_nat (length xs) ≤ default DEFAULT_TOP_K l + default 0 o)%Z →
  page l o xs = take (Z.to_nat (default DEFAULT_TOP_K l)) (drop (Z.to_nat (default 0%Z o)) xs).
Proof.
  intros Hl Ho Hx. unfold page. destruct l as [l|]; [done|]. cbn in *. symmetry. apply take_ge.
  rewrite length_drop. lia.
Qed.
(** Without an order and a full text search, only the search decides. *)
Definition by_vector_only (r : VectorQueryRequest) : Prop :=
  order_by (base r) = None ∧ full_text_search (base r) = None.
Lemma calls_only_nearest r m search page projection :
  by_vector_only r → select_calls (select (base r)) = Ok projection → only_nearest search → only_nearest page →
  only_nearest (search ++ probe_calls r ++ page ++ tuning_calls r ++ projection ++ final_calls r m)%list.
Proof.
  intros [Ho Hf] Hp Hs Hpg. assert (∀ b c, only_nearest [c] → only_nearest (when b c)) as Hwhen.
  { intros [] c Hc; [done|constructor]. }
  assert (∀ A (f : A → ScanCall) o, (∀ a, only_nearest [f a]) → only_nearest (opt f o)) as Hopt.
  { intros A f [a|] H; [apply H|constructor]. }
  unfold probe_calls, tuning_calls, final_calls. rewrite Ho, Hf. unfold only_nearest in *.
  repeat apply Forall_app_2; try done; try (by apply Hopt; repeat constructor); try (by apply Hwhen; repeat constructor).
  - destruct (search_effort r), (nprobes r); try constructor. case_bool_decide; by repeat constructor.
  - destruct (maximum_nprobes r); [by apply Hwhen; repeat constructor|constructor].
  - by repeat constructor.
  - destruct (select (base r)); cbn in Hp; try (injection Hp as <-; by repeat constructor).
    apply bind_Ok in Hp as (x & _ & [= <-]). by repeat constructor.
  - destruct (filter (base r)) as [[|?|?]|]; by repeat constructor.
Qed.
Lemma search_arg_single ds name v arg : search_arg ds name (Single v) = Ok arg → ∃ v', arg = Single v'.
Proof.
  unfold search_arg. intros (t & _ & H)%bind_Ok. destruct (is_uint8 t); [by eapply cast_single|]. injection H as <-. by exists v.
Qed.
Lemma scan_one_vector ds r v m p : page_fits r → by_vector_only r → scan ds r (column r) (Some (Single v)) false m = Ok p →
  ∃ calls rows, settings_of r m = Ok calls ∧ page_for ds r calls v = Ok rows ∧ run p = map (pair None) rows.
Proof.
  intros Hfit Hby (cs & physical & name & arg & k & projection & -> & Hname & Harg & Hk & Hp & ->)%scan_Ok.
  destruct (fits_sum _ _ Hfit Hk) as (-> & Hd & Hl & Ho). destruct (search_arg_single _ _ _ _ Harg) as [v' ->].
  unfold settings_of. rewrite Hp. cbn [mbind outcome_bind]. eexists _, _. split; [done|]. unfold page_for.
  cbn [arg_len] in Hname. rewrite Hname. cbn [mbind outcome_bind]. rewrite Harg. cbn [mbind outcome_bind]. split; [done|].
  destruct (made_spec [Nearest name (Single v') (default DEFAULT_TOP_K (limit (base r)) + default 0%Z (offset (base r)))%Z] (probe_calls r)
    [ScanLimit (limit (base r)) (offset (base r))] (tuning_calls r ++ projection ++ final_calls r m)) as (H1 & H2 & H3).
  { apply probe_settings. } { by apply rest_settings. }
  { by intros c ->%list_elem_of_singleton. }
  cbn [run negb when]. rewrite Hl, Ho. destruct Hfit as (Hf1 & Hf2 & _).
  erewrite scan_one; [|exact H1|exact H2|apply calls_only_nearest; [done|done|by repeat constructor..]|done|done].
  rewrite H3. change (settings [Nearest ?a ?b ?c]) with (@nil ScanCall). cbn [app].
  rewrite page_of_best; [done|done|done|]. apply found_length. lia.
Qed.
Lemma settings_same_vectors r vs m : settings_of (set_query_vector vs r) m = settings_of r m.
Proof. by destruct r. Qed.
Lemma page_for_same_vectors ds r vs calls v : page_for ds (set_query_vector vs r) calls v = page_for ds r calls v.
Proof. by destruct r. Qed.

(** ** A batch in one scan *)
Lemma scan_batch_vectors ds r name element vs m p : page_fits r → by_vector_only r → default 0%Z (offset (base r)) = 0%Z →
  get_vector_type (schema_of ds) name = Ok element → is_uint8 element = false →
  scan ds r (Some name) (Some (FixedSizeList vs)) true m = Ok p →
  ∃ calls, settings_of r m = Ok calls ∧
    run p = mjoin (imap (λ i v, map (pair (Some (Z.of_nat i)))
      (found ds calls name (Single (mkVector "Float32" v)) (default DEFAULT_TOP_K (limit (base r))))) vs).
Proof.
  intros Hfit Hby Hoff He Hu (cs & physical & name' & arg & k & projection & -> & [= <-] & Harg & Hk & Hp & ->)%scan_Ok.
  destruct (fits_sum _ _ Hfit Hk) as (-> & _). unfold search_arg in Harg. rewrite He in Harg. cbn [mbind outcome_bind] in Harg.
  rewrite Hu in Harg. injection Harg as <-. unfold settings_of. rewrite Hp. cbn [mbind outcome_bind]. eexists. split; [done|].
  destruct (made_spec [Nearest name (FixedSizeList vs) (default DEFAULT_TOP_K (limit (base r)) + default 0%Z (offset (base r)))%Z] (probe_calls r)
    [] (tuning_calls r ++ projection ++ final_calls r m)) as (H1 & H2 & H3).
  { apply probe_settings. } { by apply rest_settings. }
  { by intros c ?%elem_of_nil. }
  cbn [run negb when].
  erewrite scan_batch; [|exact H1|exact H2|apply calls_only_nearest; [done|done|by repeat constructor..]].
  rewrite H3, Hoff, Z.add_0_r. done.
Qed.
Lemma mismatch_None dim vs : mismatch dim vs = None → Forall (λ v, length (values v) = dim) vs.
Proof.
  unfold mismatch. intros H%list_find_None. eapply Forall_impl; [exact H|]. cbn. intros v Hv. by apply dec_stable.
Qed.
Lemma f32_values_Ok v xs : f32_values v = Ok xs → v = mkVector "Float32" xs.
Proof. unfold f32_values. destruct (String.eqb_spec (vector_type v) "Float32") as [Ht|]; [|done]. intros [= <-]. by destruct v; cbn in *; subst. Qed.
Lemma map_tag_imap {A B} (f : A → list B) vs pages : Forall2 (λ v page, f v = page) vs pages → ∀ n,
  imap (λ i v, map (pair (Some (Z.of_nat (n + i)))) (f v)) vs = imap (λ i, map (pair (Some (Z.of_nat (n + i))))) pages.
Proof.
  induction 1 as [|v page vs pages <- _ IH]; intros n; [done|]. cbn [imap]. f_equal. specialize (IH (S n)).
  unfold compose in *. cbn in IH. transitivity (imap (λ i v, map (pair (Some (Z.of_nat (S (n + i))))) (f v)) vs).
  - apply imap_ext. intros i x _. by rewrite Nat.add_succ_r.
  - rewrite IH. apply imap_ext. intros i x _. by rewrite Nat.add_succ_r.
Qed.
Lemma run_multi columns plans pages : (Z.of_nat (length pages) < 2 ^ 31)%Z →
  Forall2 (λ plan rows, run plan = map (pair None) rows) plans pages →
  run (PMulti columns (imap (λ i p, (as_i32 (Z.of_nat i), p)) plans)) =
    mjoin (imap (λ i, map (pair (Some (Z.of_nat i)))) pages).
Proof.
  intros Hlen H. cbn [run]. f_equal. apply list_eq. intros i. change map with (@fmap list _) at 1.
  rewrite list_lookup_fmap, !list_lookup_imap.
  destruct (plans !! i) as [plan|] eqn:Hp; cbn.
  - destruct (Forall2_lookup_l _ _ _ _ _ H Hp) as (rows & Hr & Hrun). rewrite Hr. cbn. f_equal. rewrite Hrun, map_map.
    apply lookup_lt_Some in Hr. assert (as_i32 (Z.of_nat i) = Z.of_nat i) as ->; [|done].
    unfold as_i32. rewrite Z.mod_small by lia. by rewrite (proj2 (Z.ltb_lt _ _)) by lia.
  - assert (pages !! i = None) as ->; [|done]. apply lookup_ge_None in Hp. apply lookup_ge_None. by erewrite <-Forall2_length.
Qed.
Lemma canonical_query r : canonicalized_base (base r) = Ok (base r) → canonicalized (VectorQuery r) = Ok (VectorQuery r).
Proof. intros H. unfold canonicalized. cbn [any_base]. rewrite H. cbn. by destruct r. Qed.
(** What planning a vector query comes to on a table without a write spec *)
Lemma plan_without_memwal plan t ds r m p : canonicalized_base (base r) = Ok (base r) → dataset t = Ok ds →
  mem_wal_index_details ds = Ok None → create_plan_with plan t (VectorQuery r) m = Ok p →
  match query_vector r with
  | [] => scan ds r (column r) None false m = Ok p
  | [v] => scan ds r (column r) (Some (Single v)) false m = Ok p
  | v :: _ => ∃ name field element, search_column ds (column r) (Z.of_nat (length (values v))) = Ok name ∧
      field_of (schema_of ds) name = Some field ∧ get_vector_type (schema_of ds) name = Ok element ∧
      if is_list (field_type (lance_field field)) || ((default 0%Z (offset (base r)) =? 0)%Z && negb (is_uint8 element)) then
        ∃ vectors, mismatch (length (values v)) (query_vector r) = None ∧ try_map f32_values (query_vector r) = Ok vectors ∧
          scan ds r (Some name) (Some (FixedSizeList vectors)) (negb (is_list (field_type (lance_field field)))) m = Ok p
      else ∃ plans, try_map (λ v, plan (VectorQuery (set_query_vector [v] r)) m) (query_vector r) = Ok plans ∧
          create_multi_vector_plan plans = Ok p
  end.
Proof.
  intros Hc Hds Hd. unfold create_plan_with. rewrite (canonical_query _ Hc). cbn [mbind outcome_bind].
  intros (u1 & _ & (u2 & _ & H)%bind_Ok)%bind_Ok. rewrite Hds in H. cbn [mbind outcome_bind] in H. rewrite Hd in H. cbn [mbind outcome_bind] in H.
  apply bind_Ok in H as (b & Hb & H). assert (b = false) as -> by (destruct (use_memwal (base r)) as [[]|]; cbn in Hb; congruence).
  destruct (query_vector r) as [|v [|v' vs]]; [done|done|].
  apply bind_Ok in H as (name & Hname & (field & Hf & (element & He & H)%bind_Ok)%bind_Ok).
  destruct (field_of (schema_of ds) name) as [f|] eqn:Hfield; [|done]. injection Hf as <-. exists name, f, element. split_and!; try done.
  destruct (is_list _ || _); [|by apply bind_Ok in H].
  destruct (mismatch _ _) eqn:Hm; [done|]. apply bind_Ok in H as (vectors & Hv & H). by exists vectors.
Qed.

Lemma batch_pages ds r calls name element vs vectors : get_vector_type (schema_of ds) name = Ok element →
  is_uint8 element = false → default 0%Z (offset (base r)) = 0%Z → (0 ≤ default DEFAULT_TOP_K (limit (base r)))%Z →
  Forall (λ v, search_column ds (column r) (Z.of_nat (length (values v))) = Ok name) vs →
  Forall2 (λ v xs, f32_values v = Ok xs) vs vectors →
  Forall2 (λ v rows, page_for ds r calls v = Ok rows) vs
    (map (λ v, found ds calls name (Single (mkVector "Float32" v)) (default DEFAULT_TOP_K (limit (base r)))) vectors).
Proof.
  intros He Hu Ho Hl Hn. induction 1 as [|v xs vs vectors ->%f32_values_Ok _ IH]; [constructor|]. apply Forall_cons in Hn as [Hv Hn].
  constructor; [|by apply IH]. unfold page_for. rewrite Hv. cbn [mbind outcome_bind]. unfold search_arg. rewrite He.
  cbn [mbind outcome_bind]. rewrite Hu, Ho. cbn [mbind outcome_bind]. cbn zeta. rewrite Z.add_0_r. cbn [Z.to_nat drop]. f_equal. apply take_ge.
  pose proof (found_length ds calls name (Single (mkVector "Float32" xs)) _ Hl). lia.
Qed.
(** Each vector in a plan of its own *)
Lemma create_multi_Ok plans p : create_multi_vector_plan plans = Ok p →
  ∃ columns, p = PMulti columns (imap (λ i p, (as_i32 (Z.of_nat i), p)) plans).
Proof.
  unfold create_multi_vector_plan. destruct plans as [|plan plans]; [done|]. destruct (forallb _ _); [|done].
  intros (u & _ & [= <-])%bind_Ok. by eexists.
Qed.
Lemma union_pages t ds r m vs plans : canonicalized_base (base r) = Ok (base r) → dataset t = Ok ds →
  mem_wal_index_details ds = Ok None → page_fits r → by_vector_only r →
  Forall2 (λ v plan, create_plan_from 1 t (VectorQuery (set_query_vector [v] r)) m = Ok plan) vs plans →
  vs ≠ [] → ∃ calls pages, settings_of r m = Ok calls ∧ Forall2 (λ v rows, page_for ds r calls v = Ok rows) vs pages ∧
    Forall2 (λ plan rows, run plan = map (pair None) rows) plans pages.
Proof.
  intros Hc Hds Hd Hfit Hby H.
  assert (∀ v plan, create_plan_from 1 t (VectorQuery (set_query_vector [v] r)) m = Ok plan → ∃ calls rows,
    settings_of r m = Ok calls ∧ page_for ds r calls v = Ok rows ∧ run plan = map (pair None) rows) as Hone.
  { intros v plan Hp. destruct r as [b c q np mi ma se lo up e f d a u]. cbn [set_query_vector] in Hp.
    eapply (plan_without_memwal _ t ds (mkVectorQuery b c [v] np mi ma se lo up e f d a u)) in Hp; try done.
    cbn [query_vector] in Hp. apply (scan_one_vector ds (mkVectorQuery b c [v] np mi ma se lo up e f d a u)) in Hp; done. }
  induction H as [|v plan vs plans Hp Hrest IH]; [done|]. intros _. destruct (Hone _ _ Hp) as (calls & rows & Hcalls & Hpage & Hrun).
  destruct vs as [|v' vs].
  { inversion Hrest; subst. exists calls, [rows]. split_and!; [done|by repeat constructor|by repeat constructor]. }
  destruct IH as (calls' & pages & Hcalls' & Hpages & Hruns); [done|]. rewrite Hcalls in Hcalls'. injection Hcalls' as <-.
  exists calls, (rows :: pages). split_and!; [done|by constructor|by constructor].
Qed.
Lemma tagged_several pages : (1 < length pages)%nat → tagged pages = mjoin (imap (λ i, map (pair (Some (Z.of_nat i)))) pages).
Proof. destruct pages as [|? [|]]; cbn; [lia|lia|done]. Qed.

(** C36: every query vector gets its page: on a table without a write spec, a
    query by one or more vectors of a column that is no list, with no other order,
    yields for each vector the rows from [offset] on, at most [limit] (ten unless
    set), of those that a search by that vector alone finds under the settings of
    the query when asked for [offset + limit], tagged with the position of the
    vector when there are several; whether the vectors share one scan or have one
    each, and at every depth of recursion from two on.  A postfilter is applied
    to what was found, before the page is cut; a prefilter leaves it alone. *)
Theorem query_vectors_are_paged n t r m p ds :
  canonicalized_base (base r) = Ok (base r) → dataset t = Ok ds → mem_wal_index_details ds = Ok None →
  query_vector r ≠ [] → (Z.of_nat (length (query_vector r)) < 2 ^ 31)%Z → page_fits r → by_vector_only r →
  (∀ len name f, search_column ds (column r) len = Ok name → field_of (schema_of ds) name = Some f →
     is_list (field_type (lance_field f)) = false) →
  create_plan_from (S (S n)) t (VectorQuery r) m = Ok p →
  ∃ calls pages, settings_of r m = Ok calls ∧
    Forall2 (λ v rows, page_for ds r calls v = Ok rows) (query_vector r) pages ∧ run p = tagged pages ∧
    (prefilter (base r) = true → ∀ row, passes ds calls row = true).
Proof.
  intros Hc Hds Hd Hne Hlen Hfit Hby Hlist Hplan.
  cut (∃ calls pages, settings_of r m = Ok calls ∧
    Forall2 (λ v rows, page_for ds r calls v = Ok rows) (query_vector r) pages ∧ run p = tagged pages).
  { intros (calls & pages & Hs & Hp & Hr). exists calls, pages. split_and!; [done..|]. intros Hpre row.
    apply prefilter_passes. unfold settings_of in Hs. apply bind_Ok in Hs as (pr & _ & [= <-]).
    apply elem_of_app. right. apply elem_of_app. left. unfold tuning_calls. rewrite Hpre.
    apply elem_of_app. right. apply list_elem_of_In. cbn. auto. }
  revert Hplan. rewrite levels. intros H. eapply plan_without_memwal in H; try done.
  destruct (query_vector r) as [|v [|v' vs]] eqn:Hq; [done| |].
  - destruct (scan_one_vector ds r v m p Hfit Hby H) as (calls & rows & Hcalls & Hpage & Hrun). exists calls, [rows].
    split_and!; [done| |done]. by repeat constructor.
  - destruct H as (name & field & element & Hname & Hfield & Helement & H). rewrite (Hlist _ _ _ Hname Hfield) in H.
    cbn [orb negb] in H. destruct (((default 0 (offset (base r)) =? 0)%Z && negb (is_uint8 element))) eqn:Hb.
    + apply andb_true_iff in Hb as [Ho%Z.eqb_eq Hu%negb_true_iff].
      destruct H as (vectors & Hm%mismatch_None & Hv%try_map_Ok & H).
      destruct (scan_batch_vectors ds r name element vectors m p Hfit Hby Ho Helement Hu H) as (calls & Hcalls & Hrun).
      assert (Forall (λ w, search_column ds (column r) (Z.of_nat (length (values w))) = Ok name) (v :: v' :: vs)) as Hnames.
      { eapply Forall_impl; [exact Hm|]. cbn. intros w ->. exact Hname. }
      assert (0 ≤ default DEFAULT_TOP_K (limit (base r)))%Z as Hlim.
      { destruct Hfit as (Hl0 & _). destruct (limit (base r)); cbn in *; unfold DEFAULT_TOP_K; lia. }
      eexists calls, _. split_and!; [done|by eapply batch_pages|]. rewrite Hrun, tagged_several.
      * by rewrite imap_fmap.
      * rewrite length_map. apply Forall2_length in Hv. cbn in Hv. lia.
    + destruct H as (plans & Hplans%try_map_Ok & H).
      destruct (union_pages t ds r m _ _ Hc Hds Hd Hfit Hby Hplans) as (calls & pages & Hcalls & Hpages & Hruns); [done|].
      exists calls, pages. split_and!; [done|done|]. apply create_multi_Ok in H as [columns ->]. pose proof (Forall2_length _ _ _ Hpages) as Hl.
      rewrite (run_multi columns plans pages); [|by rewrite <-Hl|done]. rewrite tagged_several; [done|]. rewrite <-Hl. cbn. lia.
Qed.
End pages.

Module Demo.
Import LsmRead.Demo.
#[export] Existing Instance MemWal.Demo.lance.
#[export] Existing Instance Query.Demo.tokenizer.
#[export] Existing Instance Query.Demo.unparser.
#[export] Existing Instance Query.Demo.deps.
#[export] Existing Instance vector_types.
#[export] Existing Instance lsm_lance.
#[export] Existing Instance lsm_scans.
#[export] Existing Instance TakeQuery.Demo.drop_kernel.
#[export] Instance profile : Profile := true.
#[export] Instance scan_lance : ScanLance := {
  ScanPlan := ();
  admits _ _ _ := Ok tt;
  lance_scan_plan _ _ := Ok tt;
  get_vector_type _ _ := Ok (TOther "Float32");
  cast_to_uint8 arg := Ok arg
}.
#[export] Instance operators : PlanOperators := {
  plan_schema _ := [];
  projects _ _ := true;
  unites _ := Ok tt;
  plan_partitions _ := [];
  plan_coalesce := mjoin;
  plan_global_limit _ _ partitions := partitions
}.
(** What a search by a vector finds: from as many as it has components on, and
    when it is to refine, in another order *)
Definition ranked (arg : QueryArg) (k : Z) : list nat :=
  match arg with Single v => take (Z.to_nat k) (seq (length (values v)) 20) | FixedSizeList _ => [] end.
(** A postfilter keeps the even rows. *)
Definition kept (cs : list ScanCall) (row : nat) : bool :=
  existsb (λ c, match c with Prefilter true => true | _ => false end) cs || Nat.even row.
#[export] Instance rows : ScanRows nat := {
  nearest _ _ _ arg k := ranked arg k;
  passes _ cs := kept cs;
  scan_rows _ cs :=
    let found v k := List.filter (kept (settings cs)) (ranked (Single v) k) in
    match searches cs, limits cs with
    | [(_, Single v, k)], [(l, o)] => map (pair None) (page l o (found v k))
    | [(_, FixedSizeList vs, k)], [] =>
        mjoin (imap (λ i v, map (pair (Some (Z.of_nat i))) (found (mkVector "Float32" v) k)) vs)
    | _, _ => []
    end
}.
#[export] Instance laws : ScanLaws.
Proof.
  split.
  - intros ds cs column arg k Hk. cbn. destruct arg; cbn; rewrite ?length_take; lia.
  - intros ds cs row Hin. cbn. unfold kept. apply orb_true_intro. left. apply existsb_exists.
    exists (Prefilter true). split; [by apply list_elem_of_In|done].
  - intros ds cs column v k l o H1 H2 _ _ _. cbn [scan_rows rows]. by rewrite H1, H2.
  - intros ds cs column vs k H1 H2 _. cbn [scan_rows rows]. by rewrite H1, H2.
  - intros v arg [= <-]. by exists v.
Qed.
#[export] Instance col_expr : TakeQuery.ColumnExpr := λ name, Query.Demo.text name.
Definition table : Table := mkTable _ None (Ok None) (Ok None) (Ok ["id"]).
Definition vectors : list VectorArray :=
  [mkVector "Float32" [S754_zero false]; mkVector "Float32" [S754_zero false; S754_zero false]].
Definition request (limit offset : option Z) : VectorQueryRequest :=
  set_column (Some "id") (set_query_vector vectors (from_plain_query (set_limit limit (set_offset offset default_query)))).
Definition planned : QPlan :=
  value_or (PMulti [] []) (create_plan_from 2 table (VectorQuery (request (Some 2%Z) (Some 1%Z))) 0).
End Demo.
Import LsmRead.Demo Demo.


(** Two vectors of different lengths, past the first row: a plan for each *)
Lemma query_vectors_are_paged_witness :
  create_plan_from 2 Demo.table (VectorQuery (request (Some 2%Z) (Some 1%Z))) 0 = Ok planned ∧
  ∃ calls pages, settings_of (request (Some 2%Z) (Some 1%Z)) 0 = Ok calls ∧
    Forall2 (λ v rows, page_for None (request (Some 2%Z) (Some 1%Z)) calls v = Ok rows) vectors pages ∧
    run (λ _, []) (λ _, []) planned = tagged pages ∧ pages = [[2; 3]; [3; 4]] ∧
    ∀ row, passes None calls row = true.
Proof.
  split; [apply value_or_Ok; vm_compute; reflexivity|].
  destruct (query_vectors_are_paged (λ _, []) (λ _, []) 0 Demo.table (request (Some 2%Z) (Some 1%Z)) 0 planned None)
    as (calls & pages & H1 & H2 & H3 & H4); try done.
  - intros len name f Hname. vm_compute in Hname. injection Hname as <-. vm_compute. by intros [= <-].
  - exists calls, pages. split_and!; [done|done|done| |by apply H4]. clear H3 H4.
    vm_compute in H1. injection H1 as <-.
    apply Forall2_cons_inv_l in H2 as (p1 & ? & E1 & H2 & ->). apply Forall2_cons_inv_l in H2 as (p2 & ? & E2 & H2 & ->).
    inversion H2; subst. vm_compute in E1, E2. congruence.
Defined.
End QueryPlan.
