(* ===== verification/NamespaceQuery.v ===== *)
(** * Queries on a namespace server (table/query.rs)

    Which queries of a local table run on the server of its namespace, the
    request such a query becomes and how the answer is read.  The client of the
    namespace and the readers of Arrow IPC are parameters. *)

From Stdlib Require Import String SpecFloat.
From stdpp Require Import strings gmap.
From S2P Require Import Prelude RustStr Floats SqlText MemWal Query LsmRead.

Module NamespaceQuery.
Import SqlText (Expr, Unparser, PredicateTokenizer, expr_to_sql_string).
Import MemWal (Lance, Dataset, mem_wal_index_details).
Import LsmRead (as_i32, is_some).
Import Query.
Local Open Scope string_scope.

(** ** The request of the namespace client *)
Record NsRequest : Type := mkRequest {
  id : option (list string);
  single_vector : option (list spec_float);
  multi_vector : option (list (list spec_float));
  k : Z;
  vector_column : option string;
  ns_filter : option string;
  ns_columns : option (list string);
  column_aliases : option (gmap string string);
  ns_offset : option Z;
  ns_distance_type : option string;
  ns_nprobes : option Z;
  ns_minimum_nprobes : option Z;
  ns_maximum_nprobes : option Z;
  ns_ef : option Z;
  ns_refine_factor : option Z;
  ns_lower_bound : option spec_float;
  ns_upper_bound : option spec_float;
  ns_prefilter : option bool;
  ns_fast_search : option bool;
  ns_with_row_id : option bool;
  bypass_vector_index : option bool;
  full_text_query : option (string * option (list string))
}.
(** Query vectors may be fixed-size lists of floats, of which the code takes
    the values; [distance_name] is Lance's name of a metric. *)
Class NamespaceClient : Type := {
  Bytes : Type;
  Stream : Type;
  fixed_size_list_values : VectorArray → option (list spec_float);
  distance_name : DistanceType → string;
  query_table : NsRequest → outcome string Bytes;
  starts_with_magic : list Z → Bytes → bool;
  Reader : Type;
  open_ipc_file : Bytes → outcome string Reader;
  open_ipc_stream : Bytes → outcome string Reader;
  read_batches : Reader → outcome string Stream
}.
(** A table, as far as the choice looks into it *)
Record Table `{L : Lance} : Type := mkTable {
  pushes_query_table : bool;
  has_namespace_client : bool;
  current_branch : option string;
  time_travel_version : option Z;
  dataset : result Dataset;
  namespace : list string;
  name : string
}.

Section namespace.
Context {L : Lance} {U : Unparser} {T : PredicateTokenizer} {D : QueryDeps} {N : NamespaceClient}.

(** ** Where a query runs *)
Definition requires_local_namespace_execution (q : AnyQuery) : bool :=
  is_some (use_memwal (any_base q)) || is_some (take_offsets (any_base q)) ||
  match q with
  | VectorQuery r => is_some (approx_mode r) || is_some (search_effort r)
  | PlainQuery _ => false
  end.
Definition can_execute_namespace_query (t : Table) (q : AnyQuery) : result bool :=
  if negb (pushes_query_table t && has_namespace_client t && negb (is_some (current_branch t)) &&
           negb (is_some (time_travel_version t)) && negb (requires_local_namespace_execution q))
  then Ok false
  else
    ds ← dataset t;
    details ← mem_wal_index_details ds;
    Ok (negb (is_some details)).

(** ** The request *)
Definition filter_to_sql (f : QueryFilter) : result string :=
  match f with
  | Sql sql => Ok sql
  | Substrait _ => Err (NotSupported "Substrait filters are not supported for server-side queries")
  | Datafusion e => expr_to_sql_string e
  end.
Definition array_to_f32_vec (v : VectorArray) : result (list spec_float) :=
  match fixed_size_list_values v with
  | Some values => Ok values
  | None =>
      if String.eqb (vector_type v) "Float32" then Ok (values v)
      else Err (InvalidInput "Query vector must be Float32 type")
  end.
Definition extract_query_vector (vectors : list VectorArray)
    : result (option (list spec_float) * option (list (list spec_float))) :=
  match vectors with
  | [] => Err (InvalidInput "Query vector is required for vector search")
  | [v] => v ← array_to_f32_vec v; Ok (Some v, None)
  | vs => vs ← try_map array_to_f32_vec vs; Ok (None, Some vs)
  end.
Definition filter_text (f : option QueryFilter) : result (option string) :=
  match f with Some f => sql ← filter_to_sql f; Ok (Some sql) | None => Ok None end.
(** A map collected from pairs keeps the last of a name. *)
Definition collect_aliases (pairs : list (string * string)) : gmap string string :=
  foldl (λ m p, <[p.1 := p.2]> m) ∅ pairs.
Definition convert_select (dynamic : string) (s : Select)
    : result (option (list string) * option (gmap string string)) :=
  match s with
  | SelectAll => Ok (None, None)
  | Columns columns => Ok (Some columns, None)
  | Dynamic _ => Err (NotSupported dynamic)
  | ExprSelect pairs =>
      pairs ← try_map (λ p : string * Expr, sql ← expr_to_sql_string p.2; Ok (p.1, sql)) pairs;
      Ok (None, Some (collect_aliases pairs))
  end.
Definition convert_full_text (f : FullTextSearchQuery) : string * option (list string) :=
  (fts_text f, match fts_columns f with [] => None | columns => Some columns end).
Definition convert_vector_query (r : VectorQueryRequest) : result NsRequest :=
  let b := base r in
  vector ← extract_query_vector (query_vector r);
  filter ← filter_text (filter b);
  columns ← convert_select "Dynamic column selection is not supported for server-side queries" (select b);
  if is_some (search_effort r)
  then Err (NotSupported "namespace QueryTable does not support search_effort; execute the query locally")
  else if is_some (reranker b) then Err (NotSupported "Reranker is not supported for server-side queries")
  else Ok (mkRequest None vector.1 vector.2 (as_i32 (default 10%Z (limit b))) (column r) filter columns.1 columns.2
    (as_i32 <$> offset b) (distance_name <$> distance_type r) (as_i32 <$> nprobes r) (as_i32 <$> minimum_nprobes r)
    (as_i32 <$> maximum_nprobes r) (as_i32 <$> ef r) (as_i32 <$> refine_factor r) (lower_bound r) (upper_bound r)
    (Some (prefilter b)) (Some (fast_search b)) (Some (with_row_id b)) (Some (negb (use_index r)))
    (convert_full_text <$> full_text_search b)).
Definition convert_plain_query (q : QueryRequest) : result NsRequest :=
  if is_some (reranker q) then Err (NotSupported "Reranker is not supported for server-side query execution")
  else
    filter ← filter_text (filter q);
    columns ← convert_select "Dynamic columns are not supported for server-side query" (select q);
    Ok (mkRequest None (Some []) None (as_i32 (default 10%Z (limit q))) None filter columns.1 columns.2
      (as_i32 <$> offset q) None None None None None None None None
      (Some (prefilter q)) None (Some (with_row_id q)) (Some true) (convert_full_text <$> full_text_search q)).
Definition convert_to_namespace_query (q : AnyQuery) : result NsRequest :=
  _ ← check_filter (any_base q);
  match q with VectorQuery r => convert_vector_query r | PlainQuery q => convert_plain_query q end.

(** ** Running it *)
Definition set_id (v : option (list string)) (r : NsRequest) : NsRequest :=
  let 'mkRequest _ s m k c f cs al o d n mi ma e rf lo up p fa w b t := r in
  mkRequest v s m k c f cs al o d n mi ma e rf lo up p fa w b t.
(** "ARROW1" *)
Definition ARROW_IPC_FILE_MAGIC : list Z := [65; 82; 82; 79; 87; 49]%Z.
Definition parse_arrow_ipc_response (bytes : Bytes) : result Stream :=
  if starts_with_magic ARROW_IPC_FILE_MAGIC bytes then
    reader ← map_err (λ e, Runtime ("Failed to parse Arrow IPC file response: " +:+ e)) (open_ipc_file bytes);
    map_err (λ e, Runtime ("Failed to read Arrow IPC file batches: " +:+ e)) (read_batches reader)
  else
    reader ← map_err (λ e, Runtime ("Failed to parse Arrow IPC response: " +:+ e)) (open_ipc_stream bytes);
    map_err (λ e, Runtime ("Failed to read Arrow IPC batches: " +:+ e)) (read_batches reader).
Definition execute_namespace_query (t : Table) (q : AnyQuery) : result Stream :=
  request ← convert_to_namespace_query q;
  bytes ← map_err (λ e, Runtime ("Failed to execute server-side query: " +:+ e))
    (query_table (set_id (Some (namespace t ++ [name t])%list) request));
  parse_arrow_ipc_response bytes.
(** [local]: the plan of QueryPlan, run by DataFusion *)
Definition execute_query (local : AnyQuery → result Stream) (t : Table) (q : AnyQuery) : result Stream :=
  q ← canonicalized q;
  pushed ← can_execute_namespace_query t q;
  if (pushed : bool) then execute_namespace_query t q else local q.

(** * What the server is asked *)

(** A request read back, by a server that knows the metrics' names *)
Context (distance_of : string → option DistanceType).
Definition read_select (columns : option (list string)) (aliases : option (gmap string string)) : Select :=
  match columns, aliases with
  | Some columns, _ => Columns columns
  | None, Some aliases => Dynamic (map_to_list aliases)
  | None, None => SelectAll
  end.
Definition read_base (r : NsRequest) : QueryRequest :=
  mkQuery (Some (k r)) (ns_offset r) None (Sql <$> ns_filter r) None
    ((λ f : string * option (list string), mkFts f.1 (default [] f.2) None) <$> full_text_query r)
    (read_select (ns_columns r) (column_aliases r)) (default false (ns_fast_search r)) (default false (ns_with_row_id r))
    (default true (ns_prefilter r)) None None false None None.
Definition f32_vector (xs : list spec_float) : VectorArray := mkVector "Float32" xs.
Definition read_request (r : NsRequest) : AnyQuery :=
  match single_vector r, multi_vector r with
  | Some [], _ => PlainQuery (read_base r)
  | Some v, _ => VectorQuery (mkVectorQuery (read_base r) (vector_column r) [f32_vector v] (ns_nprobes r) (ns_minimum_nprobes r)
      (ns_maximum_nprobes r) None (ns_lower_bound r) (ns_upper_bound r) (ns_ef r) (ns_refine_factor r)
      (ns_distance_type r ≫= distance_of) None (negb (default false (bypass_vector_index r))))
  | None, vs => VectorQuery (mkVectorQuery (read_base r) (vector_column r) (map f32_vector (default [] vs)) (ns_nprobes r)
      (ns_minimum_nprobes r) (ns_maximum_nprobes r) None (ns_lower_bound r) (ns_upper_bound r) (ns_ef r) (ns_refine_factor r)
      (ns_distance_type r ≫= distance_of) None (negb (default false (bypass_vector_index r))))
  end.
(** ** What is asked and what is read

    The query that is read has the filter and the expressions of the projection
    as text, the latter in no order, and its vectors as lists of floats; it is
    the query that was asked in every other respect. *)
Definition reads_filter (f g : option QueryFilter) : Prop :=
  match f, g with
  | None, None => True
  | Some (Sql sql), Some (Sql text) => text = sql
  | Some (Datafusion e), Some (Sql text) => expr_to_sql_string e = Ok text
  | _, _ => False
  end.
Definition reads_select (s s' : Select) : Prop :=
  match s, s' with
  | SelectAll, SelectAll => True
  | Columns columns, Columns columns' => columns' = columns
  | ExprSelect pairs, Dynamic columns => ∃ texts,
      Forall2 (λ p text, expr_to_sql_string p.2 = Ok text) pairs texts ∧
      columns ≡ₚ zip (map fst pairs) texts
  | _, _ => False
  end.
Definition reads_vector (v v' : VectorArray) : Prop :=
  vector_type v' = "Float32" ∧
  (fixed_size_list_values v = Some (values v') ∨
   fixed_size_list_values v = None ∧ vector_type v = "Float32" ∧ values v' = values v).
(** [top]: the limit of the query *)
Definition reads_base (top : option Z) (q q' : QueryRequest) : Prop := ∃ f s,
  reads_filter (filter q) f ∧ reads_select (select q) s ∧
  q' = mkQuery top (offset q) (take_offsets q) f (filter_error q) (full_text_search q) s (fast_search q)
         (with_row_id q) (prefilter q) (reranker q) (norm q) (disable_scoring_autoprojection q) (order_by q)
         (use_memwal q).
(** A vector search has ten results unless it says otherwise. *)
Definition reads_query (q q' : AnyQuery) : Prop :=
  match q, q' with
  | PlainQuery q, PlainQuery q' => reads_base (limit q) q q'
  | VectorQuery r, VectorQuery r' => ∃ b vs,
      reads_base (Some (default 10%Z (limit (base r)))) (base r) b ∧
      Forall2 reads_vector (query_vector r) vs ∧
      r' = mkVectorQuery b (column r) vs (nprobes r) (minimum_nprobes r) (maximum_nprobes r) (search_effort r)
             (lower_bound r) (upper_bound r) (ef r) (refine_factor r) (distance_type r) (approx_mode r) (use_index r)
  | _, _ => False
  end.

(** ** What a request cannot say

    The code pushes these down all the same, see [request_forgets]: an order of
    the rows, how scores are normalized and projected, a full text query that
    is not a plain match, two expressions of one name; and, for a query without
    a vector, that there is no limit or that only indexed rows are wanted. *)
Definition sayable_base (q : QueryRequest) : Prop :=
  order_by q = None ∧ norm q = None ∧ disable_scoring_autoprojection q = false ∧
  (∀ f, full_text_search q = Some f → fts_structure f = None) ∧
  (∀ pairs, select q = ExprSelect pairs → NoDup (map fst pairs)).
Definition sayable (q : AnyQuery) : Prop :=
  sayable_base (any_base q) ∧
  match q with PlainQuery q => is_Some (limit q) ∧ fast_search q = false | VectorQuery _ => True end.
Lemma request_forgets q l f o b fts s :
  convert_to_namespace_query (PlainQuery q) =
    convert_to_namespace_query (PlainQuery (set_fast_search f (set_order_by o (set_norm b q)))) ∧
  convert_to_namespace_query (PlainQuery (set_limit None q)) =
    convert_to_namespace_query (PlainQuery (set_limit (Some 10%Z) q)) ∧
  convert_to_namespace_query (PlainQuery (set_full_text_search (Some (mkFts l fts s)) q)) =
    convert_to_namespace_query (PlainQuery (set_full_text_search (Some (mkFts l fts None)) q)).
Proof. destruct q. split_and!; reflexivity. Qed.

(** ** Requests that fit *)
Definition fits (v : option Z) : Prop := match v with Some v => (0 ≤ v < 2 ^ 31)%Z | None => True end.
Definition fits_base (q : QueryRequest) : Prop := fits (limit q) ∧ fits (offset q).
Definition fits_query (q : AnyQuery) : Prop :=
  fits_base (any_base q) ∧
  match q with
  | PlainQuery _ => True
  | VectorQuery r => fits (nprobes r) ∧ fits (minimum_nprobes r) ∧ fits (maximum_nprobes r) ∧ fits (ef r) ∧ fits (refine_factor r) ∧
      Forall (λ v, array_to_f32_vec v ≠ Ok []) (query_vector r)
  end.
Lemma as_i32_small v : (0 ≤ v < 2 ^ 31)%Z → as_i32 v = v.
Proof. intros Hv. unfold as_i32. rewrite Z.mod_small by lia. by rewrite (proj2 (Z.ltb_lt _ _)) by lia. Qed.
Lemma as_i32_fits v : fits v → as_i32 <$> v = v.
Proof. destruct v as [v|]; [|done]. intros Hv. cbn. by rewrite as_i32_small. Qed.
Lemma as_i32_limit v : fits v → as_i32 (default 10%Z v) = default 10%Z v.
Proof. destruct v as [v|]; [|done]. apply as_i32_small. Qed.
Lemma read_full_text (f : option FullTextSearchQuery) : (∀ q, f = Some q → fts_structure q = None) →
  (λ f : string * option (list string), mkFts f.1 (default [] f.2) None) <$> (convert_full_text <$> f) = f.
Proof.
  destruct f as [[text columns structure]|]; [|done]. intros Hs. cbn. specialize (Hs _ eq_refl). cbn in Hs. subst.
  by destruct columns.
Qed.
Lemma read_filter f text : filter_text f = Ok text → reads_filter f (Sql <$> text).
Proof.
  destruct f as [[sql|p|e]|]; cbn; [|done| |].
  - by intros [= <-].
  - destruct (expr_to_sql_string e) as [sql| |] eqn:He; [|done..]. by intros [= <-].
  - by intros [= <-].
Qed.
Lemma collected_aliases (pairs : list (string * string)) : NoDup pairs.*1 → ∀ m : gmap string string, (∀ p, p ∈ pairs → m !! p.1 = None) →
  map_to_list (foldl (λ m p, <[p.1 := p.2]> m) m pairs) ≡ₚ (pairs ++ map_to_list m)%list.
Proof.
  induction pairs as [|[n t] pairs IH]; intros Hnd m Hm; [done|]. cbn in *. apply NoDup_cons in Hnd as [Hn Hnd].
  rewrite IH; [|done|].
  - rewrite map_to_list_insert by (apply (Hm (n, t)); by left). by rewrite Permutation_middle.
  - intros p Hp. rewrite lookup_insert_ne; [apply Hm; by right|]. intros ->. apply Hn.
    by apply (list_elem_of_fmap_2 fst).
Qed.
Lemma read_selected message s columns : (∀ pairs, s = ExprSelect pairs → NoDup (map fst pairs)) →
  convert_select message s = Ok columns → reads_select s (read_select columns.1 columns.2).
Proof.
  intros Hnd. destruct s as [|cs|ds|pairs]; cbn; try done; try (by intros [= <-]).
  intros (texts & Ht%try_map_Ok & [= <-])%bind_Ok. cbn. specialize (Hnd _ eq_refl).
  assert (texts.*1 = map fst pairs ∧ Forall2 (λ p text, expr_to_sql_string p.2 = Ok text) pairs texts.*2) as [Hfst Hsnd].
  { clear Hnd. induction Ht as [|p t pairs texts Hp _ [IH1 IH2]]; [by split; [|constructor]|].
    apply bind_Ok in Hp as (sql & He & [= <-]). cbn. rewrite IH1. split; [done|]. by constructor. }
  exists texts.*2. split; [done|]. rewrite <-Hfst. unfold collect_aliases.
  rewrite collected_aliases; [|by rewrite Hfst|by intros; apply lookup_empty].
  rewrite map_to_list_empty, app_nil_r. clear. induction texts as [|[n t] l IH]; [done|]. cbn. by rewrite <-IH.
Qed.
Lemma read_vector v xs : array_to_f32_vec v = Ok xs → reads_vector v (f32_vector xs).
Proof.
  unfold array_to_f32_vec, reads_vector. destruct (fixed_size_list_values v) as [ys|]; [intros [= <-]; by split; [|left]|].
  destruct (String.eqb_spec (vector_type v) "Float32") as [Ht|]; [|done]. intros [= <-]. split; [done|by right].
Qed.
Lemma read_vectors vs xs : try_map array_to_f32_vec vs = Ok xs → Forall2 reads_vector vs (map f32_vector xs).
Proof. intros H%try_map_Ok. induction H as [|v x vs xs Hv _ IH]; constructor; [by apply read_vector|done]. Qed.
Lemma requires_local_false q : requires_local_namespace_execution q = false →
  use_memwal (any_base q) = None ∧ take_offsets (any_base q) = None ∧
  match q with VectorQuery r => approx_mode r = None ∧ search_effort r = None | PlainQuery _ => True end.
Proof.
  unfold requires_local_namespace_execution. intros H. apply orb_false_iff in H as [[H1 H2]%orb_false_iff H3].
  split_and!; [by destruct (use_memwal _)|by destruct (take_offsets _)|]. destruct q as [q|r]; [done|].
  apply orb_false_iff in H3 as [H3 H4]. split; [by destruct (approx_mode r)|by destruct (search_effort r)].
Qed.

(** The base of the query that is read *)
Lemma base_reads b r top columns text message : sayable_base b → fits_base b →
  use_memwal b = None → take_offsets b = None → filter_error b = None → reranker b = None →
  filter_text (filter b) = Ok text → convert_select message (select b) = Ok columns →
  k r = top → ns_offset r = as_i32 <$> offset b → ns_filter r = text → full_text_query r = convert_full_text <$> full_text_search b →
  ns_columns r = columns.1 → column_aliases r = columns.2 → default false (ns_fast_search r) = fast_search b →
  ns_with_row_id r = Some (with_row_id b) → ns_prefilter r = Some (prefilter b) →
  reads_base (Some top) b (read_base r).
Proof.
  intros (Hord & Hnorm & Hdis & Hfts & Hnd) [_ Hoff] Hmem Htake Herr Hre Ht Hc Hk Ho Hf Hfull Hcols Hal Hfast Hrow Hpre.
  exists (Sql <$> text), (read_select columns.1 columns.2). split; [by apply read_filter|].
  split; [by eapply read_selected|]. unfold read_base.
  rewrite Hk, Ho, Hf, Hfull, Hcols, Hal, Hfast, Hrow, Hpre, Hord, Hnorm, Hdis, Hmem, Htake, Herr, Hre.
  rewrite as_i32_fits by done. by rewrite read_full_text.
Qed.
Lemma plain_reads b r : fits_query (PlainQuery b) → use_memwal b = None → take_offsets b = None → True →
  filter_error b = None → convert_plain_query b = Ok r →
  (sayable (PlainQuery b) → reads_query (PlainQuery b) (read_request r)) ∧ id r = None ∧ reranker b = None.
Proof.
  intros [[Hlim Hoff] _] Hm Ho _ Hfe Hr. unfold convert_plain_query in Hr. destruct (reranker b) eqn:Hre; [done|].
  cbn [is_some] in Hr. apply bind_Ok in Hr as (f & Hft & (columns & Hs & [= <-])%bind_Ok). split_and!; [|done|done].
  intros [Hsay [[l Hl] Hfast]]. cbn [any_base] in Hsay. unfold read_request. cbn [single_vector reads_query].
  rewrite Hl. eapply (base_reads b _ l); try done.
  - cbn [k default]. cbn [any_base] in Hlim. rewrite Hl in Hlim. by apply as_i32_small.
Qed.
Lemma vector_reads v r : (∀ d, distance_of (distance_name d) = Some d) → fits_query (VectorQuery v) →
  use_memwal (base v) = None → take_offsets (base v) = None →
  approx_mode v = None ∧ search_effort v = None → filter_error (base v) = None → convert_vector_query v = Ok r →
  (sayable (VectorQuery v) → reads_query (VectorQuery v) (read_request r)) ∧ id r = None ∧ reranker (base v) = None.
Proof.
  intros Hd [[Hlim Hoff] (Hq1 & Hq2 & Hq3 & Hq4 & Hq5 & Hvs)] Hm Ho [Hap Hse] Hfe Hr. unfold convert_vector_query in Hr.
  apply bind_Ok in Hr as (vector & Hvec & (f & Hft & (columns & Hs & Hr)%bind_Ok)%bind_Ok).
  rewrite Hse in Hr. cbn [is_some] in Hr. destruct (reranker (base v)) eqn:Hre; [done|]. cbn [is_some] in Hr.
  injection Hr as <-. split_and!; [|done|done]. intros [Hsay _]. cbn [any_base] in *.
  assert ((distance_name <$> distance_type v) ≫= distance_of = distance_type v) as Hdist.
  { destruct (distance_type v); [|done]. cbn. apply Hd. }
  assert (∀ r, k r = default 10%Z (limit (base v)) → ns_offset r = as_i32 <$> offset (base v) → ns_filter r = f →
    full_text_query r = convert_full_text <$> full_text_search (base v) → ns_columns r = columns.1 →
    column_aliases r = columns.2 → default false (ns_fast_search r) = fast_search (base v) →
    ns_with_row_id r = Some (with_row_id (base v)) → ns_prefilter r = Some (prefilter (base v)) →
    reads_base (Some (default 10%Z (limit (base v)))) (base v) (read_base r)) as Hbase.
  { intros. by eapply base_reads; [done|split|done..]. }
  unfold extract_query_vector in Hvec. unfold read_request. cbn [any_base reads_query]. destruct (query_vector v) as [|x [|y l]]; [done| |].
  - apply bind_Ok in Hvec as (xs & Hx & [= <-]). apply Forall_cons in Hvs as [Hne _].
    destruct xs as [|z xs]; [done|]. cbn [single_vector multi_vector fst snd].
    match goal with |- context [read_base ?r] => exists (read_base r), [f32_vector (z :: xs)] end. split; [|split; [constructor; [by apply read_vector|constructor]|]].
    { apply Hbase; try done. cbn [k]. by apply as_i32_limit. }
    cbn. rewrite !as_i32_fits by done. by rewrite negb_involutive, Hdist, Hse, Hap.
  - apply bind_Ok in Hvec as (xs & Hx & [= <-]). cbn [single_vector multi_vector fst snd].
    match goal with |- context [read_base ?r] => exists (read_base r), (map f32_vector xs) end. split; [|split; [by apply read_vectors|]].
    { apply Hbase; try done. cbn [k]. by apply as_i32_limit. }
    cbn. rewrite !as_i32_fits by done. by rewrite negb_involutive, Hdist, Hse, Hap.
Qed.

End namespace.

Module Demo.
#[export] Existing Instance MemWal.Demo.lance.
#[export] Existing Instance Query.Demo.tokenizer.
#[export] Existing Instance Query.Demo.unparser.
#[export] Existing Instance Query.Demo.deps.
#[export] Instance client : NamespaceClient := {
  Bytes := list Z;
  Stream := list Z;
  fixed_size_list_values _ := None;
  distance_name d := match d with L2 => "l2" | Cosine => "cosine" | Dot => "dot" | Hamming => "hamming" end;
  query_table _ := Ok [];
  starts_with_magic magic bytes := bool_decide (take (length magic) bytes = magic);
  Reader := list Z;
  open_ipc_file bytes := Ok bytes;
  open_ipc_stream bytes := Ok bytes;
  read_batches r := Ok r
}.
Definition distance_of (s : string) : option DistanceType :=
  if String.eqb s "l2" then Some L2 else if String.eqb s "cosine" then Some Cosine
  else if String.eqb s "dot" then Some Dot else if String.eqb s "hamming" then Some Hamming else None.
Definition table : Table := mkTable _ true true None None (Ok None) ["ns"] "t".
Definition query : AnyQuery :=
  VectorQuery (set_distance_type (Some Cosine) (set_nprobes (Some 4%Z) (set_query_vector [f32_vector [S754_zero false]]
    (from_plain_query (set_offset (Some 3%Z) (set_filter (Some (Datafusion (Query.Demo.text "a > 1"))) default_query)))))).
Definition request : NsRequest :=
  match convert_to_namespace_query query with
  | Ok r => r
  | _ => mkRequest None None None 0 None None None None None None None None None None None None None None None None None None
  end.
End Demo.
Import Demo.

End NamespaceQuery.
