(* ===== verification/ListingDb.v ===== *)
(** * The directory database (database/listing.rs)

    A database whose tables are the directories [<name>.lance] of one directory:
    its options, the parameters a new table is written with, creating, opening,
    cloning and dropping tables, and the two ways of listing them.  The object
    store and Lance's datasets are parameters; child namespaces belong to the
    namespace database, which is another component. *)

From Stdlib Require Import Ascii String.
From stdpp Require Import strings gmap sorting.
From S2P Require Import Prelude RustStr RustText Names Schema ComputedColumns Refresh SchemaChanges Admission MergeBuilder.

Module ListingDb.
Import Names (validate_table_name).
Import Schema (ArrowSchema, ArrowSchema_eq_dec).
Import ComputedColumns (Planner, BindingChecks, str_le, str_le_dec).
Import Admission (Batch, admit_create_source, UnfilledDeclarations).
Local Open Scope string_scope.

Definition LANCE_FILE_EXTENSION : string := "lance".
Definition LANCE_EXTENSION : string := "lance".
Definition OPT_NEW_TABLE_STORAGE_VERSION : string := "new_table_data_storage_version".
Definition OPT_NEW_TABLE_V2_MANIFEST_PATHS : string := "new_table_enable_v2_manifest_paths".
Definition OPT_NEW_TABLE_ENABLE_STABLE_ROW_IDS : string := "new_table_enable_stable_row_ids".

(** ** Options *)
(** Lance's file versions: [is_old] says a version resolves to 1, 2.0 or 2.1 *)
Class FileVersions : Type := {
  LanceFileVersion : Type;
  parse_version : string → result LanceFileVersion;
  version_to_string : LanceFileVersion → string;
  Stable : LanceFileVersion;
  V2_2 : LanceFileVersion;
  is_old : LanceFileVersion → bool
}.
Record NewTableConfig `{FileVersions} : Type := mkConfig {
  data_storage_version : option LanceFileVersion;
  enable_v2_manifest_paths : option bool;
  enable_stable_row_ids : option bool
}.
Arguments mkConfig {_} _ _ _.
Record ListingDatabaseOptions `{FileVersions} : Type := mkOptions {
  new_table_config : NewTableConfig; option_storage : gmap string string
}.
Arguments mkOptions {_} _ _.
(** [str::parse::<bool>] *)
Definition parse_bool (s : string) : option bool :=
  if String.eqb s "true" then Some true else if String.eqb s "false" then Some false else None.
Definition bool_to_string (b : bool) : string := if b then "true" else "false".
Definition parse_opt {A} (p : string → result A) (o : option string) : result (option A) :=
  match o with Some s => a ← p s; Ok (Some a) | None => Ok None end.

Section options.
Context {FV : FileVersions}.

Definition parse_flag (message s : string) : result bool := ok_or (InvalidInput message) (parse_bool s).
Definition parse_from_map (m : gmap string string) : result ListingDatabaseOptions :=
  version ← parse_opt parse_version (m !! OPT_NEW_TABLE_STORAGE_VERSION);
  v2 ← parse_opt (parse_flag "enable_v2_manifest_paths must be a boolean, received {}") (m !! OPT_NEW_TABLE_V2_MANIFEST_PATHS);
  stable ← parse_opt (parse_flag "enable_stable_row_ids must be a boolean, received {}")
             (m !! OPT_NEW_TABLE_ENABLE_STABLE_ROW_IDS);
  Ok (mkOptions (mkConfig version v2 stable)
        (filter (λ kv, kv.1 ≠ OPT_NEW_TABLE_STORAGE_VERSION ∧ kv.1 ≠ OPT_NEW_TABLE_V2_MANIFEST_PATHS ∧
                       kv.1 ≠ OPT_NEW_TABLE_ENABLE_STABLE_ROW_IDS) m)).
Definition insert_opt (key : string) (v : option string) (m : gmap string string) : gmap string string :=
  match v with Some v => <[key := v]> m | None => m end.
Definition serialize_into_map (o : ListingDatabaseOptions) (m : gmap string string) : gmap string string :=
  let config := new_table_config o in
  insert_opt OPT_NEW_TABLE_ENABLE_STABLE_ROW_IDS (bool_to_string <$> enable_stable_row_ids config)
    (insert_opt OPT_NEW_TABLE_V2_MANIFEST_PATHS (bool_to_string <$> enable_v2_manifest_paths config)
      (insert_opt OPT_NEW_TABLE_STORAGE_VERSION (version_to_string <$> data_storage_version config) m)).

(** ** Parameters of the store, of writes and of reads *)
(** An accessor of storage options: those it starts with, and a provider *)
Record Accessor : Type := mkAccessor { initial : option (gmap string string); provider : option Z }.
Record StoreParams : Type := mkStoreParams { accessor : option Accessor; object_store_wrapper : option Z }.
Definition default_store : StoreParams := mkStoreParams None None.
Definition storage_options_of (p : StoreParams) : option (gmap string string) := accessor p ≫= initial.
Definition provider_of (p : StoreParams) : option Z := accessor p ≫= provider.
Inductive WriteMode : Type := WCreate | WAppend | WOverwrite.
Record WriteParams : Type := mkWrite {
  store_params : option StoreParams;
  write_version : option LanceFileVersion;
  write_v2_paths : bool;
  write_stable_row_ids : bool;
  mode : WriteMode;
  write_session : option Z
}.
Record ReadParams : Type := mkRead {
  store_options : option StoreParams; index_cache : option Z; read_session : option Z
}.
Definition patch_store (wrapper : Z) (p : option StoreParams) : result (option StoreParams) :=
  let p := default default_store p in
  match object_store_wrapper p with
  | Some _ => Err (Other "can not patch param because object store is already set")
  | None => Ok (Some (mkStoreParams (accessor p) (Some wrapper)))
  end.
Definition patch_write (wrapper : option Z) (p : WriteParams) : result WriteParams :=
  match wrapper with
  | Some wrapper =>
      s ← patch_store wrapper (store_params p);
      Ok (mkWrite s (write_version p) (write_v2_paths p) (write_stable_row_ids p) (mode p) (write_session p))
  | None => Ok p
  end.
Definition patch_read (wrapper : option Z) (p : ReadParams) : result ReadParams :=
  match wrapper with
  | Some wrapper => s ← patch_store wrapper (store_options p); Ok (mkRead s (index_cache p) (read_session p))
  | None => Ok p
  end.

(** ** The keys of a request that configure a new table *)
Definition strip_new_table_creation_keys (p : StoreParams) : StoreParams :=
  let '(options, removed) :=
    foldl (λ '(options, removed) key, (delete key options, removed || bool_decide (is_Some (options !! key))))
      (default ∅ (storage_options_of p), false)
      [OPT_NEW_TABLE_STORAGE_VERSION; OPT_NEW_TABLE_V2_MANIFEST_PATHS; OPT_NEW_TABLE_ENABLE_STABLE_ROW_IDS] in
  if negb removed then p
  else
    mkStoreParams
      (match bool_decide (options = ∅), provider_of p with
       | true, None => None
       | true, Some provider => Some (mkAccessor None (Some provider))
       | false, provider => Some (mkAccessor (Some options) provider)
       end) (object_store_wrapper p).
Definition take_request_creation_overrides (p : WriteParams) : result (NewTableConfig * WriteParams) :=
  let options := store_params p ≫= storage_options_of in
  version ← parse_opt parse_version (options ≫= lookup OPT_NEW_TABLE_STORAGE_VERSION);
  v2 ← parse_opt (parse_flag "enable_v2_manifest_paths must be a boolean") (options ≫= lookup OPT_NEW_TABLE_V2_MANIFEST_PATHS);
  stable ← parse_opt (parse_flag "enable_stable_row_ids must be a boolean")
             (options ≫= lookup OPT_NEW_TABLE_ENABLE_STABLE_ROW_IDS);
  Ok (mkConfig version v2 stable,
      mkWrite (strip_new_table_creation_keys <$> store_params p) (write_version p) (write_v2_paths p)
        (write_stable_row_ids p) (mode p) (write_session p)).
End options.

(** ** The directory *)
Inductive LanceError : Type := DatasetNotFound | DatasetAlreadyExists | NotFound | OtherLance (e : Error).
Inductive VersionRef : Type := RefVersion (v : Z) | RefTag (tag : string).
(** The object store below a directory and Lance's datasets in it, as states of
    a world.  A listing returns the names of the children, or a page of those
    that are directories; a load takes the commit handler of a managed table. *)
Class Directory (V : Type) `{FV : FileVersions} : Type := {
  World : Type;
  Dataset : Type;
  path : Type;
  join : path → string → path;
  read_dir : World → path → result (list string);
  read_dir_page : World → path → option string → option Z → result (list string * option string);
  load : World → string → ReadParams → bool → outcome LanceError Dataset;
  execute_stream : World → string → WriteParams → UnfilledDeclarations (V := V) → World * outcome LanceError Dataset;
  shallow_clone : World → Dataset → string → VersionRef → World * result unit;
  commit_handler_from_url : string → gmap string string → result unit;
  commit_delete : World → path → World * result unit;
  remove_dir_all : World → path → World * outcome LanceError unit;
  dataset_schema : Dataset → ArrowSchema;
  dataset_version : Dataset → Z;
  describe_managed : list string → outcome string (option bool);
  separator : string
}.
Definition lance_error (e : LanceError) : Error :=
  match e with
  | OtherLance e => e
  | DatasetNotFound => Lance "DatasetNotFound"
  | DatasetAlreadyExists => Lance "DatasetAlreadyExists"
  | NotFound => Lance "NotFound"
  end.

(** ** Requests *)
Record OpenTableRequest : Type := mkOpen {
  open_name : string;
  open_namespace : list string;
  index_cache_size : option Z;
  lance_read_params : option ReadParams;
  open_location : option string;
  open_namespace_client : bool;
  managed_versioning : option bool
}.
Inductive CreateTableMode : Type := Create | ExistOk (callback : OpenTableRequest → OpenTableRequest) | Overwrite.
Record CreateTableRequest (V : Type) `{FV : FileVersions} : Type := mkCreate {
  create_name : string;
  create_namespace : list string;
  data : ArrowSchema * list (result (Batch (V := V)));
  create_mode : CreateTableMode;
  lance_write_params : option WriteParams;
  create_location : option string;
  create_namespace_client : bool
}.
Arguments create_name {V FV} _. Arguments create_namespace {V FV} _. Arguments data {V FV} _.
Arguments create_mode {V FV} _. Arguments lance_write_params {V FV} _. Arguments create_location {V FV} _.
Arguments create_namespace_client {V FV} _.
Record CloneTableRequest : Type := mkClone {
  target_table_name : string;
  target_namespace_path : list string;
  source_uri : string;
  source_version : option Z;
  source_tag : option string;
  is_shallow : bool;
  clone_namespace_client : bool
}.
Record TableNamesRequest : Type := mkNames {
  names_namespace : list string; start_after : option string; names_limit : option Z
}.
Record ListTablesRequest : Type := mkList { list_id : option (list string); list_token : option string; list_limit : option Z }.

(** ** The database *)
Record ListingDatabase (V : Type) `{D : Directory V} : Type := mkDb {
  uri : string;
  query_string : option string;
  base_path : path;
  store_wrapper : option Z;
  storage_options : gmap string string;
  storage_options_provider : option Z;
  db_new_table_config : NewTableConfig;
  session : Z
}.
Arguments uri {V FV D} _. Arguments query_string {V FV D} _. Arguments base_path {V FV D} _.
Arguments store_wrapper {V FV D} _. Arguments storage_options {V FV D} _.
Arguments storage_options_provider {V FV D} _. Arguments db_new_table_config {V FV D} _. Arguments session {V FV D} _.
Record Table (V : Type) `{D : Directory V} : Type := mkTable {
  table_name_of : string; table_namespace : list string; table_id : string; table_location : string; dataset : Dataset
}.
Arguments mkTable {V FV D} _ _ _ _ _. Arguments dataset {V FV D} _. Arguments table_name_of {V FV D} _.
(** The namespace database, which serves the child namespaces *)
Class NamespaceDatabase (V : Type) `{D : Directory V} : Type := {
  ns_table_names : World → TableNamesRequest → result (list string);
  ns_list_tables : World → ListTablesRequest → result (list string * option string);
  ns_create_table : World → CreateTableRequest V → World * result (Table V);
  ns_open_table : World → OpenTableRequest → result (Table V);
  ns_drop_table : World → string → list string → World * result unit;
  ns_drop_all_tables : World → list string → World * result unit
}.

Section database.
Context {V : Type} {FV : FileVersions} {D : Directory V} {ND : NamespaceDatabase V} {P : Planner} {BC : BindingChecks}.

Definition ends_with (c : ascii) (s : string) : bool :=
  match strip_suffix (String c "") s with Some _ => true | None => false end.
Definition table_uri (db : ListingDatabase V) (name : string) : result string :=
  _ ← validate_table_name name;
  let base := uri db in
  let base := if ends_with "/"%char base || ends_with "\"%char base then base
              else if contains "://" base then base +:+ "/" else base +:+ separator in
  let table := base +:+ name +:+ "." +:+ LANCE_FILE_EXTENSION in
  Ok (match query_string db with Some query => table +:+ "?" +:+ query | None => table end).
(** Options the target already has win. *)
Definition inherit_storage_options (db : ListingDatabase V) (target : gmap string string) : gmap string string :=
  target ∪ storage_options db.
Definition inherits (db : ListingDatabase V) : bool :=
  negb (bool_decide (storage_options db = ∅)) || match storage_options_provider db with Some _ => true | None => false end.
Definition or_opt {A} (a b : option A) : option A := match a with Some _ => a | None => b end.
Definition ensure_blob_storage_version (schema : ArrowSchema) (p : WriteParams) : WriteParams :=
  if negb (MergeBuilder.has_blob_columns schema) then p
  else if is_old (default Stable (write_version p))
  then mkWrite (store_params p) (Some V2_2) (write_v2_paths p) (write_stable_row_ids p) (mode p) (write_session p)
  else p.
Definition prepare_write_params (db : ListingDatabase V) (r : CreateTableRequest V) (p : WriteParams)
    (overrides : NewTableConfig) : WriteParams :=
  let store :=
    if inherits db then
      let s := default default_store (store_params p) in
      let options := inherit_storage_options db (default ∅ (storage_options_of s)) in
      Some (mkStoreParams (Some (mkAccessor (Some options) (storage_options_provider db))) (object_store_wrapper s))
    else store_params p in
  let config := db_new_table_config db in
  let version := or_opt (data_storage_version overrides) (or_opt (write_version p) (data_storage_version config)) in
  let v2 := default (write_v2_paths p) (or_opt (enable_v2_manifest_paths overrides) (enable_v2_manifest_paths config)) in
  let stable := default (write_stable_row_ids p) (or_opt (enable_stable_row_ids overrides) (enable_stable_row_ids config)) in
  let p := ensure_blob_storage_version (data r).1 (mkWrite store version v2 stable (mode p) (write_session p)) in
  mkWrite (store_params p) (write_version p) (write_v2_paths p) (write_stable_row_ids p)
    (match create_mode r with Overwrite => WOverwrite | _ => mode p end) (Some (session db)).

(** ** Native tables (table.rs) *)
Definition build_id (namespace : list string) (name : string) : string :=
  match namespace with [] => name | _ => RustStr.join "$"%char (namespace ++ [name])%list end.
Definition open_with_params (w : World) (location name : string) (namespace : list string) (wrapper : option Z)
    (params : option ReadParams) (namespace_client : bool) (managed : option bool) : result (Table V) :=
  params ← patch_read wrapper (default (mkRead None None None) params);
  managed ← (match managed with
             | Some managed => Ok managed
             | None =>
                 if namespace_client then
                   m ← map_err (λ _, Runtime "Failed to describe table via namespace client: {}. If you don't need managed versioning, don't pass namespace_client.")
                         (describe_managed (namespace ++ [name])%list);
                   Ok (bool_decide (m = Some true))
                 else Ok false
             end);
  match load w location params ((managed : bool) && namespace_client) with
  | Ok ds => Ok (mkTable name namespace (build_id namespace name) location ds)
  | Err DatasetNotFound => Err (TableNotFound name)
  | Err e => Err (lance_error e)
  | Panic => Panic
  end.
Definition native_create (w : World) (location name : string) (namespace : list string)
    (batches : ArrowSchema * list (result (Batch (V := V)))) (wrapper : option Z) (params : WriteParams) : World * result (Table V) :=
  match (u ← admit_create_source batches; p ← patch_write wrapper params; Ok (u, p)) with
  | Ok (u, p) =>
      let '(w, o) := execute_stream w location p u in
      (w, match o with
          | Ok ds => Ok (mkTable name namespace (build_id namespace name) location ds)
          | Err DatasetAlreadyExists => Err (TableAlreadyExists name)
          | Err e => Err (lance_error e)
          | Panic => Panic
          end)
  | Err e => (w, Err e)
  | Panic => (w, Panic)
  end.

(** ** Opening and creating *)
Definition location_of (db : ListingDatabase V) (location : option string) (name : string) : result string :=
  match location with Some location => Ok location | None => table_uri db name end.
Definition open_table (db : ListingDatabase V) (w : World) (r : OpenTableRequest) : result (Table V) :=
  match open_namespace r with
  | _ :: _ => ns_open_table w r
  | [] =>
      location ← location_of db (open_location r) (open_name r);
      let params :=
        if inherits db then
          let p := default (mkRead None None None) (lance_read_params r) in
          let s := default default_store (store_options p) in
          let options := inherit_storage_options db (default ∅ (storage_options_of s)) in
          let provider := or_opt (storage_options_provider db) (provider_of s) in
          Some (mkRead (Some (mkStoreParams (Some (mkAccessor (Some options) provider)) (object_store_wrapper s)))
                  (index_cache p) (read_session p))
        else lance_read_params r in
      let p := default (mkRead None (index_cache_size r) None) params in
      open_with_params w location (open_name r) (open_namespace r) (store_wrapper db)
        (Some (mkRead (store_options p) (index_cache p) (Some (session db)))) (open_namespace_client r) (managed_versioning r)
  end.
Definition handle_table_exists (db : ListingDatabase V) (w : World) (name : string) (namespace : list string)
    (m : CreateTableMode) (schema : ArrowSchema) : result (Table V) :=
  match m with
  | Create => Err (TableAlreadyExists name)
  | ExistOk callback =>
      table ← open_table db w (callback (mkOpen name namespace None None None false None));
      if negb (bool_decide (dataset_schema (dataset table) = schema))
      then Err (Schema "Provided schema does not match existing table schema") else Ok table
  | Overwrite => Panic
  end.
Definition creation_params (db : ListingDatabase V) (r : CreateTableRequest V) : result WriteParams :=
  taken ← take_request_creation_overrides (default (mkWrite None None false false WCreate None) (lance_write_params r));
  let '(overrides, p) := taken in
  Ok (prepare_write_params db r p overrides).
Definition create_table (db : ListingDatabase V) (w : World) (r : CreateTableRequest V) : World * result (Table V) :=
  match create_namespace r with
  | _ :: _ => ns_create_table w r
  | [] =>
      match (location ← location_of db (create_location r) (create_name r); p ← creation_params db r; Ok (location, p)) with
      | Ok (location, p) =>
          match native_create w location (create_name r) (create_namespace r) (data r) (store_wrapper db) p with
          | (w, Err (TableAlreadyExists _)) =>
              (w, handle_table_exists db w (create_name r) (create_namespace r) (create_mode r) (data r).1)
          | created => created
          end
      | Err e => (w, Err e)
      | Panic => (w, Panic)
      end
  end.

(** ** Dropping *)
Definition directory_of (name : string) : string := name +:+ "." +:+ LANCE_EXTENSION.
Definition drop_one (db : ListingDatabase V) (w : World) (name : string) : World * result unit :=
  let full_path := join (base_path db) (directory_of name) in
  match commit_delete w full_path with
  | (w, Ok _) =>
      let '(w, o) := remove_dir_all w full_path in
      (w, match o with
          | Ok u => Ok u
          | Err NotFound => Err (TableNotFound name)
          | Err e => Err (lance_error e)
          | Panic => Panic
          end)
  | failed => failed
  end.
Fixpoint drop_each (db : ListingDatabase V) (w : World) (names : list string) : World * result unit :=
  match names with
  | [] => (w, Ok tt)
  | name :: names => match drop_one db w name with (w, Ok _) => drop_each db w names | failed => failed end
  end.
Definition drop_tables (db : ListingDatabase V) (w : World) (names : list string) : World * result unit :=
  let location := match query_string db with Some query => uri db +:+ "?" +:+ query | None => uri db end in
  match commit_handler_from_url location (storage_options db) with
  | Ok _ => drop_each db w names
  | Err e => (w, Err e)
  | Panic => (w, Panic)
  end.

(** ** Listing by name *)
(** [Path::extension] and [Path::file_stem] of a file name *)
Definition extension (name : string) : option string :=
  if String.eqb name ".." then None
  else match rsplit_once "."%char name with Some ("", _) | None => None | Some (_, e) => Some e end.
Definition file_stem (name : string) : option string :=
  if String.eqb name ".." then None
  else match rsplit_once "."%char name with Some ("", _) | None => Some name | Some (stem, _) => Some stem end.
Definition is_lance (name : string) : bool :=
  match extension name with Some e => String.eqb e LANCE_EXTENSION | None => false end.
Definition after (start : string) (names : list string) : list string :=
  match list_find (λ n, ¬ str_le n start) names with Some (i, _) => drop i names | None => [] end.
Definition table_names (db : ListingDatabase V) (w : World) (r : TableNamesRequest) : result (list string) :=
  match names_namespace r with
  | _ :: _ => ns_table_names w r
  | [] =>
      entries ← read_dir w (base_path db);
      let f := merge_sort str_le (omap file_stem (List.filter is_lance entries)) in
      let f := match start_after r with Some start => after start f | None => f end in
      Ok (match names_limit r with Some limit => take (Z.to_nat limit) f | None => f end)
  end.
Definition drop_table (db : ListingDatabase V) (w : World) (name : string) (namespace : list string) : World * result unit :=
  match namespace with _ :: _ => ns_drop_table w name namespace | [] => drop_tables db w [name] end.
Definition drop_all_tables (db : ListingDatabase V) (w : World) (namespace : list string) : World * result unit :=
  match namespace with
  | _ :: _ => ns_drop_all_tables w namespace
  | [] =>
      match table_names db w (mkNames [] None None) with
      | Ok names => drop_tables db w names
      | Err e => (w, Err e)
      | Panic => (w, Panic)
      end
  end.

(** ** Listing by page *)
(** [location]: the last part of a child's path *)
Definition table_name (location dir_suffix : string) : option string :=
  match strip_suffix dir_suffix location with
  | Some name => if RustStr.is_empty name then None else Some name
  | None => None
  end.
(** Rounds of requests until the page is full or the directory ends.  [Panic]:
    out of fuel *)
Fixpoint list_rounds (fuel : nat) (w : World) (dir : path) (limit : option Z) (tables : list string) (token : option string)
    : result (list string * option string) :=
  match fuel with
  | O => Panic
  | S fuel =>
      listing ← read_dir_page w dir token ((λ limit, limit - Z.of_nat (length tables))%Z <$> limit);
      let '(prefixes, token) := listing in
      let tables := (tables ++ omap (λ l, table_name l (String "." LANCE_EXTENSION)) prefixes)%list in
      match token with
      | None => Ok (tables, None)
      | Some token =>
          if match limit with Some limit => (limit <=? Z.of_nat (length tables))%Z | None => true end
          then Ok (tables, Some token) else list_rounds fuel w dir limit tables (Some token)
      end
  end.
Definition list_tables (fuel : nat) (db : ListingDatabase V) (w : World) (r : ListTablesRequest)
    : result (list string * option string) :=
  match list_id r with
  | Some (_ :: _) => ns_list_tables w r
  | _ =>
      let limit := (λ limit, Z.max limit 0) <$> list_limit r in
      let token := match list_token r with Some token => if RustStr.is_empty token then None else Some token | None => None end in
      if bool_decide (limit = Some 0%Z) then Ok ([], None)
      else list_rounds fuel w (base_path db) limit [] token
  end.

(** ** Cloning *)
Definition version_ref (ds : Dataset) (version : option Z) (tag : option string) : result VersionRef :=
  match version, tag with
  | Some v, None => Ok (RefVersion v)
  | None, Some tag => Ok (RefTag tag)
  | None, None => Ok (RefVersion (dataset_version ds))
  | Some _, Some _ => Err (InvalidInput "Cannot specify both source_version and source_tag")
  end.
Definition clone_params (db : ListingDatabase V) : ReadParams :=
  mkRead (Some (mkStoreParams (if bool_decide (storage_options db = ∅) then None
                               else Some (mkAccessor (Some (storage_options db)) None)) None)) None (Some (session db)).
Definition clone_table (db : ListingDatabase V) (w : World) (r : CloneTableRequest) : World * result (Table V) :=
  match target_namespace_path r with
  | _ :: _ => (w, Err (NotSupported "Namespace parameter is not supported for listing database. Only root namespace is supported."))
  | [] =>
      if negb (is_shallow r) then (w, Err (NotSupported "Deep clone is not yet implemented"))
      else
        match (_ ← validate_table_name (target_table_name r);
               target ← table_uri db (target_table_name r);
               _ ← (match load w target (clone_params db) false with
                    | Ok _ => Err (TableAlreadyExists (target_table_name r))
                    | Err DatasetNotFound => Ok tt
                    | Err e => Err (lance_error e)
                    | Panic => Panic
                    end);
               source ← map_err lance_error (load w (source_uri r) (clone_params db) false);
               version ← version_ref source (source_version r) (source_tag r);
               Ok (target, source, version)) with
        | Ok (target, source, version) =>
            match shallow_clone w source target version with
            | (w, Ok _) => (w, open_with_params w target (target_table_name r) [] (store_wrapper db) None
                                 (clone_namespace_client r) None)
            | (w, Err e) => (w, Err e)
            | (w, Panic) => (w, Panic)
            end
        | Err e => (w, Err e)
        | Panic => (w, Panic)
        end
  end.
(** The names are only looked at for their namespaces. *)
Definition rename_table (cur_namespace new_namespace : list string) : result unit :=
  match cur_namespace, new_namespace with
  | [], [] => Err (NotSupported "rename_table is not supported in LanceDB OSS")
  | _, _ => Err (NotSupported "Namespace parameter is not supported for listing database.")
  end.
End database.

(** * Options *)
Section options_laws.
Context {FV : FileVersions}.
Class FileVersionLaws : Prop := {
  version_reads_back v : parse_version (version_to_string v) = Ok v
}.
Context {FVL : FileVersionLaws}.

Lemma bool_reads_back b : parse_bool (bool_to_string b) = Some b.
Proof. by destruct b. Qed.
Lemma parse_flag_back message b : parse_opt (parse_flag message) (bool_to_string <$> b) = Ok b.
Proof. destruct b as [b|]; [|done]. cbn. unfold parse_flag. by rewrite bool_reads_back. Qed.
(** The names of the keys that configure new tables, as the documentation of a
    connection's options gives them *)
Definition creation_names : list string :=
  ["new_table_data_storage_version"; "new_table_enable_v2_manifest_paths"; "new_table_enable_stable_row_ids"].
Lemma creation_names_spec key :
  key ∈ creation_names ↔ key = OPT_NEW_TABLE_STORAGE_VERSION ∨ key = OPT_NEW_TABLE_V2_MANIFEST_PATHS ∨
    key = OPT_NEW_TABLE_ENABLE_STABLE_ROW_IDS.
Proof. unfold creation_names. rewrite !elem_of_cons, elem_of_nil. naive_solver. Qed.
Lemma kept_lookup (m : gmap string string) key :
  filter (λ kv, kv.1 ≠ OPT_NEW_TABLE_STORAGE_VERSION ∧ kv.1 ≠ OPT_NEW_TABLE_V2_MANIFEST_PATHS ∧
                kv.1 ≠ OPT_NEW_TABLE_ENABLE_STABLE_ROW_IDS) m !! key
  = if decide (key ∈ creation_names) then None else m !! key.
Proof.
  apply option_eq. intros v. rewrite map_lookup_filter_Some. cbn [fst]. pose proof (creation_names_spec key) as Hk.
  case_decide; naive_solver.
Qed.
(** What a database's options say of new tables survives the map of a
    connection's options; its storage options are not among what is said. *)
Lemma options_read_back o m : (∀ key, key ∈ creation_names → m !! key = None) →
  parse_from_map (serialize_into_map o m) = Ok (mkOptions (new_table_config o) m).
Proof.
  intros Hm. unfold parse_from_map, serialize_into_map.
  assert (∀ (m : gmap string string) key v, m !! key = None → insert_opt key v m !! key = v) as Heq.
  { intros m' key [v|] Hn; [apply lookup_insert_eq|done]. }
  assert (∀ (m : gmap string string) key key' v, key ≠ key' → insert_opt key v m !! key' = m !! key') as Hne.
  { intros m' key key' [v|] Hn; [by apply lookup_insert_ne|done]. }
  rewrite (Hne _ OPT_NEW_TABLE_ENABLE_STABLE_ROW_IDS OPT_NEW_TABLE_STORAGE_VERSION),
    (Hne _ OPT_NEW_TABLE_V2_MANIFEST_PATHS OPT_NEW_TABLE_STORAGE_VERSION),
    (Hne _ OPT_NEW_TABLE_ENABLE_STABLE_ROW_IDS OPT_NEW_TABLE_V2_MANIFEST_PATHS) by done.
  rewrite (Heq m OPT_NEW_TABLE_STORAGE_VERSION) by (apply Hm, creation_names_spec; auto).
  rewrite (Heq _ OPT_NEW_TABLE_V2_MANIFEST_PATHS) by (rewrite Hne by done; apply Hm, creation_names_spec; auto).
  rewrite (Heq _ OPT_NEW_TABLE_ENABLE_STABLE_ROW_IDS) by (rewrite !Hne by done; apply Hm, creation_names_spec; auto).
  assert (parse_opt parse_version (version_to_string <$> data_storage_version (new_table_config o)) =
    Ok (data_storage_version (new_table_config o))) as ->.
  { destruct (data_storage_version _) as [v|]; [|done]. cbn. by rewrite version_reads_back. }
  rewrite !parse_flag_back. cbn [mbind outcome_bind]. destruct (new_table_config o) as [a b c]. f_equal.
  cbn [data_storage_version enable_v2_manifest_paths enable_stable_row_ids]. f_equal. apply map_eq. intros key. rewrite kept_lookup. destruct (decide _) as [Hk|Hk]; [by rewrite Hm|].
  rewrite creation_names_spec in Hk. by rewrite !Hne by (intros <-; apply Hk; auto).
Qed.
End options_laws.

(** * Tables by name *)
Lemma directory_split n : rsplit_once "."%char (directory_of n) = Some (n, LANCE_EXTENSION).
Proof. by apply (rsplit_once_app "."%char n LANCE_EXTENSION). Qed.
#[export] Instance directory_of_inj : Inj (=) (=) directory_of.
Proof. intros n n' H. pose proof (directory_split n) as Hs. rewrite H, directory_split in Hs. by injection Hs. Qed.
Lemma directory_not_dots n : String.eqb (directory_of n) ".." = false.
Proof.
  apply String.eqb_neq. intros H. pose proof (directory_split n) as Hs. rewrite H in Hs. done.
Qed.
(** The name of the table that a child of a directory would be *)
Definition named (d : string) : option string := if is_lance d then file_stem d else None.
Lemma named_spec d n : named d = Some n ↔ n ≠ "" ∧ d = directory_of n.
Proof.
  unfold named, is_lance, extension, file_stem. destruct (String.eqb_spec d "..") as [->|Hd].
  { split; [done|]. intros [_ H]. pose proof (directory_not_dots n) as Hd. by rewrite <-H in Hd. }
  destruct (rsplit_once "."%char d) as [[stem e]|] eqn:Hs.
  - apply rsplit_once_Some in Hs as [-> He]. destruct stem as [|c stem].
    + split; [done|]. intros [Hn H]. pose proof (directory_split n) as Hs. rewrite <-H in Hs.
      rewrite (rsplit_once_app "."%char "" e He) in Hs. injection Hs as <- _. done.
    + destruct (String.eqb_spec e LANCE_EXTENSION) as [->|Hne].
      * split; [by intros [= <-]|]. intros [_ H%directory_of_inj]. by f_equal.
      * split; [done|]. intros [_ H]. pose proof (directory_split n) as Hs. rewrite <-H in Hs.
        rewrite (rsplit_once_app "."%char (String c stem) e He) in Hs. by injection Hs as _ ->.
  - split; [done|]. intros [_ ->]. by rewrite directory_split in Hs.
Qed.
Lemma table_name_named d : table_name d (String "." LANCE_EXTENSION) = named d.
Proof.
  apply option_eq. intros n. rewrite named_spec. unfold table_name, directory_of. split.
  - destruct (strip_suffix _ d) as [name|] eqn:Hs; [|done]. apply strip_suffix_Some in Hs as ->.
    destruct name; [done|]. by intros [= <-].
  - intros [Hn ->]. assert (strip_suffix (String "." LANCE_EXTENSION) (n +:+ "." +:+ LANCE_EXTENSION) = Some n) as ->
      by by apply strip_suffix_Some. by destruct n.
Qed.
Lemma named_omap (l : list string) : omap file_stem (List.filter is_lance l) = omap named l.
Proof. induction l as [|d l IH]; [done|]. cbn. unfold named at 1. destruct (is_lance d); cbn; by rewrite IH. Qed.
Lemma named_elem (l : list string) n : n ∈ omap named l ↔ n ≠ "" ∧ directory_of n ∈ l.
Proof.
  rewrite list_elem_of_omap. setoid_rewrite named_spec. split; [by intros (d & Hd & Hn & ->)|].
  intros [Hn Hd]. by exists (directory_of n).
Qed.
Lemma table_names_named (l : list string) : omap (λ d, table_name d (String "." LANCE_EXTENSION)) l = omap named l.
Proof. induction l as [|d l IH]; [done|]. cbn. by rewrite table_name_named, IH. Qed.
Lemma named_NoDup (l : list string) : NoDup l → NoDup (omap named l).
Proof.
  induction 1 as [|d l Hd _ IH]; [constructor|]. cbn. destruct (named d) as [n|] eqn:Hn; [|done]. constructor; [|done].
  rewrite named_elem. intros [_ Hin]. by apply named_spec in Hn as [_ ->].
Qed.
Lemma sorted_perm l l' : l ≡ₚ l' → merge_sort str_le l = merge_sort str_le l'.
Proof.
  intros H. apply (StronglySorted_unique String.le); [apply (StronglySorted_merge_sort String.le)..|].
  by rewrite !(merge_sort_Permutation str_le).
Qed.
Lemma after_sorted start l : StronglySorted str_le l → after start l = filter (λ n, ¬ str_le n start) l.
Proof.
  unfold after. induction 1 as [|n l Hs IH Hn]; [done|]. cbn [list_find]. rewrite filter_cons. case_decide as Hd.
  - cbn. f_equal. symmetry. clear IH Hs. induction Hn as [|n' l Hle _ IH]; [done|]. rewrite filter_cons.
    rewrite decide_True; [by f_equal|]. intros Hle'. apply Hd. by apply (transitivity (R := String.le) Hle Hle').
  - rewrite <-IH. destruct (list_find _ l) as [[i x]|]; [|done]. done.
Qed.

(** * Pages *)
Section pages.
Context {V : Type} {FV : FileVersions} {D : Directory V} {ND : NamespaceDatabase V}.

(** A store's pages walk the children of a directory in one order; a page takes
    at most as many as asked for and, when it ends before the last child, at
    least one, and gives a token for where it ended. *)
Class PageLaws (w : World) (dir : path) : Type := {
  children : list (string * bool);
  position : string → option nat;
  page_spec token p limit : match token with Some t => position t = Some p | None => p = 0%nat end →
    (p ≤ length children)%nat → match limit with Some n => (0 < n)%Z | None => True end →
    ∃ q next, read_dir_page w dir token limit = Ok (map fst (List.filter snd (take (q - p) (drop p children))), next) ∧
      (p ≤ q ≤ length children)%nat ∧ match limit with Some n => (Z.of_nat (q - p) ≤ n)%Z | None => True end ∧
      match next with Some t => t ≠ "" ∧ position t = Some q ∧ (p < q)%nat | None => q = length children end
}.
(** The tables among some children: the directories [<name>.lance] *)
Definition tables_of (l : list (string * bool)) : list string := omap named (map fst (List.filter snd l)).
Definition between {A} (p q : nat) (l : list A) : list A := take (q - p) (drop p l).
(** A client that follows the tokens to the end.  [Panic]: out of rounds *)
Fixpoint all_pages (rounds fuel : nat) (db : ListingDatabase V) (w : World) (limit : option Z) (token : option string)
    : result (list (list string)) :=
  match rounds with
  | O => Panic
  | S rounds =>
      page ← list_tables fuel db w (mkList None token limit);
      match page.2 with
      | None => Ok [page.1]
      | Some token => rest ← all_pages rounds fuel db w limit (Some token); Ok (page.1 :: rest)
      end
  end.

Lemma tables_of_app l l' : tables_of (l ++ l') = (tables_of l ++ tables_of l')%list.
Proof. unfold tables_of. by rewrite List.filter_app, map_app, omap_app. Qed.
Lemma tables_of_length l : (length (tables_of l) ≤ length l)%nat.
Proof.
  unfold tables_of. induction l as [|[n []] l IH]; cbn; [done| |lia]. destruct (named n); cbn; lia.
Qed.
Lemma between_app {A} p q r (l : list A) : (p ≤ q ≤ r)%nat → between p r l = (between p q l ++ between q r l)%list.
Proof.
  intros H. unfold between. replace (r - p)%nat with ((q - p) + (r - q))%nat by lia.
  rewrite <-take_take_drop, drop_drop. by replace (p + (q - p))%nat with q by lia.
Qed.
Lemma between_length {A} p q (l : list A) : (length (between p q l) ≤ q - p)%nat.
Proof. unfold between. rewrite length_take. lia. Qed.

Section walk.
Context (db : ListingDatabase V) (w : World) {PL : PageLaws w (base_path db)}.

Definition at_token (token : option string) (p : nat) : Prop :=
  match token with Some t => t ≠ "" ∧ position t = Some p | None => p = 0%nat end.
Lemma list_rounds_spec fuel limit : ∀ tables token p, at_token token p → (p ≤ length children)%nat →
  (length children - p < fuel)%nat → match limit with Some n => (Z.of_nat (length tables) < n)%Z | None => True end →
  ∃ q next, list_rounds fuel w (base_path db) limit tables token = Ok ((tables ++ tables_of (between p q children))%list, next) ∧
    (p ≤ q ≤ length children)%nat ∧
    match limit with Some n => (Z.of_nat (length tables + length (tables_of (between p q children))) ≤ n)%Z | None => True end ∧
    match next with
    | Some t => at_token next q ∧ (p < q)%nat ∧
        match limit with Some n => Z.of_nat (length tables + length (tables_of (between p q children))) = n | None => True end
    | None => q = length children
    end.
Proof.
  induction fuel as [|fuel IH]; intros tables token p Hp Hle Hfuel Hlim; [lia|]. cbn [list_rounds].
  destruct (page_spec token p ((λ limit, limit - Z.of_nat (length tables))%Z <$> limit)) as (q & next & -> & Hq & Hn & Hnext).
  { destruct token; [by destruct Hp|done]. } { done. } { destruct limit; [|done]. cbn. lia. }
  cbn [mbind outcome_bind].
  rewrite table_names_named. fold (tables_of (take (q - p) (drop p children))). fold (between p q children).
  assert (length (tables_of (between p q children)) ≤ q - p)%nat as Hlen.
  { etrans; [apply tables_of_length|apply between_length]. }
  destruct next as [t|].
  2: { exists q, None. split_and!; try done; try lia. destruct limit; [|done]. cbn in Hn. lia. }
  destruct Hnext as (Ht & Hpos & Hlt). destruct limit as [n|].
  - cbn in Hn. rewrite length_app. destruct (Z.leb_spec n (Z.of_nat (length tables + length (tables_of (between p q children))))) as [Hge|Hlt'].
    + exists q, (Some t). split_and!; try done; lia.
    + destruct (IH (tables ++ tables_of (between p q children))%list (Some t) q) as (q' & next & -> & Hq' & Hn' & Hnext); [done|lia|lia|by rewrite length_app|].
      exists q', next. rewrite (between_app p q q') by lia. rewrite tables_of_app, length_app, app_assoc. rewrite length_app in Hn', Hnext.
      split_and!; [done|lia|lia|lia|]. destruct next; [|done]. destruct Hnext as (? & ? & ?). split_and!; [done|lia|lia].
  - exists q, (Some t). split_and!; try done; lia.
Qed.
Lemma list_tables_spec limit token p : at_token token p → (p ≤ length children)%nat →
  match limit with Some n => (0 < n)%Z | None => True end → ∀ fuel, (length children < fuel)%nat →
  ∃ q next, list_tables fuel db w (mkList None token limit) = Ok (tables_of (between p q children), next) ∧
    (p ≤ q ≤ length children)%nat ∧
    match limit with Some n => (Z.of_nat (length (tables_of (between p q children))) ≤ n)%Z | None => True end ∧
    match next with
    | Some t => at_token next q ∧ (p < q)%nat ∧
        match limit with Some n => Z.of_nat (length (tables_of (between p q children))) = n | None => True end
    | None => q = length children
    end.
Proof.
  intros Hp Hle Hlim fuel Hfuel. unfold list_tables. cbn [list_id list_limit list_token].
  assert ((match token with Some token => if RustStr.is_empty token then None else Some token | None => None end) = token) as ->.
  { destruct token as [[|]|]; [by destruct Hp|done|done]. }
  assert ((λ limit, Z.max limit 0) <$> limit = limit) as -> by (destruct limit; [|done]; cbn; f_equal; lia).
  rewrite bool_decide_false by (intros ->; lia).
  destruct (list_rounds_spec fuel limit [] token p) as (q & next & H1 & H2 & H3 & H4); [done|done|lia|by destruct limit|].
  by exists q, next.
Qed.

(** C39: paging through a database lists every table once: from the first page
    on, following the tokens ends, the pages together are the directories named
    like tables, in the order of the store and whatever else lies between them,
    no page is longer than the limit, and every page but the last is full. *)
Theorem pages_list_every_table limit fuel rounds : match limit with Some n => (0 < n)%Z | None => True end →
  (length children < fuel)%nat → (length children < rounds)%nat →
  ∃ pages last, all_pages rounds fuel db w limit None = Ok (pages ++ [last])%list ∧
    mjoin (pages ++ [last])%list = tables_of children ∧
    match limit with
    | Some n => Forall (λ page, Z.of_nat (length page) = n) pages ∧ (Z.of_nat (length last) ≤ n)%Z
    | None => True
    end.
Proof.
  intros Hlim Hfuel Hrounds.
  assert (∀ rounds token p, at_token token p → (p ≤ length children)%nat → (length children - p < rounds)%nat →
    ∃ pages last, all_pages rounds fuel db w limit token = Ok (pages ++ [last])%list ∧
      mjoin (pages ++ [last])%list = tables_of (drop p children) ∧
      match limit with
      | Some n => Forall (λ page, Z.of_nat (length page) = n) pages ∧ (Z.of_nat (length last) ≤ n)%Z
      | None => True
      end) as H.
  2: { destruct (H rounds None 0%nat) as (pages & last & H1 & H2 & H3); [done|lia|lia|]. by exists pages, last. }
  clear Hrounds rounds. induction rounds as [|rounds IH]; intros token p Hp Hle Hr; [lia|]. cbn [all_pages].
  destruct (list_tables_spec limit token p Hp Hle Hlim fuel Hfuel) as (q & next & -> & Hq & Hn & Hnext).
  cbn [mbind outcome_bind fst snd]. destruct next as [t|].
  - destruct Hnext as (Ht & Hlt & Hfull). destruct (IH (Some t) q Ht) as (pages & last & -> & Hj & Hl); [lia|lia|].
    exists (tables_of (between p q children) :: pages), last. cbn [mbind outcome_bind app]. split_and!; [done| |].
    + rewrite mjoin_cons, Hj, <-tables_of_app. f_equal. unfold between.
      replace (drop q children) with (drop (q - p) (drop p children)) by (rewrite drop_drop; f_equal; lia). apply take_drop.
    + destruct limit as [n|]; [|done]. destruct Hl as [Hl1 Hl2]. split; [by constructor|done].
  - subst q. exists [], (tables_of (between p (length children) children)). split_and!; [done| |by destruct limit].
    cbn. rewrite app_nil_r. unfold between. f_equal. apply take_ge. rewrite length_drop. lia.
Qed.
End walk.
End pages.

(** * The parameters of a new table *)
Section creation.
Context {V : Type} {FV : FileVersions} {D : Directory V} {P : Planner}.

Definition options_in (p : option StoreParams) : gmap string string := default ∅ (p ≫= storage_options_of).
Lemma options_in_made m pr wr : options_in (Some (mkStoreParams (Some (mkAccessor (Some m) pr)) wr)) = m.
Proof. done. Qed.
Definition unnamed (m : gmap string string) : gmap string string := filter (λ kv, kv.1 ∉ creation_names) m.
Lemma unnamed_lookup m key : unnamed m !! key = if decide (key ∈ creation_names) then None else m !! key.
Proof.
  apply option_eq. intros v. unfold unnamed. rewrite map_lookup_filter_Some. cbn [fst]. case_decide; naive_solver.
Qed.
Lemma unnamed_none m : (∀ key, key ∈ creation_names → m !! key = None) → unnamed m = m.
Proof. intros H. apply map_eq. intros key. rewrite unnamed_lookup. case_decide; [by rewrite H|done]. Qed.
Lemma stripping (m : gmap string string) :
  foldl (λ '(options, removed) key, (delete key options, removed || bool_decide (is_Some (options !! key)))) (m, false)
    [OPT_NEW_TABLE_STORAGE_VERSION; OPT_NEW_TABLE_V2_MANIFEST_PATHS; OPT_NEW_TABLE_ENABLE_STABLE_ROW_IDS] =
  (unnamed m, negb (bool_decide (unnamed m = m))).
Proof.
  cbn [foldl]. rewrite !lookup_delete_ne by done. f_equal.
  - apply map_eq. intros key. rewrite unnamed_lookup. pose proof (creation_names_spec key) as Hk.
    rewrite !lookup_delete. repeat case_decide; naive_solver.
  - cbn [orb]. destruct (bool_decide_reflect (unnamed m = m)) as [He|He]; cbn [negb].
    + assert (∀ key, key ∈ creation_names → m !! key = None) as Hn by (intros key Hk; rewrite <-He, unnamed_lookup; by case_decide).
      rewrite !Hn by (apply creation_names_spec; auto). done.
    + apply not_false_is_true. intros [[H1 H2]%orb_false_elim H3]%orb_false_elim. apply He, unnamed_none.
      apply bool_decide_eq_false in H1, H2, H3. rewrite <-eq_None_not_Some in H1, H2, H3.
      intros key [->|[->| ->]]%creation_names_spec; done.
Qed.
Lemma strip_spec s : options_in (Some (strip_new_table_creation_keys s)) = unnamed (options_in (Some s)) ∧
  provider_of (strip_new_table_creation_keys s) = provider_of s ∧
  object_store_wrapper (strip_new_table_creation_keys s) = object_store_wrapper s.
Proof.
  unfold strip_new_table_creation_keys. rewrite stripping. change (default ∅ (storage_options_of s)) with (options_in (Some s)).
  rewrite negb_involutive. destruct (bool_decide_reflect (unnamed (options_in (Some s)) = options_in (Some s))) as [Hn|Hn]; [done|].
  unfold options_in at 1, provider_of. cbn [mbind option_bind default]. unfold storage_options_of. cbn [accessor].
  destruct (bool_decide_reflect (unnamed (options_in (Some s)) = ∅)) as [He|He].
  - rewrite He. destruct (accessor s) as [[i [pr|]]|]; cbn; by split_and!.
  - destruct (accessor s) as [[i [pr|]]|]; cbn; by split_and!.
Qed.
Lemma stripped_options p : options_in (strip_new_table_creation_keys <$> p) = unnamed (options_in p).
Proof. destruct p as [s|]; [apply strip_spec|]. symmetry. by apply unnamed_none. Qed.

(** What an option says: nothing, or a value that its text names *)
Definition says {A} (means : string → A → Prop) (text : option string) (v : option A) : Prop :=
  match text, v with None, None => True | Some s, Some a => means s a | _, _ => False end.
Definition names_bool (s : string) (b : bool) : Prop := (s, b) ∈ [("true", true); ("false", false)].
(** The first of the request's word, the connection's and the parameters' own *)
Definition first_of {A} (request connection : option A) (own : A) : A :=
  match request, connection with Some a, _ => a | None, Some a => a | None, None => own end.
Lemma parse_opt_says {A} (p : string → result A) o v : parse_opt p o = Ok v → says (λ s a, p s = Ok a) o v.
Proof. destruct o as [s|]; cbn; [|by intros [= <-]]. by intros (a & Ha & [= <-])%bind_Ok. Qed.
Lemma parse_flag_says message o v : parse_opt (parse_flag message) o = Ok v → says names_bool o v.
Proof.
  intros H%parse_opt_says. destruct o as [s|], v as [b|]; [|done..]. cbn in H |- *. unfold parse_flag, parse_bool in H.
  destruct (String.eqb_spec s "true") as [->|_]; [injection H as <-; by left|].
  destruct (String.eqb_spec s "false") as [->|_]; [injection H as <-; right; by left|done].
Qed.
Lemma given_lookup p key : (p ≫= storage_options_of) ≫= lookup key = options_in p !! key.
Proof. unfold options_in. by destruct (p ≫= storage_options_of). Qed.

(** The store a table is written to, from what is asked and the connection *)
Definition inherited (db : ListingDatabase V) (s : option StoreParams) : option StoreParams :=
  if inherits db then
    let s := default default_store s in
    let options := inherit_storage_options db (default ∅ (storage_options_of s)) in
    Some (mkStoreParams (Some (mkAccessor (Some options) (storage_options_provider db))) (object_store_wrapper s))
  else s.
Lemma inherited_options (db : ListingDatabase V) asked key : (∀ key, key ∈ creation_names → storage_options db !! key = None) →
  options_in (inherited db (strip_new_table_creation_keys <$> store_params asked)) !! key =
    if decide (key ∈ creation_names) then None
    else match options_in (store_params asked) !! key with Some v => Some v | None => storage_options db !! key end.
Proof.
  intros Hdb. set (s := strip_new_table_creation_keys <$> store_params asked).
  assert (options_in s = unnamed (options_in (store_params asked))) as Hs by apply stripped_options.
  assert (default ∅ (storage_options_of (default default_store s)) = options_in s) as Hd by (by destruct s).
  unfold inherited, inherits. destruct (_ || _) eqn:Hi.
  - clear Hi. rewrite options_in_made. unfold inherit_storage_options. rewrite Hd, Hs, lookup_union, unnamed_lookup.
    case_decide as Hk; [by rewrite (Hdb key Hk)|]. by destruct (options_in _ !! key), (storage_options db !! key).
  - apply orb_false_elim in Hi as [He%negb_false_iff%bool_decide_eq_true _]. rewrite Hs, unnamed_lookup, He, lookup_empty.
    case_decide; [done|]. by destruct (options_in _ !! key).
Qed.

(** C40: what configures a new table stays out of the object store, and nothing
    else does: the options a table is created with are the request's and, where
    it sets none, the connection's, without [new_table_data_storage_version],
    [new_table_enable_v2_manifest_paths] and [new_table_enable_stable_row_ids].
    The first decides the file version before the request's own parameters and
    the connection's configuration, in this order; the other two decide the paths
    and the row ids before the connection's configuration and the parameters. *)
Theorem creation_keys_configure_the_table (db : ListingDatabase V) r p :
  (∀ key, key ∈ creation_names → storage_options db !! key = None) → creation_params db r = Ok p →
  let asked := default (mkWrite None None false false WCreate None) (lance_write_params r) in
  let given := options_in (store_params asked) in
  let connection := db_new_table_config db in
  ∃ version v2 stable,
    says (λ s v, parse_version s = Ok v) (given !! "new_table_data_storage_version") version ∧
    says names_bool (given !! "new_table_enable_v2_manifest_paths") v2 ∧
    says names_bool (given !! "new_table_enable_stable_row_ids") stable ∧
    (∀ key, options_in (store_params p) !! key =
       if decide (key ∈ creation_names) then None
       else match given !! key with Some value => Some value | None => storage_options db !! key end) ∧
    write_v2_paths p = first_of v2 (enable_v2_manifest_paths connection) (write_v2_paths asked) ∧
    write_stable_row_ids p = first_of stable (enable_stable_row_ids connection) (write_stable_row_ids asked) ∧
    (let version := first_of (Some <$> version) (Some <$> write_version asked) (data_storage_version connection) in
     write_version p = if MergeBuilder.has_blob_columns (data r).1 && is_old (default Stable version) then Some V2_2 else version) ∧
    mode p = match create_mode r with Overwrite => WOverwrite | _ => mode asked end.
Proof.
  intros Hdb. unfold creation_params. cbv zeta. set (asked := default _ (lance_write_params r)).
  intros ([config q] & Ht & [= <-])%bind_Ok. unfold take_request_creation_overrides in Ht. rewrite !given_lookup in Ht.
  apply bind_Ok in Ht as (version & Hv%parse_opt_says & (v2 & H2%parse_flag_says & (stable & H3%parse_flag_says & [= <- <-])%bind_Ok)%bind_Ok).
  exists version, v2, stable. split_and!; [exact Hv|exact H2|exact H3|..].
  all: unfold prepare_write_params, ensure_blob_storage_version; cbn [store_params write_version write_v2_paths write_stable_row_ids mode].
  all: cbn [data_storage_version enable_v2_manifest_paths enable_stable_row_ids].
  - intros key. rewrite <-(inherited_options db asked key Hdb). by destruct (MergeBuilder.has_blob_columns _), (is_old _).
  - destruct (MergeBuilder.has_blob_columns _), (is_old _); cbn; by destruct v2, (enable_v2_manifest_paths _).
  - destruct (MergeBuilder.has_blob_columns _), (is_old _); cbn; by destruct stable, (enable_stable_row_ids _).
  - replace (first_of (Some <$> version) (Some <$> write_version asked) (data_storage_version (db_new_table_config db)))
      with (or_opt version (or_opt (write_version asked) (data_storage_version (db_new_table_config db))))
      by (by destruct version, (write_version asked)).
    destruct (MergeBuilder.has_blob_columns _); [|done]. by destruct (is_old _).
  - by destruct (MergeBuilder.has_blob_columns _), (is_old _).
Qed.
End creation.

(** ** The abstract database: tables by name, and stray children *)
Section refinement.
Context {V : Type} {FV : FileVersions} {D : Directory V} {ND : NamespaceDatabase V} {P : Planner} {BC : BindingChecks}.
Context (db : ListingDatabase V).

Inductive Op : Type :=
  | OpCreate (name : string) (d : ArrowSchema * list (result (Batch (V := V)))) (m : CreateTableMode) (params : option WriteParams)
  | OpOpen (name : string) | OpDrop (name : string) | OpDropAll | OpNames (start : option string) (limit : option Z).
Inductive Out : Type := OutTable (name : string) (ds : Dataset) | OutNames (names : list string) | OutUnit.
Definition out_table (t : result (Table V)) : result Out := t ← t; Ok (OutTable (table_name_of t) (dataset t)).
Definition request (name : string) (d : ArrowSchema * list (result (Batch (V := V)))) (m : CreateTableMode)
    (params : option WriteParams) : CreateTableRequest V := mkCreate V FV name [] d m params None false.
Definition run_op (w : World) (op : Op) : World * result Out :=
  match op with
  | OpCreate name d m params => let '(w, o) := create_table db w (request name d m params) in (w, out_table o)
  | OpOpen name => (w, out_table (open_table db w (mkOpen name [] None None None false None)))
  | OpDrop name => let '(w, o) := drop_table db w name [] in (w, _ ← o; Ok OutUnit)
  | OpDropAll => let '(w, o) := drop_all_tables db w [] in (w, _ ← o; Ok OutUnit)
  | OpNames start limit => (w, names ← table_names db w (mkNames [] start limit); Ok (OutNames names))
  end.
Fixpoint run_ops (w : World) (ops : list Op) : World * list (result Out) :=
  match ops with
  | [] => (w, [])
  | op :: ops => let '(w, o) := run_op w op in let '(w, os) := run_ops w ops in (w, o :: os)
  end.

(** The store parameters of the connection itself *)
Definition own_store : StoreParams :=
  mkStoreParams (if inherits db then Some (mkAccessor (Some (storage_options db)) (storage_options_provider db)) else None)
    (store_wrapper db).
(** What Lance and a store that answers do below the database's directory:
    [contents] are the tables by the name of their directory, [others] the other
    children, [written] what a write may give in place of what was there.
    Nothing is said of other store parameters than the connection's own, a
    failed write may leave a child behind, and a store may or may not miss what
    it is asked to remove. *)
Class DirectoryLaws : Type := {
  contents : World → gmap string Dataset;
  others : World → gset string;
  written : WriteParams → option Dataset → UnfilledDeclarations (V := V) → outcome LanceError Dataset → Prop;
  written_not_exists p old u e n : written p old u (Err e) → e ≠ DatasetAlreadyExists ∧ e ≠ OtherLance (TableAlreadyExists n);
  others_apart w n : n ∈ others w → contents w !! n = None;
  read_dir_spec w : ∃ entries, read_dir w (base_path db) = Ok entries ∧ NoDup entries ∧
    ∀ n, n ∈ entries ↔ is_Some (contents w !! n) ∨ n ∈ others w;
  load_spec w name location p m : table_uri db name = Ok location → default default_store (store_options p) = own_store →
    load w location p m = match contents w !! directory_of name with Some ds => Ok ds | None => Err DatasetNotFound end;
  execute_spec w name location p u : table_uri db name = Ok location → default default_store (store_params p) = own_store →
    ∃ w' o, execute_stream w location p u = (w', o) ∧
    match mode p, contents w !! directory_of name with
    | WCreate, Some _ => contents w' = contents w ∧ others w' = others w ∧ o = Err DatasetAlreadyExists
    | _, old => written p old u o ∧
        match o with
        | Ok ds => contents w' = <[directory_of name := ds]> (contents w) ∧ others w' = others w ∖ {[directory_of name]}
        | _ => contents w' = contents w ∧
            (others w' = others w ∨ old = None ∧ others w' = {[directory_of name]} ∪ others w)
        end
    end;
  commit_handler_spec :
    commit_handler_from_url (match query_string db with Some query => uri db +:+ "?" +:+ query | None => uri db end)
      (storage_options db) = Ok tt;
  delete_spec w name : validate_table_name name = Ok tt → directory_of name ∉ others w → ∃ w',
    commit_delete w (join (base_path db) (directory_of name)) = (w', Ok tt) ∧ contents w' = contents w ∧ others w' = others w;
  remove_spec w name : validate_table_name name = Ok tt → directory_of name ∉ others w → ∃ w' o,
    remove_dir_all w (join (base_path db) (directory_of name)) = (w', o) ∧ others w' = others w ∧
    match contents w !! directory_of name with
    | Some _ => contents w' = delete (directory_of name) (contents w) ∧ o = Ok tt
    | None => contents w' = contents w ∧ (o = Ok tt ∨ o = Err NotFound)
    end;
  stray_delete_spec w name : directory_of name ∈ others w → ∃ w' o,
    commit_delete w (join (base_path db) (directory_of name)) = (w', o) ∧ contents w' = contents w ∧ others w' = others w;
  stray_remove_spec w name : directory_of name ∈ others w → ∃ w' o,
    remove_dir_all w (join (base_path db) (directory_of name)) = (w', o) ∧ contents w' = contents w ∧
    (others w' = others w ∨ others w' = others w ∖ {[directory_of name]})
}.
Context {DL : DirectoryLaws}.

(** Tables by name, and the names of the children that are called like tables
    and are none *)
Record Shelf : Type := mkShelf { tables : gmap string Dataset; strays : gset string }.
Definition spec_exists (name : string) (ds : Dataset) (m : CreateTableMode) (schema : ArrowSchema) : result Out :=
  match m with
  | Create => Err (TableAlreadyExists name)
  | ExistOk _ => if bool_decide (dataset_schema ds = schema) then Ok (OutTable name ds)
                 else Err (Schema "Provided schema does not match existing table schema")
  | Overwrite => Panic
  end.
Definition asked_mode (cm : CreateTableMode) (params : option WriteParams) : WriteMode :=
  match cm, params with Overwrite, _ => WOverwrite | _, Some p => mode p | _, None => WCreate end.
(** Parameters that differ by their store and session only *)
Definition same_table (p q : WriteParams) : Prop :=
  write_version p = write_version q ∧ write_v2_paths p = write_v2_paths q ∧
  write_stable_row_ids p = write_stable_row_ids q ∧ mode p = mode q.
Definition out_written (name : string) (o : outcome LanceError Dataset) : result Out :=
  match o with Ok ds => Ok (OutTable name ds) | Err e => Err (lance_error e) | Panic => Panic end.
Definition after_write (s : Shelf) (name : string) (o : outcome LanceError Dataset) (s' : Shelf) : Prop :=
  match o with
  | Ok ds => s' = mkShelf (<[name := ds]> (tables s)) (strays s ∖ {[name]})
  | _ => s' = s ∨ tables s !! name = None ∧ s' = mkShelf (tables s) ({[name]} ∪ strays s)
  end.
Definition dropped (s : Shelf) (name : string) (s' : Shelf) (o : result unit) : Prop :=
  match tables s !! name with
  | Some _ => s' = mkShelf (delete name (tables s)) (strays s) ∧ o = Ok tt
  | None =>
      if decide (name ∈ strays s) then tables s' = tables s ∧ (strays s' = strays s ∨ strays s' = strays s ∖ {[name]})
      else s' = s ∧ (o = Ok tt ∨ o = Err (TableNotFound name))
  end.
(** What a call may do to a shelf and answer *)
Definition spec_op (s : Shelf) (op : Op) (s' : Shelf) (o : result Out) : Prop :=
  match op with
  | OpCreate name d cm params =>
      match (_ ← validate_table_name name; p ← creation_params db (request name d cm params);
             u ← admit_create_source d; Ok (p, u)) with
      | Ok (p, u) =>
          match asked_mode cm params, tables s !! name with
          | WCreate, Some ds => s' = s ∧ o = spec_exists name ds cm d.1
          | _, old => ∃ q lo, same_table p q ∧ written q old u lo ∧ o = out_written name lo ∧ after_write s name lo s'
          end
      | Err e => s' = s ∧ o = Err e
      | Panic => s' = s ∧ o = Panic
      end
  | OpOpen name => s' = s ∧
      o = (_ ← validate_table_name name;
           match tables s !! name with Some ds => Ok (OutTable name ds) | None => Err (TableNotFound name) end)
  | OpDrop name => ∃ u, dropped s name s' u ∧ o = (_ ← u; Ok OutUnit)
  | OpDropAll => strays s' ⊆ strays s ∧
      match o with
      | Ok out => out = OutUnit ∧ tables s' = ∅
      | _ => ∃ stray, stray ∈ strays s ∧ tables s' = filter (λ nd, str_le stray nd.1) (tables s)
      end
  | OpNames start limit =>
      let names := merge_sort str_le (elements (dom (tables s) ∪ strays s)) in
      let names := match start with Some start => filter (λ n, ¬ str_le n start) names | None => names end in
      s' = s ∧ o = Ok (OutNames (match limit with Some limit => take (Z.to_nat limit) names | None => names end))
  end.
Fixpoint spec_ops (s : Shelf) (ops : list Op) (s' : Shelf) (outs : list (result Out)) : Prop :=
  match ops, outs with
  | [], [] => s' = s
  | op :: ops, o :: outs => ∃ s1, spec_op s op s1 o ∧ spec_ops s1 ops s' outs
  | _, _ => False
  end.
(** Parameters that ask for no store of their own: of storage options, only the
    keys that configure new tables and what the connection says as well *)
Definition stays_home (params : option WriteParams) : Prop :=
  match params ≫= store_params with
  | None => True
  | Some s => object_store_wrapper s = None ∧
      match accessor s with
      | None => True
      | Some a => provider a = None ∧ ∃ m, initial a = Some m ∧ m ≠ ∅ ∧
          ∀ key v, m !! key = Some v → key ∈ creation_names ∨ storage_options db !! key = Some v
      end
  end.
(** Calls the abstract database speaks of: no callback changes the request, no
    planner reports an admission error as an existing table, the request stays
    in the connection's store; a name that is dropped is one a table can have. *)
Definition op_ok (op : Op) : Prop :=
  match op with
  | OpCreate name d m params =>
      (∀ n, admit_create_source d ≠ Err (TableAlreadyExists n)) ∧ stays_home params ∧
      match m with ExistOk callback => ∀ r, callback r = r | _ => True end
  | OpDrop name => validate_table_name name = Ok tt
  | _ => True
  end.
Definition represents (w : World) (s : Shelf) : Prop :=
  contents w = kmap directory_of (tables s) ∧ (∀ name, is_Some (tables s !! name) → validate_table_name name = Ok tt) ∧
  ∀ name, name ∈ strays s ↔ name ≠ "" ∧ directory_of name ∈ others w.

Lemma table_uri_Ok name location : table_uri db name = Ok location → validate_table_name name = Ok tt.
Proof. unfold table_uri. by intros ([] & H & _)%bind_Ok. Qed.
Lemma represents_lookup w s name : represents w s → contents w !! directory_of name = tables s !! name.
Proof. intros [-> _]. apply lookup_kmap, _. Qed.
Lemma represents_same w w' s : represents w s → contents w' = contents w → others w' = others w → represents w' s.
Proof. unfold represents. by intros H -> ->. Qed.
Lemma valid_nonempty name : validate_table_name name = Ok tt → name ≠ "".
Proof. by intros H ->. Qed.
Lemma represents_stray w s name : represents w s → validate_table_name name = Ok tt →
  name ∈ strays s ↔ directory_of name ∈ others w.
Proof. intros (_ & _ & Hs) Hv%valid_nonempty. rewrite Hs. naive_solver. Qed.
Lemma stray_no_table w s name : represents w s → name ∈ strays s → tables s !! name = None.
Proof. intros Hr Hn. rewrite <-(represents_lookup w s name Hr). by apply others_apart, Hr. Qed.
(** A child becomes a table, a table or a stray is removed, a stray is left. *)
Lemma represents_insert w w' s name ds : represents w s → validate_table_name name = Ok tt →
  contents w' = <[directory_of name := ds]> (contents w) → others w' = others w ∖ {[directory_of name]} →
  represents w' (mkShelf (<[name := ds]> (tables s)) (strays s ∖ {[name]})).
Proof.
  intros (Hc & Hv & Hs) Hn Hw Ho. split_and!; cbn [tables strays].
  - by rewrite Hw, Hc, kmap_insert by apply _.
  - intros n. destruct (decide (n = name)) as [->|]; [done|]. rewrite lookup_insert_ne by done. apply Hv.
  - intros n. rewrite Ho, !elem_of_difference, !elem_of_singleton, Hs, (inj_iff directory_of). naive_solver.
Qed.
Lemma represents_delete w w' s name : represents w s → contents w' = delete (directory_of name) (contents w) →
  others w' = others w → represents w' (mkShelf (delete name (tables s)) (strays s)).
Proof.
  intros (Hc & Hv & Hs) Hw Ho. split_and!; cbn [tables strays].
  - by rewrite Hw, Hc, kmap_delete by apply _.
  - intros n [ds H]. apply lookup_delete_Some in H as [_ H]. apply Hv. by exists ds.
  - intros n. by rewrite Ho.
Qed.
Lemma represents_unstray w w' s name : represents w s → contents w' = contents w →
  others w' = others w ∖ {[directory_of name]} → represents w' (mkShelf (tables s) (strays s ∖ {[name]})).
Proof.
  intros (Hc & Hv & Hs) Hw Ho. split_and!; cbn [tables strays]; [by rewrite Hw|done|].
  intros n. rewrite Ho, !elem_of_difference, !elem_of_singleton, Hs, (inj_iff directory_of). naive_solver.
Qed.
Lemma represents_left w w' s name : represents w s → name ≠ "" → contents w' = contents w →
  others w' = {[directory_of name]} ∪ others w → represents w' (mkShelf (tables s) ({[name]} ∪ strays s)).
Proof.
  intros (Hc & Hv & Hs) Hn Hw Ho. split_and!; cbn [tables strays]; [by rewrite Hw|done|].
  intros n. rewrite Ho, !elem_of_union, !elem_of_singleton, Hs, (inj_iff directory_of). naive_solver.
Qed.

(** ** Opening *)
Lemma home_read p : store_options p = (if inherits db then Some (mkStoreParams
    (Some (mkAccessor (Some (storage_options db)) (storage_options_provider db))) None) else None) →
  ∃ p', patch_read (store_wrapper db) p = Ok p' ∧ default default_store (store_options p') = own_store.
Proof.
  intros Hp. unfold patch_read, patch_store, own_store. rewrite Hp.
  destruct (store_wrapper db) as [wr|], (inherits db); cbn; eexists; split; try done; cbn; by rewrite Hp.
Qed.
Lemma open_spec w s name : represents w s →
  out_table (open_table db w (mkOpen name [] None None None false None)) =
    (_ ← validate_table_name name;
     match tables s !! name with Some ds => Ok (OutTable name ds) | None => Err (TableNotFound name) end).
Proof.
  intros Hr. unfold open_table. cbn [open_namespace open_location open_name location_of].
  destruct (table_uri db name) as [location|e|] eqn:Hu.
  - pose proof (table_uri_Ok _ _ Hu) as Hv. rewrite Hv. cbn [mbind outcome_bind]. unfold open_with_params.
    match goal with |- context [patch_read _ ?p] => destruct (home_read p) as (p' & Hp & Hown) end.
    { unfold inherit_storage_options. destruct (inherits db); [|done]. cbn. rewrite (left_id_L ∅ (∪)).
      by destruct (storage_options_provider db). }
    cbn [default]. cbn [default] in Hp. rewrite Hp. cbn [mbind outcome_bind managed_versioning open_namespace_client andb].
    rewrite (load_spec w name location _ _ Hu Hown), (represents_lookup w s name Hr). by destruct (tables s !! name).
  - unfold table_uri in Hu. destruct (validate_table_name name); [done|by injection Hu as <-|done].
  - unfold table_uri in Hu. by destruct (validate_table_name name).
Qed.
Lemma exists_spec w s name ds cm schema : represents w s → validate_table_name name = Ok tt → tables s !! name = Some ds →
  match cm with ExistOk callback => ∀ r, callback r = r | _ => True end →
  out_table (handle_table_exists db w name [] cm schema) = spec_exists name ds cm schema.
Proof.
  intros Hr Hv Hds Hcall. destruct cm as [|callback|]; [done| |done]. cbn [handle_table_exists spec_exists]. rewrite Hcall.
  pose proof (open_spec w s name Hr) as Ho. rewrite Hv, Hds in Ho. cbn [mbind outcome_bind] in Ho.
  destruct (open_table db w _) as [t|e|]; [|done..]. cbn in Ho. injection Ho as <- <-. cbn [mbind outcome_bind].
  by case_bool_decide.
Qed.

(** ** Creating *)
(** Stripped of the keys that configure tables and given what the connection
    says, a store that asks for nothing else is the connection's own. *)
Lemma home_store params : stays_home params →
  let s := inherited db (strip_new_table_creation_keys <$> (params ≫= store_params)) in
  default default_store s = mkStoreParams (accessor own_store) None.
Proof.
  unfold stays_home, own_store, inherited, inherit_storage_options. cbn [accessor].
  destruct (params ≫= store_params) as [st|]; cbn [fmap option_fmap option_map].
  2: { intros _. destruct (inherits db); [|done]. cbn. by rewrite (left_id_L ∅ (∪)). }
  intros [Hw Ha]. destruct (strip_spec st) as (Hopts & _ & Hwrap).
  change (default ∅ (storage_options_of (strip_new_table_creation_keys st)) = unnamed (default ∅ (storage_options_of st))) in Hopts.
  destruct (inherits db) eqn:Hi; cbn [from_option]; unfold id.
  - unfold id in Hopts. rewrite Hopts, Hwrap, Hw.
    assert (unnamed (from_option (λ x, x) ∅ (storage_options_of st)) ∪ storage_options db = storage_options db) as ->; [|done].
    apply map_eq. intros key. rewrite lookup_union, unnamed_lookup. unfold storage_options_of.
    destruct (accessor st) as [a|]; cbn [mbind option_bind].
    + destruct Ha as (_ & m & Hm & _ & Hsub). rewrite Hm. cbn [from_option].
      case_decide; [by destruct (storage_options db !! key)|]. destruct (m !! key) as [v|] eqn:Hk.
      * destruct (Hsub key v Hk) as [?| ->]; done.
      * by destruct (storage_options db !! key).
    + cbn [from_option]. rewrite lookup_empty. case_decide; by destruct (storage_options db !! key).
  - unfold inherits in Hi. apply orb_false_elim in Hi as [He%negb_false_iff%bool_decide_eq_true _].
    unfold strip_new_table_creation_keys. rewrite stripping. destruct (accessor st) as [a|] eqn:Hst.
    + destruct Ha as (Hp & m & Hm & Hne & Hsub). unfold storage_options_of, provider_of. rewrite Hst. cbn [mbind option_bind]. rewrite Hm, Hp.
      cbn [from_option]. unfold id. assert (unnamed m = ∅) as ->.
      { apply map_eq. intros key. rewrite unnamed_lookup, lookup_empty. case_decide as Hk; [done|].
        destruct (m !! key) as [v|] eqn:Hv; [|done]. destruct (Hsub key v Hv) as [?|Hd]; [done|]. by rewrite He, lookup_empty in Hd. }
      rewrite bool_decide_false by (by intros <-). cbn. by rewrite Hw.
    + unfold storage_options_of. rewrite Hst. cbn. destruct st as [ac wr]. cbn in *. by rewrite Hst, Hw.
Qed.
Lemma home_params name d cm params p : stays_home params → creation_params db (request name d cm params) = Ok p →
  mode p = asked_mode cm params ∧
  ∃ q, patch_write (store_wrapper db) p = Ok q ∧ default default_store (store_params q) = own_store ∧ same_table p q.
Proof.
  intros Hh Hp. assert (mode p = asked_mode cm params ∧ default default_store (store_params p) = mkStoreParams (accessor own_store) None) as [Hm Hs].
  { rewrite <-(home_store params Hh). unfold creation_params in Hp. apply bind_Ok in Hp as ([config x] & Ht & [= <-]).
    unfold take_request_creation_overrides in Ht.
    apply bind_Ok in Ht as (? & _ & (? & _ & (? & _ & [= _ <-])%bind_Ok)%bind_Ok).
    unfold prepare_write_params, ensure_blob_storage_version, asked_mode. cbn [create_mode data request lance_write_params].
    split.
    - destruct (MergeBuilder.has_blob_columns _), (is_old _); by destruct cm, params.
    - destruct (MergeBuilder.has_blob_columns _), (is_old _); by destruct params. }
  split; [done|]. unfold patch_write, patch_store. rewrite Hs. cbn [object_store_wrapper accessor].
  unfold own_store in *. cbn [accessor] in *. destruct (store_wrapper db) as [wr|]; cbn; eexists; split_and!; try done.
Qed.
Lemma create_spec w s name d cm params : represents w s → op_ok (OpCreate name d cm params) →
  ∃ w' s' o, run_op w (OpCreate name d cm params) = (w', o) ∧ spec_op s (OpCreate name d cm params) s' o ∧ represents w' s'.
Proof.
  intros Hr (Hadmit & Hh & Hcall). cbn [run_op spec_op]. unfold create_table.
  cbn [create_namespace request create_location create_name location_of].
  destruct (table_uri db name) as [location|e|] eqn:Hu.
  2,3: unfold table_uri in Hu; destruct (validate_table_name name); try done; try (injection Hu as <-);
    cbn [mbind outcome_bind]; eexists _, _, _; by split_and!.
  pose proof (table_uri_Ok _ _ Hu) as Hv. rewrite Hv. cbn [mbind outcome_bind].
  destruct (creation_params db (request name d cm params)) as [p|e|] eqn:Hp; cbn [mbind outcome_bind];
    [|eexists _, _, _; by split_and!..].
  destruct (home_params name d cm params p Hh Hp) as (Hm & q & Hq & Hown & Hsame).
  unfold native_create. cbn [data request create_mode]. rewrite Hq.
  destruct (admit_create_source d) as [u|e|] eqn:Hu'; cbn [mbind outcome_bind].
  2: { destruct e; try (eexists _, _, _; by split_and!). by edestruct Hadmit. }
  2: { eexists _, _, _; by split_and!. }
  destruct (execute_spec w name location q u Hu Hown) as (w' & o & -> & Hexec). rewrite (represents_lookup w s name Hr) in Hexec.
  assert (mode q = asked_mode cm params) as Hm' by (rewrite <-Hm; symmetry; apply Hsame). rewrite Hm' in Hexec.
  assert ((asked_mode cm params = WCreate ∧ ∃ ds, tables s !! name = Some ds) ∨
    (match asked_mode cm params, tables s !! name with WCreate, Some _ => False | _, _ => True end)) as [[Hc [ds Hds]]|Hfree]
    by (destruct (asked_mode cm params), (tables s !! name); eauto).
  { rewrite Hc, Hds in Hexec |- *. destruct Hexec as (Hw & Ho & ->). pose proof (represents_same w w' s Hr Hw Ho) as Hr'.
    eexists w', s, _. split_and!; [by rewrite (exists_spec w' s name ds)|done|done|done]. }
  assert (written q (tables s !! name) u o ∧
    match o with
    | Ok ds => contents w' = <[directory_of name := ds]> (contents w) ∧ others w' = others w ∖ {[directory_of name]}
    | _ => contents w' = contents w ∧
        (others w' = others w ∨ tables s !! name = None ∧ others w' = {[directory_of name]} ∪ others w)
    end) as [Hwr Ho] by (destruct (asked_mode cm params), (tables s !! name); done).
  assert (∃ s', after_write s name o s' ∧ represents w' s') as (s' & Hs' & Hr').
  { destruct o as [ds|e|]; cbn [after_write].
    - destruct Ho as [Hw Ho]. eexists. split; [done|]. by eapply represents_insert.
    - destruct Ho as [Hw [Ho|[Hn Ho]]]; [exists s; split; [by left|by eapply represents_same]|].
      eexists. split; [right; by split|]. eapply represents_left; eauto using valid_nonempty.
    - destruct Ho as [Hw [Ho|[Hn Ho]]]; [exists s; split; [by left|by eapply represents_same]|].
      eexists. split; [right; by split|]. eapply represents_left; eauto using valid_nonempty. }
  exists w', s', (out_written name o). split; [|split; [|done]].
  - destruct o as [ds|e|]; [done| |done]. pose proof (λ n, written_not_exists q _ u e n Hwr) as Hne. cbn [out_written].
    destruct e as [| | |e]; try done; [by destruct (Hne "") as [? _]|]. cbn [lance_error].
    destruct e; try done. by edestruct Hne as [_ []].
  - assert (∃ q lo, same_table p q ∧ written q (tables s !! name) u lo ∧ out_written name o = out_written name lo ∧
      after_write s name lo s') as Hfound by (by exists q, o).
    by destruct (asked_mode cm params), (tables s !! name).
Qed.

(** ** Dropping *)
Lemma drop_one_spec w s name : represents w s → validate_table_name name = Ok tt ∨ name ∈ strays s →
  ∃ w' s' o, drop_one db w name = (w', o) ∧ dropped s name s' o ∧ represents w' s'.
Proof.
  intros Hr Hname. unfold drop_one, dropped. destruct (decide (name ∈ strays s)) as [Hs|Hs].
  - rewrite (stray_no_table w s name Hr Hs). pose proof (proj2 (proj1 (proj2 (proj2 Hr) name) Hs)) as Hin.
    destruct (stray_delete_spec w name Hin) as (w1 & o & -> & Hc & Ho). pose proof (represents_same w w1 s Hr Hc Ho) as Hr1.
    destruct o as [[]|e|]; [|exists w1, s; eexists; split_and!; [done|done|by left|done]..]. rewrite <-Ho in Hin.
    destruct (stray_remove_spec w1 name Hin) as (w2 & o & -> & Hc2 & [Ho2|Ho2]).
    + eexists w2, s, _. split_and!; [done|done|by left|by eapply represents_same].
    + eexists w2, (mkShelf (tables s) (strays s ∖ {[name]})), _. split_and!; [done|done|by right|by eapply represents_unstray].
  - destruct Hname as [Hv|?]; [|done]. assert (directory_of name ∉ others w) as Hn by (by rewrite <-(represents_stray w s name Hr Hv)).
    destruct (delete_spec w name Hv Hn) as (w1 & -> & Hc & Ho). pose proof (represents_same w w1 s Hr Hc Ho) as Hr1.
    rewrite <-Ho in Hn. destruct (remove_spec w1 name Hv Hn) as (w2 & o & -> & Ho2 & H).
    rewrite (represents_lookup w1 s name Hr1) in H. destruct (tables s !! name) as [ds|].
    + destruct H as [Hc2 ->]. eexists w2, _, _. split_and!; [done|done|done|by eapply represents_delete].
    + destruct H as [Hc2 [-> | ->]]; eexists w2, s, _; (split_and!; [done|done|auto|by eapply represents_same]).
Qed.
(** What dropping one name leaves of the others *)
Lemma dropped_others s name s' o : dropped s name s' o →
  strays s' ⊆ strays s ∧ strays s ∖ {[name]} ⊆ strays s' ∧ (∀ n, n ≠ name → tables s' !! n = tables s !! n) ∧
  match o with
  | Ok _ => tables s' = delete name (tables s)
  | _ => tables s' = tables s ∧ (name ∈ strays s ∨ o = Err (TableNotFound name) ∧ tables s !! name = None)
  end.
Proof.
  unfold dropped. destruct (tables s !! name) as [ds|] eqn:Hn.
  - intros [-> ->]. cbn [tables strays]. split_and!; [done|set_solver|intros n ?; by rewrite lookup_delete_ne|done].
  - case_decide as Hs.
    + intros [Ht Hss]. rewrite Ht. split_and!; [set_solver|set_solver|done|]. destruct o; [|auto..]. by rewrite delete_id.
    + intros [-> [-> | ->]]; (split; [done|split; [set_solver|split; [done|]]]); [by rewrite delete_id|auto].
Qed.
Lemma drop_each_spec names : ∀ w s, represents w s → NoDup names → (∀ n, n ∈ names → n ∈ dom (tables s) ∪ strays s) →
  ∃ w' s' o, drop_each db w names = (w', o) ∧ represents w' s' ∧ strays s' ⊆ strays s ∧
    match o with
    | Ok _ => tables s' = filter (λ nd, nd.1 ∉ names) (tables s)
    | _ => ∃ l1 stray l2, names = (l1 ++ stray :: l2)%list ∧ stray ∈ strays s ∧ tables s' = filter (λ nd, nd.1 ∉ l1) (tables s)
    end.
Proof.
  induction names as [|name names IH]; intros w s Hr Hnd Hin.
  { exists w, s. eexists. split_and!; [done|done|done|]. symmetry. apply map_filter_id. intros. apply not_elem_of_nil. }
  cbn [drop_each]. apply NoDup_cons in Hnd as [Hname Hnd].
  assert (validate_table_name name = Ok tt ∨ name ∈ strays s) as Hdrop.
  { specialize (Hin name ltac:(by left)). rewrite elem_of_union, elem_of_dom in Hin. destruct Hin as [?|?]; [left; by apply Hr|by right]. }
  destruct (drop_one_spec w s name Hr Hdrop) as (w1 & s1 & o & -> & Hd & Hr1).
  destruct (dropped_others s name s1 o Hd) as (Hsub & Hkeep & Hother & Ho).
  destruct o as [[]|e|].
  - destruct (IH w1 s1 Hr1 Hnd) as (w2 & s2 & o & -> & Hr2 & Hsub2 & Hres).
    { intros n Hn. specialize (Hin n ltac:(by right)). assert (n ≠ name) by (by intros ->).
      rewrite elem_of_union, elem_of_dom in Hin |- *. rewrite Hother by done. set_solver. }
    exists w2, s2, o. split_and!; [done|done|set_solver|]. rewrite Ho in Hres.
    assert (∀ l, filter (λ nd, nd.1 ∉ l) (delete name (tables s)) = filter (λ nd, nd.1 ∉ name :: l) (tables s)) as Hf.
    { intros l. apply map_eq. intros n. apply option_eq. intros ds. rewrite !map_lookup_filter_Some, lookup_delete_Some, not_elem_of_cons. naive_solver. }
    destruct o as [[]|e|]; [by rewrite Hres, Hf|..]; destruct Hres as (l1 & stray & l2 & -> & Hst & ->);
      exists (name :: l1), stray, l2; (split_and!; [done|set_solver|apply Hf]).
  - destruct Ho as [Ht Hst]. eexists w1, s1, _. split_and!; [done|done|done|]. exists [], name, names. split_and!; [done| |].
    + destruct Hst as [?|[_ Hn]]; [done|]. specialize (Hin name ltac:(by left)). rewrite elem_of_union, elem_of_dom, Hn in Hin.
      destruct Hin as [[? ?]|?]; done.
    + rewrite Ht. symmetry. apply map_filter_id. intros. apply not_elem_of_nil.
  - destruct Ho as [Ht [Hst|[? _]]]; [|done]. eexists w1, s1, _. split_and!; [done|done|done|]. exists [], name, names. split_and!; [done|done|].
    rewrite Ht. symmetry. apply map_filter_id. intros. apply not_elem_of_nil.
Qed.

(** ** Listing *)
Lemma listed w s start limit : represents w s →
  let names := merge_sort str_le (elements (dom (tables s) ∪ strays s)) in
  let names := match start with Some start => filter (λ n, ¬ str_le n start) names | None => names end in
  table_names db w (mkNames [] start limit) = Ok (match limit with Some limit => take (Z.to_nat limit) names | None => names end).
Proof.
  intros Hr. cbv zeta. unfold table_names. cbn [names_namespace start_after names_limit].
  destruct (read_dir_spec w) as (entries & -> & Hnd & Hin). cbn [mbind outcome_bind].
  assert (omap file_stem (List.filter is_lance entries) ≡ₚ elements (dom (tables s) ∪ strays s)) as Hn.
  { rewrite named_omap. apply NoDup_Permutation; [by apply named_NoDup|apply NoDup_elements|]. intros n.
    rewrite named_elem, Hin, elem_of_elements, elem_of_union, elem_of_dom, (represents_lookup w s n Hr).
    destruct Hr as (_ & Hv & Hs). rewrite Hs. split; [naive_solver|]. intros [Ht|?]; [|naive_solver].
    split; [by apply valid_nonempty, Hv|by left]. }
  rewrite (sorted_perm _ _ Hn). destruct start as [start|]; [|done].
  rewrite after_sorted; [done|]. apply (StronglySorted_merge_sort String.le).
Qed.
(** Names that are dropped in order until one that is not: the rest is left. *)
Lemma stopped_at_stray names s s' : StronglySorted str_le names → NoDup names → (∀ n, n ∈ dom (tables s) → n ∈ names) →
  (∃ l1 stray l2, names = (l1 ++ stray :: l2)%list ∧ stray ∈ strays s ∧ tables s' = filter (λ nd, nd.1 ∉ l1) (tables s)) →
  ∃ stray, stray ∈ strays s ∧ tables s' = filter (λ nd, str_le stray nd.1) (tables s).
Proof.
  intros Hsort Hnd Hin (l1 & stray & l2 & -> & Hst & ->). exists stray. split; [done|].
  apply StronglySorted_app in Hsort as (Hbefore & _ & [Hafter _]%StronglySorted_cons).
  apply map_filter_ext. intros n ds Hn. cbn [fst]. split.
  - intros Hl1. assert (n ∈ (l1 ++ stray :: l2)%list) as Hm by (apply Hin, elem_of_dom; by exists ds).
    rewrite elem_of_app, elem_of_cons in Hm. destruct Hm as [?|[->|Hm]]; [done|by apply (reflexivity (R := String.le))|].
    rewrite Forall_forall in Hafter. by apply Hafter.
  - intros Hle Hl1. apply NoDup_app in Hnd as (_ & Hnd & _). apply (Hnd n Hl1).
    assert (n = stray) as -> by (apply (anti_symm String.le); [apply (Hbefore n stray Hl1); by left|done]). by left.
Qed.
Lemma drop_all_spec w s : represents w s →
  ∃ w' s' o, run_op w OpDropAll = (w', o) ∧ spec_op s OpDropAll s' o ∧ represents w' s'.
Proof.
  intros Hr. cbn [run_op spec_op]. unfold drop_all_tables. pose proof (listed w s None None Hr) as ->. cbv zeta.
  unfold drop_tables. rewrite commit_handler_spec. set (names := merge_sort str_le (elements (dom (tables s) ∪ strays s))).
  assert (NoDup names) as Hnd by (unfold names; rewrite (merge_sort_Permutation str_le); apply NoDup_elements).
  assert (∀ n, n ∈ names ↔ n ∈ dom (tables s) ∪ strays s) as Hin.
  { intros n. unfold names. by rewrite (merge_sort_Permutation str_le), elem_of_elements. }
  assert (StronglySorted str_le names) as Hsort by apply (StronglySorted_merge_sort String.le).
  destruct (drop_each_spec names w s Hr Hnd (λ n, proj1 (Hin n))) as (w' & s' & o & -> & Hr' & Hsub & Hres).
  exists w', s'. eexists. split; [done|]. split; [|done]. split; [done|]. destruct o as [[]|e|]; cbn [mbind outcome_bind].
  - split; [done|]. rewrite Hres. apply map_empty. intros n. apply map_lookup_filter_None_2. right. intros ds Hds Hnot.
    cbn in Hnot. apply Hnot, Hin, elem_of_union_l, elem_of_dom. by exists ds.
  - apply (stopped_at_stray names s s'); [done|done| |done]. intros n Hn. by apply Hin, elem_of_union_l.
  - apply (stopped_at_stray names s s'); [done|done| |done]. intros n Hn. by apply Hin, elem_of_union_l.
Qed.
Lemma step_refines w s op : represents w s → op_ok op →
  ∃ w' s' o, run_op w op = (w', o) ∧ spec_op s op s' o ∧ represents w' s'.
Proof.
  intros Hr Hok. destruct op as [name d cm params|name|name| |start limit].
  - by apply (create_spec w s).
  - exists w, s. eexists. split; [done|]. split; [|done]. split; [done|]. by apply open_spec.
  - cbn [run_op spec_op]. unfold drop_table, drop_tables. rewrite commit_handler_spec. cbn [drop_each op_ok] in *.
    destruct (drop_one_spec w s name Hr (or_introl Hok)) as (w' & s' & o & -> & Hd & Hr').
    destruct o as [[]|e|]; eexists w', s', _; (split; [done|]; split; [by eexists|done]).
  - by apply drop_all_spec.
  - exists w, s. eexists. split; [done|]. split; [|done]. split; [done|]. by rewrite (listed w s start limit Hr).
Qed.

(** C38: a directory of tables is a map from names to tables, next to strays,
    children called like a table that hold none: whatever calls create, open,
    drop and list tables of the root namespace, in whatever order, each answers
    as it does on the map.  Creating follows the mode when the name is taken,
    takes a stray's place, and leaves at most a stray when the write fails;
    opening finds exactly the names that are there; dropping takes exactly the
    table that is there, and of all tables, every one unless a stray stops it, and
    then the tables from that name on stay; listing returns the names of tables
    and strays in order, after [start_after], at most [limit].  Requests name no
    store of their own (keys that configure a new table are none), and the store
    answers. *)
Theorem directory_refines_name_map ops w s : represents w s → Forall op_ok ops →
  ∃ w' s' outs, run_ops w ops = (w', outs) ∧ spec_ops s ops s' outs ∧ represents w' s'.
Proof.
  revert w s. induction ops as [|op ops IH]; intros w s Hr Hok; [by exists w, s, []|].
  apply Forall_cons in Hok as [Hop Hok]. destruct (step_refines w s op Hr Hop) as (w1 & s1 & o & H1 & H2 & Hr1).
  destruct (IH w1 s1 Hr1 Hok) as (w2 & s2 & os & H3 & H4 & Hr2). exists w2, s2, (o :: os). cbn [run_ops spec_ops].
  rewrite H1, H3. split_and!; [done|by exists s1|done].
Qed.
End refinement.

Module Demo.
Import ComputedColumns.Demo.
#[export] Existing Instance ComputedColumns.Demo.planner.
#[export] Existing Instance SchemaChanges.Table1.checks.
#[export] Instance versions : FileVersions := {
  LanceFileVersion := bool;
  parse_version s := ok_or (InvalidInput "unknown version") (parse_bool s);
  version_to_string := bool_to_string;
  Stable := false;
  V2_2 := true;
  is_old v := negb v
}.
(** Datasets by directory, and the other children; the location of a table is
    its directory below [db/].  Tokens are as long as the position they name.
    The store of region [eu] is this one, others are empty. *)
Definition directory (location : string) : string := default location (strip_prefix "db/" location).
Definition state : Type := gmap string ArrowSchema * gset string.
Definition others_of (w : state) : gset string := w.2 ∖ dom w.1.
Definition children_of (w : state) : list (string * bool) :=
  (map (λ d, (d, true)) (map fst (map_to_list w.1)) ++ map (λ o, (o, is_lance o)) (elements (others_of w)))%list.
Definition here (p : option StoreParams) : bool :=
  bool_decide (storage_options_of (default default_store p) ≫= lookup "region" = Some "eu").
Definition build (u : UnfilledDeclarations (V := Z)) : outcome LanceError ArrowSchema :=
  if forallb is_ok (Admission.inner u).2 then Ok (Admission.inner u).1 else Err (OtherLance (Lance "interrupted")).
Fixpoint token_of (n : nat) : string := match n with O => "x" | S n => String "x" (token_of n) end.
Lemma token_position n : String.length (token_of n) = S n.
Proof. induction n as [|n IH]; [done|]. cbn. by rewrite IH. Qed.
Definition page_at (w : state) (p : nat) (limit : option Z) : list string * option string :=
  let cs := children_of w in
  let q := match limit with Some n => Nat.min (p + Z.to_nat n) (length cs) | None => length cs end in
  (map fst (List.filter snd (take (q - p) (drop p cs))), if (q =? length cs)%nat then None else Some (token_of q)).
#[export] Instance store : Directory Z := {
  World := state;
  Dataset := ArrowSchema;
  path := string;
  join b d := d;
  read_dir w _ := Ok (map fst (children_of w));
  read_dir_page w _ token limit :=
    Ok (page_at w (match token with Some t => pred (String.length t) | None => 0 end) limit);
  load w location p _ :=
    if here (store_options p) then match w.1 !! directory location with Some ds => Ok ds | None => Err DatasetNotFound end
    else Err DatasetNotFound;
  execute_stream w location p u :=
    let d := directory location in
    if here (store_params p) then
      match mode p, w.1 !! d with
      | WCreate, Some _ => (w, Err DatasetAlreadyExists)
      | _, old =>
          match build u with
          | Ok ds => ((<[d := ds]> w.1, w.2 ∖ {[d]}), Ok ds)
          | o => ((w.1, match old with Some _ => w.2 | None => {[d]} ∪ w.2 end), o)
          end
      end
    else (w, build u);
  shallow_clone w ds location _ := ((<[directory location := ds]> w.1, w.2), Ok tt);
  commit_handler_from_url _ _ := Ok tt;
  commit_delete w _ := (w, Ok tt);
  remove_dir_all w d :=
    if decide (d ∈ others_of w) then ((w.1, w.2 ∖ {[d]}), Ok tt)
    else match w.1 !! d with Some _ => ((delete d w.1, others_of w), Ok tt) | None => (w, Err NotFound) end;
  dataset_schema ds := ds;
  dataset_version _ := 1%Z;
  describe_managed _ := Ok None;
  separator := "/"
}.
#[export] Instance namespaces : NamespaceDatabase Z := {
  ns_table_names _ _ := Ok [];
  ns_list_tables _ _ := Ok ([], None);
  ns_create_table w _ := (w, Panic);
  ns_open_table _ _ := Panic;
  ns_drop_table w _ _ := (w, Panic);
  ns_drop_all_tables w _ := (w, Panic)
}.
Definition db : ListingDatabase Z :=
  mkDb Z versions store "db" None "" None {["region" := "eu"]} None (mkConfig None (Some true) None) 1.
Lemma located name location : table_uri db name = Ok location → directory location = directory_of name.
Proof. unfold table_uri. by intros (u & _ & [= <-])%bind_Ok. Qed.
Lemma at_home p : default default_store p = own_store db → here p = true.
Proof. unfold here. by intros ->. Qed.
#[export] Instance directory_laws : DirectoryLaws db.
Proof.
  refine {| contents w := w.1; others w := others_of w; written _ _ u o := o = build u |}.
  - intros _ _ u e n He. unfold build in He. destruct (forallb _ _); [done|]. injection He as ->. done.
  - intros w n. unfold others_of. rewrite elem_of_difference, not_elem_of_dom. by intros [_ ?].
  - intros w. eexists. split; [done|]. unfold children_of. rewrite map_app, !map_map, map_id. cbn [fst].
    split.
    + apply NoDup_app. split_and!; [apply NoDup_fst_map_to_list| |apply NoDup_elements].
      intros n Hn. rewrite elem_of_elements. unfold others_of. rewrite elem_of_difference. intros [_ []].
      apply list_elem_of_fmap in Hn as [[? ds] [-> Hn]]. apply elem_of_dom. exists ds. by apply elem_of_map_to_list.
    + intros n. rewrite elem_of_app, elem_of_elements. f_equiv. change map with (@fmap list _).
      rewrite list_elem_of_fmap. split.
      * intros ([? ds] & -> & Hn%elem_of_map_to_list). by exists ds.
      * intros [ds Hn%elem_of_map_to_list]. by exists (n, ds).
  - intros w name location p m Hu Hp. cbn [load store]. by rewrite (located name location Hu), (at_home _ Hp).
  - intros w name location p u Hu Hp. cbn [execute_stream store Dataset World]. rewrite (located name location Hu), (at_home _ Hp).
    assert (∀ ds, others_of (<[directory_of name := ds]> w.1, w.2 ∖ {[directory_of name]}) = others_of w ∖ {[directory_of name]}) as Hins
      by (intros ds; unfold others_of; cbn [fst snd]; rewrite dom_insert_L; set_solver).
    assert (w.1 !! directory_of name = None → others_of (w.1, {[directory_of name]} ∪ w.2) = {[directory_of name]} ∪ others_of w) as Hleft.
    { intros Hn%not_elem_of_dom. unfold others_of. cbn [fst snd]. set_solver. }
    unfold build. set (ok := forallb is_ok _). destruct (mode p), (w.1 !! directory_of name) as [old|] eqn:Hold, ok;
      eexists _, _; (split; [reflexivity|]); cbn [fst snd]; rewrite ?Hins; auto 10.
  - done.
  - intros w name _ _. by exists w.
  - intros w name _ Hn. cbn [remove_dir_all join store db base_path Dataset World] in *. rewrite (decide_False _ _ Hn).
    destruct (w.1 !! directory_of name) as [ds|] eqn:Hw; eexists _, _; (split; [reflexivity|]); [|by auto].
    split; [|done]. unfold others_of. cbn [fst snd]. rewrite dom_delete_L.
    apply elem_of_dom_2 in Hw. set_solver.
  - intros w name _. exists w, (Ok tt). done.
  - intros w name Hn. cbn [remove_dir_all join store db base_path Dataset World] in *. rewrite (decide_True _ _ Hn).
    eexists _, _. split; [reflexivity|]. split; [done|]. right. unfold others_of. cbn [fst snd]. set_solver.
Defined.
#[export] Instance page_laws w dir : PageLaws w dir.
Proof.
  refine {| children := children_of w; position t := Some (pred (String.length t)) |}.
  intros token p limit Hp Hle Hlim. cbn [read_dir_page store]. set (cs := children_of w) in *.
  assert (match token with Some t => pred (String.length t) | None => 0%nat end = p) as -> by (destruct token; [by injection Hp|done]).
  set (q := match limit with Some n => Nat.min (p + Z.to_nat n) (length cs) | None => length cs end).
  assert (p ≤ q ≤ length cs)%nat as Hq by (unfold q; destruct limit; lia).
  exists q, (if (q =? length cs)%nat then None else Some (token_of q)). split_and!; try (lia || done).
  - unfold q. destruct limit; lia.
  - destruct (Nat.eqb_spec q (length cs)) as [He|He]; [done|]. split_and!; [by destruct q| |].
    + by rewrite token_position.
    + unfold q in He |- *. destruct limit; [lia|done].
Defined.
Definition table_fields : ArrowSchema := Schema.mkSchema [Schema.mkField "id" (Schema.TOther "Int64") true ∅] ∅.
Definition first_rows : ArrowSchema * list (result (Batch (V := Z))) := (table_fields, []).
(** A request whose options configure the table, and rows that end in an error *)
Definition configured : option WriteParams :=
  Some (mkWrite (Some (mkStoreParams (Some (mkAccessor (Some {[OPT_NEW_TABLE_ENABLE_STABLE_ROW_IDS := "true"]}) None)) None))
    None false false WCreate None).
Definition broken_rows : ArrowSchema * list (result (Batch (V := Z))) := (table_fields, [Err (Other "stream")]).
Definition ops : list (Op (V := Z)) :=
  [OpNames None None; OpCreate "b" first_rows Create configured; OpCreate "a" first_rows Create None;
   OpCreate "a" first_rows Create None; OpCreate "old" first_rows Create None; OpCreate "new" broken_rows Create None;
   OpNames None None; OpOpen "new"; OpDrop "b"; OpOpen "b"; OpNames (Some "b") (Some 2%Z); OpDropAll; OpNames None None].
Definition outs : list (result Out) :=
  [Ok (OutNames ["has space"; "old"]); Ok (OutTable "b" table_fields); Ok (OutTable "a" table_fields);
   Err (TableAlreadyExists "a"); Ok (OutTable "old" table_fields); Err (Lance "interrupted");
   Ok (OutNames ["a"; "b"; "has space"; "new"; "old"]); Err (TableNotFound "new"); Ok OutUnit; Err (TableNotFound "b");
   Ok (OutNames ["has space"; "new"]); Ok OutUnit; Ok (OutNames [])].
Definition start : state := (∅, {["notes.txt"; "old.lance"; "has space.lance"]}).
Lemma start_represents : represents db start (mkShelf ∅ {["old"; "has space"]}).
Proof.
  split_and!; cbn [tables strays contents directory_laws]; [by rewrite kmap_empty|intros name [ds H]; by rewrite lookup_empty in H|].
  intros n. cbn [others directory_laws]. unfold others_of, start. cbn [fst snd]. rewrite dom_empty_L, difference_empty_L.
  change "old.lance" with (directory_of "old"). change "has space.lance" with (directory_of "has space").
  rewrite !elem_of_union, !elem_of_singleton, !(inj_iff directory_of). split.
  - intros [-> | ->]; auto.
  - intros [_ [[Hn|?]|?]]; auto. pose proof (directory_split n) as Hs. by rewrite Hn in Hs.
Qed.
Definition many : state := ({["c.lance" := table_fields; "d.lance" := table_fields; "e.lance" := table_fields]}, {["notes.txt"]}).
Definition asked : CreateTableRequest Z :=
  mkCreate Z versions "a" [] first_rows Overwrite
    (Some (mkWrite (Some (mkStoreParams (Some (mkAccessor (Some {[OPT_NEW_TABLE_STORAGE_VERSION := "true";
       OPT_NEW_TABLE_ENABLE_STABLE_ROW_IDS := "true"; "k" := "v"]}) None)) None))
      None false false WCreate None)) None false.
Definition asked_params : WriteParams := value_or (mkWrite None None false false WCreate None) (creation_params db asked).
End Demo.
Import Demo.

Lemma directory_refines_name_map_witness :
  let s := mkShelf ∅ {["old"; "has space"]} in
  (represents db Demo.start s ∧ (run_ops db Demo.start Demo.ops).2 = Demo.outs) ∧
  ∃ w' s' outs, run_ops db Demo.start Demo.ops = (w', outs) ∧ spec_ops db s Demo.ops s' outs ∧ represents db w' s'.
Proof.
  intros s. assert (represents db Demo.start s) as Hr by apply start_represents.
  split; [split; [exact Hr|vm_cast_no_check (eq_refl Demo.outs)]|].
  apply (directory_refines_name_map db Demo.ops Demo.start s Hr).
  repeat (apply List.Forall_cons || apply List.Forall_nil); try exact I; try (vm_compute; reflexivity).
  all: split; [vm_compute; by intros|]; split; [|exact I]; try exact I.
  split; [done|]. split; [done|]. eexists. split; [done|]. split; [done|]. intros key v [<- _]%lookup_singleton_Some. left. vm_compute.
  by right; right; left.
Defined.
Lemma pages_list_every_table_witness :
  merge_sort str_le (tables_of (children_of Demo.many)) = ["c"; "d"; "e"] ∧
  ∃ pages last, all_pages 9 9 db Demo.many (Some 2%Z) None = Ok (pages ++ [last])%list ∧
    mjoin (pages ++ [last])%list = tables_of (children_of Demo.many) ∧
    Forall (λ page, Z.of_nat (length page) = 2%Z) pages ∧ (Z.of_nat (length last) ≤ 2)%Z.
Proof.
  split; [vm_compute; reflexivity|].
  assert (length (children (w := Demo.many) (dir := base_path db)) < 9)%nat as Hn by (apply Nat.ltb_lt; vm_compute; reflexivity).
  exact (pages_list_every_table db Demo.many (Some 2%Z) 9 9 eq_refl Hn Hn).
Defined.
Lemma creation_keys_configure_the_table_witness :
  creation_params db Demo.asked = Ok Demo.asked_params ∧
  options_in (store_params Demo.asked_params) !! "region" = Some "eu" ∧
  options_in (store_params Demo.asked_params) !! "k" = Some "v" ∧
  options_in (store_params Demo.asked_params) !! OPT_NEW_TABLE_ENABLE_STABLE_ROW_IDS = None ∧
  write_version Demo.asked_params = Some true ∧ write_v2_paths Demo.asked_params = true ∧
  write_stable_row_ids Demo.asked_params = true ∧ mode Demo.asked_params = WOverwrite.
Proof.
  assert (creation_params db Demo.asked = Ok Demo.asked_params) as Hp by (apply value_or_Ok; vm_compute; reflexivity).
  split; [done|].
  destruct (creation_keys_configure_the_table db Demo.asked Demo.asked_params)
    as (version & v2 & stable & H1 & H2 & H3 & Hkeys & Hv2 & Hstable & Hversion & Hmode); [|done|].
  - by intros key [->|[->| ->]]%creation_names_spec.
  - assert (version = Some true) as -> by (destruct version as [[]|]; done).
    assert (v2 = None) as -> by (by destruct v2).
    assert (stable = Some true) as ->.
    { destruct stable as [[]|]; [done| |done]. change (("true", false) ∈ [("true", true); ("false", false)]) in H3.
      rewrite !elem_of_cons, elem_of_nil in H3. by destruct H3 as [?|[?|[]]]. }
    rewrite !Hkeys. split_and!; [done|done|done|exact Hversion|exact Hv2|exact Hstable|exact Hmode].
Defined.
End ListingDb.
